(* ===== verification/_CoqProject ===== *)
-Q . S2P
Prelude.v
GoStrings.v
Regex.v
Syntax.v
Tid.v
Datetime.v
Stream.v
StateMonad.v
Sha256.v
Cbor.v
Mst.v
MstData.v
MstSpec.v
MstSearch.v
MstInsert.v
MstRemove.v
MstCid.v
MstTree.v
MstTerm.v
MstLoad.v
MstMap.v
Repo.v
MstStore.v
RepoLibs.v
MstTheorems.v
RepoTheorems.v
RepoExamples.v
DiskPersist.v
DiskPersistProofs.v
DiskPersistSafety.v
DiskPersistPlayback.v
DiskPersistRuns.v
Hostname.v
Relay.v
RelayAccount.v
RelayHost.v
RelaySources.v
RelayVerify.v
RelayIngest.v
RelayFrame.v
RelayIngestProofs.v
RelayAccountProofs.v
RelayAckProofs.v
RelayQuotaProofs.v
RelaySourceProofs.v
RelayAdminProofs.v
RelayOps.v
RelayHandoffs.v
RelayExamples.v
EventMgr.v
EventMgrProofs.v
EventMgrDelivery.v
EventMgrRuns.v
Parallel.v
ParallelProofs.v
Lease.v
SourceURL.v
JobsData.v
Selection.v
JobsRetry.v
Jobs.v
JobsPds.v
JobsInv.v
JobsLogic.v
JobsQuiet.v
JobsRun.v
JobsProcess.v
JobsTurns.v
JobsTheorems.v
Control.v
Recovery.v
Segment.v
SegmentProofs.v
SegFileProofs.v
SegWriter.v
SegSeal.v
SegSealProofs.v
Manifest.v
ManifestProofs.v
SweepProofs.v
