(* ===== verification/Prelude.v ===== *)
(** * Hypercerts Relay: verification library

    The relay (module [github.com/bluesky-social/indigo], command [cmd/relay])
    reads the event streams of many PDS hosts, checks every event, renumbers
    it, writes it to a durable log and rebroadcasts it.  This library models
    that path and the administration around it, function by function, and
    proves what makes it correct.  Beside it runs Jetstream, which fetches whole
    repositories from the PDS hosts into an archive and serves it; its recovery jobs
    answer the recoveries that the relay owes for a source, and with its segment files
    and the reading of the archive they are modelled too.

    ** The program and its models

    - Identifiers, [src/atproto/syntax]: DIDs, handles, NSIDs, record keys,
      repository paths ([Syntax.v], with the regular expressions of the source
      run by the derivative matcher of [Regex.v]), datetimes ([Datetime.v], with
      [time.Parse]) and TIDs with the TID clock ([Tid.v], 64-bit arithmetic).
    - The Merkle search tree, [src/atproto/repo/mst]: [Mst.v] has the tree in
      memory ([node.go], [node_insert.go], [node_remove.go], [tree.go],
      [verify.go], [util.go]) with its dirty flags, cached CIDs and absent
      children, over the real SHA-256 of [Sha256.v]; [MstData.v] has
      [encoding.go], nodes as blocks, writing to and reading from a block store;
      [Cbor.v] the generated codecs of nodes and commits.  The encoding of CBOR
      headers and links (cbor-gen) and the CID of a block (go-cid) are the
      classes [CborGen] and [CidLib], with the laws of [CborLaws].
    - Repositories, [src/atproto/repo]: [Repo.v] has operations and their
      inversion, the block store, commits and their signing, reading a
      repository from a CAR file (go-car is [CarLib]) and the verification of
      firehose messages, [VerifyCommitMessage].
    - Stream events, [src/cmd/relay/stream/events.go]: [Stream.v].
    - The event log, [src/cmd/relay/stream/persist/diskpersist]:
      [DiskPersist.v].  Files are byte lists in a finite map, the SQL table of
      log files a list of rows; each system call asks an oracle whether it
      fails, and a write may be short.  [Persist], the rotation, the start-up
      scan with its truncation, playback, takedown and garbage collection are
      one definition per function.
    - Host names, [ParseHostname] in [src/cmd/relay/relay/host.go]:
      [Hostname.v], with the part of [net/url] it uses.
    - The relay's state, [src/cmd/relay/relay] and its [models]: [Relay.v].
      Tables are lists of rows; transactions restore them on failure.  All the
      relay talks to (database failures, the log, the identity directory, the
      hosts, the slurper, the clock) are the fields of the class [Services],
      functions of the number of calls made so far, so a theorem that holds
      for every instance holds for every behaviour of the outside.
    - Accounts ([account.go], [host_checker.go], [source_quota.go]):
      [RelayAccount.v].  Hosts and domain bans ([host.go], [domain_ban.go],
      [source_transport.go]): [RelayHost.v].  Managed sources and handoffs
      ([sources.go], [source_handoff.go]): [RelaySources.v].  Commit
      verification ([verify.go], which calls the repository layer):
      [RelayVerify.v].  Event ingestion
      ([ingest.go], [rejections.go], [source_ingest.go]): [RelayIngest.v].
      [RelayOps.v] puts the operations together as a state machine;
      it says which of them leave sources, receipts and handoffs alone.
    - The parallel scheduler, [src/cmd/relay/stream/schedulers/parallel]:
      [Parallel.v], a step relation over the scheduler's fields, its channel
      and its goroutines.
    - The rate admission lease, [src/cmd/relay/relay/rate_policy.go]:
      [Lease.v], a step relation over any number of processes with their own
      clocks and one database row; runs of it at its end.

    - The event manager, [src/cmd/relay/stream/eventmgr]: [EventMgr.v], a step
      relation over subscribers, their buffers and goroutines, and the log.
    - Jetstream's recovery jobs, [src/jetstream/internal/hypercerts]:
      [JobsData.v] has the records of [jobs], [selection] and [attribution], the
      durable store and the manager's state; [Selection.v] the collection policy,
      its gate ([policygate]) and its history; [JobsRetry.v]
      [repository_retry.go]; [Jobs.v] [jobs.go] and [receipt.go]; [JobsPds.v] the
      processor of [pds.go], the runner, and the life of the service as a list of
      turns.  The outside is [JobServices] and [PdsServices]: functions of the
      number of calls made, among them the commands that run between two calls of
      the processor.  [SourceURL.v] is [normalizeSource] with the part of
      [net/url] it uses.
    - The private interfaces between the two services: [Control.v] has the relay's
      [src/cmd/relay/control.go], the requests of [receipt.go] and what the relay
      takes for an answer to a handoff ([source_handoff.go], [send]), and
      Jetstream's [control/handler.go].  Bodies arrive decoded.
    - Jetstream's segment files, [src/jetstream/segment]: [Segment.v] has the
      columns of a block and their encoding ([block.go], [event.go]), the frames of
      an active file, its scan and recovery ([scan.go], [zstd.go]) and the writer
      ([writer.go]); [SegSeal.v] sealing ([seal.go], [header.go], [bloom.go],
      [collection.go], [footer.go]) and the reader ([reader.go], [select.go]).  A
      file is its bytes and how many of them are durable; a crash keeps the durable
      ones and a prefix of the others.  The compressor, the Bloom filter with the
      checksum, and the results of writes and syncs are the classes [Zstd],
      [SealLibs] and [SegIO].
    - The archive as it is read: [Manifest.v] has the manifest of sealed segments and
      the planner ([internal/manifest]), the XRPC method [planSnapshot]
      ([internal/xrpcapi/plansnapshot.go]), and of the client the requests of pages
      ([planner.go]), the matcher of rows ([filter.go]) and the sweep over the pages
      ([client_core.go]).

    A Go method that changes its receiver and may fail is a function of
    [StateMonad.v] from a state to a state and a result; the state it leaves
    behind on an error is kept.  Machine integers are [Z] with [uint64],
    [int64], ... written where the source computes at that width.

    ** What is proved

    - The tree ([MstSpec] to [MstMap], [MstStore], [MstTheorems]).  [MstSpec]
      says what a tree stands for: the list of its pairs, cut by layers.  The
      searches in a node ([MstSearch]), insertion ([MstInsert]), removal
      ([MstRemove]), encoding ([MstCid]) and loading ([MstLoad]) are proved
      against it on partial trees too, and [MstTree], [MstMap] and [MstTheorems]
      conclude that the tree refines a finite map, that the root computed
      incrementally is that of the contents and binds them, that what is written
      in batches can be read back, and that [Verify] accepts what operations
      build.  [MstTerm] shows that the operations end on every tree.
      The end of [MstTheorems] evaluates trees: removing the last key leaves a top at which
      later insertions are not canonical, and [Verify] misses keys out of order.
    - Commit messages ([RepoTheorems], [RepoExamples]).  The
      operations of an accepted message, unless one has the legacy form, are exactly
      the changes between the contents behind its two roots; a truthful message is accepted, unless its inversion
      empties the tree on the way, where the order of the operations decides;
      signatures bind commits.  [emitted_commit_contents] in [RelayIngestProofs]
      composes this with the relay.
    - The event log ([DiskPersistProofs], [DiskPersistSafety],
      [DiskPersistPlayback], [DiskPersistRuns]).  [Persist]
      refines appending one entry, for every pattern of failing system calls;
      after a failure nothing more is acknowledged; a restart recovers the log, where
      behind its entries there may be a prefix of the one that was being written;
      playback from the beginning of a log that has not failed returns what was
      broadcast; takedown and garbage collection remove exactly what they
      should.  [Playback_run] says what playback returns from any cursor: it is complete
      up to a file boundary, and [Playback_loses_events] shows it ending early there.
    - Ingestion ([RelayIngestProofs], [RelayAckProofs]).  Output comes before
      the stored revision and is verified; rejections are final and exclusive;
      an acknowledged event is accounted for; revisions only grow.
    - Accounts and quotas ([RelayAccountProofs], [RelayQuotaProofs]).  The
      account counts are exact and the cache is current in every reachable state, as
      long as no lock-free look-up of an account overlaps a change of it, where
      [late_lookup_stale] shows a stale row in the cache; the quota bounds what is served.
    - Administration ([RelaySourceProofs], [RelayAdminProofs]).  Recovery
      obligations are discharged only by a matching receipt; [SetSourceState] is
      fenced by the revision and queues its handoff atomically; handoffs leave
      the queue only when done; cursors never move back; bans and paging.
    - The scheduler ([ParallelProofs]).  Events of a
      repository are handled in order and one at a time, the resume position
      never passes an unhandled event, and no event gets stuck.
    - The lease ([Lease]).  Two processes never admit at the same time;
      [renew_never_restores] shows a process that keeps the lease but admits
      nothing.
    - The event manager ([EventMgrProofs], [EventMgrDelivery], [EventMgrRuns]).
      A subscriber gets the events after its cursor in order and without duplicate.
      Nothing is missing as long as no playback of the log ends early, as
      [Playback_run] says that it can; then one run of events is.  Once it is live it
      gets all events by its own steps; examples show events held back, lost to a
      playback that ended early, and a broadcast that panics.
    - Recovery jobs.  [JobsInv] states the invariant of the durable document and
      what counts as a quiet change; [JobsLogic] has the rules by which
      [JobsQuiet] shows that commands, receipt goroutines and retry
      rows are quiet; [JobsRun] and [JobsProcess] follow a run of the
      processor under any schedule of them, [JobsTurns] the runner
      and a restart.  [JobsTheorems] concludes: a receipt is sent only when every
      listed repository is in the archive, archived snapshots are verified and
      have the policy's collections, a removed source stays off and silent, jobs
      follow the policy across crashes, attempts are bounded.  [archive_authentic] ties the
      records of a completed repository to what the PDS answered; an example shows a
      request lost to a retried job of an older revision.
    - Both services together.  [Recovery] defines [reach], what the relay and
      Jetstream reach together when receipts are delayed, repeated or lost, answers
      are arbitrary and handoffs and requests come between the turns of Jetstream.
      Its theorems: a source that the relay holds to be recovered is enabled and
      archived by a complete job at its revision and policy; no change of a source
      is lost on the way to Jetstream, but for a ban that the event stream sets off,
      which queues no handoff ([stream_ban_unqueued]); and the relay's answer to a
      receipt is true.
      They rest on the relay's record of receipts and its queue of handoffs
      ([RelayHandoffs]), and on what a handled request leaves in
      Jetstream's document.
    - Segment files.  A buffer decodes to a list of events exactly if it is their
      encoding ([SegmentProofs]); through appends, flushes, prepared flushes, failing
      calls and crashes a scan finds a beginning of the accepted events with all that
      were flushed ([SegFileProofs], [SegWriter]), except when a footer without its
      header is left behind or a block is larger than its decoder allows, which two
      theorems show; and a sealed file is read back, block by block, with Bloom
      filters that miss no DID and a collection index that is exact
      ([SegSealProofs]).
    - The archive ([ManifestProofs], [SweepProofs]).  The manifest is a map from
      indices to metadata, whatever refreshes fail; and [sweep_exact] composes sealed
      files, manifest, planner, method and client: the pages of an accepted request
      deliver exactly the stored events that the matcher wants, in order and once, if
      numbers are positive and, for a request with kinds or collections, every commit has
      a collection.  Examples show a commit without one that is not planned, and what
      empty segments do to the search for a sequence number.
    - Identifiers ([Syntax], [Tid], [Hostname]).  Fast paths agree with the
      regular expressions, round trips, TID order and monotonicity.

    [RepoLibs.v] implements the classes of the libraries, with CBOR as in RFC
    8949, and proves their laws.  [RelayFrame.v] has the frame rules by which the relay's proofs go through
    the text of a handler; [RelayExamples.v] and the end of [DiskPersistRuns.v]
    hold the concrete states on which hypotheses are shown satisfiable.

    ** Bounds

    Loops over a file take the file's length as fuel, of which each round
    consumes at least one byte; theorems about them are stated without the
    fuel, for any content.  The write loop takes the length of its buffer, and
    a write that makes no progress ends it; [Persist_succeeds] shows that the
    fuel is enough.
    Playback makes ten passes, as the source does.  The recursion of [insert]
    and [proveMutation] in the tree counts rounds, computed from the tree, which
    always suffice ([Tree_operations_terminate]).  Loading a tree takes one unit
    of fuel per level: the blocks of the store plus 130, where no tree has more
    than 129 levels, since a key's layer is at most 128.
    The loops over frames of a segment take the length of the file, of which a frame
    consumes at least eight bytes.  The theorems on segments ask for events and blocks
    that fit the columns ([event_ok], [block_ok]), for less than 2^31 events in a file
    ([few]) and files of at most 2^63 - 1 bytes, and those on sealing for the limits
    that the decoder of the index checks ([sealable]); a decoded block has at most 1
    GiB.  The sweep takes one unit of fuel per page; [sweep_exact] needs no more pages
    than there are sequence numbers up to the sealed tip, because each page makes
    progress.  A binary search takes the length of its range.

    ** Not modelled

    The formats of CBOR items and CAR files, the hash behind a CID and the
    arithmetic of signatures are third-party libraries, fields of classes; the
    encoding of stream events is a parameter of [DiskPersist.v].  [sort.Sort] of
    more than twelve operations is a permutation.
    Not modelled are sockets, redialling and rate limiting in [slurper.go]; the
    token buckets of [rate_policy.go] and their two routes; the HTTP handlers
    other than those of the two control interfaces and [planSnapshot], and of the
    former the listings, the diagnostics and the archive keys; of Jetstream's jobs the
    diagnostics and the cache of repository details, which only read; of segment files
    the rewriting and patching of sealed ones, inspection and verification; of the
    manifest its statistics and the wait for a load in the background; and of the rest
    of Jetstream the ingest writer, compaction, imports, subscriptions, the live tail
    of the client, coverage and the attribution of single events.  The downloads of a
    page are a parameter of the sweep: [sweep_exact] is about downloads that return
    the rows of the planned blocks.
    Operations hold the lock the source holds and are steps; [GetAccount], which holds
    none, may have other operations in between; where the source releases it during a network call ([ValidateSource],
    [ProcessSourceHandoffs]) other operations may run in between.  Logging and
    metrics are left out.  What remains besides is generated code (the API types and
    their CBOR), glue around HTTP and SQL, and clients whose logic is in libraries. *)

From Stdlib Require Export ZArith Lia Ascii String Sorted.
From stdpp Require Export base tactics option list gmap strings numbers fin_maps.

#[global] Arguments String.append !s1 s2 / : simpl nomatch.

(** ** Errors as values

    A Go function returning [(T, error)] is modelled by a function into
    [result E T]: [Ok v] for [(v, nil)] and [Err e] for [(_, e)] with [e]
    non-nil. *)

Inductive result (E A : Type) : Type :=
| Ok (a : A)
| Err (e : E).
Arguments Ok {E A} a.
Arguments Err {E A} e.

#[export] Instance result_ret {E} : MRet (result E) := fun _ a => Ok a.
#[export] Instance result_bind {E} : MBind (result E) :=
  fun _ _ f m => match m with Ok a => f a | Err e => Err e end.

Definition is_ok {E A} (r : result E A) : bool :=
  match r with Ok _ => true | Err _ => false end.

#[export] Instance result_eq_dec {E A} `{EqDecision E, EqDecision A} : EqDecision (result E A).
Proof. solve_decision. Defined.

Lemma Ok_inj {E A} (a b : A) : @Ok E A a = Ok b → a = b.
Proof. congruence. Qed.

Lemma result_bind_Ok {E A B} (m : result E A) (f : A → result E B) b :
  (m ≫= f) = Ok b ↔ ∃ a, m = Ok a ∧ f a = Ok b.
Proof.
  destruct m as [a|e]; simpl; split.
  - intros H. by exists a.
  - by intros (a' & [= ->] & H).
  - done.
  - by intros (a' & H & _).
Qed.

(** ** Machine integers

    Go's fixed-width integers are integers of [Z] with the wrap-around written
    out where the source can overflow. *)

Definition uint_wrap (w z : Z) : Z := z `mod` 2 ^ w.
Definition uint64 (z : Z) : Z := uint_wrap 64 z.
Definition uint32 (z : Z) : Z := uint_wrap 32 z.
Definition int64 (z : Z) : Z := (z + 2 ^ 63) `mod` 2 ^ 64 - 2 ^ 63.

Lemma uint64_small z : (0 ≤ z < 2 ^ 64)%Z → uint64 z = z.
Proof. intros. unfold uint64, uint_wrap. by apply Z.mod_small. Qed.

Lemma uint32_small z : (0 ≤ z < 2 ^ 32)%Z → uint32 z = z.
Proof. intros. unfold uint32, uint_wrap. by apply Z.mod_small. Qed.

Lemma uint64_range z : (0 ≤ uint64 z < 2 ^ 64)%Z.
Proof. unfold uint64, uint_wrap. apply Z.mod_pos_bound. lia. Qed.

Lemma int64_small z : (- 2 ^ 63 ≤ z < 2 ^ 63)%Z → int64 z = z.
Proof.
  intros. unfold int64. rewrite Z.mod_small; lia.
Qed.

Lemma int64_uint64 z : (- 2 ^ 63 ≤ z < 2 ^ 63)%Z → int64 (uint64 z) = z.
Proof.
  intros. unfold int64, uint64, uint_wrap.
  rewrite Z.add_mod_idemp_l by lia. rewrite Z.mod_small; lia.
Qed.

Lemma lor_range n a b : (0 ≤ n → 0 ≤ a < 2 ^ n → 0 ≤ b < 2 ^ n → 0 ≤ Z.lor a b < 2 ^ n)%Z.
Proof.
  intros Hn Ha Hb. assert (0 ≤ Z.lor a b)%Z by (apply Z.lor_nonneg; lia). split; [done|].
  destruct (decide (Z.lor a b = 0)%Z) as [->|Hne]; [lia|].
  apply Z.log2_lt_pow2; [lia|]. rewrite Z.log2_lor by lia.
  apply Z.max_lub_lt.
  - destruct (decide (a = 0)%Z) as [->|]; [simpl|apply Z.log2_lt_pow2; lia].
    destruct (decide (n = 0)%Z) as [->|]; [|lia]. exfalso. apply Hne. by replace b with 0%Z by lia.
  - destruct (decide (b = 0)%Z) as [->|]; [simpl|apply Z.log2_lt_pow2; lia].
    destruct (decide (n = 0)%Z) as [->|]; [|lia]. exfalso. apply Hne. by replace a with 0%Z by lia.
Qed.

(** ** Lists *)

Lemma StronglySorted_snoc {A} (R : A → A → Prop) (l : list A) (x : A) :
  StronglySorted R (l ++ [x]) ↔ StronglySorted R l ∧ Forall (λ y, R y x) l.
Proof.
  induction l as [|y l IH]; simpl.
  - split; intros; repeat constructor.
  - split.
    + intros [Hs Hf]%StronglySorted_inv. apply IH in Hs as [Hs Hx].
      apply Forall_app in Hf as [Hf Hy]. inversion Hy; subst. split; by constructor.
    + intros [[Hs Hf]%StronglySorted_inv Hx]. inversion Hx; subst.
      constructor; [by apply IH|]. apply Forall_app. split; [done|by constructor].
Qed.

Lemma List_filter_all {A} (f : A → bool) (l : list A) :
  Forall (λ x, f x = true) l → List.filter f l = l.
Proof. induction 1 as [|x l Hx _ IH]; simpl; [done|]. by rewrite Hx, IH. Qed.

Lemma List_filter_none {A} (f : A → bool) (l : list A) :
  Forall (λ x, f x = false) l → List.filter f l = [].
Proof. induction 1 as [|x l Hx _ IH]; simpl; [done|]. by rewrite Hx. Qed.

(** A list sorted by a key splits at any key. *)
Lemma sorted_split {A} (key : A → Z) (k : Z) (l : list A) :
  StronglySorted Z.lt (map key l) →
  ∃ l1 l2, l = l1 ++ l2 ∧ Forall (λ x, (key x ≤ k)%Z) l1 ∧ Forall (λ x, (k < key x)%Z) l2.
Proof.
  induction l as [|x l IH]; simpl; intros Hs; [by exists [], []|].
  apply StronglySorted_inv in Hs as [Hs Hx]. destruct (decide (key x ≤ k)%Z) as [Hle|Hgt].
  - destruct (IH Hs) as (l1 & l2 & -> & H1 & H2). exists (x :: l1), l2. split; [done|]. split; [by constructor|done].
  - exists [], (x :: l). split; [done|]. split; [constructor|]. constructor; [lia|].
    rewrite Forall_map in Hx. eapply Forall_impl; [exact Hx|simpl; lia].
Qed.

Lemma StronglySorted_NoDup (l : list Z) : StronglySorted Z.lt l → NoDup l.
Proof.
  induction 1 as [|x l _ IH Hx]; constructor; [|done].
  rewrite Forall_forall in Hx. intros Hin. specialize (Hx x Hin). lia.
Qed.

Lemma Forall_sublist' {A} (P : A → Prop) (l k : list A) : l `sublist_of` k → Forall P k → Forall P l.
Proof.
  induction 1; intros Hf; [done|inversion Hf; subst; constructor; auto|inversion Hf; auto].
Qed.

Lemma StronglySorted_sublist {A} (R : A → A → Prop) (l k : list A) :
  l `sublist_of` k → StronglySorted R k → StronglySorted R l.
Proof.
  induction 1 as [|x l k Hs IH|x l k Hs IH]; intros Hk; [done|..]; apply StronglySorted_inv in Hk as [Hk Hx].
  - constructor; [auto|]. by eapply Forall_sublist'.
  - auto.
Qed.

Lemma sublist_map {A B} (f : A → B) (l k : list A) : l `sublist_of` k → map f l `sublist_of` map f k.
Proof. induction 1; simpl; by constructor. Qed.

Lemma List_filter_sublist {A} (f : A → bool) (l : list A) : List.filter f l `sublist_of` l.
Proof. induction l as [|x l IH]; simpl; [done|]. destruct (f x); by constructor. Qed.

Lemma sublist_concat {A} (l k : list (list A)) : l `sublist_of` k → concat l `sublist_of` concat k.
Proof.
  induction 1 as [|x l k _ IH|x l k _ IH]; simpl; [done|by apply sublist_app|by apply sublist_inserts_l].
Qed.

(** ** Proof automation shared by the components *)

Create HintDb relay discriminated.
#[export] Hint Resolve uint64_range : relay.
Create Rewrite HintDb relay.
#[export] Hint Rewrite @uint64_small @uint32_small using lia : relay.

(** Split every [if]/[match] scrutinee of the goal, keeping the equations. *)
Ltac case_go :=
  repeat match goal with
  | |- context [match ?x with _ => _ end] => destruct x eqn:?; simplify_eq/=
  end.

(** The same on a hypothesis. *)
Ltac case_go_in H :=
  repeat match type of H with
  | context [match ?x with _ => _ end] => destruct x eqn:?; simplify_eq/=
  end.

(** Turn boolean tests of the code into propositions. *)
Ltac bool_to_prop :=
  repeat match goal with
  | H : (_ && _) = true |- _ => apply andb_true_iff in H as [? ?]
  | H : (_ || _) = false |- _ => apply orb_false_iff in H as [? ?]
  | H : negb _ = true |- _ => apply negb_true_iff in H
  | H : negb _ = false |- _ => apply negb_false_iff in H
  | H : (_ <? _)%Z = true |- _ => apply Z.ltb_lt in H
  | H : (_ <? _)%Z = false |- _ => apply Z.ltb_ge in H
  | H : (_ <=? _)%Z = true |- _ => apply Z.leb_le in H
  | H : (_ <=? _)%Z = false |- _ => apply Z.leb_gt in H
  | H : (_ =? _)%Z = true |- _ => apply Z.eqb_eq in H
  | H : (_ =? _)%Z = false |- _ => apply Z.eqb_neq in H
  | H : (_ =? _)%nat = true |- _ => apply Nat.eqb_eq in H
  | H : (_ =? _)%nat = false |- _ => apply Nat.eqb_neq in H
  | H : String.eqb _ _ = true |- _ => apply String.eqb_eq in H
  | H : String.eqb _ _ = false |- _ => apply String.eqb_neq in H
  | H : bool_decide _ = true |- _ => apply bool_decide_eq_true in H
  | H : bool_decide _ = false |- _ => apply bool_decide_eq_false in H
  end.

(** A closed equation whose sides are evaluated once, by the kernel. *)
Ltac vm_refl := match goal with |- ?a = ?b => vm_cast_no_check (@eq_refl _ b) end.
