(* ===== verification/GoStrings.v ===== *)
(** * Go byte strings

    A Go [string] (and a [[]byte] that is never mutated in place) is a Rocq
    [string], that is a list of 8-bit characters.  This file gives the functions
    of Go's [strings] and [bytes] packages that the modelled code calls, with
    the facts about them that the components share.  [ToLower] is given on
    ASCII characters: the code applies it to identifiers whose syntax admits no
    other character, and on a non-ASCII byte it is the identity here. *)

From S2P Require Import Prelude.
Local Open Scope string_scope.

(** ** Characters *)

Definition in_range (lo hi c : ascii) : bool :=
  (N_of_ascii lo <=? N_of_ascii c)%N && (N_of_ascii c <=? N_of_ascii hi)%N.

Definition is_lower (c : ascii) : bool := in_range "a" "z" c.
Definition is_upper (c : ascii) : bool := in_range "A" "Z" c.
Definition is_digit (c : ascii) : bool := in_range "0" "9" c.
Definition is_alpha (c : ascii) : bool := is_lower c || is_upper c.
Definition is_alnum (c : ascii) : bool := is_lower c || is_upper c || is_digit c.

Definition lower_char (c : ascii) : ascii :=
  if is_upper c then ascii_of_N (N_of_ascii c + 32) else c.

(** A property of characters holds of all 256 of them iff it computes so. *)
Definition all_chars : list ascii := map ascii_of_nat (seq 0 256).

Lemma all_chars_complete (P : ascii → bool) :
  forallb P all_chars = true → ∀ c, P c = true.
Proof.
  intros H c. rewrite forallb_forall in H. apply H.
  unfold all_chars. rewrite <-(ascii_nat_embedding c).
  apply in_map, in_seq. pose proof (nat_ascii_bounded c). lia.
Qed.

(** Reduce a boolean statement about one character to a computation. *)
Ltac by_chars c :=
  pattern c; revert c;
  match goal with |- ∀ x, @?P x => idtac end;
  apply all_chars_complete; vm_compute; reflexivity.

Lemma lower_char_idem c : lower_char (lower_char c) = lower_char c.
Proof.
  apply Ascii.eqb_eq. revert c. apply all_chars_complete. vm_compute. reflexivity.
Qed.

Lemma lower_char_not_upper c : is_upper (lower_char c) = false.
Proof.
  apply negb_true_iff. revert c. apply all_chars_complete. vm_compute. reflexivity.
Qed.

(** ** Predicates over all the bytes *)

Fixpoint str_forall (P : ascii → bool) (s : string) : bool :=
  match s with
  | "" => true
  | String c s => P c && str_forall P s
  end.

Lemma str_forall_app P s t : str_forall P (s ++ t) = str_forall P s && str_forall P t.
Proof. induction s; simpl; [done|]. rewrite IHs. by rewrite andb_assoc. Qed.

Lemma str_forall_weaken (P Q : ascii → bool) s :
  (∀ c, P c = true → Q c = true) → str_forall P s = true → str_forall Q s = true.
Proof.
  intros HPQ. induction s; simpl; [done|]. rewrite !andb_true_iff. naive_solver.
Qed.

(** ** [strings] functions *)

Definition ToLower : string → string :=
  fix go s := match s with "" => "" | String c s => String (lower_char c) (go s) end.

Definition HasPrefix (s prefix : string) : bool := String.prefix prefix s.

Fixpoint str_rev_app (s acc : string) : string :=
  match s with "" => acc | String c s => str_rev_app s (String c acc) end.
Definition str_rev (s : string) : string := str_rev_app s "".

Definition HasSuffix (s suffix : string) : bool := String.prefix (str_rev suffix) (str_rev s).

(** [strings.Contains(s, string(c))] *)
Fixpoint ContainsByte (c : ascii) (s : string) : bool :=
  match s with "" => false | String a s => Ascii.eqb a c || ContainsByte c s end.

(** [strings.IndexByte(s, c)], -1 when absent *)
Fixpoint IndexByte_from (i : Z) (s : string) (c : ascii) : Z :=
  match s with
  | "" => (-1)%Z
  | String a s => if Ascii.eqb a c then i else IndexByte_from (i + 1) s c
  end.
Definition IndexByte (s : string) (c : ascii) : Z := IndexByte_from 0 s c.

Definition cons_head (a : ascii) (parts : list string) : list string :=
  match parts with [] => [String a ""] | h :: t => String a h :: t end.

(** [strings.Split(s, string(c))] *)
Fixpoint Split (c : ascii) (s : string) : list string :=
  match s with
  | "" => [""]
  | String a s => if Ascii.eqb a c then "" :: Split c s else cons_head a (Split c s)
  end.

(** [strings.SplitN(s, string(c), n)] for [n >= 0] *)
Fixpoint SplitN (c : ascii) (n : nat) (s : string) : list string :=
  match n with
  | O => []
  | 1 => [s]
  | S n' =>
      match s with
      | "" => [""]
      | String a s' =>
          if Ascii.eqb a c then "" :: SplitN c n' s' else cons_head a (SplitN c n s')
      end
  end.

(** [strings.Join(parts, sep)] *)
Fixpoint Join (sep : string) (parts : list string) : string :=
  match parts with
  | [] => ""
  | [p] => p
  | p :: rest => p ++ sep ++ Join sep rest
  end.

Definition len (s : string) : Z := Z.of_nat (String.length s).

Lemma ToLower_idem s : ToLower (ToLower s) = ToLower s.
Proof. induction s; simpl; [done|]. by rewrite lower_char_idem, IHs. Qed.

Lemma ToLower_app s t : ToLower (s ++ t) = ToLower s ++ ToLower t.
Proof. induction s; simpl; [done|]. by rewrite IHs. Qed.

Lemma ToLower_length s : String.length (ToLower s) = String.length s.
Proof. induction s; simpl; [done|]. by rewrite IHs. Qed.

Lemma str_app_nil_r s : s ++ "" = s.
Proof. induction s; simpl; [done|]. by rewrite IHs. Qed.

Lemma str_app_assoc s t u : (s ++ t) ++ u = s ++ (t ++ u).
Proof. induction s; simpl; [done|]. by rewrite IHs. Qed.

Lemma str_length_app s t : String.length (s ++ t) = String.length s + String.length t.
Proof. induction s; simpl; [done|]. by rewrite IHs. Qed.

Lemma str_app_inj_l s t u : s ++ t = s ++ u → t = u.
Proof. induction s; simpl; [done|]. intros [= ?]. auto. Qed.

Lemma HasPrefix_spec s p : HasPrefix s p = true ↔ ∃ t, s = p ++ t.
Proof.
  unfold HasPrefix. revert s. induction p as [|a p IH]; intros s.
  - split; [intros _; by exists s|]. by destruct s.
  - destruct s as [|b s]; simpl.
    + split; [done|]. by intros [? ?].
    + destruct (ascii_dec a b) as [->|Hne]; [rewrite IH|].
      * split; intros [t Ht]; exists t; congruence.
      * split; [done|]. intros [t [= ? ?]]. congruence.
Qed.

(** ** Lexicographic order, as Go compares strings and byte slices *)

Definition str_lt (a b : string) : bool := String.ltb a b.
Definition str_le (a b : string) : bool := String.leb a b.

Lemma str_lt_cons a b s t :
  str_lt (String a s) (String b t)
  = if Ascii.eqb a b then str_lt s t else (N_of_ascii a <? N_of_ascii b)%N.
Proof.
  unfold str_lt, String.ltb. simpl. unfold Ascii.compare.
  destruct (Ascii.eqb_spec a b) as [->|Hne].
  - by rewrite N.compare_refl.
  - unfold N.ltb. destruct (N.compare_spec (N_of_ascii a) (N_of_ascii b)) as [He| |]; [|done|done].
    destruct Hne. rewrite <-(ascii_N_embedding a), <-(ascii_N_embedding b). by rewrite He.
Qed.

Lemma N_of_ascii_inj a b : N_of_ascii a = N_of_ascii b → a = b.
Proof. intros H. rewrite <-(ascii_N_embedding a), <-(ascii_N_embedding b). by rewrite H. Qed.

Lemma str_lt_irrefl a : str_lt a a = false.
Proof. induction a as [|c a IH]; [done|]. by rewrite str_lt_cons, Ascii.eqb_refl. Qed.

Lemma str_lt_trans a b c : str_lt a b = true → str_lt b c = true → str_lt a c = true.
Proof.
  revert b c. induction a as [|x a IH]; intros [|y b] [|z c]; try done.
  rewrite !str_lt_cons.
  destruct (Ascii.eqb_spec x y) as [->|Hxy]; destruct (Ascii.eqb_spec y z) as [->|Hyz].
  - rewrite ?Ascii.eqb_refl. apply IH.
  - by rewrite ?(proj2 (Ascii.eqb_neq _ _) Hyz).
  - by rewrite ?(proj2 (Ascii.eqb_neq _ _) Hxy).
  - rewrite !N.ltb_lt. intros H1 H2. destruct (Ascii.eqb_spec x z) as [->|_]; [lia|].
    apply N.ltb_lt. lia.
Qed.

Lemma str_lt_total a b : str_lt a b = false → str_lt b a = false → a = b.
Proof.
  revert b. induction a as [|x a IH]; intros [|y b]; try done.
  rewrite !str_lt_cons, (Ascii.eqb_sym y x).
  destruct (Ascii.eqb_spec x y) as [->|Hxy].
  - intros H1 H2. by rewrite (IH b H1 H2).
  - rewrite !N.ltb_ge. intros. destruct Hxy. apply N_of_ascii_inj. lia.
Qed.

Lemma str_lt_asym a b : str_lt a b = true → str_lt b a = false.
Proof.
  intros H. destruct (str_lt b a) eqn:E; [|done].
  pose proof (str_lt_trans _ _ _ H E) as Hc. by rewrite str_lt_irrefl in Hc.
Qed.

Lemma str_lt_ne a b : str_lt a b = true → a ≠ b.
Proof. intros H ->. by rewrite str_lt_irrefl in H. Qed.

Lemma str_le_lt a b : str_le a b = negb (str_lt b a).
Proof.
  unfold str_le, str_lt, String.leb, String.ltb.
  rewrite (String.compare_antisym a b). by destruct (String.compare b a).
Qed.

(** ** Splitting and joining *)

Lemma Split_not_nil c s : Split c s ≠ [].
Proof. destruct s; simpl; [done|]. case_match; [done|]. by destruct (Split c s). Qed.

Lemma ContainsByte_app c s t : ContainsByte c (s ++ t) = ContainsByte c s || ContainsByte c t.
Proof. induction s; simpl; [done|]. rewrite IHs. by rewrite orb_assoc. Qed.

Lemma Split_no_sep c s : ContainsByte c s = false → Split c s = [s].
Proof.
  induction s as [|a s IH]; simpl; [done|].
  rewrite orb_false_iff. intros [-> H]. by rewrite (IH H).
Qed.

Lemma Split_app_sep c s t :
  ContainsByte c s = false → Split c (s ++ String c t) = s :: Split c t.
Proof.
  induction s as [|a s IH]; simpl.
  - intros _. by rewrite Ascii.eqb_refl.
  - rewrite orb_false_iff. intros [-> H]. by rewrite (IH H).
Qed.

Lemma Join_Split c s : Join (String c "") (Split c s) = s.
Proof.
  induction s as [|a s IH]; simpl; [done|].
  destruct (Ascii.eqb_spec a c) as [->|Hne]; simpl.
  - pose proof (Split_not_nil c s). destruct (Split c s) as [|p l]; [done|]. by rewrite IH.
  - pose proof (Split_not_nil c s). destruct (Split c s) as [|p l]; [done|]. simpl in *.
    destruct l; simpl in *; by rewrite IH.
Qed.

Lemma SplitN_1 c s : SplitN c 1 s = [s].
Proof. by destruct s. Qed.

Lemma SplitN_no_sep c n s : ContainsByte c s = false → SplitN c (S n) s = [s].
Proof.
  revert n. induction s as [|a s IH]; intros n; simpl.
  - by destruct n.
  - destruct n; [done|]. rewrite orb_false_iff. intros [-> H].
    change (cons_head a (SplitN c (S (S n)) s) = [String a s]). by rewrite (IH (S n) H).
Qed.

Lemma SplitN_app_sep c n s t :
  ContainsByte c s = false → SplitN c (S (S n)) (s ++ String c t) = s :: SplitN c (S n) t.
Proof.
  intros H. induction s as [|a s IH]; simpl in *.
  - by rewrite Ascii.eqb_refl.
  - apply orb_false_iff in H as [-> H].
    change (cons_head a (SplitN c (S (S n)) (s ++ String c t)) = String a s :: SplitN c (S n) t).
    by rewrite (IH H).
Qed.

(** The first separator of a string, if any. *)
Lemma ContainsByte_split c s :
  ContainsByte c s = true → ∃ u v, s = u ++ String c v ∧ ContainsByte c u = false.
Proof.
  induction s as [|a s IH]; simpl; [done|].
  destruct (Ascii.eqb_spec a c) as [->|Hne]; simpl.
  - intros _. by exists "", s.
  - intros (u & v & -> & Hu)%IH. exists (String a u), v. split; [done|].
    simpl. rewrite Hu. destruct (Ascii.eqb_spec a c); done.
Qed.

(** ** Separators *)

Lemma sep_inj c a b s t :
  ContainsByte c a = false → ContainsByte c b = false → a ++ String c s = b ++ String c t → a = b ∧ s = t.
Proof.
  revert b. induction a as [|x a IH]; intros [|y b]; simpl; intros Ha Hb Heq; simplify_eq.
  - done.
  - by rewrite Ascii.eqb_refl in Hb.
  - by rewrite Ascii.eqb_refl in Ha.
  - apply orb_false_iff in Ha as [_ Ha], Hb as [_ Hb]. destruct (IH b Ha Hb) as [-> ->]; done.
Qed.
