(* ===== verification/Regex.v ===== *)
(** * Regular expressions

    The syntax parsers of [src/atproto/syntax] validate identifiers with
    anchored Go regular expressions ([^...$]) built from character classes,
    concatenation, [*], [+], [?] and bounded repetition.  Go matches such a
    pattern in time linear in the input; the model is the derivative-based
    matcher [matches], proved equivalent to the language [lang] the expression
    denotes.  Classes list ASCII characters only, so matching bytes and
    matching the runes of the UTF-8 decoding accept the same strings. *)

From S2P Require Import Prelude GoStrings.
Local Open Scope string_scope.

Inductive regex : Type :=
| Empty
| Eps
| Chr (p : ascii → bool)
| Cat (r1 r2 : regex)
| Alt (r1 r2 : regex)
| Star (r : regex)
| UpTo (n : nat) (r : regex).

(** ** The derived forms of the patterns *)

Definition Plus (r : regex) : regex := Cat r (Star r).
Definition Opt (r : regex) : regex := Alt Eps r.
Fixpoint Times (n : nat) (r : regex) : regex :=
  match n with O => Eps | S n => Cat r (Times n r) end.
(** [r{lo,hi}] *)
Definition Between (lo hi : nat) (r : regex) : regex := Cat (Times lo r) (UpTo (hi - lo) r).
Fixpoint Lit (s : string) : regex :=
  match s with "" => Eps | String c s => Cat (Chr (Ascii.eqb c)) (Lit s) end.

(** ** Denotation *)

Inductive lang : regex → string → Prop :=
| L_eps : lang Eps ""
| L_chr p c : p c = true → lang (Chr p) (String c "")
| L_cat r1 r2 s t : lang r1 s → lang r2 t → lang (Cat r1 r2) (s ++ t)
| L_alt_l r1 r2 s : lang r1 s → lang (Alt r1 r2) s
| L_alt_r r1 r2 s : lang r2 s → lang (Alt r1 r2) s
| L_star_nil r : lang (Star r) ""
| L_star_cons r s t : lang r s → lang (Star r) t → lang (Star r) (s ++ t)
| L_upto_nil n r : lang (UpTo n r) ""
| L_upto_cons n r s t : lang r s → lang (UpTo n r) t → lang (UpTo (S n) r) (s ++ t).
#[export] Hint Constructors lang : relay.

(** ** The matcher *)

Fixpoint nullable (r : regex) : bool :=
  match r with
  | Empty | Chr _ => false
  | Eps | Star _ | UpTo _ _ => true
  | Cat r1 r2 => nullable r1 && nullable r2
  | Alt r1 r2 => nullable r1 || nullable r2
  end.

Definition cat (r1 r2 : regex) : regex :=
  match r1, r2 with
  | Empty, _ | _, Empty => Empty
  | Eps, r | r, Eps => r
  | _, _ => Cat r1 r2
  end.

Definition alt (r1 r2 : regex) : regex :=
  match r1, r2 with
  | Empty, r | r, Empty => r
  | _, _ => Alt r1 r2
  end.

Fixpoint deriv (c : ascii) (r : regex) : regex :=
  match r with
  | Empty | Eps => Empty
  | Chr p => if p c then Eps else Empty
  | Cat r1 r2 =>
      if nullable r1 then alt (cat (deriv c r1) r2) (deriv c r2)
      else cat (deriv c r1) r2
  | Alt r1 r2 => alt (deriv c r1) (deriv c r2)
  | Star r => cat (deriv c r) (Star r)
  | UpTo O _ => Empty
  | UpTo (S n) r => cat (deriv c r) (UpTo n r)
  end.

Fixpoint matches (r : regex) (s : string) : bool :=
  match s with
  | "" => nullable r
  | String c s => matches (deriv c r) s
  end.

(** ** The matcher decides the language *)

Lemma lang_empty s : ¬ lang Empty s.
Proof. by inversion 1. Qed.

Lemma lang_eps s : lang Eps s ↔ s = "".
Proof. split; [by inversion 1|intros ->; constructor]. Qed.

Lemma lang_chr p s : lang (Chr p) s ↔ ∃ c, s = String c "" ∧ p c = true.
Proof.
  split; [inversion 1; eauto|]. intros (c & -> & H). by constructor.
Qed.

Lemma lang_cat r1 r2 s : lang (Cat r1 r2) s ↔ ∃ u v, s = u ++ v ∧ lang r1 u ∧ lang r2 v.
Proof.
  split; [inversion 1; subst; eauto|].
  intros (u & v & -> & Hu & Hv). by constructor.
Qed.

Lemma lang_alt r1 r2 s : lang (Alt r1 r2) s ↔ lang r1 s ∨ lang r2 s.
Proof. split; [inversion 1; auto|]. intros [?|?]; by constructor. Qed.

Lemma lang_cat_empty r s : (lang (Cat Empty r) s ↔ lang Empty s) ∧ (lang (Cat r Empty) s ↔ lang Empty s).
Proof.
  rewrite !lang_cat. split; (split; [|by intros ?%lang_empty]);
    intros (u & v & _ & Hu & Hv); [by destruct (lang_empty _ Hu)|by destruct (lang_empty _ Hv)].
Qed.

Lemma lang_cat_eps r s : (lang (Cat Eps r) s ↔ lang r s) ∧ (lang (Cat r Eps) s ↔ lang r s).
Proof.
  rewrite !lang_cat. setoid_rewrite lang_eps. split; split.
  - by intros (u & v & -> & -> & Hv).
  - intros H. by exists "", s.
  - intros (u & v & -> & Hu & ->). by rewrite str_app_nil_r.
  - intros H. exists s, "". by rewrite str_app_nil_r.
Qed.

Lemma lang_smart_cat r1 r2 s : lang (cat r1 r2) s ↔ lang (Cat r1 r2) s.
Proof.
  destruct r1, r2; simpl; try done; symmetry;
    first [apply lang_cat_eps | apply lang_cat_empty].
Qed.

Lemma lang_smart_alt r1 r2 s : lang (alt r1 r2) s ↔ lang (Alt r1 r2) s.
Proof.
  rewrite lang_alt.
  destruct r1, r2; simpl; rewrite ?lang_alt; try done;
    split; try tauto; intros [H|H]; try done; by destruct (lang_empty _ H).
Qed.

Lemma lang_nullable r : nullable r = true ↔ lang r "".
Proof.
  induction r; simpl.
  - split; [done|]. by intros ?%lang_empty.
  - by rewrite lang_eps.
  - rewrite lang_chr. split; [done|]. by intros (c & ? & _).
  - rewrite andb_true_iff, IHr1, IHr2, lang_cat. split.
    + intros [H1 H2]. by exists "", "".
    + intros ([] & [] & ? & H1 & H2); done.
  - by rewrite orb_true_iff, IHr1, IHr2, lang_alt.
  - split; [constructor|done].
  - split; [constructor|done].
Qed.

Lemma lang_star_first r c s :
  lang (Star r) (String c s) → ∃ u v, s = u ++ v ∧ lang r (String c u) ∧ lang (Star r) v.
Proof.
  remember (Star r) as rs eqn:Hr. remember (String c s) as cs eqn:Hs.
  intros H. revert r c s Hr Hs. induction H; intros r0 c0 s0 Hr Hs; simplify_eq.
  destruct s as [|a s]; simpl in *; simplify_eq; eauto.
Qed.

Lemma lang_upto_S n r s : lang (UpTo n r) s → lang (UpTo (S n) r) s.
Proof.
  remember (UpTo n r) as u eqn:Hq. intros H. revert n r Hq.
  induction H; intros m q Hq; simplify_eq; constructor; eauto.
Qed.

Lemma lang_upto_first n r c s :
  lang (UpTo n r) (String c s) →
  ∃ n' u v, n = S n' ∧ s = u ++ v ∧ lang r (String c u) ∧ lang (UpTo n' r) v.
Proof.
  remember (UpTo n r) as rs eqn:Hr. remember (String c s) as cs eqn:Hs.
  intros H. revert n r c s Hr Hs. induction H; intros n0 r0 c0 s0 Hr Hs; simplify_eq.
  destruct s as [|a s]; simpl in *; simplify_eq; [|eauto 10].
  destruct (IHlang2 _ _ _ _ eq_refl eq_refl) as (n' & u & v & -> & -> & Hu & Hv).
  exists (S n'), u, v. split_and!; [done..|]. by apply lang_upto_S.
Qed.

Lemma lang_deriv c r s : lang (deriv c r) s ↔ lang r (String c s).
Proof.
  revert s. induction r; intros s; simpl.
  - split; by intros ?%lang_empty.
  - split; [by intros ?%lang_empty|]. by intros ?%lang_eps.
  - rewrite lang_chr. destruct (p c) eqn:E; [rewrite lang_eps|].
    + split; [intros ->; eauto|]. by intros (c' & [= -> ->] & _).
    + split; [by intros ?%lang_empty|]. intros (c' & [= -> ->] & ?). congruence.
  - assert (Hcat : lang (cat (deriv c r1) r2) s ↔
                   ∃ u v, s = u ++ v ∧ lang r1 (String c u) ∧ lang r2 v).
    { rewrite lang_smart_cat, lang_cat. by setoid_rewrite IHr1. }
    rewrite lang_cat. destruct (nullable r1) eqn:E;
      [rewrite lang_smart_alt, lang_alt, IHr2|]; rewrite Hcat.
    + split.
      * intros [(u & v & -> & H1 & H2)|H2]; [by exists (String c u), v|].
        exists "", (String c s). by rewrite <-lang_nullable.
      * intros ([|a u] & v & Hs & H1 & H2); simpl in *; simplify_eq; [by right|left; eauto 6].
    + split.
      * intros (u & v & -> & H1 & H2). by exists (String c u), v.
      * intros ([|a u] & v & Hs & H1 & H2); simpl in *; simplify_eq; [|eauto 6].
        apply lang_nullable in H1. congruence.
  - rewrite lang_smart_alt, !lang_alt. by rewrite IHr1, IHr2.
  - rewrite lang_smart_cat, lang_cat. setoid_rewrite IHr. split.
    + intros (u & v & -> & H1 & H2). change (String c (u ++ v)) with (String c u ++ v).
      by constructor.
    + intros (u & v & -> & H1 & H2)%lang_star_first. eauto 6.
  - destruct n as [|n].
    + split; [by intros ?%lang_empty|].
      by intros (n' & u & v & ? & _)%lang_upto_first.
    + rewrite lang_smart_cat, lang_cat. setoid_rewrite IHr. split.
      * intros (u & v & -> & H1 & H2). change (String c (u ++ v)) with (String c u ++ v).
        by constructor.
      * intros (n' & u & v & [= <-] & -> & H1 & H2)%lang_upto_first. eauto 6.
Qed.

Lemma matches_lang r s : matches r s = true ↔ lang r s.
Proof.
  revert r. induction s as [|c s IH]; intros r; simpl.
  - apply lang_nullable.
  - rewrite IH. apply lang_deriv.
Qed.

(** ** Consequences used by the parsers *)

Lemma lang_lit s t : lang (Lit s) t ↔ t = s.
Proof.
  revert t. induction s as [|c s IH]; intros t; simpl.
  - apply lang_eps.
  - rewrite lang_cat. setoid_rewrite lang_chr. setoid_rewrite IH. split.
    + intros (u & v & -> & (c' & -> & ->%Ascii.eqb_eq) & ->). done.
    + intros ->. exists (String c ""), s. split_and!; try done.
      exists c. by rewrite Ascii.eqb_refl.
Qed.

Lemma lang_star_chr p s : lang (Star (Chr p)) s ↔ str_forall p s = true.
Proof.
  split.
  - remember (Star (Chr p)) as r eqn:Hr. induction 1; simplify_eq/=; [done|].
    apply lang_chr in H as (c & -> & Hc). simpl. by rewrite Hc, IHlang2.
  - induction s as [|c s IH]; simpl; [constructor|].
    intros [Hc Hs]%andb_true_iff. change (String c s) with (String c "" ++ s).
    constructor; [by constructor|auto].
Qed.

Lemma lang_upto_chr n p s :
  lang (UpTo n (Chr p)) s ↔ str_forall p s = true ∧ (String.length s ≤ n)%nat.
Proof.
  split.
  - remember (UpTo n (Chr p)) as r eqn:Hr. intros H. revert n Hr.
    induction H; intros n0 Hr; simplify_eq/=; [split; [done|lia]|].
    apply lang_chr in H as (c & -> & Hc). destruct (IHlang2 n eq_refl) as [H1 H2].
    simpl. rewrite Hc, H1. split; [done|lia].
  - revert n. induction s as [|c s IH]; simpl; intros n [H1 H2]; [constructor|].
    apply andb_true_iff in H1 as [Hc Hs].
    destruct n as [|n]; [lia|]. change (String c s) with (String c "" ++ s).
    constructor; [by constructor|]. apply IH. split; [done|lia].
Qed.

Lemma lang_times_chr n p s :
  lang (Times n (Chr p)) s ↔ str_forall p s = true ∧ String.length s = n.
Proof.
  revert s. induction n as [|n IH]; intros s; simpl.
  - rewrite lang_eps. split; [by intros ->|]. destruct s; naive_solver.
  - rewrite lang_cat. setoid_rewrite lang_chr. setoid_rewrite IH. split.
    + intros (u & v & -> & (c & -> & Hc) & Hv & Hl). simpl. rewrite Hc, Hv. auto.
    + destruct s as [|c s]; [naive_solver|]. simpl. intros [H1 H2].
      apply andb_true_iff in H1 as [Hc Hs].
      exists (String c ""), s. split_and!; [done|eauto|done|lia].
Qed.

(** Every byte of a matched string belongs to some class of the pattern. *)
Fixpoint chars_in (P : ascii → bool) (r : regex) : Prop :=
  match r with
  | Empty | Eps => True
  | Chr p => ∀ c, p c = true → P c = true
  | Cat r1 r2 | Alt r1 r2 => chars_in P r1 ∧ chars_in P r2
  | Star r | UpTo _ r => chars_in P r
  end.

Lemma lang_chars_in P r s : chars_in P r → lang r s → str_forall P s = true.
Proof.
  intros HP H. revert HP. induction H; simpl; intros HP; try done;
    rewrite ?str_forall_app; try naive_solver.
  - by rewrite (HP _ H).
  - destruct HP as [H1 H2]. by rewrite IHlang1, IHlang2.
  - by rewrite IHlang1, IHlang2.
  - by rewrite IHlang1, IHlang2.
Qed.
