(* ===== verification/Syntax.v ===== *)
(** * Identifier syntax: [src/atproto/syntax]

    The parsers of [did.go], [handle.go], [nsid.go], [recordkey.go] and
    [path.go], and [NormalizeDID] of [src/cmd/relay/relay/account.go].  A parser
    returns [Ok] of the unchanged input or [Err] of the message the source
    builds.  The theorems relate the fast path of [ParseDID] to the regular
    expression, show that the parsed parts of a DID and of a repository path
    rebuild the input, and that normalisation keeps identifiers valid. *)

From S2P Require Import Prelude GoStrings Regex.
Local Open Scope string_scope.

(** ** [did.go] *)

Definition did_chars (c : ascii) : bool :=
  is_alnum c || Ascii.eqb c "." || Ascii.eqb c "_" || Ascii.eqb c ":"
  || Ascii.eqb c "%" || Ascii.eqb c "-".
Definition did_last_chars (c : ascii) : bool :=
  is_alnum c || Ascii.eqb c "." || Ascii.eqb c "_" || Ascii.eqb c "-".

Definition didRegex : regex :=
  Cat (Lit "did:") (Cat (Plus (Chr is_lower))
    (Cat (Lit ":") (Cat (Star (Chr did_chars)) (Chr did_last_chars)))).

Definition isASCIIAlphaNum (c : ascii) : bool :=
  in_range "a" "z" c || in_range "A" "Z" c || in_range "0" "9" c.

Definition ParseDID_slow (raw : string) : result string string :=
  if String.eqb raw "" then Err "expected DID, got empty string"
  else if (2 * 1024 <? len raw)%Z then Err "DID is too long (2048 chars max)"
  else if negb (matches didRegex raw) then Err "DID syntax didn't validate via regex"
  else Ok raw.

Definition ParseDID (raw : string) : result string string :=
  if (len raw =? 32)%Z && HasPrefix raw "did:plc:"
     && str_forall isASCIIAlphaNum (String.substring 8 24 raw)
  then Ok raw
  else ParseDID_slow raw.

Definition DID_Method (d : string) : string :=
  match SplitN ":" 3 d with
  | _ :: m :: _ => ToLower m
  | _ => ""
  end.

Definition DID_Identifier (d : string) : string :=
  match SplitN ":" 3 d with
  | _ :: _ :: i :: _ => i
  | _ => ""
  end.

(** ** [handle.go] *)

Definition label_char (c : ascii) : bool := is_alnum c || Ascii.eqb c "-".

(** [([a-zA-Z0-9-]{0,61}[a-zA-Z0-9])?] *)
Definition label_rest : regex := Opt (Cat (Between 0 61 (Chr label_char)) (Chr is_alnum)).

Definition handleRegex : regex :=
  Cat (Plus (Cat (Cat (Chr is_alnum) label_rest) (Lit ".")))
    (Cat (Chr is_alpha) label_rest).

Definition HandleInvalid : string := "handle.invalid".

Definition ParseHandle (raw : string) : result string string :=
  if String.eqb raw "" then Err "expected handle, got empty string"
  else if (253 <? len raw)%Z then Err "handle is too long (253 chars max)"
  else if negb (matches handleRegex raw)
  then Err ("handle syntax didn't validate via regex: " ++ raw)
  else Ok raw.

Definition Handle_Normalize (h : string) : string := ToLower h.

Definition Handle_TLD (h : string) : string := List.last (Split "." (Handle_Normalize h)) "".

Definition Handle_AllowedTLD (h : string) : bool :=
  negb (existsb (String.eqb (Handle_TLD h))
    ["local"; "arpa"; "invalid"; "localhost"; "internal"; "example"; "onion"; "alt"]).

Definition Handle_IsInvalidHandle (h : string) : bool :=
  String.eqb (Handle_Normalize h) HandleInvalid.

(** ** [nsid.go] *)

Definition nsidRegex : regex :=
  Cat (Cat (Chr is_alpha) label_rest)
    (Cat (Plus (Cat (Lit ".") (Cat (Chr is_alnum) label_rest)))
      (Cat (Lit ".") (Cat (Chr is_alpha) (Opt (Between 0 62 (Chr is_alnum)))))).

Definition ParseNSID (raw : string) : result string string :=
  if String.eqb raw "" then Err "expected NSID, got empty string"
  else if (317 <? len raw)%Z then Err "NSID is too long (317 chars max)"
  else if negb (matches nsidRegex raw) then Err "NSID syntax didn't validate via regex"
  else Ok raw.

Definition NSID_Authority (n : string) : string :=
  let parts := Split "." n in
  if (length parts <? 2)%nat then ""
  else ToLower (Join "." (rev (removelast parts))).

Definition NSID_Name (n : string) : string := List.last (Split "." n) "".

Definition NSID_Normalize (n : string) : string :=
  let parts := Split "." n in
  if (length parts <? 2)%nat then n
  else ToLower (Join "." (removelast parts)) ++ "." ++ List.last parts "".

(** ** [recordkey.go] *)

Definition rkey_char (c : ascii) : bool :=
  is_alnum c || Ascii.eqb c "_" || Ascii.eqb c "~" || Ascii.eqb c "."
  || Ascii.eqb c ":" || Ascii.eqb c "-".

Definition recordKeyRegex : regex := Between 1 512 (Chr rkey_char).

Definition ParseRecordKey (raw : string) : result string string :=
  if String.eqb raw "" then Err "expected record key, got empty string"
  else if (512 <? len raw)%Z then Err "recordkey is too long (512 chars max)"
  else if String.eqb raw "" || String.eqb raw "." || String.eqb raw ".."
  then Err "recordkey can not be empty, '.', or '..'"
  else if negb (matches recordKeyRegex raw) then Err "recordkey syntax didn't validate via regex"
  else Ok raw.

(** ** [path.go] *)

Definition ParseRepoPath (raw : string) : result string (string * string) :=
  match SplitN "/" 3 raw with
  | [p0; p1] =>
      match ParseNSID p0 with
      | Err e => Err ("collection part of path not a valid NSID: " ++ e)
      | Ok nsid =>
          match ParseRecordKey p1 with
          | Err e => Err ("record key part of path not valid: " ++ e)
          | Ok rkey => Ok (nsid, rkey)
          end
      end
  | _ => Err "expected path to have two parts, separated by single slash"
  end.

(** ** [NormalizeDID] of [account.go] *)

Definition NormalizeDID (orig : string) : string :=
  let lower := ToLower orig in
  if HasPrefix lower "did:plc:" || HasPrefix lower "did:web:" then lower else orig.

(** ** Facts about the parsers *)

Lemma ParseDID_slow_Ok raw d :
  ParseDID_slow raw = Ok d ↔
  d = raw ∧ raw ≠ "" ∧ (len raw ≤ 2048)%Z ∧ lang didRegex raw.
Proof.
  unfold ParseDID_slow. rewrite <-matches_lang.
  destruct (String.eqb_spec raw ""); [naive_solver|].
  destruct (Z.ltb_spec (2 * 1024) (len raw)); [split; [done|]; intros (_ & _ & ? & _); lia|].
  destruct (matches didRegex raw); simpl; naive_solver lia.
Qed.

Lemma lang_didRegex s :
  lang didRegex s ↔
  ∃ m i c, s = "did:" ++ m ++ ":" ++ i ++ String c "" ∧
    m ≠ "" ∧ str_forall is_lower m = true ∧
    str_forall did_chars i = true ∧ did_last_chars c = true.
Proof.
  unfold didRegex, Plus. rewrite lang_cat. setoid_rewrite lang_lit. split.
  - intros (u & v & -> & -> & Hv). apply lang_cat in Hv as (m & w & -> & Hm & Hw).
    apply lang_cat in Hm as (a & b & -> & (c & -> & Hc)%lang_chr & Hb%lang_star_chr).
    apply lang_cat in Hw as (x & y & -> & ->%lang_lit & Hy).
    apply lang_cat in Hy as (i & z & -> & Hi%lang_star_chr & (d & -> & Hd)%lang_chr).
    exists (String c b), i, d. simpl. rewrite Hc, Hb. done.
  - intros (m & i & d & -> & Hne & Hm & Hi & Hd).
    eexists "did:", _. split_and!; [done..|].
    constructor; [|constructor; [by rewrite lang_lit|constructor; [by apply lang_star_chr|by constructor]]].
    destruct m as [|c m]; [done|]. simpl in Hm. apply andb_true_iff in Hm as [Hc Hm].
    change (String c m) with (String c "" ++ m). constructor; [by constructor|by apply lang_star_chr].
Qed.

Lemma alnum_did_chars c : isASCIIAlphaNum c = true → did_chars c = true ∧ did_last_chars c = true.
Proof.
  unfold isASCIIAlphaNum, did_chars, did_last_chars, is_alnum, is_lower, is_upper, is_digit.
  by intros ->.
Qed.

Lemma str_snoc s n : String.length s = S n → ∃ t c, s = t ++ String c "".
Proof.
  revert n. induction s as [|a s IH]; intros n; [done|]. simpl. intros [= Hl].
  destruct n as [|n]; [destruct s; [by exists "", a|done]|].
  destruct (IH _ Hl) as (t & c & ->). by exists (String a t), c.
Qed.

Lemma substring_all s n : String.length s = n → String.substring 0 n s = s.
Proof.
  revert n. induction s as [|a s IH]; intros [|n] H; simpl in *; try done.
  by rewrite IH by lia.
Qed.

Lemma plc_in_didRegex raw :
  len raw = 32%Z → HasPrefix raw "did:plc:" = true →
  str_forall isASCIIAlphaNum (String.substring 8 24 raw) = true → lang didRegex raw.
Proof.
  intros Hl (t & ->)%HasPrefix_spec Ha. unfold len in Hl.
  rewrite str_length_app in Hl. simpl in Hl.
  assert (Ht : String.length t = 24) by lia.
  simpl in Ha. rewrite substring_all in Ha by done.
  destruct (str_snoc t 23 Ht) as (i & c & ->).
  rewrite str_forall_app in Ha. simpl in Ha. rewrite andb_true_r in Ha.
  apply andb_true_iff in Ha as [Hi Hc].
  apply lang_didRegex. exists "plc", i, c. split_and!; try done.
  - eapply str_forall_weaken, Hi. intros x Hx. by apply alnum_did_chars.
  - by apply alnum_did_chars.
Qed.

(** The did:plc fast path of [ParseDID], which skips the
    regular expression, accepts and rejects exactly what the regular-expression
    path does, on every input string. *)
Theorem ParseDID_fast_path raw : ParseDID raw = ParseDID_slow raw.
Proof.
  unfold ParseDID. destruct (_ && _ && _) eqn:E; [|done]. symmetry.
  apply andb_true_iff in E as [[Hl%Z.eqb_eq Hp]%andb_true_iff Ha].
  apply ParseDID_slow_Ok. split_and!; [done|by intros ->|lia|by apply plc_in_didRegex].
Qed.

Lemma ParseDID_Ok raw d :
  ParseDID raw = Ok d ↔ d = raw ∧ raw ≠ "" ∧ (len raw ≤ 2048)%Z ∧ lang didRegex raw.
Proof.
  unfold ParseDID. destruct (_ && _ && _) eqn:E; [|apply ParseDID_slow_Ok].
  apply andb_true_iff in E as [[Hl%Z.eqb_eq Hp]%andb_true_iff Ha]. split.
  - intros [= ->]. split_and!; [done|by intros ->|lia|by apply plc_in_didRegex].
  - by intros (-> & _).
Qed.

Lemma lower_no_colon m : str_forall is_lower m = true → ContainsByte ":" m = false.
Proof.
  induction m as [|c m IH]; simpl; [done|]. intros [Hc Hm]%andb_true_iff.
  rewrite (IH Hm), orb_false_r. destruct (Ascii.eqb_spec c ":") as [->|]; [discriminate Hc|done].
Qed.

Lemma ToLower_lower m : str_forall is_lower m = true → ToLower m = m.
Proof.
  induction m as [|c m IH]; simpl; [done|]. intros [Hc Hm]%andb_true_iff.
  rewrite (IH Hm). f_equal. revert Hc. unfold lower_char.
  assert (implb (is_lower c) (negb (is_upper c)) = true) as Hx
    by (revert c; apply all_chars_complete; vm_compute; reflexivity).
  intros H. rewrite H in Hx. simpl in Hx. apply negb_true_iff in Hx. by rewrite Hx.
Qed.

Lemma SplitN_did m i :
  str_forall is_lower m = true → SplitN ":" 3 ("did:" ++ m ++ ":" ++ i) = ["did"; m; i].
Proof.
  intros Hm. change ("did:" ++ m ++ ":" ++ i) with ("did" ++ String ":" (m ++ String ":" i)).
  rewrite SplitN_app_sep by done. rewrite SplitN_app_sep by by apply lower_no_colon.
  by rewrite SplitN_1.
Qed.

(** A parsed DID is rebuilt from its parts: the accepted string
    is ["did:"], then [Method], a colon, and [Identifier], and neither part is
    empty, so the out-of-bounds fallbacks of the two accessors never fire. *)
Theorem ParseDID_parts raw d :
  ParseDID raw = Ok d →
  raw = "did:" ++ DID_Method d ++ ":" ++ DID_Identifier d ∧
  DID_Method d ≠ "" ∧ DID_Identifier d ≠ "".
Proof.
  intros (-> & _ & _ & (m & i & c & -> & Hne & Hm & _)%lang_didRegex)%ParseDID_Ok.
  unfold DID_Method, DID_Identifier. rewrite SplitN_did by done.
  rewrite ToLower_lower by done. split_and!; [done..|]. by destruct i.
Qed.

Lemma ParseDID_parts_witness :
  "did:web:relay.example.com" = "did:" ++ DID_Method "did:web:relay.example.com" ++ ":"
    ++ DID_Identifier "did:web:relay.example.com" ∧
  DID_Method "did:web:relay.example.com" ≠ "" ∧ DID_Identifier "did:web:relay.example.com" ≠ "".
Proof. apply (ParseDID_parts "did:web:relay.example.com"). vm_compute. reflexivity. Defined.

(** Lower-casing stays inside a pattern whose classes are closed under it. *)
Fixpoint lower_closed (r : regex) : Prop :=
  match r with
  | Empty | Eps => True
  | Chr p => ∀ c, p c = true → p (lower_char c) = true
  | Cat r1 r2 | Alt r1 r2 => lower_closed r1 ∧ lower_closed r2
  | Star r | UpTo _ r => lower_closed r
  end.

Lemma lang_ToLower r s : lower_closed r → lang r s → lang r (ToLower s).
Proof.
  intros Hr H. revert Hr. induction H; simpl; intros Hr; rewrite ?ToLower_app;
    try (constructor; naive_solver).
Qed.

Lemma chars_closed (p : ascii → bool) :
  forallb (λ c, implb (p c) (p (lower_char c))) all_chars = true →
  ∀ c, p c = true → p (lower_char c) = true.
Proof. intros H c Hc. pose proof (all_chars_complete _ H c) as Hi. simpl in Hi. by rewrite Hc in Hi. Qed.

Ltac solve_lower_closed :=
  simpl; repeat first [exact I | split | apply chars_closed; vm_compute; reflexivity].

Lemma didRegex_lower_closed : lower_closed didRegex.
Proof. unfold didRegex, Plus. solve_lower_closed. Qed.

Lemma handleRegex_lower_closed : lower_closed handleRegex.
Proof. unfold handleRegex, label_rest, Opt, Between, Plus. solve_lower_closed. Qed.

Lemma NormalizeDID_idem d : NormalizeDID (NormalizeDID d) = NormalizeDID d.
Proof.
  unfold NormalizeDID.
  destruct (HasPrefix (ToLower d) "did:plc:" || HasPrefix (ToLower d) "did:web:") eqn:E; simpl.
  - by rewrite ToLower_idem, E.
  - by rewrite E.
Qed.

(** Normalising a valid DID gives a valid DID, and normalising
    twice changes nothing, so the key that indexes accounts, caches and event
    locks is canonical. *)
Theorem NormalizeDID_canonical raw d :
  ParseDID raw = Ok d →
  ParseDID (NormalizeDID d) = Ok (NormalizeDID d) ∧ NormalizeDID (NormalizeDID d) = NormalizeDID d.
Proof.
  intros (-> & Hne & Hl & Hd)%ParseDID_Ok. split; [|apply NormalizeDID_idem].
  unfold NormalizeDID. destruct (_ || _); apply ParseDID_Ok; [|done]. split_and!; [done|..].
  - by destruct raw.
  - unfold len. by rewrite ToLower_length.
  - by apply lang_ToLower, Hd; apply didRegex_lower_closed.
Qed.

Lemma NormalizeDID_canonical_witness :
  ParseDID (NormalizeDID "did:web:Relay.Example") = Ok (NormalizeDID "did:web:Relay.Example") ∧
  NormalizeDID (NormalizeDID "did:web:Relay.Example") = NormalizeDID "did:web:Relay.Example".
Proof. apply (NormalizeDID_canonical "did:web:Relay.Example"). vm_compute. reflexivity. Defined.

(** ** Handles *)

Lemma ParseHandle_Ok raw h :
  ParseHandle raw = Ok h ↔ h = raw ∧ raw ≠ "" ∧ (len raw ≤ 253)%Z ∧ lang handleRegex raw.
Proof.
  unfold ParseHandle. rewrite <-matches_lang.
  destruct (String.eqb_spec raw ""); [naive_solver|].
  destruct (Z.ltb_spec 253 (len raw)); [split; [done|]; intros (_ & _ & ? & _); lia|].
  destruct (matches handleRegex raw); simpl; naive_solver lia.
Qed.

Lemma ParseHandle_Normalize raw h :
  ParseHandle raw = Ok h → ParseHandle (Handle_Normalize h) = Ok (Handle_Normalize h).
Proof.
  intros (-> & Hne & Hl & Hd)%ParseHandle_Ok. apply ParseHandle_Ok. unfold Handle_Normalize.
  split_and!; [done|by destruct raw| |].
  - unfold len. by rewrite ToLower_length.
  - by apply lang_ToLower, Hd; apply handleRegex_lower_closed.
Qed.

(** ** Repository paths *)

Definition not_slash (c : ascii) : bool := negb (Ascii.eqb c "/").

Lemma not_slash_ContainsByte s : str_forall not_slash s = true → ContainsByte "/" s = false.
Proof.
  induction s as [|c s IH]; simpl; [done|]. unfold not_slash at 1.
  intros [Hc%negb_true_iff Hs]%andb_true_iff. by rewrite Hc, IH.
Qed.

Lemma chars_imply (p q : ascii → bool) :
  forallb (λ c, implb (p c) (q c)) all_chars = true → ∀ c, p c = true → q c = true.
Proof. intros H c Hc. pose proof (all_chars_complete _ H c) as Hi. simpl in Hi. by rewrite Hc in Hi. Qed.

Ltac solve_chars_in :=
  simpl; repeat first [exact I | split | apply chars_imply; vm_compute; reflexivity].

Lemma ParseNSID_Ok raw n :
  ParseNSID raw = Ok n → n = raw ∧ ContainsByte "/" raw = false.
Proof.
  unfold ParseNSID. case_match; [done|]. case_match; [done|].
  destruct (matches nsidRegex raw) eqn:E; [|done]. intros [= ->]. split; [done|].
  apply matches_lang in E. apply not_slash_ContainsByte. eapply lang_chars_in, E.
  unfold nsidRegex, label_rest, Plus, Opt, Between. solve_chars_in.
Qed.

Lemma ParseRecordKey_Ok raw k :
  ParseRecordKey raw = Ok k → k = raw ∧ ContainsByte "/" raw = false.
Proof.
  unfold ParseRecordKey. case_match; [done|]. case_match; [done|]. case_match; [done|].
  destruct (matches recordKeyRegex raw) eqn:E; [|done]. intros [= ->]. split; [done|].
  apply matches_lang in E. apply not_slash_ContainsByte. eapply lang_chars_in, E.
  unfold recordKeyRegex, Between. solve_chars_in.
Qed.

Lemma ParseRepoPath_Ok raw n k :
  ParseRepoPath raw = Ok (n, k) → raw = n ++ "/" ++ k ∧ ParseNSID n = Ok n ∧ ParseRecordKey k = Ok k.
Proof.
  unfold ParseRepoPath. destruct (ContainsByte "/" raw) eqn:E; [|by rewrite SplitN_no_sep].
  apply ContainsByte_split in E as (u & v & -> & Hu). rewrite SplitN_app_sep by done.
  destruct (ContainsByte "/" v) eqn:E.
  - apply ContainsByte_split in E as (v1 & v2 & -> & Hv). by rewrite SplitN_app_sep, SplitN_1.
  - rewrite SplitN_no_sep by done.
    destruct (ParseNSID u) eqn:Eu; [|done]. destruct (ParseRecordKey v) eqn:Ev; [|done].
    intros [= -> ->]. pose proof (ParseNSID_Ok _ _ Eu) as [-> _].
    pose proof (ParseRecordKey_Ok _ _ Ev) as [-> _]. done.
Qed.

(** [ParseRepoPath] accepts exactly the strings made of a valid
    NSID, one slash and a valid record key, and returns those two parts. *)
Theorem ParseRepoPath_iff raw n k :
  ParseRepoPath raw = Ok (n, k) ↔
  raw = n ++ "/" ++ k ∧ ParseNSID n = Ok n ∧ ParseRecordKey k = Ok k.
Proof.
  split; [apply ParseRepoPath_Ok|]. unfold ParseRepoPath.
  intros (-> & Hn & Hk). simpl.
  rewrite SplitN_app_sep by by eapply ParseNSID_Ok.
  rewrite SplitN_no_sep by by eapply ParseRecordKey_Ok.
  by rewrite Hn, Hk.
Qed.
