(* ===== verification/Tid.v ===== *)
(** * Timestamp identifiers: [src/atproto/syntax/tid.go]

    A TID is a 13-character sortable base-32 string.  The relay orders commit
    revisions by comparing these strings, so the file shows that string order is
    the order of the 64-bit integers they encode, that encoding and decoding
    are inverse, and that [TIDClock.Next] issues strictly increasing strings. *)

From S2P Require Import Prelude GoStrings Regex.
Local Open Scope Z_scope.

Definition Base32SortAlphabet : string := "234567abcdefghijklmnopqrstuvwxyz".

Definition tid_first_chars : string := "234567abcdefghij".

Definition tidRegex : regex :=
  Cat (Chr (λ c, ContainsByte c tid_first_chars)) (Times 12 (Chr (λ c, ContainsByte c Base32SortAlphabet))).

Definition ParseTID (raw : string) : result string string :=
  if String.eqb raw "" then Err "expected TID, got empty string"%string
  else if negb (len raw =? 13) then Err "TID is wrong length (expected 13 chars)"%string
  else if negb (matches tidRegex raw) then Err "TID syntax didn't validate via regex"%string
  else Ok raw.

(** [Base32SortAlphabet[i]] *)
Definition alphabet_at (i : Z) : ascii :=
  default "0"%char (String.get (Z.to_nat i) Base32SortAlphabet).

(** The loop of [NewTIDFromInteger], filling [buf] from its last byte. *)
Fixpoint tid_fill (n : nat) (v : Z) (buf : string) : string :=
  match n with
  | O => buf
  | S n => tid_fill n (Z.shiftr v 5) (String (alphabet_at (Z.land v 0x1F)) buf)
  end.

Definition NewTIDFromInteger (v : Z) : string :=
  tid_fill 13 (Z.land 0x7FFFFFFFFFFFFFFF v) "".

Definition NewTID (unixMicros clockId : Z) : string :=
  NewTIDFromInteger
    (Z.lor (uint64 (Z.shiftl (uint64 (Z.land unixMicros 0x1FFFFFFFFFFFFF)) 10))
           (Z.land clockId 0x3FF)).

(** The loop of [Integer]; [None] is its early [return 0]. *)
Fixpoint tid_accumulate (s : string) (v : Z) : option Z :=
  match s with
  | EmptyString => Some v
  | String b s =>
      let c := IndexByte Base32SortAlphabet b in
      if c <? 0 then None
      else tid_accumulate s (Z.lor (uint64 (Z.shiftl v 5)) (Z.land c 0x1F))
  end.

Definition TID_Integer (t : string) : Z :=
  if negb (len t =? 13) then 0 else default 0 (tid_accumulate t 0).

(** [Time], in microseconds of the Unix epoch. *)
Definition TID_Time (t : string) : Z :=
  int64 (Z.land (Z.shiftr (TID_Integer t) 10) 0x1FFFFFFFFFFFFFFF).

Definition TID_ClockID (t : string) : Z := Z.land (TID_Integer t) 0x3FF.

Record TIDClock := mkTIDClock { ClockID : Z; lastUnixMicro : Z }.

Definition NewTIDClock (clockId : Z) : TIDClock := mkTIDClock clockId 0.

Definition ClockFromTID (t : string) : TIDClock :=
  let um := Z.land (Z.shiftr (TID_Integer t) 10) 0x1FFFFFFFFFFFFFFF in
  mkTIDClock (TID_ClockID t) (int64 um).

(** [Next]; [now] is the reading of the wall clock, in microseconds. *)
Definition TIDClock_Next (now : Z) (c : TIDClock) : string * TIDClock :=
  let now := if now <=? lastUnixMicro c then int64 (lastUnixMicro c + 1) else now in
  (NewTID now (ClockID c), mkTIDClock (ClockID c) now).

(** ** The alphabet *)

Definition digit (c : ascii) : Z := IndexByte Base32SortAlphabet c.

Definition digits : list Z := map Z.of_nat (seq 0 32).

Lemma digits_complete (P : Z → bool) :
  forallb P digits = true → ∀ i, 0 ≤ i < 32 → P i = true.
Proof.
  intros H i Hi. rewrite forallb_forall in H. apply H. unfold digits.
  rewrite <-(Z2Nat.id i) by lia. apply in_map, in_seq. lia.
Qed.

Lemma digit_alphabet_at i : 0 ≤ i < 32 → digit (alphabet_at i) = i.
Proof.
  intros Hi. apply Z.eqb_eq. revert i Hi. apply digits_complete. vm_compute. reflexivity.
Qed.

Lemma digit_range c : -1 ≤ digit c < 32.
Proof.
  assert ((-1 <=? digit c) && (digit c <? 32) = true) as H
    by (revert c; apply all_chars_complete; vm_compute; reflexivity).
  bool_to_prop. lia.
Qed.

Lemma alphabet_at_digit c : 0 ≤ digit c → alphabet_at (digit c) = c.
Proof.
  intros Hc.
  assert (implb (0 <=? digit c) (Ascii.eqb (alphabet_at (digit c)) c) = true) as H
    by (clear; revert c; apply all_chars_complete; vm_compute; reflexivity).
  rewrite (proj2 (Z.leb_le _ _) Hc) in H. by apply Ascii.eqb_eq.
Qed.

Lemma alphabet_monotone i j :
  0 ≤ i < 32 → 0 ≤ j < 32 →
  (N_of_ascii (alphabet_at i) <? N_of_ascii (alphabet_at j))%N = (i <? j).
Proof.
  intros Hi Hj. apply Bool.eqb_prop. revert i Hi. apply (digits_complete
    (λ i, Bool.eqb (N_of_ascii (alphabet_at i) <? N_of_ascii (alphabet_at j))%N (i <? j))).
  revert j Hj. apply (digits_complete (λ j, forallb (λ i,
    Bool.eqb (N_of_ascii (alphabet_at i) <? N_of_ascii (alphabet_at j))%N (i <? j)) digits)).
  vm_compute. reflexivity.
Qed.

Lemma digit_char c : ContainsByte c Base32SortAlphabet = (0 <=? digit c).
Proof.
  apply Bool.eqb_prop. revert c. apply all_chars_complete. vm_compute. reflexivity.
Qed.

Lemma first_char c : ContainsByte c tid_first_chars = (0 <=? digit c) && (digit c <? 16).
Proof.
  apply Bool.eqb_prop. revert c. apply all_chars_complete. vm_compute. reflexivity.
Qed.

Lemma digit_inj c d : 0 ≤ digit c → digit c = digit d → c = d.
Proof.
  intros Hc He. rewrite <-(alphabet_at_digit c Hc), He.
  apply alphabet_at_digit. lia.
Qed.

(** ** Base-32 values *)

Definition tid_char (c : ascii) : bool := 0 <=? digit c.

Fixpoint tid_val (s : string) : Z :=
  match s with
  | EmptyString => 0
  | String c s => digit c * 32 ^ len s + tid_val s
  end.

Lemma len_cons c s : len (String c s) = len s + 1.
Proof. unfold len. simpl. lia. Qed.

Lemma len_nonneg s : 0 ≤ len s.
Proof. unfold len. lia. Qed.

Lemma tid_val_range s : str_forall tid_char s = true → 0 ≤ tid_val s < 32 ^ len s.
Proof.
  induction s as [|c s IH]; simpl; [done|].
  intros [Hc%Z.leb_le Hs%IH]%andb_true_iff. rewrite len_cons, Z.pow_add_r by (pose proof (len_nonneg s); lia).
  pose proof (digit_range c). change (32 ^ 1) with 32. nia.
Qed.

Lemma str_lt_tid_val a b :
  String.length a = String.length b →
  str_forall tid_char a = true → str_forall tid_char b = true →
  str_lt a b = (tid_val a <? tid_val b).
Proof.
  revert b. induction a as [|c a IH]; intros [|d b] Hl; try done.
  simpl in *. intros [Hc%Z.leb_le Ha]%andb_true_iff [Hd%Z.leb_le Hb]%andb_true_iff.
  rewrite str_lt_cons. injection Hl as Hl.
  pose proof (tid_val_range a Ha). pose proof (tid_val_range b Hb).
  assert (len a = len b) as He by (unfold len; lia). rewrite He in *.
  destruct (Ascii.eqb_spec c d) as [->|Hne].
  - rewrite IH by done. destruct (Z.ltb_spec (tid_val a) (tid_val b));
      symmetry; [apply Z.ltb_lt|apply Z.ltb_ge]; lia.
  - pose proof (digit_range c). pose proof (digit_range d).
    rewrite <-(alphabet_at_digit c), <-(alphabet_at_digit d) at 1 by lia.
    rewrite alphabet_monotone by lia.
    assert (digit c ≠ digit d) by (intros Hx; apply Hne; by apply digit_inj).
    symmetry. destruct (Z.ltb_spec (digit c) (digit d)); [apply Z.ltb_lt|apply Z.ltb_ge]; nia.
Qed.

(** ** Bit arithmetic *)

Lemma lor_shift_add v k i :
  0 ≤ k → 0 ≤ i < 2 ^ k → Z.lor (Z.shiftl v k) i = v * 2 ^ k + i.
Proof.
  intros Hk Hi. destruct (Z.eq_dec i 0) as [->|Hne].
  { rewrite Z.lor_0_r, Z.shiftl_mul_pow2 by done. lia. }
  assert (Z.land (Z.shiftl v k) i = 0) as Hd.
  { apply Z.bits_inj'. intros n Hn. rewrite Z.land_spec, Z.bits_0.
    destruct (Z.ltb_spec n k); [by rewrite Z.shiftl_spec_low by lia|].
    rewrite (Z.bits_above_log2 i), andb_false_r; [done|lia|].
    apply Z.log2_lt_pow2; [lia|]. apply Z.lt_le_trans with (2 ^ k); [lia|].
    apply Z.pow_le_mono_r; lia. }
  rewrite <-Z.lxor_lor, <-Z.add_nocarry_lxor by done. by rewrite Z.shiftl_mul_pow2.
Qed.

Lemma land_low z k : 0 ≤ k → Z.land z (2 ^ k - 1) = z `mod` 2 ^ k.
Proof. intros. rewrite <-Z.land_ones by done. f_equal. rewrite Z.ones_equiv. lia. Qed.

Lemma land_1F z : Z.land z 0x1F = z `mod` 32.
Proof. exact (land_low z 5 ltac:(lia)). Qed.

Lemma tid_accumulate_val s v :
  str_forall tid_char s = true → 0 ≤ v → v * 32 ^ len s + tid_val s < 2 ^ 64 →
  tid_accumulate s v = Some (v * 32 ^ len s + tid_val s).
Proof.
  revert v. induction s as [|b s IH]; intros v; simpl.
  - intros _ Hv Hb. f_equal. change (len "") with 0 in *. lia.
  - intros [Hc%Z.leb_le Hs]%andb_true_iff Hv Hb.
    pose proof (tid_val_range s Hs) as Hr. pose proof (digit_range b) as Hd.
    pose proof (len_nonneg s).
    rewrite len_cons, Z.pow_add_r in Hb |- * by lia. change (32 ^ 1) with 32 in *.
    fold (digit b). destruct (Z.ltb_spec (digit b) 0); [lia|].
    assert (1 ≤ 32 ^ len s) by (apply Z.lt_pred_le; change (Z.pred 1) with 0; by apply Z.pow_pos_nonneg).
    assert (v * 32 < 2 ^ 64) by nia.
    rewrite land_1F, (Z.mod_small (digit b)) by lia.
    rewrite uint64_small by (rewrite Z.shiftl_mul_pow2 by lia; change (2 ^ 5) with 32; lia).
    rewrite lor_shift_add by (change (2 ^ 5) with 32; lia). change (2 ^ 5) with 32.
    rewrite IH by (done || nia). f_equal. nia.
Qed.

Lemma tid_fill_spec n v buf :
  0 ≤ v → str_forall tid_char buf = true →
  str_forall tid_char (tid_fill n v buf) = true ∧
  len (tid_fill n v buf) = Z.of_nat n + len buf ∧
  tid_val (tid_fill n v buf) = (v `mod` 32 ^ Z.of_nat n) * 32 ^ len buf + tid_val buf.
Proof.
  revert v buf. induction n as [|n IH]; intros v buf Hv Hb.
  - simpl. rewrite Z.mod_1_r. split_and!; [done|lia..].
  - cbn [tid_fill]. rewrite land_1F.
    assert (0 ≤ v `mod` 32 < 32) as Hm by (apply Z.mod_pos_bound; lia).
    destruct (IH (Z.shiftr v 5) (String (alphabet_at (v `mod` 32)) buf)) as (H1 & H2 & H3).
    + by apply Z.shiftr_nonneg.
    + simpl. rewrite Hb. unfold tid_char. rewrite digit_alphabet_at by done.
      by rewrite (proj2 (Z.leb_le _ _)) by lia.
    + rewrite H3, H2, len_cons. split_and!; [done|lia|]. simpl tid_val.
      rewrite digit_alphabet_at by done. rewrite Z.shiftr_div_pow2 by lia. change (2 ^ 5) with 32.
      pose proof (len_nonneg buf).
      replace (Z.of_nat (S n)) with (1 + Z.of_nat n) by lia.
      rewrite !Z.pow_add_r by lia. change (32 ^ 1) with 32.
      rewrite (Z.rem_mul_r v 32) by lia. nia.
Qed.

Lemma ParseTID_Ok raw t :
  ParseTID raw = Ok t ↔
  t = raw ∧ ∃ c s, raw = String c s ∧ String.length s = 12%nat ∧
    0 ≤ digit c < 16 ∧ str_forall tid_char s = true.
Proof.
  assert (matches tidRegex raw = true ↔
    ∃ c s, raw = String c s ∧ String.length s = 12%nat ∧
      0 ≤ digit c < 16 ∧ str_forall tid_char s = true) as Hm.
  { rewrite matches_lang. unfold tidRegex. rewrite lang_cat. setoid_rewrite lang_chr.
    setoid_rewrite lang_times_chr. setoid_rewrite first_char. split.
    - intros (u & v & -> & (c & -> & Hc) & Hv & Hl). exists c, v. bool_to_prop.
      split_and!; [done|done|done|done|]. eapply str_forall_weaken, Hv.
      intros x. cbv beta. by rewrite digit_char.
    - intros (c & s & -> & Hl & Hc & Hs). exists (String c ""), s. split_and!; [done| |..|done].
      + exists c. split; [done|]. apply andb_true_iff.
        by rewrite Z.leb_le, Z.ltb_lt.
      + eapply str_forall_weaken, Hs. intros x. cbv beta. by rewrite digit_char. }
  unfold ParseTID. split.
  - case_match; [done|]. case_match; [done|]. case_match; [done|]. bool_to_prop.
    intros [= ->]. split; [done|]. by apply Hm.
  - intros (-> & Hx). pose proof (proj2 Hm Hx) as Hm'.
    destruct Hx as (c & s & -> & Hl & _). rewrite Hm'.
    assert (len (String c s) = 13) as -> by (unfold len; simpl; lia). done.
Qed.

Lemma TID_Integer_val t r :
  ParseTID r = Ok t → TID_Integer t = tid_val t ∧ 0 ≤ tid_val t < 2 ^ 64 ∧
  str_forall tid_char t = true ∧ String.length t = 13%nat.
Proof.
  intros (-> & c & s & -> & Hl & Hc & Hs)%ParseTID_Ok.
  assert (len s = 12) as Hls by (unfold len; lia).
  assert (str_forall tid_char (String c s) = true) as Ha.
  { simpl. rewrite Hs. unfold tid_char. by rewrite (proj2 (Z.leb_le _ _)) by lia. }
  pose proof (tid_val_range s Hs) as Hr. rewrite Hls in Hr.
  assert (0 ≤ tid_val (String c s) < 2 ^ 64) as Hv.
  { simpl tid_val. rewrite Hls. change (2 ^ 64) with (16 * 32 ^ 12). nia. }
  split_and!; [|lia|lia|done|simpl; lia].
  unfold TID_Integer. rewrite len_cons, Hls. simpl negb. cbv iota.
  rewrite tid_accumulate_val by (done || rewrite ?Z.mul_0_l; lia).
  rewrite Z.mul_0_l. done.
Qed.

Lemma NewTIDFromInteger_spec v :
  0 ≤ v < 2 ^ 64 →
  ParseTID (NewTIDFromInteger v) = Ok (NewTIDFromInteger v) ∧
  tid_val (NewTIDFromInteger v) = v `mod` 2 ^ 63.
Proof.
  intros Hv. unfold NewTIDFromInteger.
  rewrite Z.land_comm. replace 0x7FFFFFFFFFFFFFFF with (2 ^ 63 - 1) by reflexivity.
  rewrite land_low by lia. set (w := v `mod` 2 ^ 63).
  assert (0 ≤ w < 2 ^ 63) as Hw by (apply Z.mod_pos_bound; lia).
  destruct (tid_fill_spec 13 w "" ltac:(lia) eq_refl) as (Hc & Hl & He).
  change (len "") with 0 in *. change (tid_val "") with 0 in *.
  change (Z.of_nat 13) with 13 in *. rewrite Z.mod_small in He.
  2: { change (32 ^ 13) with (2 ^ 65). assert (2 ^ 63 < 2 ^ 65) by (apply Z.pow_lt_mono_r; lia). lia. }
  split; [|rewrite He; lia].
  apply ParseTID_Ok. split; [done|].
  destruct (tid_fill 13 w "") as [|c s] eqn:E; [done|].
  exists c, s. rewrite len_cons in Hl. simpl in Hc. apply andb_true_iff in Hc as [Hc%Z.leb_le Hs].
  pose proof (tid_val_range s Hs) as Hr. simpl in He.
  assert (len s = 12) as Hls by lia. rewrite Hls in *. unfold len in Hls.
  split_and!; [done|lia|done| |done].
  change (2 ^ 63) with (8 * 32 ^ 12) in Hw. nia.
Qed.

(** Encoding a 64-bit integer gives a syntactically valid TID
    whose decoding is the integer with its top bit cleared, as the source masks
    it. *)
Theorem TID_roundtrip v :
  0 ≤ v < 2 ^ 64 →
  ParseTID (NewTIDFromInteger v) = Ok (NewTIDFromInteger v) ∧
  TID_Integer (NewTIDFromInteger v) = v `mod` 2 ^ 63.
Proof.
  intros Hv. destruct (NewTIDFromInteger_spec v Hv) as [Hp He].
  split; [done|]. destruct (TID_Integer_val _ _ Hp) as [-> _]. done.
Qed.

Lemma TID_roundtrip_witness :
  ParseTID (NewTIDFromInteger 7306362839277318147) = Ok (NewTIDFromInteger 7306362839277318147) ∧
  TID_Integer (NewTIDFromInteger 7306362839277318147) = 7306362839277318147 `mod` 2 ^ 63.
Proof. apply (TID_roundtrip 7306362839277318147). lia. Defined.

(** For two valid TIDs, Go's string comparison, which the
    relay uses to order revisions, is the comparison of the encoded integers. *)
Theorem TID_order a b :
  ParseTID a = Ok a → ParseTID b = Ok b → str_lt a b = (TID_Integer a <? TID_Integer b).
Proof.
  intros (-> & _ & Ha & Hla)%TID_Integer_val (-> & _ & Hb & Hlb)%TID_Integer_val.
  apply str_lt_tid_val; congruence.
Qed.

Lemma TID_order_witness :
  str_lt "3jui7kd54zh2y" "3jui7kd54zi2y" = (TID_Integer "3jui7kd54zh2y" <? TID_Integer "3jui7kd54zi2y").
Proof. apply TID_order; vm_compute; reflexivity. Defined.

(** ** The clock *)

Lemma NewTID_spec u k :
  0 ≤ u < 2 ^ 53 →
  ParseTID (NewTID u k) = Ok (NewTID u k) ∧ tid_val (NewTID u k) = u * 1024 + k `mod` 1024.
Proof.
  intros Hu. unfold NewTID.
  replace 0x1FFFFFFFFFFFFF with (2 ^ 53 - 1) by reflexivity.
  replace 0x3FF with (2 ^ 10 - 1) by reflexivity.
  rewrite !land_low, (Z.mod_small u) by lia.
  rewrite (uint64_small u), uint64_small by (rewrite ?Z.shiftl_mul_pow2 by lia; lia).
  assert (0 ≤ k `mod` 2 ^ 10 < 2 ^ 10) as Hk by (apply Z.mod_pos_bound; lia).
  rewrite lor_shift_add by lia. change (2 ^ 10) with 1024 in *.
  destruct (NewTIDFromInteger_spec (u * 1024 + k `mod` 1024)) as [Hp Hv]; [lia|].
  split; [done|]. rewrite Hv. apply Z.mod_small. lia.
Qed.

#[local] Opaque NewTID.

(** The TIDs issued for successive readings of the wall clock. *)
Fixpoint issue (nows : list Z) (c : TIDClock) : list string :=
  match nows with
  | [] => []
  | now :: nows => let '(t, c) := TIDClock_Next now c in t :: issue nows c
  end.

Lemma issue_above nows c B t :
  0 ≤ lastUnixMicro c ≤ B → Forall (λ now, now ≤ B) nows → B + Z.of_nat (length nows) < 2 ^ 53 →
  t ∈ issue nows c →
  ParseTID t = Ok t ∧ ∃ u, lastUnixMicro c < u ∧ tid_val t = u * 1024 + ClockID c `mod` 1024.
Proof.
  revert c B. induction nows as [|now nows IH]; intros c B Hc Hn HB Ht; simpl in *; [by apply elem_of_nil in Ht|].
  inversion Hn as [|? ? Hnow Hn']; subst.
  assert (HB1 : B + 1 < 2 ^ 53) by lia.
  set (u := if now <=? lastUnixMicro c then int64 (lastUnixMicro c + 1) else now) in *.
  assert (lastUnixMicro c < u ≤ B + 1) as Hu.
  { unfold u. destruct (Z.leb_spec now (lastUnixMicro c)); [rewrite int64_small by lia|]; lia. }
  apply elem_of_cons in Ht as [->|Ht].
  - destruct (NewTID_spec u (ClockID c)) as [Hp Hv]; [lia|]. split; [done|].
    exists u. split; [lia|done].
  - destruct (IH (mkTIDClock (ClockID c) u) (B + 1)) as (Hp & w & Hw & Hv); simpl in *; [lia| |lia|done|].
    + eapply Forall_impl; [exact Hn'|]. simpl. lia.
    + split; [done|]. exists w. split; [lia|done].
Qed.

(** [TIDClock.Next] issues TIDs that are strictly increasing as
    strings, whatever the wall clock does between calls (stall or step back),
    as long as the 53-bit timestamp is not exhausted. *)
Theorem TIDClock_Next_increasing nows c B :
  0 ≤ lastUnixMicro c ≤ B → Forall (λ now, now ≤ B) nows → B + Z.of_nat (length nows) < 2 ^ 53 →
  StronglySorted (λ a b, str_lt a b = true) (issue nows c).
Proof.
  revert c B. induction nows as [|now nows IH]; intros c B Hc Hn HB; simpl; [constructor|].
  inversion Hn as [|? ? Hnow Hn']; subst. simpl in HB.
  set (u := if now <=? lastUnixMicro c then int64 (lastUnixMicro c + 1) else now).
  assert (lastUnixMicro c < u ≤ B + 1) as Hu.
  { unfold u. destruct (Z.leb_spec now (lastUnixMicro c)); [rewrite int64_small by lia|]; lia. }
  assert (Forall (λ now, now ≤ B + 1) nows) as Hn1 by (eapply Forall_impl; [exact Hn'|simpl; lia]).
  constructor.
  - apply (IH _ (B + 1)); simpl; [lia|done|lia].
  - apply Forall_forall. intros t Ht.
    destruct (NewTID_spec u (ClockID c)) as [Hp Hv]; [lia|].
    eapply (issue_above _ _ (B + 1)) in Ht as (Hpt & w & Hw & Hvt); simpl in *; [|lia|done|lia].
    destruct (TID_Integer_val _ _ Hp) as (_ & _ & Hc1 & Hl1).
    destruct (TID_Integer_val _ _ Hpt) as (_ & _ & Hc2 & Hl2).
    rewrite str_lt_tid_val by congruence. rewrite Hv, Hvt. apply Z.ltb_lt. lia.
Qed.

Lemma TIDClock_Next_increasing_witness :
  StronglySorted (λ a b, str_lt a b = true) (issue [5; 3; 3; 1] (mkTIDClock 7 4)).
Proof. apply (TIDClock_Next_increasing _ _ 10); [simpl; lia|repeat constructor; lia|simpl; lia]. Defined.
