(* ===== verification/Datetime.v ===== *)
(** * Datetimes: [src/atproto/syntax/datetime.go]

    The parsers of datetime strings.  [time.Parse] of the layout
    [time.RFC3339Nano] is modelled on the strings the pattern accepts, where
    every numeric field has its two (or four) digits: the ranges it checks are
    those of the Go library, an offset may have 24 hours, and a comma may stand
    for the dot before the fraction. *)

From S2P Require Import Prelude GoStrings Regex.
Local Open Scope string_scope.
Local Open Scope Z_scope.

(** ** The patterns *)

Definition any_char (c : ascii) : bool := negb (Ascii.eqb c "010").
Definition sign_char (c : ascii) : bool := Ascii.eqb c "+" || Ascii.eqb c "-".
Definition digit_upto (hi : ascii) : regex := Chr (in_range "0" hi).
Definition two_digits (hi : ascii) : regex := Cat (digit_upto hi) (Chr is_digit).

(** A dot of the source pattern is any character; the classes are bytes here,
    so that several bytes in its place are refused by the pattern and not by
    [time.Parse]. *)
Definition Seq (rs : list regex) : regex := fold_right Cat Eps rs.

Definition datetimeRegex : regex :=
  Seq [Times 4 (Chr is_digit); Lit "-"; two_digits "1"; Lit "-"; two_digits "3";
       Lit "T"; two_digits "2"; Lit ":"; two_digits "6"; Lit ":"; two_digits "6";
       Opt (Cat (Chr any_char) (Between 1 20 (Chr is_digit)));
       Alt (Lit "Z") (Seq [Chr sign_char; two_digits "2"; Lit ":"; two_digits "5"])].

Definition hasTimezoneRegex : regex :=
  Cat (Star (Chr any_char))
    (Alt (Seq [Chr sign_char; Times 2 (Chr is_digit); Opt (Lit ":"); Times 2 (Chr is_digit)]) (Chr is_alpha)).

(** ** [time.Parse] *)

(** A time in UTC: seconds since the start of year zero, and nanoseconds. *)
Record Time := mkTime { t_Sec : Z; t_Nsec : Z }.

#[export] Instance Time_eq_dec : EqDecision Time.
Proof. solve_decision. Defined.

Definition digit_val (c : ascii) : Z := Z.of_N (N_of_ascii c) - 48.

Fixpoint atoi (s : string) (acc : Z) : Z :=
  match s with EmptyString => acc | String c s => atoi s (10 * acc + digit_val c) end.

Definition field (pos n : nat) (s : string) : Z := atoi (String.substring pos n s) 0.

Definition is_leap (y : Z) : bool := (y mod 4 =? 0) && (negb (y mod 100 =? 0) || (y mod 400 =? 0)).

Definition daysIn (m y : Z) : Z :=
  if m =? 2 then (if is_leap y then 29 else 28)
  else if (m =? 4) || (m =? 6) || (m =? 9) || (m =? 11) then 30
  else 31.

(** Days of the months before [m] in year [y]. *)
Definition days_before (m y : Z) : Z :=
  fold_left (λ acc i, acc + daysIn (Z.of_nat i) y) (seq 1 (Z.to_nat (m - 1))) 0.

(** Leap years before [y], from year zero. *)
Definition leaps_before (y : Z) : Z := (y + 3) / 4 - (y + 99) / 100 + (y + 399) / 400.

(** The digits after the separator, and what follows. *)
Fixpoint span_digits (s : string) : string * string :=
  match s with
  | String c s' => if is_digit c then let '(d, r) := span_digits s' in (String c d, r) else ("", s)
  | EmptyString => ("", "")
  end.

(** [parseNanoseconds]: the first nine digits. *)
Definition nanoseconds (digits : string) : Z :=
  let d := String.substring 0 9 digits in atoi d 0 * 10 ^ (9 - len d).

Definition parse_fraction (s : string) : Z * string :=
  match s with
  | String c (String d _ as rest) =>
      if (Ascii.eqb c "." || Ascii.eqb c ",") && is_digit d
      then let '(ds, rest) := span_digits rest in (nanoseconds ds, rest)
      else (0, s)
  | _ => (0, s)
  end.

(** The offset from UTC in seconds. *)
Definition parse_zone (s : string) : option Z :=
  if String.eqb s "Z" then Some 0
  else
    match s with
    | String c _ =>
        let hr := field 1 2 s in
        let mm := field 4 2 s in
        if negb (String.length s =? 6)%nat || negb (Ascii.eqb (default "000"%char (String.get 3 s)) ":") then None
        else if (24 <? hr) || (60 <? mm) then None
        else if Ascii.eqb c "+" then Some ((hr * 60 + mm) * 60)
        else if Ascii.eqb c "-" then Some (- ((hr * 60 + mm) * 60))
        else None
    | EmptyString => None
    end.

Definition time_Parse (s : string) : result string Time :=
  let year := field 0 4 s in
  let month := field 5 2 s in
  let day := field 8 2 s in
  let hour := field 11 2 s in
  let min := field 14 2 s in
  let sec := field 17 2 s in
  if (month <=? 0) || (12 <? month) then Err "month out of range"
  else if 24 <=? hour then Err "hour out of range"
  else if 60 <=? min then Err "minute out of range"
  else if 60 <=? sec then Err "second out of range"
  else
    let '(nsec, rest) := parse_fraction (String.substring 19 (String.length s - 19) s) in
    match parse_zone rest with
    | None => Err "cannot parse zone"
    | Some off =>
        if (day <? 1) || (daysIn month year <? day) then Err "day out of range"
        else
          let days := 365 * year + leaps_before year + days_before month year + (day - 1) in
          Ok (mkTime (((days * 24 + hour) * 60 + min) * 60 + sec - off) nsec)
    end.

(** ** The parsers *)

Definition ParseDatetime (raw : string) : result string string :=
  if String.eqb raw "" then Err "expected datetime, got empty string"
  else if 64 <? len raw then Err "Datetime too long (max 64 chars)"
  else if negb (matches datetimeRegex raw) then Err "Datetime syntax didn't validate via regex"
  else if HasSuffix raw "-00:00" then Err "Datetime can't use '-00:00' for UTC timezone"
  else
    match time_Parse raw with
    | Err err => Err err
    | Ok t => if t_Sec t <? 0 then Err "Datetime can not be before year zero" else Ok raw
    end.

(** The zero [time.Time] is the start of year one. *)
Definition zeroTime : Time := mkTime (366 * 86400) 0.

Definition Datetime_Time (d : string) : Time :=
  match time_Parse d with Ok t => t | Err _ => zeroTime end.

Definition ParseDatetimeTime (raw : string) : result string Time :=
  match ParseDatetime raw with Err err => Err err | Ok d => Ok (Datetime_Time d) end.

(** [strings.Replace(s, old, new, 1)], [old] not empty *)
Fixpoint Replace1 (s old new : string) : string :=
  if String.prefix old s then new ++ String.substring (String.length old) (String.length s - String.length old) s
  else match s with String c s => String c (Replace1 s old new) | EmptyString => "" end.

Definition ParseDatetimeLenient (raw : string) : result string string :=
  match ParseDatetime raw with
  | Ok valid => Ok valid
  | Err err =>
      let failed := Err ("Datetime could not be parsed, even leniently: " ++ err) in
      if HasSuffix raw "-00:00" then ParseDatetime (Replace1 raw "-00:00" "+00:00")
      else if HasSuffix raw "-0000" then ParseDatetime (Replace1 raw "-0000" "+00:00")
      else if HasSuffix raw "+0000" then ParseDatetime (Replace1 raw "+0000" "+00:00")
      else if negb (matches hasTimezoneRegex raw) then
        match ParseDatetime (raw ++ "Z") with Ok withTZ => Ok withTZ | Err _ => failed end
      else failed
  end.

(** [Datetime.UnmarshalText] *)
Definition Datetime_UnmarshalText (text : string) : result string string := ParseDatetime text.
