(* ===== verification/Stream.v ===== *)
(** * Stream events: [src/cmd/relay/stream/events.go]

    The messages of [com.atproto.sync.subscribeRepos] (the struct types of
    [src/api/atproto/syncsubscribeRepos.go]) and the union [XRPCStreamEvent]
    the relay passes around.  A Go pointer field is an [option]; a CID is the
    string of its bytes, which also stands for the text it prints as (the two
    determine each other); a byte slice is a list of bytes. *)

From S2P Require Import Prelude GoStrings.
From Stdlib Require Import Strings.Byte.
Local Open Scope Z_scope.

Abbreviation cid := string (only parsing).
Abbreviation bytes := (list Byte.byte).

Record SyncSubscribeRepos_Account := mkAccountMsg {
  am_Active : bool;
  am_Did : string;
  am_Seq : Z;
  am_Status : option string;
  am_Time : string;
}.

Record SyncSubscribeRepos_RepoOp := mkRepoOp {
  ro_Action : string;
  ro_Cid : option cid;
  ro_Path : string;
  ro_Prev : option cid;
}.

Record SyncSubscribeRepos_Commit := mkCommitMsg {
  cm_Blobs : list cid;
  cm_Blocks : bytes;
  cm_Commit : cid;
  cm_Ops : list SyncSubscribeRepos_RepoOp;
  cm_PrevData : option cid;
  cm_Rebase : bool;
  cm_Repo : string;
  cm_Rev : string;
  cm_Seq : Z;
  cm_Since : option string;
  cm_Time : string;
  cm_TooBig : bool;
}.

Record SyncSubscribeRepos_Identity := mkIdentityMsg {
  im_Did : string;
  im_Handle : option string;
  im_Seq : Z;
  im_Time : string;
}.

Record SyncSubscribeRepos_Info := mkInfoMsg {
  nm_Message : option string;
  nm_Name : string;
}.

Record SyncSubscribeRepos_Sync := mkSyncMsg {
  sm_Blocks : bytes;
  sm_Did : string;
  sm_Rev : string;
  sm_Seq : Z;
  sm_Time : string;
}.

Record ErrorFrame := mkErrorFrame { ef_Error : string; ef_Message : string }.

(** The label fields of the source struct are never set by the relay; the
    private routing fields other than [PrivUid] are unused. *)
Record XRPCStreamEvent := mkEvent {
  Error : option ErrorFrame;
  RepoCommit : option SyncSubscribeRepos_Commit;
  RepoSync : option SyncSubscribeRepos_Sync;
  RepoIdentity : option SyncSubscribeRepos_Identity;
  RepoInfo : option SyncSubscribeRepos_Info;
  RepoAccount : option SyncSubscribeRepos_Account;
  PrivUid : Z;
}.

#[export] Instance AccountMsg_eq_dec : EqDecision SyncSubscribeRepos_Account.
Proof. solve_decision. Defined.
#[export] Instance RepoOp_eq_dec : EqDecision SyncSubscribeRepos_RepoOp.
Proof. solve_decision. Defined.
#[export] Instance byte_eq_dec : EqDecision Byte.byte := Byte.byte_eq_dec.
#[export] Instance CommitMsg_eq_dec : EqDecision SyncSubscribeRepos_Commit.
Proof. solve_decision. Defined.
#[export] Instance IdentityMsg_eq_dec : EqDecision SyncSubscribeRepos_Identity.
Proof. solve_decision. Defined.
#[export] Instance InfoMsg_eq_dec : EqDecision SyncSubscribeRepos_Info.
Proof. solve_decision. Defined.
#[export] Instance SyncMsg_eq_dec : EqDecision SyncSubscribeRepos_Sync.
Proof. solve_decision. Defined.
#[export] Instance ErrorFrame_eq_dec : EqDecision ErrorFrame.
Proof. solve_decision. Defined.
#[export] Instance XRPCStreamEvent_eq_dec : EqDecision XRPCStreamEvent.
Proof. solve_decision. Defined.

Definition emptyEvent : XRPCStreamEvent := mkEvent None None None None None None 0.

Definition commitEvent (m : SyncSubscribeRepos_Commit) (uid : Z) : XRPCStreamEvent :=
  mkEvent None (Some m) None None None None uid.
Definition syncEvent (m : SyncSubscribeRepos_Sync) (uid : Z) : XRPCStreamEvent :=
  mkEvent None None (Some m) None None None uid.
Definition identityEvent (m : SyncSubscribeRepos_Identity) (uid : Z) : XRPCStreamEvent :=
  mkEvent None None None (Some m) None None uid.
Definition accountEvent (m : SyncSubscribeRepos_Account) (uid : Z) : XRPCStreamEvent :=
  mkEvent None None None None None (Some m) uid.

(** The four repository messages, in the order in which every [switch] of the
    relay tests them; [None] is the [default] branch. *)
Inductive RepoMsg : Type :=
| MCommit (m : SyncSubscribeRepos_Commit)
| MSync (m : SyncSubscribeRepos_Sync)
| MIdentity (m : SyncSubscribeRepos_Identity)
| MAccount (m : SyncSubscribeRepos_Account).

Definition repo_msg (e : XRPCStreamEvent) : option RepoMsg :=
  match RepoCommit e with
  | Some m => Some (MCommit m)
  | None =>
    match RepoSync e with
    | Some m => Some (MSync m)
    | None =>
      match RepoIdentity e with
      | Some m => Some (MIdentity m)
      | None =>
        match RepoAccount e with
        | Some m => Some (MAccount m)
        | None => None
        end
      end
    end
  end.

Definition msg_seq (m : RepoMsg) : Z :=
  match m with
  | MCommit m => cm_Seq m
  | MSync m => sm_Seq m
  | MIdentity m => im_Seq m
  | MAccount m => am_Seq m
  end.

Definition msg_did (m : RepoMsg) : string :=
  match m with
  | MCommit m => cm_Repo m
  | MSync m => sm_Did m
  | MIdentity m => im_Did m
  | MAccount m => am_Did m
  end.

(** Assignment to the [Seq] field of a message. *)
Definition msg_set_seq (s : Z) (m : RepoMsg) : RepoMsg :=
  match m with
  | MCommit m =>
      MCommit (mkCommitMsg (cm_Blobs m) (cm_Blocks m) (cm_Commit m) (cm_Ops m) (cm_PrevData m)
        (cm_Rebase m) (cm_Repo m) (cm_Rev m) s (cm_Since m) (cm_Time m) (cm_TooBig m))
  | MSync m => MSync (mkSyncMsg (sm_Blocks m) (sm_Did m) (sm_Rev m) s (sm_Time m))
  | MIdentity m => MIdentity (mkIdentityMsg (im_Did m) (im_Handle m) s (im_Time m))
  | MAccount m => MAccount (mkAccountMsg (am_Active m) (am_Did m) s (am_Status m) (am_Time m))
  end.

(** An event that carries just this message. *)
Definition msg_event (m : RepoMsg) (uid : Z) : XRPCStreamEvent :=
  match m with
  | MCommit m => commitEvent m uid
  | MSync m => syncEvent m uid
  | MIdentity m => identityEvent m uid
  | MAccount m => accountEvent m uid
  end.

(** The event with its message replaced, as when the source assigns through
    the message pointer. *)
Definition set_msg (m : RepoMsg) (e : XRPCStreamEvent) : XRPCStreamEvent :=
  match m with
  | MCommit m => mkEvent (Error e) (Some m) (RepoSync e) (RepoIdentity e) (RepoInfo e) (RepoAccount e) (PrivUid e)
  | MSync m => mkEvent (Error e) (RepoCommit e) (Some m) (RepoIdentity e) (RepoInfo e) (RepoAccount e) (PrivUid e)
  | MIdentity m => mkEvent (Error e) (RepoCommit e) (RepoSync e) (Some m) (RepoInfo e) (RepoAccount e) (PrivUid e)
  | MAccount m => mkEvent (Error e) (RepoCommit e) (RepoSync e) (RepoIdentity e) (RepoInfo e) (Some m) (PrivUid e)
  end.

(** [Sequence]; [None] is the nil pointer. *)
Definition Sequence (evt : option XRPCStreamEvent) : Z :=
  match evt with
  | None => -1
  | Some e => match repo_msg e with Some m => msg_seq m | None => -1 end
  end.

Definition GetSequence (evt : option XRPCStreamEvent) : Z * bool :=
  match evt with
  | None => (-1, false)
  | Some e => match repo_msg e with Some m => (msg_seq m, true) | None => (-1, false) end
  end.

Lemma msg_set_seq_seq s m : msg_seq (msg_set_seq s m) = s.
Proof. by destruct m. Qed.

Lemma msg_set_seq_did s m : msg_did (msg_set_seq s m) = msg_did m.
Proof. by destruct m. Qed.

Lemma msg_set_seq_twice s t m : msg_set_seq s (msg_set_seq t m) = msg_set_seq s m.
Proof. by destruct m. Qed.

Lemma repo_msg_msg_event m uid : repo_msg (msg_event m uid) = Some m.
Proof. by destruct m. Qed.

Lemma repo_msg_set_msg e m s :
  repo_msg e = Some m → repo_msg (set_msg (msg_set_seq s m) e) = Some (msg_set_seq s m).
Proof.
  unfold repo_msg. destruct e as [er [c|] [y|] [i|] n [a|] u]; simpl; intros [= <-]; done.
Qed.

Lemma Sequence_msg e m : repo_msg e = Some m → Sequence (Some e) = msg_seq m.
Proof. simpl. by intros ->. Qed.
