(* ===== verification/StateMonad.v ===== *)
(** * Stateful, fallible code

    A Go method that changes its receiver and returns an error is a function
    from a state to a state and a result; the state it leaves on an error is
    kept, because the source keeps it too.  [wp] is the weakest precondition by
    which the components prove such methods correct. *)

From S2P Require Import Prelude.

Definition StateM (S E A : Type) : Type := S → S * result E A.

Section StateM.
Context {S E : Type}.

#[global] Instance StateM_ret : MRet (StateM S E) := fun _ a s => (s, Ok a).
#[global] Instance StateM_bind : MBind (StateM S E) := fun _ _ f m s =>
  match m s with (s, Ok a) => f a s | (s, Err e) => (s, Err e) end.

Definition throw {A} (e : E) : StateM S E A := fun s => (s, Err e).
Definition get : StateM S E S := fun s => (s, Ok s).
Definition gets {A} (f : S → A) : StateM S E A := fun s => (s, Ok (f s)).
Definition modify (f : S → S) : StateM S E unit := fun s => (f s, Ok tt).
(** Run [m]; on an error [e] continue with [h e] in the state [m] left. *)
Definition catch {A} (m : StateM S E A) (h : E → StateM S E A) : StateM S E A := fun s =>
  match m s with (s, Ok a) => (s, Ok a) | (s, Err e) => h e s end.
(** Run [m] and hand its result, error or not, to [k]. *)
Definition attempt {A B} (m : StateM S E A) (k : result E A → StateM S E B) : StateM S E B := fun s =>
  let '(s, r) := m s in k r s.
Definition lift {A} (r : result E A) : StateM S E A := fun s => (s, r).

(** [wp m Q F s]: run from [s], [m] ends in a state satisfying [Q] of its
    result, or fails with an error and a state satisfying [F]. *)
Definition wp {A} (m : StateM S E A) (Q : A → S → Prop) (F : E → S → Prop) (s : S) : Prop :=
  match m s with (s', Ok a) => Q a s' | (s', Err e) => F e s' end.

Lemma wp_mono {A} (m : StateM S E A) (Q Q' : A → S → Prop) (F F' : E → S → Prop) s :
  (∀ a s, Q a s → Q' a s) → (∀ e s, F e s → F' e s) → wp m Q F s → wp m Q' F' s.
Proof. unfold wp. destruct (m s) as [s' [a|e]]; auto. Qed.

Lemma wp_ret {A} (a : A) (Q : A → S → Prop) F s : Q a s → wp (mret a) Q F s.
Proof. done. Qed.

Lemma wp_throw {A} e Q (F : E → S → Prop) s : F e s → wp (throw (A:=A) e) Q F s.
Proof. done. Qed.

Lemma wp_lift {A} (r : result E A) (Q : A → S → Prop) F s :
  match r with Ok a => Q a s | Err e => F e s end → wp (lift r) Q F s.
Proof. done. Qed.

Lemma wp_bind {A B} (m : StateM S E A) (f : A → StateM S E B) Q F s :
  wp m (λ a s', wp (f a) Q F s') F s → wp (m ≫= f) Q F s.
Proof. unfold wp, mbind, StateM_bind. by destruct (m s) as [s' [a|e]]. Qed.

Lemma wp_get_bind {B} (f : S → StateM S E B) Q F s : wp (f s) Q F s → wp (get ≫= f) Q F s.
Proof. done. Qed.

Lemma wp_gets_bind {A B} (g : S → A) (f : A → StateM S E B) Q F s :
  wp (f (g s)) Q F s → wp (gets g ≫= f) Q F s.
Proof. done. Qed.

Lemma wp_modify (f : S → S) (Q : unit → S → Prop) F s : Q tt (f s) → wp (modify f) Q F s.
Proof. done. Qed.

Lemma wp_catch {A} (m : StateM S E A) h Q F s :
  wp m Q (λ e s', wp (h e) Q F s') s → wp (catch m h) Q F s.
Proof. unfold wp, catch. by destruct (m s) as [s' [a|e]]. Qed.

Lemma wp_attempt {A B} (m : StateM S E A) (k : result E A → StateM S E B) Q F s :
  wp m (λ a s', wp (k (Ok a)) Q F s') (λ e s', wp (k (Err e)) Q F s') s → wp (attempt m k) Q F s.
Proof. unfold wp, attempt. by destruct (m s) as [s' [a|e]]. Qed.

Lemma wp_conj {A} (m : StateM S E A) Q Q' (F F' : E → S → Prop) s :
  wp m Q F s → wp m Q' F' s → wp m (λ a s', Q a s' ∧ Q' a s') (λ e s', F e s' ∧ F' e s') s.
Proof. unfold wp. by destruct (m s) as [s' [a|e]]. Qed.

(** Reading a run off a weakest precondition. *)
Lemma wp_run {A} (m : StateM S E A) Q F s s' r :
  wp m Q F s → m s = (s', r) → match r with Ok a => Q a s' | Err e => F e s' end.
Proof. unfold wp. intros H Heq. rewrite Heq in H. by destruct r. Qed.

End StateM.
