(* ===== verification/Sha256.v ===== *)
(** * SHA-256, as [crypto/sha256.Sum256] computes it

    The MST takes the layer of a key from the SHA-256 digest of the key, so the
    digest decides the shape of every tree.  This is FIPS 180-4 over words of
    [Z] reduced modulo 2^32: the message schedule is a sliding window of sixteen
    words, one step per round constant. *)

From S2P Require Import Prelude GoStrings.
Local Open Scope Z_scope.

Module Sha256.

Definition mask32 : Z := 0xffffffff.
Definition add32 (x y : Z) : Z := Z.land (x + y) mask32.
Definition rotr (n x : Z) : Z := Z.lor (Z.shiftr x n) (Z.land (Z.shiftl x (32 - n)) mask32).

Definition Ch (x y z : Z) : Z := Z.lxor (Z.land x y) (Z.land (Z.lxor x mask32) z).
Definition Maj (x y z : Z) : Z := Z.lxor (Z.land x y) (Z.lxor (Z.land x z) (Z.land y z)).
Definition Sigma0 (x : Z) : Z := Z.lxor (rotr 2 x) (Z.lxor (rotr 13 x) (rotr 22 x)).
Definition Sigma1 (x : Z) : Z := Z.lxor (rotr 6 x) (Z.lxor (rotr 11 x) (rotr 25 x)).
Definition sigma0 (x : Z) : Z := Z.lxor (rotr 7 x) (Z.lxor (rotr 18 x) (Z.shiftr x 3)).
Definition sigma1 (x : Z) : Z := Z.lxor (rotr 17 x) (Z.lxor (rotr 19 x) (Z.shiftr x 10)).

(** The constants of the standard: the first 32 bits of the fractional parts of
    the cube roots of the first 64 primes, and, for the initial value, of the
    square roots of the first eight. *)
Definition primes : list Z :=
  List.filter (λ n, forallb (λ d, negb (n mod d =? 0)) (map Z.of_nat (seq 2 (Z.to_nat n - 2)))) (map Z.of_nat (seq 2 310)).

(** The largest [r] with [r ^ 3 ≤ z], bit by bit from bit [n]. *)
Fixpoint cube_root (n : nat) (r z : Z) : Z :=
  let r' := r + 2 ^ Z.of_nat n in
  let r := if r' ^ 3 <=? z then r' else r in
  match n with O => r | S n => cube_root n r z end.

Definition K : list Z := Eval vm_compute in map (λ p, Z.land (cube_root 35 0 (p * 2 ^ 96)) mask32) primes.

Record hash := mkHash { ha : Z; hb : Z; hc : Z; hd : Z; he : Z; hf : Z; hg : Z; hh : Z }.

Definition H0 : hash :=
  Eval vm_compute in
    match map (λ p, Z.land (Z.sqrt (p * 2 ^ 64)) mask32) primes with
    | a :: b :: c :: d :: e :: f :: g :: h :: _ => mkHash a b c d e f g h
    | _ => mkHash 0 0 0 0 0 0 0 0
    end.

Definition round (k w : Z) (s : hash) : hash :=
  let t1 := add32 (hh s) (add32 (Sigma1 (he s)) (add32 (Ch (he s) (hf s) (hg s)) (add32 k w))) in
  let t2 := add32 (Sigma0 (ha s)) (Maj (ha s) (hb s) (hc s)) in
  mkHash (add32 t1 t2) (ha s) (hb s) (hc s) (add32 (hd s) t1) (he s) (hf s) (hg s).

(** The word sixteen places after the head of the window. *)
Definition next_word (win : list Z) : Z :=
  add32 (sigma1 (nth 14 win 0)) (add32 (nth 9 win 0) (add32 (sigma0 (nth 1 win 0)) (nth 0 win 0))).

Fixpoint rounds (ks win : list Z) (s : hash) : hash :=
  match ks with
  | [] => s
  | k :: ks => rounds ks (tail win ++ [next_word win]) (round k (nth 0 win 0) s)
  end.

Definition compress (block : list Z) (s : hash) : hash :=
  let r := rounds K block s in
  mkHash (add32 (ha s) (ha r)) (add32 (hb s) (hb r)) (add32 (hc s) (hc r)) (add32 (hd s) (hd r))
         (add32 (he s) (he r)) (add32 (hf s) (hf r)) (add32 (hg s) (hg r)) (add32 (hh s) (hh r)).

(** [n] bytes of [z], most significant first. *)
Fixpoint be_bytes (n : nat) (z : Z) : list Z :=
  match n with O => [] | S n' => Z.land (Z.shiftr z (8 * Z.of_nat n')) 255 :: be_bytes n' z end.

Fixpoint words (n : nat) (bs : list Z) : list Z :=
  match n, bs with
  | S n', a :: b :: c :: d :: rest => (a * 2 ^ 24 + b * 2 ^ 16 + c * 2 ^ 8 + d) :: words n' rest
  | _, _ => []
  end.

Definition pad (msg : list Z) : list Z :=
  let n := length msg in
  msg ++ 0x80 :: repeat 0 (Z.to_nat ((55 - Z.of_nat n) mod 64)) ++ be_bytes 8 (8 * Z.of_nat n).

Fixpoint blocks (n : nat) (bs : list Z) (s : hash) : hash :=
  match n with
  | O => s
  | S n' => blocks n' (drop 64 bs) (compress (words 16 bs) s)
  end.

Fixpoint bytes_of (s : string) : list Z :=
  match s with EmptyString => [] | String c s => Z.of_N (N_of_ascii c) :: bytes_of s end.

Definition digest (s : hash) : list Z :=
  concat (map (be_bytes 4) [ha s; hb s; hc s; hd s; he s; hf s; hg s; hh s]).

(** [sha256.Sum256] *)
Definition Sum256 (data : string) : list Z :=
  let p := pad (bytes_of data) in digest (blocks (length p / 64) p H0).

Lemma be_bytes_length n z : length (be_bytes n z) = n.
Proof. induction n as [|n IH]; simpl; [done|]. by rewrite IH. Qed.

Lemma be_bytes_range n z : Forall (λ b, 0 ≤ b < 256) (be_bytes n z).
Proof.
  induction n as [|n IH]; simpl; constructor; [|done].
  change 255 with (Z.ones 8). rewrite Z.land_ones by lia. apply Z.mod_pos_bound. lia.
Qed.

Lemma Sum256_length data : length (Sum256 data) = 32%nat.
Proof. unfold Sum256, digest. generalize (blocks (length (pad (bytes_of data)) / 64) (pad (bytes_of data)) H0). intros s. simpl. reflexivity. Qed.

Lemma Sum256_range data : Forall (λ b, 0 ≤ b < 256) (Sum256 data).
Proof.
  unfold Sum256, digest. generalize (blocks (length (pad (bytes_of data)) / 64) (pad (bytes_of data)) H0). intros s.
  apply Forall_concat, Forall_map, Forall_true. intros. apply be_bytes_range.
Qed.

End Sha256.

(** The test vectors of FIPS 180-4: the empty message, one block, two blocks. *)
Example Sum256_abc : Sha256.Sum256 "abc" =
  Sha256.be_bytes 32 0xba7816bf8f01cfea414140de5dae2223b00361a396177a9cb410ff61f20015ad.
Proof. vm_compute. reflexivity. Qed.

Example Sum256_empty : Sha256.Sum256 "" =
  Sha256.be_bytes 32 0xe3b0c44298fc1c149afbf4c8996fb92427ae41e4649b934ca495991b7852b855.
Proof. vm_compute. reflexivity. Qed.

Example Sum256_two_blocks : Sha256.Sum256 "abcdbcdecdefdefgefghfghighijhijkijkljklmklmnlmnomnopnopq" =
  Sha256.be_bytes 32 0x248d6a61d20638b8e5c026930c3e6039a33ce45964ff2167f6ecedd419db06c1.
Proof. vm_compute. reflexivity. Qed.
