(* ===== verification/Cbor.v ===== *)
(** * The CBOR codecs of repository blocks

    [MarshalCBOR] and [UnmarshalCBOR] of [NodeData], [EntryData]
    ([src/atproto/repo/mst/cbor_gen.go]) and of the commit object
    ([src/atproto/repo/cbor_gen.go]).  The generated code calls the library
    cbor-gen for headers, strings, links and for skipping unknown fields: the
    class [CborGen] has these calls and what their documentation promises about
    reading back what was written.  A reader is the string of bytes that are
    left; writing goes to a buffer and does not fail.  Checks the generated code
    makes on constants (the length of a field name) are left out. *)

From S2P Require Import Prelude GoStrings.
Local Open Scope string_scope.
Local Open Scope Z_scope.

Abbreviation cid := string (only parsing).

(** ** Readers *)

(** [io.ReadFull] of [n] bytes *)
Fixpoint ReadFull (n : nat) (r : string) : result string (string * string) :=
  match n, r with
  | O, r => Ok ("", r)
  | S n, String c r => '(s, r) ← ReadFull n r; Ok (String c s, r)
  | S _, EmptyString => Err "unexpected EOF"
  end.

Lemma ReadFull_app s r : ReadFull (String.length s) (s ++ r) = Ok (s, r).
Proof. induction s as [|c s IH]; simpl; [done|]. by rewrite IH. Qed.

Lemma ReadFull_len s r : ReadFull (Z.to_nat (len s)) (s ++ r) = Ok (s, r).
Proof. unfold len. rewrite Nat2Z.id. apply ReadFull_app. Qed.

Definition byte (z : Z) : string := String (ascii_of_N (Z.to_N z)) "".

Definition MajUnsignedInt : Z := 0.
Definition MajNegativeInt : Z := 1.
Definition MajByteString : Z := 2.
Definition MajTextString : Z := 3.
Definition MajArray : Z := 4.
Definition MajMap : Z := 5.

Definition CborNull : ascii := ascii_of_N 246.
Definition MaxLength : Z := 8192.

(** ** The library cbor-gen

    [WriteMajorTypeHeader] and [CborEncodeMajorType] write the same bytes.
    [ReadFullStringIntoBuf] is given the length of the buffer, and returns
    [None] for a text that does not fit in it, after skipping it.
    [ScanForLinks] skips one item. *)
Class CborGen := {
  WriteMajorTypeHeader : Z → Z → string;
  WriteCid : cid → result string string;
  ReadHeader : string → result string (Z * Z * string);
  ReadFullStringIntoBuf : Z → Z → string → result string (option string * string);
  ReadStringWithMax : Z → string → result string (string * string);
  ReadCid : string → result string (cid * string);
  ScanForLinks : string → result string string;
}.

Class CborLaws `{CborGen} : Prop := {
  ReadHeader_Write maj v r :
    0 ≤ maj < 7 → 0 ≤ v < 2 ^ 64 → ReadHeader (WriteMajorTypeHeader maj v ++ r) = Ok (maj, v, r);
  ReadFullStringIntoBuf_Write n max s r :
    len s ≤ n → len s ≤ max → len s < 2 ^ 64 →
    ReadFullStringIntoBuf n max (WriteMajorTypeHeader MajTextString (len s) ++ s ++ r) = Ok (Some s, r);
  ReadStringWithMax_Write max s r :
    len s ≤ max → len s < 2 ^ 64 → ReadStringWithMax max (WriteMajorTypeHeader MajTextString (len s) ++ s ++ r) = Ok (s, r);
  ReadCid_Write c b r : WriteCid c = Ok b → ReadCid (b ++ r) = Ok (c, r);
  WriteCid_not_null c b r : WriteCid c = Ok b → ∃ a s, b ++ r = String a s ∧ a ≠ CborNull;
  (** A map header, as the literals 162 and 164 of the generated code write it. *)
  WriteMajorTypeHeader_small v : 0 ≤ v < 24 → WriteMajorTypeHeader MajMap v = byte (160 + v);
}.

(** ** Data *)

Record EntryData := mkEntryData {
  PrefixLen : Z;
  KeySuffix : string;
  ed_Value : cid;
  Right : option cid;
}.

Record NodeData := mkNodeData {
  Left : option cid;
  nd_Entries : list EntryData;
}.

#[export] Instance EntryData_eq_dec : EqDecision EntryData.
Proof. solve_decision. Defined.
#[export] Instance NodeData_eq_dec : EqDecision NodeData.
Proof. solve_decision. Defined.

(** The commit object; a nil signature is [None]. *)
Record RepoCommit := mkCommit {
  rc_DID : string;
  rc_Version : Z;
  rc_Prev : option cid;
  rc_Data : cid;
  rc_Sig : option string;
  rc_Rev : string;
}.

Section Codec.
Context `{CborGen}.

(** ** Writing *)

Definition write_name (s : string) : string := WriteMajorTypeHeader MajTextString (len s) ++ s.

Definition write_nullable_cid (c : option cid) : result string string :=
  match c with
  | None => Ok (String CborNull "")
  | Some c => WriteCid c
  end.

Definition write_int64 (z : Z) : string :=
  if 0 <=? z then WriteMajorTypeHeader MajUnsignedInt (uint64 z)
  else WriteMajorTypeHeader MajNegativeInt (uint64 (- z - 1)).

Definition EntryData_MarshalCBOR (t : EntryData) : result string string :=
  if 2097152 <? len (KeySuffix t) then Err "Byte array in field t.KeySuffix was too long"
  else
    right ← write_nullable_cid (Right t);
    val ← WriteCid (ed_Value t);
    Ok (byte 164
        ++ write_name "k" ++ WriteMajorTypeHeader MajByteString (len (KeySuffix t)) ++ KeySuffix t
        ++ write_name "p" ++ write_int64 (PrefixLen t)
        ++ write_name "t" ++ right
        ++ write_name "v" ++ val).

Fixpoint marshal_entries (es : list EntryData) : result string string :=
  match es with
  | [] => Ok ""
  | e :: es => b ← EntryData_MarshalCBOR e; bs ← marshal_entries es; Ok (b ++ bs)
  end.

Definition NodeData_MarshalCBOR (t : NodeData) : result string string :=
  if 8192 <? Z.of_nat (length (nd_Entries t)) then Err "Slice value in field t.Entries was too long"
  else
    es ← marshal_entries (nd_Entries t);
    left ← write_nullable_cid (Left t);
    Ok (byte 162
        ++ write_name "e" ++ WriteMajorTypeHeader MajArray (Z.of_nat (length (nd_Entries t))) ++ es
        ++ write_name "l" ++ left).

Definition Commit_MarshalCBOR (t : RepoCommit) : result string string :=
  let fieldCount := 6 - (match rc_Sig t with Some _ => 0 | None => 1 end) - (if String.eqb (rc_Rev t) "" then 1 else 0) in
  if 1000000 <? len (rc_DID t) then Err "Value in field t.DID was too long"
  else
    let write_text (s : string) : string := WriteMajorTypeHeader MajTextString (len s) ++ s in
    rev ← (if String.eqb (rc_Rev t) "" then Ok ""
           else if 1000000 <? len (rc_Rev t) then Err "Value in field t.Rev was too long"
           else Ok (write_name "rev" ++ write_text (rc_Rev t)));
    sig ← (match rc_Sig t with
           | None => Ok ""
           | Some sig =>
               if 2097152 <? len sig then Err "Byte array in field t.Sig was too long"
               else Ok (write_name "sig" ++ WriteMajorTypeHeader MajByteString (len sig) ++ sig)
           end);
    data ← WriteCid (rc_Data t);
    prev ← write_nullable_cid (rc_Prev t);
    Ok (WriteMajorTypeHeader MajMap fieldCount
        ++ write_name "did" ++ write_text (rc_DID t)
        ++ rev ++ sig
        ++ write_name "data" ++ data
        ++ write_name "prev" ++ prev
        ++ write_name "version" ++ write_int64 (rc_Version t)).

(** ** Reading *)

(** A nullable link: [None] leaves the field as it is. *)
Definition read_nullable_cid (r : string) : result string (option cid * string) :=
  match r with
  | EmptyString => Err "unexpected EOF"
  | String b r' => if Ascii.eqb b CborNull then Ok (None, r') else '(c, r) ← ReadCid r; Ok (Some c, r)
  end.

Definition read_int64 (r : string) : result string (Z * string) :=
  '(maj, extra, r) ← ReadHeader r;
  if maj =? MajUnsignedInt then
    if int64 extra <? 0 then Err "int64 positive overflow" else Ok (int64 extra, r)
  else if maj =? MajNegativeInt then
    if int64 extra <? 0 then Err "int64 negative overflow" else Ok (-1 - int64 extra, r)
  else Err "wrong type for int64 field".

(** A byte string into a slice that holds [old]: the slice is replaced when the
    length read is positive, and then filled. *)
Definition read_bytes (old r : string) : result string (string * string) :=
  '(maj, extra, r) ← ReadHeader r;
  if 2097152 <? extra then Err "byte array too large"
  else if negb (maj =? MajByteString) then Err "expected byte array"
  else ReadFull (Z.to_nat (if 0 <? extra then extra else len old)) r.

(** The loop over the fields of a map; [field] reads the value of a known field
    and returns [None] for an unknown one. *)
Section Fields.
Context {T : Type} (buf : Z) (field : string → T → string → option (result string (T * string))).

Fixpoint read_fields (n : nat) (t : T) (r : string) : result string (T * string) :=
  match n with
  | O => Ok (t, r)
  | S n =>
      '(name, r) ← ReadFullStringIntoBuf buf 1000000 r;
      match (match name with Some name => field name t r | None => None end) with
      | None => r ← ScanForLinks r; read_fields n t r
      | Some res => '(t, r) ← res; read_fields n t r
      end
  end.

Definition read_map (zero : T) (r : string) : result string (T * string) :=
  '(maj, extra, r) ← ReadHeader r;
  if negb (maj =? MajMap) then Err "cbor input should be of type map"
  else if MaxLength <? extra then Err "map struct too large"
  else read_fields (Z.to_nat extra) zero r.
End Fields.

Definition EntryData_field (name : string) (t : EntryData) (r : string) : option (result string (EntryData * string)) :=
  if String.eqb name "k" then
    Some ('(s, r) ← read_bytes (KeySuffix t) r; Ok (mkEntryData (PrefixLen t) s (ed_Value t) (Right t), r))
  else if String.eqb name "p" then
    Some ('(z, r) ← read_int64 r; Ok (mkEntryData z (KeySuffix t) (ed_Value t) (Right t), r))
  else if String.eqb name "t" then
    Some ('(c, r) ← read_nullable_cid r;
          Ok (mkEntryData (PrefixLen t) (KeySuffix t) (ed_Value t) (match c with Some _ => c | None => Right t end), r))
  else if String.eqb name "v" then
    Some ('(c, r) ← ReadCid r; Ok (mkEntryData (PrefixLen t) (KeySuffix t) c (Right t), r))
  else None.

Definition EntryData_UnmarshalCBOR (r : string) : result string (EntryData * string) :=
  read_map 1 EntryData_field (mkEntryData 0 "" "" None) r.

Fixpoint unmarshal_entries (n : nat) (r : string) : result string (list EntryData * string) :=
  match n with
  | O => Ok ([], r)
  | S n => '(e, r) ← EntryData_UnmarshalCBOR r; '(es, r) ← unmarshal_entries n r; Ok (e :: es, r)
  end.

Definition NodeData_field (name : string) (t : NodeData) (r : string) : option (result string (NodeData * string)) :=
  if String.eqb name "e" then
    Some ('(maj, extra, r) ← ReadHeader r;
          if 8192 <? extra then Err "t.Entries: array too large"
          else if negb (maj =? MajArray) then Err "expected cbor array"
          else
            '(es, r) ← unmarshal_entries (Z.to_nat extra) r;
            Ok (mkNodeData (Left t) (if 0 <? extra then es else nd_Entries t), r))
  else if String.eqb name "l" then
    Some ('(c, r) ← read_nullable_cid r;
          Ok (mkNodeData (match c with Some _ => c | None => Left t end) (nd_Entries t), r))
  else None.

Definition NodeData_UnmarshalCBOR (r : string) : result string (NodeData * string) :=
  read_map 1 NodeData_field (mkNodeData None []) r.

Definition Commit_field (name : string) (t : RepoCommit) (r : string) : option (result string (RepoCommit * string)) :=
  let '(mkCommit did version prev data sig rev) := t in
  if String.eqb name "did" then
    Some ('(s, r) ← ReadStringWithMax 1000000 r; Ok (mkCommit s version prev data sig rev, r))
  else if String.eqb name "rev" then
    Some ('(s, r) ← ReadStringWithMax 1000000 r; Ok (mkCommit did version prev data sig s, r))
  else if String.eqb name "sig" then
    Some ('(s, r) ← read_bytes (default "" sig) r;
          Ok (mkCommit did version prev data (match sig with None => if String.eqb s "" then None else Some s | Some _ => Some s end) rev, r))
  else if String.eqb name "data" then
    Some ('(c, r) ← ReadCid r; Ok (mkCommit did version prev c sig rev, r))
  else if String.eqb name "prev" then
    Some ('(c, r) ← read_nullable_cid r;
          Ok (mkCommit did version (match c with Some _ => c | None => prev end) data sig rev, r))
  else if String.eqb name "version" then
    Some ('(z, r) ← read_int64 r; Ok (mkCommit did z prev data sig rev, r))
  else None.

Definition Commit_UnmarshalCBOR (r : string) : result string (RepoCommit * string) :=
  read_map 7 Commit_field (mkCommit "" 0 None "" None "") r.

(** ** Round trips *)

Context `{!CborLaws}.

Lemma read_fields_known {T} buf field n (t : T) name r res :
  len name ≤ buf → len name ≤ 1000000 → field name t r = Some res →
  read_fields buf field (S n) t (write_name name ++ r) = ('(t, r) ← res; read_fields buf field n t r).
Proof.
  intros Hb Hm Hf. simpl. unfold write_name. rewrite str_app_assoc, ReadFullStringIntoBuf_Write by lia.
  simpl. by rewrite Hf.
Qed.

Local Arguments read_fields : simpl never.

Lemma read_map_write {T} buf field (t : T) n r :
  0 ≤ n ≤ MaxLength →
  read_map buf field t (WriteMajorTypeHeader MajMap n ++ r) = read_fields buf field (Z.to_nat n) t r.
Proof.
  intros Hn. unfold read_map, MaxLength in *. rewrite ReadHeader_Write by (unfold MajMap; lia). simpl.
  destruct (8192 <? n) eqn:E; [bool_to_prop; lia|done].
Qed.

Lemma read_nullable_cid_write c b r :
  write_nullable_cid c = Ok b → read_nullable_cid (b ++ r) = Ok (c, r).
Proof.
  destruct c as [c|]; simpl; [|by intros [= <-]].
  intros Hw. unfold read_nullable_cid. destruct (WriteCid_not_null c b r Hw) as (a & s & Heq & Ha).
  rewrite Heq, <-Heq. destruct (Ascii.eqb_spec a CborNull); [done|]. by rewrite (ReadCid_Write c b r Hw).
Qed.

Lemma read_int64_write z r :
  - 2 ^ 63 ≤ z < 2 ^ 63 → read_int64 (write_int64 z ++ r) = Ok (z, r).
Proof.
  intros Hz. unfold read_int64, write_int64. destruct (0 <=? z) eqn:E; bool_to_prop;
    rewrite uint64_small by lia; (rewrite ReadHeader_Write; [|unfold MajUnsignedInt, MajNegativeInt; lia|lia]);
    simpl; rewrite int64_small by lia; (destruct (_ <? 0) eqn:E'; bool_to_prop; [lia|]).
  - done.
  - do 2 f_equal. lia.
Qed.

Lemma read_bytes_write s r :
  len s ≤ 2097152 → read_bytes "" (WriteMajorTypeHeader MajByteString (len s) ++ s ++ r) = Ok (s, r).
Proof.
  intros Hs. unfold read_bytes. rewrite ReadHeader_Write by (unfold MajByteString, len in *; lia). simpl.
  destruct (2097152 <? len s) eqn:E; bool_to_prop; [lia|]. destruct (0 <? len s) eqn:E'; bool_to_prop.
  - apply ReadFull_len.
  - destruct s; [done|]. unfold len in E'. simpl in E'. lia.
Qed.

(** Writes a field and reads it back: [read_fields_known] at the head of the
    input, with the value's own read-back lemma. *)
Ltac read_field :=
  erewrite read_fields_known; [|done|done|reflexivity]; simpl;
  rewrite ?read_bytes_write, ?read_int64_write by (unfold len in *; lia); simpl.

Lemma EntryData_roundtrip_app e b r :
  - 2 ^ 63 ≤ PrefixLen e < 2 ^ 63 →
  EntryData_MarshalCBOR e = Ok b → EntryData_UnmarshalCBOR (b ++ r) = Ok (e, r).
Proof.
  intros Hp. unfold EntryData_MarshalCBOR. destruct (_ <? _) eqn:El; [done|]. bool_to_prop.
  intros (right & Hr & (val & Hv & <-%Ok_inj)%result_bind_Ok)%result_bind_Ok.
  unfold EntryData_UnmarshalCBOR. change (byte 164) with (byte (160 + 4)).
  rewrite <-WriteMajorTypeHeader_small by lia. rewrite !str_app_assoc, read_map_write by (unfold MaxLength; lia).
  change (Z.to_nat 4) with 4%nat.
  do 2 read_field. erewrite read_fields_known; [|done|done|reflexivity]. simpl.
  rewrite (read_nullable_cid_write _ _ _ Hr). simpl.
  erewrite read_fields_known; [|done|done|reflexivity]. simpl.
  rewrite (ReadCid_Write _ _ _ Hv). simpl. destruct e as [? ? ? [|]]; done.
Qed.

Lemma marshal_entries_roundtrip es b r :
  Forall (λ e, - 2 ^ 63 ≤ PrefixLen e < 2 ^ 63) es →
  marshal_entries es = Ok b → unmarshal_entries (length es) (b ++ r) = Ok (es, r).
Proof.
  intros Hes. revert b r. induction Hes as [|e es He _ IH]; intros b r; simpl; [by intros [= <-]|].
  intros (b1 & H1 & (b2 & H2 & [= <-])%result_bind_Ok)%result_bind_Ok.
  rewrite str_app_assoc, (EntryData_roundtrip_app _ _ _ He H1). simpl. by rewrite (IH _ _ H2).
Qed.

Lemma NodeData_roundtrip_app nd b r :
  Forall (λ e, - 2 ^ 63 ≤ PrefixLen e < 2 ^ 63) (nd_Entries nd) →
  NodeData_MarshalCBOR nd = Ok b → NodeData_UnmarshalCBOR (b ++ r) = Ok (nd, r).
Proof.
  intros Hes. unfold NodeData_MarshalCBOR. destruct (_ <? _) eqn:El; [done|]. bool_to_prop.
  intros (es & He & (lf & Hl & <-%Ok_inj)%result_bind_Ok)%result_bind_Ok.
  unfold NodeData_UnmarshalCBOR. change (byte 162) with (byte (160 + 2)).
  rewrite <-WriteMajorTypeHeader_small by lia. rewrite !str_app_assoc, read_map_write by (unfold MaxLength; lia).
  change (Z.to_nat 2) with 2%nat.
  erewrite read_fields_known; [|done|done|reflexivity]. simpl.
  rewrite ReadHeader_Write by (unfold MajArray; lia). simpl.
  destruct (8192 <? _) eqn:E; bool_to_prop; [lia|]. rewrite Nat2Z.id, (marshal_entries_roundtrip _ _ _ Hes He). simpl.
  erewrite read_fields_known; [|done|done|reflexivity]. simpl.
  rewrite (read_nullable_cid_write _ _ _ Hl). simpl.
  destruct nd as [lft es']; simpl in *. destruct lft, es'; done.
Qed.

Lemma Commit_read_tail did version prev data sig rev bd bp r :
  - 2 ^ 63 ≤ version < 2 ^ 63 → WriteCid data = Ok bd → write_nullable_cid prev = Ok bp →
  read_fields 7 Commit_field 3 (mkCommit did 0 None "" sig rev)
    (write_name "data" ++ bd ++ write_name "prev" ++ bp ++ write_name "version" ++ write_int64 version ++ r)
  = Ok (mkCommit did version prev data sig rev, r).
Proof.
  intros Hv Hd Hp. erewrite read_fields_known; [|done|done|reflexivity]. simpl. rewrite (ReadCid_Write _ _ _ Hd). simpl.
  erewrite read_fields_known; [|done|done|reflexivity]. simpl. rewrite (read_nullable_cid_write _ _ _ Hp). simpl.
  read_field. by destruct prev.
Qed.

Lemma Commit_read_sig did sig rev bs r :
  sig ≠ Some "" →
  (match sig with
   | None => Ok ""
   | Some sig =>
       if 2097152 <? len sig then Err "Byte array in field t.Sig was too long"
       else Ok (write_name "sig" ++ WriteMajorTypeHeader MajByteString (len sig) ++ sig)
   end) = Ok bs →
  read_fields 7 Commit_field ((if sig is Some _ then 1 else 0) + 3)%nat (mkCommit did 0 None "" None rev) (bs ++ r)
  = read_fields 7 Commit_field 3 (mkCommit did 0 None "" sig rev) r.
Proof.
  intros Hne. destruct sig as [sig|]; [|by intros [= <-]].
  destruct (_ <? _) eqn:El; [done|]. bool_to_prop. intros <-%Ok_inj. rewrite !str_app_assoc.
  read_field. destruct (String.eqb_spec sig ""); [by subst|done].
Qed.

Lemma Commit_roundtrip_app t b r :
  - 2 ^ 63 ≤ rc_Version t < 2 ^ 63 → rc_Sig t ≠ Some "" →
  Commit_MarshalCBOR t = Ok b → Commit_UnmarshalCBOR (b ++ r) = Ok (t, r).
Proof.
  destruct t as [did version prev data sig rev]; simpl. intros Hv Hs. unfold Commit_MarshalCBOR; simpl.
  destruct (1000000 <? len did) eqn:Ed; [done|]. bool_to_prop.
  intros (brev & Hr & (bsig & Hsig & (bd & Hd & (bp & Hp & <-%Ok_inj)%result_bind_Ok)%result_bind_Ok)%result_bind_Ok)%result_bind_Ok.
  unfold Commit_UnmarshalCBOR. rewrite !str_app_assoc, read_map_write by (unfold MaxLength; destruct sig, (String.eqb_spec rev ""); lia).
  replace (Z.to_nat _) with (S ((if String.eqb rev "" then 0 else 1) + ((if sig is Some _ then 1 else 0) + 3)))%nat
    by (destruct sig, (String.eqb rev ""); done).
  erewrite read_fields_known; [|done|done|reflexivity]. simpl. rewrite ReadStringWithMax_Write by lia. simpl.
  destruct (String.eqb_spec rev "") as [->|Hne]; simpl.
  - injection Hr as <-. simpl. by rewrite (Commit_read_sig _ _ _ _ _ Hs Hsig), (Commit_read_tail _ _ _ _ _ _ _ _ _ Hv Hd Hp).
  - destruct (1000000 <? len rev) eqn:Er; [done|]. bool_to_prop. apply Ok_inj in Hr as <-. rewrite !str_app_assoc.
    erewrite read_fields_known; [|done|done|reflexivity]. simpl. rewrite ReadStringWithMax_Write by lia. simpl.
    by rewrite (Commit_read_sig _ _ _ _ _ Hs Hsig), (Commit_read_tail _ _ _ _ _ _ _ _ _ Hv Hd Hp).
Qed.

End Codec.
