(* ===== verification/Mst.v ===== *)
(** * The Merkle search tree of a repository: [src/atproto/repo/mst]

    The in-memory tree of [node.go], [node_insert.go], [node_remove.go],
    [tree.go] and [verify.go], with [util.go].  A [*Node] that is never nil is a
    value of [Node]; the nodes of a tree are referenced once, so a method that
    changes its receiver returns the changed node.  [Errors when operating on
    the tree may leave the tree in a partially modified state] (comment on
    [Tree]): where the code gives up with an error, the model keeps the error
    alone, except in [compareKey] and [proveMutation], whose marks stay on the
    tree when the error is dropped.

    Keys are byte strings ([IsValidKey] refuses the empty one) and a CID is the
    string inside [cid.Cid].  An index that may be -1 is an [option nat]. *)

From S2P Require Import Prelude GoStrings Sha256.
Local Open Scope Z_scope.

Abbreviation cid := string (only parsing).

(** ** [util.go] *)

Definition MAX_KEY_BYTES : Z := 1024.

(** The loop of [HeightForKey] over the digest. *)
Fixpoint height_of_digest (hv : list Z) (height : Z) : Z :=
  match hv with
  | [] => height
  | b :: hv =>
      if negb (Z.land b 0xC0 =? 0) then height
      else if b =? 0 then height_of_digest hv (height + 4)
      else if Z.land b 0xFC =? 0 then height + 3
      else if Z.land b 0xF0 =? 0 then height + 2
      else height + 1
  end.

Definition HeightForKey (key : string) : Z := height_of_digest (Sha256.Sum256 key) 0.

Lemma height_of_digest_nonneg hv z : 0 ≤ z → 0 ≤ height_of_digest hv z.
Proof. revert z. induction hv as [|b hv IH]; simpl; intros z Hz; [done|]. repeat case_match; try lia. apply IH. lia. Qed.

Lemma HeightForKey_nonneg key : 0 ≤ HeightForKey key.
Proof. by apply height_of_digest_nonneg. Qed.

Lemma height_of_digest_bound hv z : height_of_digest hv z ≤ z + 4 * Z.of_nat (length hv).
Proof.
  revert z. induction hv as [|b hv IH]; intros z; cbn [height_of_digest length]; [lia|].
  repeat case_match; try lia. specialize (IH (z + 4)). lia.
Qed.

(** A digest has 256 bits. *)
Lemma HeightForKey_bound key : HeightForKey key ≤ 128.
Proof.
  unfold HeightForKey. pose proof (height_of_digest_bound (Sha256.Sum256 key) 0) as Hb.
  rewrite Sha256.Sum256_length in Hb. lia.
Qed.

(** Proofs never compute a digest; witnesses do, by [vm_compute]. *)
Global Opaque HeightForKey.

Fixpoint CountPrefixLen (a b : string) : nat :=
  match a, b with
  | String x a, String y b => if Ascii.eqb x y then S (CountPrefixLen a b) else O
  | _, _ => O
  end.

Definition IsValidKey (key : string) : bool :=
  negb ((len key =? 0) || (MAX_KEY_BYTES <? len key)).

(** ** [node.go]: data *)

Record NodeEntry (N : Type) := mkEntry {
  Key : string;
  Value : option cid;
  ChildCID : option cid;
  Child : option N;
  eDirty : bool;
}.
Arguments mkEntry {N} _ _ _ _ _.
Arguments Key {N} _.
Arguments Value {N} _.
Arguments ChildCID {N} _.
Arguments Child {N} _.
Arguments eDirty {N} _.

Local Unset Elimination Schemes.
Inductive Node := mkNode {
  Entries : list (NodeEntry Node);
  Height : Z;
  Dirty : bool;
  CID : option cid;
  Stub : bool;
}.

Local Set Elimination Schemes.

Abbreviation Entry := (NodeEntry Node).

(** The struct literals of the source: fields that are not named are zero. *)
Definition newNode (height : Z) (es : list Entry) : Node := mkNode es height true None false.
Definition valueEntry (key : string) (val : cid) : Entry := mkEntry key (Some val) None None true.
Definition childEntry (c : Node) : Entry := mkEntry "" None None (Some c) true.

Definition set_Dirty (d : bool) (n : Node) : Node := mkNode (Entries n) (Height n) d (CID n) (Stub n).
Definition set_Entries (es : list Entry) (n : Node) : Node := mkNode es (Height n) (Dirty n) (CID n) (Stub n).
Definition set_Child (c : option Node) (e : Entry) : Entry := mkEntry (Key e) (Value e) (ChildCID e) c (eDirty e).
Definition set_Value (v : option cid) (e : Entry) : Entry := mkEntry (Key e) v (ChildCID e) (Child e) (eDirty e).
Definition set_eDirty (d : bool) (e : Entry) : Entry := mkEntry (Key e) (Value e) (ChildCID e) (Child e) d.
Definition set_ChildCID (c : option cid) (e : Entry) : Entry := mkEntry (Key e) (Value e) c (Child e) (eDirty e).

(** [n.Entries[i] = ...], for an index the code has checked. *)
Definition update_entry (i : nat) (f : Entry → Entry) (es : list Entry) : list Entry := alter f i es.

(** [slices.Delete(es, i, j)] and [slices.Insert(es, i, new...)] *)
Definition slices_Delete (es : list Entry) (i j : nat) : list Entry := take i es ++ drop j es.
Definition slices_Insert (es : list Entry) (i : nat) (new : list Entry) : list Entry := take i es ++ new ++ drop i es.

(** Errors.  [errors.Is(err, ErrPartialTree)] holds of [ErrPartialTree] and of
    what wraps it with [%w]; the other messages are [MstErr].  [Panic] is a run
    time panic, and [OutOfFuel] the model's own, which the operations never
    return: see [Tree_operations_terminate]. *)
Inductive mst_err :=
| ErrInvalidKey
| ErrPartialTree
| ErrInvalidTree (msg : string)
| MstErr (msg : string)
| Panic (msg : string)
| OutOfFuel.

#[export] Instance mst_err_eq_dec : EqDecision mst_err.
Proof. solve_decision. Defined.

Definition IsEmpty (n : Node) : bool := (length (Entries n) =? 0)%nat.

Fixpoint IsPartial (n : Node) : bool :=
  if Stub n then true
  else existsb (λ e,
    match Child e with
    | None => bool_decide (is_Some (ChildCID e))
    | Some c => IsPartial c
    end) (Entries n).

Definition IsValue {N} (e : NodeEntry N) : bool :=
  (0 <? len (Key e)) && bool_decide (is_Some (Value e)).

Definition IsChild {N} (e : NodeEntry N) : bool :=
  bool_decide (is_Some (Child e)) || bool_decide (is_Some (ChildCID e)).

Fixpoint deepCopy (n : Node) : Node :=
  mkNode
    (map (λ e, mkEntry (Key e) (Value e) (ChildCID e)
                 (match Child e with Some c => Some (deepCopy c) | None => None end) (eDirty e)) (Entries n))
    (Height n) (Dirty n) (CID n) (Stub n).

(** ** [node.go]: searching in a node *)

Fixpoint findExistingEntry_loop (i : nat) (es : list Entry) (key : string) : option nat :=
  match es with
  | [] => None
  | e :: es => if IsValue e && String.eqb key (Key e) then Some i else findExistingEntry_loop (S i) es key
  end.
Definition findExistingEntry (n : Node) (key : string) : option nat := findExistingEntry_loop 0 (Entries n) key.

Fixpoint findExistingChild_loop (idx : option nat) (i : nat) (es : list Entry) (key : string) : option nat :=
  match es with
  | [] => idx
  | e :: es =>
      if IsChild e then findExistingChild_loop (Some i) (S i) es key
      else if IsValue e then
        if str_le key (Key e) then idx else findExistingChild_loop None (S i) es key
      else findExistingChild_loop idx (S i) es key
  end.
Definition findExistingChild (n : Node) (key : string) : option nat := findExistingChild_loop None 0 (Entries n) key.

(** The next entry is a value which the key comes after: the child before it
    need not be looked at. *)
Definition after_next (rest : list Entry) (key : string) : bool :=
  match rest with
  | next :: _ => IsValue next && str_lt (Key next) key
  | [] => false
  end.

(** The loop of [compareKey] over the entries; [rec] is the call on a child. *)
Definition compareKey_loop (rec : Node → Node * result mst_err Z) (key : string) (n_len : nat) :=
  fix loop (i : nat) (es : list Entry) : list Entry * result mst_err Z :=
    match es with
    | [] => ([], Ok 0)
    | e :: rest =>
        if IsValue e && str_lt key (Key e) then (e :: rest, Ok 0)
        else if IsChild e then
          if after_next rest key then let '(rest', r) := loop (S i) rest in (e :: rest', r)
          else
            match Child e with
            | None => (e :: rest, Err ErrPartialTree)
            | Some c =>
                let '(c', r) := rec c in
                let es' := set_Child (Some c') e :: rest in
                match r with
                | Err err => (es', Err err)
                | Ok order =>
                    if (i =? 0)%nat && (order <? 0) then (es', Ok (-1))
                    else if (i =? n_len - 1)%nat && (0 <? order) then (es', Ok 1)
                    else (es', Ok 0)
                end
            end
        else let '(rest', r) := loop (S i) rest in (e :: rest', r)
    end.

Definition first_above (es : list Entry) (key : string) : bool :=
  match es with e :: _ => IsValue e && str_lt key (Key e) | [] => false end.
Definition last_below (es : list Entry) (key : string) : bool :=
  match last es with Some e => IsValue e && str_lt (Key e) key | None => false end.

Fixpoint compareKey (n : Node) (key : string) (markDirty : bool) {struct n} : Node * result mst_err Z :=
  if Stub n then (n, Err ErrPartialTree)
  else if IsEmpty n then (n, Err (MstErr "can't determine key range of empty MST node"))
  else
    let n1 := if markDirty then set_Dirty true n else n in
    if first_above (Entries n) key then (n1, Ok (-1))
    else if last_below (Entries n) key then (n1, Ok 1)
    else
      let '(es, r) := compareKey_loop (λ c, compareKey c key markDirty) key (length (Entries n)) 0 (Entries n) in
      (set_Entries es n1, r).

Definition findInsertionIndex_loop (key : string) (n_len : nat) :=
  fix loop (i : nat) (es : list Entry) : result mst_err (nat * bool) :=
    match es with
    | [] => Ok (n_len, false)
    | e :: rest =>
        if IsValue e && str_lt key (Key e) then Ok (i, false)
        else if IsChild e then
          if after_next rest key then loop (S i) rest
          else
            match Child e with
            | None => Err (MstErr "partial MST, can't determine insertion order")
            | Some c =>
                match (compareKey c key false).2 with
                | Err err => Err err
                | Ok order =>
                    if order <? 0 then Ok (i, false)
                    else if 0 <? order then loop (S i) rest
                    else Ok (i, true)
                end
            end
        else loop (S i) rest
    end.

Definition findInsertionIndex (n : Node) (key : string) : result mst_err (nat * bool) :=
  if Stub n then Err (MstErr "partial MST, can't determine insertion order")
  else findInsertionIndex_loop key (length (Entries n)) 0 (Entries n).

(** [proveMutation] marks a child with [compareKey] and then goes into the
    marked child; the fuel is the depth of the tree, which marking keeps. *)
Fixpoint depth (n : Node) : nat :=
  S (list_max (map (λ e, match Child e with Some c => depth c | None => O end) (Entries n))).

Definition proveMutation_loop (rec : Node → Node * option mst_err) (key : string) :=
  fix loop (es : list Entry) : list Entry * option mst_err :=
    match es with
    | [] => ([], None)
    | e :: rest =>
        if IsValue e && str_lt key (Key e) then (e :: rest, None)
        else if IsChild e then
          if after_next rest key then let '(rest', r) := loop rest in (e :: rest', r)
          else
            match Child e with
            | None => (e :: rest, Some ErrPartialTree)
            | Some c =>
                let '(c', r) := compareKey c key true in
                let e' := set_Child (Some c') e in
                match r with
                | Err err => (e' :: rest, Some err)
                | Ok order =>
                    if 0 <? order then let '(rest', r) := loop rest in (e' :: rest', r)
                    else if order <? 0 then (e' :: rest, None)
                    else let '(c'', r) := rec c' in (set_Child (Some c'') e :: rest, r)
                end
            end
        else let '(rest', r) := loop rest in (e :: rest', r)
    end.

Fixpoint proveMutation_fuel (fuel : nat) (n : Node) (key : string) : Node * option mst_err :=
  match fuel with
  | O => (n, Some OutOfFuel)
  | S fuel =>
      let '(es, r) := proveMutation_loop (λ c, proveMutation_fuel fuel c key) key (Entries n) in
      (set_Entries es n, r)
  end.
Definition proveMutation (n : Node) (key : string) : Node * option mst_err := proveMutation_fuel (depth n) n key.

(** ** [node.go]: reading *)

(** The method of the child at index [idx], as a closure: recursion on the
    child the code picks stays structural. *)
Definition nth_child {B} (f : Node → B) (es : list Entry) (idx : nat) : option B :=
  match es !! idx with
  | Some e => match Child e with Some c => Some (f c) | None => None end
  | None => None
  end.

Definition child_closures {B} (f : Node → B) (es : list Entry) : list (option B) :=
  map (λ e, match Child e with Some c => Some (f c) | None => None end) es.

Lemma child_closures_lookup {B} (f : Node → B) es idx :
  default None (child_closures f es !! idx) = nth_child f es idx.
Proof.
  unfold child_closures, nth_child. rewrite list_lookup_fmap. by destruct (es !! idx).
Qed.

Fixpoint writeToMap (n : Node) (m : gmap string cid) : gmap string cid :=
  fold_left (λ m e,
    let m := match Value e with Some v => if IsValue e then <[Key e := v]> m else m | None => m end in
    match Child e with Some c => writeToMap c m | None => m end) (Entries n) m.

Section Walk.
Context {S E : Type} (f : string → cid → S → result E S).
Fixpoint walk (n : Node) (s : S) : result E S :=
  (fix loop es s :=
     match es with
     | [] => Ok s
     | e :: es =>
         r ← (if IsValue e then match Value e with Some v => f (Key e) v s | None => Ok s end else Ok s);
         r ← (match Child e with Some c => walk c r | None => Ok r end);
         loop es r
     end) (Entries n) s.
End Walk.

Fixpoint getCID (n : Node) : string → Z → result mst_err (option cid) := λ key height,
  if Stub n then Err ErrPartialTree
  else
    let height := if height <? 0 then HeightForKey key else height in
    if Height n <? height then Ok None
    else if height <? Height n then
      match findExistingChild n key with
      | Some idx =>
          match default None (child_closures getCID (Entries n) !! idx) with
          | None => Err ErrPartialTree
          | Some rec => rec key height
          end
      | None => Ok None
      end
    else
      match findExistingEntry n key with
      | Some idx => Ok (match Entries n !! idx with Some e => Value e | None => None end)
      | None => Ok None
      end.

(** ** [node_insert.go] *)

Definition splitEntries (n : Node) (idx : nat) : result mst_err (Node * Node) :=
  if (idx =? 0)%nat || (length (Entries n) <=? idx)%nat
  then Err (MstErr "splitting at one end or the other of entries")
  else
    let left := newNode (Height n) (take idx (Entries n)) in
    let right := newNode (Height n) (drop idx (Entries n)) in
    if IsEmpty left || IsEmpty right then Err (MstErr "one of the legs is empty")
    else Ok (left, right).

Fixpoint split (n : Node) : string → result mst_err (Node * Node) := λ key,
  if IsEmpty n then Err (MstErr "tried to split an empty node")
  else
    match findInsertionIndex n key with
    | Err err => Err err
    | Ok (idx, false) => splitEntries n idx
    | Ok (idx, true) =>
        match default None (child_closures split (Entries n) !! idx) with
        | None => Err (Panic "nil pointer")
        | Some rec =>
            match rec key with
            | Err err => Err err
            | Ok (lowerLeft, lowerRight) =>
                let left := newNode (Height n) (take idx (Entries n) ++ [childEntry lowerLeft]) in
                let right := newNode (Height n) (childEntry lowerRight :: drop (idx + 1) (Entries n)) in
                Ok (left, right)
            end
        end
    end.

Definition ignore_partial (r : option mst_err) : option mst_err :=
  match r with Some ErrPartialTree => None | r => r end.

(** [insert] and its two helpers call each other; [rec] is [insert]. *)
Definition insertParent (rec : Node → string → cid → Z → result mst_err (Node * option cid))
    (n : Node) (key : string) (val : cid) (height : Z) : result mst_err (Node * option cid) :=
  let parent :=
    if IsEmpty n then newNode height []
    else newNode (Height n + 1) [childEntry n] in
  rec parent key val height.

Definition insertChild (rec : Node → string → cid → Z → result mst_err (Node * option cid))
    (n : Node) (key : string) (val : cid) (height : Z) : result mst_err (Node * option cid) :=
  match findExistingChild n key with
  | Some idx =>
      match nth_child id (Entries n) idx with
      | None => Err ErrPartialTree
      | Some c =>
          match rec c key val height with
          | Err err => Err err
          | Ok (newChild, prev) =>
              if bool_decide (prev = Some val) then Ok (n, Some val)
              else Ok (set_Dirty true
                         (set_Entries (update_entry idx (λ e, set_eDirty true (set_Child (Some newChild) e)) (Entries n)) n),
                       prev)
          end
      end
  | None =>
      match findInsertionIndex n key with
      | Err err => Err err
      | Ok (_, true) => Err (MstErr "unexpected split when inserting child")
      | Ok (idx, false) =>
          match rec (newNode (Height n - 1) []) key val height with
          | Err err => Err err
          | Ok (newChild, _) =>
              Ok (set_Dirty true (set_Entries (slices_Insert (Entries n) idx [childEntry newChild]) n), None)
          end
      end
  end.

Fixpoint insert_fuel (fuel : nat) (n : Node) (key : string) (val : cid) (height : Z)
  : result mst_err (Node * option cid) :=
  match fuel with
  | O => Err OutOfFuel
  | S fuel =>
      if Stub n then Err ErrPartialTree
      else
        let height := if height <? 0 then HeightForKey key else height in
        if Height n <? height then insertParent (insert_fuel fuel) n key val height
        else if height <? Height n then insertChild (insert_fuel fuel) n key val height
        else
          match findExistingEntry n key with
          | Some idx =>
              let prev := match Entries n !! idx with Some e => Value e | None => None end in
              if bool_decide (prev = Some val) then Ok (n, Some val)
              else Ok (set_Dirty true
                         (set_Entries (update_entry idx (λ e, set_eDirty true (set_Value (Some val) e)) (Entries n)) n),
                       prev)
          | None =>
              match findInsertionIndex n key with
              | Err err => Err err
              | Ok (idx, split_needed) =>
                  let '(n, r) := proveMutation (set_Dirty true n) key in
                  match ignore_partial r with
                  | Some err => Err err
                  | None =>
                      let newEntry := valueEntry key val in
                      if negb split_needed then
                        if (length (Entries n) <=? idx)%nat
                        then Ok (set_Entries (Entries n ++ [newEntry]) n, None)
                        else Ok (set_Entries (slices_Insert (Entries n) idx [newEntry]) n, None)
                      else
                        match nth_child id (Entries n) idx with
                        | None => Err (Panic "nil pointer")
                        | Some c =>
                            match split c key with
                            | Err err => Err err
                            | Ok (l, r) =>
                                let es := slices_Delete (Entries n) idx (idx + 1) in
                                Ok (set_Entries (slices_Insert es idx [childEntry l; newEntry; childEntry r]) n, None)
                            end
                        end
                  end
              end
          end
  end.

(** Rounds [insert] can take: down the tree, and up or down the layers between
    the layer of the key and that of a node. *)
Fixpoint insert_rounds (n : Node) (height : Z) : nat :=
  S (Nat.max (S (Z.to_nat (Z.abs (height - Height n))))
       (list_max (map (λ e, match Child e with Some c => insert_rounds c height | None => O end) (Entries n)))).

Definition insert (n : Node) (key : string) (val : cid) (height : Z) : result mst_err (Node * option cid) :=
  insert_fuel (insert_rounds n (if height <? 0 then HeightForKey key else height)) n key val height.

(** ** [node_remove.go] *)

Fixpoint mergeNodes (left : Node) : Node → result mst_err Node := λ right,
  let es := Entries left ++ Entries right in
  let idx := length (Entries left) in
  match Entries left !! (idx - 1)%nat with
  | None => Err (Panic "index out of range")
  | Some lowerLeft =>
      if negb (IsChild lowerLeft) then Ok (newNode (Height left) es)
      else
        match es !! idx with
        | None => Err (Panic "index out of range")
        | Some lowerRight =>
            if negb (IsChild lowerRight) then Ok (newNode (Height left) es)
            else
              match default None (child_closures mergeNodes (Entries left) !! (idx - 1)%nat), Child lowerRight with
              | Some rec, Some r =>
                  match rec r with
                  | Err err => Err err
                  | Ok lowerMerged =>
                      Ok (newNode (Height left)
                            (slices_Delete (update_entry (idx - 1) (λ _, childEntry lowerMerged) es) idx (idx + 1)))
                  end
              | _, _ => Err ErrPartialTree
              end
        end
  end.

(** The loop at the end of [remove], which trims the top of the tree. *)
Fixpoint trim_top (n : Node) : result mst_err Node :=
  match Entries n with
  | [e] =>
      if negb (IsChild e) then Ok n
      else
        match Child e with
        | None =>
            match ChildCID e with
            | None => Err ErrPartialTree
            | Some c => Ok (mkNode [] (Height n - 1) false (Some c) true)
            end
        | Some c => trim_top c
        end
  | _ => Ok n
  end.

Definition removeChild (rec : option (string → Z → result mst_err (Node * option cid)))
    (n : Node) (idx : nat) (key : string) (height : Z) : result mst_err (Node * option cid) :=
  match rec with
  | None => Err ErrPartialTree
  | Some rec =>
      match rec key height with
      | Err err => Err err
      | Ok (_, None) => Ok (n, None)
      | Ok (newChild, Some prev) =>
          if negb (IsEmpty newChild)
          then Ok (set_Dirty true
                     (set_Entries (update_entry idx (λ e, set_eDirty true (set_Child (Some newChild) e)) (Entries n)) n),
                   Some prev)
          else Ok (set_Dirty true (set_Entries (slices_Delete (Entries n) idx (idx + 1)) n), Some prev)
      end
  end.

Definition is_child_at (es : list Entry) (i : nat) : bool :=
  match es !! i with Some e => IsChild e | None => false end.

(** Taking entry [idx] out of the node, with the merge of its neighbours. *)
Definition remove_entry (n : Node) (idx : nat) : result mst_err Node :=
  if (0 <? idx)%nat && (idx + 1 <? length (Entries n))%nat
     && is_child_at (Entries n) (idx - 1) && is_child_at (Entries n) (idx + 1)
  then
    match nth_child id (Entries n) (idx - 1), nth_child id (Entries n) (idx + 1) with
    | Some l, Some r =>
        match mergeNodes l r with
        | Err err => Err err
        | Ok newChild =>
            let es := slices_Delete (Entries n) idx (idx + 2) in
            Ok (set_Entries (update_entry (idx - 1) (λ _, childEntry newChild) es) n)
        end
    | _, _ => Err ErrPartialTree
    end
  else Ok (set_Entries (slices_Delete (Entries n) idx (idx + 1)) n).

Fixpoint remove (n : Node) : string → Z → result mst_err (Node * option cid) := λ key height,
  if Stub n then Err ErrPartialTree
  else
    let top := height <? 0 in
    let height := if height <? 0 then HeightForKey key else height in
    if Height n <? height then Ok (n, None)
    else if height <? Height n then
      match findExistingChild n key with
      | None => Ok (n, None)
      | Some idx => removeChild (default None (child_closures remove (Entries n) !! idx)) n idx key height
      end
    else
      match findExistingEntry n key with
      | None => Ok (n, None)
      | Some idx =>
          let prev := match Entries n !! idx with Some e => Value e | None => None end in
          match remove_entry (set_Dirty true n) idx with
          | Err err => Err err
          | Ok n =>
              let '(n, r) := proveMutation n key in
              match ignore_partial r with
              | Some err => Err err
              | None =>
                  if top then
                    match trim_top n with
                    | Err err => Err err
                    | Ok n => Ok (n, prev)
                    end
                  else Ok (n, prev)
              end
          end
      end.

(** ** [tree.go] *)

Record Tree := mkTree { Root : Node }.

Definition NewEmptyTree : Tree := mkTree (newNode 0 []).

Definition Tree_Insert (t : Tree) (key : string) (val : cid) : result mst_err (Tree * option cid) :=
  if negb (IsValidKey key) then Err ErrInvalidKey
  else
    match insert (Root t) key val (-1) with
    | Err err => Err err
    | Ok (out, prev) => Ok (mkTree out, prev)
    end.

Definition Tree_Remove (t : Tree) (key : string) : result mst_err (Tree * option cid) :=
  if negb (IsValidKey key) then Err ErrInvalidKey
  else
    match remove (Root t) key (-1) with
    | Err err => Err err
    | Ok (out, prev) => Ok (mkTree out, prev)
    end.

Definition Tree_Get (t : Tree) (key : string) : result mst_err (option cid) :=
  if negb (IsValidKey key) then Err ErrInvalidKey else getCID (Root t) key (-1).

Definition Tree_Walk {S E} (f : string → cid → S → result E S) (t : Tree) (s : S) : result E S := walk f (Root t) s.

(** [range m] visits the entries of the map in some order: [m] is the list in
    that order. *)
Fixpoint LoadTreeFromMap_loop (t : Tree) (m : list (string * cid)) : result mst_err Tree :=
  match m with
  | [] => Ok t
  | (key, val) :: m =>
      match Tree_Insert t key val with
      | Err err => Err err
      | Ok (t, _) => LoadTreeFromMap_loop t m
      end
  end.
Definition LoadTreeFromMap (m : list (string * cid)) : result mst_err Tree := LoadTreeFromMap_loop NewEmptyTree m.

Definition Tree_WriteToMap (t : Tree) (m : gmap string cid) : gmap string cid := writeToMap (Root t) m.
Definition Tree_IsEmpty (t : Tree) : bool := IsEmpty (Root t).
Definition Tree_IsPartial (t : Tree) : bool := IsPartial (Root t).
Definition Tree_Copy (t : Tree) : Tree := mkTree (deepCopy (Root t)).

(** ** [verify.go] *)

Definition node_height (height : Z) (es : list Entry) : Z :=
  if height <? 0 then
    match list_find (λ e, IsValue e = true) es with
    | Some (_, e) => HeightForKey (Key e)
    | None => height
    end
  else height.

Definition verifyStructure_loop (rec : Node → Z → string → option mst_err) (height : Z) :=
  fix loop (lastWasChild : bool) (key : string) (es : list Entry) : option mst_err :=
    match es with
    | [] => None
    | e :: es =>
        if IsChild e then
          if lastWasChild then Some (MstErr "sibling children in entries list")
          else if IsValue e then Some (MstErr "entry is both a child and a value")
          else if height =? 0 then Some (MstErr "child below zero height")
          else
            match (match Child e with Some c => rec c (height - 1) key | None => None end) with
            | Some err => Some err
            | None => loop true key es
            end
        else if IsValue e then
          if String.eqb key (Key e) then Some (MstErr "duplicate key in tree")
          else if str_lt (Key e) key then Some (MstErr "out of order keys")
          else if negb (height =? HeightForKey (Key e)) then Some (MstErr "wrong height for key")
          else loop false (Key e) es
        else Some (MstErr "entry was neither child nor value")
    end.

Fixpoint verifyStructure (n : Node) (height : Z) (key : string) {struct n} : option mst_err :=
  if Stub n then Some (MstErr "stub node")
  else if bool_decide (CID n = None) && negb (Dirty n) then Some (MstErr "node missing CID, but not marked dirty")
  else if (length (Entries n) =? 0)%nat then
    if 0 <=? height then Some (MstErr "empty tree node") else None
  else
    let height := node_height height (Entries n) in
    if height <? 0 then Some (MstErr "top of tree is just a pointer to child")
    else if (Height n =? -1) || negb (Height n =? height) then Some (MstErr "node has incorrect height")
    else verifyStructure_loop verifyStructure height false key (Entries n).

Definition Tree_Verify (t : Tree) : option mst_err := verifyStructure (Root t) (-1) "".
