(* ===== verification/MstData.v ===== *)
(** * Encoding of tree nodes: [src/atproto/repo/mst/encoding.go]

    Nodes and their block form [NodeData], writing the dirty part of a tree to a
    block store with the CIDs cached on the way, and reading a tree, possibly a
    partial one, back from a store.  The CID of a block
    ([cid.NewPrefixV1(cid.DagCBOR, multihash.SHA2_256).Sum]) comes from the
    library go-cid and is the field of [CidLib]. *)

From S2P Require Import Prelude GoStrings Sha256 Cbor Mst.
Local Open Scope string_scope.
Local Open Scope Z_scope.

Class CidLib := { cid_Sum : string → result string cid }.

(** ** Byte slices *)

Fixpoint str_take (n : nat) (s : string) : string :=
  match n, s with S n, String c s => String c (str_take n s) | _, _ => "" end.
Fixpoint str_drop (n : nat) (s : string) : string :=
  match n, s with S n, String _ s => str_drop n s | _, s => s end.

(** ** [Node.NodeData] *)

Definition set_last_Right (c : option cid) (es : list EntryData) : result mst_err (list EntryData) :=
  match last es with
  | None => Err (Panic "malformed tree node")
  | Some e => Ok (take (length es - 1) es ++ [mkEntryData (PrefixLen e) (KeySuffix e) (ed_Value e) c])%list
  end.

Fixpoint NodeData_loop (i : nat) (es : list Entry) (d : NodeData) (prevKey : string) : result mst_err NodeData :=
  match es with
  | [] => Ok d
  | e :: es =>
      if (i =? 0)%nat && IsChild e then NodeData_loop (S i) es (mkNodeData (ChildCID e) (nd_Entries d)) prevKey
      else
        ds ← (if IsChild e then set_last_Right (ChildCID e) (nd_Entries d) else Ok (nd_Entries d));
        match Value e with
        | Some v =>
            if IsValue e then
              let idx := CountPrefixLen prevKey (Key e) in
              NodeData_loop (S i) es
                (mkNodeData (Left d) (ds ++ [mkEntryData (Z.of_nat idx) (str_drop idx (Key e)) v None])%list) (Key e)
            else NodeData_loop (S i) es (mkNodeData (Left d) ds) prevKey
        | None => NodeData_loop (S i) es (mkNodeData (Left d) ds) prevKey
        end
  end.

Definition Node_NodeData (n : Node) : result mst_err NodeData := NodeData_loop 0 (Entries n) (mkNodeData None []) "".

(** ** [NodeData.Node] *)

Definition linkEntry (c : cid) : Entry := mkEntry "" None (Some c) None false.

Definition link_entries (c : option cid) : list Entry :=
  match c with Some c => [linkEntry c] | None => [] end.

(** The loop over the entries: the nodes' entries and the height so far. *)
Fixpoint Node_loop (ds : list EntryData) (prevKey : string) (height : Z) : result mst_err (list Entry * Z) :=
  match ds with
  | [] => Ok ([], height)
  | d :: ds =>
      if (PrefixLen d <? 0) || (len prevKey <? PrefixLen d)
      then Err (ErrInvalidTree "node entry with out of range prefix length")
      else
        let key := str_take (Z.to_nat (PrefixLen d)) prevKey ++ KeySuffix d in
        let height := if height <? 0 then HeightForKey key else height in
        '(es, height) ← Node_loop ds key height;
        Ok ((mkEntry key (Some (ed_Value d)) None None false :: link_entries (Right d) ++ es)%list, height)
  end.

Definition NodeData_Node (d : NodeData) (c : option cid) : result mst_err Node :=
  '(es, height) ← Node_loop (nd_Entries d) "" (-1);
  Ok (mkNode (link_entries (Left d) ++ es)%list height (bool_decide (c = None)) c false).

(** ** [ensureHeights]: [height] is the node's height, already corrected. *)

Fixpoint ensureHeights_at (n : Node) (height : Z) {struct n} : Node :=
  mkNode
    (if height <=? 0 then Entries n
     else map (λ e,
       match Child e with
       | None => e
       | Some c => set_Child (Some (ensureHeights_at c
                     (if (0 <? height) && (Height c <? 0) then height - 1 else Height c))) e
       end) (Entries n))
    height (Dirty n) (CID n) (Stub n).
Definition ensureHeights (n : Node) : Node := ensureHeights_at n (Height n).

Section Blocks.
Context `{CborGen, CidLib}.

Definition NodeData_Bytes (d : NodeData) : result string (string * cid) :=
  b ← NodeData_MarshalCBOR d; c ← cid_Sum b; Ok (b, c).

Definition NodeDataFromCBOR (b : string) : result string NodeData :=
  '(nd, _) ← NodeData_UnmarshalCBOR b; Ok nd.

(** ** [writeBlocks]

    [bs] is the [Put] of the block store, [None] for no store. *)
Section Write.
Context {Store : Type} (bs : option (cid → string → Store → result string Store)).

Definition writeBlocks_loop (rec : Node → Store → Node * Store * result mst_err cid) (onlyDirty : bool) :=
  fix loop (es : list Entry) (st : Store) : list Entry * Store * option mst_err :=
    match es with
    | [] => ([], st, None)
    | e :: es =>
        match Child e with
        | Some c =>
            (* the flag of an entry that is a value too is cleared, on the loop's copy *)
            if (negb (IsValue e) && eDirty e) || Dirty c || negb onlyDirty then
              let '(c', st, r) := rec c st in
              match r with
              | Err err => (set_Child (Some c') e :: es, st, Some err)
              | Ok cc =>
                  let '(es, st, r) := loop es st in
                  (set_eDirty false (set_ChildCID (Some cc) (set_Child (Some c') e)) :: es, st, r)
              end
            else let '(es, st, r) := loop es st in (e :: es, st, r)
        | None => let '(es, st, r) := loop es st in (e :: es, st, r)
        end
    end.

(** Encoding one node whose children have their CIDs. *)
Definition write_node (n : Node) (st : Store) : Node * Store * result mst_err cid :=
  match Node_NodeData n with
  | Err err => (n, st, Err err)
  | Ok nd =>
      match NodeData_Bytes nd with
      | Err msg => (n, st, Err (MstErr msg))
      | Ok (b, c) =>
          let n := mkNode (Entries n) (Height n) false (Some c) (Stub n) in
          match bs with
          | None => (n, st, Ok c)
          | Some put =>
              match put c b st with
              | Err msg => (n, st, Err (MstErr msg))
              | Ok st => (n, st, Ok c)
              end
          end
      end
  end.

Fixpoint writeBlocks (n : Node) (onlyDirty : bool) (st : Store) {struct n} : Node * Store * result mst_err cid :=
  if Stub n then (n, st, Err (ErrInvalidTree "nil tree node"))
  else
    match (if onlyDirty && negb (Dirty n) then CID n else None) with
    | Some c => (n, st, Ok c)
    | None =>
        let '(es, st, r) := writeBlocks_loop (λ c st, writeBlocks c onlyDirty st) onlyDirty (Entries n) st in
        let n1 := set_Entries es n in
        match r with
        | Some err => (n1, st, Err err)
        | None => write_node n1 st
        end
    end.

Definition Tree_WriteDiffBlocks (t : Tree) (st : Store) : Tree * Store * result mst_err cid :=
  let '(n, st, r) := writeBlocks (Root t) true st in (mkTree n, st, r).
End Write.

Definition Tree_RootCID (t : Tree) : Tree * result mst_err cid :=
  match (if Stub (Root t) && negb (Dirty (Root t)) then CID (Root t) else None) with
  | Some c => (t, Ok c)
  | None => let '(n, _, r) := writeBlocks None (Root t) true tt in (mkTree n, r)
  end.

(** ** [loadNodeFromStore]

    Every level of recursion takes one unit of fuel.  [ipld.IsNotFound] holds of
    the error [NotFound] alone. *)
Inductive load_err := NotFound | LoadErr (err : mst_err).

Section Load.
Context (Get : cid → result load_err string).

Definition load_children (rec : cid → result load_err Node) :=
  fix loop (es : list Entry) (height : Z) : result load_err (list Entry * Z) :=
    match es with
    | [] => Ok ([], height)
    | e :: es =>
        match (if IsChild e then ChildCID e else None) with
        | None => '(es, height) ← loop es height; Ok (e :: es, height)
        | Some ref =>
            match rec ref with
            | Err NotFound => '(es, height) ← loop es height; Ok (e :: es, height)
            | Err err => Err err
            | Ok child =>
                let height := if (height =? -1) && (0 <=? Height child) then Height child + 1 else height in
                '(es, height) ← loop es height;
                Ok (set_Child (Some child) e :: es, height)
            end
        end
    end.

Fixpoint loadNodeFromStore (fuel : nat) (ref : cid) : result load_err Node :=
  match fuel with
  | O => Err (LoadErr OutOfFuel)
  | S fuel =>
      block ← Get ref;
      match NodeDataFromCBOR block with
      | Err msg => Err (LoadErr (MstErr msg))
      | Ok nd =>
          match NodeData_Node nd (Some ref) with
          | Err err => Err (LoadErr err)
          | Ok n =>
              '(es, height) ← load_children (loadNodeFromStore fuel) (Entries n) (Height n);
              Ok (mkNode es height (Dirty n) (CID n) (Stub n))
          end
      end
  end.

Definition LoadTreeFromStore (fuel : nat) (root : cid) : result load_err Tree :=
  n ← loadNodeFromStore fuel root; Ok (mkTree (ensureHeights n)).
End Load.

End Blocks.
