(* ===== verification/MstSpec.v ===== *)
(** * What a Merkle search tree stands for

    The tree at layer [h] over a sorted list of key/value pairs is fixed by the
    list: the pairs whose key has layer [h] stay in the node, and each maximal
    run of pairs between them goes to one child, a tree at layer [h - 1].
    [groups] cuts a list this way, [mstCID] computes the CID of the tree of a
    list by recursion on the layer alone, without building the tree, and [rep]
    relates a node in memory (with dirty flags, cached CIDs and children that may
    be absent) to the list it stands for. *)

From S2P Require Import Prelude GoStrings Sha256 Cbor Mst MstData.
Local Open Scope Z_scope.

Abbreviation kv := (string * cid)%type.

(** ** Sorted lists of pairs *)

Notation "a ≺ b" := (str_lt a b = true) (at level 70, no associativity).

Definition sorted (l : list kv) : Prop := StronglySorted (λ p q, p.1 ≺ q.1) l.
Definition below (key : string) (l : list kv) : Prop := Forall (λ p, p.1 ≺ key) l.
Definition above (key : string) (l : list kv) : Prop := Forall (λ p, key ≺ p.1) l.
(** [above] or equal *)
Definition from (key : string) (l : list kv) : Prop := Forall (λ p, str_lt p.1 key = false) l.

Fixpoint kv_insert (key : string) (val : cid) (l : list kv) : list kv :=
  match l with
  | [] => [(key, val)]
  | p :: l =>
      if str_lt key p.1 then (key, val) :: p :: l
      else if String.eqb key p.1 then (key, val) :: l
      else p :: kv_insert key val l
  end.

Fixpoint kv_delete (key : string) (l : list kv) : list kv :=
  match l with
  | [] => []
  | p :: l => if String.eqb key p.1 then l else p :: kv_delete key l
  end.

Fixpoint kv_lookup (key : string) (l : list kv) : option cid :=
  match l with
  | [] => None
  | p :: l => if String.eqb key p.1 then Some p.2 else kv_lookup key l
  end.

Lemma sorted_app l1 l2 : sorted (l1 ++ l2) ↔ sorted l1 ∧ sorted l2 ∧ Forall (λ p, above p.1 l2) l1.
Proof.
  unfold sorted. induction l1 as [|p l1 IH]; simpl.
  - split; [intros; repeat split; by try constructor|by intros (_ & H & _)].
  - split.
    + intros [(H1 & H2 & H3)%IH H]%StronglySorted_inv. apply Forall_app in H as [Ha Hb].
      split; [by constructor|]. split; [done|]. constructor; [done|done].
    + intros ([H1 H]%StronglySorted_inv & H2 & [Hp H3]%Forall_cons). constructor; [by apply IH|].
      apply Forall_app. done.
Qed.

Lemma sorted_cons p l : sorted (p :: l) ↔ above p.1 l ∧ sorted l.
Proof.
  split; [intros [? ?]%StronglySorted_inv; done|]. intros [? ?]. by constructor.
Qed.

Lemma above_from key l : above key l → from key l.
Proof. intros H. eapply Forall_impl; [exact H|]. intros p. apply str_lt_asym. Qed.

Lemma above_trans a b l : a ≺ b → above b l → above a l.
Proof. intros Hab H. eapply Forall_impl; [exact H|]. intros p Hp. simpl in *. by apply (str_lt_trans _ b). Qed.

Lemma below_trans a b l : a ≺ b → below a l → below b l.
Proof. intros Hab H. eapply Forall_impl; [exact H|]. intros p Hp. simpl in *. by apply (str_lt_trans _ a). Qed.

(** [key] is not before [a], and [a] is before all of [l]. *)
Lemma from_above key a l : str_lt a key = false → above a l → from key l.
Proof.
  intros Ha H. eapply Forall_impl; [exact H|]. intros p Hp. destruct (str_lt p.1 key) eqn:E; [|done].
  by rewrite (str_lt_trans _ _ _ Hp E) in Ha.
Qed.

Lemma from_above_ne key l : from key l → kv_lookup key l = None → above key l.
Proof.
  induction 1 as [|p l Hp _ IH]; simpl; [constructor|].
  destruct (String.eqb_spec key p.1) as [->|Hne]; [done|]. intros Hl. constructor; [|by apply IH].
  destruct (str_lt key p.1) eqn:E; [done|]. destruct Hne. by apply str_lt_total.
Qed.

Lemma below_above_app key l1 l2 : sorted l1 → sorted l2 → below key l1 → above key l2 → sorted (l1 ++ l2).
Proof.
  intros H1 H2 Hb Ha. apply sorted_app. split; [done|]. split; [done|].
  eapply Forall_impl; [exact Hb|]. intros p Hp. by apply (above_trans _ key).
Qed.

(** ** Operations on a list cut around the key *)

Lemma kv_lookup_below key l1 l2 : below key l1 → kv_lookup key (l1 ++ l2) = kv_lookup key l2.
Proof.
  induction 1 as [|p l1 Hp _ IH]; simpl; [done|].
  destruct (String.eqb_spec key p.1) as [->|_]; [by rewrite str_lt_irrefl in Hp|done].
Qed.

Lemma kv_lookup_above key l : above key l → kv_lookup key l = None.
Proof.
  induction 1 as [|p l Hp _ IH]; simpl; [done|].
  destruct (String.eqb_spec key p.1) as [->|_]; [by rewrite str_lt_irrefl in Hp|done].
Qed.

Lemma kv_lookup_app_l key l1 l2 : above key l2 → kv_lookup key (l1 ++ l2) = kv_lookup key l1.
Proof.
  intros Ha. induction l1 as [|p l1 IH]; simpl; [by apply kv_lookup_above|]. by rewrite IH.
Qed.

Lemma kv_insert_below key v l1 l2 : below key l1 → kv_insert key v (l1 ++ l2) = l1 ++ kv_insert key v l2.
Proof.
  induction 1 as [|p l1 Hp _ IH]; simpl; [done|].
  rewrite (str_lt_asym _ _ Hp). destruct (String.eqb_spec key p.1) as [->|_]; [by rewrite str_lt_irrefl in Hp|].
  by rewrite IH.
Qed.

Lemma kv_insert_above key v l : above key l → kv_insert key v l = (key, v) :: l.
Proof. destruct 1 as [|p l Hp _]; simpl; [done|]. by rewrite Hp. Qed.

Lemma kv_insert_app_l key v l1 l2 :
  above key l2 → kv_insert key v (l1 ++ l2) = kv_insert key v l1 ++ l2.
Proof.
  intros Ha. induction l1 as [|p l1 IH]; simpl; [by apply kv_insert_above|].
  destruct (str_lt key p.1); [done|]. destruct (String.eqb key p.1); [done|]. by rewrite IH.
Qed.

Lemma kv_insert_here key v w l : kv_insert key v ((key, w) :: l) = (key, v) :: l.
Proof. simpl. by rewrite str_lt_irrefl, String.eqb_refl. Qed.

Lemma kv_delete_below key l1 l2 : below key l1 → kv_delete key (l1 ++ l2) = l1 ++ kv_delete key l2.
Proof.
  induction 1 as [|p l1 Hp _ IH]; simpl; [done|].
  destruct (String.eqb_spec key p.1) as [->|_]; [by rewrite str_lt_irrefl in Hp|]. by rewrite IH.
Qed.

Lemma kv_delete_above key l : above key l → kv_delete key l = l.
Proof.
  induction 1 as [|p l Hp _ IH]; simpl; [done|].
  destruct (String.eqb_spec key p.1) as [->|_]; [by rewrite str_lt_irrefl in Hp|]. by rewrite IH.
Qed.

Lemma kv_delete_app_l key l1 l2 : above key l2 → kv_delete key (l1 ++ l2) = kv_delete key l1 ++ l2.
Proof.
  intros Ha. induction l1 as [|p l1 IH]; simpl; [by apply kv_delete_above|].
  destruct (String.eqb key p.1); [done|]. by rewrite IH.
Qed.

Lemma kv_delete_here key w l : kv_delete key ((key, w) :: l) = l.
Proof. simpl. by rewrite String.eqb_refl. Qed.

Lemma kv_delete_none key l : kv_lookup key l = None → kv_delete key l = l.
Proof.
  induction l as [|p l IH]; simpl; [done|]. destruct (String.eqb key p.1); [done|]. intros H. by rewrite IH.
Qed.

(** Every sorted list is cut by a key into what is before it, the key itself if
    present, and what is after. *)
Lemma kv_cut key l : sorted l →
  (∃ l1 v l2, l = l1 ++ (key, v) :: l2 ∧ below key l1 ∧ above key l2)
  ∨ (∃ l1 l2, l = l1 ++ l2 ∧ below key l1 ∧ above key l2).
Proof.
  induction l as [|[k v] l IH]; intros Hs; [right; exists [], []; by repeat constructor|].
  apply sorted_cons in Hs as [Hk Hs]. simpl in Hk. destruct (str_lt k key) eqn:Hlt.
  - destruct (IH Hs) as [(l1 & w & l2 & -> & H1 & H2)|(l1 & l2 & -> & H1 & H2)].
    + left. exists ((k, v) :: l1), w, l2. split; [done|]. split; [by constructor|done].
    + right. exists ((k, v) :: l1), l2. split; [done|]. split; [by constructor|done].
  - destruct (str_lt key k) eqn:Hgt.
    + right. exists [], ((k, v) :: l). split; [done|]. split; [constructor|].
      constructor; [done|]. by apply (above_trans _ k).
    + rewrite (str_lt_total _ _ Hlt Hgt) in *. left. exists [], v, l. split; [done|]. by split; [constructor|].
Qed.

Lemma kv_insert_sorted key v l : sorted l → sorted (kv_insert key v l).
Proof.
  intros Hs. destruct (kv_cut key l Hs) as [(l1 & w & l2 & -> & H1 & H2)|(l1 & l2 & -> & H1 & H2)];
    apply sorted_app in Hs as (Hs1 & Hs2 & Hs3); rewrite kv_insert_below by done;
    rewrite ?kv_insert_here, ?kv_insert_above by done; apply sorted_app.
  - apply sorted_cons in Hs2 as [_ Hs2]. split; [done|]. split; [by apply sorted_cons|].
    eapply Forall_impl; [exact Hs3|]. intros p Hp. apply Forall_cons in Hp as [Hk Hp]. by constructor.
  - split; [done|]. split; [by apply sorted_cons|]. clear Hs3. eapply Forall_impl; [exact H1|]. intros p Hp.
    constructor; [done|]. by apply (above_trans _ key).
Qed.

Lemma kv_delete_sorted key l : sorted l → sorted (kv_delete key l).
Proof.
  unfold sorted. intros Hs. eapply StronglySorted_sublist; [|exact Hs]. clear Hs.
  induction l as [|p l IH]; simpl; [done|]. destruct (String.eqb key p.1); by constructor.
Qed.

(** ** Layers *)

Definition fits (h : Z) (l : list kv) : Prop := Forall (λ p, HeightForKey p.1 ≤ h) l.

(** ** Cutting a list into the entries of a node *)

Inductive item :=
| IVal (k : string) (v : cid)
| IRun (run : list kv).

Definition cons_run (p : kv) (its : list item) : list item :=
  match its with
  | IRun run :: its => IRun (p :: run) :: its
  | its => IRun [p] :: its
  end.

Fixpoint groups (h : Z) (l : list kv) : list item :=
  match l with
  | [] => []
  | p :: l => if HeightForKey p.1 =? h then IVal p.1 p.2 :: groups h l else cons_run p (groups h l)
  end.

Definition pairs (it : item) : list kv := match it with IVal k v => [(k, v)] | IRun run => run end.
Definition flatten (its : list item) : list kv := concat (map pairs its).

Definition is_run (it : item) : bool := match it with IRun _ => true | IVal _ _ => false end.
Definition head_run (its : list item) : bool := match its with it :: _ => is_run it | [] => false end.
Definition last_run (its : list item) : bool := match last its with Some it => is_run it | None => false end.

(** What the cutting produces. *)
Fixpoint items_ok (h : Z) (its : list item) : Prop :=
  match its with
  | [] => True
  | IVal k _ :: its => HeightForKey k = h ∧ items_ok h its
  | IRun run :: its =>
      run ≠ [] ∧ Forall (λ p, HeightForKey p.1 ≠ h) run ∧ head_run its = false ∧ items_ok h its
  end.

Lemma flatten_app a b : flatten (a ++ b) = flatten a ++ flatten b.
Proof. unfold flatten. by rewrite map_app, concat_app. Qed.

Lemma flatten_cons it its : flatten (it :: its) = pairs it ++ flatten its.
Proof. done. Qed.

Lemma cons_run_flatten p its : flatten (cons_run p its) = p :: flatten its.
Proof. by destruct its as [|[|]]. Qed.

Lemma groups_flatten h l : flatten (groups h l) = l.
Proof.
  induction l as [|p l IH]; simpl; [done|]. destruct (_ =? _).
  - destruct p. unfold flatten in *. simpl. by rewrite IH.
  - by rewrite cons_run_flatten, IH.
Qed.

Lemma cons_run_ok h p its : HeightForKey p.1 ≠ h → items_ok h its → items_ok h (cons_run p its).
Proof.
  intros Hp. destruct its as [|[k v|run] its]; simpl.
  - repeat split; [done|by repeat constructor].
  - intros [Hk H]. repeat split; [done|by repeat constructor|done|done].
  - intros (_ & Hr & Hh & H). repeat split; [done|by constructor|done|done].
Qed.

Lemma groups_ok h l : items_ok h (groups h l).
Proof.
  induction l as [|p l IH]; simpl; [done|]. destruct (HeightForKey p.1 =? h) eqn:E; bool_to_prop.
  - done.
  - by apply cons_run_ok.
Qed.

Lemma groups_run h run its :
  run ≠ [] → Forall (λ p, HeightForKey p.1 ≠ h) run → head_run (groups h its) = false →
  groups h (run ++ its) = IRun run :: groups h its.
Proof.
  intros Hne Hr Hh. induction Hr as [|p run Hp Hr IH]; [done|]. simpl.
  destruct (HeightForKey p.1 =? h) eqn:E; bool_to_prop; [done|].
  destruct run as [|q run]; [|by rewrite IH]. simpl. destruct (groups h its) as [|[|]]; done.
Qed.

(** The cut is the only one of its kind. *)
Lemma groups_unique h its : items_ok h its → groups h (flatten its) = its.
Proof.
  induction its as [|[k v|run] its IH]; [done|..].
  - intros [Hk H]. rewrite flatten_cons. simpl. rewrite (proj2 (Z.eqb_eq _ _) Hk). by rewrite IH.
  - intros (Hne & Hr & Hh & H). rewrite flatten_cons. simpl. rewrite groups_run; rewrite ?IH; done.
Qed.

Lemma items_ok_app h a b :
  items_ok h (a ++ b) ↔ items_ok h a ∧ items_ok h b ∧ (last_run a && head_run b) = false.
Proof.
  induction a as [|it a IH]; simpl; [by unfold last_run; simpl; naive_solver|].
  assert (last_run (it :: a) = if a is [] then is_run it else last_run a) as ->.
  { unfold last_run. rewrite last_cons. destruct a as [|x a]; [done|]. by destruct (last (x :: a)) eqn:E; [|apply last_None in E]. }
  assert (head_run (a ++ b) = if a is [] then head_run b else head_run a) as Hhr by by destruct a.
  destruct it as [k v|run]; rewrite IH, ?Hhr; destruct a as [|x a]; simpl; naive_solver.
Qed.

Lemma fits_run h its run : items_ok h its → fits h (flatten its) → IRun run ∈ its → fits (h - 1) run.
Proof.
  intros Hok Hf Hin. induction its as [|[k v|r] its IH]; [by apply elem_of_nil in Hin|..]; simpl in Hok.
  - apply elem_of_cons in Hin as [?|Hin]; [done|]. apply Forall_cons in Hf as [_ Hf]. naive_solver.
  - rewrite flatten_cons in Hf. apply Forall_app in Hf as [Hr Hf]. apply elem_of_cons in Hin as [[= ->]|Hin]; [|naive_solver].
    destruct Hok as (_ & Hne & _). unfold fits. rewrite Forall_forall in *. intros p Hp.
    specialize (Hr p Hp). specialize (Hne p Hp). simpl in *. lia.
Qed.

(** ** The place of a key among the items of a node

    [its1] is before the key and does not end in a run, [its2] starts at or
    after it and does not start with a run, and [mid] is the run between, if
    there is one. *)
Record gap (key : string) (its1 mid its2 : list item) : Prop := {
  gap_below : below key (flatten its1);
  gap_last : last_run its1 = false;
  gap_mid : mid = [] ∨ ∃ run, mid = [IRun run];
  gap_from : from key (flatten its2);
  gap_head : head_run its2 = false;
}.

Lemma last_run_cons it its : last_run (it :: its) = if its is [] then is_run it else last_run its.
Proof.
  unfold last_run. rewrite last_cons. destruct its as [|x a]; [done|].
  by destruct (last (x :: a)) eqn:E; [|apply last_None in E].
Qed.

Lemma gap_exists h key its :
  items_ok h its → sorted (flatten its) →
  ∃ its1 mid its2, its = its1 ++ mid ++ its2 ∧ gap key its1 mid its2.
Proof.
  induction its as [|it its IH]; intros Hok Hs.
  { exists [], [], []. split; [done|]. split; try done; [constructor|by left|constructor]. }
  rewrite flatten_cons in Hs. destruct it as [k v|run]; simpl in Hok, Hs.
  - destruct Hok as [_ Hok]. apply sorted_cons in Hs as [Hk Hs]. simpl in Hk.
    destruct (str_lt k key) eqn:Hlt.
    + destruct (IH Hok Hs) as (i1 & m & i2 & -> & [Hb Hl Hm Hf Hh]). exists (IVal k v :: i1), m, i2. split; [done|].
      split; try done; [by constructor|]. rewrite last_run_cons. by destruct i1.
    + exists [], [], (IVal k v :: its). split; [done|]. split; try done; [constructor|by left|].
      constructor; [done|]. by apply (from_above _ k).
  - destruct Hok as (Hne & _ & Hh & Hok). pose proof Hs as (Hr & Hs' & Hrs)%sorted_app.
    destruct its as [|[k v|] its]; [|clear Hh|done].
    { exists [], [IRun run], []. split; [done|]. split; try done; [constructor|by right; exists run|constructor]. }
    destruct (str_lt k key) eqn:Hlt.
    + destruct (IH Hok Hs') as (i1 & m & i2 & Heq & [Hb Hl Hm Hf Hh]).
      destruct i1 as [|it i1].
      { destruct Hm as [->|[r ->]]; simpl in Heq; [|done]. subst i2. apply Forall_cons in Hf as [Hf _]. simpl in Hf. congruence. }
      exists (IRun run :: it :: i1), m, i2. split; [by rewrite Heq|]. split; try done.
      rewrite flatten_cons. apply Forall_app. split; [|done]. eapply Forall_impl; [exact Hrs|].
      intros p [Hp _]%Forall_cons. simpl in *. by apply (str_lt_trans _ k).
    + exists [], [IRun run], (IVal k v :: its). split; [done|]. split; try done; [constructor|by right; exists run|].
      rewrite flatten_cons in *. apply sorted_cons in Hs' as [Hk _]. constructor; [done|]. by apply (from_above _ k).
Qed.

(** ** The tree of a list *)

Section Rep.
Context `{CborGen, CidLib}.

Fixpoint canon_entries (rec : list kv → result mst_err cid) (its : list item) : result mst_err (list Entry) :=
  match its with
  | [] => Ok []
  | IVal k v :: its => es ← canon_entries rec its; Ok (valueEntry k v :: es)
  | IRun run :: its => c ← rec run; es ← canon_entries rec its; Ok (linkEntry c :: es)
  end.

(** The CID of a node with these entries. *)
Definition data_CID (nd : NodeData) : result mst_err cid :=
  match NodeData_Bytes nd with Ok (_, c) => Ok c | Err msg => Err (MstErr msg) end.

Definition entries_CID (es : list Entry) : result mst_err cid :=
  nd ← Node_NodeData (newNode 0 es); data_CID nd.

(** The CID of the tree at layer [h] over [l]. *)
Fixpoint mstCID (h : nat) (l : list kv) : result mst_err cid :=
  es ← canon_entries (match h with O => λ _, Err (MstErr "child below zero height") | S h' => mstCID h' end)
         (groups (Z.of_nat h) l);
  entries_CID es.

Definition sub_CID (h : nat) : list kv → result mst_err cid :=
  match h with O => λ _, Err (MstErr "child below zero height") | S h' => mstCID h' end.

(** ** Nodes that stand for a list *)

(** [cc] is the CID of the tree of [l] at layer [h], which has the property
    [link_prop]: [True] for a tree in memory alone, and that its blocks are
    stored for a tree with a block store behind it. *)
Class LinkProp := link_prop : nat → list kv → Prop.

Context {LP : LinkProp}.

Definition is_link (h : nat) (l : list kv) (cc : cid) : Prop := mstCID h l = Ok cc ∧ link_prop h l.

Definition link_ok (link : list kv → cid → Prop) (c : option cid) (l : list kv) : Prop :=
  ∃ cc, c = Some cc ∧ link l cc.

Definition entry_rep (child_rep : Node → list kv → Prop) (child_link : list kv → cid → Prop)
    (e : Entry) (it : item) : Prop :=
  match it with
  | IVal k v => k ≠ EmptyString ∧ Key e = k ∧ Value e = Some v ∧ ChildCID e = None ∧ Child e = None
  | IRun run =>
      Key e = EmptyString ∧ Value e = None ∧
      match Child e with
      | Some c => child_rep c run ∧ (eDirty e = false → Dirty c = false → link_ok child_link (ChildCID e) run)
      | None => link_ok child_link (ChildCID e) run
      end
  end.

Definition sub_link (h : nat) : list kv → cid → Prop :=
  match h with O => λ _ _, False | S h' => is_link h' end.

(** [rep h n l]: node [n] at layer [h] stands for [l]; its flags are sound, that
    is, a node that is not dirty carries the CID of its tree, and so does an
    entry none of whose flags is set.  Absent children are given by their CID. *)
Fixpoint rep (h : nat) (n : Node) (l : list kv) : Prop :=
  Stub n = false ∧ Height n = Z.of_nat h ∧
  Forall2 (entry_rep (match h with O => λ _ _, False | S h' => rep h' end) (sub_link h))
          (Entries n) (groups (Z.of_nat h) l) ∧
  (Dirty n = false → link_ok (is_link h) (CID n) l).

Definition sub_rep (h : nat) : Node → list kv → Prop :=
  match h with O => λ _ _, False | S h' => rep h' end.

(** Entries of a node at layer [h] and the items they stand for. *)
Definition nrep (h : nat) : list Entry → list item → Prop := Forall2 (entry_rep (sub_rep h) (sub_link h)).

Lemma rep_unfold h n l :
  rep h n l ↔ Stub n = false ∧ Height n = Z.of_nat h ∧ nrep h (Entries n) (groups (Z.of_nat h) l)
              ∧ (Dirty n = false → link_ok (is_link h) (CID n) l).
Proof. by destruct h. Qed.

Lemma mstCID_unfold h l :
  mstCID h l = (es ← canon_entries (sub_CID h) (groups (Z.of_nat h) l); entries_CID es).
Proof. by destruct h. Qed.

(** A node whose entries stand for items that are cut properly stands for
    their pairs. *)
Lemma rep_intro h n its :
  Stub n = false → Height n = Z.of_nat h → items_ok (Z.of_nat h) its → nrep h (Entries n) its →
  (Dirty n = false → link_ok (is_link h) (CID n) (flatten its)) → rep h n (flatten its).
Proof. intros. apply rep_unfold. rewrite groups_unique by done. done. Qed.

(** A root node: a tree; only the CID of one; or the empty tree as it is read
    from a store, whose height is -1. *)
Definition root_rep (h : nat) (n : Node) (l : list kv) : Prop :=
  rep h n l ∨
  (Stub n = true ∧ Dirty n = false ∧ Entries n = [] ∧ link_ok (is_link h) (CID n) l) ∨
  (l = [] ∧ Stub n = false ∧ Height n = -1 ∧ Entries n = [] ∧ (Dirty n = false → link_ok (is_link h) (CID n) [])).

Lemma entry_val h k v e :
  entry_rep (sub_rep h) (sub_link h) e (IVal k v) → IsValue e = true ∧ IsChild e = false ∧ Key e = k ∧ Value e = Some v ∧ Child e = None.
Proof.
  intros (Hk & H1 & H2 & H3 & H4). unfold IsValue, IsChild. rewrite H1, H2, H3, H4. repeat split.
  destruct k; [done|]. done.
Qed.

Lemma entry_run h run e :
  entry_rep (sub_rep h) (sub_link h) e (IRun run) → IsValue e = false ∧ IsChild e = true.
Proof.
  intros (H1 & H2 & H3). unfold IsValue, IsChild. rewrite H1. split; [done|].
  destruct (Child e); simpl; [done|]. destruct H3 as (cc & -> & _). done.
Qed.

Lemma nrep_app h es1 es2 its1 its2 : nrep h es1 its1 → nrep h es2 its2 → nrep h (es1 ++ es2) (its1 ++ its2).
Proof. apply Forall2_app. Qed.

(** A node with no pairs has no entries, and conversely. *)
Lemma groups_nil h l : groups h l = [] ↔ l = [].
Proof.
  split; [|by intros ->]. intros Hg. by rewrite <-(groups_flatten h l), Hg.
Qed.

Lemma rep_empty h n l : rep h n l → IsEmpty n = bool_decide (l = []).
Proof.
  intros (_ & _ & He & _)%rep_unfold. unfold IsEmpty. rewrite (Forall2_length _ _ _ He).
  destruct (decide (l = [])) as [->|Hne]; [done|]. rewrite bool_decide_false by done.
  destruct (groups (Z.of_nat h) l) eqn:E; [|done]. by apply groups_nil in E.
Qed.
End Rep.

#[global] Arguments rep : simpl never.
#[global] Arguments mstCID : simpl never.
