(* ===== verification/MstSearch.v ===== *)
(** * Searching and marking in a Merkle search tree

    What [compareKey], [findInsertionIndex], [findExistingEntry],
    [findExistingChild] and [proveMutation] of [src/atproto/repo/mst/node.go]
    compute on a node that stands for a sorted list, for a key that is not in
    the list where the code calls them so.  A search can only fail on a partial
    tree, and marking changes nothing but dirty flags. *)

From S2P Require Import Prelude GoStrings Sha256 Cbor Mst MstData MstSpec.
Local Open Scope Z_scope.

Section Search.
Context `{CborGen, CidLib} {LP : LinkProp}.

(** ** Per-entry measures *)

Definition entry_partial (e : Entry) : bool :=
  match Child e with None => bool_decide (is_Some (ChildCID e)) | Some c => IsPartial c end.
Definition entry_depth (e : Entry) : nat := match Child e with Some c => depth c | None => O end.

Lemma IsPartial_unfold n : IsPartial n = Stub n || existsb entry_partial (Entries n).
Proof. destruct n as [es h d c s]; simpl. by destruct s. Qed.

Lemma depth_unfold n : depth n = S (list_max (map entry_depth (Entries n))).
Proof. by destruct n. Qed.

(** What marking keeps. *)
Record marked (h : nat) (l : list kv) (n n' : Node) : Prop := {
  marked_rep : rep h n' l;
  marked_partial : IsPartial n' = IsPartial n;
  marked_dirty : Dirty n' = false → Dirty n = false;
  marked_depth : depth n' = depth n;
}.

Record marked_entries (h : nat) (its : list item) (es es' : list Entry) : Prop := {
  marked_nrep : nrep h es' its;
  marked_partials : existsb entry_partial es' = existsb entry_partial es;
  marked_depths : map entry_depth es' = map entry_depth es;
}.

Lemma marked_entries_refl h its es : nrep h es its → marked_entries h its es es.
Proof. by split. Qed.

Lemma marked_entries_app h its1 its2 es1 es2 es2' :
  nrep h es1 its1 → marked_entries h its2 es2 es2' → marked_entries h (its1 ++ its2) (es1 ++ es2) (es1 ++ es2').
Proof.
  intros H1 [H2 H3 H4]. split; [by apply nrep_app|by rewrite !existsb_app, H3|by rewrite !map_app, H4].
Qed.

Lemma marked_entries_child h run its e c c' es :
  entry_rep (sub_rep h) (sub_link h) e (IRun run) → Child e = Some c → nrep h es its →
  (∀ h', h = S h' → marked h' run c c') →
  marked_entries h (IRun run :: its) (e :: es) (set_Child (Some c') e :: es).
Proof.
  intros (Hk & Hv & Hc) Heq Hes Hm. rewrite Heq in Hc. destruct Hc as [Hc Hl]. destruct h as [|h]; [done|].
  destruct (Hm h eq_refl) as [Hr Hp Hd Hdp]. split.
  - constructor; [|done]. split; [done|]. split; [done|]. simpl. split; [done|]. intros. apply Hl; auto.
  - simpl. unfold entry_partial. simpl. by rewrite Heq, Hp.
  - simpl. unfold entry_depth. simpl. by rewrite Heq, Hdp.
Qed.

Lemma marked_node h l n d es :
  rep h n l → marked_entries h (groups (Z.of_nat h) l) (Entries n) es → (d = false → Dirty n = false) →
  marked h l n (set_Entries es (set_Dirty d n)).
Proof.
  intros (H1 & H2 & H3 & H4)%rep_unfold [H5 H6 H7] Hd. split.
  - apply rep_unfold. simpl. repeat split; try done. intros. apply H4. auto.
  - rewrite !IsPartial_unfold. simpl. by rewrite H6.
  - done.
  - rewrite !depth_unfold. simpl. by rewrite H7.
Qed.

Lemma set_Dirty_id n : set_Dirty (Dirty n) n = n.
Proof. by destruct n. Qed.

Lemma set_Entries_id n : set_Entries (Entries n) n = n.
Proof. by destruct n. Qed.

(** ** Items around a key that is not among them *)

(** [gap] for a key that is absent. *)
Record free_gap (h : nat) (key : string) (its1 mid its2 : list item) : Prop := {
  fg_ok : items_ok (Z.of_nat h) (its1 ++ mid ++ its2);
  fg_below : below key (flatten its1);
  fg_last : last_run its1 = false;
  fg_mid : mid = [] ∨ ∃ run, mid = [IRun run];
  fg_above : above key (flatten its2);
  fg_head : head_run its2 = false;
}.

Lemma free_gap_exists h key l :
  sorted l → kv_lookup key l = None →
  ∃ its1 mid its2, groups (Z.of_nat h) l = its1 ++ mid ++ its2 ∧ free_gap h key its1 mid its2.
Proof.
  intros Hs Hf. pose proof (groups_ok (Z.of_nat h) l) as Hok.
  destruct (gap_exists _ key _ Hok) as (i1 & m & i2 & Heq & [Hb Hl Hm Hfr Hh]); [by rewrite groups_flatten|].
  exists i1, m, i2. split; [done|]. split; try done; [by rewrite <-Heq|].
  apply from_above_ne; [done|]. rewrite <-(groups_flatten (Z.of_nat h) l), Heq, !flatten_app in Hf.
  rewrite kv_lookup_below in Hf by done. clear -Hf. induction (flatten m) as [|p m' IH]; [done|].
  simpl in Hf. destruct (String.eqb key p.1); [done|]. by apply IH.
Qed.

Lemma flatten_nonempty h its : items_ok h its → its ≠ [] → flatten its ≠ [].
Proof.
  destruct its as [|[k v|run] its]; [done|done|]. intros (Hne & _) _. rewrite flatten_cons. simpl. by destruct run.
Qed.

(** Entries before the key are skipped: a value is smaller than the key, and a
    child is followed by such a value. *)
Inductive skipped (h : nat) (key : string) : list Entry → Prop :=
| skipped_nil : skipped h key []
| skipped_val e es : IsValue e = true → IsChild e = false → Key e ≺ key → skipped h key es → skipped h key (e :: es)
| skipped_run e e' es : IsValue e = false → IsChild e = true → IsValue e' = true → Key e' ≺ key →
    skipped h key (e' :: es) → skipped h key (e :: e' :: es).

Lemma nrep_skipped h key es its :
  items_ok (Z.of_nat h) its → below key (flatten its) → last_run its = false → nrep h es its → skipped h key es.
Proof.
  intros Hok Hb Hl Hr. revert Hok Hb Hl. induction Hr as [|e it es its He Hr IH]; intros Hok Hb Hl; [constructor|].
  rewrite flatten_cons in Hb. apply Forall_app in Hb as [Hb1 Hb2]. rewrite last_run_cons in Hl.
  destruct it as [k v|run]; simpl in Hok.
  - apply entry_val in He as (H1 & H2 & H3 & _). apply Forall_cons in Hb1 as [Hk _]. simpl in Hk. constructor; [done|done|congruence|].
    apply IH; [naive_solver|done|]. by destruct its.
  - destruct Hok as (_ & _ & Hh & Hok). destruct its as [|[k v|] its]; [done| |done]. specialize (IH Hok Hb2 Hl).
    inversion Hr as [|e' ? es' ? He' Hr']; subst. apply entry_run in He as [H1 H2].
    apply entry_val in He' as (H3 & H4 & H5 & _). apply Forall_cons in Hb2 as [Hk _]. simpl in Hk.
    apply skipped_run; try done. congruence.
Qed.

Lemma after_next_gap h key es its :
  nrep h es its → above key (flatten its) → head_run its = false → after_next es key = false.
Proof.
  intros Hr Ha Hh. destruct Hr as [|e [k v|] es its He Hr]; [done| |done].
  apply entry_val in He as (H1 & _ & H3 & _). apply Forall_cons in Ha as [Ha _]. simpl in *.
  rewrite H1, H3. simpl. by apply str_lt_asym.
Qed.

Lemma first_above_spec h key es its :
  nrep h es its → first_above es key = match its with IVal k _ :: _ => str_lt key k | _ => false end.
Proof.
  intros [|e [k v|run] es' its' He Hr]; simpl; [done| |].
  - apply entry_val in He as (H1 & _ & H3 & _). by rewrite H1, H3.
  - apply entry_run in He as [H1 _]. by rewrite H1.
Qed.

Lemma nrep_last h es its :
  nrep h es its →
  match last es, last its with
  | Some e, Some it => entry_rep (sub_rep h) (sub_link h) e it
  | None, None => True
  | _, _ => False
  end.
Proof.
  induction 1 as [|e it es its He Hr IH]; [done|]. rewrite !last_cons.
  destruct (last es), (last its); try done.
Qed.

Lemma last_below_spec h key es its :
  nrep h es its → last_below es key = match last its with Some (IVal k _) => str_lt k key | _ => false end.
Proof.
  intros Hr%nrep_last. unfold last_below. destruct (last es) as [e|], (last its) as [it|]; try done.
  destruct it as [k v|run].
  - apply entry_val in Hr as (H1 & _ & H3 & _). by rewrite H1, H3.
  - apply entry_run in Hr as [H1 _]. by rewrite H1.
Qed.

Lemma last_val_above key its k v : above key (flatten its) → last its = Some (IVal k v) → key ≺ k.
Proof.
  intros Ha (its' & ->)%last_Some. rewrite flatten_app in Ha. apply Forall_app in Ha as [_ Ha].
  by apply Forall_cons in Ha as [? _].
Qed.

Lemma last_not_run its : its ≠ [] → last_run its = false → ∃ k v its', its = its' ++ [IVal k v].
Proof.
  intros Hne Hl. unfold last_run in Hl. destruct (last its) as [[k v|]|] eqn:E; [|done|by apply last_None in E].
  apply last_Some in E as [its' ->]. by exists k, v, its'.
Qed.

(** Where the entries of a node stand with respect to an absent key. *)
Lemma first_above_gap h key es its1 mid its2 :
  nrep h es (its1 ++ mid ++ its2) → free_gap h key its1 mid its2 →
  first_above es key = match its1, mid, its2 with [], [], _ :: _ => true | _, _, _ => false end.
Proof.
  intros Hr [Hok Hb Hl Hm Ha Hh]. rewrite (first_above_spec _ _ _ _ Hr).
  destruct its1 as [|[k v|run] its1]; simpl; [| |done].
  - destruct Hm as [->|[run ->]]; simpl; [|done].
    destruct its2 as [|[k v|] its2]; [done| |done]. by apply Forall_cons in Ha as [? _].
  - apply Forall_cons in Hb as [Hb _]. by apply str_lt_asym.
Qed.

Lemma last_below_gap h key es its1 mid its2 :
  nrep h es (its1 ++ mid ++ its2) → free_gap h key its1 mid its2 →
  last_below es key = match its1, mid, its2 with _ :: _, [], [] => true | _, _, _ => false end.
Proof.
  intros Hr [Hok Hb Hl Hm Ha Hh]. rewrite (last_below_spec _ _ _ _ Hr), app_assoc.
  destruct its2 as [|it2 its2].
  - rewrite app_nil_r. destruct Hm as [->|[run ->]].
    + rewrite app_nil_r. destruct its1 as [|it its1]; [done|].
      destruct (last_not_run (it :: its1)) as (k & v & its' & Heq); [done|done|]. rewrite Heq in *.
      rewrite last_snoc. rewrite flatten_app in Hb. apply Forall_app in Hb as [_ Hb]. by apply Forall_cons in Hb as [? _].
    + rewrite last_snoc. by destruct its1.
  - replace (match its1, mid, it2 :: its2 with _ :: _, [], [] => true | _, _, _ => false end) with false by by destruct its1, mid.
    rewrite last_app. destruct (last (it2 :: its2)) as [[k v|]|] eqn:E; [|done|by apply last_None in E].
    apply str_lt_asym. by eapply last_val_above.
Qed.

(** ** [compareKey] *)

Lemma compareKey_loop_cons rec key n_len i e rest :
  compareKey_loop rec key n_len i (e :: rest) =
  if IsValue e && str_lt key (Key e) then (e :: rest, Ok 0)
  else if IsChild e && negb (after_next rest key) then
    match Child e with
    | None => (e :: rest, Err ErrPartialTree)
    | Some c =>
        let '(c', r) := rec c in
        (set_Child (Some c') e :: rest,
         o ← r; Ok (if (i =? 0)%nat && (o <? 0) then -1 else if (i =? n_len - 1)%nat && (0 <? o) then 1 else 0))
    end
  else let '(rest', r) := compareKey_loop rec key n_len (S i) rest in (e :: rest', r).
Proof.
  simpl. destruct (IsValue e && _); [done|]. destruct (IsChild e); [|done]. destruct (after_next rest key); simpl; [done|].
  destruct (Child e) as [c|]; [|done]. destruct (rec c) as [c' [o|err]]; simpl; [|done]. by repeat case_match.
Qed.

Lemma compareKey_loop_skip h rec key n_len i es1 es2 :
  skipped h key es1 →
  compareKey_loop rec key n_len i (es1 ++ es2) =
  let '(es', r) := compareKey_loop rec key n_len (length es1 + i) es2 in (es1 ++ es', r).
Proof.
  intros Hs. revert i. induction Hs as [|e es Hv Hc Hk _ IH|e e' es Hv Hc Hv' Hk _ IH]; intros i.
  - simpl. by destruct (compareKey_loop _ _ _ _ _).
  - rewrite <-app_comm_cons, compareKey_loop_cons, Hv, Hc, (str_lt_asym _ _ Hk). simpl.
    rewrite IH, Nat.add_succ_r. by destruct (compareKey_loop _ _ _ _ _).
  - rewrite <-app_comm_cons, compareKey_loop_cons, Hv, Hc.
    replace (after_next ((e' :: es) ++ es2) key) with true by (simpl; by rewrite Hv', Hk).
    cbn [andb negb]. rewrite IH, Nat.add_succ_r. change (length (e :: e' :: es)) with (S (length (e' :: es))).
    by destruct (compareKey_loop _ _ _ _ _).
Qed.

Lemma compareKey_unfold n key m :
  compareKey n key m =
  if Stub n then (n, Err ErrPartialTree)
  else if IsEmpty n then (n, Err (MstErr "can't determine key range of empty MST node"))
  else
    let n1 := if m then set_Dirty true n else n in
    if first_above (Entries n) key then (n1, Ok (-1))
    else if last_below (Entries n) key then (n1, Ok 1)
    else
      let '(es, r) := compareKey_loop (λ c, compareKey c key m) key (length (Entries n)) 0 (Entries n) in
      (set_Entries es n1, r).
Proof. by destruct n. Qed.

(** What the sign of [compareKey] says. *)
Definition order_ok (key : string) (l : list kv) (o : Z) : Prop :=
  (o < 0 → above key l) ∧ (0 < o → below key l) ∧
  (o = 0 → ∃ l1 l2, l = l1 ++ l2 ∧ l1 ≠ [] ∧ l2 ≠ [] ∧ below key l1 ∧ above key l2).

Definition compare_ok (h : nat) (l : list kv) (key : string) (n : Node) (res : Node * result mst_err Z) : Prop :=
  marked h l n res.1 ∧
  match res.2 with Ok o => order_ok key l o | Err _ => IsPartial n = true end.

Lemma mark_self h l n (m : bool) : rep h n l → marked h l n (if m then set_Dirty true n else n).
Proof.
  intros Hr. assert (nrep h (Entries n) (groups (Z.of_nat h) l)) as He by by apply rep_unfold in Hr as (_ & _ & ? & _).
  destruct m.
  - rewrite <-(set_Entries_id (set_Dirty true n)). apply marked_node; [done|by apply marked_entries_refl|done].
  - split; done.
Qed.

Lemma mark_node h l n (m : bool) es :
  rep h n l → marked_entries h (groups (Z.of_nat h) l) (Entries n) es →
  marked h l n (set_Entries es (if m then set_Dirty true n else n)).
Proof.
  intros Hr Hm. destruct m; [by apply marked_node|]. rewrite <-(set_Dirty_id n) at 2. by apply marked_node.
Qed.

Lemma entry_partial_in n e : e ∈ Entries n → entry_partial e = true → IsPartial n = true.
Proof.
  intros Hin He. rewrite IsPartial_unfold. apply orb_true_iff. right. apply existsb_exists. exists e. split; [|done].
  by apply list_elem_of_In.
Qed.

(** The sign for a node whose gap has a child, from the child's. *)
Lemma order_ok_gap key l1 run l2 o (first last : bool) :
  below key l1 → above key l2 → run ≠ [] → order_ok key run o →
  (first = true ↔ l1 = []) → (last = true ↔ l2 = []) →
  order_ok key (l1 ++ run ++ l2)
    (if first && (o <? 0) then -1 else if last && (0 <? o) then 1 else 0).
Proof.
  intros Hb Ha Hne (Hlt & Hgt & Heq) Hf Hl.
  assert (o = 0 → ∃ a b, l1 ++ run ++ l2 = a ++ b ∧ a ≠ [] ∧ b ≠ [] ∧ below key a ∧ above key b) as Hin.
  { intros (a & b & -> & Ha1 & Hb1 & Ha2 & Hb2)%Heq. exists (l1 ++ a), (b ++ l2).
    split; [by rewrite !app_assoc|]. split; [by destruct l1|]. split; [by destruct b|]. split; by apply Forall_app. }
  destruct first, last; simpl; destruct (o <? 0) eqn:E1, (0 <? o) eqn:E2; simpl; bool_to_prop; try lia.
  all: try (rewrite (proj1 Hf eq_refl) in *); try (rewrite (proj1 Hl eq_refl) in *); rewrite ?app_nil_r, ?app_nil_l in *.
  all: unfold order_ok; repeat split; try lia; intros _.
  all: try (apply Forall_app; split; [by apply Hlt|done]); try (apply Forall_app; split; [done|by apply Hgt]); auto.
  all: try (apply Hin; lia).
  all: try by apply Hlt. all: try by apply Hgt.
  all: try (assert (l1 ≠ []) by (intros ->; destruct Hf as [_ Hf]; by discriminate (Hf eq_refl))).
  all: try (assert (l2 ≠ []) by (intros ->; destruct Hl as [_ Hl]; by discriminate (Hl eq_refl))).
  all: try (exists l1, (run ++ l2); repeat split; auto; [by destruct run|apply Forall_app; split; [by apply Hlt|done]]; fail).
  all: try (exists (l1 ++ run), l2; repeat split; rewrite ?app_assoc; auto; [by destruct l1|apply Forall_app; split; [done|by apply Hgt]]; fail).
  all: try (exists run, l2; repeat split; auto; by apply Hgt).
  all: try (exists l1, run; repeat split; auto; by apply Hlt).
Qed.

Lemma gap_lengths (l1 l2 : list kv) h its1 its2 :
  items_ok h its1 → items_ok h its2 → l1 = flatten its1 → l2 = flatten its2 →
  ((length its1 =? 0)%nat = true ↔ l1 = []) ∧
  ((length its1 =? length its1 + S (length its2) - 1)%nat = true ↔ l2 = []).
Proof.
  intros H1 H2 -> ->. rewrite !Nat.eqb_eq. split; split; intros Hx.
  - by destruct its1.
  - destruct its1; [done|]. by apply (flatten_nonempty h) in Hx.
  - destruct its2; [done|]. simpl in Hx. lia.
  - destruct its2; [simpl; lia|]. by apply (flatten_nonempty h) in Hx.
Qed.

(** The child at the gap, once the entries before it are skipped. *)
Lemma gap_entries h key es its1 mid its2 :
  nrep h es (its1 ++ mid ++ its2) → free_gap h key its1 mid its2 →
  ∃ es1 esm es2, es = es1 ++ esm ++ es2 ∧ nrep h es1 its1 ∧ nrep h esm mid ∧ nrep h es2 its2
    ∧ skipped h key es1 ∧ after_next es2 key = false
    ∧ items_ok (Z.of_nat h) its1 ∧ items_ok (Z.of_nat h) mid ∧ items_ok (Z.of_nat h) its2.
Proof.
  intros Hr [Hok Hb Hl Hm Ha Hh].
  apply Forall2_app_inv_r in Hr as (es1 & es' & H1 & (esm & es2 & H2 & H3 & ->)%Forall2_app_inv_r & ->).
  pose proof Hok as (Hok1 & (Hok2 & Hok3 & _)%items_ok_app & _)%items_ok_app.
  exists es1, esm, es2. repeat split; try done.
  - by apply (nrep_skipped _ _ _ its1).
  - by apply (after_next_gap h _ _ its2).
Qed.

Lemma head_above h key es its :
  nrep h es its → above key (flatten its) → head_run its = false → its ≠ [] →
  ∃ e es', es = e :: es' ∧ IsValue e && str_lt key (Key e) = true.
Proof.
  intros Hr Ha Hh Hne. destruct Hr as [|e [k v|] es its He Hr]; [done| |done].
  apply entry_val in He as (H1 & _ & H3 & _). apply Forall_cons in Ha as [Ha _]. simpl in *.
  exists e, es. split; [done|]. by rewrite H1, H3.
Qed.

Lemma compareKey_spec h n l key m :
  rep h n l → sorted l → l ≠ [] → kv_lookup key l = None → compare_ok h l key n (compareKey n key m).
Proof.
  revert n l. induction h as [h IH] using (well_founded_induction lt_wf). intros n l Hr Hs Hne Hf.
  rewrite compareKey_unfold, (rep_empty _ _ _ Hr), bool_decide_false by done.
  pose proof Hr as (Hst & _ & He & _)%rep_unfold. rewrite Hst.
  destruct (free_gap_exists h key l Hs Hf) as (its1 & mid & its2 & Heq & Hg). rewrite Heq in He.
  rewrite (first_above_gap _ _ _ _ _ _ He Hg), (last_below_gap _ _ _ _ _ _ He Hg).
  destruct (gap_entries _ _ _ _ _ _ He Hg) as (es1 & esm & es2 & Hes & H1 & H2 & H3 & Hsk & Han & Hok1 & Hokm & Hok2).
  assert (l = flatten its1 ++ flatten mid ++ flatten its2) as Hl by by rewrite <-(groups_flatten (Z.of_nat h) l), Heq, !flatten_app.
  destruct Hg as [Hok Hb Hlr Hm Ha Hh].
  destruct Hm as [->|[run ->]].
  - inversion H2; subst esm. simpl in Hl. destruct its1 as [|it1 its1], its2 as [|it2 its2].
    + done.
    + split; [by apply mark_self|]. simpl in Hl |- *. subst l. repeat split; [done|lia..].
    + split; [by apply mark_self|]. simpl in Hl |- *. rewrite app_nil_r in Hl. subst l. repeat split; [lia|done|lia].
    + rewrite Hes. rewrite (compareKey_loop_skip h) by done.
      destruct (head_above _ _ _ _ H3 Ha Hh) as (e & es' & -> & Hv); [done|].
      rewrite app_nil_l, compareKey_loop_cons, Hv. split; simpl.
      * apply mark_node; [done|]. rewrite Heq, Hes. rewrite Hes in He. by apply marked_entries_refl.
      * repeat split; [lia..|]. intros _. exists (flatten (it1 :: its1)), (flatten (it2 :: its2)).
        split; [done|].
        split; [by apply (flatten_nonempty (Z.of_nat h))|]. split; [by apply (flatten_nonempty (Z.of_nat h))|done].
  - apply Forall2_cons_inv_r in H2 as (e & es0 & He0 & H2 & ->). inversion H2; subst es0.
    replace (match its1 with [] => false | _ :: _ => false end) with false by by destruct its1.
    cbv zeta.
    rewrite Hes, (compareKey_loop_skip h), <-app_comm_cons, app_nil_l, compareKey_loop_cons by done.
    pose proof (entry_run _ _ _ He0) as [Hv Hc]. rewrite Hv, Hc, Han. cbn [andb negb].
    destruct (Child e) as [c|] eqn:Hch.
    + pose proof He0 as (_ & _ & Hce). rewrite Hch in Hce. destruct Hce as [Hce _]. destruct h as [|h']; [done|].
      destruct Hokm as (Hrne & _). rewrite flatten_cons in Hl. simpl in Hl. rewrite app_nil_r in Hl.
      assert (kv_lookup key run = None) as Hfr.
      { rewrite Hl, kv_lookup_below, kv_lookup_app_l in Hf by done. done. }
      assert (sorted run) as Hsr. { rewrite Hl in Hs. by apply sorted_app in Hs as (_ & (? & _)%sorted_app & _). }
      destruct (IH h' (Nat.lt_succ_diag_r h') c run Hce Hsr Hrne Hfr) as [Hmk Hord].
      destruct (compareKey c key m) as [c' r]. simpl in Hmk, Hord. split; simpl.
      * apply mark_node; [done|]. rewrite Heq, Hes. apply marked_entries_app; [done|]. simpl.
        apply (marked_entries_child (S h') run its2 e c c' es2); [done|done|done|]. by intros ? [= <-].
      * destruct r as [o|err]; simpl.
        -- rewrite Hl. pose proof (Forall2_length _ _ _ H1) as Hlen1. pose proof (Forall2_length _ _ _ H3) as Hlen3.
           destruct (gap_lengths _ _ _ _ _ Hok1 Hok2 eq_refl eq_refl) as [Hz1 Hz2].
           rewrite !length_app. simpl. rewrite Nat.add_0_r, Hlen1, Hlen3. by apply order_ok_gap.
        -- apply (entry_partial_in _ e); [rewrite Hes; set_solver|]. unfold entry_partial. by rewrite Hch.
    + split; simpl.
      * apply mark_node; [done|]. rewrite Heq, Hes. rewrite Hes in He. by apply marked_entries_refl.
      * apply (entry_partial_in _ e); [rewrite Hes; set_solver|]. unfold entry_partial. rewrite Hch.
        destruct He0 as (_ & _ & Hlk). rewrite Hch in Hlk. destruct Hlk as (cc & -> & _). done.
Qed.

(** ** [findInsertionIndex] *)

Lemma findInsertionIndex_loop_cons key n_len i e rest :
  findInsertionIndex_loop key n_len i (e :: rest) =
  if IsValue e && str_lt key (Key e) then Ok (i, false)
  else if IsChild e && negb (after_next rest key) then
    match Child e with
    | None => Err (MstErr "partial MST, can't determine insertion order")
    | Some c =>
        o ← (compareKey c key false).2;
        if o <? 0 then Ok (i, false)
        else if 0 <? o then findInsertionIndex_loop key n_len (S i) rest
        else Ok (i, true)
    end
  else findInsertionIndex_loop key n_len (S i) rest.
Proof.
  simpl. destruct (IsValue e && _); [done|]. destruct (IsChild e); [|done]. destruct (after_next rest key); simpl; [done|].
  destruct (Child e) as [c|]; [|done]. by destruct (compareKey c key false) as [c' [o|err]].
Qed.

Lemma findInsertionIndex_loop_skip h key n_len i es1 es2 :
  skipped h key es1 →
  findInsertionIndex_loop key n_len i (es1 ++ es2) = findInsertionIndex_loop key n_len (length es1 + i) es2.
Proof.
  intros Hs. revert i. induction Hs as [|e es Hv Hc Hk _ IH|e e' es Hv Hc Hv' Hk _ IH]; intros i; [done|..].
  - rewrite <-app_comm_cons, findInsertionIndex_loop_cons, Hv, Hc, (str_lt_asym _ _ Hk). cbn [andb].
    by rewrite IH, Nat.add_succ_r.
  - rewrite <-app_comm_cons, findInsertionIndex_loop_cons, Hv, Hc.
    replace (after_next ((e' :: es) ++ es2) key) with true by (simpl; by rewrite Hv', Hk).
    cbn [andb negb]. by rewrite IH, Nat.add_succ_r.
Qed.

(** The loop on entries that are all after the key. *)
Lemma findInsertionIndex_loop_above h key n_len i es its :
  nrep h es its → above key (flatten its) → head_run its = false → n_len = (i + length its)%nat →
  findInsertionIndex_loop key n_len i es = Ok (i, false).
Proof.
  intros Hr Ha Hh Hn. destruct (decide (length its = 0)%nat) as [Hz|Hz].
  - destruct its; [|done]. inversion Hr; subst. simpl. by rewrite Nat.add_0_r.
  - destruct (head_above _ _ _ _ Hr Ha Hh) as (e & es' & -> & Hv); [by intros ->|].
    by rewrite findInsertionIndex_loop_cons, Hv.
Qed.

Definition insertion_ok (h : nat) (l : list kv) (key : string) (n : Node) (res : result mst_err (nat * bool)) : Prop :=
  match res with
  | Ok (i, false) =>
      ∃ its1 its2, groups (Z.of_nat h) l = its1 ++ its2 ∧ i = length its1 ∧
        below key (flatten its1) ∧ above key (flatten its2)
  | Ok (i, true) =>
      ∃ its1 l1 l2 its2, groups (Z.of_nat h) l = its1 ++ IRun (l1 ++ l2) :: its2 ∧ i = length its1 ∧
        below key (flatten its1) ∧ above key (flatten its2) ∧
        l1 ≠ [] ∧ l2 ≠ [] ∧ below key l1 ∧ above key l2
  | Err _ => IsPartial n = true
  end.

Lemma findInsertionIndex_spec h n l key :
  rep h n l → sorted l → kv_lookup key l = None → insertion_ok h l key n (findInsertionIndex n key).
Proof.
  intros Hr Hs Hf. unfold findInsertionIndex.
  pose proof Hr as (Hst & _ & He & _)%rep_unfold. rewrite Hst.
  destruct (free_gap_exists h key l Hs Hf) as (its1 & mid & its2 & Heq & Hg). rewrite Heq in He.
  destruct (gap_entries _ _ _ _ _ _ He Hg) as (es1 & esm & es2 & Hes & H1 & H2 & H3 & Hsk & Han & Hok1 & Hokm & Hok2).
  assert (l = flatten its1 ++ flatten mid ++ flatten its2) as Hl by by rewrite <-(groups_flatten (Z.of_nat h) l), Heq, !flatten_app.
  destruct Hg as [Hok Hb Hlr Hm Ha Hh].
  pose proof (Forall2_length _ _ _ H1) as Hlen1. pose proof (Forall2_length _ _ _ H3) as Hlen3.
  rewrite Hes, (findInsertionIndex_loop_skip h), Nat.add_0_r, Hlen1 by done. destruct Hm as [->|[run ->]].
  - inversion H2; subst esm. simpl. erewrite findInsertionIndex_loop_above; [|done..|rewrite length_app; simpl; lia].
    by exists its1, its2.
  - apply Forall2_cons_inv_r in H2 as (e & es0 & He0 & H2 & ->). inversion H2; subst es0.
    pose proof (entry_run _ _ _ He0) as [Hv Hc].
    rewrite <-app_comm_cons, app_nil_l, findInsertionIndex_loop_cons, Hv, Hc, Han. cbn [andb negb].
    destruct (Child e) as [c|] eqn:Hch; simpl.
    + pose proof He0 as (_ & _ & Hce). rewrite Hch in Hce. destruct Hce as [Hce _]. destruct h as [|h']; [done|].
      destruct Hokm as (Hrne & _). rewrite flatten_cons in Hl. simpl in Hl. rewrite app_nil_r in Hl.
      destruct (compareKey_spec h' c run key false Hce) as [_ Hord]; [|done|..].
      { rewrite Hl in Hs. by apply sorted_app in Hs as (_ & (? & _)%sorted_app & _). }
      { rewrite Hl, kv_lookup_below, kv_lookup_app_l in Hf by done. done. }
      destruct (compareKey c key false).2 as [o|err]; simpl in *.
      2: { apply (entry_partial_in _ e); [rewrite Hes; set_solver|]. unfold entry_partial. by rewrite Hch. }
      destruct Hord as (Hlt & Hgt & Hz). destruct (o <? 0) eqn:E1, (0 <? o) eqn:E2; bool_to_prop; try lia; simpl.
      * exists its1, (IRun run :: its2). split; [done|]. split; [done|]. split; [done|]. rewrite flatten_cons.
        apply Forall_app. split; [by apply Hlt|done].
      * erewrite findInsertionIndex_loop_above; [|done..|rewrite length_app; simpl; lia].
        exists (its1 ++ [IRun run]), its2. rewrite <-app_assoc, flatten_app, length_app. split; [done|]. split; [simpl; lia|].
        split; [|done]. apply Forall_app. split; [done|]. rewrite flatten_cons. simpl. rewrite app_nil_r. by apply Hgt.
      * destruct Hz as (l1 & l2 & -> & Hn1 & Hn2 & Hb1 & Ha2); [lia|]. by exists its1, l1, l2, its2.
    + apply (entry_partial_in _ e); [rewrite Hes; set_solver|]. unfold entry_partial. rewrite Hch.
      destruct He0 as (_ & _ & Hlk). rewrite Hch in Hlk. destruct Hlk as (cc & -> & _). done.
Qed.

(** ** [proveMutation] *)

Lemma marked_trans h l a b c : marked h l a b → marked h l b c → marked h l a c.
Proof. intros [H1 H2 H3 H4] [H5 H6 H7 H8]. split; [done|congruence|auto|congruence]. Qed.

Lemma proveMutation_loop_cons rec key e rest :
  proveMutation_loop rec key (e :: rest) =
  if IsValue e && str_lt key (Key e) then (e :: rest, None)
  else if IsChild e && negb (after_next rest key) then
    match Child e with
    | None => (e :: rest, Some ErrPartialTree)
    | Some c =>
        let '(c', r) := compareKey c key true in
        match r with
        | Err err => (set_Child (Some c') e :: rest, Some err)
        | Ok o =>
            if 0 <? o then let '(rest', r) := proveMutation_loop rec key rest in (set_Child (Some c') e :: rest', r)
            else if o <? 0 then (set_Child (Some c') e :: rest, None)
            else let '(c'', r) := rec c' in (set_Child (Some c'') e :: rest, r)
        end
    end
  else let '(rest', r) := proveMutation_loop rec key rest in (e :: rest', r).
Proof.
  simpl. destruct (IsValue e && _); [done|]. destruct (IsChild e); [|done]. by destruct (after_next rest key).
Qed.

Lemma proveMutation_loop_skip h rec key es1 es2 :
  skipped h key es1 →
  proveMutation_loop rec key (es1 ++ es2) = let '(es', r) := proveMutation_loop rec key es2 in (es1 ++ es', r).
Proof.
  intros Hs. induction Hs as [|e es Hv Hc Hk _ IH|e e' es Hv Hc Hv' Hk _ IH].
  - rewrite app_nil_l. by destruct (proveMutation_loop rec key es2) as [? ?].
  - rewrite <-app_comm_cons, proveMutation_loop_cons, Hv, Hc, (str_lt_asym _ _ Hk). cbn [andb].
    rewrite IH. by destruct (proveMutation_loop rec key es2) as [? ?].
  - rewrite <-app_comm_cons, proveMutation_loop_cons, Hv, Hc.
    replace (after_next ((e' :: es) ++ es2) key) with true by (simpl; by rewrite Hv', Hk).
    cbn [andb negb]. rewrite IH. by destruct (proveMutation_loop rec key es2) as [? ?].
Qed.

Lemma proveMutation_loop_above h rec key es its :
  nrep h es its → above key (flatten its) → head_run its = false → proveMutation_loop rec key es = (es, None).
Proof.
  intros Hr Ha Hh. destruct (decide (length its = 0)%nat) as [Hz|Hz].
  - destruct its; [|done]. by inversion Hr; subst.
  - destruct (head_above _ _ _ _ Hr Ha Hh) as (e & es' & -> & Hv); [by intros ->|].
    by rewrite proveMutation_loop_cons, Hv.
Qed.

Lemma depth_child n e c : e ∈ Entries n → Child e = Some c → (depth c < depth n)%nat.
Proof.
  intros Hin Hc. rewrite (depth_unfold n). apply Nat.lt_succ_r.
  assert (entry_depth e = depth c) as <- by (unfold entry_depth; by rewrite Hc).
  assert (Forall (λ k, (k ≤ list_max (map entry_depth (Entries n)))%nat) (map entry_depth (Entries n))) as Hf
    by (apply list_max_le; lia).
  rewrite Forall_forall in Hf. apply Hf, list_elem_of_fmap. by exists e.
Qed.

Definition prove_ok (h : nat) (l : list kv) (n : Node) (res : Node * option mst_err) : Prop :=
  marked h l n res.1 ∧ (is_Some res.2 → IsPartial n = true).

Lemma proveMutation_fuel_spec fuel h n l key :
  (depth n ≤ fuel)%nat → rep h n l → sorted l → kv_lookup key l = None → prove_ok h l n (proveMutation_fuel fuel n key).
Proof.
  revert h n l. induction fuel as [|fuel IH]; intros h n l Hd Hr Hs Hf; [rewrite depth_unfold in Hd; lia|].
  pose proof Hr as (Hst & _ & He & _)%rep_unfold.
  destruct (free_gap_exists h key l Hs Hf) as (its1 & mid & its2 & Heq & Hg). rewrite Heq in He.
  destruct (gap_entries _ _ _ _ _ _ He Hg) as (es1 & esm & es2 & Hes & H1 & H2 & H3 & Hsk & Han & Hok1 & Hokm & Hok2).
  assert (l = flatten its1 ++ flatten mid ++ flatten its2) as Hl by by rewrite <-(groups_flatten (Z.of_nat h) l), Heq, !flatten_app.
  destruct Hg as [Hok Hb Hlr Hm Ha Hh]. cbn [proveMutation_fuel].
  assert (∀ es r, marked_entries h (its1 ++ mid ++ its2) (Entries n) es → (is_Some r → IsPartial n = true) →
    prove_ok h l n (set_Entries es n, r)) as Hret.
  { intros es r Hm' Hp. split; [|done]. apply (mark_node h l n false); [done|]. by rewrite Heq. }
  rewrite Hes, (proveMutation_loop_skip h) by done. destruct Hm as [->|[run ->]].
  - inversion H2; subst esm. rewrite app_nil_l. rewrite (proveMutation_loop_above h _ _ _ its2) by done.
    apply Hret; [rewrite Hes in *; by apply marked_entries_refl|by intros [? ?]].
  - apply Forall2_cons_inv_r in H2 as (e & es0 & He0 & H2 & ->). inversion H2; subst es0.
    pose proof (entry_run _ _ _ He0) as [Hv Hc].
    rewrite <-app_comm_cons, app_nil_l, proveMutation_loop_cons, Hv, Hc, Han. cbn [andb negb].
    assert (e ∈ Entries n) as Hin by (rewrite Hes; set_solver).
    destruct (Child e) as [c|] eqn:Hch.
    2: { apply Hret; [rewrite Hes in *; by apply marked_entries_refl|]. intros _. apply (entry_partial_in _ e); [done|].
         unfold entry_partial. rewrite Hch. destruct He0 as (_ & _ & Hlk). rewrite Hch in Hlk. destruct Hlk as (cc & -> & _). done. }
    pose proof He0 as (_ & _ & Hce). rewrite Hch in Hce. destruct Hce as [Hce _]. destruct h as [|h']; [done|].
    destruct Hokm as (Hrne & _). rewrite flatten_cons in Hl. simpl in Hl. rewrite app_nil_r in Hl.
    assert (sorted run) as Hsr. { rewrite Hl in Hs. by apply sorted_app in Hs as (_ & (? & _)%sorted_app & _). }
    assert (kv_lookup key run = None) as Hfr. { rewrite Hl, kv_lookup_below, kv_lookup_app_l in Hf by done. done. }
    assert (∀ c', marked h' run c c' → marked_entries (S h') (its1 ++ [IRun run] ++ its2) (Entries n) (es1 ++ set_Child (Some c') e :: es2)) as Hent.
    { intros c' Hc'. rewrite Hes. apply marked_entries_app; [done|]. simpl.
      apply (marked_entries_child (S h') run its2 e c c' es2); [done..|]. by intros ? [= <-]. }
    assert (IsPartial c = true → IsPartial n = true) as Hpc.
    { intros Hpc. apply (entry_partial_in _ e); [done|]. unfold entry_partial. by rewrite Hch. }
    destruct (compareKey_spec h' c run key true Hce Hsr Hrne Hfr) as [Hmk Hord].
    destruct (compareKey c key true) as [c' r]. simpl in Hmk, Hord. destruct r as [o|err].
    2: { apply Hret; [by apply Hent|by intros _; apply Hpc]. }
    destruct (0 <? o); [rewrite (proveMutation_loop_above (S h') _ _ _ its2) by done; apply Hret; [by apply Hent|by intros [? ?]]|].
    destruct (o <? 0); [apply Hret; [by apply Hent|by intros [? ?]]|].
    destruct (IH h' c' run) as [Hm2 Hp2]; [|by apply Hmk|done|done|].
    { pose proof (depth_child n e c Hin Hch). destruct Hmk as [_ _ _ Hdp]. rewrite Hdp. lia. }
    destruct (proveMutation_fuel fuel c' key) as [c'' r2]. simpl in *. apply Hret.
    + apply Hent. by eapply marked_trans.
    + intros Hx. apply Hpc. destruct Hmk as [_ Hp _ _]. rewrite <-Hp. by apply Hp2.
Qed.

Lemma proveMutation_spec h n l key :
  rep h n l → sorted l → kv_lookup key l = None → prove_ok h l n (proveMutation n key).
Proof. by apply proveMutation_fuel_spec. Qed.

(** ** [findExistingEntry] and [findExistingChild] *)

Lemma findExistingEntry_loop_spec h key es its i :
  nrep h es its → sorted (flatten its) →
  (∀ run, IRun run ∈ its → kv_lookup key run = None) →
  match findExistingEntry_loop i es key with
  | Some j => ∃ its1 v its2, its = its1 ++ IVal key v :: its2 ∧ j = (i + length its1)%nat
  | None => kv_lookup key (flatten its) = None
  end.
Proof.
  intros Hr. revert i. induction Hr as [|e it es its He Hr IH]; intros i Hs Hrun; simpl; [done|].
  rewrite flatten_cons in Hs |- *. apply sorted_app in Hs as (Hs1 & Hs2 & Hs3).
  assert (match findExistingEntry_loop (S i) es key with
    | Some j => ∃ its1 v its2, its = its1 ++ IVal key v :: its2 ∧ j = (S i + length its1)%nat
    | None => kv_lookup key (flatten its) = None end) as HI by (apply IH; [done|set_solver]).
  destruct it as [k v|run].
  - apply entry_val in He as (H1 & _ & H3 & _). rewrite H1, H3. simpl. destruct (String.eqb_spec key k) as [->|Hne].
    + exists [], v, its. split; [done|]. simpl. lia.
    + destruct (findExistingEntry_loop (S i) es key) as [j|]; [|done].
      destruct HI as (i1 & v' & i2 & -> & ->). exists (IVal k v :: i1), v', i2. split; [done|]. simpl. lia.
  - apply entry_run in He as [H1 _]. rewrite H1. simpl. destruct (findExistingEntry_loop (S i) es key) as [j|].
    + destruct HI as (i1 & v' & i2 & -> & ->). exists (IRun run :: i1), v', i2. split; [done|]. simpl. lia.
    + assert (kv_lookup key run = None) as Hr0 by (apply Hrun; set_solver). clear -Hr0 HI. simpl.
      induction run as [|p run IHr]; simpl in *; [done|]. destruct (String.eqb key p.1); [done|]. by apply IHr.
Qed.

Lemma findExistingChild_loop_skip h key idx i es1 es2 :
  skipped h key es1 →
  findExistingChild_loop idx i (es1 ++ es2) key =
  findExistingChild_loop (if es1 is [] then idx else None) (length es1 + i) es2 key.
Proof.
  intros Hs. revert idx i. induction Hs as [|e es Hv Hc Hk _ IH|e e' es Hv Hc Hv' Hk _ IH]; intros idx i; simpl; [done|..].
  - rewrite Hv, Hc, str_le_lt, Hk. simpl. rewrite IH, Nat.add_succ_r. by destruct es.
  - rewrite Hc. specialize (IH (Some i) (S i)). simpl in IH. rewrite IH. do 2 f_equal. lia.
Qed.

Lemma findExistingChild_spec h n l key :
  rep h n l → sorted l →
  ∃ its1 mid its2, groups (Z.of_nat h) l = its1 ++ mid ++ its2 ∧ gap key its1 mid its2 ∧
    findExistingChild n key = match mid with [] => None | _ => Some (length its1) end.
Proof.
  intros Hr Hs. pose proof Hr as (_ & _ & He & _)%rep_unfold. pose proof (groups_ok (Z.of_nat h) l) as Hok.
  destruct (gap_exists _ key _ Hok) as (i1 & m & i2 & Heq & Hg); [by rewrite groups_flatten|].
  exists i1, m, i2. split; [done|]. split; [done|]. destruct Hg as [Hb Hl Hm Hfr Hh]. rewrite Heq in He, Hok.
  apply Forall2_app_inv_r in He as (es1 & es' & H1 & (esm & es2 & H2 & H3 & ->)%Forall2_app_inv_r & Hes).
  apply items_ok_app in Hok as (Hok1 & _ & _).
  unfold findExistingChild. rewrite Hes, (findExistingChild_loop_skip h), Nat.add_0_r by by apply (nrep_skipped _ _ _ i1).
  rewrite (Forall2_length _ _ _ H1).
  replace (if es1 is [] then None else None) with (@None nat) by by destruct es1.
  assert (∀ idx j, findExistingChild_loop idx j es2 key = idx) as Hend.
  { intros idx j. destruct H3 as [|e [k v|] es its He Hr3]; simpl; [done| |done].
    apply entry_val in He as (H4 & H5 & H6 & _). rewrite H4, H5, H6, str_le_lt.
    apply Forall_cons in Hfr as [Hfr _]. simpl in Hfr. by rewrite Hfr. }
  destruct Hm as [->|[run ->]].
  - inversion H2; subst. simpl. apply Hend.
  - apply Forall2_cons_inv_r in H2 as (e & es0 & He0 & H2 & ->). inversion H2; subst es0.
    apply entry_run in He0 as [_ Hc]. simpl. rewrite Hc. apply Hend.
Qed.
End Search.

#[global] Arguments IsPartial : simpl never.
#[global] Arguments depth : simpl never.
