(* ===== verification/MstInsert.v ===== *)
(** * Insertion into a Merkle search tree

    [split] and [insert] of [src/atproto/repo/mst/node_insert.go] on nodes that
    stand for a sorted list: insertion into the tree is insertion into the list,
    on partial trees too when it succeeds, and it can only fail on a partial
    tree. *)

From S2P Require Import Prelude GoStrings Sha256 Cbor Mst MstData MstSpec MstSearch.
Local Open Scope Z_scope.

Section Insert.
Context `{CborGen, CidLib} {LP : LinkProp}.

(** ** Complete trees *)

Definition complete (es : list Entry) : Prop := Forall (λ e, entry_partial e = false) es.

Lemma IsPartial_false n : IsPartial n = false ↔ Stub n = false ∧ complete (Entries n).
Proof.
  rewrite IsPartial_unfold, orb_false_iff. unfold complete. apply and_iff_compat_l.
  rewrite <-not_true_iff_false, existsb_exists, Forall_forall. split.
  - intros Hn e He. destruct (entry_partial e) eqn:E; [|done]. destruct Hn. exists e. by rewrite <-list_elem_of_In.
  - intros Hf (e & He & Hp). rewrite <-list_elem_of_In in He. by rewrite Hf in Hp.
Qed.

Lemma IsPartial_newNode h es : IsPartial (newNode h es) = false ↔ complete es.
Proof. rewrite IsPartial_false. simpl. naive_solver. Qed.

Lemma childEntry_complete c : entry_partial (childEntry c) = IsPartial c.
Proof. done. Qed.

(** ** Rebuilding a node *)

Lemma rep_dirty h n its :
  Stub n = false → Height n = Z.of_nat h → Dirty n = true → items_ok (Z.of_nat h) its → nrep h (Entries n) its →
  rep h n (flatten its).
Proof. intros. apply rep_intro; try done. congruence. Qed.

Lemma rep_newNode h z es its :
  z = Z.of_nat h → items_ok (Z.of_nat h) its → nrep h es its → rep h (newNode z es) (flatten its).
Proof. intros -> Hok Hr. by apply rep_dirty. Qed.

(** The entry at an item. *)
Lemma nrep_middle h es its1 it its2 :
  nrep h es (its1 ++ it :: its2) →
  ∃ es1 e es2, es = es1 ++ e :: es2 ∧ length es1 = length its1 ∧ nrep h es1 its1 ∧
    entry_rep (sub_rep h) (sub_link h) e it ∧ nrep h es2 its2.
Proof.
  intros (es1 & es' & H1 & (e & es2 & He & H2 & ->)%Forall2_cons_inv_r & ->)%Forall2_app_inv_r.
  exists es1, e, es2. repeat split; try done. by eapply Forall2_length.
Qed.

Lemma nrep_split h es its1 its2 :
  nrep h es (its1 ++ its2) → ∃ es1 es2, es = es1 ++ es2 ∧ length es1 = length its1 ∧ nrep h es1 its1 ∧ nrep h es2 its2.
Proof.
  intros (es1 & es2 & H1 & H2 & ->)%Forall2_app_inv_r. exists es1, es2. repeat split; try done. by eapply Forall2_length.
Qed.

Lemma lookup_middle {A} (l1 : list A) x l2 i : i = length l1 → (l1 ++ x :: l2) !! i = Some x.
Proof. intros ->. by apply list_lookup_middle. Qed.

Lemma nth_child_middle {B} (f : Node → B) es1 e es2 i :
  i = length es1 → nth_child f (es1 ++ e :: es2) i = match Child e with Some c => Some (f c) | None => None end.
Proof. intros Hi. unfold nth_child. by rewrite lookup_middle. Qed.

Lemma update_middle f es1 e es2 i : i = length es1 → update_entry i f (es1 ++ e :: es2) = es1 ++ f e :: es2.
Proof.
  intros ->. unfold update_entry. replace (length es1) with (length es1 + 0)%nat by lia. by rewrite alter_app_r.
Qed.

Lemma slices_Insert_middle es1 es2 new i : i = length es1 → slices_Insert (es1 ++ es2) i new = es1 ++ new ++ es2.
Proof. intros ->. unfold slices_Insert. by rewrite take_app_length, drop_app_length. Qed.

Lemma slices_Delete_middle es1 mid es2 i j :
  i = length es1 → j = (length es1 + length mid)%nat → slices_Delete (es1 ++ mid ++ es2) i j = es1 ++ es2.
Proof.
  intros -> ->. unfold slices_Delete. rewrite take_app_length. by rewrite (assoc_L app), <-length_app, drop_app_length.
Qed.

(** A child that is absent makes the tree partial. *)
Lemma run_absent h run e n :
  entry_rep (sub_rep h) (sub_link h) e (IRun run) → e ∈ Entries n → Child e = None → IsPartial n = true.
Proof.
  intros (_ & _ & Hc) Hin Hn. rewrite Hn in Hc. destruct Hc as (cc & Hcc & _). apply (entry_partial_in _ e); [done|].
  unfold entry_partial. by rewrite Hn, Hcc.
Qed.

Lemma run_child h run e c :
  entry_rep (sub_rep h) (sub_link h) e (IRun run) → Child e = Some c → ∃ h', h = S h' ∧ rep h' c run.
Proof.
  intros (_ & _ & Hc) Hn. rewrite Hn in Hc. destruct Hc as [Hc _]. destruct h as [|h]; [done|]. by exists h.
Qed.

Lemma child_partial n e c : e ∈ Entries n → Child e = Some c → IsPartial c = true → IsPartial n = true.
Proof. intros Hin Hc Hp. apply (entry_partial_in _ e); [done|]. unfold entry_partial. by rewrite Hc. Qed.

(** A child the code has just written, with [Dirty] set on its entry. *)
Lemma entry_new_child h e c run :
  rep h c run → Key e = EmptyString → Value e = None → eDirty e = true → Child e = Some c →
  entry_rep (sub_rep (S h)) (sub_link (S h)) e (IRun run).
Proof. intros Hr Hk Hv Hd Hc. split; [done|]. split; [done|]. rewrite Hc. split; [done|]. congruence. Qed.

Lemma entry_new_value h key val : key ≠ EmptyString → entry_rep (sub_rep h) (sub_link h) (valueEntry key val) (IVal key val).
Proof. done. Qed.

(** ** Uniqueness of cuts *)

Lemma cut_unique key a b c d :
  a ++ b = c ++ d → below key a → above key b → below key c → above key d → a = c ∧ b = d.
Proof.
  revert c. induction a as [|x a IH]; intros [|y c] Heq Ha Hb Hc Hd; simpl in *; simplify_eq; [done|..].
  - apply Forall_cons in Hb as [Hb _]. apply Forall_cons in Hc as [Hc _]. simpl in *.
    by rewrite (str_lt_asym _ _ Hb) in Hc.
  - apply Forall_cons in Ha as [Ha _]. apply Forall_cons in Hd as [Hd _]. simpl in *.
    by rewrite (str_lt_asym _ _ Ha) in Hd.
  - apply Forall_cons in Ha as [_ Ha]. apply Forall_cons in Hc as [_ Hc]. by destruct (IH c) as [-> ->].
Qed.

Lemma items_unique h a b : items_ok h a → items_ok h b → flatten a = flatten b → a = b.
Proof. intros Ha Hb Heq. by rewrite <-(groups_unique h a Ha), Heq, groups_unique. Qed.

Lemma groups_app_eq h l its1 its2 : groups h l = its1 ++ its2 → l = flatten its1 ++ flatten its2.
Proof. intros Hg. by rewrite <-(groups_flatten h l), Hg, flatten_app. Qed.

Lemma items_run_halves h its1 l1 l2 its2 :
  items_ok h (its1 ++ IRun (l1 ++ l2) :: its2) → l1 ≠ [] → l2 ≠ [] →
  items_ok h (its1 ++ [IRun l1]) ∧ items_ok h (IRun l2 :: its2).
Proof.
  intros (H1 & (_ & Hf & Hh & H2) & Hlr)%items_ok_app Hn1 Hn2. apply Forall_app in Hf as [Hf1 Hf2].
  split; [apply items_ok_app; repeat split; try done|repeat split; done].
Qed.

(** ** [split] *)

Lemma split_unfold n key :
  split n key =
  if IsEmpty n then Err (MstErr "tried to split an empty node")
  else
    match findInsertionIndex n key with
    | Err err => Err err
    | Ok (idx, false) => splitEntries n idx
    | Ok (idx, true) =>
        match nth_child split (Entries n) idx with
        | None => Err (Panic "nil pointer")
        | Some rec =>
            match rec key with
            | Err err => Err err
            | Ok (lowerLeft, lowerRight) =>
                Ok (newNode (Height n) (take idx (Entries n) ++ [childEntry lowerLeft]),
                    newNode (Height n) (childEntry lowerRight :: drop (idx + 1) (Entries n)))
            end
        end
    end.
Proof.
  destruct n; cbn [split]. destruct (IsEmpty _); [done|].
  destruct (findInsertionIndex _ key) as [[i [|]]|]; [|done..]. by rewrite child_closures_lookup.
Qed.

Definition split_ok (h : nat) (l1 l2 : list kv) (n : Node) (res : result mst_err (Node * Node)) : Prop :=
  match res with
  | Ok (a, b) => rep h a l1 ∧ rep h b l2 ∧ (IsPartial n = false → IsPartial a = false ∧ IsPartial b = false)
  | Err _ => IsPartial n = true
  end.

Lemma split_spec h n l1 l2 key :
  rep h n (l1 ++ l2) → sorted (l1 ++ l2) → below key l1 → above key l2 → l1 ≠ [] → l2 ≠ [] →
  split_ok h l1 l2 n (split n key).
Proof.
  revert n l1 l2. induction h as [h IH] using (well_founded_induction lt_wf). intros n l1 l2 Hr Hs Hb Ha Hn1 Hn2.
  rewrite split_unfold, (rep_empty _ _ _ Hr), bool_decide_false by (by destruct l1).
  pose proof (findInsertionIndex_spec h n _ key Hr Hs) as Hins.
  rewrite kv_lookup_below, kv_lookup_above in Hins by done. specialize (Hins eq_refl).
  pose proof Hr as (Hst & Hh & He & _)%rep_unfold. pose proof (groups_ok (Z.of_nat h) (l1 ++ l2)) as Hok.
  destruct (findInsertionIndex n key) as [[i [|]]|err]; [| |done].
  - destruct Hins as (its1 & r1 & r2 & its2 & Hg & -> & Hb1 & Ha2 & Hr1 & Hr2 & Hbr & Har).
    rewrite Hg in He, Hok. pose proof (groups_app_eq _ _ _ _ Hg) as Hl. rewrite flatten_cons in Hl. simpl in Hl.
    destruct (cut_unique key l1 l2 (flatten its1 ++ r1) (r2 ++ flatten its2)) as [-> ->];
      [by rewrite Hl, !(assoc_L app)|done|done|by apply Forall_app|by apply Forall_app|].
    destruct (items_run_halves _ _ _ _ _ Hok Hr1 Hr2) as [Hok1 Hok2].
    destruct (nrep_middle _ _ _ _ _ He) as (es1 & e & es2 & Hes & Hlen & H1 & He0 & H2).
    assert (e ∈ Entries n) as Hin by (rewrite Hes; set_solver).
    rewrite Hes, nth_child_middle by done. destruct (Child e) as [c|] eqn:Hc; [|by eapply run_absent].
    destruct (run_child _ _ _ _ He0 Hc) as (h' & -> & Hcr).
    assert (sorted (r1 ++ r2)) as Hsr. { rewrite Hl in Hs. by apply sorted_app in Hs as (_ & (? & _)%sorted_app & _). }
    specialize (IH h' (Nat.lt_succ_diag_r h') c r1 r2 Hcr Hsr Hbr Har Hr1 Hr2).
    destruct (split c key) as [[cl cr]|err]; [|by eapply child_partial]. destruct IH as (Hcl & Hcr' & Hcp).
    rewrite <-Hlen, take_app_length, drop_app_add'. 2:{ simpl. done. } simpl. rewrite drop_0. split; [|split].
    + replace (flatten its1 ++ r1) with (flatten (its1 ++ [IRun r1])) by (rewrite flatten_app, flatten_cons; simpl; by rewrite app_nil_r).
      apply rep_newNode; [done|done|]. apply nrep_app; [done|]. constructor; [|constructor]. by eapply entry_new_child.
    + change (r2 ++ flatten its2) with (flatten (IRun r2 :: its2)). apply rep_newNode; [done|done|].
      constructor; [|done]. by eapply entry_new_child.
    + intros [_ Hcm]%IsPartial_false. rewrite Hes in Hcm. apply Forall_app in Hcm as [Hm1 [Hme Hm2]%Forall_cons].
      unfold entry_partial in Hme. rewrite Hc in Hme. destruct (Hcp Hme) as [Hpl Hpr]. rewrite !IsPartial_newNode.
      split; [apply Forall_app; split; [done|by repeat constructor]|by constructor].
  - destruct Hins as (its1 & its2 & Hg & -> & Hb1 & Ha2). rewrite Hg in He, Hok.
    destruct (cut_unique key l1 l2 (flatten its1) (flatten its2)) as [-> ->]; [by apply groups_app_eq in Hg|done..|].
    destruct (nrep_split _ _ _ _ He) as (es1 & es2 & Hes & Hlen & H1 & H2). apply items_ok_app in Hok as (Hok1 & Hok2 & _).
    pose proof (Forall2_length _ _ _ H2) as Hlen2.
    assert (its1 ≠ [] ∧ its2 ≠ []) as [Hi1 Hi2] by (split; by intros ->).
    unfold splitEntries. rewrite Hes, <-Hlen, take_app_length, drop_app_length, length_app.
    destruct es1 as [|e1 es1]; [by destruct its1|]. destruct es2 as [|e2 es2]; [by destruct its2|].
    replace (length (e1 :: es1) + length (e2 :: es2) <=? length (e1 :: es1))%nat with false
      by (symmetry; apply Nat.leb_gt; simpl; lia).
    simpl. split; [by apply rep_newNode|]. split; [by apply rep_newNode|].
    intros [_ Hcm]%IsPartial_false. rewrite Hes in Hcm. apply Forall_app in Hcm as [Hm1 Hm2].
    rewrite !IsPartial_newNode. done.
Qed.

(** ** [insert] *)

Definition insert_ok (h' : nat) (l : list kv) (key : string) (val : cid) (n : Node)
    (res : result mst_err (Node * option cid)) : Prop :=
  match res with
  | Ok (n', prev) =>
      prev = kv_lookup key l ∧ rep h' n' (kv_insert key val l) ∧ (IsPartial n = false → IsPartial n' = false)
  | Err _ => IsPartial n = true
  end.

Lemma kv_insert_same key val l : sorted l → kv_lookup key l = Some val → kv_insert key val l = l.
Proof.
  intros Hs Hl. destruct (kv_cut key l Hs) as [(l1 & v & l2 & -> & H1 & H2)|(l1 & l2 & -> & H1 & H2)];
    rewrite kv_lookup_below in Hl by done.
  - simpl in Hl. rewrite String.eqb_refl in Hl. simplify_eq. by rewrite kv_insert_below, kv_insert_here.
  - by rewrite kv_lookup_above in Hl.
Qed.

Lemma kv_insert_forall (P : string → Prop) key val l :
  P key → Forall (λ p, P p.1) l → Forall (λ p, P p.1) (kv_insert key val l).
Proof.
  intros Hk Hl. induction Hl as [|p l Hp Hl IH]; simpl; [by repeat constructor|].
  repeat case_match; by repeat constructor.
Qed.

Lemma kv_insert_ne key val l : kv_insert key val l ≠ [].
Proof. destruct l; simpl; [done|]. by repeat case_match. Qed.

(** Keys of the layer of the node are not in its children. *)
Lemma run_lookup_none h l run key :
  HeightForKey key = h → IRun run ∈ groups h l → kv_lookup key run = None.
Proof.
  intros Hk Hin. pose proof (groups_ok h l) as Hok. revert Hok Hin. generalize (groups h l) as its.
  induction its as [|[k v|r] its IH]; simpl; intros Hok Hin; [by apply elem_of_nil in Hin|..].
  - apply elem_of_cons in Hin as [?|Hin]; [done|]. destruct Hok as [_ Hok]. by apply IH.
  - destruct Hok as (_ & Hr & _ & Hok). apply elem_of_cons in Hin as [[= ->]|Hin]; [|by apply IH].
    clear -Hk Hr. induction Hr as [|p r Hp _ IH]; simpl; [done|]. destruct (String.eqb_spec key p.1); [congruence|done].
Qed.

Lemma items_replace h its1 it its2 it' :
  items_ok h (its1 ++ it :: its2) → is_run it' = is_run it → items_ok h [it'] → items_ok h (its1 ++ it' :: its2).
Proof.
  intros (H1 & H2 & H3)%items_ok_app Hr Hit. apply items_ok_app. split; [done|]. simpl in H3. split; [|simpl; by rewrite Hr].
  destruct it, it'; simpl in *; naive_solver.
Qed.

(** A new value between two groups of items, of which the first may end and the
    second start with a run. *)
Lemma items_ok_val h its1 key val its2 :
  HeightForKey key = h → items_ok h its1 → items_ok h its2 → items_ok h (its1 ++ IVal key val :: its2).
Proof. intros Hk H1 H2. apply items_ok_app. simpl. repeat split; try done. by rewrite andb_false_r. Qed.

(** The key is of the node's layer and present. *)
Lemma insert_update h n l key val its1 v its2 :
  rep h n l → sorted l → key ≠ EmptyString → HeightForKey key = Z.of_nat h →
  groups (Z.of_nat h) l = its1 ++ IVal key v :: its2 →
  let prev := match Entries n !! length its1 with Some e => Value e | None => None end in
  insert_ok h l key val n
    (if bool_decide (prev = Some val) then Ok (n, Some val)
     else Ok (set_Dirty true (set_Entries (update_entry (length its1) (λ e, set_eDirty true (set_Value (Some val) e)) (Entries n)) n), prev)).
Proof.
  intros Hr Hs Hk Hh Hg. pose proof Hr as (Hst & Hhn & He & _)%rep_unfold. rewrite Hg in He.
  pose proof (groups_ok (Z.of_nat h) l) as Hok. rewrite Hg in Hok.
  destruct (nrep_middle _ _ _ _ _ He) as (es1 & e & es2 & Hes & Hlen & H1 & He0 & H2).
  assert (l = flatten its1 ++ (key, v) :: flatten its2) as Hl by by rewrite (groups_app_eq _ _ _ _ Hg).
  pose proof Hs as Hs'. rewrite Hl in Hs'. apply sorted_app in Hs' as (_ & (Ha & _)%sorted_cons & Hb%(Forall_impl _ (λ p, p.1 ≺ key))).
  2: { intros p Hp. by apply Forall_cons in Hp as [? _]. }
  assert (kv_lookup key l = Some v) as Hlk.
  { rewrite Hl, kv_lookup_below by done. simpl. by rewrite String.eqb_refl. }
  rewrite Hes, lookup_middle by done. pose proof (entry_val _ _ _ _ He0) as (_ & _ & _ & Hv & Hc). rewrite Hv. simpl.
  destruct (decide (v = val)) as [->|Hne].
  - rewrite bool_decide_true by done. split; [done|]. by rewrite kv_insert_same.
  - rewrite bool_decide_false by congruence. split; [done|]. split.
    + rewrite Hl, kv_insert_below, kv_insert_here by done.
      change (flatten its1 ++ (key, val) :: flatten its2) with (flatten its1 ++ flatten (IVal key val :: its2)).
      rewrite <-flatten_app. apply rep_dirty; simpl; try done.
      * eapply items_replace; [exact Hok|done|]. simpl. done.
      * rewrite update_middle by done. apply nrep_app; [done|]. constructor; [|done]. destruct He0 as (? & ? & ? & ? & ?). done.
    + intros [_ Hcm]%IsPartial_false. apply IsPartial_false. split; [done|]. simpl. rewrite update_middle by done. rewrite Hes in Hcm.
      apply Forall_app in Hcm as [? [? ?]%Forall_cons]. apply Forall_app. by split; [|constructor].
Qed.

(** The key is of the node's layer and absent. *)
Lemma insert_new h n l key val :
  rep h n l → sorted l → key ≠ EmptyString → HeightForKey key = Z.of_nat h → kv_lookup key l = None →
  insert_ok h l key val n
    (match findInsertionIndex n key with
     | Err err => Err err
     | Ok (idx, split_needed) =>
         let '(n, r) := proveMutation (set_Dirty true n) key in
         match ignore_partial r with
         | Some err => Err err
         | None =>
             if negb split_needed then
               if (length (Entries n) <=? idx)%nat
               then Ok (set_Entries (Entries n ++ [valueEntry key val]) n, None)
               else Ok (set_Entries (slices_Insert (Entries n) idx [valueEntry key val]) n, None)
             else
               match nth_child id (Entries n) idx with
               | None => Err (Panic "nil pointer")
               | Some c =>
                   match split c key with
                   | Err err => Err err
                   | Ok (l, r) =>
                       let es := slices_Delete (Entries n) idx (idx + 1) in
                       Ok (set_Entries (slices_Insert es idx [childEntry l; valueEntry key val; childEntry r]) n, None)
                   end
               end
         end
     end).
Proof.
  intros Hr Hs Hk Hh Hf. pose proof (findInsertionIndex_spec h n l key Hr Hs Hf) as Hins.
  pose proof (groups_ok (Z.of_nat h) l) as Hok.
  destruct (findInsertionIndex n key) as [[i sp]|err]; [|done].
  pose proof (mark_self h l n true Hr) as Hm0. simpl in Hm0.
  destruct (proveMutation_spec h (set_Dirty true n) l key) as [Hm1 Hperr]; [by apply Hm0|done|done|].
  destruct (proveMutation (set_Dirty true n) key) as [n2 r]. simpl in Hm1, Hperr.
  assert (Dirty n2 = true) as Hd2 by (destruct (Dirty n2) eqn:E; [done|by apply Hm1 in E]).
  pose proof (marked_trans _ _ _ _ _ Hm0 Hm1) as [Hr2 Hp2 _ _]. destruct Hm0 as [_ Hp1 _ _]. rewrite Hp1 in Hperr. clear Hm1 Hp1.
  pose proof Hr2 as (Hst & Hhn & He & _)%rep_unfold.
  destruct (ignore_partial r) as [err|] eqn:Hig. { simpl. apply Hperr. by destruct r. }
  destruct sp; cbn [negb].
  - destruct Hins as (its1 & r1 & r2 & its2 & Hg & -> & Hb1 & Ha2 & Hn1 & Hn2 & Hbr & Har).
    rewrite Hg in He, Hok. destruct (nrep_middle _ _ _ _ _ He) as (es1 & e & es2 & Hes & Hlen & H1 & He0 & H2).
    assert (e ∈ Entries n2) as Hin by (rewrite Hes; set_solver).
    rewrite Hes, nth_child_middle by done.
    destruct (Child e) as [c|] eqn:Hc; [|simpl; rewrite <-Hp2; by eapply run_absent].
    destruct (run_child _ _ _ _ He0 Hc) as (h' & -> & Hcr).
    pose proof (groups_app_eq _ _ _ _ Hg) as Hl. rewrite flatten_cons in Hl. simpl in Hl.
    assert (sorted (r1 ++ r2)) as Hsr. { rewrite Hl in Hs. by apply sorted_app in Hs as (_ & (? & _)%sorted_app & _). }
    pose proof (split_spec h' c r1 r2 key Hcr Hsr Hbr Har Hn1 Hn2) as Hsp. unfold id.
    destruct (split c key) as [[cl cr]|err]; [|simpl; rewrite <-Hp2; by eapply child_partial].
    destruct Hsp as (Hcl & Hcr' & Hcp). destruct (items_run_halves _ _ _ _ _ Hok Hn1 Hn2) as [Hok1 Hok2].
    change (es1 ++ e :: es2) with (es1 ++ [e] ++ es2). rewrite slices_Delete_middle by (simpl; lia || done).
    rewrite slices_Insert_middle by done. split; [done|]. split.
    + replace (kv_insert key val l) with (flatten ((its1 ++ [IRun r1]) ++ IVal key val :: IRun r2 :: its2)).
      2: { rewrite Hl, <-(app_assoc r1), kv_insert_below, (kv_insert_below _ _ r1), kv_insert_above by (done || by apply Forall_app).
           rewrite !flatten_app, !flatten_cons. simpl. by rewrite app_nil_r, <-!app_assoc. }
      apply rep_dirty; simpl; try done; [by apply items_ok_val|].
      rewrite <-app_assoc. simpl. apply nrep_app; [done|]. constructor; [by eapply entry_new_child|]. constructor; [by apply entry_new_value|].
      constructor; [by eapply entry_new_child|done].
    + intros Hp. rewrite <-Hp2 in Hp. apply IsPartial_false in Hp as [_ Hcm]. rewrite Hes in Hcm.
      apply Forall_app in Hcm as [Hm1 [Hme Hm2]%Forall_cons]. unfold entry_partial in Hme. rewrite Hc in Hme.
      destruct (Hcp Hme) as [Hpl Hpr]. apply IsPartial_false. split; [done|]. simpl.
      apply Forall_app. split; [done|]. by repeat constructor.
  - destruct Hins as (its1 & its2 & Hg & -> & Hb1 & Ha2). rewrite Hg in He, Hok.
    destruct (nrep_split _ _ _ _ He) as (es1 & es2 & Hes & Hlen & H1 & H2). apply items_ok_app in Hok as (Hok1 & Hok2 & _).
    assert ((if (length (Entries n2) <=? length its1)%nat
             then Ok (set_Entries (Entries n2 ++ [valueEntry key val]) n2, None)
             else Ok (set_Entries (slices_Insert (Entries n2) (length its1) [valueEntry key val]) n2, None))
            = @Ok mst_err _ (set_Entries (es1 ++ [valueEntry key val] ++ es2) n2, @None cid)) as ->.
    { rewrite Hes, slices_Insert_middle, length_app by done. destruct (Nat.leb_spec (length es1 + length es2) (length its1)); [|done].
      destruct es2; [|simpl in *; lia]. by rewrite app_nil_r. }
    split; [done|]. split.
    + replace (kv_insert key val l) with (flatten (its1 ++ IVal key val :: its2)).
      2: { rewrite (groups_app_eq _ _ _ _ Hg), kv_insert_below, kv_insert_above, flatten_app, flatten_cons by done. done. }
      apply rep_dirty; simpl; try done; [by apply items_ok_val|]. apply nrep_app; [done|]. constructor; [by apply entry_new_value|done].
    + intros Hp. rewrite <-Hp2 in Hp. apply IsPartial_false in Hp as [_ Hcm]. rewrite Hes in Hcm.
      apply Forall_app in Hcm as [Hm1 Hm2]. apply IsPartial_false. split; [done|]. simpl.
      apply Forall_app. split; [done|]. by repeat constructor.
Qed.

(** What is from the key on, in a node of another layer, is after the key. *)
Lemma gap_strict h key its1 mid its2 :
  items_ok h (its1 ++ mid ++ its2) → sorted (flatten (its1 ++ mid ++ its2)) → HeightForKey key ≠ h →
  gap key its1 mid its2 → above key (flatten its2).
Proof.
  intros Hok Hs Hne [_ _ _ Hf Hh]. apply items_ok_app in Hok as (_ & (_ & Hok & _)%items_ok_app & _).
  rewrite !flatten_app in Hs. apply sorted_app in Hs as (_ & (_ & Hs & _)%sorted_app & _).
  destruct its2 as [|[k v|] its2]; [constructor| |done]. rewrite flatten_cons in *. simpl in *.
  apply Forall_cons in Hf as [Hf _]. apply sorted_cons in Hs as [Ha _]. destruct Hok as [Hk _]. simpl in *.
  assert (key ≺ k) as Hlt.
  { destruct (str_lt key k) eqn:E; [done|]. by rewrite (str_lt_total _ _ Hf E) in Hk. }
  constructor; [done|]. by apply (above_trans _ k).
Qed.

Lemma gap_lookup key its1 mid its2 :
  below key (flatten its1) → above key (flatten its2) →
  kv_lookup key (flatten (its1 ++ mid ++ its2)) = kv_lookup key (flatten mid).
Proof. intros Hb Ha. by rewrite !flatten_app, kv_lookup_below, kv_lookup_app_l. Qed.

Lemma gap_insert key val its1 mid its2 :
  below key (flatten its1) → above key (flatten its2) →
  kv_insert key val (flatten (its1 ++ mid ++ its2)) = flatten its1 ++ kv_insert key val (flatten mid) ++ flatten its2.
Proof. intros Hb Ha. by rewrite !flatten_app, kv_insert_below, kv_insert_app_l. Qed.

(** An index found where no child is leaves no child on either side. *)
Lemma insertion_at_gap h l key n its1 its2 res :
  groups (Z.of_nat h) l = its1 ++ its2 → below key (flatten its1) → above key (flatten its2) →
  last_run its1 = false → head_run its2 = false →
  insertion_ok h l key n res →
  match res with Ok (i, sp) => i = length its1 ∧ sp = false | Err _ => IsPartial n = true end.
Proof.
  intros Hg Hb Ha Hl Hh Hins. pose proof (groups_ok (Z.of_nat h) l) as Hok. destruct res as [[i [|]]|]; [exfalso| |done].
  - destruct Hins as (i1 & r1 & r2 & i2 & Hg' & _ & Hb1 & Ha2 & Hn1 & Hn2 & Hbr & Har).
    pose proof Hok as Hok'. rewrite Hg' in Hok'. destruct (items_run_halves _ _ _ _ _ Hok' Hn1 Hn2) as [Hok1 _].
    rewrite Hg in Hok. apply items_ok_app in Hok as (Hok2 & _ & _).
    assert (its1 = i1 ++ [IRun r1]) as ->.
    { apply (items_unique (Z.of_nat h)); [done..|]. rewrite flatten_app, flatten_cons. simpl. rewrite app_nil_r.
      eapply (cut_unique key _ (flatten its2) _ (r2 ++ flatten i2)); [|done|done|by apply Forall_app|by apply Forall_app].
      rewrite <-(groups_app_eq _ _ _ _ Hg), (groups_app_eq _ _ _ _ Hg'), flatten_cons. simpl. by rewrite <-!app_assoc. }
    unfold last_run in Hl. by rewrite last_snoc in Hl.
  - destruct Hins as (i1 & i2 & Hg' & -> & Hb1 & Ha2). split; [|done]. f_equal.
    apply (items_unique (Z.of_nat h)).
    + rewrite Hg' in Hok. by apply items_ok_app in Hok as [? _].
    + rewrite Hg in Hok. by apply items_ok_app in Hok as [? _].
    + eapply (cut_unique key _ (flatten i2) _ (flatten its2)); [|done..].
      by rewrite <-(groups_app_eq _ _ _ _ Hg), (groups_app_eq _ _ _ _ Hg').
Qed.

Lemma insertChild_spec rec h n l key val height :
  rep (S h) n l → sorted l → fits (Z.of_nat (S h)) l → key ≠ EmptyString → HeightForKey key ≤ Z.of_nat h →
  (∀ c run, rep h c run → sorted run → fits (Z.of_nat h) run → insert_ok h run key val c (rec c key val height)) →
  insert_ok (S h) l key val n (insertChild rec n key val height).
Proof.
  intros Hr Hs Hf Hk Hh Hrec. pose proof Hr as (Hst & Hhn & He & _)%rep_unfold.
  destruct (findExistingChild_spec _ n l key Hr Hs) as (its1 & mid & its2 & Hg & Hgap & Hfec).
  pose proof (groups_ok (Z.of_nat (S h)) l) as Hok. pose proof (groups_flatten (Z.of_nat (S h)) l) as Hl.
  rewrite Hg in He, Hok, Hl. assert (above key (flatten its2)) as Ha.
  { apply (gap_strict (Z.of_nat (S h)) key its1 mid its2); [done|by rewrite Hl|lia|done]. }
  pose proof Hgap as [Hb Hlr Hm _ Hhr].
  assert (kv_lookup key l = kv_lookup key (flatten mid)) as Hlk by (rewrite <-Hl; by apply gap_lookup).
  assert (kv_insert key val l = flatten its1 ++ kv_insert key val (flatten mid) ++ flatten its2) as Hki by (rewrite <-Hl; by apply gap_insert).
  assert (sorted (flatten mid)) as Hsm.
  { rewrite <-Hl, !flatten_app in Hs. by apply sorted_app in Hs as (_ & (? & _)%sorted_app & _). }
  unfold insertChild. rewrite Hfec. destruct Hm as [->|[run ->]]; cbn [app] in He, Hok, Hl, Hg.
  - pose proof (findInsertionIndex_spec _ n l key Hr Hs) as Hins. rewrite Hlk in Hins. specialize (Hins eq_refl).
    apply (insertion_at_gap _ _ _ _ its1 its2) in Hins; [|done..].
    destruct (findInsertionIndex n key) as [[i sp]|err]; [|done]. destruct Hins as [-> ->].
    assert (rep h (newNode (Height n - 1) []) []) as Hr0.
    { apply (rep_newNode h _ [] []); [rewrite Hhn; lia|done|constructor]. }
    pose proof (Hrec _ [] Hr0 ltac:(constructor) ltac:(constructor)) as Hi.
    destruct (rec _ key val height) as [[c pv]|err]; [|by apply not_true_iff_false in Hi].
    destruct Hi as (_ & Hc & Hcp). simpl in Hc. destruct (nrep_split (S h) _ _ _ He) as (es1 & es2 & Hes & Hlen & H1 & H2).
    split; [by rewrite Hlk|]. rewrite Hes, slices_Insert_middle by done. split.
    + replace (kv_insert key val l) with (flatten (its1 ++ IRun [(key, val)] :: its2)) by by rewrite Hki, flatten_app.
      apply items_ok_app in Hok as (Hok1 & Hok2 & _). apply rep_dirty; simpl; try done.
      * apply items_ok_app. repeat split; try done; [|by rewrite Hlr]. constructor; [simpl; lia|constructor].
      * apply nrep_app; [done|]. constructor; [by eapply entry_new_child|done].
    + intros [_ Hcm]%IsPartial_false. rewrite Hes in Hcm. apply Forall_app in Hcm as [Hm1 Hm2]. apply IsPartial_false.
      split; [done|]. apply Forall_app. split; [done|]. constructor; [|done]. by apply Hcp.
  - destruct (nrep_middle (S h) _ _ _ _ He) as (es1 & e & es2 & Hes & Hlen & H1 & He0 & H2).
    assert (e ∈ Entries n) as Hin by (rewrite Hes; set_solver).
    rewrite Hes, nth_child_middle by done. unfold id. destruct (Child e) as [c|] eqn:Hc; [|by eapply run_absent].
    destruct (run_child _ _ _ _ He0 Hc) as (h' & [= <-] & Hcr). cbn [flatten map concat pairs] in Hlk, Hki, Hsm.
    rewrite app_nil_r in Hlk, Hki, Hsm.
    assert (fits (Z.of_nat h) run) as Hfr.
    { replace (Z.of_nat h) with (Z.of_nat (S h) - 1) by lia. eapply fits_run; [exact Hok|by rewrite Hl|set_solver]. }
    pose proof (Hrec c run Hcr Hsm Hfr) as Hi.
    destruct (rec c key val height) as [[c' pv]|err]; [|by eapply child_partial]. destruct Hi as (-> & Hc' & Hcp).
    destruct (decide (kv_lookup key run = Some val)) as [Hsame|Hdiff].
    + rewrite bool_decide_true by done. split; [by rewrite Hlk|]. rewrite kv_insert_same; [done|done|by rewrite Hlk].
    + rewrite bool_decide_false by done. split; [by rewrite Hlk|]. rewrite update_middle by done. split.
      * replace (kv_insert key val l) with (flatten (its1 ++ IRun (kv_insert key val run) :: its2)) by by rewrite Hki, flatten_app.
        apply rep_dirty; simpl; try done.
        -- eapply items_replace; [exact Hok|done|]. repeat split; [apply kv_insert_ne|].
           apply (kv_insert_forall (λ k, HeightForKey k ≠ _)); [lia|].
           by apply items_ok_app in Hok as (_ & (_ & ? & _) & _).
        -- apply nrep_app; [done|]. constructor; [|done]. destruct He0 as (? & ? & _). by eapply entry_new_child.
      * intros [_ Hcm]%IsPartial_false. rewrite Hes in Hcm. apply Forall_app in Hcm as [Hm1 [Hme Hm2]%Forall_cons].
        unfold entry_partial in Hme. rewrite Hc in Hme. apply IsPartial_false. split; [done|].
        apply Forall_app. split; [done|]. constructor; [|done]. by apply Hcp.
Qed.

(** A tree put under a new top node. *)
Lemma rep_push h n l :
  rep h n l → fits (Z.of_nat h) l → l ≠ [] → rep (S h) (newNode (Height n + 1) [childEntry n]) l.
Proof.
  intros Hr Hf Hne. pose proof Hr as (_ & Hhn & _)%rep_unfold.
  replace l with (flatten [IRun l]) by (rewrite flatten_cons; simpl; by rewrite app_nil_r).
  apply rep_newNode; [lia| |].
  - repeat split; [done|]. eapply Forall_impl; [exact Hf|]. simpl. intros p Hp. lia.
  - constructor; [|constructor]. by eapply entry_new_child.
Qed.

Lemma fits_mono h h' l : h ≤ h' → fits h l → fits h' l.
Proof. intros Hle Hf. eapply Forall_impl; [exact Hf|]. simpl. lia. Qed.

Lemma insert_fuel_spec fuel h n l key val height :
  rep h n l → sorted l → fits (Z.of_nat h) l → key ≠ EmptyString →
  (height < 0 ∨ height = HeightForKey key) → (Z.to_nat (Z.abs (HeightForKey key - Z.of_nat h)) < fuel)%nat →
  insert_ok (Nat.max h (Z.to_nat (HeightForKey key))) l key val n (insert_fuel fuel n key val height).
Proof.
  revert h n l height. induction fuel as [|fuel IH]; intros h n l height Hr Hs Hf Hk Hht Hfuel; [lia|].
  pose proof (HeightForKey_nonneg key) as Hnn. cbn [insert_fuel].
  replace (if height <? 0 then HeightForKey key else height) with (HeightForKey key)
    by (destruct (height <? 0) eqn:E; bool_to_prop; lia).
  pose proof Hr as (Hst & Hhn & He & _)%rep_unfold. rewrite Hst, Hhn.
  destruct (Z.of_nat h <? HeightForKey key) eqn:E1; bool_to_prop.
  - unfold insertParent. rewrite Hhn, (rep_empty _ _ _ Hr). destruct (decide (l = [])) as [->|Hne].
    + rewrite bool_decide_true by done.
      assert (insert_ok (Z.to_nat (HeightForKey key)) [] key val (newNode (HeightForKey key) [])
        (insert_fuel fuel (newNode (HeightForKey key) []) key val (HeightForKey key))) as Hi.
      { rewrite <-(Nat.max_id (Z.to_nat (HeightForKey key))). apply IH; try done; [|constructor|by right|lia].
        apply (rep_newNode _ _ [] []); [lia|done|constructor]. }
      rewrite Nat.max_r by lia. destruct (insert_fuel _ _ _ _ _) as [[n' pv]|err]; [|by apply not_true_iff_false in Hi].
      destruct Hi as (-> & Hn' & Hp). split; [done|]. split; [done|]. intros _. by apply Hp.
    + rewrite bool_decide_false by done. pose proof (rep_push _ _ _ Hr Hf Hne) as Hr'. rewrite Hhn in Hr'.
      assert (insert_ok (Nat.max (S h) (Z.to_nat (HeightForKey key))) l key val (newNode (Z.of_nat h + 1) [childEntry n])
        (insert_fuel fuel (newNode (Z.of_nat h + 1) [childEntry n]) key val (HeightForKey key))) as Hi.
      { apply IH; try done; [|by right|lia]. eapply fits_mono; [|done]. lia. }
      replace (Nat.max h _) with (Nat.max (S h) (Z.to_nat (HeightForKey key))) by lia.
      assert (IsPartial (newNode (Z.of_nat h + 1) [childEntry n]) = IsPartial n) as Hpp.
      { rewrite (IsPartial_unfold (newNode _ _)). simpl. by rewrite orb_false_r. }
      unfold insert_ok in *. by rewrite Hpp in Hi.
  - rewrite Nat.max_l by lia. destruct (HeightForKey key <? Z.of_nat h) eqn:E2; bool_to_prop.
    + destruct h as [|h]; [lia|]. apply insertChild_spec; try done; [lia|]. intros c run Hc Hsr Hfr.
      assert (insert_ok (Nat.max h (Z.to_nat (HeightForKey key))) run key val c (insert_fuel fuel c key val (HeightForKey key))) as Hi.
      { apply IH; try done; [by right|lia]. }
      by rewrite Nat.max_l in Hi by lia.
    + assert (HeightForKey key = Z.of_nat h) as Hh by lia.
      pose proof (findExistingEntry_loop_spec h key (Entries n) _ 0 He) as Hfe. rewrite groups_flatten in Hfe.
      specialize (Hfe Hs (λ run Hin, run_lookup_none _ l run key Hh Hin)). unfold findExistingEntry.
      destruct (findExistingEntry_loop 0 (Entries n) key) as [i|].
      * destruct Hfe as (its1 & v & its2 & Hg & ->). by eapply insert_update.
      * by apply insert_new.
Qed.

Lemma insert_spec h n l key val :
  rep h n l → sorted l → fits (Z.of_nat h) l → key ≠ EmptyString →
  insert_ok (Nat.max h (Z.to_nat (HeightForKey key))) l key val n (insert n key val (-1)).
Proof.
  intros Hr Hs Hf Hk. unfold insert. apply insert_fuel_spec; try done; [by left|]. simpl.
  pose proof Hr as (_ & Hhn & _)%rep_unfold. destruct n as [es hn ? ? ?]. cbn [insert_rounds Height] in *. lia.
Qed.
End Insert.
