(* ===== verification/MstRemove.v ===== *)
(** * Removal and lookup in a Merkle search tree

    [mergeNodes], [remove] and the trimming of the top
    ([src/atproto/repo/mst/node_remove.go]), and [getCID] ([node.go]), on nodes
    that stand for a sorted list. *)

From S2P Require Import Prelude GoStrings Sha256 Cbor Mst MstData MstSpec MstSearch MstInsert.
Local Open Scope Z_scope.

Section Remove.
Context `{CborGen, CidLib} {LP : LinkProp}.

(** ** [getCID] *)

Lemma getCID_unfold n key height :
  getCID n key height =
  if Stub n then Err ErrPartialTree
  else
    let height := if height <? 0 then HeightForKey key else height in
    if Height n <? height then Ok None
    else if height <? Height n then
      match findExistingChild n key with
      | Some idx =>
          match nth_child getCID (Entries n) idx with
          | None => Err ErrPartialTree
          | Some rec => rec key height
          end
      | None => Ok None
      end
    else
      match findExistingEntry n key with
      | Some idx => Ok (match Entries n !! idx with Some e => Value e | None => None end)
      | None => Ok None
      end.
Proof.
  destruct n as [es0 h0 d0 c0 []]; [done|]. cbn [getCID Stub]. cbv zeta.
  destruct (Height _ <? _); [done|]. destruct (_ <? Height _); [|done].
  destruct (findExistingChild _ key); [|done]. by rewrite child_closures_lookup.
Qed.

Lemma fits_lookup_none h l key : fits h l → h < HeightForKey key → kv_lookup key l = None.
Proof.
  intros Hf Hlt. induction Hf as [|p l Hp _ IH]; simpl; [done|].
  destruct (String.eqb_spec key p.1) as [->|]; [lia|done].
Qed.

Lemma fits_gap_run h l its1 run its2 :
  groups (Z.of_nat (S h)) l = its1 ++ IRun run :: its2 → fits (Z.of_nat (S h)) l → fits (Z.of_nat h) run.
Proof.
  intros Hg Hf. pose proof (groups_ok (Z.of_nat (S h)) l) as Hok. pose proof (groups_flatten (Z.of_nat (S h)) l) as Hl.
  rewrite Hg in Hok, Hl. replace (Z.of_nat h) with (Z.of_nat (S h) - 1) by lia.
  eapply fits_run; [exact Hok|by rewrite Hl|set_solver].
Qed.

Lemma sorted_gap_run h l its1 run its2 : groups h l = its1 ++ IRun run :: its2 → sorted l → sorted run.
Proof.
  intros Hg Hs. rewrite (groups_app_eq _ _ _ _ Hg), flatten_cons in Hs.
  by apply sorted_app in Hs as (_ & (? & _)%sorted_app & _).
Qed.

(** The child a key of a lower layer would be in. *)
Lemma find_child_gap h n l key :
  rep (S h) n l → sorted l → HeightForKey key ≤ Z.of_nat h →
  match findExistingChild n key with
  | None => kv_lookup key l = None
  | Some i =>
      ∃ its1 run its2 es1 e es2, groups (Z.of_nat (S h)) l = its1 ++ IRun run :: its2 ∧ i = length es1 ∧
        Entries n = es1 ++ e :: es2 ∧ nrep (S h) es1 its1 ∧ nrep (S h) es2 its2 ∧
        entry_rep (sub_rep (S h)) (sub_link (S h)) e (IRun run) ∧
        below key (flatten its1) ∧ above key (flatten its2)
  end.
Proof.
  intros Hr Hs Hh. pose proof Hr as (_ & _ & He & _)%rep_unfold.
  destruct (findExistingChild_spec _ n l key Hr Hs) as (its1 & mid & its2 & Hg & Hgap & ->).
  pose proof (groups_ok (Z.of_nat (S h)) l) as Hok. pose proof (groups_flatten (Z.of_nat (S h)) l) as Hl. rewrite Hg in He, Hok, Hl.
  assert (above key (flatten its2)) as Ha by (apply (gap_strict (Z.of_nat (S h)) key its1 mid its2); [done|by rewrite Hl|lia|done]).
  destruct Hgap as [Hb _ [->|[run ->]] _ _].
  - by rewrite <-Hl, gap_lookup.
  - destruct (nrep_middle (S h) _ _ _ _ He) as (es1 & e & es2 & Hes & Hlen & H1 & He0 & H2).
    by exists its1, run, its2, es1, e, es2.
Qed.

Definition get_ok (l : list kv) (key : string) (n : Node) (res : result mst_err (option cid)) : Prop :=
  match res with Ok v => v = kv_lookup key l | Err _ => IsPartial n = true end.

Lemma getCID_spec h n l key height :
  rep h n l → sorted l → fits (Z.of_nat h) l → (height < 0 ∨ height = HeightForKey key) →
  get_ok l key n (getCID n key height).
Proof.
  revert n l height. induction h as [h IH] using (well_founded_induction lt_wf). intros n l height Hr Hs Hf Hht.
  pose proof (HeightForKey_nonneg key) as Hnn. rewrite getCID_unfold. cbv zeta.
  replace (if height <? 0 then HeightForKey key else height) with (HeightForKey key)
    by (destruct (height <? 0) eqn:E; bool_to_prop; lia).
  pose proof Hr as (Hst & Hhn & He & _)%rep_unfold. rewrite Hst, Hhn.
  destruct (Z.of_nat h <? HeightForKey key) eqn:E1; bool_to_prop; [simpl; by erewrite fits_lookup_none|].
  destruct (HeightForKey key <? Z.of_nat h) eqn:E2; bool_to_prop.
  - destruct h as [|h]; [lia|]. pose proof (find_child_gap h n l key Hr Hs ltac:(lia)) as Hfc.
    destruct (findExistingChild n key) as [i|]; [|done].
    destruct Hfc as (its1 & run & its2 & es1 & e & es2 & Hg & -> & Hes & H1 & H2 & He0 & Hb & Ha).
    assert (e ∈ Entries n) as Hin by (rewrite Hes; set_solver).
    rewrite Hes, nth_child_middle by done. destruct (Child e) as [c|] eqn:Hc; [|by eapply run_absent].
    destruct (run_child _ _ _ _ He0 Hc) as (h' & [= <-] & Hcr).
    pose proof (IH h (Nat.lt_succ_diag_r h) c run (HeightForKey key) Hcr) as Hi.
    specialize (Hi (sorted_gap_run _ _ _ _ _ Hg Hs) (fits_gap_run _ _ _ _ _ Hg Hf) (or_intror eq_refl)).
    destruct (getCID c key (HeightForKey key)) as [v|err]; [|by eapply child_partial].
    simpl in *. subst v. by rewrite (groups_app_eq _ _ _ _ Hg), flatten_cons, kv_lookup_below, kv_lookup_app_l.
  - assert (HeightForKey key = Z.of_nat h) as Hh by lia.
    pose proof (findExistingEntry_loop_spec h key (Entries n) _ 0 He) as Hfe. rewrite groups_flatten in Hfe.
    specialize (Hfe Hs (λ run Hin, run_lookup_none _ l run key Hh Hin)). unfold findExistingEntry.
    destruct (findExistingEntry_loop 0 (Entries n) key) as [i|]; [|done].
    destruct Hfe as (its1 & v & its2 & Hg & ->). rewrite Hg in He.
    destruct (nrep_middle _ _ _ _ _ He) as (es1 & e & es2 & Hes & Hlen & H1 & He0 & H2). simpl.
    rewrite Hes, lookup_middle by done. apply entry_val in He0 as (_ & _ & _ & Hv & _).
    rewrite Hv, (groups_app_eq _ _ _ _ Hg), flatten_cons. rewrite (groups_app_eq _ _ _ _ Hg), flatten_cons in Hs.
    apply sorted_app in Hs as (_ & _ & Hb). rewrite kv_lookup_below; [simpl; by rewrite String.eqb_refl|].
    eapply Forall_impl; [exact Hb|]. intros p Hp. by apply Forall_cons in Hp as [? _].
Qed.

(** ** [mergeNodes] *)

Definition merge_ok (h : nat) (l1 l2 : list kv) (a b : Node) (res : result mst_err Node) : Prop :=
  match res with
  | Ok n => rep h n (l1 ++ l2) ∧ (IsPartial a = false → IsPartial b = false → IsPartial n = false)
  | Err _ => IsPartial a = true ∨ IsPartial b = true
  end.

Lemma mergeNodes_unfold a b :
  mergeNodes a b =
  let es := Entries a ++ Entries b in
  let idx := length (Entries a) in
  match Entries a !! (idx - 1)%nat with
  | None => Err (Panic "index out of range")
  | Some ll =>
      if negb (IsChild ll) then Ok (newNode (Height a) es)
      else
        match es !! idx with
        | None => Err (Panic "index out of range")
        | Some lr =>
            if negb (IsChild lr) then Ok (newNode (Height a) es)
            else
              match nth_child mergeNodes (Entries a) (idx - 1), Child lr with
              | Some rec, Some r =>
                  match rec r with
                  | Err err => Err err
                  | Ok m =>
                      Ok (newNode (Height a) (slices_Delete (update_entry (idx - 1) (λ _, childEntry m) es) idx (idx + 1)))
                  end
              | _, _ => Err ErrPartialTree
              end
        end
  end.
Proof.
  destruct a as [es0 h0 d0 c0 s0]; cbn [mergeNodes Entries Height]. cbv zeta.
  destruct (es0 !! _) as [ll|]; [|done]. destruct (negb (IsChild ll)); [done|].
  destruct ((es0 ++ Entries b) !! _) as [lr|]; [|done]. destruct (negb (IsChild lr)); [done|]. by rewrite child_closures_lookup.
Qed.

Lemma nrep_snoc h es its it :
  nrep h es (its ++ [it]) → ∃ es' e, es = es' ++ [e] ∧ length es' = length its ∧ nrep h es' its ∧ entry_rep (sub_rep h) (sub_link h) e it.
Proof.
  intros (es' & e & es2 & -> & Hl & H1 & He & H2)%nrep_middle. inversion H2; subst. by exists es', e.
Qed.

(** Joining two lists of items, of which the first ends and the second starts
    with a run, joins the runs. *)
Lemma items_ok_join h its1 r1 r2 its2 :
  items_ok h (its1 ++ [IRun r1]) → items_ok h (IRun r2 :: its2) → items_ok h (its1 ++ IRun (r1 ++ r2) :: its2).
Proof.
  intros (H1 & (Hn1 & Hf1 & _) & Hl)%items_ok_app (Hn2 & Hf2 & Hh & H2). apply items_ok_app.
  split; [done|]. split; [|done]. repeat split; [by destruct r1|by apply Forall_app|done|done].
Qed.

Lemma mergeNodes_spec h a b l1 l2 :
  rep h a l1 → rep h b l2 → l1 ≠ [] → l2 ≠ [] → merge_ok h l1 l2 a b (mergeNodes a b).
Proof.
  revert a b l1 l2. induction h as [h IH] using (well_founded_induction lt_wf). intros a b l1 l2 Ha Hb Hn1 Hn2.
  pose proof Ha as (Hsa & Hha & Hea & _)%rep_unfold. pose proof Hb as (Hsb & Hhb & Heb & _)%rep_unfold.
  pose proof (groups_ok (Z.of_nat h) l1) as Hok1. pose proof (groups_ok (Z.of_nat h) l2) as Hok2.
  pose proof (groups_flatten (Z.of_nat h) l1) as Hl1. pose proof (groups_flatten (Z.of_nat h) l2) as Hl2.
  destruct (groups (Z.of_nat h) l1) as [|it1 its1 _] using rev_ind; [by subst|].
  destruct (groups (Z.of_nat h) l2) as [|it2 its2]; [by subst|].
  destruct (nrep_snoc _ _ _ _ Hea) as (es1 & ea & Hes1 & Hlen1 & H1 & He1).
  apply Forall2_cons_inv_r in Heb as (eb & es2 & He2 & H2 & Hes2).
  rewrite mergeNodes_unfold. cbv zeta. rewrite Hes1, Hes2, length_app. cbn [length].
  replace (length es1 + 1 - 1)%nat with (length es1) by lia. rewrite lookup_middle by done.
  replace ((es1 ++ [ea]) ++ eb :: es2) with (es1 ++ ea :: eb :: es2) by by rewrite <-app_assoc.
  assert (items_ok (Z.of_nat h) ((its1 ++ [it1]) ++ it2 :: its2) →
    merge_ok h l1 l2 a b (Ok (newNode (Height a) (es1 ++ ea :: eb :: es2)))) as Hjoin.
  { intros Hok. split.
    - rewrite <-Hl1, <-Hl2, <-flatten_app. apply rep_newNode; [done|done|].
      rewrite <-app_assoc. apply nrep_app; [done|]. constructor; [done|]. by constructor.
    - intros [_ Hc1]%IsPartial_false [_ Hc2]%IsPartial_false. rewrite Hes1 in Hc1. rewrite Hes2 in Hc2.
      apply Forall_app in Hc1 as [? [? _]%Forall_cons]. apply IsPartial_newNode. apply Forall_app. split; [done|]. by constructor. }
  assert (last_run (its1 ++ [it1]) = is_run it1) as Hlr by (unfold last_run; by rewrite last_snoc).
  destruct it1 as [k1 v1|r1].
  { apply entry_val in He1 as (_ & -> & _). apply Hjoin. apply items_ok_app. by rewrite Hlr. }
  pose proof (entry_run _ _ _ He1) as [_ ->]. cbn [negb].
  replace ((es1 ++ ea :: eb :: es2) !! (length es1 + 1)%nat) with (Some eb)
    by (by rewrite lookup_app_r, Nat.add_comm, Nat.add_sub by lia).
  destruct it2 as [k2 v2|r2].
  { apply entry_val in He2 as (_ & -> & _). apply Hjoin. apply items_ok_app. by rewrite Hlr. }
  pose proof (entry_run _ _ _ He2) as [_ ->]. cbn [negb]. rewrite nth_child_middle by done.
  destruct (Child ea) as [ca|] eqn:Hca; [|left; eapply run_absent; [exact He1|rewrite Hes1; set_solver|done]].
  destruct (Child eb) as [cb|] eqn:Hcb; [|right; eapply run_absent; [exact He2|rewrite Hes2; set_solver|done]].
  destruct (run_child _ _ _ _ He1 Hca) as (h' & -> & Hra). destruct (run_child _ _ _ _ He2 Hcb) as (h'' & [= <-] & Hrb).
  pose proof Hok1 as (_ & (Hr1 & _) & _)%items_ok_app. pose proof Hok2 as (Hr2 & _).
  pose proof (IH h' (Nat.lt_succ_diag_r h') ca cb r1 r2 Hra Hrb Hr1 Hr2) as Hm.
  destruct (mergeNodes ca cb) as [m|err]; simpl in Hm |- *.
  2: { destruct Hm as [Hm|Hm]; [left; eapply (child_partial _ ea)|right; eapply (child_partial _ eb)];
       try done; [rewrite Hes1|rewrite Hes2]; set_solver. }
  destruct Hm as [Hm Hmp]. rewrite update_middle by done.
  change (es1 ++ childEntry m :: eb :: es2) with (es1 ++ [childEntry m] ++ [eb] ++ es2).
  rewrite (assoc_L app es1), slices_Delete_middle by (rewrite length_app; simpl; lia). rewrite <-app_assoc. split.
  - replace (l1 ++ l2) with (flatten (its1 ++ IRun (r1 ++ r2) :: its2)).
    2: { rewrite <-Hl1, <-Hl2, !flatten_app, !flatten_cons. simpl. by rewrite app_nil_r, <-!app_assoc. }
    apply rep_newNode; [done|by apply items_ok_join|]. apply nrep_app; [done|]. constructor; [by eapply entry_new_child|done].
  - intros [_ Hc1]%IsPartial_false [_ Hc2]%IsPartial_false. rewrite Hes1 in Hc1. rewrite Hes2 in Hc2.
    apply Forall_app in Hc1 as [? [Hpa _]%Forall_cons]. apply Forall_cons in Hc2 as [Hpb ?].
    unfold entry_partial in Hpa, Hpb. rewrite Hca in Hpa. rewrite Hcb in Hpb.
    apply IsPartial_newNode. apply Forall_app. split; [done|]. constructor; [by apply Hmp|done].
Qed.

(** ** Taking a value out of a node *)

Definition shrink_ok (h : nat) (l : list kv) (n : Node) (res : result mst_err Node) : Prop :=
  match res with
  | Ok n' => rep h n' l ∧ Dirty n' = true ∧ (IsPartial n = false → IsPartial n' = false)
  | Err _ => IsPartial n = true
  end.

Lemma is_child_at_run h es1 its1 es2 e it its2 i :
  nrep h es1 its1 → entry_rep (sub_rep h) (sub_link h) e it → nrep h es2 its2 → i = length es1 →
  is_child_at (es1 ++ e :: es2) i = is_run it.
Proof.
  intros H1 He H2 Hi. unfold is_child_at. rewrite lookup_middle by done.
  destruct it; [by apply entry_val in He as (_ & -> & _)|by apply entry_run in He as [_ ->]].
Qed.

Lemma remove_entry_spec h n its1 key v its2 :
  Stub n = false → Height n = Z.of_nat h → Dirty n = true →
  nrep h (Entries n) (its1 ++ IVal key v :: its2) → items_ok (Z.of_nat h) (its1 ++ IVal key v :: its2) →
  shrink_ok h (flatten its1 ++ flatten its2) n (remove_entry n (length its1)).
Proof.
  intros Hst Hhn Hd He Hok. destruct (nrep_middle _ _ _ _ _ He) as (es1 & e & es2 & Hes & Hlen & H1 & He0 & H2).
  apply items_ok_app in Hok as (Hok1 & (Hk & Hok2) & _). unfold remove_entry. rewrite Hes.
  assert ((last_run its1 && head_run its2) = false →
    shrink_ok h (flatten its1 ++ flatten its2) n (Ok (set_Entries (slices_Delete (es1 ++ e :: es2) (length its1) (length its1 + 1)) n))) as Hplain.
  { intros Hadj. change (es1 ++ e :: es2) with (es1 ++ [e] ++ es2). rewrite slices_Delete_middle by (simpl; lia || done). split.
    - rewrite <-flatten_app. apply rep_dirty; simpl; try done; [by apply items_ok_app|by apply nrep_app].
    - split; [done|]. intros [_ Hcm]%IsPartial_false. rewrite Hes in Hcm. apply Forall_app in Hcm as [? [_ ?]%Forall_cons].
      apply IsPartial_false. split; [done|]. by apply Forall_app. }
  destruct its1 as [|it1 its1 _] using rev_ind; [by apply Hplain|].
  destruct its2 as [|it2 its2].
  { replace (length (its1 ++ [it1]) + 1 <? length (es1 ++ e :: es2))%nat with false.
    - rewrite andb_false_r. apply Hplain. by rewrite andb_false_r.
    - inversion H2; subst. symmetry. apply Nat.ltb_ge. rewrite length_app. simpl. lia. }
  destruct (nrep_snoc _ _ _ _ H1) as (es1' & e1 & -> & Hlen1 & H1' & He1).
  apply Forall2_cons_inv_r in H2 as (e2 & es2' & He2 & H2' & ->).
  assert (last_run (its1 ++ [it1]) = is_run it1) as Hlr by (unfold last_run; by rewrite last_snoc).
  replace ((0 <? length (its1 ++ [it1]))%nat && (length (its1 ++ [it1]) + 1 <? length ((es1' ++ [e1]) ++ e :: e2 :: es2'))%nat) with true.
  2: { symmetry. apply andb_true_iff. rewrite !Nat.ltb_lt, <-Hlen, !length_app. simpl. lia. }
  rewrite <-Hlen, length_app in *. cbn [length] in *. replace (length es1' + 1 - 1)%nat with (length es1') by lia.
  replace ((es1' ++ [e1]) ++ e :: e2 :: es2') with (es1' ++ e1 :: e :: e2 :: es2') in * by by rewrite <-app_assoc.
  rewrite (is_child_at_run h es1' its1 _ e1 it1 (IVal key v :: it2 :: its2)); [|done|done|constructor; [done|by constructor]|done].
  replace (es1' ++ e1 :: e :: e2 :: es2') with ((es1' ++ [e1; e]) ++ e2 :: es2') at 1 by by rewrite <-app_assoc.
  rewrite (is_child_at_run h (es1' ++ [e1; e]) (its1 ++ [it1; IVal key v]) es2' e2 it2 its2);
    [|apply nrep_app; [done|constructor; [done|constructor; [done|by apply Forall2_nil]]]|done|done|rewrite length_app; simpl; lia].
  cbn [andb]. destruct (is_run it1 && is_run it2) eqn:Hrr; [|apply Hplain; by rewrite Hlr].
  destruct it1 as [|r1], it2 as [|r2]; try done. clear Hrr Hplain.
  assert (nth_child id (es1' ++ e1 :: e :: e2 :: es2') (length es1' + 1 + 1) = Child e2) as ->.
  { replace (es1' ++ e1 :: e :: e2 :: es2') with ((es1' ++ [e1; e]) ++ e2 :: es2') by by rewrite <-app_assoc.
    rewrite nth_child_middle by (rewrite length_app; simpl; lia). by destruct (Child e2). }
  rewrite nth_child_middle by done. unfold id.
  assert (e1 ∈ Entries n ∧ e2 ∈ Entries n) as [Hin1 Hin2] by (rewrite Hes; set_solver).
  destruct (Child e1) as [c1|] eqn:Hc1; [|by eapply (run_absent h r1)].
  destruct (Child e2) as [c2|] eqn:Hc2; [|by eapply (run_absent h r2)].
  destruct (run_child _ _ _ _ He1 Hc1) as (h' & -> & Hr1). destruct (run_child _ _ _ _ He2 Hc2) as (h'' & [= <-] & Hr2).
  pose proof Hok1 as (_ & (Hn1 & _) & _)%items_ok_app. pose proof Hok2 as (Hn2 & _).
  pose proof (mergeNodes_spec h' c1 c2 r1 r2 Hr1 Hr2 Hn1 Hn2) as Hm.
  destruct (mergeNodes c1 c2) as [m|err]; [|destruct Hm; [by eapply (child_partial n e1)|by eapply (child_partial n e2)]]. destruct Hm as [Hm Hmp].
  replace (es1' ++ e1 :: e :: e2 :: es2') with ((es1' ++ [e1]) ++ [e; e2] ++ es2') by by rewrite <-app_assoc.
  rewrite slices_Delete_middle by (rewrite length_app; simpl; lia). rewrite <-app_assoc. cbn [app].
  rewrite update_middle by done. split; [|split; [done|]].
  - replace (flatten (its1 ++ [IRun r1]) ++ flatten (IRun r2 :: its2)) with (flatten (its1 ++ IRun (r1 ++ r2) :: its2)).
    2: { rewrite !flatten_app, !flatten_cons. simpl. by rewrite app_nil_r, <-!app_assoc. }
    apply rep_dirty; simpl; try done; [by apply items_ok_join|]. apply nrep_app; [done|].
    constructor; [by eapply entry_new_child|done].
  - intros [_ Hcm]%IsPartial_false. rewrite Hes in Hcm. apply Forall_app in Hcm as [? [Hp1 [_ [Hp2 ?]%Forall_cons]%Forall_cons]%Forall_cons].
    unfold entry_partial in Hp1, Hp2. rewrite Hc1 in Hp1. rewrite Hc2 in Hp2. apply IsPartial_false. split; [done|].
    apply Forall_app. split; [done|]. constructor; [by apply Hmp|done].
Qed.

(** ** [remove] *)

(** The part of [remove] between finding the entry and trimming the top. *)
Definition remove_here (n : Node) (idx : nat) (key : string) : result mst_err Node :=
  match remove_entry (set_Dirty true n) idx with
  | Err err => Err err
  | Ok n =>
      let '(n, r) := proveMutation n key in
      match ignore_partial r with Some err => Err err | None => Ok n end
  end.

Lemma remove_unfold n key height :
  remove n key height =
  if Stub n then Err ErrPartialTree
  else
    let top := height <? 0 in
    let height := if height <? 0 then HeightForKey key else height in
    if Height n <? height then Ok (n, None)
    else if height <? Height n then
      match findExistingChild n key with
      | None => Ok (n, None)
      | Some idx => removeChild (nth_child remove (Entries n) idx) n idx key height
      end
    else
      match findExistingEntry n key with
      | None => Ok (n, None)
      | Some idx =>
          let prev := match Entries n !! idx with Some e => Value e | None => None end in
          match remove_here n idx key with
          | Err err => Err err
          | Ok n' =>
              if top then match trim_top n' with Err err => Err err | Ok n'' => Ok (n'', prev) end
              else Ok (n', prev)
          end
      end.
Proof.
  destruct n as [es0 h0 d0 c0 []]; [done|]. cbn [remove Stub]. cbv zeta.
  destruct (Height _ <? _); [done|]. destruct (_ <? Height _).
  - destruct (findExistingChild _ key); [|done]. by rewrite child_closures_lookup.
  - destruct (findExistingEntry _ key); [|done]. unfold remove_here. destruct (remove_entry _ _); [|done].
    destruct (proveMutation _ _) as [? r]. by destruct (ignore_partial r).
Qed.

Definition remove_ok (h : nat) (l : list kv) (key : string) (n : Node) (res : result mst_err (Node * option cid)) : Prop :=
  match res with
  | Ok (n', prev) =>
      prev = kv_lookup key l ∧ rep h n' (kv_delete key l) ∧ (IsPartial n = false → IsPartial n' = false)
  | Err _ => IsPartial n = true
  end.

(** A value found in a node, with what is around it. *)
Lemma find_entry_cut h n l key :
  rep h n l → sorted l → HeightForKey key = Z.of_nat h →
  match findExistingEntry n key with
  | None => kv_lookup key l = None
  | Some i =>
      ∃ its1 v its2, groups (Z.of_nat h) l = its1 ++ IVal key v :: its2 ∧ i = length its1 ∧
        match Entries n !! i with Some e => Value e | None => None end = Some v ∧
        below key (flatten its1) ∧ above key (flatten its2) ∧ l = flatten its1 ++ (key, v) :: flatten its2
  end.
Proof.
  intros Hr Hs Hh. pose proof Hr as (_ & _ & He & _)%rep_unfold.
  pose proof (findExistingEntry_loop_spec h key (Entries n) _ 0 He) as Hfe. rewrite groups_flatten in Hfe.
  specialize (Hfe Hs (λ run Hin, run_lookup_none _ l run key Hh Hin)). unfold findExistingEntry.
  destruct (findExistingEntry_loop 0 (Entries n) key) as [i|]; [|done].
  destruct Hfe as (its1 & v & its2 & Hg & ->). exists its1, v, its2. rewrite Hg in He.
  destruct (nrep_middle _ _ _ _ _ He) as (es1 & e & es2 & Hes & Hlen & H1 & He0 & H2).
  assert (l = flatten its1 ++ (key, v) :: flatten its2) as Hl by by rewrite (groups_app_eq _ _ _ _ Hg).
  rewrite Hl in Hs. apply sorted_app in Hs as (_ & (Ha & _)%sorted_cons & Hb).
  split; [done|]. split; [done|]. split; [|split; [|done]].
  - simpl. rewrite Hes, lookup_middle by done. by apply entry_val in He0 as (_ & _ & _ & ? & _).
  - eapply Forall_impl; [exact Hb|]. intros p Hp. by apply Forall_cons in Hp as [? _].
Qed.

Lemma remove_here_spec h n l key its1 v its2 :
  rep h n l → sorted l → groups (Z.of_nat h) l = its1 ++ IVal key v :: its2 →
  below key (flatten its1) → above key (flatten its2) → l = flatten its1 ++ (key, v) :: flatten its2 →
  shrink_ok h (kv_delete key l) n (remove_here n (length its1) key).
Proof.
  intros Hr Hs Hg Hb Ha Hl. pose proof Hr as (Hst & Hhn & He & _)%rep_unfold. pose proof (groups_ok (Z.of_nat h) l) as Hok.
  rewrite Hg in He, Hok. pose proof (remove_entry_spec h (set_Dirty true n) its1 key v its2 Hst Hhn eq_refl He Hok) as Hre.
  assert (kv_delete key l = flatten its1 ++ flatten its2) as -> by by rewrite Hl, kv_delete_below, kv_delete_here.
  assert (IsPartial (set_Dirty true n) = IsPartial n) as Hpd by by rewrite !IsPartial_unfold.
  unfold remove_here. destruct (remove_entry (set_Dirty true n) (length its1)) as [n1|err]; [|simpl in *; congruence].
  destruct Hre as (Hr1 & Hd1 & Hp1). rewrite Hpd in Hp1.
  destruct (proveMutation_spec h n1 (flatten its1 ++ flatten its2) key) as [[Hr2 Hp2 Hd2 _] Herr]; [done|..].
  { rewrite Hl in Hs. apply sorted_app in Hs as (? & (_ & ?)%sorted_cons & _). by apply (below_above_app key). }
  { by rewrite kv_lookup_below, kv_lookup_above. }
  destruct (proveMutation n1 key) as [n2 r]. simpl in *. destruct (ignore_partial r) as [err|] eqn:Hig; simpl.
  - destruct (IsPartial n) eqn:E; [done|]. rewrite (Hp1 eq_refl) in Herr. discriminate Herr. by destruct r.
  - split; [done|]. split; [by destruct (Dirty n2); [|by rewrite (Hd2 eq_refl) in Hd1]|]. intros. rewrite Hp2. auto.
Qed.

Lemma removeChild_spec h n l key rec its1 run its2 es1 e es2 :
  rep (S h) n l → groups (Z.of_nat (S h)) l = its1 ++ IRun run :: its2 →
  Entries n = es1 ++ e :: es2 → nrep (S h) es1 its1 → nrep (S h) es2 its2 →
  entry_rep (sub_rep (S h)) (sub_link (S h)) e (IRun run) → below key (flatten its1) → above key (flatten its2) →
  match rec, Child e with
  | Some f, Some c => remove_ok h run key c (f key (HeightForKey key))
  | None, None => True
  | _, _ => False
  end →
  remove_ok (S h) l key n (removeChild rec n (length es1) key (HeightForKey key)).
Proof.
  intros Hr Hg Hes H1 H2 He0 Hb Ha Hrec. pose proof Hr as (Hst & Hhn & He & _)%rep_unfold.
  pose proof (groups_ok (Z.of_nat (S h)) l) as Hok. rewrite Hg in He, Hok.
  assert (e ∈ Entries n) as Hin by (rewrite Hes; set_solver).
  assert (l = flatten its1 ++ run ++ flatten its2) as Hl by by rewrite (groups_app_eq _ _ _ _ Hg).
  assert (kv_lookup key l = kv_lookup key run) as Hlk by by rewrite Hl, kv_lookup_below, kv_lookup_app_l.
  assert (kv_delete key l = flatten its1 ++ kv_delete key run ++ flatten its2) as Hkd by by rewrite Hl, kv_delete_below, kv_delete_app_l.
  unfold removeChild. destruct rec as [f|].
  2: { destruct (Child e) eqn:Hc; [done|]. by eapply run_absent. }
  destruct (Child e) as [c|] eqn:Hc; [|done].
  destruct (f key (HeightForKey key)) as [[c' [pv|]]|err]; [| |by eapply child_partial].
  - destruct Hrec as (Hpv & Hc' & Hcp). rewrite (rep_empty _ _ _ Hc').
    destruct (decide (kv_delete key run = [])) as [Hnil|Hne].
    + rewrite bool_decide_true by done. cbn [negb]. split; [congruence|]. rewrite Hes.
      change (es1 ++ e :: es2) with (es1 ++ [e] ++ es2). rewrite slices_Delete_middle by (simpl; lia || done). split.
      * rewrite Hkd, Hnil, app_nil_l, <-flatten_app. apply items_ok_app in Hok as (Hok1 & (_ & _ & Hh & Hok2) & _).
        apply rep_dirty; simpl; try done; [|by apply nrep_app]. apply items_ok_app. rewrite Hh, andb_false_r. done.
      * intros [_ Hcm]%IsPartial_false. rewrite Hes in Hcm. apply Forall_app in Hcm as [? [_ ?]%Forall_cons].
        apply IsPartial_false. split; [done|]. by apply Forall_app.
    + rewrite bool_decide_false by done. cbn [negb]. split; [congruence|]. rewrite Hes, update_middle by done. split.
      * replace (kv_delete key l) with (flatten (its1 ++ IRun (kv_delete key run) :: its2)) by by rewrite Hkd, flatten_app.
        apply rep_dirty; simpl; try done.
        -- eapply items_replace; [exact Hok|done|]. repeat split; [done|].
           apply items_ok_app in Hok as (_ & (_ & Hf & _) & _). eapply Forall_sublist'; [|exact Hf].
           clear. induction run as [|p run IH]; simpl; [done|]. destruct (String.eqb key p.1); by constructor.
        -- apply nrep_app; [done|]. constructor; [|done]. destruct He0 as (? & ? & _). by eapply entry_new_child.
      * intros [_ Hcm]%IsPartial_false. rewrite Hes in Hcm. apply Forall_app in Hcm as [Hm1 [Hme Hm2]%Forall_cons].
        unfold entry_partial in Hme. rewrite Hc in Hme. apply IsPartial_false. split; [done|].
        apply Forall_app. split; [done|]. constructor; [|done]. by apply Hcp.
  - destruct Hrec as (Hpv & _). split; [congruence|]. rewrite kv_delete_none by congruence. done.
Qed.

Lemma remove_inner h n l key :
  rep h n l → sorted l → fits (Z.of_nat h) l → remove_ok h l key n (remove n key (HeightForKey key)).
Proof.
  revert n l. induction h as [h IH] using (well_founded_induction lt_wf). intros n l Hr Hs Hf.
  pose proof (HeightForKey_nonneg key) as Hnn. rewrite remove_unfold. cbv zeta.
  replace (HeightForKey key <? 0) with false by (symmetry; apply Z.ltb_ge; lia).
  pose proof Hr as (Hst & Hhn & He & _)%rep_unfold. rewrite Hst, Hhn.
  assert (kv_lookup key l = None → remove_ok h l key n (Ok (n, None))) as Hnone.
  { intros Hl. split; [done|]. by rewrite kv_delete_none. }
  destruct (Z.of_nat h <? HeightForKey key) eqn:E1; bool_to_prop; [apply Hnone; by eapply fits_lookup_none|].
  destruct (HeightForKey key <? Z.of_nat h) eqn:E2; bool_to_prop.
  - destruct h as [|h]; [lia|]. pose proof (find_child_gap h n l key Hr Hs ltac:(lia)) as Hfc.
    destruct (findExistingChild n key) as [i|]; [|by apply Hnone].
    destruct Hfc as (its1 & run & its2 & es1 & e & es2 & Hg & -> & Hes & H1 & H2 & He0 & Hb & Ha).
    eapply removeChild_spec; [done..|]. rewrite Hes, nth_child_middle by done. destruct (Child e) as [c|] eqn:Hc; [|done].
    destruct (run_child _ _ _ _ He0 Hc) as (h' & [= <-] & Hcr).
    apply IH; [lia|done|by eapply sorted_gap_run|by eapply fits_gap_run].
  - pose proof (find_entry_cut h n l key Hr Hs ltac:(lia)) as Hfe.
    destruct (findExistingEntry n key) as [i|]; [|by apply Hnone].
    destruct Hfe as (its1 & v & its2 & Hg & -> & -> & Hb & Ha & Hl).
    pose proof (remove_here_spec _ _ _ _ _ _ _ Hr Hs Hg Hb Ha Hl) as Hre.
    destruct (remove_here n (length its1) key) as [n'|err]; [|done]. destruct Hre as (Hr' & _ & Hp). split; [|done].
    rewrite Hl, kv_lookup_below by done. simpl. by rewrite String.eqb_refl.
Qed.

(** ** Trimming the top *)

(** The top of a canonical tree has a value, or the tree is empty. *)
Definition canonical (h : nat) (l : list kv) : Prop := l = [] ∨ Exists (λ p, HeightForKey p.1 = Z.of_nat h) l.

Definition trim_ok (h : nat) (l : list kv) (n : Node) (res : result mst_err Node) : Prop :=
  match res with
  | Ok n' =>
      ∃ h', root_rep h' n' l ∧ fits (Z.of_nat h') l ∧ (Stub n' = false → canonical h' l) ∧
        (IsPartial n = false → IsPartial n' = false)
  | Err _ => IsPartial n = true
  end.

Lemma trim_top_unfold n :
  trim_top n =
  match Entries n with
  | [e] =>
      if negb (IsChild e) then Ok n
      else
        match Child e with
        | None =>
            match ChildCID e with
            | None => Err ErrPartialTree
            | Some c => Ok (mkNode [] (Height n - 1) false (Some c) true)
            end
        | Some c => trim_top c
        end
  | _ => Ok n
  end.
Proof. by destruct n. Qed.

Lemma trim_done h n l : rep h n l → fits (Z.of_nat h) l → canonical h l → trim_ok h l n (Ok n).
Proof. intros Hr Hf Hc. exists h. split; [by left|]. done. Qed.

Lemma items_canonical h its : items_ok (Z.of_nat h) its → (∀ run, its ≠ [IRun run]) → canonical h (flatten its).
Proof.
  intros Hok Hne. destruct its as [|[k v|run] its]; [by left|right; by constructor; destruct Hok|].
  destruct its as [|[k v|] its]; [by destruct (Hne run)| |by destruct Hok as (_ & _ & ? & _)].
  right. rewrite !flatten_cons. apply Exists_app. right. constructor. simpl in Hok. naive_solver.
Qed.

Lemma trim_top_spec h n l : rep h n l → fits (Z.of_nat h) l → trim_ok h l n (trim_top n).
Proof.
  revert n. induction h as [h IH] using (well_founded_induction lt_wf). intros n Hr Hf.
  pose proof Hr as (Hst & Hhn & He & _)%rep_unfold. pose proof (groups_ok (Z.of_nat h) l) as Hok.
  pose proof (groups_flatten (Z.of_nat h) l) as Hl. rewrite trim_top_unfold.
  assert ((∀ run, groups (Z.of_nat h) l ≠ [IRun run]) → trim_ok h l n (Ok n)) as Hdone.
  { intros Hne. apply trim_done; [done|done|]. rewrite <-Hl. by apply items_canonical. }
  destruct (Entries n) as [|e [|e2 es]] eqn:Hes.
  - apply Forall2_nil_inv_l in He. apply Hdone. by rewrite He.
  - apply Forall2_cons_inv_l in He as (it & its & He0 & He & Hg). apply Forall2_nil_inv_l in He as ->.
    rewrite Hg in Hok, Hl, Hdone. destruct it as [k v|run]; [apply entry_val in He0 as (_ & -> & _); by apply Hdone|]. clear Hdone.
    pose proof (entry_run _ _ _ He0) as [_ ->]. cbn [negb]. rewrite flatten_cons in Hl. simpl in Hl. rewrite app_nil_r in Hl. subst run.
    assert (fits (Z.of_nat h - 1) l) as Hf'.
    { apply (fits_run _ [IRun l]); [done| |set_solver]. rewrite flatten_cons. simpl. by rewrite app_nil_r. }
    assert (e ∈ Entries n) as Hin by (rewrite Hes; set_solver).
    destruct (Child e) as [c|] eqn:Hc.
    + destruct (run_child _ _ _ _ He0 Hc) as (h' & -> & Hcr).
      pose proof (IH h' (Nat.lt_succ_diag_r h') c Hcr) as Ht. replace (Z.of_nat (S h') - 1) with (Z.of_nat h') in Hf' by lia.
      specialize (Ht Hf'). destruct (trim_top c) as [n'|err]; [|by eapply child_partial].
      destruct Ht as (h2 & H1 & H2 & H3 & H4). exists h2. split; [done|]. split; [done|]. split; [done|].
      intros Hp. apply H4. destruct (IsPartial c) eqn:Ep; [|done]. by rewrite (child_partial _ _ _ Hin Hc Ep) in Hp.
    + pose proof (run_absent _ _ _ _ He0 Hin Hc) as Hpart. destruct He0 as (_ & _ & Hch). rewrite Hc in Hch.
      destruct Hch as (cc & -> & Hcc). destruct h as [|h]; [done|]. exists h. split; [|split; [|split]].
      * right. left. repeat split. by exists cc.
      * by replace (Z.of_nat (S h) - 1) with (Z.of_nat h) in Hf' by lia.
      * done.
      * congruence.
  - apply Hdone. intros run Hg. rewrite Hg in He. by inversion He as [|? ? ? ? ? He'']; inversion He''.
Qed.

Definition remove_top_ok (h : nat) (l : list kv) (key : string) (n : Node) (res : result mst_err (Node * option cid)) : Prop :=
  match res with
  | Ok (n', prev) =>
      prev = kv_lookup key l ∧
      ∃ h', root_rep h' n' (kv_delete key l) ∧ fits (Z.of_nat h') (kv_delete key l) ∧
        (Stub n' = false → canonical h l → canonical h' (kv_delete key l)) ∧
        (IsPartial n = false → IsPartial n' = false)
  | Err _ => IsPartial n = true
  end.

Lemma kv_delete_forall (P : kv → Prop) key l : Forall P l → Forall P (kv_delete key l).
Proof.
  intros Hl. eapply Forall_sublist'; [|exact Hl]. clear. induction l as [|p l IH]; simpl; [done|].
  destruct (String.eqb key p.1); by constructor.
Qed.

(** A key of a lower layer leaves the top as it is. *)
Lemma canonical_delete h key l : HeightForKey key ≠ Z.of_nat h → canonical h l → canonical h (kv_delete key l).
Proof.
  intros Hne [->|He]; [by left|]. right. induction He as [p l Hp|p l He IH]; simpl.
  - destruct (String.eqb_spec key p.1) as [->|]; [done|]. by left.
  - destruct (String.eqb key p.1); [done|]. by right.
Qed.

Lemma remove_top_spec h n l key :
  rep h n l → sorted l → fits (Z.of_nat h) l → remove_top_ok h l key n (remove n key (-1)).
Proof.
  intros Hr Hs Hf. pose proof (HeightForKey_nonneg key) as Hnn.
  pose proof (remove_inner h n l key Hr Hs Hf) as Hin. rewrite remove_unfold in Hin |- *. cbv zeta in *.
  change (-1 <? 0) with true. replace (HeightForKey key <? 0) with false in Hin by (symmetry; apply Z.ltb_ge; lia).
  pose proof Hr as (Hst & Hhn & He & _)%rep_unfold. rewrite Hst, Hhn in *.
  assert (∀ res, HeightForKey key ≠ Z.of_nat h → remove_ok h l key n res → remove_top_ok h l key n res) as Hkeep.
  { intros [[n' pv]|err] Hne; [|done]. intros (H1 & H2 & H3). split; [done|]. exists h. split; [by left|].
    split; [by apply kv_delete_forall|]. split; [|done]. intros _. by apply canonical_delete. }
  destruct (Z.of_nat h <? HeightForKey key) eqn:E1; bool_to_prop; [apply Hkeep; [lia|done]|].
  destruct (HeightForKey key <? Z.of_nat h) eqn:E2; bool_to_prop; [apply Hkeep; [lia|done]|]. clear Hin Hkeep.
  pose proof (find_entry_cut h n l key Hr Hs ltac:(lia)) as Hfe.
  destruct (findExistingEntry n key) as [i|].
  2: { split; [done|]. exists h. rewrite kv_delete_none by done. split; [by left|]. done. }
  destruct Hfe as (its1 & v & its2 & Hg & -> & -> & Hb & Ha & Hl).
  pose proof (remove_here_spec _ _ _ _ _ _ _ Hr Hs Hg Hb Ha Hl) as Hre.
  destruct (remove_here n (length its1) key) as [n'|err]; [|done]. destruct Hre as (Hr' & _ & Hp).
  pose proof (trim_top_spec h n' (kv_delete key l) Hr' ltac:(by apply kv_delete_forall)) as Ht.
  destruct (trim_top n') as [n''|err]; simpl in Ht.
  - destruct Ht as (h' & H1 & H2 & H3 & H4). split.
    + rewrite Hl, kv_lookup_below by done. simpl. by rewrite String.eqb_refl.
    + exists h'. split; [done|]. split; [done|]. split; [|auto]. intros. by apply H3.
  - simpl. destruct (IsPartial n); [done|]. by rewrite (Hp eq_refl) in Ht.
Qed.
End Remove.
