(* ===== verification/MstCid.v ===== *)
(** * The CIDs of a Merkle search tree

    [writeBlocks] ([src/atproto/repo/mst/encoding.go]) computes CIDs bottom up,
    skipping what is not dirty.  On a node that stands for a list the result is
    the CID of the tree of the list, whatever was cached, and every block that
    was skipped was already accounted for. *)

From S2P Require Import Prelude GoStrings Sha256 Cbor Mst MstData MstSpec MstSearch MstInsert MstRemove.
Local Open Scope Z_scope.

(** ** Block data depends on keys, values and links alone *)

Definition same_data (e e' : Entry) : Prop :=
  Key e = Key e' ∧ Value e = Value e' ∧ ChildCID e = ChildCID e' ∧ IsChild e = IsChild e'.

Lemma NodeData_loop_same i es es' d prev :
  Forall2 same_data es es' → NodeData_loop i es d prev = NodeData_loop i es' d prev.
Proof.
  intros Hs. revert i d prev. induction Hs as [|e e' es es' (Hk & Hv & Hc & Hi) _ IH]; intros i d prev; simpl; [done|].
  assert (IsValue e = IsValue e') as Hiv by (unfold IsValue; by rewrite Hk, Hv).
  rewrite Hk, Hv, Hc, Hi, Hiv. destruct (_ && _); [apply IH|]. destruct (if IsChild e' then _ else _); simpl; [|done].
  destruct (Value e'); [destruct (IsValue e')|]; apply IH.
Qed.

Section Cid.
Context `{CborGen, CidLib}.

(** The block of the tree at layer [h] over [l]. *)
Definition mstData (h : nat) (l : list kv) : result mst_err NodeData :=
  es ← canon_entries (sub_CID h) (groups (Z.of_nat h) l); Node_NodeData (newNode 0 es).

Lemma mstCID_data h l : mstCID h l = (nd ← mstData h l; data_CID nd).
Proof. rewrite mstCID_unfold. unfold mstData. by destruct (canon_entries _ _). Qed.

(** The entries of a node whose children have their CIDs. *)
Definition linked (h : nat) (e : Entry) (it : item) : Prop :=
  match it with
  | IVal k v => k ≠ EmptyString ∧ Key e = k ∧ Value e = Some v ∧ ChildCID e = None ∧ Child e = None
  | IRun run => Key e = EmptyString ∧ Value e = None ∧ ∃ cc, ChildCID e = Some cc ∧ sub_CID h run = Ok cc
  end.

Lemma linked_canon h es its :
  Forall2 (linked h) es its → ∃ es', canon_entries (sub_CID h) its = Ok es' ∧ Forall2 same_data es es'.
Proof.
  induction 1 as [|e it es its He _ (es' & IH & Hs)]; simpl; [by exists []|].
  destruct it as [k v|run].
  - destruct He as (Hk & H1 & H2 & H3 & H4). rewrite IH. simpl. exists (valueEntry k v :: es'). split; [done|].
    constructor; [|done]. unfold same_data, IsChild. rewrite H1, H2, H3, H4. done.
  - destruct He as (H1 & H2 & cc & H3 & H4). rewrite H4, IH. simpl. exists (linkEntry cc :: es'). split; [done|].
    constructor; [|done]. unfold same_data, IsChild. rewrite H1, H2, H3. simpl. by rewrite orb_true_r.
Qed.

Lemma linked_data h n l : Forall2 (linked h) (Entries n) (groups (Z.of_nat h) l) → mstData h l = Node_NodeData n.
Proof.
  intros (es' & Hc & Hs)%linked_canon. unfold mstData. rewrite Hc. simpl. unfold Node_NodeData. simpl.
  symmetry. by apply NodeData_loop_same.
Qed.

Lemma canon_entries_fail rec its run :
  IRun run ∈ its → (∀ c, rec run ≠ Ok c) → ∀ es, canon_entries rec its ≠ Ok es.
Proof.
  intros Hin Hf. induction its as [|[k v|r] its IH]; simpl; intros es Heq; [by apply elem_of_nil in Hin|..].
  - apply elem_of_cons in Hin as [?|Hin]; [done|]. apply result_bind_Ok in Heq as (es' & He & _). by eapply IH.
  - apply result_bind_Ok in Heq as (c & Hc & (es' & He & _)%result_bind_Ok).
    apply elem_of_cons in Hin as [[= ->]|Hin]; [by eapply Hf|by eapply IH].
Qed.

Lemma mstCID_sub_fail h l run :
  IRun run ∈ groups (Z.of_nat h) l → (∀ c, sub_CID h run ≠ Ok c) → ∀ c, mstCID h l ≠ Ok c.
Proof.
  intros Hin Hf c Heq. rewrite mstCID_unfold in Heq. apply result_bind_Ok in Heq as (es & He & _).
  by eapply canon_entries_fail.
Qed.

(** ** [rep] under a stronger link property *)

Lemma rep_weaken (P Q : LinkProp) h n l :
  (∀ h l, P h l → Q h l) → @rep _ _ P h n l → @rep _ _ Q h n l.
Proof.
  intros HPQ. assert (∀ h c l, @link_ok (@is_link _ _ P h) c l → @link_ok (@is_link _ _ Q h) c l) as Hlk.
  { intros h0 c l0 (cc & Hc & Hm & Hp). exists cc. split; [done|]. split; [done|]. by apply HPQ. }
  revert n l. induction h as [h IH] using (well_founded_induction lt_wf). intros n l (H1 & H2 & H3 & H4)%rep_unfold.
  apply rep_unfold. split; [done|]. split; [done|]. split; [|intros Hd; by apply Hlk, H4].
  eapply Forall2_impl; [exact H3|]. intros e [k v|run]; [done|]. intros (Hk & Hv & Hc). split; [done|]. split; [done|].
  destruct h as [|h]; [destruct (Child e); [by destruct Hc|by destruct Hc as (? & _ & [])]|].
  destruct (Child e) as [c|]; [|by apply Hlk]. destruct Hc as [Hc Hl]. split; [apply IH; [lia|done]|].
  intros. apply Hlk. auto.
Qed.

(** ** [writeBlocks] *)

Section Write.
Context {Store : Type} (bs : option (cid → string → Store → result string Store)).
(** What the store says of a tree: kept by writes, and true of a tree once its
    children have it and its own block has been written. *)
Context (holds : Store → LinkProp).
Hypothesis holds_put : ∀ put st st' h l b c nd, bs = Some put → put c b st = Ok st' → NodeData_Bytes nd = Ok (b, c) →
  holds st h l → holds st' h l.
Hypothesis holds_new : ∀ put st st' h l b c nd, bs = Some put → put c b st = Ok st' → mstData h l = Ok nd →
  NodeData_Bytes nd = Ok (b, c) →
  (∀ h' run, h = S h' → IRun run ∈ groups (Z.of_nat h) l → holds st h' run) → holds st' h l.
Hypothesis holds_none : bs = None → ∀ st h l, holds st h l.

(** The store, if there is one, takes every block. *)
Definition never_fails : Prop := ∀ put c b st, bs = Some put → ∃ st', put c b st = Ok st'.

Definition le_store (st st' : Store) : Prop := ∀ h l, holds st h l → holds st' h l.

Definition write_ok (h : nat) (l : list kv) (st : Store) (res : Node * Store * result mst_err cid) : Prop :=
  let '(n', st', r) := res in
  le_store st st' ∧
  match r with
  | Ok c => mstCID h l = Ok c ∧ holds st' h l ∧ @rep _ _ (holds st') h n' l ∧ Dirty n' = false ∧ CID n' = Some c
  | Err _ => never_fails → ∀ c, mstCID h l ≠ Ok c
  end.

(** An entry after the loop: it stands for its item and its child has a CID. *)
Definition entry_clean (st : Store) (h : nat) (e : Entry) (it : item) : Prop :=
  @entry_rep (@sub_rep _ _ (holds st) h) (@sub_link _ _ (holds st) h) e it ∧
  match it with IVal _ _ => True | IRun run => link_ok (@sub_link _ _ (holds st) h) (ChildCID e) run end.

Lemma sub_link_mono st st' h l cc : le_store st st' → @sub_link _ _ (holds st) h l cc → @sub_link _ _ (holds st') h l cc.
Proof. intros Hle. destruct h as [|h]; [done|]. intros [? ?]. split; [done|]. by apply Hle. Qed.

Lemma link_mono st st' h c l :
  le_store st st' → link_ok (@sub_link _ _ (holds st) h) c l → link_ok (@sub_link _ _ (holds st') h) c l.
Proof. intros Hle (cc & Hc & Hl). exists cc. split; [done|]. by eapply sub_link_mono. Qed.

Lemma entry_rep_mono st st' h e it :
  le_store st st' → @entry_rep (@sub_rep _ _ (holds st) h) (@sub_link _ _ (holds st) h) e it →
  @entry_rep (@sub_rep _ _ (holds st') h) (@sub_link _ _ (holds st') h) e it.
Proof.
  intros Hle. destruct it as [k v|run]; [done|]. intros (Hk & Hv & Hc). split; [done|]. split; [done|].
  destruct (Child e) as [c|]; [|by eapply link_mono]. destruct Hc as [Hc Hl]. split.
  - destruct h as [|h]; [done|]. by eapply rep_weaken.
  - intros. eapply link_mono; [done|]. auto.
Qed.

Lemma entry_clean_mono st st' h e it : le_store st st' → entry_clean st h e it → entry_clean st' h e it.
Proof.
  intros Hle [H1 H2]. split; [by eapply entry_rep_mono|]. destruct it; [done|]. by eapply link_mono.
Qed.

Lemma writeBlocks_loop_spec rec h es its st :
  (∀ h' c run st, h = S h' → @rep _ _ (holds st) h' c run → write_ok h' run st (rec c st)) →
  @nrep _ _ (holds st) h es its →
  let '(es', st', r) := writeBlocks_loop rec true es st in
  le_store st st' ∧
  match r with
  | None => Forall2 (entry_clean st' h) es' its
  | Some _ => never_fails → ∃ run, IRun run ∈ its ∧ ∀ c, sub_CID h run ≠ Ok c
  end.
Proof.
  intros Hrec. revert st its. induction es as [|e es IH]; intros st its Hr.
  { inversion Hr; subst. simpl. split; [by intros ?|constructor]. }
  apply Forall2_cons_inv_l in Hr as (it & its' & He & Hr & ->).
  assert (∀ st1 e', le_store st st1 → entry_clean st1 h e' it →
    let '(es', st', r) := (let '(es, st, r) := writeBlocks_loop rec true es st1 in (e' :: es, st, r)) in
    le_store st st' ∧
    match r with
    | None => Forall2 (entry_clean st' h) es' (it :: its')
    | Some _ => never_fails → ∃ run, IRun run ∈ it :: its' ∧ ∀ c, sub_CID h run ≠ Ok c
    end) as Hgo.
  { intros st1 e' Hle He'. assert (@nrep _ _ (holds st1) h es its') as Hr1.
    { eapply Forall2_impl; [exact Hr|]. intros. by eapply entry_rep_mono. }
    specialize (IH st1 its' Hr1). destruct (writeBlocks_loop rec true es st1) as [[es' st'] r]. destruct IH as [Hle' IH].
    split; [intros ???; by apply Hle', Hle|]. destruct r as [err|].
    - intros Hn. destruct (IH Hn) as (run & Hin & Hf). exists run. split; [set_solver|done].
    - constructor; [|done]. by eapply entry_clean_mono. }
  cbn [writeBlocks_loop]. destruct (Child e) as [c|] eqn:Hc.
  2: { apply Hgo; [by intros ?|]. split; [done|]. destruct it as [|run]; [done|]. destruct He as (_ & _ & Hl). by rewrite Hc in Hl. }
  destruct it as [k v|run]; [by destruct He as (_ & _ & _ & _ & ?); congruence|].
  pose proof He as (Hk & Hv & Hch). rewrite Hc in Hch. destruct Hch as [Hch Hl].
  cbn [negb]. rewrite (proj1 (entry_run _ _ _ He)), orb_false_r. cbn [negb andb]. destruct (eDirty e || Dirty c) eqn:Hd.
  - destruct h as [|h]; [done|]. pose proof (Hrec h c run st eq_refl Hch) as Hw.
    destruct (rec c st) as [[c' st1] r]. destruct Hw as [Hle Hw]. destruct r as [cc|err].
    + destruct Hw as (Hm & Hh & Hr' & Hdc & _). apply Hgo; [done|]. assert (link_ok (@sub_link _ _ (holds st1) (S h)) (Some cc) run) as Hlk.
      { exists cc. split; [done|]. by split. }
      split; [|done]. split; [done|]. split; [done|]. simpl. split; [done|]. done.
    + split; [done|]. intros Hn. exists run. split; [set_solver|]. simpl. by apply Hw.
  - apply orb_false_iff in Hd as [Hd1 Hd2]. apply Hgo; [by intros ?|]. split; [done|]. by apply Hl.
Qed.

Lemma clean_linked st h es its : Forall2 (entry_clean st h) es its → Forall2 (linked h) es its.
Proof.
  intros Hc. eapply Forall2_impl; [exact Hc|]. intros e [k v|run] [He Hl]; [done|]. destruct He as (Hk & Hv & _).
  split; [done|]. split; [done|]. destruct Hl as (cc & Hcc & Hl). exists cc. split; [done|].
  destruct h as [|h]; [done|]. by destruct Hl as [? _].
Qed.

Lemma write_node_spec h n l st :
  Stub n = false → Height n = Z.of_nat h → Forall2 (entry_clean st h) (Entries n) (groups (Z.of_nat h) l) →
  write_ok h l st (write_node bs n st).
Proof.
  intros Hst Hhn Hes. assert (mstData h l = Node_NodeData n) as Hd by (eapply linked_data, clean_linked; exact Hes).
  pose proof (mstCID_data h l) as Hcid. rewrite Hd in Hcid.
  assert (∀ st' c, le_store st st' → mstCID h l = Ok c → holds st' h l →
    @rep _ _ (holds st') h (mkNode (Entries n) (Height n) false (Some c) (Stub n)) l) as Hrep.
  { intros st' c Hle Hc Hh. apply rep_unfold. simpl. split; [done|]. split; [done|]. split.
    - eapply Forall2_impl; [exact Hes|]. intros e it [He _]. by eapply entry_rep_mono.
    - intros _. exists c. split; [done|]. by split. }
  unfold write_node. destruct (Node_NodeData n) as [nd|err]; [|split; [by intros ?|]; intros _ c; by rewrite Hcid].
  simpl in Hcid. unfold data_CID in Hcid. destruct (NodeData_Bytes nd) as [[b c]|msg] eqn:Hb.
  2: { split; [by intros ?|]. intros _ c. by rewrite Hcid. }
  destruct bs as [put|] eqn:Hbs.
  - destruct (put c b st) as [st'|msg] eqn:Hput; [|split; [by intros ?|]; intros Hnf; destruct (Hnf put c b st Hbs) as [? ?]; congruence].
    assert (le_store st st') as Hle by (intros h0 l0; eapply holds_put; [reflexivity|exact Hput|exact Hb]).
    assert (holds st' h l) as Hh.
    { eapply holds_new; [reflexivity|exact Hput|exact Hd|exact Hb|]. intros h' run -> Hin.
      apply list_elem_of_lookup in Hin as [i Hi]. destruct (Forall2_lookup_r _ _ _ _ _ Hes Hi) as (e & _ & _ & Hl).
      by destruct Hl as (cc & _ & _ & ?). }
    split; [done|]. split; [done|]. split; [done|]. split; [by apply Hrep|done].
  - assert (holds st h l) as Hh by by apply holds_none.
    split; [by intros ?|]. split; [done|]. split; [done|]. split; [apply Hrep; [by intros ?|done..]|done].
Qed.

Lemma writeBlocks_unfold n od st :
  writeBlocks bs n od st =
  if Stub n then (n, st, Err (ErrInvalidTree "nil tree node"))
  else
    match (if od && negb (Dirty n) then CID n else None) with
    | Some c => (n, st, Ok c)
    | None =>
        let '(es, st, r) := writeBlocks_loop (λ c st, writeBlocks bs c od st) od (Entries n) st in
        let n1 := set_Entries es n in
        match r with
        | Some err => (n1, st, Err err)
        | None => write_node bs n1 st
        end
    end.
Proof. by destruct n. Qed.

Lemma writeBlocks_spec h n l st :
  @rep _ _ (holds st) h n l → write_ok h l st (writeBlocks bs n true st).
Proof.
  revert n l st. induction h as [h IH] using (well_founded_induction lt_wf). intros n l st Hr.
  pose proof Hr as (Hst & Hhn & He & Hd)%rep_unfold. rewrite writeBlocks_unfold, Hst. cbn [andb].
  destruct (if negb (Dirty n) then CID n else None) as [c|] eqn:Hc.
  { destruct (Dirty n) eqn:Hdn; [done|]. simpl in Hc. destruct (Hd eq_refl) as (cc & Hcc & Hm & Hh).
    split; [by intros ?|]. rewrite Hc in Hcc. injection Hcc as <-. done. }
  pose proof (writeBlocks_loop_spec (λ c st, writeBlocks bs c true st) h (Entries n) (groups (Z.of_nat h) l) st) as Hloop.
  specialize (Hloop ltac:(intros h' c' run st0 -> Hr'; apply IH; [lia|done]) He).
  destruct (writeBlocks_loop _ true (Entries n) st) as [[es st1] r]. destruct Hloop as [Hle Hloop].
  destruct r as [err|].
  - split; [done|]. intros Hn. destruct (Hloop Hn) as (run & Hin & Hf). by eapply mstCID_sub_fail.
  - pose proof (write_node_spec h (set_Entries es n) l st1 Hst Hhn Hloop) as Hw. cbv zeta.
    destruct (write_node bs (set_Entries es n) st1) as [[n' st2] r2]. destruct Hw as [Hle2 Hw].
    split; [intros ???; by apply Hle2, Hle|done].
Qed.
End Write.

(** ** [RootCID] *)

Definition any_link : LinkProp := λ _ _, True.

Lemma mstCID_nil h h' : mstCID h [] = mstCID h' [].
Proof. by rewrite !mstCID_unfold. Qed.

Lemma RootCID_spec (LP : LinkProp) h t l :
  root_rep h (Root t) l →
  match (Tree_RootCID t).2 with
  | Ok c => mstCID h l = Ok c ∧ @root_rep _ _ any_link h (Root (Tree_RootCID t).1) l
  | Err _ => ∀ c, mstCID h l ≠ Ok c
  end.
Proof.
  destruct t as [n]. unfold Tree_RootCID. simpl. intros [Hr|[(Hst & Hd & He & cc & Hc & Hm & _)|(-> & Hst & Hh & He & Hd)]].
  - pose proof Hr as (Hst & _)%rep_unfold. rewrite Hst. simpl.
    pose proof (writeBlocks_spec None (λ _ : unit, any_link)) as Hw.
    specialize (Hw ltac:(done) ltac:(done) ltac:(done) h n l tt ltac:(by eapply rep_weaken)).
    destruct (writeBlocks None n true tt) as [[n' []] [c|err]].
    + destruct Hw as (_ & Hm & _ & Hr' & _). split; [done|by left].
    + destruct Hw as (_ & Hw). simpl. apply Hw. intros ????. done.
  - rewrite Hst, Hd, Hc. simpl. split; [done|]. right. left. repeat split; try done. exists cc. split; [done|]. by split.
  - rewrite Hst. cbn [andb]. rewrite writeBlocks_unfold, Hst, He. simpl.
    assert (mstCID h [] = data_CID (mkNodeData None [])) as Hcid by by rewrite mstCID_data.
    destruct (if negb (Dirty n) then CID n else None) as [c|] eqn:Hc; simpl.
    + destruct (Dirty n); [done|]. simpl in Hc. destruct (Hd eq_refl) as (cc & Hcc & Hm & _). rewrite Hc in Hcc. injection Hcc as <-.
      split; [done|]. right. right. repeat split; try done. intros _. exists c. split; [done|]. by split.
    + unfold write_node, Node_NodeData. simpl. rewrite Hcid. unfold data_CID.
      destruct (NodeData_Bytes (mkNodeData None [])) as [[b c]|msg] eqn:Hb; simpl; [|done]. split; [done|].
      right. right. repeat split; try done. intros _. exists c. split; [done|]. split; [|done].
      rewrite Hcid. unfold data_CID. by rewrite Hb.
Qed.
End Cid.
