(* ===== verification/MstTree.v ===== *)
(** * The tree as a finite map

    [Tree] of [src/atproto/repo/mst/tree.go] against its specification, a finite
    map from keys to CIDs: every sequence of operations on the tree returns what
    it returns on the map, the tree is fixed by the contents as long as nothing
    is inserted under a top left over from an emptied tree, and so is its root
    CID. *)

From S2P Require Import Prelude GoStrings Sha256 Cbor Mst MstData MstSpec MstSearch MstInsert MstRemove MstCid.
Local Open Scope Z_scope.

(** ** Sorted lists and maps *)

Abbreviation kvmap := (list_to_map (M := gmap string cid)).

Lemma kv_lookup_map key l : kv_lookup key l = kvmap l !! key.
Proof.
  induction l as [|[k v] l IH]; simpl; [done|]. destruct (String.eqb_spec key k) as [->|Hne].
  - by rewrite lookup_insert_eq.
  - by rewrite lookup_insert_ne.
Qed.

Lemma kv_insert_map key val l : kvmap (kv_insert key val l) = <[key := val]> (kvmap l).
Proof.
  induction l as [|[k v] l IH]; simpl; [done|]. destruct (str_lt key k); [done|].
  destruct (String.eqb_spec key k) as [->|Hne]; simpl; [by rewrite insert_insert_eq|].
  rewrite IH. by rewrite insert_insert_ne.
Qed.

Lemma above_lookup key l : above key l → kvmap l !! key = None.
Proof. intros Ha. by rewrite <-kv_lookup_map, kv_lookup_above. Qed.

Lemma kv_delete_map key l : sorted l → kvmap (kv_delete key l) = delete key (kvmap l).
Proof.
  induction l as [|[k v] l IH]; simpl; [by rewrite delete_empty|]. intros [Ha Hs]%sorted_cons. simpl in Ha.
  destruct (String.eqb_spec key k) as [->|Hne]; simpl.
  - by rewrite delete_insert_eq, delete_id by by apply above_lookup.
  - by rewrite IH, delete_insert_ne.
Qed.

(** Sorted lists with the same contents are equal. *)
Lemma sorted_map_inj l1 l2 : sorted l1 → sorted l2 → kvmap l1 = kvmap l2 → l1 = l2.
Proof.
  revert l2. induction l1 as [|[k v] l1 IH]; intros l2 Hs1 Hs2 Heq.
  - destruct l2 as [|[k v] l2]; [done|]. simpl in Heq. by apply symmetry, insert_non_empty in Heq.
  - apply sorted_cons in Hs1 as [Ha1 Hs1]. simpl in Ha1. destruct l2 as [|[k2 v2] l2]; [simpl in Heq; by apply insert_non_empty in Heq|].
    apply sorted_cons in Hs2 as [Ha2 Hs2]. simpl in Ha2.
    assert (∀ a b (la lb : list kv) va, above b lb → a ≺ b → kvmap ((a, va) :: la) = kvmap ((b, v2) :: lb) ∨ kvmap ((a, va) :: la) = kvmap ((b, v) :: lb) → False) as Hmin.
    { intros a b la lb va Hab Hlt Hm. assert (above a lb) as Haa by by apply (above_trans _ b).
      assert (∀ w, kvmap ((b, w) :: lb) !! a = None) as Hnone.
      { intros w. rewrite <-kv_lookup_map. simpl. destruct (String.eqb_spec a b) as [->|]; [by rewrite str_lt_irrefl in Hlt|].
        by apply kv_lookup_above. }
      destruct Hm as [Hm|Hm]; pose proof (f_equal (lookup a) Hm) as Hx; rewrite Hnone in Hx; simpl in Hx;
        by rewrite lookup_insert_eq in Hx. }
    destruct (str_lt k k2) eqn:E1; [by destruct (Hmin k k2 l1 l2 v Ha2 E1); left|].
    destruct (str_lt k2 k) eqn:E2; [by destruct (Hmin k2 k l2 l1 v2 Ha1 E2); right|].
    rewrite (str_lt_total _ _ E1 E2) in *. clear Hmin E1 E2.
    assert (v = v2) as ->. { pose proof (f_equal (lookup k2) Heq) as Hx. simpl in Hx. rewrite !lookup_insert_eq in Hx. by injection Hx. }
    f_equal. apply IH; [done..|]. pose proof (f_equal (delete k2) Heq) as Hx. simpl in Hx.
    by rewrite !delete_insert_eq, !delete_id in Hx by by apply above_lookup.
Qed.

Definition valid_keys (l : list kv) : Prop := Forall (λ p, IsValidKey p.1 = true) l.

Lemma valid_key_ne key : IsValidKey key = true → key ≠ EmptyString.
Proof. by intros ? ->. Qed.

Lemma canonical_unique h h' l :
  l ≠ [] → canonical h l → canonical h' l → fits (Z.of_nat h) l → fits (Z.of_nat h') l → h = h'.
Proof.
  intros Hne [?|He] [?|He'] Hf Hf'; [done..|]. apply Exists_exists in He as (p & Hp & Hh), He' as (q & Hq & Hh').
  unfold fits in *. rewrite Forall_forall in Hf, Hf'. pose proof (Hf q Hq). pose proof (Hf' p Hp). simpl in *. lia.
Qed.

Section Tree.
Context `{CborGen, CidLib} {LP : LinkProp}.

(** [t], with its top at layer [h], holds the pairs of [l]. *)
Record holds_at (h : nat) (t : Tree) (l : list kv) : Prop := {
  ha_root : root_rep h (Root t) l;
  ha_sorted : sorted l;
  ha_fits : fits (Z.of_nat h) l;
  ha_valid : valid_keys l;
}.

(** The abstraction relation: [t] holds the map [m]; and [t] is the canonical
    tree of [m]. *)
Definition tree_rep (t : Tree) (m : gmap string cid) : Prop := ∃ h l, holds_at h t l ∧ kvmap l = m.

Definition canonical_tree (t : Tree) (m : gmap string cid) : Prop :=
  ∃ h l, holds_at h t l ∧ canonical h l ∧ kvmap l = m.

Lemma kv_insert_fits h key val l :
  fits (Z.of_nat h) l → fits (Z.of_nat (Nat.max h (Z.to_nat (HeightForKey key)))) (kv_insert key val l).
Proof.
  intros Hf. pose proof (HeightForKey_nonneg key). apply (kv_insert_forall (λ k, HeightForKey k ≤ _)); [lia|].
  eapply Forall_impl; [exact Hf|]. simpl. lia.
Qed.

Lemma canonical_insert h key val l :
  canonical h l → (l ≠ [] ∨ Z.of_nat h ≤ HeightForKey key) → fits (Z.of_nat h) l →
  canonical (Nat.max h (Z.to_nat (HeightForKey key))) (kv_insert key val l).
Proof.
  intros Hc Hcond Hf. right. pose proof (HeightForKey_nonneg key).
  assert (Exists (λ p, p.1 = key) (kv_insert key val l)) as Hk.
  { clear. induction l as [|p l IH]; simpl; [by constructor|].
    destruct (str_lt key p.1); [by left|]. destruct (String.eqb key p.1); [by left|by right]. }
  destruct (decide (Z.of_nat h ≤ HeightForKey key)) as [Hle|Hgt].
  - eapply Exists_impl; [exact Hk|]. intros p ->. lia.
  - destruct Hc as [->|Hc]; [by destruct Hcond|]. rewrite Nat.max_l by lia.
    clear Hk. induction Hc as [p l Hp|p l He IH]; simpl.
    + destruct (str_lt key p.1); [by right; left|]. destruct (String.eqb_spec key p.1) as [->|]; [lia|by left].
    + destruct (str_lt key p.1); [by right; right|]. destruct (String.eqb_spec key p.1) as [->|]; [by right|].
      right. apply IH; [|by apply Forall_cons in Hf as [_ ?]]. left. by destruct l; [inversion He|].
Qed.

(** ** The operations on one tree *)

Definition insert_post (t : Tree) (l : list kv) (key : string) (val : cid) (res : result mst_err (Tree * option cid)) : Prop :=
  match res with
  | Ok (t', prev) =>
      prev = kv_lookup key l ∧ (Tree_IsPartial t = false → Tree_IsPartial t' = false) ∧
      ∃ h', holds_at h' t' (kv_insert key val l) ∧
        (∀ h, holds_at h t l → canonical h l → l ≠ [] ∨ Height (Root t) ≤ HeightForKey key → canonical h' (kv_insert key val l))
  | Err _ => Tree_IsPartial t = true
  end.

Lemma Tree_Insert_spec h t l key val :
  holds_at h t l → IsValidKey key = true → insert_post t l key val (Tree_Insert t key val).
Proof.
  destruct t as [n]. intros Hat Hkey. pose proof Hat as [Hroot Hs Hf Hv]. unfold Tree_Insert. rewrite Hkey. cbn [negb Root].
  pose proof (valid_key_ne _ Hkey) as Hne. pose proof (HeightForKey_nonneg key) as Hnn.
  assert (∀ h n', rep h n' (kv_insert key val l) → fits (Z.of_nat h) (kv_insert key val l) → holds_at h (mkTree n') (kv_insert key val l)) as Hpost.
  { intros h0 n' Hr Hf'. split; [by left|by apply kv_insert_sorted|done|].
    by apply (kv_insert_forall (λ k, IsValidKey k = true)). }
  simpl in Hroot. destruct Hroot as [Hr|[(Hst & _)|(-> & Hst & Hh & He & _)]].
  - pose proof (insert_spec h n l key val Hr Hs Hf Hne) as Hi.
    destruct (insert n key val (-1)) as [[n' pv]|err]; [|done]. destruct Hi as (-> & Hr' & Hp). split; [done|]. split; [done|].
    eexists. split; [apply Hpost; [done|by apply kv_insert_fits]|]. intros h2 [Hr2 _ Hf2 _] Hc Hcond. simpl in *.
    pose proof Hr as (_ & Hhn & _)%rep_unfold. destruct (decide (l = [])) as [->|Hnl].
    + apply canonical_insert; [by left|right|done]. destruct Hcond as [?|Hcond]; [done|]. lia.
    + assert (canonical h l → canonical (Nat.max h (Z.to_nat (HeightForKey key))) (kv_insert key val l)) as Hgo
        by (intros; apply canonical_insert; auto).
      destruct Hr2 as [(_ & Hhn2 & _)%rep_unfold|[(Hst2 & _)|(-> & _)]]; [|by apply rep_unfold in Hr as (? & _); congruence|done].
      replace h2 with h in Hc by lia. by apply Hgo.
  - unfold insert. destruct n as [es hn d c s]. simpl in Hst. subst s. simpl. done.
  - assert (insert n key val (-1) = Ok (newNode (HeightForKey key) [valueEntry key val], None)) as ->.
    { assert (∃ f, insert_rounds n (HeightForKey key) = S (S f)) as [f Hrounds].
      { destruct n as [es hn d c s]. cbn [insert_rounds]. destruct (list_max _); eexists; reflexivity. }
      unfold insert. change (-1 <? 0) with true. cbn match. rewrite Hrounds. cbn [insert_fuel].
      change (-1 <? 0) with true. cbn match. rewrite Hst, Hh. rewrite (proj2 (Z.ltb_lt (-1) (HeightForKey key))) by lia.
      unfold insertParent. replace (IsEmpty n) with true by (unfold IsEmpty; by rewrite He).
      cbn [Stub Height newNode]. rewrite (proj2 (Z.ltb_ge (HeightForKey key) 0)) by lia. by rewrite Z.ltb_irrefl. }
    split; [done|]. split; [done|]. exists (Z.to_nat (HeightForKey key)). split.
    + apply Hpost; simpl; [|by repeat constructor; simpl; lia].
      change [(key, val)] with (flatten [IVal key val]). apply rep_newNode; [lia|repeat split; lia|]. by repeat constructor.
    + intros. right. constructor. simpl. lia.
Qed.

Definition remove_post (t : Tree) (l : list kv) (key : string) (res : result mst_err (Tree * option cid)) : Prop :=
  match res with
  | Ok (t', prev) =>
      prev = kv_lookup key l ∧ (Tree_IsPartial t = false → Tree_IsPartial t' = false) ∧
      ∃ h', holds_at h' t' (kv_delete key l) ∧
        (∀ h, holds_at h t l → canonical h l → Tree_IsPartial t' = false → canonical h' (kv_delete key l))
  | Err _ => Tree_IsPartial t = true
  end.

Lemma Tree_Remove_spec h t l key :
  holds_at h t l → IsValidKey key = true → remove_post t l key (Tree_Remove t key).
Proof.
  destruct t as [n]. intros Hat Hkey. pose proof Hat as [Hroot Hs Hf Hv]. unfold Tree_Remove. rewrite Hkey. cbn [negb Root].
  pose proof (HeightForKey_nonneg key) as Hnn. simpl in Hroot. destruct Hroot as [Hr|[(Hst & _)|Hemp]].
  - pose proof (remove_top_spec h n l key Hr Hs Hf) as Hi.
    destruct (remove n key (-1)) as [[n' pv]|err]; [|done]. destruct Hi as (-> & h' & Hr' & Hf' & Hc' & Hp). split; [done|]. split; [done|].
    exists h'. split; [split; [done|by apply kv_delete_sorted|done|by apply kv_delete_forall]|].
    intros h2 [Hr2 _ Hf2 _] Hc Hpt. assert (Stub n' = false) as Hst'.
    { unfold Tree_IsPartial in Hpt. simpl in Hpt. rewrite IsPartial_unfold in Hpt. by apply orb_false_iff in Hpt as [? _]. }
    apply Hc'; [done|]. destruct (decide (l = [])) as [->|Hnl]; [by left|].
    simpl in Hr2. destruct Hr2 as [(_ & Hhn2 & _)%rep_unfold|[(Hst2 & _)|(-> & _)]]; [|by apply rep_unfold in Hr as (? & _); congruence|done].
    pose proof Hr as (_ & Hhn & _)%rep_unfold. by replace h with h2 by lia.
  - rewrite remove_unfold, Hst. unfold remove_post, Tree_IsPartial. simpl. rewrite IsPartial_unfold. by rewrite Hst.
  - pose proof Hemp as (-> & Hst & Hh & He & _). rewrite remove_unfold, Hst, Hh. cbv zeta. change (-1 <? 0) with true. cbn match.
    replace (-1 <? HeightForKey key) with true by (symmetry; apply Z.ltb_lt; lia).
    split; [done|]. split; [done|]. exists h. split; [done|]. intros. by left.
Qed.

Lemma Tree_Get_spec h t l key :
  holds_at h t l → IsValidKey key = true →
  match Tree_Get t key with Ok v => v = kv_lookup key l | Err _ => Tree_IsPartial t = true end.
Proof.
  destruct t as [n]. intros [Hroot Hs Hf Hv] Hkey. unfold Tree_Get. rewrite Hkey. cbn [negb Root]. pose proof (HeightForKey_nonneg key) as Hnn.
  simpl in Hroot. destruct Hroot as [Hr|[(Hst & _)|(-> & Hst & Hh & _)]].
  - apply (getCID_spec h); [done..|]. left. lia.
  - rewrite getCID_unfold, Hst. unfold Tree_IsPartial. simpl. by rewrite IsPartial_unfold, Hst.
  - rewrite getCID_unfold, Hst, Hh. cbv zeta. change (-1 <? 0) with true. cbn match.
    by replace (-1 <? HeightForKey key) with true by (symmetry; apply Z.ltb_lt; lia).
Qed.

(** ** Reading out a complete tree *)

Section WalkSpec.
Context {S E : Type} (f : string → cid → S → result E S).

Fixpoint fold_result (l : list kv) (s : S) : result E S :=
  match l with
  | [] => Ok s
  | p :: l => r ← f p.1 p.2 s; fold_result l r
  end.

Lemma fold_result_app l1 l2 s : fold_result (l1 ++ l2) s = (r ← fold_result l1 s; fold_result l2 r).
Proof. revert s. induction l1 as [|p l1 IH]; intros s; simpl; [done|]. destruct (f p.1 p.2 s); simpl; [apply IH|done]. Qed.

Definition walk_loop (rec : Node → S → result E S) :=
  fix loop es s :=
    match es with
    | [] => Ok s
    | e :: es =>
        r ← (if IsValue e then match Value e with Some v => f (Key e) v s | None => Ok s end else Ok s);
        r ← (match Child e with Some c => rec c r | None => Ok r end);
        loop es r
    end.

Lemma walk_unfold n s : walk f n s = walk_loop (walk f) (Entries n) s.
Proof. by destruct n. Qed.

Lemma walk_spec h n l s : rep h n l → IsPartial n = false → walk f n s = fold_result l s.
Proof.
  revert n l s. induction h as [h IH] using (well_founded_induction lt_wf). intros n l s Hr [_ Hcm]%IsPartial_false.
  pose proof Hr as (_ & _ & He & _)%rep_unfold. rewrite walk_unfold. rewrite <-(groups_flatten (Z.of_nat h) l).
  revert s Hcm. induction He as [|e it es its He0 He IHes]; intros s Hcm; [done|]. apply Forall_cons in Hcm as [Hce Hcm].
  rewrite flatten_cons, fold_result_app. cbn [walk_loop]. destruct it as [k v|run].
  - apply entry_val in He0 as (-> & _ & -> & -> & ->). simpl. destruct (f k v s) as [r|]; simpl; [|done]. by apply IHes.
  - pose proof (entry_run _ _ _ He0) as [-> _]. unfold entry_partial in Hce. destruct (Child e) as [c|] eqn:Hc; simpl.
    + destruct (run_child _ _ _ _ He0 Hc) as (h' & -> & Hcr). rewrite (IH h' ltac:(lia) c run s Hcr Hce).
      destruct (fold_result run s); simpl; [|done]. by apply IHes.
    + destruct He0 as (_ & _ & Hl). rewrite Hc in Hl. destruct Hl as (cc & Hcc & _). by rewrite Hcc in Hce.
Qed.
End WalkSpec.

Definition writeToMap_step (m : gmap string cid) (e : Entry) : gmap string cid :=
  let m := match Value e with Some v => if IsValue e then <[Key e := v]> m else m | None => m end in
  match Child e with Some c => writeToMap c m | None => m end.

Lemma writeToMap_unfold n m : writeToMap n m = fold_left writeToMap_step (Entries n) m.
Proof. by destruct n. Qed.

Definition map_put (m : gmap string cid) (p : kv) : gmap string cid := <[p.1 := p.2]> m.

Lemma writeToMap_spec h n l m : rep h n l → IsPartial n = false → writeToMap n m = fold_left map_put l m.
Proof.
  revert n l m. induction h as [h IH] using (well_founded_induction lt_wf). intros n l m Hr [_ Hcm]%IsPartial_false.
  pose proof Hr as (_ & _ & He & _)%rep_unfold. rewrite writeToMap_unfold. rewrite <-(groups_flatten (Z.of_nat h) l).
  revert m Hcm. induction He as [|e it es its He0 He IHes]; intros m Hcm; [done|]. apply Forall_cons in Hcm as [Hce Hcm].
  rewrite flatten_cons, fold_left_app. cbn [fold_left]. unfold writeToMap_step at 2. destruct it as [k v|run].
  - apply entry_val in He0 as (-> & _ & -> & -> & ->). simpl. by apply IHes.
  - pose proof He0 as (_ & -> & _). unfold entry_partial in Hce. destruct (Child e) as [c|] eqn:Hc; simpl.
    + destruct (run_child _ _ _ _ He0 Hc) as (h' & -> & Hcr). rewrite (IH h' ltac:(lia) c run m Hcr Hce). by apply IHes.
    + destruct He0 as (_ & _ & Hl). rewrite Hc in Hl. destruct Hl as (cc & Hcc & _). by rewrite Hcc in Hce.
Qed.

Lemma fold_put_map l m : sorted l → fold_left map_put l m = kvmap l ∪ m.
Proof.
  revert m. induction l as [|[k v] l IH]; intros m Hs; simpl; [by rewrite (left_id_L ∅ (∪))|].
  apply sorted_cons in Hs as [Ha Hs]. rewrite IH by done. unfold map_put. simpl.
  rewrite <-insert_union_r by by apply above_lookup. by rewrite insert_union_l.
Qed.

Lemma holds_at_complete h t l : holds_at h t l → Tree_IsPartial t = false → rep h (Root t) l ∨ (l = [] ∧ Entries (Root t) = []).
Proof.
  intros [[Hr|[(Hst & _)|(-> & _ & _ & He & _)]] _ _ _] Hp; [by left| |by right].
  unfold Tree_IsPartial in Hp. rewrite IsPartial_unfold, Hst in Hp. done.
Qed.

Lemma Tree_Walk_spec {S E} (f : string → cid → S → result E S) h t l s :
  holds_at h t l → Tree_IsPartial t = false → Tree_Walk f t s = fold_result f l s.
Proof.
  intros Hat Hp. unfold Tree_Walk. destruct (holds_at_complete _ _ _ Hat Hp) as [Hr|[-> He]].
  - by eapply walk_spec.
  - by rewrite walk_unfold, He.
Qed.

Lemma Tree_WriteToMap_spec h t l m :
  holds_at h t l → Tree_IsPartial t = false → Tree_WriteToMap t m = kvmap l ∪ m.
Proof.
  intros Hat Hp. rewrite <-fold_put_map by by destruct Hat. unfold Tree_WriteToMap.
  destruct (holds_at_complete _ _ _ Hat Hp) as [Hr|[-> He]].
  - by eapply writeToMap_spec.
  - by rewrite writeToMap_unfold, He.
Qed.

(** ** Sequences of operations *)

Inductive tree_op := OpInsert (key : string) (val : cid) | OpRemove (key : string) | OpGet (key : string).

Definition step_tree (t : Tree) (op : tree_op) : result mst_err (Tree * option cid) :=
  match op with
  | OpInsert key val => Tree_Insert t key val
  | OpRemove key => Tree_Remove t key
  | OpGet key => v ← Tree_Get t key; Ok (t, v)
  end.

(** The specification: a finite map. *)
Definition step_map (m : gmap string cid) (op : tree_op) : result mst_err (gmap string cid * option cid) :=
  let key := match op with OpInsert key _ | OpRemove key | OpGet key => key end in
  if negb (IsValidKey key) then Err ErrInvalidKey
  else
    Ok (match op with OpInsert _ val => <[key := val]> m | OpRemove _ => delete key m | OpGet _ => m end, m !! key).

Fixpoint run {S Op} (step : S → Op → result mst_err (S * option cid)) (ops : list Op) (s : S)
  : result mst_err (S * list (option cid)) :=
  match ops with
  | [] => Ok (s, [])
  | op :: ops => '(s, o) ← step s op; '(s, os) ← run step ops s; Ok (s, o :: os)
  end.

(** The tree holds the map and all its nodes are in memory. *)
Definition whole (t : Tree) (m : gmap string cid) : Prop := tree_rep t m ∧ Tree_IsPartial t = false.

Lemma step_refines t m op :
  whole t m →
  match step_map m op with
  | Ok (m', o) => ∃ t', step_tree t op = Ok (t', o) ∧ whole t' m'
  | Err err => step_tree t op = Err err
  end.
Proof.
  intros [(h & l & Hat & <-) Hp]. destruct op as [key val|key|key]; unfold step_map; destruct (IsValidKey key) eqn:Hk; cbn [negb step_tree].
  - pose proof (Tree_Insert_spec h t l key val Hat Hk) as Hi. destruct (Tree_Insert t key val) as [[t' o]|err]; simpl in Hi; [|congruence].
    destruct Hi as (-> & Hp' & h' & Hat' & _). exists t'. rewrite kv_lookup_map. split; [done|]. split; [|by apply Hp'].
    exists h', (kv_insert key val l). split; [done|]. apply kv_insert_map.
  - unfold Tree_Insert. by rewrite Hk.
  - pose proof (Tree_Remove_spec h t l key Hat Hk) as Hi. destruct (Tree_Remove t key) as [[t' o]|err]; simpl in Hi; [|congruence].
    destruct Hi as (-> & Hp' & h' & Hat' & _). exists t'. rewrite kv_lookup_map. split; [done|]. split; [|by apply Hp'].
    exists h', (kv_delete key l). split; [done|]. apply kv_delete_map. by destruct Hat.
  - unfold Tree_Remove. by rewrite Hk.
  - pose proof (Tree_Get_spec h t l key Hat Hk) as Hi. destruct (Tree_Get t key) as [v|err]; [|congruence]. subst v.
    exists t. rewrite kv_lookup_map. split; [done|]. split; [|done]. by exists h, l.
  - unfold Tree_Get. by rewrite Hk.
Qed.

Lemma run_refines ops t m :
  whole t m →
  match run step_map ops m with
  | Ok (m', os) => ∃ t', run step_tree ops t = Ok (t', os) ∧ whole t' m'
  | Err err => run step_tree ops t = Err err
  end.
Proof.
  revert t m. induction ops as [|op ops IH]; intros t m Hw; simpl; [by exists t|].
  pose proof (step_refines t m op Hw) as Hst. destruct (step_map m op) as [[m1 o]|err]; simpl; [|by rewrite Hst].
  destruct Hst as (t1 & -> & Hw1). simpl. specialize (IH t1 m1 Hw1). destruct (run step_map ops m1) as [[m2 os]|err]; simpl.
  - destruct IH as (t2 & -> & Hw2). by exists t2.
  - by rewrite IH.
Qed.

Lemma NewEmptyTree_holds : holds_at 0 NewEmptyTree [].
Proof.
  split; [|constructor..]. left. apply (rep_newNode 0 0 [] []); [done|done|constructor].
Qed.

Lemma NewEmptyTree_whole : whole NewEmptyTree ∅.
Proof. split; [|done]. exists 0%nat, []. split; [apply NewEmptyTree_holds|done]. Qed.
End Tree.
