(* ===== verification/MstTerm.v ===== *)
(** * The tree operations end on every tree

    The recursion of [insert] goes up and down the layers and that of
    [proveMutation] into a child it has just marked; neither is structural, and
    their models count rounds.  On every tree, also on one read from the network
    whose heights make no sense, the rounds given are enough. *)

From S2P Require Import Prelude GoStrings Sha256 Mst MstSearch MstInsert MstRemove.
Local Open Scope Z_scope.

Lemma node_depth_ind (P : Node → Prop) :
  (∀ n, (∀ e c, e ∈ Entries n → Child e = Some c → P c) → P n) → ∀ n, P n.
Proof.
  intros HP n. remember (depth n) as d eqn:Hd. revert n Hd.
  induction d as [d IH] using (well_founded_induction lt_wf). intros n ->. apply HP. intros e c Hin Hc.
  eapply IH; [|reflexivity]. by eapply depth_child.
Qed.

Lemma compareKey_loop_total rec key n_len i es :
  (∀ e c, e ∈ es → Child e = Some c → depth (rec c).1 = depth c ∧ (rec c).2 ≠ Err OutOfFuel) →
  map entry_depth (compareKey_loop rec key n_len i es).1 = map entry_depth es ∧
  (compareKey_loop rec key n_len i es).2 ≠ Err OutOfFuel.
Proof.
  revert i. induction es as [|e es IH]; intros i Hrec; [done|]. rewrite compareKey_loop_cons.
  destruct (IsValue e && _); [done|]. destruct (IsChild e && _).
  - destruct (Child e) as [c|] eqn:Hc; [|done]. destruct (Hrec e c ltac:(set_solver) Hc) as [Hd Hr].
    destruct (rec c) as [c' r]. simpl in *. split; [|by destruct r; simplify_eq/=].
    f_equal. unfold entry_depth. simpl. by rewrite Hc.
  - destruct (IH (S i)) as [Hd Hr]; [set_solver|]. destruct (compareKey_loop _ _ _ _ _). simpl in *. by rewrite Hd.
Qed.

Lemma compareKey_total n key m :
  depth (compareKey n key m).1 = depth n ∧ (compareKey n key m).2 ≠ Err OutOfFuel.
Proof.
  revert n. apply node_depth_ind. intros n IH. rewrite compareKey_unfold. destruct (Stub n); [done|].
  destruct (IsEmpty n); [done|]. cbv zeta.
  assert (∀ m0 : bool, depth (if m0 then set_Dirty true n else n) = depth n) as Hdn by (intros []; by rewrite ?depth_unfold).
  destruct (first_above _ _); [split; [apply Hdn|done]|]. destruct (last_below _ _); [split; [apply Hdn|done]|].
  destruct (compareKey_loop_total (λ c, compareKey c key m) key (length (Entries n)) 0 (Entries n)) as [Hd Hr].
  { intros e c Hin Hc. by eapply IH. }
  destruct (compareKey_loop _ _ _ _ _) as [es r]. simpl in *. split; [|done]. rewrite !depth_unfold. simpl. by rewrite Hd.
Qed.

Lemma proveMutation_loop_total rec key es :
  (∀ e c c', e ∈ es → Child e = Some c → depth c' = depth c → (rec c').2 ≠ Some OutOfFuel) →
  (proveMutation_loop rec key es).2 ≠ Some OutOfFuel.
Proof.
  intros Hrec. induction es as [|e es IH]; [done|]. rewrite proveMutation_loop_cons.
  assert ((proveMutation_loop rec key es).2 ≠ Some OutOfFuel) as Hgo by (apply IH; intros; eapply Hrec; [by right|done..]).
  destruct (IsValue e && _); [done|]. destruct (IsChild e && _).
  - destruct (Child e) as [c|] eqn:Hc; [|done]. destruct (compareKey_total c key true) as [Hd Hr].
    destruct (compareKey c key true) as [c' [o|err]]; simpl in *; [|congruence].
    destruct (0 <? o); [by destruct (proveMutation_loop rec key es)|]. destruct (o <? 0); [done|].
    specialize (Hrec e c c' ltac:(set_solver) Hc Hd). by destruct (rec c').
  - by destruct (proveMutation_loop rec key es).
Qed.

Lemma proveMutation_total n key : (proveMutation n key).2 ≠ Some OutOfFuel.
Proof.
  unfold proveMutation. assert (∀ fuel n, (depth n ≤ fuel)%nat → (proveMutation_fuel fuel n key).2 ≠ Some OutOfFuel) as Hgo; [|by apply Hgo].
  clear n. induction fuel as [|fuel IH]; intros n Hd; [rewrite depth_unfold in Hd; lia|]. cbn [proveMutation_fuel].
  pose proof (proveMutation_loop_total (λ c, proveMutation_fuel fuel c key) key (Entries n)) as Hl.
  destruct (proveMutation_loop _ key (Entries n)) as [es r]. simpl in *. apply Hl. intros e c c' Hin Hc Hdc.
  apply IH. pose proof (depth_child n e c Hin Hc). lia.
Qed.

Lemma findInsertionIndex_total n key : findInsertionIndex n key ≠ Err OutOfFuel.
Proof.
  unfold findInsertionIndex. destruct (Stub n); [done|]. generalize (length (Entries n)) as k, 0%nat as i.
  intros k. induction (Entries n) as [|e es IH]; intros i; [done|]. rewrite findInsertionIndex_loop_cons.
  destruct (IsValue e && _); [done|]. destruct (IsChild e && _); [|done]. destruct (Child e) as [c|]; [|done].
  destruct (compareKey_total c key false) as [_ Hr]. destruct (compareKey c key false).2 as [o|err]; simpl; [|congruence].
  destruct (o <? 0); [done|]. by destruct (0 <? o).
Qed.

Lemma split_total n key : split n key ≠ Err OutOfFuel.
Proof.
  revert n. apply node_depth_ind. intros n IH. rewrite split_unfold. destruct (IsEmpty n); [done|].
  pose proof (findInsertionIndex_total n key). destruct (findInsertionIndex n key) as [[i [|]]|err]; [| |congruence].
  - unfold nth_child. destruct (Entries n !! i) as [e|] eqn:He; [|done]. destruct (Child e) as [c|] eqn:Hc; [|done].
    pose proof (IH e c ltac:(by eapply list_elem_of_lookup_2) Hc). by destruct (split c key) as [[? ?]|err]; [|congruence].
  - unfold splitEntries. by repeat case_match.
Qed.

Lemma insert_here_total n key (val : cid) :
  match findInsertionIndex n key with
  | Err err => @Err mst_err (Node * option cid) err
  | Ok (idx, split_needed) =>
      let '(n, r) := proveMutation (set_Dirty true n) key in
      match ignore_partial r with
      | Some err => Err err
      | None =>
          if negb split_needed then
            if (length (Entries n) <=? idx)%nat
            then Ok (set_Entries (Entries n ++ [valueEntry key val]) n, None)
            else Ok (set_Entries (slices_Insert (Entries n) idx [valueEntry key val]) n, None)
          else
            match nth_child id (Entries n) idx with
            | None => Err (Panic "nil pointer")
            | Some c =>
                match split c key with
                | Err err => Err err
                | Ok (l, r) =>
                    let es := slices_Delete (Entries n) idx (idx + 1) in
                    Ok (set_Entries (slices_Insert es idx [childEntry l; valueEntry key val; childEntry r]) n, None)
                end
            end
      end
  end ≠ Err OutOfFuel.
Proof.
  pose proof (findInsertionIndex_total n key). destruct (findInsertionIndex n key) as [[i sp]|err]; [|congruence].
  pose proof (proveMutation_total (set_Dirty true n) key) as Hp. destruct (proveMutation _ key) as [n2 r]. simpl in Hp.
  destruct (ignore_partial r) as [err|] eqn:Hi; [destruct r as [[]|]; simpl in Hi; congruence|].
  destruct (negb sp); [by case_match|]. destruct (nth_child id (Entries n2) i) as [c|]; [|done].
  pose proof (split_total c key). by destruct (split c key) as [[? ?]|err]; [|congruence].
Qed.

Lemma insert_rounds_unfold n height :
  insert_rounds n height =
  S (Nat.max (S (Z.to_nat (Z.abs (height - Height n))))
       (list_max (map (λ e, match Child e with Some c => insert_rounds c height | None => O end) (Entries n)))).
Proof. by destruct n. Qed.

Lemma insert_rounds_child n e c height :
  e ∈ Entries n → Child e = Some c → (insert_rounds c height < insert_rounds n height)%nat.
Proof.
  intros Hin Hc. rewrite (insert_rounds_unfold n). apply Nat.lt_succ_r. etransitivity; [|apply Nat.le_max_r].
  set (f := λ e : Entry, match Child e with Some c => insert_rounds c height | None => O end).
  assert (Forall (λ k, (k ≤ list_max (map f (Entries n)))%nat) (map f (Entries n))) as Hf by (apply list_max_le; lia).
  rewrite Forall_forall in Hf. apply Hf, list_elem_of_fmap. exists e. split; [|done]. unfold f. by rewrite Hc.
Qed.

(** Going up from below the layer of the key. *)
Lemma insert_up_total fuel n key val height :
  0 ≤ height → Height n ≤ height → (Z.to_nat (height - Height n) < fuel)%nat →
  insert_fuel fuel n key val height ≠ Err OutOfFuel.
Proof.
  revert n. induction fuel as [|fuel IH]; intros n Hh Hle Hf; [lia|]. cbn [insert_fuel]. destruct (Stub n); [done|].
  rewrite (proj2 (Z.ltb_ge height 0)) by lia. destruct (Height n <? height) eqn:E; bool_to_prop.
  - unfold insertParent. destruct (IsEmpty n); apply IH; simpl; lia.
  - rewrite (proj2 (Z.ltb_ge height (Height n))) by lia. destruct (findExistingEntry n key); [by case_match|].
    apply insert_here_total.
Qed.

Lemma insert_fuel_total fuel n key val height :
  0 ≤ height → (insert_rounds n height ≤ fuel)%nat → insert_fuel fuel n key val height ≠ Err OutOfFuel.
Proof.
  revert n. induction fuel as [|fuel IH]; intros n Hh Hf; [rewrite insert_rounds_unfold in Hf; lia|].
  destruct (decide (Height n ≤ height)) as [Hle|Hgt]; [apply insert_up_total; [done..|rewrite insert_rounds_unfold in Hf; lia]|].
  cbn [insert_fuel]. destruct (Stub n); [done|].
  rewrite (proj2 (Z.ltb_ge height 0)), (proj2 (Z.ltb_ge (Height n) height)), (proj2 (Z.ltb_lt height (Height n))) by lia.
  unfold insertChild. destruct (findExistingChild n key) as [i|].
  - unfold nth_child. destruct (Entries n !! i) as [e|] eqn:He; [|done]. destruct (Child e) as [c|] eqn:Hc; [|done].
    pose proof (insert_rounds_child n e c height ltac:(by eapply list_elem_of_lookup_2) Hc).
    pose proof (IH (id c) Hh ltac:(unfold id; lia)). destruct (insert_fuel fuel (id c) key val height) as [[? ?]|]; [by case_match|congruence].
  - pose proof (findInsertionIndex_total n key). destruct (findInsertionIndex n key) as [[j [|]]|]; [done| |congruence].
    pose proof (IH (newNode (Height n - 1) []) Hh) as Hn. destruct (insert_fuel fuel _ key val height) as [[? ?]|]; [done|].
    intros [= ->]. apply Hn; [|done]. rewrite insert_rounds_unfold in Hf |- *. simpl in *. lia.
Qed.

Lemma mergeNodes_total a b : mergeNodes a b ≠ Err OutOfFuel.
Proof.
  revert b. revert a. apply (node_depth_ind (λ a, ∀ b, mergeNodes a b ≠ Err OutOfFuel)). intros a IH b.
  rewrite mergeNodes_unfold. cbv zeta. destruct (Entries a !! _) as [ll|] eqn:He; [|done].
  destruct (negb (IsChild ll)); [done|]. destruct ((Entries a ++ Entries b) !! _) as [lr|]; [|done].
  destruct (negb (IsChild lr)); [done|].
  unfold nth_child. rewrite He. destruct (Child ll) as [c|] eqn:Hc; [|done]. destruct (Child lr) as [r|]; [|done].
  pose proof (IH ll c ltac:(by eapply list_elem_of_lookup_2) Hc r). by destruct (mergeNodes c r); [|congruence].
Qed.

Lemma trim_top_total n : trim_top n ≠ Err OutOfFuel.
Proof.
  revert n. apply node_depth_ind. intros n IH. rewrite trim_top_unfold. destruct (Entries n) as [|e [|]] eqn:Hes; [done| |done].
  destruct (negb (IsChild e)); [done|]. destruct (Child e) as [c|] eqn:Hc; [apply (IH e c); [set_solver|done]|]. by destruct (ChildCID e).
Qed.

Lemma remove_here_total n i key : remove_here n i key ≠ Err OutOfFuel.
Proof.
  unfold remove_here. destruct (remove_entry (set_Dirty true n) i) as [n1|err] eqn:Hre.
  - pose proof (proveMutation_total n1 key) as Hp. destruct (proveMutation n1 key) as [n2 r]. simpl in Hp.
    destruct (ignore_partial r) as [err|] eqn:Hi; [destruct r as [[]|]; simpl in Hi; congruence|done].
  - intros [= ->]. unfold remove_entry in Hre. destruct (_ && _); [|done]. destruct (nth_child _ _ _) as [a|]; [|done].
    destruct (nth_child _ _ _) as [b|]; [|done]. pose proof (mergeNodes_total a b). by destruct (mergeNodes a b); [|congruence].
Qed.

Lemma remove_total n key height : remove n key height ≠ Err OutOfFuel.
Proof.
  revert height. revert n. apply (node_depth_ind (λ n, ∀ height, remove n key height ≠ Err OutOfFuel)). intros n IH height.
  rewrite remove_unfold. destruct (Stub n); [done|]. cbv zeta. destruct (Height n <? _); [done|]. destruct (_ <? Height n).
  - destruct (findExistingChild n key) as [i|]; [|done]. unfold removeChild, nth_child.
    destruct (Entries n !! i) as [e|] eqn:He; [|done]. destruct (Child e) as [c|] eqn:Hc; [|done].
    pose proof (IH e c ltac:(by eapply list_elem_of_lookup_2) Hc) as Hr.
    match goal with |- context [remove c key ?h] => specialize (Hr h); destruct (remove c key h) as [[c' [v|]]|err] end.
    + by destruct (negb (IsEmpty c')).
    + done.
    + congruence.
  - destruct (findExistingEntry n key) as [i|]; [|done]. pose proof (remove_here_total n i key).
    destruct (remove_here n i key) as [n'|]; [|congruence]. destruct (height <? 0); [|done].
    pose proof (trim_top_total n'). by destruct (trim_top n'); [|congruence].
Qed.

(** C40 (termination): [Tree.Insert] and [Tree.Remove] end on every tree, well
    formed or not, with any heights, for every key and value: the rounds the
    model gives to the recursion of [insert], [insertParent], [insertChild] and
    [proveMutation] always suffice. *)
Theorem Tree_operations_terminate t key val :
  Tree_Insert t key val ≠ Err OutOfFuel ∧ Tree_Remove t key ≠ Err OutOfFuel.
Proof.
  unfold Tree_Insert, Tree_Remove. destruct (negb (IsValidKey key)); [done|]. split.
  - unfold insert. change (-1 <? 0) with true. cbn match.
    assert (insert_fuel (insert_rounds (Root t) (HeightForKey key)) (Root t) key val (-1) ≠ Err OutOfFuel) as Hi.
    { pose proof (insert_fuel_total _ (Root t) key val (HeightForKey key) (HeightForKey_nonneg key) (Nat.le_refl _)) as Hi.
      rewrite insert_rounds_unfold in Hi |- *. cbn [insert_fuel] in *. change (-1 <? 0) with true.
      by rewrite (proj2 (Z.ltb_ge (HeightForKey key) 0)) in Hi by apply HeightForKey_nonneg. }
    destruct (insert_fuel _ _ _ _ _) as [[? ?]|]; [done|congruence].
  - pose proof (remove_total (Root t) key (-1)). destruct (remove (Root t) key (-1)) as [[? ?]|]; [done|congruence].
Qed.
