(* ===== verification/MstLoad.v ===== *)
(** * Reading trees back from blocks

    [Node.NodeData] and [NodeData.Node] are inverse on the nodes of a tree, a
    root CID determines the contents (the hash being free of collisions on the
    blocks at hand), and [LoadTreeFromStore] rebuilds from any verified store the
    tree of the list whose root CID it is given, with the missing blocks left as
    links ([src/atproto/repo/mst/encoding.go]). *)

From S2P Require Import Prelude GoStrings Sha256 Cbor Mst MstData MstSpec MstSearch MstInsert MstRemove MstCid MstTree.
Local Open Scope Z_scope.

(** ** Prefix compression *)

Lemma CountPrefixLen_le a b : (CountPrefixLen a b ≤ String.length a)%nat.
Proof. revert b. induction a as [|x a IH]; intros [|y b]; simpl; try lia. destruct (Ascii.eqb x y); [|lia]. specialize (IH b). lia. Qed.

Lemma prefix_roundtrip a b :
  String.append (str_take (CountPrefixLen a b) a) (str_drop (CountPrefixLen a b) b) = b.
Proof.
  revert b. induction a as [|x a IH]; intros [|y b]; simpl; [done..|]. destruct (Ascii.eqb_spec x y) as [->|]; simpl; [|done].
  by rewrite IH.
Qed.

(** ** Nodes with all links, and their block form *)

Inductive label := LVal (k : string) (v : cid) | LLink (c : cid).

Definition label_entry (d : bool) (x : label) : Entry :=
  match x with LVal k v => mkEntry k (Some v) None None d | LLink c => linkEntry c end.

Definition is_link_label (x : label) : bool := match x with LLink _ => true | LVal _ _ => false end.

(** Keys are valid and no two links are adjacent. *)
Fixpoint labels_ok (xs : list label) : Prop :=
  match xs with
  | [] => True
  | LVal k _ :: xs => IsValidKey k = true ∧ labels_ok xs
  | LLink _ :: xs => match xs with LLink _ :: _ => False | _ => True end ∧ labels_ok xs
  end.

(** The block form: the link before the first value, and the entries. *)
Fixpoint encode (prev : string) (xs : list label) : option cid * list EntryData :=
  match xs with
  | [] => (None, [])
  | LVal k v :: xs =>
      let '(r, ds) := encode k xs in
      let p := CountPrefixLen prev k in
      (None, mkEntryData (Z.of_nat p) (str_drop p k) v r :: ds)
  | LLink c :: xs => (Some c, (encode prev xs).2)
  end.

Definition with_right (r : option cid) (d : EntryData) : EntryData := mkEntryData (PrefixLen d) (KeySuffix d) (ed_Value d) r.

Lemma IsValue_label k v d : IsValidKey k = true → IsValue (label_entry d (LVal k v)) = true ∧ IsChild (label_entry d (LVal k v)) = false.
Proof. unfold IsValidKey, IsValue, IsChild, len. destruct k; done. Qed.

Lemma set_last_Right_snoc c ds d : set_last_Right c (ds ++ [d]) = Ok (ds ++ [with_right c d]).
Proof.
  unfold set_last_Right. rewrite last_snoc, length_app. simpl.
  replace (length ds + 1 - 1)%nat with (length ds) by lia. by rewrite take_app_length.
Qed.

Definition right_of (r : option cid) (d : EntryData) : EntryData :=
  match r with Some c => with_right (Some c) d | None => d end.

Lemma encode_head_none prev xs : match xs with LLink _ :: _ => False | _ => True end → (encode prev xs).1 = None.
Proof. destruct xs as [|[k v|] xs]; simpl; [done| |done]. by destruct (encode k xs). Qed.

Lemma encode_val prev k v xs :
  encode prev (LVal k v :: xs) =
  (None, mkEntryData (Z.of_nat (CountPrefixLen prev k)) (str_drop (CountPrefixLen prev k) k) v (encode k xs).1 :: (encode k xs).2).
Proof. simpl. by destruct (encode k xs). Qed.

Lemma NodeData_loop_val i k v xs left ds prev :
  IsValidKey k = true →
  NodeData_loop i (map (label_entry true) (LVal k v :: xs)) (mkNodeData left ds) prev =
  NodeData_loop (S i) (map (label_entry true) xs)
    (mkNodeData left (ds ++ [mkEntryData (Z.of_nat (CountPrefixLen prev k)) (str_drop (CountPrefixLen prev k) k) v None])) k.
Proof.
  intros Hk. destruct (IsValue_label k v true Hk) as [Hv Hc]. cbn [map NodeData_loop]. rewrite Hc, Hv, andb_false_r. done.
Qed.

Lemma NodeData_loop_after i xs left ds d prev :
  labels_ok xs →
  NodeData_loop (S i) (map (label_entry true) xs) (mkNodeData left (ds ++ [d])) prev
  = Ok (mkNodeData left (ds ++ right_of (encode prev xs).1 d :: (encode prev xs).2)).
Proof.
  revert i ds d prev. induction xs as [|[k v|c] xs IH]; intros i ds d prev Hok; [done|..].
  - destruct Hok as [Hk Hok]. rewrite NodeData_loop_val, IH, encode_val by done. simpl. rewrite <-app_assoc. simpl.
    do 3 f_equal. by destruct (encode k xs) as [[?|] ?].
  - destruct Hok as [Hadj Hok]. cbn [map NodeData_loop Nat.eqb andb label_entry].
    change (IsChild (linkEntry c)) with true. change (Value (linkEntry c)) with (@None cid). change (ChildCID (linkEntry c)) with (Some c).
    cbn [nd_Entries Left]. cbn match. rewrite set_last_Right_snoc. cbn [mbind result_bind].
    rewrite IH by done. simpl. by rewrite (encode_head_none prev xs Hadj).
Qed.

Lemma Node_NodeData_labels xs :
  labels_ok xs →
  Node_NodeData (newNode 0 (map (label_entry true) xs)) = Ok (mkNodeData (encode EmptyString xs).1 (encode EmptyString xs).2).
Proof.
  intros Hok. unfold Node_NodeData. cbn [Entries newNode]. destruct xs as [|[k v|c] xs]; [done|..].
  - destruct Hok as [Hk Hok]. rewrite NodeData_loop_val by done. rewrite (NodeData_loop_after 0 xs None []) by done.
    rewrite encode_val. simpl. by destruct (encode k xs) as [[?|] ?].
  - destruct Hok as [Hadj Hok]. cbn [map NodeData_loop Nat.eqb andb label_entry]. change (IsChild (linkEntry c)) with true. cbn match.
    change (ChildCID (linkEntry c)) with (Some c). cbn [nd_Entries]. destruct xs as [|[k v|] xs]; [done| |done].
    destruct Hok as [Hk Hok]. rewrite NodeData_loop_val by done. rewrite (NodeData_loop_after 1 xs _ []) by done.
    cbn [encode]. destruct (encode k xs) as [[?|] ?]; done.
Qed.

(** The height [NodeData.Node] finds. *)
Fixpoint first_height (height : Z) (xs : list label) : Z :=
  match xs with
  | [] => height
  | LVal k _ :: xs => first_height (if height <? 0 then HeightForKey k else height) xs
  | LLink _ :: xs => first_height height xs
  end.

Definition tail_link (xs : list label) : list label := match xs with LLink _ :: xs => xs | xs => xs end.

Lemma Node_loop_encode prev height xs :
  labels_ok xs →
  Node_loop (encode prev xs).2 prev height = Ok (map (label_entry false) (tail_link xs), first_height height xs).
Proof.
  revert prev height. induction xs as [|[k v|c] xs IH]; intros prev height Hok; [done|..].
  - destruct Hok as [Hk Hok]. rewrite encode_val. cbn [snd Node_loop PrefixLen KeySuffix].
    pose proof (CountPrefixLen_le prev k) as Hle.
    replace ((Z.of_nat (CountPrefixLen prev k) <? 0) || (len prev <? Z.of_nat (CountPrefixLen prev k))) with false.
    2: { symmetry. apply orb_false_iff. rewrite !Z.ltb_ge. unfold len. lia. }
    rewrite Nat2Z.id, prefix_roundtrip, IH by done. cbn [mbind result_bind ed_Value Right tail_link map first_height].
    do 2 f_equal. simpl. do 2 f_equal. destruct xs as [|[k' v'|c] xs]; [done|by rewrite encode_val|done].
  - destruct Hok as [Hadj Hok]. cbn [encode snd]. rewrite IH by done. simpl. do 3 f_equal. destruct xs as [|[|] xs]; done.
Qed.

Lemma NodeData_Node_labels xs ref :
  labels_ok xs →
  NodeData_Node (mkNodeData (encode EmptyString xs).1 (encode EmptyString xs).2) (Some ref)
  = Ok (mkNode (map (label_entry false) xs) (first_height (-1) xs) false (Some ref) false).
Proof.
  intros Hok. unfold NodeData_Node. cbn [nd_Entries Left]. rewrite Node_loop_encode by done. cbn [mbind result_bind].
  do 2 f_equal. destruct xs as [|[k v|c] xs]; [done|by rewrite encode_val|done].
Qed.

Lemma encode_prefix_range prev xs :
  labels_ok xs → len prev ≤ MAX_KEY_BYTES → Forall (λ e, - 2 ^ 63 ≤ PrefixLen e < 2 ^ 63) (encode prev xs).2.
Proof.
  revert prev. induction xs as [|[k v|c] xs IH]; intros prev Hok Hp; [constructor|..].
  - destruct Hok as [Hk Hok]. rewrite encode_val. constructor.
    + simpl. pose proof (CountPrefixLen_le prev k). unfold len, MAX_KEY_BYTES in *. lia.
    + apply IH; [done|]. unfold IsValidKey in Hk. apply negb_true_iff, orb_false_iff in Hk as [_ Hk]. by apply Z.ltb_ge in Hk.
  - destruct Hok as [_ Hok]. cbn [encode snd]. by apply IH.
Qed.

Lemma label_entry_inj d x y : label_entry d x = label_entry d y → x = y.
Proof. destruct x, y; simpl; unfold linkEntry; congruence. Qed.

Lemma labels_inj xs ys :
  labels_ok xs → labels_ok ys →
  mkNodeData (encode EmptyString xs).1 (encode EmptyString xs).2 = mkNodeData (encode EmptyString ys).1 (encode EmptyString ys).2 →
  xs = ys.
Proof.
  intros Hx Hy Heq. pose proof (NodeData_Node_labels xs EmptyString Hx) as Hdx.
  rewrite Heq, (NodeData_Node_labels ys EmptyString Hy) in Hdx. injection Hdx as Hm _.
  clear -Hm. revert ys Hm. induction xs as [|x xs IH]; intros [|y ys] Hm; simplify_eq/=; [done|].
  f_equal; [symmetry; by eapply label_entry_inj|by apply IH].
Qed.

Section Load.
Context `{CborGen, !CborLaws, CidLib}.

(** ** The block of a tree determines the list *)

Definition label_of (child_CID : list kv → result mst_err cid) (x : label) (it : item) : Prop :=
  match x, it with
  | LVal k v, IVal k' v' => k = k' ∧ v = v'
  | LLink c, IRun run => child_CID run = Ok c
  | _, _ => False
  end.

Lemma canon_entries_labels rec its es :
  canon_entries rec its = Ok es → ∃ xs, es = map (label_entry true) xs ∧ Forall2 (label_of rec) xs its.
Proof.
  revert es. induction its as [|[k v|run] its IH]; simpl; intros es Hc.
  - injection Hc as <-. exists []. split; [done|constructor].
  - apply result_bind_Ok in Hc as (es' & (xs & -> & Hf)%IH & [= <-]). exists (LVal k v :: xs). split; [done|]. by constructor.
  - apply result_bind_Ok in Hc as (c & Hc & (es' & (xs & -> & Hf)%IH & [= <-])%result_bind_Ok).
    exists (LLink c :: xs). split; [done|]. by constructor.
Qed.

Lemma labels_of_ok h rec xs its :
  Forall2 (label_of rec) xs its → items_ok h its → valid_keys (flatten its) → labels_ok xs.
Proof.
  induction 1 as [|x it xs its Hx Hf IH]; [done|]. intros Hok Hv. rewrite flatten_cons in Hv. apply Forall_app in Hv as [Hv1 Hv2].
  destruct x as [k v|c], it as [k' v'|run]; try done; simpl in Hok.
  - destruct Hx as [-> ->]. apply Forall_cons in Hv1 as [Hk _]. split; [done|]. apply IH; [by destruct Hok|done].
  - destruct Hok as (_ & _ & Hh & Hok). split; [|by apply IH]. destruct Hf as [|y it' ? ? Hy]; [done|]. by destruct y, it'.
Qed.

Lemma mstData_labels h l nd :
  mstData h l = Ok nd → valid_keys l →
  ∃ xs, Forall2 (label_of (sub_CID h)) xs (groups (Z.of_nat h) l) ∧ labels_ok xs ∧
    nd = mkNodeData (encode EmptyString xs).1 (encode EmptyString xs).2.
Proof.
  intros Hd Hv. unfold mstData in Hd. apply result_bind_Ok in Hd as (es & (xs & -> & Hf)%canon_entries_labels & Hn).
  assert (labels_ok xs) as Hok by (eapply labels_of_ok; [exact Hf|apply groups_ok|by rewrite groups_flatten]).
  exists xs. split; [done|]. split; [done|]. rewrite Node_NodeData_labels in Hn by done. congruence.
Qed.

Lemma mstCID_block h l c :
  mstCID h l = Ok c → ∃ nd b, mstData h l = Ok nd ∧ NodeData_Bytes nd = Ok (b, c).
Proof.
  rewrite mstCID_data. intros (nd & Hd & Hc)%result_bind_Ok. unfold data_CID in Hc.
  destruct (NodeData_Bytes nd) as [[b c']|] eqn:Hb; [|done]. injection Hc as <-. by exists nd, b.
Qed.

(** Reading back the block of a tree. *)
Lemma block_decodes h l nd b c :
  mstData h l = Ok nd → valid_keys l → NodeData_Bytes nd = Ok (b, c) → NodeDataFromCBOR b = Ok nd ∧ cid_Sum b = Ok c.
Proof.
  intros Hd Hv Hb. destruct (mstData_labels _ _ _ Hd Hv) as (xs & _ & Hok & ->).
  unfold NodeData_Bytes in Hb. apply result_bind_Ok in Hb as (b' & Hm & (c' & Hs & [= -> ->])%result_bind_Ok). split; [|done].
  unfold NodeDataFromCBOR. rewrite <-(str_app_nil_r b). erewrite NodeData_roundtrip_app; [done| |exact Hm].
  by apply encode_prefix_range.
Qed.

Lemma valid_run h l run : valid_keys l → IRun run ∈ groups h l → valid_keys run.
Proof.
  intros Hv Hin. rewrite <-(groups_flatten h l) in Hv. revert Hv Hin. generalize (groups h l) as its.
  induction its as [|it its IH]; intros Hv Hin; [by apply elem_of_nil in Hin|]. rewrite flatten_cons in Hv.
  apply Forall_app in Hv as [Hv1 Hv2]. apply elem_of_cons in Hin as [<-|Hin]; [done|]. by apply IH.
Qed.

(** No two blocks have the same CID. *)
Definition collision_free : Prop := ∀ b b' c, cid_Sum b = Ok c → cid_Sum b' = Ok c → b = b'.

Lemma mstCID_inj h1 h2 l1 l2 c :
  collision_free → mstCID h1 l1 = Ok c → mstCID h2 l2 = Ok c → valid_keys l1 → valid_keys l2 → l1 = l2.
Proof.
  intros Hcf. revert h2 l1 l2 c. induction h1 as [h1 IH] using (well_founded_induction lt_wf). intros h2 l1 l2 c Hc1 Hc2 Hv1 Hv2.
  destruct (mstCID_block _ _ _ Hc1) as (nd1 & b1 & Hd1 & Hb1). destruct (mstCID_block _ _ _ Hc2) as (nd2 & b2 & Hd2 & Hb2).
  destruct (block_decodes _ _ _ _ _ Hd1 Hv1 Hb1) as [Hde1 Hs1]. destruct (block_decodes _ _ _ _ _ Hd2 Hv2 Hb2) as [Hde2 Hs2].
  pose proof (Hcf _ _ _ Hs1 Hs2) as ->. rewrite Hde1 in Hde2. injection Hde2 as <-.
  destruct (mstData_labels _ _ _ Hd1 Hv1) as (xs & Hf1 & Hok1 & ->). destruct (mstData_labels _ _ _ Hd2 Hv2) as (ys & Hf2 & Hok2 & Heq).
  apply labels_inj in Heq as <-; [|done..]. rewrite <-(groups_flatten (Z.of_nat h1) l1), <-(groups_flatten (Z.of_nat h2) l2).
  pose proof (λ run, valid_run (Z.of_nat h1) l1 run Hv1) as Hr1. pose proof (λ run, valid_run (Z.of_nat h2) l2 run Hv2) as Hr2.
  clear -IH Hf1 Hf2 Hr1 Hr2 Hcf. revert Hf2 Hr1 Hr2. generalize (groups (Z.of_nat h2) l2) as its2.
  induction Hf1 as [|x it1 xs its1 Hx Hf1 IHf]; intros its2 Hf2 Hr1 Hr2; [by inversion Hf2|].
  apply Forall2_cons_inv_l in Hf2 as (it2 & its2' & Hy & Hf2 & ->). rewrite !flatten_cons. f_equal.
  - destruct x as [k v|cc], it1 as [|run1], it2 as [|run2]; try done; simpl in *; [naive_solver|].
    destruct h1 as [|h1]; [done|]. destruct h2 as [|h2]; [done|]. eapply (IH h1); [lia|done|done|apply Hr1; set_solver|apply Hr2; set_solver].
  - apply IHf; [done|intros; apply Hr1; set_solver|intros; apply Hr2; set_solver].
Qed.

(** ** Loading *)

(** A node as it is read: the height of a node without values may be missing. *)
Fixpoint loaded (h : nat) (n : Node) (l : list kv) : Prop :=
  Stub n = false ∧ Dirty n = false ∧ (Height n = Z.of_nat h ∨ Height n = -1) ∧
  (∃ cc, CID n = Some cc ∧ mstCID h l = Ok cc) ∧
  Forall2 (λ e it,
    match it with
    | IVal k v => k ≠ EmptyString ∧ Key e = k ∧ Value e = Some v ∧ ChildCID e = None ∧ Child e = None
    | IRun run =>
        Key e = EmptyString ∧ Value e = None ∧ (∃ cc, ChildCID e = Some cc ∧ sub_CID h run = Ok cc) ∧
        match Child e with
        | None => True
        | Some c => match h with O => False | S h' => loaded h' c run end
        end
    end) (Entries n) (groups (Z.of_nat h) l).

Definition loaded_entry (h : nat) (e : Entry) (it : item) : Prop :=
  match it with
  | IVal k v => k ≠ EmptyString ∧ Key e = k ∧ Value e = Some v ∧ ChildCID e = None ∧ Child e = None
  | IRun run =>
      Key e = EmptyString ∧ Value e = None ∧ (∃ cc, ChildCID e = Some cc ∧ sub_CID h run = Ok cc) ∧
      match Child e with
      | None => True
      | Some c => match h with O => False | S h' => loaded h' c run end
      end
  end.

Lemma loaded_unfold h n l :
  loaded h n l ↔ Stub n = false ∧ Dirty n = false ∧ (Height n = Z.of_nat h ∨ Height n = -1) ∧
    (∃ cc, CID n = Some cc ∧ mstCID h l = Ok cc) ∧ Forall2 (loaded_entry h) (Entries n) (groups (Z.of_nat h) l).
Proof. by destruct h. Qed.

Lemma ensureHeights_at_unfold n height :
  ensureHeights_at n height =
  mkNode
    (if height <=? 0 then Entries n
     else map (λ e,
       match Child e with
       | None => e
       | Some c => set_Child (Some (ensureHeights_at c
                     (if (0 <? height) && (Height c <? 0) then height - 1 else Height c))) e
       end) (Entries n))
    height (Dirty n) (CID n) (Stub n).
Proof. by destruct n. Qed.

(** [ensureHeights] fills in the heights that are missing. *)
Lemma ensureHeights_rep h n l : loaded h n l → @rep _ _ any_link h (ensureHeights_at n (Z.of_nat h)) l.
Proof.
  revert n l. induction h as [|h IH]; intros n l (Hst & Hd & _ & (cc & Hcc & Hm) & Hes)%loaded_unfold;
    rewrite ensureHeights_at_unfold; apply rep_unfold; simpl; (split; [done|]; split; [done|]; split; [|intros _; exists cc; by split; [|split]]).
  - eapply Forall2_impl; [exact Hes|]. intros e [k v|run]; [done|]. intros (_ & _ & (c & _ & Hc) & _). done.
  - apply Forall2_fmap_l. eapply Forall2_impl; [exact Hes|]. intros e [k v|run].
    + intros (Ha & Hb & He & Hf & Hg). simpl. by rewrite Hg.
    + intros (Hk & Hv & (c0 & Hc0 & Hm0) & Hc). assert (link_ok (@sub_link _ _ any_link (S h)) (ChildCID e) run) as Hlk by (exists c0; by split; [|split]).
      destruct (Child e) as [c|] eqn:Hch; simpl; rewrite !Hch; simpl.
      * split; [done|]. split; [done|]. pose proof Hc as (_ & _ & Hh & _)%loaded_unfold.
        replace (if Height c <? 0 then Z.of_nat (S h) - 1 else Height c) with (Z.of_nat h) by (destruct (Height c <? 0) eqn:E; bool_to_prop; lia).
        split; [by apply IH|]. done.
      * done.
Qed.

Lemma ensureHeights_partial n height : IsPartial n = false → IsPartial (ensureHeights_at n height) = false.
Proof.
  revert n height. assert (∀ d n height, (depth n ≤ d)%nat → IsPartial n = false → IsPartial (ensureHeights_at n height) = false) as Hgo.
  2: { intros n height. by eapply (Hgo (depth n)). }
  induction d as [|d IH]; intros n height Hd Hp; [rewrite depth_unfold in Hd; lia|].
  apply IsPartial_false in Hp as [Hst Hc]. rewrite ensureHeights_at_unfold. apply IsPartial_false. simpl. split; [done|].
  destruct (height <=? 0); [done|]. unfold complete in *. rewrite Forall_map. apply Forall_forall. intros e He.
  pose proof (proj1 (Forall_forall _ _) Hc e He) as Hpe. unfold entry_partial in *. destruct (Child e) as [c|] eqn:Hch; simpl; [|by rewrite Hch].
  apply IH; [|done]. pose proof (depth_child n e c He Hch). lia.
Qed.

Section FromStore.
Context (st : gmap cid string).

Definition store_Get (c : cid) : result load_err string :=
  match st !! c with Some b => Ok b | None => Err NotFound end.

(** What a CAR reader that checks hashes guarantees of the blocks it returns:
    the block under a CID of the kind [cid_Sum] makes has that CID. *)
Definition verified_store : Prop := ∀ c b b', st !! c = Some b → cid_Sum b' = Ok c → cid_Sum b = Ok c.

(** Every block of the tree is in the store. *)
Fixpoint stored (h : nat) (l : list kv) : Prop :=
  (∃ nd b c, mstData h l = Ok nd ∧ NodeData_Bytes nd = Ok (b, c) ∧ st !! c = Some b) ∧
  (∀ run, IRun run ∈ groups (Z.of_nat h) l → match h with O => False | S h' => stored h' run end).

Lemma stored_block h l c : stored h l → mstCID h l = Ok c → is_Some (st !! c).
Proof.
  intros Hs Hc. assert (∃ nd b c, mstData h l = Ok nd ∧ NodeData_Bytes nd = Ok (b, c) ∧ st !! c = Some b) as (nd & b & c' & Hd & Hb & Hst) by (destruct h; apply Hs).
  rewrite mstCID_data, Hd in Hc. simpl in Hc. unfold data_CID in Hc. rewrite Hb in Hc. injection Hc as <-. by exists b.
Qed.

Lemma stored_run h l run : stored (S h) l → IRun run ∈ groups (Z.of_nat (S h)) l → stored h run.
Proof. intros [_ Hs]. apply Hs. Qed.

(** An entry of the decoded block, and the one after its child was read. *)
Definition decoded_entry (h : nat) (e : Entry) (it : item) : Prop :=
  match it with
  | IVal k v => k ≠ EmptyString ∧ e = mkEntry k (Some v) None None false
  | IRun run => ∃ cc, e = linkEntry cc ∧ sub_CID h run = Ok cc
  end.

Definition load_ok (h : nat) (l : list kv) (c : cid) (res : result load_err Node) : Prop :=
  match res with
  | Ok n => loaded h n l ∧ (canonical h l → l ≠ [] → Height n = Z.of_nat h) ∧ (l = [] → Height n = -1) ∧ (stored h l → IsPartial n = false)
  | Err NotFound => st !! c = None
  | Err (LoadErr _) => False
  end.

Lemma load_children_spec rec h es its height :
  Forall2 (decoded_entry h) es its →
  (∀ h' run cc, h = S h' → IRun run ∈ its → mstCID h' run = Ok cc → load_ok h' run cc (rec cc)) →
  height = Z.of_nat h ∨ height = -1 →
  ∃ es' height', load_children rec es height = Ok (es', height') ∧ Forall2 (loaded_entry h) es' its ∧
    (height' = Z.of_nat h ∨ height' = -1) ∧ (height = Z.of_nat h → height' = Z.of_nat h) ∧ (its = [] → height' = height) ∧
    ((∀ h' run, h = S h' → IRun run ∈ its → stored h' run) → complete es').
Proof.
  intros Hes. revert height. induction Hes as [|e it es its He Hes IH]; intros height Hrec Hh.
  { exists [], height. repeat split; try done; constructor. }
  assert (∀ height, height = Z.of_nat h ∨ height = -1 → ∃ es' height', load_children rec es height = Ok (es', height') ∧ Forall2 (loaded_entry h) es' its ∧
    (height' = Z.of_nat h ∨ height' = -1) ∧ (height = Z.of_nat h → height' = Z.of_nat h) ∧ (its = [] → height' = height) ∧
    ((∀ h' run, h = S h' → IRun run ∈ its → stored h' run) → complete es')) as IH'.
  { intros z Hz. apply IH; [|done]. intros. apply Hrec; [done|set_solver|done]. }
  clear IH. cbn [load_children]. destruct it as [k v|run].
  - destruct He as [Hk ->]. destruct (IH' height Hh) as (es' & z & Heq & Hf & Hz & Hz' & _ & Hc).
    change (IsChild (mkEntry k (Some v) None None false)) with false. cbn match. rewrite Heq. cbn [mbind result_bind].
    eexists _, z. split; [reflexivity|]. split; [by constructor|]. split; [done|]. split; [done|]. split; [done|].
    intros Hst. constructor; [done|]. apply Hc. intros h' run0 Hh' Hin. apply (Hst h' run0); [done|set_solver].
  - destruct He as (cc & -> & Hcc). change (IsChild (linkEntry cc)) with true. change (ChildCID (linkEntry cc)) with (Some cc). cbn match.
    destruct h as [|h]; [done|]. simpl in Hcc. pose proof (Hrec h run cc eq_refl ltac:(set_solver) Hcc) as Hl.
    destruct (rec cc) as [child|[|err]]; [| |done].
    + destruct Hl as (Hld & _ & _ & Hlc). pose proof Hld as (_ & _ & Hhc & _)%loaded_unfold.
      destruct (IH' (if (height =? -1) && (0 <=? Height child) then Height child + 1 else height)) as (es' & z & Heq & Hf & Hz & Hz' & _ & Hc).
      { destruct (height =? -1) eqn:E1; [|done]. destruct (0 <=? Height child) eqn:E2; simpl; bool_to_prop; lia. }
      cbv zeta. rewrite Heq. cbn [mbind result_bind]. eexists _, z. split; [reflexivity|]. split.
      { constructor; [|done]. split; [done|]. split; [done|]. split; [by exists cc|]. done. }
      split; [done|]. split; [|split; [done|]].
      * intros ->. apply Hz'. rewrite (proj2 (Z.eqb_neq (Z.of_nat (S h)) (-1))) by lia. done.
      * intros Hst. constructor.
        -- unfold entry_partial. simpl. apply Hlc. apply (Hst h run); [done|set_solver].
        -- apply Hc. intros h' run0 Hh' Hin. apply (Hst h' run0); [done|set_solver].
    + destruct (IH' height Hh) as (es' & z & Heq & Hf & Hz & Hz' & _ & Hc). rewrite Heq. cbn [mbind result_bind].
      eexists _, z. split; [reflexivity|]. split.
      { constructor; [|done]. split; [done|]. split; [done|]. split; [by exists cc|]. done. }
      split; [done|]. split; [done|]. split; [done|]. intros Hst. exfalso.
      pose proof (stored_block h run cc (Hst h run eq_refl ltac:(set_solver)) Hcc) as [b Hb]. congruence.
Qed.

Lemma first_height_spec h rec xs its z :
  Forall2 (label_of rec) xs its → items_ok (Z.of_nat h) its →
  (z = Z.of_nat h → first_height z xs = Z.of_nat h) ∧
  (z = -1 → first_height z xs = if existsb (λ it, negb (is_run it)) its then Z.of_nat h else -1).
Proof.
  intros Hf. revert z. induction Hf as [|x it xs its Hx Hf IH]; intros z Hok; [done|].
  destruct x as [k v|c], it as [k' v'|run]; try done; simpl in *.
  - destruct Hx as [-> _]. destruct Hok as [Hk Hok]. split; intros ->.
    + rewrite (proj2 (Z.ltb_ge (Z.of_nat h) 0)) by lia. by apply IH.
    + simpl. by apply IH.
  - destruct Hok as (_ & _ & _ & Hok). by apply IH.
Qed.

Lemma canonical_has_value h its :
  items_ok (Z.of_nat h) its → Exists (λ p, HeightForKey p.1 = Z.of_nat h) (flatten its) → existsb (λ it, negb (is_run it)) its = true.
Proof.
  intros Hok He. induction its as [|[k v|run] its IH]; simpl in *; [by inversion He|done|].
  destruct Hok as (_ & Hr & _ & Hok). rewrite flatten_cons in He. apply Exists_app in He as [He|He]; [|by apply IH].
  exfalso. apply Exists_exists in He as (p & Hp & Hh). rewrite Forall_forall in Hr. by apply (Hr p).
Qed.

Lemma decoded_labels h xs its :
  Forall2 (label_of (sub_CID h)) xs its → labels_ok xs → Forall2 (decoded_entry h) (map (label_entry false) xs) its.
Proof.
  induction 1 as [|x it xs its Hx Hf IH]; simpl; [constructor|]. intros Hok.
  destruct x as [k v|c], it as [k' v'|run]; try done; destruct Hok as [Hk Hok]; constructor; try by apply IH.
  - destruct Hx as [-> ->]. split; [by apply valid_key_ne|done].
  - by exists c.
Qed.

Lemma loadNode_spec fuel h l c :
  collision_free → verified_store → (h < fuel)%nat → valid_keys l → mstCID h l = Ok c →
  load_ok h l c (loadNodeFromStore store_Get fuel c).
Proof.
  intros Hcf Hvs. revert h l c. induction fuel as [|fuel IH]; intros h l c Hlt Hv Hc; [lia|].
  cbn [loadNodeFromStore]. destruct (st !! c) as [b|] eqn:Hb.
  2: { assert (store_Get c = Err NotFound) as -> by (unfold store_Get; by rewrite Hb). exact Hb. }
  assert (store_Get c = Ok b) as -> by (unfold store_Get; by rewrite Hb). cbn [mbind result_bind].
  destruct (mstCID_block _ _ _ Hc) as (nd & b' & Hd & Hb'). destruct (block_decodes _ _ _ _ _ Hd Hv Hb') as [Hde Hs].
  rewrite (Hcf b b' c (Hvs _ _ _ Hb Hs) Hs), Hde. destruct (mstData_labels _ _ _ Hd Hv) as (xs & Hf & Hok & ->).
  rewrite NodeData_Node_labels by done. cbn [Entries Height Dirty CID Stub].
  pose proof (groups_ok (Z.of_nat h) l) as Hio. destruct (first_height_spec h _ xs _ (-1) Hf Hio) as [_ Hfh]. specialize (Hfh eq_refl).
  destruct (load_children_spec (loadNodeFromStore store_Get fuel) h _ _ (first_height (-1) xs) (decoded_labels _ _ _ Hf Hok))
    as (es' & z & Heq & Hf' & Hz & Hz' & Hz0 & Hcm).
  { intros h' run cc -> Hin Hcc. apply IH; [lia| |done]. by eapply valid_run. }
  { rewrite Hfh. destruct (existsb _ _); [by left|by right]. }
  rewrite Heq. cbn [mbind result_bind]. split; [|split; [|split]].
  - apply loaded_unfold. simpl. repeat split; try done. by exists c.
  - intros [->|He] Hne; [done|]. simpl. apply Hz'. rewrite Hfh, (canonical_has_value h); [done|done|by rewrite groups_flatten].
  - intros ->. simpl. rewrite Hz0, Hfh by done. done.
  - intros Hst. apply IsPartial_false. split; [done|]. simpl. apply Hcm. intros h' run -> Hin. by eapply stored_run.
Qed.

(** Loading the tree of a list by its root CID. *)
Lemma LoadTree_spec fuel h l c :
  collision_free → verified_store → (h < fuel)%nat → sorted l → fits (Z.of_nat h) l → valid_keys l → canonical h l →
  mstCID h l = Ok c →
  match LoadTreeFromStore store_Get fuel c with
  | Ok t => @holds_at _ _ any_link h t l ∧ (stored h l → Tree_IsPartial t = false)
  | Err NotFound => st !! c = None
  | Err (LoadErr _) => False
  end.
Proof.
  intros Hcf Hvs Hlt Hs Hf Hv Hcan Hc. unfold LoadTreeFromStore.
  pose proof (loadNode_spec fuel h l c Hcf Hvs Hlt Hv Hc) as Hl.
  destruct (loadNodeFromStore store_Get fuel c) as [n|err]; [|done]. cbn [mbind result_bind].
  destruct Hl as (Hld & Hh & Hh0 & Hcm). split; [|intros; by apply ensureHeights_partial, Hcm].
  split; [|done..]. simpl. unfold ensureHeights. destruct (decide (l = [])) as [->|Hne].
  - pose proof Hld as (Hst & Hd & _ & (cc & Hcc & Hm) & He)%loaded_unfold. simpl in He. apply Forall2_nil_inv_r in He.
    right. right. rewrite ensureHeights_at_unfold, (Hh0 eq_refl). simpl. repeat split; try done. intros _. exists cc. by split; [|split].
  - left. rewrite Hh by done. by apply ensureHeights_rep.
Qed.
End FromStore.
End Load.
