(* ===== verification/MstMap.v ===== *)
(** * The root CID of a map

    [root_of m] is the CID of the one tree that the keys of [m] determine,
    computed from the map alone.  Trees built by operations, with the root taken
    at any time and its CIDs cached in between, have that root as long as the
    tree is not emptied on the way; and the root determines the map.  The end shows
    that [Tree.Verify] accepts canonical trees. *)

From S2P Require Import Prelude GoStrings Sha256 Cbor Mst MstData MstSpec MstSearch MstInsert MstRemove MstCid MstTree MstTerm MstLoad.
Local Open Scope Z_scope.

(** ** The sorted list of a map and its layer *)

Definition kv_of (m : gmap string cid) : list kv := fold_right (λ p l, kv_insert p.1 p.2 l) [] (map_to_list m).

Definition top_layer (l : list kv) : nat := list_max (map (λ p, Z.to_nat (HeightForKey p.1)) l).

Lemma kv_of_sorted m : sorted (kv_of m).
Proof. unfold kv_of. induction (map_to_list m) as [|p l IH]; simpl; [constructor|]. by apply kv_insert_sorted. Qed.

Lemma kv_of_map m : kvmap (kv_of m) = m.
Proof.
  rewrite <-(list_to_map_to_list m) at 2. unfold kv_of.
  induction (map_to_list m) as [|[k v] l IH]; simpl; [done|]. by rewrite kv_insert_map, IH.
Qed.

Lemma kv_of_eq l m : sorted l → kvmap l = m → l = kv_of m.
Proof. intros Hs Hm. apply sorted_map_inj; [done|apply kv_of_sorted|by rewrite kv_of_map]. Qed.

Lemma top_layer_fits l : fits (Z.of_nat (top_layer l)) l.
Proof.
  apply Forall_forall. intros p Hp. pose proof (HeightForKey_nonneg p.1). unfold top_layer.
  assert (Z.to_nat (HeightForKey p.1) ≤ list_max (map (λ p, Z.to_nat (HeightForKey p.1)) l))%nat; [|lia].
  clear -Hp. induction Hp; simpl; lia.
Qed.

Lemma top_layer_canonical l : canonical (top_layer l) l.
Proof.
  destruct l as [|p l]; [by left|]. right. revert p. induction l as [|q l IH]; intros p; pose proof (HeightForKey_nonneg p.1) as Hp.
  - left. unfold top_layer. simpl. lia.
  - destruct (decide (Z.of_nat (top_layer (q :: l)) ≤ HeightForKey p.1)) as [Hle|Hgt].
    + left. unfold top_layer in *. cbn [map list_max fold_right] in *. simpl in *. lia.
    + right. specialize (IH q). assert (top_layer (p :: q :: l) = top_layer (q :: l)) as ->; [|done].
      unfold top_layer in *. cbn [map list_max fold_right] in *. simpl in *. lia.
Qed.

Lemma top_layer_bound l : (top_layer l ≤ 128)%nat.
Proof.
  unfold top_layer. induction l as [|p l IH]; simpl; [lia|]. pose proof (HeightForKey_bound p.1). lia.
Qed.

Lemma canonical_top h l : l ≠ [] → canonical h l → fits (Z.of_nat h) l → h = top_layer l.
Proof. intros. eapply canonical_unique; eauto using top_layer_canonical, top_layer_fits. Qed.

(** ** Sequences that do not empty the tree *)

Definition map_after (op : tree_op) (m : gmap string cid) : gmap string cid :=
  match op with OpInsert key val => <[key := val]> m | OpRemove key => delete key m | OpGet _ => m end.

(** Once it has a key, the map is never empty again. *)
Fixpoint never_emptied (ops : list tree_op) (m : gmap string cid) : bool :=
  match ops with
  | [] => true
  | op :: ops =>
      (bool_decide (m = ∅) || negb (bool_decide (map_after op m = ∅))) && never_emptied ops (map_after op m)
  end.

(** Operations with the root CID taken in between. *)
Inductive root_op := Do (op : tree_op) | TakeRoot.

Fixpoint plain (ops : list root_op) : list tree_op :=
  match ops with [] => [] | Do op :: ops => op :: plain ops | TakeRoot :: ops => plain ops end.

Section Root.
Context `{CborGen, CidLib}.

Definition root_of (m : gmap string cid) : result mst_err cid := mstCID (top_layer (kv_of m)) (kv_of m).

Definition step_cached (t : Tree) (op : root_op) : result mst_err (Tree * option cid) :=
  match op with
  | Do op => step_tree t op
  | TakeRoot => let '(t, r) := Tree_RootCID t in c ← r; Ok (t, Some c)
  end.

(** The specification computes every root from the map. *)
Definition step_rooted (m : gmap string cid) (op : root_op) : result mst_err (gmap string cid * option cid) :=
  match op with
  | Do op => step_map m op
  | TakeRoot => c ← root_of m; Ok (m, Some c)
  end.

Section Steady.
Context {LP : LinkProp}.

(** [t] is the whole canonical tree of [m], with nothing left over at its top
    when it is empty. *)
Record steady (t : Tree) (m : gmap string cid) : Prop := {
  st_holds : holds_at (top_layer (kv_of m)) t (kv_of m) ∨ (m = ∅ ∧ ∃ h, holds_at h t []);
  st_whole : Tree_IsPartial t = false;
  st_empty : m = ∅ → Height (Root t) ≤ 0;
}.

Lemma steady_intro h t l m :
  holds_at h t l → canonical h l → kvmap l = m → Tree_IsPartial t = false → (m = ∅ → Height (Root t) ≤ 0) → steady t m.
Proof.
  intros Hat Hc Hm Hp He. pose proof Hat as [_ Hs Hf _]. pose proof (kv_of_eq l m Hs Hm) as Hl. split; [|done..].
  destruct (decide (l = [])) as [->|Hne].
  - right. split; [by rewrite <-Hm|]. by exists h.
  - left. rewrite <-Hl. by rewrite <-(canonical_top h l).
Qed.

Lemma kv_of_empty : kv_of ∅ = [].
Proof. done. Qed.

Lemma steady_holds t m : steady t m → ∃ h, holds_at h t (kv_of m) ∧ canonical h (kv_of m).
Proof.
  intros [[Hat|[-> [h Hat]]] _ _].
  - eexists. split; [exact Hat|]. apply top_layer_canonical.
  - exists h. rewrite kv_of_empty. split; [done|by left].
Qed.

Lemma steady_root t m c : steady t m → (Tree_RootCID t).2 = Ok c ↔ root_of m = Ok c.
Proof.
  intros (h & [Hr _ Hf _] & Hc)%steady_holds. pose proof (RootCID_spec LP h t _ Hr) as Hspec. unfold root_of.
  assert (mstCID h (kv_of m) = mstCID (top_layer (kv_of m)) (kv_of m)) as Heq.
  { destruct (decide (kv_of m = [])) as [->|Hne]; [apply mstCID_nil|]. by rewrite <-(canonical_top h _ Hne Hc Hf). }
  rewrite <-Heq. destruct (Tree_RootCID t).2 as [c'|err]; [by destruct Hspec as [-> _]|]. split; [done|]. intros Hx. by destruct (Hspec c).
Qed.

Lemma Tree_Remove_empty t key :
  IsValidKey key = true → Stub (Root t) = false → Entries (Root t) = [] → Tree_Remove t key = Ok (t, None).
Proof.
  destruct t as [n]. simpl. intros Hk Hst He. unfold Tree_Remove. rewrite Hk. simpl. rewrite remove_unfold, Hst. cbv zeta.
  change (-1 <? 0) with true. cbn match. unfold findExistingChild, findExistingEntry. rewrite He. simpl.
  by destruct (Height n <? HeightForKey key), (HeightForKey key <? Height n).
Qed.

Lemma holds_nil h t : holds_at h t [] → Tree_IsPartial t = false → Stub (Root t) = false ∧ Entries (Root t) = [].
Proof.
  intros Hat Hp. assert (Stub (Root t) = false) as Hst.
  { unfold Tree_IsPartial in Hp. rewrite IsPartial_unfold in Hp. by destruct (Stub (Root t)). }
  split; [done|]. destruct (holds_at_complete _ _ _ Hat Hp) as [(_ & _ & He & _)%rep_unfold|[_ He]]; [|done].
  by apply Forall2_nil_inv_r in He.
Qed.

Lemma steady_step t m op :
  steady t m → (m = ∅ ∨ map_after op m ≠ ∅) →
  match step_map m op with
  | Ok (m', o) => m' = map_after op m ∧ ∃ t', step_tree t op = Ok (t', o) ∧ steady t' m'
  | Err err => step_tree t op = Err err
  end.
Proof.
  intros Hst Hne. pose proof (steady_holds t m Hst) as (h & Hat & Hc). pose proof Hst as [_ Hp He].
  pose proof (step_refines t m op) as Href. destruct op as [key val|key|key]; unfold step_map in *; simpl in *;
    destruct (IsValidKey key) eqn:Hk; simpl in *; try (apply Href; split; [exists h, (kv_of m); by rewrite kv_of_map|done]); split; try done.
  - pose proof (Tree_Insert_spec h t _ key val Hat Hk) as Hi. destruct (Tree_Insert t key val) as [[t' o]|err]; simpl in Hi; [|congruence].
    destruct Hi as (-> & Hp' & h' & Hat' & Hcan). exists t'. rewrite kv_lookup_map, kv_of_map. split; [done|].
    eapply (steady_intro h'); [exact Hat'| |by rewrite kv_insert_map, kv_of_map|by apply Hp'|intros Hx; by apply insert_non_empty in Hx].
    apply (Hcan h Hat Hc). destruct (decide (m = ∅)) as [->|Hm].
    + right. pose proof (HeightForKey_nonneg key). specialize (He eq_refl). lia.
    + left. intros Hx. apply Hm. by rewrite <-(kv_of_map m), Hx.
  - destruct (decide (m = ∅)) as [->|Hm].
    + rewrite kv_of_empty in Hat. destruct (holds_nil _ _ Hat Hp) as [Hs0 He0].
      exists t. rewrite Tree_Remove_empty by done. rewrite lookup_empty, delete_empty. done.
    + destruct Hne as [?|Hne]; [done|].
      pose proof (Tree_Remove_spec h t _ key Hat Hk) as Hi. destruct (Tree_Remove t key) as [[t' o]|err]; simpl in Hi; [|congruence].
      destruct Hi as (-> & Hp' & h' & Hat' & Hcan). exists t'. rewrite kv_lookup_map, kv_of_map. split; [done|].
      eapply (steady_intro h'); [exact Hat'|by apply (Hcan h Hat Hc), Hp'| |by apply Hp'|done].
      by rewrite kv_delete_map, kv_of_map by apply kv_of_sorted.
  - pose proof (Tree_Get_spec h t _ key Hat Hk) as Hi. destruct (Tree_Get t key) as [v|err]; simpl in Hi; [|congruence].
    subst v. exists t. by rewrite kv_lookup_map, kv_of_map.
Qed.
End Steady.

(** ** Taking the root *)

Lemma writeBlocks_loop_shape {Store} (rec : Node → Store → Node * Store * result mst_err cid) od es st :
  (∀ e c st, e ∈ es → Child e = Some c → IsPartial c = false → IsPartial (rec c st).1.1 = false) →
  complete es → complete (writeBlocks_loop rec od es st).1.1.
Proof.
  revert st. induction es as [|e es IH]; intros st Hrec Hc; [done|]. apply Forall_cons in Hc as [He Hc]. cbn [writeBlocks_loop].
  assert (∀ st, complete (writeBlocks_loop rec od es st).1.1) as IH' by (intros st0; apply IH; [|done]; intros; eapply Hrec; [by right|done..]).
  destruct (Child e) as [c|] eqn:Hch.
  2: { specialize (IH' st). destruct (writeBlocks_loop rec od es st) as [[es' st'] r]. by constructor. }
  destruct (_ || _ || _); [|specialize (IH' st); destruct (writeBlocks_loop rec od es st) as [[es' st'] r]; by constructor].
  specialize (Hrec e c st ltac:(set_solver) Hch). unfold entry_partial in He. rewrite Hch in He. specialize (Hrec He).
  destruct (rec c st) as [[c' st1] [cc|err]]; simpl in *; [|by constructor].
  specialize (IH' st1). destruct (writeBlocks_loop rec od es st1) as [[es' st'] r]. by constructor.
Qed.

Lemma write_node_shape {Store} (bs : option (cid → string → Store → result string Store)) n st :
  Height (write_node bs n st).1.1 = Height n ∧ Entries (write_node bs n st).1.1 = Entries n ∧ Stub (write_node bs n st).1.1 = Stub n.
Proof.
  unfold write_node. destruct (Node_NodeData n); [|done]. destruct (NodeData_Bytes _) as [[b c]|]; [|done].
  destruct bs as [put|]; [|done]. by destruct (put c b st).
Qed.

Lemma writeBlocks_shape {Store} (bs : option (cid → string → Store → result string Store)) n od st :
  Height (writeBlocks bs n od st).1.1 = Height n ∧
  (IsPartial n = false → IsPartial (writeBlocks bs n od st).1.1 = false).
Proof.
  revert n st. apply (node_depth_ind (λ n, ∀ st, _ ∧ _)). intros n IH st. rewrite writeBlocks_unfold.
  destruct (Stub n) eqn:Hst; [done|]. destruct (if od && _ then _ else _); [done|].
  pose proof (writeBlocks_loop_shape (λ c st, writeBlocks bs c od st) od (Entries n) st) as Hl.
  specialize (Hl ltac:(intros e c st0 Hin Hc; by eapply IH)).
  destruct (writeBlocks_loop _ od (Entries n) st) as [[es st1] r]. simpl in Hl.
  assert (IsPartial n = false → IsPartial (set_Entries es n) = false) as Hp.
  { intros [_ Hc]%IsPartial_false. apply IsPartial_false. split; [done|]. by apply Hl. }
  destruct r as [err|]; [done|]. cbv zeta. destruct (write_node_shape bs (set_Entries es n) st1) as (Hh & He & Hs).
  split; [done|]. intros Hn. specialize (Hp Hn). apply IsPartial_false in Hp as [_ Hc]. apply IsPartial_false.
  rewrite Hs, He. done.
Qed.

Lemma Tree_RootCID_shape t :
  Height (Root (Tree_RootCID t).1) = Height (Root t) ∧ (Tree_IsPartial t = false → Tree_IsPartial (Tree_RootCID t).1 = false).
Proof.
  unfold Tree_RootCID. destruct (if Stub _ && _ then _ else _); [done|].
  pose proof (writeBlocks_shape None (Root t) true tt) as Hw. by destruct (writeBlocks None (Root t) true tt) as [[n' []] r].
Qed.

Lemma steady_take_root t m c :
  steady (LP := any_link) t m → (Tree_RootCID t).2 = Ok c → steady (LP := any_link) (Tree_RootCID t).1 m.
Proof.
  intros Hst Hr. pose proof Hst as [_ Hp He]. pose proof (steady_holds t m Hst) as (h & [Hrr Hs Hf Hv] & Hc).
  pose proof (RootCID_spec any_link h t _ Hrr) as Hspec. rewrite Hr in Hspec. destruct Hspec as [_ Hrr'].
  destruct (Tree_RootCID_shape t) as [Hh Hp']. eapply (steady_intro h _ (kv_of m)); [by split|done|apply kv_of_map|by apply Hp'|].
  rewrite Hh. done.
Qed.

Lemma NewEmptyTree_steady {LP : LinkProp} : steady NewEmptyTree ∅.
Proof. apply (steady_intro 0 _ []); [apply NewEmptyTree_holds|by left|done..]. Qed.

Lemma run_cached ops t m :
  steady (LP := any_link) t m → never_emptied (plain ops) m = true →
  ∀ outs, (∃ t', run step_cached ops t = Ok (t', outs)) ↔ (∃ m', run step_rooted ops m = Ok (m', outs)).
Proof.
  revert t m. induction ops as [|op ops IH]; intros t m Hst Hne outs.
  { simpl. split; intros [? [= _ <-]]; eauto. }
  assert (∀ t1 m1 o, steady (LP := any_link) t1 m1 → never_emptied (plain ops) m1 = true →
    step_cached t op = Ok (t1, o) → step_rooted m op = Ok (m1, o) →
    (∃ t', run step_cached (op :: ops) t = Ok (t', outs)) ↔ (∃ m', run step_rooted (op :: ops) m = Ok (m', outs))) as Hgo.
  { intros t1 m1 o Hst1 Hne1 Ht Hm. cbn [run]. rewrite Ht, Hm. cbn [mbind result_bind]. specialize (IH t1 m1 Hst1 Hne1).
    destruct (run step_cached ops t1) as [[t' os]|], (run step_rooted ops m1) as [[m' os']|]; cbn [mbind result_bind].
    - destruct (proj1 (IH os) (ex_intro _ t' eq_refl)) as [m2 [= <- <-]]. split; intros [? [= _ <-]]; eauto.
    - by destruct (proj1 (IH os) (ex_intro _ t' eq_refl)).
    - by destruct (proj2 (IH os') (ex_intro _ m' eq_refl)).
    - by split; intros [? ?]. }
  destruct op as [op|].
  - cbn [plain never_emptied] in Hne. apply andb_true_iff in Hne as [Hn1 Hn2]. rewrite orb_true_iff, negb_true_iff, bool_decide_eq_true, bool_decide_eq_false in Hn1.
    pose proof (steady_step t m op Hst Hn1) as Hs. destruct (step_map m op) as [[m1 o]|err] eqn:Hm.
    + destruct Hs as (-> & t1 & Ht & Hst1). by apply (Hgo t1 (map_after op m) o).
    + cbn [run step_cached step_rooted]. rewrite Hs, Hm. by split; intros [? ?].
  - cbn [plain] in Hne. destruct (Tree_RootCID t).2 as [c|err] eqn:Hr.
    + assert (step_cached t TakeRoot = Ok ((Tree_RootCID t).1, Some c)) as Ht by (unfold step_cached; destruct (Tree_RootCID t); simpl in *; by rewrite Hr).
      apply (Hgo (Tree_RootCID t).1 m (Some c)); [by eapply steady_take_root|done|done|].
      unfold step_rooted. by rewrite (proj1 (steady_root t m c Hst) Hr).
    + cbn [run step_cached step_rooted]. assert (∀ c, root_of m ≠ Ok c) as Hno by (intros c Hx%(steady_root t m c Hst); congruence).
      destruct (Tree_RootCID t) as [t1 r]. simpl in Hr. subst r. simpl. destruct (root_of m) as [c|]; [by destruct (Hno c)|].
      by split; intros [? ?].
Qed.
End Root.

(** * [Tree.Verify] accepts canonical trees: [src/atproto/repo/mst/verify.go] *)

Section Verify.
Context `{CborGen, CidLib} {LP : LinkProp}.

Lemma verifyStructure_unfold n height key :
  verifyStructure n height key =
  if Stub n then Some (MstErr "stub node")
  else if bool_decide (CID n = None) && negb (Dirty n) then Some (MstErr "node missing CID, but not marked dirty")
  else if (length (Entries n) =? 0)%nat then
    if 0 <=? height then Some (MstErr "empty tree node") else None
  else
    let height := node_height height (Entries n) in
    if height <? 0 then Some (MstErr "top of tree is just a pointer to child")
    else if (Height n =? -1) || negb (Height n =? height) then Some (MstErr "node has incorrect height")
    else verifyStructure_loop verifyStructure height false key (Entries n).
Proof. by destruct n. Qed.

Lemma node_height_rep h es its :
  nrep h es its → items_ok (Z.of_nat h) its → existsb (λ it, negb (is_run it)) its = true → node_height (-1) es = Z.of_nat h.
Proof.
  unfold node_height. change (-1 <? 0) with true. cbn match. intros Hes. induction Hes as [|e it es its He Hes IH]; [done|].
  intros Hok Hex. cbn [list_find]. destruct it as [k v|run].
  - apply entry_val in He as (Hv & _ & Hk & _). rewrite decide_True by done. destruct Hok as [Hh _]. by rewrite Hk.
  - apply entry_run in He as [Hv _]. rewrite decide_False by by rewrite Hv. destruct Hok as (_ & _ & _ & Hok). specialize (IH Hok Hex).
    destruct (list_find _ es) as [[i e0]|]; simpl; [done|]. lia.
Qed.

Lemma verifyStructure_loop_rep rec h last key es its :
  (∀ h' c run key, h = S h' → rep h' c run → IsPartial c = false → run ≠ [] → sorted run → fits (Z.of_nat h') run → above key run →
     rec c (Z.of_nat h') key = None) →
  nrep h es its → complete es → items_ok (Z.of_nat h) its → sorted (flatten its) → fits (Z.of_nat h) (flatten its) →
  above key (flatten its) → (last = true → head_run its = false) →
  verifyStructure_loop rec (Z.of_nat h) last key es = None.
Proof.
  intros Hrec Hes. revert last key. induction Hes as [|e it es its He Hes IH]; intros last key Hcm Hok Hs Hf Ha Hlast; [done|].
  apply Forall_cons in Hcm as [Hce Hcm]. rewrite flatten_cons in Hs, Hf, Ha. cbn [verifyStructure_loop].
  destruct it as [k v|run]; cbn [pairs app] in *.
  - apply entry_val in He as (-> & -> & -> & _). destruct Hok as [Hh Hok]. apply Forall_cons in Ha as [Hk Ha]. simpl in Hk.
    apply sorted_cons in Hs as [Hka Hs]. apply Forall_cons in Hf as [_ Hf].
    destruct (String.eqb_spec key k) as [->|_]; [by rewrite str_lt_irrefl in Hk|]. rewrite (str_lt_asym _ _ Hk), Hh, Z.eqb_refl. simpl.
    by apply IH.
  - pose proof (entry_run _ _ _ He) as [Hv Hc]. rewrite Hc, Hv. destruct last; [by specialize (Hlast eq_refl)|].
    pose proof Hok as (Hne & Hr & Hhd & Hok'). apply sorted_app in Hs as (Hs1 & Hs2 & _). apply Forall_app in Ha as [Ha1 Ha2].
    unfold entry_partial in Hce. destruct (Child e) as [c|] eqn:Hch.
    2: { destruct He as (_ & _ & Hl). rewrite Hch in Hl. destruct Hl as (cc & Hcc & _). by rewrite Hcc in Hce. }
    destruct (run_child _ _ _ _ He Hch) as (h' & -> & Hcr).
    destruct (Z.of_nat (S h') =? 0) eqn:E0; [apply Z.eqb_eq in E0; lia|]. replace (Z.of_nat (S h') - 1) with (Z.of_nat h') by lia.
    rewrite (Hrec h' c run key eq_refl Hcr Hce Hne Hs1); [| |done].
    + apply IH; try done. by apply Forall_app in Hf as [_ Hf].
    + replace (Z.of_nat h') with (Z.of_nat (S h') - 1) by lia. eapply fits_run; [exact Hok| |by left]. by rewrite flatten_cons.
Qed.

Lemma verifyStructure_node h n l height key :
  rep h n l → IsPartial n = false → l ≠ [] → sorted l → fits (Z.of_nat h) l → above key l →
  height = Z.of_nat h ∨ (height = -1 ∧ canonical h l) → verifyStructure n height key = None.
Proof.
  revert n l height key. induction h as [h IH] using (well_founded_induction lt_wf). intros n l height key Hr Hp Hne Hs Hf Ha Hh.
  pose proof Hr as (Hst & Hhn & He & Hd)%rep_unfold. pose proof (groups_ok (Z.of_nat h) l) as Hok. pose proof (rep_empty _ _ _ Hr) as Hemp.
  apply IsPartial_false in Hp as [_ Hcm]. rewrite verifyStructure_unfold, Hst.
  replace (bool_decide (CID n = None) && negb (Dirty n)) with false.
  2: { symmetry. destruct (Dirty n) eqn:Hdn; [by rewrite andb_false_r|]. destruct (Hd eq_refl) as (cc & Hcc & _). by rewrite Hcc. }
  unfold IsEmpty in Hemp. rewrite bool_decide_false in Hemp by done. rewrite Hemp.
  assert (node_height height (Entries n) = Z.of_nat h) as Hnh.
  { destruct Hh as [->|[-> Hc]].
    - unfold node_height. by rewrite (proj2 (Z.ltb_ge (Z.of_nat h) 0)) by lia.
    - destruct Hc as [?|Hc]; [done|]. eapply node_height_rep; [done..|]. eapply canonical_has_value; [done|by rewrite groups_flatten]. }
  cbv zeta. rewrite Hnh, Hhn. rewrite (proj2 (Z.ltb_ge (Z.of_nat h) 0)), (proj2 (Z.eqb_neq (Z.of_nat h) (-1))), Z.eqb_refl by lia. cbn [negb orb].
  apply (verifyStructure_loop_rep _ _ _ _ _ (groups (Z.of_nat h) l)); rewrite ?groups_flatten; try done.
  intros h' c run key' -> Hcr Hcp Hcn Hcs Hcf Hca. apply (IH h' ltac:(lia) c run); try done. by left.
Qed.

Lemma valid_above l : valid_keys l → above EmptyString l.
Proof. intros Hv. eapply Forall_impl; [exact Hv|]. intros p Hp%valid_key_ne. by destruct (p.1). Qed.

Lemma steady_verify t m : steady t m → Tree_Verify t = None.
Proof.
  intros Hst. pose proof (steady_holds t m Hst) as (h & Hat & Hc). pose proof Hst as [_ Hp _]. unfold Tree_Verify.
  destruct (decide (kv_of m = [])) as [Hn|Hne].
  - rewrite Hn in Hat. destruct (holds_nil _ _ Hat Hp) as [Hs0 He0]. rewrite verifyStructure_unfold, Hs0, He0. simpl.
    assert (bool_decide (CID (Root t) = None) && negb (Dirty (Root t)) = false) as ->; [|done].
    destruct (Dirty (Root t)) eqn:Hd; [by rewrite andb_false_r|].
    destruct Hat as [[(_ & _ & _ & Hl)%rep_unfold|[(? & _)|(_ & _ & _ & _ & Hl)]] _ _ _]; [|congruence|];
      destruct (Hl Hd) as (cc & -> & _); done.
  - pose proof Hat as [_ Hs Hf Hv]. destruct (holds_at_complete _ _ _ Hat Hp) as [Hr|[? _]]; [|done].
    eapply verifyStructure_node; [exact Hr|done..|by apply valid_above|by right].
Qed.
End Verify.
