(* ===== verification/Repo.v ===== *)
(** * Repositories: [src/atproto/repo]

    Operations on a repository's tree ([operation.go]), commit objects
    ([commit.go]), the block store of [tiny_blockstore.go], reading a repository
    from a CAR file ([car.go], [repo.go]) and the verification of firehose
    messages ([sync.go]).  Reading the CAR format itself is the library go-car:
    [CarLib].  The signature schemes of [src/atproto/atcrypto] are [SigLib]. *)

From S2P Require Import Prelude GoStrings Regex Syntax Tid Datetime Stream Sha256 Cbor Mst MstData.
Local Open Scope string_scope.
Local Open Scope Z_scope.

Definition ATPROTO_REPO_VERSION : Z := 3.

(** The text of an error. *)
Definition mst_err_string (err : mst_err) : string :=
  match err with
  | ErrInvalidKey => "bytestring not a valid MST key"
  | ErrPartialTree => "MST is not complete"
  | ErrInvalidTree msg => "invalid MST structure: " ++ msg
  | MstErr msg | Panic msg => msg
  | OutOfFuel => "out of fuel"
  end.

Definition load_err_string (err : load_err) : string :=
  match err with NotFound => "ipld: could not find block" | LoadErr err => mst_err_string err end.

Definition wrap_err {A} (msg : string) (r : result mst_err A) : result string A :=
  match r with Ok a => Ok a | Err err => Err (msg ++ mst_err_string err) end.

(** ** [operation.go] *)

Record Operation := mkOperation {
  op_Path : string;
  op_Value : option cid;
  op_Prev : option cid;
}.

#[export] Instance Operation_eq_dec : EqDecision Operation.
Proof. solve_decision. Defined.

Definition IsCreate (op : Operation) : bool :=
  bool_decide (is_Some (op_Value op)) && bool_decide (op_Prev op = None).
Definition IsUpdate (op : Operation) : bool :=
  match op_Value op, op_Prev op with Some v, Some p => negb (String.eqb v p) | _, _ => false end.
Definition IsDelete (op : Operation) : bool :=
  bool_decide (op_Value op = None) && bool_decide (is_Some (op_Prev op)).

Definition ApplyOp (tree : Tree) (path : string) (val : option cid) : result mst_err (Tree * Operation) :=
  '(tree, prev) ← (match val with Some v => Tree_Insert tree path v | None => Tree_Remove tree path end);
  Ok (tree, mkOperation path val prev).

Definition CheckOp (tree : Tree) (op : Operation) : result string unit :=
  val ← wrap_err "" (Tree_Get tree (op_Path op));
  if IsCreate op || IsUpdate op then
    if bool_decide (is_Some val) && bool_decide (val = op_Value op) then Ok tt
    else Err "tree value did not match op"
  else if IsDelete op then
    if bool_decide (is_Some val) then Err "key still in tree after deletion op" else Ok tt
  else Err "invalid operation".

Definition InvertOp (tree : Tree) (op : Operation) : result string Tree :=
  if IsCreate op then
    '(tree, prev) ← wrap_err "failed to invert op: " (Tree_Remove tree (op_Path op));
    if bool_decide (prev = None) || negb (bool_decide (prev = op_Value op))
    then Err "failed to invert creation: previous record CID didn't match"
    else Ok tree
  else
    match op_Prev op with
    | Some p =>
        if IsUpdate op then
          '(tree, prev) ← wrap_err "failed to invert op: " (Tree_Insert tree (op_Path op) p);
          if bool_decide (prev = None) || negb (bool_decide (prev = op_Value op))
          then Err "failed to invert update: previous record CID didn't match"
          else Ok tree
        else if IsDelete op then
          '(tree, prev) ← wrap_err "failed to invert op: " (Tree_Insert tree (op_Path op) p);
          if bool_decide (is_Some prev) then Err "failed to invert deletion: key was previously in tree"
          else Ok tree
        else Err "invalid operation"
    | None => Err "invalid operation"
    end.

Fixpoint invert_ops (tree : Tree) (ops : list Operation) : result string Tree :=
  match ops with
  | [] => Ok tree
  | op :: ops => tree ← InvertOp tree op; invert_ops tree ops
  end.

(** [opByPath.Less] *)
Definition op_Less (a b : Operation) : bool :=
  if IsDelete a && negb (IsDelete b) then true else str_lt (op_Path a) (op_Path b).

(** [sort.Sort]: an insertion sort up to twelve elements, [pdqsort] above. *)
Class SortLib := { pdqsort : list Operation → list Operation }.

(** The element moves back over those it is less than; the prefix is in
    reverse. *)
Fixpoint insert_back (x : Operation) (before : list Operation) : list Operation :=
  match before with
  | [] => [x]
  | y :: before' => if op_Less x y then y :: insert_back x before' else x :: before
  end.

Definition insertionSort (l : list Operation) : list Operation :=
  rev (fold_left (λ before x, insert_back x before) l []).

Definition sort_Sort `{SortLib} (l : list Operation) : list Operation :=
  if (length l <=? 12)%nat then insertionSort l else pdqsort l.

Fixpoint duplicate_path (seen : gset string) (ops : list Operation) : bool :=
  match ops with
  | [] => false
  | op :: ops => bool_decide (op_Path op ∈ seen) || duplicate_path ({[ op_Path op ]} ∪ seen) ops
  end.

Definition NormalizeOps `{SortLib} (ops : list Operation) : result string (list Operation) :=
  if duplicate_path ∅ ops then Err "duplicate path in operation list" else Ok (sort_Sort ops).

(** ** [tiny_blockstore.go] *)

Abbreviation TinyBlockstore := (gmap cid string).
Definition NewTinyBlockstore : TinyBlockstore := ∅.
Definition TinyBlockstore_Put (c : cid) (data : string) (bs : TinyBlockstore) : result string TinyBlockstore :=
  Ok (<[c := data]> bs).
Definition TinyBlockstore_Get (bs : TinyBlockstore) (c : cid) : result load_err string :=
  match bs !! c with Some b => Ok b | None => Err NotFound end.

(** ** [commit.go] *)

Definition VerifyStructure (c : RepoCommit) : result string unit :=
  if negb (rc_Version c =? ATPROTO_REPO_VERSION) then Err "unsupported repo version"
  else if len (default "" (rc_Sig c)) =? 0 then Err "empty commit signature"
  else
    match ParseDID (rc_DID c) with
    | Err e => Err ("invalid commit data: " ++ e)
    | Ok _ =>
        match ParseTID (rc_Rev c) with
        | Err e => Err ("invalid commit data: " ++ e)
        | Ok _ => Ok tt
        end
    end.

(** The keys of [atcrypto], as strings. *)
Class SigLib := {
  HashAndSign : string → string → result string string;
  HashAndVerify : string → string → string → option string;
}.

Section Commit.
Context `{CborGen}.

Definition set_Sig (sig : option string) (c : RepoCommit) : RepoCommit :=
  mkCommit (rc_DID c) (rc_Version c) (rc_Prev c) (rc_Data c) sig (rc_Rev c).

Definition UnsignedBytes (c : RepoCommit) : result string string :=
  match rc_Sig c with
  | None => Commit_MarshalCBOR c
  | Some _ => Commit_MarshalCBOR (mkCommit (rc_DID c) (rc_Version c) (rc_Prev c) (rc_Data c) None (rc_Rev c))
  end.

Definition Commit_Sign `{SigLib} (privkey : string) (c : RepoCommit) : result string RepoCommit :=
  b ← UnsignedBytes c; sig ← HashAndSign privkey b; Ok (set_Sig (Some sig) c).

Definition Commit_VerifySignature `{SigLib} (pubkey : string) (c : RepoCommit) : option string :=
  match rc_Sig c with
  | None => Some "can not verify unsigned commit"
  | Some sig => match UnsignedBytes c with Err err => Some err | Ok b => HashAndVerify pubkey b sig end
  end.
End Commit.

(** ** [car.go] *)

(** A CAR file as go-car reads it: the header, the blocks [Next] returns, and
    the error after the last one, [None] for [io.EOF]. *)
Record CarReader := mkCarReader {
  car_Version : Z;
  car_Roots : list cid;
  car_Blocks : list (cid * string);
  car_End : option string;
}.

Class CarLib := { NewCarReader : bytes → result string CarReader }.

(** ** [repo.go] *)

Record Repo := mkRepo {
  repo_DID : string;
  Clock : TIDClock;
  RecordStore : TinyBlockstore;
  MST : Tree;
}.

Definition ErrNotFound : string := "record not found in repository".

Definition GetRecordCID (repo : Repo) (collection rkey : string) : result string cid :=
  c ← wrap_err "" (Tree_Get (MST repo) (collection ++ "/" ++ rkey));
  match c with None => Err ErrNotFound | Some c => Ok c end.

Definition GetRecordBytes (repo : Repo) (collection rkey : string) : result string (string * cid) :=
  c ← GetRecordCID repo collection rkey;
  match TinyBlockstore_Get (RecordStore repo) c with
  | Err err => Err (load_err_string err)
  | Ok b => Ok (b, c)
  end.

Section Load.
Context `{CborGen, CidLib, CarLib}.

(** [Repo.Commit]: the repository, with the CIDs its tree now caches and its
    clock advanced, and the unsigned commit. *)
Definition Repo_Commit (now : Z) (repo : Repo) : Repo * result string RepoCommit :=
  let '(tree, root) := Tree_RootCID (MST repo) in
  match root with
  | Err err => (mkRepo (repo_DID repo) (Clock repo) (RecordStore repo) tree, Err (mst_err_string err))
  | Ok root =>
      let '(rev, clock) := TIDClock_Next now (Clock repo) in
      (mkRepo (repo_DID repo) clock (RecordStore repo) tree,
       Ok (mkCommit (repo_DID repo) ATPROTO_REPO_VERSION None root None rev))
  end.

Definition parse_commit (block : string) : result string RepoCommit :=
  match Commit_UnmarshalCBOR block with
  | Err err => Err ("parsing commit block from CAR file: " ++ err)
  | Ok (commit, _) =>
      match VerifyStructure commit with
      | Err err => Err ("parsing commit block from CAR file: " ++ err)
      | Ok _ => Ok commit
      end
  end.

(** The loop that puts every block in the store. *)
Fixpoint put_blocks (blks : list (cid * string)) (bs : TinyBlockstore) : result string TinyBlockstore :=
  match blks with
  | [] => Ok bs
  | (c, b) :: blks => bs ← TinyBlockstore_Put c b bs; put_blocks blks bs
  end.

(** Levels of a tree read from [bs]: no more than the blocks, when no block is
    below itself; and at least those of every tree, whose layers are at most
    128. *)
Definition load_fuel (bs : TinyBlockstore) : nat := (size bs + 130)%nat.

Definition LoadRepoFromCAR (r : bytes) : result string (RepoCommit * Repo) :=
  cr ← NewCarReader r;
  if negb (car_Version cr =? 1) then Err "unsupported CAR file version"
  else
    match car_Roots cr with
    | [] => Err "CAR file missing root CID"
    | commitCID :: _ =>
        bs ← put_blocks (car_Blocks cr) NewTinyBlockstore;
        match car_End cr with
        | Some err => Err err
        | None =>
            match TinyBlockstore_Get bs commitCID with
            | Err err => Err ("reading commit block from CAR file: " ++ load_err_string err)
            | Ok commitBlock =>
                commit ← parse_commit commitBlock;
                match LoadTreeFromStore (TinyBlockstore_Get bs) (load_fuel bs) (rc_Data commit) with
                | Err err => Err ("reading MST from CAR file: " ++ load_err_string err)
                | Ok tree => Ok (commit, mkRepo (rc_DID commit) (ClockFromTID (rc_Rev commit)) bs tree)
                end
            end
        end
    end.

(** The loop that looks for the commit block. *)
Fixpoint find_block (c : cid) (blks : list (cid * string)) : option string :=
  match blks with
  | [] => None
  | (c', b) :: blks => if String.eqb c' c then Some b else find_block c blks
  end.

Definition LoadCommitFromCAR (r : bytes) : result string (RepoCommit * cid) :=
  cr ← NewCarReader r;
  if negb (car_Version cr =? 1) then Err "unsupported CAR file version"
  else
    match car_Roots cr with
    | [] => Err "CAR file missing root CID"
    | commitCID :: _ =>
        match find_block commitCID (car_Blocks cr) with
        | None => Err (default "no commit" (car_End cr))
        | Some commitBlock => commit ← parse_commit commitBlock; Ok (commit, commitCID)
        end
    end.

(** ** [sync.go] *)

Definition parseCommitOp (rop : SyncSubscribeRepos_RepoOp) : result string Operation :=
  if String.eqb (ro_Action rop) "create" then
    if bool_decide (ro_Cid rop = None) || bool_decide (is_Some (ro_Prev rop)) then Err "invalid repoOp: create"
    else Ok (mkOperation (ro_Path rop) (ro_Cid rop) None)
  else if String.eqb (ro_Action rop) "delete" then
    if bool_decide (is_Some (ro_Cid rop)) || bool_decide (ro_Prev rop = None) then Err "invalid repoOp: delete"
    else Ok (mkOperation (ro_Path rop) None (ro_Prev rop))
  else if String.eqb (ro_Action rop) "update" then
    if bool_decide (ro_Cid rop = None) || bool_decide (ro_Prev rop = None) then Err "invalid repoOp: update"
    else Ok (mkOperation (ro_Path rop) (ro_Cid rop) (ro_Prev rop))
  else Err ("invalid repoOp action: " ++ ro_Action rop).

Fixpoint parseCommitOps (ops : list SyncSubscribeRepos_RepoOp) : result string (list Operation) :=
  match ops with
  | [] => Ok []
  | rop :: ops => op ← parseCommitOp rop; out ← parseCommitOps ops; Ok (op :: out)
  end.

Definition writes_record (op : SyncSubscribeRepos_RepoOp) : bool :=
  String.eqb (ro_Action op) "create" || String.eqb (ro_Action op) "update".

(** The loop that reads every record the message says it writes. *)
Fixpoint check_records (repo : Repo) (ops : list SyncSubscribeRepos_RepoOp) : result string unit :=
  match ops with
  | [] => Ok tt
  | op :: ops =>
      match ro_Cid op with
      | Some c =>
          if writes_record op then
            match ParseRepoPath (ro_Path op) with
            | Err err => Err ("invalid repo path in ops list: " ++ err)
            | Ok (nsid, rkey) =>
                '(_, val) ← GetRecordBytes repo nsid rkey;
                if String.eqb c val then check_records repo ops else Err "record op doesn't match MST tree value"
            end
          else check_records repo ops
      | None => check_records repo ops
      end
  end.

(** An operation in the form that cannot be inverted. *)
Definition legacy_op (op : SyncSubscribeRepos_RepoOp) : bool :=
  (String.eqb (ro_Action op) "delete" || String.eqb (ro_Action op) "update") && bool_decide (ro_Prev op = None).

Definition VerifyCommitMessage `{SortLib} (msg : SyncSubscribeRepos_Commit) : result string Repo :=
  did ← ParseDID (cm_Repo msg);
  rev ← ParseTID (cm_Rev msg);
  _ ← ParseDatetime (cm_Time msg);
  '(commit, repo) ← LoadRepoFromCAR (cm_Blocks msg);
  if negb (String.eqb (rc_Rev commit) rev) then Err "rev did not match commit"
  else if negb (String.eqb (rc_DID commit) did) then Err "rev did not match commit"
  else
    _ ← check_records repo (cm_Ops msg);
    if existsb legacy_op (cm_Ops msg) then Ok repo
    else
      ops ← parseCommitOps (cm_Ops msg);
      ops ← NormalizeOps ops;
      invTree ← invert_ops (Tree_Copy (MST repo)) ops;
      computed ← wrap_err "" (Tree_RootCID invTree).2;
      match cm_PrevData msg with
      | Some c => if String.eqb computed c then Ok repo else Err "inverted tree root didn't match prevData"
      | None => Ok repo
      end.

(** [identity.Directory]: [LookupDID] and the identity's [PublicKey]. *)
Section Signature.
Context `{SigLib} (lookup_key : string → result string (result string string)).

Definition VerifyCommitSignatureFromCar (car : bytes) : result string RepoCommit :=
  '(commit, _) ← LoadCommitFromCAR car;
  _ ← VerifyStructure commit;
  did ← ParseDID (rc_DID commit);
  ident ← lookup_key did;
  pubkey ← ident;
  match Commit_VerifySignature pubkey commit with Some err => Err err | None => Ok commit end.

Definition VerifySyncMessage (msg : SyncSubscribeRepos_Sync) : result string RepoCommit :=
  VerifyCommitSignatureFromCar (sm_Blocks msg).

Definition VerifyCommitSignature (msg : SyncSubscribeRepos_Commit) : result string unit :=
  _ ← VerifyCommitSignatureFromCar (cm_Blocks msg); Ok tt.
End Signature.
End Load.
