(* ===== verification/MstStore.v ===== *)
(** * Writing trees to a block store and reading them back

    [Tree.WriteDiffBlocks] writes the blocks of the nodes that changed since the
    last write.  With the [TinyBlockstore] of [src/atproto/repo] behind it, every
    tree written is in the store as a whole, and is read back by its root CID. *)

From S2P Require Import Prelude GoStrings Sha256 Cbor Mst MstData MstSpec MstSearch MstInsert MstRemove MstCid MstTree MstTerm MstLoad MstMap Repo.
Local Open Scope Z_scope.

Section Store.
Context `{CborGen, CidLib}.

Definition put_block : option (cid → string → TinyBlockstore → result string TinyBlockstore) := Some TinyBlockstore_Put.

(** The blocks of the tree of [l] at layer [h] are in the store. *)
Definition in_store (st : TinyBlockstore) : LinkProp := λ h l, stored st h l.

Lemma stored_unfold st h l :
  stored st h l ↔
  (∃ nd b c, mstData h l = Ok nd ∧ NodeData_Bytes nd = Ok (b, c) ∧ st !! c = Some b) ∧
  (∀ run, IRun run ∈ groups (Z.of_nat h) l → match h with O => False | S h' => stored st h' run end).
Proof. by destruct h. Qed.

Lemma NodeData_Bytes_Sum nd b c : NodeData_Bytes nd = Ok (b, c) → cid_Sum b = Ok c.
Proof. unfold NodeData_Bytes. intros (b' & _ & (c' & Hs & [= -> ->])%result_bind_Ok)%result_bind_Ok. done. Qed.

Lemma stored_insert st h l b c : collision_free → cid_Sum b = Ok c → stored st h l → stored (<[c := b]> st) h l.
Proof.
  intros Hcf Hs. revert l. induction h as [|h IH]; intros l [(nd & b' & c' & Hd & Hb & Hc) Hr]%stored_unfold; apply stored_unfold;
    (split; [|intros run Hin; specialize (Hr run Hin); by try apply IH]); exists nd, b', c'; (split; [done|]; split; [done|]);
    (destruct (decide (c = c')) as [->|Hne]; [|by rewrite lookup_insert_ne]);
    rewrite lookup_insert_eq; f_equal; (eapply Hcf; [exact Hs|by eapply NodeData_Bytes_Sum]).
Qed.

Lemma verified_insert st b c : verified_store st → cid_Sum b = Ok c → verified_store (<[c := b]> st).
Proof.
  intros Hv Hs c' b1 b2 Hl Hb2. destruct (decide (c = c')) as [->|Hne]; [|rewrite lookup_insert_ne in Hl by done; by eapply Hv].
  rewrite lookup_insert_eq in Hl. congruence.
Qed.

(** A property of the store that writing a block keeps. *)
Lemma writeBlocks_store (I : TinyBlockstore → Prop) n od st :
  (∀ st b c nd, NodeData_Bytes nd = Ok (b, c) → I st → I (<[c := b]> st)) →
  I st → I (writeBlocks put_block n od st).1.2.
Proof.
  intros HI. revert n st. apply (node_depth_ind (λ n, ∀ st, I st → I (writeBlocks put_block n od st).1.2)). intros n IH st Hst.
  rewrite writeBlocks_unfold. destruct (Stub n); [done|]. destruct (if od && _ then _ else _); [done|].
  assert (∀ es, es ⊆ Entries n → ∀ st, I st → I (writeBlocks_loop (λ c st, writeBlocks put_block c od st) od es st).1.2) as Hloop.
  { induction es as [|e es IHes]; intros Hsub st0 Hst0; [done|]. cbn [writeBlocks_loop].
    assert (∀ st e', I st → I (let '(es, st, r) := writeBlocks_loop (λ c st, writeBlocks put_block c od st) od es st in (e' :: es : list Entry, st, r)).1.2) as Hes.
    { intros st1 e' Hst1. specialize (IHes ltac:(set_solver) st1 Hst1). by destruct (writeBlocks_loop _ od es st1) as [[? ?] ?]. }
    destruct (Child e) as [c|] eqn:Hc; [|by apply Hes]. destruct (_ || _ || _); [|by apply Hes].
    pose proof (IH e c ltac:(set_solver) Hc st0 Hst0) as Hrec. destruct (writeBlocks put_block c od st0) as [[c' st1] [cc|err]]; [|done].
    by apply Hes. }
  specialize (Hloop (Entries n) ltac:(done) st Hst). destruct (writeBlocks_loop _ od (Entries n) st) as [[es st1] [err|]]; [done|].
  cbv zeta. unfold write_node. destruct (Node_NodeData _); [|done]. destruct (NodeData_Bytes _) as [[b c]|] eqn:Hb; [|done].
  simpl. by eapply HI.
Qed.

Context (Hcf : collision_free).

Lemma write_root_spec h n l st :
  @rep _ _ (in_store st) h n l → write_ok put_block in_store h l st (writeBlocks put_block n true st).
Proof using Hcf.
  apply writeBlocks_spec.
  - intros put st0 st' h0 l0 b c nd [= <-] [= <-] Hb Hs. apply stored_insert; [done|by eapply NodeData_Bytes_Sum|done].
  - intros put st0 st' h0 l0 b c nd [= <-] [= <-] Hd Hb Hruns. apply stored_unfold. split.
    + exists nd, b, c. split; [done|]. split; [done|]. apply lookup_insert_eq.
    + intros run Hin. destruct h0 as [|h0].
      * exfalso. unfold mstData in Hd. apply result_bind_Ok in Hd as (es & He & _).
        eapply canon_entries_fail; [exact Hin| |exact He]. done.
      * apply stored_insert; [done|by eapply NodeData_Bytes_Sum|]. by eapply Hruns.
  - done.
Qed.

(** The empty tree as it is read from a store. *)
Lemma write_empty_spec n st h :
  Stub n = false → Entries n = [] → (Dirty n = false → link_ok (@is_link _ _ (in_store st) h) (CID n) []) →
  match writeBlocks put_block n true st with
  | (n', st', Ok c) => mstCID h [] = Ok c ∧ in_store st' h [] ∧ n' = mkNode [] (Height n) (Dirty n') (Some c) false ∧ Dirty n' = false
  | (_, _, Err _) => ∀ c, mstCID h [] ≠ Ok c
  end.
Proof using Hcf.
  intros Hst He Hd. assert (mstCID h [] = data_CID (mkNodeData None [])) as Hcid by by rewrite mstCID_data.
  rewrite writeBlocks_unfold, Hst, He. destruct (if true && negb (Dirty n) then CID n else None) as [c|] eqn:Hc.
  - destruct (Dirty n) eqn:Hdn; [done|]. destruct (Hd eq_refl) as (cc & Hcc & Hm & Hs). simpl in Hc. rewrite Hc in Hcc. injection Hcc as <-.
    destruct n; simpl in *; subst. done.
  - simpl. unfold write_node, Node_NodeData. simpl. rewrite Hcid. unfold data_CID.
    destruct (NodeData_Bytes (mkNodeData None [])) as [[b c]|msg] eqn:Hb; simpl; [|done]. rewrite Hst. split; [done|]. split; [|done].
    apply stored_unfold. split; [exists (mkNodeData None []), b, c; split; [done|]; split; [done|apply lookup_insert_eq]|].
    intros run Hin. by apply elem_of_nil in Hin.
Qed.

Lemma put_never_fails : never_fails put_block.
Proof. intros put c b st [= <-]. by eexists. Qed.

(** Writing the tree of [m]: the store holds all of it afterwards, and keeps what
    it had. *)
Definition write_post (m : gmap string cid) (st : TinyBlockstore) (res : Tree * TinyBlockstore * result mst_err cid) : Prop :=
  let '(t', st', r) := res in
  (∀ h l, stored st h l → stored st' h l) ∧ (verified_store st → verified_store st') ∧
  match r with
  | Ok c => steady (LP := in_store st') t' m ∧ root_of m = Ok c ∧ stored st' (top_layer (kv_of m)) (kv_of m)
  | Err _ => ∀ c, root_of m ≠ Ok c
  end.

Lemma WriteDiffBlocks_spec t m st :
  steady (LP := in_store st) t m → write_post m st (Tree_WriteDiffBlocks put_block t st).
Proof using Hcf.
  intros Hst. pose proof Hst as [_ Hp Hemp]. pose proof (steady_holds t m Hst) as (h & Hat & Hc). pose proof Hat as [Hr Hs Hf Hv].
  unfold Tree_WriteDiffBlocks. pose proof (writeBlocks_shape put_block (Root t) true st) as [Hsh Hsp].
  pose proof (writeBlocks_store verified_store (Root t) true st ltac:(intros; apply verified_insert; [done|by eapply NodeData_Bytes_Sum])) as Hvs.
  pose proof (λ h0 l0, writeBlocks_store (λ st, stored st h0 l0) (Root t) true st
    ltac:(intros; apply stored_insert; [done|by eapply NodeData_Bytes_Sum|done])) as Hkeep.
  pose proof (λ Hrr, write_root_spec h (Root t) (kv_of m) st Hrr) as Hwr. pose proof (write_empty_spec (Root t) st h) as Hwe.
  assert (root_of m = mstCID h (kv_of m)) as Hroot.
  { unfold root_of. destruct (decide (kv_of m = [])) as [->|Hne]; [apply mstCID_nil|]. by rewrite <-(canonical_top h). }
  destruct (writeBlocks put_block (Root t) true st) as [[n' st1] r]. simpl in *. split; [done|]. split; [done|].
  assert (match r with
    | Ok c => root_rep h n' (kv_of m) (LP := in_store st1) ∧ mstCID h (kv_of m) = Ok c ∧ stored st1 h (kv_of m)
    | Err _ => ∀ c, mstCID h (kv_of m) ≠ Ok c end) as Hw.
  { destruct Hr as [Hr|[(Hs1 & _)|(Hn & Hs1 & Hh1 & He1 & Hd1)]].
    - destruct (Hwr Hr) as (_ & Hx). destruct r; [destruct Hx as (Hm & Hsd & Hr' & _); split; [by left|done]|].
      apply Hx, put_never_fails.
    - unfold Tree_IsPartial in Hp. rewrite IsPartial_unfold, Hs1 in Hp. done.
    - rewrite Hn. specialize (Hwe Hs1 He1 Hd1). destruct r as [c|]; [|done]. destruct Hwe as (Hm & Hsd & Hn' & Hdn).
      split; [|done]. right. right. rewrite Hn'. simpl. repeat split; try done. intros _. exists c. split; [done|]. by split. }
  rewrite Hroot. destruct r as [c|err]; [|done]. destruct Hw as (Hr' & Hm & Hsd).
  split; [eapply (steady_intro h); [by split|done|apply kv_of_map|by apply Hsp|intros Hm0; simpl; rewrite Hsh; by apply Hemp]|].
  split; [done|]. destruct (decide (kv_of m = [])) as [Hn|Hne]; [|by rewrite <-(canonical_top h)]. rewrite Hn in *.
  apply stored_unfold in Hsd as [(nd & b & c0 & Hd0 & Hb0 & Hc0) _]. apply stored_unfold. split; [by exists nd, b, c0|].
  intros run Hin. by apply elem_of_nil in Hin.
Qed.

(** Reading a stored tree back. *)
Lemma load_steady `{!CborLaws} st m c fuel :
  verified_store st → stored st (top_layer (kv_of m)) (kv_of m) → valid_keys (kv_of m) → root_of m = Ok c → (128 < fuel)%nat →
  ∃ t, LoadTreeFromStore (TinyBlockstore_Get st) fuel c = Ok t ∧ steady (LP := any_link) t m.
Proof using Hcf.
  intros Hvs Hsd Hv Hc Hfuel. pose proof (top_layer_bound (kv_of m)) as Hb.
  pose proof (LoadTree_spec st fuel (top_layer (kv_of m)) (kv_of m) c Hcf Hvs ltac:(lia) (kv_of_sorted m) (top_layer_fits _) Hv (top_layer_canonical _) Hc) as Hl.
  change (store_Get st) with (TinyBlockstore_Get st) in Hl. destruct (LoadTreeFromStore _ fuel c) as [t|[|err]]; [|..].
  - destruct Hl as [Hat Hp]. specialize (Hp Hsd). exists t. split; [done|].
    eapply steady_intro; [exact Hat|apply top_layer_canonical|apply kv_of_map|done|]. intros ->.
    destruct Hat as [[(_ & -> & _)%rep_unfold|[(Hst & _)|(_ & _ & -> & _)]] _ _ _]; [done| |lia].
    unfold Tree_IsPartial in Hp. by rewrite IsPartial_unfold, Hst in Hp.
  - destruct (stored_block st _ _ c Hsd Hc) as [b Hb']. congruence.
  - done.
Qed.
End Store.
