(* ===== verification/RepoLibs.v ===== *)
(** * Concrete libraries behind the repository code

    An implementation of the calls of [CborGen] with the CBOR encoding of RFC
    8949, for which the laws of [CborLaws] are proved, and a [CidLib] under which
    every block is its own CID.  They show that the hypotheses of the theorems
    about repositories can hold, and let the witnesses evaluate. *)

From S2P Require Import Prelude GoStrings Sha256 Cbor Mst MstData MstSpec MstSearch MstInsert MstRemove MstCid MstTree MstLoad.
Local Open Scope string_scope.
Local Open Scope Z_scope.

(** ** Big-endian numbers *)

Definition to_char (z : Z) : ascii := ascii_of_N (Z.to_N z).
Definition of_char (c : ascii) : Z := Z.of_N (N_of_ascii c).

Fixpoint be (n : nat) (v : Z) : string :=
  match n with
  | O => ""
  | S n => String (to_char (v / 256 ^ Z.of_nat n)) (be n (v mod 256 ^ Z.of_nat n))
  end.

Fixpoint read_be (n : nat) (acc : Z) (r : string) : result string (Z * string) :=
  match n, r with
  | O, r => Ok (acc, r)
  | S n, String c r => read_be n (256 * acc + of_char c) r
  | S _, EmptyString => Err "unexpected EOF"
  end.

Lemma of_to_char z : 0 ≤ z < 256 → of_char (to_char z) = z.
Proof. intros Hz. unfold of_char, to_char. rewrite N_ascii_embedding by lia. lia. Qed.

Lemma read_be_be n acc v r :
  0 ≤ v < 256 ^ Z.of_nat n → read_be n acc (be n v ++ r) = Ok (acc * 256 ^ Z.of_nat n + v, r).
Proof.
  revert acc v. induction n as [|n IH]; intros acc v Hv; [simpl in *; do 2 f_equal; lia|].
  assert (0 < 256 ^ Z.of_nat n) as Hp by lia. rewrite Nat2Z.inj_succ, Z.pow_succ_r in Hv |- * by lia.
  cbn [be read_be append]. pose proof (Z.div_mod v (256 ^ Z.of_nat n)) as Hdm. pose proof (Z.mod_pos_bound v (256 ^ Z.of_nat n) Hp) as Hm.
  assert (0 ≤ v / 256 ^ Z.of_nat n < 256) as Hd by (split; [apply Z.div_pos; lia|apply Z.div_lt_upper_bound; lia]).
  rewrite of_to_char by done. rewrite IH by lia. do 2 f_equal. lia.
Qed.

(** ** Headers *)

Definition write_header (maj v : Z) : string :=
  if v <? 24 then byte (maj * 32 + v)
  else if v <? 2 ^ 8 then byte (maj * 32 + 24) ++ be 1 v
  else if v <? 2 ^ 16 then byte (maj * 32 + 25) ++ be 2 v
  else if v <? 2 ^ 32 then byte (maj * 32 + 26) ++ be 4 v
  else byte (maj * 32 + 27) ++ be 8 v.

Definition read_header (r : string) : result string (Z * Z * string) :=
  match r with
  | EmptyString => Err "unexpected EOF"
  | String c r =>
      let maj := of_char c / 32 in
      let low := of_char c mod 32 in
      if low <? 24 then Ok (maj, low, r)
      else
        let arg (n : nat) (min : Z) :=
          '(v, r) ← read_be n 0 r;
          if v <? min then Err "cbor input was not canonical" else Ok (maj, v, r) in
        if low =? 24 then arg 1%nat 24
        else if low =? 25 then arg 2%nat (2 ^ 8)
        else if low =? 26 then arg 4%nat (2 ^ 16)
        else if low =? 27 then arg 8%nat (2 ^ 32)
        else Err "invalid header"
  end.

Lemma header_byte maj low : 0 ≤ maj < 8 → 0 ≤ low < 32 →
  of_char (to_char (maj * 32 + low)) / 32 = maj ∧ of_char (to_char (maj * 32 + low)) mod 32 = low.
Proof.
  intros Hm Hl. rewrite of_to_char by lia. split.
  - rewrite Z.div_add_l by lia. rewrite Z.div_small by lia. lia.
  - rewrite Z.add_comm, Z_mod_plus_full, Z.mod_small by lia. done.
Qed.

Lemma read_write_header maj v r :
  0 ≤ maj < 7 → 0 ≤ v < 2 ^ 64 → read_header (write_header maj v ++ r) = Ok (maj, v, r).
Proof.
  intros Hm Hv. unfold write_header.
  assert (∀ n low (min : Z), low ∈ [24; 25; 26; 27] → n = match low with 24 => 1%nat | 25 => 2%nat | 26 => 4%nat | _ => 8%nat end →
    min = match low with 24 => 24 | 25 => 2 ^ 8 | 26 => 2 ^ 16 | _ => 2 ^ 32 end → min ≤ v < 256 ^ Z.of_nat n →
    read_header ((byte (maj * 32 + low) ++ be n v) ++ r) = Ok (maj, v, r)) as Hgo.
  { intros n low min Hin Hn Hmin Hr. rewrite str_app_assoc. unfold byte. cbn [append read_header].
    assert (24 ≤ low < 32) as Hlow by (repeat (apply elem_of_cons in Hin as [->|Hin]; [lia|]); by apply elem_of_nil in Hin).
    destruct (header_byte maj low) as [H1 H2]; [lia..|]. unfold to_char in H1, H2. rewrite H1, H2.
    rewrite (proj2 (Z.ltb_ge low 24)) by lia. cbv zeta.
    repeat (apply elem_of_cons in Hin as [->|Hin]); [..|by apply elem_of_nil in Hin]; subst n min; simpl Z.eqb; cbn match;
      rewrite read_be_be by lia; cbn [mbind result_bind]; rewrite Z.mul_0_l, Z.add_0_l;
      by (rewrite (proj2 (Z.ltb_ge v _)) by lia). }
  destruct (v <? 24) eqn:E1; bool_to_prop.
  { unfold byte. cbn [append read_header]. destruct (header_byte maj v) as [H1 H2]; [lia..|]. unfold to_char in H1, H2.
    rewrite H1, H2. by rewrite (proj2 (Z.ltb_lt v 24)) by lia. }
  destruct (v <? 2 ^ 8) eqn:E2; bool_to_prop; [apply (Hgo 1%nat 24 24); [set_solver|done..|lia]|].
  destruct (v <? 2 ^ 16) eqn:E3; bool_to_prop; [apply (Hgo 2%nat 25 (2 ^ 8)); [set_solver|done..|lia]|].
  destruct (v <? 2 ^ 32) eqn:E4; bool_to_prop; [apply (Hgo 4%nat 26 (2 ^ 16)); [set_solver|done..|lia]|].
  apply (Hgo 8%nat 27 (2 ^ 32)); [set_solver|done..|lia].
Qed.

(** ** Strings and links *)

Definition read_text (max : Z) (r : string) : result string (string * string) :=
  '(maj, n, r) ← read_header r;
  if negb (maj =? MajTextString) then Err "got tag while reading string value"
  else if max <? n then Err "string in input was too long"
  else ReadFull (Z.to_nat n) r.

Definition read_text_into (buf max : Z) (r : string) : result string (option string * string) :=
  '(s, r) ← read_text max r; Ok (if len s <=? buf then Some s else None, r).

(** Tag 42 around a byte string that starts with a zero byte. *)
Definition write_cid (c : cid) : result string string :=
  if String.eqb c "" then Err "undefined cid"
  else if 2 ^ 32 <? len c then Err "cid too long"
  else Ok (write_header 6 42 ++ write_header MajByteString (len c + 1) ++ String "000" c).

Definition read_cid (r : string) : result string (cid * string) :=
  '(maj, tag, r) ← read_header r;
  if negb (maj =? 6) || negb (tag =? 42) then Err "expected cid tag"
  else
    '(maj, n, r) ← read_header r;
    if negb (maj =? MajByteString) || (n <? 2) then Err "expected byte string"
    else
      '(b, r) ← ReadFull (Z.to_nat n) r;
      match b with String _ c => Ok (c, r) | EmptyString => Err "short cid" end.

(** Skips one item, with its members. *)
Fixpoint skip_items (fuel n : nat) (r : string) : result string string :=
  match fuel, n with
  | _, O => Ok r
  | O, _ => Err "input too deep"
  | S fuel, S n =>
      '(maj, v, r) ← read_header r;
      if (maj =? MajByteString) || (maj =? MajTextString) then '(_, r) ← ReadFull (Z.to_nat v) r; skip_items fuel n r
      else if maj =? MajArray then skip_items fuel (Z.to_nat v + n) r
      else if maj =? MajMap then skip_items fuel (2 * Z.to_nat v + n) r
      else if maj =? 6 then skip_items fuel (S n) r
      else skip_items fuel n r
  end.

#[export] Instance rfc_cbor : CborGen := {|
  WriteMajorTypeHeader := write_header;
  WriteCid := write_cid;
  ReadHeader := read_header;
  ReadFullStringIntoBuf := read_text_into;
  ReadStringWithMax := read_text;
  ReadCid := read_cid;
  ScanForLinks := λ r, skip_items (S (String.length r)) 1 r;
|}.

Lemma read_text_write max s r :
  len s ≤ max → len s < 2 ^ 64 → read_text max (write_header MajTextString (len s) ++ s ++ r) = Ok (s, r).
Proof.
  intros Hm Hs. unfold read_text. rewrite read_write_header by (unfold MajTextString, len in *; lia).
  cbn [mbind result_bind]. rewrite Z.eqb_refl. rewrite (proj2 (Z.ltb_ge max (len s))) by done. apply ReadFull_len.
Qed.

#[export] Instance rfc_laws : CborLaws.
Proof.
  split.
  - apply read_write_header.
  - intros n max s r Hn Hm Hs. change (read_text_into n max (write_header MajTextString (len s) ++ s ++ r) = Ok (Some s, r)).
    unfold read_text_into. rewrite read_text_write by done. cbn [mbind result_bind]. by rewrite (proj2 (Z.leb_le (len s) n)) by done.
  - apply read_text_write.
  - intros c b r. change (write_cid c = Ok b → read_cid (b ++ r) = Ok (c, r)). unfold write_cid, read_cid.
    destruct (String.eqb_spec c "") as [->|Hc]; [done|]. destruct (_ <? len c) eqn:El; [done|]. bool_to_prop.
    assert (1 ≤ len c) as H1 by (destruct c; [done|unfold len; simpl; lia]).
    intros <-%Ok_inj. rewrite !str_app_assoc, read_write_header by lia. cbn [mbind result_bind].
    rewrite !Z.eqb_refl. cbn [negb orb]. rewrite read_write_header by (unfold MajByteString; lia). cbn [mbind result_bind].
    rewrite Z.eqb_refl, (proj2 (Z.ltb_ge (len c + 1) 2)) by lia. cbn [negb orb].
    replace (Z.to_nat (len c + 1)) with (String.length (String "000" c)) by (unfold len; simpl; lia). by rewrite ReadFull_app.
  - intros c b r. change (write_cid c = Ok b → ∃ a s, b ++ r = String a s ∧ a ≠ CborNull). unfold write_cid.
    destruct (String.eqb c ""); [done|]. destruct (_ <? _); [done|]. intros <-%Ok_inj.
    eexists _, _. split; [reflexivity|]. by vm_compute.
  - intros v Hv. change (write_header MajMap v = byte (160 + v)). unfold write_header.
    by rewrite (proj2 (Z.ltb_lt v 24)) by lia.
Qed.

(** Every block is its own CID. *)
#[export] Instance identity_cid : CidLib := {| cid_Sum := λ b, Ok b |}.

Lemma identity_collision_free : collision_free.
Proof. intros b b' c. simpl. congruence. Qed.
