(* ===== verification/MstTheorems.v ===== *)
(** * What the Merkle search tree promises

    The tree of [src/atproto/repo/mst] as its clients see it: a finite map with a
    root CID that depends on the contents alone, written to and read from a block
    store. *)

From S2P Require Import Prelude GoStrings Sha256 Cbor Mst MstData MstSpec MstSearch MstInsert MstRemove MstCid MstTree MstTerm MstLoad MstMap Repo MstStore RepoLibs.
Local Open Scope string_scope.
Local Open Scope Z_scope.

(** ** The tree refines a map *)

Definition collect (key : string) (val : cid) (acc : list kv) : result mst_err (list kv) := Ok (acc ++ [(key, val)])%list.

Lemma collect_all l acc : fold_result collect l acc = Ok (acc ++ l)%list.
Proof.
  revert acc. induction l as [|[k v] l IH]; intros acc; simpl; [by rewrite app_nil_r|]. rewrite IH. by rewrite <-app_assoc.
Qed.

(** What a whole tree that holds [m] shows of it. *)
Lemma whole_contents `{CborGen, CidLib} {LP : LinkProp} t m :
  whole t m → Tree_WriteToMap t ∅ = m ∧ Tree_Walk collect t [] = Ok (kv_of m).
Proof.
  intros [(h & l & Hat & <-) Hp]. pose proof Hat as [_ Hs _ _]. rewrite (Tree_WriteToMap_spec h t l) by done.
  split; [apply (right_id_L ∅ (∪))|]. rewrite (Tree_Walk_spec collect h t l) by done. rewrite collect_all. simpl.
  by rewrite <-(kv_of_eq l _ Hs eq_refl).
Qed.

(** C2 (refinement): every sequence of [Insert], [Remove] and [Get] on a tree
    returns what the same sequence returns on a finite map, invalid keys
    included, and never anything else; afterwards [WriteToMap] gives that map,
    and [Walk] visits its pairs in the order of the keys. *)
Theorem tree_refines_map ops :
  match run step_map ops ∅ with
  | Ok (m, outs) =>
      ∃ t, run step_tree ops NewEmptyTree = Ok (t, outs) ∧
        Tree_WriteToMap t ∅ = m ∧ Tree_Walk collect t [] = Ok (kv_of m) ∧ Tree_IsPartial t = false
  | Err err => run step_tree ops NewEmptyTree = Err err
  end.
Proof.
  pose proof (run_refines (LP := any_link) ops NewEmptyTree ∅ NewEmptyTree_whole) as Hr.
  destruct (run step_map ops ∅) as [[m outs]|err]; [|done]. destruct Hr as (t & Ht & Hw). exists t.
  destruct (whole_contents t m Hw) as [Hm Hl]. split; [done|]. split; [done|]. split; [done|]. apply Hw.
Qed.

(** ** Root CIDs *)

Section Root.
Context `{CborGen, CidLib}.

(** C8 (equivalence): for every sequence of operations that does not empty the tree on
    the way ([never_emptied]; a tree that was emptied can keep nodes without entries, and
    its root is another one), the root CID that [RootCID] computes by re-encoding the
    dirty nodes only, at any points of the sequence and with the CIDs it caches in
    between, is the root computed from scratch from the contents; and the operations
    return the same.  So the root is the same whatever the order in which the contents
    were reached. *)
Theorem RootCID_incremental ops outs :
  never_emptied (plain ops) ∅ = true →
  (∃ t, run step_cached ops NewEmptyTree = Ok (t, outs)) ↔ (∃ m, run step_rooted ops ∅ = Ok (m, outs)).
Proof. intros Hne. apply run_cached; [apply NewEmptyTree_steady|done]. Qed.

Lemma load_map_steady l t m :
  steady (LP := any_link) t m → Forall (λ p, IsValidKey p.1 = true) l → NoDup l.*1 → Forall (λ p, m !! p.1 = None) l →
  ∃ t', LoadTreeFromMap_loop t l = Ok t' ∧ steady (LP := any_link) t' (kvmap l ∪ m).
Proof.
  revert t m. induction l as [|[k v] l IH]; intros t m Hst Hv Hnd Hf.
  { exists t. split; [done|]. simpl. by rewrite (left_id_L ∅ (∪)). }
  apply Forall_cons in Hv as [Hk Hv]. apply NoDup_cons in Hnd as [Hni Hnd]. apply Forall_cons in Hf as [Hkm Hf]. simpl in *.
  pose proof (steady_step t m (OpInsert k v) Hst ltac:(right; apply insert_non_empty)) as Hs. unfold step_map in Hs. rewrite Hk in Hs.
  destruct Hs as (_ & t1 & Ht1 & Hst1). simpl in Ht1. rewrite Ht1.
  destruct (IH t1 _ Hst1 Hv Hnd) as (t2 & Ht2 & Hst2).
  { apply Forall_forall. intros p Hp. rewrite Forall_forall in Hf. rewrite lookup_insert_ne; [by apply Hf|]. intros ->.
    apply Hni. apply list_elem_of_fmap. by exists p. }
  exists t2. split; [done|]. rewrite <-insert_union_l. rewrite <-insert_union_r in Hst2; [done|]. by apply not_elem_of_list_to_map_1.
Qed.

(** [LoadTreeFromMap] builds, from the entries of a map in
    whatever order they are visited, a tree that [Verify] accepts, from which
    [WriteToMap] gives the map back and whose root is the root of the map. *)
Theorem LoadTreeFromMap_roundtrip l :
  valid_keys l → NoDup l.*1 →
  ∃ t, LoadTreeFromMap l = Ok t ∧ Tree_WriteToMap t ∅ = kvmap l ∧ Tree_Verify t = None ∧
    ∀ c, (Tree_RootCID t).2 = Ok c ↔ root_of (kvmap l) = Ok c.
Proof.
  intros Hv Hnd. destruct (load_map_steady l NewEmptyTree ∅ NewEmptyTree_steady Hv Hnd) as (t & Ht & Hst).
  { apply Forall_forall. intros. apply lookup_empty. }
  rewrite (right_id_L ∅ (∪)) in Hst. exists t. split; [done|]. pose proof (steady_holds _ _ Hst) as (h & Hat & _).
  split; [|split; [by eapply steady_verify|intros c; by apply (steady_root (LP := any_link))]].
  rewrite (Tree_WriteToMap_spec h t _ ∅ Hat) by by destruct Hst. by rewrite kv_of_map, (right_id_L ∅ (∪)).
Qed.

(** The root CID binds the contents: two maps of valid keys with
    the same root are the same map, when no two blocks have the same CID. *)
Theorem root_of_injective `{!CborLaws} m1 m2 c :
  collision_free → map_Forall (λ key _, IsValidKey key = true) m1 → map_Forall (λ key _, IsValidKey key = true) m2 →
  root_of m1 = Ok c → root_of m2 = Ok c → m1 = m2.
Proof.
  intros Hcf Hv1 Hv2 Hr1 Hr2. rewrite <-(kv_of_map m1), <-(kv_of_map m2). f_equal.
  assert (∀ m, map_Forall (λ key _, IsValidKey key = true) m → valid_keys (kv_of m)) as Hvk.
  { intros m Hm. apply Forall_forall. intros p Hp. apply (Hm p.1 p.2). rewrite <-(kv_of_map m).
    apply elem_of_list_to_map_1; [|by destruct p]. pose proof (kv_of_sorted m) as Hs. clear -Hs.
    induction Hs as [|q l _ IH Ha]; simpl; constructor; [|done]. intros (p & Hp1 & Hp2)%list_elem_of_fmap.
    rewrite Forall_forall in Ha. specialize (Ha p Hp2). simpl in Ha. rewrite Hp1 in Ha. by rewrite str_lt_irrefl in Ha. }
  eapply mstCID_inj; [done|exact Hr1|exact Hr2|by apply Hvk..].
Qed.
End Root.

(** ** Writing and reading *)

Definition apply_batch (ops : list tree_op) (m : gmap string cid) : gmap string cid := fold_left (λ m op, map_after op m) ops m.

(** The contents after each batch. *)
Fixpoint snapshots (batches : list (list tree_op)) (m : gmap string cid) : list (gmap string cid) :=
  match batches with [] => [] | ops :: batches => apply_batch ops m :: snapshots batches (apply_batch ops m) end.

Section Batches.
Context `{CborGen, CidLib}.

(** Batches of operations, each followed by [WriteDiffBlocks]: the store and the
    root of each batch. *)
Fixpoint write_batches (batches : list (list tree_op)) (t : Tree) (st : TinyBlockstore) : result mst_err (TinyBlockstore * list cid) :=
  match batches with
  | [] => Ok (st, [])
  | ops :: batches =>
      '(t, _) ← run step_tree ops t;
      let '(t, st, r) := Tree_WriteDiffBlocks put_block t st in
      c ← r; '(st, cs) ← write_batches batches t st; Ok (st, c :: cs)
  end.

Lemma run_steady {LP : LinkProp} ops t m :
  steady t m → never_emptied ops m = true →
  match run step_map ops m with
  | Ok (m', outs) => m' = apply_batch ops m ∧ ∃ t', run step_tree ops t = Ok (t', outs) ∧ steady t' m'
  | Err err => run step_tree ops t = Err err
  end.
Proof.
  revert t m. induction ops as [|op ops IH]; intros t m Hst Hne; [simpl; eauto|].
  cbn [never_emptied] in Hne. apply andb_true_iff in Hne as [Hn1 Hn2]. rewrite orb_true_iff, negb_true_iff, bool_decide_eq_true, bool_decide_eq_false in Hn1.
  pose proof (steady_step t m op Hst Hn1) as Hs. cbn [run]. destruct (step_map m op) as [[m1 o]|err]; simpl; [|by rewrite Hs].
  destruct Hs as (-> & t1 & -> & Hst1). simpl. specialize (IH t1 _ Hst1 Hn2).
  destruct (run step_map ops (map_after op m)) as [[m2 os]|err]; simpl; [|by rewrite IH].
  destruct IH as (-> & t2 & -> & Hst2). simpl. eauto.
Qed.

Lemma never_emptied_app ops1 ops2 m :
  never_emptied (ops1 ++ ops2)%list m = never_emptied ops1 m && never_emptied ops2 (apply_batch ops1 m).
Proof. revert m. induction ops1 as [|op ops1 IH]; intros m; simpl; [done|]. by rewrite IH, andb_assoc. Qed.

(** The tree of [m], by its root, from a store. *)
Definition readable (st : TinyBlockstore) (m : gmap string cid) (c : cid) : Prop :=
  ∃ t, LoadTreeFromStore (TinyBlockstore_Get st) (load_fuel st) c = Ok t ∧ Tree_WriteToMap t ∅ = m ∧ Tree_Verify t = None.

Lemma write_batches_stored (Hcf : collision_free) batches t m st st' cs :
  steady (LP := in_store st) t m → verified_store st → never_emptied (concat batches) m = true →
  write_batches batches t st = Ok (st', cs) →
  (∀ h l, stored st h l → stored st' h l) ∧ verified_store st' ∧
  Forall2 (λ m c, stored st' (top_layer (kv_of m)) (kv_of m) ∧ valid_keys (kv_of m) ∧ root_of m = Ok c) (snapshots batches m) cs.
Proof.
  revert t m st cs. induction batches as [|ops batches IH]; intros t m st cs Hst Hvs Hne; [intros [= <- <-]; by repeat split|].
  cbn [write_batches concat snapshots] in *. rewrite never_emptied_app in Hne. apply andb_true_iff in Hne as [Hn1 Hn2].
  intros ([t1 outs] & Hrun & Hw)%result_bind_Ok. pose proof (run_steady ops t m Hst Hn1) as Hrs.
  destruct (run step_map ops m) as [[m1 os]|]; [|congruence]. destruct Hrs as (-> & t1' & Hrun' & Hst1). rewrite Hrun in Hrun'. injection Hrun' as <- <-.
  pose proof (WriteDiffBlocks_spec Hcf t1 _ st Hst1) as Hwd. destruct (Tree_WriteDiffBlocks put_block t1 st) as [[t2 st2] r].
  destruct Hwd as (Hkeep & Hv2 & Hr). apply result_bind_Ok in Hw as (c & -> & ([st3 cs'] & Hw & [= <- <-])%result_bind_Ok).
  destruct Hr as (Hst2 & Hroot & Hsd). destruct (IH _ _ _ _ Hst2 (Hv2 Hvs) Hn2 Hw) as (Hkeep' & Hv3 & Hall).
  split; [intros; by apply Hkeep', Hkeep|]. split; [done|]. constructor; [|done]. split; [by apply Hkeep'|]. split; [|done].
  pose proof (steady_holds _ _ Hst2) as (? & Hat & _). by destruct Hat.
Qed.

(** C9 (roundtrip): let batches of operations that never empty the tree on the way be
    written to one store, each by [WriteDiffBlocks], and let different blocks have
    different CIDs.  When all calls succeed, every root that [WriteDiffBlocks] returned,
    the earlier ones too, leads [LoadTreeFromStore] to a tree with the contents at that
    time, which [Verify] accepts: no dirty node was left out. *)
Theorem WriteDiffBlocks_LoadTree `{!CborLaws} batches st roots :
  collision_free → never_emptied (concat batches) ∅ = true →
  write_batches batches NewEmptyTree NewTinyBlockstore = Ok (st, roots) →
  Forall2 (readable st) (snapshots batches ∅) roots.
Proof.
  intros Hcf Hne Hw. destruct (write_batches_stored Hcf batches NewEmptyTree ∅ NewTinyBlockstore st roots NewEmptyTree_steady) as (_ & Hv & Hall); [by intros ?|done..|].
  eapply Forall2_impl; [exact Hall|]. intros m c (Hsd & Hvk & Hc).
  destruct (load_steady Hcf st m c (load_fuel st) Hv Hsd Hvk Hc) as (t & Ht & Hst); [unfold load_fuel; lia|].
  exists t. split; [done|]. pose proof (steady_holds _ _ Hst) as (h & Hat & _). split; [|by eapply steady_verify].
  rewrite (Tree_WriteToMap_spec h t _ ∅ Hat) by by destruct Hst. by rewrite kv_of_map, (right_id_L ∅ (∪)).
Qed.
End Batches.

(** C39 (type): every tree that operations build from the empty one, without
    emptying it on the way, is well formed: [Verify] accepts it, that is, its
    nodes are at the layers of their keys, its keys are in order, its nodes
    have entries and its children alternate with values. *)
Theorem tree_ops_verify ops t outs :
  never_emptied ops ∅ = true → run step_tree ops NewEmptyTree = Ok (t, outs) → Tree_Verify t = None.
Proof.
  intros Hne Hrun. pose proof (run_steady (LP := any_link) ops NewEmptyTree ∅ NewEmptyTree_steady Hne) as Hr.
  destruct (run step_map ops ∅) as [[m os]|]; [|congruence]. destruct Hr as (_ & t' & Ht & Hst).
  rewrite Hrun in Ht. injection Ht as <- <-. by eapply steady_verify.
Qed.

(** * Trees evaluated

    Concrete trees over real key digests: inputs on which the hypotheses of the
    theorems hold, and the places where the code does not do what its comments
    say. *)

(** Keys of layers 0, 1 and 2. *)
Definition key_a : string := "com.example.record/a".
Definition key_b : string := "com.example.record/b".
Definition key_i : string := "com.example.record/i".
Definition key_s : string := "com.example.record/s".
Definition key_z : string := "com.example.record/z".

Example key_layers : map HeightForKey [key_a; key_b; key_i; key_s; key_z] = [0; 1; 1; 2; 0].
Proof. vm_refl. Qed.

Definition ex_ops : list root_op :=
  [Do (OpInsert key_b "v1"); Do (OpInsert key_a "v2"); TakeRoot; Do (OpInsert key_s "v3"); Do (OpGet key_a);
   Do (OpRemove key_s); TakeRoot; Do (OpInsert key_b "v4"); TakeRoot].

Definition ex_rooted : gmap string cid * list (option cid) :=
  match run step_rooted ex_ops ∅ with Ok r => r | Err _ => (∅, []) end.
Definition ex_outs : list (option cid) := ex_rooted.2.

Lemma RootCID_incremental_witness :
  (∃ t, run step_cached ex_ops NewEmptyTree = Ok (t, ex_outs)) ∧ length ex_outs = 9%nat.
Proof.
  split; [|vm_refl]. apply (RootCID_incremental ex_ops ex_outs); [vm_refl|].
  exists ex_rooted.1. vm_refl.
Defined.

Definition ex_list : list kv := [(key_s, "v3"); (key_a, "v2"); (key_z, "v5"); (key_b, "v1")].

Lemma LoadTreeFromMap_roundtrip_witness :
  ∃ t, LoadTreeFromMap ex_list = Ok t ∧ Tree_WriteToMap t ∅ = kvmap ex_list ∧ Tree_Verify t = None ∧
    ∀ c, (Tree_RootCID t).2 = Ok c ↔ root_of (kvmap ex_list) = Ok c.
Proof.
  apply (LoadTreeFromMap_roundtrip ex_list); [repeat constructor|].
  apply (bool_decide_eq_true_1 (NoDup ex_list.*1)). vm_refl.
Defined.

Lemma root_of_injective_witness : kvmap ex_list = kvmap (rev ex_list).
Proof.
  destruct (root_of (kvmap ex_list)) as [c|] eqn:Hc; [|exfalso; revert Hc; vm_compute; discriminate].
  apply (root_of_injective (kvmap ex_list) (kvmap (rev ex_list)) c).
  - exact identity_collision_free.
  - refine (bool_decide_eq_true_1 (map_Forall _ _) _). vm_refl.
  - refine (bool_decide_eq_true_1 (map_Forall _ _) _). vm_refl.
  - exact Hc.
  - rewrite <-Hc. vm_refl.
Defined.

Definition ex_batches : list (list tree_op) :=
  [[OpInsert key_b "v1"; OpInsert key_a "v2"]; [OpInsert key_s "v3"; OpInsert key_z "v5"]; [OpRemove key_s; OpInsert key_b "v4"]].

Definition ex_written : TinyBlockstore * list cid :=
  match write_batches ex_batches NewEmptyTree NewTinyBlockstore with Ok r => r | Err _ => (NewTinyBlockstore, []) end.

Lemma WriteDiffBlocks_LoadTree_witness :
  Forall2 (readable ex_written.1) (snapshots ex_batches ∅) ex_written.2 ∧ length ex_written.2 = 3%nat.
Proof.
  split; [|vm_refl]. apply (WriteDiffBlocks_LoadTree ex_batches ex_written.1 ex_written.2).
  - exact identity_collision_free.
  - vm_refl.
  - vm_refl.
Defined.

Definition tree_after (ops : list tree_op) : Tree * list (option cid) :=
  match run step_tree ops NewEmptyTree with Ok r => r | Err _ => (NewEmptyTree, []) end.
Definition ex_tree : Tree * list (option cid) := tree_after (concat ex_batches).

Lemma tree_ops_verify_witness : Tree_Verify ex_tree.1 = None ∧ length ex_tree.2 = 6%nat.
Proof.
  split; [|vm_refl].
  apply (tree_ops_verify (concat ex_batches) ex_tree.1 ex_tree.2); vm_refl.
Defined.

(** ** Where the code and its comments part *)

Definition emptied_ops : list tree_op := [OpInsert key_b "v1"; OpRemove key_b; OpInsert key_a "v2"].

(** A tree from which the last key is removed keeps the height
    of its top, and what is inserted next goes under it: the tree of one key of
    layer 0 then has a top at layer 1 that is just a pointer to a child, which
    [Verify] refuses, and another root than the tree built by inserting the key
    into a new tree. *)
Theorem emptied_tree_not_canonical :
  let t := (tree_after emptied_ops).1 in
  let t' := (tree_after [OpInsert key_a "v2"]).1 in
  Tree_WriteToMap t ∅ = {[ key_a := "v2" ]} ∧ Tree_WriteToMap t' ∅ = {[ key_a := "v2" ]} ∧
  Tree_Verify t = Some (MstErr "top of tree is just a pointer to child") ∧ Tree_Verify t' = None ∧
  (Tree_RootCID t).2 ≠ (Tree_RootCID t').2.
Proof.
  cbv zeta. do 4 (split; [vm_refl|]). refine (bool_decide_eq_true_1 (_ ≠ _) _). vm_refl.
Qed.

(** A node of layer 1 whose child holds a key after both of the node's own. *)
Definition unsorted_tree : Tree :=
  mkTree (newNode 1 [valueEntry key_b "v1"; childEntry (newNode 0 [valueEntry key_z "v5"]); valueEntry key_i "v6"]).

(** [verifyStructure] does not look at the keys of a child when
    it goes on after it, so that [Verify] accepts a tree whose keys are not in
    order; the key in the wrong place is in [WriteToMap], and [Get] does not
    find it. *)
Theorem Verify_accepts_unsorted :
  Tree_Verify unsorted_tree = None ∧
  Tree_Walk collect unsorted_tree [] = Ok [(key_b, "v1"); (key_z, "v5"); (key_i, "v6")] ∧ str_lt key_z key_i = false ∧
  Tree_WriteToMap unsorted_tree ∅ !! key_z = Some "v5" ∧ Tree_Get unsorted_tree key_z = Ok None.
Proof. repeat split; vm_refl. Qed.

(** [RootCID] clears the dirty flags of nodes and of entries
    that are children, and leaves those of entries that are values as they are:
    the assignment of [writeBlocks] to such an entry is made on the copy that
    the loop over the entries works with. *)
Theorem RootCID_leaves_dirty_values :
  let t := (tree_after [OpInsert key_b "v1"; OpInsert key_a "v2"]).1 in
  let n := Root (Tree_RootCID t).1 in
  is_ok (Tree_RootCID t).2 = true ∧ Dirty n = false ∧ map (λ e, (IsValue e, eDirty e)) (Entries n) = [(false, false); (true, true)].
Proof. cbv zeta. repeat split; vm_refl. Qed.
