(* ===== verification/RepoTheorems.v ===== *)
(** * Verification of commit messages

    What [VerifyCommitMessage] of [src/atproto/repo/sync.go] establishes: the
    operations of an accepted message lead from the contents behind [prevData]
    to those behind the commit's data root; and a message whose operations do
    so is accepted. *)

From S2P Require Import Prelude GoStrings Regex Syntax Tid Datetime Stream Sha256 Cbor Mst MstData MstSpec MstSearch MstInsert MstRemove MstCid MstTree MstTerm MstLoad MstMap Repo MstStore.
Local Open Scope string_scope.
Local Open Scope Z_scope.

(** ** Operations between two maps *)

Abbreviation contents := (gmap string cid).

(** [ops] are the changes from [m0] to [m]. *)
Definition explains (ops : list Operation) (m0 m : contents) : Prop :=
  (∀ op, op ∈ ops → m0 !! op_Path op = op_Prev op ∧ m !! op_Path op = op_Value op) ∧
  (∀ key, key ∉ map op_Path ops → m0 !! key = m !! key).

Definition invert_map (op : Operation) (m : contents) : contents :=
  match op_Prev op with Some p => <[op_Path op := p]> m | None => delete (op_Path op) m end.

Definition proper_op (op : Operation) : bool := IsCreate op || IsUpdate op || IsDelete op.

Lemma invert_map_lookup op m : invert_map op m !! op_Path op = op_Prev op.
Proof. unfold invert_map. destruct (op_Prev op); [apply lookup_insert_eq|apply lookup_delete_eq]. Qed.

Lemma invert_map_lookup_ne op m key : key ≠ op_Path op → invert_map op m !! key = m !! key.
Proof. intros Hne. unfold invert_map. destruct (op_Prev op); [by rewrite lookup_insert_ne|by rewrite lookup_delete_ne]. Qed.

Lemma explains_cons op ops m0 m :
  op_Path op ∉ map op_Path ops →
  explains (op :: ops) m0 m ↔ m !! op_Path op = op_Value op ∧ explains ops m0 (invert_map op m).
Proof.
  intros Hni. assert (∀ op', op' ∈ ops → op_Path op' ≠ op_Path op) as Hd.
  { intros op' Hin Heq. apply Hni. rewrite <-Heq. by apply list_elem_of_fmap_2. }
  unfold explains. cbn [map]. split.
  - intros [Hops Hrest]. destruct (Hops op ltac:(set_solver)) as [H0 H1]. split; [done|]. split.
    + intros op' Hin. rewrite invert_map_lookup_ne by by apply Hd. by apply Hops; right.
    + intros key Hk. destruct (decide (key = op_Path op)) as [->|Hne]; [by rewrite invert_map_lookup|].
      rewrite invert_map_lookup_ne by done. by apply Hrest, not_elem_of_cons.
  - intros (H1 & Hops & Hrest). split.
    + intros op' [->|Hin]%elem_of_cons; [|destruct (Hops op' Hin) as [? Ho]; rewrite invert_map_lookup_ne in Ho by (by apply Hd); by split].
      split; [|done]. rewrite (Hrest _ Hni). apply invert_map_lookup.
    + intros key Hk. apply not_elem_of_cons in Hk as [Hne Hk]. rewrite (Hrest _ Hk). by apply invert_map_lookup_ne.
Qed.

Lemma explains_nil m0 m : explains [] m0 m ↔ m0 = m.
Proof.
  split; [intros [_ Hr]; apply map_eq; intros; apply Hr, not_elem_of_nil|]. intros ->. split; [by intros op Hop%elem_of_nil|done].
Qed.

Lemma explains_perm ops ops' m0 m : ops ≡ₚ ops' → explains ops m0 m → explains ops' m0 m.
Proof.
  intros Hp [H1 H2]. split; [intros op Hop; apply H1; by rewrite Hp|]. intros key Hk. apply H2. by rewrite Hp.
Qed.

(** ** Sorting and duplicates *)

Class SortLaws `{SortLib} : Prop := { pdqsort_permutes l : pdqsort l ≡ₚ l }.

Lemma insert_back_permutes x l : insert_back x l ≡ₚ x :: l.
Proof. induction l as [|y l IH]; simpl; [done|]. destruct (op_Less x y); [|done]. rewrite IH. constructor. Qed.

Lemma insertionSort_permutes l : insertionSort l ≡ₚ l.
Proof.
  unfold insertionSort. rewrite <-Permutation_rev.
  assert (∀ acc, fold_left (λ before x, insert_back x before) l acc ≡ₚ l ++ acc) as Hgo; [|by rewrite Hgo, app_nil_r].
  induction l as [|x l IH]; intros acc; simpl; [done|]. rewrite IH, insert_back_permutes. by rewrite Permutation_middle.
Qed.

Lemma sort_permutes `{SortLaws} l : sort_Sort l ≡ₚ l.
Proof. unfold sort_Sort. destruct (_ <=? _)%nat; [apply insertionSort_permutes|apply pdqsort_permutes]. Qed.

Lemma duplicate_path_spec seen ops :
  duplicate_path seen ops = false ↔ NoDup (map op_Path ops) ∧ ∀ path, path ∈ map op_Path ops → path ∉ seen.
Proof.
  revert seen. induction ops as [|op ops IH]; intros seen; cbn [duplicate_path map].
  { split; [intros _; split; [constructor|by intros ? ?%elem_of_nil]|done]. }
  rewrite orb_false_iff, bool_decide_eq_false, IH, NoDup_cons. set_solver.
Qed.

Lemma NormalizeOps_spec `{SortLaws} ops ops' :
  NormalizeOps ops = Ok ops' ↔ NoDup (map op_Path ops) ∧ ops' = sort_Sort ops.
Proof.
  unfold NormalizeOps. pose proof (duplicate_path_spec ∅ ops) as Hd. destruct (duplicate_path ∅ ops).
  - split; [done|]. intros [Hnd _]. assert (true = false); [|done]. apply Hd. split; [done|set_solver].
  - split; [intros [= <-]; split; [by apply Hd|done]|by intros [_ ->]].
Qed.

(** ** Copying *)

Lemma deepCopy_id n : deepCopy n = n.
Proof.
  revert n. apply node_depth_ind. intros n IH.
  assert (deepCopy n = mkNode (map (λ e, mkEntry (Key e) (Value e) (ChildCID e)
    (match Child e with Some c => Some (deepCopy c) | None => None end) (eDirty e)) (Entries n)) (Height n) (Dirty n) (CID n) (Stub n)) as -> by by destruct n.
  assert (∀ es : list Entry, es ⊆ Entries n → map (λ e, mkEntry (Key e) (Value e) (ChildCID e)
    (match Child e with Some c => Some (deepCopy c) | None => None end) (eDirty e)) es = es) as Hes; [|rewrite Hes by done; by destruct n].
  induction es as [|e es IHes]; intros Hsub; [done|]. simpl. rewrite IHes by set_solver. f_equal.
  destruct e as [k v cc ch d] eqn:He. simpl. destruct ch as [c|]; [|done]. rewrite (IH e c); [done| |by subst]. subst. set_solver.
Qed.

Lemma Tree_Copy_id t : Tree_Copy t = t.
Proof. destruct t. unfold Tree_Copy. simpl. by rewrite deepCopy_id. Qed.

(** ** Inverting operations *)

Section Invert.
Context `{CborGen, CidLib} {LP : LinkProp}.

(** The one tree operation an inversion is. *)
Definition inverse (op : Operation) : tree_op :=
  match op_Prev op with Some p => OpInsert (op_Path op) p | None => OpRemove (op_Path op) end.

Lemma InvertOp_step t op :
  InvertOp t op =
  if proper_op op then
    '(t', prev) ← wrap_err "failed to invert op: " (step_tree t (inverse op));
    if bool_decide (prev = op_Value op) then Ok t'
    else Err (if IsCreate op then "failed to invert creation: previous record CID didn't match"
              else if IsUpdate op then "failed to invert update: previous record CID didn't match"
              else "failed to invert deletion: key was previously in tree")
  else Err "invalid operation".
Proof.
  unfold InvertOp, inverse, proper_op, IsCreate, IsUpdate, IsDelete. destruct op as [path [v|] [p|]]; simpl.
  - destruct (String.eqb_spec v p); simpl; [done|]. destruct (wrap_err _ _) as [[t' prev]|]; simpl; [|done].
    repeat case_bool_decide; naive_solver.
  - destruct (wrap_err _ _) as [[t' prev]|]; simpl; [|done].
    repeat case_bool_decide; naive_solver.
  - destruct (wrap_err _ _) as [[t' prev]|]; simpl; [|done].
    repeat case_bool_decide; destruct prev; naive_solver.
  - done.
Qed.

Lemma invert_ops_sound ops h t l t' :
  holds_at h t l → NoDup (map op_Path ops) → invert_ops t ops = Ok t' →
  ∃ h' l', holds_at h' t' l' ∧ explains ops (kvmap l') (kvmap l).
Proof.
  revert h t l. induction ops as [|op ops IH]; intros h t l Hat Hnd Hinv.
  { injection Hinv as <-. exists h, l. split; [done|]. by apply explains_nil. }
  cbn [invert_ops map] in *. apply NoDup_cons in Hnd as [Hni Hnd]. apply result_bind_Ok in Hinv as (t1 & Hop & Hinv).
  rewrite InvertOp_step in Hop. destruct (proper_op op); [|done]. apply result_bind_Ok in Hop as ([t2 prev] & Hstep & Hop).
  destruct (bool_decide_reflect (prev = op_Value op)) as [->|]; [|done]. injection Hop as ->.
  unfold wrap_err in Hstep. destruct (step_tree t (inverse op)) as [[t2 o]|] eqn:Hst; [|done]. injection Hstep as -> ->.
  assert (∃ h1 l1, holds_at h1 t1 l1 ∧ kvmap l1 = invert_map op (kvmap l) ∧ kvmap l !! op_Path op = op_Value op) as (h1 & l1 & Hat1 & Hm1 & Hlk).
  { unfold inverse, invert_map in *. pose proof Hat as [_ Hs _ _]. destruct (op_Prev op) as [p|]; simpl in Hst.
    - assert (IsValidKey (op_Path op) = true) as Hk by (unfold Tree_Insert in Hst; by destruct (IsValidKey _)).
      pose proof (Tree_Insert_spec h t l _ p Hat Hk) as Hi. rewrite Hst in Hi. destruct Hi as (Hp & _ & h1 & Hat1 & _).
      exists h1, (kv_insert (op_Path op) p l). rewrite kv_insert_map, <-kv_lookup_map. done.
    - assert (IsValidKey (op_Path op) = true) as Hk by (unfold Tree_Remove in Hst; by destruct (IsValidKey _)).
      pose proof (Tree_Remove_spec h t l _ Hat Hk) as Hi. rewrite Hst in Hi. destruct Hi as (Hp & _ & h1 & Hat1 & _).
      exists h1, (kv_delete (op_Path op) l). rewrite kv_delete_map, <-kv_lookup_map by done. done. }
  destruct (IH h1 t1 l1 Hat1 Hnd Hinv) as (h' & l' & Hat' & Hex). exists h', l'. split; [done|].
  apply explains_cons; [done|]. by rewrite <-Hm1.
Qed.

(** On a whole tree, operations that leave some key alone can be inverted. *)
Lemma invert_ops_complete ops t m0 m kept :
  steady t m → explains ops m0 m → NoDup (map op_Path ops) → Forall (λ op, proper_op op = true ∧ IsValidKey (op_Path op) = true) ops →
  is_Some (m !! kept) → kept ∉ map op_Path ops → ∃ t', invert_ops t ops = Ok t' ∧ steady t' m0.
Proof.
  revert t m. induction ops as [|op ops IH]; intros t m Hst Hex Hnd Hok Hk Hkn.
  { apply explains_nil in Hex as ->. by exists t. }
  cbn [map] in *. apply NoDup_cons in Hnd as [Hni Hnd]. apply explains_cons in Hex as [Hval Hex]; [|done].
  apply Forall_cons in Hok as [[Hpr Hvk] Hok]. apply not_elem_of_cons in Hkn as [Hkne Hkn].
  assert (is_Some (invert_map op m !! kept)) as Hk' by by rewrite invert_map_lookup_ne.
  assert (map_after (inverse op) m = invert_map op m) as Hma by (unfold inverse, invert_map; by destruct (op_Prev op)).
  pose proof (steady_step t m (inverse op) Hst) as Hs. rewrite Hma in Hs.
  specialize (Hs ltac:(right; intros Hx; rewrite Hx, lookup_empty in Hk'; by destruct Hk')).
  assert (step_map m (inverse op) = Ok (invert_map op m, op_Value op)) as Hsm.
  { rewrite <-Hval. unfold step_map, inverse, invert_map. by destruct (op_Prev op); rewrite Hvk. }
  rewrite Hsm in Hs. destruct Hs as (_ & t1 & Ht1 & Hst1). destruct (IH t1 _ Hst1 Hex Hnd Hok Hk' Hkn) as (t' & Hinv & Hst').
  exists t'. split; [|done]. cbn [invert_ops]. rewrite InvertOp_step, Hpr, Ht1. simpl. rewrite bool_decide_true by done. done.
Qed.
End Invert.

(** * What an accepted commit message shows *)

Definition valid_contents (m : contents) : Prop := map_Forall (λ key _, IsValidKey key = true) m.

Lemma sorted_NoDup l : sorted l → NoDup l.*1.
Proof.
  induction 1 as [|q l _ IH Ha]; simpl; constructor; [|done]. intros (p & Hp1 & Hp2)%list_elem_of_fmap.
  rewrite Forall_forall in Ha. specialize (Ha p Hp2). simpl in Ha. rewrite Hp1 in Ha. by rewrite str_lt_irrefl in Ha.
Qed.

Lemma valid_contents_keys m : valid_contents m → valid_keys (kv_of m).
Proof.
  intros Hm. apply Forall_forall. intros p Hp. apply (Hm p.1 p.2). rewrite <-(kv_of_map m).
  apply elem_of_list_to_map_1; [apply sorted_NoDup, kv_of_sorted|by destruct p].
Qed.

(** What go-car promises: it checks the hash of every block it returns, so that
    a block under a CID of the kind [cid_Sum] makes has that CID, and one CID
    does not stand for two blocks. *)
Class CarLaws `{CidLib, CarLib} : Prop := {
  car_verified r cr c b b' :
    NewCarReader r = Ok cr → (c, b) ∈ car_Blocks cr → cid_Sum b' = Ok c → cid_Sum b = Ok c;
  car_consistent r cr c b b' :
    NewCarReader r = Ok cr → (c, b) ∈ car_Blocks cr → (c, b') ∈ car_Blocks cr → b = b';
}.

Section Message.
Context `{CborLaws, CidLib, CarLib, !CarLaws, SortLaws}.

Lemma put_blocks_in blks bs bs' c b :
  put_blocks blks bs = Ok bs' → bs' !! c = Some b → (c, b) ∈ blks ∨ bs !! c = Some b.
Proof.
  revert bs. induction blks as [|[c0 b0] blks IH]; intros bs Hp Hl; [injection Hp as <-; by right|].
  cbn [put_blocks] in Hp. unfold TinyBlockstore_Put in Hp. cbn [mbind result_bind] in Hp. destruct (IH _ Hp Hl) as [Hin|Hb]; [left; by right|].
  destruct (decide (c0 = c)) as [->|Hne]; [rewrite lookup_insert_eq in Hb; injection Hb as ->; left; by left|].
  rewrite lookup_insert_ne in Hb by done. by right.
Qed.

Lemma find_block_in c b blks : (c, b) ∈ blks → ∃ b', find_block c blks = Some b' ∧ (c, b') ∈ blks.
Proof.
  induction blks as [|[c0 b0] blks IH]; [by intros ?%elem_of_nil|]. simpl. destruct (String.eqb_spec c0 c) as [->|Hne].
  - intros _. exists b0. split; [done|by left].
  - intros [[= -> ->]|Hin]%elem_of_cons; [done|]. destruct (IH Hin) as (b' & -> & Hb). exists b'. split; [done|by right].
Qed.

(** Reading a repository reads the same commit as reading the commit alone. *)
Lemma LoadRepo_inv r commit repo :
  LoadRepoFromCAR r = Ok (commit, repo) →
  (∃ cc, LoadCommitFromCAR r = Ok (commit, cc)) ∧ verified_store (RecordStore repo) ∧
  LoadTreeFromStore (TinyBlockstore_Get (RecordStore repo)) (load_fuel (RecordStore repo)) (rc_Data commit) = Ok (MST repo).
Proof.
  unfold LoadRepoFromCAR, LoadCommitFromCAR. intros (cr & Hcr & Hl)%result_bind_Ok. rewrite Hcr. cbn [mbind result_bind].
  destruct (negb _); [done|]. destruct (car_Roots cr) as [|root roots]; [done|].
  apply result_bind_Ok in Hl as (bs & Hbs & Hl). destruct (car_End cr); [done|].
  assert (∀ c b, bs !! c = Some b → (c, b) ∈ car_Blocks cr) as Hin.
  { intros c b Hb. destruct (put_blocks_in _ _ _ _ _ Hbs Hb) as [?|Hx]; [done|]. unfold NewTinyBlockstore in Hx. by rewrite lookup_empty in Hx. }
  unfold TinyBlockstore_Get in Hl at 1. destruct (bs !! root) as [b|] eqn:Hb; [|done]. apply result_bind_Ok in Hl as (commit' & Hc & Hl).
  destruct (LoadTreeFromStore _ _ _) as [tree|] eqn:Ht; [|done]. injection Hl as -> <-. simpl. split; [|split; [|done]].
  - destruct (find_block_in root b (car_Blocks cr) (Hin _ _ Hb)) as (b' & -> & Hb').
    rewrite (car_consistent r cr root b' b Hcr Hb' (Hin _ _ Hb)), Hc. by exists root.
  - intros c b1 b2 Hl1 Hs. by eapply car_verified; [exact Hcr|apply Hin|].
Qed.

Lemma check_records_stored repo ops :
  check_records repo ops = Ok tt → Forall (λ op, writes_record op = true → ∀ c, ro_Cid op = Some c → is_Some (RecordStore repo !! c)) ops.
Proof.
  induction ops as [|op ops IH]; [constructor|]. cbn [check_records]. destruct (ro_Cid op) as [c|] eqn:Hc.
  2: { intros Hr. constructor; [by rewrite Hc|by apply IH]. }
  destruct (writes_record op) eqn:Hw; [|intros Hr; constructor; [by rewrite Hw|by apply IH]].
  destruct (ParseRepoPath (ro_Path op)) as [[nsid rkey]|]; [|done]. intros ([b val] & Hg & Hr)%result_bind_Ok.
  destruct (String.eqb_spec c val) as [->|]; [|done]. constructor; [|by apply IH].
  intros _ c' Hc'. rewrite Hc in Hc'. injection Hc' as <-. unfold GetRecordBytes in Hg.
  apply result_bind_Ok in Hg as (c1 & _ & Hg). unfold TinyBlockstore_Get in Hg.
  destruct (RecordStore repo !! c1) eqn:Hl; [|done]. injection Hg as _ <-. by exists s.
Qed.

Lemma VerifyCommitMessage_changes msg repo commit cc c0 m0 m :
  collision_free →
  VerifyCommitMessage msg = Ok repo →
  existsb legacy_op (cm_Ops msg) = false → cm_PrevData msg = Some c0 →
  LoadCommitFromCAR (cm_Blocks msg) = Ok (commit, cc) →
  valid_contents m0 → root_of m0 = Ok c0 →
  valid_contents m → root_of m = Ok (rc_Data commit) →
  (∃ ops, parseCommitOps (cm_Ops msg) = Ok ops ∧ explains ops m0 m) ∧
  Forall (λ op, writes_record op = true → ∀ c, ro_Cid op = Some c → is_Some (RecordStore repo !! c)) (cm_Ops msg).
Proof.
  intros Hcf Hok Hleg Hprev Hcommit Hv0 Hr0 Hv Hr. unfold VerifyCommitMessage in Hok.
  apply result_bind_Ok in Hok as (did & _ & (rev & _ & (? & _ & ([commit' repo'] & Hload & Hok)%result_bind_Ok)%result_bind_Ok)%result_bind_Ok).
  destruct (LoadRepo_inv _ _ _ Hload) as ((cc' & Hcommit') & Hvs & Htree). rewrite Hcommit in Hcommit'. injection Hcommit' as <- <-.
  destruct (negb _); [done|]. destruct (negb _); [done|]. apply result_bind_Ok in Hok as ([] & Hrec & Hok). rewrite Hleg in Hok.
  apply result_bind_Ok in Hok as (ops & Hops & (ops' & [Hnd ->]%NormalizeOps_spec & (invTree & Hinv & (computed & Hcomp & Hok)%result_bind_Ok)%result_bind_Ok)%result_bind_Ok).
  rewrite Hprev in Hok. destruct (String.eqb_spec computed c0) as [->|]; [|done]. injection Hok as ->.
  split; [|by apply check_records_stored]. exists ops. split; [done|].
  pose proof (top_layer_bound (kv_of m)) as Hb. pose proof (valid_contents_keys m Hv) as Hvk.
  pose proof (LoadTree_spec (RecordStore repo) (load_fuel (RecordStore repo)) (top_layer (kv_of m)) (kv_of m) _ Hcf Hvs
    ltac:(unfold load_fuel; lia) (kv_of_sorted m) (top_layer_fits _) Hvk (top_layer_canonical _) Hr) as Hl.
  change (store_Get (RecordStore repo)) with (TinyBlockstore_Get (RecordStore repo)) in Hl. rewrite Htree in Hl. destruct Hl as [Hat _].
  rewrite Tree_Copy_id in Hinv. pose proof (sort_permutes ops) as Hperm.
  destruct (invert_ops_sound (sort_Sort ops) _ _ _ _ Hat ltac:(by rewrite Hperm) Hinv) as (h' & l' & Hat' & Hex).
  rewrite kv_of_map in Hex. eapply explains_perm in Hex; [|exact Hperm].
  assert (l' = kv_of m0) as ->; [|by rewrite kv_of_map in Hex].
  pose proof Hat' as [Hrr _ _ Hvl]. pose proof (RootCID_spec any_link h' invTree l' Hrr) as Hspec.
  unfold wrap_err in Hcomp. destruct (Tree_RootCID invTree).2 as [c|]; [|done]. injection Hcomp as ->. destruct Hspec as [Hm _].
  eapply mstCID_inj; [done|exact Hm|exact Hr0|done|by apply valid_contents_keys].
Qed.

(** C1 (safety): an accepted commit message that can be inverted tells the truth about
    what it changes.  Let no operation be of the legacy form (an update or a deletion
    without [prev]: [VerifyCommitMessage] returns before the inversion when it finds one)
    and let the message have a [prevData].  When that is the root of the contents [m0] and
    the data root of its commit is the root of [m], and different blocks have different
    CIDs, then the operations, with the values before and after that they name, are
    exactly the changes from [m0] to [m]: a key with no operation is the same in both.
    Every record it says it writes is in its blocks.  This holds although the blocks may
    be only a part of the tree, in whatever order the operations come. *)
Theorem VerifyCommitMessage_sound msg repo commit cc c0 m0 m :
  collision_free →
  VerifyCommitMessage msg = Ok repo →
  existsb legacy_op (cm_Ops msg) = false → cm_PrevData msg = Some c0 →
  LoadCommitFromCAR (cm_Blocks msg) = Ok (commit, cc) →
  valid_contents m0 → root_of m0 = Ok c0 →
  valid_contents m → root_of m = Ok (rc_Data commit) →
  (∃ ops, parseCommitOps (cm_Ops msg) = Ok ops ∧ explains ops m0 m) ∧
  Forall (λ op, writes_record op = true → ∀ c, ro_Cid op = Some c → is_Some (RecordStore repo !! c)) (cm_Ops msg).
Proof. apply VerifyCommitMessage_changes. Qed.

(** A message made from the contents before and after: what a server that
    follows the protocol sends, with the whole tree among its blocks. *)
Record honest (msg : SyncSubscribeRepos_Commit) (commit : RepoCommit) (repo : Repo) (ops : list Operation) (m0 m : contents) : Prop := {
  hon_did : ParseDID (cm_Repo msg) = Ok (rc_DID commit);
  hon_rev : ParseTID (cm_Rev msg) = Ok (rc_Rev commit);
  hon_time : is_ok (ParseDatetime (cm_Time msg)) = true;
  hon_car : LoadRepoFromCAR (cm_Blocks msg) = Ok (commit, repo);
  hon_ops : parseCommitOps (cm_Ops msg) = Ok ops;
  hon_paths : NoDup (map op_Path ops) ∧ Forall (λ op, is_ok (ParseRepoPath (op_Path op)) = true ∧ IsValidKey (op_Path op) = true) ops;
  hon_proper : Forall (λ op, proper_op op = true) ops;
  hon_change : explains ops m0 m;
  hon_prev : root_of m0 = (match cm_PrevData msg with Some c => Ok c | None => root_of m0 end) ∧ is_ok (root_of m0) = true;
  hon_data : root_of m = Ok (rc_Data commit) ∧ valid_contents m;
  hon_tree : stored (RecordStore repo) (top_layer (kv_of m)) (kv_of m);
  hon_records : Forall (λ op, ∀ c, op_Value op = Some c → is_Some (RecordStore repo !! c)) ops;
}.

Lemma parseCommitOps_elem rops ops :
  parseCommitOps rops = Ok ops → Forall2 (λ rop op, parseCommitOp rop = Ok op) rops ops.
Proof.
  revert ops. induction rops as [|rop rops IH]; intros ops; simpl; [intros [= <-]; constructor|].
  intros (op & Hop & (out & Hout & [= <-])%result_bind_Ok)%result_bind_Ok. constructor; [done|by apply IH].
Qed.

Lemma parseCommitOp_inv rop op :
  parseCommitOp rop = Ok op → legacy_op rop = false ∧ op_Path op = ro_Path rop ∧ op_Value op = ro_Cid rop.
Proof.
  unfold parseCommitOp, legacy_op. destruct rop as [action rcid path prev]; simpl.
  destruct (String.eqb_spec action "create") as [->|]; [by destruct rcid, prev; simpl; intros [= <-]|].
  destruct (String.eqb_spec action "delete") as [->|]; [by destruct rcid, prev; simpl; intros [= <-]|].
  destruct (String.eqb_spec action "update") as [->|]; [by destruct rcid, prev; simpl; intros [= <-]|done].
Qed.

Lemma check_records_honest repo rops ops m :
  steady (LP := any_link) (MST repo) m → Forall2 (λ rop op, parseCommitOp rop = Ok op) rops ops →
  Forall (λ op, is_ok (ParseRepoPath (op_Path op)) = true ∧ IsValidKey (op_Path op) = true) ops →
  Forall (λ op, m !! op_Path op = op_Value op) ops →
  Forall (λ op, ∀ c, op_Value op = Some c → is_Some (RecordStore repo !! c)) ops →
  check_records repo rops = Ok tt.
Proof.
  intros Hst Hf Hpath Hval Hrec. induction Hf as [|rop op rops ops Hop _ IH]; [done|].
  apply Forall_cons in Hpath as [[Hp Hk] Hpath], Hval as [Hv Hval], Hrec as [Hr Hrec]. specialize (IH Hpath Hval Hrec).
  destruct (parseCommitOp_inv _ _ Hop) as (_ & Hpe & Hce). rewrite Hpe in *. rewrite Hce in *. cbn [check_records].
  destruct (ro_Cid rop) as [c|]; [|done]. destruct (writes_record rop); [|done].
  destruct (ParseRepoPath (ro_Path rop)) as [[n k]|] eqn:Epp; [|done]. destruct (ParseRepoPath_Ok _ _ _ Epp) as [Heq _].
  destruct (Hr c eq_refl) as [b Hb].
  pose proof (steady_step (MST repo) m (OpGet (ro_Path rop)) Hst) as Hs. unfold step_map in Hs. rewrite Hk in Hs. simpl in Hs.
  assert (Tree_Get (MST repo) (ro_Path rop) = Ok (Some c)) as Hget.
  { rewrite <-Hv. destruct Hs as (_ & t' & Hs & _); [right; by intros ->; rewrite lookup_empty in Hv|].
    destruct (Tree_Get (MST repo) (ro_Path rop)); [|done]. simpl in Hs. congruence. }
  unfold GetRecordBytes, GetRecordCID. rewrite <-Heq, Hget. simpl. unfold TinyBlockstore_Get. rewrite Hb. simpl.
  by rewrite String.eqb_refl.
Qed.

(** C10 (liveness): a message that tells the truth is accepted.  When the blocks
    hold the whole tree of the new contents and the records written, the
    operations are the changes, each a creation, a deletion or an update to
    another value, and [prevData], if given, is the root of the old contents,
    then the message is accepted, provided some record is not touched by it:
    the inversion then never empties the tree. *)
Theorem VerifyCommitMessage_complete msg commit repo ops m0 m kept :
  collision_free → honest msg commit repo ops m0 m →
  is_Some (m !! kept) → kept ∉ map op_Path ops →
  VerifyCommitMessage msg = Ok repo.
Proof.
  intros Hcf [Hdid Hrev Htime Hcar Hops [Hnd Hpath] Hproper Hch [Hprev Hpok] [Hdata Hv] Htree Hrec] Hk Hkn.
  destruct (LoadRepo_inv _ _ _ Hcar) as (_ & Hvs & Hload).
  destruct (load_steady Hcf (RecordStore repo) m (rc_Data commit) (load_fuel (RecordStore repo)) Hvs Htree (valid_contents_keys m Hv) Hdata)
    as (t & Ht & Hst); [unfold load_fuel; lia|]. rewrite Hload in Ht. injection Ht as <-.
  pose proof (parseCommitOps_elem _ _ Hops) as Hf2. unfold VerifyCommitMessage. rewrite Hdid, Hrev. cbn [mbind result_bind].
  destruct (ParseDatetime (cm_Time msg)); [|done]. cbn [mbind result_bind]. rewrite Hcar. cbn [mbind result_bind].
  rewrite !String.eqb_refl. cbn [negb].
  rewrite (check_records_honest repo _ ops m Hst Hf2 Hpath); [|by apply Forall_forall; intros op Hop; apply Hch|done]. cbn [mbind result_bind].
  assert (existsb legacy_op (cm_Ops msg) = false) as ->.
  { clear -Hf2. induction Hf2 as [|rop op rops ops Hop _ IH]; [done|]. simpl. by rewrite (proj1 (parseCommitOp_inv _ _ Hop)). }
  rewrite Hops. cbn [mbind result_bind]. rewrite (proj2 (NormalizeOps_spec ops _) (conj Hnd eq_refl)). cbn [mbind result_bind].
  rewrite Tree_Copy_id. pose proof (sort_permutes ops) as Hperm.
  destruct (invert_ops_complete (LP := any_link) (sort_Sort ops) (MST repo) m0 m kept) as (t' & Hinv & Hst'); [done| | | |done| |].
  - eapply explains_perm; [symmetry; exact Hperm|done].
  - by rewrite Hperm.
  - rewrite Hperm. apply Forall_forall. intros op Hop. rewrite Forall_forall in Hproper, Hpath. split; [by apply Hproper|by apply Hpath].
  - by rewrite Hperm.
  - rewrite Hinv. cbn [mbind result_bind]. destruct (root_of m0) as [c|] eqn:Hr0; [|done].
    rewrite (proj2 (steady_root (LP := any_link) t' m0 c Hst') Hr0). simpl. destruct (cm_PrevData msg) as [c'|]; [|done].
    injection Hprev as ->. by rewrite String.eqb_refl.
Qed.
End Message.

(** ** Signatures *)

(** The public key of a private key accepts what the private key signs. *)
Class SigLaws `{SigLib} (public : string → string) : Prop := {
  HashAndVerify_Sign key b sig : HashAndSign key b = Ok sig → HashAndVerify (public key) b sig = None;
}.

Section Signing.
Context `{CborLaws} `{SigLib}.

Lemma UnsignedBytes_marshal c : UnsignedBytes c = Commit_MarshalCBOR (set_Sig None c).
Proof. unfold UnsignedBytes. destruct c as [did v prev data [sig|] rev]; done. Qed.

(** Two commits with the same signed bytes differ in the signature alone. *)
Lemma UnsignedBytes_inj c1 c2 b :
  - 2 ^ 63 ≤ rc_Version c1 < 2 ^ 63 → - 2 ^ 63 ≤ rc_Version c2 < 2 ^ 63 →
  UnsignedBytes c1 = Ok b → UnsignedBytes c2 = Ok b → set_Sig None c1 = set_Sig None c2.
Proof.
  rewrite !UnsignedBytes_marshal. intros Hv1 Hv2 Hb1 Hb2.
  pose proof (Commit_roundtrip_app (set_Sig None c1) b "" Hv1 ltac:(done) Hb1) as Hr1.
  pose proof (Commit_roundtrip_app (set_Sig None c2) b "" Hv2 ltac:(done) Hb2) as Hr2. congruence.
Qed.

(** A signature binds the whole commit.  Signing changes nothing
    but the signature and gives a commit whose signature verifies under the
    public key; and a verifying signature is over bytes that determine every
    other field: any commit with the same bytes to sign is the same commit up to
    its signature. *)
Theorem signature_binds_commit public `{!SigLaws public} key c c' :
  - 2 ^ 63 ≤ rc_Version c < 2 ^ 63 → Commit_Sign key c = Ok c' →
  Commit_VerifySignature (public key) c' = None ∧ set_Sig None c' = set_Sig None c ∧
  ∃ b, UnsignedBytes c' = Ok b ∧
    ∀ c2, - 2 ^ 63 ≤ rc_Version c2 < 2 ^ 63 → UnsignedBytes c2 = Ok b → set_Sig None c2 = set_Sig None c.
Proof.
  intros Hv. unfold Commit_Sign. intros (b & Hb & (sig & Hs & [= <-])%result_bind_Ok)%result_bind_Ok.
  assert (UnsignedBytes (set_Sig (Some sig) c) = Ok b) as Hb' by (by rewrite UnsignedBytes_marshal in Hb |- *).
  unfold Commit_VerifySignature. cbn [rc_Sig set_Sig]. rewrite Hb'. split; [by apply HashAndVerify_Sign|]. split; [done|].
  exists b. split; [done|]. intros c2 Hv2 Hb2. by eapply UnsignedBytes_inj.
Qed.
End Signing.
