(* ===== verification/RepoExamples.v ===== *)
(** * Commit messages evaluated

    Two CAR files and the messages that carry them: one commit that creates,
    updates and deletes a record, and one that replaces the only record of a
    repository. *)

From S2P Require Import Prelude GoStrings Regex Syntax Tid Datetime Stream Sha256 Cbor Mst MstData MstSpec MstSearch MstInsert MstRemove MstCid MstTree MstTerm MstLoad MstMap Repo MstStore RepoLibs MstTheorems RepoTheorems.
From Stdlib Require Import Strings.Byte.
Local Open Scope string_scope.
Local Open Scope Z_scope.

Definition repo_did : string := "did:plc:aaaaaaaaaaaaaaaaaaaaaaaa".
Definition repo_rev : string := "3jzfcijpj2z2a".

(** The CID of a tree and its blocks. *)
Definition tree_blocks (l : list kv) : cid * list string :=
  match write_batches [map (λ p, OpInsert p.1 p.2) l] NewEmptyTree NewTinyBlockstore with
  | Ok (st, [c]) => (c, map snd (map_to_list st))
  | _ => ("", [])
  end.

Definition signed_commit (root : cid) : RepoCommit := mkCommit repo_did 3 None root (Some "sig") repo_rev.

Definition commit_block (root : cid) : string :=
  match Commit_MarshalCBOR (signed_commit root) with Ok b => b | Err _ => "" end.

(** A file with the commit block as its root. *)
Definition car_file (l : list kv) : CarReader :=
  let '(root, blocks) := tree_blocks l in
  let commit := commit_block root in
  mkCarReader 1 [commit] (map (λ b, (b, b)) (commit :: blocks ++ map snd l)) None.

(** Before: b, i, s.  After: a created, b updated, i deleted. *)
Definition before_list : list kv := [(key_b, "old b"); (key_i, "record i"); (key_s, "record s")].
Definition after_list : list kv := [(key_a, "record a"); (key_b, "new b"); (key_s, "record s")].
Definition repo_ops : list SyncSubscribeRepos_RepoOp :=
  [mkRepoOp "create" (Some "record a") key_a None; mkRepoOp "update" (Some "new b") key_b (Some "old b");
   mkRepoOp "delete" None key_i (Some "record i")].

(** One record for another. *)
Definition single_before : list kv := [(key_z, "record z")].
Definition single_after : list kv := [(key_b, "new b")].
Definition create_b : SyncSubscribeRepos_RepoOp := mkRepoOp "create" (Some "new b") key_b None.
Definition delete_z : SyncSubscribeRepos_RepoOp := mkRepoOp "delete" None key_z (Some "record z").

#[export] Instance two_files : CarLib := {|
  NewCarReader := λ r,
    match r with
    | [x01] => Ok (car_file after_list)
    | [x02] => Ok (car_file single_after)
    | _ => Err "not a CAR file"
    end
|}.

#[export] Instance short_sort : SortLib := {| pdqsort := λ l, l |}.
#[export] Instance short_sort_laws : SortLaws.
Proof. by split. Qed.

Lemma car_file_own l c b : (c, b) ∈ car_Blocks (car_file l) → b = c.
Proof.
  unfold car_file. destruct (tree_blocks l) as [root blocks]. cbn [car_Blocks]. intros (x & [= -> ->] & _)%list_elem_of_fmap. done.
Qed.

Lemma two_files_read r : (∃ msg, NewCarReader r = Err msg) ∨ (∃ l, NewCarReader r = Ok (car_file l)).
Proof.
  destruct r as [|[] [|? ?]]; (left; eexists; reflexivity) || (right; eexists; reflexivity).
Qed.

Lemma two_files_own r cr c b : NewCarReader r = Ok cr → (c, b) ∈ car_Blocks cr → b = c.
Proof.
  destruct (two_files_read r) as [[msg ->]|[l ->]]; [discriminate|]. intros <-%Ok_inj. apply car_file_own.
Qed.

#[export] Instance two_files_laws : CarLaws.
Proof.
  split.
  - intros r cr c b b' Hr Hin _. rewrite (two_files_own r cr c b Hr Hin). reflexivity.
  - intros r cr c b b' Hr Hb Hb'. rewrite (two_files_own r cr c b Hr Hb), (two_files_own r cr c b' Hr Hb'). reflexivity.
Qed.

Definition message (file : bytes) (ops : list SyncSubscribeRepos_RepoOp) (before : list kv) : SyncSubscribeRepos_Commit :=
  mkCommitMsg [] file "" ops (Some (tree_blocks before).1) false repo_did repo_rev 1 None "2024-01-01T00:00:00Z" false.

Definition changes_msg : SyncSubscribeRepos_Commit := message [x01] repo_ops before_list.

Definition loaded_repo (file : bytes) : RepoCommit * Repo :=
  match LoadRepoFromCAR file with Ok r => r | Err _ => (signed_commit "", mkRepo "" (NewTIDClock 0) ∅ NewEmptyTree) end.

Example message_accepted : is_ok (VerifyCommitMessage changes_msg) = true.
Proof. vm_refl. Qed.

(** A value that is not the one before is noticed. *)
Example message_refused :
  VerifyCommitMessage (message [x01] [mkRepoOp "create" (Some "record a") key_a None; mkRepoOp "update" (Some "new b") key_b (Some "forged");
    mkRepoOp "delete" None key_i (Some "record i")] before_list) = Err "inverted tree root didn't match prevData".
Proof. vm_refl. Qed.

(** An operation left out is noticed. *)
Example message_incomplete :
  VerifyCommitMessage (message [x01] [mkRepoOp "create" (Some "record a") key_a None] before_list) = Err "inverted tree root didn't match prevData".
Proof. vm_refl. Qed.

(** ** The contents before and after *)

Definition contents_of (l : list kv) : contents := kvmap l.

Definition parsed_ops : list Operation :=
  [mkOperation key_a (Some "record a") None; mkOperation key_b (Some "new b") (Some "old b"); mkOperation key_i None (Some "record i")].

Lemma parsed_explains : explains parsed_ops (contents_of before_list) (contents_of after_list).
Proof.
  assert (∀ op ops m0 m, bool_decide (op_Path op ∈ map op_Path ops) = false → m !! op_Path op = op_Value op →
    explains ops m0 (invert_map op m) → explains (op :: ops) m0 m) as Hstep.
  { intros op ops m0 m Hni%bool_decide_eq_false_1 Hl He. by apply explains_cons. }
  unfold parsed_ops. apply Hstep; [vm_refl..|]. apply Hstep; [vm_refl..|].
  apply Hstep; [vm_refl..|]. apply explains_nil. vm_refl.
Qed.

Definition changes_repo : Repo := (loaded_repo [x01]).2.
Definition changes_commit : RepoCommit := (loaded_repo [x01]).1.

Lemma valid_contents_dec m : bool_decide (map_Forall (λ key _, IsValidKey key = true) m) = true → valid_contents m.
Proof. apply bool_decide_eq_true_1. Qed.

Lemma VerifyCommitMessage_sound_witness :
  (∃ ops, parseCommitOps repo_ops = Ok ops ∧ explains ops (contents_of before_list) (contents_of after_list)) ∧
  Forall (λ op, writes_record op = true → ∀ c, ro_Cid op = Some c → is_Some (RecordStore changes_repo !! c)) repo_ops.
Proof.
  apply (VerifyCommitMessage_sound changes_msg changes_repo changes_commit (commit_block (tree_blocks after_list).1) (tree_blocks before_list).1).
  - exact identity_collision_free.
  - vm_refl.
  - vm_refl.
  - reflexivity.
  - vm_refl.
  - apply valid_contents_dec. vm_refl.
  - vm_refl.
  - apply valid_contents_dec. vm_refl.
  - vm_refl.
Defined.

(** [stored], as a computation. *)
Fixpoint stored_check (st : TinyBlockstore) (h : nat) (l : list kv) : bool :=
  match mstData h l with
  | Ok nd => match NodeData_Bytes nd with Ok (b, c) => bool_decide (st !! c = Some b) | Err _ => false end
  | Err _ => false
  end &&
  forallb (λ it, match it with IVal _ _ => true | IRun run => match h with O => false | S h' => stored_check st h' run end end)
    (groups (Z.of_nat h) l).

Lemma stored_check_sound st h l : stored_check st h l = true → stored st h l.
Proof.
  revert l. induction h as [|h IH]; intros l [Hb Hr]%andb_true_iff; apply stored_unfold;
    (split; [destruct (mstData _ l) as [nd|] eqn:Hd; [|done]; destruct (NodeData_Bytes nd) as [[b c]|] eqn:Hn; [|done];
             exists nd, b, c; split; [done|]; split; [done|by apply bool_decide_eq_true_1 in Hb]|]);
    intros run Hin; rewrite forallb_forall in Hr; specialize (Hr (IRun run) ltac:(by apply list_elem_of_In)); [done|by apply IH].
Qed.

Lemma changes_honest : honest changes_msg changes_commit changes_repo parsed_ops (contents_of before_list) (contents_of after_list).
Proof.
  split.
  - vm_refl.
  - vm_refl.
  - vm_refl.
  - vm_refl.
  - vm_refl.
  - split; [refine (bool_decide_eq_true_1 (NoDup _) _); vm_refl|].
    refine (bool_decide_eq_true_1 (Forall _ _) _). vm_refl.
  - repeat constructor.
  - apply parsed_explains.
  - split; vm_refl.
  - split; [vm_refl|]. apply valid_contents_dec. vm_refl.
  - apply stored_check_sound. vm_refl.
  - assert (∀ c, c ∈ ["record a"; "new b"] → is_Some (RecordStore changes_repo !! c)) as Hst.
    { intros c Hc. assert (Forall (λ c, is_Some (RecordStore changes_repo !! c)) ["record a"; "new b"]) as Hf.
      { refine (bool_decide_eq_true_1 (Forall _ _) _). vm_refl. }
      rewrite Forall_forall in Hf. by apply Hf. }
    unfold parsed_ops. constructor; [|constructor; [|constructor; [|constructor]]]; cbn [op_Value]; [..|discriminate];
      intros c [= <-]; apply Hst; [left|right; left].
Qed.

Lemma VerifyCommitMessage_complete_witness : VerifyCommitMessage changes_msg = Ok changes_repo.
Proof.
  apply (VerifyCommitMessage_complete changes_msg changes_commit changes_repo parsed_ops (contents_of before_list) (contents_of after_list) key_s).
  - exact identity_collision_free.
  - exact changes_honest.
  - exists "record s". vm_refl.
  - refine (bool_decide_eq_false_1 (key_s ∈ _) _). vm_refl.
Defined.

(** The order in which a message lists its operations decides
    whether it is accepted, although [NormalizeOps] sorts them: [opByPath.Less]
    puts a deletion before a creation, and also a creation before a deletion of
    a later path, so that the sort leaves a creation first here.  Replacing the
    only record by one of an earlier path and a higher layer is accepted with
    the creation listed first, and refused with the deletion listed first, when
    the inversion empties the tree before it puts the old record back. *)
Theorem VerifyCommitMessage_order_dependent :
  is_ok (VerifyCommitMessage (message [x02] [create_b; delete_z] single_before)) = true ∧
  VerifyCommitMessage (message [x02] [delete_z; create_b] single_before) = Err "inverted tree root didn't match prevData" ∧
  NormalizeOps [mkOperation key_z None (Some "record z"); mkOperation key_b (Some "new b") None]
    = Ok [mkOperation key_b (Some "new b") None; mkOperation key_z None (Some "record z")].
Proof. split; [vm_refl|]. split; vm_refl. Qed.

(** ** Signatures *)

#[export] Instance toy_sig : SigLib := {|
  HashAndSign := λ key b, Ok (key ++ b);
  HashAndVerify := λ key b sig, if String.eqb sig (key ++ b) then None else Some "invalid signature";
|}.

#[export] Instance toy_sig_laws : SigLaws id.
Proof. split. intros key b sig [= <-]. simpl. by rewrite String.eqb_refl. Qed.

Definition unsigned_commit : RepoCommit := mkCommit repo_did 3 None "root" None repo_rev.
Definition signed_toy : RepoCommit := match Commit_Sign "key" unsigned_commit with Ok c => c | Err _ => unsigned_commit end.

Lemma signature_binds_commit_witness :
  Commit_VerifySignature "key" signed_toy = None ∧ set_Sig None signed_toy = set_Sig None unsigned_commit ∧
  ∃ b, UnsignedBytes signed_toy = Ok b ∧
    ∀ c2, - 2 ^ 63 ≤ rc_Version c2 < 2 ^ 63 → UnsignedBytes c2 = Ok b → set_Sig None c2 = set_Sig None unsigned_commit.
Proof. apply (signature_binds_commit id "key" unsigned_commit signed_toy); [cbn; lia|vm_refl]. Defined.
