(* ===== verification/DiskPersist.v ===== *)
(** * The durable event log: [src/cmd/relay/stream/persist/diskpersist/diskpersist.go]

    The relay acknowledges an upstream event only after it has been written
    and synced to an append-only log of numbered frames, split into files of
    [eventsPerFile] events.  The model keeps the directory as a map from file
    names to bytes and the [log_file_refs] table as a list of rows; every
    system call that the source lets fail consults an oracle, so the theorems
    hold for every pattern of failures.  CBOR encoding is generated code over a
    third-party library: [marshal] and [unmarshal] are parameters. *)

From S2P Require Import Prelude GoStrings Stream StateMonad.
From Stdlib Require Import Strings.Byte.
From coqutil Require Import Byte Word.LittleEndianList.
From stdpp Require Import pretty.
Local Open Scope Z_scope.

(** ** Headers *)

Definition EvtFlagTakedown : Z := 1.
Definition EvtFlagRebased : Z := 2.

Definition evtKindCommit : Z := 1.
Definition evtKindIdentity : Z := 4.
Definition evtKindAccount : Z := 5.
Definition evtKindSync : Z := 6.

Definition headerSize : nat := 28.

Record evtHeader := mkHeader { Flags : Z; Kind : Z; Seq : Z; Usr : Z; Len : Z }.

(** [binary.LittleEndian.PutUint32/64(b[off:], v)] for [n] = 4 or 8 bytes *)
Definition put_le (n off : nat) (v : Z) (b : bytes) : bytes :=
  take off b ++ le_split n v ++ drop (off + n) b.

(** [binary.LittleEndian.Uint32/64(b[off:off+n])] *)
Definition get_le (n off : nat) (b : bytes) : Z := le_combine (take n (drop off b)).

Inductive read_err := EOF | UnexpectedEOF.

(** [readHeader]: [io.ReadFull] of 28 bytes, then the fields; also returns what
    is left in the reader. *)
Definition readHeader (r : bytes) : result read_err (evtHeader * bytes) :=
  if (length r =? 0)%nat then Err EOF
  else if (length r <? headerSize)%nat then Err UnexpectedEOF
  else
    let scratch := take headerSize r in
    Ok (mkHeader (get_le 4 0 scratch) (get_le 4 4 scratch)
          (int64 (get_le 8 20 scratch)) (get_le 8 12 scratch) (get_le 4 8 scratch),
        drop headerSize r).

Definition evtKind (m : RepoMsg) : Z :=
  match m with
  | MCommit _ => evtKindCommit
  | MSync _ => evtKindSync
  | MIdentity _ => evtKindIdentity
  | MAccount _ => evtKindAccount
  end.

(** ** Scanning a log file *)

(** [writable] is false on a file opened [O_RDONLY], which cannot be truncated. *)
Definition recoverIncompleteTail (writable : bool) (content : bytes) (end_ : Z) (offset : nat) (lastSeq : Z)
  : result string (Z * bytes * nat) :=
  if negb (end_ =? -1) then Err "unexpected EOF"%string
  else if negb writable then Err "truncate: invalid argument"%string
  else Ok (lastSeq, take offset content, offset).

Fixpoint scan_loop (fuel : nat) (writable : bool) (content : bytes) (end_ : Z) (offset : nat) (lastSeq : Z)
  : result string (Z * bytes * nat) :=
  match fuel with
  | O => Err "out of fuel"%string
  | S fuel =>
      match readHeader (drop offset content) with
      | Err EOF => Ok (lastSeq, content, offset)
      | Err UnexpectedEOF => recoverIncompleteTail writable content end_ offset lastSeq
      | Ok (eh, _) =>
          if Z.of_nat (length content) <? Z.of_nat offset + Z.of_nat headerSize + Len eh
          then recoverIncompleteTail writable content end_ offset lastSeq
          else if (0 <? end_) && (end_ <? Seq eh) then Ok (Seq eh, content, offset)
          else scan_loop fuel writable content end_
                 (offset + headerSize + Z.to_nat (Len eh)) (Seq eh)
      end
  end.

(** [scanForLastSeq]: the result, the file's content and the read position
    afterwards.  Every turn consumes at least a header, so one turn per byte is
    enough fuel. *)
Definition scanForLastSeq (writable : bool) (content : bytes) (end_ : Z)
  : result string (Z * bytes * nat) :=
  scan_loop (S (length content)) writable content end_ 0 (-1).

(** ** State *)

(** [CreatedAt] is a Unix time; rows are soft-deleted, that is not found any more. *)
Record LogFileRef := mkRef {
  ref_ID : Z;
  ref_CreatedAt : Z;
  ref_Path : string;
  ref_Archived : bool;
  ref_SeqStart : Z;
}.

Record DiskPersistence := mkDP {
  files : gmap string bytes;          (* the files of primaryDir *)
  meta : list LogFileRef;             (* rows of log_file_refs, oldest first *)
  nextID : Z;                         (* next primary key of that table *)
  logfi : string;                     (* name of the open log file *)
  eventCounter : Z;
  curSeq : Z;
  failed : option string;
  didCache : gmap string Z;
  broadcast : option (list XRPCStreamEvent);  (* events given to the broadcaster, if one is set *)
  tick : nat;                         (* system calls made so far *)
}.

Definition set_files f (d : DiskPersistence) := mkDP f (meta d) (nextID d) (logfi d) (eventCounter d) (curSeq d) (failed d) (didCache d) (broadcast d) (tick d).
Definition set_logfi n (d : DiskPersistence) := mkDP (files d) (meta d) (nextID d) n (eventCounter d) (curSeq d) (failed d) (didCache d) (broadcast d) (tick d).
Definition set_counter c (d : DiskPersistence) := mkDP (files d) (meta d) (nextID d) (logfi d) c (curSeq d) (failed d) (didCache d) (broadcast d) (tick d).
Definition set_curSeq c (d : DiskPersistence) := mkDP (files d) (meta d) (nextID d) (logfi d) (eventCounter d) c (failed d) (didCache d) (broadcast d) (tick d).
Definition set_failed e (d : DiskPersistence) := mkDP (files d) (meta d) (nextID d) (logfi d) (eventCounter d) (curSeq d) e (didCache d) (broadcast d) (tick d).
Definition set_didCache c (d : DiskPersistence) := mkDP (files d) (meta d) (nextID d) (logfi d) (eventCounter d) (curSeq d) (failed d) c (broadcast d) (tick d).
Definition set_broadcast b (d : DiskPersistence) := mkDP (files d) (meta d) (nextID d) (logfi d) (eventCounter d) (curSeq d) (failed d) (didCache d) b (tick d).
Definition set_tick t (d : DiskPersistence) := mkDP (files d) (meta d) (nextID d) (logfi d) (eventCounter d) (curSeq d) (failed d) (didCache d) (broadcast d) t.
Definition add_ref r (d : DiskPersistence) := mkDP (files d) (meta d ++ [r]) (nextID d + 1) (logfi d) (eventCounter d) (curSeq d) (failed d) (didCache d) (broadcast d) (tick d).
Definition set_meta m (d : DiskPersistence) := mkDP (files d) m (nextID d) (logfi d) (eventCounter d) (curSeq d) (failed d) (didCache d) (broadcast d) (tick d).

(** ** Errors are their messages *)

Abbreviation DP := (StateM DiskPersistence string).

Definition wrap {A} (msg : string) (m : DP A) : DP A :=
  catch m (fun e => throw (msg ++ e)%string).

Section DiskPersistence.

(** Options of [NewDiskPersistence]. *)
Variables (eventsPerFile initialSeq retention : Z).

(** CBOR.  [unmarshal k b] reads one message of kind [k] from a reader limited
    to [b] and says how many bytes it took. *)
Variable marshal : RepoMsg → result string bytes.
Variable unmarshal : Z → bytes → result string (RepoMsg * nat).

(** [dp.uids.DidToUid], the resolver registered by [SetUidSource]. *)
Variable uids : option (string → result string Z).

(** The system: [io_fail t] is the error of the [t]-th call, if it fails;
    [write_result t data] what the [t]-th write returns. *)
Variable io_fail : nat → option string.
Variable write_result : nat → bytes → Z * option string.

Definition syscall : DP unit := fun d =>
  match io_fail (tick d) with
  | None => (set_tick (S (tick d)) d, Ok tt)
  | Some e => (set_tick (S (tick d)) d, Err e)
  end.

(** [os.Create]: an existing file is truncated. *)
Definition os_Create (name : string) : DP unit :=
  syscall ;; modify (fun d => set_files (<[name := []]> (files d)) d).

Definition createRef (now : Z) (path : string) (seqStart : Z) : DP unit :=
  syscall ;; modify (fun d => add_ref (mkRef (nextID d) now path false seqStart) d).

(** ** Opening the log *)

Definition initLogFile (now : Z) : DP unit :=
  syscall (* os.MkdirAll *) ;;
  wrap "failed to sync log parent directory: " syscall ;;
  os_Create "evts-0" ;;
  wrap "failed to sync new log file: " syscall ;;
  wrap "failed to sync log directory: " syscall ;;
  createRef now "evts-0" 0 ;;
  modify (set_logfi "evts-0") ;;
  modify (set_curSeq initialSeq).

(** [Order("seq_start desc").Limit(1)] *)
Fixpoint latestRef (rows : list LogFileRef) : option LogFileRef :=
  match rows with
  | [] => None
  | r :: rows =>
      match latestRef rows with
      | None => Some r
      | Some r' => if ref_SeqStart r' <? ref_SeqStart r then Some r else Some r'
      end
  end.

Definition resumeLog (now : Z) : DP unit :=
  syscall (* the query *) ;;
  d ← get;
  match latestRef (meta d) with
  | None => initLogFile now
  | Some lfr =>
      match files d !! ref_Path lfr with
      | None => throw "no such file or directory"
      | Some content =>
          match scanForLastSeq true content (-1) with
          | Err e => throw ("failed to scan log file for last seqno: " ++ e)%string
          | Ok (found, content, _) =>
              modify (fun d => set_files (<[ref_Path lfr := content]> (files d)) d) ;;
              let seq :=
                if found =? -1
                then (if ref_SeqStart lfr =? 0 then initialSeq else ref_SeqStart lfr)
                else int64 (found + 1) in
              let seq := if seq <? initialSeq then initialSeq else seq in
              modify (set_curSeq seq) ;;
              let seqStart := if ref_SeqStart lfr <? initialSeq then initialSeq else ref_SeqStart lfr in
              modify (set_counter (seq - seqStart)) ;;
              modify (set_logfi (ref_Path lfr))
          end
      end
  end.

(** The state a fresh process starts [resumeLog] from: only the disk and the
    table survive. *)
Definition restart (d : DiskPersistence) : DiskPersistence :=
  mkDP (files d) (meta d) (nextID d) "" 0 0 None ∅ None (tick d).

(** [NewDiskPersistence]: the checks of the options, then [resumeLog].  Cache
    construction and [AutoMigrate] are library calls; the DID cache evicts
    entries, which only makes [uidForDid] ask the resolver again. *)
Definition NewDiskPersistence (now : Z) : DP unit :=
  if initialSeq <=? 0 then throw ("negative or zero initial seq: " ++ pretty initialSeq)%string
  else if eventsPerFile <=? 0 then throw ("negative or zero events per file: " ++ pretty eventsPerFile)%string
  else fun d => resumeLog now (restart d).

Definition swapLog (now : Z) : DP unit :=
  wrap "failed to close current log file: " syscall ;;
  d ← get;
  let fname := ("evts-" ++ pretty (curSeq d))%string in
  os_Create fname ;;
  wrap "failed to sync new log file: " syscall ;;
  wrap "failed to sync log directory: " syscall ;;
  createRef now fname (curSeq d) ;;
  modify (set_logfi fname) ;;
  modify (set_counter 0).

(** ** Writing *)

Definition append_log (data : bytes) (d : DiskPersistence) : DiskPersistence :=
  set_files (<[logfi d := default [] (files d !! logfi d) ++ data]> (files d)) d.

(** [dp.writeFile]: the first [n] bytes reach the file; a count outside the
    data, which [writeAll] refuses, stands for none or all of them. *)
Definition writeFile (data : bytes) : DP (Z * option string) := fun d =>
  let '(n, err) := write_result (tick d) data in
  (set_tick (S (tick d)) (append_log (take (Z.to_nat n) data) d), Ok (n, err)).

Fixpoint writeAll_loop (fuel : nat) (data : bytes) : DP unit :=
  match data with
  | [] => mret tt
  | _ =>
      match fuel with
      | O => throw "out of fuel"
      | S fuel =>
          '(n, err) ← writeFile data;
          if (n <? 0) || (Z.of_nat (length data) <? n)
          then throw ("invalid write count: " ++ pretty n)%string
          else
            let data := drop (Z.to_nat n) data in
            match err with
            | Some e =>
                if (0 <? n) && (0 <? Z.of_nat (length data)) then writeAll_loop fuel data
                else throw e
            | None => if n =? 0 then throw "short write" else writeAll_loop fuel data
            end
      end
  end.

(** Every turn that goes round again has written at least one byte. *)
Definition writeAll (data : bytes) : DP unit := writeAll_loop (length data) data.

Definition failLocked {A} (err : string) : DP A := fun d =>
  match failed d with
  | Some e => (d, Err e)
  | None =>
      let e := ("disk persistence requires restart: " ++ err)%string in
      (set_failed (Some e) d, Err e)
  end.

(** [persistLocked]; [ctxErr] is [ctx.Err()], [data] the frame without its
    sequence number, [m] the message [xevt] carries. *)
Definition persistLocked (now : Z) (ctxErr : option string) (xevt : XRPCStreamEvent) (m : RepoMsg) (data : bytes)
  : DP unit :=
  d ← get;
  match failed d with
  | Some e => throw e
  | None =>
  match ctxErr with
  | Some e => throw e
  | None =>
      (if (0 <? eventCounter d) && (Z.rem (eventCounter d) eventsPerFile =? 0)
       then catch (swapLog now) (fun e => failLocked ("failed to rotate disk log: " ++ e)%string)
       else mret tt) ;;
      d ← get;
      let seq := curSeq d in
      let data := put_le 8 20 (uint64 seq) data in
      catch (writeAll data) (fun e => failLocked ("failed to write disk log: " ++ e)%string) ;;
      catch syscall (fun e => failLocked ("failed to sync disk log: " ++ e)%string) ;;
      let xevt := set_msg (msg_set_seq seq m) xevt in
      modify (fun d => set_curSeq (int64 (curSeq d + 1)) d) ;;
      modify (fun d => set_counter (int64 (eventCounter d + 1)) d) ;;
      modify (fun d => set_broadcast ((λ sent, sent ++ [xevt]) <$> broadcast d) d)
  end
  end.

Definition uidForDid (did : string) : DP Z :=
  d ← get;
  match didCache d !! did with
  | Some uid => mret uid
  | None =>
      match uids with
      | None => throw "DiskPersistence has no UID resolver registered"
      | Some f =>
          match f did with
          | Err e => throw e
          | Ok uid => modify (fun d => set_didCache (<[did := uid]> (didCache d)) d) ;; mret uid
          end
      end
  end.

(** The buffer [Persist] builds, before the sequence number is set. *)
Definition frame (kind uid : Z) (body : bytes) : bytes :=
  let b := replicate headerSize x00 ++ body in
  let b := put_le 4 0 0 b in
  let b := put_le 4 4 kind b in
  let b := put_le 4 8 (uint32 (Z.of_nat (length b) - Z.of_nat headerSize)) b in
  put_le 8 12 uid b.

Definition Persist (now : Z) (ctxErr : option string) (xevt : XRPCStreamEvent) : DP unit :=
  match repo_msg xevt with
  | None => mret tt
  | Some m =>
      match marshal m with
      | Err e => throw ("failed to marshal: " ++ e)%string
      | Ok body =>
          uid ← uidForDid (msg_did m);
          persistLocked now ctxErr xevt m (frame (evtKind m) uid body)
      end
  end.

Definition Flush (ctxErr : option string) : DP unit :=
  d ← get;
  match failed d with
  | Some e => throw e
  | None => match ctxErr with Some e => throw e | None => syscall end
  end.

(** [Shutdown]: [once] holds the recorded error once it has run. *)
Definition Shutdown (ctxErr : option string) (once : option (option string)) : DP (option string) := fun d =>
  match once with
  | Some shutdownErr => (d, Ok shutdownErr)
  | None =>
      let '(d, err) :=
        match failed d with
        | Some e => (d, Some e)
        | None =>
            match ctxErr with
            | Some e => (d, Some e)
            | None => match syscall d with (d, Ok _) => (d, None) | (d, Err e) => (d, Some e) end
            end
        end in
      match syscall d with
      | (d, Err e) => (d, Ok (Some (default e err)))
      | (d, Ok _) => (d, Ok err)
      end
  end.

(** [SetEventBroadcaster] with a non-nil function. *)
Definition SetEventBroadcaster : DP unit := modify (set_broadcast (Some [])).

(** ** Playback *)

Definition postDoNotEmit (flags : Z) : bool :=
  negb (Z.land flags (Z.lor EvtFlagRebased EvtFlagTakedown) =? 0).

Section Playback.
(** The callback, over whatever state [T] it keeps. *)
Context {T : Type} (cb : XRPCStreamEvent → T → T * option string).

Fixpoint read_loop (fuel : nat) (bufr : bytes) (lastSeq : Z) (st : T) : T * result string Z :=
  match fuel with
  | O => (st, Err "out of fuel"%string)
  | S fuel =>
      match readHeader bufr with
      | Err EOF => (st, Ok lastSeq)
      | Err UnexpectedEOF => (st, Err "reading header: unexpected EOF"%string)
      | Ok (h, rest) =>
          if postDoNotEmit (Flags h) then
            if Z.of_nat (length rest) <? Len h
            then (st, Err "failed while skipping event: EOF"%string)
            else read_loop fuel (drop (Z.to_nat (Len h)) rest) (Seq h) st
          else if existsb (Z.eqb (Kind h)) [evtKindCommit; evtKindSync; evtKindIdentity; evtKindAccount]
          then
            match unmarshal (Kind h) (take (Z.to_nat (Len h)) rest) with
            | Err e => (st, Err e)
            | Ok (m, n) =>
                match cb (msg_event (msg_set_seq (Seq h) m) 0) st with
                | (st, Some e) => (st, Err e)
                | (st, None) => read_loop fuel (drop n rest) (Seq h) st
                end
            end
          else (st, Err "halting on unrecognized event kind"%string)
      end
  end.

(** [readEventsFrom]; [Ok None] is the result [nil, nil]. *)
Definition readEventsFrom (d : DiskPersistence) (since : Z) (fn : string) (st : T)
  : T * result string (option Z) :=
  match files d !! fn with
  | None => (st, Err "no such file or directory"%string)
  | Some content =>
      let read bufr :=
        match read_loop (S (length bufr)) bufr 0 st with
        | (st, Ok lastSeq) => (st, Ok (Some lastSeq))
        | (st, Err e) => (st, Err e)
        end in
      if negb (since =? 0) then
        match scanForLastSeq false content since with
        | Err e => (st, Err e)
        | Ok (lastSeq, content, pos) =>
            if lastSeq <? since then (st, Ok None) else read (drop pos content)
        end
      else read content
  end.

Fixpoint PlaybackLogfiles (d : DiskPersistence) (since : Z) (logFiles : list LogFileRef) (st : T)
  : T * result string (option Z) :=
  match logFiles with
  | [] => (st, Ok None)
  | lf :: rest =>
      match readEventsFrom d since (ref_Path lf) st with
      | (st, Err e) => (st, Err e)
      | (st, Ok lastSeq) =>
          match rest, lastSeq with
          | [], Some l =>
              if l - ref_SeqStart lf =? eventsPerFile - 1 then (st, Ok (Some l)) else (st, Ok None)
          | _, _ => PlaybackLogfiles d 0 rest st
          end
      end
  end.

(** [Order("seq_start asc")]: insertion sort, stable. *)
Fixpoint insert_ref (r : LogFileRef) (rows : list LogFileRef) : list LogFileRef :=
  match rows with
  | [] => [r]
  | r' :: rows' =>
      if ref_SeqStart r <=? ref_SeqStart r' then r :: rows else r' :: insert_ref r rows'
  end.
Definition order_asc (rows : list LogFileRef) : list LogFileRef := foldr insert_ref [] rows.

Definition refs_from (d : DiskPersistence) (since : Z) : list LogFileRef :=
  order_asc (List.filter (fun r => since <=? ref_SeqStart r) (meta d)).
Definition ref_before (d : DiskPersistence) (since : Z) : option LogFileRef :=
  latestRef (List.filter (fun r => ref_SeqStart r <? since) (meta d)).

(** The [for range 10] loop; [logs] is [Some] when the first query already
    gave the files of this turn. *)
Fixpoint playback_passes (n : nat) (d : DiskPersistence) (since : Z) (logs : option (list LogFileRef)) (st : T)
  : T * result string unit :=
  match n with
  | O => (st, Ok tt)
  | S n =>
      let logs := match logs with Some l => l | None => refs_from d since end in
      match PlaybackLogfiles d since logs st with
      | (st, Err e) => (st, Err e)
      | (st, Ok None) => (st, Ok tt)
      | (st, Ok (Some lastSeq)) => playback_passes n d lastSeq None st
      end
  end.

Definition Playback (d : DiskPersistence) (since : Z) (st : T) : T * result string unit :=
  let logs :=
    if negb (since =? 0) then (λ r, [r]) <$> ref_before d since else None in
  playback_passes 10 d since logs st.

End Playback.

(** ** Takedown *)

(** Write [data] over the bytes of [content] at [off]. *)
Definition write_at (off : nat) (data content : bytes) : bytes :=
  take off content ++ data ++ drop (off + length data) content.

Fixpoint mutate_loop (fuel : nat) (uid flag : Z) (zeroEvts : bool) (offset : nat) (content : bytes)
  : bytes * result string unit :=
  match fuel with
  | O => (content, Err "out of fuel"%string)
  | S fuel =>
      match readHeader (drop offset content) with
      | Err EOF => (content, Ok tt)
      | Err UnexpectedEOF => (content, Err "reading header: unexpected EOF"%string)
      | Ok (h, _) =>
          let content :=
            if (Usr h =? uid) && (Z.land (Flags h) flag =? 0) then
              let content := write_at offset (le_split 4 (Z.lor (Flags h) flag)) content in
              if zeroEvts
              then write_at (offset + headerSize) (replicate (Z.to_nat (Len h)) x00) content
              else content
            else content in
          mutate_loop fuel uid flag zeroEvts (offset + headerSize + Z.to_nat (Len h)) content
      end
  end.

Definition mutateUserEventsInLog (d : DiskPersistence) (uid : Z) (fn : string) (flag : Z) (zeroEvts : bool)
  : DiskPersistence * result string unit :=
  match files d !! fn with
  | None => (d, Err "failed to open log file"%string)
  | Some content =>
      let '(content, r) := mutate_loop (S (length content)) uid flag zeroEvts 0 content in
      (set_files (<[fn := content]> (files d)) d, r)
  end.

Definition deleteEventsForUser (d : DiskPersistence) (uid : Z) (fn : string) :=
  mutateUserEventsInLog d uid fn EvtFlagTakedown true.

Definition refMaybeHasUserEvents (uid : Z) (ref : LogFileRef) : bool := true.

(** [forEachShardWithUserEvents] with [deleteEventsForUser], over the rows the
    [created_at desc] query returned.  No row is ever archived by this code, so
    every path is under [primaryDir]. *)
Fixpoint takedown_refs (d : DiskPersistence) (uid : Z) (refs : list LogFileRef) : DiskPersistence * result string unit :=
  match refs with
  | [] => (d, Ok tt)
  | r :: refs =>
      if refMaybeHasUserEvents uid r then
        match deleteEventsForUser d uid (ref_Path r) with
        | (d, Err e) => (d, Err e)
        | (d, Ok _) => takedown_refs d uid refs
        end
      else takedown_refs d uid refs
  end.

Definition TakeDownRepo (d : DiskPersistence) (uid : Z) : DiskPersistence * result string unit :=
  takedown_refs d uid (rev (meta d)).

(** ** Garbage collection *)

(** The loop over the rows older than the retention period.  Failing calls are
    collected and the loop goes on. *)
Fixpoint gc_refs (refs : list LogFileRef) : DP (list string) :=
  match refs with
  | [] => mret []
  | r :: refs =>
      d ← get;
      if String.eqb (ref_Path r) (logfi d) then gc_refs refs
      else fun d0 =>
        match syscall d0 with
        | (d1, Err e) => (errs ← gc_refs refs; mret (e :: errs)) d1
        | (d1, Ok _) =>
            let d2 := set_meta (List.filter (fun r' => negb (ref_ID r' =? ref_ID r)) (meta d1)) d1 in
            match syscall d2 with
            | (d3, Err e) => (errs ← gc_refs refs; mret (e :: errs)) d3
            | (d3, Ok _) => gc_refs refs (set_files (delete (ref_Path r) (files d3)) d3)
            end
        end
  end.

Definition garbageCollect (now : Z) : DP (list string) := fun d =>
  match syscall d with
  | (d, Err e) => (d, Ok [e])
  | (d, Ok _) => gc_refs (List.filter (fun r => ref_CreatedAt r <? now - retention) (meta d)) d
  end.

End DiskPersistence.
