(* ===== verification/DiskPersistProofs.v ===== *)
(** * Correctness of the durable event log

    The log of [DiskPersist.v] as a sequence of entries.  [log_inv] relates the
    files and the table to that sequence; persisting, failing at any system
    call, crashing and restarting keep it, and playback reads it back. *)

From S2P Require Import Prelude GoStrings Stream StateMonad DiskPersist.
From Stdlib Require Import Strings.Byte.
From coqutil Require Import Byte Word.LittleEndianList.
From stdpp Require Import pretty.
Local Open Scope Z_scope.

(** ** Entries and their encoding *)

Record entry := mkEntry { e_flags : Z; e_kind : Z; e_usr : Z; e_seq : Z; e_body : bytes }.

Definition entry_wf (e : entry) : Prop :=
  0 ≤ e_flags e < 2 ^ 32 ∧ 0 ≤ e_kind e < 2 ^ 32 ∧ 0 ≤ e_usr e < 2 ^ 64 ∧
  - 2 ^ 63 ≤ e_seq e < 2 ^ 63 ∧ Z.of_nat (length (e_body e)) < 2 ^ 32.

Definition entry_len (e : entry) : nat := headerSize + length (e_body e).

Definition encode_entry (e : entry) : bytes :=
  le_split 4 (e_flags e) ++ le_split 4 (e_kind e) ++ le_split 4 (Z.of_nat (length (e_body e)))
  ++ le_split 8 (e_usr e) ++ le_split 8 (uint64 (e_seq e)) ++ e_body e.

Definition encode_entries (es : list entry) : bytes := concat (map encode_entry es).

Definition entry_header (e : entry) : evtHeader :=
  mkHeader (e_flags e) (e_kind e) (e_seq e) (e_usr e) (Z.of_nat (length (e_body e))).

Lemma encode_entry_length e : length (encode_entry e) = entry_len e.
Proof. unfold encode_entry, entry_len. rewrite !length_app, !length_le_split. simpl. lia. Qed.

Lemma readHeader_encode e rest :
  entry_wf e → readHeader (encode_entry e ++ rest) = Ok (entry_header e, e_body e ++ rest).
Proof.
  intros (Hf & Hk & Hu & Hs & Hl). unfold readHeader.
  rewrite length_app, encode_entry_length. unfold entry_len, headerSize. simpl Nat.eqb.
  rewrite (proj2 (Nat.ltb_ge _ _)) by lia. f_equal. f_equal.
  unfold entry_header. unfold encode_entry, get_le.
  transitivity (mkHeader (le_combine (le_split 4 (e_flags e))) (le_combine (le_split 4 (e_kind e)))
    (int64 (le_combine (le_split 8 (uint64 (e_seq e))))) (le_combine (le_split 8 (e_usr e)))
    (le_combine (le_split 4 (Z.of_nat (length (e_body e)))))); [reflexivity|].
  rewrite !le_combine_split. change (2 ^ (Z.of_nat 4 * 8)) with (2 ^ 32).
  change (2 ^ (Z.of_nat 8 * 8)) with (2 ^ 64).
  pose proof (uint64_range (e_seq e)).
  rewrite !(Z.mod_small) by lia. by rewrite int64_uint64 by lia.
Qed.

Lemma length_put_le n off v b : (off + n ≤ length b)%nat → length (put_le n off v b) = length b.
Proof.
  intros. unfold put_le. rewrite !length_app, length_take, length_drop, length_le_split. lia.
Qed.

Lemma frame_encode kind uid seq body :
  Z.of_nat (length body) < 2 ^ 32 →
  put_le 8 20 (uint64 seq) (frame kind uid body) = encode_entry (mkEntry 0 kind uid seq body).
Proof.
  intros Hl. unfold encode_entry, frame.
  rewrite !length_put_le by
    (rewrite ?length_put_le; rewrite length_app, length_replicate; unfold headerSize; lia).
  rewrite length_app, length_replicate.
  replace (Z.of_nat (headerSize + length body) - Z.of_nat headerSize) with (Z.of_nat (length body)) by lia.
  rewrite uint32_small by lia. unfold put_le. reflexivity.
Qed.

(** The 28-byte header that [Persist] builds field by field and
    stamps with a sequence number is what [readHeader] decodes, for every kind,
    user, sequence number and body below 4 GiB, and the body follows it. *)
Theorem frame_readHeader kind uid seq body rest :
  0 ≤ kind < 2 ^ 32 → 0 ≤ uid < 2 ^ 64 → - 2 ^ 63 ≤ seq < 2 ^ 63 →
  Z.of_nat (length body) < 2 ^ 32 →
  readHeader (put_le 8 20 (uint64 seq) (frame kind uid body) ++ rest)
  = Ok (mkHeader 0 kind seq uid (Z.of_nat (length body)), body ++ rest).
Proof.
  intros. rewrite frame_encode by done. by rewrite readHeader_encode.
Qed.

Lemma frame_readHeader_witness :
  readHeader (put_le 8 20 (uint64 7) (frame evtKindCommit 3 [x01; x02]) ++ [xff])
  = Ok (mkHeader 0 evtKindCommit 7 3 2, [x01; x02] ++ [xff]).
Proof. apply (frame_readHeader evtKindCommit 3 7 [x01; x02] [xff]); vm_compute; intuition discriminate. Defined.

(** ** Scanning *)

Definition last_seq (d : Z) (es : list entry) : Z := default d (e_seq <$> last es).

Lemma last_seq_cons d e es : last_seq d (e :: es) = last_seq (e_seq e) es.
Proof. unfold last_seq. rewrite last_cons. by destruct (last es). Qed.

Lemma last_seq_snoc d es e : last_seq d (es ++ [e]) = e_seq e.
Proof. unfold last_seq. by rewrite last_snoc. Qed.

Lemma encode_entries_cons e es : encode_entries (e :: es) = encode_entry e ++ encode_entries es.
Proof. done. Qed.

Lemma encode_entries_app es1 es2 :
  encode_entries (es1 ++ es2) = encode_entries es1 ++ encode_entries es2.
Proof. unfold encode_entries. by rewrite map_app, concat_app. Qed.

Lemma encode_entries_snoc es e : encode_entries (es ++ [e]) = encode_entries es ++ encode_entry e.
Proof. rewrite encode_entries_app. unfold encode_entries at 2. cbn [map concat]. by rewrite app_nil_r. Qed.

Lemma encode_entries_length es : (length es * headerSize ≤ length (encode_entries es))%nat.
Proof.
  induction es as [|e es IH]; [simpl; lia|].
  rewrite encode_entries_cons, length_app, encode_entry_length. unfold entry_len. simpl. lia.
Qed.

(** What a torn write leaves: a proper prefix of some entry. *)
Definition torn (tail : bytes) : Prop :=
  ∃ e, entry_wf e ∧ tail `prefix_of` encode_entry e ∧ (length tail < entry_len e)%nat.

Lemma torn_nil : torn [].
Proof.
  exists (mkEntry 0 0 0 0 []). split_and!; [unfold entry_wf; simpl; lia|apply prefix_nil|].
  unfold entry_len, headerSize. simpl. lia.
Qed.

Lemma readHeader_prefix tail e :
  entry_wf e → tail `prefix_of` encode_entry e → (headerSize ≤ length tail)%nat →
  ∃ rest, readHeader tail = Ok (entry_header e, rest).
Proof.
  intros Hwf [t Ht] Hl. pose proof (readHeader_encode e [] Hwf) as H.
  rewrite app_nil_r, Ht in H. unfold readHeader in *.
  rewrite length_app in H. rewrite (proj2 (Nat.eqb_neq _ _)) in H by (unfold headerSize in *; lia).
  rewrite (proj2 (Nat.ltb_ge _ _)) in H by lia.
  rewrite (proj2 (Nat.eqb_neq _ _)) by (unfold headerSize in *; lia).
  rewrite (proj2 (Nat.ltb_ge _ _)) by lia.
  rewrite take_app_le in H by lia. eexists. f_equal. f_equal. congruence.
Qed.

Lemma scan_step fuel w pre e rest end_ last :
  entry_wf e →
  scan_loop (S fuel) w (pre ++ encode_entry e ++ rest) end_ (length pre) last =
  if (0 <? end_) && (end_ <? e_seq e)
  then Ok (e_seq e, pre ++ encode_entry e ++ rest, length pre)
  else scan_loop fuel w (pre ++ encode_entry e ++ rest) end_ (length (pre ++ encode_entry e)) (e_seq e).
Proof.
  intros Hwf. cbn [scan_loop]. rewrite drop_app_length, readHeader_encode by done. simpl Len. simpl Seq.
  rewrite (proj2 (Z.ltb_ge _ _)).
  2: { rewrite !length_app, encode_entry_length. unfold entry_len. lia. }
  rewrite Nat2Z.id, length_app, encode_entry_length. unfold entry_len.
  by rewrite Nat.add_assoc.
Qed.

Lemma scan_torn fuel pre tail last :
  torn tail →
  scan_loop (S fuel) true (pre ++ tail) (-1) (length pre) last = Ok (last, pre, length pre).
Proof.
  intros (e & Hwf & Hp & Hl). cbn [scan_loop]. rewrite drop_app_length.
  destruct (decide (tail = [])) as [->|Hne]; [by rewrite app_nil_r|].
  destruct (decide (length tail < headerSize)%nat) as [Hs|Hs].
  - unfold readHeader. rewrite (proj2 (Nat.eqb_neq _ _)).
    2: { by destruct tail. }
    rewrite (proj2 (Nat.ltb_lt _ _)) by lia. unfold recoverIncompleteTail. simpl.
    by rewrite take_app_length.
  - destruct (readHeader_prefix tail e Hwf Hp) as [rest Hr]; [lia|]. rewrite Hr. simpl Len.
    rewrite (proj2 (Z.ltb_lt _ _)).
    2: { rewrite length_app. unfold entry_len in Hl. lia. }
    unfold recoverIncompleteTail. simpl. by rewrite take_app_length.
Qed.

Lemma scan_entries fuel pre es tail last :
  Forall entry_wf es → torn tail → (length es < fuel)%nat →
  scan_loop fuel true (pre ++ encode_entries es ++ tail) (-1) (length pre) last
  = Ok (last_seq last es, pre ++ encode_entries es, length (pre ++ encode_entries es)).
Proof.
  revert fuel pre last. induction es as [|e es IH]; intros fuel pre last Hwf Ht Hf;
    (destruct fuel as [|fuel]; [simpl in Hf; lia|]).
  - change (encode_entries []) with (@nil Byte.byte). rewrite app_nil_l, app_nil_r. by apply scan_torn.
  - inversion Hwf; subst. rewrite encode_entries_cons, <-app_assoc, scan_step by done.
    simpl andb. cbv iota. rewrite (app_assoc pre), IH by (done || simpl in *; lia).
    by rewrite last_seq_cons, <-!app_assoc.
Qed.

Lemma scanForLastSeq_entries es tail :
  Forall entry_wf es → torn tail →
  scanForLastSeq true (encode_entries es ++ tail) (-1)
  = Ok (last_seq (-1) es, encode_entries es, length (encode_entries es)).
Proof.
  intros Hwf Ht. unfold scanForLastSeq.
  rewrite <-(app_nil_l (encode_entries es ++ tail)).
  apply (scan_entries _ [] es tail (-1)); [done..|].
  pose proof (encode_entries_length es). rewrite app_nil_l, length_app. unfold headerSize in *. lia.
Qed.

(** Start-up recovery is exact.  Whatever complete entries a log
    file holds, and whatever proper prefix of one more entry a torn write left
    behind them, the scan keeps every complete entry, removes exactly the torn
    tail, and reports the last complete sequence number. *)
Theorem scanForLastSeq_recovers es tail :
  Forall entry_wf es → torn tail →
  scanForLastSeq true (encode_entries es ++ tail) (-1)
  = Ok (last_seq (-1) es, encode_entries es, length (encode_entries es)).
Proof. apply scanForLastSeq_entries. Qed.

Lemma scanForLastSeq_recovers_witness :
  scanForLastSeq true (encode_entries [mkEntry 0 1 5 1 [x07]] ++ [x00; x01]) (-1)
  = Ok (last_seq (-1) [mkEntry 0 1 5 1 [x07]], encode_entries [mkEntry 0 1 5 1 [x07]],
        length (encode_entries [mkEntry 0 1 5 1 [x07]])).
Proof.
  apply scanForLastSeq_recovers.
  - repeat constructor; simpl; lia.
  - exists (mkEntry 256 0 0 0 []). split_and!; [repeat constructor; simpl; lia| |vm_compute; lia].
    exists (drop 2 (encode_entry (mkEntry 256 0 0 0 []))). vm_compute. reflexivity.
Defined.

(** ** Weakest preconditions of the log's primitives *)

Lemma wp_dp_wrap {A} msg (m : DP A) Q (F : string → DiskPersistence → Prop) d :
  wp m Q (λ _ d', ∀ e, F e d') d → wp (wrap msg m) Q F d.
Proof. intros H. apply wp_catch. revert H. apply wp_mono; [done|]. intros e d' H. apply wp_throw, H. Qed.

Lemma wp_syscall io_fail Q (F : string → DiskPersistence → Prop) d :
  Q tt (set_tick (S (tick d)) d) → (∀ e, F e (set_tick (S (tick d)) d)) → wp (syscall io_fail) Q F d.
Proof. intros HQ HE. unfold wp, syscall. by destruct (io_fail (tick d)). Qed.

Lemma wp_os_Create io_fail name Q (F : string → DiskPersistence → Prop) d :
  (let d1 := set_tick (S (tick d)) d in Q tt (set_files (<[name := []]> (files d1)) d1)) →
  (∀ e, F e (set_tick (S (tick d)) d)) → wp (os_Create io_fail name) Q F d.
Proof. intros HQ HE. apply wp_bind, wp_syscall; [|done]. by apply wp_modify. Qed.

Lemma wp_createRef io_fail now path s Q (F : string → DiskPersistence → Prop) d :
  (let d1 := set_tick (S (tick d)) d in Q tt (add_ref (mkRef (nextID d) now path false s) d1)) →
  (∀ e, F e (set_tick (S (tick d)) d)) → wp (createRef io_fail now path s) Q F d.
Proof. intros HQ HE. apply wp_bind, wp_syscall; [|done]. by apply wp_modify. Qed.

Lemma wp_failLocked {A} err Q (F : string → DiskPersistence → Prop) d :
  (∀ e, failed d = Some e → F e d) → (∀ e, F e (set_failed (Some e) d)) →
  wp (failLocked (A:=A) err) Q F d.
Proof. intros H1 H2. unfold wp, failLocked. destruct (failed d) eqn:Hf; eauto. Qed.

(** ** The log as a sequence of entries *)

Definition ref_name (seq : Z) : string := ("evts-" ++ pretty seq)%string.

#[export] Instance ref_name_inj : Inj (=) (=) ref_name.
Proof. unfold ref_name. intros a b H%str_app_inj_l. by apply (inj pretty). Qed.

(** The full files with their entries, then the open file's entries. *)
Definition log_of (segs : list (LogFileRef * list entry)) (es : list entry) : list entry :=
  concat (map snd segs) ++ es.

Lemma log_of_rotate segs cur es : log_of (segs ++ [(cur, es)]) [] = log_of segs es.
Proof. unfold log_of. rewrite map_app, concat_app. simpl. by rewrite !app_nil_r. Qed.

Lemma log_of_snoc segs es e : log_of segs (es ++ [e]) = log_of segs es ++ [e].
Proof. unfold log_of. by rewrite app_assoc. Qed.

(** The numbers in a file start at its own and stay below those of later files. *)
Definition spans (segs : list (LogFileRef * list entry)) : Prop :=
  StronglySorted (λ s s', Forall (λ e, e_seq e < ref_SeqStart s'.1) s.2) segs ∧
  Forall (λ s, Forall (λ e, ref_SeqStart s.1 ≤ e_seq e) s.2) segs.

Lemma spans_snoc segs s : spans segs → Forall (λ e, e_seq e < ref_SeqStart s.1) (concat (map snd segs)) →
  Forall (λ e, ref_SeqStart s.1 ≤ e_seq e) s.2 → spans (segs ++ [s]).
Proof.
  intros [H1 H2] H3 H4. split; [|by apply Forall_app; repeat constructor].
  apply StronglySorted_snoc. split; [done|]. rewrite Forall_concat, Forall_map in H3. exact H3.
Qed.

Lemma spans_sublist segs segs' : segs' `sublist_of` segs → spans segs → spans segs'.
Proof. intros Hs [H1 H2]. split; [by eapply StronglySorted_sublist|by eapply Forall_sublist']. Qed.

Lemma spans_map f segs : (∀ e, e_seq (f e) = e_seq e) → spans segs → spans (map (λ p, (p.1, map f p.2)) segs).
Proof.
  intros Hf. assert (∀ (P : Z → Prop) l, Forall (λ e, P (e_seq e)) l → Forall (λ e, P (e_seq e)) (map f l)) as Hm.
  { intros P l Hl. rewrite Forall_map. eapply Forall_impl; [exact Hl|]. intros e. simpl. by rewrite Hf. }
  intros [H1 H2]. split.
  - clear H2. induction H1 as [|s segs Hs IH Hx]; simpl; constructor; [done|].
    rewrite Forall_map. eapply Forall_impl; [exact Hx|]. intros s' Hs'. by apply (Hm (λ n, n < _)).
  - rewrite Forall_map. eapply Forall_impl; [exact H2|]. intros s Hs. by apply (Hm (λ n, _ ≤ n)).
Qed.

Section Log.
Variable initialSeq : Z.

Definition first_seq (r : LogFileRef) : Z := Z.max (ref_SeqStart r) initialSeq.

(** [log_inv d segs cur es tail]: the table lists the files [segs] and then
    [cur]; each holds exactly its entries, [cur] followed by the bytes [tail]
    of an unacknowledged write; sequence numbers strictly increase over the
    whole log, are consecutive in the open file and stay below [curSeq], and
    each file has those from its first number on up to the next file's. *)
Record log_inv (d : DiskPersistence) (segs : list (LogFileRef * list entry)) (cur : LogFileRef)
    (es : list entry) (tail : bytes) : Prop := {
  li_meta : meta d = map fst segs ++ [cur];
  li_files : Forall (λ s, files d !! ref_Path s.1 = Some (encode_entries s.2)) segs;
  li_cur : files d !! ref_Path cur = Some (encode_entries es ++ tail);
  li_logfi : logfi d = ref_Path cur;
  li_path : Forall (λ r, ref_Path r = ref_name (ref_SeqStart r)) (meta d);
  li_starts : StronglySorted Z.lt (map ref_SeqStart (meta d));
  li_pos : Forall (λ r, 0 ≤ ref_SeqStart r) (meta d);
  li_ids : StronglySorted Z.lt (map ref_ID (meta d)) ∧ Forall (λ r, ref_ID r < nextID d) (meta d);
  li_init : 0 < initialSeq;
  li_wf : Forall entry_wf (log_of segs es);
  li_sorted : StronglySorted Z.lt (map e_seq (log_of segs es));
  li_old : Forall (λ e, e_seq e < ref_SeqStart cur) (concat (map snd segs));
  li_spans : spans segs;
  li_below : Forall (λ e, e_seq e < curSeq d) (log_of segs es);
  li_seqs : map e_seq es = seqZ (first_seq cur) (Z.of_nat (length es));
  li_curSeq : curSeq d = first_seq cur + Z.of_nat (length es);
  li_counter : eventCounter d = Z.of_nat (length es);
  li_tail : tail = [] ∨ ∃ e, entry_wf e ∧ e_seq e = curSeq d ∧ tail `prefix_of` encode_entry e;
  li_alive : failed d = None → tail = [];
  li_uids : map_Forall (λ _ uid, 0 ≤ uid < 2 ^ 64) (didCache d);
}.

(** What the invariant reads of the state. *)
Definition same_log (d d' : DiskPersistence) : Prop :=
  files d' = files d ∧ meta d' = meta d ∧ logfi d' = logfi d ∧
  eventCounter d' = eventCounter d ∧ curSeq d' = curSeq d ∧ didCache d' = didCache d ∧
  nextID d' = nextID d.

Lemma log_inv_same d d' segs cur es tail :
  same_log d d' → failed d' = failed d ∨ (∃ e, failed d' = Some e) →
  log_inv d segs cur es tail → log_inv d' segs cur es tail.
Proof.
  intros (H1 & H2 & H3 & H4 & H5 & H6 & H7) Hf [].
  constructor; rewrite ?H1, ?H2, ?H3, ?H4, ?H5, ?H6, ?H7; try done.
  destruct Hf as [->|[e ->]]; [done|naive_solver].
Qed.

Lemma log_inv_tick t d segs cur es tail :
  log_inv d segs cur es tail → log_inv (set_tick t d) segs cur es tail.
Proof. apply log_inv_same; [done|by left]. Qed.

Lemma log_inv_fail e d segs cur es tail :
  log_inv d segs cur es tail → log_inv (set_failed (Some e) d) segs cur es tail.
Proof. apply log_inv_same; [done|right; by eexists]. Qed.

(** Every row starts at or before the open file. *)
Lemma starts_le d segs cur es tail :
  log_inv d segs cur es tail → Forall (λ r, ref_SeqStart r ≤ ref_SeqStart cur) (meta d).
Proof.
  intros []. rewrite li_meta0, map_app in *. simpl in li_starts0.
  apply StronglySorted_snoc in li_starts0 as [_ Hs].
  apply Forall_app. split; [|by repeat constructor].
  rewrite Forall_map in Hs. eapply Forall_impl; [exact Hs|simpl; lia].
Qed.

(** No row has the name of a file with a later start. *)
Lemma paths_fresh d segs cur es tail z :
  log_inv d segs cur es tail → ref_SeqStart cur < z →
  Forall (λ r, ref_Path r ≠ ref_name z) (meta d).
Proof.
  intros Hi Hz. pose proof (starts_le _ _ _ _ _ Hi) as Hs. destruct Hi.
  rewrite Forall_forall in *. intros r Hr. rewrite (li_path0 r Hr).
  intros H%(inj ref_name). specialize (Hs r Hr). lia.
Qed.

(** The rows of full files have other names than the open file. *)
Lemma paths_distinct d segs cur es tail :
  log_inv d segs cur es tail → Forall (λ s, ref_Path s.1 ≠ ref_Path cur) segs.
Proof.
  intros []. rewrite li_meta0, map_app in *. simpl in li_starts0.
  apply StronglySorted_snoc in li_starts0 as [_ Hs].
  apply Forall_app in li_path0 as [Hp Hc]. inversion Hc as [|?? Hc' _]; subst.
  rewrite Forall_map, Forall_map in Hs. rewrite Forall_map in Hp.
  rewrite Forall_forall in *. intros s Hin. rewrite (Hp s Hin), Hc'.
  intros H%(inj ref_name). specialize (Hs s Hin). lia.
Qed.

(** A file that no row names can be created. *)
Lemma log_inv_create d segs cur es tail name data :
  Forall (λ r, ref_Path r ≠ name) (meta d) →
  log_inv d segs cur es tail → log_inv (set_files (<[name := data]> (files d)) d) segs cur es tail.
Proof.
  intros Hn []. pose proof Hn as Hn'. rewrite li_meta0 in Hn'.
  apply Forall_app in Hn' as [Hs Hc]. inversion Hc; subst. rewrite Forall_map in Hs.
  constructor; simpl; try done.
  - rewrite Forall_forall in *. intros s Hin. rewrite lookup_insert_ne; [eauto|].
    intros ->. by apply (Hs s Hin).
  - by rewrite lookup_insert_ne.
Qed.

Lemma latestRef_snoc rows r :
  Forall (λ r', ref_SeqStart r' < ref_SeqStart r) rows → latestRef (rows ++ [r]) = Some r.
Proof.
  induction rows as [|r' rows IH]; [done|]. intros Hf. inversion Hf; subst. simpl.
  rewrite IH by done. by rewrite (proj2 (Z.ltb_ge _ _)) by lia.
Qed.

Lemma latestRef_cur d segs cur es tail :
  log_inv d segs cur es tail → latestRef (meta d) = Some cur.
Proof.
  intros []. rewrite li_meta0, map_app in *. apply StronglySorted_snoc in li_starts0 as [_ H].
  rewrite Forall_map in H. by apply latestRef_snoc.
Qed.

End Log.
