(* ===== verification/DiskPersistSafety.v ===== *)
(** * The event log under failures

    [Persist] refines "append one entry": whatever system calls fail, the log is
    either extended by exactly the acknowledged event or unchanged up to an
    unacknowledged tail, a failure is final until restart, and a restart
    recovers the log. *)

From S2P Require Import Prelude GoStrings Stream StateMonad DiskPersist DiskPersistProofs.
From Stdlib Require Import Strings.Byte.
From coqutil Require Import Byte Word.LittleEndianList.
From stdpp Require Import pretty.
Local Open Scope Z_scope.

Section Persist.
Variables (eventsPerFile initialSeq : Z).
Variable marshal : RepoMsg → result string bytes.
Variable uids : option (string → result string Z).
Variable io_fail : nat → option string.
Variable write_result : nat → bytes → Z * option string.

Local Abbreviation log_inv := (log_inv initialSeq).
Local Abbreviation first_seq := (first_seq initialSeq).

(** What rotation and writing leave alone. *)
Definition keeps (d d' : DiskPersistence) : Prop :=
  curSeq d' = curSeq d ∧ broadcast d' = broadcast d ∧ failed d' = failed d ∧ didCache d' = didCache d.

(** ** Writing *)

Lemma append_log_app p q d : append_log q (append_log p d) = append_log (p ++ q) d.
Proof.
  unfold append_log, set_files. simpl. rewrite lookup_insert_eq, insert_insert_eq. simpl.
  by rewrite app_assoc.
Qed.

Lemma append_log_nil d c : files d !! logfi d = Some c → append_log [] d = d.
Proof.
  intros Hc. unfold append_log, set_files. rewrite Hc. simpl.
  rewrite app_nil_r, insert_id by done. by destruct d.
Qed.

Lemma append_log_tick p t d : append_log p (set_tick t d) = set_tick t (append_log p d).
Proof. done. Qed.

(** On success the file has grown by [data], on failure by a prefix of it. *)
Lemma writeAll_loop_wp fuel data d c :
  files d !! logfi d = Some c → (length data ≤ fuel)%nat →
  wp (writeAll_loop write_result fuel data)
     (λ _ d', ∃ t, d' = set_tick t (append_log data d))
     (λ _ d', ∃ t p, p `prefix_of` data ∧ d' = set_tick t (append_log p d)) d.
Proof.
  revert data d c. induction fuel as [|fuel IH]; intros data d c Hc Hf.
  - destruct data; [|simpl in Hf; lia]. exists (tick d). rewrite (append_log_nil d c) by done. by destruct d.
  - destruct data as [|b data]; [exists (tick d); rewrite (append_log_nil d c) by done; by destruct d|].
    set (data' := b :: data) in *. unfold wp. cbn [writeAll_loop]. unfold data' at 1.
    unfold mbind, StateM_bind, writeFile at 1. fold data'.
    destruct (write_result (tick d) data') as [n err].
    set (d1 := set_tick (S (tick d)) (append_log (take (Z.to_nat n) data') d)).
    destruct ((n <? 0) || (Z.of_nat (length data') <? n)) eqn:Hn.
    { exists (S (tick d)), (take (Z.to_nat n) data'). split; [apply prefix_take|done]. }
    bool_to_prop.
    assert (Hc1 : files d1 !! logfi d1 = Some (c ++ take (Z.to_nat n) data')).
    { unfold d1, append_log. simpl. by rewrite lookup_insert_eq, Hc. }
    assert (Hrec : 0 < n → wp (writeAll_loop write_result fuel (drop (Z.to_nat n) data'))
      (λ _ d', ∃ t, d' = set_tick t (append_log data' d))
      (λ _ d', ∃ t p, p `prefix_of` data' ∧ d' = set_tick t (append_log p d)) d1).
    { intros Hn0. eapply wp_mono; [| |eapply (IH _ _ _ Hc1); rewrite length_drop; lia].
      - intros _ d' [t ->]. exists t. unfold d1. rewrite append_log_tick, append_log_app, take_drop. done.
      - intros e' d' (t & p & Hp & ->). exists t, (take (Z.to_nat n) data' ++ p). split.
        + rewrite <-(take_drop (Z.to_nat n) data') at 2. by apply prefix_app.
        + unfold d1. by rewrite append_log_tick, append_log_app. }
    destruct err as [e|].
    + destruct ((0 <? n) && (0 <? Z.of_nat (length (drop (Z.to_nat n) data')))) eqn:Hcont.
      * bool_to_prop. by apply Hrec.
      * exists (S (tick d)), (take (Z.to_nat n) data'). split; [apply prefix_take|done].
    + destruct (n =? 0) eqn:Hz; bool_to_prop.
      * exists (S (tick d)), (take (Z.to_nat n) data'). split; [apply prefix_take|done].
      * apply Hrec. lia.
Qed.

(** ** Rotation *)

Lemma log_inv_rotate d segs cur es now fname :
  log_inv d segs cur es [] → ref_SeqStart cur < curSeq d → initialSeq ≤ curSeq d →
  fname = ref_name (curSeq d) → files d !! fname = Some [] →
  log_inv (set_counter 0 (set_logfi fname (add_ref (mkRef (nextID d) now fname false (curSeq d)) d)))
    (segs ++ [(cur, es)]) (mkRef (nextID d) now fname false (curSeq d)) [] [].
Proof.
  intros Hi Hlt Hini -> Hf. pose proof (starts_le _ _ _ _ _ _ Hi) as Hle. destruct Hi.
  constructor; simpl; try rewrite log_of_rotate; try done.
  - rewrite li_meta, map_app. simpl. by rewrite <-app_assoc.
  - apply Forall_app. split; [done|]. repeat constructor. simpl. by rewrite li_cur, app_nil_r.
  - apply Forall_app. split; [done|]. by repeat constructor.
  - rewrite map_app. apply StronglySorted_snoc. split; [done|].
    apply Forall_map. eapply Forall_impl; [exact Hle|simpl; lia].
  - apply Forall_app. split; [done|]. repeat constructor. simpl. lia.
  - destruct li_ids as [Hs Hn]. split.
    + rewrite map_app. apply StronglySorted_snoc. split; [done|]. by apply Forall_map.
    + apply Forall_app. split; [eapply Forall_impl; [exact Hn|simpl; lia]|apply Forall_singleton; simpl; lia].
  - rewrite map_app, concat_app. simpl. rewrite app_nil_r. done.
  - apply spans_snoc; [done|done|]. simpl. apply Forall_forall. intros e He.
    assert (e_seq e ∈ map e_seq es) as Hin by by apply (list_elem_of_fmap_2 e_seq).
    rewrite li_seqs, elem_of_seqZ in Hin. unfold DiskPersistProofs.first_seq in Hin. lia.
  - unfold DiskPersistProofs.first_seq. simpl. lia.
Qed.

Lemma swapLog_wp now d segs cur es :
  log_inv d segs cur es [] → ref_SeqStart cur < curSeq d → initialSeq ≤ curSeq d →
  wp (swapLog io_fail now)
     (λ _ d', keeps d d' ∧ ∃ cur', log_inv d' (segs ++ [(cur, es)]) cur' [] [])
     (λ _ d', keeps d d' ∧ log_inv d' segs cur es []) d.
Proof.
  intros Hi Hlt Hini. unfold swapLog.
  apply wp_bind, wp_dp_wrap, wp_syscall; [|split; [done|by apply log_inv_tick]].
  apply wp_get_bind. cbv zeta. apply wp_bind.
  pose proof (paths_fresh _ _ _ _ _ _ (curSeq d) Hi Hlt) as Hfresh.
  apply wp_os_Create; [|split; [done|by repeat apply log_inv_tick]].
  assert (Hc : ∀ t, log_inv (set_tick t (set_files (<[ref_name (curSeq d):=[]]> (files d)) d)) segs cur es []).
  { intros t. apply log_inv_tick, log_inv_create; done. }
  cbv zeta. apply wp_bind, wp_dp_wrap, wp_syscall; [|split; [done|apply Hc]].
  apply wp_bind, wp_dp_wrap, wp_syscall; [|split; [done|apply Hc]].
  apply wp_bind, wp_createRef; [|split; [done|apply Hc]].
  apply wp_bind, wp_modify, wp_modify. split; [done|].
  eexists. eapply (log_inv_rotate (set_tick (S (S (S (S (S (tick d)))))) (set_files (<[ref_name (curSeq d):=[]]> (files d)) d)));
    [apply Hc|done|done|done|]. simpl. by rewrite lookup_insert_eq.
Qed.

(** ** Appending *)

Lemma log_inv_torn d segs cur es e p t err :
  log_inv d segs cur es [] → entry_wf e → e_seq e = curSeq d → p `prefix_of` encode_entry e →
  log_inv (set_failed (Some err) (set_tick t (append_log p d))) segs cur es p.
Proof.
  intros Hi Hwf Hseq Hp. pose proof (paths_distinct _ _ _ _ _ _ Hi) as Hd. destruct Hi.
  constructor; simpl; try done.
  - rewrite Forall_forall in *. intros s Hs. rewrite li_logfi, lookup_insert_ne; [by apply li_files|].
    intros H. by apply (Hd s Hs).
  - by rewrite li_logfi, lookup_insert_eq, li_cur, app_nil_r.
  - right. by exists e.
Qed.

(** A tail that is a whole entry can be taken into the log. *)
Lemma log_inv_adopt d segs cur es e :
  log_inv d segs cur es (encode_entry e) → entry_wf e → e_seq e = curSeq d →
  log_inv (set_failed None (set_counter (eventCounter d + 1) (set_curSeq (curSeq d + 1) d)))
    segs cur (es ++ [e]) [].
Proof.
  intros [] Hwf Hseq. constructor; simpl; rewrite ?log_of_snoc, ?length_app; simpl; try done.
  - by rewrite li_cur, app_nil_r, encode_entries_snoc.
  - apply Forall_app. split; [done|by apply Forall_singleton].
  - rewrite map_app. apply StronglySorted_snoc. split; [done|]. rewrite Hseq. by apply Forall_map.
  - apply Forall_app. split; [eapply Forall_impl; [done|simpl; lia]|]. apply Forall_singleton; lia.
  - rewrite map_app, li_seqs. simpl. rewrite Nat2Z.inj_add, seqZ_app by lia. f_equal.
    simpl. by rewrite <-li_curSeq, Hseq.
  - lia.
  - lia.
  - by left.
Qed.

Lemma log_inv_append d segs cur es e t b :
  log_inv d segs cur es [] → failed d = None → entry_wf e → e_seq e = curSeq d →
  log_inv (set_broadcast b (set_counter (eventCounter d + 1) (set_curSeq (curSeq d + 1)
    (set_tick t (append_log (encode_entry e) d))))) segs cur (es ++ [e]) [].
Proof.
  intros Hi Hf Hwf Hseq.
  pose proof (log_inv_torn d segs cur es e (encode_entry e) t "" Hi Hwf Hseq (reflexivity _)) as Ht.
  eapply log_inv_same; [| |by apply (log_inv_adopt _ _ _ _ _ Ht)]; [done|by left].
Qed.

(** ** The refinement *)

(** The abstract step: one entry is added, numbered [curSeq]. *)
Definition appends (d : DiskPersistence) (log : list entry) (e : entry) (evt : XRPCStreamEvent)
    (d' : DiskPersistence) : Prop :=
  ∃ segs' cur' es', log_inv d' segs' cur' es' [] ∧ log_of segs' es' = log ++ [e] ∧
    e_seq e = curSeq d ∧ curSeq d' = curSeq d + 1 ∧ failed d' = None ∧
    broadcast d' = (λ sent, sent ++ [evt]) <$> broadcast d.

(** The abstract stutter: nothing is acknowledged or broadcast. *)
Definition refuses (d : DiskPersistence) (log : list entry) (d' : DiskPersistence) : Prop :=
  ∃ segs' cur' es' tail', log_inv d' segs' cur' es' tail' ∧ log_of segs' es' = log ∧
    curSeq d' = curSeq d ∧ broadcast d' = broadcast d ∧
    (failed d ≠ None → failed d' = failed d).

Lemma refuses_torn d d0 segs cur es log e p t err :
  keeps d d0 → failed d = None → log_inv d0 segs cur es [] → log_of segs es = log →
  entry_wf e → e_seq e = curSeq d → p `prefix_of` encode_entry e →
  refuses d log (set_failed (Some err) (set_tick t (append_log p d0))).
Proof.
  intros (H1 & H2 & H3 & H4) Hf Hi Hlog Hwf Hseq Hp. exists segs, cur, es, p.
  split_and!; try done. eapply log_inv_torn; [done|done|congruence|done].
Qed.

(** The second half of [persistLocked], after rotation. *)
Lemma write_commit_wp d d0 segs cur es log m xevt kind uid body :
  keeps d d0 → failed d = None → log_inv d0 segs cur es [] → log_of segs es = log →
  curSeq d < 2 ^ 63 - 1 → 0 ≤ kind < 2 ^ 32 → 0 ≤ uid < 2 ^ 64 → Z.of_nat (length body) < 2 ^ 32 →
  wp (data ← mret (put_le 8 20 (uint64 (curSeq d0)) (frame kind uid body));
      catch (writeAll write_result data) (fun e => failLocked ("failed to write disk log: " ++ e)%string) ;;
      catch (syscall io_fail) (fun e => failLocked ("failed to sync disk log: " ++ e)%string) ;;
      modify (fun d => set_curSeq (int64 (curSeq d + 1)) d) ;;
      modify (fun d => set_counter (int64 (eventCounter d + 1)) d) ;;
      modify (fun d => set_broadcast
        ((λ sent, sent ++ [set_msg (msg_set_seq (curSeq d0) m) xevt]) <$> broadcast d) d))
    (λ _ d', appends d log (mkEntry 0 kind uid (curSeq d) body)
               (set_msg (msg_set_seq (curSeq d) m) xevt) d')
    (λ _ d', refuses d log d') d0.
Proof.
  intros Hk Hf Hi Hlog Hmax Hkind Huid Hlen. pose proof Hk as (HkS & HkB & HkF & HkC).
  apply wp_bind, wp_ret. rewrite frame_encode by done. rewrite HkS.
  set (e := mkEntry 0 kind uid (curSeq d) body).
  assert (Hpos : first_seq cur ≤ curSeq d /\ 0 <= first_seq cur).
  { pose proof (li_curSeq _ _ _ _ _ _ Hi). pose proof (li_init _ _ _ _ _ _ Hi).
    unfold DiskPersistProofs.first_seq in *. lia. }
  assert (Hwf : entry_wf e) by (unfold entry_wf; simpl; lia).
  assert (Hc : files d0 !! logfi d0 = Some (encode_entries es)).
  { by rewrite (li_logfi _ _ _ _ _ _ Hi), (li_cur _ _ _ _ _ _ Hi), app_nil_r. }
  apply wp_bind, wp_catch. eapply wp_mono; [| |eapply (writeAll_loop_wp _ (encode_entry e) d0 _ Hc); done].
  - intros _ d1 [t ->]. apply wp_bind, wp_catch, wp_syscall.
    + apply wp_bind, wp_modify, wp_bind, wp_modify, wp_modify. simpl.
      rewrite HkS, HkB, !int64_small.
      * exists segs, cur, (es ++ [e]). split_and!; try done; [|by rewrite log_of_snoc, Hlog|simpl; congruence].
        rewrite <-HkS. by apply (log_inv_append d0 segs cur es e (S t)); [|congruence| |rewrite HkS].
      * lia.
      * pose proof (li_curSeq _ _ _ _ _ _ Hi). pose proof (li_counter _ _ _ _ _ _ Hi). lia.
    + intros err. apply wp_failLocked; [simpl; congruence|]. intros err'.
      by eapply (refuses_torn d d0 segs cur es log e (encode_entry e) (S t)).
  - intros err d1 (t & p & Hp & ->). apply wp_failLocked; [simpl; congruence|]. intros err'.
    by eapply (refuses_torn d d0 segs cur es log e p t).
Qed.

Lemma persistLocked_wp now ctxErr xevt m kind uid body d segs cur es tail :
  log_inv d segs cur es tail → curSeq d < 2 ^ 63 - 1 →
  0 ≤ kind < 2 ^ 32 → 0 ≤ uid < 2 ^ 64 → Z.of_nat (length body) < 2 ^ 32 →
  wp (persistLocked eventsPerFile io_fail write_result now ctxErr xevt m (frame kind uid body))
    (λ _ d', appends d (log_of segs es) (mkEntry 0 kind uid (curSeq d) body)
               (set_msg (msg_set_seq (curSeq d) m) xevt) d')
    (λ _ d', refuses d (log_of segs es) d') d.
Proof.
  intros Hi Hmax Hkind Huid Hlen. unfold persistLocked. apply wp_get_bind.
  destruct (failed d) as [e|] eqn:Hf.
  { apply wp_throw. by exists segs, cur, es, tail. }
  destruct ctxErr as [e|].
  { apply wp_throw. by exists segs, cur, es, tail. }
  pose proof (li_alive _ _ _ _ _ _ Hi Hf) as ->. apply wp_bind.
  destruct ((0 <? eventCounter d) && (Z.rem (eventCounter d) eventsPerFile =? 0)) eqn:Hrot.
  - bool_to_prop. assert (ref_SeqStart cur < curSeq d ∧ initialSeq ≤ curSeq d) as [Hs Hini].
    { pose proof (li_curSeq _ _ _ _ _ _ Hi). pose proof (li_counter _ _ _ _ _ _ Hi).
      unfold DiskPersistProofs.first_seq in *. lia. }
    apply wp_catch. eapply wp_mono; [| |eapply (swapLog_wp now d segs cur es Hi Hs Hini)].
    + intros _ d0 (Hk & cur' & Hi'). apply wp_get_bind. cbv zeta.
      by apply (write_commit_wp d d0 _ _ _ _ m xevt kind uid body Hk Hf Hi' (log_of_rotate _ _ _)).
    + intros err d0 (Hk & Hi'). destruct Hk as (H1 & H2 & H3 & H4).
      apply wp_failLocked; [congruence|]. intros err'. exists segs, cur, es, [].
      split_and!; try done; by apply log_inv_fail.
  - apply wp_ret. apply wp_get_bind. cbv zeta.
    by apply (write_commit_wp d d segs cur es (log_of segs es) m xevt kind uid body).
Qed.

(** User ids are unsigned 64-bit numbers and a message encodes to less than
    4 GiB, as their Go types and the frame limits say. *)
Definition uids_typed : Prop :=
  ∀ f did uid, uids = Some f → f did = Ok uid → 0 ≤ uid < 2 ^ 64.
Definition marshal_bounded : Prop :=
  ∀ m body, marshal m = Ok body → Z.of_nat (length body) < 2 ^ 32.

Lemma log_inv_cache d segs cur es tail did uid :
  0 ≤ uid < 2 ^ 64 → log_inv d segs cur es tail →
  log_inv (set_didCache (<[did := uid]> (didCache d)) d) segs cur es tail.
Proof. intros Hu []. constructor; simpl; try done. by apply map_Forall_insert_2. Qed.

Lemma uidForDid_wp did d segs cur es tail :
  uids_typed → log_inv d segs cur es tail →
  wp (uidForDid uids did)
     (λ uid d', 0 ≤ uid < 2 ^ 64 ∧ log_inv d' segs cur es tail ∧
                curSeq d' = curSeq d ∧ broadcast d' = broadcast d ∧ failed d' = failed d)
     (λ _ d', d' = d) d.
Proof.
  intros Ht Hi. unfold uidForDid. apply wp_get_bind. destruct (didCache d !! did) as [uid|] eqn:Hc.
  { apply wp_ret. split; [|done]. by apply (li_uids _ _ _ _ _ _ Hi _ _ Hc). }
  destruct uids as [f|] eqn:Hu; [|by apply wp_throw].
  destruct (f did) as [uid|e] eqn:Hf; [|by apply wp_throw].
  pose proof (Ht f did uid Hu Hf). apply wp_bind, wp_modify, wp_ret.
  split; [done|]. split; [|done]. by apply log_inv_cache.
Qed.

Lemma evtKind_range m : 0 ≤ evtKind m < 2 ^ 32.
Proof. destruct m; unfold evtKind, evtKindCommit, evtKindSync, evtKindIdentity, evtKindAccount; lia. Qed.

(** The specification of one call. *)
Definition persist_spec (d : DiskPersistence) (log : list entry) (xevt : XRPCStreamEvent)
    (d' : DiskPersistence) (r : result string unit) : Prop :=
  match r, repo_msg xevt with
  | Ok _, None => d' = d
  | Ok _, Some m => ∃ uid body, marshal m = Ok body ∧
      appends d log (mkEntry 0 (evtKind m) uid (curSeq d) body) (set_msg (msg_set_seq (curSeq d) m) xevt) d'
  | Err _, _ => refuses d log d'
  end.

Lemma Persist_spec now ctxErr xevt d segs cur es tail :
  uids_typed → marshal_bounded →
  log_inv d segs cur es tail → curSeq d < 2 ^ 63 - 1 →
  persist_spec d (log_of segs es) xevt
    (Persist eventsPerFile marshal uids io_fail write_result now ctxErr xevt d).1
    (Persist eventsPerFile marshal uids io_fail write_result now ctxErr xevt d).2.
Proof.
  intros Ht Hb Hi Hmax. unfold persist_spec, Persist.
  destruct (repo_msg xevt) as [m|] eqn:Hm; [|done].
  assert (Hself : refuses d (log_of segs es) d) by (by exists segs, cur, es, tail).
  destruct (marshal m) as [body|e] eqn:Hbody; [|done].
  assert (Hw : wp (uid ← uidForDid uids (msg_did m);
      persistLocked eventsPerFile io_fail write_result now ctxErr xevt m (frame (evtKind m) uid body))
      (λ _ d', ∃ uid body', Ok (E:=string) body = Ok body' ∧ appends d (log_of segs es)
         (mkEntry 0 (evtKind m) uid (curSeq d) body') (set_msg (msg_set_seq (curSeq d) m) xevt) d')
      (λ _ d', refuses d (log_of segs es) d') d).
  { apply wp_bind. eapply wp_mono; [| |by apply uidForDid_wp].
    - intros uid d1 (Hu & Hi1 & HS & HB & HF).
      eapply wp_mono; [| |apply (persistLocked_wp now ctxErr xevt m (evtKind m) uid body d1 _ _ _ _ Hi1);
        [congruence|apply evtKind_range|done|by eapply Hb]].
      + intros ? d2 Ha. exists uid, body. split; [done|]. unfold appends in *. by rewrite <-HS, <-HB.
      + intros e2 d2 Hr. unfold refuses in *. by rewrite <-HS, <-HB, <-HF.
    - by intros e1 d1 ->. }
  unfold wp in Hw. revert Hw.
  match goal with |- match ?r with _ => _ end → _ => destruct r as [d' [[]|e]] end; done.
Qed.

(** C12 (refinement): [Persist] refines "append one entry".  From any state in
    which the files and the table represent a log, whatever system calls fail
    and however writes are split, a successful call extends the log by exactly
    the encoded event under the next sequence number, durable before it is
    broadcast with that number, and a failing call leaves the log, the next
    sequence number and the broadcasts as they were; either way the state again
    represents a log, also across file rotation. *)
Theorem Persist_refines_append now ctxErr xevt d segs cur es tail :
  0 < eventsPerFile → uids_typed → marshal_bounded →
  log_inv d segs cur es tail → curSeq d < 2 ^ 63 - 1 →
  persist_spec d (log_of segs es) xevt
    (Persist eventsPerFile marshal uids io_fail write_result now ctxErr xevt d).1
    (Persist eventsPerFile marshal uids io_fail write_result now ctxErr xevt d).2.
Proof. intros _. apply Persist_spec. Qed.

(** ** Restart *)







(** A first start creates the empty log. *)
Lemma initLogFile_inv now t :
  0 < initialSeq → (∀ t, io_fail t = None) →
  ∃ d' cur, resumeLog initialSeq io_fail now (mkDP ∅ [] 1 "" 0 0 None ∅ None t) = (d', Ok tt) ∧
    log_inv d' [] cur [] [] ∧ curSeq d' = initialSeq ∧ failed d' = None ∧ ref_SeqStart cur = 0.
Proof.
  intros Hpos Hio.
  unfold resumeLog, initLogFile, os_Create, createRef, wrap, catch, mbind, StateM_bind, syscall. simpl.
  repeat (rewrite Hio; simpl). eexists _, (mkRef 1 now "evts-0" false 0). split; [reflexivity|]. split; [|done].
  constructor; simpl; try done.
  all: try (repeat constructor; simpl; lia); try (unfold DiskPersistProofs.first_seq; simpl; lia); try by left.
Qed.

(** ** After a failure *)

Lemma uidForDid_frame did d : ∃ c, (uidForDid uids did d).1 = set_didCache c d.
Proof.
  unfold uidForDid, mbind, StateM_bind, get.
  destruct (didCache d !! did); [exists (didCache d); by destruct d|].
  destruct uids as [f|]; [|exists (didCache d); by destruct d].
  destruct (f did) as [uid|]; [by eexists|exists (didCache d); by destruct d].
Qed.

(** A failure is final.  Once a write, sync or rotation has
    failed, every later [Persist] of a repository event and every [Flush] of
    the same process returns an error and changes neither the files nor the
    table nor the broadcasts, so no event is acknowledged behind a gap. *)
Theorem failure_is_sticky now ctxErr xevt m e d :
  failed d = Some e → repo_msg xevt = Some m →
  (let '(d', r) := Persist eventsPerFile marshal uids io_fail write_result now ctxErr xevt d in
   is_ok r = false ∧ files d' = files d ∧ meta d' = meta d ∧ curSeq d' = curSeq d ∧
   broadcast d' = broadcast d ∧ failed d' = Some e) ∧
  Flush io_fail ctxErr d = (d, Err e).
Proof.
  intros Hf Hm. split; [|by unfold Flush, mbind, StateM_bind, get; rewrite Hf].
  unfold Persist. rewrite Hm. destruct (marshal m) as [body|]; [|done].
  destruct (uidForDid_frame (msg_did m) d) as [c Hc]. unfold mbind, StateM_bind.
  destruct (uidForDid uids (msg_did m) d) as [d1 [uid|e1]]; simpl in Hc; subst d1; [|done].
  unfold persistLocked, mbind, StateM_bind, get. simpl. by rewrite Hf.
Qed.

(** ** On a healthy system *)

Lemma writeAll_loop_ok fuel data d :
  (∀ t b, b ≠ [] → ∃ n, write_result t b = (Z.of_nat n, None) ∧ (0 < n ≤ length b)%nat) →
  (length data ≤ fuel)%nat → ∃ d', writeAll_loop write_result fuel data d = (d', Ok tt) ∧ failed d' = failed d.
Proof.
  intros Hw. revert data d. induction fuel as [|fuel IH]; intros data d Hl.
  { destruct data; [|simpl in Hl; lia]. by exists d. }
  destruct data as [|b data]; [by exists d|]. cbn [writeAll_loop]. unfold mbind, StateM_bind, writeFile at 1.
  destruct (Hw (tick d) (b :: data)) as (n & -> & Hn); [done|].
  rewrite (proj2 (Z.ltb_ge _ _)), (proj2 (Z.ltb_ge _ _)) by lia. simpl orb. cbv iota.
  rewrite (proj2 (Z.eqb_neq _ _)) by lia. rewrite Nat2Z.id.
  edestruct IH as (d' & Heq & Hfd); [|exists d'; split; [exact Heq|exact Hfd]].
  rewrite length_drop. simpl in *. lia.
Qed.

Lemma swapLog_ok now d : (∀ t, io_fail t = None) → ∃ d', swapLog io_fail now d = (d', Ok tt) ∧ failed d' = failed d.
Proof.
  intros Hio. unfold swapLog, os_Create, createRef, wrap, catch, mbind, StateM_bind, syscall, get, modify.
  rewrite Hio. cbv iota beta zeta. do 4 (rewrite Hio; cbv iota beta zeta). eexists. split; [reflexivity|done].
Qed.

(** On a system whose calls succeed and whose writes make
    progress, possibly in pieces, an event that can be encoded and whose user
    is known is persisted. *)
Theorem Persist_succeeds now xevt m body d uid :
  failed d = None → (∀ t, io_fail t = None) →
  (∀ t b, b ≠ [] → ∃ n, write_result t b = (Z.of_nat n, None) ∧ (0 < n ≤ length b)%nat) →
  repo_msg xevt = Some m → marshal m = Ok body → didCache d !! msg_did m = Some uid →
  ∃ d', Persist eventsPerFile marshal uids io_fail write_result now None xevt d = (d', Ok tt).
Proof.
  intros Hf Hio Hw Hm Hb Hc. unfold Persist. rewrite Hm, Hb.
  unfold uidForDid, mbind at 1, StateM_bind at 1, mbind at 1, StateM_bind at 1, get at 1. rewrite Hc. simpl.
  set (data := frame (evtKind m) uid body).
  unfold persistLocked, mbind, StateM_bind, get. rewrite Hf.
  assert (∃ d1, (if (0 <? eventCounter d) && (Z.rem (eventCounter d) eventsPerFile =? 0)
    then catch (swapLog io_fail now) (fun e => failLocked ("failed to rotate disk log: " ++ e)%string)
    else mret tt) d = (d1, Ok tt)) as [d1 ->].
  { case_match; [|by exists d]. destruct (swapLog_ok now d Hio) as (d1 & H1 & _).
    exists d1. unfold catch. by rewrite H1. }
  unfold catch, writeAll.
  destruct (writeAll_loop_ok _ (put_le 8 20 (uint64 (curSeq d1)) data) d1 Hw (Nat.le_refl _)) as (d2 & -> & _).
  unfold syscall. rewrite Hio. unfold modify. by eexists.
Qed.

End Persist.
