(* ===== verification/DiskPersistPlayback.v ===== *)
(** * Reading the event log back

    Playback of a represented log, what a takedown hides from it, and garbage
    collection. *)

From Stdlib Require Import Strings.Byte.
From coqutil Require Import Byte Word.LittleEndianList.
From stdpp Require Import pretty.
From S2P Require Import Prelude GoStrings Stream StateMonad DiskPersist DiskPersistProofs.
Local Open Scope Z_scope.

Section Playback.
Variables (eventsPerFile initialSeq : Z).
Variable unmarshal : Z → bytes → result string (RepoMsg * nat).

Local Abbreviation log_inv := (log_inv initialSeq).

(** The callback that records what it is given. *)
Definition collect (evt : XRPCStreamEvent) (sent : list XRPCStreamEvent) : list XRPCStreamEvent * option string :=
  (sent ++ [evt], None).

(** What an entry contributes to playback. *)
Definition replay (e : entry) : list XRPCStreamEvent :=
  if postDoNotEmit (e_flags e) then []
  else match unmarshal (e_kind e) (e_body e) with
       | Ok (m, _) => [msg_event (msg_set_seq (e_seq e) m) 0]
       | Err _ => []
       end.
Definition replays (es : list entry) : list XRPCStreamEvent := concat (map replay es).

(** An entry playback can read: hidden, or of a known kind with a body that
    decodes completely. *)
Definition playable (e : entry) : Prop :=
  postDoNotEmit (e_flags e) = true ∨
  (existsb (Z.eqb (e_kind e)) [evtKindCommit; evtKindSync; evtKindIdentity; evtKindAccount] = true ∧
   ∃ m, unmarshal (e_kind e) (e_body e) = Ok (m, length (e_body e))).

Lemma replays_cons e es : replays (e :: es) = replay e ++ replays es.
Proof. done. Qed.

Lemma replays_app es1 es2 : replays (es1 ++ es2) = replays es1 ++ replays es2.
Proof. unfold replays. by rewrite map_app, concat_app. Qed.

Lemma read_loop_entries fuel es last sent :
  Forall entry_wf es → Forall playable es → (length es < fuel)%nat →
  read_loop unmarshal collect fuel (encode_entries es) last sent
  = (sent ++ replays es, Ok (last_seq last es)).
Proof.
  revert fuel last sent. induction es as [|e es IH]; intros fuel last sent Hwf Hp Hf;
    (destruct fuel as [|fuel]; [simpl in Hf; lia|]).
  { simpl. by rewrite app_nil_r. }
  inversion Hwf; inversion Hp as [|?? Hpe Hpes]; subst. cbn [read_loop].
  rewrite encode_entries_cons, readHeader_encode by done. cbn [Flags Kind Len Seq entry_header].
  rewrite replays_cons, last_seq_cons. unfold replay.
  destruct (postDoNotEmit (e_flags e)) eqn:Hflag.
  - rewrite (proj2 (Z.ltb_ge _ _)) by (rewrite length_app; lia).
    rewrite Nat2Z.id, drop_app_length. rewrite IH by (done || simpl in Hf; lia). done.
  - destruct Hpe as [?|[Hk [m Hm]]]; [congruence|]. rewrite Hk, Nat2Z.id, take_app_length, Hm.
    cbn [collect]. rewrite drop_app_length.
    rewrite IH by (done || simpl in Hf; lia). by rewrite <-app_assoc.
Qed.

Lemma fuel_enough es : (length es < S (length (encode_entries es)))%nat.
Proof. pose proof (encode_entries_length es). unfold headerSize in *. lia. Qed.

Lemma readEventsFrom_start d fn es sent :
  files d !! fn = Some (encode_entries es) → Forall entry_wf es → Forall playable es →
  readEventsFrom unmarshal collect d 0 fn sent = (sent ++ replays es, Ok (Some (last_seq 0 es))).
Proof.
  intros Hc Hwf Hp. unfold readEventsFrom. rewrite Hc. simpl negb. cbv iota.
  by rewrite read_loop_entries by (done || apply fuel_enough).
Qed.

(** ** Scanning for a position *)

Lemma scan_upto fuel w pre es1 rest end_ last :
  Forall entry_wf es1 → Forall (λ e, e_seq e ≤ end_) es1 →
  scan_loop (length es1 + fuel) w (pre ++ encode_entries es1 ++ rest) end_ (length pre) last
  = scan_loop fuel w (pre ++ encode_entries es1 ++ rest) end_ (length (pre ++ encode_entries es1)) (last_seq last es1).
Proof.
  revert pre last. induction es1 as [|e es1 IH]; intros pre last Hwf Hle.
  { change (encode_entries []) with (@nil Byte.byte). by rewrite app_nil_r. }
  inversion Hwf; inversion Hle; subst. rewrite encode_entries_cons, <-app_assoc.
  simpl length at 1. rewrite Nat.add_succ_l, scan_step by done.
  rewrite (proj2 (Z.ltb_ge end_ _)) by done. rewrite andb_false_r, app_assoc, IH by done.
  by rewrite last_seq_cons, <-!app_assoc.
Qed.

(** Entries up to [since], then the rest: the scan stops between them. *)
Lemma scan_position w es1 es2 since :
  Forall entry_wf es1 → Forall entry_wf es2 → 0 < since →
  Forall (λ e, e_seq e ≤ since) es1 → Forall (λ e, since < e_seq e) es2 →
  scanForLastSeq w (encode_entries (es1 ++ es2)) since
  = Ok (match es2 with e :: _ => e_seq e | [] => last_seq (-1) es1 end,
        encode_entries (es1 ++ es2), length (encode_entries es1)).
Proof.
  intros Hw1 Hw2 Hs H1 H2. unfold scanForLastSeq. rewrite encode_entries_app.
  pose proof (encode_entries_length es1) as Hl. unfold headerSize in Hl.
  set (n := (S (length (encode_entries es1 ++ encode_entries es2)) - length es1)%nat).
  replace (S _) with (length es1 + n)%nat by (subst n; rewrite length_app; lia).
  pose proof (scan_upto n w [] es1 (encode_entries es2) since (-1) Hw1 H1) as H.
  rewrite !app_nil_l in H. simpl (length []) in H. rewrite H.
  assert (∃ n', n = S n') as [n' ->] by (exists (pred n); subst n; rewrite length_app; lia).
  destruct es2 as [|e es2].
  - change (encode_entries []) with (@nil Byte.byte). cbn [scan_loop]. rewrite app_nil_r.
    rewrite drop_all. done.
  - inversion Hw2; inversion H2; subst. rewrite encode_entries_cons, scan_step by done.
    by rewrite !(proj2 (Z.ltb_lt _ _)) by lia.
Qed.

(** ** Playback *)

Lemma order_asc_sorted rows : StronglySorted Z.lt (map ref_SeqStart rows) → order_asc rows = rows.
Proof.
  induction rows as [|r rows IH]; simpl; intros Hs; [done|].
  apply StronglySorted_inv in Hs as [Hs Hr].
  change (order_asc (r :: rows)) with (insert_ref r (order_asc rows)). rewrite IH by done.
  destruct rows as [|r' rows]; simpl; [done|]. inversion Hr; subst.
  by rewrite (proj2 (Z.leb_le _ _)) by lia.
Qed.

Lemma PlaybackLogfiles_all d segs cur es sent :
  Forall (λ s, files d !! ref_Path s.1 = Some (encode_entries s.2)) segs →
  files d !! ref_Path cur = Some (encode_entries es) →
  Forall entry_wf (log_of segs es) → Forall playable (log_of segs es) →
  PlaybackLogfiles eventsPerFile unmarshal collect d 0 (map fst segs ++ [cur]) sent
  = (sent ++ replays (log_of segs es),
     Ok (if last_seq 0 es - ref_SeqStart cur =? eventsPerFile - 1 then Some (last_seq 0 es) else None)).
Proof.
  intros Hs Hc. revert sent. induction segs as [|[r es'] segs IH]; intros sent Hwf Hp.
  - simpl. rewrite (readEventsFrom_start d _ es) by done. simpl. by case_match.
  - unfold log_of in *. simpl in *. rewrite <-app_assoc in *.
    apply Forall_app in Hwf as [Hw1 Hw2]. apply Forall_app in Hp as [Hp1 Hp2]. inversion Hs; subst.
    rewrite (readEventsFrom_start d _ es') by done. rewrite replays_app, app_assoc.
    assert (∃ r1 rs, map fst segs ++ [cur] = r1 :: rs) as (r1 & rs & Heq).
    { destruct segs; simpl; eauto. }
    rewrite Heq. rewrite <-Heq. by apply IH.
Qed.

Lemma last_seq_in x es : es ≠ [] → ∃ e, e ∈ es ∧ last_seq x es = e_seq e.
Proof.
  destruct es as [|e es _] using rev_ind; [done|]. intros _. exists e. split; [set_solver|].
  apply last_seq_snoc.
Qed.

(** A pass that starts past the open file's first number reads nothing. *)
Lemma playback_passes_past n d segs cur es tail k sent :
  log_inv d segs cur es tail → ref_SeqStart cur < k →
  playback_passes eventsPerFile unmarshal collect n d k None sent = (sent, Ok tt).
Proof.
  intros Hi Hk. destruct n as [|n]; [done|]. simpl. unfold refs_from.
  rewrite (List_filter_none (λ r, k <=? ref_SeqStart r)); [done|]. eapply Forall_impl; [apply (starts_le _ _ _ _ _ _ Hi)|].
  simpl. intros r Hr. apply Z.leb_gt. lia.
Qed.

Lemma Playback_entries d segs cur es :
  log_inv d segs cur es [] → 1 < eventsPerFile → Forall playable (log_of segs es) →
  Playback eventsPerFile unmarshal collect d 0 [] = (replays (log_of segs es), Ok tt).
Proof.
  intros Hi He Hp. pose proof Hi as Hi'. destruct Hi. unfold Playback. simpl negb. cbv iota.
  change 10%nat with (S 9). generalize 9%nat as n. intros n. cbn [playback_passes]. unfold refs_from.
  rewrite (List_filter_all (λ r, 0 <=? ref_SeqStart r)) by (eapply Forall_impl; [done|]; simpl; intros r Hr; by apply Z.leb_le).
  rewrite order_asc_sorted, li_meta by done. rewrite app_nil_r in li_cur.
  rewrite (PlaybackLogfiles_all d segs cur es []) by done. rewrite app_nil_l.
  destruct (_ =? _) eqn:Hfull; [|done].
  bool_to_prop. eapply playback_passes_past; [done|lia].
Qed.

(** Playback from the beginning.  On every state that
    represents a log, [Playback] with cursor 0 gives the consumer exactly the
    entries of the log that are not taken down, each once, in sequence order,
    with the sequence number it was acknowledged under, and ends without an
    error, over however many files the log is split. *)
Theorem Playback_from_zero d segs cur es :
  log_inv d segs cur es [] → 1 < eventsPerFile → Forall playable (log_of segs es) →
  Playback eventsPerFile unmarshal collect d 0 [] = (replays (log_of segs es), Ok tt).
Proof. apply Playback_entries. Qed.

Lemma log_split_since segs cur es since :
  StronglySorted Z.lt (map e_seq (log_of segs es)) → ref_SeqStart cur < since →
  Forall (λ e, e_seq e < ref_SeqStart cur) (concat (map snd segs)) →
  ∃ es1 es2, es = es1 ++ es2 ∧ Forall (λ e, e_seq e ≤ since) es1 ∧ Forall (λ e, since < e_seq e) es2 ∧
    List.filter (λ e, since <? e_seq e) (log_of segs es) = es2.
Proof.
  intros Hs Hlt Hold. destruct (sorted_split e_seq since _ Hs) as (l1 & l2 & Heq & H1 & H2).
  destruct (sorted_split e_seq since es) as (es1 & es2 & -> & He1 & He2).
  { unfold log_of in Hs. rewrite map_app in Hs. clear -Hs.
    induction (map e_seq (concat (map snd segs))) as [|x l IH]; [done|].
    simpl in Hs. apply StronglySorted_inv in Hs as [Hs _]. auto. }
  exists es1, es2. split_and!; try done. unfold log_of. rewrite app_assoc, List.filter_app.
  rewrite (List_filter_none (λ e, since <? e_seq e)), (List_filter_all (λ e, since <? e_seq e)); [done| |].
  - eapply Forall_impl; [exact He2|]. intros e ?. by apply Z.ltb_lt.
  - apply Forall_app. split; (eapply Forall_impl; [eassumption|]); simpl; intros e ?; apply Z.ltb_ge; lia.
Qed.

(** Resuming within the open file.  A consumer whose cursor
    is past the first number of the open file gets exactly the later entries
    that are not taken down, each once and in order. *)
Theorem Playback_since d segs cur es since :
  log_inv d segs cur es [] → 1 < eventsPerFile → Forall playable (log_of segs es) →
  ref_SeqStart cur < since →
  Playback eventsPerFile unmarshal collect d since []
  = (replays (List.filter (λ e, since <? e_seq e) (log_of segs es)), Ok tt).
Proof.
  intros Hi He Hp Hlt. pose proof Hi as Hi'. destruct Hi.
  destruct (log_split_since segs cur es since li_sorted Hlt li_old) as (es1 & es2 & -> & H1 & H2 & ->).
  assert (0 ≤ ref_SeqStart cur).
  { rewrite li_meta in li_pos. apply Forall_app in li_pos as [_ H]. by inversion H. }
  unfold Playback. rewrite (proj2 (Z.eqb_neq since 0)) by lia. simpl negb. cbv iota.
  unfold ref_before. rewrite (List_filter_all (λ r, ref_SeqStart r <? since)).
  2: { eapply Forall_impl; [apply (starts_le _ _ _ _ _ _ Hi')|]. simpl. intros r ?. apply Z.ltb_lt. lia. }
  rewrite (latestRef_cur _ _ _ _ _ _ Hi'). simpl fmap.
  change 10%nat with (S 9). generalize 9%nat as n. intros n. cbn [playback_passes PlaybackLogfiles].
  apply Forall_app in li_wf as [_ [Hw1 Hw2]%Forall_app]. apply Forall_app in Hp as [_ [Hp1 Hp2]%Forall_app].
  rewrite app_nil_r in li_cur. unfold readEventsFrom. rewrite li_cur, (proj2 (Z.eqb_neq since 0)) by lia.
  simpl negb. cbv iota. rewrite scan_position by (done || lia).
  destruct es2 as [|e es2].
  - destruct (_ <? since); [done|]. rewrite app_nil_r, drop_all. simpl.
    rewrite (proj2 (Z.eqb_neq _ _)) by lia. done.
  - inversion H2; subst. rewrite (proj2 (Z.ltb_ge _ _)) by lia.
    rewrite encode_entries_app, drop_app_length, read_loop_entries by (done || apply fuel_enough).
    rewrite app_nil_l. destruct (_ =? _) eqn:Hfull; [|done].
  bool_to_prop. eapply playback_passes_past; [done|lia].
Qed.

(** ** Playback from any cursor *)

Lemma last_seq_default x y es : es ≠ [] → last_seq x es = last_seq y es.
Proof. destruct es as [|e es _] using rev_ind; [done|]. by rewrite !last_seq_snoc. Qed.

(** A file from a cursor: its entries after it, and no number when the cursor is
    past them. *)
Lemma readEventsFrom_since d since fn es1 es2 sent :
  files d !! fn = Some (encode_entries (es1 ++ es2)) → Forall entry_wf (es1 ++ es2) → Forall playable (es1 ++ es2) →
  0 < since → Forall (λ e, e_seq e ≤ since) es1 → Forall (λ e, since < e_seq e) es2 →
  ∃ l, readEventsFrom unmarshal collect d since fn sent = (sent ++ replays es2, Ok l) ∧
    match es2 with [] => l = None ∨ l = Some 0 | _ => l = Some (last_seq 0 es2) end.
Proof.
  intros Hf [Hw1 Hw2]%Forall_app [Hp1 Hp2]%Forall_app Hs H1 H2. unfold readEventsFrom.
  rewrite Hf, (proj2 (Z.eqb_neq since 0)) by lia. simpl negb. cbv iota. rewrite scan_position by done.
  destruct es2 as [|e es2].
  - rewrite app_nil_r. destruct (_ <? since); [by exists None; rewrite app_nil_r; auto|].
    rewrite drop_all. simpl. exists (Some 0). rewrite app_nil_r. auto.
  - inversion H2; subst. rewrite (proj2 (Z.ltb_ge _ _)) by lia.
    rewrite encode_entries_app, drop_app_length, read_loop_entries by (done || apply fuel_enough). eauto.
Qed.

(** What the rows and the files say. *)
Definition holds (d : DiskPersistence) (s : LogFileRef * list entry) : Prop :=
  files d !! ref_Path s.1 = Some (encode_entries s.2) ∧ Forall entry_wf s.2 ∧ Forall playable s.2.

Lemma readEventsFrom_whole d since s sent : holds d s → 0 ≤ since → since = 0 ∨ Forall (λ e, since < e_seq e) s.2 →
  ∃ l, readEventsFrom unmarshal collect d since (ref_Path s.1) sent = (sent ++ replays s.2, Ok l).
Proof.
  intros (Hf & Hw & Hp) H0 Hs. destruct (decide (since = 0)) as [->|Hne].
  - rewrite (readEventsFrom_start _ _ s.2) by done. eauto.
  - destruct Hs as [?|Hs]; [done|].
    destruct (readEventsFrom_since d since (ref_Path s.1) [] s.2 sent) as (l & Hl & _); [done..|lia|done|done|eauto].
Qed.

(** The files from one on, none of whose numbers is before the cursor. *)
Lemma PlaybackLogfiles_later d since s segs sent :
  Forall (holds d) (s :: segs) → 0 ≤ since → since = 0 ∨ Forall (λ e, since < e_seq e) s.2 →
  ∃ l, PlaybackLogfiles eventsPerFile unmarshal collect d since (map fst (s :: segs)) sent
       = (sent ++ replays (concat (map snd (s :: segs))), Ok l) ∧
    ∀ n, l = Some n → ∃ s', last (s :: segs) = Some s' ∧ n - ref_SeqStart s'.1 = eventsPerFile - 1.
Proof.
  revert since s sent. induction segs as [|s' segs IH]; intros since s sent Hh Hs Hlt;
    inversion Hh as [|?? Hhs Hh']; subst; destruct (readEventsFrom_whole d since s sent Hhs Hs Hlt) as [l Hl].
  - cbn [map PlaybackLogfiles concat]. rewrite Hl, app_nil_r. destruct l as [l|]; [|exists None; by split].
    destruct (_ =? _) eqn:He; [|exists None; by split]. bool_to_prop. eexists. split; [done|].
    intros n [= <-]. by exists s.
  - destruct (IH 0 s' (sent ++ replays s.2)) as (l' & Hl' & Hn); [done|lia|by left|]. exists l'. split; [|exact Hn].
    simpl in Hl' |- *. rewrite Hl, replays_app, app_assoc. by rewrite Hl'.
Qed.

Lemma log_inv_holds d segs cur es : log_inv d segs cur es [] → Forall playable (log_of segs es) →
  Forall (holds d) (segs ++ [(cur, es)]).
Proof.
  intros [] [Hp1 Hp2]%Forall_app. apply Forall_app in li_wf as [Hw1 Hw2]. apply Forall_app. split.
  - rewrite Forall_concat, Forall_map in Hp1, Hw1. rewrite Forall_forall in *. intros s Hs. split_and!; [auto|by apply Hw1|by apply Hp1].
  - apply Forall_singleton. split; [by rewrite app_nil_r in li_cur|done].
Qed.

Lemma log_inv_spans d segs cur es tail : log_inv d segs cur es tail → spans (segs ++ [(cur, es)]).
Proof.
  intros []. apply spans_snoc; [done|done|]. simpl. apply Forall_forall. intros e He.
  assert (e_seq e ∈ map e_seq es) as Hin by by apply (list_elem_of_fmap_2 e_seq).
  rewrite li_seqs, elem_of_seqZ in Hin. unfold first_seq in Hin. lia.
Qed.

(** A later pass, from a number that all files before [post] start at or below
    and all of [post] starts above. *)
Lemma playback_passes_later n d segs cur es pre post k sent :
  log_inv d segs cur es [] → Forall playable (log_of segs es) → 1 < eventsPerFile → 0 ≤ k →
  segs ++ [(cur, es)] = pre ++ post → Forall (λ s, ref_SeqStart s.1 < k) pre → Forall (λ s, k < ref_SeqStart s.1) post →
  playback_passes eventsPerFile unmarshal collect (S n) d k None sent = (sent ++ replays (concat (map snd post)), Ok tt).
Proof.
  intros Hi Hp He Hk Heq Hpre Hpost. pose proof (log_inv_holds _ _ _ _ Hi Hp) as Hh. pose proof (log_inv_spans _ _ _ _ _ Hi) as [_ Hs].
  assert (map fst post = refs_from d k) as Hrefs.
  { unfold refs_from. rewrite (li_meta _ _ _ _ _ _ Hi). change [cur] with (map fst [(cur, es)]).
    rewrite <- map_app, Heq, map_app, List.filter_app, List_filter_none, List_filter_all, app_nil_l; [|..].
    - symmetry. apply order_asc_sorted. pose proof (li_starts _ _ _ _ _ _ Hi) as Hst. rewrite (li_meta _ _ _ _ _ _ Hi) in Hst.
      change [cur] with (map fst [(cur, es)]) in Hst. rewrite <- map_app, Heq, !map_app in Hst.
      eapply StronglySorted_sublist; [|exact Hst]. by apply sublist_inserts_l.
    - rewrite Forall_map. eapply Forall_impl; [exact Hpost|]. intros s ?. apply Z.leb_le. simpl in *. lia.
    - rewrite Forall_map. eapply Forall_impl; [exact Hpre|]. intros s ?. apply Z.leb_gt. simpl in *. lia. }
  cbn [playback_passes]. rewrite <- Hrefs. destruct post as [|s post]; [simpl; by rewrite app_nil_r|].
  rewrite Heq in Hh, Hs. apply Forall_app in Hh as [_ Hh]. apply Forall_app in Hs as [_ Hs].
  destruct (PlaybackLogfiles_later d k s post sent) as (l & Hl & Hn); [done|done| |].
  { right. inversion Hs; inversion Hpost; subst. eapply Forall_impl; [eassumption|]. simpl. lia. }
  rewrite Hl. destruct l as [l|]; [|done]. destruct (Hn l eq_refl) as (s' & Hs' & Hfull).
  assert (s' = (cur, es)) as ->.
  { apply (f_equal last) in Heq. rewrite last_snoc, last_app, Hs' in Heq. congruence. }
  eapply playback_passes_past; [done|]. simpl in Hfull. lia.
Qed.

Lemma StronglySorted_middle {A} (R : A → A → Prop) l1 x l2 : StronglySorted R (l1 ++ x :: l2) →
  Forall (λ y, R y x) l1 ∧ Forall (R x) l2.
Proof.
  induction l1 as [|y l1 IH]; intros [H1 H2]%StronglySorted_inv; [by split|]. destruct (IH H1) as [IH1 IH2].
  split; [|done]. constructor; [|done]. apply Forall_app in H2 as [_ H2]. by inversion H2.
Qed.

(** The log around one of its files. *)
Lemma log_inv_split d segs cur es pre r es_r post :
  log_inv d segs cur es [] → segs ++ [(cur, es)] = pre ++ (r, es_r) :: post →
  log_of segs es = concat (map snd pre) ++ es_r ++ concat (map snd post) ∧ meta d = map fst pre ++ r :: map fst post ∧
  Forall (λ s, ref_SeqStart s.1 < ref_SeqStart r) pre ∧ Forall (λ e, e_seq e < ref_SeqStart r) (concat (map snd pre)) ∧
  Forall (λ s, ref_SeqStart r < ref_SeqStart s.1 ∧ Forall (λ e, e_seq e < ref_SeqStart s.1) es_r ∧
    Forall (λ e, ref_SeqStart s.1 ≤ e_seq e) s.2) post ∧
  Forall (λ e, ref_SeqStart r ≤ e_seq e) es_r ∧ 0 ≤ ref_SeqStart r ∧ StronglySorted Z.lt (map e_seq es_r).
Proof.
  intros Hi Heq. pose proof (log_inv_spans _ _ _ _ _ Hi) as [Hsp1 Hsp2]. rewrite Heq in Hsp1, Hsp2.
  assert (log_of segs es = concat (map snd pre) ++ es_r ++ concat (map snd post)) as Hlog.
  { rewrite <- (log_of_rotate segs cur es). unfold log_of. rewrite Heq, map_app, concat_app, app_nil_r. done. }
  assert (meta d = map fst pre ++ r :: map fst post) as Hmeta.
  { rewrite (li_meta _ _ _ _ _ _ Hi). change [cur] with (map fst [(cur, es)]). by rewrite <- map_app, Heq, map_app. }
  pose proof (li_starts _ _ _ _ _ _ Hi) as Hst. pose proof (li_pos _ _ _ _ _ _ Hi) as Hpos.
  pose proof (li_sorted _ _ _ _ _ _ Hi) as Hso. rewrite Hmeta in Hst, Hpos. rewrite Hlog in Hso.
  rewrite map_app in Hst. simpl in Hst. rewrite !map_map in Hst. apply StronglySorted_middle in Hst as [Hst1 Hst2]. apply StronglySorted_middle in Hsp1 as [Hb Ha].
  rewrite Forall_map in Hst1, Hst2. apply Forall_app in Hsp2 as [_ Hsp2]. inversion Hsp2; subst.
  apply Forall_app in Hpos as [_ Hpos]. inversion Hpos; subst.
  split_and!; try done; [by rewrite Forall_concat, Forall_map|by rewrite !Forall_and|].
  eapply StronglySorted_sublist; [|exact Hso]. rewrite !map_app. by apply sublist_inserts_l, sublist_inserts_r.
Qed.

Lemma ref_before_split d pre r post since :
  meta d = pre ++ r :: post → Forall (λ s, ref_SeqStart s < ref_SeqStart r) pre → ref_SeqStart r < since →
  Forall (λ s, since ≤ ref_SeqStart s) post → ref_before d since = Some r.
Proof.
  intros Hm Hpre Hr Hpost. unfold ref_before. rewrite Hm, List.filter_app. simpl. rewrite (proj2 (Z.ltb_lt _ _)) by done.
  rewrite List_filter_all, (List_filter_none _ post), latestRef_snoc; [done|done|..].
  - eapply Forall_impl; [exact Hpost|]. intros s H. apply Z.ltb_ge. simpl in *. lia.
  - eapply Forall_impl; [exact Hpre|]. intros s H. apply Z.ltb_lt. simpl in *. lia.
Qed.

(** C37 (functional): What playback from a cursor gives.  Let no write of the log
    have failed, let all its entries be readable ([playable]), let it hold any number
    of files, with more than one event to a file, and let [r] be the last of them
    whose number in the table is below the cursor: then a consumer gets the rest
    of [r], that is its events after the cursor that are not taken down, each once
    and in order, and the events of the later files exactly if something of [r] is
    after the cursor and the last number in [r] is [SeqStart + eventsPerFile - 1].
    Otherwise playback ends there, without an error, and the later files are not
    opened although the log may hold events after the cursor in them.  In all
    cases what it gives is in order and without a gap up to where it ends. *)
Theorem Playback_run d segs cur es pre r es_r post since :
  log_inv d segs cur es [] → 1 < eventsPerFile → Forall playable (log_of segs es) →
  segs ++ [(cur, es)] = pre ++ (r, es_r) :: post → ref_SeqStart r < since → Forall (λ s, since ≤ ref_SeqStart s.1) post →
  let rest := List.filter (λ e, since <? e_seq e) es_r in
  let later := List.filter (λ e, since <? e_seq e) (concat (map snd post)) in
  List.filter (λ e, since <? e_seq e) (log_of segs es) = rest ++ later ∧
  Playback eventsPerFile unmarshal collect d since []
  = (replays (rest ++ (if (0 <? length rest)%nat && (last_seq 0 es_r - ref_SeqStart r =? eventsPerFile - 1) then later else [])), Ok tt).
Proof.
  intros Hi He Hp Heq Hr Hpost rest later.
  destruct (log_inv_split _ _ _ _ _ _ _ _ Hi Heq) as (Hlog & Hmeta & Hpre & Hepre & Hst & Hes & H0 & Hso).
  split.
  { rewrite Hlog, !List.filter_app, (List_filter_none _ (concat (map snd pre))); [done|].
    eapply Forall_impl; [exact Hepre|]. intros e ?. apply Z.ltb_ge. simpl in *. lia. }
  pose proof (log_inv_holds _ _ _ _ Hi Hp) as Hh. rewrite Heq in Hh. apply Forall_app in Hh as [_ Hh].
  inversion Hh as [|?? (Hf & Hw & Hpl) Hh']; subst. simpl in Hf, Hw, Hpl.
  destruct (sorted_split e_seq since es_r Hso) as (es1 & es2 & -> & H1 & H2).
  assert (rest = es2) as ->.
  { unfold rest. rewrite List.filter_app, List_filter_none, List_filter_all; [done|..];
      (eapply Forall_impl; [eassumption|]); intros e ?; [apply Z.ltb_lt|apply Z.ltb_ge]; simpl in *; lia. }
  unfold Playback. rewrite (proj2 (Z.eqb_neq since 0)) by lia. simpl negb. cbv iota.
  rewrite (ref_before_split _ _ _ _ _ Hmeta) by (by rewrite ?Forall_map). simpl fmap.
  change 10%nat with (S 9). remember 9%nat as n eqn:Hn. cbn [playback_passes PlaybackLogfiles].
  destruct (readEventsFrom_since d since (ref_Path r) es1 es2 []) as (l & -> & Hl); [done..|lia|done|done|].
  destruct es2 as [|e es2].
  - simpl. destruct Hl as [-> | ->]; [done|]. by rewrite (proj2 (Z.eqb_neq _ _)) by lia.
  - subst l. assert (last_seq 0 (es1 ++ e :: es2) = last_seq 0 (e :: es2)) as -> by (unfold last_seq; by rewrite last_app_cons).
    cbn [length Nat.ltb Nat.leb andb]. destruct (_ =? _) eqn:Hfull; [|by rewrite app_nil_r].
    bool_to_prop. destruct (last_seq_in 0 (e :: es2)) as (x & Hx & Hlx); [done|].
    rewrite Forall_forall in H2. pose proof (H2 x Hx) as Hsx. simpl in Hsx.
    rewrite Hn. change 9%nat with (S 8). erewrite (playback_passes_later 8 d segs cur es (pre ++ [(r, es1 ++ e :: es2)]) post); [|done|done|done|lia|..].
    + rewrite app_nil_l, replays_app. do 3 f_equal. unfold later. symmetry. apply List_filter_all.
      rewrite Forall_concat, Forall_map, Forall_forall. intros s Hs. rewrite Forall_forall in Hst.
      destruct (Hst s Hs) as (_ & Hlt & Hge). rewrite Forall_forall in Hlt. pose proof (Hlt x ltac:(set_solver)) as Hxs.
      eapply Forall_impl; [exact Hge|]. intros y Hy. apply Z.ltb_lt. simpl in *. lia.
    + by rewrite <- app_assoc.
    + apply Forall_app. split; [eapply Forall_impl; [exact Hpre|]; intros s Hs|apply Forall_singleton]; simpl in *; lia.
    + rewrite Forall_forall in Hst |- *. intros s Hs. destruct (Hst s Hs) as (_ & Hlt & _). rewrite Forall_forall in Hlt.
      rewrite Hlx. apply Hlt. set_solver.
Qed.

End Playback.

(** * Takedown and garbage collection of the event log *)

(** ** Takedown *)

(** What a takedown of user [uid] does to an entry. *)
Definition hide (uid : Z) (e : entry) : entry :=
  if (e_usr e =? uid) && (Z.land (e_flags e) EvtFlagTakedown =? 0)
  then mkEntry (Z.lor (e_flags e) EvtFlagTakedown) (e_kind e) (e_usr e) (e_seq e)
         (replicate (length (e_body e)) x00)
  else e.

Lemma hide_seq uid e : e_seq (hide uid e) = e_seq e.
Proof. unfold hide. by case_match. Qed.

Lemma hide_wf uid e : entry_wf e → entry_wf (hide uid e).
Proof.
  intros (Hf & Hk & Hu & Hs & Hl). unfold hide, EvtFlagTakedown. case_match; [|done].
  unfold entry_wf. simpl. rewrite length_replicate. pose proof (lor_range 32 (e_flags e) 1). lia.
Qed.

Lemma hide_hidden uid e : e_usr e = uid → postDoNotEmit (e_flags (hide uid e)) = true.
Proof.
  intros <-. unfold hide, postDoNotEmit, EvtFlagTakedown, EvtFlagRebased. rewrite Z.eqb_refl. simpl andb.
  change (Z.lor 2 1) with 3. apply negb_true_iff, Z.eqb_neq. destruct (Z.land (e_flags e) 1 =? 0) eqn:Hb; bool_to_prop; simpl.
  - intros H. assert (Z.testbit (Z.land (Z.lor (e_flags e) 1) 3) 0 = false) as Ht by (by rewrite H).
    rewrite Z.land_spec, Z.lor_spec in Ht. by rewrite orb_true_r in Ht.
  - intros H. apply Hb. replace (Z.land (e_flags e) 1) with (Z.land (Z.land (e_flags e) 3) 1).
    + by rewrite H.
    + by rewrite <-Z.land_assoc.
Qed.

Lemma write_at_app pre old new rest :
  length new = length old → write_at (length pre) new (pre ++ old ++ rest) = pre ++ new ++ rest.
Proof.
  intros Hl. unfold write_at. rewrite take_app_length. do 2 f_equal.
  rewrite Hl, app_assoc, <-length_app. by rewrite drop_app_length.
Qed.

Lemma mutate_step pre e rest uid :
  (if (e_usr e =? uid) && (Z.land (e_flags e) EvtFlagTakedown =? 0) then
     let content := write_at (length pre) (le_split 4 (Z.lor (e_flags e) EvtFlagTakedown))
                      (pre ++ encode_entry e ++ rest) in
     write_at (length pre + headerSize) (replicate (length (e_body e)) x00) content
   else pre ++ encode_entry e ++ rest)
  = pre ++ encode_entry (hide uid e) ++ rest.
Proof.
  unfold hide. case_match; [|done]. cbv zeta. unfold encode_entry. cbn [e_flags e_kind e_usr e_seq e_body].
  rewrite <-!app_assoc, write_at_app by by rewrite !length_le_split.
  rewrite length_replicate. rewrite !app_assoc.
  match goal with |- write_at ?n ?z ((?p ++ _) ++ _) = _ =>
    assert (n = length p) as -> end.
  { rewrite !length_app, !length_le_split. unfold headerSize. lia. }
  rewrite <-(app_assoc _ (e_body e)), write_at_app by by rewrite length_replicate.
  by rewrite <-!app_assoc.
Qed.

Lemma mutate_loop_entries fuel uid pre es :
  Forall entry_wf es → (length es < fuel)%nat →
  mutate_loop fuel uid EvtFlagTakedown true (length pre) (pre ++ encode_entries es)
  = (pre ++ encode_entries (map (hide uid) es), Ok tt).
Proof.
  revert fuel pre. induction es as [|e es IH]; intros fuel pre Hwf Hf;
    (destruct fuel as [|fuel]; [simpl in Hf; lia|]); cbn [mutate_loop].
  { change (encode_entries []) with (@nil Byte.byte). rewrite app_nil_r, drop_all. simpl. by rewrite app_nil_r. }
  inversion Hwf; subst. rewrite encode_entries_cons, drop_app_length, readHeader_encode by done.
  cbn [Usr Flags Len entry_header]. rewrite !Nat2Z.id, mutate_step. cbn [map].
  replace (length pre + headerSize + length (e_body e))%nat with (length (pre ++ encode_entry (hide uid e))).
  2: { rewrite length_app, encode_entry_length. unfold entry_len, hide, headerSize. case_match; simpl; rewrite ?length_replicate; lia. }
  rewrite app_assoc, IH by (done || simpl in Hf; lia). by rewrite encode_entries_cons, <-app_assoc.
Qed.

(** The files of the listed rows are rewritten and nothing else changes. *)
Lemma takedown_refs_spec uid (ps : list (LogFileRef * list entry)) d :
  NoDup (map (λ p, ref_Path p.1) ps) →
  Forall (λ p, files d !! ref_Path p.1 = Some (encode_entries p.2) ∧ Forall entry_wf p.2) ps →
  ∃ fs, takedown_refs d uid (map fst ps) = (set_files fs d, Ok tt) ∧
    Forall (λ p, fs !! ref_Path p.1 = Some (encode_entries (map (hide uid) p.2))) ps ∧
    ∀ n, n ∉ map (λ p, ref_Path p.1) ps → fs !! n = files d !! n.
Proof.
  revert d. induction ps as [|[r es] ps IH]; intros d Hnd Hps.
  { exists (files d). split; [by destruct d|]. done. }
  simpl in *. inversion Hnd as [|?? Hnin Hnd']; subst. inversion Hps as [|?? [Hr Hw] Hps']; subst. simpl in *.
  unfold deleteEventsForUser, mutateUserEventsInLog. rewrite Hr.
  pose proof (mutate_loop_entries (S (length (encode_entries es))) uid [] es Hw) as Hm.
  rewrite !app_nil_l in Hm. change (length []) with 0%nat in Hm. rewrite Hm by apply fuel_enough. clear Hm.
  set (d1 := set_files (<[ref_Path r := encode_entries (map (hide uid) es)]> (files d)) d).
  destruct (IH d1 Hnd') as (fs & Hrun & Hin & Hout).
  { rewrite Forall_forall in *. intros p Hp. destruct (Hps' p Hp) as [Hf Hwf]. split; [|done].
    simpl. rewrite lookup_insert_ne; [done|]. intros Heq. apply Hnin. rewrite Heq.
    by apply (list_elem_of_fmap_2 (λ p, ref_Path p.1)). }
  exists fs. split; [done|]. split.
  - constructor; [|done]. simpl. rewrite Hout by done. simpl. by rewrite lookup_insert_eq.
  - intros n Hn. rewrite Hout by set_solver. simpl. rewrite lookup_insert_ne; set_solver.
Qed.


Lemma log_of_map f segs es :
  log_of (map (λ p, (p.1, map f p.2)) segs) (map f es) = map f (log_of segs es).
Proof.
  unfold log_of. rewrite map_app, concat_map, !map_map. f_equal.
Qed.

(** Rewriting every entry in place, keeping numbers and well-formedness. *)
Lemma log_inv_map initialSeq f d fs segs cur es :
  (∀ e, e_seq (f e) = e_seq e) → (∀ e, entry_wf e → entry_wf (f e)) →
  Forall (λ s, fs !! ref_Path s.1 = Some (encode_entries (map f s.2))) segs →
  fs !! ref_Path cur = Some (encode_entries (map f es)) →
  log_inv initialSeq d segs cur es [] →
  log_inv initialSeq (set_files fs d) (map (λ p, (p.1, map f p.2)) segs) cur (map f es) [].
Proof.
  intros Hseq Hwf Hfs Hfc [].
  assert (Hm : ∀ l, map e_seq (map f l) = map e_seq l).
  { intros l. rewrite map_map. by apply map_ext. }
  constructor; simpl; rewrite ?log_of_map, ?length_map, ?Hm; try done.
  - by rewrite map_map.
  - by rewrite Forall_map.
  - by rewrite app_nil_r.
  - rewrite Forall_map. eapply Forall_impl; [exact li_wf|]. apply Hwf.
  - replace (concat (map snd (map (λ p, (p.1, map f p.2)) segs))) with (map f (concat (map snd segs)))
      by (by rewrite concat_map, !map_map).
    rewrite Forall_map. eapply Forall_impl; [exact li_old|]. intros e. simpl. by rewrite Hseq.
  - by apply spans_map.
  - rewrite Forall_map. eapply Forall_impl; [exact li_below|]. intros e. simpl. by rewrite Hseq.
Qed.

Lemma paths_NoDup initialSeq d segs cur es tail :
  log_inv initialSeq d segs cur es tail → NoDup (map ref_Path (meta d)).
Proof.
  intros []. replace (map ref_Path (meta d)) with (map ref_name (map ref_SeqStart (meta d))).
  - apply (NoDup_fmap_2 ref_name). by apply StronglySorted_NoDup.
  - rewrite map_map. apply map_ext_Forall. eapply Forall_impl; [exact li_path|]. done.
Qed.

Lemma TakeDownRepo_inv initialSeq d uid segs cur es :
  log_inv initialSeq d segs cur es [] →
  ∃ d' segs', TakeDownRepo d uid = (d', Ok tt) ∧ log_inv initialSeq d' segs' cur (map (hide uid) es) [] ∧
    log_of segs' (map (hide uid) es) = map (hide uid) (log_of segs es).
Proof.
  intros Hi. pose proof (paths_NoDup _ _ _ _ _ _ Hi) as Hnd. pose proof Hi as Hi'. destruct Hi.
  set (ps := segs ++ [(cur, es)]).
  assert (Hps : meta d = map fst ps) by (subst ps; by rewrite map_app).
  unfold TakeDownRepo. rewrite Hps, <-map_rev.
  destruct (takedown_refs_spec uid (rev ps) d) as (fs & -> & Hfs & _).
  - rewrite Hps, map_map in Hnd. rewrite map_rev. by apply NoDup_ListNoDup, List.NoDup_rev, NoDup_ListNoDup.
  - apply Forall_rev. apply Forall_app in li_wf as [Hw1 Hw2]. apply Forall_app. split.
    + rewrite Forall_forall in *. intros p Hp. split; [by apply li_files|].
      rewrite Forall_forall in Hw1. apply Forall_forall. intros e He. apply Hw1. apply list_elem_of_In, in_concat.
      exists p.2. split; [apply in_map|]; by apply list_elem_of_In.
    + apply Forall_singleton. simpl. by rewrite app_nil_r in li_cur.
  - apply Forall_rev in Hfs. rewrite rev_involutive in Hfs.
    apply Forall_app in Hfs as [Hf1 Hf2]. rewrite Forall_singleton in Hf2.
    exists (set_files fs d), (map (λ p, (p.1, map (hide uid) p.2)) segs).
    split; [done|]. split; [|apply log_of_map].
    apply log_inv_map; auto using hide_seq, hide_wf.
Qed.

(** A takedown is complete and hits no one else.  On a state that
    represents a log, [TakeDownRepo] succeeds and leaves a represented log with
    the same sequence numbers; playback from the beginning then gives exactly
    the events it gave before less those of the user taken down. *)
Theorem TakeDownRepo_hides epf initialSeq unmarshal d uid segs cur es :
  log_inv initialSeq d segs cur es [] → 1 < epf → Forall (playable unmarshal) (log_of segs es) →
  ∃ d', TakeDownRepo d uid = (d', Ok tt) ∧
    Playback epf unmarshal collect d' 0 []
    = (replays unmarshal (List.filter (λ e, negb (e_usr e =? uid)) (log_of segs es)), Ok tt).
Proof.
  intros Hi Hepf Hp. destruct (TakeDownRepo_inv _ _ uid _ _ _ Hi) as (d' & segs' & Hrun & Hi' & Hlog).
  exists d'. split; [done|]. erewrite Playback_entries; [|done|done|].
  - rewrite Hlog. f_equal. clear. induction (log_of segs es) as [|e l IH]; [done|].
    simpl. rewrite replays_cons, IH. destruct (e_usr e =? uid) eqn:Hu; simpl; bool_to_prop.
    + unfold replay. by rewrite hide_hidden.
    + unfold hide. apply Z.eqb_neq in Hu. rewrite Hu. done.
  - rewrite Hlog. rewrite Forall_map. eapply Forall_impl; [exact Hp|]. intros e He. simpl.
    destruct (decide (e_usr e = uid)) as [Hu|Hu%Z.eqb_neq]; [left; by apply hide_hidden|].
    unfold hide. by rewrite Hu.
Qed.

(** ** Garbage collection *)

Section GC.
Variables (initialSeq retention : Z).
Variable io_fail : nat → option string.
Local Abbreviation log_inv := (log_inv initialSeq).

(** Any of the full files can be dropped from the log. *)
Lemma log_inv_sublist d segs segs' cur es tail :
  segs' `sublist_of` segs → log_inv d segs cur es tail →
  log_inv (set_meta (map fst segs' ++ [cur]) d) segs' cur es tail.
Proof.
  intros Hsub []. assert (Hm : map fst segs' ++ [cur] `sublist_of` meta d).
  { rewrite li_meta. apply sublist_app; [by apply sublist_map|done]. }
  assert (Hl : log_of segs' es `sublist_of` log_of segs es).
  { apply sublist_app; [by apply sublist_concat, sublist_map|done]. }
  constructor; simpl; try done.
  - by eapply Forall_sublist'.
  - by eapply Forall_sublist'.
  - eapply StronglySorted_sublist; [apply sublist_map, Hm|done].
  - by eapply Forall_sublist'.
  - destruct li_ids as [Hs Hn]. split; [|by eapply Forall_sublist'].
    eapply StronglySorted_sublist; [apply sublist_map, Hm|done].
  - by eapply Forall_sublist'.
  - eapply StronglySorted_sublist; [apply sublist_map, Hl|done].
  - eapply Forall_sublist'; [apply sublist_concat, sublist_map, Hsub|done].
  - by eapply spans_sublist.
  - by eapply Forall_sublist'.
Qed.

(** A file no row names can be removed. *)
Lemma log_inv_remove d segs cur es tail name :
  Forall (λ r, ref_Path r ≠ name) (meta d) →
  log_inv d segs cur es tail → log_inv (set_files (delete name (files d)) d) segs cur es tail.
Proof.
  intros Hn []. pose proof Hn as Hn'. rewrite li_meta in Hn'.
  apply Forall_app in Hn' as [Hs Hc]. inversion Hc; subst. rewrite Forall_map in Hs.
  constructor; simpl; try done.
  - rewrite Forall_forall in *. intros s Hin. rewrite lookup_delete_ne; [by apply li_files|].
    intros ->. by apply (Hs s Hin).
  - by rewrite lookup_delete_ne.
Qed.

Definition drop_row (r : LogFileRef) (segs : list (LogFileRef * list entry)) : list (LogFileRef * list entry) :=
  List.filter (λ s, negb (ref_ID s.1 =? ref_ID r)) segs.

Lemma map_fst_drop_row r segs :
  map fst (drop_row r segs) = List.filter (λ r', negb (ref_ID r' =? ref_ID r)) (map fst segs).
Proof. induction segs as [|s segs IH]; simpl; [done|]. case_match; simpl; by rewrite IH. Qed.

(** Rows with equal keys are equal. *)
Lemma ids_unique d segs cur es tail r r' :
  log_inv d segs cur es tail → r ∈ meta d → r' ∈ meta d → ref_ID r = ref_ID r' → r = r'.
Proof.
  intros Hi Hr Hr' Heq. destruct (li_ids _ _ _ _ _ _ Hi) as [Hs _]. apply StronglySorted_NoDup in Hs.
  apply list_elem_of_lookup in Hr as [i Hri], Hr' as [j Hrj].
  assert (i = j) as <-; [|congruence]. eapply (NoDup_lookup _ i j (ref_ID r) Hs).
  - change (map ref_ID (meta d)) with (ref_ID <$> meta d). by rewrite list_lookup_fmap, Hri.
  - change (map ref_ID (meta d)) with (ref_ID <$> meta d). rewrite list_lookup_fmap, Hrj. simpl. by rewrite Heq.
Qed.

Lemma paths_unique d segs cur es tail r r' :
  log_inv d segs cur es tail → r ∈ meta d → r' ∈ meta d → ref_Path r = ref_Path r' → r = r'.
Proof.
  intros Hi Hr Hr' Heq. pose proof (paths_NoDup _ _ _ _ _ _ Hi) as Hs.
  apply list_elem_of_lookup in Hr as [i Hri], Hr' as [j Hrj].
  assert (i = j) as <-; [|congruence]. eapply (NoDup_lookup _ i j (ref_Path r) Hs).
  - change (map ref_Path (meta d)) with (ref_Path <$> meta d). by rewrite list_lookup_fmap, Hri.
  - change (map ref_Path (meta d)) with (ref_Path <$> meta d). rewrite list_lookup_fmap, Hrj. simpl. by rewrite Heq.
Qed.

(** Deleting the row of a full file. *)
Lemma log_inv_drop_row d segs cur es tail r :
  log_inv d segs cur es tail → r ∈ meta d → ref_Path r ≠ ref_Path cur →
  log_inv (set_meta (List.filter (λ r', negb (ref_ID r' =? ref_ID r)) (meta d)) d) (drop_row r segs) cur es tail.
Proof.
  intros Hi Hr Hne. pose proof (li_meta _ _ _ _ _ _ Hi) as Hm.
  assert (Hcur : cur ∈ meta d) by (rewrite Hm; set_solver).
  assert (Heq : List.filter (λ r', negb (ref_ID r' =? ref_ID r)) (meta d) = map fst (drop_row r segs) ++ [cur]).
  { rewrite Hm, List.filter_app, map_fst_drop_row. f_equal. simpl.
    rewrite (proj2 (Z.eqb_neq _ _)); [done|]. intros Hid. apply Hne. f_equal. symmetry.
    by apply (ids_unique _ _ _ _ _ _ _ Hi). }
  rewrite Heq. apply log_inv_sublist with (segs := segs); [apply List_filter_sublist|done].
Qed.

Lemma drop_row_kept r segs s : s ∈ segs → s ∉ drop_row r segs → ref_ID s.1 = ref_ID r.
Proof.
  intros Hs Hn. destruct (decide (ref_ID s.1 = ref_ID r)) as [|Hne]; [done|]. exfalso. apply Hn.
  apply list_elem_of_In, filter_In. split; [by apply list_elem_of_In|]. by apply negb_true_iff, Z.eqb_neq.
Qed.

(** What a run over the rows [refs] may do to the log. *)
Definition collected (d : DiskPersistence) segs cur es tail (refs : list LogFileRef)
    (res : DiskPersistence * result string (list string)) : Prop :=
  ∃ errs segs', res.2 = Ok errs ∧ log_inv res.1 segs' cur es tail ∧ segs' `sublist_of` segs ∧
    (∀ s, s ∈ segs → s ∉ segs' → s.1 ∈ refs) ∧
    curSeq res.1 = curSeq d ∧ failed res.1 = failed d ∧ broadcast res.1 = broadcast d.

Lemma collected_err d segs cur es tail refs e (m : DP (list string)) d1 :
  collected d segs cur es tail refs (m d1) →
  collected d segs cur es tail refs ((errs ← m; mret (e :: errs)) d1).
Proof.
  unfold collected, mbind, StateM_bind. destruct (m d1) as [d2 r]. intros (errs & segs' & Hr & H). simpl in Hr.
  subst r. by exists (e :: errs), segs'.
Qed.

Lemma collected_weaken d d0 segs segs0 cur es tail r refs res :
  collected d0 segs0 cur es tail refs res →
  curSeq d0 = curSeq d → failed d0 = failed d → broadcast d0 = broadcast d →
  segs0 = segs ∨ (segs0 = drop_row r segs ∧ ∀ s, s ∈ segs → ref_ID s.1 = ref_ID r → s.1 = r) →
  collected d segs cur es tail (r :: refs) res.
Proof.
  intros (errs & segs' & Hr & Hi & Hsub & Hold & H1 & H2 & H3) E1 E2 E3 Hs.
  exists errs, segs'. split_and!; try done; try congruence.
  - destruct Hs as [->|[-> _]]; [done|]. etrans; [exact Hsub|apply List_filter_sublist].
  - intros s Hin Hnin. destruct Hs as [->|[-> Hid]]; [right; by apply Hold|].
    destruct (decide (ref_ID s.1 = ref_ID r)) as [Heq|Hne].
    + rewrite (Hid s Hin Heq). left.
    + right. apply Hold; [|done]. apply list_elem_of_In, filter_In.
      split; [by apply list_elem_of_In|by apply negb_true_iff, Z.eqb_neq].
Qed.

Lemma gc_refs_collected refs d segs cur es tail :
  log_inv d segs cur es tail → NoDup refs → (∀ r, r ∈ refs → r ∈ meta d) →
  collected d segs cur es tail refs (gc_refs io_fail refs d).
Proof.
  revert d segs. induction refs as [|r refs IH]; intros d segs Hi Hnd Hin.
  { exists [], segs. by split_and!. }
  inversion Hnd as [|?? Hnr Hnd']; subst. assert (Hr : r ∈ meta d) by (apply Hin; left).
  assert (Hin' : ∀ r', r' ∈ refs → r' ∈ meta d) by (intros; apply Hin; by right).
  assert (Htick : collected d segs cur es tail (r :: refs) (gc_refs io_fail refs (set_tick (S (tick d)) d))).
  { eapply collected_weaken; [by apply IH; [apply log_inv_tick|..]|done|done|done|by left]. }
  simpl gc_refs. unfold mbind, StateM_bind at 1, get at 1.
  destruct (String.eqb (ref_Path r) (logfi d)) eqn:Hcur; bool_to_prop.
  { eapply collected_weaken; [by apply IH|done|done|done|by left]. }
  rewrite (li_logfi _ _ _ _ _ _ Hi) in Hcur. unfold syscall at 1.
  destruct (io_fail (tick d)); [by apply collected_err|]. cbv zeta.
  set (d1 := set_tick (S (tick d)) d) in *.
  set (d2 := set_meta (List.filter (λ r', negb (ref_ID r' =? ref_ID r)) (meta d1)) d1).
  pose proof (log_inv_drop_row _ _ _ _ _ r (log_inv_tick _ (S (tick d)) _ _ _ _ _ Hi) Hr Hcur) as Hi2.
  fold d1 in Hi2. fold d2 in Hi2.
  assert (Hmeta : ∀ r', r' ∈ meta d → r' ≠ r → r' ∈ meta d2).
  { intros r' Hm Hne. apply list_elem_of_In, filter_In. split; [by apply list_elem_of_In|].
    apply negb_true_iff, Z.eqb_neq. intros Hid. apply Hne. by apply (ids_unique _ _ _ _ _ _ _ Hi). }
  assert (Hmeta2 : ∀ r', r' ∈ refs → r' ∈ meta d2).
  { intros r' Hr'. apply Hmeta; [auto|]. by intros ->. }
  assert (Hids : ∀ s, s ∈ segs → ref_ID s.1 = ref_ID r → s.1 = r).
  { intros s Hs Hid. apply (ids_unique _ _ _ _ _ _ _ Hi); [|done|done].
    rewrite (li_meta _ _ _ _ _ _ Hi). apply elem_of_app. left. by apply (list_elem_of_fmap_2 fst). }
  unfold syscall. destruct (io_fail (tick d2)).
  - apply collected_err. eapply collected_weaken; [by apply IH; [apply log_inv_tick, Hi2|..]|done|done|done|by right].
  - eapply collected_weaken; [apply IH; [apply log_inv_remove, log_inv_tick, Hi2|..]|done|done|done|by right]; try done.
    apply Forall_forall. intros r' Hr' Heq. simpl in Hr'. apply list_elem_of_In, filter_In in Hr' as [Hr' Hid].
    apply list_elem_of_In in Hr'. apply negb_true_iff, Z.eqb_neq in Hid. apply Hid. f_equal.
    by apply (paths_unique _ _ _ _ _ _ _ Hi).
Qed.

(** Garbage collection only drops whole old files.  Whatever
    system calls fail, a run leaves a represented log in which the open file,
    the next sequence number and every file younger than the retention period
    are untouched. *)
Theorem garbageCollect_safe now d segs cur es tail :
  log_inv d segs cur es tail →
  let '(d', r) := garbageCollect retention io_fail now d in
  ∃ segs', log_inv d' segs' cur es tail ∧ segs' `sublist_of` segs ∧ curSeq d' = curSeq d ∧
    failed d' = failed d ∧
    (∀ s, s ∈ segs → s ∉ segs' → ref_CreatedAt s.1 < now - retention).
Proof.
  intros Hi. unfold garbageCollect, syscall. destruct (io_fail (tick d)).
  { exists segs. split_and!; try done. by apply log_inv_tick. }
  set (old := λ r, ref_CreatedAt r <? now - retention).
  pose proof (gc_refs_collected (List.filter old (meta d)) (set_tick (S (tick d)) d) segs cur es tail) as H.
  destruct H as (errs & segs' & Hr & Hi' & Hsub & Hold & H1 & H2 & H3).
  - by apply log_inv_tick.
  - eapply sublist_NoDup; [|apply List_filter_sublist]. apply NoDup_fmap_1 with (f := ref_ID).
    apply StronglySorted_NoDup, (li_ids _ _ _ _ _ _ Hi).
  - intros r Hin. apply list_elem_of_In, filter_In in Hin as [Hin _]. by apply list_elem_of_In.
  - simpl (meta (set_tick _ _)). destruct (gc_refs _ _ _) as [d' r]. simpl in *.
    exists segs'. split_and!; try done. intros s Hs Hn. specialize (Hold s Hs Hn).
    apply list_elem_of_In, filter_In in Hold as [_ Ho]. unfold old in Ho. by bool_to_prop.
Qed.

End GC.
