(* ===== verification/DiskPersistRuns.v ===== *)
(** * The event log end to end

    Whole runs of the log: what is broadcast live is what playback returns,
    concrete runs that instantiate the theorems of the previous files, and runs
    in which playback from a cursor loses events. *)

From S2P Require Import Prelude GoStrings Stream StateMonad DiskPersist DiskPersistProofs DiskPersistSafety DiskPersistPlayback.
From Stdlib Require Import Strings.Byte.
From coqutil Require Import Byte Word.LittleEndianList.
From stdpp Require Import pretty.
Local Open Scope Z_scope.

Section Runs.
Variables (eventsPerFile initialSeq : Z).
Variable marshal : RepoMsg → result string bytes.
Variable unmarshal : Z → bytes → result string (RepoMsg * nat).
Variable uids : option (string → result string Z).
Variable io_fail : nat → option string.
Variable write_result : nat → bytes → Z * option string.

(** A call of [Persist]: the clock, the context's error and the event. *)
Definition call : Type := Z * option string * XRPCStreamEvent.

Definition persist_all (calls : list call) (d : DiskPersistence) : DiskPersistence :=
  fold_left (λ d c, (Persist eventsPerFile marshal uids io_fail write_result c.1.1 c.1.2 c.2 d).1) calls d.

(** The event as playback shows it. *)
Definition replayed (evt : XRPCStreamEvent) : XRPCStreamEvent :=
  match repo_msg evt with Some m => msg_event m 0 | None => evt end.

(** The decoder inverts the encoder and takes exactly the bytes it wrote. *)
Definition codec_ok : Prop :=
  ∀ m body, marshal m = Ok body → unmarshal (evtKind m) body = Ok (m, length body).

(** The log holds what was broadcast. *)
Definition broadcast_inv (d : DiskPersistence) : Prop :=
  ∃ segs cur es tail sent, log_inv initialSeq d segs cur es tail ∧ broadcast d = Some sent ∧
    Forall (playable unmarshal) (log_of segs es) ∧ replays unmarshal (log_of segs es) = map replayed sent.

Lemma known_kind m :
  existsb (Z.eqb (evtKind m)) [evtKindCommit; evtKindSync; evtKindIdentity; evtKindAccount] = true.
Proof. by destruct m. Qed.

Lemma broadcast_inv_step c d :
  uids_typed uids → marshal_bounded marshal → codec_ok → curSeq d < 2 ^ 63 - 1 → broadcast_inv d →
  let d' := (Persist eventsPerFile marshal uids io_fail write_result c.1.1 c.1.2 c.2 d).1 in
  broadcast_inv d' ∧ curSeq d' ≤ curSeq d + 1.
Proof.
  intros Ht Hb Hco Hmax (segs & cur & es & tail & sent & Hi & Hs & Hp & Hr). destruct c as [[now ctxErr] xevt].
  pose proof (Persist_spec eventsPerFile _ _ _ io_fail write_result now ctxErr xevt _ _ _ _ _ Ht Hb Hi Hmax) as H.
  cbn zeta. simpl fst. simpl snd in *.
  destruct (Persist _ _ _ _ _ now ctxErr xevt d) as [d' [[]|e]]; simpl in *.
  - destruct (repo_msg xevt) as [m|] eqn:Hm.
    + destruct H as (uid & body & Hbody & segs' & cur' & es' & Hi' & Hlog & _ & HS & _ & HB).
      split; [|lia]. exists segs', cur', es', [], (sent ++ [set_msg (msg_set_seq (curSeq d) m) xevt]).
      rewrite HB, Hs. split_and!; try done; rewrite Hlog.
      * apply Forall_app. split; [done|]. apply Forall_singleton. right. simpl.
        split; [apply known_kind|]. exists m. by apply Hco.
      * rewrite replays_app, map_app, Hr. f_equal. unfold replays, replay. simpl.
        rewrite (Hco m body) by done. simpl. unfold replayed. by rewrite (repo_msg_set_msg _ _ _ Hm).
    + subst d'. split; [|lia]. by exists segs, cur, es, tail, sent.
  - destruct H as (segs' & cur' & es' & tail' & Hi' & Hlog & HS & HB & _). split; [|lia].
    exists segs', cur', es', tail', sent. rewrite HB, Hs, Hlog. done.
Qed.

Lemma broadcast_inv_all calls d :
  uids_typed uids → marshal_bounded marshal → codec_ok →
  curSeq d + Z.of_nat (length calls) < 2 ^ 63 - 1 → broadcast_inv d → broadcast_inv (persist_all calls d).
Proof.
  intros Ht Hb Hco. revert d. induction calls as [|c calls IH]; intros d Hmax Hi; [done|].
  simpl length in Hmax. destruct (broadcast_inv_step c d Ht Hb Hco) as [Hi' Hs]; [lia|done|].
  apply (IH _); [lia|done].
Qed.

(** C28 (safety): replay agrees with the live stream.  Start the log in an empty
    directory, with more than one event to a file, register a broadcaster, and persist
    any sequence of events, some of which the context or the encoder may refuse.  If
    the log has not failed at the end, playback from the beginning returns exactly the
    events that were broadcast, in the same order and with the same sequence numbers.
    (A failing system call fails the log for good, but for a write that got a part of the
    entry through and is tried again.) *)
Theorem playback_agrees_with_broadcast now calls d0 d :
  uids_typed uids → marshal_bounded marshal → codec_ok → 1 < eventsPerFile →
  0 < initialSeq → initialSeq + Z.of_nat (length calls) < 2 ^ 63 - 1 →
  resumeLog initialSeq (λ _, None) now (mkDP ∅ [] 1 "" 0 0 None ∅ None 0) = (d0, Ok tt) →
  d = persist_all calls (SetEventBroadcaster d0).1 → failed d = None →
  ∃ sent, broadcast d = Some sent ∧
    Playback eventsPerFile unmarshal collect d 0 [] = (map replayed sent, Ok tt).
Proof.
  intros Ht Hb Hco He Hpos Hmax Hinit Hd Hf.
  destruct (initLogFile_inv initialSeq (λ _, None) now 0 Hpos) as (d1 & cur & Hrun & Hi & Hc & _); [done|].
  assert (d0 = d1) as -> by congruence. rewrite Hd in *. simpl in *.
  destruct (broadcast_inv_all calls (set_broadcast (Some []) d1)) as (segs & cur' & es & tail & sent & Hi' & Hs & Hp & Hr);
    [done|done|done|simpl; lia| |].
  { exists [], cur, [], [], []. split_and!; try done.
    eapply log_inv_same; [| |exact Hi]; [done|by left]. }
  exists sent. split; [done|].
  pose proof (li_alive _ _ _ _ _ _ Hi' Hf) as ->. rewrite <-Hr. by apply (Playback_entries _ _ _ _ _ _ _ Hi').
Qed.

End Runs.

(** ** Concrete runs *)

Definition ex_msg : RepoMsg := MIdentity (mkIdentityMsg "did:plc:a" None 9 "t").
Definition ex_evt : XRPCStreamEvent := msg_event ex_msg 0.
Definition ex_marshal (m : RepoMsg) : result string bytes :=
  match m with
  | MIdentity i => if bool_decide (i = mkIdentityMsg "did:plc:a" None 9 "t") then Ok [x01] else Err "unknown"%string
  | _ => Err "unknown"%string
  end.
Definition ex_unmarshal (k : Z) (b : bytes) : result string (RepoMsg * nat) :=
  if bool_decide (b = [x01]) then Ok (ex_msg, 1%nat) else Err "unknown"%string.
Definition ex_uids : option (string → result string Z) := Some (λ _, Ok 7).
Definition ex_write (_ : nat) (b : bytes) : Z * option string := (Z.of_nat (length b), None).
Definition ex_healthy (_ : nat) : option string := None.

Definition ex_cur : LogFileRef := mkRef 1 0 "evts-0" false 0.
(** An empty log with a broadcaster and one known user. *)
Definition ex_d : DiskPersistence :=
  mkDP {["evts-0"%string := []]} [ex_cur] 2 "evts-0" 0 1 None {["did:plc:a"%string := 7]} (Some []) 0.

Lemma ex_inv : log_inv 1 ex_d [] ex_cur [] [].
Proof.
  constructor; try done; try (by left); try (repeat constructor; simpl; lia).
  by apply map_Forall_singleton.
Qed.
Lemma ex_typed : uids_typed ex_uids.
Proof. intros f did uid [= <-] [= <-]. lia. Qed.
Lemma ex_bounded : marshal_bounded ex_marshal.
Proof. intros m body. unfold ex_marshal. repeat case_match; intros [= <-]. simpl. lia. Qed.
Lemma ex_codec : codec_ok ex_marshal ex_unmarshal.
Proof.
  intros m body. unfold ex_marshal. destruct m as [|?|i|?]; try done.
  case_bool_decide as Hi; [|done]. intros [= <-]. by subst.
Qed.

Lemma Persist_refines_append_witness :
  persist_spec 1 ex_marshal ex_d [] ex_evt
    (Persist 2 ex_marshal ex_uids ex_healthy ex_write 0 None ex_evt ex_d).1
    (Persist 2 ex_marshal ex_uids ex_healthy ex_write 0 None ex_evt ex_d).2.
Proof.
  apply (Persist_refines_append 2 1 ex_marshal ex_uids ex_healthy ex_write 0 None ex_evt ex_d [] ex_cur [] []);
    [lia|exact ex_typed|exact ex_bounded|exact ex_inv|simpl; lia].
Defined.

(** A log whose second write was torn after ten bytes. *)
Definition ex_entry : entry := mkEntry 0 4 7 1 [x01].
Definition ex_torn : DiskPersistence :=
  set_failed (Some "disk"%string) (set_tick 5 (append_log (take 10 (encode_entry ex_entry)) ex_d)).


Lemma failure_is_sticky_witness :
  (let '(d', r) := Persist 2 ex_marshal ex_uids ex_healthy ex_write 0 None ex_evt ex_torn in
   is_ok r = false ∧ files d' = files ex_torn ∧ meta d' = meta ex_torn ∧ curSeq d' = curSeq ex_torn ∧
   broadcast d' = broadcast ex_torn ∧ failed d' = Some "disk"%string) ∧
  Flush ex_healthy None ex_torn = (ex_torn, Err "disk"%string).
Proof. by apply (failure_is_sticky 2 ex_marshal ex_uids ex_healthy ex_write 0 None ex_evt ex_msg). Defined.

Lemma Persist_succeeds_witness :
  ∃ d', Persist 2 ex_marshal ex_uids ex_healthy ex_write 0 None ex_evt ex_d = (d', Ok tt).
Proof.
  apply (Persist_succeeds 2 ex_marshal ex_uids ex_healthy ex_write 0 ex_evt ex_msg [x01] ex_d 7); try done.
  intros t b Hb. exists (length b). split; [done|]. destruct b; [done|]. simpl. lia.
Defined.

(** Two files: entries 1 and 2 in the first, 3 in the second. *)
Definition ex_run : DiskPersistence :=
  persist_all 2 ex_marshal ex_uids ex_healthy ex_write [(0, None, ex_evt); (0, None, ex_evt); (0, None, ex_evt)] ex_d.
Definition ex_cur2 : LogFileRef := mkRef 2 0 "evts-3" false 3.
Definition ex_e (n : Z) : entry := mkEntry 0 4 7 n [x01].
Definition ex_segs : list (LogFileRef * list entry) := [(ex_cur, [ex_e 1; ex_e 2])].
Lemma ex_run_eq : ex_run =
  mkDP (<["evts-0"%string := encode_entries [ex_e 1; ex_e 2]]> {["evts-3"%string := encode_entries [ex_e 3]]})
    [ex_cur; ex_cur2] 3 "evts-3" 1 4 None {["did:plc:a"%string := 7]}
    (Some (map (λ n, set_msg (msg_set_seq n ex_msg) ex_evt) [1; 2; 3])) (tick ex_run).
Proof. vm_compute. reflexivity. Qed.

Lemma ex_run_inv : log_inv 1 ex_run ex_segs ex_cur2 [ex_e 3] [].
Proof.
  rewrite ex_run_eq. generalize (tick ex_run) as t. intros t.
  assert (Hpath : ∀ r, r ∈ [ex_cur; ex_cur2] → ref_Path r = ref_name (ref_SeqStart r)) by (by intros r [->|[->|[]%not_elem_of_nil]%elem_of_cons]%elem_of_cons).
  constructor; cbn [meta files logfi nextID curSeq eventCounter failed didCache]; unfold ex_segs, log_of;
    cbn [map fst snd concat app].
  - done.
  - apply Forall_singleton. by rewrite lookup_insert_eq.
  - by rewrite lookup_insert_ne, lookup_singleton_eq, app_nil_r.
  - done.
  - by apply Forall_forall.
  - repeat constructor; simpl; lia.
  - repeat constructor; simpl; lia.
  - split; repeat constructor; simpl; lia.
  - lia.
  - repeat constructor; simpl; lia.
  - repeat constructor; simpl; lia.
  - repeat constructor; simpl; lia.
  - split; repeat constructor; simpl; lia.
  - repeat constructor; simpl; lia.
  - done.
  - done.
  - done.
  - by left.
  - done.
  - apply map_Forall_singleton. lia.
Qed.
Lemma ex_playable l : Forall (playable ex_unmarshal) (map ex_e l).
Proof. induction l; simpl; constructor; [|done]. right. split; [done|]. by exists ex_msg. Qed.

Lemma Playback_from_zero_witness :
  Playback 2 ex_unmarshal collect ex_run 0 [] = (replays ex_unmarshal (log_of ex_segs [ex_e 3]), Ok tt).
Proof.
  apply (Playback_from_zero 2 1 ex_unmarshal ex_run ex_segs ex_cur2 [ex_e 3]);
    [exact ex_run_inv|lia|exact (ex_playable [1; 2; 3])].
Defined.

Lemma Playback_since_witness :
  Playback 2 ex_unmarshal collect ex_run 4 []
  = (replays ex_unmarshal (List.filter (λ e, 4 <? e_seq e) (log_of ex_segs [ex_e 3])), Ok tt).
Proof.
  apply (Playback_since 2 1 ex_unmarshal ex_run ex_segs ex_cur2 [ex_e 3]);
    [exact ex_run_inv|lia|exact (ex_playable [1; 2; 3])|simpl; lia].
Defined.

Lemma TakeDownRepo_hides_witness :
  ∃ d', TakeDownRepo ex_run 7 = (d', Ok tt) ∧
    Playback 2 ex_unmarshal collect d' 0 []
    = (replays ex_unmarshal (List.filter (λ e, negb (e_usr e =? 7)) (log_of ex_segs [ex_e 3])), Ok tt).
Proof.
  apply (TakeDownRepo_hides 2 1 ex_unmarshal ex_run 7 ex_segs ex_cur2 [ex_e 3]);
    [exact ex_run_inv|lia|exact (ex_playable [1; 2; 3])].
Defined.

Lemma garbageCollect_safe_witness :
  let '(d', r) := garbageCollect 10 ex_healthy 100 ex_run in
  ∃ segs', log_inv 1 d' segs' ex_cur2 [ex_e 3] [] ∧ segs' `sublist_of` ex_segs ∧ curSeq d' = curSeq ex_run ∧
    failed d' = failed ex_run ∧ (∀ s, s ∈ ex_segs → s ∉ segs' → ref_CreatedAt s.1 < 100 - 10).
Proof. exact (garbageCollect_safe 1 10 ex_healthy 100 ex_run ex_segs ex_cur2 [ex_e 3] [] ex_run_inv). Defined.

Definition ex_start : DiskPersistence :=
  (resumeLog 1 (λ _, None) 0 (mkDP ∅ [] 1 "" 0 0 None ∅ None 0)).1.
Definition ex_calls : list call := [(0, None, ex_evt); (0, Some "canceled"%string, ex_evt); (0, None, ex_evt); (0, None, ex_evt)].

Lemma playback_agrees_with_broadcast_witness :
  ∃ sent, broadcast (persist_all 2 ex_marshal ex_uids ex_healthy ex_write ex_calls (SetEventBroadcaster ex_start).1) = Some sent ∧
    Playback 2 ex_unmarshal collect
      (persist_all 2 ex_marshal ex_uids ex_healthy ex_write ex_calls (SetEventBroadcaster ex_start).1) 0 []
    = (map replayed sent, Ok tt).
Proof.
  apply (playback_agrees_with_broadcast 2 1 ex_marshal ex_unmarshal ex_uids ex_healthy ex_write 0 ex_calls ex_start);
    [exact ex_typed|exact ex_bounded|exact ex_codec|lia|lia|simpl; lia|vm_compute; reflexivity|reflexivity|vm_compute; reflexivity].
Defined.

(** ** Playback from a cursor in a full file loses events *)

Lemma Playback_run_witness :
  List.filter (λ e, 2 <? e_seq e) (log_of ex_segs [ex_e 3]) = [] ++ [ex_e 3] ∧
  Playback 2 ex_unmarshal collect ex_run 2 [] = ([], Ok tt).
Proof.
  apply (Playback_run 2 1 ex_unmarshal ex_run ex_segs ex_cur2 [ex_e 3] [] ex_cur [ex_e 1; ex_e 2] [(ex_cur2, [ex_e 3])] 2);
    [exact ex_run_inv|lia|exact (ex_playable [1; 2; 3])|reflexivity|simpl; lia|].
  apply Forall_singleton. simpl. lia.
Defined.

(** With two events per file and three events persisted, a consumer that has
    seen event 2 is given nothing: the scan of the first file ends at end of
    file, [readEventsFrom] reports sequence number 0, the file does not count as
    full and the second file is never opened, although the log holds event 3.
    A consumer that has seen event 1 gets event 2 and no more: the first file
    starts at 0 in the table but its first event is 1, so its last event is
    [SeqStart + eventsPerFile] and the test for a full file fails. *)
Example Playback_loses_events :
  log_of ex_segs [ex_e 3] = [ex_e 1; ex_e 2; ex_e 3] ∧
  Playback 2 ex_unmarshal collect ex_run 2 [] = ([], Ok tt) ∧
  Playback 2 ex_unmarshal collect ex_run 1 [] = (replays ex_unmarshal [ex_e 2], Ok tt).
Proof. split; [done|]. vm_compute. done. Qed.
