(* ===== verification/Hostname.v ===== *)
(** * Host names: [ParseHostname] of [src/cmd/relay/relay/host.go]

    Every source of the relay is keyed by the name this function returns.  It
    works on the result of Go's [net/url], whose [Parse] is modelled here step
    by step as far as this code observes it: scheme, user information, host,
    path, query and fragment, with the escapes and characters that are errors
    in each.  A host in brackets is an error of the model; [ParseHostname]
    refuses every such host, valid address or not. *)

From S2P Require Import Prelude GoStrings Regex Syntax.
Local Open Scope string_scope.

(** ** [net/url] *)

(** [strings.Cut(s, string(c))] *)
Fixpoint Cut (c : ascii) (s : string) : string * string * bool :=
  match s with
  | "" => ("", "", false)
  | String a s =>
      if Ascii.eqb a c then ("", s, true)
      else let '(before, after, found) := Cut c s in (String a before, after, found)
  end.

(** The text around the last [c], if there is one. *)
Fixpoint CutLast (c : ascii) (s : string) : option (string * string) :=
  match s with
  | "" => None
  | String a s =>
      match CutLast c s with
      | Some (before, after) => Some (String a before, after)
      | None => if Ascii.eqb a c then Some ("", s) else None
      end
  end.

Definition is_ctl (c : ascii) : bool := (N_of_ascii c <? 32)%N || (N_of_ascii c =? 127)%N.
Definition is_hex (c : ascii) : bool := is_digit c || in_range "a" "f" c || in_range "A" "F" c.
Definition unhex (c : ascii) : N :=
  if is_digit c then N_of_ascii c - 48
  else if in_range "a" "f" c then N_of_ascii c - 87 else N_of_ascii c - 55.

(** [getScheme]: the scheme and the rest; no scheme gives the empty string. *)
Fixpoint getScheme_from (first : bool) (s : string) : result string (option (string * string)) :=
  match s with
  | "" => Ok None
  | String c s' =>
      if is_alpha c || (negb first && (is_digit c || Ascii.eqb c "+" || Ascii.eqb c "-" || Ascii.eqb c "."))
      then match getScheme_from false s' with
           | Ok (Some (scheme, rest)) => Ok (Some (String c scheme, rest))
           | r => r
           end
      else if Ascii.eqb c ":" then (if first then Err "missing protocol scheme" else Ok (Some ("", s')))
      else Ok None
  end.
Definition getScheme (s : string) : result string (string * string) :=
  r ← getScheme_from true s;
  mret (match r with Some p => p | None => ("", s) end).

(** [unescape]; [host] selects the host mode, in which an escape must stand for
    a non-ASCII byte or a percent sign, and reserved characters are errors. *)
Definition host_char_ok (c : ascii) : bool :=
  is_alnum c || (128 <=? N_of_ascii c)%N ||
  existsb (Ascii.eqb c) ["!"; "$"; "&"; "'"; "("; ")"; "*"; "+"; ","; ";"; "="; ":"; "["; "]"; "<"; ">"; "-"; "_"; "."; "~"]%char
  || (N_of_ascii c =? 34)%N.

Fixpoint unescape (host : bool) (s : string) : result string string :=
  match s with
  | "" => Ok ""
  | String c s' =>
      if Ascii.eqb c "%" then
        match s' with
        | String h1 (String h2 rest) =>
            if negb (is_hex h1 && is_hex h2) then Err "invalid URL escape"
            else if host && (unhex h1 <? 8)%N && negb (Ascii.eqb h1 "2" && Ascii.eqb h2 "5")
            then Err "invalid URL escape"
            else t ← unescape host rest; mret (String (ascii_of_N (16 * unhex h1 + unhex h2)) t)
        | _ => Err "invalid URL escape"
        end
      else if host && negb (host_char_ok c) then Err "invalid character in host name"
      else t ← unescape host s'; mret (String c t)
  end.

(** The text of a port, with its colon, or nothing. *)
Definition validOptionalPort (port : string) : bool :=
  match port with "" => true | String c digits => Ascii.eqb c ":" && str_forall is_digit digits end.

Definition parseHost (host : string) : result string string :=
  if HasPrefix host "[" then Err "invalid host in brackets"
  else
    match CutLast ":" host with
    | Some (before, port) =>
        if ContainsByte ":" before then Err "invalid host"
        else if negb (str_forall is_digit port) then Err "invalid port after host"
        else unescape true host
    | None => unescape true host
    end.

Record URL := mkURL {
  u_Scheme : string;
  u_User : bool;            (* [u.User != nil] *)
  u_Host : string;
  u_Path : string;
  u_RawQuery : string;
  u_Fragment : string;
}.

(** What follows the scheme: the query, then either opaque text, or an optional
    authority and a path.  [frag] is the escaped fragment. *)
Definition url_parse_rest (scheme rest frag : string) : result string URL :=
  let '(rest, query, _) := Cut "?" rest in
  fragment ← unescape false frag;
  if negb (HasPrefix rest "/") && negb (String.eqb scheme "") then
    mret (mkURL scheme false "" "" query fragment)
  else if negb (HasPrefix rest "/") && ContainsByte ":" (fst (fst (Cut "/" rest)))
  then Err "first path segment in URL cannot contain colon"
  else if HasPrefix rest "//" && (negb (String.eqb scheme "") || negb (HasPrefix rest "///")) then
    let '(authority, path, slash) := Cut "/" (substring 2 (String.length rest) rest) in
    let path := if slash then "/" ++ path else "" in
    match CutLast "@" authority with
    | Some (_, host) =>
        host ← parseHost host; path ← unescape false path;
        mret (mkURL scheme true host path query fragment)
    | None =>
        host ← parseHost authority; path ← unescape false path;
        mret (mkURL scheme false host path query fragment)
    end
  else
    path ← unescape false rest;
    mret (mkURL scheme false "" path query fragment).

Definition url_Parse (raw : string) : result string URL :=
  if negb (str_forall (λ c, negb (is_ctl c)) raw) then Err "invalid control character in URL"
  else
    let '(u, frag, _) := Cut "#" raw in
    '(scheme, rest) ← getScheme u;
    url_parse_rest (ToLower scheme) rest frag.

(** [u.Hostname()] and [u.Port()] *)
Definition splitHostPort (hostPort : string) : string * string :=
  match CutLast ":" hostPort with
  | Some (host, port) => if str_forall is_digit port then (host, port) else (hostPort, "")
  | None => (hostPort, "")
  end.

(** ** [host.go] *)

(** [strings.Contains(s, sub)] *)
Fixpoint Contains (s sub : string) : bool :=
  HasPrefix s sub || match s with "" => false | String _ s => Contains s sub end.

Definition ParseHostname (raw : string) : result string (string * bool) :=
  let raw := if Contains raw "://" then raw else "https://" ++ raw in
  match url_Parse raw with
  | Err e => Err ("not a valid host URL: " ++ e)
  | Ok u =>
      if u_User u || (negb (String.eqb (u_Path u) "") && negb (String.eqb (u_Path u) "/"))
         || negb (String.eqb (u_RawQuery u) "") || negb (String.eqb (u_Fragment u) "")
      then Err "host URL must contain only an origin"
      else
        noSSL ← (if existsb (String.eqb (u_Scheme u)) ["https"; "wss"] then mret false
                 else if existsb (String.eqb (u_Scheme u)) ["http"; "ws"] then mret true
                 else Err ("unsupported URL scheme: " ++ u_Scheme u));
        let '(hostname, port) := splitHostPort (u_Host u) in
        if String.eqb hostname "localhost" then
          if String.eqb port "" || negb (HasPrefix (u_Host u) "localhost:")
          then Err "port number is required for localhost"
          else Ok (u_Host u, noSSL)
        else if negb (String.eqb port "") then Err "port number not allowed for non-local names"
        else
          match ParseHandle (u_Host u) with
          | Err _ => Err "not a public hostname"
          | Ok h => Ok (Handle_Normalize h, noSSL)
          end
  end.

(** [d[1:]] of a pattern that starts with ['*'] *)
Definition IsTrustedHostname (hostname : string) (domains : list string) : bool :=
  existsb (λ d, String.eqb hostname d
    || (HasPrefix d "*" && HasSuffix hostname (substring 1 (String.length d) d))) domains.

(** [Host.BaseURL] and [Host.SubscribeReposURL] of a name and its scheme flag *)
Definition BaseURL (hostname : string) (noSSL : bool) : string :=
  (if noSSL then "http" else "https") ++ "://" ++ hostname.
Definition SubscribeReposURL (hostname : string) (noSSL : bool) : string :=
  (if noSSL then "ws" else "wss") ++ "://" ++ hostname ++ "/xrpc/com.atproto.sync.subscribeRepos".

Example parse_bare : ParseHostname "PDS.Example.com" = Ok ("pds.example.com", false).
Proof. vm_compute. reflexivity. Qed.
Example parse_ws : ParseHostname "ws://localhost:2583/" = Ok ("localhost:2583", true).
Proof. vm_compute. reflexivity. Qed.
Example parse_port : is_ok (ParseHostname "https://pds.example.com:8443") = false.
Proof. vm_compute. reflexivity. Qed.
Example parse_user : is_ok (ParseHostname "https://me@pds.example.com") = false.
Proof. vm_compute. reflexivity. Qed.
Example parse_ip : is_ok (ParseHostname "https://127.0.0.1") = false.
Proof. vm_compute. reflexivity. Qed.

(** ** Canonical names *)

(** What a host name in the database looks like. *)
Definition canonical_host (h : string) : Prop :=
  (∃ digits, h = "localhost:" ++ digits ∧ digits ≠ "" ∧ str_forall is_digit digits = true) ∨
  (ParseHandle h = Ok h ∧ ToLower h = h).

Definition host_chars (c : ascii) : bool := is_alnum c || existsb (Ascii.eqb c) ["-"; "."; ":"]%char.

Lemma Cut_none c s : ContainsByte c s = false → Cut c s = (s, "", false).
Proof.
  induction s as [|a s IH]; simpl; [done|]. intros [-> Hs]%orb_false_iff. by rewrite IH.
Qed.

Lemma CutLast_none c s : ContainsByte c s = false → CutLast c s = None.
Proof. induction s as [|a s IH]; simpl; [done|]. intros [-> Hs]%orb_false_iff. by rewrite IH. Qed.

Lemma CutLast_Some c s b a : CutLast c s = Some (b, a) → s = b ++ String c a.
Proof.
  revert b. induction s as [|x s IH]; simpl; intros b; [done|].
  destruct (CutLast c s) as [[b' a']|] eqn:Hc.
  - intros [= <- <-]. simpl. f_equal. by apply IH.
  - destruct (Ascii.eqb_spec x c) as [->|]; [|done]. by intros [= <- <-].
Qed.

Lemma CutLast_app c b a : ContainsByte c a = false → CutLast c (b ++ String c a) = Some (b, a).
Proof.
  intros Ha. induction b as [|x b IH]; simpl.
  - by rewrite CutLast_none, Ascii.eqb_refl by done.
  - by rewrite IH.
Qed.

(** A class that excludes [c] gives strings without [c]. *)
Lemma str_forall_no_byte P c s : P c = false → str_forall P s = true → ContainsByte c s = false.
Proof.
  intros Hc. induction s as [|a s IH]; simpl; [done|]. intros [Ha Hs]%andb_true_iff.
  rewrite IH by done. destruct (Ascii.eqb_spec a c); [congruence|done].
Qed.

Lemma unescape_plain (host : bool) s :
  str_forall (λ c, negb (Ascii.eqb c "%") && host_char_ok c) s = true → unescape host s = Ok s.
Proof.
  induction s as [|c s IH]; [done|].
  cbn [str_forall]. intros [[Hp%negb_true_iff Hc]%andb_true_iff Hs]%andb_true_iff.
  cbn [unescape]. rewrite Hp, Hc, andb_false_r, IH by done. done.
Qed.

Lemma chars_weaken (P Q : ascii → bool) s :
  forallb (λ c, implb (P c) (Q c)) all_chars = true → str_forall P s = true → str_forall Q s = true.
Proof. intros H. by apply str_forall_weaken, chars_imply. Qed.

Lemma substring_whole n s : (String.length s ≤ n)%nat → substring 0 n s = s.
Proof.
  revert n. induction s as [|a s IH]; intros n; simpl; [by destruct n|].
  destruct n as [|n]; [lia|]. intros. by rewrite IH by lia.
Qed.

(** [net/url] on an origin made of plain host characters. *)
Lemma url_Parse_origin (noSSL : bool) h host :
  str_forall host_chars h = true → parseHost h = Ok host →
  url_Parse (BaseURL h noSSL) = Ok (mkURL (if noSSL then "http" else "https") false host "" "" "").
Proof.
  intros Hh Hp. unfold url_Parse.
  assert (Hn : ∀ c, host_chars c = false → ContainsByte c h = false)
    by (intros; by apply (str_forall_no_byte host_chars)).
  assert (Hctl : str_forall (λ c, negb (is_ctl c)) h = true)
    by (revert Hh; by apply chars_weaken; vm_compute).
  assert (Hb : ∀ c, host_chars c = false → ContainsByte c (BaseURL "" noSSL) = false → ContainsByte c (BaseURL h noSSL) = false).
  { intros c Hc. unfold BaseURL. rewrite !ContainsByte_app, (Hn c Hc). done. }
  replace (str_forall _ (BaseURL h noSSL)) with true.
  2: { unfold BaseURL. rewrite !str_forall_app, Hctl. by destruct noSSL. }
  rewrite Cut_none by (apply Hb; destruct noSSL; reflexivity). simpl negb. cbv iota.
  assert (Hg : getScheme (BaseURL h noSSL) = Ok (if noSSL then "http" else "https", "//" ++ h)).
  { unfold BaseURL, getScheme. by destruct noSSL. }
  rewrite Hg. cbn [mbind result_bind]. replace (ToLower (if noSSL then "http" else "https")) with (if noSSL then "http" else "https") by (by destruct noSSL).
  unfold url_parse_rest. rewrite (Cut_none "?" ("//" ++ h)) by (simpl; by rewrite Hn).
  cbn [unescape mbind result_bind]. replace (HasPrefix ("//" ++ h) "/") with true by (by destruct h).
  replace (HasPrefix ("//" ++ h) "//") with true by (by destruct h).
  replace (String.eqb (if noSSL then "http" else "https") "") with false by (by destruct noSSL).
  cbn [negb andb orb]. simpl substring. rewrite substring_whole by (simpl; lia).
  rewrite (Cut_none "/" h), (CutLast_none "@" h) by (by rewrite Hn). rewrite Hp. done.
Qed.

Lemma handle_chars h : ParseHandle h = Ok h → str_forall (λ c, label_char c || Ascii.eqb c ".") h = true.
Proof.
  intros (_ & _ & _ & Hl)%ParseHandle_Ok. revert Hl. apply lang_chars_in.
  unfold handleRegex, label_rest, Opt, Between, Plus. solve_chars_in.
Qed.

Lemma parseHost_handle h : ParseHandle h = Ok h → parseHost h = Ok h.
Proof.
  intros H%handle_chars. unfold parseHost.
  assert (Hn : ∀ c, (label_char c || Ascii.eqb c ".") = false → ContainsByte c h = false).
  { intros c Hc. by apply (str_forall_no_byte (λ c, label_char c || Ascii.eqb c ".")). }
  destruct (HasPrefix h "[") eqn:Hb.
  { apply HasPrefix_spec in Hb as [t ->]. discriminate H. }
  rewrite CutLast_none by (by apply Hn). apply unescape_plain. revert H. by apply chars_weaken; vm_compute.
Qed.

Lemma digits_no_colon digits : str_forall is_digit digits = true → ContainsByte ":" digits = false.
Proof. by apply str_forall_no_byte. Qed.

Lemma parseHost_localhost digits :
  str_forall is_digit digits = true → parseHost ("localhost:" ++ digits) = Ok ("localhost:" ++ digits).
Proof.
  intros H. unfold parseHost. change ("localhost:" ++ digits) with ("localhost" ++ String ":" digits).
  rewrite CutLast_app by by apply digits_no_colon. simpl HasPrefix. cbv iota.
  rewrite H. simpl negb. cbv iota. replace (ContainsByte ":" "localhost") with false by done.
  apply unescape_plain. rewrite str_forall_app. apply andb_true_iff. split; [reflexivity|].
  simpl. revert H. by apply chars_weaken; vm_compute.
Qed.

Lemma Contains_BaseURL h noSSL : Contains (BaseURL h noSSL) "://" = true.
Proof. by destruct noSSL, h. Qed.

Lemma ParseHostname_BaseURL h noSSL :
  canonical_host h → ParseHostname (BaseURL h noSSL) = Ok (h, noSSL).
Proof.
  intros Hc. unfold ParseHostname. rewrite Contains_BaseURL.
  destruct Hc as [(digits & -> & Hne & Hd)|[Hh Hl]].
  - rewrite (url_Parse_origin noSSL _ ("localhost:" ++ digits)); [|  |by apply parseHost_localhost].
    2: { simpl. revert Hd. by apply chars_weaken; vm_compute. }
    cbn [u_User u_Path u_RawQuery u_Fragment u_Scheme u_Host].
    unfold splitHostPort. change ("localhost:" ++ digits) with ("localhost" ++ String ":" digits).
    rewrite CutLast_app, Hd by by apply digits_no_colon.
    destruct (String.eqb_spec digits ""); [done|]. by destruct noSSL, digits.
  - rewrite (url_Parse_origin noSSL _ h); [| |by apply parseHost_handle].
    2: { apply handle_chars in Hh. revert Hh. by apply chars_weaken; vm_compute. }
    cbn [u_User u_Path u_RawQuery u_Fragment u_Scheme u_Host].
    unfold splitHostPort. rewrite CutLast_none.
    2: { apply handle_chars in Hh. revert Hh. by apply str_forall_no_byte. }
    destruct (String.eqb_spec h "localhost") as [->|_]; [discriminate Hh|].
    rewrite Hh. unfold Handle_Normalize. rewrite Hl. by destruct noSSL.
Qed.

Lemma ParseHostname_canonical raw h noSSL : ParseHostname raw = Ok (h, noSSL) → canonical_host h.
Proof.
  unfold ParseHostname. generalize (if Contains raw "://" then raw else "https://" ++ raw) as r. intros r.
  destruct (url_Parse r) as [u|]; [|done]. destruct (_ || _); [done|].
  intros (n & _ & H)%result_bind_Ok. revert H. unfold splitHostPort.
  destruct (CutLast ":" (u_Host u)) as [[b p]|] eqn:Hcut.
  - destruct (str_forall is_digit p) eqn:Hp.
    + destruct (String.eqb_spec b "localhost") as [->|_].
      * destruct (String.eqb_spec p ""); [done|]. simpl. destruct (HasPrefix _ _); [|done].
        intros [= <- <-]. left. exists p. split; [|done]. by rewrite (CutLast_Some _ _ _ _ Hcut).
      * destruct (String.eqb_spec p "") as [->|]; [|done]. simpl.
        destruct (ParseHandle (u_Host u)) as [h'|] eqn:Hh; [|done]. intros [= <- <-].
        right. pose proof Hh as (-> & _)%ParseHandle_Ok. split; [by eapply ParseHandle_Normalize|apply ToLower_idem].
    + destruct (String.eqb_spec (u_Host u) "localhost") as [->|_]; [done|]. simpl.
      destruct (ParseHandle (u_Host u)) as [h'|] eqn:Hh; [|done]. intros [= <- <-].
      right. split; [by eapply ParseHandle_Normalize|apply ToLower_idem].
  - destruct (String.eqb_spec (u_Host u) "localhost") as [->|_]; [done|]. simpl.
    destruct (ParseHandle (u_Host u)) as [h'|] eqn:Hh; [|done]. intros [= <- <-].
    right. split; [by eapply ParseHandle_Normalize|apply ToLower_idem].
Qed.

(** Host names are canonical.  Whatever URL an operator, an
    identity document or another service supplies, a name that [ParseHostname]
    returns, written back as the base URL of a host row with the same scheme
    flag, parses to that name and flag again; so the same host is never stored
    under two names and a receipt's PDS URL finds the row it was made from. *)
Theorem ParseHostname_roundtrip raw h noSSL :
  ParseHostname raw = Ok (h, noSSL) → ParseHostname (BaseURL h noSSL) = Ok (h, noSSL).
Proof. intros H%ParseHostname_canonical. by apply ParseHostname_BaseURL. Qed.

Lemma ParseHostname_roundtrip_witness :
  ParseHostname (BaseURL "pds.example.com" true) = Ok ("pds.example.com", true).
Proof. apply (ParseHostname_roundtrip "http://PDS.example.COM/"). vm_compute. reflexivity. Defined.
