(* ===== verification/Relay.v ===== *)
(** * The relay's state: [src/cmd/relay/relay], [src/cmd/relay/relay/models]

    Go errors with [errors.Is]/[errors.As], the rows of the database, the
    transactions over them, and the services the relay calls.  A table is the
    list of its rows in primary-key order of insertion; a query that the source
    sends to the database consults an oracle first and fails if the oracle says
    so, and a transaction that fails restores every table.  While it persists an
    event the log asks the relay for the account of a DID; that only fills the
    account cache with a current row and is not modelled. *)

From S2P Require Import Prelude GoStrings Syntax Stream StateMonad Cbor MstData Repo Hostname.
Local Open Scope Z_scope.

(** ** Errors *)

Inductive sentinel : Set :=
| ErrHostNotFound | ErrHostNotPDS | ErrNewHostsDisabled | ErrAccountNotFound | ErrAccountRepoNotFound
| ErrAccountInactive | ErrInvalidAccountQuota
| ErrFutureRev | ErrRevSequence | ErrIdentityUnavailable | ErrIdentityRefresh | ErrCommitSignature
| ErrSourceNotFound | ErrSourceRevisionConflict | ErrInvalidSourceState | ErrInvalidSourceURL
| ErrSourceDomainBanned | ErrSourceValidationFailed
| ErrInvalidRecoveryReceipt | ErrRecoveryReceiptConflict.
#[export] Instance sentinel_eq_dec : EqDecision sentinel.
Proof. solve_decision. Defined.

(** A sentinel, an error with only a message, a wrapped error ([fmt.Errorf] with
    [%w]), or a [permanentEventError] with its reason code and cause. *)
Inductive goerr : Type :=
| Sentinel (s : sentinel)
| Errorf (msg : string)
| Wrap (msg : string) (e : goerr)
| permanentEventError (reasonCode : string) (cause : goerr).

Fixpoint errors_Is (e : goerr) (s : sentinel) : bool :=
  match e with
  | Sentinel s' => bool_decide (s = s')
  | Errorf _ => false
  | Wrap _ e | permanentEventError _ e => errors_Is e s
  end.

Definition newPermanentEventError {A} (reasonCode : string) (cause : goerr) : result goerr A :=
  Err (permanentEventError reasonCode cause).

(** [errors.As(err, &rejection)]: the outermost permanent error of the chain. *)
Fixpoint permanentRejectionReason (e : goerr) : option string :=
  match e with
  | permanentEventError reasonCode _ => Some reasonCode
  | Wrap _ e => permanentRejectionReason e
  | Sentinel _ | Errorf _ => None
  end.

(** ** Rows *)

Definition AccountStatusActive : string := "active".
Definition AccountStatusDeactivated : string := "deactivated".
Definition AccountStatusDeleted : string := "deleted".
Definition AccountStatusDesynchronized : string := "desynchronized".
Definition AccountStatusSuspended : string := "suspended".
Definition AccountStatusTakendown : string := "takendown".
Definition AccountStatusThrottled : string := "throttled".
Definition AccountStatusHostThrottled : string := "host-throttled".
Definition AccountStatusInactive : string := "inactive".

Definition HostStatusActive : string := "active".
Definition HostStatusOffline : string := "offline".
Definition HostStatusBanned : string := "banned".

Inductive SourceState : Set := SourceStateEnabled | SourceStateDisabled | SourceStateRemoved.
#[export] Instance SourceState_eq_dec : EqDecision SourceState.
Proof. solve_decision. Defined.
Definition SourceState_string (s : SourceState) : string :=
  match s with SourceStateEnabled => "enabled" | SourceStateDisabled => "disabled" | SourceStateRemoved => "removed" end.

Inductive SourceValidationStatus : Set := SourceValidationPending | SourceValidationPassed | SourceValidationFailed.
#[export] Instance SourceValidationStatus_eq_dec : EqDecision SourceValidationStatus.
Proof. solve_decision. Defined.

Inductive SourceValidationReason : Set :=
| SourceValidationReasonNone | SourceValidationReasonHostCheckFailed | SourceValidationReasonCheckerMissing.

Record Account := mkAccount {
  acc_UID : Z;
  acc_DID : string;
  acc_HostID : Z;
  acc_Status : string;
  acc_UpstreamStatus : string;
}.
#[export] Instance Account_eq_dec : EqDecision Account.
Proof. solve_decision. Defined.

Record AccountRepo := mkAccountRepo {
  repo_UID : Z;
  repo_Rev : string;
  repo_CommitCID : string;
  repo_CommitDataCID : string;
}.

(** The alert columns of the source struct belong to [host_usage.go]. *)
Record Host := mkHost {
  host_ID : Z;
  host_Hostname : string;
  host_NoSSL : bool;
  host_AccountLimit : Z;
  host_Trusted : bool;
  host_Status : string;
  host_LastSeq : Z;
  host_AccountCount : Z;
}.

Record Source := mkSource {
  src_HostID : Z;
  src_State : SourceState;
  src_Revision : Z;
  src_LastOperation : string;
  src_ValidationStatus : SourceValidationStatus;
  src_ValidationCheckedAt : option Z;
  src_ValidationReason : SourceValidationReason;
  src_RecoveryRequired : bool;
  src_RecoveryPolicyRevision : Z;
}.

Record RecoveryReceipt := mkReceipt {
  rr_PDS : string;
  rr_HostID : Z;
  rr_SourceRevision : Z;
  rr_PolicyRevision : Z;
  rr_JobID : string;
  rr_DurableBoundary : string;
}.
#[export] Instance RecoveryReceipt_eq_dec : EqDecision RecoveryReceipt.
Proof. solve_decision. Defined.

Record AccountSourceObservation := mkObservation {
  obs_DID : string;
  obs_ObservedHostID : Z;
  obs_ResolvedHostname : string;
  obs_ObservedAt : Z;
  obs_ResolvedAt : Z;
  obs_AdmissionReason : string;
}.

Record SourceHandoff := mkHandoff {
  hand_HostID : Z;
  hand_PDS : string;
  hand_SourceRevision : Z;
  hand_State : string;
  hand_Attempts : Z;
  hand_NextRetryAt : Z;
}.

Record RejectedEvent := mkRejected {
  rej_ID : Z;
  rej_SourceHostID : Z;
  rej_SourcePosition : Z;
  rej_DID : string;
  rej_EventKind : string;
  rej_PolicyRevision : string;
  rej_ReasonCode : string;
  rej_IdempotencyKey : string;
}.

(** Updates of single columns. *)
Definition acc_set_Status s (a : Account) := mkAccount (acc_UID a) (acc_DID a) (acc_HostID a) s (acc_UpstreamStatus a).
Definition acc_set_UpstreamStatus s (a : Account) := mkAccount (acc_UID a) (acc_DID a) (acc_HostID a) (acc_Status a) s.
Definition acc_set_HostID h (a : Account) := mkAccount (acc_UID a) (acc_DID a) h (acc_Status a) (acc_UpstreamStatus a).
Definition host_set_AccountCount n (h : Host) :=
  mkHost (host_ID h) (host_Hostname h) (host_NoSSL h) (host_AccountLimit h) (host_Trusted h) (host_Status h) (host_LastSeq h) n.
Definition host_set_AccountLimit n (h : Host) :=
  mkHost (host_ID h) (host_Hostname h) (host_NoSSL h) n (host_Trusted h) (host_Status h) (host_LastSeq h) (host_AccountCount h).
Definition host_set_Status s (h : Host) :=
  mkHost (host_ID h) (host_Hostname h) (host_NoSSL h) (host_AccountLimit h) (host_Trusted h) s (host_LastSeq h) (host_AccountCount h).
Definition host_set_LastSeq n (h : Host) :=
  mkHost (host_ID h) (host_Hostname h) (host_NoSSL h) (host_AccountLimit h) (host_Trusted h) (host_Status h) n (host_AccountCount h).

(** ** The database *)

Record DB := mkDB {
  hosts : list Host;
  sources : list Source;
  accounts : list Account;
  repos : list AccountRepo;
  rejected : list RejectedEvent;
  receipts : list RecoveryReceipt;
  observations : list AccountSourceObservation;
  handoffs : list SourceHandoff;
  bans : list string;
  next_host : Z;
  next_uid : Z;
  next_rejected : Z;
}.

Definition set_hosts x (d : DB) := mkDB x (sources d) (accounts d) (repos d) (rejected d) (receipts d) (observations d) (handoffs d) (bans d) (next_host d) (next_uid d) (next_rejected d).
Definition set_sources x (d : DB) := mkDB (hosts d) x (accounts d) (repos d) (rejected d) (receipts d) (observations d) (handoffs d) (bans d) (next_host d) (next_uid d) (next_rejected d).
Definition set_accounts x (d : DB) := mkDB (hosts d) (sources d) x (repos d) (rejected d) (receipts d) (observations d) (handoffs d) (bans d) (next_host d) (next_uid d) (next_rejected d).
Definition set_repos x (d : DB) := mkDB (hosts d) (sources d) (accounts d) x (rejected d) (receipts d) (observations d) (handoffs d) (bans d) (next_host d) (next_uid d) (next_rejected d).
Definition add_rejected x (d : DB) := mkDB (hosts d) (sources d) (accounts d) (repos d) (rejected d ++ [x]) (receipts d) (observations d) (handoffs d) (bans d) (next_host d) (next_uid d) (next_rejected d + 1).
Definition set_receipts x (d : DB) := mkDB (hosts d) (sources d) (accounts d) (repos d) (rejected d) x (observations d) (handoffs d) (bans d) (next_host d) (next_uid d) (next_rejected d).
Definition set_observations x (d : DB) := mkDB (hosts d) (sources d) (accounts d) (repos d) (rejected d) (receipts d) x (handoffs d) (bans d) (next_host d) (next_uid d) (next_rejected d).
Definition set_handoffs x (d : DB) := mkDB (hosts d) (sources d) (accounts d) (repos d) (rejected d) (receipts d) (observations d) x (bans d) (next_host d) (next_uid d) (next_rejected d).
Definition set_bans x (d : DB) := mkDB (hosts d) (sources d) (accounts d) (repos d) (rejected d) (receipts d) (observations d) (handoffs d) x (next_host d) (next_uid d) (next_rejected d).
Definition add_host x (d : DB) := mkDB (hosts d ++ [x]) (sources d) (accounts d) (repos d) (rejected d) (receipts d) (observations d) (handoffs d) (bans d) (next_host d + 1) (next_uid d) (next_rejected d).
Definition add_account x (d : DB) := mkDB (hosts d) (sources d) (accounts d ++ [x]) (repos d) (rejected d) (receipts d) (observations d) (handoffs d) (bans d) (next_host d) (next_uid d + 1) (next_rejected d).

(** [UPDATE ... WHERE] and its [RowsAffected]. *)
Definition update_where {A} (p : A → bool) (f : A → A) (rows : list A) : list A :=
  map (λ x, if p x then f x else x) rows.
Definition count_where {A} (p : A → bool) (rows : list A) : Z := Z.of_nat (length (List.filter p rows)).

(** ** The relay *)

Record Identity := mkIdentity {
  id_Handle : string;
  id_PDSEndpoint : string;      (* [ident.PDSEndpoint()] *)
  id_PublicKey : result string string;  (* [ident.PublicKey()] *)
}.

Record Relay := mkRelay {
  db : DB;
  accountCache : gmap string Account;
  events : list XRPCStreamEvent;      (* accepted by [r.Events.AddEvent] *)
  subs : gmap string string;          (* the slurper's subscriptions and their state *)
  publicChecks : gset Z;
  tick : nat;                         (* calls made so far to the services below *)
}.

Definition set_db d (r : Relay) := mkRelay d (accountCache r) (events r) (subs r) (publicChecks r) (tick r).
Definition set_cache c (r : Relay) := mkRelay (db r) c (events r) (subs r) (publicChecks r) (tick r).
Definition add_event e (r : Relay) := mkRelay (db r) (accountCache r) (events r ++ [e]) (subs r) (publicChecks r) (tick r).
Definition set_subs s (r : Relay) := mkRelay (db r) (accountCache r) (events r) s (publicChecks r) (tick r).
Definition set_checks c (r : Relay) := mkRelay (db r) (accountCache r) (events r) (subs r) c (tick r).
Definition step (r : Relay) := mkRelay (db r) (accountCache r) (events r) (subs r) (publicChecks r) (S (tick r)).

Record RelayConfig := mkConfig {
  DefaultRepoLimit : Z;
  TrustedRepoLimit : Z;
  LenientSyncValidation : bool;
  TrustedDomains : list string;
  SkipAccountHostCheck : bool;
  TestDialContext : bool;       (* set or not *)
}.

(** What the relay is connected to.  The database, the event log, the identity
    directory and the hosts answer differently at each call, so each is a
    function of the number of calls made so far; the libraries behind
    [src/atproto/repo] are functions of their input. *)
Class Services := {
  Config : RelayConfig;
  clock : nat → Z;                                     (* [time.Now()], microseconds *)
  db_fail : nat → option string;
  emit_fail : nat → XRPCStreamEvent → option string;   (* the event log refuses the event *)
  dir_lookup : nat → string → result string (option Identity);
  dir_purge : nat → string → option string;
  describe_server : nat → string → option string;      (* describeServer of a host URL *)
  repo_status : nat → string → string → result string (bool * option string);
  limiter_allow : nat → bool;                          (* HostPerDayLimiter *)
  rate_admission : nat → option string;                (* requireRateAdmission *)
  slurper_subscribe : nat → string → option string;
  (** Waiting for a subscription to stop: the wait ends first, or the
      subscription has finished, with the error of its last cursor write. *)
  slurper_stop : nat → string → result string (option string);
  slurper_limits : nat → string → option string;       (* UpdateLimiters *)
  svc_cbor :: CborGen;
  svc_cid :: CidLib;
  svc_car :: CarLib;
  svc_sort :: SortLib;
  svc_sig :: SigLib;
}.

Abbreviation R := (StateM Relay goerr).

Section Primitives.
Context `{Services}.

(** One call to the outside: [f] of the call's number. *)
Definition call {A} (f : nat → A) : R A := fun r => (step r, Ok (f (tick r))).

(** A database statement that may fail. *)
Definition dbop : R unit :=
  e ← call db_fail; match e with Some msg => throw (Errorf msg) | None => mret tt end.

Definition query {A} (f : DB → A) : R A := dbop ;; gets (λ r, f (db r)).
Definition exec (f : DB → DB) : R unit := dbop ;; modify (λ r, set_db (f (db r)) r).

(** [db.Transaction]: begin, the function, commit; on any failure the tables
    are as before. *)
Definition Transaction {A} (f : R A) : R A := fun r =>
  let r := step r in
  match db_fail (pred (tick r)) with
  | Some msg => (r, Err (Errorf msg))
  | None =>
      match f r with
      | (r', Err e) => (set_db (db r) r', Err e)
      | (r', Ok a) =>
          let r' := step r' in
          match db_fail (pred (tick r')) with
          | Some msg => (set_db (db r) r', Err (Errorf msg))
          | None => (r', Ok a)
          end
      end
  end.

Definition wrap {A} (msg : string) (m : R A) : R A := catch m (λ e, throw (Wrap msg e)).
Definition sentinel_err {A} (s : sentinel) : R A := throw (Sentinel s).

(** [r.Events.AddEvent]: the event is durable when this succeeds. *)
Definition AddEvent (evt : XRPCStreamEvent) : R unit :=
  e ← call (λ n, emit_fail n evt);
  match e with Some msg => throw (Errorf msg) | None => modify (add_event evt) end.

Definition LookupDID (did : string) : R (option Identity) :=
  res ← call (λ n, dir_lookup n did);
  match res with Ok i => mret i | Err msg => throw (Errorf msg) end.
Definition Purge (did : string) : R unit :=
  e ← call (λ n, dir_purge n did); match e with Some msg => throw (Errorf msg) | None => mret tt end.
Definition Now : R Z := call clock.

Definition cache_remove (did : string) : R unit := modify (λ r, set_cache (delete did (accountCache r)) r).
Definition cache_add (did : string) (a : Account) : R unit := modify (λ r, set_cache (<[did := a]> (accountCache r)) r).

End Primitives.
