(* ===== verification/RelayAccount.v ===== *)
(** * Accounts: [account.go], [models/methods.go], [source_quota.go] and the
      status lookup of [host_checker.go] in [src/cmd/relay/relay] *)

From S2P Require Import Prelude GoStrings Syntax Stream StateMonad Hostname Relay.
Local Open Scope Z_scope.

(** ** [models/methods.go] *)

Definition IsActive (a : Account) : bool :=
  (String.eqb (acc_Status a) AccountStatusActive || String.eqb (acc_Status a) AccountStatusThrottled)
  && String.eqb (acc_UpstreamStatus a) AccountStatusActive.

Definition Account_AccountStatus (a : Account) : string :=
  if negb (String.eqb (acc_Status a) AccountStatusActive) then
    if String.eqb (acc_Status a) AccountStatusHostThrottled then AccountStatusThrottled else acc_Status a
  else acc_UpstreamStatus a.

Definition StatusField (a : Account) : option string :=
  if IsActive a then None else Some (Account_AccountStatus a).

(** The [#account] message that describes an account; the log sets its number. *)
Definition accountMessage (a : Account) (time : string) : XRPCStreamEvent :=
  accountEvent (mkAccountMsg (IsActive a) (acc_DID a) 0 (StatusField a) time) (acc_UID a).

Definition did_is (did : string) (a : Account) : bool := String.eqb (acc_DID a) did.
Definition uid_is (uid : Z) (a : Account) : bool := acc_UID a =? uid.
Definition host_is (id : Z) (h : Host) : bool := host_ID h =? id.

Section Account.
Context `{Services}.

Definition GetAccount (did : string) : R Account :=
  cached ← gets (λ r, accountCache r !! did);
  match cached with
  | Some a => mret a
  | None =>
      row ← query (λ d, List.find (did_is did) (accounts d));
      match row with
      | None => sentinel_err ErrAccountNotFound
      | Some acc =>
          if acc_UID acc =? 0 then sentinel_err ErrAccountNotFound
          else cache_add did acc ;; mret acc
      end
  end.

(** Events and status changes of an account run under its event lock.  A lookup
    for an XRPC handler does not: others may run between its query and the [Add]. *)
Definition GetAccount_unlocked (between : R unit) (did : string) : R Account :=
  cached ← gets (λ r, accountCache r !! did);
  match cached with
  | Some a => mret a
  | None =>
      row ← query (λ d, List.find (did_is did) (accounts d));
      attempt between (λ _,
      match row with
      | None => sentinel_err ErrAccountNotFound
      | Some acc =>
          if acc_UID acc =? 0 then sentinel_err ErrAccountNotFound
          else cache_add did acc ;; mret acc
      end)
  end.

Lemma GetAccount_unlocked_alone did r : GetAccount_unlocked (mret tt) did r = GetAccount did r.
Proof.
  unfold GetAccount_unlocked, GetAccount, mbind, StateM_bind, attempt. simpl.
  destruct (accountCache r !! did); [done|]. by destruct (query _ r) as [r' [row|e]].
Qed.

Definition GetAccountRepo (uid : Z) : R AccountRepo :=
  row ← query (λ d, List.find (λ x, repo_UID x =? uid) (repos d));
  match row with None => sentinel_err ErrAccountRepoNotFound | Some x => mret x end.

Definition increment_count (hostID : Z) : R unit :=
  exec (λ d, set_hosts (update_where (host_is hostID) (λ h, host_set_AccountCount (host_AccountCount h + 1) h) (hosts d)) d).
Definition decrement_count (hostID : Z) : R unit :=
  exec (λ d, set_hosts (update_where (λ h, host_is hostID h && (0 <? host_AccountCount h))
    (λ h, host_set_AccountCount (host_AccountCount h - 1) h) (hosts d)) d).

(** [tx.First(&host, hostID)] *)
Definition first_host (hostID : Z) : R Host :=
  row ← query (λ d, List.find (host_is hostID) (hosts d));
  match row with None => throw (Errorf "record not found") | Some h => mret h end.

(** [tx.Create(&acc)]: the DID column is unique. *)
Definition create_account (acc : Account) : R Account :=
  dbop ;;
  d ← gets db;
  if existsb (did_is (acc_DID acc)) (accounts d) then throw (Errorf "UNIQUE constraint failed: account.did")
  else
    let acc := mkAccount (next_uid d) (acc_DID acc) (acc_HostID acc) (acc_Status acc) (acc_UpstreamStatus acc) in
    modify (λ r, set_db (add_account acc (db r)) r) ;; mret acc.

(** A nil identity without an error, which the directory's interface excludes,
    is an error here and in [EnsureAccountHost] and [EnsureAccountActive]; the
    source would dereference it. *)
Definition CreateAccountHost (did : string) (hostID : Z) (hostname : string) : R Account :=
  ident ← wrap "new account identity resolution" (LookupDID did);
  match ident with
  | None => throw (Errorf "nil identity")
  | Some ident =>
      if String.eqb (id_PDSEndpoint ident) "" then throw (Errorf "new account has no declared PDS")
      else
        match ParseHostname (id_PDSEndpoint ident) with
        | Err _ => throw (Errorf "new account PDS endpoint invalid")
        | Ok (pdsHostname, _) =>
            if negb (String.eqb pdsHostname hostname) && negb (SkipAccountHostCheck Config)
            then throw (Errorf "new account from a different host")
            else
              acc ← Transaction (
                wrap "failed to increment account count for host" (increment_count hostID) ;;
                host ← first_host hostID;
                let status :=
                  if host_AccountLimit host <? host_AccountCount host
                  then AccountStatusHostThrottled else AccountStatusActive in
                wrap "failed to create account"
                  (create_account (mkAccount 0 did hostID status AccountStatusActive)));
              cache_add did acc ;; mret acc
        end
  end.

(** [ParseHostname(ident.PDSEndpoint())] of a directory answer. *)
Definition resolve_pds (did : string) (msg : string) : R (Identity * string) :=
  ident ← wrap msg (LookupDID did);
  match ident with
  | None => throw (Errorf "nil identity")
  | Some ident =>
      match ParseHostname (id_PDSEndpoint ident) with
      | Err e => throw (Wrap "account PDS endpoint invalid" (Errorf e))
      | Ok (pdsHostname, _) => mret (ident, pdsHostname)
      end
  end.

(** The account as updated through the pointer is the result. *)
Definition EnsureAccountHost (acc : Account) (hostID : Z) (hostname : string) : R Account :=
  if acc_HostID acc =? hostID then mret acc
  else
    let did := acc_DID acc in
    '(_, pdsHostname) ← resolve_pds did "account identity resolution";
    pdsHostname ← (if negb (String.eqb pdsHostname hostname) then
        wrap "failed to purge identity cache" (Purge did) ;;
        '(_, pdsHostname) ← resolve_pds did "account identity resolution"; mret pdsHostname
      else mret pdsHostname);
    if negb (String.eqb pdsHostname hostname) then
      if SkipAccountHostCheck Config then mret acc
      else throw (Errorf "new account from a different host")
    else
      acc ← Transaction (
        wrap "failed to decrement account count for former host" (decrement_count (acc_HostID acc)) ;;
        wrap "failed to increment account count for host" (increment_count hostID) ;;
        host ← first_host hostID;
        let acc :=
          if String.eqb (acc_Status acc) AccountStatusActive || String.eqb (acc_Status acc) AccountStatusHostThrottled
          then acc_set_Status
            (if host_AccountLimit host <? host_AccountCount host
             then AccountStatusHostThrottled else AccountStatusActive) acc
          else acc in
        wrap "failed update account HostID" (exec (λ d, set_accounts (update_where (uid_is (acc_UID acc))
          (λ a, acc_set_Status (acc_Status acc) (acc_set_HostID hostID a)) (accounts d)) d)) ;;
        mret acc);
      cache_remove did ;;
      mret (acc_set_HostID hostID acc).

(** ** [host_checker.go] *)

Definition FetchAccountStatus (did : string) (ident : Identity) : R string :=
  if String.eqb (id_PDSEndpoint ident) "" then throw (Errorf "account does not declare a PDS")
  else
    info ← call (λ n, repo_status n (id_PDSEndpoint ident) did);
    match info with
    | Err msg => throw (Errorf msg)
    | Ok (true, _) => mret AccountStatusActive
    | Ok (false, Some s) =>
        mret (if existsb (String.eqb s) [AccountStatusDeactivated; AccountStatusDeleted;
                AccountStatusDesynchronized; AccountStatusSuspended; AccountStatusTakendown]
              then s else AccountStatusInactive)
    | Ok (false, None) => mret AccountStatusInactive
    end.

(** ** Status *)

Definition UpdateAccountUpstreamStatus (did : string) (uid : Z) (status : string) : R unit :=
  wrap "failed to update account upstream status" (exec (λ d,
    set_accounts (update_where (uid_is uid) (acc_set_UpstreamStatus status) (accounts d)) d)) ;;
  cache_remove did.

Definition EnsureAccountActive (acc : Account) : R Account :=
  if IsActive acc then mret acc
  else if negb (String.eqb (acc_Status acc) AccountStatusActive)
  then throw (Wrap "local status" (Sentinel ErrAccountInactive))
  else
    let did := acc_DID acc in
    ident ← wrap "account identity resolution" (LookupDID did);
    match ident with
    | None => throw (Errorf "nil identity")
    | Some ident =>
        status ← FetchAccountStatus did ident;
        acc ← (if negb (String.eqb (acc_UpstreamStatus acc) status) then
            UpdateAccountUpstreamStatus did (acc_UID acc) status ;;
            mret (acc_set_UpstreamStatus status acc)
          else mret acc);
        if IsActive acc then mret acc
        else throw (Wrap "upstream status" (Sentinel ErrAccountInactive))
    end.

Definition UpdateAccountLocalStatus (did : string) (status : string) (emitEvent : bool) (time : string) : R unit :=
  acc ← GetAccount did;
  exec (λ d, set_accounts (update_where (uid_is (acc_UID acc)) (acc_set_Status status) (accounts d)) d) ;;
  cache_remove did ;;
  let acc := acc_set_Status status acc in
  if emitEvent then wrap "failed to broadcast #account event" (AddEvent (accountMessage acc time))
  else mret tt.

Definition ListAccounts (cursor : Z) (limit : nat) : R (list Account) :=
  query (λ d, take limit (List.filter (λ a, (cursor <? acc_UID a) && String.eqb (acc_Status a) AccountStatusActive
    && String.eqb (acc_UpstreamStatus a) AccountStatusActive) (accounts d))).

Definition ListAccountTakedowns (cursor : Z) (limit : nat) : R (list Account) :=
  query (λ d, take limit (List.filter (λ a, (cursor <? acc_UID a)
    && String.eqb (acc_Status a) AccountStatusTakendown) (accounts d))).

(** [INSERT ... ON CONFLICT (uid) DO UPDATE] *)
Definition UpsertAccountRepo (uid : Z) (rev commitCID commitDataCID : string) : R unit :=
  exec (λ d, set_repos
    (let row := mkAccountRepo uid rev commitCID commitDataCID in
     if existsb (λ x, repo_UID x =? uid) (repos d)
     then update_where (λ x, repo_UID x =? uid) (λ _, row) (repos d)
     else repos d ++ [row]) d).

Definition DidToUid (did : string) : R Z := acc ← GetAccount did; mret (acc_UID acc).

(** ** [source_quota.go] *)

Definition throttled_on (hostID : Z) (a : Account) : bool :=
  (acc_HostID a =? hostID) && String.eqb (acc_Status a) AccountStatusHostThrottled
  && String.eqb (acc_UpstreamStatus a) AccountStatusActive.

Definition reactivateQuotaAccount (hostID : Z) (did time : string) : R unit :=
  row ← query (λ d, List.find (did_is did) (accounts d));
  match row with
  | None => throw (Errorf "record not found")
  | Some account =>
      if negb (throttled_on hostID account) then mret tt
      else
        AddEvent (accountEvent (mkAccountMsg true did 0 None time) (acc_UID account)) ;;
        attempt (
          dbop ;;
          n ← gets (λ r, count_where (λ a, uid_is (acc_UID account) a && throttled_on hostID a) (accounts (db r)));
          modify (λ r, set_db (set_accounts (update_where (λ a, uid_is (acc_UID account) a && throttled_on hostID a)
            (acc_set_Status AccountStatusActive) (accounts (db r))) (db r)) r) ;;
          mret n)
        (λ res,
          cache_remove did ;;
          match res with
          | Err e => throw e
          | Ok n => if n =? 1 then mret tt else throw (Errorf "quota recovery account changed during activation")
          end)
  end.

Fixpoint reactivate_all (hostID : Z) (time : string) (dids : list string) : R unit :=
  match dids with
  | [] => mret tt
  | did :: dids => reactivateQuotaAccount hostID did time ;; reactivate_all hostID time dids
  end.

(** Rows are created in increasing [uid], so the table is in the query's order. *)
Definition reactivateQuotaAccounts (hostID limit : Z) (time : string) : R unit :=
  reserved ← query (λ d, count_where (λ a, (acc_HostID a =? hostID) && negb (throttled_on hostID a)) (accounts d));
  let available := limit - reserved in
  if available <=? 0 then mret tt
  else
    rows ← query (λ d, take (Z.to_nat available) (List.filter (throttled_on hostID) (accounts d)));
    reactivate_all hostID time (map acc_DID rows).

End Account.
