(* ===== verification/RelayHost.v ===== *)
(** * Hosts and domain bans: [host.go], [domain_ban.go] and
      [source_transport.go] in [src/cmd/relay/relay] *)

From S2P Require Import Prelude GoStrings Syntax Stream StateMonad Hostname Relay RelayAccount.
Local Open Scope Z_scope.

Definition hostname_is (hostname : string) (h : Host) : bool := String.eqb (host_Hostname h) hostname.
Definition source_is (hostID : Z) (s : Source) : bool := src_HostID s =? hostID.

(** [segments[i:]] joined, for every [i] but the last: the host itself, then
    its parent domains. *)
Fixpoint domain_suffixes (segments : list string) : list string :=
  match segments with
  | [] | [_] => []
  | _ :: rest => Join "." segments :: domain_suffixes rest
  end.

Record HostCursor := mkCursor { cur_HostID : Z; cur_LastSeq : Z }.

(** [source_transport.go]; [testDial] says whether a test dialer is set.
    [acceptancePrivateHostsEnabled] is false in this build. *)
Definition sourceTransportAllowed (hostname : string) (noSSL testDial : bool) : result goerr unit :=
  if negb noSSL || (testDial && HasPrefix hostname "localhost:") then Ok tt
  else Err (Wrap "PDS sources require HTTPS" (Sentinel ErrInvalidSourceURL)).

Section Host.
Context `{Services}.

Definition GetHost (hostname : string) : R Host :=
  row ← query (λ d, List.find (hostname_is hostname) (hosts d));
  match row with
  | None => sentinel_err ErrHostNotFound
  | Some h => if host_ID h =? 0 then sentinel_err ErrHostNotFound else mret h
  end.

Definition GetHostByID (hostID : Z) : R Host :=
  row ← query (λ d, List.find (host_is hostID) (hosts d));
  match row with
  | None => sentinel_err ErrHostNotFound
  | Some h => if host_ID h =? 0 then sentinel_err ErrHostNotFound else mret h
  end.

Definition ListHosts (cursor : Z) (limit : nat) (everActive : bool) : R (list Host) :=
  query (λ d, take limit (List.filter (λ h, (cursor <? host_ID h) && (negb everActive || (0 <? host_LastSeq h))) (hosts d))).

Definition disable_banned (s : Source) : Source :=
  mkSource (src_HostID s) SourceStateDisabled (uint64 (src_Revision s + 1)) "ban" (src_ValidationStatus s)
    (src_ValidationCheckedAt s) (src_ValidationReason s) true (src_RecoveryPolicyRevision s).

Definition UpdateHostStatus (hostID : Z) (status : string) : R unit :=
  Transaction (
    (if String.eqb status HostStatusBanned then
       exec (λ d, set_sources (update_where
         (λ s, source_is hostID s && bool_decide (src_State s = SourceStateEnabled)) disable_banned (sources d)) d)
     else mret tt) ;;
    exec (λ d, set_hosts (update_where (host_is hostID) (host_set_Status status) (hosts d)) d)).

Definition UpdateHostAccountLimit (hostID accountLimit : Z) (time : string) : R unit :=
  if accountLimit <? 0 then throw (Errorf "negative account limit")
  else
    host ← GetHostByID hostID;
    let delta := accountLimit - host_AccountLimit host in
    exec (λ d, set_hosts (update_where (host_is hostID) (host_set_AccountLimit accountLimit) (hosts d)) d) ;;
    (if 0 <=? delta then reactivateQuotaAccounts (host_ID host) accountLimit time else mret tt) ;;
    connected ← gets (λ r, subs r !! host_Hostname host);
    match connected with
    | None => mret tt
    | Some _ =>
        e ← call (λ n, slurper_limits n (host_Hostname host));
        match e with Some msg => throw (Errorf msg) | None => mret tt end
    end.

Fixpoint persist_cursors (cursors : list HostCursor) : R unit :=
  match cursors with
  | [] => mret tt
  | cur :: cursors =>
      (if cur_LastSeq cur <=? 0 then mret tt
       else wrap "persisting host cursor" (exec (λ d, set_hosts (update_where
         (λ h, host_is (cur_HostID cur) h && (host_LastSeq h <? cur_LastSeq cur))
         (host_set_LastSeq (cur_LastSeq cur)) (hosts d)) d))) ;;
      persist_cursors cursors
  end.

Definition PersistHostCursors (cursors : list HostCursor) : R unit := Transaction (persist_cursors cursors).

Definition sourceURL (hostname : string) (noSSL : bool) : result goerr string :=
  match sourceTransportAllowed hostname noSSL (TestDialContext Config) with
  | Err e => Err e
  | Ok _ => Ok (BaseURL hostname noSSL)
  end.

(** ** [domain_ban.go] *)

Definition findDomainBan (domain : string) : R bool := query (λ d, existsb (String.eqb domain) (bans d)).

Fixpoint check_bans (domains : list string) : R bool :=
  match domains with
  | [] => mret false
  | d :: domains => found ← findDomainBan d; if found : bool then mret true else check_bans domains
  end.

Definition DomainIsBanned (hostname : string) : R bool :=
  if HasPrefix hostname "localhost:" then mret true
  else if ContainsByte ":" hostname then throw (Errorf "unexpected colon in hostname")
  else check_bans (domain_suffixes (Split "." hostname)).

Definition CreateDomainBan (domain : string) : R unit :=
  dbop ;;
  d ← gets db;
  if existsb (String.eqb domain) (bans d) then throw (Errorf "UNIQUE constraint failed: domain_bans.domain")
  else modify (λ r, set_db (set_bans (bans (db r) ++ [domain]) (db r)) r).

Definition RemoveDomainBan (domain : string) : R unit :=
  exec (λ d, set_bans (List.filter (λ b, negb (String.eqb b domain)) (bans d)) d).

Definition ListDomainBans : R (list string) := query bans.

Definition sourceDomainIsBanned (hostname : string) : R bool :=
  if HasPrefix hostname "localhost:" then mret false else DomainIsBanned hostname.

End Host.
