(* ===== verification/RelaySources.v ===== *)
(** * Managed sources: [sources.go] and [source_handoff.go] in
      [src/cmd/relay/relay]

    A source is a host with an administrator's desired state, a revision that
    fences concurrent changes, the outcome of its last admission check, and
    whether a recovery of its accounts is still owed.  Every transition queues
    a handoff that tells the Jetstream service about it. *)

From S2P Require Import Prelude GoStrings Syntax Stream StateMonad Hostname Relay RelayAccount RelayHost.
Local Open Scope Z_scope.

Definition defaultSourcePageLimit : Z := 100.
Definition maxSourcePageLimit : Z := 1000.
Definition admissionReasonHostAccountLimit : string := "host-account-limit".

Record SourceView := mkView {
  view_HostID : Z;
  view_Hostname : string;
  view_NoSSL : bool;
  view_DesiredState : SourceState;
  view_Revision : Z;
  view_ValidationStatus : SourceValidationStatus;
  view_RecoveryRequired : bool;
  view_HostStatus : string;
  view_RuntimeState : string;
  view_LastDurableCursor : Z;
  view_QuotaLimit : Z;
  view_QuotaCount : Z;
  view_Handoff : option SourceHandoff;
}.

Record RecoveryReceiptInput := mkReceiptInput {
  in_PDS : string;
  in_SourceRevision : Z;
  in_PolicyRevision : Z;
  in_JobID : string;
  in_DurableBoundary : string;
}.

Record RecoveryPolicyAdvanceInput := mkAdvanceInput {
  adv_PDS : string;
  adv_SourceRevision : Z;
  adv_PolicyRevision : Z;
}.

Definition sourcePageLimit (limit : Z) : Z :=
  if limit <=? 0 then defaultSourcePageLimit
  else if maxSourcePageLimit <? limit then maxSourcePageLimit else limit.

Definition coordinate_char (c : ascii) : bool :=
  is_alnum c || existsb (Ascii.eqb c) ["-"; "_"; "."; ":"]%char.
Definition validRecoveryCoordinate (value : string) (maximum : Z) : bool :=
  negb ((len value =? 0) || (maximum <? len value)) && str_forall coordinate_char value.

Definition validRecoveryReceiptInput (input : RecoveryReceiptInput) : bool :=
  negb ((in_SourceRevision input =? 0) || (in_PolicyRevision input =? 0)
    || negb (validRecoveryCoordinate (in_JobID input) 128)
    || negb (validRecoveryCoordinate (in_DurableBoundary input) 256)).

(** Column updates of a source. *)
Definition src_update (state : SourceState) (revision : Z) (op : string) (s : Source) : Source :=
  mkSource (src_HostID s) state revision op (src_ValidationStatus s) (src_ValidationCheckedAt s)
    (src_ValidationReason s) true (src_RecoveryPolicyRevision s).
Definition src_validated (status : SourceValidationStatus) (reason : SourceValidationReason) (now revision : Z) (s : Source) : Source :=
  mkSource (src_HostID s) (src_State s) revision "validate" status (Some now) reason true (src_RecoveryPolicyRevision s).
Definition src_set_recovery (required : bool) (s : Source) : Source :=
  mkSource (src_HostID s) (src_State s) (src_Revision s) (src_LastOperation s) (src_ValidationStatus s)
    (src_ValidationCheckedAt s) (src_ValidationReason s) required (src_RecoveryPolicyRevision s).
Definition src_advance (policy : Z) (s : Source) : Source :=
  mkSource (src_HostID s) (src_State s) (src_Revision s) (src_LastOperation s) (src_ValidationStatus s)
    (src_ValidationCheckedAt s) (src_ValidationReason s) true policy.

Definition handoff_is (hostID : Z) (h : SourceHandoff) : bool := hand_HostID h =? hostID.
Definition sourceHostURL (h : Host) : string := BaseURL (host_Hostname h) (host_NoSSL h).

Definition is_enabled (s : Source) : bool := bool_decide (src_State s = SourceStateEnabled).
Definition is_passed (s : Source) : bool := bool_decide (src_ValidationStatus s = SourceValidationPassed).
Definition host_banned (h : Host) : bool := String.eqb (host_Status h) HostStatusBanned.

Section Sources.
Context `{Services}.

(** ** Handoff queue *)

Definition enqueueSourceHandoff (host : Host) (revision : Z) (state : SourceState) : R unit :=
  attempt (query (λ d, List.find (handoff_is (host_ID host)) (handoffs d))) (λ existing,
    match existing with
    | Ok (Some h) =>
        if (hand_SourceRevision h =? revision) && String.eqb (hand_State h) (SourceState_string state)
        then mret true else mret false
    | _ => mret false
    end) ≫= λ same,
  if same : bool then mret tt
  else
    now ← Now;
    let row := mkHandoff (host_ID host) (sourceHostURL host) revision (SourceState_string state) 0 now in
    exec (λ d, set_handoffs (if existsb (handoff_is (host_ID host)) (handoffs d)
      then update_where (handoff_is (host_ID host)) (λ _, row) (handoffs d)
      else handoffs d ++ [row]) d).

(** ** Slurper *)

Definition Slurper_SourceState (r : Relay) (hostname : string) : string :=
  default "configured"%string (subs r !! hostname).

(** A subscription that finishes has removed itself; the cursor it writes at
    its end is a [PersistHostCursors] of its own. *)
Definition Slurper_StopSource (hostname : string) : R unit :=
  connected ← gets (λ r, subs r !! hostname);
  match connected with
  | None => mret tt
  | Some _ =>
      finished ← call (λ n, slurper_stop n hostname);
      match finished with
      | Err msg => throw (Errorf msg)
      | Ok finishErr =>
          modify (λ r, set_subs (delete hostname (subs r)) r) ;;
          match finishErr with Some msg => throw (Errorf msg) | None => mret tt end
      end
  end.

(** [Subscribe]: a live subscription is kept.  That the slurper is shut down or
    the old subscription still draining is the service's answer. *)
Definition Slurper_Subscribe (host : Host) : R unit :=
  lift (sourceTransportAllowed (host_Hostname host) (host_NoSSL host) (TestDialContext Config)) ;;
  e ← call (λ n, slurper_subscribe n (host_Hostname host));
  match e with
  | Some msg => throw (Errorf msg)
  | None => modify (λ r, match subs r !! host_Hostname host with
      | Some _ => r
      | None => set_subs (<[host_Hostname host := "configured"%string]> (subs r)) r end)
  end.

(** ** Views and reconciliation *)

Definition sourceAndHostLocked (hostID : Z) : R (Source * Host) :=
  source ← wrap "loading source" (query (λ d, List.find (source_is hostID) (sources d)));
  match source with
  | None => sentinel_err ErrSourceNotFound
  | Some source =>
      host ← wrap "loading source host" (query (λ d, List.find (host_is hostID) (hosts d)));
      match host with
      | None => throw (Errorf "managed source has no host row")
      | Some host => mret (source, host)
      end
  end.

Definition sourceViewLocked (source : Source) (host : Host) : R SourceView :=
  if negb (src_HostID source =? host_ID host) then throw (Errorf "invalid source view")
  else
    state ← gets (λ r, Slurper_SourceState r (host_Hostname host));
    let runtimeState :=
      if negb (is_enabled source) then "disabled"%string
      else if String.eqb state "configured"
              && (bool_decide (src_ValidationStatus source = SourceValidationFailed)
                  || String.eqb (host_Status host) HostStatusOffline || host_banned host)
      then "failing"%string else state in
    attempt (query (λ d, List.find (handoff_is (src_HostID source)) (handoffs d))) (λ row,
      mret (mkView (host_ID host) (host_Hostname host) (host_NoSSL host) (src_State source) (src_Revision source)
        (src_ValidationStatus source) (src_RecoveryRequired source) (host_Status host) runtimeState
        (host_LastSeq host) (host_AccountLimit host) (host_AccountCount host)
        (match row with Ok h => h | Err _ => None end))).

Definition requireRateAdmission : R unit :=
  e ← call rate_admission; match e with Some msg => throw (Errorf msg) | None => mret tt end.

Definition reconcileSourceLocked (source : Source) (host : Host) : R unit :=
  (if is_enabled source && is_passed source then
     match sourceURL (host_Hostname host) (host_NoSSL host) with
     | Err e => Slurper_StopSource (host_Hostname host) ;; throw e
     | Ok _ => mret tt
     end
   else mret tt) ;;
  match src_State source with
  | SourceStateEnabled =>
      banned ← sourceDomainIsBanned (host_Hostname host);
      if negb (is_passed source) || banned || host_banned host then Slurper_StopSource (host_Hostname host)
      else
        requireRateAdmission ;;
        wrap "starting source" (Slurper_Subscribe host)
  | SourceStateDisabled | SourceStateRemoved => wrap "stopping source" (Slurper_StopSource (host_Hostname host))
  end.

(** The view after an operation; on a failed reconciliation the caller gets the
    error (with the earlier view, which is left out here). *)
Definition reconcile_and_view (source : Source) (host : Host) : R SourceView :=
  sourceViewLocked source host ;; reconcileSourceLocked source host ;; sourceViewLocked source host.

(** ** Adding a source *)

Definition ensureSourceHost (hostname : string) (noSSL : bool) : R Host :=
  row ← wrap "loading source host" (query (λ d, List.find (hostname_is hostname) (hosts d)));
  match row with
  | Some h => mret h
  | None =>
      let trusted := IsTrustedHostname hostname (TrustedDomains Config) in
      let limit := if trusted then TrustedRepoLimit Config else DefaultRepoLimit Config in
      wrap "creating source host" dbop ;;
      id ← gets (λ r, next_host (db r));
      let h := mkHost id hostname noSSL limit trusted HostStatusActive (-1) 0 in
      modify (λ r, set_db (add_host h (db r)) r) ;; mret h
  end.

Definition ensureSourceRow (host : Host) : R Source :=
  row ← wrap "loading source" (query (λ d, List.find (source_is (host_ID host)) (sources d)));
  match row with
  | Some s => mret s
  | None =>
      let state := if host_banned host then SourceStateDisabled else SourceStateEnabled in
      let s := mkSource (host_ID host) state 1 "add" SourceValidationPending None SourceValidationReasonNone true 0 in
      wrap "creating source" (exec (λ d, set_sources (sources d ++ [s]) d)) ;; mret s
  end.

(** The join of [source] with [host] by name. *)
Definition source_of_hostname (hostname : string) (d : DB) : option Source :=
  List.find (λ s, existsb (λ h, host_is (src_HostID s) h && hostname_is hostname h) (hosts d)) (sources d).

Definition loadOrCreateSource (hostname : string) (noSSL public : bool) : R (Host * Source) :=
  found ← wrap "loading source" (query (source_of_hostname hostname));
  match found with
  | Some source =>
      host ← wrap "loading source host" (first_host (src_HostID source)); mret (host, source)
  | None =>
      allowed ← (if public then call limiter_allow else mret true);
      if negb allowed then sentinel_err ErrNewHostsDisabled
      else
        host ← ensureSourceHost hostname noSSL;
        source ← ensureSourceRow host;
        mret (host, source)
  end.

Definition addSource (rawURL : string) (public : bool) : R SourceView :=
  match ParseHostname rawURL with
  | Err _ => sentinel_err ErrInvalidSourceURL
  | Ok (hostname, noSSL) =>
      lift (sourceURL hostname noSSL) ;;
      banned ← wrap "checking source domain" (sourceDomainIsBanned hostname);
      if banned : bool then sentinel_err ErrSourceDomainBanned
      else
        '(host, source) ← Transaction (
          hs ← loadOrCreateSource hostname noSSL public;
          lift (sourceURL (host_Hostname hs.1) (host_NoSSL hs.1)) ;; mret hs);
        reconcile_and_view source host
  end.

Definition AddSource (rawURL : string) : R SourceView := addSource rawURL false.
Definition AddPublicSource (rawURL : string) : R SourceView := addSource rawURL true.

(** ** Validation *)

Definition beginSourceCheck (hostID : Z) : R unit :=
  checks ← gets publicChecks;
  if bool_decide (hostID ∈ checks) then sentinel_err ErrSourceRevisionConflict
  else modify (λ r, set_checks ({[hostID]} ∪ publicChecks r) r).

Definition endSourceCheck (hostID : Z) : R unit :=
  modify (λ r, set_checks (publicChecks r ∖ {[hostID]}) r).

Definition CheckHost (url : string) : R unit :=
  e ← call (λ n, describe_server n url);
  match e with Some msg => throw (Wrap msg (Sentinel ErrHostNotPDS)) | None => mret tt end.

Definition replaySourceValidationLocked (source : Source) (host : Host) : R SourceView :=
  attempt (reconcileSourceLocked source host) (λ reconcileErr,
  attempt (sourceViewLocked source host) (λ view,
    match reconcileErr, view with
    | Err e, _ => throw e
    | _, Err e => throw e
    | _, Ok view =>
        if bool_decide (src_ValidationStatus source = SourceValidationFailed)
        then sentinel_err ErrSourceValidationFailed else mret view
    end)).

(** The conditional update of a source row, with the effect of [RowsAffected]. *)
Definition update_source (p : Source → bool) (f : Source → Source) (conflict : sentinel) : R unit :=
  dbop ;;
  n ← gets (λ r, count_where p (sources (db r)));
  modify (λ r, set_db (set_sources (update_where p f (sources (db r))) (db r)) r) ;;
  if n =? 1 then mret tt else sentinel_err conflict.

Definition finalizeSourceValidation (hostID revision : Z) (status : SourceValidationStatus) (reason : SourceValidationReason)
  : R SourceView :=
  attempt (sourceAndHostLocked hostID) (λ loaded,
    match loaded with
    | Err _ => sentinel_err ErrSourceRevisionConflict
    | Ok (current, host) =>
        if negb (src_Revision current =? revision) || negb (is_enabled current) then
          (if negb (is_enabled current)
           then catch (Transaction (enqueueSourceHandoff host (src_Revision current) (src_State current))) (λ _, mret tt)
           else mret tt) ;;
          sentinel_err ErrSourceRevisionConflict
        else
          now ← Now;
          let updatedRevision := uint64 (revision + 1) in
          catch (Transaction (
            update_source (λ s, source_is (src_HostID current) s && (src_Revision s =? revision) && is_enabled s)
              (src_validated status reason now updatedRevision) ErrSourceRevisionConflict ;;
            enqueueSourceHandoff host updatedRevision
              (if bool_decide (status = SourceValidationPassed) then SourceStateEnabled else SourceStateDisabled)))
            (λ e, if errors_Is e ErrSourceRevisionConflict then throw e else throw (Wrap "saving source validation" e)) ;;
          let source := src_validated status reason now updatedRevision current in
          sourceViewLocked source host ;;
          reconcileSourceLocked source host ;;
          if bool_decide (status = SourceValidationFailed) then sentinel_err ErrSourceValidationFailed
          else sourceViewLocked source host
    end).

(** [ValidateSource]; the lock is not held during the network check, and
    [between] is what other callers do meanwhile.  The host checker is set. *)
Definition ValidateSource (between : R unit) (hostID expectedRevision : Z) : R SourceView :=
  '(source, host) ← sourceAndHostLocked hostID;
  if negb (src_Revision source =? expectedRevision) then
    if (src_Revision source =? uint64 (expectedRevision + 1)) && String.eqb (src_LastOperation source) "validate"
       && is_enabled source
    then replaySourceValidationLocked source host
    else sentinel_err ErrSourceRevisionConflict
  else
    beginSourceCheck hostID ;;
    attempt (match sourceURL (host_Hostname host) (host_NoSSL host) with
             | Err e => throw e
             | Ok url => CheckHost url
             end) (λ checked,
      attempt between (λ _,
        attempt (finalizeSourceValidation hostID (src_Revision source)
          (match checked with Ok _ => SourceValidationPassed | Err _ => SourceValidationFailed end)
          (match checked with Ok _ => SourceValidationReasonNone | Err _ => SourceValidationReasonHostCheckFailed end))
        (λ res, endSourceCheck hostID ;; lift res))).

(** ** Desired state *)

Definition checkSourceEnablement (source : Source) (host : Host) : R unit :=
  lift (sourceURL (host_Hostname host) (host_NoSSL host)) ;;
  if negb (is_passed source) then sentinel_err ErrSourceValidationFailed
  else
    banned ← sourceDomainIsBanned (host_Hostname host);
    if banned || host_banned host then sentinel_err ErrSourceDomainBanned else mret tt.

(** The states are those of [validSourceState], so that test always passes. *)
Definition SetSourceState (hostID expectedRevision : Z) (state : SourceState) : R SourceView :=
  '(source, host) ← sourceAndHostLocked hostID;
  let operation := ("state:" ++ SourceState_string state)%string in
  if negb (src_Revision source =? expectedRevision)
     && negb ((src_Revision source =? uint64 (expectedRevision + 1)) && String.eqb (src_LastOperation source) operation)
  then sentinel_err ErrSourceRevisionConflict
  else
    (if bool_decide (state = SourceStateEnabled) then checkSourceEnablement source host else mret tt) ;;
    (if bool_decide (src_State source = state) && bool_decide (state = SourceStateEnabled) && is_passed source then
       handoff ← wrap "loading source handoff" (query (λ d, List.find (handoff_is (src_HostID source)) (handoffs d)));
       let queue := wrap "queuing source handoff" (Transaction (enqueueSourceHandoff host (src_Revision source) state)) in
       match handoff with
       | None => queue
       | Some h =>
           if negb (hand_SourceRevision h =? src_Revision source) || negb (String.eqb (hand_State h) (SourceState_string state))
           then queue else mret tt
       end
     else mret tt) ;;
    source ← (if negb (bool_decide (src_State source = state)) then
        let revision := uint64 (src_Revision source + 1) in
        catch (Transaction (
          update_source (λ s, source_is (src_HostID source) s && (src_Revision s =? src_Revision source))
            (src_update state revision operation) ErrSourceRevisionConflict ;;
          enqueueSourceHandoff host revision state))
          (λ e, if errors_Is e ErrSourceRevisionConflict then throw e else throw (Wrap "saving source state" e)) ;;
        mret (src_update state revision operation source)
      else mret source);
    sourceViewLocked source host ;;
    reconcileSourceLocked source host ;;
    host ← GetHostByID (src_HostID source);
    sourceViewLocked source host.

Definition SetSourceBlocked (hostname : string) (blocked : bool) : R unit :=
  host ← GetHost hostname;
  '(source, host) ← sourceAndHostLocked (host_ID host);
  let state := if blocked then SourceStateDisabled else SourceStateEnabled in
  let status := if blocked then HostStatusBanned else HostStatusActive in
  (if blocked then mret tt
   else
     banned ← sourceDomainIsBanned hostname;
     if banned : bool then sentinel_err ErrSourceDomainBanned
     else if negb (is_passed source) then sentinel_err ErrSourceValidationFailed else mret tt) ;;
  if bool_decide (src_State source = state) && String.eqb (host_Status host) status then
    if blocked then reconcileSourceLocked source host
    else Transaction (enqueueSourceHandoff host (src_Revision source) state)
  else
    let revision := uint64 (src_Revision source + 1) in
    Transaction (
      exec (λ d, set_hosts (update_where (host_is (host_ID host)) (host_set_Status status) (hosts d)) d) ;;
      update_source (λ s, source_is (host_ID host) s && (src_Revision s =? src_Revision source))
        (src_update state revision "block") ErrSourceRevisionConflict ;;
      enqueueSourceHandoff host revision state) ;;
    reconcileSourceLocked (mkSource (src_HostID source) state revision (src_LastOperation source) (src_ValidationStatus source)
      (src_ValidationCheckedAt source) (src_ValidationReason source) (src_RecoveryRequired source)
      (src_RecoveryPolicyRevision source)) (host_set_Status status host).

(** ** Recovery *)

(** The host row a PDS URL names, with its source. *)
Definition source_by_url (pds : string) (msg : string) : R (Source * Host) :=
  match ParseHostname pds with
  | Err _ => sentinel_err ErrInvalidRecoveryReceipt
  | Ok (hostname, noSSL) =>
      row ← wrap msg (query (λ d, List.find (hostname_is hostname) (hosts d)));
      match row with
      | None => sentinel_err ErrSourceNotFound
      | Some host =>
          if negb (Bool.eqb (host_NoSSL host) noSSL) then sentinel_err ErrInvalidRecoveryReceipt
          else sourceAndHostLocked (host_ID host)
      end
  end.

(** [OnConflict DoNothing] on the unique index over the versioned boundary. *)
Definition same_boundary (a b : RecoveryReceipt) : bool :=
  String.eqb (rr_PDS a) (rr_PDS b) && (rr_SourceRevision a =? rr_SourceRevision b)
  && (rr_PolicyRevision a =? rr_PolicyRevision b) && String.eqb (rr_JobID a) (rr_JobID b)
  && String.eqb (rr_DurableBoundary a) (rr_DurableBoundary b).
Definition insert_receipt (x : RecoveryReceipt) (rows : list RecoveryReceipt) : list RecoveryReceipt :=
  if existsb (same_boundary x) rows then rows else rows ++ [x].

Definition AcknowledgeSourceRecovery (input : RecoveryReceiptInput) : R SourceView :=
  if negb (validRecoveryReceiptInput input) then sentinel_err ErrInvalidRecoveryReceipt
  else
    '(source, host) ← source_by_url (in_PDS input) "loading receipt source host";
    if negb (is_enabled source) || negb (src_Revision source =? in_SourceRevision input)
       || (negb (src_RecoveryPolicyRevision source =? 0) && negb (src_RecoveryPolicyRevision source =? in_PolicyRevision input))
    then sentinel_err ErrRecoveryReceiptConflict
    else
      let receipt := mkReceipt (sourceHostURL host) (host_ID host) (in_SourceRevision input)
        (in_PolicyRevision input) (in_JobID input) (in_DurableBoundary input) in
      Transaction (
        wrap "saving recovery receipt" (exec (λ d, set_receipts (insert_receipt receipt (receipts d)) d)) ;;
        catch (update_source (λ s, source_is (src_HostID source) s && (src_Revision s =? in_SourceRevision input) && is_enabled s)
          (src_set_recovery false) ErrRecoveryReceiptConflict)
          (λ e, if errors_Is e ErrRecoveryReceiptConflict then throw e else throw (Wrap "clearing recovered source" e))) ;;
      sourceViewLocked (src_set_recovery false source) host.

Definition AdvanceSourceRecoveryPolicy (input : RecoveryPolicyAdvanceInput) : R SourceView :=
  if (adv_SourceRevision input =? 0) || (adv_PolicyRevision input =? 0) then sentinel_err ErrInvalidRecoveryReceipt
  else
    '(source, host) ← source_by_url (adv_PDS input) "loading policy source host";
    if negb (is_enabled source) || negb (src_Revision source =? adv_SourceRevision input)
       || (adv_PolicyRevision input <? src_RecoveryPolicyRevision source)
    then sentinel_err ErrRecoveryReceiptConflict
    else
      source ← (if src_RecoveryPolicyRevision source <? adv_PolicyRevision input then
          Transaction (
            catch (update_source (λ s, source_is (src_HostID source) s && (src_Revision s =? adv_SourceRevision input)
                && is_enabled s && (src_RecoveryPolicyRevision s <? adv_PolicyRevision input))
              (src_advance (adv_PolicyRevision input)) ErrRecoveryReceiptConflict)
            (λ e, if errors_Is e ErrRecoveryReceiptConflict then throw e else throw (Wrap "advancing source recovery policy" e))) ;;
          mret (src_advance (adv_PolicyRevision input) source)
        else mret source);
      sourceViewLocked source host.

(** ** Observations *)

Definition ObserveAccountSource (didStr : string) (sourceHostID : Z) (resolvedHost : string) : R unit :=
  match ParseDID didStr with
  | Err _ => sentinel_err ErrInvalidSourceURL
  | Ok did =>
      match ParseHostname resolvedHost with
      | Err _ => sentinel_err ErrInvalidSourceURL
      | Ok (resolvedHostname, _) =>
          source ← wrap "loading observed source" (query (λ d, List.find (source_is sourceHostID) (sources d)));
          match source with
          | None => sentinel_err ErrSourceNotFound
          | Some _ =>
              let normalizedDID := NormalizeDID did in
              account ← wrap "loading observed account" (query (λ d, List.find (did_is normalizedDID) (accounts d)));
              let admissionReason :=
                match account with
                | Some a => if String.eqb (acc_Status a) AccountStatusHostThrottled
                            then admissionReasonHostAccountLimit else ""%string
                | None => ""%string
                end in
              now ← Now;
              let observation := mkObservation normalizedDID sourceHostID resolvedHostname now now admissionReason in
              let is_did o := String.eqb (obs_DID o) normalizedDID in
              let same o := is_did o && (obs_ObservedHostID o =? sourceHostID) in
              wrap "saving source observation" (Transaction (
                exec (λ d, set_observations (update_where is_did (λ o, mkObservation (obs_DID o) (obs_ObservedHostID o)
                  resolvedHostname (obs_ObservedAt o) now (obs_AdmissionReason o)) (observations d)) d) ;;
                exec (λ d, set_observations (if existsb same (observations d)
                  then update_where same (λ _, observation) (observations d)
                  else observations d ++ [observation]) d)))
          end
      end
  end.

(** ** Listing *)

(** [Order("host_id ASC")] *)
Fixpoint insert_source (s : Source) (rows : list Source) : list Source :=
  match rows with
  | [] => [s]
  | s' :: rows' => if src_HostID s <=? src_HostID s' then s :: rows else s' :: insert_source s rows'
  end.
Definition order_sources (rows : list Source) : list Source := foldr insert_source [] rows.

Fixpoint view_sources (hs : list Host) (rows : list Source) : R (list SourceView) :=
  match rows with
  | [] => mret []
  | s :: rows =>
      match List.find (host_is (src_HostID s)) hs with
      | None => throw (Errorf "managed source has no host row")
      | Some host => view ← sourceViewLocked s host; views ← view_sources hs rows; mret (view :: views)
      end
  end.

(** [ListSources]: the page and [NextAfterHostID], zero on the last page. *)
Definition ListSources (afterHostID limit : Z) : R (list SourceView * Z) :=
  let limit := Z.to_nat (sourcePageLimit limit) in
  rows ← wrap "listing sources" (query (λ d,
    take (S limit) (order_sources (List.filter (λ s, afterHostID <? src_HostID s) (sources d)))));
  let more := (limit <? length rows)%nat in
  let next := if more then default 0 (src_HostID <$> (rows !! pred limit)) else 0 in
  let rows := if more then take limit rows else rows in
  hs ← (if (length rows =? 0)%nat then mret []
        else wrap "loading source hosts" (query (λ d,
          List.filter (λ h, existsb (λ s, source_is (host_ID h) s) rows) (hosts d))));
  views ← view_sources hs rows;
  mret (views, next).

Definition InspectSource (rawURL : string) : R SourceView :=
  match ParseHostname rawURL with
  | Err _ => sentinel_err ErrInvalidSourceURL
  | Ok (hostname, _) =>
      row ← query (λ d, List.find (hostname_is hostname) (hosts d));
      match row with
      | None => sentinel_err ErrSourceNotFound
      | Some host => '(source, host) ← sourceAndHostLocked (host_ID host); sourceViewLocked source host
      end
  end.

(** ** [source_quota.go] *)

Definition maxSafeInteger : Z := 9007199254740991.

Definition SetSourceAccountQuota (rawURL : string) (expected limit : Z) (time : string) : R SourceView :=
  if (expected <? 0) || (limit <? 0) || (maxSafeInteger <? expected) || (maxSafeInteger <? limit)
  then sentinel_err ErrInvalidAccountQuota
  else
    match ParseHostname rawURL with
    | Err _ => sentinel_err ErrInvalidSourceURL
    | Ok (hostname, noSSL) =>
        row ← query (λ d, List.find (hostname_is hostname) (hosts d));
        match row with
        | None => sentinel_err ErrSourceNotFound
        | Some host =>
            '(source, _) ← sourceAndHostLocked (host_ID host);
            if negb (Bool.eqb (host_NoSSL host) noSSL) then sentinel_err ErrInvalidSourceURL
            else if negb (host_AccountLimit host =? expected) && negb (host_AccountLimit host =? limit)
            then sentinel_err ErrSourceRevisionConflict
            else
              UpdateHostAccountLimit (host_ID host) limit time ;;
              sourceViewLocked source (host_set_AccountLimit limit host)
        end
    end.

(** ** Delivering handoffs *)

Definition normalizeHandoffState (state : string) : string :=
  if String.eqb state (SourceState_string SourceStateEnabled)
  then SourceState_string SourceStateEnabled else SourceState_string SourceStateDisabled.

(** The state a handoff should carry for a source row and its host. *)
Definition effectiveState (s : Source) (h : Host) : SourceState :=
  if is_enabled s && is_passed s && negb (host_banned h) then SourceStateEnabled else SourceStateDisabled.

Definition superseded (s : Source) (h : Host) (row : SourceHandoff) : bool :=
  negb (src_Revision s =? hand_SourceRevision row)
  || negb (String.eqb (normalizeHandoffState (SourceState_string (effectiveState s h))) (normalizeHandoffState (hand_State row))).

(** Whether the source row of a handoff no longer wants it: a handoff of a host
    without a source row is kept; [None] when the host row is missing. *)
Definition handoff_superseded (row : SourceHandoff) : R (option bool) :=
  attempt (query (λ d, List.find (source_is (hand_HostID row)) (sources d))) (λ source,
  attempt (query (λ d, List.find (host_is (hand_HostID row)) (hosts d))) (λ host,
    match source with
    | Ok None => mret (Some false)
    | Err e => throw e
    | Ok (Some s) =>
        match host with
        | Err e => throw e
        | Ok None => mret None
        | Ok (Some h) => mret (Some (superseded s h row))
        end
    end)).

Definition same_attempt (queued h : SourceHandoff) : bool :=
  handoff_is (hand_HostID queued) h && (hand_SourceRevision h =? hand_SourceRevision queued)
  && String.eqb (hand_State h) (hand_State queued) && (hand_Attempts h =? hand_Attempts queued).

Definition retry_delay (attempts : Z) : Z :=
  let shift := if 10 <? attempts - 1 then 10 else attempts - 1 in
  Z.min (1000000 * Z.shiftl 1 shift) (15 * 60 * 1000000).

(** One turn of the loop of [ProcessSourceHandoffs].  [send] is the delivery,
    [between] what other callers do while the lock is released for it.  [err ==
    gorm.ErrRecordNotFound], which ends the turn, is the result [None]. *)
Definition process_handoff (send : SourceHandoff → nat → option string) (between : R unit) (queued : SourceHandoff) : R unit :=
  current ← query (λ d, List.find (same_attempt queued) (handoffs d));
  match current with
  | None => mret tt
  | Some current =>
      stale ← handoff_superseded current;
      match stale with
      | None => mret tt
      | Some true =>
        catch (exec (λ d, set_handoffs (List.filter (λ h, negb (handoff_is (hand_HostID current) h
          && (hand_SourceRevision h =? hand_SourceRevision current))) (handoffs d)) d)) (λ _, mret tt)
      | Some false =>
        now ← Now;
        if now <? hand_NextRetryAt current then mret tt
        else
          failed ← call (send current);
          attempt between (λ _,
            failed ← (match failed with
              | Some e => mret (Some e)
              | None =>
                  stale ← handoff_superseded current;
                  match stale with
                  | None => throw (Errorf "record not found")
                  | Some stale => mret (if stale : bool then Some "source handoff superseded during delivery"%string else None)
                  end
              end);
            match failed with
            | None => exec (λ d, set_handoffs (List.filter (λ h, negb (same_attempt current h)) (handoffs d)) d)
            | Some _ =>
                let attempts := hand_Attempts current + 1 in
                now ← Now;
                exec (λ d, set_handoffs (update_where (same_attempt current) (λ h, mkHandoff (hand_HostID h) (hand_PDS h)
                  (hand_SourceRevision h) (hand_State h) attempts (now + retry_delay attempts)) (handoffs d)) d)
            end)
      end
  end.

(** [Order("next_retry_at, host_id")] *)
Fixpoint insert_handoff (h : SourceHandoff) (rows : list SourceHandoff) : list SourceHandoff :=
  match rows with
  | [] => [h]
  | h' :: rows' =>
      if (hand_NextRetryAt h <? hand_NextRetryAt h')
         || ((hand_NextRetryAt h =? hand_NextRetryAt h') && (hand_HostID h <=? hand_HostID h'))
      then h :: rows else h' :: insert_handoff h rows'
  end.

Fixpoint process_handoffs (send : SourceHandoff → nat → option string) (between : R unit) (due : list SourceHandoff) : R unit :=
  match due with
  | [] => mret tt
  | queued :: due => process_handoff send between queued ;; process_handoffs send between due
  end.

Definition ProcessSourceHandoffs (send : SourceHandoff → nat → option string) (between : R unit) : R unit :=
  due ← query (λ d, take 100 (foldr insert_handoff [] (handoffs d)));
  process_handoffs send between due.

End Sources.
