(* ===== verification/RelayVerify.v ===== *)
(** * Commit verification: [verify.go] in [src/cmd/relay/relay] *)

From S2P Require Import Prelude GoStrings Syntax Tid Datetime Stream StateMonad Cbor Repo Relay.
Local Open Scope Z_scope.

Definition futureRevTolerance : Z := 5 * 60 * 1000000.   (* microseconds *)
Definition MaxMessageBlocksBytes : Z := 2000000.
Definition MaxCommitOps : Z := 200.

Definition rejectionReasonMalformedEvent : string := "malformed_event".
Definition rejectionReasonMalformedCommit : string := "malformed_commit".
Definition rejectionReasonInvalidCommit : string := "invalid_commit".
Definition rejectionReasonInvalidMST : string := "invalid_mst".
Definition rejectionReasonInvalidSignature : string := "invalid_signature".

Definition permanent {A} (reason msg : string) : R A := throw (permanentEventError reason (Errorf msg)).

Section Verify.
Context `{Services}.

(** The commit pointer comes from a successful [LoadCommitFromCAR] and is not
    nil. *)
Definition VerifyCommitObject (commit : RepoCommit) (ident : option Identity) : R unit :=
  match VerifyStructure commit with
  | Err e => permanent rejectionReasonMalformedCommit e
  | Ok _ =>
      match ParseTID (rc_Rev commit) with
      | Err e => permanent rejectionReasonMalformedCommit ("commit rev syntax: " ++ e)%string
      | Ok rev =>
          now ← Now;
          if now + futureRevTolerance <? TID_Time rev then throw (Wrap "future rev" (Sentinel ErrFutureRev))
          else
            match ident with
            | None => sentinel_err ErrIdentityUnavailable
            | Some ident =>
                match id_PublicKey ident with
                | Err _ => throw (Wrap "parse atproto public key" (Sentinel ErrIdentityUnavailable))
                | Ok pubkey =>
                    match Commit_VerifySignature pubkey commit with
                    | Some _ => sentinel_err ErrCommitSignature
                    | None => mret tt
                    end
                end
            end
      end
  end.

Definition verifyCommitObjectWithRefresh (commit : RepoCommit) (ident : option Identity) (expectedDID : string) : R unit :=
  if negb (String.eqb (rc_DID commit) expectedDID)
  then permanent rejectionReasonInvalidCommit "mismatched inner commit DID field"
  else
    catch (VerifyCommitObject commit ident) (λ err,
      if negb (errors_Is err ErrCommitSignature) && negb (errors_Is err ErrIdentityUnavailable)
      then throw err
      else
        catch (Purge expectedDID) (λ _, sentinel_err ErrIdentityRefresh) ;;
        refreshed ← catch (LookupDID expectedDID) (λ _, sentinel_err ErrIdentityRefresh);
        match refreshed with
        | None => sentinel_err ErrIdentityRefresh
        | Some refreshed =>
            catch (VerifyCommitObject commit (Some refreshed)) (λ err,
              if errors_Is err ErrCommitSignature
              then throw (permanentEventError rejectionReasonInvalidSignature err)
              else throw err)
        end).

Definition VerifyCommitMessageStrict (evt : SyncSubscribeRepos_Commit) (prevRepo : option AccountRepo) : result goerr unit :=
  let reject msg := newPermanentEventError rejectionReasonInvalidCommit (Errorf msg) in
  if (length (cm_Blocks evt) =? 0)%nat then reject "commit messaging missing blocks"%string
  else if cm_TooBig evt then reject "deprecated tooBig commit flag set"%string
  else
    match cm_PrevData evt, prevRepo with
    | None, Some _ => reject "missing prevData field"%string
    | _, _ =>
        let stale := match prevRepo with Some p => str_le (cm_Rev evt) (repo_Rev p) | None => false end in
        if stale
        then newPermanentEventError rejectionReasonInvalidCommit (Wrap "before or equal" (Sentinel ErrRevSequence))
        else
          match VerifyCommitMessage evt with
          | Err e => newPermanentEventError rejectionReasonInvalidMST (Errorf e)
          | Ok _ =>
              if cm_Rebase evt then reject "deprecated rebase commit flag set"%string
              else
                match ParseDatetime (cm_Time evt) with
                | Err e => reject ("commit timestamp syntax: " ++ e)%string
                | Ok _ => Ok tt
                end
          end
    end.

Definition VerifyRepoCommit (evt : SyncSubscribeRepos_Commit) (ident : option Identity) (prevRepo : option AccountRepo)
  : R AccountRepo :=
  if MaxMessageBlocksBytes <? Z.of_nat (length (cm_Blocks evt))
  then permanent rejectionReasonMalformedCommit "blocks size exceeds protocol limit"
  else if MaxCommitOps <? Z.of_nat (length (cm_Ops evt))
  then permanent rejectionReasonMalformedCommit "too many ops in commit"
  else
    match LoadCommitFromCAR (cm_Blocks evt) with
    | Err e => permanent rejectionReasonMalformedCommit e
    | Ok (commit, commitCID) =>
        verifyCommitObjectWithRefresh commit ident (cm_Repo evt) ;;
        if negb (String.eqb (cm_Commit evt) commitCID)
        then permanent rejectionReasonInvalidCommit "commit CID does not match CAR root"
        else if negb (String.eqb (cm_Repo evt) (rc_DID commit))
        then permanent rejectionReasonInvalidCommit "mismatched inner commit DID field"
        else if negb (String.eqb (cm_Rev evt) (rc_Rev commit))
        then permanent rejectionReasonInvalidCommit "mismatched inner commit rev field"
        else
          let resp := mkAccountRepo 0 (rc_Rev commit) commitCID (rc_Data commit) in
          match VerifyCommitMessageStrict evt prevRepo with
          | Err e => if LenientSyncValidation Config then mret resp else throw e
          | Ok _ => mret resp
          end
    end.

Definition VerifyRepoSync (evt : SyncSubscribeRepos_Sync) (ident : option Identity) : R AccountRepo :=
  if MaxMessageBlocksBytes <? Z.of_nat (length (sm_Blocks evt))
  then permanent rejectionReasonMalformedCommit "blocks size exceeds protocol limit"
  else
    match LoadCommitFromCAR (sm_Blocks evt) with
    | Err e => permanent rejectionReasonMalformedCommit e
    | Ok (commit, commitCID) =>
        verifyCommitObjectWithRefresh commit ident (sm_Did evt) ;;
        if negb (String.eqb (sm_Did evt) (rc_DID commit))
        then permanent rejectionReasonInvalidCommit "mismatched inner commit DID field"
        else if negb (String.eqb (sm_Rev evt) (rc_Rev commit))
        then permanent rejectionReasonInvalidCommit "mismatched inner commit rev field"
        else mret (mkAccountRepo 0 (rc_Rev commit) commitCID (rc_Data commit))
    end.

End Verify.
