(* ===== verification/RelayIngest.v ===== *)
(** * Event ingestion: [ingest.go], [rejections.go] and [source_ingest.go] in
      [src/cmd/relay/relay]

    What happens to one event of an upstream host: it is checked against the
    recorded rejections, its account is found or created, the event is
    verified, handed to the durable event log and only then acknowledged. *)

From S2P Require Import Prelude GoStrings Syntax Stream StateMonad Hostname Relay RelayAccount RelayHost RelaySources RelayVerify.
From stdpp Require Import pretty.
Local Open Scope Z_scope.

(** ** [rejections.go] *)

Definition RejectionPolicyRevision : string := "verification-d08-v1".
Definition defaultRejectedEventsLimit : Z := 100.
Definition maxRejectedEventsLimit : Z := 1000.

Record rejectedEventSource := mkRejSource {
  rs_hostID : Z;
  rs_position : Z;
  rs_did : string;
  rs_kind : string;
}.

Definition normalizedRejectionDID (didStr : string) : string :=
  match ParseDID didStr with Err _ => "" | Ok did => NormalizeDID did end.

Definition msg_kind (m : RepoMsg) : string :=
  match m with MCommit _ => "commit" | MSync _ => "sync" | MIdentity _ => "identity" | MAccount _ => "account" end.

Definition rejectedEventSourceFor (evt : XRPCStreamEvent) (hostID : Z) : option rejectedEventSource :=
  m ← repo_msg evt;
  Some (mkRejSource hostID (msg_seq m) (normalizedRejectionDID (msg_did m)) (msg_kind m)).

(** [fmt.Sprintf("%d:%d:%s:%s", ...)] *)
Definition idempotencyKey (s : rejectedEventSource) (policy : string) : string :=
  (pretty (rs_hostID s) ++ ":" ++ pretty (rs_position s) ++ ":" ++ rs_kind s ++ ":" ++ policy)%string.

Section Ingest.
Context `{Services}.

Definition rejectionPolicyRevision : string :=
  if LenientSyncValidation Config then (RejectionPolicyRevision ++ "-lenient")%string else RejectionPolicyRevision.

Definition has_key (key : string) (x : RejectedEvent) : bool := String.eqb (rej_IdempotencyKey x) key.

Definition wasRejectedEvent (evt : XRPCStreamEvent) (hostID : Z) : R bool :=
  match rejectedEventSourceFor evt hostID with
  | None => mret false
  | Some source => query (λ d, existsb (has_key (idempotencyKey source rejectionPolicyRevision)) (rejected d))
  end.

(** [OnConflict DoNothing] on the idempotency key. *)
Definition insert_rejection (x : rejectedEventSource) (reasonCode : string) (d : DB) : DB :=
  let key := idempotencyKey x rejectionPolicyRevision in
  if existsb (has_key key) (rejected d) then d
  else add_rejected (mkRejected (next_rejected d) (rs_hostID x) (rs_position x) (rs_did x) (rs_kind x)
         rejectionPolicyRevision reasonCode key) d.

Definition persistRejectedEvent (evt : XRPCStreamEvent) (hostID : Z) (reasonCode : string) : R unit :=
  match rejectedEventSourceFor evt hostID with
  | None => throw (Errorf "permanent rejection has no supported source event")
  | Some source => wrap "persisting rejected event" (exec (insert_rejection source reasonCode))
  end.

Definition ListRejectedEvents (afterID limit : Z) : R (list RejectedEvent) :=
  let limit := if limit <=? 0 then defaultRejectedEventsLimit else limit in
  let limit := if maxRejectedEventsLimit <? limit then maxRejectedEventsLimit else limit in
  wrap "listing rejected events" (query (λ d, take (Z.to_nat limit) (List.filter (λ x, afterID <? rej_ID x) (rejected d)))).

(** ** [ingest.go] *)

(** A directory answer, or [ErrIdentityUnavailable]. *)
Definition available (did : string) : R (Identity * string) :=
  ident ← catch (LookupDID did) (λ _, sentinel_err ErrIdentityUnavailable);
  match ident with
  | None => sentinel_err ErrIdentityUnavailable
  | Some ident =>
      match ParseHostname (id_PDSEndpoint ident) with
      | Err _ => sentinel_err ErrIdentityUnavailable
      | Ok (resolvedHost, _) => mret (ident, resolvedHost)
      end
  end.

Definition preProcessEvent (didStr hostname : string) (hostID : Z) : R (Account * Identity) :=
  match ParseDID didStr with
  | Err e => permanent rejectionReasonMalformedEvent e
  | Ok did =>
      let did := NormalizeDID did in
      '(ident, resolvedHost) ← available did;
      ident ← (if negb (String.eqb resolvedHost hostname) && negb (SkipAccountHostCheck Config) then
          catch (Purge did) (λ _, sentinel_err ErrIdentityRefresh) ;;
          '(ident, resolvedHost) ← available did;
          if negb (String.eqb resolvedHost hostname) then
            ObserveAccountSource did hostID (id_PDSEndpoint ident) ;;
            permanent "source_host_mismatch" "resolved host does not match source"
          else mret ident
        else mret ident);
      acc ← catch (GetAccount did) (λ e,
        if errors_Is e ErrAccountNotFound then CreateAccountHost did hostID hostname
        else throw (Wrap "fetching account" e));
      acc ← EnsureAccountHost acc hostID hostname;
      ObserveAccountSource did hostID (id_PDSEndpoint ident) ;;
      mret (acc, ident)
  end.

(** Account status of a commit or sync event: [None] when the event is dropped. *)
Definition activeAccount (acc : Account) : R (option Account) :=
  attempt (EnsureAccountActive acc) (λ res,
    match res with
    | Ok acc => mret (Some acc)
    | Err e => if errors_Is e ErrAccountInactive then mret None else throw (Wrap "ensuring account is active" e)
    end).

Definition previousRepo (uid : Z) : R (option AccountRepo) :=
  attempt (GetAccountRepo uid) (λ res,
    match res with
    | Ok p => mret (Some p)
    | Err e => if errors_Is e ErrAccountRepoNotFound then mret None else throw e
    end).

Definition stale_rev (evt_rev : string) (prev : option AccountRepo) : bool :=
  match prev with
  | Some p => negb (String.eqb (repo_Rev p) "") && negb (String.eqb evt_rev "") && str_le evt_rev (repo_Rev p)
  | None => false
  end.

(** The tail of commit and sync processing: output first, revision second. *)
Definition emit_and_advance (evt : XRPCStreamEvent) (kind : string) (uid : Z) (newRepo : AccountRepo) : R unit :=
  wrap ("failed to broadcast " ++ kind ++ " event")%string (AddEvent evt) ;;
  wrap "failed to upsert account repo"
    (UpsertAccountRepo uid (repo_Rev newRepo) (repo_CommitCID newRepo) (repo_CommitDataCID newRepo)).

Definition processCommitEvent (evt : SyncSubscribeRepos_Commit) (hostname : string) (hostID : Z) : R unit :=
  '(acc, ident) ← preProcessEvent (cm_Repo evt) hostname hostID;
  active ← activeAccount acc;
  match active with
  | None => mret tt
  | Some acc =>
      prevRepo ← previousRepo (acc_UID acc);
      if stale_rev (cm_Rev evt) prevRepo then mret tt
      else
        newRepo ← VerifyRepoCommit evt (Some ident) prevRepo;
        emit_and_advance (commitEvent evt (acc_UID acc)) "#commit" (acc_UID acc) newRepo
  end.

Definition processSyncEvent (evt : SyncSubscribeRepos_Sync) (hostname : string) (hostID : Z) : R unit :=
  '(acc, ident) ← preProcessEvent (sm_Did evt) hostname hostID;
  active ← activeAccount acc;
  match active with
  | None => mret tt
  | Some acc =>
      newRepo ← VerifyRepoSync evt (Some ident);
      emit_and_advance (syncEvent evt (acc_UID acc)) "#sync" (acc_UID acc) newRepo
  end.

Definition processIdentityEvent (evt : SyncSubscribeRepos_Identity) (hostname : string) (hostID : Z) : R unit :=
  match ParseDID (im_Did evt) with
  | Err e => permanent rejectionReasonMalformedEvent e
  | Ok did =>
      let did := NormalizeDID did in
      catch (Purge did) (λ _, sentinel_err ErrIdentityRefresh) ;;
      cache_remove did ;;
      '(_, ident) ← preProcessEvent (im_Did evt) hostname hostID;
      let handle :=
        match im_Handle evt with
        | Some h => if String.eqb (id_Handle ident) h then Some h else None
        | None => None
        end in
      wrap "failed to broadcast #identity event"
        (AddEvent (identityEvent (mkIdentityMsg did handle 0 (im_Time evt)) 0))
  end.

Definition processAccountEvent (evt : SyncSubscribeRepos_Account) (hostname : string) (hostID : Z) : R unit :=
  '(acc, _) ← preProcessEvent (am_Did evt) hostname hostID;
  match am_Active evt, am_Status evt with
  | false, None => permanent rejectionReasonMalformedEvent "inactive account event has no status"
  | _, _ =>
      let newStatus :=
        if am_Active evt then AccountStatusActive
        else match am_Status evt with Some s => s | None => AccountStatusInactive end in
      acc ← (if negb (String.eqb newStatus (acc_UpstreamStatus acc)) then
          UpdateAccountUpstreamStatus (acc_DID acc) (acc_UID acc) newStatus ;;
          mret (acc_set_UpstreamStatus newStatus acc)
        else mret acc);
      wrap "failed to broadcast #account event" (AddEvent (accountMessage acc (am_Time evt)))
  end.

(** The [switch] of [processRepoEvent]. *)
Definition dispatch (evt : XRPCStreamEvent) (hostname : string) (hostID : Z) : R unit :=
  match repo_msg evt with
  | Some (MCommit m) => processCommitEvent m hostname hostID
  | Some (MSync m) => processSyncEvent m hostname hostID
  | Some (MIdentity m) => processIdentityEvent m hostname hostID
  | Some (MAccount m) => processAccountEvent m hostname hostID
  | None => throw (Errorf "unhandled repo stream event type")
  end.

Definition processRepoEvent (evt : XRPCStreamEvent) (hostname : string) (hostID : Z) : R unit :=
  was ← wasRejectedEvent evt hostID;
  if was : bool then mret tt
  else
    catch (dispatch evt hostname hostID) (λ err,
      match permanentRejectionReason err with
      | None => throw err
      | Some reasonCode => persistRejectedEvent evt hostID reasonCode
      end).

(** [processSourceEvent] under the account's lock; [ctxErr] is [ctx.Err()]. *)
Definition processSourceEvent (ctxErr : option string) (evt : XRPCStreamEvent) (hostname : string) (hostID : Z) : R unit :=
  match ctxErr with
  | Some e => throw (Errorf e)
  | None => processRepoEvent evt hostname hostID
  end.

End Ingest.
