(* ===== verification/RelayFrame.v ===== *)
(** * What relay code leaves alone

    [preserves I m]: whatever the services answer and wherever [m] stops, the
    states before and after are related by [I].  The rules follow the structure
    of the code, so a frame property of a whole handler is proved by going
    through its text; only the statements that really change something need an
    argument. *)

From S2P Require Import Prelude GoStrings Stream StateMonad Hostname Relay RelayAccount RelayHost RelaySources RelayVerify RelayIngest.
Local Open Scope Z_scope.

(** A relation that frame reasoning can use: it does not see the call counter,
    and a rolled back transaction is no change. *)
Class Frame (I : Relay → Relay → Prop) : Prop := {
  #[global] frame_preorder :: PreOrder I;
  frame_step : ∀ r, I r (step r);
  frame_rollback : ∀ r r', I r r' → I r (set_db (db r) r');
}.

Definition preserves {A} (I : Relay → Relay → Prop) (m : R A) : Prop := ∀ r, I r (m r).1.

Section Rules.
Context `{Services} (I : Relay → Relay → Prop) `{!Frame I}.

Lemma preserves_ret {A} (a : A) : preserves I (mret a : R A).
Proof. intros r. simpl. reflexivity. Qed.
Lemma preserves_throw {A} e : preserves I (throw (A:=A) e : R A).
Proof. intros r. simpl. reflexivity. Qed.
Lemma preserves_lift {A} (x : result goerr A) : preserves I (lift x : R A).
Proof. intros r. simpl. reflexivity. Qed.
Lemma preserves_gets {A} (f : Relay → A) : preserves I (gets f : R A).
Proof. intros r. simpl. reflexivity. Qed.
Lemma preserves_bind {A B} (m : R A) (f : A → R B) :
  preserves I m → (∀ a, preserves I (f a)) → preserves I (m ≫= f).
Proof.
  intros Hm Hf r. unfold mbind, StateM_bind. specialize (Hm r). destruct (m r) as [r' [a|e]]; simpl in *; [|done].
  etrans; [exact Hm|apply Hf].
Qed.
Lemma preserves_catch {A} (m : R A) h : preserves I m → (∀ e, preserves I (h e)) → preserves I (catch m h).
Proof.
  intros Hm Hh r. unfold catch. specialize (Hm r). destruct (m r) as [r' [a|e]]; simpl in *; [done|].
  etrans; [exact Hm|apply Hh].
Qed.
Lemma preserves_attempt {A B} (m : R A) (k : result goerr A → R B) :
  preserves I m → (∀ x, preserves I (k x)) → preserves I (attempt m k).
Proof.
  intros Hm Hk r. unfold attempt. specialize (Hm r). destruct (m r) as [r' x]; simpl in *.
  etrans; [exact Hm|apply Hk].
Qed.
Lemma preserves_wrap {A} msg (m : R A) : preserves I m → preserves I (wrap msg m).
Proof. intros Hm. apply preserves_catch; [done|]. intros e. apply preserves_throw. Qed.
Lemma preserves_call {A} (f : nat → A) : preserves I (call f).
Proof. intros r. apply frame_step. Qed.
Lemma preserves_dbop : preserves I dbop.
Proof. apply preserves_bind; [apply preserves_call|]. intros [e|]; [apply preserves_throw|apply preserves_ret]. Qed.
Lemma preserves_query {A} (f : DB → A) : preserves I (query f).
Proof. apply preserves_bind; [apply preserves_dbop|]. intros _. apply preserves_gets. Qed.
Lemma preserves_modify f : (∀ r, I r (f r)) → preserves I (modify f).
Proof. intros Hf r. apply Hf. Qed.
Lemma preserves_exec f : (∀ r, I r (set_db (f (db r)) r)) → preserves I (exec f).
Proof. intros Hf. apply preserves_bind; [apply preserves_dbop|]. intros _. by apply preserves_modify. Qed.
Lemma preserves_Transaction {A} (f : R A) : preserves I f → preserves I (Transaction f).
Proof.
  intros Hf r. unfold Transaction. simpl. destruct (db_fail (tick r)); [apply frame_step|].
  specialize (Hf (step r)). destruct (f (step r)) as [r' [a|e]]; simpl in *.
  - destruct (db_fail (tick r')); simpl.
    + etrans; [apply frame_step|]. change (db r) with (db (step r)). apply frame_rollback.
      etrans; [exact Hf|apply frame_step].
    + etrans; [apply frame_step|]. etrans; [exact Hf|apply frame_step].
  - etrans; [apply frame_step|]. change (db r) with (db (step r)). by apply frame_rollback.
Qed.
End Rules.

(** ** Specifications of the primitives *)

Section Primitives.
Context `{Services}.

(** A frame property as a specification. *)
Lemma preserves_wp {A} I (m : R A) r : preserves I m → wp m (λ _ r', I r r') (λ _ r', I r r') r.
Proof. intros Hm. specialize (Hm r). unfold wp. by destruct (m r) as [r' [a|e]]. Qed.

Lemma preserves_of_wp {A} (I : Relay → Relay → Prop) (m : R A) :
  (∀ r, wp m (λ _ r', I r r') (λ _ r', I r r') r) → preserves I m.
Proof. intros Hw r. specialize (Hw r). unfold wp in Hw. by destruct (m r) as [r' [a|e]]. Qed.

Lemma AddEvent_wp evt r (Q : unit → Relay → Prop) (F : goerr → Relay → Prop) :
  (∀ r', db r' = db r → events r' = events r ++ [evt] → Q tt r') →
  (∀ msg r', db r' = db r → events r' = events r → F (Errorf msg) r') →
  wp (AddEvent evt) Q F r.
Proof.
  intros HQ HF. unfold AddEvent. apply wp_bind. unfold wp at 1, call. 
  destruct (emit_fail (tick r) evt); [apply wp_throw, HF|apply wp_modify, HQ]; done.
Qed.

Lemma wp_wrap {A} msg (m : R A) Q (F : goerr → Relay → Prop) r :
  wp m Q (λ e r', F (Wrap msg e) r') r → wp (wrap msg m) Q F r.
Proof. intros Hm. apply wp_catch. revert Hm. by apply wp_mono. Qed.

Lemma exec_wp f r (Q : unit → Relay → Prop) (F : goerr → Relay → Prop) :
  Q tt (set_db (f (db r)) (step r)) → (∀ msg, F (Errorf msg) (step r)) → wp (exec f) Q F r.
Proof.
  intros HQ HF. unfold exec, dbop. apply wp_bind, wp_bind. unfold wp at 1, call.
  destruct (db_fail (tick r)); [apply wp_throw, HF|apply wp_ret, wp_modify, HQ].
Qed.

Lemma query_wp {A} (f : DB → A) r (Q : A → Relay → Prop) (F : goerr → Relay → Prop) :
  Q (f (db r)) (step r) → (∀ msg, F (Errorf msg) (step r)) → wp (query f) Q F r.
Proof.
  intros HQ HF. unfold query, dbop. apply wp_bind, wp_bind. unfold wp at 1, call.
  destruct (db_fail (tick r)); [apply wp_throw, HF|apply wp_ret, HQ].
Qed.

(** A transaction: the body runs on the current tables; whatever fails, the
    tables are those from before. *)
Lemma Transaction_wp {A} (f : R A) r (Q : A → Relay → Prop) (F : goerr → Relay → Prop) :
  (∀ msg, F (Errorf msg) (step r)) →
  wp f (λ a r', Q a (step r') ∧ ∀ msg, F (Errorf msg) (set_db (db r) (step r')))
       (λ e r', F e (set_db (db r) r')) (step r) →
  wp (Transaction f) Q F r.
Proof.
  intros HF Hf. unfold wp, Transaction in *. simpl. destruct (db_fail (tick r)); [apply HF|].
  destruct (f (step r)) as [r' [a|e]]; [|done]. destruct Hf as [HQ HF']. simpl.
  destruct (db_fail (tick r')); [apply HF'|done].
Qed.

End Primitives.

Create HintDb frame discriminated.

(** Go through a handler's text.  What is left are the statements that change
    the state. *)
Ltac frame_step :=
  cbv zeta;
  lazymatch goal with
  | |- preserves ?I (mret _) => apply (preserves_ret I)
  | |- preserves ?I (throw _) => apply (preserves_throw I)
  | |- preserves ?I (lift _) => apply (preserves_lift I)
  | |- preserves ?I (gets _) => apply (preserves_gets I)
  | |- preserves ?I (call _) => apply (preserves_call I)
  | |- preserves ?I dbop => apply (preserves_dbop I)
  | |- preserves ?I (query _) => apply (preserves_query I)
  | |- preserves ?I (wrap _ _) => apply (preserves_wrap I)
  | |- preserves ?I (Transaction _) => apply (preserves_Transaction I)
  | |- preserves ?I (_ ≫= _) => apply (preserves_bind I); [|intros ?]
  | |- preserves ?I (catch _ _) => apply (preserves_catch I); [|intros ?]
  | |- preserves ?I (attempt _ _) => apply (preserves_attempt I); [|intros ?]
  | |- preserves ?I (match _ with _ => _ end) => case_match
  | |- preserves ?I (sentinel_err _) => apply (preserves_throw I)
  | |- preserves ?I (permanent _ _) => apply (preserves_throw I)
  | |- preserves _ _ => solve [eauto with frame]
  end.
Ltac frames := repeat frame_step.

(** ** Frame of the output, the repository state and the rejections *)

(** Nothing is emitted and no repository row changes. *)
Definition silent (r r' : Relay) : Prop := events r' = events r ∧ repos (db r') = repos (db r).
(** Nor is a rejection recorded. *)
Definition quiet (r r' : Relay) : Prop := silent r r' ∧ rejected (db r') = rejected (db r).

#[export] Instance silent_frame : Frame silent.
Proof.
  split; [split; [done|]|done|by intros r r' [H1 H2]].
  intros r1 r2 r3 [H1 H2] [H3 H4]. split; congruence.
Qed.
#[export] Instance quiet_frame : Frame quiet.
Proof.
  split; [split; [done|]|done|by intros r r' [[H1 H2] H3]].
  intros r1 r2 r3 [H1 H2] [H3 H4]. split; [by etrans|congruence].
Qed.

(** A statement that changes the state, down to what it does to the rows. *)
Ltac frame_stmt :=
  unfold cache_add, cache_remove;
  lazymatch goal with
  | |- preserves ?I (exec _) => apply (preserves_exec I); intros ?
  | |- preserves ?I (modify _) => apply (preserves_modify I); intros ?
  end.
Ltac quiet_tac := frame_stmt; repeat split; reflexivity.

Section Quiet.
Context `{Services}.

Lemma LookupDID_quiet did : preserves quiet (LookupDID did).
Proof. unfold LookupDID. frames. Qed.
Lemma Purge_quiet did : preserves quiet (Purge did).
Proof. unfold Purge. frames. Qed.
Lemma GetAccount_quiet did : preserves quiet (GetAccount did).
Proof. unfold GetAccount, sentinel_err. frames. quiet_tac. Qed.
#[local] Hint Resolve LookupDID_quiet Purge_quiet GetAccount_quiet : frame.

Lemma CreateAccountHost_quiet did hostID hostname : preserves quiet (CreateAccountHost did hostID hostname).
Proof. unfold CreateAccountHost, increment_count, first_host, create_account. frames; quiet_tac. Qed.
Lemma EnsureAccountHost_quiet acc hostID hostname : preserves quiet (EnsureAccountHost acc hostID hostname).
Proof.
  unfold EnsureAccountHost, resolve_pds, increment_count, decrement_count, first_host. frames; quiet_tac.
Qed.
Lemma ObserveAccountSource_quiet did hostID host : preserves quiet (ObserveAccountSource did hostID host).
Proof. unfold ObserveAccountSource, sentinel_err, Now. frames; quiet_tac. Qed.
Lemma UpdateAccountUpstreamStatus_quiet did uid status : preserves quiet (UpdateAccountUpstreamStatus did uid status).
Proof. unfold UpdateAccountUpstreamStatus, cache_remove. frames; quiet_tac. Qed.
#[local] Hint Resolve CreateAccountHost_quiet EnsureAccountHost_quiet ObserveAccountSource_quiet
  UpdateAccountUpstreamStatus_quiet : frame.

Lemma EnsureAccountActive_quiet acc : preserves quiet (EnsureAccountActive acc).
Proof. unfold EnsureAccountActive, FetchAccountStatus. frames. Qed.
#[local] Hint Resolve EnsureAccountActive_quiet : frame.
Lemma activeAccount_quiet acc : preserves quiet (activeAccount acc).
Proof. unfold activeAccount. frames. Qed.
Lemma previousRepo_quiet uid : preserves quiet (previousRepo uid).
Proof. unfold previousRepo, GetAccountRepo, sentinel_err. frames. Qed.
Lemma preProcessEvent_quiet did hostname hostID : preserves quiet (preProcessEvent did hostname hostID).
Proof. unfold preProcessEvent, available, permanent, sentinel_err. frames. Qed.
Lemma VerifyCommitObject_quiet c i : preserves quiet (VerifyCommitObject c i).
Proof. unfold VerifyCommitObject, permanent, sentinel_err, Now. frames. Qed.
#[local] Hint Resolve VerifyCommitObject_quiet : frame.
Lemma verifyCommitObjectWithRefresh_quiet c i d : preserves quiet (verifyCommitObjectWithRefresh c i d).
Proof. unfold verifyCommitObjectWithRefresh, permanent, sentinel_err. frames. Qed.
#[local] Hint Resolve verifyCommitObjectWithRefresh_quiet : frame.
Lemma VerifyRepoCommit_quiet evt i p : preserves quiet (VerifyRepoCommit evt i p).
Proof. unfold VerifyRepoCommit, permanent. frames. Qed.
Lemma VerifyRepoSync_quiet evt i : preserves quiet (VerifyRepoSync evt i).
Proof. unfold VerifyRepoSync, permanent. frames. Qed.
Lemma persistRejectedEvent_silent evt hostID reason : preserves silent (persistRejectedEvent evt hostID reason).
Proof. unfold persistRejectedEvent. frames. frame_stmt. unfold insert_rejection. by case_match. Qed.
Lemma wasRejectedEvent_quiet evt hostID : preserves quiet (wasRejectedEvent evt hostID).
Proof. unfold wasRejectedEvent. frames. Qed.

End Quiet.

#[export] Hint Resolve activeAccount_quiet previousRepo_quiet preProcessEvent_quiet VerifyRepoCommit_quiet
  VerifyRepoSync_quiet persistRejectedEvent_silent wasRejectedEvent_quiet Purge_quiet LookupDID_quiet
  UpdateAccountUpstreamStatus_quiet : frame.
