(* ===== verification/RelayIngestProofs.v ===== *)
(** * Properties of event ingestion *)

From stdpp Require Import pretty.
From S2P Require Import Prelude GoStrings Syntax Tid Datetime Stream StateMonad Sha256 Cbor Mst MstData MstSpec MstLoad MstMap Repo RepoTheorems Hostname Relay RelayAccount RelayHost RelaySources RelayVerify RelayIngest RelayFrame.
Local Open Scope Z_scope.

Section Ingest.
Context `{Services}.

(** ** Output before revision *)

(** What one event may do to the output and the repository rows: nothing; emit
    one event about it; or emit it and then set one row, that of the event's
    account, to the event's revision. *)
Definition upsert_row (uid : Z) (row : AccountRepo) (rows : list AccountRepo) : list AccountRepo :=
  if existsb (λ x, repo_UID x =? uid) rows then update_where (λ x, repo_UID x =? uid) (λ _, row) rows
  else rows ++ [row].

Definition outcome (out : XRPCStreamEvent → Prop) (rev : option string) (r r' : Relay) : Prop :=
  silent r r' ∨
  (∃ e, out e ∧ events r' = events r ++ [e] ∧
    (repos (db r') = repos (db r) ∨
     ∃ row v, rev = Some v ∧ repo_Rev row = v ∧ repo_UID row = PrivUid e ∧
       repos (db r') = upsert_row (PrivUid e) row (repos (db r)))).

Lemma outcome_after out rev r r1 r2 : silent r r1 → outcome out rev r1 r2 → outcome out rev r r2.
Proof.
  intros [H1 H2] [[H3 H4]|(e & Ho & He & Hr)]; [left; split; congruence|right].
  exists e. rewrite <-H1, <-H2. done.
Qed.

Lemma emit_and_advance_outcome evt kind newRepo r :
  let out := outcome (λ e, e = evt) (Some (repo_Rev newRepo)) in
  wp (emit_and_advance evt kind (PrivUid evt) newRepo)
     (λ _ r', out r r' ∧ rejected (db r') = rejected (db r))
     (λ e r', out r r' ∧ rejected (db r') = rejected (db r) ∧ repos (db r') = repos (db r) ∧
              permanentRejectionReason e = None) r.
Proof.
  unfold emit_and_advance. apply wp_bind, wp_wrap, AddEvent_wp.
  - intros r1 Hdb Hev. apply wp_wrap, exec_wp.
    + split; [|simpl; by rewrite Hdb]. right. exists evt. split; [done|]. split; [done|]. right.
      eexists (mkAccountRepo (PrivUid evt) (repo_Rev newRepo) (repo_CommitCID newRepo) (repo_CommitDataCID newRepo)), _.
      split; [done|]. split; [done|]. split; [done|]. simpl. by rewrite Hdb.
    + intros msg. simpl. rewrite Hdb. split_and!; try done. right. exists evt. simpl. rewrite Hdb.
      split_and!; [done..|]. by left.
  - intros msg r1 Hdb Hev. rewrite Hdb. split_and!; try done. left. split; congruence.
Qed.

(** ** What is checked before an event is emitted *)

Definition known_identity (did : string) (i : Identity) : Prop := ∃ n, dir_lookup n did = Ok (Some i).

(** The commit is signed by the key that the directory gives for the DID. *)
Definition signed_for (did : string) (c : RepoCommit) : Prop :=
  ∃ i key, (known_identity did i ∨ ∃ d, ParseDID did = Ok d ∧ known_identity (NormalizeDID d) i) ∧
    id_PublicKey i = Ok key ∧ Commit_VerifySignature key c = None.

(** The commit object a message carries, bound to the message's fields. *)
Definition carried (did rev : string) (blocks : bytes) (c : RepoCommit) (cid : string) : Prop :=
  Z.of_nat (length blocks) ≤ MaxMessageBlocksBytes ∧ LoadCommitFromCAR blocks = Ok (c, cid) ∧
  VerifyStructure c = Ok tt ∧ rc_DID c = did ∧ rc_Rev c = rev ∧ signed_for did c ∧
  ∃ n, TID_Time rev ≤ clock n + futureRevTolerance.

Definition verified_commit (m : SyncSubscribeRepos_Commit) : Prop :=
  Z.of_nat (length (cm_Ops m)) ≤ MaxCommitOps ∧
  (∃ c, carried (cm_Repo m) (cm_Rev m) (cm_Blocks m) c (cm_Commit m)) ∧
  (LenientSyncValidation Config = false → is_ok (VerifyCommitMessage m) = true ∧ cm_Blocks m ≠ [] ∧
    cm_TooBig m = false ∧ cm_Rebase m = false).

Definition verified_sync (m : SyncSubscribeRepos_Sync) : Prop :=
  ∃ c cid, carried (sm_Did m) (sm_Rev m) (sm_Blocks m) c cid.

Lemma LookupDID_wp did r :
  wp (LookupDID did) (λ o _, ∀ i, o = Some i → known_identity did i) (λ _ _, True) r.
Proof.
  unfold LookupDID. apply wp_bind. unfold wp at 1, call.
  destruct (dir_lookup (tick r) did) as [o|] eqn:Hd; [|done]. apply wp_ret. intros i ->. by exists (tick r).
Qed.

Definition object_ok (c : RepoCommit) (i : Identity) : Prop :=
  VerifyStructure c = Ok tt ∧ (∃ key, id_PublicKey i = Ok key ∧ Commit_VerifySignature key c = None) ∧
  ∃ n, TID_Time (rc_Rev c) ≤ clock n + futureRevTolerance.

Lemma ParseTID_id raw t : ParseTID raw = Ok t → t = raw.
Proof. unfold ParseTID. repeat case_match; by intros [= ->]. Qed.

Lemma VerifyCommitObject_wp c i r :
  wp (VerifyCommitObject c i) (λ _ _, ∃ i', i = Some i' ∧ object_ok c i') (λ _ _, True) r.
Proof.
  unfold VerifyCommitObject. destruct (VerifyStructure c) as [[]|] eqn:Hs; [|done].
  destruct (ParseTID (rc_Rev c)) as [rev|] eqn:Hr; [|done]. apply ParseTID_id in Hr as ->.
  apply wp_bind. unfold wp at 1, Now, call.
  destruct (_ <? _) eqn:Hf; [done|]. bool_to_prop.
  destruct i as [i|]; [|done]. destruct (id_PublicKey i) as [key|] eqn:Hk; [|done].
  destruct (Commit_VerifySignature key c) eqn:Hv; [done|]. apply wp_ret. exists i. split; [done|].
  split; [done|]. split; [by exists key|]. by exists (tick r).
Qed.

Lemma verifyCommitObjectWithRefresh_wp c i did r :
  wp (verifyCommitObjectWithRefresh c (Some i) did)
    (λ _ _, rc_DID c = did ∧ ∃ i', (i' = i ∨ known_identity did i') ∧ object_ok c i') (λ _ _, True) r.
Proof.
  unfold verifyCommitObjectWithRefresh. destruct (String.eqb_spec (rc_DID c) did); [|done]. simpl.
  apply wp_catch. eapply wp_mono; [| |apply VerifyCommitObject_wp].
  { intros _ _ (i' & [= <-] & Ho). split; [done|]. exists i. split; [by left|done]. }
  intros err r1 _. case_match; [done|]. apply wp_bind, wp_catch.
  unfold wp at 1. destruct (Purge did r1) as [r2 [[]|]]; [|done].
  apply wp_bind, wp_catch. eapply wp_mono; [| |apply LookupDID_wp]; [|done].
  intros [i'|] r3 Hk; [|done]. apply wp_catch. eapply wp_mono; [| |apply VerifyCommitObject_wp].
  - intros _ _ (? & [= <-] & Ho). split; [done|]. exists i'. split; [right; by apply Hk|done].
  - intros err' r4 _. by case_match.
Qed.

Lemma VerifyRepoCommit_wp m i prev d r :
  ParseDID (cm_Repo m) = Ok d → known_identity (NormalizeDID d) i →
  wp (VerifyRepoCommit m (Some i) prev)
    (λ resp _, verified_commit m ∧ repo_Rev resp = cm_Rev m) (λ _ _, True) r.
Proof.
  intros Hd Hi. unfold VerifyRepoCommit.
  destruct (MaxMessageBlocksBytes <? _) eqn:Hb; [done|]. destruct (MaxCommitOps <? _) eqn:Ho; [done|].
  bool_to_prop. destruct (LoadCommitFromCAR (cm_Blocks m)) as [[c cid]|] eqn:Hcar; [|done].
  apply wp_bind. eapply wp_mono; [| |apply verifyCommitObjectWithRefresh_wp]; [|done].
  intros _ r1 (Hdid & i' & Hi' & Hs & (key & Hk & Hv) & Hn).
  destruct (String.eqb_spec (cm_Commit m) cid) as [<-|]; [|done].
  destruct (String.eqb_spec (cm_Repo m) (rc_DID c)) as [_|]; [|done].
  destruct (String.eqb_spec (cm_Rev m) (rc_Rev c)) as [Hrev|]; [|done]. simpl negb. cbv iota zeta.
  assert (Hc : carried (cm_Repo m) (cm_Rev m) (cm_Blocks m) c (cm_Commit m)).
  { split_and!; try done. 2: by rewrite Hrev. exists i', key. split; [|done].
    destruct Hi' as [->|Hi']; [right; by exists d|by left]. }
  destruct (VerifyCommitMessageStrict m prev) as [[]|e] eqn:Hstrict.
  - apply wp_ret. split; [|done]. split; [done|]. split; [by exists c|]. intros _. revert Hstrict.
    unfold VerifyCommitMessageStrict. destruct (cm_Blocks m) as [|b bs] eqn:Hbl; [done|]. simpl.
    destruct (cm_TooBig m); [done|]. destruct (cm_PrevData m), prev; try done;
    (try (destruct (str_le _ _); [done|])); (destruct (VerifyCommitMessage m); [|done]); (destruct (cm_Rebase m); [done|]); done.
  - destruct (LenientSyncValidation Config) eqn:Hl; [|done]. apply wp_ret. split; [|done].
    split; [done|]. split; [by exists c|]. by rewrite Hl.
Qed.

Lemma VerifyRepoSync_wp m i d r :
  ParseDID (sm_Did m) = Ok d → known_identity (NormalizeDID d) i →
  wp (VerifyRepoSync m (Some i)) (λ resp _, verified_sync m ∧ repo_Rev resp = sm_Rev m) (λ _ _, True) r.
Proof.
  intros Hd Hi. unfold VerifyRepoSync.
  destruct (MaxMessageBlocksBytes <? _) eqn:Hb; [done|]. bool_to_prop.
  destruct (LoadCommitFromCAR (sm_Blocks m)) as [[c cid]|] eqn:Hcar; [|done].
  apply wp_bind. eapply wp_mono; [| |apply verifyCommitObjectWithRefresh_wp]; [|done].
  intros _ r1 (Hdid & i' & Hi' & Hs & (key & Hk & Hv) & Hn).
  destruct (String.eqb_spec (sm_Did m) (rc_DID c)) as [_|]; [|done].
  destruct (String.eqb_spec (sm_Rev m) (rc_Rev c)) as [Hrev|]; [|done]. simpl negb. cbv iota zeta.
  apply wp_ret. split; [|done]. exists c, cid. split_and!; try done. 2: by rewrite Hrev.
  exists i', key. split; [|done]. destruct Hi' as [->|Hi']; [right; by exists d|by left].
Qed.

Lemma available_wp did r : wp (available did) (λ x _, known_identity did x.1) (λ _ _, True) r.
Proof.
  unfold available. apply wp_bind, wp_catch. eapply wp_mono; [| |apply LookupDID_wp]; [|done].
  intros [i|] r1 Hi; [|done]. destruct (ParseHostname (id_PDSEndpoint i)) as [[h n]|]; [|done].
  apply wp_ret. by apply Hi.
Qed.

Lemma preProcessEvent_wp didStr hostname hostID r :
  wp (preProcessEvent didStr hostname hostID)
    (λ x _, ∃ d, ParseDID didStr = Ok d ∧ known_identity (NormalizeDID d) x.2) (λ _ _, True) r.
Proof.
  unfold preProcessEvent. destruct (ParseDID didStr) as [d|]; [|done]. cbv zeta. apply wp_bind.
  eapply wp_mono; [| |apply available_wp]; [|done]. intros [i h] r1 Hi. apply wp_bind.
  eapply (wp_mono _ (λ i' _, known_identity (NormalizeDID d) i') _ (λ _ _, True)); [|done|].
  - intros i' r2 Hi'. do 3 (apply wp_bind; unfold wp at 1; case_match; case_match; [|done]).
    apply wp_ret. by exists d.
  - case_match; [|by apply wp_ret]. apply wp_bind. unfold wp at 1. case_match; case_match; [|done].
    apply wp_bind. eapply wp_mono; [| |apply available_wp]; [|done]. intros [i' h'] r3 Hi'.
    case_match; [|by apply wp_ret]. apply wp_bind. unfold wp at 1. case_match; case_match; done.
Qed.

(** ** One event *)

(** The output an incoming event may give. *)
Definition out_for (evt e : XRPCStreamEvent) : Prop :=
  match repo_msg evt with
  | Some (MCommit m) => (∃ uid, e = commitEvent m uid) ∧ verified_commit m
  | Some (MSync m) => (∃ uid, e = syncEvent m uid) ∧ verified_sync m
  | Some (MIdentity m) => ∃ did handle, ParseDID (im_Did m) = Ok did ∧ (handle = None ∨ handle = im_Handle m) ∧
      e = identityEvent (mkIdentityMsg (NormalizeDID did) handle 0 (im_Time m)) 0
  | Some (MAccount m) => ∃ a, e = accountMessage a (am_Time m)
  | None => False
  end.
Definition rev_for (evt : XRPCStreamEvent) : option string :=
  match repo_msg evt with
  | Some (MCommit m) => Some (cm_Rev m)
  | Some (MSync m) => Some (sm_Rev m)
  | _ => None
  end.

(** What a handler guarantees: it records no rejection; when it fails it has
    left the repository rows alone, and an error that will be recorded as a
    rejection comes before anything is emitted. *)
Definition done_ok (evt : XRPCStreamEvent) (r r' : Relay) : Prop :=
  outcome (out_for evt) (rev_for evt) r r' ∧ rejected (db r') = rejected (db r).
Definition done_err (evt : XRPCStreamEvent) (r : Relay) (e : goerr) (r' : Relay) : Prop :=
  done_ok evt r r' ∧ repos (db r') = repos (db r) ∧ (permanentRejectionReason e = None ∨ silent r r').
Definition handles (evt : XRPCStreamEvent) (m : R unit) : Prop :=
  ∀ r, wp m (λ _ r', done_ok evt r r') (λ e r', done_err evt r e r') r.

(** A quiet prefix of a handler, with what it establishes. *)
Lemma quiet_bind {A B} (m : R A) (f : A → R B) (P : A → Prop) r (Q : B → Relay → Prop) (F : goerr → Relay → Prop) :
  preserves quiet m → (∀ r, wp m (λ a _, P a) (λ _ _, True) r) →
  (∀ e r', quiet r r' → F e r') →
  (∀ a r1, quiet r r1 → P a → wp (f a) Q F r1) → wp (m ≫= f) Q F r.
Proof.
  intros Hq Hs HF Hk. apply wp_bind. pose proof (wp_conj _ _ _ _ _ _ (preserves_wp _ m r Hq) (Hs r)) as Hw.
  revert Hw. apply wp_mono; [intros a r1 [H1 H2]; by apply Hk|intros e r1 [H1 _]; by apply HF].
Qed.

Lemma quiet_ok evt r r' : quiet r r' → done_ok evt r r'.
Proof. intros [Hs Hr]. split; [by left|done]. Qed.

Lemma quiet_fails evt r e r' : quiet r r' → done_err evt r e r'.
Proof. intros Hq. split; [by apply quiet_ok|]. split; [apply Hq|right; apply Hq]. Qed.

Lemma outcome_weaken (out out' : XRPCStreamEvent → Prop) rev r r' :
  (∀ e, out e → out' e) → outcome out rev r r' → outcome out' rev r r'.
Proof. intros Ho [Hq|(e & He & Hr)]; [by left|right; exists e; auto]. Qed.

Lemma emit_handled evt e kind newRepo r r1 :
  quiet r r1 → out_for evt e → rev_for evt = Some (repo_Rev newRepo) →
  wp (emit_and_advance e kind (PrivUid e) newRepo) (λ _ r', done_ok evt r r') (λ e r', done_err evt r e r') r1.
Proof.
  intros [Hs Hj] Ho Hr. pose proof Hs as [_ Hre].
  assert (Hok : ∀ r2, outcome (λ e', e' = e) (Some (repo_Rev newRepo)) r1 r2 → rejected (db r2) = rejected (db r1) →
    done_ok evt r r2).
  { intros r2 Hout Hrej. split; [|congruence]. rewrite Hr. eapply outcome_after; [done|].
    eapply outcome_weaken, Hout. by intros ? ->. }
  eapply wp_mono; [| |apply emit_and_advance_outcome].
  - intros _ r2 [Hout Hrej]. by apply Hok.
  - intros err r2 (Hout & Hrej & Hrep & Hp). split; [by apply Hok|]. split; [congruence|by left].
Qed.

Lemma quiet_trans r1 r2 r3 : quiet r1 r2 → quiet r2 r3 → quiet r1 r3.
Proof. intros. by etrans. Qed.

Lemma wp_true {A} (m : R A) r : wp m (λ _ _, True) (λ _ _, True) r.
Proof. unfold wp. by destruct (m r) as [r' [a|e]]. Qed.

Lemma processCommitEvent_handles evt m hostname hostID :
  repo_msg evt = Some (MCommit m) → handles evt (processCommitEvent m hostname hostID).
Proof.
  intros Hm r. unfold processCommitEvent.
  eapply quiet_bind; [apply preProcessEvent_quiet|intros; apply preProcessEvent_wp|intros; by apply quiet_fails|].
  intros [acc ident] r1 Hq1 (d & Hd & Hi). simpl in Hi.
  eapply (quiet_bind _ _ (λ _, True)); [apply activeAccount_quiet|intros; apply wp_true| |].
  { intros e r2 Hq2. apply quiet_fails. by eapply quiet_trans. }
  intros [acc'|] r2 Hq2 _; [|apply wp_ret, quiet_ok; by eapply quiet_trans].
  eapply (quiet_bind _ _ (λ _, True)); [apply previousRepo_quiet|intros; apply wp_true| |].
  { intros e r3 Hq3. apply quiet_fails. eauto using quiet_trans. }
  intros prev r3 Hq3 _. case_match; [apply wp_ret, quiet_ok; eauto using quiet_trans|].
  eapply quiet_bind; [apply VerifyRepoCommit_quiet|intros; by eapply VerifyRepoCommit_wp| |].
  { intros e r4 Hq4. apply quiet_fails. eauto using quiet_trans. }
  intros newRepo r4 Hq4 [Hv Hrev].
  apply (emit_handled evt (commitEvent m (acc_UID acc'))); [eauto using quiet_trans| |].
  - unfold out_for. rewrite Hm. split; [by eexists|done].
  - unfold rev_for. by rewrite Hm, Hrev.
Qed.

Lemma processSyncEvent_handles evt m hostname hostID :
  repo_msg evt = Some (MSync m) → handles evt (processSyncEvent m hostname hostID).
Proof.
  intros Hm r. unfold processSyncEvent.
  eapply quiet_bind; [apply preProcessEvent_quiet|intros; apply preProcessEvent_wp|intros; by apply quiet_fails|].
  intros [acc ident] r1 Hq1 (d & Hd & Hi). simpl in Hi.
  eapply (quiet_bind _ _ (λ _, True)); [apply activeAccount_quiet|intros; apply wp_true| |].
  { intros e r2 Hq2. apply quiet_fails. by eapply quiet_trans. }
  intros [acc'|] r2 Hq2 _; [|apply wp_ret, quiet_ok; by eapply quiet_trans].
  eapply quiet_bind; [apply VerifyRepoSync_quiet|intros; by eapply VerifyRepoSync_wp| |].
  { intros e r4 Hq4. apply quiet_fails. eauto using quiet_trans. }
  intros newRepo r4 Hq4 [Hv Hrev].
  apply (emit_handled evt (syncEvent m (acc_UID acc'))); [eauto using quiet_trans| |].
  - unfold out_for. rewrite Hm. split; [by eexists|done].
  - unfold rev_for. by rewrite Hm, Hrev.
Qed.

(** Emitting an event without touching a repository row. *)
Lemma AddEvent_handled evt e msg r r1 :
  quiet r r1 → out_for evt e →
  wp (wrap msg (AddEvent e)) (λ _ r', done_ok evt r r') (λ e r', done_err evt r e r') r1.
Proof.
  intros [[H1 H2] H3] Ho. apply wp_wrap, AddEvent_wp.
  - intros r2 Hdb Hev. split; [|by rewrite Hdb]. right. exists e. split; [done|]. rewrite Hev, H1.
    split; [done|]. left. by rewrite Hdb.
  - intros m r2 Hdb Hev. apply quiet_fails. split; [split|]; congruence.
Qed.

Lemma processIdentityEvent_handles evt m hostname hostID :
  repo_msg evt = Some (MIdentity m) → handles evt (processIdentityEvent m hostname hostID).
Proof.
  intros Hm r. unfold processIdentityEvent.
  destruct (ParseDID (im_Did m)) as [d|] eqn:Hd; [|by apply quiet_fails]. cbv zeta.
  eapply (quiet_bind _ _ (λ _, True)); [unfold sentinel_err; frames|intros; apply wp_true|intros; by apply quiet_fails|].
  intros _ r1 Hq1 _. apply wp_bind, wp_modify.
  eapply (quiet_bind _ _ (λ _, True)); [apply preProcessEvent_quiet|intros; apply wp_true| |].
  { intros e r2 Hq2. apply quiet_fails. eapply quiet_trans; [exact Hq1|exact Hq2]. }
  intros [acc ident] r2 Hq2 _. apply AddEvent_handled; [eapply quiet_trans; [exact Hq1|exact Hq2]|].
  unfold out_for. rewrite Hm. eexists d, _. split; [done|]. split; [|reflexivity].
  destruct (im_Handle m); [case_match|]; auto.
Qed.

Lemma processAccountEvent_handles evt m hostname hostID :
  repo_msg evt = Some (MAccount m) → handles evt (processAccountEvent m hostname hostID).
Proof.
  intros Hm r. unfold processAccountEvent.
  eapply (quiet_bind _ _ (λ _, True)); [apply preProcessEvent_quiet|intros; apply wp_true|intros; by apply quiet_fails|].
  intros [acc ident] r1 Hq1 _.
  assert (Hgo : ∀ status, wp (acc ← (if negb (String.eqb status (acc_UpstreamStatus acc)) then
          UpdateAccountUpstreamStatus (acc_DID acc) (acc_UID acc) status ;;
          mret (acc_set_UpstreamStatus status acc) else mret acc);
      wrap "failed to broadcast #account event" (AddEvent (accountMessage acc (am_Time m))))
    (λ _ r', done_ok evt r r') (λ e r', done_err evt r e r') r1).
  { intros status. eapply (quiet_bind _ _ (λ _, True)); [frames|intros; apply wp_true| |].
    - intros e r2 Hq2. apply quiet_fails. by eapply quiet_trans.
    - intros acc' r2 Hq2 _. apply AddEvent_handled; [by eapply quiet_trans|]. unfold out_for. rewrite Hm. by eexists. }
  destruct (am_Active m); [apply Hgo|]. destruct (am_Status m); [apply Hgo|]. by apply quiet_fails.
Qed.

Lemma dispatch_handles evt hostname hostID : handles evt (dispatch evt hostname hostID).
Proof.
  unfold dispatch. destruct (repo_msg evt) as [[m|m|m|m]|] eqn:Hm.
  - by apply processCommitEvent_handles.
  - by apply processSyncEvent_handles.
  - by apply processIdentityEvent_handles.
  - by apply processAccountEvent_handles.
  - intros r. by apply quiet_fails.
Qed.

Lemma processRepoEvent_outcome evt hostname hostID r :
  let '(r', res) := processRepoEvent evt hostname hostID r in
  outcome (out_for evt) (rev_for evt) r r' ∧ (is_ok res = false → repos (db r') = repos (db r)).
Proof.
  assert (Hw : wp (processRepoEvent evt hostname hostID)
    (λ _ r', outcome (out_for evt) (rev_for evt) r r')
    (λ _ r', outcome (out_for evt) (rev_for evt) r r' ∧ repos (db r') = repos (db r)) r).
  { unfold processRepoEvent.
    eapply (quiet_bind _ _ (λ _, True)); [apply wasRejectedEvent_quiet|intros; apply wp_true| |].
    { intros e r1 [Hs _]. split; [by left|apply Hs]. }
    intros [] r1 [Hq1 _] _; [apply wp_ret; by left|]. apply wp_catch.
    eapply wp_mono; [| |apply dispatch_handles]; [intros ? r2 [Hr2 _]; by eapply outcome_after|].
    intros err r2 ([Ho _] & Hre & _). pose proof Hq1 as [_ Hq1r]. destruct (permanentRejectionReason err) as [reason|].
    2: { apply wp_throw. split; [by eapply outcome_after|congruence]. }
    eapply wp_mono; [| |apply preserves_wp, persistRejectedEvent_silent].
    - intros _ r3 [He3 Hr3]. eapply outcome_after; [done|]. revert Ho. unfold outcome, silent. rewrite He3, Hr3. done.
    - intros _ r3 [He3 Hr3]. split; [|congruence].
      eapply outcome_after; [done|]. revert Ho. unfold outcome, silent. rewrite He3, Hr3. done. }
  unfold wp in Hw. destruct (processRepoEvent evt hostname hostID r) as [r' [[]|e]]; simpl; [by split|].
  destruct Hw as [H1 H2]. by split.
Qed.

(** C17 (safety): output before revision, and only verified output.  Whatever
    the database, the log, the directory and the upstream host do, processing
    one event emits at most one event, and that event is the incoming one for a
    commit or sync, verified: its size and operation count within the protocol
    limits, its commit loaded from its blocks, structurally valid, not from the
    future, equal in CID, DID and revision to what the message says and signed
    by the key the directory gives for the DID.  A stored repository revision
    changes only together with such an emission, to the revision of the event,
    and not at all when processing fails, so a failed event can be replayed. *)
Theorem processRepoEvent_output_first evt hostname hostID r :
  let '(r', res) := processRepoEvent evt hostname hostID r in
  outcome (out_for evt) (rev_for evt) r r' ∧ (is_ok res = false → repos (db r') = repos (db r)).
Proof. apply processRepoEvent_outcome. Qed.

(** ** Rejections *)

Lemma wasRejectedEvent_run evt hostID source r :
  rejectedEventSourceFor evt hostID = Some source → db_fail (tick r) = None →
  wasRejectedEvent evt hostID r
  = (step r, Ok (existsb (has_key (idempotencyKey source rejectionPolicyRevision)) (rejected (db r)))).
Proof.
  intros Hs Hdb. unfold wasRejectedEvent. rewrite Hs.
  unfold query, dbop, mbind, StateM_bind, call. by rewrite Hdb.
Qed.

Lemma rejected_replay evt hostname hostID source r :
  rejectedEventSourceFor evt hostID = Some source → db_fail (tick r) = None →
  existsb (has_key (idempotencyKey source rejectionPolicyRevision)) (rejected (db r)) = true →
  processRepoEvent evt hostname hostID r = (step r, Ok tt).
Proof.
  intros Hs Hdb Hk. unfold processRepoEvent, mbind, StateM_bind.
  by rewrite (wasRejectedEvent_run _ _ _ _ Hs Hdb), Hk.
Qed.

(** C29 (safety): a rejection is final, exclusive and idempotent.  Processing an
    event changes the table of rejections only by adding one row, under the key
    of the event's source position; then the event is acknowledged, nothing is
    emitted and no repository row changes, and processing the same position
    again does nothing at all.  In every other case, in particular when
    processing returns an error, no rejection is recorded. *)
Theorem rejection_exclusive evt hostname hostID source r :
  rejectedEventSourceFor evt hostID = Some source →
  let '(r', res) := processRepoEvent evt hostname hostID r in
  rejected (db r') = rejected (db r) ∨
  (silent r r' ∧ res = Ok tt ∧
   (∃ x, rejected (db r') = rejected (db r) ++ [x] ∧
         rej_IdempotencyKey x = idempotencyKey source rejectionPolicyRevision) ∧
   (db_fail (tick r') = None → processRepoEvent evt hostname hostID r' = (step r', Ok tt))).
Proof.
  intros Hs. destruct (db_fail (tick r)) as [msg|] eqn:Hdb.
  { unfold processRepoEvent, wasRejectedEvent. rewrite Hs.
    unfold query, dbop, mbind, StateM_bind, call. rewrite Hdb. by left. }
  unfold processRepoEvent at 1, mbind, StateM_bind. rewrite (wasRejectedEvent_run _ _ _ _ Hs Hdb).
  destruct (existsb _ (rejected (db r))) eqn:Hk; [by left|]. unfold catch.
  pose proof (dispatch_handles evt hostname hostID (step r)) as Hd. unfold wp in Hd.
  destruct (dispatch evt hostname hostID (step r)) as [r2 [[]|err]].
  { left. apply Hd. }
  destruct Hd as ([_ Hrej] & _ & Hperm). simpl in Hrej.
  destruct (permanentRejectionReason err) as [reason|]; [|by left]. destruct Hperm as [|Hsil]; [done|].
  unfold persistRejectedEvent. rewrite Hs. unfold wrap, catch, exec, dbop, mbind, StateM_bind, call.
  destruct (db_fail (tick r2)); [by left|]. simpl. right.
  unfold insert_rejection. rewrite Hrej, Hk. simpl. rewrite Hrej.
  split; [done|]. split; [done|]. split; [by eexists|].
  intros Hdb'. apply (rejected_replay _ _ _ source); [done|done|]. simpl. rewrite Hrej, existsb_app. simpl.
  unfold has_key at 2. simpl. by rewrite String.eqb_refl, orb_true_r.
Qed.

Lemma pretty_N_go_no_colon x s : ContainsByte ":" s = false → ContainsByte ":" (pretty_N_go x s) = false.
Proof.
  revert s. induction (N.lt_wf_0 x) as [x _ IH]. intros s Hs.
  destruct (decide (0 < x)%N) as [Hx|Hx].
  - rewrite pretty_N_go_step by done. apply IH; [by apply N.div_lt|].
    unfold pretty_N_char. repeat case_match; done.
  - assert (x = 0%N) as -> by lia. by rewrite pretty_N_go_0.
Qed.

Lemma pretty_Z_no_colon (z : Z) : ContainsByte ":" (pretty z) = false.
Proof.
  assert (HN : ∀ n : N, ContainsByte ":" (pretty n) = false).
  { intros n. unfold pretty, pretty_N. case_decide; [done|]. by apply pretty_N_go_no_colon. }
  destruct z as [|p|p]; [done|apply HN|]. change (ContainsByte ":" (String "-" (pretty (Npos p))) = false). apply HN.
Qed.

(** Rejections of different source positions never collide.
    Two events whose keys agree come from the same host, carry the same
    position and are of the same kind. *)
Theorem idempotencyKey_unique e1 h1 s1 p1 e2 h2 s2 p2 :
  rejectedEventSourceFor e1 h1 = Some s1 → rejectedEventSourceFor e2 h2 = Some s2 →
  idempotencyKey s1 p1 = idempotencyKey s2 p2 →
  h1 = h2 ∧ Sequence (Some e1) = Sequence (Some e2) ∧ rs_kind s1 = rs_kind s2 ∧ p1 = p2.
Proof.
  unfold rejectedEventSourceFor. intros Hs1 Hs2. simpl Sequence.
  destruct (repo_msg e1) as [m1|]; [|done]. destruct (repo_msg e2) as [m2|]; [|done]. simplify_eq/=.
  unfold idempotencyKey. simpl. intros Hk.
  apply sep_inj in Hk as [Hh Hk]; [|apply pretty_Z_no_colon..]. apply (inj pretty) in Hh.
  apply sep_inj in Hk as [Hp Hk]; [|apply pretty_Z_no_colon..]. apply (inj pretty) in Hp.
  apply sep_inj in Hk as [Hkind Hpol]; [|by destruct m1|by destruct m2]. done.
Qed.

(** ** Revisions *)

Definition repo_of (uid : Z) (r : Relay) : option AccountRepo :=
  List.find (λ x, repo_UID x =? uid) (repos (db r)).

Lemma find_update_same uid row rows :
  repo_UID row = uid → existsb (λ x, repo_UID x =? uid) rows = true →
  List.find (λ x, repo_UID x =? uid) (update_where (λ x, repo_UID x =? uid) (λ _, row) rows) = Some row.
Proof.
  intros Hu. induction rows as [|x rows IH]; simpl; [done|]. destruct (repo_UID x =? uid) eqn:Hx; simpl.
  - intros _. by rewrite Hu, Z.eqb_refl.
  - intros He. rewrite Hx. by apply IH.
Qed.

Lemma find_app_none {A} (f : A → bool) l k : existsb f l = false → List.find f (l ++ k) = List.find f k.
Proof. induction l as [|x l IH]; simpl; [done|]. intros [-> Hl]%orb_false_iff. by apply IH. Qed.

Lemma find_upsert uid row rows uid' :
  repo_UID row = uid →
  List.find (λ x, repo_UID x =? uid') (upsert_row uid row rows)
  = if uid =? uid' then Some row else List.find (λ x, repo_UID x =? uid') rows.
Proof.
  intros Hu. unfold upsert_row. destruct (existsb _ rows) eqn:He.
  - destruct (Z.eqb_spec uid uid') as [<-|Hne]; [by apply find_update_same|]. clear He.
    induction rows as [|x rows IH]; simpl; [done|]. destruct (repo_UID x =? uid) eqn:Hx; simpl.
    + rewrite Hu. apply Z.eqb_eq in Hx. rewrite Hx. apply Z.eqb_neq in Hne. by rewrite Hne.
    + by rewrite IH.
  - destruct (Z.eqb_spec uid uid') as [<-|Hne].
    + rewrite find_app_none by done. simpl. by rewrite Hu, Z.eqb_refl.
    + clear He. induction rows as [|x rows IH]; simpl; [|by rewrite IH].
      rewrite Hu. apply Z.eqb_neq in Hne. by rewrite Hne.
Qed.

Lemma previousRepo_wp uid r : wp (previousRepo uid) (λ p _, p = repo_of uid r) (λ _ _, True) r.
Proof.
  unfold previousRepo, GetAccountRepo, query, dbop. apply wp_attempt, wp_bind, wp_bind, wp_bind.
  unfold wp at 1, call. destruct (db_fail (tick r)); [done|]. apply wp_ret. unfold wp at 1, gets. simpl.
  unfold repo_of. by destruct (List.find _ _).
Qed.

Lemma verified_rev m : verified_commit m → cm_Rev m ≠ "".
Proof.
  intros (_ & (c & _ & _ & Hs & _ & Hr & _) & _). revert Hs. unfold VerifyStructure. rewrite Hr.
  repeat case_match; try done. intros _ He. rewrite He in *. done.
Qed.

(** The stored row of [uid] is kept, or replaced by one with a later revision. *)
Definition advanced (uid : Z) (r r' : Relay) : Prop :=
  ∀ p, repo_of uid r = Some p → repo_Rev p ≠ "" →
  ∃ p', repo_of uid r' = Some p' ∧ (p' = p ∨ str_lt (repo_Rev p) (repo_Rev p') = true).

Lemma silent_advanced uid r r' : silent r r' → advanced uid r r'.
Proof. intros [_ Hr] p Hp _. exists p. unfold repo_of in *. rewrite Hr. by split; [|left]. Qed.

Lemma emit_advanced evt kind newRepo uid r r1 :
  silent r r1 →
  (∀ p, repo_of (PrivUid evt) r = Some p → repo_Rev p ≠ "" → str_lt (repo_Rev p) (repo_Rev newRepo) = true) →
  wp (emit_and_advance evt kind (PrivUid evt) newRepo) (λ _ r', advanced uid r r') (λ _ r', advanced uid r r') r1.
Proof.
  intros Hq Hlt. eapply wp_mono; [| |apply emit_and_advance_outcome].
  - intros _ r2 [Ho _]. destruct Ho as [Hs|(e & -> & _ & [Hs|(row & v & [= <-] & Hrev & Hu & Hrows)])].
    + apply silent_advanced. by etrans.
    + intros p Hp _. exists p. split; [|by left]. destruct Hq as [_ Hq]. unfold repo_of in *. by rewrite Hs, Hq.
    + intros p Hp Hne. destruct Hq as [_ Hq]. unfold repo_of. rewrite Hrows, find_upsert, Hq by done.
      destruct (Z.eqb_spec (PrivUid evt) uid) as [<-|]; [|exists p; by split; [|left]].
      exists row. split; [done|right]. rewrite Hrev. by apply Hlt.
  - intros _ r2 (_ & _ & Hs & _) p Hp _. exists p. split; [|by left]. destruct Hq as [_ Hq].
    unfold repo_of in *. by rewrite Hs, Hq.
Qed.

Lemma advanced_after uid r r1 r2 : silent r r1 → advanced uid r1 r2 → advanced uid r r2.
Proof. intros [_ Hs] Ha p Hp. apply Ha. unfold repo_of in *. by rewrite Hs. Qed.

Lemma advanced_before uid r r1 r2 : advanced uid r r1 → silent r1 r2 → advanced uid r r2.
Proof. intros Ha [_ Hs] p Hp Hne. destruct (Ha p Hp Hne) as (p' & Hp' & Ho). exists p'. unfold repo_of in *. by rewrite Hs. Qed.

Lemma stale_lt rev p :
  stale_rev rev (Some p) = false → rev ≠ "" → repo_Rev p ≠ "" → str_lt (repo_Rev p) rev = true.
Proof.
  simpl. intros Hst Hr Hp. destruct (String.eqb_spec (repo_Rev p) ""); [done|]. destruct (String.eqb_spec rev ""); [done|].
  simpl in Hst. rewrite str_le_lt in Hst. by apply negb_false_iff in Hst.
Qed.

Lemma processCommitEvent_advanced m hostname hostID uid r :
  wp (processCommitEvent m hostname hostID) (λ _ r', advanced uid r r') (λ _ r', advanced uid r r') r.
Proof.
  unfold processCommitEvent.
  eapply quiet_bind; [apply preProcessEvent_quiet|intros; apply preProcessEvent_wp|intros e r2 [Hs _]; by apply silent_advanced|].
  intros [acc ident] r2 [Hq2 _] (d & Hd & Hi). simpl in Hi.
  eapply (quiet_bind _ _ (λ _, True)); [apply activeAccount_quiet|intros; apply wp_true|intros e r3 [Hs _]; apply silent_advanced; by etrans|].
  intros [acc'|] r3 [Hq3 _] _; [|apply wp_ret, silent_advanced; by etrans].
  assert (Hq23 : silent r r3) by by etrans. apply wp_bind.
  pose proof (wp_conj _ _ _ _ _ _ (preserves_wp _ _ r3 (previousRepo_quiet (acc_UID acc'))) (previousRepo_wp (acc_UID acc') r3)) as Hp.
  revert Hp. apply wp_mono; [|intros e r4 [[Hs _] _]; apply silent_advanced; by etrans].
  intros prev r4 [[Hq4 _] Hprev]. assert (Hsil : silent r r4) by by etrans.
  destruct (stale_rev (cm_Rev m) prev) eqn:Hst; [by apply wp_ret, silent_advanced|].
  eapply quiet_bind; [apply VerifyRepoCommit_quiet|intros; by eapply VerifyRepoCommit_wp|intros e r5 [Hs _]; apply silent_advanced; by etrans|].
  intros newRepo r5 [Hq5 _] [Hv Hrev].
  apply (emit_advanced (commitEvent m (acc_UID acc'))); [by etrans|]. simpl.
  intros p Hp Hne. rewrite Hrev. apply stale_lt; [|by apply verified_rev|done].
  rewrite <-Hst. f_equal. rewrite Hprev. unfold repo_of in *. by rewrite (proj2 Hq23).
Qed.

(** A commit never moves a repository back.  However events
    are replayed, reordered or forged, processing a commit event leaves the
    stored revision of every repository as it is or replaces it by a strictly
    later one. *)
Theorem commit_revision_monotone evt m hostname hostID uid r :
  repo_msg evt = Some (MCommit m) →
  advanced uid r (processRepoEvent evt hostname hostID r).1.
Proof.
  intros Hm.
  assert (Hw : wp (processRepoEvent evt hostname hostID) (λ _ r', advanced uid r r') (λ _ r', advanced uid r r') r).
  { unfold processRepoEvent.
    eapply (quiet_bind _ _ (λ _, True)); [apply wasRejectedEvent_quiet|intros; apply wp_true|intros e r1 [Hs _]; by apply silent_advanced|].
    intros [] r1 [Hq1 _] _; [apply wp_ret; by apply silent_advanced|]. apply wp_catch.
    unfold dispatch. rewrite Hm.
    eapply wp_mono; [| |apply processCommitEvent_advanced]; [intros ? r2 Ha; exact (advanced_after _ _ _ _ Hq1 Ha)|].
    intros err r2 Ha. apply (advanced_after _ _ _ _ Hq1) in Ha.
    destruct (permanentRejectionReason err) as [reason|]; [|by apply wp_throw].
    eapply wp_mono; [| |apply preserves_wp, persistRejectedEvent_silent]; intros ? r3 Hs; exact (advanced_before _ _ _ _ Ha Hs). }
  unfold wp in Hw. by destruct (processRepoEvent evt hostname hostID r) as [r' [[]|e]].
Qed.

End Ingest.

(** * The contents behind the relay's output

    The relay composed with the repository layer: what a commit event that the
    relay passes on says about the repository, when strict validation is on. *)

Section Contents.
Context `{Services} `{!CborLaws} `{!CarLaws} `{!SortLaws}.

(** C3 (safety): what the relay passes on is true of the repository, for the commits that
    it can check.  Let strict validation be on, and let a commit message have a [prevData]
    and no operation of the legacy form (an update or a deletion without [prev], whose
    message is passed on without a check of its operations).  When processing it adds
    an event to the output, the commit in its blocks is signed by a key the directory
    gives for the repository's DID, and the operations of the message are exactly the
    changes from the contents behind [prevData] to the contents behind the signed data
    root, whatever the database, the log, the directory and the sender do; different
    blocks are taken to have different CIDs. *)
Theorem emitted_commit_contents evt msg hostname hostID r c0 m0 commit cc m :
  collision_free → LenientSyncValidation Config = false →
  repo_msg evt = Some (MCommit msg) →
  events (processRepoEvent evt hostname hostID r).1 ≠ events r →
  existsb legacy_op (cm_Ops msg) = false → cm_PrevData msg = Some c0 →
  LoadCommitFromCAR (cm_Blocks msg) = Ok (commit, cc) →
  valid_contents m0 → root_of m0 = Ok c0 →
  valid_contents m → root_of m = Ok (rc_Data commit) →
  signed_for (cm_Repo msg) commit ∧ rc_DID commit = cm_Repo msg ∧
  ∃ ops, parseCommitOps (cm_Ops msg) = Ok ops ∧ explains ops m0 m.
Proof.
  intros Hcf Hstrict Hmsg Hev Hleg Hprev Hcommit Hv0 Hr0 Hv Hr. pose proof (processRepoEvent_outcome evt hostname hostID r) as Ho.
  destruct (processRepoEvent evt hostname hostID r) as [r' res]. simpl in Hev. destruct Ho as [[[Hs _]|(e & Hout & _)] _]; [done|].
  unfold out_for in Hout. rewrite Hmsg in Hout. destruct Hout as (_ & _ & (c & _ & Hl & _ & Hd & _ & Hsig & _) & Hvm).
  rewrite Hcommit in Hl. injection Hl as <- ->. split; [done|]. split; [done|].
  destruct (Hvm Hstrict) as (Hok & _). destruct (VerifyCommitMessage msg) as [repo|] eqn:Hvc; [|done].
  by eapply VerifyCommitMessage_changes.
Qed.
End Contents.
