(* ===== verification/RelayAccountProofs.v ===== *)
(** * The accounts and the hosts' account counts

    The number of accounts the relay believes a host to have decides admission.
    It is kept in a column that several transactions adjust, and accounts are
    read through a cache; the invariant here says that the column is exact and
    the cache current, and every operation keeps it. *)

From S2P Require Import Prelude GoStrings Syntax Stream StateMonad Hostname Relay RelayAccount RelayHost RelaySources RelayVerify RelayIngest RelayFrame.
Local Open Scope Z_scope.

(** ** Counting rows *)

Definition b2z (b : bool) : Z := if b then 1 else 0.

Lemma count_where_nil {A} (p : A → bool) : count_where p [] = 0.
Proof. done. Qed.

Lemma count_where_cons {A} (p : A → bool) x l : count_where p (x :: l) = b2z (p x) + count_where p l.
Proof. unfold count_where. simpl. destruct (p x); simpl length; unfold b2z; lia. Qed.

Lemma count_where_app {A} (p : A → bool) l k : count_where p (l ++ k) = count_where p l + count_where p k.
Proof. induction l as [|x l IH]; simpl app; [done|]. rewrite !count_where_cons, IH. lia. Qed.

Lemma count_where_nonneg {A} (p : A → bool) l : 0 ≤ count_where p l.
Proof. unfold count_where. lia. Qed.

Lemma count_where_in {A} (p : A → bool) l x : x ∈ l → p x = true → 0 < count_where p l.
Proof.
  induction 1 as [x l|x y l Hx IH]; intros Hp; rewrite count_where_cons.
  - rewrite Hp. pose proof (count_where_nonneg p l). simpl. lia.
  - specialize (IH Hp). destruct (p y); simpl; lia.
Qed.

Lemma count_where_zero {A} (p : A → bool) l : Forall (λ x, p x = false) l → count_where p l = 0.
Proof. induction 1 as [|x l Hx _ IH]; [done|]. by rewrite count_where_cons, Hx, IH. Qed.

Lemma update_where_none {A} (p : A → bool) f l : Forall (λ x, p x = false) l → update_where p f l = l.
Proof. induction 1 as [|x l Hx _ IH]; [done|]. simpl. rewrite Hx. f_equal. apply IH. Qed.

Lemma map_update_where {A B} (g : A → B) p f l : (∀ x, g (f x) = g x) → map g (update_where p f l) = map g l.
Proof. intros Hg. unfold update_where. rewrite map_map. apply map_ext. intros x. by case_match. Qed.

Lemma Forall_update_where {A} (P : A → Prop) p f l :
  (∀ x, P x → P (f x)) → Forall P l → Forall P (update_where p f l).
Proof. intros Hf Hl. unfold update_where. apply Forall_map. eapply Forall_impl; [exact Hl|]. intros x Hx. simpl. case_match; auto. Qed.

Lemma elem_of_update_where {A} (p : A → bool) f l y :
  y ∈ update_where p f l ↔ ∃ x, x ∈ l ∧ y = if p x then f x else x.
Proof. unfold update_where. rewrite list_elem_of_In, in_map_iff. setoid_rewrite list_elem_of_In. naive_solver. Qed.

(** Updating one row, found by its key. *)
Lemma count_update_one {A} (key : A → Z) (p : A → bool) (f : A → A) l x :
  NoDup (map key l) → x ∈ l →
  count_where p (update_where (λ y, key y =? key x) f l) = count_where p l - b2z (p x) + b2z (p (f x)).
Proof.
  intros Hnd Hx. induction Hx as [x l|x y l Hx IH]; simpl in Hnd; apply NoDup_cons in Hnd as [Hn Hnd].
  - simpl. rewrite Z.eqb_refl, !count_where_cons.
    change (map _ l) with (update_where (λ y, key y =? key x) f l).
    rewrite update_where_none; [lia|]. apply Forall_forall. intros y Hy. apply Z.eqb_neq. intros Heq.
    apply Hn. rewrite <-Heq. by apply (list_elem_of_fmap_2 key).
  - simpl. destruct (Z.eqb_spec (key y) (key x)) as [Heq|_].
    { exfalso. apply Hn. rewrite Heq. by apply (list_elem_of_fmap_2 key). }
    rewrite !count_where_cons. change (map _ l) with (update_where (λ y, key y =? key x) f l).
    rewrite IH by done. lia.
Qed.

(** Rows with equal keys are equal. *)
Lemma key_unique {A B} (key : A → B) l x y : NoDup (map key l) → x ∈ l → y ∈ l → key x = key y → x = y.
Proof.
  intros Hnd Hx Hy Heq. apply list_elem_of_lookup in Hx as [i Hi], Hy as [j Hj].
  assert (i = j) as <-; [|congruence]. eapply (NoDup_lookup _ i j (key x) Hnd).
  - change (map key l) with (key <$> l). by rewrite list_lookup_fmap, Hi.
  - change (map key l) with (key <$> l). rewrite list_lookup_fmap, Hj. simpl. by rewrite Heq.
Qed.

Lemma count_where_one {A B} (key : A → B) (p : A → bool) l x :
  NoDup (map key l) → x ∈ l → p x = true → (∀ y, y ∈ l → p y = true → key y = key x) → count_where p l = 1.
Proof.
  intros Hnd Hx Hp Hu. induction Hx as [x l|x y l Hx IH]; simpl in Hnd; apply NoDup_cons in Hnd as [Hn Hnd];
    rewrite count_where_cons.
  - rewrite Hp, count_where_zero; [done|]. apply Forall_forall. intros y Hy. apply not_true_is_false. intros Hpy.
    apply Hn. rewrite <-(Hu y); [by apply (list_elem_of_fmap_2 key)|by right|done].
  - rewrite IH; [|done|done|intros z Hz; apply Hu; by right]. destruct (p y) eqn:Hpy; [|done]. exfalso. apply Hn.
    rewrite (Hu y); [by apply (list_elem_of_fmap_2 key)|by left|done].
Qed.

(** ** The invariant *)

Definition on_host (h : Host) (a : Account) : bool := acc_HostID a =? host_ID h.

Record ainv (d : DB) (cache : gmap string Account) : Prop := {
  ai_uids : NoDup (map acc_UID (accounts d));
  ai_uid_lt : Forall (λ a, 0 < acc_UID a < next_uid d) (accounts d);
  ai_next : 0 < next_uid d ∧ 0 < next_host d;
  ai_dids : NoDup (map acc_DID (accounts d));
  ai_hosts : NoDup (map host_ID (hosts d));
  ai_host_lt : Forall (λ h, 0 < host_ID h < next_host d) (hosts d);
  ai_refs : Forall (λ a, acc_HostID a < next_host d) (accounts d);
  ai_counts : Forall (λ h, host_AccountCount h = count_where (on_host h) (accounts d)) (hosts d);
  ai_cache : map_Forall (λ did a, a ∈ accounts d ∧ acc_DID a = did) cache;
}.

Definition acct_inv (r : Relay) : Prop := ainv (db r) (accountCache r).

Lemma ainv_cache_add d cache a did :
  ainv d cache → a ∈ accounts d → acc_DID a = did → ainv d (<[did := a]> cache).
Proof. intros [] Ha Hd. constructor; try done. by apply map_Forall_insert_2. Qed.

Lemma ainv_cache_remove d cache did : ainv d cache → ainv d (delete did cache).
Proof. intros []. constructor; try done. by apply map_Forall_delete. Qed.

(** Creating an account, with its host's count raised. *)
Definition raise_count (hostID : Z) (hs : list Host) : list Host :=
  update_where (host_is hostID) (λ h, host_set_AccountCount (host_AccountCount h + 1) h) hs.
Definition lower_count (hostID : Z) (hs : list Host) : list Host :=
  update_where (λ h, host_is hostID h && (0 <? host_AccountCount h)) (λ h, host_set_AccountCount (host_AccountCount h - 1) h) hs.

Lemma ainv_create d cache hostID a :
  ainv d cache → acc_HostID a = hostID → acc_UID a = next_uid d → hostID < next_host d →
  existsb (did_is (acc_DID a)) (accounts d) = false →
  ainv (add_account a (set_hosts (raise_count hostID (hosts d)) d)) cache.
Proof.
  intros [] Hh Hu Hlt Hd. constructor; simpl.
  - rewrite map_app. apply NoDup_app. split; [done|]. split; [|apply NoDup_singleton].
    intros u Hu1 Hu2. apply list_elem_of_singleton in Hu2 as ->.
    apply (list_elem_of_fmap acc_UID) in Hu1 as (b & Hb & Hin). rewrite Forall_forall in ai_uid_lt0.
    specialize (ai_uid_lt0 b Hin). lia.
  - apply Forall_app. split; [eapply Forall_impl; [exact ai_uid_lt0|simpl; lia]|]. apply Forall_singleton. lia.
  - lia.
  - rewrite map_app. apply NoDup_app. split; [done|]. split; [|apply NoDup_singleton].
    intros u Hu1 Hu2. apply list_elem_of_singleton in Hu2 as ->.
    apply (list_elem_of_fmap acc_DID) in Hu1 as (b & Hb & Hin).
    assert (existsb (did_is (acc_DID a)) (accounts d) = true); [|congruence].
    apply existsb_exists. exists b. split; [by apply list_elem_of_In|]. unfold did_is. rewrite Hb. apply String.eqb_refl.
  - unfold raise_count. by rewrite map_update_where.
  - by apply Forall_update_where.
  - apply Forall_app. split; [done|]. apply Forall_singleton. lia.
  - apply Forall_forall. intros h Hin. apply elem_of_update_where in Hin as (h0 & Hin & ->).
    rewrite Forall_forall in ai_counts0. specialize (ai_counts0 h0 Hin).
    unfold on_host. rewrite count_where_app, count_where_cons, count_where_nil.
    unfold host_is. destruct (Z.eqb_spec (host_ID h0) hostID) as [Heq|Hne]; simpl; fold (on_host h0).
    + rewrite ai_counts0, Hh, Heq, Z.eqb_refl. unfold on_host. rewrite Heq. simpl. lia.
    + rewrite ai_counts0, Hh. destruct (Z.eqb_spec hostID (host_ID h0)); [congruence|]. simpl. unfold on_host. lia.
  - intros did b Hb. destruct (ai_cache0 did b Hb) as [Hin Hdid]. split; [|done]. simpl. apply elem_of_app. by left.
Qed.

(** Changing columns of one account other than its keys and its host. *)
Lemma ainv_update_account d cache did acc f :
  ainv d cache → acc ∈ accounts d → acc_DID acc = did →
  (∀ a, acc_UID (f a) = acc_UID a ∧ acc_DID (f a) = acc_DID a ∧ acc_HostID (f a) = acc_HostID a) →
  ainv (set_accounts (update_where (uid_is (acc_UID acc)) f (accounts d)) d) (delete did cache).
Proof.
  intros [] Hin Hdid Hf.
  assert (Hcount : ∀ h, count_where (on_host h) (update_where (uid_is (acc_UID acc)) f (accounts d))
                        = count_where (on_host h) (accounts d)).
  { intros h. unfold uid_is. rewrite (count_update_one acc_UID) by done. unfold on_host.
    destruct (Hf acc) as (_ & _ & ->). lia. }
  constructor; simpl; try done.
  - by rewrite map_update_where by apply Hf.
  - apply Forall_update_where; [|done]. intros a. by destruct (Hf a) as (-> & _ & _).
  - by rewrite map_update_where by apply Hf.
  - apply Forall_update_where; [|done]. intros a. by destruct (Hf a) as (_ & _ & ->).
  - eapply Forall_impl; [exact ai_counts0|]. intros h ->. by rewrite Hcount.
  - intros did' b Hb%lookup_delete_Some. destruct Hb as [Hne Hb]. destruct (ai_cache0 did' b Hb) as [Hbin Hbd].
    split; [|done]. apply elem_of_update_where. exists b. split; [done|]. unfold uid_is.
    destruct (Z.eqb_spec (acc_UID b) (acc_UID acc)) as [Heq|]; [|done]. exfalso. apply Hne.
    by rewrite <-Hdid, <-Hbd, (key_unique acc_UID (accounts d) b acc).
Qed.

(** Moving an account: both hosts' counts follow. *)
Lemma counts_moved (d : DB) cache acc hostID (g : Account → Account) h :
  ainv d cache → acc ∈ accounts d → acc_HostID acc ≠ hostID → (∀ a, acc_HostID (g a) = hostID) →
  h ∈ raise_count hostID (lower_count (acc_HostID acc) (hosts d)) →
  host_AccountCount h = count_where (on_host h) (update_where (uid_is (acc_UID acc)) g (accounts d)).
Proof.
  intros [] Hin Hne Hg Hh. unfold uid_is. rewrite (count_update_one acc_UID) by done.
  apply elem_of_update_where in Hh as (h1 & Hh1 & ->). apply elem_of_update_where in Hh1 as (h0 & Hh0 & ->).
  rewrite Forall_forall in ai_counts0. specialize (ai_counts0 h0 Hh0).
  unfold host_is, on_host. rewrite Hg.
  destruct (Z.eqb_spec (host_ID h0) (acc_HostID acc)) as [Hold|Hold]; simpl.
  - assert (0 < host_AccountCount h0) as Hpos.
    { rewrite ai_counts0. apply (count_where_in _ _ acc Hin). unfold on_host. rewrite Hold. apply Z.eqb_refl. }
    rewrite (proj2 (Z.ltb_lt _ _) Hpos). simpl.
    destruct (Z.eqb_spec (host_ID h0) hostID) as [|Hn]; [congruence|]. simpl. rewrite ai_counts0.
    rewrite Hold, Z.eqb_refl. destruct (Z.eqb_spec hostID (acc_HostID acc)); [congruence|]. unfold b2z.
    unfold on_host. rewrite Hold. lia.
  - destruct (Z.eqb_spec (host_ID h0) hostID) as [Hnew|Hn]; simpl; rewrite ai_counts0.
    + rewrite Hnew, Z.eqb_refl. destruct (Z.eqb_spec (acc_HostID acc) hostID); [congruence|]. unfold b2z.
      unfold on_host. rewrite Hnew. lia.
    + destruct (Z.eqb_spec (acc_HostID acc) (host_ID h0)); [congruence|].
      destruct (Z.eqb_spec hostID (host_ID h0)); [congruence|]. unfold b2z, on_host. lia.
Qed.

Lemma ainv_move d cache acc hostID status :
  ainv d cache → acc ∈ accounts d → acc_HostID acc ≠ hostID → hostID < next_host d →
  ainv (set_accounts (update_where (uid_is (acc_UID acc)) (λ a, acc_set_Status status (acc_set_HostID hostID a)) (accounts d))
         (set_hosts (raise_count hostID (lower_count (acc_HostID acc) (hosts d))) d)) (delete (acc_DID acc) cache).
Proof.
  intros Hi Hin Hne Hlt. pose proof Hi as Hi'. destruct Hi. constructor; simpl; try done.
  - by rewrite map_update_where.
  - by apply Forall_update_where.
  - by rewrite map_update_where.
  - unfold raise_count, lower_count. by rewrite !map_update_where.
  - apply Forall_update_where; [done|]. by apply Forall_update_where.
  - by apply Forall_update_where.
  - apply Forall_forall. intros h Hh. by eapply counts_moved.
  - intros did' b Hb%lookup_delete_Some. destruct Hb as [Hd Hb]. destruct (ai_cache0 did' b Hb) as [Hbin Hbd].
    split; [|done]. apply elem_of_update_where. exists b. split; [done|]. unfold uid_is.
    destruct (Z.eqb_spec (acc_UID b) (acc_UID acc)) as [Heq|]; [|done]. exfalso. apply Hd.
    by rewrite <-Hbd, (key_unique acc_UID (accounts d) b acc).
Qed.

(** Changing columns of hosts other than the key and the count. *)
Lemma ainv_hosts d cache p f :
  (∀ h, host_ID (f h) = host_ID h ∧ host_AccountCount (f h) = host_AccountCount h) →
  ainv d cache → ainv (set_hosts (update_where p f (hosts d)) d) cache.
Proof.
  intros Hf []. constructor; simpl; try done.
  - by rewrite map_update_where by apply Hf.
  - apply Forall_update_where; [|done]. intros h. by destruct (Hf h) as [-> _].
  - apply Forall_update_where; [|done]. intros h. unfold on_host. by destruct (Hf h) as [-> ->].
Qed.

Lemma ainv_add_host d cache h :
  host_ID h = next_host d → host_AccountCount h = 0 → ainv d cache → ainv (add_host h d) cache.
Proof.
  intros Hid Hc []. constructor; simpl; try done.
  - lia.
  - rewrite map_app. apply NoDup_app. split; [done|]. split; [|apply NoDup_singleton].
    intros u Hu1 Hu2. apply list_elem_of_singleton in Hu2 as ->.
    apply (list_elem_of_fmap host_ID) in Hu1 as (b & Hb & Hin). rewrite Forall_forall in ai_host_lt0.
    specialize (ai_host_lt0 b Hin). lia.
  - apply Forall_app. split; [eapply Forall_impl; [exact ai_host_lt0|simpl; lia]|]. apply Forall_singleton. lia.
  - eapply Forall_impl; [exact ai_refs0|simpl; lia].
  - apply Forall_app. split; [done|]. apply Forall_singleton. rewrite Hc, count_where_zero; [done|].
    eapply Forall_impl; [exact ai_refs0|]. intros a Ha. simpl in *. apply Z.eqb_neq. lia.
Qed.

(** Other tables do not matter. *)
Lemma ainv_same_tables d d' cache :
  accounts d' = accounts d → hosts d' = hosts d → next_uid d' = next_uid d → next_host d' = next_host d →
  ainv d cache → ainv d' cache.
Proof. intros H1 H2 H3 H4 []. constructor; rewrite ?H1, ?H2, ?H3, ?H4; done. Qed.

(** ** The operations *)

(** The part of the state the invariant reads is untouched. *)
Definition acct_same (r r' : Relay) : Prop :=
  accounts (db r') = accounts (db r) ∧ hosts (db r') = hosts (db r) ∧
  next_uid (db r') = next_uid (db r) ∧ next_host (db r') = next_host (db r) ∧
  accountCache r' = accountCache r.

#[export] Instance acct_same_frame : Frame acct_same.
Proof.
  split; [split; [done|]|done|by intros r r' (? & ? & ? & ? & ?)].
  intros r1 r2 r3 (H1 & H2 & H3 & H4 & H5) (K1 & K2 & K3 & K4 & K5). unfold acct_same. split_and!; congruence.
Qed.

Lemma acct_same_inv r r' : acct_same r r' → acct_inv r → acct_inv r'.
Proof. intros (H1 & H2 & H3 & H4 & H5) Hi. unfold acct_inv in *. rewrite H5. by eapply ainv_same_tables. Qed.

Ltac same_tac := frame_stmt; repeat split; reflexivity.

Section Operations.
Context `{Services}.

Lemma LookupDID_same did : preserves acct_same (LookupDID did).
Proof. unfold LookupDID. frames. Qed.
Lemma Purge_same did : preserves acct_same (Purge did).
Proof. unfold Purge. frames. Qed.
#[local] Hint Resolve LookupDID_same Purge_same : frame.
Lemma resolve_pds_same did msg : preserves acct_same (resolve_pds did msg).
Proof. unfold resolve_pds. frames. Qed.
Lemma available_same did : preserves acct_same (available did).
Proof. unfold available. frames. Qed.
Lemma ObserveAccountSource_same did hostID host : preserves acct_same (ObserveAccountSource did hostID host).
Proof. unfold ObserveAccountSource, Now. frames; same_tac. Qed.
Lemma AddEvent_same evt : preserves acct_same (AddEvent evt).
Proof. unfold AddEvent. frames; same_tac. Qed.
Lemma FetchAccountStatus_same did i : preserves acct_same (FetchAccountStatus did i).
Proof. unfold FetchAccountStatus. frames. Qed.
Lemma previousRepo_same uid : preserves acct_same (previousRepo uid).
Proof. unfold previousRepo, GetAccountRepo. frames. Qed.
Lemma VerifyCommitObject_same c i : preserves acct_same (VerifyCommitObject c i).
Proof. unfold VerifyCommitObject, Now. frames. Qed.
#[local] Hint Resolve VerifyCommitObject_same AddEvent_same : frame.
Lemma verifyCommitObjectWithRefresh_same c i d : preserves acct_same (verifyCommitObjectWithRefresh c i d).
Proof. unfold verifyCommitObjectWithRefresh. frames. Qed.
#[local] Hint Resolve verifyCommitObjectWithRefresh_same : frame.
Lemma VerifyRepoCommit_same evt i p : preserves acct_same (VerifyRepoCommit evt i p).
Proof. unfold VerifyRepoCommit. frames. Qed.
Lemma VerifyRepoSync_same evt i : preserves acct_same (VerifyRepoSync evt i).
Proof. unfold VerifyRepoSync. frames. Qed.
Lemma emit_and_advance_same evt kind uid p : preserves acct_same (emit_and_advance evt kind uid p).
Proof. unfold emit_and_advance, UpsertAccountRepo. frames; same_tac. Qed.
Lemma persistRejectedEvent_same evt hostID reason : preserves acct_same (persistRejectedEvent evt hostID reason).
Proof. unfold persistRejectedEvent. frames. frame_stmt. unfold insert_rejection. by case_match. Qed.
Lemma wasRejectedEvent_same evt hostID : preserves acct_same (wasRejectedEvent evt hostID).
Proof. unfold wasRejectedEvent. frames. Qed.

(** A step that leaves accounts and hosts alone keeps the invariant. *)
Lemma same_bind {A B} (m : R A) (f : A → R B) Q (F : goerr → Relay → Prop) r :
  preserves acct_same m → acct_inv r → (∀ e r', acct_inv r' → F e r') →
  (∀ a r', acct_same r r' → acct_inv r' → wp (f a) Q F r') → wp (m ≫= f) Q F r.
Proof.
  intros Hm Hi HF Hk. apply wp_bind. eapply wp_mono; [| |apply preserves_wp, Hm].
  - intros a r1 Hs. apply Hk; [done|]. exact (acct_same_inv _ _ Hs Hi).
  - intros e r1 Hs. apply HF. exact (acct_same_inv _ _ Hs Hi).
Qed.

Lemma same_inv {A} (m : R A) r :
  preserves acct_same m → acct_inv r → wp m (λ _ r', acct_inv r') (λ _ r', acct_inv r') r.
Proof.
  intros Hm Hi. eapply wp_mono; [| |apply preserves_wp, Hm]; intros ? r1 Hs; exact (acct_same_inv _ _ Hs Hi).
Qed.

Lemma acct_inv_step r : acct_inv r → acct_inv (step r).
Proof. done. Qed.

Lemma GetAccount_inv did r :
  acct_inv r →
  wp (GetAccount did) (λ a r', acct_inv r' ∧ db r' = db r ∧ a ∈ accounts (db r') ∧ acc_DID a = did)
     (λ _ r', acct_inv r' ∧ db r' = db r) r.
Proof.
  intros Hi. unfold GetAccount. apply wp_gets_bind. destruct (accountCache r !! did) as [a|] eqn:Hc.
  { apply wp_ret. destruct (ai_cache _ _ Hi did a Hc) as [Hin Hd]. by split_and!. }
  apply wp_bind, query_wp; [|done]. destruct (List.find (did_is did) (accounts (db r))) as [a|] eqn:Hf; [|done].
  apply find_some in Hf as [Hin Hd]. apply list_elem_of_In in Hin. unfold did_is in Hd. bool_to_prop.
  case_match; [done|]. apply wp_bind, wp_modify, wp_ret. split_and!; try done. by apply ainv_cache_add.
Qed.

(** Admission: the new account is active only while its host is within its limit. *)
Lemma CreateAccountHost_inv did hostID hostname r :
  acct_inv r →
  wp (CreateAccountHost did hostID hostname)
     (λ a r', acct_inv r' ∧ a ∈ accounts (db r') ∧ acc_DID a = did ∧ acc_HostID a = hostID ∧
        acc_UpstreamStatus a = AccountStatusActive ∧
        ∃ h, h ∈ hosts (db r') ∧ host_ID h = hostID ∧
          ((acc_Status a = AccountStatusActive ∧ host_AccountCount h ≤ host_AccountLimit h) ∨
           (acc_Status a = AccountStatusHostThrottled ∧ host_AccountLimit h < host_AccountCount h)))
     (λ _ r', acct_inv r') r.
Proof.
  intros Hi. unfold CreateAccountHost. apply wp_bind, wp_wrap.
  eapply wp_mono; [| |apply preserves_wp, LookupDID_same]; [|intros e r1 Hs; exact (acct_same_inv _ _ Hs Hi)].
  intros ident r1 Hs. pose proof (acct_same_inv _ _ Hs Hi) as Hi1. clear Hi Hs.
  destruct ident as [ident|]; [|done]. case_match; [done|]. destruct (ParseHostname _) as [[ph ns]|]; [|done].
  case_match; [done|]. apply wp_bind, Transaction_wp; [done|].
  apply wp_bind, wp_wrap, exec_wp; [|done]. apply wp_bind. unfold first_host. apply wp_bind, query_wp; [|done].
  simpl. destruct (List.find (host_is hostID) _) as [h|] eqn:Hf; [|done].
  apply find_some in Hf as [Hin Hh]. apply list_elem_of_In in Hin. unfold host_is in Hh. bool_to_prop.
  apply wp_ret, wp_wrap. unfold create_account. apply wp_bind.
  unfold dbop. apply wp_bind. unfold wp at 1, call. simpl. destruct (db_fail _); [done|]. apply wp_ret, wp_gets_bind. simpl.
  destruct (existsb (did_is did) (accounts (db r1))) eqn:Hex; [done|]. apply wp_bind, wp_modify, wp_ret. simpl.
  split; [|done]. apply wp_bind, wp_modify, wp_ret. simpl.
  set (acc := mkAccount _ _ _ _ _).
  assert (Hnew : ainv (add_account acc (set_hosts (raise_count hostID (hosts (db r1))) (db r1))) (accountCache r1)).
  { apply ainv_create; try done. pose proof (ai_host_lt _ _ Hi1) as Hlt.
    apply elem_of_update_where in Hin as (h0 & Hin & ->). rewrite Forall_forall in Hlt. specialize (Hlt h0 Hin).
    assert (host_ID h0 = hostID) by (revert Hh; by case_match). lia. }
  split_and!; try done.
  - apply ainv_cache_add; [done| |done]. simpl. apply elem_of_app. right. set_solver.
  - simpl. apply elem_of_app. right. set_solver.
  - exists h. split; [done|]. split; [done|]. simpl. destruct (Z.ltb_spec (host_AccountLimit h) (host_AccountCount h)); auto.
Qed.

Lemma find_host_lt (d : DB) cache hostID (hs : list Host) h :
  ainv d cache → map host_ID hs = map host_ID (hosts d) → List.find (host_is hostID) hs = Some h → hostID < next_host d.
Proof.
  intros [] Hids [Hin Hh]%find_some. unfold host_is in Hh. bool_to_prop. apply list_elem_of_In in Hin.
  assert (Hm : host_ID h ∈ map host_ID hs) by by apply (list_elem_of_fmap_2 host_ID).
  rewrite Hids in Hm. apply (list_elem_of_fmap host_ID) in Hm as (h0 & Heq & Hin0).
  rewrite Forall_forall in ai_host_lt0. specialize (ai_host_lt0 h0 Hin0). lia.
Qed.

(** The account that comes back is a current row on the event's host, unless
    the deployment skips the host check. *)
Lemma EnsureAccountHost_inv acc hostID hostname r :
  acct_inv r → acc ∈ accounts (db r) →
  wp (EnsureAccountHost acc hostID hostname)
     (λ a r', acct_inv r' ∧ a ∈ accounts (db r') ∧ acc_DID a = acc_DID acc ∧ acc_UID a = acc_UID acc ∧
              (acc_HostID a = hostID ∨ SkipAccountHostCheck Config = true))
     (λ _ r', acct_inv r') r.
Proof.
  intros Hi Hin. unfold EnsureAccountHost. destruct (Z.eqb_spec (acc_HostID acc) hostID) as [Heq|Hne].
  { apply wp_ret. split_and!; try done. by left. }
  apply same_bind; [apply resolve_pds_same|done|done|]. intros [i ph] r1 Hs1 Hi1.
  apply same_bind; [pose proof resolve_pds_same; frames|done|done|]. intros ph' r2 Hs2 Hi2.
  assert (Hin2 : acc ∈ accounts (db r2)).
  { destruct Hs1 as [Hs1 _], Hs2 as [Hs2 _]. by rewrite Hs2, Hs1. }
  case_match; [case_match; [apply wp_ret; split_and!; try done; by right|done]|].
  apply wp_bind, Transaction_wp; [done|].
  apply wp_bind, wp_wrap, exec_wp; [|done]. apply wp_bind, wp_wrap, exec_wp; [|done].
  apply wp_bind. unfold first_host. apply wp_bind, query_wp; [|done]. simpl.
  destruct (List.find (host_is hostID) _) as [h|] eqn:Hf; [|done]. apply wp_ret.
  eapply find_host_lt in Hf; [|exact Hi2|by rewrite !map_update_where].
  match goal with |- context [acc_UID ?x] => set (acc' := x) end.
  assert (Hacc : acc_UID acc' = acc_UID acc ∧ acc_DID acc' = acc_DID acc ∧ acc_UpstreamStatus acc' = acc_UpstreamStatus acc)
    by (subst acc'; by case_match). destruct Hacc as (Hu & Hd & Hup).
  apply wp_bind, wp_wrap, exec_wp; [|done]. apply wp_ret. split; [|done]. apply wp_bind, wp_modify, wp_ret. simpl.
  rewrite Hu. split_and!; [| |by rewrite Hd|done|by left].
  - exact (ainv_move (db r2) _ acc hostID (acc_Status acc') Hi2 Hin2 Hne Hf).
  - apply elem_of_update_where. exists acc. split; [done|]. unfold uid_is. rewrite Z.eqb_refl.
    destruct acc as [u di ho st up], acc' as [u' di' ho' st' up']; simpl in *; by subst.
Qed.

Lemma UpdateAccountUpstreamStatus_inv acc status r :
  acct_inv r → acc ∈ accounts (db r) →
  wp (UpdateAccountUpstreamStatus (acc_DID acc) (acc_UID acc) status)
     (λ _ r', acct_inv r' ∧ acc_set_UpstreamStatus status acc ∈ accounts (db r'))
     (λ e r', acct_inv r' ∧ errors_Is e ErrAccountInactive = false) r.
Proof.
  intros Hi Hin. unfold UpdateAccountUpstreamStatus. apply wp_bind, wp_wrap, exec_wp; [|done]. apply wp_modify. split.
  - by apply (ainv_update_account _ _ _ acc).
  - simpl. apply elem_of_update_where. exists acc. split; [done|]. unfold uid_is. by rewrite Z.eqb_refl.
Qed.

(** Success means active; inactivity is reported of a current row. *)
Lemma EnsureAccountActive_inv acc r :
  acct_inv r → acc ∈ accounts (db r) →
  wp (EnsureAccountActive acc)
     (λ a r', acct_inv r' ∧ a ∈ accounts (db r') ∧ acc_UID a = acc_UID acc ∧ acc_DID a = acc_DID acc ∧ IsActive a = true)
     (λ e r', acct_inv r' ∧ (errors_Is e ErrAccountInactive = true →
        ∃ a, a ∈ accounts (db r') ∧ acc_DID a = acc_DID acc ∧ IsActive a = false)) r.
Proof.
  intros Hi Hin. unfold EnsureAccountActive. destruct (IsActive acc) eqn:Hact; [by apply wp_ret|].
  case_match; [apply wp_throw; split; [done|]; intros _; by exists acc|].
  apply wp_bind, wp_wrap. unfold wp at 1, LookupDID, mbind, StateM_bind, call.
  destruct (dir_lookup (tick r) (acc_DID acc)) as [[i|]|]; [|done|done]. simpl. apply wp_bind.
  unfold FetchAccountStatus. destruct (String.eqb (id_PDSEndpoint i) ""); [done|]. apply wp_bind. unfold wp at 1, call.
  set (r1 := step (step r)). assert (Hi1 : acct_inv r1) by done. assert (Hin1 : acc ∈ accounts (db r1)) by done.
  assert (Hk : ∀ status, wp (acc ← (if negb (String.eqb (acc_UpstreamStatus acc) status) then
        UpdateAccountUpstreamStatus (acc_DID acc) (acc_UID acc) status ;; mret (acc_set_UpstreamStatus status acc)
      else mret acc);
      if IsActive acc then mret acc else throw (Wrap "upstream status" (Sentinel ErrAccountInactive)))
     (λ a r', acct_inv r' ∧ a ∈ accounts (db r') ∧ acc_UID a = acc_UID acc ∧ acc_DID a = acc_DID acc ∧ IsActive a = true)
     (λ e r', acct_inv r' ∧ (errors_Is e ErrAccountInactive = true →
        ∃ a, a ∈ accounts (db r') ∧ acc_DID a = acc_DID acc ∧ IsActive a = false)) r1).
  { intros status. apply wp_bind. destruct (negb (String.eqb (acc_UpstreamStatus acc) status)).
    - apply wp_bind. eapply wp_mono; [| |by apply UpdateAccountUpstreamStatus_inv].
      + intros _ r2 [Hi2 Hin2]. apply wp_ret. destruct (IsActive (acc_set_UpstreamStatus status acc)) eqn:Ha; [by apply wp_ret|].
        apply wp_throw. split; [done|]. intros _. by eexists.
      + intros e r2 [Hi2 He]. split; [done|]. congruence.
    - apply wp_ret. rewrite Hact. apply wp_throw. split; [done|]. intros _. by exists acc. }
  destruct (repo_status _ _ _) as [[[] [s|]]|]; try apply wp_ret; try apply Hk; done.
Qed.

End Operations.
