(* ===== verification/RelayAckProofs.v ===== *)
(** * Events, accounts and acknowledgements

    Processing an event keeps the account invariant of [RelayAccountProofs], and
    returns success only for a reason: the event is in the output, or a
    rejection is on record, or the account is inactive, or the repository is
    already past the event. *)

From S2P Require Import Prelude GoStrings Syntax Stream StateMonad Hostname Relay RelayAccount RelayHost RelaySources RelayVerify RelayIngest RelayFrame RelayIngestProofs RelayAccountProofs.
Local Open Scope Z_scope.

Section Events.
Context `{Services}.

#[local] Hint Resolve LookupDID_same Purge_same available_same ObserveAccountSource_same : frame.

(** A step after which the row of an account is still there. *)
Lemma same_keeps r r' a : acct_same r r' → a ∈ accounts (db r) → a ∈ accounts (db r').
Proof. by intros [-> _]. Qed.

(** The account an event is processed for is a current row with the event's
    DID, on the event's host. *)
Lemma preProcessEvent_inv didStr hostname hostID r :
  acct_inv r →
  wp (preProcessEvent didStr hostname hostID)
     (λ x r', acct_inv r' ∧ x.1 ∈ accounts (db r') ∧
        (∃ d, ParseDID didStr = Ok d ∧ acc_DID x.1 = NormalizeDID d) ∧
        (acc_HostID x.1 = hostID ∨ SkipAccountHostCheck Config = true))
     (λ _ r', acct_inv r') r.
Proof.
  intros Hi. unfold preProcessEvent. destruct (ParseDID didStr) as [d|]; [|done]. cbv zeta.
  apply same_bind; [apply available_same|done|done|]. intros [ident host] r1 _ Hi1.
  apply same_bind; [unfold permanent, sentinel_err; frames|done|done|]. intros ident' r2 _ Hi2.
  apply wp_bind. eapply (wp_mono _ (λ a r', acct_inv r' ∧ a ∈ accounts (db r') ∧ acc_DID a = NormalizeDID d) _ (λ _ r', acct_inv r')).
  - intros acc r3 (Hi3 & Hin3 & Hd3). apply wp_bind.
    eapply wp_mono; [| |by apply EnsureAccountHost_inv]; [|by intros e r4].
    intros acc' r4 (Hi4 & Hin4 & Hd4 & _ & Hh4).
    apply same_bind; [apply ObserveAccountSource_same|done|done|]. intros _ r5 Hs5 Hi5.
    apply wp_ret. split_and!; [done|by eapply same_keeps| |done]. exists d. split; [done|]. simpl. congruence.
  - done.
  - apply wp_catch. eapply wp_mono; [| |by apply GetAccount_inv].
    + intros a r3 (Hi3 & _ & Hin & Hd). done.
    + intros e r3 [Hi3 _]. case_match; [|done]. eapply wp_mono; [| |by apply CreateAccountHost_inv]; [|by intros ? r4].
      intros a r4 (Hi4 & Hin4 & Hd4 & _). done.
Qed.

(** The account of a commit or sync event, or the inactive one it is dropped for. *)
Lemma activeAccount_inv acc r :
  acct_inv r → acc ∈ accounts (db r) →
  wp (activeAccount acc)
     (λ o r', acct_inv r' ∧ ∃ a, a ∈ accounts (db r') ∧ acc_DID a = acc_DID acc ∧
        match o with Some a' => a' = a ∧ IsActive a = true | None => IsActive a = false end)
     (λ _ r', acct_inv r') r.
Proof.
  intros Hi Hin. unfold activeAccount. apply wp_attempt. eapply wp_mono; [| |by apply EnsureAccountActive_inv].
  - intros a r1 (Hi1 & Hin1 & _ & Hd & Ha). apply wp_ret. split; [done|]. by exists a.
  - intros e r1 [Hi1 He]. case_match; [|done]. apply wp_ret. split; [done|]. by apply He.
Qed.

(** ** Why an event is acknowledged *)

Definition row_of (didStr : string) (r : Relay) (a : Account) : Prop :=
  a ∈ accounts (db r) ∧ ∃ d, ParseDID didStr = Ok d ∧ acc_DID a = NormalizeDID d.

Inductive acked (evt : XRPCStreamEvent) (r r' : Relay) : Prop :=
| ack_emitted e : out_for evt e → events r' = events r ++ [e] → acked evt r r'
| ack_inactive m a :
    repo_msg evt = Some m → (msg_kind m = "commit" ∨ msg_kind m = "sync") →
    row_of (msg_did m) r' a → IsActive a = false → acked evt r r'
| ack_stale m a p :
    repo_msg evt = Some (MCommit m) → row_of (cm_Repo m) r' a →
    repo_of (acc_UID a) r = Some p → str_le (cm_Rev m) (repo_Rev p) = true → acked evt r r'.

Lemma preProcessEvent_row didStr hostname hostID r :
  acct_inv r →
  wp (preProcessEvent didStr hostname hostID)
     (λ x r', acct_inv r' ∧ (row_of didStr r' x.1 ∧ ∃ d, ParseDID didStr = Ok d ∧ known_identity (NormalizeDID d) x.2))
     (λ _ r', acct_inv r') r.
Proof.
  intros Hi. pose proof (wp_conj _ _ _ _ _ _ (preProcessEvent_inv didStr hostname hostID r Hi) (preProcessEvent_wp didStr hostname hostID r)) as Hw.
  revert Hw. apply wp_mono; [|by intros ?? []]. intros x r1 [(Hi1 & Hin & Hd & _) Hk]. by split_and!.
Qed.

(** Quiet steps followed by an acknowledgement. *)
Lemma acked_after evt r r1 r2 : quiet r r1 → acked evt r1 r2 → acked evt r r2.
Proof.
  intros [[He Hr] _] [e Ho Hev|m a Hm Hk Ha Hi|m a p Hm Ha Hp Hle].
  - eapply ack_emitted; [done|]. by rewrite Hev, He.
  - by eapply ack_inactive.
  - eapply ack_stale; [done..| |done]. unfold repo_of in *. by rewrite <-Hr.
Qed.

(** Both frames of a prefix, with what it establishes. *)
Lemma inv_quiet_bind {A B} (m : R A) (f : A → R B) (P : A → Relay → Prop) evt r :
  preserves quiet m →
  wp m (λ a r', acct_inv r' ∧ P a r') (λ _ r', acct_inv r') r →
  (∀ a r1, acct_inv r1 → P a r1 → wp (f a) (λ _ r', acct_inv r' ∧ acked evt r1 r') (λ _ r', acct_inv r') r1) →
  wp (m ≫= f) (λ _ r', acct_inv r' ∧ acked evt r r') (λ _ r', acct_inv r') r.
Proof.
  intros Hq Hm Hf. apply wp_bind. pose proof (wp_conj _ _ _ _ _ _ (preserves_wp _ m r Hq) Hm) as Hw. revert Hw.
  apply wp_mono; [|by intros e r1 [_ Hi]]. intros a r1 [Hqr [Hi HP]]. eapply wp_mono; [| |by apply Hf]; [|by intros ??].
  intros _ r2 [Hi2 Ha]. split; [done|]. by eapply acked_after.
Qed.

Lemma same_step {A} (m : R A) (P : A → Prop) r :
  preserves acct_same m → acct_inv r → (∀ r, wp m (λ a _, P a) (λ _ _, True) r) →
  wp m (λ a r', acct_inv r' ∧ (P a ∧ acct_same r r')) (λ _ r', acct_inv r') r.
Proof.
  intros Hm Hi HP. pose proof (wp_conj _ _ _ _ _ _ (preserves_wp _ m r Hm) (HP r)) as Hw. revert Hw.
  apply wp_mono; [intros a r1 [Hs Ha]|intros e r1 [Hs _]]; pose proof (acct_same_inv _ _ Hs Hi); done.
Qed.

Lemma emit_and_advance_acked evt e kind uid newRepo r :
  acct_inv r → out_for evt e →
  wp (emit_and_advance e kind uid newRepo) (λ _ r', acct_inv r' ∧ acked evt r r') (λ _ r', acct_inv r') r.
Proof.
  intros Hi Ho. pose proof (same_inv _ r (emit_and_advance_same e kind uid newRepo) Hi) as Hw.
  assert (Ha : wp (emit_and_advance e kind uid newRepo) (λ _ r', acked evt r r') (λ _ _, True) r).
  { unfold emit_and_advance. apply wp_bind, wp_wrap, AddEvent_wp; [|done]. intros r1 Hdb Hev.
    apply wp_wrap, exec_wp; [|done]. by eapply ack_emitted. }
  pose proof (wp_conj _ _ _ _ _ _ Hw Ha) as Hc. revert Hc. apply wp_mono; [done|by intros ?? []].
Qed.

Lemma AddEvent_acked evt e msg r :
  acct_inv r → out_for evt e →
  wp (wrap msg (AddEvent e)) (λ _ r', acct_inv r' ∧ acked evt r r') (λ _ r', acct_inv r') r.
Proof.
  intros Hi Ho.
  assert (Ha : wp (wrap msg (AddEvent e)) (λ _ r', acked evt r r') (λ _ _, True) r).
  { apply wp_wrap, AddEvent_wp; [|done]. intros r1 Hdb Hev. by eapply ack_emitted. }
  assert (Hs : preserves acct_same (wrap msg (AddEvent e))) by (apply (preserves_wrap acct_same), AddEvent_same).
  pose proof (wp_conj _ _ _ _ _ _ (same_inv _ r Hs Hi) Ha) as Hc. revert Hc. apply wp_mono; [done|by intros ?? []].
Qed.

Lemma processCommitEvent_acked evt m hostname hostID r :
  repo_msg evt = Some (MCommit m) → acct_inv r →
  wp (processCommitEvent m hostname hostID) (λ _ r', acct_inv r' ∧ acked evt r r') (λ _ r', acct_inv r') r.
Proof.
  intros Hm Hi. unfold processCommitEvent.
  eapply inv_quiet_bind; [apply preProcessEvent_quiet|by apply preProcessEvent_row|].
  intros [acc ident] r1 Hi1 [[Hin (d & Hd & Hacc)] (d' & Hd' & Hid)]. simpl in *. simplify_eq.
  eapply inv_quiet_bind; [apply activeAccount_quiet|by apply activeAccount_inv|].
  intros o r2 Hi2 (a & Hin2 & Hda & Ho). assert (Hrow : row_of (cm_Repo m) r2 a) by (split; [done|]; exists d'; split; congruence).
  destruct o as [a'|]; [|apply wp_ret; split; [done|]; eapply (ack_inactive _ _ _ (MCommit m)); eauto].
  destruct Ho as [-> _].
  eapply (inv_quiet_bind _ _ (λ p r3, p = repo_of (acc_UID a) r3 ∧ row_of (cm_Repo m) r3 a)); [apply previousRepo_quiet| |].
  { pose proof (wp_conj _ _ _ _ _ _ (preserves_wp _ _ r2 (previousRepo_same (acc_UID a)))
      (wp_conj _ _ _ _ _ _ (preserves_wp _ _ r2 (previousRepo_quiet (acc_UID a))) (previousRepo_wp (acc_UID a) r2))) as Hw.
    revert Hw. apply wp_mono; [|intros e r3 [Hs _]; exact (acct_same_inv _ _ Hs Hi2)].
    intros p r3 (Hs & [[_ Hr] _] & Hp). split; [exact (acct_same_inv _ _ Hs Hi2)|]. split.
    - unfold repo_of in *. by rewrite Hr.
    - destruct Hrow as [Hin' Hd'']. split; [by eapply same_keeps|done]. }
  intros prev r3 Hi3 [-> Hrow3]. destruct (stale_rev (cm_Rev m) _) eqn:Hst.
  { apply wp_ret. split; [done|]. destruct (repo_of (acc_UID a) r3) as [p|] eqn:Hp; [|done]. simpl in Hst.
    apply andb_true_iff in Hst as [_ Hle]. by eapply ack_stale. }
  eapply (inv_quiet_bind _ _ (λ x _, (verified_commit m ∧ repo_Rev x = cm_Rev m))); [apply VerifyRepoCommit_quiet| |].
  { eapply wp_mono; [| |eapply same_step; [apply VerifyRepoCommit_same|exact Hi3|intros; by eapply VerifyRepoCommit_wp]]; [|done].
    by intros x r4 (Hi4 & Hv & _). }
  intros newRepo r4 Hi4 [Hv _]. apply emit_and_advance_acked; [done|]. unfold out_for. rewrite Hm. split; [by eexists|done].
Qed.

Lemma processSyncEvent_acked evt m hostname hostID r :
  repo_msg evt = Some (MSync m) → acct_inv r →
  wp (processSyncEvent m hostname hostID) (λ _ r', acct_inv r' ∧ acked evt r r') (λ _ r', acct_inv r') r.
Proof.
  intros Hm Hi. unfold processSyncEvent.
  eapply inv_quiet_bind; [apply preProcessEvent_quiet|by apply preProcessEvent_row|].
  intros [acc ident] r1 Hi1 [[Hin (d & Hd & Hacc)] (d' & Hd' & Hid)]. simpl in *. simplify_eq.
  eapply inv_quiet_bind; [apply activeAccount_quiet|by apply activeAccount_inv|].
  intros o r2 Hi2 (a & Hin2 & Hda & Ho). assert (Hrow : row_of (sm_Did m) r2 a) by (split; [done|]; exists d'; split; congruence).
  destruct o as [a'|]; [|apply wp_ret; split; [done|]; eapply (ack_inactive _ _ _ (MSync m)); eauto].
  eapply (inv_quiet_bind _ _ (λ x _, (verified_sync m ∧ repo_Rev x = sm_Rev m))); [apply VerifyRepoSync_quiet| |].
  { eapply wp_mono; [| |eapply same_step; [apply VerifyRepoSync_same|exact Hi2|intros; by eapply VerifyRepoSync_wp]]; [|done].
    by intros x r4 (Hi4 & Hv & _). }
  intros newRepo r4 Hi4 [Hv _]. apply emit_and_advance_acked; [done|]. unfold out_for. rewrite Hm. split; [by eexists|done].
Qed.

Lemma processIdentityEvent_acked evt m hostname hostID r :
  repo_msg evt = Some (MIdentity m) → acct_inv r →
  wp (processIdentityEvent m hostname hostID) (λ _ r', acct_inv r' ∧ acked evt r r') (λ _ r', acct_inv r') r.
Proof.
  intros Hm Hi. unfold processIdentityEvent. destruct (ParseDID (im_Did m)) as [d|] eqn:Hd; [|done]. cbv zeta.
  eapply (inv_quiet_bind _ _ (λ _ _, True)); [unfold sentinel_err; frames| |].
  { eapply wp_mono; [| |apply same_inv; [unfold sentinel_err; frames|done]]; done. }
  intros _ r1 Hi1 _. eapply (inv_quiet_bind _ _ (λ _ _, True)); [quiet_tac|by apply wp_modify; split; [apply ainv_cache_remove|]|].
  intros _ r2 Hi2 _. eapply inv_quiet_bind; [apply preProcessEvent_quiet|by apply preProcessEvent_row|].
  intros [acc ident] r3 Hi3 _. apply AddEvent_acked; [done|]. unfold out_for. rewrite Hm. eexists d, _.
  split; [done|]. split; [|reflexivity]. destruct (im_Handle m); [case_match|]; auto.
Qed.

Lemma processAccountEvent_acked evt m hostname hostID r :
  repo_msg evt = Some (MAccount m) → acct_inv r →
  wp (processAccountEvent m hostname hostID) (λ _ r', acct_inv r' ∧ acked evt r r') (λ _ r', acct_inv r') r.
Proof.
  intros Hm Hi. unfold processAccountEvent.
  eapply inv_quiet_bind; [apply preProcessEvent_quiet|by apply preProcessEvent_row|].
  intros [acc ident] r1 Hi1 [[Hin _] _]. simpl in Hin.
  assert (Hgo : ∀ status, wp (acc ← (if negb (String.eqb status (acc_UpstreamStatus acc)) then
          UpdateAccountUpstreamStatus (acc_DID acc) (acc_UID acc) status ;;
          mret (acc_set_UpstreamStatus status acc) else mret acc);
      wrap "failed to broadcast #account event" (AddEvent (accountMessage acc (am_Time m))))
    (λ _ r', acct_inv r' ∧ acked evt r1 r') (λ _ r', acct_inv r') r1).
  { intros status. eapply (inv_quiet_bind _ _ (λ _ _, True)); [frames| |].
    - case_match; [|by apply wp_ret]. apply wp_bind. eapply wp_mono; [| |by apply UpdateAccountUpstreamStatus_inv].
      + intros ? r2 [Hi2 _]. by apply wp_ret.
      + by intros e r2 [Hi2 _].
    - intros acc' r2 Hi2 _. apply AddEvent_acked; [done|]. unfold out_for. rewrite Hm. by eexists. }
  destruct (am_Active m); [apply Hgo|]. destruct (am_Status m); [apply Hgo|done].
Qed.

Lemma dispatch_acked evt hostname hostID r :
  acct_inv r → wp (dispatch evt hostname hostID) (λ _ r', acct_inv r' ∧ acked evt r r') (λ _ r', acct_inv r') r.
Proof.
  intros Hi. unfold dispatch. destruct (repo_msg evt) as [[m|m|m|m]|] eqn:Hm; [..|done].
  - by apply processCommitEvent_acked.
  - by apply processSyncEvent_acked.
  - by apply processIdentityEvent_acked.
  - by apply processAccountEvent_acked.
Qed.

(** The rejection of [evt] is on record. *)
Definition rejection_recorded (evt : XRPCStreamEvent) (hostID : Z) (r : Relay) : Prop :=
  ∃ source, rejectedEventSourceFor evt hostID = Some source ∧
    existsb (has_key (idempotencyKey source rejectionPolicyRevision)) (rejected (db r)) = true.

Lemma wasRejectedEvent_spec evt hostID r :
  acct_inv r →
  wp (wasRejectedEvent evt hostID) (λ b r', acct_inv r' ∧ (b = true → rejection_recorded evt hostID r'))
     (λ _ r', acct_inv r') r.
Proof.
  intros Hi. unfold wasRejectedEvent, rejection_recorded.
  destruct (rejectedEventSourceFor evt hostID) as [source|]; [|by apply wp_ret].
  apply query_wp; [|done]. split; [done|]. intros Hk. by exists source.
Qed.

Lemma persistRejectedEvent_spec evt hostID reason r :
  acct_inv r →
  wp (persistRejectedEvent evt hostID reason) (λ _ r', acct_inv r' ∧ rejection_recorded evt hostID r')
     (λ _ r', acct_inv r') r.
Proof.
  intros Hi. pose proof (same_inv _ r (persistRejectedEvent_same evt hostID reason) Hi) as Hw.
  assert (Hr : wp (persistRejectedEvent evt hostID reason) (λ _ r', rejection_recorded evt hostID r') (λ _ _, True) r).
  { unfold persistRejectedEvent, rejection_recorded. destruct (rejectedEventSourceFor evt hostID) as [source|]; [|done].
    apply wp_wrap, exec_wp; [|done]. exists source. split; [done|]. simpl. unfold insert_rejection.
    destruct (existsb _ (rejected (db r))) eqn:Hk; [done|]. simpl. rewrite existsb_app. simpl.
    unfold has_key at 2. simpl. by rewrite String.eqb_refl, orb_true_r. }
  pose proof (wp_conj _ _ _ _ _ _ Hw Hr) as Hc. revert Hc. apply wp_mono; [done|by intros ?? []].
Qed.

Lemma processRepoEvent_spec evt hostname hostID r :
  acct_inv r →
  wp (processRepoEvent evt hostname hostID)
     (λ _ r', acct_inv r' ∧ (acked evt r r' ∨ rejection_recorded evt hostID r')) (λ _ r', acct_inv r') r.
Proof.
  intros Hi. unfold processRepoEvent. apply wp_bind.
  pose proof (wp_conj _ _ _ _ _ _ (preserves_wp _ _ r (wasRejectedEvent_quiet evt hostID)) (wasRejectedEvent_spec evt hostID r Hi)) as Hw.
  revert Hw. apply wp_mono; [|by intros ?? []]. intros [] r1 [Hq [Hi1 Hb]]; [apply wp_ret; split; [done|right; by apply Hb]|].
  apply wp_catch. eapply wp_mono; [| |by apply dispatch_acked].
  - intros _ r2 [Hi2 Ha]. split; [done|]. left. by eapply acked_after.
  - intros err r2 Hi2. destruct (permanentRejectionReason err); [|done].
    eapply wp_mono; [| |by apply persistRejectedEvent_spec]; [|by intros ??]. intros _ r3 [Hi3 Hr]. split; [done|by right].
Qed.

Lemma processRepoEvent_inv evt hostname hostID r :
  acct_inv r → acct_inv (processRepoEvent evt hostname hostID r).1.
Proof.
  intros Hi. pose proof (processRepoEvent_spec evt hostname hostID r Hi) as Hw. unfold wp in Hw.
  destruct (processRepoEvent evt hostname hostID r) as [r' [[]|e]]; simpl; [apply Hw|done].
Qed.

(** C18 (liveness): no event is lost silently.  When processing returns
    success, which lets the cursor pass the event, then the event is in the
    output; or its rejection is on record; or it is a commit or sync of an
    account whose row says it is not active; or it is a commit that is not
    newer than the account's stored revision. *)
Theorem processRepoEvent_accounted evt hostname hostID r r' :
  acct_inv r → processRepoEvent evt hostname hostID r = (r', Ok tt) →
  acked evt r r' ∨ rejection_recorded evt hostID r'.
Proof. intros Hi Hr. apply (wp_run _ _ _ _ _ _ (processRepoEvent_spec evt hostname hostID r Hi) Hr). Qed.

End Events.
