(* ===== verification/RelayQuotaProofs.v ===== *)
(** * Account quotas

    A host's quota bounds the accounts the relay serves for it: a new account
    beyond the limit is created throttled, and raising the limit reactivates
    throttled accounts, oldest first, up to the new limit and no further. *)

From S2P Require Import Prelude GoStrings Syntax Stream StateMonad Hostname Relay RelayAccount RelayHost RelaySources RelayVerify RelayIngest RelayFrame RelayAccountProofs.
Local Open Scope Z_scope.

Lemma update_where_ext {A} (p q : A → bool) f l :
  (∀ x, x ∈ l → p x = q x) → update_where p f l = update_where q f l.
Proof.
  intros Hpq. unfold update_where. apply map_ext_in. intros x Hx. rewrite Hpq; [done|]. by apply list_elem_of_In.
Qed.

Lemma count_where_split {A} (p q : A → bool) l :
  count_where p l = count_where (λ x, p x && q x) l + count_where (λ x, p x && negb (q x)) l.
Proof.
  induction l as [|x l IH]; [done|]. rewrite !count_where_cons, IH. destruct (p x), (q x); simpl; lia.
Qed.

Lemma count_where_ext {A} (p q : A → bool) l : (∀ x, p x = q x) → count_where p l = count_where q l.
Proof. intros Hpq. induction l as [|x l IH]; [done|]. by rewrite !count_where_cons, IH, Hpq. Qed.

(** Served: on the host and not held back by its quota. *)
Definition served (hostID : Z) (a : Account) : bool := (acc_HostID a =? hostID) && negb (throttled_on hostID a).
Definition served_count (hostID : Z) (r : Relay) : Z := count_where (served hostID) (accounts (db r)).
Definition total_count (hostID : Z) (r : Relay) : Z := count_where (λ a, acc_HostID a =? hostID) (accounts (db r)).
Definition reactivate (a : Account) (l : list Account) : list Account :=
  update_where (uid_is (acc_UID a)) (acc_set_Status AccountStatusActive) l.

Lemma total_served hostID r :
  total_count hostID r = served_count hostID r + count_where (throttled_on hostID) (accounts (db r)).
Proof.
  unfold total_count, served_count. rewrite (count_where_split _ (throttled_on hostID)). unfold served.
  rewrite (count_where_ext (λ x, _ && throttled_on hostID x) (throttled_on hostID)); [lia|].
  intros x. unfold throttled_on. by destruct (acc_HostID x =? hostID).
Qed.

(** Reactivating one throttled account serves exactly one account more. *)
Lemma served_reactivate hostID a l :
  NoDup (map acc_UID l) → a ∈ l → throttled_on hostID a = true →
  count_where (served hostID) (reactivate a l) = count_where (served hostID) l + 1.
Proof.
  intros Hnd Hin Ht. unfold reactivate, uid_is. rewrite (count_update_one acc_UID) by done.
  unfold served at 2 3. rewrite Ht. unfold throttled_on in *. simpl.
  destruct (acc_HostID a =? hostID); [|done]. simpl. lia.
Qed.

Section Quota.
Context `{Services}.

(** ** Reactivation *)

Lemma reactivateQuotaAccount_spec hostID a time r :
  acct_inv r → a ∈ accounts (db r) → throttled_on hostID a = true →
  wp (reactivateQuotaAccount hostID (acc_DID a) time)
     (λ _ r', acct_inv r' ∧ accounts (db r') = reactivate a (accounts (db r)))
     (λ _ r', acct_inv r' ∧ accounts (db r') = accounts (db r)) r.
Proof.
  intros Hi Hin Ht. unfold reactivateQuotaAccount. apply wp_bind, query_wp; [|done].
  destruct (List.find (did_is (acc_DID a)) (accounts (db r))) as [b|] eqn:Hf; [|done].
  apply find_some in Hf as [Hb Hd]. apply list_elem_of_In in Hb. unfold did_is in Hd. bool_to_prop.
  assert (b = a) as -> by (apply (key_unique acc_DID (accounts (db r))); [apply Hi|done..]).
  rewrite Ht. simpl negb. cbv iota. apply wp_bind.
  eapply wp_mono; [| |apply preserves_wp, AddEvent_same].
  2: { intros e r1 Hs. pose proof (acct_same_inv _ _ Hs Hi) as Hi1. destruct Hs as (Ha & _). by split. }
  intros ? r1 Hs. pose proof (acct_same_inv _ _ Hs Hi) as Hi1. destruct Hs as (Ha & _). simpl in Ha.
  assert (Hup : update_where (λ b, uid_is (acc_UID a) b && throttled_on hostID b) (acc_set_Status AccountStatusActive) (accounts (db r1))
                = reactivate a (accounts (db r1))).
  { apply update_where_ext. intros y Hy. unfold uid_is. destruct (Z.eqb_spec (acc_UID y) (acc_UID a)) as [Heq|]; [|done].
    rewrite Ha in Hy. by rewrite (key_unique acc_UID _ y a (ai_uids _ _ Hi) Hy Hin Heq), Ht. }
  assert (Hn : count_where (λ b, uid_is (acc_UID a) b && throttled_on hostID b) (accounts (db r1)) = 1).
  { rewrite Ha. apply (count_where_one acc_UID _ _ a); [apply Hi|done|by unfold uid_is; rewrite Z.eqb_refl|].
    intros y _ Hy. apply andb_true_iff in Hy as [Hy _]. by apply Z.eqb_eq in Hy. }
  apply wp_attempt, wp_bind. unfold dbop. apply wp_bind. unfold wp at 1, call.
  destruct (db_fail (tick r1)).
  { apply wp_throw. apply wp_bind, wp_modify, wp_throw. split; [by apply ainv_cache_remove|done]. }
  apply wp_ret, wp_gets_bind. simpl. rewrite Hn. apply wp_bind, wp_modify, wp_ret, wp_bind, wp_modify. simpl.
  apply wp_ret. unfold acct_inv. simpl. rewrite Hup. split; [|by rewrite Ha].
  apply (ainv_update_account (db r1) (accountCache r1) _ a); try done. by rewrite Ha.
Qed.

Lemma reactivate_all_spec hostID time rows r :
  acct_inv r → NoDup (map acc_UID rows) →
  Forall (λ a, a ∈ accounts (db r) ∧ throttled_on hostID a = true) rows →
  wp (reactivate_all hostID time (map acc_DID rows))
     (λ _ r', acct_inv r' ∧ served_count hostID r' = served_count hostID r + Z.of_nat (length rows))
     (λ _ r', acct_inv r' ∧ served_count hostID r ≤ served_count hostID r' ≤ served_count hostID r + Z.of_nat (length rows)) r.
Proof.
  revert r. induction rows as [|a rows IH]; intros r Hi Hnd Hrows; [apply wp_ret; split; [done|simpl; lia]|].
  simpl in Hnd. apply NoDup_cons in Hnd as [Hna Hnd]. apply Forall_cons in Hrows as [[Hin Ht] Hrows]. simpl.
  apply wp_bind. eapply wp_mono; [| |by apply reactivateQuotaAccount_spec].
  2: { intros e r1 [Hi1 Ha]. split; [done|]. unfold served_count. rewrite Ha. lia. }
  intros _ r1 [Hi1 Ha].
  assert (Hs1 : served_count hostID r1 = served_count hostID r + 1).
  { unfold served_count. rewrite Ha. apply served_reactivate; [apply Hi|done..]. }
  eapply wp_mono; [| |apply IH; [done|done|]].
  - intros _ r2 [Hi2 Hs2]. split; [done|]. lia.
  - intros e r2 [Hi2 Hs2]. split; [done|]. lia.
  - rewrite Forall_forall in Hrows. apply Forall_forall. intros b Hb. destruct (Hrows b Hb) as [Hbin Hbt]. split; [|done].
    rewrite Ha. apply elem_of_update_where. exists b. split; [done|]. unfold uid_is.
    destruct (Z.eqb_spec (acc_UID b) (acc_UID a)) as [Heq|]; [|done]. exfalso. apply Hna. rewrite <-Heq.
    by apply (list_elem_of_fmap_2 acc_UID).
Qed.

Lemma reactivateQuotaAccounts_spec hostID limit time r :
  acct_inv r →
  wp (reactivateQuotaAccounts hostID limit time)
     (λ _ r', acct_inv r' ∧ served_count hostID r' = Z.max (served_count hostID r) (Z.min limit (total_count hostID r)))
     (λ _ r', acct_inv r' ∧ served_count hostID r ≤ served_count hostID r' ≤ Z.max (served_count hostID r) limit) r.
Proof.
  intros Hi. unfold reactivateQuotaAccounts. apply wp_bind, query_wp; [|intros; split; [done|unfold served_count; simpl; lia]].
  cbv zeta. change (count_where _ (accounts (db r))) with (served_count hostID r).
  pose proof (total_served hostID r) as Htot. pose proof (count_where_nonneg (throttled_on hostID) (accounts (db r))) as Hnn.
  destruct (Z.leb_spec (limit - served_count hostID r) 0) as [Hle|Hgt].
  { apply wp_ret. split; [done|]. change (served_count hostID (step r)) with (served_count hostID r). lia. }
  apply wp_bind, query_wp; [|intros; split; [done|unfold served_count; simpl; lia]]. simpl db.
  set (rows := take _ _).
  assert (Hsub : rows `sublist_of` accounts (db r)).
  { etrans; [apply sublist_take|apply List_filter_sublist]. }
  assert (Hlen : Z.of_nat (length rows) = Z.min (limit - served_count hostID r) (count_where (throttled_on hostID) (accounts (db r)))).
  { unfold rows, count_where. rewrite length_take. lia. }
  eapply wp_mono; [| |apply (reactivate_all_spec hostID time rows); [done| |]].
  - intros _ r1 [Hi1 Hs]. split; [done|]. change (served_count hostID (step (step r))) with (served_count hostID r) in Hs. lia.
  - intros e r1 [Hi1 Hs]. split; [done|]. change (served_count hostID (step (step r))) with (served_count hostID r) in Hs. lia.
  - eapply sublist_NoDup; [|apply (sublist_map acc_UID), Hsub]. apply Hi.
  - apply Forall_forall. intros a Ha. apply elem_of_take in Ha as (i & Hi' & _). apply list_elem_of_lookup_2 in Hi'.
    apply list_elem_of_In, filter_In in Hi' as [Ha Ht]. apply list_elem_of_In in Ha. done.
Qed.

(** What a change of the limit does to the served accounts. *)
Lemma UpdateHostAccountLimit_spec hostID limit time r :
  acct_inv r →
  wp (UpdateHostAccountLimit hostID limit time)
     (λ _ r', acct_inv r' ∧ served_count hostID r ≤ served_count hostID r' ≤ Z.max (served_count hostID r) limit ∧
        ∃ h, List.find (host_is hostID) (hosts (db r)) = Some h ∧
          (host_AccountLimit h ≤ limit →
           served_count hostID r' = Z.max (served_count hostID r) (Z.min limit (total_count hostID r))))
     (λ _ r', acct_inv r' ∧ served_count hostID r ≤ served_count hostID r' ≤ Z.max (served_count hostID r) limit) r.
Proof.
  intros Hi. assert (Hsame : ∀ r', db r' = db r → accountCache r' = accountCache r →
    acct_inv r' ∧ served_count hostID r ≤ served_count hostID r' ≤ Z.max (served_count hostID r) limit).
  { intros r' Hdb Hc. unfold acct_inv, served_count. rewrite Hdb, Hc. split; [done|lia]. }
  unfold UpdateHostAccountLimit. destruct (limit <? 0); [by apply wp_throw, Hsame|].
  apply wp_bind. unfold GetHostByID. apply wp_bind, query_wp; [|intros; by apply Hsame]. 
  destruct (List.find (host_is hostID) (hosts (db r))) as [h|] eqn:Hf; [|by apply Hsame].
  pose proof Hf as Hid. apply find_some in Hid as [_ Hid]. apply Z.eqb_eq in Hid.
  destruct (host_ID h =? 0); [by apply Hsame|]. apply wp_ret. cbv zeta. rewrite Hid. apply wp_bind, exec_wp; [|intros; by apply Hsame].
  set (r1 := set_db _ _).
  assert (Hi1 : acct_inv r1) by (apply (ainv_hosts (db r)); [done|exact Hi]).
  assert (Hs1 : served_count hostID r1 = served_count hostID r) by done.
  assert (Ht1 : total_count hostID r1 = total_count hostID r) by done.
  assert (Hend : ∀ r2 (Q : unit → Relay → Prop) (F : goerr → Relay → Prop),
    (∀ x r3, db r3 = db r2 → accountCache r3 = accountCache r2 → Q x r3) →
    (∀ e r3, db r3 = db r2 → accountCache r3 = accountCache r2 → F e r3) →
    wp (connected ← gets (λ r, subs r !! host_Hostname h);
        match connected with None => mret tt | Some _ =>
          e ← call (λ n, slurper_limits n (host_Hostname h));
          match e with Some msg => throw (Errorf msg) | None => mret tt end end) Q F r2).
  { intros r2 Q F HQ HF. apply wp_gets_bind. destruct (subs r2 !! host_Hostname h); [|apply wp_ret, HQ; done].
    apply wp_bind. unfold wp at 1, call. destruct (slurper_limits _ _); [apply wp_throw, HF|apply wp_ret, HQ]; done. }
  apply wp_bind. destruct (Z.leb_spec 0 (limit - host_AccountLimit h)) as [Hd|Hd].
  - eapply wp_mono; [| |by apply reactivateQuotaAccounts_spec].
    + intros _ r2 [Hi2 Hs2]. rewrite Hs1, Ht1 in Hs2.
      assert (Hb : served_count hostID r ≤ served_count hostID r2 ≤ Z.max (served_count hostID r) limit) by lia.
      apply Hend; intros ? r3 Hdb Hc; unfold acct_inv, served_count in *; rewrite Hdb, Hc; split; [done|..|done|done].
      split; [done|]. exists h. split; [done|]. intros _. exact Hs2.
    + intros e r2 [Hi2 Hs2]. split; [done|]. lia.
  - apply wp_ret. apply Hend; intros ? r3 Hdb Hc; unfold acct_inv, served_count in *; rewrite Hdb, Hc; split; [done|..|done|].
    + split; [lia|]. exists h. split; [done|]. lia.
    + lia.
Qed.

(** The quota bounds what is served.  Changing a host's account
    limit never serves more accounts of that host than the limit allows, or
    than were served already, whether or not the operation succeeds; no account
    is throttled by it; and a successful raise serves exactly as many accounts
    as the limit and the host's accounts permit. *)
Theorem UpdateHostAccountLimit_quota hostID limit time r :
  acct_inv r →
  let '(r', res) := UpdateHostAccountLimit hostID limit time r in
  served_count hostID r ≤ served_count hostID r' ≤ Z.max (served_count hostID r) limit ∧
  (res = Ok tt → ∃ h, List.find (host_is hostID) (hosts (db r)) = Some h ∧
     (host_AccountLimit h ≤ limit →
      served_count hostID r' = Z.max (served_count hostID r) (Z.min limit (total_count hostID r)))).
Proof.
  intros Hi. pose proof (UpdateHostAccountLimit_spec hostID limit time r Hi) as Hw. unfold wp in Hw.
  destruct (UpdateHostAccountLimit hostID limit time r) as [r' [[]|e]].
  - destruct Hw as (_ & Hb & Hx). by split.
  - destruct Hw as (_ & Hb). by split.
Qed.

(** ** Admission *)

(** Admission by quota.  A new account gets the event's host
    and DID, and it is active exactly if the host's accounts, the new one
    included, are within the host's limit. *)
Theorem CreateAccountHost_admission did hostID hostname r r' a :
  acct_inv r → CreateAccountHost did hostID hostname r = (r', Ok a) →
  a ∈ accounts (db r') ∧ acc_DID a = did ∧ acc_HostID a = hostID ∧
  ∃ h, h ∈ hosts (db r') ∧ host_ID h = hostID ∧
    (IsActive a = true ↔ total_count hostID r' ≤ host_AccountLimit h) ∧
    (IsActive a = false → acc_Status a = AccountStatusHostThrottled).
Proof.
  intros Hi Hr. pose proof (wp_run _ _ _ _ _ _ (CreateAccountHost_inv did hostID hostname r Hi) Hr) as Hw.
  simpl in Hw. destruct Hw as (Hi' & Hin & Hd & Hh & Hup & h & Hhin & Hid & Hcases). split_and!; [done..|].
  exists h. split; [done|]. split; [done|].
  pose proof (ai_counts _ _ Hi') as Hc. rewrite Forall_forall in Hc. specialize (Hc h Hhin).
  assert (Htot : total_count hostID r' = host_AccountCount h).
  { rewrite Hc. unfold total_count. apply count_where_ext. intros x. unfold on_host. by rewrite Hid. }
  rewrite Htot. unfold IsActive. rewrite Hup. destruct Hcases as [[-> Hle]|[-> Hlt]]; simpl.
  - split; [split; done|done].
  - split; [split; [done|lia]|done].
Qed.

End Quota.
