(* ===== verification/RelaySourceProofs.v ===== *)
(** * The recovery obligation of managed sources

    Every change of a source obliges the operator to recover its accounts; only
    a receipt for the source's current revision, under its current policy,
    discharges the obligation.  The invariant here is what makes the column
    [recovery_required] mean that, and every operation keeps it. *)

From S2P Require Import Prelude GoStrings Syntax Stream StateMonad Hostname Relay RelayAccount RelayHost RelaySources RelayVerify RelayIngest RelayFrame RelayAccountProofs.
Local Open Scope Z_scope.

(** A receipt of the source's host for this revision under this policy; policy
    zero is a source whose policy was never advanced. *)
Definition discharged (d : DB) (s : Source) : Prop :=
  is_enabled s = true ∧
  ∃ h x, h ∈ hosts d ∧ host_ID h = src_HostID s ∧ x ∈ receipts d ∧ rr_PDS x = sourceHostURL h ∧
    rr_SourceRevision x = src_Revision s ∧
    (src_RecoveryPolicyRevision s = 0 ∨ rr_PolicyRevision x = src_RecoveryPolicyRevision s).

(** The recorded last operation tells the state it set. *)
Definition op_ok (s : Source) : Prop :=
  ∀ state, src_LastOperation s = ("state:" ++ SourceState_string state)%string → src_State s = state.

Record sinv (d : DB) : Prop := {
  si_ids : NoDup (map src_HostID (sources d));
  si_recovery : Forall (λ s, src_RecoveryRequired s = false → discharged d s) (sources d);
  si_ops : Forall op_ok (sources d);
}.

Definition src_keep (r r' : Relay) : Prop := sinv (db r) → sinv (db r').

#[export] Instance src_keep_frame : Frame src_keep.
Proof. unfold src_keep. split; [split; [by intros r|intros r1 r2 r3; auto]|done|done]. Qed.

(** Hosts may change except in their identity, and receipts may be added. *)
Lemma sinv_weaken d d' :
  sources d' = sources d →
  (∀ h, h ∈ hosts d → ∃ h', h' ∈ hosts d' ∧ host_ID h' = host_ID h ∧ sourceHostURL h' = sourceHostURL h) →
  (∀ x, x ∈ receipts d → x ∈ receipts d') → sinv d → sinv d'.
Proof.
  intros Hs Hh Hx [Hid Hrec Hops]. constructor; rewrite Hs; [done| |done]. eapply Forall_impl; [exact Hrec|].
  intros s Hr Hreq. destruct (Hr Hreq) as (He & h & x & Hin & Hhid & Hxin & Hpds & Hrev & Hpol).
  destruct (Hh h Hin) as (h' & Hin' & Hid' & Hurl'). split; [done|]. exists h', x. split_and!; try done; try congruence; auto.
Qed.

Lemma sinv_hosts d p f :
  (∀ h, host_ID (f h) = host_ID h ∧ sourceHostURL (f h) = sourceHostURL h) →
  sinv d → sinv (set_hosts (update_where p f (hosts d)) d).
Proof.
  intros Hf. apply sinv_weaken; [done| |done]. intros h Hin. exists (if p h then f h else h).
  split; [apply elem_of_update_where; by exists h|]. destruct (p h); [apply Hf|done].
Qed.

Lemma sinv_add_host d h : sinv d → sinv (add_host h d).
Proof.
  apply sinv_weaken; [done| |done]. intros h' Hin. exists h'. split; [|done]. simpl. apply elem_of_app. by left.
Qed.

(** A change of the source that owes a recovery again. *)
Lemma sinv_update d p f :
  (∀ s, src_HostID (f s) = src_HostID s ∧ src_RecoveryRequired (f s) = true ∧ (op_ok s → op_ok (f s))) →
  sinv d → sinv (set_sources (update_where p f (sources d)) d).
Proof.
  intros Hf [Hid Hrec Hops]. constructor; simpl.
  - by rewrite map_update_where by apply Hf.
  - apply Forall_update_where; [|done]. intros s _ Hreq. destruct (Hf s) as (_ & Ht & _). congruence.
  - apply Forall_update_where; [|done]. intros s. apply Hf.
Qed.

Lemma sinv_add_source d s :
  src_RecoveryRequired s = true → op_ok s → List.find (source_is (src_HostID s)) (sources d) = None →
  sinv d → sinv (set_sources (sources d ++ [s]) d).
Proof.
  intros Hreq Hop Hf [Hid Hrec Hops]. constructor; simpl.
  - rewrite map_app. apply NoDup_app. split; [done|]. split; [|apply NoDup_singleton].
    intros i Hi1 Hi2. apply list_elem_of_singleton in Hi2 as ->. apply (list_elem_of_fmap src_HostID) in Hi1 as (b & Hb & Hin).
    apply list_elem_of_In in Hin. pose proof (find_none _ _ Hf b Hin) as Hn. unfold source_is in Hn. apply Z.eqb_neq in Hn. congruence.
  - apply Forall_app. split; [done|]. apply Forall_singleton. congruence.
  - apply Forall_app. split; [done|]. by apply Forall_singleton.
Qed.

(** Recording the receipt and clearing the obligation of the one source it is for. *)
Lemma sinv_acknowledge d s h x p :
  sinv d → s ∈ sources d → h ∈ hosts d → host_ID h = src_HostID s → rr_PDS x = sourceHostURL h →
  is_enabled s = true → rr_SourceRevision x = src_Revision s →
  (src_RecoveryPolicyRevision s = 0 ∨ rr_PolicyRevision x = src_RecoveryPolicyRevision s) →
  (∀ s', p s' = true → src_HostID s' = src_HostID s) →
  let d' := set_receipts (insert_receipt x (receipts d)) d in
  sinv (set_sources (update_where p (src_set_recovery false) (sources d')) d').
Proof.
  intros Hs Hin Hh Hhid Hpds Hen Hrev Hpol Hp d'.
  assert (Hx : ∃ y, y ∈ receipts d' ∧ rr_PDS y = rr_PDS x ∧ rr_SourceRevision y = rr_SourceRevision x ∧ rr_PolicyRevision y = rr_PolicyRevision x).
  { unfold d', insert_receipt. simpl. destruct (existsb (same_boundary x) (receipts d)) eqn:He.
    - apply existsb_exists in He as (y & Hy & Hsame). unfold same_boundary in Hsame. bool_to_prop. exists y.
      split; [by apply list_elem_of_In|]. split_and!; congruence.
    - exists x. split; [|done]. apply elem_of_app. right. set_solver. }
  assert (Hd' : sinv d').
  { revert Hs. apply sinv_weaken; [done|intros h' ?; by exists h'|]. intros y Hy. unfold d', insert_receipt. simpl.
    case_match; [done|]. apply elem_of_app. by left. }
  destruct Hd' as [Hid Hrec Hops]. constructor; simpl; [by rewrite map_update_where| |by apply Forall_update_where].
  - apply Forall_forall. intros t Ht. apply elem_of_update_where in Ht as (t0 & Ht0 & ->).
    destruct (p t0) eqn:Hpt; [|rewrite Forall_forall in Hrec; by apply Hrec].
    assert (t0 = s) as -> by (apply (key_unique src_HostID (sources d)); [apply Hs|done|done|by apply Hp]).
    intros _. split; [done|]. destruct Hx as (y & Hy & Hy1 & Hy2 & Hy3). exists h, y. simpl.
    rewrite Hy1, Hy2, Hy3. split_and!; done.
Qed.

(** ** Operations *)

Section Operations.
Context `{Services}.

Lemma src_keep_same {A} (m : R A) r :
  preserves src_keep m → sinv (db r) → wp m (λ _ r', sinv (db r')) (λ _ r', sinv (db r')) r.
Proof. intros Hm Hs. eapply wp_mono; [| |apply preserves_wp, Hm]; intros ? r' Hk; exact (Hk Hs). Qed.

Lemma keep_of_wp {A} (m : R A) :
  (∀ r, sinv (db r) → wp m (λ _ r', sinv (db r')) (λ _ r', sinv (db r')) r) → preserves src_keep m.
Proof. intros Hw r Hs. specialize (Hw r Hs). unfold wp in Hw. by destruct (m r) as [r' [a|e]]. Qed.

Lemma op_ok_update state revision s : op_ok (src_update state revision ("state:" ++ SourceState_string state)%string s).
Proof. intros st. simpl. intros Heq. apply (inj (String.append "state:")) in Heq. by destruct state, st. Qed.
#[local] Hint Resolve op_ok_update : core.

(** Statements on tables the invariant does not read. *)
Ltac keep_tac := frame_stmt; intros []; by constructor.
Ltac keep_hosts := frame_stmt; intros ?; by apply sinv_hosts.

Lemma update_source_keep p f c :
  (∀ s, src_HostID (f s) = src_HostID s ∧ src_RecoveryRequired (f s) = true ∧ (op_ok s → op_ok (f s))) →
  preserves src_keep (update_source p f c).
Proof. intros Hf. unfold update_source. frames. frame_stmt. intros ?. by apply sinv_update. Qed.

Lemma enqueueSourceHandoff_keep host revision state : preserves src_keep (enqueueSourceHandoff host revision state).
Proof. unfold enqueueSourceHandoff, Now. frames. keep_tac. Qed.
Lemma Slurper_StopSource_keep hostname : preserves src_keep (Slurper_StopSource hostname).
Proof. unfold Slurper_StopSource. frames. keep_tac. Qed.
Lemma Slurper_Subscribe_keep host : preserves src_keep (Slurper_Subscribe host).
Proof. unfold Slurper_Subscribe. frames. frame_stmt. intros ?. by case_match. Qed.
Lemma sourceAndHostLocked_keep hostID : preserves src_keep (sourceAndHostLocked hostID).
Proof. unfold sourceAndHostLocked. frames. Qed.
Lemma sourceViewLocked_keep s h : preserves src_keep (sourceViewLocked s h).
Proof. unfold sourceViewLocked. frames. Qed.
Lemma check_bans_keep l : preserves src_keep (check_bans l).
Proof. induction l as [|d l IH]; simpl; unfold findDomainBan; frames; done. Qed.
#[local] Hint Resolve check_bans_keep enqueueSourceHandoff_keep Slurper_StopSource_keep Slurper_Subscribe_keep
  sourceAndHostLocked_keep sourceViewLocked_keep : frame.
Lemma sourceDomainIsBanned_keep hostname : preserves src_keep (sourceDomainIsBanned hostname).
Proof. unfold sourceDomainIsBanned, DomainIsBanned. frames. Qed.
#[local] Hint Resolve sourceDomainIsBanned_keep : frame.
Lemma reconcileSourceLocked_keep s h : preserves src_keep (reconcileSourceLocked s h).
Proof. unfold reconcileSourceLocked, requireRateAdmission. frames. Qed.
#[local] Hint Resolve reconcileSourceLocked_keep : frame.

Lemma ensureSourceHost_keep hostname noSSL : preserves src_keep (ensureSourceHost hostname noSSL).
Proof. unfold ensureSourceHost. frames. frame_stmt. intros ?. by apply sinv_add_host. Qed.

Lemma ensureSourceRow_keep host : preserves src_keep (ensureSourceRow host).
Proof.
  apply keep_of_wp. intros r Hs. unfold ensureSourceRow. apply wp_bind, wp_wrap, query_wp; [|done].
  destruct (List.find _ _) as [s|] eqn:Hf; [done|]. apply wp_bind, wp_wrap, exec_wp; [|done].
  apply wp_ret. by apply sinv_add_source.
Qed.
#[local] Hint Resolve ensureSourceHost_keep ensureSourceRow_keep : frame.

Lemma addSource_keep rawURL public : preserves src_keep (addSource rawURL public).
Proof. unfold addSource, loadOrCreateSource, first_host, reconcile_and_view. frames. Qed.

Lemma finalizeSourceValidation_keep hostID revision status reason :
  preserves src_keep (finalizeSourceValidation hostID revision status reason).
Proof. unfold finalizeSourceValidation, Now. frames; by apply update_source_keep. Qed.

Lemma SetSourceState_keep hostID expected state : preserves src_keep (SetSourceState hostID expected state).
Proof. unfold SetSourceState, checkSourceEnablement, GetHostByID. frames; by apply update_source_keep. Qed.

Lemma SetSourceBlocked_keep hostname blocked : preserves src_keep (SetSourceBlocked hostname blocked).
Proof. unfold SetSourceBlocked, GetHost. frames; [keep_hosts|by apply update_source_keep]. Qed.

Lemma UpdateHostStatus_keep hostID status : preserves src_keep (UpdateHostStatus hostID status).
Proof. unfold UpdateHostStatus. frames; [frame_stmt; intros ?; by apply sinv_update|keep_hosts]. Qed.

Lemma source_by_url_keep pds msg : preserves src_keep (source_by_url pds msg).
Proof. unfold source_by_url. frames. Qed.
#[local] Hint Resolve source_by_url_keep : frame.

Lemma AdvanceSourceRecoveryPolicy_keep input : preserves src_keep (AdvanceSourceRecoveryPolicy input).
Proof. unfold AdvanceSourceRecoveryPolicy. frames; by apply update_source_keep. Qed.

(** The source and host a URL names are rows, and belong together. *)
Lemma sourceAndHostLocked_wp hostID r :
  wp (sourceAndHostLocked hostID)
     (λ x r', db r' = db r ∧ List.find (source_is hostID) (sources (db r)) = Some x.1 ∧
              List.find (host_is hostID) (hosts (db r)) = Some x.2 ∧
              accountCache r' = accountCache r ∧ events r' = events r)
     (λ _ r', db r' = db r ∧ accountCache r' = accountCache r ∧ events r' = events r) r.
Proof.
  unfold sourceAndHostLocked. apply wp_bind, wp_wrap, query_wp; [|done].
  destruct (List.find (source_is hostID) _) as [s|] eqn:Hs; [|done]. apply wp_bind, wp_wrap, query_wp; [|done]. simpl.
  destruct (List.find (host_is hostID) _) as [h|] eqn:Hh; [|done]. by apply wp_ret.
Qed.

Lemma source_by_url_wp pds msg r :
  wp (source_by_url pds msg)
     (λ x r', db r' = db r ∧ x.1 ∈ sources (db r) ∧ x.2 ∈ hosts (db r) ∧ host_ID x.2 = src_HostID x.1)
     (λ _ r', db r' = db r) r.
Proof.
  unfold source_by_url. destruct (ParseHostname pds) as [[hostname noSSL]|]; [|done]. apply wp_bind, wp_wrap, query_wp; [|done].
  destruct (List.find (hostname_is hostname) (hosts (db r))) as [h|]; [|done]. case_match; [done|].
  eapply wp_mono; [| |apply sourceAndHostLocked_wp]; [|by intros ?? []].
  intros x r1 (Hdb & Hs & Hh & _). apply find_some in Hs as [Hs Hsid], Hh as [Hh Hhid].
  unfold source_is, host_is in *. bool_to_prop. split_and!; [done|by apply list_elem_of_In..|congruence].
Qed.

Lemma AcknowledgeSourceRecovery_keep input : preserves src_keep (AcknowledgeSourceRecovery input).
Proof.
  apply keep_of_wp. intros r Hs. unfold AcknowledgeSourceRecovery. case_match; [done|]. apply wp_bind.
  eapply wp_mono; [| |apply source_by_url_wp]; [|by intros ?? ->].
  intros [s h] r1 (Hdb & Hin & Hh & Hid). simpl in *. rewrite <-Hdb in *. clear Hdb.
  destruct (_ || _) eqn:Hg; [done|]. apply orb_false_iff in Hg as [Hg Hpol]. apply orb_false_iff in Hg as [Hen Hrev].
  apply negb_false_iff in Hen, Hrev. apply Z.eqb_eq in Hrev. cbv zeta. apply wp_bind.
  eapply (wp_mono _ (λ _ r', sinv (db r')) _ (λ _ r', sinv (db r'))); [|done|].
  { intros _ r2 Hs2. apply src_keep_same; [apply sourceViewLocked_keep|done]. }
  apply Transaction_wp; [done|]. apply wp_bind, wp_wrap, exec_wp; [|done]. apply wp_catch.
  unfold update_source. apply wp_bind. unfold dbop. apply wp_bind. unfold wp at 1, call. simpl tick.
  destruct (db_fail _); [done|]. apply wp_ret, wp_gets_bind, wp_bind, wp_modify. case_match; [|by apply wp_throw].
  apply wp_ret. split; [|done]. simpl.
  apply (sinv_acknowledge (db r1) s h _ _ Hs Hin Hh Hid); try done.
  - simpl. by destruct (Z.eqb_spec (src_RecoveryPolicyRevision s) 0); [left|right; simpl in Hpol; apply negb_false_iff in Hpol; bool_to_prop].
  - intros s' Hp. unfold source_is in Hp. bool_to_prop. done.
Qed.

End Operations.
