(* ===== verification/RelayAdminProofs.v ===== *)
(** * Properties of source administration

    Fencing of source changes by revision, cursor persistence, domain bans,
    paging and the delivery of handoffs. *)

From S2P Require Import Prelude GoStrings Syntax Stream StateMonad Hostname Relay RelayAccount RelayHost RelaySources RelayVerify RelayIngest RelayFrame RelayAccountProofs RelayQuotaProofs RelaySourceProofs.
Local Open Scope Z_scope.

(** ** Domain bans *)

(** A ban covers a domain with at least two labels and everything below it. *)
Definition covers (ban hostname : string) : Prop :=
  ContainsByte "." ban = true ∧ (hostname = ban ∨ ∃ p, hostname = (p ++ String "." ban)%string).

Lemma domain_suffixes_covers ban s : ban ∈ domain_suffixes (Split "." s) ↔ covers ban s.
Proof.
  remember (String.length s) as n eqn:Hn. revert s Hn. induction (lt_wf n) as [n _ IH]. intros s ->. unfold covers.
  destruct (ContainsByte "." s) eqn:Hdot.
  - apply ContainsByte_split in Hdot as (u & v & -> & Hu).
    assert (Hsuf : domain_suffixes (Split "." (u ++ String "." v)) = (u ++ String "." v)%string :: domain_suffixes (Split "." v)).
    { rewrite <-(Join_Split "." (u ++ String "." v)) at 2. rewrite Split_app_sep by done. simpl.
      by destruct (Split "." v) eqn:Hv; [destruct (Split_not_nil "." v)|]. }
    rewrite Hsuf, elem_of_cons, (IH (String.length v)); [|rewrite str_length_app; simpl; lia|done]. unfold covers. split.
    + intros [->|[Hb [->|[p ->]]]].
      * split; [|by left]. rewrite ContainsByte_app. simpl. by rewrite orb_true_r.
      * split; [done|]. right. by exists u.
      * split; [done|]. right. exists (u ++ String "." p)%string. by rewrite str_app_assoc.
    + intros [Hb [Heq|[p Heq]]]; [by left|right; split; [done|]].
      destruct (ContainsByte "." p) eqn:Hp.
      * apply ContainsByte_split in Hp as (u' & p' & -> & Hu'). rewrite str_app_assoc in Heq. simpl in Heq.
        apply sep_inj in Heq as [-> ->]; [|done|done]. right. by exists p'.
      * apply sep_inj in Heq as [-> ->]; [|done|done]. by left.
  - rewrite Split_no_sep by done. split; [by intros ?%elem_of_nil|]. intros [Hb [->|[p ->]]]; [congruence|].
    rewrite ContainsByte_app in Hdot. simpl in Hdot. by rewrite orb_true_r in Hdot.
Qed.

Section Admin.
Context `{Services}.

Lemma check_bans_wp domains r :
  wp (check_bans domains) (λ b r', db r' = db r ∧ (b = true ↔ ∃ d, d ∈ domains ∧ d ∈ bans (db r))) (λ _ r', db r' = db r) r.
Proof.
  revert r. induction domains as [|d domains IH]; intros r; simpl.
  { apply wp_ret. split; [done|]. split; [done|]. by intros (d & Hd%elem_of_nil & _). }
  unfold findDomainBan. apply wp_bind, query_wp; [|done]. destruct (existsb (String.eqb d) (bans (db r))) eqn:He.
  - apply wp_ret. split; [done|]. split; [intros _|done]. exists d. split; [by left|].
    apply existsb_exists in He as (x & Hx & Heq). apply String.eqb_eq in Heq as ->. by apply list_elem_of_In.
  - eapply wp_mono; [| |apply IH]; [|done]. intros b r' [Hdb Hb]. split; [done|]. rewrite Hb. simpl. split.
    + intros (x & Hx & Hin). exists x. split; [by right|done].
    + intros (x & [->|Hx]%elem_of_cons & Hin); [|by exists x]. exfalso. apply not_true_iff_false in He. apply He.
      apply existsb_exists. exists d. split; [by apply list_elem_of_In|apply String.eqb_refl].
Qed.

Lemma DomainIsBanned_wp hostname r :
  wp (DomainIsBanned hostname)
     (λ b r', db r' = db r ∧ (b = true ↔ HasPrefix hostname "localhost:" = true ∨ ∃ ban, ban ∈ bans (db r) ∧ covers ban hostname))
     (λ _ r', db r' = db r) r.
Proof.
  unfold DomainIsBanned. destruct (HasPrefix hostname "localhost:") eqn:Hl; [apply wp_ret; naive_solver|]. case_match; [done|].
  eapply wp_mono; [| |apply check_bans_wp]; [|done]. intros b r' [Hdb Hb]. split; [done|]. rewrite Hb.
  setoid_rewrite domain_suffixes_covers. split; [intros (d & Hc & Hin); right; by exists d|].
  intros [?|(d & Hin & Hc)]; [done|by exists d].
Qed.

(** A domain is banned exactly if a ban covers it.  When the
    check answers, the answer is true for a local host and otherwise exactly
    if the table holds the host name itself or one of its parent domains,
    top-level domains excepted. *)
Theorem DomainIsBanned_iff hostname r r' b :
  DomainIsBanned hostname r = (r', Ok b) →
  b = true ↔ HasPrefix hostname "localhost:" = true ∨ ∃ ban, ban ∈ bans (db r) ∧ covers ban hostname.
Proof. intros Hr. apply (wp_run _ _ _ _ _ _ (DomainIsBanned_wp hostname r) Hr). Qed.

(** ** Changing the desired state *)

(** Sources and handoffs are as before. *)
Definition admin_same (r r' : Relay) : Prop := sources (db r') = sources (db r) ∧ bans (db r') = bans (db r).
#[local] Instance admin_same_frame : Frame admin_same.
Proof.
  split; [split; [done|]|done|by intros r r' [H1 H2]].
  intros r1 r2 r3 [H1 H2] [H3 H4]. split; congruence.
Qed.
Ltac admin_tac := frame_stmt; split; reflexivity.

Lemma sourceViewLocked_admin s h : preserves admin_same (sourceViewLocked s h).
Proof. unfold sourceViewLocked. frames. Qed.
Lemma enqueueSourceHandoff_admin h rev state : preserves admin_same (enqueueSourceHandoff h rev state).
Proof. unfold enqueueSourceHandoff, Now. frames. admin_tac. Qed.
Lemma check_bans_admin l : preserves admin_same (check_bans l).
Proof. induction l as [|d l IH]; simpl; unfold findDomainBan; frames; done. Qed.
#[local] Hint Resolve sourceViewLocked_admin enqueueSourceHandoff_admin check_bans_admin : frame.
Lemma reconcileSourceLocked_admin s h : preserves admin_same (reconcileSourceLocked s h).
Proof.
  unfold reconcileSourceLocked, Slurper_StopSource, Slurper_Subscribe, sourceDomainIsBanned, DomainIsBanned, requireRateAdmission.
  frames; try admin_tac. frame_stmt. case_match; split; reflexivity.
Qed.
#[local] Hint Resolve reconcileSourceLocked_admin : frame.

(** The queued handoff tells the new state. *)
Definition queued_for (hostID rev : Z) (state : SourceState) (r : Relay) : Prop :=
  ∃ row, row ∈ handoffs (db r) ∧ hand_HostID row = hostID ∧ hand_SourceRevision row = rev ∧
         hand_State row = SourceState_string state.

Lemma enqueueSourceHandoff_wp h rev state r :
  wp (enqueueSourceHandoff h rev state)
     (λ _ r', sources (db r') = sources (db r) ∧ queued_for (host_ID h) rev state r') (λ _ _, True) r.
Proof.
  unfold enqueueSourceHandoff. apply wp_bind, wp_attempt.
  assert (Hnew : ∀ r1, sources (db r1) = sources (db r) → wp (now ← Now;
    let row := mkHandoff (host_ID h) (sourceHostURL h) rev (SourceState_string state) 0 now in
    exec (λ d, set_handoffs (if existsb (handoff_is (host_ID h)) (handoffs d)
      then update_where (handoff_is (host_ID h)) (λ _, row) (handoffs d)
      else handoffs d ++ [row]) d))
     (λ _ r', sources (db r') = sources (db r) ∧ queued_for (host_ID h) rev state r') (λ _ _, True) r1).
  { intros r1 Hs. apply wp_bind. unfold Now, wp at 1, call. apply exec_wp; [|done]. split; [done|].
    eexists (mkHandoff _ _ _ _ _ _). split; [|done]. simpl. destruct (existsb _ _) eqn:He.
    - apply existsb_exists in He as (x & Hx & Hid). apply elem_of_update_where. exists x.
      split; [by apply list_elem_of_In|by rewrite Hid].
    - apply elem_of_app. right. set_solver. }
  apply query_wp; [|intros; by apply wp_ret, Hnew].
  destruct (List.find _ _) as [row|] eqn:Hf; [|by apply wp_ret, Hnew].
  destruct (_ && _) eqn:Hsame; apply wp_ret; [|by apply Hnew]. apply wp_ret. split; [done|].
  apply find_some in Hf as [Hin Hid]. unfold handoff_is in Hid. bool_to_prop. exists row.
  split; [by apply list_elem_of_In|]. done.
Qed.

(** A committed change of the desired state. *)
Definition state_changed (hostID expected : Z) (state : SourceState) (r r' : Relay) : Prop :=
  ∃ s h, List.find (source_is hostID) (sources (db r)) = Some s ∧ List.find (host_is hostID) (hosts (db r)) = Some h ∧
    src_Revision s = expected ∧ src_State s ≠ state ∧
    (state = SourceStateEnabled → is_passed s = true ∧ host_banned h = false ∧
       (HasPrefix (host_Hostname h) "localhost:" = true ∨ ∀ ban, ban ∈ bans (db r) → ¬ covers ban (host_Hostname h))) ∧
    sources (db r') = update_where (source_is hostID)
      (src_update state (uint64 (expected + 1)) ("state:" ++ SourceState_string state)%string) (sources (db r)) ∧
    queued_for hostID (uint64 (expected + 1)) state r'.

(** Later steps keep sources; on success the handoff stays queued. *)
Definition admin_keep (r r' : Relay) : Prop := admin_same r r' ∧ handoffs (db r') = handoffs (db r).
#[local] Instance admin_keep_frame : Frame admin_keep.
Proof.
  split; [split; [done|]|done|by intros r r' [[H1 H2] H3]].
  intros r1 r2 r3 [H12 Hh] [H23 Hh']. split; [by etrans|congruence].
Qed.
Ltac keep_tac := frame_stmt; repeat split; reflexivity.
Lemma sourceViewLocked_akeep s h : preserves admin_keep (sourceViewLocked s h).
Proof. unfold sourceViewLocked. frames. Qed.
Lemma check_bans_akeep l : preserves admin_keep (check_bans l).
Proof. induction l as [|d l IH]; simpl; unfold findDomainBan; frames; done. Qed.
#[local] Hint Resolve sourceViewLocked_akeep check_bans_akeep : frame.
Lemma reconcileSourceLocked_akeep s h : preserves admin_keep (reconcileSourceLocked s h).
Proof.
  unfold reconcileSourceLocked, Slurper_StopSource, Slurper_Subscribe, sourceDomainIsBanned, DomainIsBanned, requireRateAdmission.
  frames; try keep_tac. frame_stmt. case_match; repeat split; reflexivity.
Qed.
#[local] Hint Resolve reconcileSourceLocked_akeep : frame.

Lemma checkSourceEnablement_wp s h r :
  wp (checkSourceEnablement s h)
     (λ _ r', db r' = db r ∧ is_passed s = true ∧ host_banned h = false ∧
        (HasPrefix (host_Hostname h) "localhost:" = true ∨ ∀ ban, ban ∈ bans (db r) → ¬ covers ban (host_Hostname h)))
     (λ _ r', db r' = db r) r.
Proof.
  unfold checkSourceEnablement. apply wp_bind, wp_lift. destruct (sourceURL _ _); [|done].
  destruct (is_passed s); [|done]. simpl. apply wp_bind. unfold sourceDomainIsBanned.
  destruct (HasPrefix (host_Hostname h) "localhost:") eqn:Hl.
  { apply wp_ret. destruct (host_banned h); [done|]. apply wp_ret. by split_and!; [..|left]. }
  eapply wp_mono; [| |apply DomainIsBanned_wp]; [|done]. intros b r1 [Hdb Hb]. destruct (b || host_banned h) eqn:Ho; [done|].
  apply orb_false_iff in Ho as [-> Hban]. apply wp_ret. split_and!; try done. right. intros ban Hin Hc.
  assert (false = true); [|done]. apply Hb. right. by exists ban.
Qed.

Lemma sourceViewLocked_wp s h r :
  wp (sourceViewLocked s h) (λ v r', admin_keep r r' ∧ view_DesiredState v = src_State s ∧ view_Revision v = src_Revision s)
     (λ _ r', admin_keep r r') r.
Proof.
  unfold sourceViewLocked. case_match; [done|]. apply wp_gets_bind, wp_attempt, query_wp; [|intros msg]; by apply wp_ret.
Qed.

Lemma find_update_where {A} (p : A → bool) f l :
  (∀ x, p (f x) = p x) → List.find p (update_where p f l) = f <$> List.find p l.
Proof.
  intros Hp. induction l as [|x l IH]; simpl; [done|]. destruct (p x) eqn:Hx; simpl; [by rewrite Hp, Hx|by rewrite Hx].
Qed.

(** The transaction that changes the state. *)
Lemma change_state_wp s h state r :
  NoDup (map src_HostID (sources (db r))) → s ∈ sources (db r) → host_ID h = src_HostID s →
  let revision := uint64 (src_Revision s + 1) in
  wp (Transaction (
        update_source (λ s', source_is (src_HostID s) s' && (src_Revision s' =? src_Revision s))
          (src_update state revision ("state:" ++ SourceState_string state)%string) ErrSourceRevisionConflict ;;
        enqueueSourceHandoff h revision state))
     (λ _ r', sources (db r') = update_where (source_is (src_HostID s))
                (src_update state revision ("state:" ++ SourceState_string state)%string) (sources (db r)) ∧
              queued_for (src_HostID s) revision state r')
     (λ _ r', sources (db r') = sources (db r)) r.
Proof.
  intros Hs Hin Hid revision. apply Transaction_wp; [done|]. unfold update_source. apply wp_bind, wp_bind.
  unfold dbop. apply wp_bind. unfold wp at 1, call. destruct (db_fail _); [done|]. apply wp_ret, wp_gets_bind, wp_bind, wp_modify.
  case_match; [|by apply wp_throw]. apply wp_ret. eapply wp_mono; [| |apply enqueueSourceHandoff_wp]; [|done].
  intros _ r2 [Hsrc Hq]. split; [|done]. rewrite Hid in Hq. split; [|exact Hq]. simpl in *. rewrite Hsrc.
  apply update_where_ext. intros y Hy. unfold source_is. destruct (Z.eqb_spec (src_HostID y) (src_HostID s)) as [Heq|]; [|done].
  rewrite (key_unique src_HostID (sources (db r)) y s Hs Hy Hin Heq). by rewrite Z.eqb_refl.
Qed.

(** The steps after the change return the view of the row as it now is. *)
Lemma after_change_wp s h hostID state r :
  src_State s = state → List.find (source_is hostID) (sources (db r)) = Some s →
  wp (sourceViewLocked s h ;; reconcileSourceLocked s h ;; host ← GetHostByID (src_HostID s); sourceViewLocked s host)
     (λ v r', admin_keep r r' ∧ view_DesiredState v = state ∧
        ∃ s', List.find (source_is hostID) (sources (db r')) = Some s' ∧ src_State s' = state ∧ view_Revision v = src_Revision s')
     (λ _ r', admin_keep r r') r.
Proof.
  intros Hst Hf. apply wp_bind. eapply wp_mono; [| |apply preserves_wp, sourceViewLocked_akeep]; [|done]. intros ? r1 H1.
  apply wp_bind. eapply wp_mono; [| |apply preserves_wp, reconcileSourceLocked_akeep]; [|intros e r2 H2; exact (transitivity H1 H2)].
  intros ? r2 H2. apply wp_bind. assert (H02 : admin_keep r r2) by exact (transitivity H1 H2).
  eapply wp_mono; [| |apply preserves_wp; unfold GetHostByID; frames]; [|intros e r3 H3; exact (transitivity H02 H3)].
  intros host r3 H3. assert (H03 : admin_keep r r3) by exact (transitivity H02 H3).
  eapply wp_mono; [| |apply sourceViewLocked_wp]; [|intros e r4 H4; exact (transitivity H03 H4)].
  intros v r4 (H4 & Hv1 & Hv2). assert (H04 : admin_keep r r4) by exact (transitivity H03 H4).
  split; [done|]. split; [congruence|]. exists s. destruct H04 as [[-> _] _]. done.
Qed.

(** C30 (safety): [SetSourceState] changes a source's state only under its current
    revision.  A call either leaves the table of sources as it is or, if the source's
    revision is the one the caller expects, sets the requested state, raises
    the revision by one, owes a recovery again and queues the handoff of
    exactly that revision and state, all in one transaction.  A repeated request leaves
    the sources as they are (it may queue the handoff of an enabled source again).  A
    source is enabled only if its validation passed and neither the host nor its domain
    is banned.  On success the caller gets the stored revision and state.  (A ban by
    [UpdateHostStatus] is another operation, which asks for no revision.) *)
Theorem SetSourceState_fenced hostID expected state r :
  sinv (db r) →
  let '(r', res) := SetSourceState hostID expected state r in
  (sources (db r') = sources (db r) ∨ state_changed hostID expected state r r') ∧
  (∀ v, res = Ok v → view_DesiredState v = state ∧
     ∃ s, List.find (source_is hostID) (sources (db r')) = Some s ∧ src_State s = state ∧ view_Revision v = src_Revision s).
Proof.
  intros Hs.
  assert (Hw : wp (SetSourceState hostID expected state)
    (λ v r', (sources (db r') = sources (db r) ∨ state_changed hostID expected state r r') ∧ view_DesiredState v = state ∧
       ∃ s, List.find (source_is hostID) (sources (db r')) = Some s ∧ src_State s = state ∧ view_Revision v = src_Revision s)
    (λ _ r', sources (db r') = sources (db r) ∨ state_changed hostID expected state r r') r).
  2: { unfold wp in Hw. destruct (SetSourceState hostID expected state r) as [r' [v|e]]; [|by split].
       destruct Hw as [Hw Hv]. split; [done|]. by intros v' [= <-]. }
  unfold SetSourceState. apply wp_bind. eapply wp_mono; [| |apply sourceAndHostLocked_wp]; [|intros e r1 [-> _]; by left].
  intros [s h] r1 (Hdb1 & Hfs & Hfh & _). simpl in Hfs, Hfh. destruct (_ && _) eqn:Hrev; [left; by rewrite Hdb1|].
  pose proof Hfs as Hs1. apply find_some in Hs1 as [Hin Hsid]. apply list_elem_of_In in Hin.
  pose proof Hfh as Hh1. apply find_some in Hh1 as [_ Hhid]. unfold source_is, host_is in Hsid, Hhid. bool_to_prop.
  apply wp_bind. eapply (wp_mono _ (λ _ r2, db r2 = db r ∧ (state = SourceStateEnabled → is_passed s = true ∧ host_banned h = false ∧
       (HasPrefix (host_Hostname h) "localhost:" = true ∨ ∀ ban, ban ∈ bans (db r) → ¬ covers ban (host_Hostname h)))) _
       (λ _ r2, db r2 = db r)); [|intros e r2 ->; by left|].
  2: { case_bool_decide; [|by apply wp_ret]. rewrite <-Hdb1. eapply wp_mono; [| |apply checkSourceEnablement_wp]; [|done]. by intros ? r2 []. }
  intros ? r2 [Hdb2 Hen]. cbv zeta. apply wp_bind.
  eapply wp_mono; [| |apply (preserves_wp admin_same); frames]; [|intros e r3 [Hs3 _]; left; congruence].
  intros ? r3 [Hs3 _]. rewrite Hdb2 in Hs3. apply wp_bind. case_bool_decide as Hst; simpl.
  - apply wp_ret. eapply wp_mono; [| |apply after_change_wp; [done|by rewrite Hs3]].
    + intros v r4 ([[Hs4 _] _] & Hv & Hx). rewrite Hs3 in Hs4. split; [by left|done].
    + intros e r4 [[Hs4 _] _]. left. congruence.
  - assert (Hexp : src_Revision s = expected).
    { destruct (Z.eqb_spec (src_Revision s) expected) as [|_]; [done|]. simpl in Hrev. apply negb_false_iff in Hrev. bool_to_prop.
      exfalso. apply Hst. pose proof (si_ops _ Hs) as Hops. rewrite Forall_forall in Hops. by apply (Hops s Hin). }
    set (rev' := uint64 _). set (f := src_update state rev' _).
    apply wp_bind, wp_catch. eapply wp_mono; [| |apply change_state_wp; [rewrite Hs3; apply Hs|by rewrite Hs3|congruence]].
    2: { intros e r4 Hs4. case_match; apply wp_throw; left; congruence. }
    intros ? r4 [Hs4 Hq4]. rewrite Hs3, Hsid in Hs4. rewrite Hsid in Hq4. apply wp_ret.
    assert (Hchg : ∀ r5, admin_keep r4 r5 → state_changed hostID expected state r r5).
    { intros r5 [[Hs5 _] Hh5]. exists s, h. split_and!; try done.
      - rewrite Hs5, Hs4. unfold f, rev'. by rewrite Hexp.
      - destruct Hq4 as (row & Hr & Hrest). exists row. rewrite Hh5. subst rev'. rewrite <-Hexp. by split. }
    eapply wp_mono; [| |apply (after_change_wp _ _ hostID state); [done|]].
    + intros v r5 (Hk & Hv & Hx). split; [right; by apply Hchg|done].
    + intros e r5 Hk. right. by apply Hchg.
    + rewrite Hs4, find_update_where, Hfs by done. done.
Qed.

(** ** Cursors *)

(** The position a host has reached: its stored one or the latest of the
    positive positions reported for it. *)
Definition cursor_max (cursors : list HostCursor) (h : Host) : Z :=
  foldr (λ c m, if (host_ID h =? cur_HostID c) && (0 <? cur_LastSeq c) then Z.max (cur_LastSeq c) m else m)
    (host_LastSeq h) cursors.

Definition advance_hosts (cursors : list HostCursor) (hs : list Host) : list Host :=
  map (λ h, host_set_LastSeq (cursor_max cursors h) h) hs.

Lemma host_set_LastSeq_same h : host_set_LastSeq (host_LastSeq h) h = h.
Proof. by destruct h. Qed.

Lemma cursor_max_base cursors h n :
  host_LastSeq h ≤ n →
  cursor_max cursors (host_set_LastSeq n h) = Z.max n (cursor_max cursors h).
Proof. intros Hn. induction cursors as [|c cursors IH]; simpl; [lia|]. simpl in IH. rewrite IH. case_match; lia. Qed.

Lemma cursor_max_ge cursors h : host_LastSeq h ≤ cursor_max cursors h.
Proof. induction cursors as [|c cursors IH]; simpl; [lia|]. case_match; lia. Qed.

(** One update of the loop, then the rest. *)
Lemma advance_hosts_cons c cursors hs :
  advance_hosts (c :: cursors) hs
  = advance_hosts cursors (if cur_LastSeq c <=? 0 then hs else update_where
      (λ h, host_is (cur_HostID c) h && (host_LastSeq h <? cur_LastSeq c)) (host_set_LastSeq (cur_LastSeq c)) hs).
Proof.
  unfold advance_hosts, update_where. destruct (Z.leb_spec (cur_LastSeq c) 0) as [Hle|Hgt].
  - apply map_ext. intros h. simpl. destruct (Z.ltb_spec 0 (cur_LastSeq c)); [lia|]. by rewrite andb_false_r.
  - rewrite map_map. apply map_ext. intros h. simpl. unfold host_is. destruct (Z.ltb_spec 0 (cur_LastSeq c)); [|lia].
    destruct (host_ID h =? cur_HostID c); simpl; [|done].
    destruct (Z.ltb_spec (host_LastSeq h) (cur_LastSeq c)) as [Hlt|Hge].
    + rewrite cursor_max_base by lia. by destruct h.
    + pose proof (cursor_max_ge cursors h). f_equal. lia.
Qed.

Lemma persist_cursors_wp cursors r :
  wp (persist_cursors cursors) (λ _ r', hosts (db r') = advance_hosts cursors (hosts (db r))) (λ _ _, True) r.
Proof.
  revert r. induction cursors as [|c cursors IH]; intros r; simpl.
  { apply wp_ret. unfold advance_hosts. simpl. symmetry. erewrite map_ext; [apply map_id|]. apply host_set_LastSeq_same. }
  apply wp_bind. rewrite advance_hosts_cons. destruct (cur_LastSeq c <=? 0); [apply wp_ret, IH|].
  apply wp_wrap, exec_wp; [|done]. match goal with |- wp _ _ _ ?r1 => exact (IH r1) end.
Qed.

(** Cursors are persisted all or none, and never move back.
    A successful write sets each host's position to the latest of its stored
    position and the positions reported for it, however they are ordered or
    repeated; a failed one changes no host. *)
Theorem PersistHostCursors_latest cursors r :
  let '(r', res) := PersistHostCursors cursors r in
  if is_ok res then hosts (db r') = advance_hosts cursors (hosts (db r)) else hosts (db r') = hosts (db r).
Proof.
  assert (Hw : wp (PersistHostCursors cursors) (λ _ r', hosts (db r') = advance_hosts cursors (hosts (db r)))
    (λ _ r', hosts (db r') = hosts (db r)) r).
  { apply Transaction_wp; [done|]. eapply wp_mono; [| |apply persist_cursors_wp]; done. }
  unfold wp in Hw. by destruct (PersistHostCursors cursors r) as [r' [[]|e]].
Qed.

(** ** Paging *)

Definition id_lt (a b : Source) : Prop := src_HostID a < src_HostID b.

Lemma insert_source_perm s rows : insert_source s rows ≡ₚ s :: rows.
Proof. induction rows as [|x rows IH]; simpl; [done|]. case_match; [done|]. rewrite IH. apply Permutation_swap. Qed.

Lemma order_sources_perm rows : order_sources rows ≡ₚ rows.
Proof. induction rows as [|x rows IH]; simpl; [done|]. by rewrite insert_source_perm, IH. Qed.

Lemma insert_source_sorted s rows :
  Forall (λ x, src_HostID x ≠ src_HostID s) rows → StronglySorted id_lt rows → StronglySorted id_lt (insert_source s rows).
Proof.
  intros Hne Hs. induction Hs as [|x rows Hs IH Hx]; simpl; [by constructor; constructor|].
  apply Forall_cons in Hne as [Hn Hne]. destruct (Z.leb_spec (src_HostID s) (src_HostID x)) as [Hle|Hgt].
  - constructor; [by constructor|]. assert (id_lt s x) by (unfold id_lt; lia). constructor; [done|].
    eapply Forall_impl; [exact Hx|]. unfold id_lt in *. intros; simpl in *; lia.
  - constructor; [by apply IH|]. rewrite insert_source_perm. constructor; [unfold id_lt; lia|done].
Qed.

Lemma order_sources_sorted rows : NoDup (map src_HostID rows) → StronglySorted id_lt (order_sources rows).
Proof.
  induction rows as [|x rows IH]; simpl; [constructor|]. intros [Hn Hnd]%NoDup_cons. apply insert_source_sorted; [|by apply IH].
  rewrite order_sources_perm. apply Forall_forall. intros y Hy Heq. apply Hn. rewrite <-Heq.
  by apply (list_elem_of_fmap_2 src_HostID).
Qed.

(** Ordering commutes with selecting rows. *)
Lemma filter_insert_source p s rows :
  StronglySorted id_lt rows →
  List.filter p (insert_source s rows) = if p s then insert_source s (List.filter p rows) else List.filter p rows.
Proof.
  induction 1 as [|x rows Hs IH Hx]; simpl; [by destruct (p s)|].
  destruct (Z.leb_spec (src_HostID s) (src_HostID x)) as [Hle|Hgt]; simpl.
  - destruct (p s) eqn:Hps; [|done]. destruct (p x); simpl; [by destruct (Z.leb_spec (src_HostID s) (src_HostID x)); [|lia]|].
    assert (Hall : Forall (λ y, src_HostID s ≤ src_HostID y) (List.filter p rows)).
    { eapply Forall_sublist'; [apply List_filter_sublist|]. eapply Forall_impl; [exact Hx|]. unfold id_lt. intros; simpl in *; lia. }
    destruct (List.filter p rows) as [|y l]; [done|]. apply Forall_cons in Hall as [Hy _]. simpl.
    by destruct (Z.leb_spec (src_HostID s) (src_HostID y)); [|lia].
  - rewrite IH. destruct (p x) eqn:Hpx, (p s); simpl; try done. by destruct (Z.leb_spec (src_HostID s) (src_HostID x)); [lia|].
Qed.

Lemma order_sources_filter p rows :
  NoDup (map src_HostID rows) → order_sources (List.filter p rows) = List.filter p (order_sources rows).
Proof.
  induction rows as [|x rows IH]; simpl; [done|]. intros [Hn Hnd]%NoDup_cons.
  rewrite filter_insert_source by by apply order_sources_sorted. destruct (p x); simpl; by rewrite IH.
Qed.

(** The sources after a position, in order. *)
Definition after (d : DB) (hostID : Z) : list Source :=
  List.filter (λ s, hostID <? src_HostID s) (order_sources (sources d)).

Lemma after_split d hostID l1 s l2 :
  NoDup (map src_HostID (sources d)) → after d hostID = l1 ++ s :: l2 → after d (src_HostID s) = l2.
Proof.
  intros Hnd Heq. unfold after in *. set (L := order_sources (sources d)) in *.
  assert (Hs : StronglySorted id_lt L) by by apply order_sources_sorted.
  assert (Hf : List.filter (λ x, src_HostID s <? src_HostID x) L
             = List.filter (λ x, src_HostID s <? src_HostID x) (List.filter (λ x, hostID <? src_HostID x) L)).
  { assert (Hlt : hostID < src_HostID s).
    { assert (Hin : In s (List.filter (λ x, hostID <? src_HostID x) L)) by (rewrite Heq; apply in_or_app; right; by left).
      apply filter_In in Hin as [_ Hin]. by apply Z.ltb_lt. }
    clear Heq Hs. induction L as [|x L IH]; simpl; [done|].
    destruct (Z.ltb_spec hostID (src_HostID x)); simpl; destruct (Z.ltb_spec (src_HostID s) (src_HostID x)); simpl; try lia; congruence. }
  rewrite Hf, Heq. eapply StronglySorted_sublist in Hs; [|apply (List_filter_sublist (λ x, hostID <? src_HostID x))].
  rewrite Heq in Hs. clear Heq Hf. rewrite List.filter_app. simpl. rewrite Z.ltb_irrefl.
  induction l1 as [|x l1 IH]; simpl in *.
  - apply StronglySorted_inv in Hs as [_ Hs]. apply List_filter_all. eapply Forall_impl; [exact Hs|]. unfold id_lt. intros; simpl in *; by apply Z.ltb_lt.
  - apply StronglySorted_inv in Hs as [Hs Hx]. apply Forall_app in Hx as [_ Hx]. apply Forall_cons in Hx as [Hx _].
    unfold id_lt in Hx. destruct (Z.ltb_spec (src_HostID s) (src_HostID x)); [lia|]. by apply IH.
Qed.

Lemma view_sources_wp hs rows r :
  wp (view_sources hs rows) (λ vs _, map view_HostID vs = map src_HostID rows) (λ _ _, True) r.
Proof.
  revert r. induction rows as [|s rows IH]; intros r; simpl; [done|].
  destruct (List.find (host_is (src_HostID s)) hs) as [h|] eqn:Hf; [|done]. apply find_some in Hf as [_ Hid].
  unfold host_is in Hid. bool_to_prop. apply wp_bind. unfold sourceViewLocked. case_match; [done|].
  apply wp_gets_bind, wp_attempt, query_wp; [|intros msg]; apply wp_ret, wp_bind; (eapply wp_mono; [| |apply IH]; [|done]);
    intros vs r2 Hvs; apply wp_ret; simpl; by rewrite Hvs, Hid.
Qed.

(** Paging visits every source once.  A page lists the
    sources after the given position in order, and what comes after the
    returned position are exactly the sources not yet listed; a returned
    position of zero means that none are left.  So following the pages lists
    every source exactly once. *)
Theorem ListSources_pages afterHostID limit r r' views next :
  NoDup (map src_HostID (sources (db r))) → Forall (λ s, 0 < src_HostID s) (sources (db r)) →
  ListSources afterHostID limit r = (r', Ok (views, next)) →
  map src_HostID (after (db r) afterHostID)
  = map view_HostID views ++ (if next =? 0 then [] else map src_HostID (after (db r) next)).
Proof.
  intros Hnd Hpos Hrun.
  assert (Hw : wp (ListSources afterHostID limit) (λ x _, map src_HostID (after (db r) afterHostID)
    = map view_HostID x.1 ++ (if x.2 =? 0 then [] else map src_HostID (after (db r) x.2))) (λ _ _, True) r);
    [|exact (wp_run _ _ _ _ _ _ Hw Hrun)].
  clear Hrun. unfold ListSources. cbv zeta. apply wp_bind, wp_wrap, query_wp; [|done].
  rewrite order_sources_filter by done. fold (after (db r) afterHostID). set (L := after (db r) afterHostID).
  assert (Hlim : 0 < sourcePageLimit limit) by (unfold sourcePageLimit, defaultSourcePageLimit, maxSourcePageLimit; repeat case_match; bool_to_prop; lia).
  set (n := Z.to_nat (sourcePageLimit limit)) in *. assert (Hn : (0 < n)%nat) by lia. clearbody n.
  apply wp_bind. eapply (wp_mono _ (λ _ _, True) _ (λ _ _, True)); [|done|].
  2: { case_match; [done|]. by apply wp_wrap, query_wp. }
  intros hs r2 _. apply wp_bind. eapply wp_mono; [| |apply view_sources_wp]; [|done].
  intros vs r3 Hvs. apply wp_ret. simpl. rewrite Hvs. rewrite length_take.
  destruct (Nat.ltb_spec n (S n `min` length L)) as [Hmore|Hall].
  - assert (n < length L)%nat as Hlt by lia. rewrite take_take, Nat.min_l by lia.
    destruct (lookup_lt_is_Some_2 L (pred n)) as [s Hs]; [lia|].
    rewrite lookup_take, Hs, decide_True by lia. simpl.
    assert (Hsplit : L = take (pred n) L ++ s :: drop n L).
    { rewrite <-(take_drop_middle L (pred n) s Hs) at 1. by replace (S (pred n)) with n by lia. }
    rewrite (after_split (db r) afterHostID _ s _ Hnd Hsplit).
    assert (Hs0 : src_HostID s ≠ 0).
    { assert (Hin : s ∈ sources (db r)).
      { rewrite <-(order_sources_perm (sources (db r))). apply list_elem_of_lookup_2 in Hs.
        apply list_elem_of_In in Hs. apply filter_In in Hs as [Hs _]. by apply list_elem_of_In. }
      rewrite Forall_forall in Hpos. specialize (Hpos s Hin). lia. }
    apply Z.eqb_neq in Hs0. rewrite Hs0. rewrite <-map_app. by rewrite take_drop.
  - rewrite take_ge by lia. simpl. by rewrite app_nil_r.
Qed.

(** ** Delivering handoffs *)

(** The source row of a handoff no longer wants it. *)
Definition row_superseded (d : DB) (row : SourceHandoff) : Prop :=
  ∃ s h, List.find (source_is (hand_HostID row)) (sources d) = Some s ∧
    List.find (host_is (hand_HostID row)) (hosts d) = Some h ∧ superseded s h row = true.

Definition drop_revision (row : SourceHandoff) (rows : list SourceHandoff) : list SourceHandoff :=
  List.filter (λ h, negb (handoff_is (hand_HostID row) h && (hand_SourceRevision h =? hand_SourceRevision row))) rows.
Definition drop_attempt (row : SourceHandoff) (rows : list SourceHandoff) : list SourceHandoff :=
  List.filter (λ h, negb (same_attempt row h)) rows.
Definition retry_attempt (row : SourceHandoff) (at_ : Z) (rows : list SourceHandoff) : list SourceHandoff :=
  update_where (same_attempt row) (λ h, mkHandoff (hand_HostID h) (hand_PDS h) (hand_SourceRevision h) (hand_State h)
    (hand_Attempts row + 1) at_) rows.

(** The queue after a delivery with the outcome [sent], from the state [r2] in
    which the lock was taken again. *)
Definition settled (sent : option string) (row : SourceHandoff) (r2 r' : Relay) : Prop :=
  handoffs (db r') = handoffs (db r2) ∨
  (sent = None ∧ ¬ row_superseded (db r2) row ∧ handoffs (db r') = drop_attempt row (handoffs (db r2))) ∨
  ((sent ≠ None ∨ row_superseded (db r2) row) ∧
   ∃ t, handoffs (db r') = retry_attempt row (t + retry_delay (hand_Attempts row + 1)) (handoffs (db r2))).

(** What one turn does to the queue: [r] before, [r'] after. *)
Inductive turn (send : SourceHandoff → nat → option string) (between : R unit) (queued : SourceHandoff) (r r' : Relay) : Prop :=
| turn_none : handoffs (db r') = handoffs (db r) → turn send between queued r r'
| turn_superseded row :
    row ∈ handoffs (db r) → same_attempt queued row = true → row_superseded (db r) row →
    handoffs (db r') = drop_revision row (handoffs (db r)) → turn send between queued r r'
| turn_sent row n r1 now :
    row ∈ handoffs (db r) → same_attempt queued row = true → ¬ row_superseded (db r) row →
    hand_NextRetryAt row ≤ now → db r1 = db r →
    settled (send row n) row (between r1).1 r' →
    turn send between queued r r'.

Lemma handoff_superseded_wp row r :
  wp (handoff_superseded row)
     (λ o r', db r' = db r ∧ ∀ b, o = Some b → (b = true ↔ row_superseded (db r) row)) (λ _ r', db r' = db r) r.
Proof.
  unfold handoff_superseded. apply wp_attempt, query_wp.
  - apply wp_attempt, query_wp.
    + unfold row_superseded. simpl. destruct (List.find (source_is _) _) as [s|] eqn:Hs.
      2: { apply wp_ret. split; [done|]. intros b [= <-]. split; [done|]. naive_solver. }
      destruct (List.find (host_is _) _) as [h|] eqn:Hh; apply wp_ret; (split; [done|]); [|done].
      intros b [= <-]. split; [intros Hb; by exists s, h|]. intros (s' & h' & [= ->] & [= ->] & Hb). done.
    + intros msg. simpl. destruct (List.find (source_is _) _) eqn:Hs; [by apply wp_throw|]. apply wp_ret. split; [done|].
      intros b [= <-]. split; [done|]. intros (s' & h' & Hs' & _). simpl in *. congruence.
  - intros msg. apply wp_attempt, query_wp; [|intros msg2]; by apply wp_throw.
Qed.

(** Bounds of the delay before the next attempt, in microseconds. *)
Lemma retry_delay_bounds attempts : 1 ≤ attempts → 1000000 ≤ retry_delay attempts ≤ 15 * 60 * 1000000.
Proof.
  intros Ha. unfold retry_delay. set (shift := if 10 <? attempts - 1 then 10 else attempts - 1).
  assert (0 ≤ shift) by (unfold shift; case_match; lia). rewrite Z.shiftl_mul_pow2 by lia.
  pose proof (Z.pow_pos_nonneg 2 shift). lia.
Qed.

(** Recording the outcome of a delivery. *)
Lemma settle_wp (sent failed : option string) row r3 r4 (T : Relay → Prop) :
  (∀ r', settled sent row r3 r' → T r') → db r4 = db r3 →
  match failed with None => sent = None ∧ ¬ row_superseded (db r3) row | Some _ => sent ≠ None ∨ row_superseded (db r3) row end →
  wp (match failed with
      | None => exec (λ d, set_handoffs (List.filter (λ h, negb (same_attempt row h)) (handoffs d)) d)
      | Some _ =>
          let attempts := hand_Attempts row + 1 in
          now ← call clock;
          exec (λ d, set_handoffs (update_where (same_attempt row) (λ h, mkHandoff (hand_HostID h) (hand_PDS h)
            (hand_SourceRevision h) (hand_State h) attempts (now + retry_delay attempts)) (handoffs d)) d)
      end) (λ _ r', T r') (λ _ r', T r') r4.
Proof.
  intros HT Hdb Hc. destruct failed as [msg|]; cbv zeta.
  - apply wp_bind. unfold wp at 1, call. apply exec_wp.
    + apply HT. right. right. split; [done|]. exists (clock (tick r4)). simpl. by rewrite Hdb.
    + intros m. apply HT. left. simpl. by rewrite Hdb.
  - apply exec_wp; [|intros m; apply HT; left; simpl; by rewrite Hdb]. apply HT. right. left.
    split; [apply Hc|]. split; [apply Hc|]. simpl. by rewrite Hdb.
Qed.

Lemma process_handoff_wp send between queued r :
  wp (process_handoff send between queued) (λ _ r', turn send between queued r r') (λ _ r', turn send between queued r r') r.
Proof.
  assert (Hnone : ∀ r', db r' = db r → turn send between queued r r') by (intros r' Hdb; apply turn_none; by rewrite Hdb).
  unfold process_handoff. apply wp_bind, query_wp; [|intros; by apply Hnone].
  destruct (List.find (same_attempt queued) (handoffs (db r))) as [row|] eqn:Hf; [|by apply wp_ret, Hnone].
  apply find_some in Hf as [Hin Hsame]. apply list_elem_of_In in Hin. apply wp_bind.
  eapply wp_mono; [| |apply handoff_superseded_wp]; [|intros e r1 Hdb; by apply Hnone].
  intros [stale|] r1 [Hdb1 Hst]; [|by apply wp_ret, Hnone]. specialize (Hst stale eq_refl). simpl in Hdb1. destruct stale.
  { apply wp_catch, exec_wp; [|intros msg; by apply wp_ret, Hnone]. apply (turn_superseded _ _ _ _ _ row); [done|done|by apply Hst|].
    simpl. by rewrite Hdb1. }
  assert (Hns : ¬ row_superseded (db r) row) by (intros Hc; apply Hst in Hc; done).
  apply wp_bind. unfold Now, wp at 1, call. destruct (Z.ltb_spec (clock (tick r1)) (hand_NextRetryAt row)) as [|Hdue]; [by apply wp_ret, Hnone|].
  apply wp_bind. unfold wp at 1, call. set (r2 := step (step r1)). assert (Hdb2 : db r2 = db r) by done.
  assert (Hsent : ∀ r', settled (send row (tick (step r1))) row (between r2).1 r' → turn send between queued r r')
    by (intros r'; by apply (turn_sent _ _ _ _ _ row _ r2 (clock (tick r1)))).
  clearbody r2. set (sent := send row (tick (step r1))) in *. clearbody sent. unfold wp, attempt.
  destruct (between r2) as [r3 res]. simpl in Hsent.
  match goal with |- match ?m ?s with _ => _ end => change (wp m (λ _ r', turn send between queued r r') (λ _ r', turn send between queued r r') s) end.
  assert (Hleft : ∀ r4, db r4 = db r3 → turn send between queued r r4) by (intros r4 Hdb; apply Hsent; left; by rewrite Hdb).
  apply wp_bind. destruct sent as [e|]; [apply wp_ret; apply (settle_wp (Some e) (Some e) row r3); [done|done|by left]|].
  apply wp_bind. eapply wp_mono; [| |apply handoff_superseded_wp]; [|by intros e r4 Hdb4; apply Hleft].
  intros [b|] r4 [Hdb4 Hb4]; [|by apply wp_throw, Hleft]. specialize (Hb4 b eq_refl). apply wp_ret.
  apply (settle_wp None (if b then _ else None) row r3); [done|done|].
  destruct b; [right; by apply Hb4|]. split; [done|]. intros Hc. apply Hb4 in Hc. done.
Qed.

(** A handoff leaves the queue only when it is done.  In one turn
    of the delivery loop, a queued handoff is removed only if its source has
    moved past it, or if it was due, its delivery succeeded and its source still
    wants it after the delivery, whatever others did meanwhile; only the
    attempt that was delivered is removed, so a handoff queued during the
    delivery stays.  A failed or outdated delivery is counted and retried after
    a delay of one second to fifteen minutes. *)
Theorem process_handoff_turn send between queued r :
  turn send between queued r (process_handoff send between queued r).1 ∧
  (0 ≤ hand_Attempts queued → 1000000 ≤ retry_delay (hand_Attempts queued + 1) ≤ 15 * 60 * 1000000).
Proof.
  split; [|intros; apply retry_delay_bounds; lia]. pose proof (process_handoff_wp send between queued r) as Hw. unfold wp in Hw.
  by destruct (process_handoff send between queued r) as [r' [[]|e]].
Qed.

End Admin.
