(* ===== verification/RelayOps.v ===== *)
(** * The relay's operations together

    ** What most operations leave alone

    Events, accounts, cursors, quotas, bans and the slurper change neither sources
    nor receipts nor handoffs, and of a host only its counters, its limit and its
    cursor. *)

From S2P Require Import Prelude GoStrings Syntax Stream StateMonad Hostname Relay RelayAccount RelayHost RelaySources RelayVerify RelayIngest RelayFrame RelayIngestProofs RelayAccountProofs RelayAckProofs RelayQuotaProofs RelaySourceProofs.
Local Open Scope Z_scope.

(** What a host is known by, and whether it is banned. *)
Definition host_key (h : Host) : Z * string * bool * string := (host_ID h, host_Hostname h, host_NoSSL h, host_Status h).

Record core_keep (r r' : Relay) : Prop := {
  ck_sources : sources (db r') = sources (db r);
  ck_receipts : receipts (db r') = receipts (db r);
  ck_handoffs : handoffs (db r') = handoffs (db r);
  ck_next : next_host (db r') = next_host (db r);
  ck_hosts : map host_key (hosts (db r')) = map host_key (hosts (db r));
}.

#[export] Instance core_keep_frame : Frame core_keep.
Proof.
  split; [split; [by split|]|by split|by split].
  intros r1 r2 r3 [a b c d e] [a' b' c' d' e']. split; congruence.
Qed.

Lemma core_host r r' h : core_keep r r' → h ∈ hosts (db r) → ∃ h', h' ∈ hosts (db r') ∧ host_key h' = host_key h.
Proof.
  intros Hc Hin. assert (Hk : host_key h ∈ map host_key (hosts (db r'))) by (rewrite (ck_hosts _ _ Hc); by apply list_elem_of_fmap_2).
  apply list_elem_of_fmap in Hk as (h' & Heq & Hin'). by exists h'.
Qed.

Lemma host_key_eq h h' : host_key h' = host_key h →
  host_ID h' = host_ID h ∧ sourceHostURL h' = sourceHostURL h ∧ host_banned h' = host_banned h.
Proof. intros Heq. injection Heq as Hi Hn Hs Hst. unfold sourceHostURL, host_banned. by rewrite Hn, Hs, Hst. Qed.

Lemma core_ids r r' : core_keep r r' → map host_ID (hosts (db r')) = map host_ID (hosts (db r)).
Proof.
  intros Hc. change host_ID with (λ h, (host_key h).1.1.1). by rewrite <-!(map_map host_key (λ k, k.1.1.1)), (ck_hosts _ _ Hc).
Qed.

(** Statements that leave these tables alone, and those that update hosts. *)
Ltac core_tac := frame_stmt; by split.
Ltac core_hosts := frame_stmt; split; try done; simpl; apply map_update_where; by intros [].
Ltac core_any := first [core_tac|core_hosts].

Section core.
Context `{Services}.

(** The recovery obligations are among what is left alone. *)
Lemma core_src {A} (m : R A) : preserves core_keep m → preserves src_keep m.
Proof.
  intros Hm r. destruct (Hm r) as [Hs Hr _ _ _]. intros Hi; revert Hi; apply sinv_weaken; [by rewrite Hs| |by rewrite Hr].
  intros h Hin. destruct (core_host _ _ h (Hm r) Hin) as (h' & Hin' & Heq%host_key_eq). exists h'. tauto.
Qed.

Lemma LookupDID_core did : preserves core_keep (LookupDID did).
Proof. unfold LookupDID. frames. Qed.
Lemma Purge_core did : preserves core_keep (Purge did).
Proof. unfold Purge. frames. Qed.
Lemma GetAccount_core did : preserves core_keep (GetAccount did).
Proof. unfold GetAccount. frames. core_tac. Qed.
Lemma AddEvent_core evt : preserves core_keep (AddEvent evt).
Proof. unfold AddEvent. frames. core_tac. Qed.
#[local] Hint Resolve LookupDID_core Purge_core GetAccount_core AddEvent_core : frame.
Lemma CreateAccountHost_core did hostID hostname : preserves core_keep (CreateAccountHost did hostID hostname).
Proof. unfold CreateAccountHost, increment_count, first_host, create_account. frames; core_any. Qed.
Lemma EnsureAccountHost_core acc hostID hostname : preserves core_keep (EnsureAccountHost acc hostID hostname).
Proof. unfold EnsureAccountHost, resolve_pds, increment_count, decrement_count, first_host. frames; core_any. Qed.
Lemma ObserveAccountSource_core did hostID host : preserves core_keep (ObserveAccountSource did hostID host).
Proof. unfold ObserveAccountSource, Now. frames; core_tac. Qed.
Lemma UpdateAccountUpstreamStatus_core did uid status : preserves core_keep (UpdateAccountUpstreamStatus did uid status).
Proof. unfold UpdateAccountUpstreamStatus. frames; core_tac. Qed.
#[local] Hint Resolve CreateAccountHost_core EnsureAccountHost_core ObserveAccountSource_core UpdateAccountUpstreamStatus_core : frame.
Lemma activeAccount_core acc : preserves core_keep (activeAccount acc).
Proof. unfold activeAccount, EnsureAccountActive, FetchAccountStatus. frames. Qed.
Lemma preProcessEvent_core did hostname hostID : preserves core_keep (preProcessEvent did hostname hostID).
Proof. unfold preProcessEvent, available. frames. Qed.
Lemma verifyCommitObjectWithRefresh_core c i d : preserves core_keep (verifyCommitObjectWithRefresh c i d).
Proof. unfold verifyCommitObjectWithRefresh, VerifyCommitObject, Now. frames. Qed.
#[local] Hint Resolve activeAccount_core preProcessEvent_core verifyCommitObjectWithRefresh_core : frame.
Lemma dispatch_core evt hostname hostID : preserves core_keep (dispatch evt hostname hostID).
Proof.
  unfold dispatch, processCommitEvent, processSyncEvent, processIdentityEvent, processAccountEvent, previousRepo,
    GetAccountRepo, VerifyRepoCommit, VerifyRepoSync, emit_and_advance, UpsertAccountRepo. frames; core_tac.
Qed.
#[local] Hint Resolve dispatch_core : frame.
Lemma processSourceEvent_core ctxErr evt hostname hostID : preserves core_keep (processSourceEvent ctxErr evt hostname hostID).
Proof.
  unfold processSourceEvent, processRepoEvent, wasRejectedEvent, persistRejectedEvent. frames.
  frame_stmt. unfold insert_rejection. simpl. case_match; by split.
Qed.

Lemma reactivate_all_core hostID time dids : preserves core_keep (reactivate_all hostID time dids).
Proof. induction dids as [|did dids IH]; simpl; unfold reactivateQuotaAccount; frames; core_tac. Qed.
#[local] Hint Resolve reactivate_all_core : frame.
Lemma UpdateHostAccountLimit_core hostID limit time : preserves core_keep (UpdateHostAccountLimit hostID limit time).
Proof. unfold UpdateHostAccountLimit, GetHostByID, reactivateQuotaAccounts. frames. core_hosts. Qed.
Lemma persist_cursors_core cursors : preserves core_keep (persist_cursors cursors).
Proof. induction cursors as [|c cursors IH]; simpl; frames. core_hosts. Qed.
Lemma Slurper_StopSource_core hostname : preserves core_keep (Slurper_StopSource hostname).
Proof. unfold Slurper_StopSource. frames. core_tac. Qed.
Lemma Slurper_Subscribe_core host : preserves core_keep (Slurper_Subscribe host).
Proof. unfold Slurper_Subscribe. frames. frame_stmt. by case_match. Qed.
Lemma sourceAndHostLocked_core hostID : preserves core_keep (sourceAndHostLocked hostID).
Proof. unfold sourceAndHostLocked. frames. Qed.
Lemma sourceViewLocked_core s h : preserves core_keep (sourceViewLocked s h).
Proof. unfold sourceViewLocked. frames. Qed.
Lemma check_bans_core l : preserves core_keep (check_bans l).
Proof. induction l as [|d l IH]; simpl; unfold findDomainBan; frames; done. Qed.
#[local] Hint Resolve UpdateHostAccountLimit_core persist_cursors_core check_bans_core 
  Slurper_StopSource_core Slurper_Subscribe_core sourceAndHostLocked_core sourceViewLocked_core : frame.
Lemma sourceDomainIsBanned_core hostname : preserves core_keep (sourceDomainIsBanned hostname).
Proof. unfold sourceDomainIsBanned, DomainIsBanned. frames. Qed.
#[local] Hint Resolve sourceDomainIsBanned_core : frame.
Lemma reconcileSourceLocked_core s h : preserves core_keep (reconcileSourceLocked s h).
Proof. unfold reconcileSourceLocked, requireRateAdmission. frames. Qed.

#[local] Hint Resolve reconcileSourceLocked_core : frame.
Lemma source_by_url_core pds msg : preserves core_keep (source_by_url pds msg).
Proof. unfold source_by_url. frames. Qed.
Lemma UpdateAccountLocalStatus_core did status emitEvent time : preserves core_keep (UpdateAccountLocalStatus did status emitEvent time).
Proof. unfold UpdateAccountLocalStatus. frames; core_tac. Qed.
Lemma SetSourceAccountQuota_core rawURL expected limit time : preserves core_keep (SetSourceAccountQuota rawURL expected limit time).
Proof. unfold SetSourceAccountQuota. frames. Qed.
Lemma PersistHostCursors_core cursors : preserves core_keep (PersistHostCursors cursors).
Proof. unfold PersistHostCursors. frames. Qed.
Lemma CreateDomainBan_core domain : preserves core_keep (CreateDomainBan domain).
Proof. unfold CreateDomainBan. frames. core_tac. Qed.
Lemma RemoveDomainBan_core domain : preserves core_keep (RemoveDomainBan domain).
Proof. unfold RemoveDomainBan. core_tac. Qed.
Lemma checkSourceEnablement_core s h : preserves core_keep (checkSourceEnablement s h).
Proof. unfold checkSourceEnablement. frames. Qed.
Lemma handoff_superseded_core row : preserves core_keep (handoff_superseded row).
Proof. unfold handoff_superseded. frames. Qed.
Lemma CheckHost_core url : preserves core_keep (CheckHost url).
Proof. unfold CheckHost. frames. Qed.
Lemma beginSourceCheck_core hostID : preserves core_keep (beginSourceCheck hostID).
Proof. unfold beginSourceCheck. frames. core_tac. Qed.
Lemma endSourceCheck_core hostID : preserves core_keep (endSourceCheck hostID).
Proof. unfold endSourceCheck. frames. core_tac. Qed.
Lemma replaySourceValidationLocked_core s h : preserves core_keep (replaySourceValidationLocked s h).
Proof. unfold replaySourceValidationLocked. frames. Qed.
End core.

#[export] Hint Resolve processSourceEvent_core GetAccount_core UpdateAccountLocalStatus_core UpdateHostAccountLimit_core
  SetSourceAccountQuota_core PersistHostCursors_core CreateDomainBan_core RemoveDomainBan_core Slurper_StopSource_core
  Slurper_Subscribe_core sourceAndHostLocked_core sourceViewLocked_core sourceDomainIsBanned_core reconcileSourceLocked_core
  core_src source_by_url_core checkSourceEnablement_core handoff_superseded_core CheckHost_core beginSourceCheck_core endSourceCheck_core
  replaySourceValidationLocked_core : frame.

(** * The relay as a state machine

    The operations the relay offers its event loops and its administrators, run
    one after the other in any order with any arguments and any behaviour of
    the services.  Events and status changes of one account exclude each other by
    its event lock, and changes of sources by the source lock.  A validation
    releases the source lock for its network check, the delivery of a handoff
    holds no lock, and neither does the lookup of an account for an XRPC handler,
    so other operations may run inside these three. *)

(** ** Operations *)

Inductive op : Type :=
| OpEvent (ctxErr : option string) (evt : XRPCStreamEvent) (hostname : string) (hostID : Z)
| OpGetAccount (between : list op) (did : string)
| OpAccountStatus (did status : string) (emitEvent : bool) (time : string)
| OpHostStatus (hostID : Z) (status : string)
| OpAccountLimit (hostID limit : Z) (time : string)
| OpAccountQuota (rawURL : string) (expected limit : Z) (time : string)
| OpCursors (cursors : list HostCursor)
| OpAddSource (rawURL : string) (public : bool)
| OpValidate (between : list op) (hostID revision : Z)
| OpSetState (hostID revision : Z) (state : SourceState)
| OpSetBlocked (hostname : string) (blocked : bool)
| OpAcknowledge (input : RecoveryReceiptInput)
| OpAdvancePolicy (input : RecoveryPolicyAdvanceInput)
| OpCreateBan (domain : string)
| OpRemoveBan (domain : string)
| OpHandoffs (send : SourceHandoff → nat → option string) (between : list op).

Section Ops.
Context `{Services}.

Definition ignore {A} (m : R A) : R unit := attempt m (λ _, mret tt).

Fixpoint run_op (o : op) : R unit :=
  let run_list := fix run_list (os : list op) : R unit :=
    match os with [] => mret tt | o :: os => run_op o ;; run_list os end in
  match o with
  | OpEvent ctxErr evt hostname hostID => ignore (processSourceEvent ctxErr evt hostname hostID)
  | OpGetAccount between did => ignore (GetAccount_unlocked (run_list between) did)
  | OpAccountStatus did status emitEvent time => ignore (UpdateAccountLocalStatus did status emitEvent time)
  | OpHostStatus hostID status => ignore (UpdateHostStatus hostID status)
  | OpAccountLimit hostID limit time => ignore (UpdateHostAccountLimit hostID limit time)
  | OpAccountQuota rawURL expected limit time => ignore (SetSourceAccountQuota rawURL expected limit time)
  | OpCursors cursors => ignore (PersistHostCursors cursors)
  | OpAddSource rawURL public => ignore (addSource rawURL public)
  | OpValidate between hostID revision => ignore (ValidateSource (run_list between) hostID revision)
  | OpSetState hostID revision state => ignore (SetSourceState hostID revision state)
  | OpSetBlocked hostname blocked => ignore (SetSourceBlocked hostname blocked)
  | OpAcknowledge input => ignore (AcknowledgeSourceRecovery input)
  | OpAdvancePolicy input => ignore (AdvanceSourceRecoveryPolicy input)
  | OpCreateBan domain => ignore (CreateDomainBan domain)
  | OpRemoveBan domain => ignore (RemoveDomainBan domain)
  | OpHandoffs send between => ignore (ProcessSourceHandoffs send (run_list between))
  end.

Fixpoint run_ops (os : list op) : R unit :=
  match os with [] => mret tt | o :: os => run_op o ;; run_ops os end.

(** ** Keeping an invariant *)

Definition keeps {A} (I : Relay → Prop) (m : R A) : Prop := ∀ r, I r → I (m r).1.

Lemma keeps_ret {A} I (a : A) : keeps I (mret a : R A).
Proof. by intros r. Qed.
Lemma keeps_bind {A B} I (m : R A) (f : A → R B) : keeps I m → (∀ a, keeps I (f a)) → keeps I (m ≫= f).
Proof.
  intros Hm Hf r Hi. unfold mbind, StateM_bind. specialize (Hm r Hi). destruct (m r) as [r' [a|e]]; [by apply Hf|done].
Qed.
Lemma keeps_attempt {A B} I (m : R A) (k : result goerr A → R B) :
  keeps I m → (∀ x, keeps I (k x)) → keeps I (attempt m k).
Proof. intros Hm Hk r Hi. unfold attempt. specialize (Hm r Hi). destruct (m r) as [r' x]. by apply Hk. Qed.
Lemma keeps_ignore {A} I (m : R A) : keeps I m → keeps I (ignore m).
Proof. intros Hm. apply keeps_attempt; [done|]. intros x. apply keeps_ret. Qed.
Lemma keeps_wp {A} (I : Relay → Prop) (m : R A) :
  (∀ r, I r → wp m (λ _ r', I r') (λ _ r', I r') r) → keeps I m.
Proof. intros Hw r Hi. specialize (Hw r Hi). unfold wp in Hw. by destruct (m r) as [r' [a|e]]. Qed.
Lemma keeps_src {A} (m : R A) : preserves src_keep m → keeps (λ r, sinv (db r)) m.
Proof. intros Hm r. apply Hm. Qed.

(** The invariant of the accounts, with the cache untouched so that a rolled
    back transaction keeps it too. *)
Definition acct_keep (r r' : Relay) : Prop := acct_inv r → acct_inv r' ∧ accountCache r' = accountCache r.

#[export] Instance acct_keep_frame : Frame acct_keep.
Proof.
  unfold acct_keep. split; [split|done|].
  - by intros r.
  - intros r1 r2 r3 H12 H23 H1. destruct (H12 H1) as [H2 <-]. by apply H23.
  - intros r r' Hk Hi. destruct (Hk Hi) as [_ Hc]. unfold acct_inv in *. simpl. by rewrite Hc.
Qed.

Lemma keeps_acct {A} (m : R A) : preserves acct_keep m → keeps acct_inv m.
Proof. intros Hm r Hi. by apply Hm. Qed.

Ltac acct_tac := frame_stmt; intros Hi; split; [|reflexivity]; revert Hi; apply ainv_same_tables; reflexivity.
Ltac acct_hosts := frame_stmt; intros Hi; split; [by apply ainv_hosts|reflexivity].

Lemma update_source_acct p f c : preserves acct_keep (update_source p f c).
Proof. unfold update_source. frames. acct_tac. Qed.
Lemma enqueueSourceHandoff_acct host revision state : preserves acct_keep (enqueueSourceHandoff host revision state).
Proof. unfold enqueueSourceHandoff, Now. frames. acct_tac. Qed.
Lemma Slurper_StopSource_acct hostname : preserves acct_keep (Slurper_StopSource hostname).
Proof. unfold Slurper_StopSource. frames. acct_tac. Qed.
Lemma Slurper_Subscribe_acct host : preserves acct_keep (Slurper_Subscribe host).
Proof. unfold Slurper_Subscribe. frames. frame_stmt. intros Hi. by case_match. Qed.
Lemma sourceAndHostLocked_acct hostID : preserves acct_keep (sourceAndHostLocked hostID).
Proof. unfold sourceAndHostLocked. frames. Qed.
Lemma sourceViewLocked_acct s h : preserves acct_keep (sourceViewLocked s h).
Proof. unfold sourceViewLocked. frames. Qed.
Lemma check_bans_acct l : preserves acct_keep (check_bans l).
Proof. induction l as [|d l IH]; simpl; unfold findDomainBan; frames; done. Qed.
#[local] Hint Resolve check_bans_acct enqueueSourceHandoff_acct Slurper_StopSource_acct Slurper_Subscribe_acct
  sourceAndHostLocked_acct sourceViewLocked_acct update_source_acct : frame.
Lemma sourceDomainIsBanned_acct hostname : preserves acct_keep (sourceDomainIsBanned hostname).
Proof. unfold sourceDomainIsBanned, DomainIsBanned. frames. Qed.
#[local] Hint Resolve sourceDomainIsBanned_acct : frame.
Lemma reconcileSourceLocked_acct s h : preserves acct_keep (reconcileSourceLocked s h).
Proof. unfold reconcileSourceLocked, requireRateAdmission. frames. Qed.
#[local] Hint Resolve reconcileSourceLocked_acct : frame.
Lemma ensureSourceHost_acct hostname noSSL : preserves acct_keep (ensureSourceHost hostname noSSL).
Proof.
  apply preserves_of_wp. intros r. unfold ensureSourceHost. apply wp_bind, wp_wrap, query_wp; [|done].
  destruct (List.find _ _); [by apply wp_ret|]. apply wp_bind, wp_wrap. unfold dbop. apply wp_bind. unfold wp at 1, call.
  destruct (db_fail _); [by apply wp_throw|]. apply wp_ret, wp_gets_bind, wp_bind, wp_modify, wp_ret.
  intros Hi. split; [|done]. by apply ainv_add_host.
Qed.
Lemma ensureSourceRow_acct host : preserves acct_keep (ensureSourceRow host).
Proof. unfold ensureSourceRow. frames. acct_tac. Qed.
#[local] Hint Resolve ensureSourceHost_acct ensureSourceRow_acct : frame.
Lemma addSource_acct rawURL public : preserves acct_keep (addSource rawURL public).
Proof. unfold addSource, loadOrCreateSource, first_host, reconcile_and_view. frames. Qed.
Lemma finalizeSourceValidation_acct hostID revision status reason :
  preserves acct_keep (finalizeSourceValidation hostID revision status reason).
Proof. unfold finalizeSourceValidation, Now. frames. Qed.
Lemma replaySourceValidationLocked_acct s h : preserves acct_keep (replaySourceValidationLocked s h).
Proof. unfold replaySourceValidationLocked. frames. Qed.
Lemma SetSourceState_acct hostID expected state : preserves acct_keep (SetSourceState hostID expected state).
Proof. unfold SetSourceState, checkSourceEnablement, GetHostByID. frames. Qed.
Lemma SetSourceBlocked_acct hostname blocked : preserves acct_keep (SetSourceBlocked hostname blocked).
Proof. unfold SetSourceBlocked, GetHost. frames. acct_hosts. Qed.
Lemma UpdateHostStatus_acct hostID status : preserves acct_keep (UpdateHostStatus hostID status).
Proof. unfold UpdateHostStatus. frames; [acct_tac|acct_hosts]. Qed.
Lemma persist_cursors_acct cursors : preserves acct_keep (persist_cursors cursors).
Proof. induction cursors as [|c cursors IH]; simpl; frames. acct_hosts. Qed.
Lemma source_by_url_acct pds msg : preserves acct_keep (source_by_url pds msg).
Proof. unfold source_by_url. frames. Qed.
#[local] Hint Resolve source_by_url_acct persist_cursors_acct : frame.
Lemma AcknowledgeSourceRecovery_acct input : preserves acct_keep (AcknowledgeSourceRecovery input).
Proof. unfold AcknowledgeSourceRecovery. frames. acct_tac. Qed.
Lemma AdvanceSourceRecoveryPolicy_acct input : preserves acct_keep (AdvanceSourceRecoveryPolicy input).
Proof. unfold AdvanceSourceRecoveryPolicy. frames. Qed.
Lemma CreateDomainBan_acct domain : preserves acct_keep (CreateDomainBan domain).
Proof. unfold CreateDomainBan. frames. acct_tac. Qed.
Lemma RemoveDomainBan_acct domain : preserves acct_keep (RemoveDomainBan domain).
Proof. unfold RemoveDomainBan. acct_tac. Qed.
Lemma handoff_superseded_acct row : preserves acct_keep (handoff_superseded row).
Proof. unfold handoff_superseded. frames. Qed.

(** Operations that use the cache, and those with other operations inside. *)

Ltac keeps_frame := apply keeps_acct; unfold sentinel_err; frames.

Lemma UpdateAccountLocalStatus_keeps did status emitEvent time :
  keeps acct_inv (UpdateAccountLocalStatus did status emitEvent time).
Proof.
  apply keeps_wp. intros r Hi. unfold UpdateAccountLocalStatus. apply wp_bind.
  eapply wp_mono; [| |by apply GetAccount_inv]; [|by intros e r1 [Hi1 _]].
  intros a r1 (Hi1 & _ & Hin & Hd). apply wp_bind, exec_wp; [|done]. apply wp_bind, wp_modify. cbv zeta.
  assert (Hi2 : ainv (set_accounts (update_where (uid_is (acc_UID a)) (acc_set_Status status) (accounts (db r1))) (db r1))
    (delete did (accountCache r1))) by by apply (ainv_update_account _ _ _ a).
  destruct emitEvent; [|by apply wp_ret]. apply same_inv; [|done]. apply (preserves_wrap acct_same), AddEvent_same.
Qed.

Lemma SetSourceAccountQuota_keeps rawURL expected limit time :
  keeps acct_inv (SetSourceAccountQuota rawURL expected limit time).
Proof.
  unfold SetSourceAccountQuota. case_match; [keeps_frame|]. destruct (ParseHostname rawURL) as [[hostname noSSL]|]; [|keeps_frame].
  apply keeps_bind; [keeps_frame|]. intros [host|]; [|keeps_frame]. apply keeps_bind; [keeps_frame|]. intros [source ?].
  case_match; [keeps_frame|]. case_match; [keeps_frame|]. apply keeps_bind; [|intros _; keeps_frame].
  apply keeps_wp. intros r Hi. eapply wp_mono; [| |by apply UpdateHostAccountLimit_spec]; intros ? r' Hx; apply Hx.
Qed.

Lemma ValidateSource_keeps between hostID revision :
  keeps acct_inv between → keeps acct_inv (ValidateSource between hostID revision).
Proof.
  intros Hb. unfold ValidateSource. apply keeps_bind; [keeps_frame|]. intros [source host].
  case_match; [case_match; [apply keeps_acct, replaySourceValidationLocked_acct|keeps_frame]|].
  apply keeps_bind; [apply keeps_acct; unfold beginSourceCheck; frames; acct_tac|]. intros _.
  apply keeps_attempt; [apply keeps_acct; unfold CheckHost; frames|]. intros x. apply keeps_attempt; [done|]. intros _.
  apply keeps_attempt; [apply keeps_acct, finalizeSourceValidation_acct|]. intros res.
  apply keeps_acct. unfold endSourceCheck. frames. acct_tac.
Qed.

Lemma process_handoff_keeps send between queued :
  keeps acct_inv between → keeps acct_inv (process_handoff send between queued).
Proof.
  intros Hb. pose proof handoff_superseded_acct as Hsup.
  unfold process_handoff, Now. apply keeps_bind; [keeps_frame|]. intros [current|]; [|keeps_frame].
  apply keeps_bind; [by apply keeps_acct|]. intros [[]|]; [apply keeps_acct; frames; acct_tac| |keeps_frame].
  apply keeps_bind; [keeps_frame|]. intros now. case_match; [keeps_frame|].
  apply keeps_bind; [keeps_frame|]. intros failed. apply keeps_attempt; [done|]. intros _.
  apply keeps_acct. frames; acct_tac.
Qed.

Lemma process_handoffs_keeps send between due :
  keeps acct_inv between → keeps acct_inv (process_handoffs send between due).
Proof.
  intros Hb. induction due as [|q due IH]; simpl; [apply keeps_ret|].
  apply keeps_bind; [by apply process_handoff_keeps|]. by intros _.
Qed.

Lemma run_list_keeps (I : Relay → Prop) os : Forall (λ o, keeps I (run_op o)) os → keeps I (run_ops os).
Proof. induction 1 as [|o os Ho _ IH]; simpl; [apply keeps_ret|]. apply keeps_bind; [done|]. by intros _. Qed.

(** Induction over operations and the operations inside them. *)
Lemma op_ind' (P : op → Prop) :
  (∀ o, match o with OpGetAccount between _ | OpValidate between _ _ | OpHandoffs _ between => Forall P between | _ => True end → P o) → ∀ o, P o.
Proof.
  intros HP. fix IH 1. intros o. apply HP. destruct o; try exact I.
  - induction between; constructor; [apply IH|done].
  - induction between; constructor; [apply IH|done].
  - induction between; constructor; [apply IH|done].
Qed.

(** What runs inside a lookup leaves the row of its account alone. *)
Fixpoint undisturbed (o : op) : Prop :=
  match o with
  | OpGetAccount between did =>
      foldr (λ o Q, undisturbed o ∧ Q) True between ∧
      ∀ r a, acct_inv r → a ∈ accounts (db r) → acc_DID a = did → a ∈ accounts (db (run_ops between r).1)
  | OpValidate between _ _ | OpHandoffs _ between => foldr (λ o Q, undisturbed o ∧ Q) True between
  | _ => True
  end.

Lemma undisturbed_list os : foldr (λ o Q, undisturbed o ∧ Q) True os ↔ Forall undisturbed os.
Proof. induction os; simpl; [by split|]. rewrite Forall_cons. by f_equiv. Qed.

Lemma GetAccount_unlocked_keeps between did : keeps acct_inv between →
  (∀ r a, acct_inv r → a ∈ accounts (db r) → acc_DID a = did → a ∈ accounts (db (between r).1)) →
  keeps acct_inv (GetAccount_unlocked between did).
Proof.
  intros Hb Hrow r Hi. unfold GetAccount_unlocked. apply (keeps_wp acct_inv); [|done]. clear r Hi. intros r Hi.
  apply wp_gets_bind. destruct (accountCache r !! did) as [a|]; [done|].
  apply wp_bind, query_wp; [|done]. apply wp_attempt. set (row := List.find _ _).
  assert (wp (match row with
      | None => sentinel_err ErrAccountNotFound
      | Some acc => if acc_UID acc =? 0 then sentinel_err ErrAccountNotFound else cache_add did acc ;; mret acc
      end) (λ _ r', acct_inv r') (λ _ r', acct_inv r') (between (step r)).1) as Hw.
  { pose proof (Hb (step r) Hi) as Hi'. subst row. destruct (List.find _ _) as [a|] eqn:Hf; [|done].
    apply find_some in Hf as [Hin Hd]. apply list_elem_of_In in Hin. unfold did_is in Hd. bool_to_prop.
    case_match; [done|]. apply wp_bind, wp_modify, wp_ret. apply ainv_cache_add; [done|by apply Hrow|done]. }
  unfold wp at 1. destruct (between (step r)) as [r' [x|e]]; exact Hw.
Qed.

Lemma Forall_mp {A} (P Q : A → Prop) l : Forall P l → Forall (λ x, P x → Q x) l → Forall Q l.
Proof. intros Hp Hq. eapply Forall_impl; [apply Forall_and; exact (conj Hp Hq)|]. naive_solver. Qed.

Lemma run_op_acct o : undisturbed o → keeps acct_inv (run_op o).
Proof.
  induction o as [o IH] using op_ind'. intros Hu. destruct o; simpl in *; apply keeps_ignore.
  - intros r Hi. unfold processSourceEvent. case_match; [done|]. by apply processRepoEvent_inv.
  - destruct Hu as [Hu Hrow]. apply undisturbed_list in Hu. apply GetAccount_unlocked_keeps; [|exact Hrow].
    refine (run_list_keeps _ _ _). by apply (Forall_mp undisturbed).
  - apply UpdateAccountLocalStatus_keeps.
  - apply keeps_acct, UpdateHostStatus_acct.
  - apply keeps_wp. intros r Hi. eapply wp_mono; [| |by apply UpdateHostAccountLimit_spec]; intros ? r' Hx; apply Hx.
  - apply SetSourceAccountQuota_keeps.
  - apply keeps_acct. unfold PersistHostCursors. frames.
  - apply keeps_acct, addSource_acct.
  - apply undisturbed_list in Hu. apply ValidateSource_keeps. refine (run_list_keeps _ _ _). by apply (Forall_mp undisturbed).
  - apply keeps_acct, SetSourceState_acct.
  - apply keeps_acct, SetSourceBlocked_acct.
  - apply keeps_acct, AcknowledgeSourceRecovery_acct.
  - apply keeps_acct, AdvanceSourceRecoveryPolicy_acct.
  - apply keeps_acct, CreateDomainBan_acct.
  - apply keeps_acct, RemoveDomainBan_acct.
  - unfold ProcessSourceHandoffs. apply keeps_bind; [keeps_frame|]. intros due.
    apply undisturbed_list in Hu. apply process_handoffs_keeps. refine (run_list_keeps _ _ _). by apply (Forall_mp undisturbed).
Qed.

(** ** The recovery obligation *)

#[local] Hint Resolve finalizeSourceValidation_keep : frame.
Ltac src_tac := frame_stmt; intros Hs; revert Hs; apply sinv_weaken; [reflexivity|eauto|done].

Lemma ValidateSource_src between hostID revision :
  preserves src_keep between → preserves src_keep (ValidateSource between hostID revision).
Proof. intros Hb. unfold ValidateSource. frames. Qed.
Lemma process_handoffs_src send between due :
  preserves src_keep between → preserves src_keep (process_handoffs send between due).
Proof.
  intros Hb. induction due as [|q due IH]; simpl; unfold process_handoff, Now; frames; src_tac.
Qed.

Lemma GetAccount_unlocked_src between did : preserves src_keep between → preserves src_keep (GetAccount_unlocked between did).
Proof. intros Hb. unfold GetAccount_unlocked. frames. src_tac. Qed.

Lemma run_op_src o : keeps (λ r, sinv (db r)) (run_op o).
Proof.
  induction o as [o IH] using op_ind'. destruct o; simpl in *; apply keeps_ignore, keeps_src.
  - apply core_src, processSourceEvent_core.
  - apply GetAccount_unlocked_src. exact (run_list_keeps _ _ IH).
  - apply core_src, UpdateAccountLocalStatus_core.
  - apply UpdateHostStatus_keep.
  - apply core_src, UpdateHostAccountLimit_core.
  - apply core_src, SetSourceAccountQuota_core.
  - apply core_src, PersistHostCursors_core.
  - apply addSource_keep.
  - apply ValidateSource_src. exact (run_list_keeps _ _ IH).
  - apply SetSourceState_keep.
  - apply SetSourceBlocked_keep.
  - apply AcknowledgeSourceRecovery_keep.
  - apply AdvanceSourceRecoveryPolicy_keep.
  - apply core_src, CreateDomainBan_core.
  - apply core_src, RemoveDomainBan_core.
  - unfold ProcessSourceHandoffs. frames. apply process_handoffs_src. exact (run_list_keeps _ _ IH).
Qed.

(** ** Reachable states *)

(** C26 (invariant): account bookkeeping survives every failure.  Whatever
    sequence of operations runs, with whatever arguments, and however the
    database, the log, the directory, the hosts and the slurper behave and
    wherever an operation stops, user ids and DIDs stay unique, every host's
    account count is the number of its accounts, and every cached account is a
    current row.  What runs inside a lookup that holds no lock may be anything
    that leaves the row it looks up alone; [late_lookup_stale] shows that this is
    needed. *)
Theorem run_ops_accounts os r : Forall undisturbed os → acct_inv r → acct_inv (run_ops os r).1.
Proof. intros Hu. apply run_list_keeps. eapply Forall_impl; [exact Hu|]. apply run_op_acct. Qed.

(** A lookup can leave a stale account in the cache.  If an account's
    local status is changed, by a takedown for instance, between the query of a
    lookup that holds no lock and its [Add] to the cache, then the row has the new
    status, and every lookup from then on answers with the old one. *)
Theorem late_lookup_stale did status time r a : acct_inv r → (∀ n, db_fail n = None) →
  accountCache r !! did = None → List.find (did_is did) (accounts (db r)) = Some a →
  let r' := (run_op (OpGetAccount [OpAccountStatus did status false time] did) r).1 in
  acc_set_Status status a ∈ accounts (db r') ∧ GetAccount did r' = (r', Ok a).
Proof.
  intros Hi Hdb Hc Hf r'.
  pose proof Hf as [Hin Hd]%find_some. apply list_elem_of_In in Hin. unfold did_is in Hd. bool_to_prop.
  assert ((acc_UID a =? 0) = false) as Hu.
  { pose proof (proj1 (Forall_forall _ _) (ai_uid_lt _ _ Hi) a Hin). apply Z.eqb_neq. simpl in *. lia. }
  assert (∀ B (f : DB → B) x, query f x = (step x, Ok (f (db x)))) as Hq.
  { intros B f x. unfold query, dbop, call, gets, mbind, StateM_bind. by rewrite Hdb. }
  assert (∀ f x, exec f x = (set_db (f (db (step x))) (step x), Ok tt)) as He.
  { intros f x. unfold exec, dbop, call, modify, mbind, StateM_bind. by rewrite Hdb. }
  assert (∀ x, accountCache x !! did = None → List.find (did_is did) (accounts (db x)) = Some a →
    GetAccount did x = (set_cache (<[did := a]> (accountCache x)) (step x), Ok a)) as Hget.
  { intros x Hx Hfx. unfold GetAccount, gets, mbind, StateM_bind. rewrite Hx. fold (query (λ d, List.find (did_is did) (accounts d))). rewrite Hq, Hfx, Hu. done. }
  assert (∀ x, accountCache x !! did = None → List.find (did_is did) (accounts (db x)) = Some a →
    ∃ y, UpdateAccountLocalStatus did status false time x = (y, Ok tt) ∧
      accounts (db y) = update_where (uid_is (acc_UID a)) (acc_set_Status status) (accounts (db x))) as Hup.
  { intros x Hx Hfx. unfold UpdateAccountLocalStatus, mbind, StateM_bind. rewrite Hget, He by done. by eexists. }
  destruct (Hup (step r) Hc Hf) as (y & Hy & Hacc).
  assert (r' = set_cache (<[did := a]> (accountCache y)) y) as ->.
  { subst r'. cbn [run_op]. unfold ignore, GetAccount_unlocked, attempt, gets, mbind, StateM_bind. cbv beta iota zeta.
    rewrite Hc, Hq, Hf, Hy, Hu. done. }
  split; [|unfold GetAccount, gets, mbind, StateM_bind; simpl; by rewrite lookup_insert_eq].
  simpl. rewrite Hacc. apply elem_of_update_where. exists a. unfold uid_is. by rewrite Z.eqb_refl.
Qed.

(** C27 (invariant): a recovery obligation is discharged only by its receipt.
    In every reachable state a source whose recovery is no longer required is
    enabled, and a receipt of its host is on record for its current revision
    and its current policy. *)
Theorem run_ops_recovery os r :
  sinv (db r) →
  Forall (λ s, src_RecoveryRequired s = false → discharged (db (run_ops os r).1) s) (sources (db (run_ops os r).1)).
Proof.
  intros Hs. apply si_recovery. revert r Hs. apply (run_list_keeps (λ r, sinv (db r))), Forall_forall.
  intros o _. apply run_op_src.
Qed.

End Ops.
