(* ===== verification/RelayHandoffs.v ===== *)
(** * Receipts on record and handoffs in the queue

    ** Where recovery receipts come from

    Only [AcknowledgeSourceRecovery] writes the table of receipts, and a receipt
    names the host that the URL of the request names.  [acks_in P o]: every
    acknowledgement in the operation [o], at any depth, satisfies [P]. *)

From S2P Require Import Prelude GoStrings Syntax Stream StateMonad Hostname Relay RelayAccount RelayHost RelaySources RelayVerify RelayIngest RelayFrame RelayAccountProofs RelaySourceProofs RelayAdminProofs RelayOps.
Local Open Scope Z_scope.

(** The row that an acknowledged request is recorded as. *)
Definition recorded (input : RecoveryReceiptInput) (x : RecoveryReceipt) : Prop :=
  rr_SourceRevision x = in_SourceRevision input ∧ rr_PolicyRevision x = in_PolicyRevision input ∧ rr_JobID x = in_JobID input ∧
  ∃ hostname noSSL, ParseHostname (in_PDS input) = Ok (hostname, noSSL) ∧ rr_PDS x = BaseURL hostname noSSL.

(** Every acknowledgement of the operation is in [P]. *)
Fixpoint acks_in (P : RecoveryReceiptInput → Prop) (o : op) : Prop :=
  match o with
  | OpAcknowledge input => P input
  | OpGetAccount between _ | OpValidate between _ _ | OpHandoffs _ between => foldr (λ o Q, acks_in P o ∧ Q) True between
  | _ => True
  end.

Lemma acks_in_list P os : foldr (λ o Q, acks_in P o ∧ Q) True os ↔ Forall (acks_in P) os.
Proof. induction os; simpl; [by split|]. rewrite Forall_cons. by f_equiv. Qed.

Section receipts.
Context `{Services} (P : RecoveryReceiptInput → Prop).

Record rinv (d : DB) : Prop := {
  ri_hosts : NoDup (map host_ID (hosts d));
  ri_host_lt : Forall (λ i, i < next_host d) (map host_ID (hosts d));
  ri_receipts : Forall (λ x, ∃ input, P input ∧ recorded input x) (receipts d);
}.

Definition rec_keep (r r' : Relay) : Prop := rinv (db r) → rinv (db r').

#[export] Instance rec_keep_frame : Frame rec_keep.
Proof. unfold rec_keep. split; [split; [by intros r|intros r1 r2 r3; auto]|done|done]. Qed.

Lemma core_rec {A} (m : R A) : preserves core_keep m → preserves rec_keep m.
Proof.
  intros Hm r [a b c]. pose proof (Hm r) as Hc. split; [by rewrite (core_ids _ _ Hc)| |by rewrite (ck_receipts _ _ Hc)].
  by rewrite (ck_next _ _ Hc), (core_ids _ _ Hc).
Qed.
#[local] Hint Resolve core_rec : frame.

Lemma rinv_hosts d p f : (∀ h, host_ID (f h) = host_ID h) → rinv d → rinv (set_hosts (update_where p f (hosts d)) d).
Proof. intros Hf [a b c]. split; simpl; [by rewrite map_update_where..|done]. Qed.

Lemma rinv_add_host d h : host_ID h = next_host d → rinv d → rinv (add_host h d).
Proof.
  intros Hid [a b c]. split; simpl; [..|done]; rewrite map_app; simpl; rewrite Hid.
  - apply NoDup_app. split; [done|]. split; [|apply NoDup_singleton]. intros i Hi ->%list_elem_of_singleton.
    rewrite Forall_forall in b. specialize (b _ Hi). simpl in b. lia.
  - apply Forall_app. split; [|apply Forall_singleton; lia]. eapply Forall_impl; [exact b|]. simpl. lia.
Qed.

(** Statements that leave hosts and receipts alone, and those that update hosts. *)
Ltac rec_tac := frame_stmt; intros []; by split.
Ltac rec_hosts := frame_stmt; intros ?; by apply rinv_hosts.

Lemma rec_of_wp {A} (m : R A) : (∀ r, rinv (db r) → wp m (λ _ r', rinv (db r')) (λ _ r', rinv (db r')) r) → preserves rec_keep m.
Proof. intros Hw r Hs. specialize (Hw r Hs). unfold wp in Hw. by destruct (m r) as [r' [a|e]]. Qed.

Lemma update_source_rec p f c : preserves rec_keep (update_source p f c).
Proof. unfold update_source. frames. rec_tac. Qed.
Lemma enqueueSourceHandoff_rec host revision state : preserves rec_keep (enqueueSourceHandoff host revision state).
Proof. unfold enqueueSourceHandoff, Now. frames. rec_tac. Qed.
#[local] Hint Resolve update_source_rec enqueueSourceHandoff_rec : frame.
Lemma ensureSourceHost_rec hostname noSSL : preserves rec_keep (ensureSourceHost hostname noSSL).
Proof.
  apply rec_of_wp. intros r Hi. unfold ensureSourceHost. apply wp_bind, wp_wrap, query_wp; [|done].
  destruct (List.find _ _) as [h|]; [done|]. cbv zeta. apply wp_bind, wp_wrap. unfold dbop. apply wp_bind. unfold wp at 1, call.
  destruct (db_fail _); [by apply wp_throw|]. apply wp_ret, wp_gets_bind, wp_bind, wp_modify, wp_ret. by apply rinv_add_host.
Qed.
Lemma ensureSourceRow_rec host : preserves rec_keep (ensureSourceRow host).
Proof. unfold ensureSourceRow. frames. rec_tac. Qed.
#[local] Hint Resolve ensureSourceHost_rec ensureSourceRow_rec : frame.
Lemma addSource_rec rawURL public : preserves rec_keep (addSource rawURL public).
Proof. unfold addSource, loadOrCreateSource, first_host, reconcile_and_view. frames. Qed.
Lemma finalizeSourceValidation_rec hostID revision status reason : preserves rec_keep (finalizeSourceValidation hostID revision status reason).
Proof. unfold finalizeSourceValidation, Now. frames. Qed.
#[local] Hint Resolve finalizeSourceValidation_rec : frame.

Lemma GetAccount_unlocked_rec between did : preserves rec_keep between → preserves rec_keep (GetAccount_unlocked between did).
Proof. intros Hb. unfold GetAccount_unlocked. frames. rec_tac. Qed.
Lemma ValidateSource_rec between hostID revision :
  preserves rec_keep between → preserves rec_keep (ValidateSource between hostID revision).
Proof. intros Hb. unfold ValidateSource. frames. Qed.
Lemma process_handoffs_rec send between due :
  preserves rec_keep between → preserves rec_keep (process_handoffs send between due).
Proof. intros Hb. induction due as [|q due IH]; simpl; unfold process_handoff, Now; frames; rec_tac. Qed.

#[local] Hint Resolve addSource_rec : frame.
Lemma SetSourceState_rec hostID expected state : preserves rec_keep (SetSourceState hostID expected state).
Proof. unfold SetSourceState, GetHostByID. frames. Qed.
Lemma SetSourceBlocked_rec hostname blocked : preserves rec_keep (SetSourceBlocked hostname blocked).
Proof. unfold SetSourceBlocked, GetHost. frames. rec_hosts. Qed.
Lemma UpdateHostStatus_rec hostID status : preserves rec_keep (UpdateHostStatus hostID status).
Proof. unfold UpdateHostStatus. frames; [rec_tac|rec_hosts]. Qed.
Lemma AdvanceSourceRecoveryPolicy_rec input : preserves rec_keep (AdvanceSourceRecoveryPolicy input).
Proof. unfold AdvanceSourceRecoveryPolicy. frames. Qed.

(** Host ids are unique, so the host a URL is looked up by is the host the source
    is loaded with. *)
Lemma find_host_unique d h h' : NoDup (map host_ID (hosts d)) → h ∈ hosts d → List.find (host_is (host_ID h)) (hosts d) = Some h' → h' = h.
Proof.
  intros Hnd Hin Hf. apply find_some in Hf as [Hin' Hid]. unfold host_is in Hid. bool_to_prop.
  apply list_elem_of_In in Hin'. by apply (key_unique host_ID (hosts d)).
Qed.

Lemma source_by_url_host pds msg r : rinv (db r) →
  wp (source_by_url pds msg)
     (λ x r', db r' = db r ∧ ∃ hostname noSSL, ParseHostname pds = Ok (hostname, noSSL) ∧ sourceHostURL x.2 = BaseURL hostname noSSL)
     (λ _ r', db r' = db r) r.
Proof.
  intros Hi. unfold source_by_url. destruct (ParseHostname pds) as [[hostname noSSL]|] eqn:Hp; [|done].
  apply wp_bind, wp_wrap, query_wp; [|done].
  destruct (List.find (hostname_is hostname) (hosts (db r))) as [h|] eqn:Hf; [|done]. case_match eqn:Hssl; [done|].
  eapply wp_mono; [| |apply sourceAndHostLocked_wp]; [|by intros ?? []].
  intros x r1 (Hdb & _ & Hh & _). split; [done|]. exists hostname, noSSL. split; [done|].
  apply find_some in Hf as [Hin Hname]. apply list_elem_of_In in Hin. rewrite (find_host_unique _ _ _ (ri_hosts _ Hi) Hin Hh).
  apply negb_false_iff, eqb_prop in Hssl. unfold hostname_is in Hname. bool_to_prop. unfold sourceHostURL. by rewrite Hname, Hssl.
Qed.

Lemma rinv_receipt d x input : P input → recorded input x → rinv d → rinv (set_receipts (insert_receipt x (receipts d)) d).
Proof.
  intros Hp Hx [a b c]. split; simpl; [done..|]. unfold insert_receipt. case_match; [done|].
  apply Forall_app. split; [done|]. apply Forall_singleton. by exists input.
Qed.

Lemma AcknowledgeSourceRecovery_rec input : P input → preserves rec_keep (AcknowledgeSourceRecovery input).
Proof.
  intros HP. apply rec_of_wp. intros r Hi. unfold AcknowledgeSourceRecovery. case_match; [done|]. apply wp_bind.
  eapply wp_mono; [| |by apply source_by_url_host]; [|by intros ?? ->].
  intros [s h] r1 (Hdb & hostname & noSSL & Hp & Hurl). rewrite <-Hdb in Hi. clear Hdb. simpl in Hurl.
  case_match; [done|]. cbv zeta. apply wp_bind.
  eapply (wp_mono _ (λ _ r', rinv (db r')) _ (λ _ r', rinv (db r'))); [|done|].
  { intros _ r2 Hi2. pose proof (core_rec _ (sourceViewLocked_core (src_set_recovery false s) h) r2 Hi2) as Hv. unfold wp. by destruct (sourceViewLocked _ _ r2) as [? []]. }
  apply Transaction_wp; [done|]. apply wp_bind, wp_wrap, exec_wp; [|done].
  assert (Hi1 : rinv (set_receipts (insert_receipt (mkReceipt (sourceHostURL h) (host_ID h) (in_SourceRevision input)
    (in_PolicyRevision input) (in_JobID input) (in_DurableBoundary input)) (receipts (db r1))) (db r1))).
  { apply (rinv_receipt _ _ input); [done| |done]. split_and!; [done..|]. by exists hostname, noSSL. }
  apply wp_catch. unfold update_source. apply wp_bind. unfold dbop. apply wp_bind. unfold wp at 1, call. simpl tick.
  destruct (db_fail _); [done|]. apply wp_ret, wp_gets_bind, wp_bind, wp_modify. case_match; [|by apply wp_throw].
  apply wp_ret. split; [|done]. destruct Hi1 as [a b c]. by split.
Qed.

Lemma keeps_rec {A} (m : R A) : preserves rec_keep m → keeps (λ r, rinv (db r)) m.
Proof. intros Hm r. apply Hm. Qed.

Lemma run_op_rec o : acks_in P o → keeps (λ r, rinv (db r)) (run_op o).
Proof.
  induction o as [o IH] using op_ind'. intros Ha. destruct o; simpl in *; apply keeps_ignore, keeps_rec.
  - apply core_rec, processSourceEvent_core.
  - apply GetAccount_unlocked_rec. apply acks_in_list in Ha. refine (run_list_keeps _ _ _). by apply (Forall_mp (acks_in P)).
  - apply core_rec, UpdateAccountLocalStatus_core.
  - apply UpdateHostStatus_rec.
  - apply core_rec, UpdateHostAccountLimit_core.
  - apply core_rec, SetSourceAccountQuota_core.
  - apply core_rec, PersistHostCursors_core.
  - apply addSource_rec.
  - apply ValidateSource_rec. apply acks_in_list in Ha. refine (run_list_keeps _ _ _). by apply (Forall_mp (acks_in P)).
  - apply SetSourceState_rec.
  - apply SetSourceBlocked_rec.
  - by apply AcknowledgeSourceRecovery_rec.
  - apply AdvanceSourceRecoveryPolicy_rec.
  - apply core_rec, CreateDomainBan_core.
  - apply core_rec, RemoveDomainBan_core.
  - unfold ProcessSourceHandoffs. frames. apply process_handoffs_rec. apply acks_in_list in Ha. refine (run_list_keeps _ _ _). by apply (Forall_mp (acks_in P)).
Qed.

Lemma run_ops_rec os r : Forall (acks_in P) os → rinv (db r) → rinv (db (run_ops os r).1).
Proof.
  intros Ha Hi. revert r Hi. apply (run_list_keeps (λ r, rinv (db r))). eapply Forall_impl; [exact Ha|]. apply run_op_rec.
Qed.
End receipts.

(** * No handoff is lost

    Every change of a source's revision is queued for Jetstream in the same
    transaction, but one: a ban from the stream.  The slurper reports a host's
    status through [UpdateHostStatus] (relay.go installs it as a callback), which
    for a ban turns the enabled source of the host off at the next revision and
    queues nothing.  [qinv]: for each source whose last change is neither its
    addition nor such a ban there is a handoff of its current revision and
    effective state, and it is in the queue or was delivered ([A]). *)

(** No source of a banned host is on, and revisions are [uint64]s. *)
Definition sound (s : Source) (h : Host) : Prop :=
  (host_banned h = true → is_enabled s = false) ∧ 0 ≤ src_Revision s < 2 ^ 64.

(** The handoff tells Jetstream of the host's source as it is. *)
Definition carries (h : Host) (s : Source) (q : SourceHandoff) : Prop :=
  hand_PDS q = sourceHostURL h ∧ superseded s h q = false.

Section handoffs.
Context `{Services} (A : SourceHandoff → Prop).

(** ** The invariant *)

(** The last change was one that queues no handoff. *)
Definition unqueued (s : Source) : Prop := src_LastOperation s = "add"%string ∨ src_LastOperation s = "ban"%string.

Definition told (d : DB) (s : Source) (h : Host) : Prop :=
  unqueued s ∨
  ∃ q, carries h s q ∧ (q ∈ handoffs d ∧ hand_HostID q = host_ID h ∨ A q).

Definition row_ok (d : DB) (s : Source) (h : Host) : Prop :=
  sound s h ∧ told d s h.

(** With the rows of one source, [E], left out while it is being changed. *)
Record qinv (E : option Z) (d : DB) : Prop := {
  qi_hosts : NoDup (map host_ID (hosts d));
  qi_host_lt : Forall (λ i, i < next_host d) (map host_ID (hosts d));
  qi_sources : NoDup (map src_HostID (sources d));
  qi_source_lt : Forall (λ i, i < next_host d) (map src_HostID (sources d));
  qi_queue : NoDup (map hand_HostID (handoffs d));
  qi_urls : ∀ q, q ∈ handoffs d → ∃ h, h ∈ hosts d ∧ host_ID h = hand_HostID q ∧ hand_PDS q = sourceHostURL h;
  qi_rows : ∀ s h, s ∈ sources d → h ∈ hosts d → host_ID h = src_HostID s → E ≠ Some (src_HostID s) → row_ok d s h;
}.

(** Hosts stay, under their URL. *)
Definition kept (d d' : DB) : Prop :=
  ∀ h, h ∈ hosts d → ∃ h', h' ∈ hosts d' ∧ host_ID h' = host_ID h ∧ sourceHostURL h' = sourceHostURL h.
Definition after (r r' : Relay) : Prop := qinv None (db r') ∧ kept (db r) (db r').
Definition qkeep (r r' : Relay) : Prop := qinv None (db r) → after r r'.

Lemma kept_refl d : kept d d.
Proof. intros h Hin. by exists h. Qed.
Lemma kept_trans d1 d2 d3 : kept d1 d2 → kept d2 d3 → kept d1 d3.
Proof.
  intros H12 H23 h1 Hin. destruct (H12 h1 Hin) as (h2 & Hin2 & Hi & Hu). destruct (H23 h2 Hin2) as (h3 & Hin3 & Hi' & Hu').
  exists h3. split_and!; congruence.
Qed.

#[export] Instance qkeep_frame : Frame qkeep.
Proof.
  split; [split|..].
  - intros r Hi. split; [done|apply kept_refl].
  - intros r1 r2 r3 H12 H23 Hi. destruct (H12 Hi) as [Hi2 Hk2]. destruct (H23 Hi2) as [Hi3 Hk3]. split; [done|by eapply kept_trans].
  - intros r Hi. split; [done|apply kept_refl].
  - intros r r' _ Hi. split; [done|apply kept_refl].
Qed.

Lemma qinv_but E d : qinv None d → qinv E d.
Proof. intros [a b c e f g i]. split; try done. intros s h Hs Hh Hid _. by apply i. Qed.

Lemma host_unique E d h h' : qinv E d → h ∈ hosts d → h' ∈ hosts d → host_ID h = host_ID h' → h = h'.
Proof. intros Hi ???. by apply (key_unique host_ID (hosts d)); [apply Hi|..]. Qed.
Lemma source_unique E d s s' : qinv E d → s ∈ sources d → s' ∈ sources d → src_HostID s = src_HostID s' → s = s'.
Proof. intros Hi ???. by apply (key_unique src_HostID (sources d)); [apply Hi|..]. Qed.

(** A row is told of by the same handoffs while what they speak of is the same. *)
Definition same_row (s s' : Source) : Prop :=
  src_HostID s' = src_HostID s ∧ src_State s' = src_State s ∧ src_Revision s' = src_Revision s ∧
  src_ValidationStatus s' = src_ValidationStatus s ∧ src_LastOperation s' = src_LastOperation s.
Definition same_host (h h' : Host) : Prop :=
  host_ID h' = host_ID h ∧ sourceHostURL h' = sourceHostURL h ∧ host_banned h' = host_banned h.

Lemma row_ok_same d d' s s' h h' : same_row s s' → same_host h h' → handoffs d' = handoffs d → row_ok d s h → row_ok d' s' h'.
Proof.
  intros (Hi & Hst & Hr & Hv & Hop) (Hhi & Hu & Hb) Hq [Hban Ht]. split.
  - unfold sound, is_enabled. by rewrite Hb, Hst, Hr.
  - destruct Ht as [Ht|(q & [Hp Hs] & Hin)]; [left; unfold unqueued; by rewrite Hop|right]. exists q. rewrite Hq, Hhi. split; [|done].
    split; [congruence|]. unfold superseded, effectiveState, is_enabled, is_passed in *. by rewrite Hst, Hr, Hv, Hb.
Qed.

(** Hosts and sources that changed in nothing a handoff speaks of. *)
Lemma qinv_same E d d' :
  map host_key (hosts d') = map host_key (hosts d) → next_host d' = next_host d → handoffs d' = handoffs d →
  map src_HostID (sources d') = map src_HostID (sources d) → (∀ s', s' ∈ sources d' → ∃ s, s ∈ sources d ∧ same_row s s') →
  qinv E d → qinv E d' ∧ kept d d'.
Proof.
  intros Hh Hn Hq Hsi Hs [a b c e f g i].
  assert (Hids : map host_ID (hosts d') = map host_ID (hosts d)).
  { change host_ID with (λ h, (host_key h).1.1.1). by rewrite <-!(map_map host_key (λ k, k.1.1.1)), Hh. }
  assert (Hfrom : ∀ d1 d2, map host_key (hosts d1) = map host_key (hosts d2) → ∀ h, h ∈ hosts d1 → ∃ h', h' ∈ hosts d2 ∧ same_host h h').
  { intros d1 d2 Heq h Hin. assert (Hk : host_key h ∈ map host_key (hosts d2)) by (rewrite <-Heq; by apply list_elem_of_fmap_2).
    apply list_elem_of_fmap in Hk as (h' & Hk & Hin'). exists h'. split; [done|]. by apply host_key_eq. }
  split; [split|]; rewrite ?Hids, ?Hn, ?Hq, ?Hsi; try done.
  - intros q Hin. destruct (g q Hin) as (h & Hin' & ? & ?). destruct (Hfrom d d' ltac:(done) h Hin') as (h' & ? & ? & ? & _).
    exists h'. split_and!; congruence.
  - intros s' h' Hs' Hh' Hid HE. destruct (Hs s' Hs') as (s & Hin & Hsame). destruct (Hfrom d' d ltac:(done) h' Hh') as (h & Hin' & H1 & H2 & H3).
    apply (row_ok_same d d' s s' h h'); [done|by split_and!|done|]. destruct Hsame as (Hsame & _). apply i; try done; congruence.
  - intros h Hin. destruct (Hfrom d d' ltac:(done) h Hin) as (h' & ? & ? & ? & _). by exists h'.
Qed.

Lemma core_q {B} (m : R B) : preserves core_keep m → preserves qkeep m.
Proof.
  intros Hm r Hi. destruct (Hm r) as [Hs _ Hq Hn Hk]. eapply qinv_same; eauto; [by rewrite Hs|].
  rewrite Hs. intros s Hin. by exists s.
Qed.

Lemma q_of_wp {B} (m : R B) : (∀ r, qinv None (db r) → wp m (λ _ r', after r r') (λ _ r', after r r') r) → preserves qkeep m.
Proof. intros Hw r Hi. specialize (Hw r Hi). unfold wp in Hw. by destruct (m r) as [r' [a|e]]. Qed.

(** What follows a step that keeps the invariant. *)
Lemma after_then {B} (m : R B) r r1 : preserves qkeep m → after r r1 → wp m (λ _ r', after r r') (λ _ r', after r r') r1.
Proof.
  intros Hm [Hi Hk]. specialize (Hm r1 Hi). unfold wp. destruct (m r1) as [r2 [a|e]]; destruct Hm; (split; [done|by eapply kept_trans]).
Qed.
Lemma after_same r r' : qinv None (db r) → db r' = db r → after r r'.
Proof. intros Hi Hd. unfold after. rewrite Hd. split; [done|apply kept_refl]. Qed.

(** ** The queue *)

Definition row_for (h : Host) (rev : Z) (state : SourceState) (q : SourceHandoff) : Prop :=
  hand_HostID q = host_ID h ∧ hand_SourceRevision q = rev ∧ hand_State q = SourceState_string state.

(** The queue after a handoff was put in. *)
Definition enqueued (h : Host) (rev : Z) (state : SourceState) (l l' : list SourceHandoff) : Prop :=
  (l' = l ∧ ∃ q, q ∈ l ∧ row_for h rev state q) ∨
  (∃ row, row_for h rev state row ∧ hand_PDS row = sourceHostURL h ∧
     l' = if existsb (handoff_is (host_ID h)) l then update_where (handoff_is (host_ID h)) (λ _, row) l else l ++ [row]).

Lemma enqueue_wp h rev state r :
  wp (enqueueSourceHandoff h rev state)
     (λ _ r', ∃ l', enqueued h rev state (handoffs (db r)) l' ∧ db r' = set_handoffs l' (db r)) (λ _ r', db r' = db r) r.
Proof.
  unfold enqueueSourceHandoff. apply wp_bind, wp_attempt.
  assert (Hnew : ∀ r1, db r1 = db r → wp (now ← Now;
    let row := mkHandoff (host_ID h) (sourceHostURL h) rev (SourceState_string state) 0 now in
    exec (λ d, set_handoffs (if existsb (handoff_is (host_ID h)) (handoffs d)
      then update_where (handoff_is (host_ID h)) (λ _, row) (handoffs d)
      else handoffs d ++ [row]) d))
     (λ _ r', ∃ l', enqueued h rev state (handoffs (db r)) l' ∧ db r' = set_handoffs l' (db r)) (λ _ r', db r' = db r) r1).
  { intros r1 Hd. apply wp_bind. unfold Now, wp at 1, call. apply exec_wp; [|done]. simpl. rewrite Hd.
    eexists. split; [|reflexivity]. right. exists (mkHandoff (host_ID h) (sourceHostURL h) rev (SourceState_string state) 0 (clock (tick r1))). split; [by split_and!|]. by split. }
  apply query_wp; [|intros; by apply wp_ret, Hnew].
  destruct (List.find _ _) as [row|] eqn:Hf; [|by apply wp_ret, Hnew].
  destruct (_ && _) eqn:Hsame; apply wp_ret; [|by apply Hnew]. apply wp_ret. exists (handoffs (db r)). split; [|simpl; by destruct (db r)].
  left. split; [done|]. apply find_some in Hf as [Hin Hid]. unfold handoff_is in Hid. bool_to_prop. exists row.
  split; [by apply list_elem_of_In|]. by split_and!.
Qed.

Lemma enqueued_queue h rev state l l' : enqueued h rev state l l' → NoDup (map hand_HostID l) → NoDup (map hand_HostID l').
Proof.
  intros [[-> _]|(row & (Hid & _) & _ & ->)] Hnd; [done|]. destruct (existsb _ _) eqn:He.
  - replace (map _ (update_where _ _ _)) with (map hand_HostID l); [done|]. unfold update_where. rewrite map_map.
    apply map_ext. intros q. unfold handoff_is. destruct (Z.eqb_spec (hand_HostID q) (host_ID h)); congruence.
  - rewrite map_app. simpl. rewrite Hid. apply NoDup_app. split; [done|]. split; [|apply NoDup_singleton].
    intros i Hi Hi'. apply list_elem_of_singleton in Hi' as ->. apply list_elem_of_fmap in Hi as (q & Heq & Hin).
    apply not_true_iff_false in He. apply He, existsb_exists. exists q. split; [by apply list_elem_of_In|]. by apply Z.eqb_eq.
Qed.

Lemma enqueued_from h rev state l l' q : enqueued h rev state l l' → q ∈ l' → q ∈ l ∨ row_for h rev state q ∧ hand_PDS q = sourceHostURL h.
Proof.
  intros [[-> _]|(row & Hrow & Hp & ->)] Hin; [by left|]. destruct (existsb _ _).
  - apply elem_of_update_where in Hin as (x & Hx & ->). case_match; [by right|by left].
  - apply elem_of_app in Hin as [?|Hin]; [by left|right]. apply list_elem_of_singleton in Hin as ->. done.
Qed.

Lemma enqueued_to h rev state l l' q : enqueued h rev state l l' → q ∈ l → hand_HostID q ≠ host_ID h → q ∈ l'.
Proof.
  intros [[-> _]|(row & Hrow & Hp & ->)] Hin Hne; [done|]. destruct (existsb _ _); [|apply elem_of_app; by left].
  apply elem_of_update_where. exists q. split; [done|]. unfold handoff_is. by rewrite (proj2 (Z.eqb_neq _ _) Hne).
Qed.

Lemma enqueued_has h rev state l l' : enqueued h rev state l l' → ∃ q, q ∈ l' ∧ row_for h rev state q.
Proof.
  intros [[-> Hq]|(row & Hrow & Hp & ->)]; [done|]. exists row. split; [|done]. destruct (existsb _ _) eqn:He.
  - apply existsb_exists in He as (q & Hin & Hq). apply elem_of_update_where. exists q. rewrite Hq. split; [by apply list_elem_of_In|done].
  - apply elem_of_app. right. by apply list_elem_of_singleton.
Qed.

(** A source whose handoff is queued may be what it likes, unless its host is banned. *)
Definition fits (rev : Z) (state : SourceState) (s : Source) (h : Host) : Prop :=
  sound s h ∧ src_Revision s = rev ∧
  normalizeHandoffState (SourceState_string (effectiveState s h)) = normalizeHandoffState (SourceState_string state).

Lemma enqueued_qinv d h rev state l' : qinv (Some (host_ID h)) d →
  (∃ h', h' ∈ hosts d ∧ host_ID h' = host_ID h ∧ sourceHostURL h' = sourceHostURL h ∧
     ∀ s, s ∈ sources d → src_HostID s = host_ID h → fits rev state s h') →
  enqueued h rev state (handoffs d) l' → qinv None (set_handoffs l' d).
Proof.
  intros Hq (h' & Hh' & Hid' & Hurl & Hfit) He. pose proof Hq as [a b c e f g i]. split; simpl; try done.
  - by eapply enqueued_queue.
  - intros q Hin. destruct (enqueued_from _ _ _ _ _ _ He Hin) as [Hin'|[(Hqi & _) Hp]]; [by apply g|]. exists h'. split_and!; congruence.
  - intros s h1 Hs Hh1 Hid _. destruct (decide (src_HostID s = host_ID h)) as [Heq|Hne].
    + assert (h1 = h') as -> by (eapply host_unique; [exact Hq|done|done|congruence]).
      destruct (Hfit s Hs Heq) as (Hb & Hrev & Hn). split; [done|]. right.
      destruct (enqueued_has _ _ _ _ _ He) as (q & Hin & Hqi & Hqr & Hqs). exists q. split; [|left; split; [done|congruence]].
      split; [|unfold superseded; by rewrite Hrev, Hqr, Hqs, Z.eqb_refl, Hn, String.eqb_refl].
      destruct (enqueued_from _ _ _ _ _ _ He Hin) as [Hin'|[_ Hp]]; [|congruence].
      destruct (g q Hin') as (h2 & Hh2 & Hid2 & Hp). rewrite Hp. f_equal. eapply host_unique; [exact Hq|done|done|congruence].
    + destruct (i s h1 Hs Hh1 Hid ltac:(congruence)) as [Hb [Hadd|(q & Hc & Hin)]]; split; try done; [by left|]. right.
      exists q. split; [done|]. destruct Hin as [[Hin Hqi]|]; [left|by right]. split; [|done]. eapply enqueued_to; [exact He|done|congruence].
Qed.

(** ** Changing a source and queueing it *)

Lemma count_where_has {B} (p : B → bool) l : count_where p l = 1 → ∃ x, x ∈ l ∧ p x = true.
Proof.
  unfold count_where. destruct (List.filter p l) as [|x xs] eqn:Hf; [done|]. intros _. exists x.
  assert (Hin : In x (List.filter p l)) by (rewrite Hf; by left). apply filter_In in Hin as [Hin Hp]. split; [by apply list_elem_of_In|done].
Qed.

Lemma qinv_update d i p f : (∀ s, p s = true → src_HostID s = i) → (∀ s, src_HostID (f s) = src_HostID s) →
  qinv (Some i) d → qinv (Some i) (set_sources (update_where p f (sources d)) d).
Proof.
  intros Hp Hf [a b c e g u w]. split; simpl; rewrite ?map_update_where; try done.
  intros s h Hs Hh Hid Hne. apply elem_of_update_where in Hs as (x & Hx & ->). destruct (p x) eqn:Hpx; [|by apply w].
  rewrite Hf in Hne. by rewrite (Hp x Hpx) in Hne.
Qed.

Lemma restate_wp h p f rev state c r : qinv (Some (host_ID h)) (db r) →
  (∃ h', h' ∈ hosts (db r) ∧ host_ID h' = host_ID h ∧ sourceHostURL h' = sourceHostURL h ∧
     ∀ s, s ∈ sources (db r) → p s = true → fits rev state (f s) h') →
  (∀ s, p s = true → src_HostID s = host_ID h) → (∀ s, src_HostID (f s) = src_HostID s) →
  wp (update_source p f c ;; enqueueSourceHandoff h rev state) (λ _ r', qinv None (db r') ∧ hosts (db r') = hosts (db r)) (λ _ _, True) r.
Proof.
  intros Hq (h' & Hh' & Hid & Hurl & Hfit) Hp Hf. unfold update_source. apply wp_bind, wp_bind.
  unfold dbop. apply wp_bind. unfold wp at 1, call. destruct (db_fail _); [done|]. apply wp_ret, wp_gets_bind, wp_bind, wp_modify. simpl.
  destruct (Z.eqb_spec (count_where p (sources (db r))) 1) as [Hc|]; [|by apply wp_throw]. apply wp_ret.
  eapply wp_mono; [| |apply enqueue_wp]; [|done]. intros _ r2 (l' & He & ->). simpl in He |- *. split; [|done].
  apply (enqueued_qinv _ h rev state); [by apply qinv_update| |done]. exists h'. split_and!; try done. simpl.
  intros s Hs Hsi. apply elem_of_update_where in Hs as (x & Hx & ->).
  apply count_where_has in Hc as (y & Hy & Hpy).
  assert (x = y) as -> by (eapply source_unique; [exact Hq|done|done|]; rewrite (Hp y Hpy); case_match; [by rewrite <-Hf|done]).
  rewrite Hpy. by apply Hfit.
Qed.

Lemma change_wp {B} (m : R B) r : qinv None (db r) →
  wp m (λ _ r', qinv None (db r') ∧ kept (db r) (db r')) (λ _ _, True) (step r) →
  wp (Transaction m) (λ _ r', after r r') (λ _ r', db r' = db r) r.
Proof.
  intros Hq Hm. apply Transaction_wp; [done|]. eapply wp_mono; [| |exact Hm]; [|done]. intros b r' Ha. by split.
Qed.

Lemma kept_hosts d d' : hosts d' = hosts d → kept d d'.
Proof. intros Hh h Hin. exists h. by rewrite Hh. Qed.

(** A source whose current handoff is queued again. *)
Lemma requeue_wp h rev state r : qinv None (db r) → h ∈ hosts (db r) →
  (∀ s, s ∈ sources (db r) → src_HostID s = host_ID h → fits rev state s h) →
  wp (Transaction (enqueueSourceHandoff h rev state)) (λ _ r', after r r') (λ _ r', db r' = db r) r.
Proof.
  intros Hq Hh Hfit. apply change_wp; [done|]. eapply wp_mono; [| |apply enqueue_wp]; [|done].
  intros _ r' (l' & He & Hd). rewrite Hd. split; [|by apply kept_hosts].
  eapply enqueued_qinv; [by apply qinv_but| |exact He]. by exists h.
Qed.

(** A source that changes under its revision, and is queued as it then is. *)
Lemma restated_wp s h p f rev state c r : qinv None (db r) → s ∈ sources (db r) → h ∈ hosts (db r) → host_ID h = src_HostID s →
  (∀ s', p s' = true → src_HostID s' = host_ID h) → (∀ s', src_HostID (f s') = src_HostID s') →
  (p s = true → sound s h → fits rev state (f s) h) →
  wp (Transaction (update_source p f c ;; enqueueSourceHandoff h rev state)) (λ _ r', after r r') (λ _ r', db r' = db r) r.
Proof.
  intros Hq Hs Hh Hid Hp Hf Hfit. apply change_wp; [done|].
  eapply wp_mono; [| |apply (restate_wp h p f rev state c (step r)); [by apply qinv_but| |done|done]]; [|done|].
  - intros _ r' [Hq' Hh']. split; [done|by apply kept_hosts].
  - exists h. split_and!; try done. simpl. intros s' Hs' Hps.
    assert (s' = s) as -> by (eapply source_unique; [exact Hq|done|done|]; rewrite (Hp s' Hps); congruence).
    apply Hfit; [done|]. by apply (qi_rows _ _ Hq s h).
Qed.

(** ** Operations *)

#[local] Hint Resolve core_q : frame.
Ltac q_same := frame_stmt; intros Hi; eapply qinv_same; [..|exact Hi]; try done.

(** Sources that change only in what a handoff does not tell. *)
Lemma update_source_q p f c : (∀ s, same_row s (f s)) → preserves qkeep (update_source p f c).
Proof.
  intros Hf. unfold update_source. frames. q_same; simpl.
  - apply map_update_where. intros s. apply Hf.
  - intros s' Hin. apply elem_of_update_where in Hin as (s & Hs & ->). exists s. split; [done|]. case_match; [apply Hf|done].
Qed.

Lemma AcknowledgeSourceRecovery_q input : preserves qkeep (AcknowledgeSourceRecovery input).
Proof.
  unfold AcknowledgeSourceRecovery. frames; [q_same|by apply update_source_q]. intros x Hin. by exists x.
Qed.
Lemma AdvanceSourceRecoveryPolicy_q input : preserves qkeep (AdvanceSourceRecoveryPolicy input).
Proof. unfold AdvanceSourceRecoveryPolicy. frames; by apply update_source_q. Qed.

Lemma qinv_add_host d h : host_ID h = next_host d → qinv None d → qinv None (add_host h d) ∧ kept d (add_host h d).
Proof.
  intros Hid [a b c e f g i]. split; [split|]; simpl; try done.
  - rewrite map_app. simpl. rewrite Hid. apply NoDup_app. split; [done|]. split; [|apply NoDup_singleton].
    intros j Hj Hj'. apply list_elem_of_singleton in Hj' as ->. rewrite Forall_forall in b. specialize (b _ Hj). simpl in b. lia.
  - rewrite map_app. simpl. apply Forall_app. split; [|apply Forall_singleton; lia]. eapply Forall_impl; [exact b|]. simpl. lia.
  - eapply Forall_impl; [exact e|]. simpl. lia.
  - intros q Hin. destruct (g q Hin) as (h' & ? & ?). exists h'. split; [apply elem_of_app; by left|done].
  - intros s h' Hs Hh Hsi HE. apply elem_of_app in Hh as [Hh|Hh]; [by apply i|]. apply list_elem_of_singleton in Hh as ->.
    rewrite Forall_forall in e. specialize (e (src_HostID s) (list_elem_of_fmap_2 _ _ _ Hs)). simpl in e. lia.
  - intros h' Hin. exists h'. split; [apply elem_of_app; by left|done].
Qed.

Lemma ensureSourceHost_wp hostname noSSL r : qinv None (db r) →
  wp (ensureSourceHost hostname noSSL) (λ h r', after r r' ∧ h ∈ hosts (db r')) (λ _ r', after r r') r.
Proof.
  intros Hi. unfold ensureSourceHost. apply wp_bind, wp_wrap, query_wp; [|intros ?; by apply after_same].
  destruct (List.find _ _) as [h|] eqn:Hf.
  { apply wp_ret. split; [by apply after_same|]. apply find_some in Hf as [Hin _]. by apply list_elem_of_In. }
  cbv zeta. apply wp_bind, wp_wrap. unfold dbop. apply wp_bind. unfold wp at 1, call.
  destruct (db_fail _); [by apply wp_throw, after_same|]. apply wp_ret, wp_gets_bind, wp_bind, wp_modify, wp_ret. simpl.
  split; [by apply qinv_add_host|]. apply elem_of_app. right. by apply list_elem_of_singleton.
Qed.

Lemma ensureSourceRow_wp host r : qinv None (db r) → host ∈ hosts (db r) →
  wp (ensureSourceRow host) (λ _ r', after r r') (λ _ r', after r r') r.
Proof.
  intros Hi Hh. unfold ensureSourceRow. apply wp_bind, wp_wrap, query_wp; [|intros ?; by apply after_same].
  destruct (List.find _ _) as [s|] eqn:Hf; [by apply wp_ret, after_same|]. cbv zeta.
  apply wp_bind, wp_wrap, exec_wp; [|intros ?; by apply after_same]. apply wp_ret. simpl. split; [|by apply kept_hosts].
  set (s := mkSource _ _ _ _ _ _ _ _ _). pose proof Hi as [a b c e f g i]. simpl in Hf. split; simpl; try done.
  - rewrite map_app. simpl. apply NoDup_app. split; [done|]. split; [|apply NoDup_singleton].
    intros j Hj Hj'. apply list_elem_of_singleton in Hj' as ->. apply list_elem_of_fmap in Hj as (x & Hx & Hin).
    apply list_elem_of_In in Hin. pose proof (find_none _ _ Hf x Hin) as Hn. unfold source_is in Hn. by rewrite <-Hx, Z.eqb_refl in Hn.
  - rewrite map_app. simpl. apply Forall_app. split; [done|]. apply Forall_singleton. rewrite Forall_forall in b.
    apply (b (host_ID host)). by apply list_elem_of_fmap_2.
  - intros s' h Hs Hh' Hid HE. apply elem_of_app in Hs as [Hs|Hs]; [by apply i|]. apply list_elem_of_singleton in Hs as ->. simpl in Hid.
    assert (h = host) as -> by (by eapply host_unique). split; [|by left; left]. split; [|done]. intros Hb. unfold s, is_enabled. simpl. by rewrite Hb.
Qed.

Lemma loadOrCreateSource_q hostname noSSL public : preserves qkeep (loadOrCreateSource hostname noSSL public).
Proof.
  apply q_of_wp. intros r Hi. unfold loadOrCreateSource. apply wp_bind, wp_wrap, query_wp; [|intros ?; by apply after_same].
  assert (H0 : after r (step r)) by by apply after_same.
  destruct (source_of_hostname _ _) as [s|]; [apply after_then; [unfold first_host; frames|done]|].
  apply wp_bind. eapply (wp_mono _ (λ _ r', db r' = db r) _ (λ _ r', db r' = db r)); [|intros ? r1 ?; by apply after_same|by destruct public].
  intros allowed r1 Hd. case_match; [by apply wp_throw, after_same|]. apply wp_bind. rewrite <-Hd in Hi.
  eapply wp_mono; [| |by apply ensureSourceHost_wp]; [|intros ? r2 [? ?]; split; [done|by rewrite <-Hd]].
  intros h r2 [[Hi2 Hk2] Hh]. rewrite Hd in Hk2. apply wp_bind. eapply wp_mono; [| |by apply ensureSourceRow_wp].
  - intros s r3 [Hi3 Hk3]. apply wp_ret. split; [done|by eapply kept_trans].
  - intros e r3 [Hi3 Hk3]. split; [done|by eapply kept_trans].
Qed.
#[local] Hint Resolve loadOrCreateSource_q : frame.
Lemma addSource_q rawURL public : preserves qkeep (addSource rawURL public).
Proof. unfold addSource, reconcile_and_view. frames. Qed.

(** A loaded source and its host. *)
Lemma loaded_wp hostID r : qinv None (db r) →
  wp (sourceAndHostLocked hostID)
     (λ x r', db r' = db r ∧ x.1 ∈ sources (db r) ∧ x.2 ∈ hosts (db r) ∧ host_ID x.2 = src_HostID x.1 ∧ src_HostID x.1 = hostID)
     (λ _ r', db r' = db r) r.
Proof.
  intros Hi. eapply wp_mono; [| |apply sourceAndHostLocked_wp]; [|by intros ?? []].
  intros x r1 (Hdb & Hs & Hh & _). apply find_some in Hs as [Hs Hsid], Hh as [Hh Hhid].
  unfold source_is, host_is in *. bool_to_prop. split_and!; [done|by apply list_elem_of_In..|congruence|done].
Qed.

Lemma effective_disabled s h : is_enabled s = false → effectiveState s h = SourceStateDisabled.
Proof. intros He. unfold effectiveState. by rewrite He. Qed.
Lemma effective_enabled s h : is_enabled s = true → is_passed s = true → host_banned h = false → effectiveState s h = SourceStateEnabled.
Proof. intros He Hp Hb. unfold effectiveState. by rewrite He, Hp, Hb. Qed.
Lemma norm_off state : state ≠ SourceStateEnabled →
  normalizeHandoffState (SourceState_string state) = normalizeHandoffState (SourceState_string SourceStateDisabled).
Proof. by destruct state. Qed.

Lemma finalizeSourceValidation_q hostID revision status reason : preserves qkeep (finalizeSourceValidation hostID revision status reason).
Proof.
  apply q_of_wp. intros r Hi. unfold finalizeSourceValidation. apply wp_attempt.
  eapply wp_mono; [| |by apply loaded_wp]; [|intros e r1 Hd; by apply wp_throw, after_same].
  intros [s h] r1 (Hd & Hs & Hh & Hid & Hsid). simpl in *. rewrite <-Hd in Hi, Hs, Hh.
  assert (Hfrom : ∀ r2, after r1 r2 → after r r2) by (intros r2; unfold after; by rewrite Hd).
  pose proof (qi_rows _ _ Hi s h Hs Hh Hid ltac:(done)) as [Hsound _].
  destruct (negb (src_Revision s =? revision) || negb (is_enabled s)) eqn:Hg.
  - apply wp_bind. eapply (wp_mono _ (λ _ r', after r1 r') _ (λ _ r', after r1 r')).
    + intros _ r2 H2. apply wp_throw. by apply Hfrom.
    + intros e r2 H2. by apply Hfrom.
    + destruct (is_enabled s) eqn:He; [by apply wp_ret, after_same|]. apply wp_catch.
      eapply wp_mono; [| |apply requeue_wp; [done|done|]]; [done|intros e r2 Hd2; by apply wp_ret, after_same|].
      intros s' Hs' Hsi. assert (s' = s) as -> by (eapply source_unique; [exact Hi|done|done|congruence]).
      split; [done|]. split; [done|]. rewrite effective_disabled by done. symmetry. apply norm_off.
      intros Heq. unfold is_enabled in He. by rewrite Heq in He.
  - apply orb_false_iff in Hg as [_ He]. apply negb_false_iff in He.
    assert (Hb : host_banned h = false).
    { destruct (host_banned h) eqn:Hb; [|done]. pose proof (proj1 Hsound Hb). congruence. }
    apply wp_bind. unfold Now, wp at 1, call. cbv zeta. apply wp_bind, wp_catch.
    eapply wp_mono; [| |apply (restated_wp s h); [done|done|done|done|..]].
    + intros ? r2 H2. eapply wp_mono; [| |apply (after_then _ (step r1)); [frames|exact H2]]; intros ? r3 H3; by apply Hfrom.
    + intros e r2 Hd2. assert (H2 : after r r2) by (apply after_same; [by rewrite <-Hd|rewrite Hd2; exact Hd]). by case_match; apply wp_throw.
    + intros s' Hp. unfold source_is in Hp. bool_to_prop. congruence.
    + done.
    + intros _ _. split; [split; [by rewrite Hb|apply uint64_range]|]. split; [done|]. case_bool_decide as Hst.
      * rewrite effective_enabled; [done| |by unfold is_passed; simpl; rewrite Hst|done]. done.
      * unfold effectiveState, is_passed. simpl. rewrite bool_decide_false by done. by rewrite andb_false_r.
Qed.
#[local] Hint Resolve finalizeSourceValidation_q : frame.

Lemma GetAccount_unlocked_q between did : preserves qkeep between → preserves qkeep (GetAccount_unlocked between did).
Proof. intros Hb. unfold GetAccount_unlocked. frames. q_same. intros s Hin. by exists s. Qed.
Lemma ValidateSource_q between hostID revision : preserves qkeep between → preserves qkeep (ValidateSource between hostID revision).
Proof. intros Hb. unfold ValidateSource. frames. Qed.

Lemma UpdateHostStatus_kept hostID status d : kept d (set_hosts (update_where (host_is hostID) (host_set_Status status) (hosts d)) d).
Proof.
  intros h Hin. exists (if host_is hostID h then host_set_Status status h else h). split; [|by case_match].
  apply elem_of_update_where. by exists h.
Qed.
Lemma qinv_status i status d : qinv None d → qinv (Some i) (set_hosts (update_where (host_is i) (host_set_Status status) (hosts d)) d).
Proof.
  intros [a b c e f g w]. split; simpl; rewrite ?map_update_where; try done.
  - intros q Hin. destruct (g q Hin) as (h & Hh & Hid & Hp).
    destruct (UpdateHostStatus_kept i status d h Hh) as (h' & ? & ? & ?). exists h'. split_and!; [done|congruence..].
  - intros s h Hs Hh Hid Hne. apply elem_of_update_where in Hh as (x & Hx & ->). unfold host_is in *.
    destruct (Z.eqb_spec (host_ID x) i) as [Heq|]; [exfalso; apply Hne; f_equal; simpl in Hid; congruence|by apply w].
Qed.

(** The transaction of a change of the desired state. *)
Lemma changed_wp s h state op r :
  qinv None (db r) → s ∈ sources (db r) → h ∈ hosts (db r) → host_ID h = src_HostID s →
  (state = SourceStateEnabled → is_passed s = true ∧ host_banned h = false) →
  wp (Transaction (
        update_source (λ s', source_is (src_HostID s) s' && (src_Revision s' =? src_Revision s))
          (src_update state (uint64 (src_Revision s + 1)) op) ErrSourceRevisionConflict ;;
        enqueueSourceHandoff h (uint64 (src_Revision s + 1)) state))
     (λ _ r', after r r') (λ _ r', db r' = db r) r.
Proof.
  intros Hi Hs Hh Hid Hen. apply (restated_wp s h); try done.
  - intros s' Hp. unfold source_is in Hp. bool_to_prop. congruence.
  - intros _ _. set (s' := src_update _ _ _ s). destruct (decide (state = SourceStateEnabled)) as [->|Hne].
    + destruct (Hen eq_refl) as [Hp Hb]. split; [split; [by rewrite Hb|apply uint64_range]|]. split; [done|]. by rewrite effective_enabled.
    + assert (He : is_enabled s' = false) by by apply bool_decide_false.
      split; [split; [done|apply uint64_range]|]. split; [done|]. rewrite effective_disabled by done. symmetry. by apply norm_off.
Qed.

Lemma SetSourceState_q hostID expected state : preserves qkeep (SetSourceState hostID expected state).
Proof.
  apply q_of_wp. intros r Hi. unfold SetSourceState. apply wp_bind.
  eapply wp_mono; [| |by apply loaded_wp]; [|intros e r1 Hd; by apply after_same].
  intros [s h] r1 (Hd & Hs & Hh & Hid & Hsid). simpl in Hs, Hh, Hid, Hsid. case_match; [by apply wp_throw, after_same|].
  apply wp_bind. eapply (wp_mono _ (λ _ r2, db r2 = db r ∧ (state = SourceStateEnabled → is_passed s = true ∧ host_banned h = false)) _
    (λ _ r2, db r2 = db r)); [|intros e r2 Hd2; by apply after_same|].
  2: { case_bool_decide; [|by apply wp_ret]. rewrite <-Hd. eapply wp_mono; [| |apply checkSourceEnablement_wp]; [|done]. intros ? r2 (?&?&?&_). done. }
  intros ? r2 [Hd2 Hen]. clear dependent r1. rewrite <-Hd2 in Hi, Hs, Hh.
  assert (Hfrom : ∀ r3, after r2 r3 → after r r3) by (intros r3; unfold after; by rewrite Hd2).
  pose proof (qi_rows _ _ Hi s h Hs Hh Hid ltac:(done)) as [Hsound _].
  eapply wp_mono; [intros ? r3; apply Hfrom|intros ? r3; apply Hfrom|]. clear Hfrom.
  apply wp_bind. case_bool_decide as Hst; simpl.
  - eapply (wp_mono _ (λ _ r', after r2 r') _ (λ _ r', after r2 r')); [|done|].
    { intros ? r3 H3. apply (after_then _ r2); [frames; unfold GetHostByID; frames|done]. }
    destruct (bool_decide (state = SourceStateEnabled) && is_passed s) eqn:Hp; [|by apply wp_ret, after_same].
    apply andb_true_iff in Hp as [Hse Hp]. apply bool_decide_eq_true in Hse.
    apply wp_bind, wp_wrap, query_wp; [|intros ?; by apply after_same].
    assert (Hqueue : wp (wrap "queuing source handoff" (Transaction (enqueueSourceHandoff h (src_Revision s) state)))
      (λ _ r', after r2 r') (λ _ r', after r2 r') (step r2)).
    { apply wp_wrap. eapply wp_mono; [| |apply requeue_wp; [done|done|]]; [done|intros e r3 Hd3; by apply after_same|].
      intros s' Hs' Hsi. assert (s' = s) as -> by (eapply source_unique; [exact Hi|done|done|congruence]).
      split; [done|]. split; [done|]. rewrite Hse in *. destruct (Hen eq_refl). rewrite effective_enabled; [done|by apply bool_decide_true|done|done]. }
    simpl. destruct (List.find _ _); [|done]. case_match; [done|by apply wp_ret, after_same].
  - apply wp_ret. cbv zeta. apply wp_bind, wp_bind, wp_catch.
    eapply wp_mono; [| |by apply (changed_wp s h)].
    + intros ? r3 H3. apply wp_ret. apply (after_then _ r2); [frames; unfold GetHostByID; frames|done].
    + intros e r3 Hd3. case_match; by apply wp_throw, after_same.
Qed.

Lemma SetSourceBlocked_q hostname blocked : preserves qkeep (SetSourceBlocked hostname blocked).
Proof.
  apply q_of_wp. intros r Hi. unfold SetSourceBlocked, GetHost. apply wp_bind.
  eapply (wp_mono _ (λ _ r1, db r1 = db r) _ (λ _ r1, db r1 = db r)); [|intros e r1 ?; by apply after_same|].
  2: { apply wp_bind, query_wp; [|done]. by repeat case_match. }
  intros h0 r0 Hd0. rewrite <-Hd0 in Hi.
  assert (Hfrom0 : ∀ r3, after r0 r3 → after r r3) by (intros r3; unfold after; by rewrite Hd0).
  eapply wp_mono; [intros ? r3; apply Hfrom0|intros ? r3; apply Hfrom0|]. clear dependent r. rename r0 into r. apply wp_bind.
  eapply wp_mono; [| |by apply loaded_wp]; [|intros e r1 Hd; by apply after_same].
  intros [s h] r1 (Hd & Hs & Hh & Hid & Hsid). simpl in Hs, Hh, Hid, Hsid. cbv zeta. apply wp_bind.
  set (state := if blocked then SourceStateDisabled else SourceStateEnabled).
  set (status := if blocked then HostStatusBanned else HostStatusActive).
  eapply (wp_mono _ (λ _ r2, db r2 = db r ∧ (blocked = false → is_passed s = true)) _ (λ _ r2, db r2 = db r)); [|intros e r2 Hd2; by apply after_same|].
  2: { destruct blocked; [by apply wp_ret|]. apply wp_bind. eapply (wp_mono _ (λ _ r2, db r2 = db r) _ (λ _ r2, db r2 = db r)); [|done|].
       - intros b r2 Hd2. case_match; [by apply wp_throw|]. destruct (is_passed s) eqn:Hp; simpl; [by apply wp_ret|by apply wp_throw].
       - rewrite <-Hd. unfold sourceDomainIsBanned. case_match; [by apply wp_ret|]. eapply wp_mono; [| |apply DomainIsBanned_wp]; [|done]. by intros ? r2 []. }
  intros ? r2 [Hd2 Hp]. clear dependent r1. rewrite <-Hd2 in Hi, Hs, Hh.
  assert (Hfrom : ∀ r3, after r2 r3 → after r r3) by (intros r3; unfold after; by rewrite Hd2).
  pose proof (qi_rows _ _ Hi s h Hs Hh Hid ltac:(done)) as [Hsound _].
  eapply wp_mono; [intros ? r3; apply Hfrom|intros ? r3; apply Hfrom|]. clear Hfrom.
  destruct (bool_decide (src_State s = state) && String.eqb (host_Status h) status) eqn:Hsame.
  - apply andb_true_iff in Hsame as [Hst Hstat]. apply bool_decide_eq_true in Hst. apply String.eqb_eq in Hstat.
    destruct blocked; [apply (after_then _ r2); [frames|by apply after_same]|].
    eapply wp_mono; [| |apply requeue_wp; [done|done|]]; [done|intros e r3 Hd3; by apply after_same|].
    intros s' Hs' Hsi. assert (s' = s) as -> by (eapply source_unique; [exact Hi|done|done|congruence]).
    split; [done|]. split; [done|]. rewrite effective_enabled; [done|by apply bool_decide_true|by apply Hp|].
    unfold host_banned. by rewrite Hstat.
  - apply wp_bind. eapply wp_mono; [| |apply change_wp; [done|]]; [|intros e r3 Hd3; by apply after_same|].
    { intros ? r3 H3. apply (after_then _ r2); [frames|done]. }
    apply wp_bind, exec_wp; [|done]. simpl.
    set (r3 := set_db _ _). set (h' := host_set_Status status h).
    assert (Hh' : h' ∈ hosts (db r3)).
    { simpl. apply elem_of_update_where. exists h. unfold host_is. by rewrite Z.eqb_refl. }
    eapply wp_mono; [| |apply (restate_wp h _ _ _ _ _ r3)]; [|done|..].
    + intros ? r4 [Hi4 Hk]. split; [done|]. eapply kept_trans; [apply (UpdateHostStatus_kept (host_ID h) status)|by apply kept_hosts].
    + by apply qinv_status.
    + exists h'. split_and!; try done. intros s' Hs' Hps. unfold source_is in Hps. bool_to_prop.
      assert (s' = s) as -> by (eapply source_unique; [exact Hi|done|done|congruence]).
      destruct blocked; unfold state.
      * split; [split; [done|apply uint64_range]|]. split; [done|]. by rewrite effective_disabled.
      * split; [split; [done|apply uint64_range]|]. split; [done|]. rewrite effective_enabled; [done|done|by apply Hp|done].
    + intros s' Hps. unfold source_is in Hps. by bool_to_prop.
    + done.
Qed.

(** A status reported by the stream.  A ban turns the enabled source of the host
    off and tells no one; any other status changes what no handoff speaks of,
    since no source of a banned host is on. *)
Lemma qinv_host_status i status d : qinv None d →
  (status = HostStatusBanned → ∀ s, s ∈ sources d → src_HostID s = i → is_enabled s = false) →
  qinv None (set_hosts (update_where (host_is i) (host_set_Status status) (hosts d)) d).
Proof.
  intros Hi Hban. pose proof (qinv_status i status d Hi) as [a b c e f g _]. split; try done.
  intros s h' Hs Hh Hid HE. simpl in Hs, Hh. apply elem_of_update_where in Hh as (h & Hin & ->).
  destruct (host_is i h) eqn:Hhi; [|by apply Hi]. unfold host_is in Hhi. bool_to_prop.
  destruct (qi_rows _ _ Hi s h Hs Hin Hid HE) as [[Hoff Hrng] Ht].
  assert (effectiveState s (host_set_Status status h) = effectiveState s h) as Heff.
  { unfold effectiveState. destruct (is_enabled s) eqn:He; [|done]. destruct (host_banned h) eqn:Hb; [by specialize (Hoff eq_refl)|].
    unfold host_banned in *. simpl. destruct (String.eqb_spec status HostStatusBanned) as [Hst|]; [|done].
    rewrite (Hban Hst s Hs) in He; [done|]. simpl in Hid. congruence. }
  split.
  - split; [|done]. intros Hb. apply Hban; [|done|simpl in Hid; congruence]. unfold host_banned in Hb. simpl in Hb. by bool_to_prop.
  - destruct Ht as [Ht|(q & [Hp Hsup] & Hin')]; [by left|right]. exists q. split; [|done]. split; [done|].
    unfold superseded. by rewrite Heff.
Qed.

Lemma qinv_banned i d : qinv None d →
  let d' := set_sources (update_where (λ s, source_is i s && bool_decide (src_State s = SourceStateEnabled)) disable_banned (sources d)) d in
  qinv None d' ∧ ∀ s, s ∈ sources d' → src_HostID s = i → is_enabled s = false.
Proof.
  intros Hi. pose proof Hi as [a b c e f g w]. split.
  - split; simpl; rewrite ?map_update_where; try done. intros s' h Hs Hh Hid HE.
    apply elem_of_update_where in Hs as (s & Hs & ->). case_match; [|by apply w].
    split; [|by left; right]. split; [done|apply uint64_range].
  - intros s' Hs Hid. simpl in Hs. apply elem_of_update_where in Hs as (s & Hs & ->). unfold is_enabled, source_is in *.
    destruct (_ && _) eqn:Hp; [done|]. rewrite Hid, Z.eqb_refl in Hp. exact Hp.
Qed.

Lemma UpdateHostStatus_q hostID status : preserves qkeep (UpdateHostStatus hostID status).
Proof.
  apply q_of_wp. intros r Hi. unfold UpdateHostStatus.
  eapply wp_mono; [| |apply change_wp; [done|]]; [done|intros e r1 Hd; by apply after_same|].
  apply wp_bind. eapply (wp_mono _ (λ _ r1, qinv None (db r1) ∧ kept (db r) (db r1) ∧
    (status = HostStatusBanned → ∀ s, s ∈ sources (db r1) → src_HostID s = hostID → is_enabled s = false)) _ (λ _ _, True)); [|done|].
  - intros _ r1 (Hi1 & Hk & Hban). apply exec_wp; [|done]. simpl. split; [by apply qinv_host_status|].
    eapply kept_trans; [exact Hk|apply UpdateHostStatus_kept].
  - destruct (String.eqb_spec status HostStatusBanned) as [Hst|Hst].
    + apply exec_wp; [|done]. destruct (qinv_banned hostID (db r) Hi) as [Hi' Hoff]. by split_and!; [|apply kept_hosts|].
    + apply wp_ret. split_and!; [done|apply kept_refl|done].
Qed.

(** ** Delivering *)

(** A queue with fewer rows or with rows that tell the same. *)
Lemma qinv_queue d l' :
  NoDup (map hand_HostID l') →
  (∀ q', q' ∈ l' → ∃ q, q ∈ handoffs d ∧ hand_HostID q = hand_HostID q' ∧ hand_PDS q = hand_PDS q') →
  (∀ q s h, q ∈ handoffs d → s ∈ sources d → h ∈ hosts d → host_ID h = src_HostID s → hand_HostID q = host_ID h → carries h s q →
     ∃ q', carries h s q' ∧ (q' ∈ l' ∧ hand_HostID q' = host_ID h ∨ A q')) →
  qinv None d → qinv None (set_handoffs l' d).
Proof.
  intros Hnd Hfrom Hto [a b c e f g i]. split; simpl; try done.
  - intros q' Hin. destruct (Hfrom q' Hin) as (q & Hq & Hid & Hp). destruct (g q Hq) as (h & ? & ? & ?). exists h. split_and!; congruence.
  - intros s h Hs Hh Hid HE. destruct (i s h Hs Hh Hid HE) as [Hb [Hadd|(q & Hc & Hin)]]; (split; [done|]); [by left|right].
    destruct Hin as [[Hin Hqi]|Hin]; [by apply (Hto q s h)|by exists q; auto].
Qed.

Lemma NoDup_filter_map {B C} (f : B → C) p (l : list B) : NoDup (map f l) → NoDup (map f (List.filter p l)).
Proof.
  induction l as [|x l IH]; simpl; [done|]. intros [Hx Hl]%NoDup_cons. case_match; [|by apply IH]. simpl. apply NoDup_cons. split; [|by apply IH].
  intros Hin. apply Hx. apply list_elem_of_fmap in Hin as (y & -> & Hy). apply list_elem_of_fmap_2.
  apply list_elem_of_In in Hy. apply filter_In in Hy as [Hy _]. by apply list_elem_of_In.
Qed.
Lemma elem_of_lfilter {B} (p : B → bool) l x : x ∈ List.filter p l ↔ x ∈ l ∧ p x = true.
Proof. rewrite !list_elem_of_In. apply filter_In. Qed.

(** Rows that are deleted are of no source, or were delivered. *)
Lemma qinv_delete d p : qinv None d →
  (∀ q s h, q ∈ handoffs d → s ∈ sources d → h ∈ hosts d → host_ID h = src_HostID s → hand_HostID q = host_ID h → carries h s q →
     p q = true ∨ ∃ q', carries h s q' ∧ A q') →
  qinv None (set_handoffs (List.filter p (handoffs d)) d).
Proof.
  intros Hi Hp. apply qinv_queue; [apply NoDup_filter_map, Hi| |intros q s h Hq Hs Hh Hid Hqi Hc|done].
  - intros q' [Hin _]%elem_of_lfilter. by exists q'.
  - destruct (Hp q s h Hq Hs Hh Hid Hqi Hc) as [Hpq|(q' & ? & ?)]; [exists q|by exists q'; auto].
    split; [done|]. left. split; [by apply elem_of_lfilter|done].
Qed.

Lemma handoff_superseded_queue row r :
  wp (handoff_superseded row)
     (λ o r', db r' = db r ∧ (o = Some true → ∃ s h, s ∈ sources (db r) ∧ h ∈ hosts (db r) ∧ src_HostID s = hand_HostID row ∧
        host_ID h = hand_HostID row ∧ superseded s h row = true))
     (λ _ r', db r' = db r) r.
Proof.
  unfold handoff_superseded. apply wp_attempt, query_wp; [|intros ?; apply wp_attempt, query_wp; [|intros ?]; simpl; done].
  destruct (List.find (source_is _) _) as [s|] eqn:Hs; apply wp_attempt, query_wp; simpl; try done.
  destruct (List.find (host_is _) _) as [h|] eqn:Hh; [|by apply wp_ret].
  apply wp_ret. split; [done|]. intros [= Hsup]. exists s, h.
  apply find_some in Hs as [Hs Hsi], Hh as [Hh Hhi]. unfold source_is, host_is in *. bool_to_prop.
  split_and!; [by apply list_elem_of_In..|done|done|done].
Qed.

(** Who delivered a handoff, and no other statement, may take it out of the queue. *)
Variable send : SourceHandoff → nat → option string.
Hypothesis delivered : ∀ q n, send q n = None → A q.

Lemma delete_superseded d s h row : qinv None d → s ∈ sources d → h ∈ hosts d → src_HostID s = hand_HostID row →
  host_ID h = hand_HostID row → superseded s h row = true → row ∈ handoffs d →
  qinv None (set_handoffs (List.filter (λ q, negb (handoff_is (hand_HostID row) q && (hand_SourceRevision q =? hand_SourceRevision row))) (handoffs d)) d).
Proof.
  intros Hi Hs Hh Hsi Hhi Hsup Hrow. apply qinv_delete; [done|]. intros q s' h' Hq Hs' Hh' Hid Hqi [Hp Hc]. left.
  apply negb_true_iff, andb_false_iff. unfold handoff_is. destruct (Z.eqb_spec (hand_HostID q) (hand_HostID row)) as [Heq|]; [|by left].
  exfalso. assert (q = row) as -> by (apply (key_unique hand_HostID (handoffs d)); [apply Hi|done..]).
  assert (s' = s) as -> by (eapply source_unique; [exact Hi|done|done|congruence]).
  assert (h' = h) as -> by (eapply host_unique; [exact Hi|done|done|congruence]). congruence.
Qed.

Lemma delete_delivered d row : qinv None d → A row →
  (∀ h, h ∈ hosts d → host_ID h = hand_HostID row → hand_PDS row = sourceHostURL h) →
  qinv None (set_handoffs (List.filter (λ q, negb (same_attempt row q)) (handoffs d)) d).
Proof.
  intros Hi Ha Hp. apply qinv_delete; [done|]. intros q s h Hq Hs Hh Hid Hqi [Hqp Hc].
  destruct (same_attempt row q) eqn:Hsame; [right|by left]. exists row. split; [|done].
  unfold same_attempt, handoff_is in Hsame. bool_to_prop. split; [apply Hp; congruence|].
  unfold superseded in *. congruence.
Qed.

Lemma retry_rows d row attempts t : qinv None d →
  qinv None (set_handoffs (update_where (same_attempt row) (λ h, mkHandoff (hand_HostID h) (hand_PDS h)
    (hand_SourceRevision h) (hand_State h) attempts t) (handoffs d)) d).
Proof.
  intros Hi. apply qinv_queue; [..|done].
  - rewrite map_update_where; [apply Hi|done].
  - intros q' Hin. apply elem_of_update_where in Hin as (q & Hq & ->). exists q. by case_match.
  - intros q s h Hq Hs Hh Hid Hqi [Hp Hc].
    exists (if same_attempt row q then mkHandoff (hand_HostID q) (hand_PDS q) (hand_SourceRevision q) (hand_State q) attempts t else q).
    split; [by case_match|]. left. split; [apply elem_of_update_where; by exists q|by case_match].
Qed.

(** What is done with the row once the delivery has ended. *)
Definition settle (row : SourceHandoff) (failed : option string) : R unit :=
  match failed with
  | None => exec (λ d, set_handoffs (List.filter (λ h, negb (same_attempt row h)) (handoffs d)) d)
  | Some _ =>
      let attempts := hand_Attempts row + 1 in
      now ← Now;
      exec (λ d, set_handoffs (update_where (same_attempt row) (λ h, mkHandoff (hand_HostID h) (hand_PDS h)
        (hand_SourceRevision h) (hand_State h) attempts (now + retry_delay attempts)) (handoffs d)) d)
  end.

Lemma settle_queue row failed h r r1 : after r r1 → h ∈ hosts (db r) → host_ID h = hand_HostID row → hand_PDS row = sourceHostURL h →
  (failed = None → A row) → wp (settle row failed) (λ _ r', after r r') (λ _ r', after r r') r1.
Proof.
  intros Ha Hh Hid Hurl Hdel. destruct failed as [e|]; simpl.
  - apply (after_then _ r); [|done]. unfold Now. frames. frame_stmt. intros Hi. split; [by apply retry_rows|by apply kept_hosts].
  - destruct Ha as [Hi Hk]. apply exec_wp; [|intros ?; by split]. split; [|eapply kept_trans; [exact Hk|by apply kept_hosts]].
    apply delete_delivered; [done|by apply Hdel|]. intros h' Hh' Hid'. destruct (Hk h Hh) as (h2 & Hh2 & Hid2 & Hu2).
    assert (h' = h2) as -> by (eapply host_unique; [exact Hi|done|done|congruence]). congruence.
Qed.

Lemma Now_wp r (Q : Z → Relay → Prop) (F : goerr → Relay → Prop) : Q (clock (tick r)) (step r) → wp Now Q F r.
Proof. done. Qed.

Lemma process_handoff_q between queued : preserves qkeep between → preserves qkeep (process_handoff send between queued).
Proof.
  intros Hb. apply q_of_wp. intros r Hi. unfold process_handoff. apply wp_bind, query_wp; [|intros ?; by apply after_same].
  simpl. destruct (List.find _ _) as [row|] eqn:Hf; [|by apply wp_ret, after_same]. apply find_some in Hf as [Hrow _]. apply list_elem_of_In in Hrow.
  destruct (qi_urls _ _ Hi row Hrow) as (h & Hh & Hhid & Hurl). apply wp_bind.
  eapply wp_mono; [| |apply handoff_superseded_queue]; [|intros e r1 Hd; by apply after_same].
  intros stale r1 [Hd Hstale]. simpl in Hd, Hstale. rewrite <-Hd in Hi, Hrow, Hh, Hstale.
  assert (Hfrom : ∀ r2, after r1 r2 → after r r2) by (intros r2; unfold after; by rewrite Hd).
  eapply wp_mono; [intros ? r2; apply Hfrom|intros ? r2; apply Hfrom|]. clear Hfrom.
  destruct stale as [[]|]; [| |by apply wp_ret, after_same].
  { destruct (Hstale eq_refl) as (s & h' & Hs & Hh' & Hsi & Hhi & Hsup). apply wp_catch, exec_wp; [|intros ?; by apply wp_ret, after_same].
    split; [by eapply delete_superseded|by apply kept_hosts]. }
  clear Hstale. apply wp_bind, Now_wp. case_match; [by apply wp_ret, after_same|].
  apply wp_bind. unfold call at 1. unfold wp at 1. set (r2 := step (step r1)). assert (H2 : after r1 r2) by (by apply after_same).
  destruct (send row (S (tick r1))) as [e|] eqn:Hsend; simpl; rewrite Hsend; apply wp_attempt;
    (eapply wp_mono; [| |apply (after_then _ r1); [exact Hb|exact H2]]; intros ? r3 H3; apply wp_bind).
  1,2: by apply wp_ret, (settle_queue row (Some e) h).
  all: eapply (wp_mono _ (λ _ r', after r1 r') _ (λ _ r', after r1 r')); [|done|apply (after_then _ r1); [frames|done]];
    intros failed r4 H4; apply (settle_queue row failed h); auto; by intros ->; apply delivered in Hsend.
Qed.

Lemma process_handoffs_q between due : preserves qkeep between → preserves qkeep (process_handoffs send between due).
Proof. intros Hb. induction due as [|q due IH]; simpl; frames; by apply process_handoff_q. Qed.
End handoffs.

(** ** All operations *)

(** The operations of the program, whose deliveries succeed only for handoffs in [A]. *)
Fixpoint sends_in (A : SourceHandoff → Prop) (o : op) : Prop :=
  match o with
  | OpHandoffs send between => (∀ q n, send q n = None → A q) ∧ foldr (λ o Q, sends_in A o ∧ Q) True between
  | OpGetAccount between _ | OpValidate between _ _ => foldr (λ o Q, sends_in A o ∧ Q) True between
  | _ => True
  end.

Section operations.
Context `{Services} (A : SourceHandoff → Prop).

Lemma run_list_q os : foldr (λ o Q, sends_in A o ∧ Q) True os →
  Forall (λ o, sends_in A o → preserves (qkeep A) (run_op o)) os → preserves (qkeep A) (run_ops os).
Proof.
  induction os as [|o os IH]; simpl; [intros _ _; frames|]. intros [Ho Hos] Hall. inversion Hall; subst.
  apply (preserves_bind (qkeep A)); [auto|]. intros _. auto.
Qed.

Lemma preserves_ignore {B} (m : R B) : preserves (qkeep A) m → preserves (qkeep A) (ignore m).
Proof. intros Hm. unfold ignore. frames. Qed.

Lemma run_op_q o : sends_in A o → preserves (qkeep A) (run_op o).
Proof.
  induction o as [o IH] using op_ind'. intros Ha.
  destruct o; simpl in *; try done; apply preserves_ignore; try (apply core_q; by eauto with frame).
  - apply GetAccount_unlocked_q. by apply run_list_q.
  - apply UpdateHostStatus_q.
  - apply addSource_q.
  - apply ValidateSource_q. by apply run_list_q.
  - apply SetSourceState_q.
  - apply SetSourceBlocked_q.
  - apply AcknowledgeSourceRecovery_q.
  - apply AdvanceSourceRecoveryPolicy_q.
  - destruct Ha as [Hsend Hops]. unfold ProcessSourceHandoffs. apply (preserves_bind (qkeep A)); [apply core_q; frames|]. intros due.
    apply process_handoffs_q; [done|]. by apply run_list_q.
Qed.

Lemma qinv_weaken (B : SourceHandoff → Prop) d : (∀ q, A q → B q) → qinv A None d → qinv B None d.
Proof.
  intros Hab [a b c e f g i]. split; try done. intros s h Hs Hh Hid HE.
  destruct (i s h Hs Hh Hid HE) as [Hb [Hadd|(q & Hc & [?|Hin])]]; (split; [done|]); [by left|right..]; exists q; auto.
Qed.

(** C38 (error): A ban reported by the stream is not handed on.  When
    [UpdateHostStatus] records a ban, every enabled source of the host is off
    afterwards, at the next revision and in need of recovery, but the queue of
    handoffs is as it was: none tells Jetstream of the change, and every handoff
    that told it of the source before, queued or not, is now stale, so that the
    worker deletes it instead of sending it. *)
Theorem stream_ban_unqueued hostID r r' s : UpdateHostStatus hostID HostStatusBanned r = (r', Ok tt) →
  s ∈ sources (db r) → src_HostID s = hostID → is_enabled s = true → 0 ≤ src_Revision s < 2 ^ 64 →
  handoffs (db r') = handoffs (db r) ∧
  ∃ s', s' ∈ sources (db r') ∧ src_HostID s' = hostID ∧ is_enabled s' = false ∧ src_RecoveryRequired s' = true ∧
    src_Revision s' = uint64 (src_Revision s + 1) ∧
    ∀ h q, superseded s h q = false → ∀ h', superseded s' h' q = true.
Proof.
  intros Hrun Hs Hid Hen Hrng.
  assert (wp (UpdateHostStatus hostID HostStatusBanned) (λ _ r', handoffs (db r') = handoffs (db r) ∧
    sources (db r') = update_where (λ s, source_is hostID s && bool_decide (src_State s = SourceStateEnabled)) disable_banned (sources (db r)))
    (λ _ _, True) r) as Hw.
  { apply Transaction_wp; [done|]. apply wp_bind, exec_wp; [|done]. by apply exec_wp. }
  unfold wp in Hw. rewrite Hrun in Hw. destruct Hw as [Hq Hsrc]. split; [done|]. exists (disable_banned s).
  split_and!; try done.
  - rewrite Hsrc. apply elem_of_update_where. exists s. split; [done|]. unfold is_enabled in Hen. unfold source_is.
    by rewrite Hid, Z.eqb_refl, Hen.
  - intros h q Hsup h'. unfold superseded in *. apply orb_false_iff in Hsup as [Hrev _]. apply negb_false_iff, Z.eqb_eq in Hrev.
    apply orb_true_iff. left. apply negb_true_iff, Z.eqb_neq. rewrite <- Hrev. cbn [disable_banned src_Revision].
    destruct (decide (src_Revision s = 2 ^ 64 - 1)) as [->|]; [by vm_compute|]. rewrite uint64_small by lia. lia.
Qed.
End operations.
