(* ===== verification/RelayExamples.v ===== *)
(** * A concrete relay

    A deployment on which the hypotheses of the relay's theorems hold: one host
    with an account limit of one, its enabled and validated source, one account
    with a stored repository, a banned domain, and services that answer. *)

From S2P Require Import Prelude GoStrings Syntax Tid Datetime Stream StateMonad Cbor Mst MstData MstSpec MstTree MstLoad MstMap Repo RepoLibs RepoTheorems RepoExamples Hostname Relay RelayAccount RelayHost RelaySources RelayVerify RelayIngest RelayFrame RelayIngestProofs RelayAccountProofs RelayAckProofs RelayQuotaProofs RelaySourceProofs RelayAdminProofs RelayOps.
From Stdlib Require Import Strings.Byte.
Local Open Scope Z_scope.

Definition ex_host : string := "pds.example.com".
Definition ex_did : string := "did:plc:aaaaaaaaaaaaaaaaaaaaaaaa".
Definition ex_new_did : string := "did:plc:bbbbbbbbbbbbbbbbbbbbbbbb".
Definition ex_identity : Identity := mkIdentity "user.example.com" "https://pds.example.com" (Ok "key"%string).
Definition ex_rev : string := "3jzfcijpj2z2a".
Definition ex_old_rev : string := "3jzfcijpj2z22".

(** The database never fails, the log accepts, every DID lives on the host, the
    CAR files are those of the example messages and signatures are accepted. *)
#[local] Instance ex_services : Services := {|
  Config := mkConfig 100 1000 false [] false false;
  clock := λ n, 1700000000000000 + Z.of_nat n;
  db_fail := λ _, None;
  emit_fail := λ _ _, None;
  dir_lookup := λ _ _, Ok (Some ex_identity);
  dir_purge := λ _ _, None;
  describe_server := λ _ _, None;
  repo_status := λ _ _ _, Ok (true, None);
  limiter_allow := λ _, true;
  rate_admission := λ _, None;
  slurper_subscribe := λ _ _, None;
  slurper_stop := λ _ _, Ok None;
  slurper_limits := λ _ _, None;
  svc_cbor := rfc_cbor;
  svc_cid := identity_cid;
  svc_car := two_files;
  svc_sort := short_sort;
  svc_sig := {| HashAndSign := λ _ _, Ok "sig"%string; HashAndVerify := λ _ _ _, None |};
|}.

Definition ex_db : DB :=
  mkDB [mkHost 1 ex_host false 1 false HostStatusActive 10 1; mkHost 2 "other.example.org" false 5 false HostStatusActive (-1) 0]
    [mkSource 2 SourceStateDisabled 7 "state:disabled" SourceValidationPassed (Some 5) SourceValidationReasonNone true 0;
     mkSource 1 SourceStateEnabled 2 "validate" SourceValidationPassed (Some 3) SourceValidationReasonNone false 1]
    [mkAccount 1 ex_did 1 AccountStatusActive AccountStatusActive]
    [mkAccountRepo 1 ex_old_rev "oldcid" "olddata"]
    [] [mkReceipt "https://pds.example.com" 1 2 1 "job-1" "b:1"] [] [] ["bad.example.net"] 3 2 1.
Definition ex_relay : Relay := mkRelay ex_db ∅ [] ∅ ∅ 0.

Definition ex_message (did : string) (seq : Z) (blocks : bytes) : SyncSubscribeRepos_Commit :=
  mkCommitMsg [] blocks (commit_block (tree_blocks after_list).1) repo_ops (Some (tree_blocks before_list).1) false did ex_rev seq None
    "2024-01-01T00:00:00Z" false.
Definition ex_commit : XRPCStreamEvent := commitEvent (ex_message ex_did 11 [x01%byte]) 0.
Definition ex_bad_commit : XRPCStreamEvent := commitEvent (ex_message ex_did 12 [x03%byte]) 0.
Definition ex_new_commit : XRPCStreamEvent := commitEvent (ex_message ex_new_did 13 [x01%byte]) 0.

Example ex_emits :
  let '(r, res) := processRepoEvent ex_commit ex_host 1 ex_relay in
  res = Ok tt ∧ length (events r) = 1%nat ∧ (repo_Rev <$> repo_of 1 r) = Some ex_rev.
Proof. vm_compute. done. Qed.

Example ex_rejects :
  let '(r, res) := processRepoEvent ex_bad_commit ex_host 1 ex_relay in
  res = Ok tt ∧ events r = [] ∧ map rej_ReasonCode (rejected (db r)) = ["malformed_commit"%string].
Proof. vm_compute. done. Qed.

(** The second account of the host exceeds the limit. *)
Example ex_throttles :
  let '(r, res) := processRepoEvent ex_new_commit ex_host 1 ex_relay in
  res = Ok tt ∧ events r = [] ∧ map acc_Status (accounts (db r)) = [AccountStatusActive; AccountStatusHostThrottled].
Proof. vm_compute. done. Qed.

Lemma ex_acct_inv : acct_inv ex_relay.
Proof.
  constructor; [..|apply map_Forall_empty]; compute_done.
Qed.

Lemma ex_sinv : sinv (db ex_relay).
Proof.
  constructor; [compute_done|..].
  - constructor; [done|]. constructor; [|done]. intros _. split; [done|].
    eexists (mkHost 1 ex_host false 1 false HostStatusActive 10 1), (mkReceipt "https://pds.example.com" 1 2 1 "job-1" "b:1").
    split_and!; try done; [by left|by left|by right].
  - constructor; [by intros []|]. constructor; [by intros []|done].
Qed.

Lemma processRepoEvent_accounted_witness :
  acked ex_commit ex_relay (processRepoEvent ex_commit ex_host 1 ex_relay).1 ∨
  rejection_recorded ex_commit 1 (processRepoEvent ex_commit ex_host 1 ex_relay).1.
Proof. apply (processRepoEvent_accounted ex_commit ex_host 1 ex_relay); [exact ex_acct_inv|vm_compute; reflexivity]. Defined.

Lemma rejection_exclusive_witness :
  let '(r', res) := processRepoEvent ex_bad_commit ex_host 1 ex_relay in
  rejected (db r') = rejected (db ex_relay) ∨
  (silent ex_relay r' ∧ res = Ok tt ∧
   (∃ x, rejected (db r') = rejected (db ex_relay) ++ [x] ∧
         rej_IdempotencyKey x = idempotencyKey (mkRejSource 1 12 ex_did "commit") rejectionPolicyRevision) ∧
   (db_fail (tick r') = None → processRepoEvent ex_bad_commit ex_host 1 r' = (step r', Ok tt))).
Proof. apply (rejection_exclusive ex_bad_commit ex_host 1). vm_compute. reflexivity. Defined.

Lemma idempotencyKey_unique_witness :
  1 = 1 ∧ Sequence (Some ex_commit) = Sequence (Some ex_commit) ∧ "commit"%string = "commit"%string ∧ "p"%string = "p"%string.
Proof.
  apply (idempotencyKey_unique ex_commit 1 (mkRejSource 1 11 ex_did "commit") "p" ex_commit 1 (mkRejSource 1 11 ex_did "commit") "p");
    vm_compute; reflexivity.
Defined.

Lemma commit_revision_monotone_witness : advanced 1 ex_relay (processRepoEvent ex_commit ex_host 1 ex_relay).1.
Proof. apply (commit_revision_monotone ex_commit (ex_message ex_did 11 [x01%byte])). reflexivity. Defined.

(** Raising the limit after the new account was throttled. *)
Definition ex_full : Relay := (processRepoEvent ex_new_commit ex_host 1 ex_relay).1.

Lemma ex_full_inv : acct_inv ex_full.
Proof. apply processRepoEvent_inv, ex_acct_inv. Qed.

Lemma UpdateHostAccountLimit_quota_witness :
  let '(r', res) := UpdateHostAccountLimit 1 5 "t" ex_full in
  served_count 1 ex_full ≤ served_count 1 r' ≤ Z.max (served_count 1 ex_full) 5 ∧
  (res = Ok tt → ∃ h, List.find (host_is 1) (hosts (db ex_full)) = Some h ∧
     (host_AccountLimit h ≤ 5 → served_count 1 r' = Z.max (served_count 1 ex_full) (Z.min 5 (total_count 1 ex_full)))).
Proof. apply (UpdateHostAccountLimit_quota 1 5 "t" ex_full). exact ex_full_inv. Defined.

Example ex_reactivates :
  let '(r', res) := UpdateHostAccountLimit 1 5 "t" ex_full in res = Ok tt ∧ served_count 1 ex_full = 1 ∧ served_count 1 r' = 2.
Proof. vm_compute. done. Qed.

Lemma CreateAccountHost_admission_witness :
  let r' := (CreateAccountHost ex_new_did 1 ex_host ex_relay).1 in
  let a := mkAccount 2 ex_new_did 1 AccountStatusHostThrottled AccountStatusActive in
  a ∈ accounts (db r') ∧ acc_DID a = ex_new_did ∧ acc_HostID a = 1 ∧
  ∃ h, h ∈ hosts (db r') ∧ host_ID h = 1 ∧
    (IsActive a = true ↔ total_count 1 r' ≤ host_AccountLimit h) ∧
    (IsActive a = false → acc_Status a = AccountStatusHostThrottled).
Proof.
  apply (CreateAccountHost_admission ex_new_did 1 ex_host ex_relay); [exact ex_acct_inv|vm_compute; reflexivity].
Defined.

Definition ex_ops : list op :=
  [OpEvent None ex_commit ex_host 1; OpValidate [OpEvent None ex_new_commit ex_host 1] 1 2; OpCursors [mkCursor 1 13];
   OpSetState 2 7 SourceStateEnabled; OpAcknowledge (mkReceiptInput "https://pds.example.com" 3 1 "job-2" "b:2");
   OpGetAccount [OpRemoveBan "bad.example.net"] ex_did].

(** The validation owes a recovery again, and the receipt discharges it. *)
Example ex_ops_run :
  let r := (run_ops ex_ops ex_relay).1 in
  map (λ s, (src_HostID s, src_Revision s, src_RecoveryRequired s)) (sources (db r)) = [(2, 8, true); (1, 3, false)] ∧
  map host_AccountCount (hosts (db r)) = [2; 0] ∧ map host_LastSeq (hosts (db r)) = [13; -1].
Proof. vm_compute. done. Qed.

Lemma run_ops_accounts_witness : acct_inv (run_ops ex_ops ex_relay).1.
Proof.
  apply (run_ops_accounts ex_ops ex_relay); [|exact ex_acct_inv].
  unfold ex_ops. do 5 (constructor; [simpl; tauto|]). constructor; [|done]. split; [done|]. intros r a _ Hin _. exact Hin.
Defined.

(** A takedown inside a lookup is not seen by the lookups that follow. *)
Lemma late_lookup_stale_witness :
  let a := mkAccount 1 ex_did 1 AccountStatusActive AccountStatusActive in
  let r' := (run_op (OpGetAccount [OpAccountStatus ex_did AccountStatusTakendown false "t"] ex_did) ex_relay).1 in
  acc_set_Status AccountStatusTakendown a ∈ accounts (db r') ∧ GetAccount ex_did r' = (r', Ok a).
Proof.
  apply (late_lookup_stale ex_did AccountStatusTakendown "t" ex_relay); [exact ex_acct_inv|done|reflexivity|reflexivity].
Defined.

Lemma run_ops_recovery_witness :
  Forall (λ s, src_RecoveryRequired s = false → discharged (db (run_ops ex_ops ex_relay).1) s)
    (sources (db (run_ops ex_ops ex_relay).1)).
Proof. apply (run_ops_recovery ex_ops ex_relay). exact ex_sinv. Defined.

Lemma DomainIsBanned_iff_witness :
  true = true ↔ HasPrefix "pds.bad.example.net" "localhost:" = true ∨
    ∃ ban, ban ∈ bans (db ex_relay) ∧ covers ban "pds.bad.example.net".
Proof.
  apply (DomainIsBanned_iff "pds.bad.example.net" ex_relay (DomainIsBanned "pds.bad.example.net" ex_relay).1).
  vm_compute. reflexivity.
Defined.

Lemma SetSourceState_fenced_witness :
  let '(r', res) := SetSourceState 2 7 SourceStateEnabled ex_relay in
  (sources (db r') = sources (db ex_relay) ∨ state_changed 2 7 SourceStateEnabled ex_relay r') ∧
  (∀ v, res = Ok v → view_DesiredState v = SourceStateEnabled ∧
     ∃ s, List.find (source_is 2) (sources (db r')) = Some s ∧ src_State s = SourceStateEnabled ∧ view_Revision v = src_Revision s).
Proof. apply (SetSourceState_fenced 2 7 SourceStateEnabled ex_relay). exact ex_sinv. Defined.

Definition ex_page : list SourceView * Z := match ListSources 0 1 ex_relay with (_, Ok p) => p | _ => ([], -1) end.

Lemma ListSources_pages_witness :
  map src_HostID (after (db ex_relay) 0)
  = map view_HostID ex_page.1 ++ (if ex_page.2 =? 0 then [] else map src_HostID (after (db ex_relay) ex_page.2)).
Proof.
  apply (ListSources_pages 0 1 ex_relay (ListSources 0 1 ex_relay).1); [compute_done| |vm_compute; reflexivity].
  repeat constructor.
Defined.

Lemma emitted_commit_contents_witness :
  signed_for ex_did changes_commit ∧ rc_DID changes_commit = ex_did ∧
  ∃ ops, parseCommitOps repo_ops = Ok ops ∧ explains ops (contents_of before_list) (contents_of after_list).
Proof.
  apply (emitted_commit_contents ex_commit (ex_message ex_did 11 [x01%byte]) ex_host 1 ex_relay (tree_blocks before_list).1
    (contents_of before_list) changes_commit (commit_block (tree_blocks after_list).1) (contents_of after_list)).
  - exact identity_collision_free.
  - reflexivity.
  - reflexivity.
  - intros Heq%(f_equal length). assert (length (events (processRepoEvent ex_commit ex_host 1 ex_relay).1) = 1%nat) as Hone by vm_refl.
    rewrite Heq in Hone. discriminate Hone.
  - vm_refl.
  - reflexivity.
  - vm_refl.
  - apply valid_contents_dec. vm_refl.
  - vm_refl.
  - apply valid_contents_dec. vm_refl.
  - vm_refl.
Defined.
