(* ===== verification/EventMgr.v ===== *)
(** * The event manager: [src/cmd/relay/stream/eventmgr]

    Fan-out of the event log to subscribers.  [Persist] of the log appends an
    event and, before it lets go of its lock, calls [broadcastEvent], which
    offers the event to the channel of every subscriber.  A subscriber with a
    cursor is served by a goroutine that first plays back the log, then starts to
    buffer live events, plays back again up to the first buffered one, and copies
    from the buffer after that.

    The state is the log as [Playback] sees it, the event between its append and
    its broadcast, the list [em.subs] and every subscriber: its channel [outgoing]
    and flags, where its goroutine, its [cleanup] and the goroutine that drops it
    as a slow consumer are, and what was sent on the channel that [Subscribe]
    returned.  One step is one critical section, channel operation or callback;
    goroutines take steps in any order, and a [select] takes any case that is
    ready.

    Of the log the manager relies on this: [Playback] calls back with the events
    after the cursor, in order and without leaving one out, until it ends.  It may
    fail, and it may return without an error at any point: the log of the relay
    does end early ([DiskPersistPlayback.Playback_run]).  A ghost flag of the
    subscriber, [s_cut], records that the second playback ended although it
    neither had called back for all that was in the log when it was called nor was
    past the first buffered event.  Takedowns and garbage collection, which take
    events out of the log, are left to the model of the log.  The filter is the
    one the relay passes, which accepts every event.  A broadcast is one step
    although goroutines of subscribers can run during it: what they do to their
    own subscriber does not touch the others, and [em.subs] is locked. *)

From S2P Require Import Prelude GoStrings Stream.
Local Open Scope Z_scope.

Abbreviation event := XRPCStreamEvent.
Definition SequenceForEvent (evt : option event) : Z := Sequence evt.
Arguments SequenceForEvent : simpl never.
Abbreviation eseq e := (SequenceForEvent (Some e)).

(** ** [Subscriber] *)

(** The goroutine of [Subscribe].  [Direct]: there is none, [since] is nil and
    the subscriber reads [outgoing].  [pos] is the event [Playback] is at, and
    [start] the length of the log when it was called. *)
Inductive pc : Type :=
| Direct
| Playing (pos lastSeq : Z) (start : nat)
| Adding (lastSeq : Z)
| Waiting (lastSeq : Z)
| Replaying (first : option event) (pos : Z) (start : nat)
| Copying (evt : option event)
| Returning
| Returned.

(** [cleanup], which runs once, under [sub.lk]. *)
Inductive cleaning : Type := NotCleaned | DoneClosed | Removed | CleanedUp.

(** The goroutine for a slow consumer: not started; before [torem.lk.Lock()];
    holding the lock; before [torem.cleanup()]; ended. *)
Inductive dropping : Type := NotDropped | BeforeLock | Locked | BeforeCleanup | Dropped.

Record Subscriber := mkSub {
  s_since : option Z;
  s_outgoing : list event;        (* the buffer of the channel *)
  s_closed : bool;                (* [outgoing] is closed *)
  s_filter : bool;                (* still the filter it was made with *)
  s_done : bool;                  (* [done] is closed *)
  s_pc : pc;
  s_cleanup : cleaning;
  s_drop : dropping;
  s_sent : list event;            (* what the subscriber was sent *)
  s_cut : bool;                   (* ghost: the second playback ended early *)
}.

Record EventManager := mkEM {
  bufferSize : Z;
  log : list event;               (* what [Playback] reads *)
  pending : option event;         (* appended, not yet broadcast *)
  subs : list nat;                (* [em.subs] *)
  subscribers : gmap nat Subscriber;
  panicked : bool;                (* a send on a closed channel *)
}.

Definition NewEventManager (l : list event) : EventManager := mkEM (Z.shiftl 16 10) l None [] ∅ false.

Definition set_pc p (s : Subscriber) := mkSub (s_since s) (s_outgoing s) (s_closed s) (s_filter s) (s_done s) p (s_cleanup s) (s_drop s) (s_sent s) (s_cut s).
Definition set_outgoing b (s : Subscriber) := mkSub (s_since s) b (s_closed s) (s_filter s) (s_done s) (s_pc s) (s_cleanup s) (s_drop s) (s_sent s) (s_cut s).
Definition send e (s : Subscriber) := mkSub (s_since s) (s_outgoing s) (s_closed s) (s_filter s) (s_done s) (s_pc s) (s_cleanup s) (s_drop s) (s_sent s ++ [e]) (s_cut s).
Definition set_drop d (s : Subscriber) := mkSub (s_since s) (s_outgoing s) (s_closed s) (s_filter s) (s_done s) (s_pc s) (s_cleanup s) d (s_sent s) (s_cut s).
Definition set_cleanup c (s : Subscriber) := mkSub (s_since s) (s_outgoing s) (s_closed s) (s_filter s) (s_done s) (s_pc s) c (s_drop s) (s_sent s) (s_cut s).
Definition close_done (s : Subscriber) := mkSub (s_since s) (s_outgoing s) (s_closed s) (s_filter s) true (s_pc s) DoneClosed (s_drop s) (s_sent s) (s_cut s).
Definition close_outgoing (s : Subscriber) := mkSub (s_since s) (s_outgoing s) true (s_filter s) (s_done s) (s_pc s) CleanedUp (s_drop s) (s_sent s) (s_cut s).
Definition cut_short c (s : Subscriber) := mkSub (s_since s) (s_outgoing s) (s_closed s) (s_filter s) (s_done s) (s_pc s) (s_cleanup s) (s_drop s) (s_sent s) (s_cut s || c).
Definition drop_slow (s : Subscriber) := mkSub (s_since s) (s_outgoing s) (s_closed s) false (s_done s) (s_pc s) (s_cleanup s) BeforeLock (s_sent s) (s_cut s).

Definition set_log l p (em : EventManager) := mkEM (bufferSize em) l p (subs em) (subscribers em) (panicked em).
Definition set_pending p (em : EventManager) := mkEM (bufferSize em) (log em) p (subs em) (subscribers em) (panicked em).
Definition set_subs l (em : EventManager) := mkEM (bufferSize em) (log em) (pending em) l (subscribers em) (panicked em).
Definition set_subscribers m (em : EventManager) := mkEM (bufferSize em) (log em) (pending em) (subs em) m (panicked em).
Definition panic (em : EventManager) := mkEM (bufferSize em) (log em) (pending em) (subs em) (subscribers em) true.

Definition update (id : nat) (s : Subscriber) (em : EventManager) : EventManager := set_subscribers (<[id := s]> (subscribers em)) em.

Definition ConsumerTooSlow : event := mkEvent (Some (mkErrorFrame "ConsumerTooSlow" "")) None None None None None 0.

(** ** [rmSubscriber], [addSubscriber] *)

(** The last one takes the place of the one removed. *)
Fixpoint replace_first (id last : nat) (l : list nat) : list nat :=
  match l with [] => [] | x :: l => if (x =? id)%nat then last :: l else x :: replace_first id last l end.

Definition rm (id : nat) (l : list nat) : list nat :=
  if bool_decide (id ∈ l) then
    match last l with Some x => removelast (replace_first id x l) | None => l end
  else l.

Definition rmSubscriber (id : nat) (em : EventManager) : EventManager := set_subs (rm id (subs em)) em.
Definition addSubscriber (id : nat) (em : EventManager) : EventManager := set_subs (subs em ++ [id]) em.

(** ** [broadcastEvent] *)

(** The case the [select] takes; [None] for one that is not ready. *)
Inductive choice : Set := Send | SeesDone | Default.

Definition offer (size : Z) (evt : event) (c : choice) (s : Subscriber) : option (Subscriber * bool) :=
  if negb (s_filter s) then Some (s, false)
  else
    let can_send := s_closed s || (Z.of_nat (length (s_outgoing s)) <? size) in
    match c with
    | Send => if s_closed s then Some (s, true)
              else if can_send then Some (set_outgoing (s_outgoing s ++ [evt]) s, false) else None
    | SeesDone => if s_done s then Some (s, false) else None
    | Default => if can_send || s_done s then None else Some (drop_slow s, false)
    end.

Fixpoint broadcast (evt : event) (choices : nat → choice) (ids : list nat) (em : EventManager) : option EventManager :=
  match ids with
  | [] => Some em
  | id :: ids =>
      match subscribers em !! id with
      | None => None
      | Some s =>
          match offer (bufferSize em) evt (choices id) s with
          | None => None
          | Some (_, true) => Some (panic em)
          | Some (s, false) => broadcast evt choices ids (update id s em)
          end
      end
  end.

Definition broadcastEvent (evt : event) (choices : nat → choice) (em : EventManager) : option EventManager :=
  broadcast evt choices (subs em) (set_pending None em).

(** ** Steps *)

Definition last_seq (l : list event) : Z := match last l with Some e => eseq e | None => 0 end.

(** The event after [pos] in the log. *)
Definition next_event (pos : Z) (l : list event) : option event := List.find (λ e, pos <? eseq e) l.

(** [Playback] has called back for all that was in the log when it was called. *)
Definition played (pos : Z) (start : nat) (l : list event) : bool := negb (existsb (λ e, pos <? eseq e) (take start l)).

Inductive label : Type :=
| LPersist (evt : event)
| LBroadcast (choices : nat → choice)
| LBroadcastFail                (* [Preserialize] fails *)
| LSubscribe (id : nat) (since : option Z)
| LPlay (id : nat)              (* the callback sends an event *)
| LPlayDone (id : nat)          (* the callback sees [done] *)
| LPlayFail (id : nat)          (* [Playback] fails *)
| LPlayEnd (id : nat)           (* [Playback] returns, possibly early, or is caught up *)
| LAdd (id : nat)
| LReceive (id : nat)           (* from [outgoing], or that it is closed *)
| LForward (id : nat)
| LForwardDone (id : nat)
| LReturn (id : nat)
| LCleanup (id : nat)           (* the next step of [cleanup], called by anyone *)
| LDrop (id : nat)              (* the next step of dropping it as slow *)
| LDropTimeout (id : nat).

(** Whether [sub.lk] is free. *)
Definition lk_free (s : Subscriber) : bool :=
  match s_drop s, s_cleanup s with
  | Locked, _ => false
  | _, (DoneClosed | Removed) => false
  | _, _ => true
  end.

(** The sequence number that [lastSeq] takes in the callback. *)
Definition advance (e : event) (lastSeq : Z) : Z := if 0 <? eseq e then eseq e else lastSeq.

Definition step_sub (em : EventManager) (id : nat) (s : Subscriber) (l : label) : option EventManager :=
  let put s := Some (update id s em) in
  match l with
  | LPlay _ =>
      match s_pc s with
      | Playing pos lastSeq start =>
          match next_event pos (log em) with
          | Some e => put (set_pc (Playing (eseq e) (advance e lastSeq) start) (send e s))
          | None => None
          end
      | Replaying first pos start =>
          match next_event pos (log em) with
          | Some e => if SequenceForEvent first <? eseq e then None
                      else put (set_pc (Replaying first (eseq e) start) (send e s))
          | None => None
          end
      | _ => None
      end
  | LPlayDone _ =>
      if negb (s_done s) then None
      else match s_pc s with
           | Playing _ _ _ => put (set_pc Returned s)
           | Replaying _ _ _ => put (set_pc Returning s)
           | _ => None
           end
  | LPlayFail _ =>
      match s_pc s with
      | Playing _ _ _ => put (set_pc Returned s)
      | Replaying _ _ _ => put (set_pc Returning s)
      | _ => None
      end
  | LPlayEnd _ =>
      match s_pc s with
      | Playing pos lastSeq start => put (set_pc (Adding lastSeq) s)
      | Replaying first pos start =>
          let caught_up := match next_event pos (log em) with Some e => SequenceForEvent first <? eseq e | None => false end in
          put (set_pc (Copying None) (cut_short (negb (played pos start (log em) || caught_up)) s))
      | _ => None
      end
  | LAdd _ =>
      match s_pc s with
      | Adding lastSeq => Some (addSubscriber id (update id (set_pc (Waiting lastSeq) s) em))
      | _ => None
      end
  | LReceive _ =>
      match s_outgoing s with
      | e :: rest =>
          match s_pc s with
          | Direct => put (send e (set_outgoing rest s))
          | Waiting lastSeq => put (set_pc (Replaying (Some e) lastSeq (length (log em))) (set_outgoing rest s))
          | Copying None => put (set_pc (Copying (Some e)) (set_outgoing rest s))
          | _ => None
          end
      | [] =>
          if negb (s_closed s) then None
          else match s_pc s with
               | Waiting lastSeq => put (set_pc (Replaying None lastSeq (length (log em))) s)
               | Copying None => put (set_pc Returning s)
               | _ => None
               end
      end
  | LForward _ =>
      match s_pc s with Copying (Some e) => put (set_pc (Copying None) (send e s)) | _ => None end
  | LForwardDone _ =>
      match s_pc s with Copying (Some e) => if s_done s then put (set_pc Returning s) else None | _ => None end
  | LReturn _ =>
      match s_pc s with Returning => Some (rmSubscriber id (update id (set_pc Returned s) em)) | _ => None end
  | LCleanup _ =>
      match s_cleanup s with
      | NotCleaned => if lk_free s then put (close_done s) else None
      | DoneClosed => Some (rmSubscriber id (update id (set_cleanup Removed s) em))
      | Removed => put (close_outgoing s)
      | CleanedUp => None
      end
  | LDrop _ =>
      match s_drop s with
      | BeforeLock => if lk_free s then put (set_drop Locked s) else None
      | Locked =>
          match s_cleanup s with
          | CleanedUp => put (set_drop BeforeCleanup s)
          | _ => if Z.of_nat (length (s_outgoing s)) <? bufferSize em
                 then put (set_drop BeforeCleanup (set_outgoing (s_outgoing s ++ [ConsumerTooSlow]) s)) else None
          end
      | BeforeCleanup =>
          match s_cleanup s with
          | NotCleaned => put (set_drop Dropped (close_done s))
          | CleanedUp => put (set_drop Dropped s)
          | _ => None
          end
      | _ => None
      end
  | LDropTimeout _ => match s_drop s with Locked => put (set_drop BeforeCleanup s) | _ => None end
  | _ => None
  end.

Definition label_id (l : label) : nat :=
  match l with
  | LPersist _ | LBroadcast _ | LBroadcastFail => 0
  | LSubscribe id _ | LPlay id | LPlayDone id | LPlayFail id | LPlayEnd id | LAdd id | LReceive id
  | LForward id | LForwardDone id | LReturn id | LCleanup id | LDrop id | LDropTimeout id => id
  end.

(** [Subscribe] up to the start of its goroutine. *)
Definition Subscribe (id : nat) (since : option Z) (em : EventManager) : EventManager :=
  match since with
  | None =>
      addSubscriber id (update id (mkSub None [] false true false Direct NotCleaned NotDropped [] false) em)
  | Some c =>
      update id (mkSub since [] false true false (Playing c c (length (log em))) NotCleaned NotDropped [] false) em
  end.

(** [Persist] gives the event the next number. *)
Definition em_step (em : EventManager) (l : label) : option EventManager :=
  if panicked em then None
  else
    match l with
    | LPersist evt =>
        match pending em with
        | None => if last_seq (log em) <? eseq evt then Some (set_log (log em ++ [evt]) (Some evt) em) else None
        | Some _ => None
        end
    | LBroadcast choices =>
        match pending em with Some evt => broadcastEvent evt choices em | None => None end
    | LBroadcastFail =>
        match pending em with Some _ => Some (set_pending None em) | None => None end
    | LSubscribe id since =>
        match subscribers em !! id with None => Some (Subscribe id since em) | Some _ => None end
    | l => match subscribers em !! label_id l with Some s => step_sub em (label_id l) s l | None => None end
    end.

Fixpoint em_run (em : EventManager) (ls : list label) : option EventManager :=
  match ls with
  | [] => Some em
  | l :: ls => match em_step em l with Some em => em_run em ls | None => None end
  end.
