(* ===== verification/EventMgrProofs.v ===== *)
(** * What subscribers of the event manager receive

    Two invariants of the steps of [EventMgr.v].  [em_ok] holds in every
    reachable state: the log is in order, [em.subs] has no duplicates, and only
    subscribers past their first playback are in it.  [stream_ok], for one
    subscriber, relates what it was sent, what its channel holds and where its
    goroutine is to positions in the log; it holds from [Subscribe] on until the
    subscriber is closed by its own [cleanup]. *)

From S2P Require Import Prelude GoStrings Stream EventMgr.
Local Open Scope Z_scope.

(** ** Slices of the log *)

Definition slice {A} (b p : nat) (l : list A) : list A := take (p - b) (drop b l).

Section slices.
Context {A : Type}.
Implicit Types l : list A.

Lemma slice_nil b l : slice b b l = [].
Proof. unfold slice. by rewrite Nat.sub_diag. Qed.

Lemma slice_app b p l l' : (p <= length l)%nat → slice b p (l ++ l') = slice b p l.
Proof.
  intros Hp. unfold slice. destruct (decide (b <= length l)%nat).
  - rewrite drop_app_le by done. apply take_app_le. rewrite length_drop. lia.
  - replace (p - b)%nat with 0%nat by lia. by rewrite !take_0.
Qed.

Lemma slice_S b p l e : l !! p = Some e → (b <= p)%nat → slice b (S p) l = slice b p l ++ [e].
Proof.
  intros He Hb. unfold slice. replace (S p - b)%nat with (S (p - b)) by lia.
  apply take_S_r. rewrite lookup_drop. by replace (b + (p - b))%nat with p by lia.
Qed.

Lemma slice_cons n q l e rest : slice n q l = e :: rest →
  (n < q)%nat ∧ l !! n = Some e ∧ rest = slice (S n) q l.
Proof.
  unfold slice. intros H. destruct (q - n)%nat as [|k] eqn:Hk; [done|].
  destruct (drop n l) as [|x r] eqn:Hd; [done|]. simpl in H. simplify_eq.
  split; [lia|]. split.
  - rewrite <- (Nat.add_0_r n), <- lookup_drop. by rewrite Hd.
  - replace (q - S n)%nat with k by lia. f_equal.
    replace (S n) with (n + 1)%nat by lia. rewrite <- drop_drop, Hd. done.
Qed.

Lemma length_slice b p l : (p <= length l)%nat → length (slice b p l) = (p - b)%nat.
Proof. intros. unfold slice. rewrite length_take, length_drop. lia. Qed.

(** What is left of a slice is one. *)
Lemma slice_prefix b q l k1 k2 t : (q <= length l)%nat → (b <= q)%nat →
  k1 ++ k2 = slice b q l ++ t →
  ∃ p t1, (b <= p <= q)%nat ∧ k1 = slice b p l ++ t1 ∧ t1 `prefix_of` t ∧ (t1 = [] ∨ p = q).
Proof.
  intros Hq Hb H. destruct (decide (length k1 <= q - b)%nat) as [Hk|Hk].
  - exists (b + length k1)%nat, []. split; [lia|]. split; [|split; [apply prefix_nil|by left]].
    rewrite app_nil_r. apply (f_equal (take (length k1))) in H. rewrite take_app_length in H.
    rewrite take_app_le in H by (rewrite length_slice; lia). rewrite H at 1. unfold slice. rewrite take_take.
    f_equal. lia.
  - pose proof (length_slice b q l Hq) as Hlen. exists q, (drop (q - b) k1). split; [lia|]. split.
    + apply (f_equal (take (q - b))) in H. rewrite take_app_le in H by lia.
      rewrite take_app_le, <- Hlen, firstn_all in H by lia. rewrite <- H at 1. rewrite Hlen. symmetry. apply take_drop.
    + apply (f_equal (drop (q - b))) in H. rewrite drop_app_le in H by lia. rewrite <- Hlen, drop_app_length in H.
      rewrite <- H, Hlen. split; [by exists k2|by right].
Qed.

(** [k] is what is in [l] from [b] on, up to [q], less at most one run, none
    unless [cut], and then [t]. *)
Definition gapped (cut : bool) b q l t k : Prop :=
  ∃ p n, k = slice b p l ++ slice n q l ++ t ∧ (b <= p <= n)%nat ∧ (n <= q)%nat ∧ (cut = false → p = n).

Lemma gapped_prefix cut b q l k1 k2 t : (q <= length l)%nat → gapped cut b q l t (k1 ++ k2) →
  ∃ q' t1, gapped cut b q' l t1 k1 ∧ (b <= q' <= q)%nat ∧ t1 `prefix_of` t.
Proof.
  intros Hq (p & n & H & Hp & Hn & Hc). apply slice_prefix in H as (p' & t1 & Hp' & -> & [k H] & Ht1); [|lia..].
  destruct Ht1 as [->| ->].
  - exists p', []. split; [|split; [lia|apply prefix_nil]]. exists p', p'. rewrite slice_nil. split_and!; (done || lia).
  - symmetry in H. apply slice_prefix in H as (q' & t2 & Hq' & -> & Ht2 & _); [|lia..].
    exists q', t2. split; [|split; [lia|done]]. exists p, n. split_and!; (done || lia).
Qed.

Lemma gapped_slice cut b q l t : (b <= q)%nat → gapped cut b q l t (slice b q l ++ t).
Proof. intros Hq. exists q, q. rewrite slice_nil. split_and!; (done || lia). Qed.

Lemma gapped_app cut b q l l' t k : (q <= length l)%nat → gapped cut b q l t k → gapped cut b q (l ++ l') t k.
Proof. intros Hq (p & n & -> & H). exists p, n. rewrite !slice_app by lia. done. Qed.

Lemma gapped_snoc cut b q l k e : l !! q = Some e → gapped cut b q l [] k → gapped cut b (S q) l [] (k ++ [e]).
Proof.
  intros He (p & n & -> & Hp & Hn & Hc). exists p, n. rewrite (slice_S n q l e), !app_nil_r, <- app_assoc by done.
  split_and!; (done || lia).
Qed.
End slices.

(** ** The log and cursors into it *)

Definition log_ok (l : list event) : Prop := StronglySorted Z.lt (0 :: map (λ e, eseq e) l).

Lemma log_ok_lookup l : log_ok l → ∀ i e, l !! i = Some e → 0 < eseq e.
Proof.
  intros [_ Hf]%StronglySorted_inv i e He. rewrite Forall_map, Forall_lookup in Hf. by eapply Hf.
Qed.

Lemma log_ok_last l : log_ok l → ∀ i e, l !! i = Some e → eseq e ≤ last_seq l.
Proof.
  intros [Hs _]%StronglySorted_inv i e He. unfold last_seq. destruct (last l) as [x|] eqn:Hl.
  - apply last_Some in Hl as [k ->]. rewrite map_app in Hs. apply StronglySorted_snoc in Hs as [_ Hs].
    rewrite Forall_map, Forall_lookup in Hs. apply lookup_app_Some in He as [He|[_ He]].
    + specialize (Hs i e He). cbv beta in Hs. lia.
    + apply list_lookup_singleton_Some in He as [_ <-]. done.
  - apply last_None in Hl. by subst.
Qed.

Lemma log_ok_last_nonneg l : log_ok l → 0 ≤ last_seq l.
Proof.
  intros Hl. unfold last_seq. destruct (last l) as [x|] eqn:H; [|done].
  rewrite last_lookup in H. apply (log_ok_lookup l Hl) in H. lia.
Qed.

Lemma log_last_snoc l e : last_seq (l ++ [e]) = eseq e.
Proof. unfold last_seq. by rewrite last_snoc. Qed.

Lemma log_ok_snoc l e : log_ok l → last_seq l < eseq e → log_ok (l ++ [e]).
Proof.
  intros Hl He. pose proof (log_ok_last l Hl) as Hlast. pose proof (log_ok_last_nonneg l Hl).
  unfold log_ok in *. rewrite map_app, app_comm_cons. apply StronglySorted_snoc. split; [done|].
  constructor; [lia|]. rewrite Forall_map, Forall_lookup. intros i x Hx. specialize (Hlast i x Hx). lia.
Qed.

Lemma log_ok_lt l : log_ok l → ∀ i j ei ej, (i < j)%nat → l !! i = Some ei → l !! j = Some ej → eseq ei < eseq ej.
Proof.
  intros Hl i j ei ej Hij Hi Hj. apply StronglySorted_inv in Hl as [Hs _].
  rewrite <- (take_drop_middle l j ej Hj), map_app in Hs. simpl in Hs.
  change (map ?f ?a ++ ?x :: ?b) with (map f a ++ ([x] ++ b)) in Hs. rewrite app_assoc in Hs.
  assert (StronglySorted Z.lt (map (λ e, eseq e) (take j l) ++ [eseq ej])) as Hs'
    by (eapply StronglySorted_sublist; [|exact Hs]; apply sublist_inserts_r; reflexivity).
  apply StronglySorted_snoc in Hs' as [_ Hf]. rewrite Forall_map, Forall_lookup in Hf.
  eapply Hf. by rewrite lookup_take_lt.
Qed.

(** The cursor [pos] is after the first [p] events. *)
Record cursor_at (pos : Z) (p : nat) (l : list event) : Prop := {
  ca_len : (p <= length l)%nat;
  ca_last : pos ≤ last_seq l;
  ca_iff : ∀ i e, l !! i = Some e → eseq e ≤ pos ↔ (i < p)%nat;
}.

Lemma cursor_at_snoc pos p l e : cursor_at pos p l → last_seq l < eseq e → cursor_at pos p (l ++ [e]).
Proof.
  intros [H1 H2 H3] He. split; [rewrite length_app; simpl; lia|rewrite log_last_snoc; lia|].
  intros i x [Hx|[Hi Hx]]%lookup_app_Some; [by apply H3|].
  apply list_lookup_singleton_Some in Hx as [Hi' <-]. lia.
Qed.

Lemma cursor_at_event l p e : log_ok l → l !! p = Some e → cursor_at (eseq e) (S p) l.
Proof.
  intros Hl He. split; [apply lookup_lt_Some in He; lia|by eapply log_ok_last|].
  intros i x Hx. destruct (decide (i = p)) as [->|]; [simplify_eq; lia|].
  destruct (decide (i < p)%nat).
  - pose proof (log_ok_lt l Hl i p x e ltac:(lia) Hx He). lia.
  - pose proof (log_ok_lt l Hl p i e x ltac:(lia) He Hx). lia.
Qed.

Lemma find_lookup {A} (f : A → bool) (l : list A) e : List.find f l = Some e →
  ∃ i, l !! i = Some e ∧ f e = true ∧ ∀ j x, (j < i)%nat → l !! j = Some x → f x = false.
Proof.
  induction l as [|y l IH]; simpl; [done|]. destruct (f y) eqn:Hy; intros H; simplify_eq.
  - exists 0%nat. split; [done|]. split; [done|]. intros j x ?. lia.
  - destruct (IH H) as (i & Hi & Hf & Hj). exists (S i). split; [done|]. split; [done|].
    intros [|j] x Hlt Hx; simpl in Hx; [by simplify_eq|]. apply (Hj j x); [lia|done].
Qed.

Lemma next_event_lookup pos p l e : cursor_at pos p l → next_event pos l = Some e → l !! p = Some e.
Proof.
  intros [Hlen _ Hiff] (i & Hi & Hf & Hj)%find_lookup. bool_to_prop.
  destruct (decide (i = p)) as [->|]; [done|].
  assert (¬ (i < p)%nat) by (rewrite <- (Hiff i e Hi); lia).
  destruct (lookup_lt_is_Some_2 l p) as [x Hx]; [apply lookup_lt_Some in Hi; lia|].
  specialize (Hj p x ltac:(lia) Hx). bool_to_prop. apply (Hiff p x Hx) in Hj. lia.
Qed.

Lemma played_all pos p start l : cursor_at pos p l → (start <= length l)%nat → played pos start l = true → (start <= p)%nat.
Proof.
  intros [Hlen _ Hiff] Hst Hp. unfold played in Hp. apply negb_true_iff in Hp.
  destruct start as [|k]; [lia|]. destruct (lookup_lt_is_Some_2 l k) as [x Hx]; [lia|].
  destruct (decide (pos < eseq x)) as [Hlt|Hge]; [|assert (eseq x ≤ pos) as H by lia; apply (Hiff k x Hx) in H; lia].
  assert (existsb (λ e, pos <? eseq e) (take (S k) l) = true) as Hc; [|congruence].
  apply existsb_exists. exists x. split; [|by apply Z.ltb_lt].
  apply list_elem_of_In. apply list_elem_of_lookup. exists k. rewrite lookup_take_lt by lia. done.
Qed.

(** ** [em.subs] *)

Lemma replace_first_perm id x l : id ∈ l → id :: replace_first id x l ≡ₚ x :: l.
Proof.
  induction l as [|y l IH]; [by intros ?%not_elem_of_nil|]. simpl. destruct (y =? id)%nat eqn:Hy; bool_to_prop.
  - subst. intros _. apply perm_swap.
  - intros [->|Hin]%elem_of_cons; [done|]. rewrite perm_swap, IH by done. apply perm_swap.
Qed.

Lemma replace_first_app id x l k : id ∈ l → replace_first id x (l ++ k) = replace_first id x l ++ k.
Proof.
  induction l as [|y l IH]; [by intros ?%not_elem_of_nil|]. simpl. destruct (y =? id)%nat eqn:Hy; bool_to_prop; [done|].
  intros [->|Hin]%elem_of_cons; [done|]. by rewrite IH.
Qed.

Lemma replace_first_notin id x l k : id ∉ l → replace_first id x (l ++ k) = l ++ replace_first id x k.
Proof.
  induction l as [|y l IH]; [done|]. intros [Hne Hin]%not_elem_of_cons. simpl.
  destruct (y =? id)%nat eqn:Hy; bool_to_prop; [congruence|]. by rewrite IH.
Qed.

Lemma rm_perm id l : id ∈ l → id :: rm id l ≡ₚ l.
Proof.
  intros Hin. unfold rm. rewrite bool_decide_eq_true_2 by done. destruct (last l) as [x|] eqn:Hl.
  - apply last_Some in Hl as [k ->]. destruct (decide (id ∈ k)) as [Hk|Hk].
    + rewrite replace_first_app, removelast_last by done. rewrite replace_first_perm by done.
      apply Permutation_cons_append.
    + rewrite replace_first_notin by done. apply elem_of_app in Hin as [?|Hx]; [done|].
      apply list_elem_of_singleton in Hx as ->.
      simpl. rewrite Nat.eqb_refl, removelast_last. apply Permutation_cons_append.
  - apply last_None in Hl as ->. by apply not_elem_of_nil in Hin.
Qed.

Lemma rm_NoDup id l : NoDup l → NoDup (rm id l) ∧ id ∉ rm id l.
Proof.
  intros Hl. destruct (decide (id ∈ l)) as [Hin|Hin].
  - rewrite <- (rm_perm id l Hin) in Hl. by apply NoDup_cons in Hl as [? ?].
  - unfold rm. by rewrite bool_decide_eq_false_2.
Qed.

Lemma elem_of_rm id j l : NoDup l → j ∈ rm id l ↔ j ∈ l ∧ j ≠ id.
Proof.
  intros Hl. destruct (rm_NoDup id l Hl) as [_ Hn]. destruct (decide (id ∈ l)) as [Hin|Hin].
  - rewrite <- (rm_perm id l Hin) at 2. rewrite elem_of_cons. split; [|naive_solver].
    intros Hj. split; [by right|]. by intros ->.
  - unfold rm. rewrite bool_decide_eq_false_2 by done. split; [|naive_solver]. intros Hj. split; [done|]. by intros ->.
Qed.

(** ** What holds of every subscriber *)

Definition added (p : pc) : bool :=
  match p with Direct | Waiting _ | Replaying _ _ _ | Copying _ | Returning => true | _ => false end.

Definition backlog (p : pc) : bool := match p with Playing _ _ _ | Adding _ => true | _ => false end.

Record sub_ok (inn : Prop) (s : Subscriber) : Prop := {
  so_closed : s_closed s = true → s_cleanup s = CleanedUp;
  so_done : s_cleanup s ≠ NotCleaned → s_done s = true;
  so_drop : s_drop s ≠ NotDropped → s_filter s = false;
  so_added : inn → added (s_pc s) = true;
  so_since : s_since s = None → s_pc s = Direct;
  so_in : s_since s = None → inn → s_cleanup s = NotCleaned ∨ s_cleanup s = DoneClosed;
  so_backlog : backlog (s_pc s) = true → s_outgoing s = [] ∧ s_filter s = true;
}.

Record em_ok (em : EventManager) : Prop := {
  eo_log : log_ok (log em);
  eo_pending : ∀ e, pending em = Some e → last (log em) = Some e;
  eo_buf : 0 < bufferSize em;
  eo_nodup : NoDup (subs em);
  eo_subs : ∀ id, id ∈ subs em → is_Some (subscribers em !! id);
  eo_sub : ∀ id s, subscribers em !! id = Some s → sub_ok (id ∈ subs em) s;
  eo_panic : panicked em = true → ∃ id s, subscribers em !! id = Some s ∧ id ∈ subs em ∧ s_closed s = true ∧ s_since s ≠ None;
}.

Lemma sub_ok_iff (P Q : Prop) s : (Q → P) → sub_ok P s → sub_ok Q s.
Proof. intros HQP []. split; auto. Qed.

(** Replacing one subscriber, with [em.subs] changed at it alone. *)
Lemma em_ok_update id s l em : em_ok em → panicked em = false →
  NoDup l → (∀ j, j ≠ id → j ∈ l ↔ j ∈ subs em) → sub_ok (id ∈ l) s → em_ok (set_subs l (update id s em)).
Proof.
  intros [H1 H2 H3 H4 H5 H6 H7] Hp Hl Hj Hs. split; simpl; try done.
  - intros j Hin. destruct (decide (j = id)) as [->|Hne]; [by rewrite lookup_insert_eq; eauto|].
    rewrite lookup_insert_ne by done. apply H5. by apply Hj.
  - intros j x. destruct (decide (j = id)) as [->|Hne]; [rewrite lookup_insert_eq; by intros; simplify_eq|].
    rewrite lookup_insert_ne by done. intros Hx. eapply sub_ok_iff; [|by apply H6]. by apply Hj.
  - congruence.
Qed.

Lemma em_ok_put id s em : em_ok em → panicked em = false → sub_ok (id ∈ subs em) s → em_ok (update id s em).
Proof. intros Hok Hp Hs. apply (em_ok_update id s (subs em) em); [done|done|apply Hok|done|done]. Qed.

Lemma em_ok_add id s em : em_ok em → panicked em = false → id ∉ subs em → sub_ok True s → em_ok (addSubscriber id (update id s em)).
Proof.
  intros Hok Hp Hin Hs. apply (em_ok_update id s (subs em ++ [id]) em); [done|done|..].
  - apply NoDup_app. split; [apply Hok|]. split; [|apply NoDup_singleton].
    intros j Hj Hx. apply list_elem_of_singleton in Hx as ->. done.
  - intros j Hne. rewrite elem_of_app, list_elem_of_singleton. naive_solver.
  - by eapply sub_ok_iff; [|exact Hs].
Qed.

Lemma em_ok_rm id s em : em_ok em → panicked em = false → sub_ok False s → em_ok (rmSubscriber id (update id s em)).
Proof.
  intros Hok Hp Hs. pose proof (eo_nodup _ Hok) as Hnd.
  apply (em_ok_update id s (rm id (subs em)) em); [done|done|by apply rm_NoDup|..].
  - intros j Hne. rewrite elem_of_rm by done. naive_solver.
  - eapply sub_ok_iff; [|exact Hs]. by apply rm_NoDup.
Qed.

Lemma offer_ok size evt c s s' (P : Prop) : P → sub_ok P s → offer size evt c s = Some (s', false) → sub_ok P s'.
Proof.
  intros HP [H1 H2 H3 H4 H5 H6 H7] Ho. unfold offer in Ho. pose proof (H4 HP) as Hadd.
  assert (backlog (s_pc s) = false) as Hb by (by destruct (s_pc s)).
  case_go_in Ho; try done; split; simpl; try done; first [congruence | by rewrite Hb].
Qed.

Lemma offer_panic size evt c s s' (P : Prop) : P → sub_ok P s → offer size evt c s = Some (s', true) →
  s_closed s = true ∧ s_since s ≠ None.
Proof.
  intros HP [H1 H2 H3 H4 H5 H6 H7] Ho. unfold offer in Ho. case_go_in Ho; try done.
  split; [done|]. intros Hn. rewrite H1 in H6 by done. by destruct (H6 Hn HP).
Qed.

Lemma broadcast_ok evt ch ids : ∀ em em', em_ok em → panicked em = false → (∀ id, id ∈ ids → id ∈ subs em) →
  broadcast evt ch ids em = Some em' → em_ok em'.
Proof.
  induction ids as [|id ids IH]; intros em em' Hok Hp Hsub Hb; simpl in Hb; [by simplify_eq|].
  destruct (subscribers em !! id) as [s|] eqn:Hs; [|done].
  assert (id ∈ subs em) as Hin by (apply Hsub; by left).
  destruct (offer _ _ _ _) as [[s' [|]]|] eqn:Ho; simplify_eq.
  - pose proof (offer_panic _ _ _ _ _ _ Hin (eo_sub _ Hok id s Hs) Ho) as [Hc Hn].
    destruct Hok. split; simpl; try done. intros _. by exists id, s.
  - apply (IH (update id s' em) em'); [|done|set_solver|done].
    apply em_ok_put; [done|done|]. by eapply offer_ok; [|apply Hok|].
Qed.

(** What a broadcast that does not panic does to each subscriber. *)
Lemma broadcast_frame evt ch ids : ∀ em em', broadcast evt ch ids em = Some em' →
  log em' = log em ∧ pending em' = pending em ∧ subs em' = subs em ∧ bufferSize em' = bufferSize em.
Proof.
  induction ids as [|id ids IH]; intros em em' Hb; simpl in Hb; [by simplify_eq|].
  case_go_in Hb; try done. by apply IH in Hb.
Qed.

Lemma broadcast_other evt ch ids id : ∀ em em', id ∉ ids → broadcast evt ch ids em = Some em' →
  subscribers em' !! id = subscribers em !! id.
Proof.
  induction ids as [|j ids IH]; intros em em' Hin Hb; simpl in Hb; [by simplify_eq|].
  apply not_elem_of_cons in Hin as [Hne Hin]. case_go_in Hb; try done. apply IH in Hb; [|done].
  rewrite Hb. simpl. by rewrite lookup_insert_ne.
Qed.

Lemma broadcast_one evt ch ids id : ∀ em em', NoDup ids → id ∈ ids → broadcast evt ch ids em = Some em' →
  panicked em' = false →
  ∃ s s', subscribers em !! id = Some s ∧ offer (bufferSize em) evt (ch id) s = Some (s', false) ∧ subscribers em' !! id = Some s'.
Proof.
  induction ids as [|j ids IH]; intros em em' Hnd Hin Hb Hp; [by apply not_elem_of_nil in Hin|].
  apply NoDup_cons in Hnd as [Hj Hnd]. simpl in Hb.
  destruct (subscribers em !! j) as [s|] eqn:Hs; [|done].
  destruct (offer _ _ _ _) as [[s' [|]]|] eqn:Ho; simplify_eq/=.
  apply elem_of_cons in Hin as [->|Hin].
  - exists s, s'. split; [done|]. split; [done|]. erewrite broadcast_other; [|exact Hj|exact Hb].
    simpl. by rewrite lookup_insert_eq.
  - apply IH in Hb as (s1 & s2 & Hs1 & Ho2 & Hs2); [|done..]. simpl in *.
    rewrite lookup_insert_ne in Hs1 by (by intros ->). eauto.
Qed.

(** ** Every reachable state is [em_ok] *)

Lemma NewEventManager_ok l : log_ok l → em_ok (NewEventManager l).
Proof.
  intros Hl. split; unfold NewEventManager; cbn [log pending subs subscribers panicked bufferSize];
    first [done | by constructor | by intros ? ?%not_elem_of_nil].
Qed.

(** Use the implications whose premises are at hand. *)
Ltac chain :=
  repeat match goal with
  | H : ?P → _, H' : ?P |- _ => specialize (H H')
  | H : ?x = ?x → _ |- _ => specialize (H eq_refl)
  | H : ?x ≠ ?y → _ |- _ => specialize (H ltac:(congruence))
  end.

Lemma step_sub_ok em id s l em' : em_ok em → panicked em = false → subscribers em !! id = Some s →
  step_sub em id s l = Some em' → em_ok em'.
Proof.
  intros Hok Hp Hs Hst. pose proof (eo_sub _ Hok id s Hs) as Hso. pose proof Hso as [H1 H2 H3 H4 H5 H6 H7].
  destruct l; simpl in Hst; try done; case_go_in Hst; try done;
    first [apply em_ok_rm; [done|done|] | apply em_ok_add; [done|done| |] | apply em_ok_put; [done|done|]];
    try (split; simpl in *; intros; chain; destruct_and?;
         first [done | congruence | by auto | destruct_or?; congruence | by simplify_eq/=]).
  - intros Hin. by specialize (H4 Hin).
  - match goal with H : s_pc _ = Direct |- _ => split; simpl; rewrite ?H; done end.
Qed.

Lemma Subscribe_ok id since em : em_ok em → panicked em = false → subscribers em !! id = None → em_ok (Subscribe id since em).
Proof.
  intros Hok Hp Hid. assert (id ∉ subs em) as Hin.
  { intros Hin. apply (eo_subs _ Hok) in Hin as [s Hs]. congruence. }
  destruct since as [c|]; [apply em_ok_put|apply em_ok_add]; try done; split; simpl; try done; auto.
Qed.

Lemma em_step_ok em l em' : em_ok em → em_step em l = Some em' → em_ok em'.
Proof.
  intros Hok Hst. unfold em_step in Hst. destruct (panicked em) eqn:Hp; [done|].
  destruct l as [evt|ch| |id since|id|id|id|id|id|id|id|id|id|id|id|id]; cbn [label_id] in Hst;
    try (destruct (subscribers em !! id) as [s|] eqn:Hs; [by eapply step_sub_ok|done]).
  - destruct (pending em) eqn:Hpe; [done|]. destruct (_ <? _) eqn:Hlt; simplify_eq. bool_to_prop.
    destruct Hok. split; simpl; try done; [by apply log_ok_snoc|]. intros e ?. simplify_eq. apply last_snoc.
  - destruct (pending em) as [evt|] eqn:Hpe; [|done].
    eapply (broadcast_ok evt ch (subs em) (set_pending None em)); [|done|done|exact Hst].
    destruct Hok. by split.
  - destruct (pending em); simplify_eq. destruct Hok. by split.
  - destruct (subscribers em !! id) eqn:Hs; [done|]. simplify_eq. by apply Subscribe_ok.
Qed.

Lemma em_run_ok ls : ∀ em em', em_ok em → em_run em ls = Some em' → em_ok em'.
Proof.
  induction ls as [|l ls IH]; intros em em' Hok Hr; simpl in Hr; [by simplify_eq|].
  destruct (em_step em l) as [em1|] eqn:Hst; [|done]. eapply IH; [|exact Hr]. by eapply em_step_ok.
Qed.

(** ** What one subscriber is sent *)

(** Events of the log that were broadcast. *)
Definition broadcasts (em : EventManager) : nat := (length (log em) - length (option_list (pending em)))%nat.

(** The frame for a slow consumer comes last, once it is dropped. *)
Definition tail_ok (s : Subscriber) (t : list event) : Prop :=
  t = [] ∨ (t = [ConsumerTooSlow] ∧ (s_drop s = BeforeCleanup ∨ s_drop s = Dropped)).

(** The channel was given the events before [q]; all, unless it was dropped. *)
Definition queued (B : nat) (s : Subscriber) (q : nat) : Prop := (q <= B)%nat ∧ (s_filter s = true → q = B).

Definition phase (l : list event) (B base : nat) (s : Subscriber) : Prop :=
  match s_pc s with
  | Playing pos lastSeq _ =>
      lastSeq = pos ∧ ∃ p, s_sent s = slice base p l ∧ (base <= p)%nat ∧ cursor_at pos p l
  | Adding lastSeq =>
      ∃ p, s_sent s = slice base p l ∧ (base <= p)%nat ∧ cursor_at lastSeq p l
  | Waiting lastSeq =>
      ∃ p n q t, s_sent s = slice base p l ∧ (base <= p <= S n)%nat ∧ cursor_at lastSeq p l ∧
        s_outgoing s = slice n q l ++ t ∧ (n <= q)%nat ∧ queued B s q ∧ tail_ok s t ∧ (s_filter s = false → (n < q)%nat)
  | Replaying None _ _ => False
  | Replaying (Some first) pos start =>
      ∃ p n q t, s_sent s = slice base p l ∧ (base <= p <= S n)%nat ∧ cursor_at pos p l ∧
        s_outgoing s = slice (S n) q l ++ t ∧ (S n <= q)%nat ∧ queued B s q ∧ tail_ok s t ∧
        l !! n = Some first ∧ (n < start <= length l)%nat
  | Direct =>
      ∃ q t, s_sent s ++ s_outgoing s = slice base q l ++ t ∧ (base <= q)%nat ∧ queued B s q ∧ tail_ok s t
  | Copying held =>
      ∃ q t, gapped (s_cut s) base q l t (s_sent s ++ option_list held ++ s_outgoing s) ∧ (base <= q)%nat ∧ queued B s q ∧ tail_ok s t
  | Returning | Returned =>
      ∃ q t, gapped (s_cut s) base q l t (s_sent s) ∧ (base <= q <= length l)%nat ∧ tail_ok s t
  end.

(** Closed by its own [cleanup], not as a slow consumer: what is still in flight
    may then be skipped. *)
Definition abandoned (s : Subscriber) : bool := s_done s && s_filter s.

Definition listening (p : pc) : bool :=
  match p with Direct | Waiting _ | Replaying _ _ _ | Copying _ => true | _ => false end.

Definition stream_ok (base : nat) (em : EventManager) (id : nat) : Prop :=
  ∃ s, subscribers em !! id = Some s ∧
    (abandoned s = false →
       phase (log em) (broadcasts em) base s ∧ (s_filter s = true → listening (s_pc s) = true → id ∈ subs em)).

Lemma slice_join {A} b m q (l : list A) : (b <= m <= q)%nat → slice b m l ++ slice m q l = slice b q l.
Proof.
  intros H. unfold slice. replace (drop m l) with (drop (m - b) (drop b l)) by (rewrite drop_drop; f_equal; lia).
  replace (q - m)%nat with ((q - b) - (m - b))%nat by lia.
  rewrite (take_drop_commute (drop b l) (q - b - (m - b)) (m - b)). replace (m - b + (q - b - (m - b)))%nat with (q - b)%nat by lia.
  replace (take (m - b) (drop b l)) with (take (m - b) (take (q - b) (drop b l))) by (rewrite take_take; f_equal; lia).
  apply take_drop.
Qed.

Lemma slice_head {A} n q (l t : list A) e rest : slice n q l ++ t = e :: rest → (n < q <= length l)%nat →
  l !! n = Some e ∧ rest = slice (S n) q l ++ t.
Proof.
  intros H Hq. destruct (slice n q l) as [|x r] eqn:Hs.
  - apply (f_equal length) in Hs. rewrite length_slice in Hs by lia. simpl in Hs. lia.
  - simpl in H. simplify_eq. apply slice_cons in Hs as (_ & Hn & ->). done.
Qed.

(** The phase does not look past the log it was in. *)
Lemma phase_snoc l B base s e : (B <= length l)%nat → last_seq l < eseq e → phase l B base s → phase (l ++ [e]) B base s.
Proof.
  intros HB He. unfold phase, queued.
  destruct (s_pc s) as [|pos lastSeq start|lastSeq|lastSeq|[f|] pos start|h| |]; [..|done| | |].
  - intros (q & t & H1 & H2 & [H3 H3'] & H4). exists q, t. rewrite slice_app by lia. done.
  - intros [-> (p & H1 & H2 & H3)]. split; [done|]. exists p. pose proof (ca_len _ _ _ H3).
    rewrite slice_app by lia. split; [done|]. split; [done|]. by apply cursor_at_snoc.
  - intros (p & H1 & H2 & H3). exists p. pose proof (ca_len _ _ _ H3).
    rewrite slice_app by lia. split; [done|]. split; [done|]. by apply cursor_at_snoc.
  - intros (p & n & q & t & H1 & H2 & H3 & H4 & H5 & [H6 H6'] & H7). pose proof (ca_len _ _ _ H3).
    exists p, n, q, t. rewrite !slice_app by lia. pose proof (cursor_at_snoc _ _ _ e H3 He). done.
  - intros (p & n & q & t & H1 & H2 & H3 & H4 & H5 & [H6 H6'] & H7 & H8 & H9). pose proof (ca_len _ _ _ H3).
    exists p, n, q, t. rewrite !slice_app by lia. pose proof (cursor_at_snoc _ _ _ e H3 He).
    rewrite length_app; simpl. rewrite lookup_app_l by (apply lookup_lt_Some in H8; lia). split_and!; try done; lia.
  - intros (q & t & H1 & H2 & [H3 H3'] & H4). exists q, t. split; [apply gapped_app; [lia|done]|done].
  - intros (p & t & H1 & H2 & H3). exists p, t. rewrite length_app. split_and!; [by apply gapped_app; [lia|]|lia|simpl; lia|done].
  - intros (p & t & H1 & H2 & H3). exists p, t. rewrite length_app. split_and!; [by apply gapped_app; [lia|]|lia|simpl; lia|done].
Qed.

Lemma phase_later l B B' base s : (B <= B')%nat → s_filter s = false ∨ listening (s_pc s) = false →
  phase l B base s → phase l B' base s.
Proof.
  intros HB Hc. unfold phase, queued.
  destruct (s_pc s) as [|pos lastSeq start|lastSeq|lastSeq|[f|] pos start|h| |]; simpl in Hc; try done;
    destruct Hc as [Hc|?]; try done; rewrite Hc.
  - intros (q & t & H1 & H2 & [H3 _] & H4). exists q, t. split_and!; try done; lia.
  - intros (p & n & q & t & H1 & H2 & H3 & H4 & H5 & [H6 _] & H7). exists p, n, q, t. split_and!; try done; naive_solver lia.
  - intros (p & n & q & t & H1 & H2 & H3 & H4 & H5 & [H6 _] & H7). exists p, n, q, t. split_and!; try done; naive_solver lia.
  - intros (q & t & H1 & H2 & [H3 _] & H4). exists q, t. split_and!; try done; lia.
Qed.

Lemma tail_ok_live (P : Prop) s t : sub_ok P s → s_filter s = true → tail_ok s t → t = [].
Proof.
  intros Hso Hf [->|[-> Hd]]; [done|]. pose proof (so_drop _ _ Hso) as Hdr.
  rewrite Hf in Hdr. destruct Hd as [Hd|Hd]; rewrite Hd in Hdr; by discriminate Hdr.
Qed.

(** The channel takes the event. *)
Lemma phase_send l B base s evt : sub_ok True s → l !! B = Some evt → s_filter s = true →
  phase l B base s → phase l (S B) base (set_outgoing (s_outgoing s ++ [evt]) s).
Proof.
  intros Hso He Hf Hph. pose proof (so_added _ _ Hso I) as Hadd. pose proof (λ t, tail_ok_live True s t Hso Hf) as Ht.
  unfold phase, queued, set_outgoing in *; simpl in *.
  destruct (s_pc s) as [|pos lastSeq start|lastSeq|lastSeq|[f|] pos start|h| |]; try done.
  - destruct Hph as (q & t & H1 & H2 & [H3 H3'] & H4). rewrite (H3' Hf) in *. apply Ht in H4 as ->.
    exists (S B), []. rewrite app_assoc, H1, (slice_S _ _ _ evt) by done. rewrite !app_nil_r. split_and!; try done; [lia|by left].
  - destruct Hph as (p & n & q & t & H1 & H2 & H3 & H4 & H5 & [H6 H6'] & H7 & H8).
    rewrite (H6' Hf) in *. apply Ht in H7 as ->.
    exists p, n, (S B), []. rewrite H4, (slice_S _ _ _ evt) by done. rewrite !app_nil_r. split_and!; try done; [lia..|by left|lia].
  - destruct Hph as (p & n & q & t & H1 & H2 & H3 & H4 & H5 & [H6 H6'] & H7 & H8).
    rewrite (H6' Hf) in *. apply Ht in H7 as ->.
    exists p, n, (S B), []. rewrite H4, (slice_S _ _ _ evt) by done. rewrite !app_nil_r.
    destruct H8 as [H8 H9]. split_and!; try done; [lia..|by left|lia|lia].
  - destruct Hph as (q & t & H1 & H2 & [H3 H3'] & H4). rewrite (H3' Hf) in *. apply Ht in H4 as ->.
    exists (S B), []. rewrite !app_assoc in *. split_and!; try done; [by apply gapped_snoc|lia|by left].
Qed.

(** The channel is full. *)
Lemma phase_drop l B base s : (B <= length l)%nat → sub_ok True s → s_filter s = true → s_outgoing s ≠ [] →
  phase l B base s → phase l (S B) base (drop_slow s).
Proof.
  intros HB Hso Hf Ho Hph. pose proof (λ t, tail_ok_live True s t Hso Hf) as Ht.
  unfold phase, queued, drop_slow, tail_ok in *; simpl in *.
  destruct (s_pc s) as [|pos lastSeq start|lastSeq|lastSeq|[f|] pos start|h| |]; try done.
  - destruct Hph as (q & t & H1 & H2 & [H3 _] & H4). apply Ht in H4 as ->.
    exists q, []. split_and!; try done; [lia|by left].
  - destruct Hph as (p & n & q & t & H1 & H2 & H3 & H4 & H5 & [H6 _] & H7 & H8). apply Ht in H7 as ->.
    assert (n < q)%nat as Hnq.
    { destruct (decide (n = q)) as [->|]; [|lia]. by rewrite slice_nil in H4. }
    exists p, n, q, []. split_and!; try done; [lia..|by left].
  - destruct Hph as (p & n & q & t & H1 & H2 & H3 & H4 & H5 & [H6 _] & H7 & H8 & H9). apply Ht in H7 as ->.
    exists p, n, q, []. split_and!; try done; [lia..|by left|lia|lia].
  - destruct Hph as (q & t & H1 & H2 & [H3 _] & H4). apply Ht in H4 as ->.
    exists q, []. split_and!; try done; [lia|by left].
  - destruct Hph as (p & t & H1 & H2 & H3). apply Ht in H3 as ->. exists p, []. split_and!; try done; [lia..|by left].
  - destruct Hph as (p & t & H1 & H2 & H3). apply Ht in H3 as ->. exists p, []. split_and!; try done; [lia..|by left].
Qed.

Lemma offer_stream size l B base evt c s s' : 0 < size → (B <= length l)%nat → sub_ok True s → l !! B = Some evt →
  offer size evt c s = Some (s', false) → (abandoned s = false → phase l B base s) →
  abandoned s' = false → phase l (S B) base s' ∧ s_pc s' = s_pc s ∧ (s_filter s' = true → s_filter s = true).
Proof.
  intros Hsz HB Hso He Ho Hph Hab. unfold offer in Ho. destruct (s_filter s) eqn:Hf; simpl in Ho.
  - assert (abandoned s = s_done s) as Has by (unfold abandoned; by rewrite Hf, andb_true_r).
    destruct c; case_go_in Ho; try done; bool_to_prop.
    + assert (abandoned s = false) as Ha.
      { unfold abandoned in *. simpl in Hab. by rewrite Hab. }
      split; [|done]. apply phase_send; auto.
    + unfold abandoned in Hab. rewrite Hf, andb_true_r in Hab. congruence.
    + split; [|done]. apply phase_drop; [done|done|done| |apply Hph; congruence].
      intros Hnil. rewrite Hnil in *. match goal with H : size ≤ _ |- _ => simpl in H; lia end.
  - simplify_eq. split; [|split; [done|congruence]]. apply (phase_later l B); [lia|by left|]. apply Hph.
    unfold abandoned. by rewrite Hf, andb_false_r.
Qed.
