(* ===== verification/EventMgrDelivery.v ===== *)
(** * The event manager delivers the log

    Every step keeps [stream_ok]: first the steps of the subscriber itself, label
    by label, then those of the log and of other subscribers.  From it, the
    theorems on what a subscriber receives, and runs that show what happens
    outside of their hypotheses. *)

From S2P Require Import Prelude GoStrings Stream EventMgr EventMgrProofs.
Local Open Scope Z_scope.

Section own_steps.
Context (base : nat) (em : EventManager) (id : nat) (s : Subscriber).
Hypothesis Hok : em_ok em.
Hypothesis Hs : subscribers em !! id = Some s.

Definition sub_stream (s : Subscriber) : Prop :=
  abandoned s = false →
  phase (log em) (broadcasts em) base s ∧ (s_filter s = true → listening (s_pc s) = true → id ∈ subs em).

Hypothesis Hst : sub_stream s.

Lemma stream_put s' : sub_stream s' → stream_ok base (update id s' em) id.
Proof. intros H. exists s'. split; [simpl; by rewrite lookup_insert_eq|]. exact H. Qed.

Lemma broadcasts_le : (broadcasts em <= length (log em))%nat.
Proof. unfold broadcasts. lia. Qed.

(** A step that leaves the flags alone and only changes the goroutine. *)
Lemma sub_stream_go s' : s_done s' = s_done s → s_filter s' = s_filter s →
  (listening (s_pc s') = true → listening (s_pc s) = true) →
  (abandoned s = false → phase (log em) (broadcasts em) base s → phase (log em) (broadcasts em) base s') →
  sub_stream s'.
Proof.
  intros Hd Hf Hl Hp Hab. assert (abandoned s = false) as Ha by (unfold abandoned in *; congruence).
  destruct (Hst Ha) as [Hph Hin]. split; [auto|]. rewrite Hf. auto.
Qed.

Lemma play_step em' : step_sub em id s (LPlay id) = Some em' → stream_ok base em' id.
Proof.
  simpl. pose proof (eo_log _ Hok) as Hlog.
  destruct (s_pc s) as [|pos lastSeq start|lastSeq|lastSeq|first pos start|h| |] eqn:Hpc; try done.
  - destruct (next_event _ _) as [e|] eqn:He; intros ?; simplify_eq. apply stream_put.
    apply sub_stream_go; [done|done|done|]. intros _. unfold phase. rewrite Hpc. simpl.
    intros [-> (p & H1 & H2 & H3)]. pose proof (next_event_lookup _ _ _ _ H3 He) as Hlk.
    split. { unfold advance. pose proof (log_ok_lookup _ Hlog _ _ Hlk). by rewrite (proj2 (Z.ltb_lt _ _)). }
    exists (S p). rewrite H1, (slice_S _ _ _ e) by done. split_and!; [done|lia|]. by apply cursor_at_event.
  - destruct (next_event _ _) as [e|] eqn:He; [|done].
    destruct (SequenceForEvent first <? _) eqn:Hlt; intros ?; simplify_eq. apply Z.ltb_ge in Hlt.
    apply stream_put. apply sub_stream_go; [done|done|by rewrite Hpc|]. intros _. unfold phase. rewrite Hpc. simpl.
    destruct first as [f|]; [|done]. intros (p & n & q & t & H1 & H2 & H3 & H4 & H5 & H6 & H7 & H8 & H9).
    pose proof (next_event_lookup _ _ _ _ H3 He) as Hlk. exists (S p), n, q, t.
    assert (p ≠ S n).
    { intros ->. pose proof (log_ok_lt _ Hlog n (S n) f e ltac:(lia) H8 Hlk). lia. }
    rewrite H1, (slice_S _ _ _ e) by (done || lia). split_and!; try done; try lia. by apply cursor_at_event.
Qed.

(** What was sent, in any phase. *)
Lemma phase_gapped : phase (log em) (broadcasts em) base s →
  ∃ q t, gapped (s_cut s) base q (log em) t (s_sent s) ∧ (base <= q <= length (log em))%nat ∧ tail_ok s t.
Proof.
  pose proof broadcasts_le as HB.
  assert (∀ p, s_sent s = slice base p (log em) → (base <= p <= length (log em))%nat →
    ∃ q t, gapped (s_cut s) base q (log em) t (s_sent s) ∧ (base <= q <= length (log em))%nat ∧ tail_ok s t) as Hplain.
  { intros p H1 H2. exists p, []. split; [|split; [done|by left]]. rewrite H1, <- (app_nil_r (slice base p (log em))). apply gapped_slice. lia. }
  assert (∀ q t k, gapped (s_cut s) base q (log em) t (s_sent s ++ k) → (q <= length (log em))%nat → tail_ok s t →
    ∃ q t, gapped (s_cut s) base q (log em) t (s_sent s) ∧ (base <= q <= length (log em))%nat ∧ tail_ok s t) as Hpart.
  { intros q t k Hg Hq Ht. apply gapped_prefix in Hg as (q' & t1 & Hg & Hq' & Ht1); [|done].
    exists q', t1. split; [done|]. split; [lia|]. destruct Ht as [->|[-> Hd]]; [apply prefix_nil_inv in Ht1 as ->; by left|].
    destruct t1 as [|x t1]; [by left|]. apply prefix_cons_inv_1 in Ht1 as Hx. apply prefix_cons_inv_2, prefix_nil_inv in Ht1 as ->.
    subst x. by right. }
  unfold phase, queued. destruct (s_pc s) as [|pos lastSeq start|lastSeq|lastSeq|[f|] pos start|h| |]; try done.
  - intros (q & t & H1 & H2 & [H3 _] & H4). apply (Hpart q t (s_outgoing s)); [|lia|done]. rewrite H1. by apply gapped_slice.
  - intros [_ (p & H1 & H2 & H3)]. apply (Hplain p H1). pose proof (ca_len _ _ _ H3). lia.
  - intros (p & H1 & H2 & H3). apply (Hplain p H1). pose proof (ca_len _ _ _ H3). lia.
  - intros (p & n & q & t & H1 & H2 & H3 & _). apply (Hplain p H1). pose proof (ca_len _ _ _ H3). lia.
  - intros (p & n & q & t & H1 & H2 & H3 & _). apply (Hplain p H1). pose proof (ca_len _ _ _ H3). lia.
  - intros (q & t & H1 & H2 & [H3 _] & H4). eapply (Hpart q t _ H1); [lia|done].
Qed.

(** The goroutine gives up; what was sent stays. *)
Lemma phase_give_up s' : s_pc s' = Returning ∨ s_pc s' = Returned → s_sent s' = s_sent s → s_drop s' = s_drop s →
  s_cut s' = s_cut s → phase (log em) (broadcasts em) base s → phase (log em) (broadcasts em) base s'.
Proof.
  intros Hpc' Hsent Hdrop Hcut (q & t & Hph)%phase_gapped.
  assert (tail_ok s' t ↔ tail_ok s t) by (unfold tail_ok; by rewrite Hdrop).
  unfold phase. rewrite Hsent, Hcut. destruct Hpc' as [-> | ->]; exists q, t; naive_solver.
Qed.

Lemma give_up_step l em' : l = LPlayDone id ∨ l = LPlayFail id ∨ l = LForwardDone id →
  step_sub em id s l = Some em' → stream_ok base em' id.
Proof.
  intros Hl H. assert (∃ p, (p = Returning ∨ p = Returned) ∧ em' = update id (set_pc p s) em) as (p & Hp & ->).
  { destruct Hl as [-> | [-> | ->]]; simpl in H; case_go_in H; try done; simplify_eq; eauto. }
  apply stream_put, sub_stream_go; [done|done|by destruct Hp as [-> | ->]|].
  intros _. by apply phase_give_up.
Qed.

Lemma play_end_step em' : step_sub em id s (LPlayEnd id) = Some em' → stream_ok base em' id.
Proof.
  simpl. destruct (s_pc s) as [|pos lastSeq start|lastSeq|lastSeq|first pos start|h| |] eqn:Hpc; try done;
    intros ?; simplify_eq.
  - apply stream_put, sub_stream_go; [done|done|done|]. intros _. unfold phase. rewrite Hpc. simpl. by intros [-> H].
  - apply stream_put, sub_stream_go; [done|done|by rewrite Hpc|]. intros _. unfold phase. rewrite Hpc. simpl.
    destruct first as [f|]; [|done]. intros (p & n & q & t & H1 & H2 & H3 & H4 & H5 & H6 & H7 & H8 & H9).
    exists q, t. split; [|split; [lia|done]]. exists p, (S n). rewrite H1, H4. split_and!; [done|lia|lia|lia|].
    intros [_ Hend%negb_false_iff]%orb_false_iff.
    apply orb_true_iff in Hend as [Hend|Hend]; [apply (played_all _ _ _ _ H3) in Hend; lia|].
    destruct (next_event pos (log em)) as [e|] eqn:He; [|done]. bool_to_prop.
    pose proof (next_event_lookup _ _ _ _ H3 He) as Hlk. destruct (decide (p <= n)%nat) as [Hle|]; [|lia].
    pose proof (ca_iff _ _ _ (cursor_at_event _ n f (eo_log _ Hok) H8) p e Hlk). lia.
Qed.

Lemma add_step em' : step_sub em id s (LAdd id) = Some em' → stream_ok base em' id.
Proof.
  simpl. destruct (s_pc s) as [|pos lastSeq start|lastSeq|lastSeq|first pos start|h| |] eqn:Hpc; try done.
  intros ?; simplify_eq. exists (set_pc (Waiting lastSeq) s). split; [simpl; by rewrite lookup_insert_eq|].
  intros Hab. split; [|intros _ _; simpl; apply elem_of_app; right; by left].
  change (log (addSubscriber _ _)) with (log em). change (broadcasts (addSubscriber _ _)) with (broadcasts em).
  destruct (Hst Hab) as [Hph _]. revert Hph. unfold phase. rewrite Hpc. simpl. intros (p & H1 & H2 & H3).
  destruct (so_backlog _ _ (eo_sub _ Hok id s Hs)) as [Hout Hf]; [by rewrite Hpc|].
  pose proof (ca_len _ _ _ H3). exists p, (broadcasts em), (broadcasts em), []. rewrite slice_nil, Hf.
  assert (length (log em) <= S (broadcasts em))%nat by (unfold broadcasts; destruct (pending em); simpl; lia).
  split_and!; try done; [lia|by left].
Qed.

Lemma receive_step em' : step_sub em id s (LReceive id) = Some em' → stream_ok base em' id.
Proof.
  simpl. pose proof broadcasts_le as HB. pose proof (eo_sub _ Hok id s Hs) as Hso.
  destruct (s_outgoing s) as [|e rest] eqn:Hout.
  - destruct (s_closed s) eqn:Hc; [|done]. simpl.
    assert (abandoned s = s_filter s) as Hab.
    { unfold abandoned. rewrite (so_done _ _ Hso); [done|]. by rewrite (so_closed _ _ Hso). }
    destruct (s_pc s) as [|pos lastSeq start|lastSeq|lastSeq|first pos start|[h|]| |] eqn:Hpc; try done;
      intros ?; simplify_eq; apply stream_put, sub_stream_go; try done; try (by rewrite Hpc);
      rewrite Hab; intros Hf Hph; [exfalso|by apply phase_give_up; [left|..]].
    revert Hph. unfold phase. rewrite Hpc. intros (p & n & q & t & H1 & H2 & H3 & H4 & H5 & [H6 _] & H7 & H8).
    rewrite Hout in H4. symmetry in H4. apply app_eq_nil in H4 as [H4 _]. apply (f_equal length) in H4.
    rewrite length_slice in H4 by lia. simpl in H4. specialize (H8 Hf). lia.
  - destruct (s_pc s) as [|pos lastSeq start|lastSeq|lastSeq|first pos start|[h|]| |] eqn:Hpc; try done;
      intros ?; simplify_eq; apply stream_put, sub_stream_go; try done; try (by rewrite Hpc);
      intros _; unfold phase; simpl; rewrite Hpc.
    + intros (q & t & H1 & H2 & H3). exists q, t. rewrite Hout in H1. by rewrite <- app_assoc.
    + intros (p & n & q & t & H1 & H2 & H3 & H4 & H5 & [H6 H6'] & H7 & H8). rewrite Hout in H4. symmetry in H4.
      assert (n < q)%nat as Hnq.
      { destruct (s_filter s) eqn:Hf; [|by apply H8]. apply (tail_ok_live _ _ _ Hso Hf) in H7 as ->.
        destruct (decide (n = q)) as [->|]; [by rewrite slice_nil in H4|lia]. }
      apply slice_head in H4 as [Hn ->]; [|lia]. exists p, n, q, t. split_and!; try done; lia.
    + intros (q & t & H1 & H2 & H3). exists q, t. by rewrite Hout in H1.
Qed.

Lemma forward_step em' : step_sub em id s (LForward id) = Some em' → stream_ok base em' id.
Proof.
  simpl. destruct (s_pc s) as [|pos lastSeq start|lastSeq|lastSeq|first pos start|[h|]| |] eqn:Hpc; try done.
  intros ?; simplify_eq. apply stream_put, sub_stream_go; [done|done|by rewrite Hpc|]. intros _.
  unfold phase. simpl. rewrite Hpc. intros (q & t & H1 & H2 & H3). exists q, t. by rewrite <- app_assoc.
Qed.

(** Steps of [cleanup] and of the goroutine that drops the subscriber. *)
Lemma phase_same s' : s_pc s' = s_pc s → s_sent s' = s_sent s → s_outgoing s' = s_outgoing s → s_filter s' = s_filter s →
  s_cut s' = s_cut s → (∀ t, tail_ok s t → tail_ok s' t) → phase (log em) (broadcasts em) base s → phase (log em) (broadcasts em) base s'.
Proof.
  intros Hpc Hsent Hout Hf Hcut Ht. unfold phase, queued. rewrite Hpc, Hsent, Hout, Hf, Hcut.
  destruct (s_pc s) as [|pos lastSeq start|lastSeq|lastSeq|[f|] pos start|h| |]; try done; naive_solver.
Qed.

Lemma sub_stream_flags s' : s_pc s' = s_pc s → s_sent s' = s_sent s → s_outgoing s' = s_outgoing s → s_filter s' = s_filter s →
  s_cut s' = s_cut s → (s_done s = true → s_done s' = true) → (∀ t, tail_ok s t → tail_ok s' t) → sub_stream s'.
Proof.
  intros Hpc Hsent Hout Hf Hcut Hd Ht Hab.
  assert (abandoned s = false) as Ha.
  { unfold abandoned in *. rewrite Hf in Hab. destruct (s_done s); [by rewrite Hd in Hab|done]. }
  destruct (Hst Ha) as [Hph Hin]. rewrite Hf, Hpc. split; [by apply phase_same|done].
Qed.

Lemma tail_ok_early t : s_drop s = NotDropped ∨ s_drop s = BeforeLock ∨ s_drop s = Locked → tail_ok s t → t = [].
Proof. intros Hd [->|[-> Ht]]; [done|]. naive_solver congruence. Qed.

(** The error frame, the last thing the channel takes. *)
Lemma phase_frame : s_drop s = Locked → s_filter s = false → phase (log em) (broadcasts em) base s →
  phase (log em) (broadcasts em) base (set_drop BeforeCleanup (set_outgoing (s_outgoing s ++ [ConsumerTooSlow]) s)).
Proof.
  intros Hd Hf. pose proof (so_backlog _ _ (eo_sub _ Hok id s Hs)) as Hb. rewrite Hf in Hb.
  assert (∀ t, tail_ok s t → t = []) as Ht by (intros t; apply tail_ok_early; auto).
  unfold phase, queued, tail_ok in *; simpl.
  destruct (s_pc s) as [|pos lastSeq start|lastSeq|lastSeq|[f|] pos start|h| |]; simpl in *; try done.
  - intros (q & t & H1 & H2 & H3 & H4). apply Ht in H4 as ->. exists q, [ConsumerTooSlow].
    rewrite app_assoc, H1, app_nil_r. split_and!; naive_solver.
  - intros (p & n & q & t & H1 & H2 & H3 & H4 & H5 & H6 & H7 & H8). apply Ht in H7 as ->.
    exists p, n, q, [ConsumerTooSlow]. rewrite H4, app_nil_r. split_and!; naive_solver.
  - intros (p & n & q & t & H1 & H2 & H3 & H4 & H5 & H6 & H7 & H8). apply Ht in H7 as ->.
    exists p, n, q, [ConsumerTooSlow]. rewrite H4, app_nil_r. split_and!; naive_solver.
  - intros (q & t & H1 & H2 & H3 & H4). apply Ht in H4 as ->. exists q, [ConsumerTooSlow].
    rewrite !app_assoc in *. split_and!; [|naive_solver..]. destruct H1 as (p & n & -> & H1). exists p, n.
    by rewrite app_nil_r, <- app_assoc.
  - intros (p & t & H1 & H2 & H3). apply Ht in H3 as ->. exists p, []. split_and!; naive_solver.
  - intros (p & t & H1 & H2 & H3). apply Ht in H3 as ->. exists p, []. split_and!; naive_solver.
Qed.

Lemma drop_step l em' : l = LDrop id ∨ l = LDropTimeout id → step_sub em id s l = Some em' → stream_ok base em' id.
Proof.
  pose proof (eo_sub _ Hok id s Hs) as Hso. assert (s_drop s = Locked → s_filter s = false) as Hlk.
  { intros Hd. apply (so_drop _ _ Hso). by rewrite Hd. }
  intros [-> | ->] H; simpl in H.
  - destruct (s_drop s) eqn:Hd; try done.
    + destruct (lk_free s); simplify_eq. apply stream_put, sub_stream_flags; try done.
      intros t Ht%tail_ok_early; [by left|auto].
    + assert (sub_stream (set_drop BeforeCleanup (set_outgoing (s_outgoing s ++ [ConsumerTooSlow]) s))) as Hfr.
      { apply sub_stream_go; try done. intros _. by apply phase_frame; [|apply Hlk]. }
      assert (sub_stream (set_drop BeforeCleanup s)).
      { apply sub_stream_flags; try done. intros t Ht%tail_ok_early; [by left|auto]. }
      case_go_in H; by apply stream_put.
    + case_go_in H; try done; apply stream_put, sub_stream_flags; try done; intros t [->|[-> _]]; [by left|right; auto|by left|right; auto].
  - destruct (s_drop s) eqn:Hd; simplify_eq. apply stream_put, sub_stream_flags; try done.
    intros t Ht%tail_ok_early; [by left|auto].
Qed.

Lemma leave_step l em' : l = LReturn id ∨ l = LCleanup id → step_sub em id s l = Some em' → stream_ok base em' id.
Proof.
  pose proof (eo_sub _ Hok id s Hs) as Hso.
  assert (∀ s', sub_stream s' → (s_filter s' = true → listening (s_pc s') = true → abandoned s' = false → False) →
    stream_ok base (rmSubscriber id (update id s' em)) id) as Hrm.
  { intros s' H Hn. exists s'. split; [simpl; by rewrite lookup_insert_eq|]. intros Hab. destruct (H Hab) as [Hph _].
    split; [exact Hph|]. intros Hf Hl. by destruct (Hn Hf Hl). }
  intros [-> | ->] H; simpl in H.
  - destruct (s_pc s) eqn:Hpc; simplify_eq. apply Hrm; [|done]. apply sub_stream_go; try done.
    intros _. by apply phase_give_up; [right|..].
  - destruct (s_cleanup s) eqn:Hc; simplify_eq.
    + destruct (lk_free s); simplify_eq. by apply stream_put, sub_stream_flags.
    + apply Hrm; [by apply sub_stream_flags|]. unfold abandoned. simpl. intros -> _.
      rewrite (so_done _ _ Hso); [done|congruence].
    + by apply stream_put, sub_stream_flags.
Qed.

Lemma own_step l em' : label_id l = id → step_sub em id s l = Some em' → stream_ok base em' id.
Proof.
  destruct l as [evt|ch| |j since|j|j|j|j|j|j|j|j|j|j|j|j]; cbn [label_id]; intros Hid; subst;
    first [by intros [=] | apply play_step | apply play_end_step | apply add_step | apply receive_step | apply forward_step
          | apply give_up_step; by auto | apply drop_step; by auto | apply leave_step; by auto].
Qed.
End own_steps.

(** ** Every step keeps [stream_ok] *)

Lemma step_sub_frame em id s l em' : step_sub em id s l = Some em' → em_ok em →
  log em' = log em ∧ pending em' = pending em ∧
  ∀ j, j ≠ id → subscribers em' !! j = subscribers em !! j ∧ (j ∈ subs em' ↔ j ∈ subs em).
Proof.
  intros H Hok. pose proof (eo_nodup _ Hok) as Hnd.
  destruct l; simpl in H; case_go_in H; try done; split_and!; try done; intros j Hj; simpl;
    rewrite ?lookup_insert_ne by done; rewrite ?elem_of_app, ?elem_of_rm, ?list_elem_of_singleton by done; naive_solver.
Qed.

Lemma stream_ok_other base em em' id : log em' = log em → pending em' = pending em →
  subscribers em' !! id = subscribers em !! id → (id ∈ subs em' ↔ id ∈ subs em) → stream_ok base em id → stream_ok base em' id.
Proof.
  intros Hl Hp Hs Hin (s & Hs0 & H). exists s. split; [congruence|]. intros Hab. destruct (H Hab) as [Hph Hi].
  unfold broadcasts in *. rewrite Hl, Hp. split; [done|]. intros. apply Hin. auto.
Qed.

Lemma pending_last em e : em_ok em → pending em = Some e →
  length (log em) = S (broadcasts em) ∧ log em !! broadcasts em = Some e.
Proof.
  intros Hok He. pose proof (eo_pending _ Hok e He) as Hl. unfold broadcasts. rewrite He. simpl.
  rewrite last_lookup in Hl. pose proof (lookup_lt_Some _ _ _ Hl). split; [lia|].
  by replace (length (log em) - 1)%nat with (pred (length (log em))) by lia.
Qed.

Lemma broadcast_stream base em id evt ch em' : em_ok em → stream_ok base em id → panicked em' = false →
  pending em = Some evt → broadcastEvent evt ch em = Some em' → stream_ok base em' id.
Proof.
  intros Hok (s & Hs & H) Hp He Hb. unfold broadcastEvent in Hb.
  destruct (pending_last em evt Hok He) as [Hlen Hevt].
  pose proof (broadcast_frame _ _ _ _ _ Hb) as (Hl & Hpe & Hsu & _). simpl in *.
  assert (broadcasts em' = S (broadcasts em)) as HB by (unfold broadcasts at 1; rewrite Hl, Hpe; simpl; lia).
  destruct (decide (id ∈ subs em)) as [Hin|Hin].
  - destruct (broadcast_one _ _ _ id _ _ (eo_nodup _ Hok) Hin Hb Hp) as (s1 & s2 & Hs1 & Ho & Hs2).
    simpl in *. rewrite Hs in Hs1. simplify_eq. exists s2. split; [done|]. intros Hab. rewrite Hl, HB, Hsu.
    assert (sub_ok True s1) as Hso by (eapply sub_ok_iff; [intros _; exact Hin|by apply Hok]).
    destruct (offer_stream _ (log em) (broadcasts em) base _ _ _ _ (eo_buf _ Hok) ltac:(lia) Hso Hevt Ho) as (Hph & _ & _); [|done|done].
    intros Ha. by destruct (H Ha).
  - exists s. split; [rewrite (broadcast_other _ _ _ id _ _ Hin Hb); done|]. intros Hab. destruct (H Hab) as [Hph Hi].
    rewrite Hl, HB, Hsu. split; [|done]. apply (phase_later _ (broadcasts em)); [lia| |done].
    destruct (s_filter s); [right|by left]. destruct (listening (s_pc s)); [by destruct Hin; apply Hi|done].
Qed.

Lemma em_step_stream base em l em' id : em_ok em → stream_ok base em id → l ≠ LBroadcastFail →
  em_step em l = Some em' → panicked em' = false → stream_ok base em' id.
Proof.
  intros Hok Hso Hl Hst Hp'. pose proof Hso as (s & Hs & H). unfold em_step in Hst. destruct (panicked em) eqn:Hp; [done|].
  assert (∀ j s', subscribers em !! j = Some s' → label_id l = j → step_sub em j s' l = Some em' → stream_ok base em' id) as Hsub.
  { intros j s' Hj Hlj Hstep. destruct (decide (j = id)) as [->|Hne].
    - apply (own_step base em id s Hok Hs H l); [done|]. congruence.
    - destruct (step_sub_frame _ _ _ _ _ Hstep Hok) as (H1 & H2 & H3). destruct (H3 id) as [H4 H5]; [done|].
      by eapply stream_ok_other. }
  destruct l as [evt|ch| |j since|j|j|j|j|j|j|j|j|j|j|j|j]; cbn [label_id] in *; try done;
    try (destruct (subscribers em !! j) as [s'|] eqn:Hj; [by apply (Hsub j s' Hj eq_refl)|done]).
  - destruct (pending em) eqn:Hpe; [done|]. destruct (_ <? _) eqn:Hlt; simplify_eq. bool_to_prop.
    exists s. split; [done|]. intros Hab. destruct (H Hab) as [Hph Hin]. split; [|exact Hin].
    assert (broadcasts (set_log (log em ++ [evt]) (Some evt) em) = broadcasts em) as ->.
    { unfold broadcasts. rewrite Hpe. simpl. rewrite length_app. simpl. lia. }
    apply phase_snoc; [|done|done]. unfold broadcasts. lia.
  - destruct (pending em) as [evt|] eqn:Hpe; [|done]. by eapply broadcast_stream.
  - destruct (subscribers em !! j) eqn:Hj; [done|]. simplify_eq. assert (j ≠ id) as Hne by congruence.
    destruct since; eapply stream_ok_other; try exact Hso; simpl; rewrite ?lookup_insert_ne by done; try done.
    rewrite elem_of_app, list_elem_of_singleton. naive_solver.
Qed.

Lemma em_step_panicked em l em' : em_step em l = Some em' → panicked em = false.
Proof. unfold em_step. by destruct (panicked em). Qed.

Lemma em_run_stream base id ls : ∀ em em', em_ok em → stream_ok base em id → LBroadcastFail ∉ ls →
  em_run em ls = Some em' → panicked em' = false → stream_ok base em' id.
Proof.
  induction ls as [|l ls IH]; intros em em' Hok Hso Hl Hr Hp; simpl in Hr; [by simplify_eq|].
  apply not_elem_of_cons in Hl as [Hl Hls]. destruct (em_step em l) as [em1|] eqn:Hst; [|done].
  apply (IH em1 em'); try done; [by eapply em_step_ok|]. eapply em_step_stream; try done.
  destruct ls as [|l' ls]; simpl in Hr; [by simplify_eq|]. destruct (em_step em1 l') eqn:Hst'; [|done].
  by eapply em_step_panicked.
Qed.

(** ** What a subscriber is to get *)

(** The events of [l] after the cursor, or, without one, those broadcast after
    [em0], the state it subscribed in. *)
Definition due (em0 : EventManager) (since : option Z) (l : list event) : list event :=
  match since with
  | Some c => List.filter (λ e, c <? eseq e) l
  | None => drop (broadcasts em0) l
  end.

(** It has nothing in flight and was neither dropped nor closed. *)
Definition idle (s : Subscriber) : bool :=
  match s_pc s, s_outgoing s with
  | (Direct | Copying None), [] => s_filter s && negb (s_done s)
  | _, _ => false
  end.

Lemma cursor_at_filter c p l : cursor_at c p l → List.filter (λ e, c <? eseq e) l = drop p l.
Proof.
  intros [Hlen _ Hiff]. rewrite <- (take_drop p l) at 1. rewrite List.filter_app, List_filter_none, List_filter_all; [done|..];
    apply Forall_lookup; intros i x Hx.
  - rewrite lookup_drop in Hx. apply Z.ltb_lt. destruct (decide (eseq x ≤ c)) as [Hle|]; [|lia].
    apply (Hiff _ _ Hx) in Hle. lia.
  - apply lookup_take_Some in Hx as [Hx Hi]. apply Z.ltb_ge. by apply (Hiff _ _ Hx).
Qed.

Lemma cursor_at_exists c l : log_ok l → c ≤ last_seq l → ∃ p, cursor_at c p l.
Proof.
  intros Hl Hc. pose proof Hl as [Hs _]%StronglySorted_inv.
  destruct (sorted_split (λ e, eseq e) c l Hs) as (l1 & l2 & -> & H1 & H2). exists (length l1).
  rewrite Forall_lookup in H1, H2. split; [rewrite length_app; lia|done|].
  intros i e [He|[Hi He]]%lookup_app_Some; [|specialize (H2 _ _ He); cbv beta in H2; lia].
  pose proof (lookup_lt_Some _ _ _ He). specialize (H1 _ _ He). by split.
Qed.

Lemma em_step_log em l em' : em_ok em → em_step em l = Some em' →
  log em' = log em ∨ ∃ evt, log em' = log em ++ [evt] ∧ last_seq (log em) < eseq evt.
Proof.
  intros Hok Hst. unfold em_step in Hst. destruct (panicked em); [done|].
  destruct l as [evt|ch| |j since|j|j|j|j|j|j|j|j|j|j|j|j]; cbn [label_id] in *;
    try (destruct (subscribers em !! j) as [s|]; [|done]; apply step_sub_frame in Hst as (-> & _); [by left|done]).
  - case_go_in Hst; try done. bool_to_prop. right. by exists evt.
  - destruct (pending em); [|done]. apply broadcast_frame in Hst as (-> & _). by left.
  - case_go_in Hst; try done. by left.
  - case_go_in Hst; try done. left. by destruct since.
Qed.

Lemma em_run_cursor c p ls : ∀ em em', em_ok em → em_run em ls = Some em' → cursor_at c p (log em) → cursor_at c p (log em').
Proof.
  induction ls as [|l ls IH]; intros em em' Hok Hr Hc; simpl in Hr; [by simplify_eq|].
  destruct (em_step em l) as [em1|] eqn:Hst; [|done]. eapply IH; [by eapply em_step_ok|exact Hr|].
  apply em_step_log in Hst as [->|(evt & -> & Hlt)]; [done| |done]. by apply cursor_at_snoc.
Qed.

(** From [Subscribe] on, [stream_ok] holds at the position of the cursor. *)
Lemma Subscribe_stream em0 id since ls em : em_ok em0 → (∀ c, since = Some c → c ≤ last_seq (log em0)) →
  em_run em0 (LSubscribe id since :: ls) = Some em → LBroadcastFail ∉ ls → panicked em = false →
  ∃ base, due em0 since (log em) = drop base (log em) ∧ stream_ok base em id.
Proof.
  intros Hok Hc Hr Hl Hp. pose proof Hr as Hr0. simpl in Hr. destruct (em_step em0 _) as [em1|] eqn:Hst; [|done].
  pose proof (em_step_ok _ _ _ Hok Hst) as Hok1. pose proof (em_step_panicked _ _ _ Hst) as Hp0.
  unfold em_step in Hst. rewrite Hp0 in Hst. destruct (subscribers em0 !! id) eqn:Hid; [done|]. injection Hst as <-.
  assert (∃ base, due em0 since (log em) = drop base (log em) ∧ stream_ok base (Subscribe id since em0) id) as (base & Hd & Hso).
  { destruct since as [c|]; simpl.
    - destruct (cursor_at_exists c (log em0) (eo_log _ Hok)) as [p Hca]; [by apply Hc|]. exists p. split.
      + apply cursor_at_filter. by eapply em_run_cursor; [exact Hok|exact Hr0|].
      + eexists. split; [simpl; by rewrite lookup_insert_eq|]. intros _. split; [|done]. split; [done|].
        exists p. rewrite slice_nil. done.
    - exists (broadcasts em0). split; [done|]. eexists. split; [simpl; by rewrite lookup_insert_eq|]. intros _. split.
      + exists (broadcasts em0), []. rewrite slice_nil. split_and!; try done. by left.
      + intros _ _. simpl. apply elem_of_app. right. by left. }
  exists base. split; [done|]. by eapply em_run_stream.
Qed.

(** [sent] is what is due but for [rest], less the run [gap]. *)
Definition delivered (l sent gap rest : list event) : Prop := ∃ a b, l = a ++ gap ++ b ++ rest ∧ sent = a ++ b.

Lemma gapped_delivered cut base q (l : list event) t sent : (base <= q)%nat → gapped cut base q l t sent →
  ∃ gap k, sent = k ++ t ∧ delivered (drop base l) k gap (drop q l) ∧ (cut = false → gap = []).
Proof.
  intros Hb (p & n & -> & Hp & Hn & Hc). exists (slice p n l), (slice base p l ++ slice n q l).
  split; [by rewrite app_assoc|]. split; [|intros H%Hc; subst; apply slice_nil].
  exists (slice base p l), (slice n q l). split; [|done].
  rewrite (app_assoc _ (slice n q l)), !slice_join, app_assoc, slice_join by lia.
  unfold slice. rewrite <- (take_drop (q - base) (drop base l)) at 1. rewrite drop_drop. do 2 f_equal. lia.
Qed.

Lemma pending_rest em : em_ok em → drop (broadcasts em) (log em) = option_list (pending em).
Proof.
  intros Hok. destruct (pending em) as [e|] eqn:He.
  - destruct (pending_last em e Hok He) as [Hlen Hlk]. apply drop_S in Hlk as ->. by rewrite drop_ge by lia.
  - unfold broadcasts. rewrite He. apply drop_ge. simpl. lia.
Qed.

Lemma phase_idle em base s : em_ok em → sub_ok True s → idle s = true → phase (log em) (broadcasts em) base s →
  gapped (s_cut s) base (broadcasts em) (log em) [] (s_sent s) ∧ (base <= broadcasts em)%nat.
Proof.
  intros Hok Hso Hid. unfold idle in Hid. unfold phase, queued.
  destruct (s_pc s) as [| | | | |[h|]| |]; try done; destruct (s_outgoing s); try done;
    apply andb_true_iff in Hid as [Hf _]; intros (q & t & H1 & H2 & [_ H3] & H4);
    apply (tail_ok_live _ _ _ Hso Hf) in H4 as ->; simpl in H1; rewrite (H3 Hf), ?app_nil_r in *; [|done].
  rewrite H1, <- (app_nil_r (slice _ _ _)). split; [by apply gapped_slice|done].
Qed.

(** C16 (safety): A subscriber that asks for the events after a cursor within the
    log, or for those from now on, is sent events of this kind only, in the order
    of the log and each once, through the two playbacks, the buffering and the
    switch to live events, whatever the order in which the goroutines run; only a
    consumer that was too slow gets an error frame, after which nothing comes.
    What it was sent has no gap, unless the second playback ended early without an
    error ([s_cut]), and then one run of events is missing.  Once nothing is in
    flight, it has every other event that was broadcast.  This holds of a
    subscriber that was not closed by its own [cleanup], as long as no broadcast
    failed to serialize its event and none panicked. *)
Theorem Subscribe_delivers l0 ls0 em0 id since ls em s : log_ok l0 →
  em_run (NewEventManager l0) ls0 = Some em0 → (∀ c, since = Some c → c ≤ last_seq (log em0)) →
  em_run em0 (LSubscribe id since :: ls) = Some em → LBroadcastFail ∉ ls → panicked em = false →
  subscribers em !! id = Some s → abandoned s = false →
  (∃ k t gap rest, s_sent s = k ++ t ∧ delivered (due em0 since (log em)) k gap rest ∧ (s_cut s = false → gap = []) ∧
    (t = [] ∨ t = [ConsumerTooSlow] ∧ s_filter s = false)) ∧
  (idle s = true → ∃ gap, delivered (due em0 since (log em)) (s_sent s) gap (option_list (pending em)) ∧ (s_cut s = false → gap = [])).
Proof.
  intros Hl0 Hr0 Hc Hr Hnf Hp Hs Hab.
  pose proof (em_run_ok _ _ _ (NewEventManager_ok l0 Hl0) Hr0) as Hok0. pose proof (em_run_ok _ _ _ Hok0 Hr) as Hok.
  destruct (Subscribe_stream em0 id since ls em) as (base & -> & s' & Hs' & Hph); [done..|]. simplify_eq.
  destruct (Hph Hab) as [Hphase _]. pose proof (eo_sub _ Hok id s Hs) as Hso. split.
  - apply phase_gapped in Hphase as (q & t & Hg & Hq & Ht).
    apply gapped_delivered in Hg as (gap & k & H1 & H2 & H3); [|lia]. exists k, t, gap, (drop q (log em)). split_and!; try done.
    destruct Ht as [->|[-> Hd]]; [by left|]. right. split; [done|]. apply (so_drop _ _ Hso). destruct Hd; congruence.
  - intros Hid. destruct (phase_idle em base s) as [Hg Hb]; [done| |done..|].
    + eapply sub_ok_iff; [|exact Hso]. intros _. apply Hph; [done| |]; unfold idle in Hid;
        destruct (s_pc s) as [| | | | |[h|]| |]; try done; destruct (s_outgoing s); try done; by apply andb_true_iff in Hid as [? _].
    + apply gapped_delivered in Hg as (gap & k & -> & H2 & H3); [|done]. rewrite app_nil_r, <- pending_rest by done. by exists gap.
Qed.
