(* ===== verification/EventMgrRuns.v ===== *)
(** * Subscribers of the event manager catch up; runs that show the limits

    The goroutine of a subscriber that is neither dropped nor closed can, by its
    own steps, send everything that was broadcast, unless it waits for a first
    live event or its second playback ends early.  The runs at the end show that
    this wait can hold back an event that is in the log, that a playback that ends
    early and a cursor beyond the log lose events, and that a [cleanup] during the
    first playback can make a broadcast send on a closed channel. *)

From S2P Require Import Prelude GoStrings Stream EventMgr EventMgrProofs EventMgrDelivery.
Local Open Scope Z_scope.

(** Steps the goroutine takes by itself, on its way to its subscriber.  In the
    runs below its playbacks end where they should. *)
Definition progress (id : nat) (l : label) : Prop :=
  l = LPlay id ∨ l = LPlayEnd id ∨ l = LAdd id ∨ l = LReceive id ∨ l = LForward id.

Section catching_up.
Context (em : EventManager) (id : nat).
Hypothesis Hok : em_ok em.
Hypothesis Hp : panicked em = false.

(** Steps that change the subscriber only. *)
Definition drains (s s' : Subscriber) : Prop :=
  ∃ ls, Forall (progress id) ls ∧ em_run (update id s em) ls = Some (update id s' em).

Lemma drains_refl s : drains s s.
Proof. by exists []. Qed.

Lemma em_run_app ls1 ls2 em1 : em_run em1 (ls1 ++ ls2) = match em_run em1 ls1 with Some em2 => em_run em2 ls2 | None => None end.
Proof. revert em1. induction ls1 as [|l ls1 IH]; intros em1; simpl; [done|]. by destruct (em_step em1 l). Qed.

Lemma drains_trans s1 s2 s3 : drains s1 s2 → drains s2 s3 → drains s1 s3.
Proof.
  intros (l1 & F1 & H1) (l2 & F2 & H2). exists (l1 ++ l2). split; [by apply Forall_app|]. by rewrite em_run_app, H1.
Qed.

Lemma drains_step l s s' : progress id l →
  step_sub (update id s em) id s l = Some (update id s' (update id s em)) → drains s s'.
Proof.
  intros Hl Hst. exists [l]. split; [by constructor|]. cbn [em_run]. unfold em_step.
  change (panicked (update id s em)) with (panicked em). rewrite Hp.
  assert (label_id l = id ∧ subscribers (update id s em) !! id = Some s) as [Hid Hs].
  { split; [unfold progress in Hl; naive_solver|simpl; by rewrite lookup_insert_eq]. }
  assert (update id s' (update id s em) = update id s' em) as Heq.
  { unfold update, set_subscribers. simpl. by rewrite insert_insert_eq. }
  rewrite Heq in Hst.
  destruct Hl as [-> | [-> | [-> | [-> | ->]]]]; cbn [label_id]; by rewrite Hs, Hst.
Qed.

Definition same_flags (s s' : Subscriber) : Prop := s_filter s' = s_filter s ∧ s_done s' = s_done s ∧ s_cut s' = s_cut s.

Lemma same_flags_trans s1 s2 s3 : same_flags s1 s2 → same_flags s2 s3 → same_flags s1 s3.
Proof. unfold same_flags. naive_solver congruence. Qed.

Lemma copying_drains out : ∀ s, s_outgoing s = out → s_pc s = Copying None →
  ∃ s', drains s s' ∧ same_flags s s' ∧ s_pc s' = Copying None ∧ s_outgoing s' = [].
Proof.
  induction out as [|e out IH]; intros s Hout Hpc; [exists s; split; [apply drains_refl|done]|].
  destruct (IH (send e (set_outgoing out s))) as (s' & H1 & H2 & H3); [done|done|]. exists s'. split; [|done].
  apply (drains_trans _ (set_pc (Copying (Some e)) (set_outgoing out s))).
  { apply (drains_step (LReceive id)); [unfold progress; auto|]. simpl. by rewrite Hout, Hpc. }
  apply (drains_trans _ (send e (set_outgoing out s))); [|done].
  apply (drains_step (LForward id)); [unfold progress; auto 10|]. simpl. unfold send, set_pc. simpl. by rewrite <- Hpc.
Qed.

Lemma direct_drains out : ∀ s, s_outgoing s = out → s_pc s = Direct →
  ∃ s', drains s s' ∧ same_flags s s' ∧ s_pc s' = Direct ∧ s_outgoing s' = [].
Proof.
  induction out as [|e out IH]; intros s Hout Hpc; [exists s; split; [apply drains_refl|done]|].
  destruct (IH (send e (set_outgoing out s))) as (s' & H1 & H2 & H3); [done|done|]. exists s'. split; [|done].
  apply (drains_trans _ (send e (set_outgoing out s))); [|done].
  apply (drains_step (LReceive id)); [unfold progress; auto|]. simpl. by rewrite Hout, Hpc.
Qed.

Lemma next_event_at pos p l e : cursor_at pos p l → l !! p = Some e → next_event pos l = Some e.
Proof.
  intros Hc He. destruct (next_event pos l) as [x|] eqn:Hx; [pose proof (next_event_lookup _ _ _ _ Hc Hx); congruence|].
  pose proof (find_none _ _ Hx e ltac:(by eapply list_elem_of_In, list_elem_of_lookup_2)) as Hn. cbv beta in Hn. bool_to_prop.
  apply (ca_iff _ _ _ Hc _ _ He) in Hn. lia.
Qed.

Lemma next_event_end pos p l : cursor_at pos p l → (length l <= p)%nat → next_event pos l = None ∧ ∀ start, played pos start l = true.
Proof.
  intros Hc Hlen. assert (∀ x, x ∈ l → (pos <? eseq x) = false) as Hall.
  { intros x [i Hi]%list_elem_of_lookup. apply Z.ltb_ge. apply (ca_iff _ _ _ Hc _ _ Hi). apply lookup_lt_Some in Hi. lia. }
  split.
  - destruct (next_event pos l) as [x|] eqn:Hx; [|done]. apply find_some in Hx as [Hin Hf].
    apply list_elem_of_In in Hin. by rewrite (Hall x Hin) in Hf.
  - intros start. unfold played. apply negb_true_iff. apply not_true_iff_false. intros (x & Hin & Hx)%existsb_exists.
    apply list_elem_of_In, elem_of_take in Hin as (i & Hi & _). rewrite (Hall x) in Hx; [done|]. by eapply list_elem_of_lookup_2.
Qed.

(** The second playback reaches the first buffered event. *)
Lemma replaying_drains k : ∀ s p n first pos start, (S n - p = k)%nat → s_pc s = Replaying (Some first) pos start →
  cursor_at pos p (log em) → (p <= S n)%nat → log em !! n = Some first →
  ∃ s', drains s s' ∧ same_flags s s' ∧ s_pc s' = Copying None.
Proof.
  pose proof (eo_log _ Hok) as Hlog.
  induction k as [|k IH]; intros s p n first pos start Hk Hpc Hc Hpn Hn.
  - assert (p = S n) as -> by lia. exists (set_pc (Copying None) (cut_short false s)).
    split; [|by unfold same_flags; rewrite <- (orb_false_r (s_cut s))].
    apply (drains_step (LPlayEnd id)); [unfold progress; auto|]. simpl. rewrite Hpc.
    destruct (log em !! S n) as [e|] eqn:He.
    + rewrite (next_event_at _ _ _ _ Hc He). pose proof (log_ok_lt _ Hlog n (S n) _ _ ltac:(lia) Hn He) as Hlt.
      apply Z.ltb_lt in Hlt as ->. by rewrite orb_true_r.
    + apply lookup_ge_None in He. destruct (next_event_end _ _ _ Hc He) as [_ ->]. done.
  - destruct (lookup_lt_is_Some_2 (log em) p) as [e He]; [apply lookup_lt_Some in Hn; lia|].
    destruct (IH (set_pc (Replaying (Some first) (eseq e) start) (send e s)) (S p) n first (eseq e) start)
      as (s' & H1 & H2 & H3); [lia|done|by apply cursor_at_event|lia|done|].
    exists s'. split; [|done]. eapply drains_trans; [|exact H1].
    apply (drains_step (LPlay id)); [unfold progress; auto|]. simpl. rewrite Hpc, (next_event_at _ _ _ _ Hc He).
    pose proof (ca_iff _ _ _ (cursor_at_event _ _ _ Hlog Hn) _ _ He) as Hiff.
    assert ((SequenceForEvent (Some first) <? eseq e) = false) as -> by (apply Z.ltb_ge; apply Hiff; lia). done.
Qed.

(** The first playback reaches the end of the log. *)
Lemma playing_drains k : ∀ s p pos lastSeq start, (length (log em) - p = k)%nat → s_pc s = Playing pos lastSeq start →
  cursor_at pos p (log em) →
  ∃ s' pos' lastSeq', drains s s' ∧ same_flags s s' ∧ s_pc s' = Playing pos' lastSeq' start ∧
    s_sent s' = s_sent s ++ drop p (log em).
Proof.
  induction k as [|k IH]; intros s p pos lastSeq start Hk Hpc Hc.
  - pose proof (ca_len _ _ _ Hc). exists s, pos, lastSeq. rewrite drop_ge, app_nil_r by lia. split; [apply drains_refl|done].
  - destruct (lookup_lt_is_Some_2 (log em) p) as [e He]; [lia|].
    destruct (IH (set_pc (Playing (eseq e) (advance e lastSeq) start) (send e s)) (S p) (eseq e) (advance e lastSeq) start)
      as (s' & pos' & ls' & H1 & H2 & H3 & H4); [lia|done|by apply cursor_at_event; [apply Hok|]|].
    exists s', pos', ls'. split; [|split; [done|split; [done|]]].
    + eapply drains_trans; [|exact H1]. apply (drains_step (LPlay id)); [unfold progress; auto|]. simpl.
      by rewrite Hpc, (next_event_at _ _ _ _ Hc He).
    + rewrite H4. simpl. by rewrite <- app_assoc, (drop_S (log em) e p He).
Qed.

(** Nothing is in flight that the goroutine could send: it failed, or it waits
    to be added, or for the first live event. *)
Definition held_back (s : Subscriber) : bool :=
  match s_pc s with
  | Adding _ | Returning | Returned => true
  | Waiting _ => match s_outgoing s with [] => true | _ => false end
  | _ => false
  end.

Lemma update_same s : subscribers em !! id = Some s → update id s em = em.
Proof. clear Hok Hp. intros Hs. unfold update, set_subscribers. rewrite insert_id by done. by destruct em. Qed.

Lemma progress_no_fail ls : Forall (progress id) ls → LBroadcastFail ∉ ls.
Proof. intros Hf Hin. rewrite Forall_forall in Hf. specialize (Hf _ Hin). unfold progress in Hf. naive_solver. Qed.

(** Past the first playback, everything buffered can be sent. *)
Lemma live_drains base s : subscribers em !! id = Some s → phase (log em) (broadcasts em) base s → sub_ok True s →
  s_filter s = true → listening (s_pc s) = true → held_back s = false →
  ∃ s', drains s s' ∧ same_flags s s' ∧ (s_pc s' = Direct ∨ s_pc s' = Copying None) ∧ s_outgoing s' = [].
Proof.
  intros Hs Hph Hso Hf Hl Hh.
  assert (∀ s1 s2, drains s1 s2 → same_flags s1 s2 → s_pc s2 = Copying None →
    ∃ s', drains s1 s' ∧ same_flags s1 s' ∧ (s_pc s' = Direct ∨ s_pc s' = Copying None) ∧ s_outgoing s' = []) as Hcopy.
  { intros s1 s2 Hd F Hpc. destruct (copying_drains _ s2 eq_refl Hpc) as (s' & H1 & F' & H2 & H3).
    exists s'. split; [by eapply drains_trans|]. split; [by eapply same_flags_trans|]. auto. }
  assert (∀ s1 s2 n p first pos start, drains s1 s2 → same_flags s1 s2 → s_pc s2 = Replaying (Some first) pos start →
    cursor_at pos p (log em) → (p <= S n)%nat → log em !! n = Some first →
    ∃ s', drains s1 s' ∧ same_flags s1 s' ∧ (s_pc s' = Direct ∨ s_pc s' = Copying None) ∧ s_outgoing s' = []) as Hreplay.
  { intros s1 s2 n p first pos start Hd F Hpc Hc Hpn Hn.
    destruct (replaying_drains _ s2 p n first pos start eq_refl Hpc Hc Hpn Hn) as (s3 & H1 & F' & H2).
    apply (Hcopy s1 s3); [by eapply drains_trans|by eapply same_flags_trans|done]. }
  pose proof (drains_refl s) as Hrefl. unfold phase, held_back in *.
  destruct (s_pc s) as [|pos lastSeq start|lastSeq|lastSeq|[f|] pos start|[h|]| |] eqn:Hpc; try done.
  - destruct (direct_drains _ s eq_refl Hpc) as (s' & H1 & H2 & H3 & H4). exists s'. auto.
  - destruct Hph as (p & n & q & t & H1 & H2 & H3 & H4 & H5 & [H6 _] & H7 & _).
    apply (tail_ok_live _ _ _ Hso Hf) in H7 as ->. destruct (s_outgoing s) as [|e rest] eqn:Hout; [done|].
    rewrite app_nil_r in H4. symmetry in H4. apply slice_cons in H4 as (Hnq & Hn & Hrest).
    apply (Hreplay s (set_pc (Replaying (Some e) lastSeq (length (log em))) (set_outgoing rest s)) n p e lastSeq (length (log em)));
      try done; [|lia].
    apply (drains_step (LReceive id)); [unfold progress; auto|]. simpl. by rewrite Hout, Hpc.
  - destruct Hph as (p & n & q & t & H1 & H2 & H3 & H4 & H5 & [H6 _] & H7 & H8 & H9).
    by apply (Hreplay s s n p f pos start); [..|lia|].
  - apply (Hcopy s (set_pc (Copying None) (send h s))); [|done|done].
    apply (drains_step (LForward id)); [unfold progress; auto 10|]. simpl. by rewrite Hpc.
  - by apply (Hcopy s s).
Qed.
End catching_up.

(** C32 (liveness): In every reachable state, a subscriber that is neither dropped
    nor closed, whose goroutine did not fail and is not waiting for a first live
    event, can by steps of its own goroutine alone, with playbacks that end where
    they should, send every event due to it that was broadcast, but for the run
    that a second playback that ended early before this ([s_cut]) left out: no
    step of another goroutine is needed.  Its cursor was within the log when it
    subscribed, no broadcast failed to serialize its event and none panicked. *)
Theorem Subscribe_catches_up l0 ls0 em0 id since ls em s : log_ok l0 →
  em_run (NewEventManager l0) ls0 = Some em0 → (∀ c, since = Some c → c ≤ last_seq (log em0)) →
  em_run em0 (LSubscribe id since :: ls) = Some em → LBroadcastFail ∉ ls → panicked em = false →
  subscribers em !! id = Some s → s_filter s = true → s_done s = false → held_back s = false →
  ∃ ls' em' s', Forall (progress id) ls' ∧ em_run em ls' = Some em' ∧ subscribers em' !! id = Some s' ∧ log em' = log em ∧
    ∃ gap rest, delivered (due em0 since (log em)) (s_sent s') gap rest ∧ (s_cut s = false → gap = []) ∧
      (rest = [] ∨ rest = option_list (pending em)).
Proof.
  intros Hl0 Hr0 Hc Hr Hnf Hp Hs Hf Hd Hh.
  pose proof (em_run_ok _ _ _ (NewEventManager_ok l0 Hl0) Hr0) as Hok0. pose proof (em_run_ok _ _ _ Hok0 Hr) as Hok.
  destruct (Subscribe_stream em0 id since ls em) as (base & -> & Hstream); [done..|].
  pose proof Hstream as (s1 & Hs1 & Hph). simplify_eq. destruct Hph as [Hph Hin]; [unfold abandoned; by rewrite Hd|].
  destruct (listening (s_pc s)) eqn:Hlis.
  - assert (sub_ok True s) as Hso by (eapply sub_ok_iff; [intros _; by apply Hin|by apply Hok]).
    destruct (live_drains em id Hok Hp base s) as (s' & (ls' & Hpr & Hrun) & (F1 & F2 & F3) & Hpc & Hout); [done..|].
    rewrite (update_same em id s Hs) in Hrun. exists ls', (update id s' em), s'.
    assert (subscribers (update id s' em) !! id = Some s') as Hs' by (simpl; by rewrite lookup_insert_eq).
    split_and!; try done.
    pose proof (em_run_ok _ _ _ Hok Hrun) as Hok'.
    destruct (em_run_stream base id _ _ _ Hok Hstream (progress_no_fail id _ Hpr) Hrun Hp) as (s2 & Hs2 & Hph2).
    rewrite Hs' in Hs2. simplify_eq. destruct Hph2 as [Hph2 Hin2]; [unfold abandoned; by rewrite F2, Hd|].
    destruct (phase_idle (update id s2 em) base s2) as [Hg Hb]; [done| |unfold idle; destruct Hpc as [-> | ->]; by rewrite Hout, F1, F2, Hf, Hd|done|].
    { eapply sub_ok_iff; [intros _; apply Hin2; [congruence|by destruct Hpc as [-> | ->]]|by apply Hok']. }
    rewrite F3 in Hg. apply gapped_delivered in Hg as (gap & k & -> & H2 & H3); [|done]. rewrite app_nil_r.
    exists gap, (option_list (pending em)). rewrite <- (pending_rest em) at 1 by done. auto.
  - unfold phase, held_back in *. destruct (s_pc s) as [|pos lastSeq start|lastSeq|lastSeq|[f|] pos start|h| |] eqn:Hpc; try done.
    destruct Hph as [-> (p & H1 & H2 & H3)].
    destruct (playing_drains em id Hok Hp _ s p pos pos start eq_refl Hpc H3) as (s' & pos' & l' & (ls' & Hpr & Hrun) & _ & _ & Hsent).
    rewrite (update_same em id s Hs) in Hrun. exists ls', (update id s' em), s'. split_and!; try done; [simpl; by rewrite lookup_insert_eq|].
    exists [], []. split; [|auto]. exists (slice base p (log em)), (drop p (log em)). rewrite app_nil_r, Hsent, H1. split; [|done].
    cbn [app]. unfold slice. rewrite <- (take_drop (p - base) (drop base (log em))) at 1. rewrite drop_drop. do 2 f_equal. lia.
Qed.

(** ** Runs *)

Module Runs.
(** An event with a number. *)
Definition numbered (n : Z) : event := accountEvent (mkAccountMsg true "did:plc:a" n None "") 1.

Definition seqs (em : EventManager) (id : nat) : option (list Z) :=
  s ← subscribers em !! id; Some (map (λ e, eseq e) (s_sent s)).

Definition all_send : nat → choice := λ _, Send.

(** Persisted and offered to everyone. *)
Definition publish (n : Z) : list label := [LPersist (numbered n); LBroadcast all_send].

(** From [Subscribe] at cursor 1 with two events in the log, through both
    playbacks: event 3 is broadcast before the subscriber is added, event 4 is
    the first it buffers, event 5 comes from the channel. *)
Definition crossover : list label :=
  [LPlay 7%nat] ++ publish 3 ++ [LPlayEnd 7%nat; LAdd 7%nat] ++ publish 4 ++
  [LReceive 7%nat; LPlay 7%nat] ++ publish 5 ++ [LPlay 7%nat; LPlayEnd 7%nat; LReceive 7%nat; LForward 7%nat].
End Runs.
Import Runs.

Lemma numbered_log_ok : log_ok [numbered 1; numbered 2].
Proof. unfold log_ok. simpl. repeat constructor. Qed.

Definition two_events : EventManager := NewEventManager [numbered 1; numbered 2].

Definition after (em : EventManager) (ls : list label) : EventManager := default em (em_run em ls).

Definition crossed : EventManager := Eval vm_compute in after two_events (LSubscribe 7 (Some 1) :: crossover).

Definition subscriber_of (em : EventManager) (id : nat) : Subscriber :=
  default (mkSub None [] false false false Direct NotCleaned NotDropped [] false) (subscribers em !! id).

Lemma crossover_no_fail : LBroadcastFail ∉ crossover.
Proof. repeat (apply not_elem_of_cons; split; [discriminate|]). apply not_elem_of_nil. Qed.

Lemma Subscribe_delivers_witness :
  seqs crossed 7 = Some [2; 3; 4; 5] ∧ s_cut (subscriber_of crossed 7) = false ∧
  (∃ k t gap rest, s_sent (subscriber_of crossed 7) = k ++ t ∧ delivered (due two_events (Some 1) (log crossed)) k gap rest ∧
    (s_cut (subscriber_of crossed 7) = false → gap = []) ∧ (t = [] ∨ t = [ConsumerTooSlow] ∧ s_filter (subscriber_of crossed 7) = false)) ∧
  (idle (subscriber_of crossed 7) = true →
    ∃ gap, delivered (due two_events (Some 1) (log crossed)) (s_sent (subscriber_of crossed 7)) gap (option_list (pending crossed)) ∧
      (s_cut (subscriber_of crossed 7) = false → gap = [])).
Proof.
  split; [vm_refl|]. split; [vm_refl|].
  apply (Subscribe_delivers [numbered 1; numbered 2] [] two_events 7 (Some 1) crossover crossed (subscriber_of crossed 7));
    [exact numbered_log_ok|done| |vm_refl|exact crossover_no_fail|vm_refl..].
  intros c [= <-]. vm_compute. discriminate.
Defined.

(** In the second playback, with event 5 in the buffer. *)
Definition crossing : list label := take 10 crossover.
Definition halfway : EventManager := Eval vm_compute in after two_events (LSubscribe 7 (Some 1) :: crossing).

Lemma Subscribe_catches_up_witness :
  seqs halfway 7 = Some [2; 3] ∧
  ∃ ls' em' s', Forall (progress 7) ls' ∧ em_run halfway ls' = Some em' ∧ subscribers em' !! 7%nat = Some s' ∧ log em' = log halfway ∧
    ∃ gap rest, delivered (due two_events (Some 1) (log halfway)) (s_sent s') gap rest ∧
      (s_cut (subscriber_of halfway 7) = false → gap = []) ∧ (rest = [] ∨ rest = option_list (pending halfway)).
Proof.
  split; [vm_refl|].
  apply (Subscribe_catches_up [numbered 1; numbered 2] [] two_events 7 (Some 1) crossing halfway (subscriber_of halfway 7));
    [exact numbered_log_ok|done| |vm_refl| |vm_refl..].
  - intros c [= <-]. vm_compute. discriminate.
  - repeat (apply not_elem_of_cons; split; [discriminate|]). apply not_elem_of_nil.
Defined.

(** A second playback that ends at once, which is what the log of the relay does
    from a cursor at the end of a full file: event 3 is missing for good. *)
Example early_end_loses_event :
  let em := after two_events ([LSubscribe 7 (Some 1); LPlay 7] ++ publish 3 ++ [LPlayEnd 7; LAdd 7] ++ publish 4 ++
    [LReceive 7; LPlayEnd 7] ++ publish 5 ++ [LReceive 7; LForward 7]) in
  seqs em 7 = Some [2; 5] ∧ s_cut (subscriber_of em 7) = true ∧ idle (subscriber_of em 7) = true.
Proof. split_and!; vm_refl. Qed.

(** A panic needs a subscriber with a cursor whose channel was closed and that
    was added all the same. *)
Lemma panicked_subscriber l0 ls em : log_ok l0 → em_run (NewEventManager l0) ls = Some em → panicked em = true →
  ∃ id s, subscribers em !! id = Some s ∧ id ∈ subs em ∧ s_closed s = true ∧ s_since s ≠ None.
Proof. intros Hl Hr. apply eo_panic. by eapply em_run_ok; [apply NewEventManager_ok|]. Qed.

(** The client goes away while the last event is played back. *)
Definition late_cleanup : list label :=
  [LSubscribe 7 (Some 1); LPlay 7; LCleanup 7; LCleanup 7; LCleanup 7; LPlayEnd 7; LAdd 7] ++ publish 3.
Definition panicking : EventManager := Eval vm_compute in after two_events late_cleanup.

(** [Subscribe] adds the subscriber after the first playback even when
    [cleanup] ran meanwhile and closed its channel; until its goroutine removes it
    again, a broadcast may choose to send on the closed channel, and panics. *)
Theorem late_cleanup_panics :
  em_run two_events late_cleanup = Some panicking ∧
  panicked panicking = true ∧ s_closed (subscriber_of panicking 7) = true ∧ subs panicking = [7%nat].
Proof. split_and!; vm_refl. Qed.

(** An event broadcast between the end of the first playback and the addition of
    the subscriber waits for the next one. *)
Example quiet_log_holds_back :
  let em := after two_events ([LSubscribe 7 (Some 1); LPlay 7; LPlayEnd 7] ++ publish 3 ++ [LAdd 7]) in
  seqs em 7 = Some [2] ∧ map (λ e, eseq e) (log em) = [1; 2; 3] ∧ held_back (subscriber_of em 7) = true.
Proof. split_and!; vm_refl. Qed.

(** With a cursor beyond the log the first live event is lost, and the next ones
    are sent although they are not after the cursor. *)
Example future_cursor_loses_event :
  seqs (after two_events ([LSubscribe 7 (Some 10); LPlayEnd 7; LAdd 7] ++ publish 3 ++ publish 4 ++
    [LReceive 7; LPlayEnd 7; LReceive 7; LForward 7])) 7 = Some [4].
Proof. vm_refl. Qed.
