(* ===== verification/Parallel.v ===== *)
(** * The parallel scheduler: [src/cmd/relay/stream/schedulers/parallel/parallel.go]

    Events of one upstream connection are handled by a fixed number of worker
    goroutines.  Events of one repository are handled one after the other in the
    order of arrival; the position up to which the connection may be resumed
    advances only over a contiguous run of handled events.

    The state is the scheduler's fields, the buffer of the [feeder] channel,
    where every goroutine is, and three histories the proofs speak about: the
    tasks accepted by [AddWork], the tasks handed to the event handler [do], and
    the tasks it finished without an error.  A step of a goroutine is one
    critical section, one channel operation, or the start or the return of
    [do]; goroutines take steps in any order. *)

From S2P Require Import Prelude GoStrings Stream.
Local Open Scope Z_scope.

(** [t_id] is the identity of the pointer. *)
Record consumerTask := mkTask {
  t_id : nat;
  t_repo : string;
  t_val : XRPCStreamEvent;
}.
#[export] Instance consumerTask_eq_dec : EqDecision consumerTask.
Proof. solve_decision. Defined.

Definition t_seq (t : consumerTask) : Z := Sequence (Some (t_val t)).

(** Where a worker is: waiting in [select]; at the head of its inner loop; in
    [do]; after a successful [do]; after a failed one, before [stop]; returned
    (with the task whose handler failed). *)
Inductive worker : Type :=
| WIdle
| WLoop (work : consumerTask)
| WRunning (work : consumerTask)
| WDone (work : consumerTask)
| WFailed (work : consumerTask) (err : string)
| WExited (work : option consumerTask).

Record Scheduler := mkScheduler {
  maxQueue : nat;
  feeder : list consumerTask;
  active : gmap string (list consumerTask);
  stopped : bool;
  cancelled : bool;               (* [p.ctx] is done *)
  p_err : option string;
  ackQueue : list consumerTask;
  completed : gset nat;
  lastSeq : Z;
  sending : list consumerTask;    (* calls of [AddWork] in its [select] *)
  workers : list worker;
  next_id : nat;
  added : list consumerTask;
  started : list consumerTask;
  processed : list consumerTask;
}.

Definition NewScheduler (maxC maxQ : Z) : Scheduler :=
  let maxC := if maxC <? 1 then 1 else maxC in
  let maxQ := if maxQ <? 0 then 0 else maxQ in
  mkScheduler (Z.to_nat maxQ) [] ∅ false false None [] ∅ 0 [] (replicate (Z.to_nat maxC) WIdle) 0 [] [] [].

Definition set_feeder x p := mkScheduler (maxQueue p) x (active p) (stopped p) (cancelled p) (p_err p) (ackQueue p) (completed p) (lastSeq p) (sending p) (workers p) (next_id p) (added p) (started p) (processed p).
Definition set_active x p := mkScheduler (maxQueue p) (feeder p) x (stopped p) (cancelled p) (p_err p) (ackQueue p) (completed p) (lastSeq p) (sending p) (workers p) (next_id p) (added p) (started p) (processed p).
Definition set_sending x p := mkScheduler (maxQueue p) (feeder p) (active p) (stopped p) (cancelled p) (p_err p) (ackQueue p) (completed p) (lastSeq p) x (workers p) (next_id p) (added p) (started p) (processed p).
Definition set_workers x p := mkScheduler (maxQueue p) (feeder p) (active p) (stopped p) (cancelled p) (p_err p) (ackQueue p) (completed p) (lastSeq p) (sending p) x (next_id p) (added p) (started p) (processed p).
Definition set_ack q c n p := mkScheduler (maxQueue p) (feeder p) (active p) (stopped p) (cancelled p) (p_err p) q c n (sending p) (workers p) (next_id p) (added p) (started p) (processed p).
Definition set_cancelled p := mkScheduler (maxQueue p) (feeder p) (active p) (stopped p) true (p_err p) (ackQueue p) (completed p) (lastSeq p) (sending p) (workers p) (next_id p) (added p) (started p) (processed p).
Definition log_added t p := mkScheduler (maxQueue p) (feeder p) (active p) (stopped p) (cancelled p) (p_err p) (ackQueue p) (completed p) (lastSeq p) (sending p) (workers p) (S (next_id p)) (added p ++ [t]) (started p) (processed p).
Definition log_started t p := mkScheduler (maxQueue p) (feeder p) (active p) (stopped p) (cancelled p) (p_err p) (ackQueue p) (completed p) (lastSeq p) (sending p) (workers p) (next_id p) (added p) (started p ++ [t]) (processed p).
Definition log_processed t p := mkScheduler (maxQueue p) (feeder p) (active p) (stopped p) (cancelled p) (p_err p) (ackQueue p) (completed p) (lastSeq p) (sending p) (workers p) (next_id p) (added p) (started p) (processed p ++ [t]).

(** The critical section of [stop]; only the first call has an effect.  Its
    [p.cancel()] is the step [LCancel]. *)
Definition stop (err : option string) (p : Scheduler) : Scheduler :=
  if stopped p then p
  else mkScheduler (maxQueue p) (feeder p) ∅ true (cancelled p) err [] ∅ (lastSeq p)
         (sending p) (workers p) (next_id p) (added p) (started p) (processed p).

Definition ErrSchedulerStopped : string := "parallel scheduler stopped".

(** The critical section of [AddWork]: an error; or the task is queued behind
    another one of its repository; or it must be sent to the workers. *)
Definition AddWork_locked (repo : string) (val : XRPCStreamEvent) (p : Scheduler)
  : Scheduler * result string (option consumerTask) :=
  match p_err p with
  | Some e => (p, Err e)
  | None =>
      if stopped p then (p, Err ErrSchedulerStopped)
      else
        let t := mkTask (next_id p) repo val in
        let p := log_added t p in
        let p := if 0 <? t_seq t then set_ack (ackQueue p ++ [t]) (completed p) (lastSeq p) p else p in
        match active p !! repo with
        | Some a => (set_active (<[repo := a ++ [t]]> (active p)) p, Ok None)
        | None => (set_active (<[repo := [t]]> (active p)) p, Ok (Some t))
        end
  end.

(** The loop of [completeAndNext] over the acknowledgement queue. *)
Fixpoint ack_loop (queue : list consumerTask) (completed : gset nat) (last : Z) : list consumerTask * gset nat * Z :=
  match queue with
  | [] => ([], completed, last)
  | head :: queue' =>
      if bool_decide (t_id head ∈ completed) then ack_loop queue' (completed ∖ {[t_id head]}) (t_seq head)
      else (queue, completed, last)
  end.

Definition completeAndNext (work : consumerTask) (p : Scheduler) : Scheduler * option consumerTask :=
  if stopped p then (p, None)
  else
    let p := if 0 <? t_seq work then
        let '(queue, done, last) := ack_loop (ackQueue p) ({[t_id work]} ∪ completed p) (lastSeq p) in
        set_ack queue done last p
      else p in
    match active p !! t_repo work with
    | Some (first :: queued) =>
        if negb (bool_decide (first = work)) then (set_active (delete (t_repo work) (active p)) p, None)
        else
          match queued with
          | [] => (set_active (delete (t_repo work) (active p)) p, None)
          | next :: _ => (set_active (<[t_repo work := queued]> (active p)) p, Some next)
          end
    | Some [] | None => (set_active (delete (t_repo work) (active p)) p, None)
    end.

Definition LastSeq (p : Scheduler) : Z := lastSeq p.

(** ** Steps *)

Inductive label : Type :=
| LAdd (repo : string) (val : XRPCStreamEvent)  (* [AddWork] up to its [select] *)
| LSend (i : nat)                               (* the channel has room *)
| LHandoff (i w : nat)                          (* the channel passes to a waiting worker *)
| LCtxDone (i : nat) (err : string)             (* the caller's context ends *)
| LAbandon (i : nat)                            (* the scheduler's context is done *)
| LTake (w : nat)                               (* a worker receives *)
| LExit (w : nat)                               (* a worker sees the context done *)
| LStart (w : nat)                              (* [do] is called *)
| LReturn (w : nat) (err : option string)       (* [do] returns *)
| LStop (w : nat)                               (* [stop] after a failed [do] *)
| LComplete (w : nat)                           (* [completeAndNext] *)
| LShutdown                                     (* [Shutdown]'s [stop(nil)] *)
| LCancel.                                      (* [p.cancel()] in [stop] *)

Definition remove_at {A} (i : nat) (l : list A) : list A := take i l ++ drop (S i) l.
Definition set_worker (w : nat) (x : worker) (p : Scheduler) : Scheduler := set_workers (<[w := x]> (workers p)) p.

Definition run_label (l : label) (p : Scheduler) : option Scheduler :=
  match l with
  | LAdd repo val =>
      match AddWork_locked repo val p with
      | (p, Ok (Some t)) => Some (set_sending (sending p ++ [t]) p)
      | (p, _) => Some p
      end
  | LSend i =>
      match sending p !! i with
      | Some t => if (length (feeder p) <? maxQueue p)%nat
                  then Some (set_feeder (feeder p ++ [t]) (set_sending (remove_at i (sending p)) p)) else None
      | None => None
      end
  | LHandoff i w =>
      match sending p !! i, feeder p, workers p !! w with
      | Some t, [], Some WIdle => Some (set_worker w (WLoop t) (set_sending (remove_at i (sending p)) p))
      | _, _, _ => None
      end
  | LCtxDone i e =>
      match sending p !! i with
      | Some _ => Some (set_sending (remove_at i (sending p)) (stop (Some e) p))
      | None => None
      end
  | LAbandon i =>
      match sending p !! i with
      | Some _ => if cancelled p then Some (set_sending (remove_at i (sending p)) p) else None
      | None => None
      end
  | LTake w =>
      match workers p !! w, feeder p with
      | Some WIdle, t :: rest => Some (set_worker w (WLoop t) (set_feeder rest p))
      | _, _ => None
      end
  | LExit w =>
      if cancelled p then
        match workers p !! w with
        | Some WIdle | Some (WLoop _) => Some (set_worker w (WExited None) p)
        | _ => None
        end
      else None
  | LStart w =>
      if cancelled p then None
      else match workers p !! w with
           | Some (WLoop t) => Some (set_worker w (WRunning t) (log_started t p))
           | _ => None
           end
  | LReturn w None =>
      match workers p !! w with Some (WRunning t) => Some (set_worker w (WDone t) p) | _ => None end
  | LReturn w (Some e) =>
      match workers p !! w with Some (WRunning t) => Some (set_worker w (WFailed t e) p) | _ => None end
  | LStop w =>
      match workers p !! w with
      | Some (WFailed t e) => Some (set_worker w (WExited (Some t)) (stop (Some e) p))
      | _ => None
      end
  | LComplete w =>
      match workers p !! w with
      | Some (WDone t) =>
          let '(p, next) := completeAndNext t (log_processed t p) in
          Some (set_worker w (match next with Some t => WLoop t | None => WIdle end) p)
      | _ => None
      end
  | LShutdown => Some (stop None p)
  | LCancel => if stopped p then Some (set_cancelled p) else None
  end.

(** States the scheduler can be in. *)
Inductive reachable (maxC maxQ : Z) : Scheduler → Prop :=
| reachable_new : reachable maxC maxQ (NewScheduler maxC maxQ)
| reachable_step l p p' : reachable maxC maxQ p → run_label l p = Some p' → reachable maxC maxQ p'.

Fixpoint run_labels (ls : list label) (p : Scheduler) : option Scheduler :=
  match ls with
  | [] => Some p
  | l :: ls => match run_label l p with Some p => run_labels ls p | None => None end
  end.
