(* ===== verification/ParallelProofs.v ===== *)
(** * Correctness of the parallel scheduler *)

From S2P Require Import Prelude GoStrings Stream Parallel.
Local Open Scope Z_scope.

(** ** Where the tasks are *)

Definition worker_task (x : worker) : option consumerTask :=
  match x with
  | WIdle => None
  | WLoop t | WRunning t | WDone t | WFailed t _ => Some t
  | WExited o => o
  end.
Definition worker_running (x : worker) : option consumerTask :=
  match x with
  | WIdle | WLoop _ => None
  | WRunning t | WDone t | WFailed t _ => Some t
  | WExited o => o
  end.

(** Tasks on their way: each is the oldest unfinished one of its repository. *)
Definition pipeline (p : Scheduler) : list consumerTask := sending p ++ feeder p ++ omap worker_task (workers p).
(** Tasks whose handler was called and has not been completed. *)
Definition running (p : Scheduler) : list consumerTask := omap worker_running (workers p).

(** The tasks of one repository; the tasks with a source position. *)
Definition on (r : string) (l : list consumerTask) : list consumerTask := filter (λ t, t_repo t = r) l.
Definition positive (l : list consumerTask) : list consumerTask := filter (λ t, 0 < t_seq t) l.
Definition last_seq (from : Z) (l : list consumerTask) : Z := from_option t_seq from (last l).

Lemma on_app r l k : on r (l ++ k) = on r l ++ on r k.
Proof. apply filter_app. Qed.

Lemma on_single_same t : on (t_repo t) [t] = [t].
Proof. unfold on. by rewrite filter_cons_True. Qed.

Lemma on_single_other r t : t_repo t ≠ r → on r [t] = [].
Proof. intros Hne. unfold on. by rewrite filter_cons_False. Qed.

Lemma elem_of_on r l t : t ∈ on r l ↔ t_repo t = r ∧ t ∈ l.
Proof. unfold on. by rewrite list_elem_of_filter. Qed.

Lemma on_none r l : (∀ t, t ∈ l → t_repo t ≠ r) → on r l = [].
Proof.
  induction l as [|t l IH]; intros Hl; [done|]. unfold on in *. rewrite filter_cons_False by (apply Hl; by left).
  apply IH. intros u Hu. apply Hl. by right.
Qed.

(** With one task per repository, the order does not matter. *)
Lemma on_perm r l k : NoDup (t_repo <$> l) → l ≡ₚ k → on r l = on r k.
Proof.
  intros Hnd Hp. assert (Hon : on r l ≡ₚ on r k) by (unfold on; by rewrite Hp).
  assert (Hlen : (length (on r l) ≤ 1)%nat).
  { clear Hp Hon. induction l as [|t l IH]; [simpl; lia|]. apply NoDup_cons in Hnd as [Hn Hnd].
    destruct (decide (t_repo t = r)) as [<-|Hne].
    - unfold on. rewrite filter_cons_True by done. fold (on (t_repo t) l).
      rewrite on_none; [simpl; lia|]. intros u Hu Heq. apply Hn. rewrite <-Heq. by apply list_elem_of_fmap_2.
    - unfold on. rewrite filter_cons_False by done. by apply IH. }
  destruct (on r l) as [|t [|u l']]; [|by apply Permutation_singleton_l in Hon|simpl in Hlen; lia].
  by apply Permutation_nil_l in Hon.
Qed.

Lemma remove_at_perm {A} i (l : list A) x : l !! i = Some x → l ≡ₚ x :: remove_at i l.
Proof. intros Hi. rewrite <-(take_drop_middle l i x Hi) at 1. unfold remove_at. by rewrite Permutation_middle. Qed.

(** A list over the workers, without one of them. *)
Definition others {B} (f : worker → option B) (w : nat) (ws : list worker) : list B :=
  omap f (take w ws) ++ omap f (drop (S w) ws).

Lemma worker_split {B} (f : worker → option B) ws w x y :
  ws !! w = Some x →
  omap f ws ≡ₚ option_list (f x) ++ others f w ws ∧ omap f (<[w := y]> ws) ≡ₚ option_list (f y) ++ others f w ws.
Proof.
  intros Hw.
  assert (Ho : ∀ y, omap f (take w ws ++ y :: drop (S w) ws) ≡ₚ option_list (f y) ++ others f w ws).
  { clear y. intros y. rewrite omap_app. unfold others. simpl. destruct (f y); simpl; [by rewrite Permutation_middle|done]. }
  split; [by rewrite <-Ho, take_drop_middle|]. rewrite <-Ho.
  rewrite insert_take_drop by by eapply lookup_lt_Some. done.
Qed.

Lemma running_task_sublist ws : omap worker_running ws `sublist_of` omap worker_task ws.
Proof. induction ws as [|x ws IH]; [done|]. destruct x as [| | | | |[]]; simpl; first [exact IH|by constructor]. Qed.

(** ** The invariant *)

Record inv (p : Scheduler) : Prop := {
  i_pipe : NoDup (t_repo <$> pipeline p);
  i_repo : ∀ r, ∃ rest, on r (added p) = on r (processed p) ++ rest ∧
    (∀ t, t ∈ pipeline p → t_repo t = r → head rest = Some t) ∧
    (stopped p = false →
       active p !! r = match rest with [] => None | _ => Some rest end ∧
       (rest ≠ [] → ∃ t, t ∈ pipeline p ∧ t_repo t = r));
  i_started : ∀ r, on r (started p) = on r (processed p) ++ on r (running p);
  i_ids : NoDup (t_id <$> added p) ∧ Forall (λ t, (t_id t < next_id p)%nat) (added p) ∧
    (∀ i, i ∈ completed p → (i < next_id p)%nat);
  i_ack : ∃ acked pend, positive (added p) = acked ++ pend ∧ Forall (λ t, t ∈ processed p) acked ∧
    lastSeq p = last_seq 0 acked ∧
    (stopped p = false → ackQueue p = pend ∧ (∀ t, t ∈ pend → t_id t ∈ completed p ↔ t ∈ processed p) ∧
       (∀ h, head pend = Some h → h ∉ processed p));
  i_cancel : cancelled p = true → stopped p = true;
}.

Lemma running_pipeline p : running p `sublist_of` pipeline p.
Proof. unfold running, pipeline. do 2 apply sublist_inserts_l. apply running_task_sublist. Qed.

Lemma running_repos p : NoDup (t_repo <$> pipeline p) → NoDup (t_repo <$> running p).
Proof. intros Hnd. eapply sublist_NoDup; [exact Hnd|]. apply (sublist_map t_repo), running_pipeline. Qed.

Lemma inv_new maxC maxQ : inv (NewScheduler maxC maxQ).
Proof.
  assert (Hw : ∀ (f : worker → option consumerTask) n, f WIdle = None → omap f (replicate n WIdle) = []).
  { intros f n Hf. induction n as [|n IH]; [done|]. simpl. by rewrite Hf. }
  constructor; unfold pipeline, running; simpl.
  - rewrite Hw by done. constructor.
  - intros r. exists []. split; [done|]. rewrite Hw by done. split; [by intros t ?%elem_of_nil|].
    intros _. by rewrite lookup_empty.
  - intros r. by rewrite Hw.
  - split; [constructor|]. split; [constructor|]. set_solver.
  - exists [], []. split; [done|]. split; [constructor|]. split; [done|]. intros _. split; [done|]. split; [|done].
    by intros t ?%elem_of_nil.
  - done.
Qed.

(** Fields a movement of tasks does not touch. *)
Record same_books (p p' : Scheduler) : Prop := {
  sb_active : active p' = active p;
  sb_stopped : stopped p' = stopped p;
  sb_cancelled : cancelled p' = cancelled p;
  sb_ackQueue : ackQueue p' = ackQueue p;
  sb_completed : completed p' = completed p;
  sb_lastSeq : lastSeq p' = lastSeq p;
  sb_next : next_id p' = next_id p;
  sb_added : added p' = added p;
  sb_processed : processed p' = processed p;
}.

(** Tasks move along the pipeline. *)
Lemma inv_move p p' :
  inv p → same_books p p' → pipeline p' ≡ₚ pipeline p →
  (∀ r, on r (started p') = on r (processed p) ++ on r (running p')) → inv p'.
Proof.
  intros [Hpipe Hrepo Hst Hids Hack Hc] [] Hp Hst'.
  constructor; rewrite ?sb_active0, ?sb_stopped0, ?sb_cancelled0, ?sb_ackQueue0, ?sb_completed0, ?sb_lastSeq0, ?sb_next0, ?sb_added0, ?sb_processed0; try done.
  - by rewrite Hp.
  - intros r. destruct (Hrepo r) as (rest & Heq & Hhead & Hact). exists rest. setoid_rewrite Hp. done.
Qed.

(** Tasks leave the pipeline after a stop. *)
Lemma inv_shrink p p' gone :
  inv p → same_books p p' → stopped p = true → pipeline p ≡ₚ gone ++ pipeline p' →
  (∀ r, on r (started p') = on r (processed p) ++ on r (running p')) → inv p'.
Proof.
  intros [Hpipe Hrepo Hst Hids Hack Hc] [] Hs Hp Hst'.
  constructor; rewrite ?sb_active0, ?sb_stopped0, ?sb_cancelled0, ?sb_ackQueue0, ?sb_completed0, ?sb_lastSeq0, ?sb_next0, ?sb_added0, ?sb_processed0; try done.
  - rewrite Hp, fmap_app in Hpipe. by apply NoDup_app in Hpipe as (_ & _ & ?).
  - intros r. destruct (Hrepo r) as (rest & Heq & Hhead & Hact). exists rest. split; [done|]. split; [|congruence].
    intros t Ht. apply Hhead. rewrite Hp. apply elem_of_app. by right.
Qed.

Lemma inv_stop err p : inv p → inv (stop err p).
Proof.
  intros Hi. unfold stop. destruct (stopped p) eqn:Hs; [done|]. destruct Hi as [Hpipe Hrepo Hst Hids Hack Hc].
  constructor; simpl; try done.
  - intros r. destruct (Hrepo r) as (rest & Heq & Hhead & _). by exists rest.
  - destruct Hids as (H1 & H2 & _). split; [done|]. split; [done|]. set_solver.
  - destruct Hack as (acked & pend & H1 & H2 & H3 & _). by exists acked, pend.
Qed.

Lemma stop_books err p : stopped (stop err p) = true ∧ pipeline (stop err p) = pipeline p ∧
  running (stop err p) = running p ∧ started (stop err p) = started p ∧ processed (stop err p) = processed p ∧
  workers (stop err p) = workers p ∧ sending (stop err p) = sending p.
Proof. unfold stop. by destruct (stopped p) eqn:Hs. Qed.

(** ** Steps that move tasks *)

(** Replacing the state of one worker. *)
Lemma set_worker_tasks p w x y :
  workers p !! w = Some x →
  ∃ rest runs, pipeline p ≡ₚ option_list (worker_task x) ++ rest ∧
    pipeline (set_worker w y p) ≡ₚ option_list (worker_task y) ++ rest ∧
    running p ≡ₚ option_list (worker_running x) ++ runs ∧
    running (set_worker w y p) ≡ₚ option_list (worker_running y) ++ runs ∧
    (∀ t, t ∈ runs → t ∈ rest).
Proof.
  intros Hw. destruct (worker_split worker_task _ _ _ y Hw) as [Ha1 Ha2].
  destruct (worker_split worker_running _ _ _ y Hw) as [Hb1 Hb2].
  exists (sending p ++ feeder p ++ others worker_task w (workers p)), (others worker_running w (workers p)).
  unfold pipeline, running, set_worker. simpl. rewrite Ha1, Ha2.
  split_and!; [solve_Permutation..|done|done|].
  intros t Ht. do 2 (apply elem_of_app; right). revert Ht. unfold others. rewrite !elem_of_app.
  pose proof (sublist_subseteq _ _ (running_task_sublist (take w (workers p)))).
  pose proof (sublist_subseteq _ _ (running_task_sublist (drop (S w) (workers p)))). set_solver.
Qed.

(** A task moves and no handler is called. *)
Lemma inv_transfer p p' :
  inv p → same_books p p' → pipeline p' ≡ₚ pipeline p → running p' ≡ₚ running p → started p' = started p → inv p'.
Proof.
  intros Hi Hb Hp Hr Hs. apply (inv_move p); [done..|]. intros r. rewrite Hs, (i_started p Hi r). f_equal.
  symmetry. apply on_perm; [|done]. rewrite Hr. apply running_repos, Hi.
Qed.

Lemma inv_send p i t :
  inv p → sending p !! i = Some t → inv (set_feeder (feeder p ++ [t]) (set_sending (remove_at i (sending p)) p)).
Proof.
  intros Hi Ht. apply remove_at_perm in Ht. apply (inv_transfer p); [done|by constructor| |done..].
  unfold pipeline. simpl. rewrite Ht at 2. solve_Permutation.
Qed.

Lemma inv_handoff p i w t :
  inv p → sending p !! i = Some t → workers p !! w = Some WIdle →
  inv (set_worker w (WLoop t) (set_sending (remove_at i (sending p)) p)).
Proof.
  intros Hi Ht Hw. apply remove_at_perm in Ht.
  destruct (worker_split worker_task _ _ _ (WLoop t) Hw) as [Ha1 Ha2].
  destruct (worker_split worker_running _ _ _ (WLoop t) Hw) as [Hb1 Hb2].
  apply (inv_transfer p); [done|by constructor| | |done].
  - unfold pipeline, set_worker. simpl. rewrite Ht at 2. rewrite Ha1, Ha2. simpl. solve_Permutation.
  - unfold running, set_worker. simpl. by rewrite Hb1, Hb2.
Qed.

Lemma inv_take p w t rest :
  inv p → feeder p = t :: rest → workers p !! w = Some WIdle → inv (set_worker w (WLoop t) (set_feeder rest p)).
Proof.
  intros Hi Hf Hw. destruct (worker_split worker_task _ _ _ (WLoop t) Hw) as [Ha1 Ha2].
  destruct (worker_split worker_running _ _ _ (WLoop t) Hw) as [Hb1 Hb2].
  apply (inv_transfer p); [done|by constructor| | |done].
  - unfold pipeline, set_worker. simpl. rewrite Hf, Ha1, Ha2. simpl. solve_Permutation.
  - unfold running, set_worker. simpl. by rewrite Hb1, Hb2.
Qed.

Lemma inv_return p w t y :
  inv p → workers p !! w = Some (WRunning t) → worker_task y = Some t → worker_running y = Some t →
  inv (set_worker w y p).
Proof.
  intros Hi Hw Hy1 Hy2. destruct (set_worker_tasks _ _ _ y Hw) as (rest & runs & Hp & Hp' & Hr & Hr' & _).
  apply (inv_transfer p); [done|by constructor| | |done].
  - by rewrite Hp, Hp', Hy1.
  - by rewrite Hr, Hr', Hy2.
Qed.

Lemma inv_start p w t :
  inv p → workers p !! w = Some (WLoop t) → inv (set_worker w (WRunning t) (log_started t p)).
Proof.
  intros Hi Hw. destruct (set_worker_tasks _ _ _ (WRunning t) Hw) as (rest & runs & Hp & Hp' & Hr & Hr' & Hsub).
  change (pipeline (set_worker w (WRunning t) p)) with (pipeline (set_worker w (WRunning t) (log_started t p))) in Hp'.
  change (running (set_worker w (WRunning t) p)) with (running (set_worker w (WRunning t) (log_started t p))) in Hr'.
  simpl in *. apply (inv_move p); [done|by constructor|by rewrite Hp', Hp|].
  intros r. simpl. rewrite on_app, (i_started p Hi r), <-app_assoc. f_equal.
  pose proof (i_pipe p Hi) as Hnd. rewrite Hp in Hnd. simpl in Hnd. apply NoDup_cons in Hnd as [Hn Hnd].
  assert (Hnd' : NoDup (t_repo <$> running (set_worker w (WRunning t) (log_started t p)))).
  { apply running_repos. rewrite Hp'. by constructor. }
  rewrite (on_perm r _ _ Hnd' Hr'). rewrite (on_perm r _ _ (running_repos p (i_pipe p Hi)) Hr).
  change (t :: runs) with ([t] ++ runs). rewrite on_app. destruct (decide (t_repo t = r)) as [<-|Hne].
  - rewrite on_single_same, on_none; [done|]. intros u Hu Heq. apply Hn. rewrite <-Heq. apply list_elem_of_fmap_2. auto.
  - rewrite on_single_other by done. by rewrite app_nil_r.
Qed.

(** ** Steps after a stop *)

Lemma inv_drop_sender p i t :
  inv p → stopped p = true → sending p !! i = Some t → inv (set_sending (remove_at i (sending p)) p).
Proof.
  intros Hi Hs Ht. apply remove_at_perm in Ht. apply (inv_shrink p _ [t]); [done|by constructor|done| |].
  - unfold pipeline. simpl. by rewrite Ht at 1.
  - apply (i_started p Hi).
Qed.

Lemma inv_exit p w x :
  inv p → stopped p = true → workers p !! w = Some x → worker_running x = None → inv (set_worker w (WExited None) p).
Proof.
  intros Hi Hs Hw Hx. destruct (set_worker_tasks _ _ _ (WExited None) Hw) as (rest & runs & Hp & Hp' & Hr & Hr' & _).
  apply (inv_shrink p _ (option_list (worker_task x))); [done|by constructor|done|by rewrite Hp, Hp'|].
  intros r. change (started (set_worker w (WExited None) p)) with (started p). rewrite (i_started p Hi r). f_equal.
  apply on_perm; [apply running_repos, Hi|]. by rewrite Hr, Hr', Hx.
Qed.

Lemma inv_stop_failed p w t e :
  inv p → workers p !! w = Some (WFailed t e) → inv (set_worker w (WExited (Some t)) (stop (Some e) p)).
Proof.
  intros Hi Hw. destruct (stop_books (Some e) p) as (Hs & Hpipe & Hrun & Hst & Hpr & Hws & _).
  assert (Hw' : workers (stop (Some e) p) !! w = Some (WFailed t e)) by by rewrite Hws.
  destruct (set_worker_tasks _ _ _ (WExited (Some t)) Hw') as (rest & runs & Hp & Hp' & Hr & Hr' & _).
  apply (inv_transfer (stop (Some e) p)); [by apply inv_stop|by constructor|by rewrite Hp, Hp'|by rewrite Hr, Hr'|done].
Qed.

(** ** Accepting a task *)

Lemma positive_app l k : positive (l ++ k) = positive l ++ positive k.
Proof. apply filter_app. Qed.

Lemma processed_added p t : inv p → t ∈ processed p → t ∈ added p.
Proof.
  intros Hi Ht. destruct (i_repo p Hi (t_repo t)) as (rest & Heq & _).
  assert (Hin : t ∈ on (t_repo t) (added p)) by (rewrite Heq; apply elem_of_app; left; by apply elem_of_on).
  by apply elem_of_on in Hin as [_ ?].
Qed.

(** The books after a task [t] was accepted into the queue [q]. *)
Lemma inv_accept p p' t :
  inv p → stopped p = false → t_id t = next_id p →
  added p' = added p ++ [t] → processed p' = processed p → started p' = started p → running p' = running p →
  next_id p' = S (next_id p) → completed p' = completed p → lastSeq p' = lastSeq p → stopped p' = stopped p → cancelled p' = cancelled p →
  ackQueue p' = ackQueue p ++ positive [t] →
  (∀ r, r ≠ t_repo t → active p' !! r = active p !! r) →
  active p' !! t_repo t = Some (default [] (active p !! t_repo t) ++ [t]) →
  (active p !! t_repo t = None ∧ pipeline p' ≡ₚ t :: pipeline p ∨
   active p !! t_repo t ≠ None ∧ pipeline p' = pipeline p) → inv p'.
Proof.
  intros Hi Hs Hid Hadd Hproc Hst Hrun Hnext Hcomp Hlast Hstop Hcan Hq Hother Hact Hpipe.
  assert (Hfresh : t ∉ added p).
  { intros Hin. destruct (i_ids p Hi) as (_ & Hlt & _). rewrite Forall_forall in Hlt. specialize (Hlt _ Hin). simpl in Hlt. lia. }
  assert (Hnone : active p !! t_repo t = None → ∀ u, u ∈ pipeline p → t_repo u ≠ t_repo t).
  { intros Hn u Hu Heq. destruct (i_repo p Hi (t_repo t)) as (rest & _ & Hhead & Ha). specialize (Hhead u Hu Heq).
    destruct (Ha Hs) as [Ha' _]. rewrite Hn in Ha'. by destruct rest. }
  assert (Hsub : ∀ u, u ∈ pipeline p → u ∈ pipeline p') by (intros u Hu; destruct Hpipe as [[_ ->]|[_ ->]]; [by right|done]).
  constructor; rewrite ?Hadd, ?Hproc, ?Hst, ?Hrun, ?Hnext, ?Hcomp, ?Hlast, ?Hstop, ?Hcan.
  - destruct Hpipe as [[Hn ->]|[_ ->]]; [|apply Hi]. simpl. constructor; [|apply Hi].
    intros (u & Heq & Hu)%list_elem_of_fmap. exact (Hnone Hn u Hu (eq_sym Heq)).
  - intros r. destruct (i_repo p Hi r) as (rest & Heq & Hhead & Ha). destruct (Ha Hs) as [Hact_r Hpipe_r].
    rewrite on_app, Heq, <-app_assoc. exists (rest ++ on r [t]). split; [done|].
    destruct (decide (t_repo t = r)) as [<-|Hne].
    + rewrite on_single_same. split.
      * intros u Hu Hr. destruct Hpipe as [[Hn Hp]|[Hn Hp]]; rewrite Hp in Hu.
        -- rewrite Hact_r in Hn. destruct rest; [|done]. apply elem_of_cons in Hu as [->|Hu]; [done|]. by destruct (Hnone Hact_r u Hu).
        -- specialize (Hhead u Hu Hr). by destruct rest.
      * intros _. rewrite Hact, Hact_r. split; [by destruct rest|]. intros _.
        destruct Hpipe as [[Hn Hp]|[Hn Hp]]; [exists t; split; [rewrite Hp; by left|done]|].
        destruct Hpipe_r as (u & Hu & Hr); [by destruct rest; [rewrite Hact_r in Hn|]|]. exists u. by rewrite Hp.
    + rewrite on_single_other, app_nil_r by done. split.
      * intros u Hu Hr. apply Hhead; [|done]. destruct Hpipe as [[Hn Hp]|[Hn Hp]]; rewrite Hp in Hu; [|done].
        apply elem_of_cons in Hu as [->|]; done.
      * intros _. rewrite Hother by done. split; [done|]. intros Hr. destruct (Hpipe_r Hr) as (u & Hu & Hur). exists u. auto.
  - apply (i_started p Hi).
  - destruct (i_ids p Hi) as (Hnd & Hlt & Hc). rewrite fmap_app. split_and!.
    + apply NoDup_app. split; [done|]. split; [|apply NoDup_singleton]. intros i Hi1 Hi2. apply list_elem_of_singleton in Hi2 as ->.
      apply list_elem_of_fmap in Hi1 as (u & Hu & Hin). rewrite Forall_forall in Hlt. specialize (Hlt u Hin). lia.
    + apply Forall_app. split; [eapply Forall_impl; [exact Hlt|simpl; lia]|]. apply Forall_singleton. lia.
    + intros i Hic. specialize (Hc i Hic). lia.
  - destruct (i_ack p Hi) as (acked & pend & Heq & Hack & Hl & Hrest). destruct (Hrest Hs) as (Hq' & Hc & Hh).
    exists acked, (pend ++ positive [t]). rewrite positive_app, Heq, <-app_assoc. split_and!; try done. intros _. split_and!.
    + by rewrite Hq, Hq'.
    + intros u [Hu|Hu]%elem_of_app; [by apply Hc|]. apply list_elem_of_filter in Hu as [_ Hu]. apply list_elem_of_singleton in Hu as ->.
      split; [|intros Hin; by apply (processed_added p) in Hin]. intros Hin. destruct (i_ids p Hi) as (_ & _ & Hcl). specialize (Hcl _ Hin). lia.
    + intros h Hhd Hin. destruct pend as [|h' pend]; [|simpl in Hhd; simplify_eq; by eapply Hh].
      simpl in Hhd. apply (processed_added p) in Hin; [|done]. assert (Hh' : h ∈ positive [t]) by (destruct (positive [t]); simplify_eq/=; by left).
      apply list_elem_of_filter in Hh' as [_ Hh']. apply list_elem_of_singleton in Hh' as ->. done.
  - apply (i_cancel p Hi).
Qed.

Lemma inv_add repo val p p' : inv p → run_label (LAdd repo val) p = Some p' → inv p'.
Proof.
  intros Hi. simpl. unfold AddWork_locked. destruct (p_err p); [by intros [= <-]|].
  destruct (stopped p) eqn:Hs; [by intros [= <-]|]. set (t := mkTask (next_id p) repo val).
  assert (Hq : ∀ q, ackQueue (set_active q (if 0 <? t_seq t then set_ack (ackQueue (log_added t p) ++ [t]) (completed (log_added t p))
    (lastSeq (log_added t p)) (log_added t p) else log_added t p)) = ackQueue p ++ positive [t]).
  { intros q. unfold positive. destruct (Z.ltb_spec 0 (t_seq t)) as [Hlt|Hge].
    - by rewrite filter_cons_True.
    - rewrite filter_cons_False by lia. simpl. by rewrite app_nil_r. }
  set (p1 := if 0 <? t_seq t then _ else _) in *.
  assert (Hp1 : active p1 = active p ∧ stopped p1 = stopped p ∧ cancelled p1 = cancelled p ∧ completed p1 = completed p ∧
    lastSeq p1 = lastSeq p ∧ next_id p1 = S (next_id p) ∧ added p1 = added p ++ [t] ∧ started p1 = started p ∧
    processed p1 = processed p ∧ sending p1 = sending p ∧ feeder p1 = feeder p ∧ workers p1 = workers p)
    by (unfold p1; by destruct (0 <? t_seq t)).
  destruct Hp1 as (Ha & ? & ? & ? & ? & ? & ? & ? & ? & Hse & Hfe & Hwo). rewrite Ha.
  destruct (active p !! repo) as [a|] eqn:Hact; intros [= <-]; (apply (inv_accept p _ t); simpl; rewrite ?Ha; try done).
  - unfold running. simpl. by rewrite Hwo.
  - apply (Hq ∅).
  - intros r Hr. by rewrite lookup_insert_ne.
  - by rewrite lookup_insert_eq, Hact.
  - right. split; [congruence|]. unfold pipeline. simpl. by rewrite Hse, Hfe, Hwo.
  - unfold running. simpl. by rewrite Hwo.
  - apply (Hq ∅).
  - intros r Hr. by rewrite lookup_insert_ne.
  - by rewrite lookup_insert_eq, Hact.
  - left. split; [done|]. unfold pipeline. simpl. rewrite Hse, Hfe, Hwo. solve_Permutation.
Qed.

(** ** Completing a task *)

Lemma last_seq_app from l k : last_seq from (l ++ k) = last_seq (last_seq from l) k.
Proof. unfold last_seq. destruct k as [|t k] using rev_ind; [by rewrite app_nil_r|]. by rewrite app_assoc, !last_snoc. Qed.

(** The loop takes the longest run of handled tasks off the queue. *)
Lemma ack_loop_spec (P : consumerTask → Prop) queue c from :
  NoDup (t_id <$> queue) → (∀ t, t ∈ queue → t_id t ∈ c ↔ P t) →
  let '(queue', c', last') := ack_loop queue c from in
  ∃ acked, queue = acked ++ queue' ∧ Forall P acked ∧ last' = last_seq from acked ∧ c' ⊆ c ∧
    (∀ t, t ∈ queue' → t_id t ∈ c' ↔ P t) ∧ (∀ h, head queue' = Some h → ¬ P h).
Proof.
  revert c from. induction queue as [|h queue IH]; intros c from Hnd Hc; simpl.
  { exists []. split_and!; try done. }
  simpl in Hnd. apply NoDup_cons in Hnd as [Hn Hnd]. case_bool_decide as Hh.
  - specialize (IH (c ∖ {[t_id h]}) (t_seq h) Hnd). destruct (ack_loop queue _ _) as [[queue' c'] last'].
    destruct IH as (acked & -> & Hack & -> & Hsub & Hq & Hhd).
    { intros t Ht. rewrite <-(Hc t) by by right. assert (t_id t ≠ t_id h); [|set_solver].
      intros Heq. apply Hn. rewrite <-Heq. by apply list_elem_of_fmap_2. }
    exists (h :: acked). split_and!; [done| |exact (eq_sym (last_seq_app from [h] acked))|set_solver|done|done].
    constructor; [|done]. apply Hc; [by left|done].
  - exists []. split_and!; try done. intros h' [= <-] HP. apply Hh, Hc; [by left|done].
Qed.

Lemma positive_ids p : inv p → NoDup (t_id <$> positive (added p)).
Proof.
  intros Hi. destruct (i_ids p Hi) as (Hnd & _). eapply sublist_NoDup; [exact Hnd|]. apply (sublist_map t_id), sublist_filter.
Qed.

(** Tasks are told apart by their identity. *)
Lemma same_id p t u : inv p → t ∈ added p → u ∈ added p → t_id t = t_id u → t = u.
Proof.
  intros Hi Ht Hu Heq. apply list_elem_of_lookup in Ht as [i Ht], Hu as [j Hu]. destruct (i_ids p Hi) as (Hnd & _).
  assert (i = j) as <-; [|congruence]. apply (NoDup_lookup _ i j (t_id t) Hnd);
    rewrite list_lookup_fmap, ?Ht, ?Hu; simpl; congruence.
Qed.

(** The acknowledgement queue after [t] was handled. *)
Lemma ack_complete p t :
  inv p → stopped p = false → t ∈ added p →
  let p1 := if 0 <? t_seq t then
      let '(queue, done, last) := ack_loop (ackQueue p) ({[t_id t]} ∪ completed p) (lastSeq p) in set_ack queue done last p
    else p in
  (∀ i, i ∈ completed p1 → (i < next_id p)%nat) ∧
  ∃ acked pend, positive (added p) = acked ++ pend ∧ Forall (λ u, u ∈ processed p ++ [t]) acked ∧
    lastSeq p1 = last_seq 0 acked ∧ ackQueue p1 = pend ∧
    (∀ u, u ∈ pend → t_id u ∈ completed p1 ↔ u ∈ processed p ++ [t]) ∧ (∀ h, head pend = Some h → h ∉ processed p ++ [t]).
Proof.
  intros Hi Hs Hin. destruct (i_ack p Hi) as (acked & pend & Heq & Hack & Hl & Hrest). destruct (Hrest Hs) as (Hq & Hc & Hh).
  destruct (i_ids p Hi) as (_ & Hlt & Hcl). rewrite Forall_forall in Hlt.
  assert (Hpend : ∀ u, u ∈ pend → u ∈ added p ∧ 0 < t_seq u).
  { intros u Hu. assert (Hu' : u ∈ positive (added p)) by (rewrite Heq; apply elem_of_app; by right).
    apply list_elem_of_filter in Hu' as [??]. done. }
  assert (Hack' : Forall (λ u, u ∈ processed p ++ [t]) acked).
  { eapply Forall_impl; [exact Hack|]. intros u Hu. simpl. apply elem_of_app. by left. }
  destruct (Z.ltb_spec 0 (t_seq t)) as [Hpos|Hneg]; cbv zeta.
  - pose proof (ack_loop_spec (λ u, u ∈ processed p ++ [t]) pend ({[t_id t]} ∪ completed p) (lastSeq p)) as Hloop.
    rewrite Hq. destruct (ack_loop pend _ _) as [[queue done] last'].
    destruct Hloop as (acked2 & Hp2 & Hf2 & -> & Hsub & Hm2 & Hh2).
    { pose proof (positive_ids p Hi) as Hnd. rewrite Heq, fmap_app in Hnd. by apply NoDup_app in Hnd as (_ & _ & ?). }
    { intros u Hu. destruct (Hpend u Hu) as [Hua _]. rewrite elem_of_union, elem_of_singleton, (Hc u Hu), elem_of_app, list_elem_of_singleton.
      split; [intros [Hid|]; [right; by apply (same_id p)|by left]|intros [?| ->]; auto]. }
    simpl. split; [intros i Hic; apply Hsub in Hic; apply elem_of_union in Hic as [Hic%elem_of_singleton|Hic]; [subst i; by apply Hlt|by apply Hcl]|].
    exists (acked ++ acked2), queue. split_and!; try done; [by rewrite Heq, Hp2, app_assoc|by apply Forall_app|by rewrite last_seq_app, <-Hl].
  - split; [done|]. exists acked, pend. split_and!; try done.
    + intros u Hu. rewrite (Hc u Hu), elem_of_app, list_elem_of_singleton. destruct (Hpend u Hu). split; [by left|]. intros [?| ->]; [done|lia].
    + intros h Hhd. rewrite elem_of_app, list_elem_of_singleton. intros [?| ->]; [by eapply Hh|].
      assert (t ∈ pend) as Ht by (destruct pend; simplify_eq/=; by left). destruct (Hpend t Ht). lia.
Qed.

(** What completion does to the queue of the task's repository. *)
Lemma completeAndNext_spec t p rest :
  inv p → stopped p = false → active p !! t_repo t = Some (t :: rest) →
  ∃ p1, completeAndNext t (log_processed t p) = (p1, head rest) ∧
    active p1 = (match rest with [] => delete (t_repo t) (active p) | _ => <[t_repo t := rest]> (active p) end) ∧
    stopped p1 = false ∧ cancelled p1 = cancelled p ∧ next_id p1 = next_id p ∧ added p1 = added p ∧ started p1 = started p ∧
    processed p1 = processed p ++ [t] ∧ sending p1 = sending p ∧ feeder p1 = feeder p ∧ workers p1 = workers p ∧
    let p2 := if 0 <? t_seq t then
        let '(queue, done, last) := ack_loop (ackQueue p) ({[t_id t]} ∪ completed p) (lastSeq p) in set_ack queue done last p
      else p in
    ackQueue p1 = ackQueue p2 ∧ completed p1 = completed p2 ∧ lastSeq p1 = lastSeq p2.
Proof.
  intros Hi Hs Ha. unfold completeAndNext. simpl stopped. rewrite Hs. simpl ackQueue. simpl completed. simpl lastSeq.
  destruct (ack_loop _ _ _) as [[queue done] last']. destruct (0 <? t_seq t); simpl; rewrite Ha, bool_decide_true by done; simpl;
    destruct rest as [|next rest]; (eexists; split; [reflexivity|]); simpl; rewrite ?Hs; by split_and!.
Qed.

(** A task being completed is the oldest of its repository, and was handled last. *)
Lemma done_books p w t :
  inv p → workers p !! w = Some (WDone t) →
  ∃ rest runs others, on (t_repo t) (added p) = on (t_repo t) (processed p) ++ t :: rest ∧
    (stopped p = false → active p !! t_repo t = Some (t :: rest)) ∧
    pipeline p ≡ₚ t :: others ∧ (∀ u, u ∈ others → t_repo u ≠ t_repo t) ∧
    running p ≡ₚ t :: runs ∧ (∀ u, u ∈ runs → u ∈ others) ∧
    ∀ y, pipeline (set_worker w y p) ≡ₚ option_list (worker_task y) ++ others ∧
         running (set_worker w y p) ≡ₚ option_list (worker_running y) ++ runs.
Proof.
  intros Hi Hw. destruct (i_repo p Hi (t_repo t)) as (rest & Heq & Hhead & Hact).
  destruct (worker_split worker_task _ _ _ WIdle Hw) as [Ha1 _]. destruct (worker_split worker_running _ _ _ WIdle Hw) as [Hb1 _].
  set (oth := sending p ++ feeder p ++ others worker_task w (workers p)).
  assert (Hp : pipeline p ≡ₚ t :: oth) by (unfold pipeline, oth; rewrite Ha1; simpl; solve_Permutation).
  assert (Hrest : ∃ rest', rest = t :: rest').
  { assert (Hh : head rest = Some t) by (apply Hhead; [rewrite Hp; by left|done]). destruct rest as [|x rest']; simplify_eq/=. by exists rest'. }
  destruct Hrest as [rest' ->]. exists rest', (others worker_running w (workers p)), oth.
  pose proof (i_pipe p Hi) as Hnd. rewrite Hp in Hnd. simpl in Hnd. apply NoDup_cons in Hnd as [Hn _].
  split_and!; [done|intros Hs; by apply Hact|done| |by unfold running; rewrite Hb1| |].
  - intros u Hu Hr. apply Hn. rewrite <-Hr. by apply list_elem_of_fmap_2.
  - intros u Hu. unfold oth. do 2 (apply elem_of_app; right). revert Hu. unfold others. rewrite !elem_of_app.
    pose proof (sublist_subseteq _ _ (running_task_sublist (take w (workers p)))).
    pose proof (sublist_subseteq _ _ (running_task_sublist (drop (S w) (workers p)))). set_solver.
  - intros y. destruct (worker_split worker_task _ _ _ y Hw) as [_ Ha2]. destruct (worker_split worker_running _ _ _ y Hw) as [_ Hb2].
    unfold pipeline, running, set_worker, oth. simpl. rewrite Ha2, Hb2. split; [solve_Permutation|done].
Qed.

(** The books after [t] was completed and the worker went on with [next]. *)
Lemma inv_completed p p' t rest oth runs next :
  inv p → on (t_repo t) (added p) = on (t_repo t) (processed p) ++ t :: rest →
  pipeline p ≡ₚ t :: oth → (∀ u, u ∈ oth → t_repo u ≠ t_repo t) → running p ≡ₚ t :: runs → (∀ u, u ∈ runs → u ∈ oth) →
  next = (if stopped p then None else head rest) →
  pipeline p' ≡ₚ option_list next ++ oth → running p' ≡ₚ runs →
  added p' = added p → started p' = started p → processed p' = processed p ++ [t] → next_id p' = next_id p →
  stopped p' = stopped p → cancelled p' = cancelled p →
  (stopped p = false → active p' = (match rest with [] => delete (t_repo t) (active p) | _ => <[t_repo t := rest]> (active p) end)) →
  (∀ i, i ∈ completed p' → (i < next_id p)%nat) →
  (∃ acked pend, positive (added p) = acked ++ pend ∧ Forall (λ u, u ∈ processed p ++ [t]) acked ∧ lastSeq p' = last_seq 0 acked ∧
     (stopped p = false → ackQueue p' = pend ∧ (∀ u, u ∈ pend → t_id u ∈ completed p' ↔ u ∈ processed p ++ [t]) ∧
        (∀ h, head pend = Some h → h ∉ processed p ++ [t]))) →
  inv p'.
Proof.
  intros Hi Heq Hp Hoth Hr Hruns Hnext Hp' Hr' Hadd Hst Hproc Hid Hstop Hcan Hact Hcomp Hack.
  pose proof (i_pipe p Hi) as Hnd. rewrite Hp in Hnd. simpl in Hnd. apply NoDup_cons in Hnd as [Hn Hnd].
  assert (Hrepo_next : ∀ u, next = Some u → t_repo u = t_repo t).
  { intros u Hu. assert (Hin : u ∈ on (t_repo t) (added p)).
    { rewrite Heq. apply elem_of_app. right. right. destruct (stopped p), rest; simplify_eq/=. by left. }
    by apply elem_of_on in Hin as [? _]. }
  constructor; rewrite ?Hadd, ?Hst, ?Hproc, ?Hid, ?Hstop, ?Hcan.
  - rewrite Hp'. destruct next as [u|]; [|done]. simpl. constructor; [|done]. by rewrite (Hrepo_next u).
  - intros r. destruct (decide (t_repo t = r)) as [<-|Hne].
    + exists rest. rewrite on_app, on_single_same, <-app_assoc. split; [done|]. split.
      * intros u Hu Hur. rewrite Hp' in Hu. apply elem_of_app in Hu as [Hu|Hu]; [|by destruct (Hoth u Hu)].
        destruct next as [v|]; [|by apply elem_of_nil in Hu]. apply list_elem_of_singleton in Hu as ->.
        by destruct (stopped p).
      * intros Hs. rewrite (Hact Hs). rewrite Hs in Hnext. destruct rest as [|v rest]; [by rewrite lookup_delete_eq|].
        rewrite lookup_insert_eq. split; [done|]. intros _. exists v. split; [|by apply Hrepo_next].
        rewrite Hp', Hnext. by left.
    + destruct (i_repo p Hi r) as (rest_r & Heq_r & Hhead & Hact_r). exists rest_r.
      rewrite on_app, on_single_other, app_nil_r by done. split; [done|]. split.
      * intros u Hu Hur. rewrite Hp' in Hu. apply elem_of_app in Hu as [Hu|Hu]; [|apply Hhead; [rewrite Hp; by right|done]].
        destruct next as [v|]; [|by apply elem_of_nil in Hu]. apply list_elem_of_singleton in Hu as ->.
        rewrite Hrepo_next in Hur by done. done.
      * intros Hs. destruct (Hact_r Hs) as [Hl Hex]. rewrite (Hact Hs). split.
        -- destruct rest; [by rewrite lookup_delete_ne|by rewrite lookup_insert_ne].
        -- intros Hne_r. destruct (Hex Hne_r) as (u & Hu & Hur). exists u. split; [|done]. rewrite Hp in Hu.
           apply elem_of_cons in Hu as [->|Hu]; [done|]. rewrite Hp'. apply elem_of_app. by right.
  - intros r. rewrite (i_started p Hi r), on_app, <-app_assoc. f_equal.
    rewrite (on_perm r _ _ (running_repos p (i_pipe p Hi)) Hr).
    assert (Hnd_runs : NoDup (t_repo <$> running p')).
    { rewrite Hr'. pose proof (running_repos p (i_pipe p Hi)) as Hx. rewrite Hr in Hx. simpl in Hx. by apply NoDup_cons in Hx as [_ ?]. }
    rewrite (on_perm r _ _ Hnd_runs Hr'). by rewrite <-on_app.
  - destruct (i_ids p Hi) as (H1 & H2 & _). by split_and!.
  - exact Hack.
  - apply (i_cancel p Hi).
Qed.

Lemma inv_complete p w p' : inv p → run_label (LComplete w) p = Some p' → inv p'.
Proof.
  intros Hi. simpl. destruct (workers p !! w) as [x|] eqn:Hw; [|done]. destruct x as [|t|t|t|t e|o]; try done.
  destruct (done_books p w t Hi Hw) as (rest & runs & oth & Heq & Hact & Hp & Hoth & Hr & Hruns & Hset).
  assert (Hin : t ∈ added p).
  { assert (Ht : t ∈ on (t_repo t) (added p)) by (rewrite Heq; apply elem_of_app; right; by left). by apply elem_of_on in Ht as [_ ?]. }
  destruct (stopped p) eqn:Hs.
  - unfold completeAndNext. simpl. rewrite Hs. intros [= <-]. destruct (Hset WIdle) as [Hp1 Hr1].
    apply (inv_completed p _ t rest oth runs None); simpl; rewrite ?Hs; try done.
    + apply (i_ids p Hi).
    + destruct (i_ack p Hi) as (acked & pend & H1 & H2 & H3 & _). exists acked, pend. split_and!; try done.
      eapply Forall_impl; [exact H2|]. intros u Hu. simpl. apply elem_of_app. by left.
  - destruct (completeAndNext_spec t p rest Hi Hs (Hact eq_refl)) as (p1 & -> & Ha1 & ? & ? & ? & ? & ? & ? & Hse & Hfe & Hwo & Hq & Hc & Hl).
    intros [= <-]. set (y := match head rest with Some u => WLoop u | None => WIdle end). destruct (Hset y) as [Hp1 Hr1].
    destruct (ack_complete p t Hi Hs Hin) as (Hcl & acked & pend & Hk1 & Hk2 & Hk3 & Hk4 & Hk5 & Hk6).
    apply (inv_completed p _ t rest oth runs (head rest)); simpl; rewrite ?Hs, ?Hq, ?Hc, ?Hl; try done.
    + unfold pipeline, set_worker in *. simpl in *. rewrite Hse, Hfe, Hwo. rewrite Hp1. unfold y. by destruct (head rest).
    + unfold running, set_worker in *. simpl in *. rewrite Hwo, Hr1. unfold y. by destruct (head rest).
    + exists acked, pend. split_and!; try done.
Qed.

Lemma inv_step l p p' : inv p → run_label l p = Some p' → inv p'.
Proof.
  intros Hi. destruct l as [repo val|i|i w|i e|i|w|w|w|w [e|]|w|w| |]; [by apply inv_add|..]; simpl.
  - destruct (sending p !! i) eqn:Ht; [|done]. case_match; [|done]. intros [= <-]. by apply inv_send.
  - destruct (sending p !! i) eqn:Ht; [|done]. destruct (feeder p); [|done]. destruct (workers p !! w) as [[]|] eqn:Hw; try done.
    intros [= <-]. by apply inv_handoff.
  - destruct (sending p !! i) as [t|] eqn:Ht; [|done]. intros [= <-]. destruct (stop_books (Some e) p) as (Hs & _ & _ & _ & _ & _ & Hse).
    rewrite <-Hse. apply (inv_drop_sender _ _ t); [by apply inv_stop|done|by rewrite Hse].
  - destruct (sending p !! i) as [t|] eqn:Ht; [|done]. destruct (cancelled p) eqn:Hc; [|done]. intros [= <-].
    apply (inv_drop_sender _ _ t); [done|by apply (i_cancel p Hi)|done].
  - destruct (workers p !! w) as [[]|] eqn:Hw; try done. destruct (feeder p) as [|t rest] eqn:Hf; [done|]. intros [= <-]. by apply inv_take.
  - destruct (cancelled p) eqn:Hc; [|done]. pose proof (i_cancel p Hi Hc) as Hs.
    destruct (workers p !! w) as [[]|] eqn:Hw; try done; intros [= <-]; by eapply inv_exit.
  - destruct (cancelled p); [done|]. destruct (workers p !! w) as [[]|] eqn:Hw; try done. intros [= <-]. by apply inv_start.
  - destruct (workers p !! w) as [[]|] eqn:Hw; try done. intros [= <-]. by eapply inv_return.
  - destruct (workers p !! w) as [[]|] eqn:Hw; try done. intros [= <-]. by eapply inv_return.
  - destruct (workers p !! w) as [[]|] eqn:Hw; try done. intros [= <-]. by apply inv_stop_failed.
  - by apply inv_complete.
  - intros [= <-]. by apply inv_stop.
  - destruct (stopped p) eqn:Hs; [|done]. intros [= <-]. destruct Hi. by constructor.
Qed.

Lemma reachable_inv maxC maxQ p : reachable maxC maxQ p → inv p.
Proof. induction 1 as [|l p p' _ IH Hl]; [apply inv_new|by eapply inv_step]. Qed.

(** ** What the scheduler guarantees *)

(** C20 (safety): events of one repository are handled one at a time, in order.
    In every reachable state and for every repository, the tasks whose handler
    was called are a prefix of the accepted ones, in the order of acceptance,
    and at most one handler of the repository is running, after all earlier
    ones have succeeded. *)
Theorem scheduler_order maxC maxQ p r :
  reachable maxC maxQ p →
  on r (started p) `prefix_of` on r (added p) ∧
  on r (started p) = on r (processed p) ++ on r (running p) ∧ (length (on r (running p)) ≤ 1)%nat.
Proof.
  intros Hr%reachable_inv. destruct (i_repo p Hr r) as (rest & Heq & Hhead & _). pose proof (i_started p Hr r) as Hst.
  assert (Hcase : on r (running p) = [] ∨ ∃ t, on r (running p) = [t]).
  { pose proof (running_repos p (i_pipe p Hr)) as Hnd. clear -Hnd. induction (running p) as [|t l IH]; [by left|].
    simpl in Hnd. apply NoDup_cons in Hnd as [Hn Hnd]. unfold on. destruct (decide (t_repo t = r)) as [<-|Hne].
    - right. exists t. rewrite filter_cons_True by done. fold (on (t_repo t) l). rewrite on_none; [done|].
      intros u Hu Heq. apply Hn. rewrite <-Heq. by apply list_elem_of_fmap_2.
    - rewrite filter_cons_False by done. by apply IH. }
  split_and!; [|done|destruct Hcase as [->|[t ->]]; simpl; lia]. rewrite Hst, Heq. apply prefix_app.
  destruct Hcase as [->|[t Ht]]; [apply prefix_nil|]. rewrite Ht.
  assert (Hin : t ∈ on r (running p)) by (rewrite Ht; by left). apply elem_of_on in Hin as [Htr Hin].
  assert (Hh : head rest = Some t) by (apply Hhead; [by eapply sublist_subseteq; [apply running_pipeline|]|done]).
  destruct rest as [|u rest]; simplify_eq/=. apply prefix_cons, prefix_nil.
Qed.

(** C19 (safety): the resume position never passes an unhandled event.  In
    every reachable state, also after failures, shutdown and cancellation, the
    position is that of the last event of some initial run of the accepted
    events, all of which were handled without an error. *)
Theorem scheduler_cursor maxC maxQ p :
  reachable maxC maxQ p →
  ∃ acked pend, positive (added p) = acked ++ pend ∧ LastSeq p = last_seq 0 acked ∧ Forall (λ t, t ∈ processed p) acked.
Proof.
  intros Hr%reachable_inv. destruct (i_ack p Hr) as (acked & pend & H1 & H2 & H3 & _). by exists acked, pend.
Qed.

(** Nothing on its way: everything accepted was handled and acknowledged. *)
Lemma drained p :
  inv p → stopped p = false → pipeline p = [] →
  active p = ∅ ∧ ackQueue p = [] ∧ LastSeq p = last_seq 0 (positive (added p)) ∧ (∀ r, on r (processed p) = on r (added p)).
Proof.
  intros Hi Hs Hp.
  assert (Hall : ∀ r, on r (added p) = on r (processed p) ∧ active p !! r = None).
  { intros r. destruct (i_repo p Hi r) as (rest & Heq & _ & Ha). destruct (Ha Hs) as [Hl Hex].
    destruct rest as [|t rest]; [rewrite Heq, app_nil_r; done|]. destruct Hex as (u & Hu & _); [done|]. rewrite Hp in Hu. by apply elem_of_nil in Hu. }
  destruct (i_ack p Hi) as (acked & pend & H1 & H2 & H3 & Hrest). destruct (Hrest Hs) as (Hq & Hc & Hh).
  assert (pend = []) as ->.
  { destruct pend as [|h pend]; [done|]. exfalso. apply (Hh h eq_refl).
    assert (Hin : h ∈ positive (added p)) by (rewrite H1; apply elem_of_app; right; by left). apply list_elem_of_filter in Hin as [_ Hin].
    assert (Hon : h ∈ on (t_repo h) (added p)) by by apply elem_of_on. rewrite (proj1 (Hall _)) in Hon. by apply elem_of_on in Hon as [_ ?]. }
  split_and!; [apply map_eq; intros r; rewrite lookup_empty; apply Hall|done| |intros r; by rewrite (proj1 (Hall r))].
  rewrite H1, app_nil_r. exact H3.
Qed.

(** * The parallel scheduler makes progress

    Without failing handlers, the workers can always go on until every accepted
    event is handled and acknowledged: no task is stuck behind another one or in
    the channel. *)

Local Open Scope nat_scope.

(** ** A measure of the work left *)

Definition weight (x : worker) : nat :=
  match x with WLoop _ => 3 | WRunning _ => 2 | WDone _ => 1 | _ => 0 end.
Definition queued (m : gmap string (list consumerTask)) : nat := map_fold (λ _ q n, length q + n) 0 m.
Definition left_over (p : Scheduler) : nat :=
  6 * queued (active p) + 5 * length (sending p) + 4 * length (feeder p) + sum_list_with weight (workers p).

Lemma weight_insert ws w x y :
  ws !! w = Some x → sum_list_with weight (<[w := y]> ws) + weight x = sum_list_with weight ws + weight y.
Proof.
  intros Hw. rewrite insert_take_drop by by eapply lookup_lt_Some.
  assert (Heq : sum_list_with weight ws = sum_list_with weight (take w ws ++ x :: drop (S w) ws)) by by rewrite take_drop_middle.
  rewrite Heq, !sum_list_with_app. simpl. lia.
Qed.

Lemma queued_delete m r q : m !! r = Some q → queued m = length q + queued (delete r m).
Proof. intros Hr. unfold queued. rewrite (map_fold_delete_L _ _ r q) by (try done; intros; lia). done. Qed.

Lemma queued_insert m r q q' : m !! r = Some q → queued (<[r := q']> m) + length q = queued m + length q'.
Proof.
  intros Hr. rewrite (queued_delete (<[r := q']> m) r q') by by rewrite lookup_insert_eq.
  rewrite delete_insert_eq, (queued_delete m r q) by done. lia.
Qed.

(** ** Progress *)

Definition healthy_worker (x : worker) : Prop := match x with WFailed _ _ | WExited _ => False | _ => True end.
Definition healthy (p : Scheduler) : Prop := stopped p = false ∧ workers p ≠ [] ∧ Forall healthy_worker (workers p).

(** Steps of the workers when no handler fails. *)
Definition working (l : label) : Prop :=
  match l with LHandoff _ _ | LTake _ | LStart _ | LReturn _ None | LComplete _ => True | _ => False end.

Lemma healthy_set p w y p' :
  healthy p → stopped p' = stopped p → workers p' = <[w := y]> (workers p) → healthy_worker y → healthy p'.
Proof.
  intros (Hs & Hne & Hf) Hs' Hw Hy. unfold healthy. rewrite Hs', Hw. split_and!; [done| |by apply Forall_insert].
  intros Hn. apply Hne. apply (f_equal length) in Hn. rewrite length_insert in Hn. by destruct (workers p).
Qed.

(** A worker with a task can take its next step. *)
Lemma worker_progress p w x t :
  inv p → healthy p → workers p !! w = Some x → worker_task x = Some t →
  ∃ l p', working l ∧ run_label l p = Some p' ∧ left_over p' < left_over p ∧ healthy p' ∧ added p' = added p.
Proof.
  intros Hi Hh Hw Ht. pose proof Hh as (Hs & _ & Hf). rewrite Forall_forall in Hf.
  assert (Hc : cancelled p = false) by (destruct (cancelled p) eqn:Hc; [pose proof (i_cancel p Hi Hc); congruence|done]).
  destruct x as [|u|u|u|u e|o]; simplify_eq/=; [..|destruct (Hf _ (list_elem_of_lookup_2 _ _ _ Hw))|
    destruct (Hf _ (list_elem_of_lookup_2 _ _ _ Hw))].
  - exists (LStart w). eexists. split; [done|]. simpl. rewrite Hc, Hw. split; [reflexivity|].
    pose proof (weight_insert _ _ _ (WRunning t) Hw). unfold left_over. simpl in *. split; [lia|]. split; [|done].
    by eapply (healthy_set p w (WRunning t)).
  - exists (LReturn w None). eexists. split; [done|]. simpl. rewrite Hw. split; [reflexivity|].
    pose proof (weight_insert _ _ _ (WDone t) Hw). unfold left_over. simpl in *. split; [lia|]. split; [|done].
    by eapply (healthy_set p w (WDone t)).
  - destruct (done_books p w t Hi Hw) as (rest & _ & _ & _ & Hact & _). specialize (Hact Hs).
    destruct (completeAndNext_spec t p rest Hi Hs Hact) as (p1 & Hrun & Ha & Hs1 & _ & _ & Hadd & _ & _ & Hse & Hfe & Hwo & _).
    set (y := match head rest with Some u => WLoop u | None => WIdle end).
    exists (LComplete w), (set_worker w y p1). split; [done|]. simpl. rewrite Hw, Hrun. split; [reflexivity|].
    pose proof (weight_insert _ _ _ y Hw) as Hwt. unfold left_over. simpl in *. rewrite Hse, Hfe, Hwo, Ha.
    assert (Hy : weight y ≤ 3) by (unfold y; by destruct (head rest); simpl; lia).
    split_and!; [|eapply (healthy_set p w y); [done|by simpl; congruence|simpl; by rewrite Hwo|unfold y; by destruct (head rest)]|done].
    destruct rest as [|v rest]; [rewrite (queued_delete _ _ _ Hact); simpl; lia|].
    pose proof (queued_insert _ _ _ (v :: rest) Hact). simpl in *. lia.
Qed.

Lemma progress p :
  inv p → healthy p → pipeline p ≠ [] →
  ∃ l p', working l ∧ run_label l p = Some p' ∧ left_over p' < left_over p ∧ healthy p' ∧ added p' = added p.
Proof.
  intros Hi Hh Hp. destruct (omap worker_task (workers p)) as [|t ts] eqn:Htasks.
  2: { assert (Hin : t ∈ omap worker_task (workers p)) by (rewrite Htasks; by left).
       apply list_elem_of_omap in Hin as (x & Hx & Ht). apply list_elem_of_lookup in Hx as [w Hw]. by eapply worker_progress. }
  pose proof Hh as (Hs & Hne & Hf). destruct (workers p) as [|x ws] eqn:Hws; [done|].
  assert (Hx : x = WIdle).
  { apply Forall_cons in Hf as [Hx _]. destruct x; simpl in *; done. }
  subst x. assert (Hw : workers p !! 0 = Some WIdle) by by rewrite Hws. rewrite <-Hws in *.
  unfold pipeline in Hp. rewrite Htasks, app_nil_r in Hp. destruct (feeder p) as [|t rest] eqn:Hfe.
  - rewrite app_nil_r in Hp. destruct (sending p) as [|t rest] eqn:Hse; [done|].
    exists (LHandoff 0 0). eexists. split; [done|]. simpl. rewrite Hse, Hfe, Hw. split; [reflexivity|].
    pose proof (weight_insert _ _ _ (WLoop t) Hw). unfold left_over. simpl in *. rewrite Hse, Hfe. simpl. unfold remove_at. simpl.
    rewrite drop_0. split; [lia|]. split; [|done]. by eapply (healthy_set p 0 (WLoop t)).
  - exists (LTake 0). eexists. split; [done|]. simpl. rewrite Hw, Hfe. split; [reflexivity|].
    pose proof (weight_insert _ _ _ (WLoop t) Hw). unfold left_over. simpl in *. rewrite Hfe. simpl.
    split; [lia|]. split; [|done]. by eapply (healthy_set p 0 (WLoop t)).
Qed.

Lemma drain p :
  inv p → healthy p →
  ∃ ls p', Forall working ls ∧ run_labels ls p = Some p' ∧ inv p' ∧ healthy p' ∧ pipeline p' = [] ∧ added p' = added p.
Proof.
  remember (left_over p) as n eqn:Hn. revert p Hn. induction (lt_wf n) as [n _ IH]. intros p -> Hi Hh.
  destruct (decide (pipeline p = [])) as [Hp|Hp]; [exists [], p; by split_and!|].
  destruct (progress p Hi Hh Hp) as (l & p1 & Hl & Hrun & Hlt & Hh1 & Hadd).
  destruct (IH (left_over p1) Hlt p1 eq_refl) as (ls & p2 & Hls & Hrun2 & Hi2 & Hh2 & Hp2 & Hadd2); [by eapply inv_step|done|].
  exists (l :: ls), p2. simpl. rewrite Hrun. split_and!; try done; [by constructor|congruence].
Qed.

(** Workers return only after a stop. *)
Definition not_failed (x : worker) : Prop := match x with WFailed _ _ => False | _ => True end.
Definition not_exited (x : worker) : Prop := match x with WExited _ => False | _ => True end.

Lemma completeAndNext_frame t p :
  workers (completeAndNext t p).1 = workers p ∧ stopped (completeAndNext t p).1 = stopped p.
Proof.
  unfold completeAndNext. destruct (stopped p) eqn:Hs; [done|]. destruct (ack_loop _ _ _) as [[q c] n].
  destruct (0 <? t_seq t)%Z; simpl; repeat case_match; done.
Qed.

Lemma AddWork_frame repo val p :
  workers (AddWork_locked repo val p).1 = workers p ∧ stopped (AddWork_locked repo val p).1 = stopped p.
Proof.
  unfold AddWork_locked. destruct (p_err p); [done|]. destruct (stopped p) eqn:Hs; [done|].
  destruct (0 <? t_seq _)%Z; simpl; repeat case_match; done.
Qed.

Lemma step_workers l p p' :
  inv p → run_label l p = Some p' →
  (workers p' = workers p ∨ ∃ w y, workers p' = <[w := y]> (workers p) ∧ (stopped p' = false → not_exited y)) ∧
  (stopped p' = false → stopped p = false).
Proof.
  intros Hi. destruct l as [repo val|i|i w|i e|i|w|w|w|w [e|]|w|w| |]; simpl.
  - destruct (AddWork_frame repo val p) as [Hw Hs]. destruct (AddWork_locked repo val p) as [p1 [[t|]|e]]; intros [= <-]; simpl in *; split; [by left|congruence|by left|congruence|by left|congruence].
  - repeat case_match; try done. intros [= <-]. split; [by left|done].
  - repeat case_match; try done. intros [= <-]. split; [right|done]. by eexists w, _.
  - repeat case_match; try done. intros [= <-]. destruct (stop_books (Some e) p) as (Hs & _ & _ & _ & _ & Hw & _). simpl. rewrite Hs. split; [by left|done].
  - repeat case_match; try done. intros [= <-]. split; [by left|done].
  - repeat case_match; try done. intros [= <-]. split; [right|done]. by eexists w, _.
  - destruct (cancelled p) eqn:Hc; [|done]. pose proof (i_cancel p Hi Hc) as Hs. repeat case_match; try done; intros [= <-]; simpl; rewrite Hs; (split; [right; by eexists w, _|done]).
  - repeat case_match; try done. intros [= <-]. split; [right|done]. by eexists w, _.
  - repeat case_match; try done. intros [= <-]. split; [right|done]. by eexists w, _.
  - repeat case_match; try done. intros [= <-]. split; [right|done]. by eexists w, _.
  - repeat case_match; try done. intros [= <-]. destruct (stop_books (Some err) p) as (Hs & _ & _ & _ & _ & Hw & _). simpl. rewrite Hs, Hw. split; [right; by eexists w, _|done].
  - destruct (workers p !! w) as [[| | |t| |]|]; try done. destruct (completeAndNext_frame t (log_processed t p)) as [Hw Hs].
    destruct (completeAndNext t (log_processed t p)) as [p1 next]. intros [= <-]. simpl in *. rewrite Hw, Hs. split; [right|done].
    eexists w, _. split; [done|]. by destruct next.
  - intros [= <-]. destruct (stop_books None p) as (Hs & _ & _ & _ & _ & Hw & _). rewrite Hs. split; [by left|done].
  - destruct (stopped p) eqn:Hs; [|done]. intros [= <-]. simpl. rewrite Hs. split; [by left|done].
Qed.

Lemma reachable_workers maxC maxQ p :
  reachable maxC maxQ p → workers p ≠ [] ∧ (stopped p = false → Forall not_exited (workers p)).
Proof.
  induction 1 as [|l p p' Hr [Hne IH] Hl].
  - unfold NewScheduler. simpl. split; [|intros _; by apply Forall_replicate].
    destruct (Z.to_nat _) eqn:Hn; [|done]. destruct (maxC <? 1)%Z eqn:Hm; bool_to_prop; lia.
  - destruct (step_workers l p p' (reachable_inv _ _ _ Hr) Hl) as [[->|(w & y & -> & Hy)] Hs]; [auto|]. split.
    + intros Hn. apply Hne. apply (f_equal length) in Hn. rewrite length_insert in Hn. by destruct (workers p).
    + intros Hs'. apply Forall_insert; auto.
Qed.

(** C31 (liveness): no event gets stuck.  From every reachable state of a
    running scheduler whose handlers have not failed, the workers alone can
    take steps, with handlers that return, to a state in which every accepted
    event has been handled, no repository is marked active, and the resume
    position is that of the last accepted event. *)
Theorem scheduler_drains maxC maxQ p :
  reachable maxC maxQ p → stopped p = false → Forall not_failed (workers p) →
  ∃ ls p', Forall working ls ∧ run_labels ls p = Some p' ∧ added p' = added p ∧ active p' = ∅ ∧
    LastSeq p' = last_seq 0 (positive (added p)) ∧ ∀ r, on r (processed p') = on r (added p).
Proof.
  intros Hr Hs Hw. destruct (reachable_workers _ _ _ Hr) as [Hne Hex].
  assert (Hh : healthy p).
  { split_and!; [done..|]. specialize (Hex Hs). rewrite Forall_forall in Hw, Hex. apply Forall_forall. intros x Hx.
    specialize (Hw x Hx). specialize (Hex x Hx). by destruct x. }
  destruct (drain p (reachable_inv _ _ _ Hr) Hh) as (ls & p' & Hls & Hrun & Hi' & (Hs' & _) & Hp' & Hadd).
  destruct (drained p' Hi' Hs' Hp') as (Ha & _ & Hl & Hproc). exists ls, p'. rewrite Hadd in *. by split_and!.
Qed.

(** ** An example *)

Definition ex_event (did : string) (seq : Z) : XRPCStreamEvent := accountEvent (mkAccountMsg true did seq None "t") 0.

(** Two workers, a channel for one task; the second event of repository [a]
    waits behind the first, and the event of [b] is handled first. *)
Definition ex_labels : list label :=
  [LAdd "a" (ex_event "a" 1); LSend 0; LAdd "a" (ex_event "a" 2); LTake 0; LAdd "b" (ex_event "b" 3); LSend 0;
   LTake 1; LStart 0; LStart 1; LReturn 1 None; LComplete 1].
Definition ex_sched : Scheduler := default (NewScheduler 2 1) (run_labels ex_labels (NewScheduler 2 1)).

Lemma run_labels_reachable maxC maxQ ls p p' : reachable maxC maxQ p → run_labels ls p = Some p' → reachable maxC maxQ p'.
Proof.
  revert p. induction ls as [|l ls IH]; simpl; intros p Hr; [by intros [= <-]|].
  destruct (run_label l p) as [p1|] eqn:Hl; [|done]. apply IH. by eapply reachable_step.
Qed.

Lemma ex_reachable : reachable 2 1 ex_sched.
Proof. apply (run_labels_reachable 2 1 ex_labels (NewScheduler 2 1)); [constructor|vm_compute; reflexivity]. Qed.

(** The position waits for the first event. *)
Example ex_position : LastSeq ex_sched = 0%Z ∧ map t_seq (processed ex_sched) = [3%Z] ∧
  map LastSeq (option_list (run_labels [LReturn 0 None; LComplete 0] ex_sched)) = [1%Z] ∧
  map LastSeq (option_list (run_labels [LReturn 0 None; LComplete 0; LStart 0; LReturn 0 None; LComplete 0] ex_sched)) = [3%Z].
Proof. vm_compute. done. Qed.

Lemma scheduler_order_witness :
  on "a" (started ex_sched) `prefix_of` on "a" (added ex_sched) ∧
  on "a" (started ex_sched) = on "a" (processed ex_sched) ++ on "a" (running ex_sched) ∧ length (on "a" (running ex_sched)) ≤ 1.
Proof. apply (scheduler_order 2 1 ex_sched "a"). exact ex_reachable. Defined.

Lemma scheduler_cursor_witness :
  ∃ acked pend, positive (added ex_sched) = acked ++ pend ∧ LastSeq ex_sched = last_seq 0 acked ∧
    Forall (λ t, t ∈ processed ex_sched) acked.
Proof. apply (scheduler_cursor 2 1 ex_sched). exact ex_reachable. Defined.

Lemma scheduler_drains_witness :
  ∃ ls p', Forall working ls ∧ run_labels ls ex_sched = Some p' ∧ added p' = added ex_sched ∧ active p' = ∅ ∧
    LastSeq p' = last_seq 0 (positive (added ex_sched)) ∧ ∀ r, on r (processed p') = on r (added ex_sched).
Proof.
  apply (scheduler_drains 2 1 ex_sched); [exact ex_reachable|vm_compute; reflexivity|vm_compute; repeat constructor].
Defined.
