(* ===== verification/Lease.v ===== *)
(** * The rate admission lease: [src/cmd/relay/relay/rate_policy.go]

    Several relay processes may run against one database, but only one may read
    sources.  A row of the database names the process that holds the lease and
    when the lease expires, by the database's clock; each process keeps a
    deadline of its own, by its monotonic clock.  The clocks show different
    times but run at the same speed.  A database clock reading is rounded
    ([float64] seconds, or SQLite's Julian day), by at most [resolution].

    [AcquireRateAdmission] and [RenewRateAdmission] are cut at their database
    calls, so that other processes, and the release and the admission checks of
    the same process, run in between; a database call may fail, and the reply
    to a write that was carried out may be lost.  Concrete runs are at the end. *)

From stdpp Require Import pretty.
From S2P Require Import Prelude.
Local Open Scope Z_scope.

(** Where [AcquireRateAdmission] or [RenewRateAdmission] is: the local time
    taken first, then the database time. *)
Inductive call_state : Type :=
| CIdle
| AcqBase (deadlineBase : Z)
| AcqNow (deadlineBase now : Z)
| AcqDone (deadlineBase : Z)
| RenBase (deadlineBase : Z)
| RenNow (deadlineBase now : Z)
| RenDone (deadlineBase : Z).

(** [rateAdmissionState] of one process, the progress of its calls, and whether
    it has begun to release. *)
Record proc := mkProc {
  holder : string;
  deadline : Z;
  generation : Z;
  cancels : nat;          (* calls of [Slurper.CancelSources] *)
  pc : call_state;
  releasing : bool;
}.

(** The row of [hypercerts_rate_admission]: holder and expiry. *)
Record world := mkWorld {
  now : Z;
  row : option (string * Z);
  procs : nat → proc;
}.

Definition set_pc c x := mkProc (holder x) (deadline x) (generation x) (cancels x) c (releasing x).
Definition set_releasing x := mkProc (holder x) (deadline x) (generation x) (cancels x) (pc x) true.
Definition publish (h : string) (d : Z) (x : proc) := mkProc h d (uint64 (generation x + 1)) (cancels x) (pc x) (releasing x).

Definition new_proc : proc := mkProc "" 0 0 0 CIdle false.
Definition start : world := mkWorld 0 None (λ _, new_proc).

Section Lease.
Context (hid : nat → string) (off : nat → Z) (dboff ttl resolution : Z).

Definition local_now (i : nat) (w : world) : Z := now w + off i.
Definition db_now (w : world) : Z := now w + dboff.

Definition put (i : nat) (x : proc) (w : world) : world :=
  mkWorld (now w) (row w) (λ j, if (j =? i)%nat then x else procs w j).
Definition set_row r (w : world) : world := mkWorld (now w) r (procs w).

Definition clearRateAdmission (h : string) (x : proc) : proc :=
  if String.eqb (holder x) h
  then mkProc "" 0 (uint64 (generation x + 1)) (S (cancels x)) (pc x) (releasing x)
  else x.

(** [lockRateAdmission], with the policy enabled: whether a frame is admitted. *)
Definition lockRateAdmission (i : nat) (w : world) : world * bool :=
  let x := procs w i in
  if String.eqb (holder x) "" || negb (local_now i w <? deadline x)
  then (put i (if String.eqb (holder x) "" then x else clearRateAdmission (holder x) x) w, false)
  else (w, true).

(** The conditional upsert of [AcquireRateAdmission]: the rows affected. *)
Definition acquire_row (h : string) (expires : Z) (w : world) : world * Z :=
  match row w with
  | None => (set_row (Some (h, expires)) w, 1)
  | Some (h', e) =>
      if (e <=? db_now w) || String.eqb h' h then (set_row (Some (h, expires)) w, 1) else (w, 0)
  end.

(** The conditional update of [RenewRateAdmission]. *)
Definition renew_row (h : string) (expires : Z) (w : world) : world * Z :=
  match row w with
  | Some (h', e) => if String.eqb h' h && (db_now w <? e) then (set_row (Some (h, expires)) w, 1) else (w, 0)
  | None => (w, 0)
  end.

Definition release_row (h : string) (w : world) : world :=
  match row w with
  | Some (h', _) => if String.eqb h' h then set_row None w else w
  | None => w
  end.

Inductive label : Type :=
| Tick (d : Z)
| AcquireBegin (i : nat)
| AcquireNow (i : nat) (rounding : Z)
| AcquireWrite (i : nat) (replied : bool)
| AcquirePublish (i : nat)
| RenewBegin (i : nat)
| RenewNow (i : nat) (rounding : Z)
| RenewWrite (i : nat) (replied : bool)
| RenewPublish (i : nat)
| CallFails (i : nat)                (* a database call fails before it has an effect *)
| ReleaseBegin (i : nat)
| ReleaseWrite (i : nat)
| Lock (i : nat).

Definition in_acquire (c : call_state) : bool :=
  match c with AcqBase _ | AcqNow _ _ | AcqDone _ => true | _ => false end.

(** [main] acquires once before anything else of the lease runs, renews from one
    goroutine, and may release while a renewal is under way. *)
Definition run (l : label) (w : world) : option world :=
  match l with
  | Tick d => if d <? 0 then None else Some (mkWorld (now w + d) (row w) (procs w))
  | AcquireBegin i =>
      match pc (procs w i), releasing (procs w i) with
      | CIdle, false => Some (put i (set_pc (AcqBase (local_now i w)) (procs w i)) w)
      | _, _ => None
      end
  | AcquireNow i rounding =>
      if resolution <? Z.abs rounding then None
      else match pc (procs w i) with
           | AcqBase base => Some (put i (set_pc (AcqNow base (db_now w + rounding)) (procs w i)) w)
           | _ => None
           end
  | AcquireWrite i replied =>
      match pc (procs w i) with
      | AcqNow base t =>
          let '(w', n) := acquire_row (hid i) (t + ttl) w in
          Some (put i (set_pc (if replied && (n =? 1) then AcqDone base else CIdle) (procs w' i)) w')
      | _ => None
      end
  | AcquirePublish i =>
      match pc (procs w i) with
      | AcqDone base => Some (put i (publish (hid i) (base + ttl) (set_pc CIdle (procs w i))) w)
      | _ => None
      end
  | RenewBegin i =>
      match pc (procs w i) with
      | CIdle => Some (put i (set_pc (RenBase (local_now i w)) (procs w i)) w)
      | _ => None
      end
  | RenewNow i rounding =>
      if resolution <? Z.abs rounding then None
      else match pc (procs w i) with
           | RenBase base => Some (put i (set_pc (RenNow base (db_now w + rounding)) (procs w i)) w)
           | _ => None
           end
  | RenewWrite i replied =>
      match pc (procs w i) with
      | RenNow base t =>
          let '(w', n) := renew_row (hid i) (t + ttl) w in
          let x := procs w' i in
          Some (put i (if negb replied then set_pc CIdle x
                       else if n =? 1 then set_pc (RenDone base) x
                       else clearRateAdmission (hid i) (set_pc CIdle x)) w')
      | _ => None
      end
  | RenewPublish i =>
      match pc (procs w i) with
      | RenDone base =>
          let x := set_pc CIdle (procs w i) in
          Some (put i (if String.eqb (holder x) (hid i) then publish (hid i) (base + ttl) x else x) w)
      | _ => None
      end
  | CallFails i =>
      match pc (procs w i) with
      | AcqBase _ | AcqNow _ _ | RenBase _ | RenNow _ _ => Some (put i (set_pc CIdle (procs w i)) w)
      | _ => None
      end
  | ReleaseBegin i =>
      if in_acquire (pc (procs w i)) then None
      else Some (put i (set_releasing (clearRateAdmission (hid i) (procs w i))) w)
  | ReleaseWrite i => if releasing (procs w i) then Some (release_row (hid i) w) else None
  | Lock i => Some (lockRateAdmission i w).1
  end.

Inductive reachable : world → Prop :=
| reachable_start : reachable start
| reachable_step l w w' : reachable w → run l w = Some w' → reachable w'.

(** ** Exclusion *)

Section Exclusion.
Context (hid_inj : Inj (=) (=) hid) (hid_nonempty : ∀ i, hid i ≠ "") (resolution_nonneg : 0 ≤ resolution).

(** Process [i] may rely on the lease until [d], in the time of [now]: the row
    is its own and lasts as long, up to the resolution, or [d] is past. *)
Definition claim (i : nat) (d : Z) (w : world) : Prop :=
  d ≤ now w + resolution ∨ ∃ e, row w = Some (hid i, e) ∧ d ≤ e - dboff + resolution.

(** What a call in progress may rely on. *)
Definition pc_ok (i : nat) (w : world) : Prop :=
  let x := procs w i in
  let held base := holder x ≠ ""%string → deadline x ≤ base + ttl in
  match pc x with
  | CIdle => True
  | AcqBase base | RenBase base => base - off i ≤ now w ∧ held base
  | AcqNow base t | RenNow base t => base - off i ≤ now w ∧ held base ∧ base - off i ≤ t - dboff + resolution
  | AcqDone base => base - off i ≤ now w ∧ claim i (base + ttl - off i) w
  | RenDone base => base - off i ≤ now w ∧ (holder x ≠ ""%string → claim i (base + ttl - off i) w)
  end.

Record proc_ok (i : nat) (w : world) : Prop := {
  ok_holder : holder (procs w i) = ""%string ∨ holder (procs w i) = hid i;
  ok_deadline : holder (procs w i) ≠ ""%string →
    claim i (deadline (procs w i) - off i) w ∧ deadline (procs w i) - off i ≤ now w + ttl;
  ok_pc : pc_ok i w;
  ok_releasing : releasing (procs w i) = true → holder (procs w i) = ""%string ∧ in_acquire (pc (procs w i)) = false;
}.

Lemma put_same i x w : procs (put i x w) i = x.
Proof. unfold put. simpl. by rewrite Nat.eqb_refl. Qed.
Lemma put_other i j x w : j ≠ i → procs (put i x w) j = procs w j.
Proof. intros Hne. unfold put. simpl. by apply Nat.eqb_neq in Hne as ->. Qed.

(** Another process is not disturbed by a step that keeps its claims. *)
Lemma proc_ok_mono j w w' :
  procs w' j = procs w j → now w ≤ now w' → (∀ d, claim j d w → claim j d w') → proc_ok j w → proc_ok j w'.
Proof.
  intros Hp Hn Hc [Hh Hd Hpc Hr]. constructor; rewrite ?Hp; try done.
  - intros Hne. destruct (Hd Hne) as [H1 H2]. split; [by apply Hc|lia].
  - unfold pc_ok in *. rewrite Hp. destruct (pc (procs w j)); try done; naive_solver lia.
Qed.

Lemma claim_later i d w d' : claim i d w → d' ≤ d → claim i d' w.
Proof. intros [Hl|(e & He & Hl)] Hd; [left; lia|right; exists e; split; [done|lia]]. Qed.

(** Writing the row takes it from others only when it has expired. *)
Lemma claim_acquire i j e w w' :
  j ≠ i → acquire_row (hid i) e w = (w', 1) → ∀ d, claim j d w → claim j d w'.
Proof.
  intros Hne Ha d Hc. unfold acquire_row in Ha. destruct (row w) as [[h' e']|] eqn:Hr.
  - destruct ((e' <=? db_now w) || String.eqb h' (hid i)) eqn:Hcond; [|by simplify_eq]. injection Ha as <-.
    left. simpl. destruct Hc as [Hc|(e0 & He0 & Hc)]; [done|]. rewrite Hr in He0. simplify_eq.
    apply orb_true_iff in Hcond as [Hcond|Hcond]; bool_to_prop; [unfold db_now in Hcond; lia|by apply (inj hid) in Hcond].
  - injection Ha as <-. left. destruct Hc as [Hc|(e0 & He0 & _)]; [done|congruence].
Qed.

Lemma claim_own_row i e w d : row w = Some (hid i, e) → d ≤ e - dboff + resolution → claim i d w.
Proof. intros Hr Hd. right. by exists e. Qed.

Definition all_ok (w : world) : Prop := ∀ j, proc_ok j w.

(** A step of process [i] that keeps the row. *)
Lemma all_ok_put i x w : all_ok w → proc_ok i (put i x w) → all_ok (put i x w).
Proof.
  intros Hw Hi j. destruct (decide (j = i)) as [->|Hne]; [done|].
  apply (proc_ok_mono j w); [by apply put_other|simpl; lia|done|apply Hw].
Qed.

(** A step of process [i] after which the row is its own, or not changed. *)
Lemma all_ok_write i x w w' :
  all_ok w → now w' = now w → procs w' = procs w → (∀ j, j ≠ i → ∀ d, claim j d w → claim j d w') →
  proc_ok i (put i x w') → all_ok (put i x w').
Proof.
  intros Hw Hn Hp Hc Hi j. destruct (decide (j = i)) as [->|Hne]; [done|].
  apply (proc_ok_mono j w); [rewrite put_other by done; by rewrite Hp|simpl; lia|by apply Hc|apply Hw].
Qed.

Ltac proc_tac H :=
  constructor; unfold pc_ok; rewrite ?put_same; simpl; try done; try exact H.

Lemma clear_ok i x : (holder x = ""%string ∨ holder x = hid i) → holder (clearRateAdmission (hid i) x) = ""%string.
Proof.
  intros Hh. unfold clearRateAdmission. destruct (String.eqb_spec (holder x) (hid i)) as [|Hne]; [done|]. by destruct Hh.
Qed.

Lemma clear_fields h x :
  pc (clearRateAdmission h x) = pc x ∧ releasing (clearRateAdmission h x) = releasing x.
Proof. unfold clearRateAdmission. by destruct (String.eqb (holder x) h). Qed.

(** A process without a local hold relies on nothing but a call in progress. *)
Lemma fenced_ok i x w :
  proc_ok i w → holder x = ""%string → pc x = pc (procs w i) ∨ pc x = CIdle →
  (releasing x = true → in_acquire (pc x) = false) → proc_ok i (put i x w).
Proof.
  intros [Hh Hd Hpc Hr] Hx Hpx Hrx. constructor; rewrite ?put_same; try done; [by left| |by auto].
  unfold pc_ok in *. rewrite put_same. destruct Hpx as [->| ->]; [|done].
  destruct (pc (procs w i)); try done; naive_solver.
Qed.

Lemma run_acquire i w l w' :
  all_ok w → (l = AcquireBegin i ∨ (∃ k, l = AcquireNow i k) ∨ (∃ b, l = AcquireWrite i b) ∨ l = AcquirePublish i) →
  run l w = Some w' → all_ok w'.
Proof.
  intros Hw Hl. destruct (Hw i) as [Hh Hd Hpc Hr]. destruct Hl as [->|[[k ->]|[[b ->]| ->]]]; simpl.
  - destruct (pc (procs w i)) eqn:Hp; try done. destruct (releasing (procs w i)) eqn:Hre; [done|]. intros [= <-].
    apply all_ok_put; [done|]. proc_tac Hd; [|by rewrite Hre]. unfold local_now. split; [lia|]. intros Hne. destruct (Hd Hne). lia.
  - destruct (Z.ltb_spec resolution (Z.abs k)); [done|]. destruct (pc (procs w i)) eqn:Hp; try done. intros [= <-].
    apply all_ok_put; [done|]. unfold pc_ok in Hpc. rewrite Hp in Hpc.
    proc_tac Hd; [unfold db_now; split_and!; [lia|apply Hpc|lia]|..]; intros Hre; destruct (Hr Hre) as [_ Hin]; by rewrite ?Hp in Hin.
  - destruct (pc (procs w i)) as [| |base t| | | |] eqn:Hp; try done. destruct (acquire_row (hid i) (t + ttl) w) as [w1 n] eqn:Ha.
    intros [= <-]. unfold pc_ok in Hpc. rewrite Hp in Hpc. destruct Hpc as (Hb & Hheld & Hbt).
    assert (Hre : releasing (procs w i) = false).
    { destruct (releasing (procs w i)) eqn:Hre; [|done]. destruct (Hr eq_refl) as [_ Hin]. by rewrite ?Hp in Hin. }
    assert (Hcase : (n = 1 ∧ row w1 = Some (hid i, t + ttl) ∧ now w1 = now w ∧ procs w1 = procs w) ∨ (n = 0 ∧ w1 = w)).
    { unfold acquire_row in Ha. destruct (row w) as [[h' e']|]; [case_match|]; simplify_eq; auto. }
    destruct Hcase as [(-> & Hrow & Hn & Hps)|[-> ->]].
    + apply (all_ok_write i _ w); [done..|intros j Hne; by apply (claim_acquire i j (t + ttl))|].
      assert (Hown : ∀ d, d ≤ t + ttl - dboff + resolution → claim i d w1) by (intros d; by apply claim_own_row).
      constructor; rewrite ?put_same; simpl; rewrite ?Hps; try done.
      * intros Hne. specialize (Hheld Hne). split; [apply Hown; lia|]. rewrite Hn. destruct (Hd Hne). lia.
      * unfold pc_ok. rewrite put_same. simpl. destruct b; simpl; [|done]. rewrite Hn. split; [done|]. apply Hown. lia.
      * rewrite Hre. done.
    + rewrite andb_false_r. apply all_ok_put; [done|]. proc_tac Hd. by rewrite Hre.
  - destruct (pc (procs w i)) as [| | |base| | |] eqn:Hp; try done. intros [= <-]. unfold pc_ok in Hpc. rewrite Hp in Hpc. destruct Hpc as [Hb Hc].
    apply all_ok_put; [done|]. proc_tac Hd; [by right| |].
    + intros _. split; [done|lia].
    + intros Hre. destruct (Hr Hre) as [_ Hin]. by rewrite ?Hp in Hin.
Qed.

Lemma claim_renew i j e w w' n :
  j ≠ i → renew_row (hid i) e w = (w', n) → ∀ d, claim j d w → claim j d w'.
Proof.
  intros Hne Ha d Hc. unfold renew_row in Ha. destruct (row w) as [[h' e']|] eqn:Hr; [|by simplify_eq].
  destruct (String.eqb h' (hid i) && (db_now w <? e')) eqn:Hcond; [|by simplify_eq]. injection Ha as <- _.
  left. simpl. destruct Hc as [Hc|(e0 & He0 & _)]; [done|]. rewrite Hr in He0. simplify_eq. bool_to_prop.
  match goal with H : hid _ = hid _ |- _ => by apply (inj hid) in H end.
Qed.

Lemma run_renew i w l w' :
  all_ok w → (l = RenewBegin i ∨ (∃ k, l = RenewNow i k) ∨ (∃ b, l = RenewWrite i b) ∨ l = RenewPublish i) →
  run l w = Some w' → all_ok w'.
Proof.
  intros Hw Hl. destruct (Hw i) as [Hh Hd Hpc Hr]. destruct Hl as [->|[[k ->]|[[b ->]| ->]]]; simpl.
  - destruct (pc (procs w i)) eqn:Hp; try done. intros [= <-].
    apply all_ok_put; [done|]. proc_tac Hd.
    unfold local_now. split; [lia|]. intros Hne. destruct (Hd Hne). lia.
  - destruct (Z.ltb_spec resolution (Z.abs k)); [done|]. destruct (pc (procs w i)) eqn:Hp; try done. intros [= <-].
    apply all_ok_put; [done|]. unfold pc_ok in Hpc. rewrite Hp in Hpc.
    proc_tac Hd. unfold db_now. split_and!; [lia|apply Hpc|lia].
  - destruct (pc (procs w i)) as [| | | | |base t|] eqn:Hp; try done. destruct (renew_row (hid i) (t + ttl) w) as [w1 n] eqn:Ha.
    intros [= <-]. unfold pc_ok in Hpc. rewrite Hp in Hpc. destruct Hpc as (Hb & Hheld & Hbt).
    assert (Hcase : (n = 1 ∧ row w1 = Some (hid i, t + ttl) ∧ now w1 = now w ∧ procs w1 = procs w) ∨ (n = 0 ∧ w1 = w)).
    { unfold renew_row in Ha. destruct (row w) as [[h' e']|]; [case_match|]; simplify_eq; auto. }
    pose proof (λ j Hne, claim_renew i j _ _ _ _ Hne Ha) as Hclaims.
    destruct Hcase as [(-> & Hrow & Hn & Hps)|[-> ->]].
    + apply (all_ok_write i _ w); [done..|].
      assert (Hown : ∀ d, d ≤ t + ttl - dboff + resolution → claim i d w1) by (intros d; by apply claim_own_row).
      assert (Hx : ∀ c, (c = CIdle ∨ c = RenDone base) → proc_ok i (put i (set_pc c (procs w1 i)) w1)).
      { intros c Hc. constructor; rewrite ?put_same; simpl; rewrite ?Hps; try done.
        - intros Hne. specialize (Hheld Hne). split; [apply Hown; lia|]. rewrite Hn. destruct (Hd Hne). lia.
        - unfold pc_ok. rewrite put_same. simpl. destruct Hc as [->| ->]; [done|]. rewrite Hn. split; [done|]. intros _. apply Hown. lia.
        - intros Hre. split; [by apply Hr|]. by destruct Hc as [->| ->]. }
      destruct b; apply Hx; auto.
    + apply all_ok_put; [done|]. destruct b; simpl.
      * destruct (clear_fields (hid i) (set_pc CIdle (procs w i))) as [Hpc' Hre'].
        apply fenced_ok; [apply Hw|by apply clear_ok|by right|by rewrite Hpc'].
      * proc_tac Hd; intros Hre; by split; [apply Hr|].
  - destruct (pc (procs w i)) as [| | | | | |base] eqn:Hp; try done. intros [= <-]. unfold pc_ok in Hpc. rewrite Hp in Hpc. destruct Hpc as [Hb Hc].
    apply all_ok_put; [done|]. destruct (String.eqb_spec (holder (procs w i)) (hid i)) as [He|Hne].
    + assert (Hne : holder (procs w i) ≠ ""%string) by (rewrite He; apply hid_nonempty).
      proc_tac Hd; [by right|intros _; split; [by apply Hc|lia]|]. intros Hre. destruct (Hr Hre) as [Hx _]. done.
    + proc_tac Hd; intros Hre; by split; [apply Hr|].
Qed.

Lemma claim_release i j w : j ≠ i → ∀ d, claim j d w → claim j d (release_row (hid i) w).
Proof.
  intros Hne d Hc. unfold release_row. destruct (row w) as [[h' e']|] eqn:Hr; [|done].
  destruct (String.eqb_spec h' (hid i)) as [->|]; [|done]. left. destruct Hc as [Hc|(e0 & He0 & _)]; [done|].
  rewrite Hr in He0. by simplify_eq.
Qed.

Lemma run_ok l w w' : all_ok w → run l w = Some w' → all_ok w'.
Proof.
  intros Hw. destruct l as [d|i|i k|i b|i|i|i k|i b|i|i|i|i|i];
    [|apply (run_acquire i); naive_solver|apply (run_acquire i); naive_solver|apply (run_acquire i); naive_solver|apply (run_acquire i); naive_solver|
     apply (run_renew i); naive_solver|apply (run_renew i); naive_solver|apply (run_renew i); naive_solver|apply (run_renew i); naive_solver| | | |]; simpl.
  - destruct (Z.ltb_spec d 0); [done|]. intros [= <-] j. apply (proc_ok_mono j w); [done|simpl; lia| |apply Hw].
    intros x [Hc|Hc]; [left; simpl; lia|by right].
  - destruct (Hw i) as [Hh Hd Hpc Hr].
    assert (Hgo : all_ok (put i (set_pc CIdle (procs w i)) w)).
    { apply all_ok_put; [done|]. proc_tac Hd; intros Hre; by split; [apply Hr|]. }
    by destruct (pc (procs w i)); intros [= <-].
  - destruct (in_acquire (pc (procs w i))) eqn:Ha; [done|]. intros [= <-].
    apply all_ok_put; [done|]. destruct (clear_fields (hid i) (procs w i)) as [Hpc' Hre'].
    apply fenced_ok; [apply Hw|simpl; apply clear_ok, Hw|left; by simpl|]. intros _. simpl. by rewrite Hpc'.
  - destruct (releasing (procs w i)) eqn:Hre; [|done]. intros [= <-] j.
    assert (Hkeep : now (release_row (hid i) w) = now w ∧ procs (release_row (hid i) w) = procs w).
    { unfold release_row. destruct (row w) as [[h e]|]; [case_match|]; done. }
    destruct Hkeep as [Hn Hp]. destruct (decide (j = i)) as [->|Hne].
    + destruct (Hw i) as [Hh Hd Hpc Hr]. destruct (Hr Hre) as [Hx Ha]. constructor; rewrite ?Hp; try done.
      unfold pc_ok in *. rewrite Hp, Hn. destruct (pc (procs w i)); try done; naive_solver.
    + apply (proc_ok_mono j w); [by rewrite Hp|lia|by apply claim_release|apply Hw].
  - intros [= <-]. unfold lockRateAdmission. destruct (_ || _); simpl; [|done]. apply all_ok_put; [done|].
    destruct (Hw i) as [Hh Hd Hpc Hr]. destruct (String.eqb_spec (holder (procs w i)) "") as [He|Hne].
    + apply fenced_ok; [apply Hw|done|by left|]. intros Hre. by apply Hr.
    + destruct (clear_fields (holder (procs w i)) (procs w i)) as [Hpc' Hre'].
      apply fenced_ok; [apply Hw| |by left|].
      * unfold clearRateAdmission. by rewrite String.eqb_refl.
      * rewrite Hpc', Hre'. intros Hre. by apply Hr.
Qed.

Lemma reachable_ok w : reachable w → all_ok w.
Proof.
  induction 1 as [|l w w' _ IH Hl]; [|by eapply run_ok]. intros j. constructor; simpl; try done. by left.
Qed.

(** Process [i] admits frames and will for at least [margin]. *)
Definition admits (margin : Z) (i : nat) (w : world) : Prop :=
  (lockRateAdmission i w).2 = true ∧ local_now i w + margin < deadline (procs w i).

(** C21 (safety): at most one process admits.  Whatever the processes' clocks
    show, however calls of different processes interleave, fail or lose their
    replies, and however a process renews and releases, two processes never
    admit frames at the same time, except within the rounding of the database
    clock before a deadline. *)
Theorem lease_exclusive i j w :
  reachable w → admits resolution i w → admits resolution j w → i = j.
Proof.
  intros Hw%reachable_ok.
  assert (Hrow : ∀ k, admits resolution k w → ∃ e, row w = Some (hid k, e)).
  { intros k [Ha Hm]. unfold lockRateAdmission in Ha. destruct (String.eqb_spec (holder (procs w k)) "") as [|Hne]; [done|].
    destruct (ok_deadline k w (Hw k) Hne) as [[Hc|(e & He & _)] _]; [unfold local_now in Hm; lia|by exists e]. }
  intros (e & He)%Hrow (e' & He')%Hrow. rewrite He in He'. simplify_eq. by apply (inj hid).
Qed.

End Exclusion.

(** A process that missed its deadline stays fenced.  Once the
    local hold is cleared, renewals may go on succeeding, keep the row for the
    process and report no error, but none of them restores the hold: only a new
    acquisition would. *)
Theorem renew_never_restores i b w w' l :
  holder (procs w i) = ""%string → (l = RenewBegin i ∨ l = RenewNow i b ∨ (∃ r, l = RenewWrite i r) ∨ l = RenewPublish i) →
  hid i ≠ ""%string → run l w = Some w' → holder (procs w' i) = ""%string ∧ (lockRateAdmission i w').2 = false.
Proof.
  intros Hh Hl Hid Hrun.
  assert (Hh' : holder (procs w' i) = ""%string); [|split; [done|]; unfold lockRateAdmission; by rewrite Hh'].
  destruct Hl as [->|[->|[[r ->]| ->]]]; simpl in Hrun.
  - destruct (pc (procs w i)); try done. injection Hrun as <-. by rewrite put_same.
  - destruct (resolution <? Z.abs b); [done|]. destruct (pc (procs w i)); try done. injection Hrun as <-. by rewrite put_same.
  - destruct (pc (procs w i)) as [| | | | |base t|]; try done. destruct (renew_row (hid i) (t + ttl) w) as [w1 n] eqn:Hr.
    assert (Hp : procs w1 = procs w) by (unfold renew_row in Hr; destruct (row w) as [[h e]|]; [destruct (_ && _)|]; injection Hr as <- _; done).
    injection Hrun as <-. rewrite put_same, Hp. destruct r; simpl; [|done]. destruct (n =? 1); simpl; [done|].
    unfold clearRateAdmission. simpl. by destruct (String.eqb (holder (procs w i)) (hid i)).
  - destruct (pc (procs w i)); try done. injection Hrun as <-. rewrite put_same. simpl. rewrite Hh.
    destruct (String.eqb_spec "" (hid i)); [congruence|done].
Qed.

End Lease.

(** * Runs of the rate admission lease *)

Definition ex_hid (i : nat) : string := ("relay-" ++ pretty i)%string.
Definition ex_off (i : nat) : Z := 1000 * Z.of_nat i.

Lemma ex_hid_inj : Inj (=) (=) ex_hid.
Proof. intros i j Hij. apply (inj (String.append "relay-")) in Hij. by apply (inj pretty) in Hij. Qed.

Lemma ex_hid_nonempty i : ex_hid i ≠ ""%string.
Proof. done. Qed.

(** The clocks of processes and database differ; the lease lasts 30. *)
Abbreviation ex_run := (run ex_hid ex_off 7 30 1).
Fixpoint ex_runs (ls : list label) (w : world) : option world :=
  match ls with [] => Some w | l :: ls => match ex_run l w with Some w => ex_runs ls w | None => None end end.

Lemma ex_runs_reachable ls w w' :
  reachable ex_hid ex_off 7 30 1 w → ex_runs ls w = Some w' → reachable ex_hid ex_off 7 30 1 w'.
Proof.
  revert w. induction ls as [|l ls IH]; simpl; intros w Hw; [by intros [= <-]|].
  destruct (ex_run l w) as [w1|] eqn:Hl; [|done]. apply IH. by eapply reachable_step.
Qed.

Definition ex_acquire (i : nat) : list label := [AcquireBegin i; AcquireNow i 1; AcquireWrite i true; AcquirePublish i].

(** The second process acquires after the first one's lease has expired. *)
Definition ex_takeover : world :=
  default start (ex_runs (ex_acquire 0 ++ [Tick 31] ++ ex_acquire 1) start).

Lemma ex_takeover_reachable : reachable ex_hid ex_off 7 30 1 ex_takeover.
Proof. apply (ex_runs_reachable (ex_acquire 0 ++ [Tick 31] ++ ex_acquire 1) start); [constructor|vm_compute; reflexivity]. Qed.

Example ex_takeover_admits :
  (lockRateAdmission ex_off 0 ex_takeover).2 = false ∧ (lockRateAdmission ex_off 1 ex_takeover).2 = true ∧
  ex_runs (ex_acquire 0 ++ [Tick 5] ++ ex_acquire 1) start = None.
Proof. vm_compute. done. Qed.

Lemma lease_exclusive_witness : 1%nat = 1%nat.
Proof.
  apply (lease_exclusive ex_hid ex_off 7 30 1 ex_hid_inj ex_hid_nonempty ltac:(lia) 1 1 ex_takeover);
    [exact ex_takeover_reachable|vm_compute; done|vm_compute; done].
Defined.

(** A renewal that takes from 20 to 31, over the deadline at 30: the write at 29
    succeeds, the local hold is cleared by a check at 31, and the renewal then
    ends without an error and without a hold, although the row names the
    process until 50. *)
Definition ex_slow_renewal : world :=
  default start (ex_runs (ex_acquire 0 ++ [Tick 20; RenewBegin 0; RenewNow 0 0; Tick 9; RenewWrite 0 true; Tick 2; Lock 0]) start).

Example ex_slow_renewal_state :
  row ex_slow_renewal = Some (ex_hid 0, 57) ∧ db_now 7 ex_slow_renewal = 38 ∧
  holder (procs ex_slow_renewal 0) = ""%string ∧ pc (procs ex_slow_renewal 0) = RenDone 20.
Proof. vm_compute. done. Qed.

Lemma renew_never_restores_witness :
  let w' := default start (ex_run (RenewPublish 0) ex_slow_renewal) in
  holder (procs w' 0) = ""%string ∧ (lockRateAdmission ex_off 0 w').2 = false.
Proof.
  apply (renew_never_restores ex_hid ex_off 7 30 1 0 0 ex_slow_renewal _ (RenewPublish 0));
    [vm_compute; reflexivity|by do 3 right|apply ex_hid_nonempty|].
  vm_compute. reflexivity.
Defined.
