(* ===== verification/SourceURL.v ===== *)
(** * Source origins: [normalizeSource] of [src/jetstream/internal/hypercerts/jobs/jobs.go]

    Jetstream keys every PDS by the origin this function returns.  It uses more
    of [net/url] and [net] than the relay's [ParseHostname]: hosts in brackets,
    [net.ParseIP] with [IsLoopback], and [u.String()]. *)

From S2P Require Import Prelude GoStrings Regex Syntax Hostname.
Local Open Scope string_scope.

(** ** Hosts in brackets *)

(** A bracketed host, its zone apart, is unescaped like any other; in a zone
    every escape is allowed. *)
Definition parseHostBracketed (host : string) : result string string :=
  match CutLast "]" host with
  | None => Err "missing ']' in host"
  | Some (inner, colonPort) =>
      if negb (validOptionalPort colonPort) then Err "invalid port after host"
      else
        let text := substring 1 (String.length inner) inner in
        match CutLast "%" text with
        | Some (before, after) =>
            if HasPrefix after "25" && negb (ContainsByte "%" before) then
              h1 ← unescape true ("[" ++ before);
              h2 ← unescape false ("%" ++ after);
              h3 ← unescape true ("]" ++ colonPort);
              mret (h1 ++ h2 ++ h3)
            else unescape true host
        | None => unescape true host
        end
  end.

Definition parseHostFull (host : string) : result string string :=
  if HasPrefix host "[" then parseHostBracketed host else parseHost host.

(** [u.Hostname()]: without port and brackets. *)
Definition stripPort (hostPort : string) : string :=
  match CutLast ":" hostPort with
  | Some (host, port) => if str_forall is_digit port && negb (HasPrefix hostPort "[" && negb (HasSuffix host "]")) then host else hostPort
  | None => hostPort
  end.
Definition url_Hostname (host : string) : string :=
  let h := stripPort host in
  if HasPrefix h "[" && HasSuffix h "]" then substring 1 (String.length h - 2) h else h.

(** ** [net.ParseIP] *)

Fixpoint dec_value (acc : N) (s : string) : N :=
  match s with "" => acc | String c s => dec_value (10 * acc + (N_of_ascii c - 48)) s end.
Fixpoint hex_value (acc : N) (s : string) : N :=
  match s with "" => acc | String c s => hex_value (16 * acc + unhex c) s end.

(** One to three digits, no leading zero, at most 255. *)
Definition ipv4_field (s : string) : option N :=
  if String.eqb s "" || negb (str_forall is_digit s) || (3 <? String.length s)%nat then None
  else if (1 <? String.length s)%nat && HasPrefix s "0" then None
  else let v := dec_value 0 s in if (255 <? v)%N then None else Some v.

Definition parseIPv4 (s : string) : option (list N) :=
  match Split "." s with
  | [a; b; c; d] => a ← ipv4_field a; b ← ipv4_field b; c ← ipv4_field c; d ← ipv4_field d; Some [a; b; c; d]
  | _ => None
  end.

Definition ipv6_field (s : string) : option N :=
  if String.eqb s "" || negb (str_forall is_hex s) || (4 <? String.length s)%nat then None else Some (hex_value 0 s).

(** The groups of one side of a [::]; the last may be an IPv4 address. *)
Fixpoint ipv6_groups (fields : list string) : option (list N) :=
  match fields with
  | [] => Some []
  | [f] =>
      match ipv6_field f with
      | Some v => Some [v]
      | None => match parseIPv4 f with Some [a; b; c; d] => Some [256 * a + b; 256 * c + d]%N | _ => None end
      end
  | f :: fields => v ← ipv6_field f; vs ← ipv6_groups fields; Some (v :: vs)
  end.

Definition ipv6_side (s : string) : option (list N) := if String.eqb s "" then Some [] else ipv6_groups (Split ":" s).

(** The text around the first [::]. *)
Fixpoint CutEllipsis (s : string) : option (string * string) :=
  match s with
  | "" => None
  | String a s' =>
      if HasPrefix s "::" then Some ("", substring 2 (String.length s) s)
      else match CutEllipsis s' with Some (before, after) => Some (String a before, after) | None => None end
  end.

Definition parseIPv6 (s : string) : option (list N) :=
  match CutEllipsis s with
  | Some (before, after) =>
      if ContainsByte "." before then None
      else
        b ← ipv6_side before; a ← ipv6_side after;
        if (length b + length a <? 8)%nat then Some (b ++ replicate (8 - length b - length a) 0%N ++ a)%list else None
  | None => gs ← ipv6_side s; if (length gs =? 8)%nat then Some gs else None
  end.

(** [net.ParseIP(s).IsLoopback()]; an IPv6 address that maps an IPv4 one counts
    as that. *)
Definition IsLoopback (s : string) : bool :=
  if ContainsByte ":" s then
    match parseIPv6 s with
    | Some [0; 0; 0; 0; 0; 65535; hi; _]%N => (hi / 256 =? 127)%N
    | Some [0; 0; 0; 0; 0; 0; 0; 1]%N => true
    | _ => false
    end
  else match parseIPv4 s with Some (a :: _) => (a =? 127)%N | _ => false end.

(** ** [u.String()] of an origin *)

Definition hex_digit (n : N) : ascii := ascii_of_N (if (n <? 10)%N then n + 48 else n + 55).
Fixpoint escape_host (s : string) : string :=
  match s with
  | "" => ""
  | String c s =>
      if host_char_ok c && (N_of_ascii c <? 128)%N then String c (escape_host s)
      else String "%" (String (hex_digit (N_of_ascii c / 16)) (String (hex_digit (N_of_ascii c mod 16)) (escape_host s)))
  end.

(** ** [normalizeSource] *)

(** [strings.ToLower] also maps letters beyond ASCII; that part is [fold]. *)
Definition lower_host (fold : string → string) (s : string) : string :=
  if str_forall (λ c, (N_of_ascii c <? 128)%N) s then ToLower s else fold s.

(** Scheme, host, whether the URL has more than that (user, query, fragment,
    path), and [ForceQuery]: a question mark with nothing behind it. *)
Definition parse_origin (raw : string) : result string (string * string * bool * bool) :=
  if negb (str_forall (λ c, negb (is_ctl c)) raw) then Err "invalid control character in URL"
  else
    let '(u, frag, _) := Cut "#" raw in
    '(scheme, rest) ← getScheme u;
    let scheme := ToLower scheme in
    let '(rest, query, mark) := Cut "?" rest in
    fragment ← unescape false frag;
    if HasPrefix rest "//" && (negb (String.eqb scheme "") || negb (HasPrefix rest "///")) then
      let '(authority, path, slash) := Cut "/" (substring 2 (String.length rest) rest) in
      let path := if slash then "/" ++ path else "" in
      let '(user, host) := match CutLast "@" authority with Some (_, host) => (true, host) | None => (false, authority) end in
      host ← parseHostFull host; path ← unescape false path;
      mret (scheme, host, user || negb (String.eqb query "") || negb (String.eqb fragment "")
                          || (negb (String.eqb path "") && negb (String.eqb path "/")),
            mark && String.eqb query "")
    else Err "no host".

Definition normalizeSource (fold : string → string) (raw : string) : option string :=
  match parse_origin raw with
  | Err _ => None
  | Ok (scheme, host, extra, force) =>
      if String.eqb host "" || extra then None
      else if negb (String.eqb scheme "https")
           && negb (String.eqb scheme "http" && (String.eqb (url_Hostname host) "localhost" || IsLoopback (url_Hostname host)))
      then None
      else Some (scheme ++ "://" ++ escape_host (lower_host fold host) ++ (if force then "?" else ""))
  end.

Example normalizeSource_https : normalizeSource id "HTTPS://Pds.Example.ORG:8443/" = Some "https://pds.example.org:8443".
Proof. vm_refl. Qed.
Example normalizeSource_loopback6 : normalizeSource id "http://[::1]:2583" = Some "http://[::1]:2583".
Proof. vm_refl. Qed.
Example normalizeSource_loopback4 : normalizeSource id "http://127.0.0.1" = Some "http://127.0.0.1".
Proof. vm_refl. Qed.
Example normalizeSource_refuses :
  map (normalizeSource id) ["http://pds.example.org"; "https://a@b.org"; "https://b.org/x"; "https://b.org?q"; "b.org"; "http://[::2]"]
  = [None; None; None; None; None; None].
Proof. vm_refl. Qed.

(** An origin followed by a bare question mark is another key. *)
Example normalizeSource_force_query : normalizeSource id "https://b.org?" = Some "https://b.org?".
Proof. vm_refl. Qed.
