(* ===== verification/JobsData.v ===== *)
(** * The data of Jetstream's recovery jobs: [src/jetstream/internal/hypercerts]

    The records of [selection], [policygate] and [jobs], the durable store behind
    them and the state of the job manager.  The store is a key-value store with
    one key space per kind of entry (the key prefixes of the source are disjoint
    and the DIDs in keys are encoded without loss); an entry is the value itself,
    not its JSON text.  A Go map is a finite map, a nil map the empty one; copying
    a value through JSON is the identity.  Each call to the outside (the clock,
    the store, the relay, the PDS) asks [JobServices] with the number of calls
    made so far; a write to the store that fails leaves it as it was.  A crash is
    a run in which every call fails from some point on, and [Open] after it. *)

From S2P Require Import Prelude GoStrings StateMonad Sha256 SourceURL.
Local Open Scope Z_scope.

(** Nanoseconds since the zero [time.Time], the start of year 1. *)
Abbreviation time := Z (only parsing).
Definition second : Z := 1000000000.
Definition IsZero (t : time) : bool := t =? 0.
(** [a.After(b)] *)
Definition After (a b : time) : bool := b <? a.
(** The start of the year 10000. *)
Definition year_10000 : time := 3652059 * 86400 * second.

(** ** [selection] *)

(** Empty never means all collections. *)
Record Policy := mkPolicy { pol_Revision : Z; pol_Collections : list string }.
#[export] Instance Policy_eq_dec : EqDecision Policy.
Proof. solve_decision. Defined.

(** [attribution.Policy]: the policy with the last sequence number before it. *)
Record AttributionPolicy := mkAPolicy { ap_Revision : Z; ap_Collections : list string; ap_EffectiveAfterSeq : option Z }.
#[export] Instance AttributionPolicy_eq_dec : EqDecision AttributionPolicy.
Proof. solve_decision. Defined.

(** ** Jobs *)

Inductive State : Set := Pending | Running | Failed | Canceled | Incomplete | Complete.
#[export] Instance State_eq_dec : EqDecision State.
Proof. solve_decision. Defined.
Definition State_string (s : State) : string :=
  match s with
  | Pending => "pending" | Running => "running" | Failed => "failed"
  | Canceled => "canceled" | Incomplete => "incomplete" | Complete => "complete"
  end.

Record AcquisitionEvidence := mkEvidence {
  ae_Scanned : Z; ae_Matching : Z; ae_NoMatch : Z; ae_AttributableRecords : Z; ae_LastProgressAt : time;
}.
Record JobFailure := mkJobFailure { jf_Stage : string; jf_Category : string; jf_HTTPStatus : Z; jf_FailedAt : time }.

Record Job := mkJob {
  j_ID : string;
  j_PDS : string;
  j_Policy : Policy;
  j_Reason : string;
  j_SourceRevision : Z;   (* the relay revision it may acknowledge *)
  j_AcquisitionGeneration : Z;
  j_State : State;
  j_Attempts : Z;
  j_CompletedRepos : gmap string string;   (* DID to revision *)
  j_EnumeratedRepos : Z;
  j_TotalRepos : Z;
  j_TotalReposKnown : bool;
  j_Cursor : string;
  j_ErrorCode : string;
  j_FailureRepository : string;
  j_LastFailure : option JobFailure;
  j_Evidence : option AcquisitionEvidence;
  j_LastProgressAt : option time;
  j_CreatedAt : time;
  j_StartedAt : time;
  j_FinishedAt : time;
  j_ReceiptPending : bool;
  j_ReceiptAttempts : Z;
  j_ReceiptRetryAt : time;
  j_ReceiptError : string;
}.
Definition set_j_ID (v : string) (x : Job) : Job := mkJob v (j_PDS x) (j_Policy x) (j_Reason x) (j_SourceRevision x) (j_AcquisitionGeneration x) (j_State x) (j_Attempts x) (j_CompletedRepos x) (j_EnumeratedRepos x) (j_TotalRepos x) (j_TotalReposKnown x) (j_Cursor x) (j_ErrorCode x) (j_FailureRepository x) (j_LastFailure x) (j_Evidence x) (j_LastProgressAt x) (j_CreatedAt x) (j_StartedAt x) (j_FinishedAt x) (j_ReceiptPending x) (j_ReceiptAttempts x) (j_ReceiptRetryAt x) (j_ReceiptError x).
Definition set_j_AcquisitionGeneration (v : Z) (x : Job) : Job := mkJob (j_ID x) (j_PDS x) (j_Policy x) (j_Reason x) (j_SourceRevision x) v (j_State x) (j_Attempts x) (j_CompletedRepos x) (j_EnumeratedRepos x) (j_TotalRepos x) (j_TotalReposKnown x) (j_Cursor x) (j_ErrorCode x) (j_FailureRepository x) (j_LastFailure x) (j_Evidence x) (j_LastProgressAt x) (j_CreatedAt x) (j_StartedAt x) (j_FinishedAt x) (j_ReceiptPending x) (j_ReceiptAttempts x) (j_ReceiptRetryAt x) (j_ReceiptError x).
Definition set_j_State (v : State) (x : Job) : Job := mkJob (j_ID x) (j_PDS x) (j_Policy x) (j_Reason x) (j_SourceRevision x) (j_AcquisitionGeneration x) v (j_Attempts x) (j_CompletedRepos x) (j_EnumeratedRepos x) (j_TotalRepos x) (j_TotalReposKnown x) (j_Cursor x) (j_ErrorCode x) (j_FailureRepository x) (j_LastFailure x) (j_Evidence x) (j_LastProgressAt x) (j_CreatedAt x) (j_StartedAt x) (j_FinishedAt x) (j_ReceiptPending x) (j_ReceiptAttempts x) (j_ReceiptRetryAt x) (j_ReceiptError x).
Definition set_j_Attempts (v : Z) (x : Job) : Job := mkJob (j_ID x) (j_PDS x) (j_Policy x) (j_Reason x) (j_SourceRevision x) (j_AcquisitionGeneration x) (j_State x) v (j_CompletedRepos x) (j_EnumeratedRepos x) (j_TotalRepos x) (j_TotalReposKnown x) (j_Cursor x) (j_ErrorCode x) (j_FailureRepository x) (j_LastFailure x) (j_Evidence x) (j_LastProgressAt x) (j_CreatedAt x) (j_StartedAt x) (j_FinishedAt x) (j_ReceiptPending x) (j_ReceiptAttempts x) (j_ReceiptRetryAt x) (j_ReceiptError x).
Definition set_j_CompletedRepos (v : gmap string string) (x : Job) : Job := mkJob (j_ID x) (j_PDS x) (j_Policy x) (j_Reason x) (j_SourceRevision x) (j_AcquisitionGeneration x) (j_State x) (j_Attempts x) v (j_EnumeratedRepos x) (j_TotalRepos x) (j_TotalReposKnown x) (j_Cursor x) (j_ErrorCode x) (j_FailureRepository x) (j_LastFailure x) (j_Evidence x) (j_LastProgressAt x) (j_CreatedAt x) (j_StartedAt x) (j_FinishedAt x) (j_ReceiptPending x) (j_ReceiptAttempts x) (j_ReceiptRetryAt x) (j_ReceiptError x).
Definition set_j_EnumeratedRepos (v : Z) (x : Job) : Job := mkJob (j_ID x) (j_PDS x) (j_Policy x) (j_Reason x) (j_SourceRevision x) (j_AcquisitionGeneration x) (j_State x) (j_Attempts x) (j_CompletedRepos x) v (j_TotalRepos x) (j_TotalReposKnown x) (j_Cursor x) (j_ErrorCode x) (j_FailureRepository x) (j_LastFailure x) (j_Evidence x) (j_LastProgressAt x) (j_CreatedAt x) (j_StartedAt x) (j_FinishedAt x) (j_ReceiptPending x) (j_ReceiptAttempts x) (j_ReceiptRetryAt x) (j_ReceiptError x).
Definition set_j_TotalRepos (v : Z) (x : Job) : Job := mkJob (j_ID x) (j_PDS x) (j_Policy x) (j_Reason x) (j_SourceRevision x) (j_AcquisitionGeneration x) (j_State x) (j_Attempts x) (j_CompletedRepos x) (j_EnumeratedRepos x) v (j_TotalReposKnown x) (j_Cursor x) (j_ErrorCode x) (j_FailureRepository x) (j_LastFailure x) (j_Evidence x) (j_LastProgressAt x) (j_CreatedAt x) (j_StartedAt x) (j_FinishedAt x) (j_ReceiptPending x) (j_ReceiptAttempts x) (j_ReceiptRetryAt x) (j_ReceiptError x).
Definition set_j_TotalReposKnown (v : bool) (x : Job) : Job := mkJob (j_ID x) (j_PDS x) (j_Policy x) (j_Reason x) (j_SourceRevision x) (j_AcquisitionGeneration x) (j_State x) (j_Attempts x) (j_CompletedRepos x) (j_EnumeratedRepos x) (j_TotalRepos x) v (j_Cursor x) (j_ErrorCode x) (j_FailureRepository x) (j_LastFailure x) (j_Evidence x) (j_LastProgressAt x) (j_CreatedAt x) (j_StartedAt x) (j_FinishedAt x) (j_ReceiptPending x) (j_ReceiptAttempts x) (j_ReceiptRetryAt x) (j_ReceiptError x).
Definition set_j_Cursor (v : string) (x : Job) : Job := mkJob (j_ID x) (j_PDS x) (j_Policy x) (j_Reason x) (j_SourceRevision x) (j_AcquisitionGeneration x) (j_State x) (j_Attempts x) (j_CompletedRepos x) (j_EnumeratedRepos x) (j_TotalRepos x) (j_TotalReposKnown x) v (j_ErrorCode x) (j_FailureRepository x) (j_LastFailure x) (j_Evidence x) (j_LastProgressAt x) (j_CreatedAt x) (j_StartedAt x) (j_FinishedAt x) (j_ReceiptPending x) (j_ReceiptAttempts x) (j_ReceiptRetryAt x) (j_ReceiptError x).
Definition set_j_ErrorCode (v : string) (x : Job) : Job := mkJob (j_ID x) (j_PDS x) (j_Policy x) (j_Reason x) (j_SourceRevision x) (j_AcquisitionGeneration x) (j_State x) (j_Attempts x) (j_CompletedRepos x) (j_EnumeratedRepos x) (j_TotalRepos x) (j_TotalReposKnown x) (j_Cursor x) v (j_FailureRepository x) (j_LastFailure x) (j_Evidence x) (j_LastProgressAt x) (j_CreatedAt x) (j_StartedAt x) (j_FinishedAt x) (j_ReceiptPending x) (j_ReceiptAttempts x) (j_ReceiptRetryAt x) (j_ReceiptError x).
Definition set_j_FailureRepository (v : string) (x : Job) : Job := mkJob (j_ID x) (j_PDS x) (j_Policy x) (j_Reason x) (j_SourceRevision x) (j_AcquisitionGeneration x) (j_State x) (j_Attempts x) (j_CompletedRepos x) (j_EnumeratedRepos x) (j_TotalRepos x) (j_TotalReposKnown x) (j_Cursor x) (j_ErrorCode x) v (j_LastFailure x) (j_Evidence x) (j_LastProgressAt x) (j_CreatedAt x) (j_StartedAt x) (j_FinishedAt x) (j_ReceiptPending x) (j_ReceiptAttempts x) (j_ReceiptRetryAt x) (j_ReceiptError x).
Definition set_j_LastFailure (v : option JobFailure) (x : Job) : Job := mkJob (j_ID x) (j_PDS x) (j_Policy x) (j_Reason x) (j_SourceRevision x) (j_AcquisitionGeneration x) (j_State x) (j_Attempts x) (j_CompletedRepos x) (j_EnumeratedRepos x) (j_TotalRepos x) (j_TotalReposKnown x) (j_Cursor x) (j_ErrorCode x) (j_FailureRepository x) v (j_Evidence x) (j_LastProgressAt x) (j_CreatedAt x) (j_StartedAt x) (j_FinishedAt x) (j_ReceiptPending x) (j_ReceiptAttempts x) (j_ReceiptRetryAt x) (j_ReceiptError x).
Definition set_j_Evidence (v : option AcquisitionEvidence) (x : Job) : Job := mkJob (j_ID x) (j_PDS x) (j_Policy x) (j_Reason x) (j_SourceRevision x) (j_AcquisitionGeneration x) (j_State x) (j_Attempts x) (j_CompletedRepos x) (j_EnumeratedRepos x) (j_TotalRepos x) (j_TotalReposKnown x) (j_Cursor x) (j_ErrorCode x) (j_FailureRepository x) (j_LastFailure x) v (j_LastProgressAt x) (j_CreatedAt x) (j_StartedAt x) (j_FinishedAt x) (j_ReceiptPending x) (j_ReceiptAttempts x) (j_ReceiptRetryAt x) (j_ReceiptError x).
Definition set_j_LastProgressAt (v : option time) (x : Job) : Job := mkJob (j_ID x) (j_PDS x) (j_Policy x) (j_Reason x) (j_SourceRevision x) (j_AcquisitionGeneration x) (j_State x) (j_Attempts x) (j_CompletedRepos x) (j_EnumeratedRepos x) (j_TotalRepos x) (j_TotalReposKnown x) (j_Cursor x) (j_ErrorCode x) (j_FailureRepository x) (j_LastFailure x) (j_Evidence x) v (j_CreatedAt x) (j_StartedAt x) (j_FinishedAt x) (j_ReceiptPending x) (j_ReceiptAttempts x) (j_ReceiptRetryAt x) (j_ReceiptError x).
Definition set_j_StartedAt (v : time) (x : Job) : Job := mkJob (j_ID x) (j_PDS x) (j_Policy x) (j_Reason x) (j_SourceRevision x) (j_AcquisitionGeneration x) (j_State x) (j_Attempts x) (j_CompletedRepos x) (j_EnumeratedRepos x) (j_TotalRepos x) (j_TotalReposKnown x) (j_Cursor x) (j_ErrorCode x) (j_FailureRepository x) (j_LastFailure x) (j_Evidence x) (j_LastProgressAt x) (j_CreatedAt x) v (j_FinishedAt x) (j_ReceiptPending x) (j_ReceiptAttempts x) (j_ReceiptRetryAt x) (j_ReceiptError x).
Definition set_j_FinishedAt (v : time) (x : Job) : Job := mkJob (j_ID x) (j_PDS x) (j_Policy x) (j_Reason x) (j_SourceRevision x) (j_AcquisitionGeneration x) (j_State x) (j_Attempts x) (j_CompletedRepos x) (j_EnumeratedRepos x) (j_TotalRepos x) (j_TotalReposKnown x) (j_Cursor x) (j_ErrorCode x) (j_FailureRepository x) (j_LastFailure x) (j_Evidence x) (j_LastProgressAt x) (j_CreatedAt x) (j_StartedAt x) v (j_ReceiptPending x) (j_ReceiptAttempts x) (j_ReceiptRetryAt x) (j_ReceiptError x).
Definition set_j_ReceiptPending (v : bool) (x : Job) : Job := mkJob (j_ID x) (j_PDS x) (j_Policy x) (j_Reason x) (j_SourceRevision x) (j_AcquisitionGeneration x) (j_State x) (j_Attempts x) (j_CompletedRepos x) (j_EnumeratedRepos x) (j_TotalRepos x) (j_TotalReposKnown x) (j_Cursor x) (j_ErrorCode x) (j_FailureRepository x) (j_LastFailure x) (j_Evidence x) (j_LastProgressAt x) (j_CreatedAt x) (j_StartedAt x) (j_FinishedAt x) v (j_ReceiptAttempts x) (j_ReceiptRetryAt x) (j_ReceiptError x).
Definition set_j_ReceiptAttempts (v : Z) (x : Job) : Job := mkJob (j_ID x) (j_PDS x) (j_Policy x) (j_Reason x) (j_SourceRevision x) (j_AcquisitionGeneration x) (j_State x) (j_Attempts x) (j_CompletedRepos x) (j_EnumeratedRepos x) (j_TotalRepos x) (j_TotalReposKnown x) (j_Cursor x) (j_ErrorCode x) (j_FailureRepository x) (j_LastFailure x) (j_Evidence x) (j_LastProgressAt x) (j_CreatedAt x) (j_StartedAt x) (j_FinishedAt x) (j_ReceiptPending x) v (j_ReceiptRetryAt x) (j_ReceiptError x).
Definition set_j_ReceiptRetryAt (v : time) (x : Job) : Job := mkJob (j_ID x) (j_PDS x) (j_Policy x) (j_Reason x) (j_SourceRevision x) (j_AcquisitionGeneration x) (j_State x) (j_Attempts x) (j_CompletedRepos x) (j_EnumeratedRepos x) (j_TotalRepos x) (j_TotalReposKnown x) (j_Cursor x) (j_ErrorCode x) (j_FailureRepository x) (j_LastFailure x) (j_Evidence x) (j_LastProgressAt x) (j_CreatedAt x) (j_StartedAt x) (j_FinishedAt x) (j_ReceiptPending x) (j_ReceiptAttempts x) v (j_ReceiptError x).
Definition set_j_ReceiptError (v : string) (x : Job) : Job := mkJob (j_ID x) (j_PDS x) (j_Policy x) (j_Reason x) (j_SourceRevision x) (j_AcquisitionGeneration x) (j_State x) (j_Attempts x) (j_CompletedRepos x) (j_EnumeratedRepos x) (j_TotalRepos x) (j_TotalReposKnown x) (j_Cursor x) (j_ErrorCode x) (j_FailureRepository x) (j_LastFailure x) (j_Evidence x) (j_LastProgressAt x) (j_CreatedAt x) (j_StartedAt x) (j_FinishedAt x) (j_ReceiptPending x) (j_ReceiptAttempts x) (j_ReceiptRetryAt x) v.

Record SnapshotRejection := mkRejection {
  sr_PDS : string; sr_PolicyRevision : Z; sr_DID : string; sr_ListedRevision : string;
  sr_Kind : string; sr_Code : string; sr_RejectedAt : time;
}.

(** ** The job document *)

Record data := mkData {
  d_Actions : gmap string string;   (* receipts of cancel and retry commands *)
  d_Requests : gmap string string;   (* receipts of job requests *)
  d_Initialized : bool;
  d_Sources : gmap string bool;
  d_SourceRevisions : gmap string Z;
  d_SourceTombstones : gmap string Z;
  d_Jobs : gmap string Job;
  d_SnapshotRejections : gmap string SnapshotRejection;
}.
Definition set_d_Actions (v : gmap string string) (x : data) : data := mkData v (d_Requests x) (d_Initialized x) (d_Sources x) (d_SourceRevisions x) (d_SourceTombstones x) (d_Jobs x) (d_SnapshotRejections x).
Definition set_d_Requests (v : gmap string string) (x : data) : data := mkData (d_Actions x) v (d_Initialized x) (d_Sources x) (d_SourceRevisions x) (d_SourceTombstones x) (d_Jobs x) (d_SnapshotRejections x).
Definition set_d_Initialized (v : bool) (x : data) : data := mkData (d_Actions x) (d_Requests x) v (d_Sources x) (d_SourceRevisions x) (d_SourceTombstones x) (d_Jobs x) (d_SnapshotRejections x).
Definition set_d_Sources (v : gmap string bool) (x : data) : data := mkData (d_Actions x) (d_Requests x) (d_Initialized x) v (d_SourceRevisions x) (d_SourceTombstones x) (d_Jobs x) (d_SnapshotRejections x).
Definition set_d_SourceRevisions (v : gmap string Z) (x : data) : data := mkData (d_Actions x) (d_Requests x) (d_Initialized x) (d_Sources x) v (d_SourceTombstones x) (d_Jobs x) (d_SnapshotRejections x).
Definition set_d_SourceTombstones (v : gmap string Z) (x : data) : data := mkData (d_Actions x) (d_Requests x) (d_Initialized x) (d_Sources x) (d_SourceRevisions x) v (d_Jobs x) (d_SnapshotRejections x).
Definition set_d_Jobs (v : gmap string Job) (x : data) : data := mkData (d_Actions x) (d_Requests x) (d_Initialized x) (d_Sources x) (d_SourceRevisions x) (d_SourceTombstones x) v (d_SnapshotRejections x).
Definition set_d_SnapshotRejections (v : gmap string SnapshotRejection) (x : data) : data := mkData (d_Actions x) (d_Requests x) (d_Initialized x) (d_Sources x) (d_SourceRevisions x) (d_SourceTombstones x) (d_Jobs x) v.

Definition emptyData : data := mkData ∅ ∅ false ∅ ∅ ∅ ∅ ∅.

(** Reading a map: the zero value for a missing key. *)
Definition src_on (d : data) (pds : string) : bool := default false (d_Sources d !! pds).
Definition src_rev (d : data) (pds : string) : Z := default 0 (d_SourceRevisions d !! pds).
Definition src_tomb (d : data) (pds : string) : Z := default 0 (d_SourceTombstones d !! pds).
Definition put_job (id : string) (j : Job) (d : data) : data := set_d_Jobs (<[id := j]> (d_Jobs d)) d.

(** ** Repository retries *)

Inductive RepositoryRetryState : Set :=
| RetryReady | RetryInFlight | RetryWait | RetryUnresolved | RetryComplete.
#[export] Instance RepositoryRetryState_eq_dec : EqDecision RepositoryRetryState.
Proof. solve_decision. Defined.
Inductive RepositoryFailureCategory : Set :=
| FailureTimeout | FailureTransport | FailureBodyRead | FailureHTTP | FailureUnknown | FailureInterrupted | FailureRejected.
#[export] Instance RepositoryFailureCategory_eq_dec : EqDecision RepositoryFailureCategory.
Proof. solve_decision. Defined.
Inductive RepositoryFailureStage : Set := GetRepoRequest | GetRepoBody.
Record RepositoryRetryFailure := mkRetryFailure {
  rf_Category : RepositoryFailureCategory; rf_HTTPStatus : Z; rf_Stage : RepositoryFailureStage; rf_Code : string;
}.

Record RepositoryRetry := mkRetry {
  rt_JobID : string;
  rt_DID : string;
  rt_ListedRevision : string;
  rt_State : RepositoryRetryState;
  rt_Attempts : Z;
  rt_RetryAt : time;
  rt_Failure : option RepositoryRetryFailure;
  rt_FailedAt : option time;
}.
Definition set_rt_State (v : RepositoryRetryState) (x : RepositoryRetry) : RepositoryRetry := mkRetry (rt_JobID x) (rt_DID x) (rt_ListedRevision x) v (rt_Attempts x) (rt_RetryAt x) (rt_Failure x) (rt_FailedAt x).
Definition set_rt_FailedAt (v : option time) (x : RepositoryRetry) : RepositoryRetry := mkRetry (rt_JobID x) (rt_DID x) (rt_ListedRevision x) (rt_State x) (rt_Attempts x) (rt_RetryAt x) (rt_Failure x) v.

(** ** Snapshots of a repository *)

Record RecordEvent := mkRecordEvent { re_Collection : string; re_Rkey : string; re_Payload : string }.
Record Snapshot := mkSnapshot { sn_DID : string; sn_Rev : string; sn_Collections : list string; sn_Records : list RecordEvent }.
(** A snapshot in the archive, and the job that wrote it. *)
Record Reconciled := mkReconciled { rc_job : string; rc_PDS : string; rc_snapshot : Snapshot }.

(** ** Store and manager *)

Record Store := mkStore {
  st_state : option data;   (* the job document *)
  st_policy : option Policy;   (* the collection policy *)
  st_inventory : gmap string (gmap string string);   (* per job *)
  st_retry : gmap (string * string) RepositoryRetry;   (* per job and DID *)
  st_cooldown : gmap string time;   (* per PDS *)
  st_history : gmap Z AttributionPolicy;   (* policies adopted, by revision *)
}.
Definition set_st_state (v : option data) (x : Store) : Store := mkStore v (st_policy x) (st_inventory x) (st_retry x) (st_cooldown x) (st_history x).
Definition set_st_policy (v : option Policy) (x : Store) : Store := mkStore (st_state x) v (st_inventory x) (st_retry x) (st_cooldown x) (st_history x).
Definition set_st_inventory (v : gmap string (gmap string string)) (x : Store) : Store := mkStore (st_state x) (st_policy x) v (st_retry x) (st_cooldown x) (st_history x).
Definition set_st_retry (v : gmap (string * string) RepositoryRetry) (x : Store) : Store := mkStore (st_state x) (st_policy x) (st_inventory x) v (st_cooldown x) (st_history x).
Definition set_st_cooldown (v : gmap string time) (x : Store) : Store := mkStore (st_state x) (st_policy x) (st_inventory x) (st_retry x) v (st_history x).
Definition set_st_history (v : gmap Z AttributionPolicy) (x : Store) : Store := mkStore (st_state x) (st_policy x) (st_inventory x) (st_retry x) (st_cooldown x) v.

Record Manager := mkManager {
  m_data : data;
  m_policy : Policy;   (* of the selection manager *)
  m_runningID : string;
  m_canceled : bool;   (* the running job's context is canceled *)
  m_receiptSender : bool;
  m_policyAdvancer : bool;   (* whether they are configured *)
  m_gate : option string;   (* the domain, once gate and attribution are bound *)
  m_requirePolicyAdoption : bool;
  m_receiptRunning : gset string;
  m_inflight : list Job;   (* goroutines that deliver a receipt *)
  m_up : bool;   (* the process runs *)
  m_store : Store;
  m_archive : list Reconciled;   (* what was reconciled into the archive *)
  m_receipts : list Job;   (* receipts handed to the relay *)
  m_tick : nat;   (* calls made so far *)
}.
Definition set_m_data (v : data) (x : Manager) : Manager := mkManager v (m_policy x) (m_runningID x) (m_canceled x) (m_receiptSender x) (m_policyAdvancer x) (m_gate x) (m_requirePolicyAdoption x) (m_receiptRunning x) (m_inflight x) (m_up x) (m_store x) (m_archive x) (m_receipts x) (m_tick x).
Definition set_m_policy (v : Policy) (x : Manager) : Manager := mkManager (m_data x) v (m_runningID x) (m_canceled x) (m_receiptSender x) (m_policyAdvancer x) (m_gate x) (m_requirePolicyAdoption x) (m_receiptRunning x) (m_inflight x) (m_up x) (m_store x) (m_archive x) (m_receipts x) (m_tick x).
Definition set_m_runningID (v : string) (x : Manager) : Manager := mkManager (m_data x) (m_policy x) v (m_canceled x) (m_receiptSender x) (m_policyAdvancer x) (m_gate x) (m_requirePolicyAdoption x) (m_receiptRunning x) (m_inflight x) (m_up x) (m_store x) (m_archive x) (m_receipts x) (m_tick x).
Definition set_m_canceled (v : bool) (x : Manager) : Manager := mkManager (m_data x) (m_policy x) (m_runningID x) v (m_receiptSender x) (m_policyAdvancer x) (m_gate x) (m_requirePolicyAdoption x) (m_receiptRunning x) (m_inflight x) (m_up x) (m_store x) (m_archive x) (m_receipts x) (m_tick x).
Definition set_m_receiptSender (v : bool) (x : Manager) : Manager := mkManager (m_data x) (m_policy x) (m_runningID x) (m_canceled x) v (m_policyAdvancer x) (m_gate x) (m_requirePolicyAdoption x) (m_receiptRunning x) (m_inflight x) (m_up x) (m_store x) (m_archive x) (m_receipts x) (m_tick x).
Definition set_m_policyAdvancer (v : bool) (x : Manager) : Manager := mkManager (m_data x) (m_policy x) (m_runningID x) (m_canceled x) (m_receiptSender x) v (m_gate x) (m_requirePolicyAdoption x) (m_receiptRunning x) (m_inflight x) (m_up x) (m_store x) (m_archive x) (m_receipts x) (m_tick x).
Definition set_m_gate (v : option string) (x : Manager) : Manager := mkManager (m_data x) (m_policy x) (m_runningID x) (m_canceled x) (m_receiptSender x) (m_policyAdvancer x) v (m_requirePolicyAdoption x) (m_receiptRunning x) (m_inflight x) (m_up x) (m_store x) (m_archive x) (m_receipts x) (m_tick x).
Definition set_m_requirePolicyAdoption (v : bool) (x : Manager) : Manager := mkManager (m_data x) (m_policy x) (m_runningID x) (m_canceled x) (m_receiptSender x) (m_policyAdvancer x) (m_gate x) v (m_receiptRunning x) (m_inflight x) (m_up x) (m_store x) (m_archive x) (m_receipts x) (m_tick x).
Definition set_m_receiptRunning (v : gset string) (x : Manager) : Manager := mkManager (m_data x) (m_policy x) (m_runningID x) (m_canceled x) (m_receiptSender x) (m_policyAdvancer x) (m_gate x) (m_requirePolicyAdoption x) v (m_inflight x) (m_up x) (m_store x) (m_archive x) (m_receipts x) (m_tick x).
Definition set_m_inflight (v : list Job) (x : Manager) : Manager := mkManager (m_data x) (m_policy x) (m_runningID x) (m_canceled x) (m_receiptSender x) (m_policyAdvancer x) (m_gate x) (m_requirePolicyAdoption x) (m_receiptRunning x) v (m_up x) (m_store x) (m_archive x) (m_receipts x) (m_tick x).
Definition set_m_up (v : bool) (x : Manager) : Manager := mkManager (m_data x) (m_policy x) (m_runningID x) (m_canceled x) (m_receiptSender x) (m_policyAdvancer x) (m_gate x) (m_requirePolicyAdoption x) (m_receiptRunning x) (m_inflight x) v (m_store x) (m_archive x) (m_receipts x) (m_tick x).
Definition set_m_store (v : Store) (x : Manager) : Manager := mkManager (m_data x) (m_policy x) (m_runningID x) (m_canceled x) (m_receiptSender x) (m_policyAdvancer x) (m_gate x) (m_requirePolicyAdoption x) (m_receiptRunning x) (m_inflight x) (m_up x) v (m_archive x) (m_receipts x) (m_tick x).
Definition set_m_archive (v : list Reconciled) (x : Manager) : Manager := mkManager (m_data x) (m_policy x) (m_runningID x) (m_canceled x) (m_receiptSender x) (m_policyAdvancer x) (m_gate x) (m_requirePolicyAdoption x) (m_receiptRunning x) (m_inflight x) (m_up x) (m_store x) v (m_receipts x) (m_tick x).
Definition set_m_receipts (v : list Job) (x : Manager) : Manager := mkManager (m_data x) (m_policy x) (m_runningID x) (m_canceled x) (m_receiptSender x) (m_policyAdvancer x) (m_gate x) (m_requirePolicyAdoption x) (m_receiptRunning x) (m_inflight x) (m_up x) (m_store x) (m_archive x) v (m_tick x).
Definition set_m_tick (v : nat) (x : Manager) : Manager := mkManager (m_data x) (m_policy x) (m_runningID x) (m_canceled x) (m_receiptSender x) (m_policyAdvancer x) (m_gate x) (m_requirePolicyAdoption x) (m_receiptRunning x) (m_inflight x) (m_up x) (m_store x) (m_archive x) (m_receipts x) v.

(** ** Errors *)

Record InputError := mkInputError { ie_Code : string; ie_Unavailable : bool }.
Record pdsAttemptFailure := mkAttemptFailure {
  af_outcome : InputError; af_stage : string; af_causeClass : string; af_repositoryDID : string;
  af_httpStatus : Z; af_retryable : bool; af_retryAt : time;
}.

Inductive jobs_err : Type :=
| ErrConflict | ErrNotFound | ErrInvalidInput | ErrPolicyMirrorRequired | ErrReceiptStale | ErrReceiptSourceMissing
| ErrPolicyAdoptionNotReady | ErrRevision | ErrDomainRequired | ErrAttributionInvalid | ErrAttributionConflict
| ErrRepositoryCoolingDown | ErrRepositoryRetryNotDue | ErrRepositoryRetryExhausted
| ErrAccountUnavailable | errJobYield | ContextCanceled | DeadlineExceeded
| Input (e : InputError)
| AttemptFailed (e : pdsAttemptFailure)                            (* unwraps to its outcome *)
| JobOutcome (e : InputError) (f : pdsAttemptFailure)              (* unwraps to both *)
| WrapErr (msg : string) (e : jobs_err)
| OtherErr (msg : string).

(** [errors.As(err, &input)] and [errors.As(err, &attemptFailure)] *)
Fixpoint as_Input (e : jobs_err) : option InputError :=
  match e with
  | Input i => Some i
  | AttemptFailed f => Some (af_outcome f)
  | JobOutcome i _ => Some i
  | WrapErr _ e => as_Input e
  | _ => None
  end.
Fixpoint as_AttemptFailure (e : jobs_err) : option pdsAttemptFailure :=
  match e with
  | AttemptFailed f | JobOutcome _ f => Some f
  | WrapErr _ e => as_AttemptFailure e
  | _ => None
  end.
(** The sentinel at the end of a chain, for [errors.Is]. *)
Fixpoint root_cause (e : jobs_err) : jobs_err := match e with WrapErr _ e => root_cause e | e => e end.

(** ** The outside *)

Class JobServices := {
  job_clock : nat → time;
  store_fail : nat → option string;
  (** The order in which a map is ranged over. *)
  range_order : nat → ∀ A : Type, list A → list A;
  range_order_perm : ∀ n A (l : list A), range_order n A l ≡ₚ l;
  (** [strings.ToLower] on hosts that are not ASCII. *)
  fold_case : string → string;
  (** The identifier parsers of the atmos library; a TID has an integer. *)
  ParseDID_ok : string → bool;
  ParseTID_int : string → option Z;
  ParseTID_empty : ParseTID_int "" = None;
  ParseNSID_ok : string → bool;
  (** The relay's answers on [recovery-policy] and [recovery-receipt]: the status
      code, and whether the body names [source_not_found]. *)
  relay_advance : nat → string → Z → Z → result string (Z * bool);
  relay_receipt : nat → Job → result string (Z * bool);
  (** [ctx.Err()] of the context of the call. *)
  ctx_err : nat → option jobs_err;
  (** The durable stream: [DrainDurability] and [NextSeq]. *)
  drain_fail : nat → option string;
  stream_next_seq : nat → Z;
}.

Abbreviation JM := (StateM Manager jobs_err).

Section primitives.
Context `{JobServices}.

Definition jcall {A} (f : nat → A) : JM A := fun m => (set_m_tick (S (m_tick m)) m, Ok (f (m_tick m))).
Definition now : JM time := jcall job_clock.
(** An operation of the store that may fail. *)
Definition storeop : JM unit :=
  e ← jcall store_fail; match e with Some msg => throw (OtherErr msg) | None => mret tt end.
Definition ranged {A} (l : list A) : JM (list A) := jcall (λ n, range_order n A l).
Definition dataM : JM data := gets m_data.
Definition current_policy : JM Policy := gets m_policy.
Definition origin (raw : string) : JM string :=
  match normalizeSource fold_case raw with Some pds => mret pds | None => throw ErrInvalidInput end.

(** One synced write of a batch. *)
Definition store_write (f : Store → Store) : JM unit :=
  storeop ;; modify (λ m, set_m_store (f (m_store m)) m).

(** [save] and [commit]: the document is durable before it is current. *)
Definition save (next : data) : JM unit := store_write (set_st_state (Some next)).
Definition commit (next : data) : JM unit := save next ;; modify (set_m_data next).

(** Return the context's error, if it has one. *)
Definition check_ctx : JM unit := e ← jcall ctx_err; match e with Some e => throw e | None => mret tt end.

(** [m.cancel()] of the running job *)
Definition cancel_running : JM unit := modify (set_m_canceled true).
End primitives.
