(* ===== verification/Selection.v ===== *)
(** * Collection policy: [src/jetstream/internal/hypercerts/selection], [policygate]

    The durable allowlist of collections, the gate that serialises its adoption
    with the writes it selects, and the history of policies that [attribution]
    keeps ([stagePolicy], [WithPolicyCommit]).  A batch under construction is the
    function it applies to the store. *)

From S2P Require Import Prelude GoStrings StateMonad JobsData.
From stdpp Require Import sorting.
Local Open Scope Z_scope.

Definition max_uint64 : Z := 2 ^ 64 - 1.
Abbreviation batch := (Store → Store).

(** ** [selection] *)

Definition str_order (a b : string) : Prop := str_le a b = true.
#[export] Instance str_order_dec : RelDecision str_order.
Proof. unfold str_order. solve_decision. Defined.
(** [slices.Sort] on strings *)
Definition sort_strings : list string → list string := merge_sort str_order.

(** [slices.Compact] *)
Fixpoint Compact (l : list string) : list string :=
  match l with
  | [] => []
  | x :: l' => match Compact l' with y :: r => if String.eqb x y then y :: r else x :: y :: r | [] => [x] end
  end.

Section selection.
Context `{JobServices}.

Definition Normalize (collections : list string) : JM (list string) :=
  if forallb ParseNSID_ok collections then mret (Compact (sort_strings collections))
  else throw (OtherErr "invalid exact collection NSID").

(** [selection.Open] *)
Definition selection_Open (initial : list string) : JM unit :=
  storeop ;;
  st ← gets m_store;
  match st_policy st with
  | Some p =>
      if pol_Revision p =? 0 then throw (OtherErr "collection policy: invalid persisted revision")
      else Normalize (pol_Collections p) ;; modify (set_m_policy p)
  | None =>
      collections ← Normalize initial;
      let p := mkPolicy 1 collections in
      store_write (set_st_policy (Some p)) ;; modify (set_m_policy p)
  end.

(** [Update]; with what [stage] prepared, if it was called and the batch written. *)
Definition selection_Update {A} (expected : Z) (collections : list string) (stage : Policy → JM (A * batch)) : JM (Policy * option A) :=
  collections ← Normalize collections;
  current ← current_policy;
  if negb (expected =? pol_Revision current) then throw ErrRevision
  else if bool_decide (collections = pol_Collections current) then mret (current, None)
  else if expected =? max_uint64 then throw (OtherErr "collection policy revision exhausted")
  else
    let next := mkPolicy (expected + 1) collections in
    '(a, f) ← stage next;
    store_write (λ st, f (set_st_policy (Some next) st)) ;;
    modify (set_m_policy next) ;;
    mret (next, Some a).

(** [Allows]: protocol markers pass, record operations need their collection. *)
Definition Allows (m : option Policy) (is_commit : bool) (collection : string) : bool :=
  match m with
  | None => true
  | Some p => negb is_commit || existsb (String.eqb collection) (pol_Collections p)
  end.

(** ** [policygate] *)

(** [lock]: the context may end before or after the token is had. *)
Definition gate_lock : JM unit := check_ctx ;; check_ctx ;; check_ctx.

(** [Admit] *)
Definition gate_Admit {A} (callback : Policy → JM A) : JM A :=
  gate_lock ;; p ← current_policy; callback p.

(** [Adopt]: the callback gets the last sequence number before the policy. *)
Definition gate_Adopt {A} (gate_domain domain : string) (callback : option Z → JM A) : JM A :=
  gate_lock ;;
  if String.eqb domain "" || negb (String.eqb domain gate_domain) then throw ErrDomainRequired
  else
    e ← jcall drain_fail;
    match e with
    | Some msg => throw (OtherErr msg)
    | None =>
        next ← jcall stream_next_seq;
        callback (if 1 <? next then Some (next - 1) else None)
    end.

(** ** The policy history of [attribution] *)

Definition validPolicy (p : AttributionPolicy) : bool :=
  negb (ap_Revision p =? 0) && forallb (λ c, negb (String.eqb c "")) (ap_Collections p) && bool_decide (NoDup (ap_Collections p)).

(** [stagePolicy]; the batch it is called with has no entry of the history. *)
Definition stagePolicy (p : AttributionPolicy) : JM batch :=
  storeop ;;
  st ← gets m_store;
  match st_history st !! ap_Revision p with
  | Some prior =>
      if negb (validPolicy prior) then throw ErrAttributionInvalid
      else if bool_decide (prior = p) then mret (λ st, st) else throw ErrAttributionConflict
  | None => mret (λ st, set_st_history (<[ap_Revision p := p]> (st_history st)) st)
  end.

Definition WithPolicyCommit {A B} (p : AttributionPolicy) (fn : JM batch → JM (A * option B)) : JM (A * option B) :=
  let p := mkAPolicy (ap_Revision p) (sort_strings (ap_Collections p)) (ap_EffectiveAfterSeq p) in
  if negb (validPolicy p) then throw ErrAttributionInvalid
  else
    '(r, staged) ← fn (stagePolicy p);
    match staged with Some _ => mret (r, staged) | None => throw ErrAttributionInvalid end.
End selection.
