(* ===== verification/JobsRetry.v ===== *)
(** * Repository retries: [src/jetstream/internal/hypercerts/jobs/repository_retry.go]

    Attempts at one repository of a job's frozen inventory, with their budget and
    deadlines, and the cooldown of a whole PDS.  Ready and complete are derived: a
    repository without a row is ready, one in [CompletedRepos] is complete. *)

From S2P Require Import Prelude GoStrings StateMonad SourceURL JobsData.
Local Open Scope Z_scope.

Definition maxRepositoryAttempts : Z := 3.
Definition validRetryDeadline (t : time) : bool := negb (IsZero t) && (0 <=? t) && (t <? year_10000).
Definition retry_code_char (c : ascii) : bool := is_lower c || is_digit c || Ascii.eqb c "_".

(** Category and stage are of their types already. *)
Definition validRepositoryFailure (f : RepositoryRetryFailure) : bool :=
  (String.length (rf_Code f) <=? 64)%nat && str_forall retry_code_char (rf_Code f)
  && (if bool_decide (rf_Category f = FailureHTTP) then (100 <=? rf_HTTPStatus f) && (rf_HTTPStatus f <=? 599)
      else rf_HTTPStatus f =? 0).

Definition normalizeRepositoryRetry (r : RepositoryRetry) : RepositoryRetry :=
  match rt_FailedAt r with Some t => if IsZero t then set_rt_FailedAt None r else r | None => r end.

(** Jobs with their completed repositories *)
Definition completed_rev (j : Job) (did : string) : string := default "" (j_CompletedRepos j !! did).

(** The rows of a job. *)
Definition job_rows (st : Store) (id : string) : list ((string * string) * RepositoryRetry) :=
  filter (λ kv, kv.1.1 = id) (map_to_list (st_retry st)).

Definition earlierDeadline (current candidate : time) : time :=
  if IsZero current || (candidate <? current) then candidate else current.

Definition applyPDSCooldown (deadline : time) (cooldown : option time) : time :=
  match cooldown with Some until => if After until deadline then until else deadline | None => deadline end.

Section retries.
Context `{JobServices}.

Definition completedRevisionAtLeast (completed listed : string) : bool :=
  match ParseTID_int completed, ParseTID_int listed with Some c, Some l => l <=? c | _, _ => false end.

Definition validPersistedRepositoryRetry (r : RepositoryRetry) : bool :=
  negb (String.eqb (rt_JobID r) "") && (0 <? rt_Attempts r) && negb (String.eqb (rt_DID r) "")
  && ParseDID_ok (rt_DID r) && bool_decide (is_Some (ParseTID_int (rt_ListedRevision r)))
  && match rt_State r with
     | RetryInFlight => IsZero (rt_RetryAt r) && match rt_Failure r with None => true | Some _ => false end && bool_decide (rt_FailedAt r = None)
     | RetryWait | RetryUnresolved =>
         (if bool_decide (rt_State r = RetryWait) then validRetryDeadline (rt_RetryAt r) else IsZero (rt_RetryAt r))
         && match rt_Failure r with Some f => validRepositoryFailure f | None => false end
         && match rt_FailedAt r with Some t => validRetryDeadline t | None => true end
     | _ => false
     end.

(** The job can still write: it runs, its source is on, and policy and source
    revision are the current ones. *)
Definition active (m : Manager) (id : string) : bool :=
  match d_Jobs (m_data m) !! id with
  | Some j =>
      bool_decide (j_State j = Running) && src_on (m_data m) (j_PDS j)
      && (pol_Revision (j_Policy j) =? pol_Revision (m_policy m))
      && ((src_rev (m_data m) (j_PDS j) =? 0) || (j_SourceRevision j =? src_rev (m_data m) (j_PDS j)))
  | None => false
  end.
Definition require_active (id : string) : JM unit :=
  a ← gets (λ m, active m id); if a : bool then mret tt else throw ErrConflict.

Definition find_job (id : string) : JM Job :=
  d ← dataM; match d_Jobs d !! id with Some j => mret j | None => throw ErrNotFound end.

Definition readInventory (id : string) : JM (gmap string string) :=
  storeop ;; gets (λ m, default ∅ (st_inventory (m_store m) !! id)).

(** ** Batches *)

Definition delete_rows (keys : list (string * string)) (st : Store) : Store :=
  set_st_retry (foldr delete (st_retry st) keys) st.

Definition commitJobInventoryRetryBatch (next : data) (id : string) (inv : gmap string string) (deletes : list (string * string)) : JM unit :=
  store_write (λ st, delete_rows deletes (set_st_inventory (<[id := inv]> (st_inventory st)) (set_st_state (Some next) st))) ;;
  modify (set_m_data next).

(** [next] is [None] when the job document is not part of the batch. *)
Definition commitRepositoryRetryBatch (next : option data) (retry : option RepositoryRetry) (deletes : list (string * string))
    (cooldown : option (string * time)) : JM unit :=
  store_write (λ st,
    let st := match next with Some d => set_st_state (Some d) st | None => st end in
    let st := match retry with Some r => set_st_retry (<[(rt_JobID r, rt_DID r) := r]> (st_retry st)) st | None => st end in
    let st := delete_rows deletes st in
    match cooldown with Some (pds, until) => set_st_cooldown (<[pds := until]> (st_cooldown st)) st | None => st end) ;;
  match next with Some d => modify (set_m_data d) | None => mret tt end.

(** ** Reading *)

Definition readPDSCooldownLocked (pds : string) : JM (option time) :=
  storeop ;;
  st ← gets m_store;
  match st_cooldown st !! pds with
  | None => mret None
  | Some until => if validRetryDeadline until then mret (Some until) else throw (OtherErr "invalid persisted PDS retry cooldown")
  end.

Definition GetPDSCooldown (raw : string) : JM (option time) := pds ← origin raw; readPDSCooldownLocked pds.

(** The job and the listed revision of one of its repositories. *)
Definition repositoryCoordinateLocked (jobID did : string) : JM (Job * string) :=
  if String.eqb jobID "" then throw ErrInvalidInput
  else
    job ← find_job jobID;
    if negb (ParseDID_ok did) then throw ErrInvalidInput
    else if negb (j_TotalReposKnown job) then throw ErrConflict
    else
      inv ← readInventory jobID;
      match inv !! did with
      | None => throw ErrConflict
      | Some listed =>
          if bool_decide (is_Some (ParseTID_int listed)) then mret (job, listed)
          else throw (OtherErr "invalid persisted job inventory")
      end.

Definition repositoryRetryLocked (job : Job) (did listed : string) : JM RepositoryRetry :=
  let base st := mkRetry (j_ID job) did listed st 0 0 None None in
  if bool_decide (is_Some (j_CompletedRepos job !! did)) then mret (base RetryComplete)
  else
    storeop ;;
    st ← gets m_store;
    match st_retry st !! (j_ID job, did) with
    | None => mret (base RetryReady)
    | Some r =>
        let r := normalizeRepositoryRetry r in
        if negb (validPersistedRepositoryRetry r) || negb (String.eqb (rt_JobID r) (j_ID job)) || negb (String.eqb (rt_DID r) did)
        then throw (OtherErr "invalid persisted repository retry state")
        else if negb (String.eqb (rt_ListedRevision r) listed) then throw ErrConflict
        else mret r
    end.

Definition GetRepositoryRetry (jobID did : string) : JM RepositoryRetry :=
  '(job, listed) ← repositoryCoordinateLocked jobID did; repositoryRetryLocked job did listed.

(** [decodePersistedRepositoryRetry] on a row of the job *)
Definition decode_row (jobID : string) (row : (string * string) * RepositoryRetry) : JM RepositoryRetry :=
  let r := normalizeRepositoryRetry row.2 in
  if String.eqb row.1.2 (rt_DID r) && String.eqb (rt_JobID r) jobID && validPersistedRepositoryRetry r then mret r
  else throw (OtherErr "invalid persisted repository retry state").

Fixpoint decode_rows (jobID : string) (rows : list ((string * string) * RepositoryRetry)) : JM (list RepositoryRetry) :=
  match rows with
  | [] => mret []
  | row :: rows => r ← decode_row jobID row; rs ← decode_rows jobID rows; mret (r :: rs)
  end.

Definition all_rows (jobID : string) : JM (list RepositoryRetry) :=
  storeop ;; st ← gets m_store; decode_rows jobID (job_rows st jobID).

(** [listFrozenRepositoryRetryRows]: rows of the current listing, not completed. *)
Definition frozen_row (job : Job) (entries : gmap string string) (r : RepositoryRetry) : bool :=
  bool_decide (entries !! rt_DID r = Some (rt_ListedRevision r))
  && negb (completedRevisionAtLeast (completed_rev job (rt_DID r)) (rt_ListedRevision r)).

Definition ListRepositoryRetries (jobID : string) : JM (list RepositoryRetry) :=
  job ← (if String.eqb jobID "" then throw ErrInvalidInput else find_job jobID);
  if negb (j_TotalReposKnown job) then throw ErrConflict
  else
    inv ← readInventory jobID;
    rows ← all_rows jobID;
    mret (List.filter (frozen_row job inv) rows).

(** [pendingRepositoryRetryRowsLocked] *)
Fixpoint pending_rows (job : Job) (entries : gmap string string) (rows : list RepositoryRetry) : JM (list RepositoryRetry) :=
  match rows with
  | [] => mret []
  | r :: rows =>
      match entries !! rt_DID r with
      | None => pending_rows job entries rows
      | Some listed =>
          if negb (String.eqb listed (rt_ListedRevision r)) then throw ErrConflict
          else
            rs ← pending_rows job entries rows;
            mret (if completedRevisionAtLeast (completed_rev job (rt_DID r)) listed then rs else r :: rs)
      end
  end.

(** The earliest deadline, or [None] when something is due now. *)
Fixpoint pendingRetryDeadline (retries : list RepositoryRetry) (t earliest : time) : JM (option time) :=
  match retries with
  | [] => mret (Some earliest)
  | r :: retries =>
      match rt_State r with
      | RetryInFlight => mret None
      | RetryWait =>
          if negb (After (rt_RetryAt r) t) then mret None
          else pendingRetryDeadline retries t (if IsZero earliest || (rt_RetryAt r <? earliest) then rt_RetryAt r else earliest)
      | RetryUnresolved => pendingRetryDeadline retries t earliest
      | _ => throw (OtherErr "invalid repository retry state")
      end
  end.

Definition pendingInventoryHasImplicitReady (job : Job) (entries : gmap string string) (retries : list RepositoryRetry) : bool :=
  existsb (λ e : string * string, negb (completedRevisionAtLeast (completed_rev job e.1) e.2)
                && negb (existsb (λ r, String.eqb (rt_DID r) e.1) retries)) (map_to_list entries).

(** When the job has something to do. *)
Definition pendingJobDueLocked (job : Job) (t : time) : JM time :=
  cooldown ← readPDSCooldownLocked (j_PDS job);
  let cooling := match cooldown with Some until => if After until t then Some until else None | None => None end in
  if negb (j_TotalReposKnown job) then mret (applyPDSCooldown t cooling)
  else
    inv ← readInventory (j_ID job);
    rows ← all_rows (j_ID job);
    retries ← pending_rows job inv rows;
    earliest ← pendingRetryDeadline retries t 0;
    match earliest with
    | None => mret (applyPDSCooldown t cooling)
    | Some earliest =>
        if pendingInventoryHasImplicitReady job inv retries then mret (applyPDSCooldown t cooling)
        else if IsZero earliest then mret t
        else mret (applyPDSCooldown earliest cooling)
    end.

(** ** Attempts *)

(** The attempt is on record before the download starts. *)
Definition BeginRepositoryAttempt (jobID did : string) : JM RepositoryRetry :=
  '(job, listed) ← repositoryCoordinateLocked jobID did;
  require_active jobID ;;
  current ← repositoryRetryLocked job did listed;
  if bool_decide (rt_State current = RetryComplete) || bool_decide (rt_State current = RetryInFlight) || bool_decide (rt_State current = RetryUnresolved)
  then throw ErrConflict
  else if maxRepositoryAttempts <=? rt_Attempts current then throw ErrRepositoryRetryExhausted
  else
    t1 ← now;
    if bool_decide (rt_State current = RetryWait) && After (rt_RetryAt current) t1 then throw ErrRepositoryRetryNotDue
    else
      cooldown ← readPDSCooldownLocked (j_PDS job);
      t2 ← now;
      if match cooldown with Some until => After until t2 | None => false end then throw ErrRepositoryCoolingDown
      else
        let next := mkRetry (rt_JobID current) (rt_DID current) (rt_ListedRevision current) RetryInFlight (rt_Attempts current + 1) 0 None None in
        commitRepositoryRetryBatch None (Some next) [] None ;;
        mret next.

Definition repositoryFailureCooldownLocked (pds : string) (until : option time) : JM (option (string * time)) :=
  match until with
  | None => mret None
  | Some until =>
      t ← now;
      if negb (After until t) then throw ErrInvalidInput
      else
        existing ← readPDSCooldownLocked pds;
        mret (match existing with
              | Some e => if After until e then Some (pds, until) else None
              | None => Some (pds, until)
              end)
  end.

(** Without [retryAt] the repository is given up. *)
Definition RecordRepositoryFailure (jobID did : string) (failure : RepositoryRetryFailure) (retryAt pdsCooldownUntil : option time) : JM RepositoryRetry :=
  let deadline_ok (t : option time) := match t with Some t => validRetryDeadline t | None => true end in
  if negb (validRepositoryFailure failure) || negb (deadline_ok retryAt) || negb (deadline_ok pdsCooldownUntil) then throw ErrInvalidInput
  else
    '(job, listed) ← repositoryCoordinateLocked jobID did;
    require_active jobID ;;
    current ← repositoryRetryLocked job did listed;
    if negb (bool_decide (rt_State current = RetryInFlight)) then throw ErrConflict
    else
      t ← now;
      let next := mkRetry (rt_JobID current) (rt_DID current) (rt_ListedRevision current)
                    (match retryAt with Some _ => RetryWait | None => RetryUnresolved end)
                    (rt_Attempts current) (default 0 retryAt) (Some failure) (Some t) in
      cooldown ← repositoryFailureCooldownLocked (j_PDS job) pdsCooldownUntil;
      commitRepositoryRetryBatch None (Some next) [] cooldown ;;
      mret next.

(** What the archive took from one more repository. *)
Definition scanned (records : Z) (t : time) (e : AcquisitionEvidence) : AcquisitionEvidence :=
  mkEvidence (int64 (ae_Scanned e + 1))
    (if records =? 0 then ae_Matching e else int64 (ae_Matching e + 1))
    (if records =? 0 then int64 (ae_NoMatch e + 1) else ae_NoMatch e)
    (int64 (ae_AttributableRecords e + records)) t.

Definition checkpointRepository (jobID did listedRevision completedRevision cursor : string) (records : option Z) : JM unit :=
  '(job, frozen) ← repositoryCoordinateLocked jobID did;
  require_active jobID ;;
  if negb (String.eqb listedRevision frozen) then throw ErrConflict
  else
    match ParseTID_int frozen, ParseTID_int completedRevision with
    | None, _ => throw (OtherErr "invalid persisted job inventory")
    | _, None => throw ErrInvalidInput
    | Some l, Some c =>
        if c <? l then throw ErrConflict
        else
          current ← repositoryRetryLocked job did frozen;
          if negb (bool_decide (rt_State current = RetryInFlight)) then throw ErrConflict
          else
            d ← dataM;
            t ← now;
            let evidence := match records with None => None | Some n => scanned n t <$> j_Evidence job end in
            let job := set_j_CompletedRepos (<[did := completedRevision]> (j_CompletedRepos job)) job in
            let job := set_j_Evidence evidence (set_j_LastProgressAt (Some t) (set_j_Cursor cursor job)) in
            commitRepositoryRetryBatch (Some (put_job jobID job d)) None [(jobID, did)] None
    end.

Definition CheckpointRepository (jobID did listedRevision completedRevision cursor : string) : JM unit :=
  checkpointRepository jobID did listedRevision completedRevision cursor None.
Definition CheckpointRepositoryAcquisition (jobID did listedRevision completedRevision cursor : string) (records : Z) : JM unit :=
  if records <? 0 then throw ErrInvalidInput
  else checkpointRepository jobID did listedRevision completedRevision cursor (Some records).

(** ** Resetting *)

(** [repositoryRetryDeleteKeysLocked]: all rows, or those given up. *)
Definition reset_row (job : option Job) (inv : gmap string string) (r : RepositoryRetry) : bool :=
  bool_decide (inv !! rt_DID r = Some (rt_ListedRevision r)) && bool_decide (rt_State r = RetryUnresolved)
  && match job with Some j => bool_decide (j_CompletedRepos j !! rt_DID r = None) | None => true end.

Definition repositoryRetryDeleteKeysLocked (jobID : string) (unresolvedOnly : bool) : JM (list (string * string)) :=
  d ← dataM;
  inv ← (if unresolvedOnly then readInventory jobID else mret ∅);
  storeop ;;
  st ← gets m_store;
  let rows := job_rows st jobID in
  if forallb (λ row : (string * string) * RepositoryRetry,
       String.eqb row.1.2 (rt_DID row.2) && String.eqb (rt_JobID row.2) jobID && validPersistedRepositoryRetry row.2) rows
  then mret (map fst (if unresolvedOnly then List.filter (λ row : (string * string) * RepositoryRetry, reset_row (d_Jobs d !! jobID) inv row.2) rows else rows))
  else throw (OtherErr "invalid persisted repository retry state").

Definition repositoryResetEligibleLocked (m : Manager) (j : Job) : bool :=
  negb (bool_decide (j_State j = Running) || bool_decide (j_State j = Complete) || bool_decide (j_State j = Canceled))
  && src_on (m_data m) (j_PDS j)
  && (pol_Revision (j_Policy j) =? pol_Revision (m_policy m))
  && ((src_rev (m_data m) (j_PDS j) =? 0) || (j_SourceRevision j =? src_rev (m_data m) (j_PDS j))).

Definition ResetUnresolvedRepositoryRetries (jobID : string) : JM nat :=
  job ← (if String.eqb jobID "" then throw ErrInvalidInput else find_job jobID);
  m ← get;
  if negb (repositoryResetEligibleLocked m job) || negb (j_TotalReposKnown job) then throw ErrConflict
  else
    deletes ← repositoryRetryDeleteKeysLocked jobID true;
    match deletes with
    | [] => mret 0%nat
    | _ => commitRepositoryRetryBatch None None deletes None ;; mret (length deletes)
    end.

(** ** Cooldowns and deadlines *)

Definition RecordPDSCooldown (jobID : string) (until : time) : JM unit :=
  t ← now;
  if String.eqb jobID "" || negb (validRetryDeadline until) || negb (After until t) then throw ErrInvalidInput
  else
    job ← find_job jobID;
    require_active jobID ;;
    if negb (bool_decide (normalizeSource fold_case (j_PDS job) = Some (j_PDS job))) then throw (OtherErr "invalid persisted job source")
    else
      existing ← readPDSCooldownLocked (j_PDS job);
      if match existing with Some e => negb (After until e) | None => false end then mret tt
      else commitRepositoryRetryBatch None None [] (Some (j_PDS job, until)).

Definition receiptRetryDeadline (job : Job) (senderConfigured : bool) (t : time) : time * bool :=
  if negb senderConfigured || negb (bool_decide (j_State job = Complete)) || negb (j_ReceiptPending job) then (0, false)
  else if IsZero (j_ReceiptRetryAt job) || negb (After (j_ReceiptRetryAt job) t) then (t, true)
  else (j_ReceiptRetryAt job, false).

(** When the scheduler is to look again; [None]: not before it is woken. *)
Fixpoint nextWorkDeadline_loop (jobs : list Job) (sender : bool) (t earliest : time) : JM (option time) :=
  match jobs with
  | [] => mret (if IsZero earliest then None else Some earliest)
  | job :: jobs =>
      earliest ← (if bool_decide (j_State job = Pending) then due ← pendingJobDueLocked job t; mret (earlierDeadline earliest due)
                  else mret earliest);
      let '(deadline, ready) := receiptRetryDeadline job sender t in
      if ready : bool then mret (Some t)
      else nextWorkDeadline_loop jobs sender t (if IsZero deadline then earliest else earlierDeadline earliest deadline)
  end.

Definition nextWorkDeadlineLocked (t : time) : JM (option time) :=
  m ← get;
  jobs ← ranged (map snd (map_to_list (d_Jobs (m_data m))));
  nextWorkDeadline_loop jobs (m_receiptSender m) t 0.
End retries.
