(* ===== verification/Jobs.v ===== *)
(** * The job manager: [src/jetstream/internal/hypercerts/jobs/jobs.go]

    Sources with their lifecycle revisions and tombstones, jobs with their
    states, command receipts, the frozen inventory of a job, snapshot rejections
    and recovery receipts.  Every method holds the manager's lock and is one
    function; the time stamps it writes are read from the clock once. *)

From S2P Require Import Prelude GoStrings StateMonad Sha256 Hostname SourceURL JobsData Selection JobsRetry.
From stdpp Require Import pretty.
Local Open Scope Z_scope.

Definition receiptRetryBase : Z := second.
Definition receiptRetryMax : Z := 60 * second.
Definition directPDSSnapshotRejectionKind : string := "direct_pds_snapshot".
Definition snapshotRejectionDigestPrefix : string := "sha256:".
Definition maxSnapshotRejectionPDSLength : nat := 2048.
Definition maxSnapshotRejections : nat := 1000.

(** ** Digests *)

Definition lower_hex (n : Z) : ascii := ascii_of_N (Z.to_N (if n <? 10 then n + 48 else n + 87)).
(** [hex.EncodeToString] *)
Fixpoint hex_string (bs : list Z) : string :=
  match bs with [] => "" | b :: bs => String (lower_hex (b / 16)) (String (lower_hex (b mod 16)) (hex_string bs)) end.
Definition nl : string := String (ascii_of_nat 10) "".
(** The first 16 bytes of the digest of [text]. *)
Definition short_digest (text : string) : string := hex_string (take 16 (Sha256.Sum256 text)).

(** [newJob] *)
Definition job_id (pds : string) (policyRevision : Z) (reason : string) (sourceRevision : Z) : string :=
  short_digest (pds ++ nl ++ pretty policyRevision ++ nl ++ reason ++ nl ++ pretty sourceRevision)%string.
Definition noEvidence : AcquisitionEvidence := mkEvidence 0 0 0 0 0.
Definition newJob (pds : string) (policy : Policy) (reason : string) (sourceRevision : Z) (t : time) : Job :=
  mkJob (job_id pds (pol_Revision policy) reason sourceRevision) pds policy reason sourceRevision 0 Pending 0 ∅ 0 0 false ""
        "" "" None (Some noEvidence) None t 0 0 false 0 0 "".

Definition unfinished (j : Job) : bool := bool_decide (j_State j = Pending) || bool_decide (j_State j = Running).
Definition cancel_job (code : string) (t : time) (j : Job) : Job :=
  set_j_FinishedAt t (set_j_ErrorCode code (set_j_State Canceled j)).

(** Cancel the unfinished jobs that [which] selects. *)
Definition cancel_where (which : Job → bool) (code : string) (t : time) (d : data) : data :=
  set_d_Jobs ((λ j, if unfinished j && which j then cancel_job code t j else j) <$> d_Jobs d) d.
Definition cancelStaleSourceJobs (pds : string) (sourceRevision : Z) (t : time) (d : data) : data :=
  cancel_where (λ j, String.eqb (j_PDS j) pds && negb (j_SourceRevision j =? sourceRevision)) "source_revision_changed" t d.
Definition cancelPolicyJobs (t : time) (d : data) : data := cancel_where (λ _, true) "policy_changed" t d.

Definition enable (pds : string) (on : bool) (d : data) : data := set_d_Sources (<[pds := on]> (d_Sources d)) d.
Definition set_revision (pds : string) (rev : Z) (d : data) : data := set_d_SourceRevisions (<[pds := rev]> (d_SourceRevisions d)) d.
Definition set_tombstone (pds : string) (rev : Z) (d : data) : data := set_d_SourceTombstones (<[pds := rev]> (d_SourceTombstones d)) d.
Definition drop_tombstone (pds : string) (d : data) : data := set_d_SourceTombstones (delete pds (d_SourceTombstones d)) d.

(** [beginAcquisition]: one more than the generations at the same coordinate. *)
Definition same_coordinate (j e : Job) : bool :=
  String.eqb (j_PDS e) (j_PDS j) && (pol_Revision (j_Policy e) =? pol_Revision (j_Policy j)) && (j_SourceRevision e =? j_SourceRevision j).
Definition last_generation (d : data) (j : Job) : Z :=
  foldr Z.max 0 (map (λ kv : string * Job, if same_coordinate j kv.2 then j_AcquisitionGeneration kv.2 else 0) (map_to_list (d_Jobs d))).

Definition zeroJob : Job :=
  mkJob "" "" (mkPolicy 0 []) "" 0 0 Failed 0 ∅ 0 0 false "" "" "" None None None 0 0 0 false 0 0 "".

(** ** Snapshot rejections *)

Definition snapshotRejectionDigest (value : string) : string := (snapshotRejectionDigestPrefix ++ hex_string (Sha256.Sum256 value))%string.
Definition is_lower_hex (c : ascii) : bool := is_digit c || in_range "a" "f" c.
Definition validSnapshotRejectionDigest (value : string) : bool :=
  (String.length value =? String.length snapshotRejectionDigestPrefix + 64)%nat && HasPrefix value snapshotRejectionDigestPrefix
  && str_forall is_lower_hex (substring (String.length snapshotRejectionDigestPrefix) 64 value).

Definition snapshotRejectionStoredKey (pds : string) (policyRevision : Z) (did listedRevision kind : string) : string :=
  hex_string (Sha256.Sum256 (pds ++ nl ++ pretty policyRevision ++ nl ++ did ++ nl ++ listedRevision ++ nl ++ kind)%string).

Definition older (a b : string * SnapshotRejection) : bool :=
  (sr_RejectedAt a.2 <? sr_RejectedAt b.2) || ((sr_RejectedAt a.2 =? sr_RejectedAt b.2) && str_lt a.1 b.1).
Definition oldestSnapshotRejectionKey (l : list (string * SnapshotRejection)) : option (string * SnapshotRejection) :=
  foldr (λ x acc, match acc with Some y => if older x y then Some x else acc | None => Some x end) None l.
Fixpoint trim_loop (fuel : nat) (m : gmap string SnapshotRejection) : gmap string SnapshotRejection :=
  match fuel with
  | O => m
  | S fuel =>
      if (maxSnapshotRejections <? size m)%nat then
        match oldestSnapshotRejectionKey (map_to_list m) with Some (key, _) => trim_loop fuel (delete key m) | None => m end
      else m
  end.
Definition trimSnapshotRejections (m : gmap string SnapshotRejection) : gmap string SnapshotRejection := trim_loop (size m) m.

(** ** Recovery receipts *)

(** Doubled until the maximum; [n] steps. *)
Fixpoint backoff_loop (n : nat) (delay : Z) : Z :=
  match n with O => delay | S n => if delay <? receiptRetryMax then backoff_loop n (delay * 2) else delay end.
Definition receiptBackoff (attempts : Z) : Z := Z.min (backoff_loop (Z.to_nat (attempts - 1)) receiptRetryBase) receiptRetryMax.

(** [jobOutcome]: the state and error code an attempt ends in. *)
Definition jobOutcome (err : option jobs_err) : result jobs_err (State * string) :=
  match err with
  | None => Ok (Complete, "")
  | Some e =>
      match as_Input e with
      | Some i => Ok (if ie_Unavailable i then (Incomplete, ie_Code i) else (Failed, ie_Code i))
      | None => match root_cause e with ContextCanceled => Ok (Pending, "") | _ => Err e end
      end
  end.

(** The error a response of the relay stands for ([receipt.go]). *)
Definition relay_response (r : result string (Z * bool)) : option jobs_err :=
  match r with
  | Err msg => Some (OtherErr msg)
  | Ok (status, source_not_found) =>
      if (200 <=? status) && (status <? 300) then None
      else if (status =? 404) && source_not_found then Some ErrReceiptSourceMissing
      else if status =? 409 then Some ErrReceiptStale
      else Some (OtherErr "relay returned an error")
  end.

Definition pdsCauses : list string := ["timeout"; "cancel"; "body_read"; "http"; "transport"; "unknown"].
Definition validJobFailure (f : JobFailure) : bool :=
  String.eqb (jf_Stage f) "listRepos" && negb (IsZero (jf_FailedAt f)) && existsb (String.eqb (jf_Category f)) pdsCauses
  && (if String.eqb (jf_Category f) "http" then (100 <=? jf_HTTPStatus f) && (jf_HTTPStatus f <=? 599) else jf_HTTPStatus f =? 0).

Definition resetRetryInventory (j : Job) : Job :=
  let j := set_j_TotalReposKnown false (set_j_TotalRepos 0 (set_j_EnumeratedRepos 0 (set_j_Cursor "" j))) in
  set_j_FailureRepository "" (set_j_Evidence (if bool_decide (j_CompletedRepos j = ∅) then Some noEvidence else None) j).

Definition orderedEnabledSources (d : data) : list string :=
  sort_strings (map fst (List.filter snd (map_to_list (d_Sources d)))).

(** [migrateActionReceipts] moves receipts of an older format to [Actions]. *)
Definition action_receipt (jobs : gmap string Job) (kv : string * string) : bool :=
  HasPrefix kv.1 "action/" &&
  (let '(state, id, ok) := Cut ":" kv.2 in
   ok && (String.eqb state (State_string Pending) || String.eqb state (State_string Canceled)) && bool_decide (is_Some (jobs !! id))).
Definition migrateActionReceipts (d : data) : data :=
  let moved := filter (λ kv, action_receipt (d_Jobs d) kv = true) (d_Requests d) in
  set_d_Actions (foldr (λ kv m, <[substring 7 (String.length kv.1) kv.1 := kv.2]> m) (d_Actions d) (map_to_list moved))
    (set_d_Requests (filter (λ kv, action_receipt (d_Jobs d) kv = false) (d_Requests d)) d).

Section jobs.
Context `{JobServices}.

Definition validSnapshotRejectionPDSPosition (value : string) : bool :=
  validSnapshotRejectionDigest value
  || (bool_decide (normalizeSource fold_case value = Some value) && (String.length value <=? maxSnapshotRejectionPDSLength)%nat).
Definition validSnapshotRejectionDIDPosition (value : string) : bool := validSnapshotRejectionDigest value || ParseDID_ok value.
Definition validSnapshotRejectionRevisionPosition (value : string) : bool :=
  validSnapshotRejectionDigest value || bool_decide (is_Some (ParseTID_int value)).
Definition validSnapshotRejection (r : SnapshotRejection) : bool :=
  validSnapshotRejectionPDSPosition (sr_PDS r) && negb (sr_PolicyRevision r =? 0) && validSnapshotRejectionDIDPosition (sr_DID r)
  && validSnapshotRejectionRevisionPosition (sr_ListedRevision r) && String.eqb (sr_Kind r) directPDSSnapshotRejectionKind
  && (0 <? String.length (sr_Code r))%nat && (String.length (sr_Code r) <=? 64)%nat && negb (IsZero (sr_RejectedAt r)).

Definition snapshotRejectionPDSPosition (value : string) : string :=
  if bool_decide (normalizeSource fold_case value = Some value) && (String.length value <=? maxSnapshotRejectionPDSLength)%nat
  then value else snapshotRejectionDigest value.
Definition snapshotRejectionDIDPosition (value : string) : string := if ParseDID_ok value then value else snapshotRejectionDigest value.
Definition snapshotRejectionRevisionPosition (value : string) : string :=
  if bool_decide (is_Some (ParseTID_int value)) then value else snapshotRejectionDigest value.

(** ** Opening *)

(** A running job resumes as pending. *)
Definition resume_job (j : Job) : Job := if bool_decide (j_State j = Running) then set_j_State Pending j else j.
Definition resumePersistedJobs (jobs : gmap string Job) : result jobs_err (gmap string Job) :=
  if forallb (λ kv : string * Job, String.eqb (j_ID kv.2) kv.1 && negb (pol_Revision (j_Policy kv.2) =? 0)
       && match j_LastFailure kv.2 with Some f => validJobFailure f | None => true end) (map_to_list jobs)
  then Ok (resume_job <$> jobs) else Err (OtherErr "invalid persisted job").

Definition validateSnapshotRejectionLedger (m : gmap string SnapshotRejection) : bool :=
  forallb (λ kv : string * SnapshotRejection, validSnapshotRejection kv.2
    && String.eqb kv.1 (snapshotRejectionStoredKey (sr_PDS kv.2) (sr_PolicyRevision kv.2) (sr_DID kv.2) (sr_ListedRevision kv.2) (sr_Kind kv.2)))
    (map_to_list m).

Definition restorePersistedData (d : data) : result jobs_err data :=
  if negb (validateSnapshotRejectionLedger (d_SnapshotRejections d)) then Err (OtherErr "invalid persisted snapshot rejection")
  else
    match resumePersistedJobs (d_Jobs d) with
    | Err e => Err e
    | Ok jobs => Ok (migrateActionReceipts (set_d_Jobs jobs (set_d_SnapshotRejections (trimSnapshotRejections (d_SnapshotRejections d)) d)))
    end.

(** [jobs.Open]: nothing but the store survives. *)
Definition jobs_Open : JM unit :=
  modify (λ m, set_m_runningID "" (set_m_canceled false (set_m_receiptRunning ∅ (set_m_inflight [] (set_m_data emptyData m))))) ;;
  storeop ;;
  st ← gets m_store;
  match st_state st with
  | None => mret tt
  | Some persisted => d ← lift (restorePersistedData persisted); modify (set_m_data d) ;; save d
  end.

(** ** Sources *)

Definition beginAcquisition (next : data) (j : Job) : JM Job :=
  let generation := last_generation next j in
  if generation =? max_uint64 then throw ErrConflict else mret (set_j_AcquisitionGeneration (generation + 1) j).

(** [SeedSources] *)
Fixpoint seed_loop (sources : list string) (policy : Policy) (next : data) : JM data :=
  match sources with
  | [] => mret next
  | raw :: sources =>
      pds ← origin raw;
      t ← now;
      let next := enable pds true next in
      j ← beginAcquisition next (newJob pds policy "source_added" (src_rev next pds) t);
      seed_loop sources policy (put_job (j_ID j) j next)
  end.
Definition SeedSources (sources : list string) : JM unit :=
  d ← dataM;
  if d_Initialized d then mret tt
  else
    policy ← current_policy;
    next ← seed_loop sources policy d;
    commit (set_d_Initialized true next).

(** The running job is of this source and was started for another revision. *)
Definition cancel_stale_running (pds : string) (which : Job → bool) : JM unit :=
  m ← get;
  let running := default zeroJob (d_Jobs (m_data m) !! m_runningID m) in
  if negb (String.eqb (m_runningID m) "") && String.eqb (j_PDS running) pds && which running then cancel_running else mret tt.

Definition find_in (p : Job → bool) (jobs : list Job) : option Job := List.find p jobs.
Definition job_list (d : data) : list Job := map snd (map_to_list (d_Jobs d)).

(** An unversioned request for a source without a lifecycle enables it. *)
Definition legacy_enable (pds : string) (sourceRevision : Z) (d : data) : data :=
  if (sourceRevision =? 0) && (src_rev d pds =? 0) && (src_tomb d pds =? 0) then enable pds true d else d.

Definition AddSourceWithRevision (raw : string) (sourceRevision : Z) : JM Job :=
  pds ← origin raw;
  d ← dataM;
  if ((sourceRevision =? 0) && (0 <? src_tomb d pds))
     || ((0 <? sourceRevision) && ((sourceRevision <? src_rev d pds) || (sourceRevision <=? src_tomb d pds)))
  then throw ErrConflict
  else
    t ← now;
    let next := legacy_enable pds sourceRevision d in
    let advanced := (0 <? sourceRevision) && (src_rev next pds <? sourceRevision) in
    let next := if 0 <? sourceRevision then set_revision pds sourceRevision next else next in
    let next := if advanced then cancelStaleSourceJobs pds sourceRevision t next else next in
    let next := legacy_enable pds sourceRevision next in
    jobs ← ranged (job_list next);
    let repeated :=
      if src_on next pds && (0 <? sourceRevision) && (sourceRevision =? src_rev next pds)
      then find_in (λ j, String.eqb (j_PDS j) pds && (j_SourceRevision j =? sourceRevision) && String.eqb (j_Reason j) "source_added") jobs
      else None in
    match repeated with
    | Some existing => mret existing
    | None =>
        policy ← current_policy;
        let job := newJob pds policy "source_added" (src_rev next pds) t in
        match (if src_on next pds then d_Jobs next !! j_ID job else None) with
        | Some existing => mret existing
        | None =>
            let next := enable pds true next in
            let next := if src_tomb next pds <? sourceRevision then drop_tombstone pds next else next in
            job ← beginAcquisition next job;
            commit (put_job (j_ID job) job next) ;;
            (if advanced then cancel_stale_running pds (λ j, negb (j_SourceRevision j =? sourceRevision)) else mret tt) ;;
            mret job
        end
    end.
Definition Manager_AddSource (raw : string) : JM Job := AddSourceWithRevision raw 0.

Definition RemoveSourceWithRevision (raw : string) (sourceRevision : Z) : JM unit :=
  pds ← origin raw;
  d ← dataM;
  let sourceRevision := if sourceRevision =? 0 then uint64 (src_rev d pds + 1) else sourceRevision in
  if (sourceRevision <? src_rev d pds) || (sourceRevision <? src_tomb d pds) then throw ErrConflict
  else
    t ← now;
    let next := set_tombstone pds sourceRevision d in
    let next := if src_rev next pds <? sourceRevision then set_revision pds sourceRevision next else next in
    let next := enable pds false next in
    let next := cancel_where (λ j, String.eqb (j_PDS j) pds) "source_removed" t next in
    commit next ;;
    cancel_stale_running pds (λ _, true).
Definition Manager_RemoveSource (raw : string) : JM unit := RemoveSourceWithRevision raw 0.

(** ** Policy *)

Fixpoint advance_loop (sources : list string) (d : data) (revision : Z) : JM unit :=
  match sources with
  | [] => mret tt
  | pds :: sources =>
      if src_rev d pds =? 0 then advance_loop sources d revision
      else
        configured ← gets m_policyAdvancer;
        if negb configured then throw ErrPolicyMirrorRequired
        else
          r ← jcall (λ n, relay_advance n pds (src_rev d pds) revision);
          match relay_response r with
          | Some e => throw (WrapErr "advance Relay recovery policy" e)
          | None => advance_loop sources d revision
          end
  end.
Definition advanceRecoveryPolicy (revision : Z) : JM unit :=
  d ← dataM; advance_loop (orderedEnabledSources d) d revision.

Fixpoint schedule_loop (sources : list (string * bool)) (policy : Policy) (t : time) (next : data) : JM data :=
  match sources with
  | [] => mret next
  | (pds, enabled) :: sources =>
      if negb enabled then schedule_loop sources policy t next
      else
        j ← beginAcquisition next (newJob pds policy "policy_changed" (src_rev next pds) t);
        schedule_loop sources policy t (put_job (j_ID j) j next)
  end.
Definition schedulePolicyJobs (next : data) (policy : Policy) (t : time) : JM data :=
  sources ← ranged (map_to_list (d_Sources next)); schedule_loop sources policy t next.

(** [stagePolicyJobs]: the jobs document of the new policy, and the batch. *)
Definition stagePolicyJobs (next : data) (candidate : Policy) (revision : Z) (stage : option (JM batch)) : JM (data * batch) :=
  f ← match stage with
      | None => mret (λ st, st)
      | Some stage => if negb (pol_Revision candidate =? revision) then throw ErrRevision else stage
      end;
  t ← now;
  next ← schedulePolicyJobs (cancelPolicyJobs t next) candidate t;
  mret (next, λ st, set_st_state (Some next) (f st)).

(** [m.policy.Update] with the jobs staged in its batch. *)
Definition update_policy (expected : Z) (collections : list string) (d : data) (stage : option (JM batch)) : JM (Policy * option data) :=
  selection_Update expected collections (λ candidate, stagePolicyJobs d candidate (expected + 1) stage).

Definition setPolicyLocked (expected : Z) (collections : list string) (boundary : option Z) (boundAdoption : bool) : JM Policy :=
  collections ← Normalize collections;
  current ← current_policy;
  if negb (expected =? pol_Revision current) then throw ErrRevision
  else if bool_decide (collections = pol_Collections current) then mret current
  else if expected =? max_uint64 then throw (OtherErr "collection policy revision exhausted")
  else
    advanceRecoveryPolicy (expected + 1) ;;
    bound ← gets m_gate;
    d ← dataM;
    '(policy, next) ←
      (if boundAdoption && bool_decide (is_Some bound) then
         WithPolicyCommit (mkAPolicy (expected + 1) collections boundary) (λ stage, update_policy expected collections d (Some stage))
       else update_policy expected collections d None);
    modify (set_m_data (default d next)) ;;
    m ← get;
    (if negb (String.eqb (m_runningID m) "")
        && negb (pol_Revision (j_Policy (default zeroJob (d_Jobs (m_data m) !! m_runningID m))) =? pol_Revision policy)
     then cancel_running else mret tt) ;;
    mret policy.

(** [SetPolicy]; gate, attribution and domain are bound together. *)
Definition SetPolicy (expected : Z) (collections : list string) : JM Policy :=
  collections ← Normalize collections;
  bound ← gets m_gate;
  require ← gets m_requirePolicyAdoption;
  match bound with
  | None => if require : bool then throw ErrPolicyAdoptionNotReady else setPolicyLocked expected collections None false
  | Some domain => gate_Adopt domain domain (λ boundary, setPolicyLocked expected collections boundary true)
  end.

(** ** Requests *)

Definition validateRequest (reason requestID : string) : bool :=
  (String.length requestID <=? 128)%nat && (String.eqb reason "quota_recovery" || String.eqb reason "backfill").
Definition sourceRevisionConflict (stored requested : Z) : bool :=
  negb (stored =? 0) && negb (requested =? 0) && negb (stored =? requested).

(** [requestReceipt]: the job a request was answered with before. *)
Definition requestReceipt (d : data) (pds reason requestID : string) (sourceRevision : Z) : option (result jobs_err Job) :=
  if String.eqb requestID "" then None
  else
    match d_Requests d !! requestID with
    | None => None
    | Some id =>
        let existing := default zeroJob (d_Jobs d !! id) in
        Some (if negb (String.eqb (j_PDS existing) pds) || negb (String.eqb (j_Reason existing) reason)
                 || sourceRevisionConflict (j_SourceRevision existing) sourceRevision
              then Err ErrConflict else Ok existing)
    end.

(** The job for a request, and the document with it. *)
Definition requestJob (next : data) (jobs : list Job) (pds reason : string) (policy : Policy) (sourceRevision : Z) (t : time) : JM (Job * data) :=
  match find_in (λ j, String.eqb (j_PDS j) pds && (pol_Revision (j_Policy j) =? pol_Revision policy)
                      && String.eqb (j_Reason j) reason && unfinished j) jobs with
  | Some existing => mret (existing, next)
  | None =>
      let j := newJob pds policy reason sourceRevision t in
      match d_Jobs next !! j_ID j with
      | Some existing =>
          if unfinished existing then mret (existing, next)
          else
            j ← beginAcquisition next (set_j_ID (short_digest (j_ID j ++ "/" ++ pretty (Z.of_nat (size (d_Jobs next))))%string) j);
            mret (j, put_job (j_ID j) j next)
      | None => j ← beginAcquisition next j; mret (j, put_job (j_ID j) j next)
      end
  end.

Definition rememberRequest (next : data) (job : Job) (requestID : string) : JM Job :=
  let next := if String.eqb requestID "" then next else set_d_Requests (<[requestID := j_ID job]> (d_Requests next)) next in
  commit next ;; mret job.

(** The revision an unversioned request stands for. *)
Definition legacy_revision (d : data) (pds : string) : Z :=
  let rev := src_rev d pds in
  if rev =? 0 then foldr Z.max 0 (map (λ j, if String.eqb (j_PDS j) pds then j_SourceRevision j else 0) (job_list d)) else rev.

Definition RequestOnceWithSourceRevision (raw reason requestID : string) (sourceRevision : Z) : JM Job :=
  if negb (validateRequest reason requestID) then throw ErrInvalidInput
  else
    pds ← origin raw;
    d ← dataM;
    if (0 <? sourceRevision) && ((sourceRevision <? src_rev d pds) || (sourceRevision <=? src_tomb d pds)) then throw ErrConflict
    else
      let legacy := sourceRevision =? 0 in
      let sourceRevision := if legacy then src_rev d pds else sourceRevision in
      if (0 <? sourceRevision) && (sourceRevision <=? src_tomb d pds) then throw ErrConflict
      else
        match requestReceipt d pds reason requestID sourceRevision with
        | Some r => lift r
        | None =>
            if negb (src_on d pds) then throw ErrConflict
            else if negb legacy && (0 <? sourceRevision) && negb (sourceRevision =? src_rev d pds) then throw ErrConflict
            else
              t ← now;
              let next :=
                if legacy then
                  let rev := legacy_revision d pds in
                  if src_rev d pds <? rev then set_revision pds rev d else d
                else
                  let advanced := src_rev d pds <? sourceRevision in
                  let next := if 0 <? sourceRevision then set_revision pds sourceRevision d else d in
                  if advanced then cancelStaleSourceJobs pds sourceRevision t next else next in
              let advanced := negb legacy && (src_rev d pds <? sourceRevision) in
              policy ← current_policy;
              jobs ← ranged (job_list next);
              '(job, next) ← requestJob next jobs pds reason policy (src_rev next pds) t;
              remembered ← rememberRequest next job requestID;
              (if advanced then cancel_stale_running pds (λ j, negb (j_SourceRevision j =? sourceRevision)) else mret tt) ;;
              mret remembered
        end.

(** ** Cancel and retry *)

Definition canTransition (m : Manager) (j : Job) (state : State) (hasReceipt : bool) : bool :=
  if bool_decide (state = Pending) then
    src_on (m_data m) (j_PDS j) && (pol_Revision (j_Policy j) =? pol_Revision (m_policy m))
    && (negb (bool_decide (j_State j = Running)) || hasReceipt)
  else bool_decide (j_State j = Pending) || bool_decide (j_State j = Running) || (hasReceipt && bool_decide (j_State j = Canceled)).

Definition commitTransitionRetryState (next : data) (id : string) (resetInventory resetUnresolved : bool) : JM unit :=
  if resetInventory then
    deletes ← repositoryRetryDeleteKeysLocked id false;
    commitJobInventoryRetryBatch next id ∅ deletes
  else if resetUnresolved then
    deletes ← repositoryRetryDeleteKeysLocked id true;
    commitRepositoryRetryBatch (Some next) None deletes None
  else commit next.

Definition action_value (state : State) (id : string) : string := (State_string state ++ ":" ++ id)%string.

Definition commitTransition (j : Job) (state : State) (requestID : string) : JM unit :=
  d ← dataM;
  let next := if String.eqb requestID "" then d else set_d_Actions (<[requestID := action_value state (j_ID j)]> (d_Actions d)) d in
  if negb (String.eqb requestID "") && (bool_decide (j_State j = state) || (bool_decide (state = Pending) && bool_decide (j_State j = Running)))
  then commit next
  else
    j ← (if bool_decide (state = Pending) then beginAcquisition next j else mret j);
    let resetInventory := bool_decide (state = Pending) && bool_decide (j_State j = Failed) in
    let resetUnresolved := bool_decide (state = Pending) && bool_decide (j_State j = Incomplete) in
    t ← now;
    let j := set_j_FinishedAt 0 (set_j_FailureRepository "" (set_j_ErrorCode "" (set_j_State state j))) in
    let j := if resetInventory then resetRetryInventory j else j in
    let j := if bool_decide (state = Canceled) then set_j_FinishedAt t j else j in
    commitTransitionRetryState (put_job (j_ID j) j next) (j_ID j) resetInventory resetUnresolved ;;
    running ← gets m_runningID;
    if bool_decide (state = Canceled) && negb (String.eqb running "") && String.eqb running (j_ID j) then cancel_running else mret tt.

Definition TransitionOnce (id : string) (state : State) (requestID : string) : JM unit :=
  if negb (String.length requestID <=? 128)%nat || negb (bool_decide (state = Pending) || bool_decide (state = Canceled)) then throw ErrInvalidInput
  else
    m ← get;
    match (if String.eqb requestID "" then None else d_Actions (m_data m) !! requestID) with
    | Some existing => if String.eqb existing (action_value state id) then mret tt else throw ErrConflict
    | None =>
        j ← find_job id;
        if negb (canTransition m j state (negb (String.eqb requestID ""))) then throw ErrConflict
        else commitTransition j state requestID
    end.

(** ** Snapshot rejections *)

Definition lookupSnapshotRejection (pds : string) (policyRevision : Z) (did listedRevision kind : string) : JM (option SnapshotRejection) :=
  d ← dataM;
  mret (d_SnapshotRejections d !! snapshotRejectionStoredKey (snapshotRejectionPDSPosition pds) policyRevision
          (snapshotRejectionDIDPosition did) (snapshotRejectionRevisionPosition listedRevision) kind).

Definition recordSnapshotRejection (pds : string) (policyRevision : Z) (did listedRevision kind code : string) : JM SnapshotRejection :=
  t ← now;
  let pds := snapshotRejectionPDSPosition pds in
  let did := snapshotRejectionDIDPosition did in
  let listed := snapshotRejectionRevisionPosition listedRevision in
  let rejection := mkRejection pds policyRevision did listed kind code t in
  if negb (validSnapshotRejection rejection) then throw ErrInvalidInput
  else
    d ← dataM;
    let key := snapshotRejectionStoredKey pds policyRevision did listed kind in
    match d_SnapshotRejections d !! key with
    | Some existing => mret existing
    | None =>
        commit (set_d_SnapshotRejections (trimSnapshotRejections (<[key := rejection]> (d_SnapshotRejections d))) d) ;;
        mret rejection
    end.

(** ** Inventory *)

(** The pages of one listing, merged; a DID keeps its revision. *)
Definition merge_entries (inv entries : gmap string string) : option (gmap string string) :=
  if forallb (λ e : string * string, match inv !! e.1 with Some existing => String.eqb existing e.2 | None => true end) (map_to_list entries)
  then Some (inv ∪ entries) else None.

Definition CheckpointInventory (id cursor : string) (entries : gmap string string) (complete : bool) : JM unit :=
  require_active id ;;
  inv ← readInventory id;
  match merge_entries inv entries with
  | None => throw (Input (mkInputError "invalid_listing" false))
  | Some merged =>
      d ← dataM;
      job ← find_job id;
      let newEntries := negb (bool_decide (merged = inv)) in
      let enumerated := Z.of_nat (size merged) in
      let total := if complete then enumerated else j_TotalRepos job in
      let known := if complete then true else j_TotalReposKnown job in
      let completed :=
        if complete then filter (λ kv : string * string, match merged !! kv.1 with Some listed => completedRevisionAtLeast kv.2 listed | None => false end = true)
                           (j_CompletedRepos job)
        else j_CompletedRepos job in
      if String.eqb cursor (j_Cursor job) && negb newEntries && (enumerated =? j_EnumeratedRepos job) && (total =? j_TotalRepos job)
         && eqb known (j_TotalReposKnown job)
      then mret tt
      else
        t ← now;
        let job := set_j_CompletedRepos completed (set_j_TotalReposKnown known (set_j_TotalRepos total (set_j_EnumeratedRepos enumerated (set_j_Cursor cursor job)))) in
        let job := set_j_Evidence ((λ e, mkEvidence (ae_Scanned e) (ae_Matching e) (ae_NoMatch e) (ae_AttributableRecords e) t) <$> j_Evidence job)
                     (set_j_LastProgressAt (Some t) job) in
        commitJobInventoryRetryBatch (put_job id job d) id merged []
  end.

(** [Inventory], in the order of DIDs *)
Definition Inventory (id : string) : JM (list (string * string)) :=
  job ← find_job id;
  if negb (j_TotalReposKnown job) then throw ErrConflict
  else
    inv ← readInventory id;
    mret (omap (λ did, pair did <$> inv !! did) (sort_strings (map fst (map_to_list inv)))).

Definition recordJobFailure (id : string) (failure : JobFailure) : JM unit :=
  if negb (validJobFailure failure) then throw ErrInvalidInput
  else
    job ← find_job id;
    d ← dataM;
    commit (put_job id (set_j_LastFailure (Some failure) job) d).

(** ** Applying a snapshot *)

(** [ApplyContext]: the job is active at the write, under the gate if there is
    one. *)
Definition ApplyContext {A} (id : string) (write : JM A) : JM A :=
  require_active id ;;
  bound ← gets m_gate;
  match bound with
  | None => require_active id ;; write
  | Some _ =>
      gate_Admit (λ policy,
        m ← get;
        if active m id && (pol_Revision (m_policy m) =? pol_Revision policy) then write else throw ErrConflict)
  end.

(** ** Running jobs *)

(** [claimNextLocked], over the jobs in the order of the range *)
Fixpoint claim_loop (jobs : list Job) (t : time) : JM (option Job) :=
  match jobs with
  | [] => mret None
  | job :: jobs =>
      if negb (bool_decide (j_State job = Pending)) then claim_loop jobs t
      else
        due ← pendingJobDueLocked job t;
        if After due t then claim_loop jobs t
        else
          d ← dataM;
          if (0 <? src_rev d (j_PDS job)) && negb (j_SourceRevision job =? src_rev d (j_PDS job)) then
            t' ← now;
            commit (put_job (j_ID job) (cancel_job "source_revision_changed" t' job) d) ;;
            claim_loop jobs t
          else
            t' ← now;
            let job := set_j_StartedAt t' (set_j_Attempts (int64 (j_Attempts job + 1)) (set_j_State Running job)) in
            commit (put_job (j_ID job) job d) ;;
            mret (Some job)
  end.
Definition claimNextLocked : JM (option Job) :=
  t ← now;
  d ← dataM;
  jobs ← ranged (job_list d);
  claim_loop jobs t.

(** [persistJobOutcome] *)
Definition failure_repository (err : option jobs_err) (old : string) : string :=
  match err with
  | Some e =>
      match as_AttemptFailure e with
      | Some f =>
          if negb (String.eqb (af_repositoryDID f) "") && ParseDID_ok (af_repositoryDID f) && (String.length (af_repositoryDID f) <=? 2048)%nat
          then af_repositoryDID f else old
      | None => old
      end
  | None => old
  end.

Definition is_yield (err : option jobs_err) : bool := match err with Some e => match root_cause e with errJobYield => true | _ => false end | None => false end.

Definition persistJobOutcome (id : string) (processErr : option jobs_err) : JM unit :=
  modify (λ m, set_m_runningID "" (set_m_canceled false m)) ;;
  check_ctx ;;
  m ← get;
  match d_Jobs (m_data m) !! id with
  | Some job =>
      if negb (active m id) then mret tt
      else if is_yield processErr then
        commit (put_job id (set_j_FinishedAt 0 (set_j_ErrorCode "" (set_j_State Pending job))) (m_data m))
      else
        '(state, code) ← lift (jobOutcome processErr);
        t ← now;
        let job' := set_j_State state (set_j_FinishedAt t job) in
        let job' := set_j_FailureRepository (failure_repository processErr (j_FailureRepository job')) job' in
        let job' := if bool_decide (state = Complete) && negb (j_SourceRevision job =? 0) then set_j_ReceiptPending true job' else job' in
        let job' := if String.eqb code "" then job' else set_j_ErrorCode code job' in
        commit (put_job id job' (m_data m))
  | None => mret tt
  end.

(** ** Recovery receipts *)

(** [collectReceipts]: the jobs whose receipts are due; those of an older policy
    are given up. *)
Definition superseded_receipt (j : Job) : Job := set_j_ReceiptError "policy_superseded" (set_j_ReceiptRetryAt 0 (set_j_ReceiptPending false j)).
Definition receipt_owed (j : Job) : bool := bool_decide (j_State j = Complete) && j_ReceiptPending j.

Definition collectReceipts : JM (list Job) :=
  sender ← gets m_receiptSender;
  if negb sender then mret []
  else
    t ← now;
    m ← get;
    let rev := pol_Revision (m_policy m) in
    let stale j := receipt_owed j && negb (pol_Revision (j_Policy j) =? rev) in
    let due j := receipt_owed j && (pol_Revision (j_Policy j) =? rev) && negb (After (j_ReceiptRetryAt j) t) && bool_decide (j_ID j ∉ m_receiptRunning m) in
    jobs ← ranged (job_list (m_data m));
    let pending := List.filter due jobs in
    modify (λ m, set_m_receiptRunning (list_to_set (map j_ID pending) ∪ m_receiptRunning m) m) ;;
    (if existsb stale jobs then
       commit (set_d_Jobs ((λ j, if stale j then superseded_receipt j else j) <$> d_Jobs (m_data m)) (m_data m))
     else mret tt) ;;
    mret pending.

Definition owed_by (job : Job) (d : data) : option Job :=
  current ← d_Jobs d !! j_ID job;
  if receipt_owed current && (j_SourceRevision current =? j_SourceRevision job) then Some current else None.

Definition recordReceiptSuccess (job : Job) : JM unit :=
  m ← get;
  e ← jcall ctx_err;
  match e, owed_by job (m_data m) with
  | None, Some current =>
      let code := if pol_Revision (j_Policy current) =? pol_Revision (m_policy m) then "" else "policy_superseded" in
      commit (put_job (j_ID job) (set_j_ReceiptError code (set_j_ReceiptRetryAt 0 (set_j_ReceiptPending false current))) (m_data m))
  | _, _ => mret tt
  end.

Definition recordReceiptFailure (job : Job) (err : jobs_err) : JM unit :=
  m ← get;
  match owed_by job (m_data m) with
  | Some current =>
      t ← now;
      let settled code := set_j_ReceiptError code (set_j_ReceiptRetryAt 0 (set_j_ReceiptPending false current)) in
      let current' :=
        match root_cause err with
        | ErrReceiptStale => settled "stale_source_revision"
        | ErrReceiptSourceMissing => settled "source_not_found"
        | _ =>
            let attempts := int64 (j_ReceiptAttempts current + 1) in
            set_j_ReceiptError "relay_unavailable" (set_j_ReceiptRetryAt (t + receiptBackoff attempts) (set_j_ReceiptAttempts attempts current))
        end in
      commit (put_job (j_ID job) current' (m_data m))
  | None => mret tt
  end.

(** [RelayReceiptSender.Send]: jobs without a relay revision owe nothing. *)
Definition send_receipt (job : Job) : JM (option jobs_err) :=
  if j_SourceRevision job =? 0 then mret None
  else
    modify (λ m, set_m_receipts (m_receipts m ++ [job]) m) ;;
    r ← jcall (λ n, relay_receipt n job);
    mret (relay_response r).

(** [flushReceipts]: a goroutine for each. *)
Definition flushReceipts : JM unit :=
  pending ← collectReceipts; modify (λ m, set_m_inflight (m_inflight m ++ pending) m).

(** [deliverReceipt], the goroutine *)
Definition deliverReceipt (job : Job) : JM unit :=
  attempt
    (e ← send_receipt job;
     c ← jcall ctx_err;
     match c with
     | Some _ => mret tt
     | None =>
         match e with
         | Some e => attempt (recordReceiptFailure job e) (λ _, mret tt)
         | None => check_ctx ;; attempt (recordReceiptSuccess job) (λ _, mret tt)
         end
     end)
    (λ _, modify (λ m, set_m_receiptRunning (m_receiptRunning m ∖ {[j_ID job]}) m)).
End jobs.
