(* ===== verification/JobsPds.v ===== *)
(** * The PDS processor and the runner: [src/jetstream/internal/hypercerts/jobs/pds.go], [Run] of [jobs.go]

    A job lists the repositories of a PDS, then fetches, verifies and reconciles
    them one by one.  The processor calls the manager many times and holds no lock
    in between: before each call, commands of operators and receipt goroutines may
    run, as the schedule says.  Listing, identities, downloads, the decoding of
    CAR files, signatures and the archive are [PdsServices]. *)

From S2P Require Import Prelude GoStrings StateMonad SourceURL JobsData Selection JobsRetry Jobs.
Local Open Scope Z_scope.

(** ** What the outside answers *)

(** What the code asks of an error: [net.Error] with [Timeout], a deadline, a
    cancellation, a [url.Error], the status of an [xrpc.Error] (0: none). *)
Record Cause := mkCause { ca_timeout : bool; ca_canceled : bool; ca_network : bool; ca_url : bool; ca_status : Z }.
(** The response that was captured: status (0: none) and two headers. *)
Record Capture := mkCapture { cp_status : Z; cp_RateLimitReset : string; cp_RetryAfter : string }.
Definition noCapture : Capture := mkCapture 0 "" "".

Record ListReposEntry := mkEntry { le_DID : string; le_Rev : string; le_Active : bool }.
Record ListReposPage := mkPage { lp_Entries : list ListReposEntry; lp_NextCursor : string }.

Record SignedCommit := mkSignedCommit { co_DID : string; co_Rev : string; co_sig : string }.
(** A loaded repository: its records by MST key, with the payload if the block is
    there. *)
Record LoadedRepo := mkLoaded { lr_records : list (string * string * option string); lr_commit : SignedCommit }.
Inductive LoadError : Set := LoadUnexpectedEOF | LoadInvalid.

Inductive Download : Type :=
| RequestFailed (cause : Cause) (capture : Capture)
| Downloaded (too_large : bool)             (* the limit of 64 MiB was reached *)
             (read_error : option Cause)    (* reading the body failed *)
             (capture : Capture)
             (loaded : result LoadError LoadedRepo).

Record Ident := mkIdent { id_PDSEndpoint : string; id_PublicKey : option string }.

Record frozenRepositoryOutcome := mkOutcome {
  fo_retryPending : bool; fo_stop : bool; fo_unavailable : bool; fo_unavailableCode : string;
  fo_permanentCode : string; fo_attemptFailure : option pdsAttemptFailure;
}.
Definition noOutcome : frozenRepositoryOutcome := mkOutcome false false false "" "" None.

(** Commands that run between the processor's calls, with the numbers of their
    requests, which the handlers read as [uint64]; [OpDeliver n] lets the [n]th
    receipt goroutine run. *)
Inductive op : Type :=
| OpAdd (raw : string) (revision : Z)
| OpRemove (raw : string) (revision : Z)
| OpPolicy (expected : Z) (collections : list string)
| OpRequest (raw reason requestID : string) (revision : Z)
| OpTransition (id : string) (state : State) (requestID : string)
| OpReset (id : string)
| OpDeliver (n : nat).

Class PdsServices := {
  has_directory : bool;                        (* [p.Directory != nil] *)
  has_resolver : bool;
  has_cache : bool;
  dir_cached : nat → string → option Ident;
  dir_find : nat → string → option Ident;      (* [LookupDID] *)
  dir_resolve : nat → string → option Ident;   (* a fresh document, and the identity in it *)
  list_repos : nat → string → string → list (result (Cause * Capture) ListReposPage);
  get_repo : nat → string → string → Download;
  signature_ok : string → SignedCommit → bool;
  tid_time : Z → time;                         (* [TID.Time()] *)
  ParseInt_ok : string → option Z;             (* [strconv.ParseInt(s, 10, 64)] *)
  http_ParseTime : string → option time;
  rand_below : nat → Z → Z;                    (* [rand.Int63n(n)], at least 0 and below n *)
  reconcile : nat → Snapshot → option jobs_err;
  schedule : nat → list op;
}.

Definition maxPDSServerRetryWait : Z := 1800 * second.
Definition repositoryRetryBaseDelay : Z := second.
Definition repositoryRetryMaxDelay : Z := 900 * second.

Definition retryablePDSStatus (status : Z) : bool := (status =? 408) || (status =? 429) || ((500 <=? status) && (status <=? 599)).

(** [strings.TrimSpace] on the header values, which are ASCII. *)
Definition is_space (c : ascii) : bool := Ascii.eqb c " " || ((9 <=? N_of_ascii c)%N && (N_of_ascii c <=? 13)%N).
Fixpoint trim_left (s : string) : string := match s with "" => "" | String c s' => if is_space c then trim_left s' else s end.
Definition TrimSpace (s : string) : string := str_rev (trim_left (str_rev (trim_left s))).

Definition unix_epoch : time := 719162 * 86400 * second.

(** [repo.SplitMSTKey]: collection and record key *)
Definition SplitMSTKey (key : string) : string * string := let '(c, r, _) := Hostname.Cut "/" key in (c, r).

(** [segment.ValidateEvent]; kind and payload length are always in range here. *)
Definition ValidateEvent (did rev : string) (e : RecordEvent) : bool :=
  (len did <=? 65535) && (len (re_Collection e) <=? 255) && (len (re_Rkey e) <=? 255) && (len rev <=? 255).

Definition mergeFrozenRepositoryOutcome (total current : frozenRepositoryOutcome) : frozenRepositoryOutcome :=
  mkOutcome (fo_retryPending total || fo_retryPending current) (fo_stop total) (fo_unavailable total || fo_unavailable current)
    (if String.eqb (fo_unavailableCode total) "" then fo_unavailableCode current else fo_unavailableCode total)
    (if String.eqb (fo_permanentCode total) "" then fo_permanentCode current else fo_permanentCode total)
    (match fo_attemptFailure current with Some f => Some f | None => fo_attemptFailure total end).

Definition repositoryAttemptFailureOutcome (input : InputError) (failure : option pdsAttemptFailure) (permanent : bool) (stored : RepositoryRetry) : frozenRepositoryOutcome :=
  let outcome :=
    if permanent then mkOutcome false false false "" (ie_Code input) failure
    else if bool_decide (rt_State stored = RetryWait) then mkOutcome true false false "" "" failure
    else mkOutcome false false true (ie_Code input) "" failure in
  if match failure with Some f => af_httpStatus f =? 429 | None => false end
  then mkOutcome true true (fo_unavailable outcome) (fo_unavailableCode outcome) (fo_permanentCode outcome) failure
  else outcome.

Definition repositoryFailureFor (err : jobs_err) (permanent : bool) : RepositoryRetryFailure :=
  let code := match as_Input err with Some i => ie_Code i | None => "" end in
  if String.eqb code "repository_size_limit" then mkRetryFailure FailureUnknown 0 GetRepoBody code
  else
    match as_AttemptFailure err with
    | Some f =>
        let stage := if String.eqb (af_stage f) "getRepo/body" then GetRepoBody else GetRepoRequest in
        if permanent then mkRetryFailure FailureRejected 0 stage code
        else if String.eqb (af_causeClass f) "timeout" then mkRetryFailure FailureTimeout 0 stage code
        else if String.eqb (af_causeClass f) "transport" then mkRetryFailure FailureTransport 0 stage code
        else if String.eqb (af_causeClass f) "body_read" then mkRetryFailure FailureBodyRead 0 stage code
        else if String.eqb (af_causeClass f) "http" then mkRetryFailure FailureHTTP (af_httpStatus f) stage code
        else mkRetryFailure FailureUnknown 0 stage code
    | None => mkRetryFailure (if permanent then FailureRejected else FailureUnknown) 0 GetRepoRequest code
    end.

Section processor.
Context `{JobServices} `{PdsServices}.

(** ** Interleaving *)

Definition exec_op (o : op) : JM unit :=
  match o with
  | OpAdd raw revision => AddSourceWithRevision raw (uint64 revision) ;; mret tt
  | OpRemove raw revision => RemoveSourceWithRevision raw (uint64 revision)
  | OpPolicy expected collections => SetPolicy expected collections ;; mret tt
  | OpRequest raw reason requestID revision => RequestOnceWithSourceRevision raw reason requestID (uint64 revision) ;; mret tt
  | OpTransition id state requestID => TransitionOnce id state requestID
  | OpReset id => ResetUnresolvedRepositoryRetries id ;; mret tt
  | OpDeliver n =>
      inflight ← gets m_inflight;
      match inflight !! n with
      | None => mret tt
      | Some job => modify (λ m, set_m_inflight (delete n (m_inflight m)) m) ;; deliverReceipt job
      end
  end.

Fixpoint exec_ops (os : list op) : JM unit :=
  match os with [] => mret tt | o :: os => attempt (exec_op o) (λ _, exec_ops os) end.

Definition interleave : JM unit := os ← jcall schedule; exec_ops os.
(** A call of the manager from a goroutine that holds no lock. *)
Definition sync {A} (m : JM A) : JM A := interleave ;; m.

(** ** Failures *)

Definition boundedPDSRetryDeadline (candidate t ceiling : time) : time :=
  if negb (After candidate t) then 0 else if After candidate ceiling then ceiling else candidate.

Definition pdsRateLimitResetDeadline (value : string) (t ceiling : time) : time :=
  match ParseInt_ok value with
  | None => 0
  | Some unix =>
      if unix <=? (t - unix_epoch) / second then 0
      else if (ceiling - unix_epoch) / second <? unix then ceiling
      else unix_epoch + unix * second
  end.

Definition pdsRetryAfterDeadline (value : string) (t ceiling : time) : time :=
  match ParseInt_ok value with
  | Some seconds =>
      if seconds <? 0 then 0
      else if maxPDSServerRetryWait / second <? seconds then ceiling
      else boundedPDSRetryDeadline (t + seconds * second) t ceiling
  | None => match http_ParseTime value with None => 0 | Some parsed => boundedPDSRetryDeadline parsed t ceiling end
  end.

Definition pdsServerRetryDeadline (c : Capture) (t : time) : time :=
  let ceiling := t + maxPDSServerRetryWait in
  let latest := pdsRateLimitResetDeadline (TrimSpace (cp_RateLimitReset c)) t ceiling in
  let retryAfter := pdsRetryAfterDeadline (TrimSpace (cp_RetryAfter c)) t ceiling in
  if After retryAfter latest then retryAfter else latest.

(** Doubled per attempt, with a jitter of a fifth. *)
Fixpoint delay_loop (n : nat) (delay : Z) : Z :=
  match n with
  | O => delay
  | S n => if delay <? repositoryRetryMaxDelay then delay_loop n (Z.min (delay * 2) repositoryRetryMaxDelay) else delay
  end.
Definition repositoryRetryDeadline (attempt : Z) (serverDeadline : time) : JM time :=
  t ← now;
  let delay := delay_loop (Z.to_nat (attempt - 1)) repositoryRetryBaseDelay in
  let spread := delay / 5 in
  r ← jcall (λ n, rand_below n (spread * 2 + 1));
  let delay := if 0 <? spread then delay + (r - spread) else delay in
  let deadline := t + Z.min (Z.max delay 1) repositoryRetryMaxDelay in
  mret (if After serverDeadline deadline then serverDeadline else deadline).

Definition newPDSAttemptFailure (outcome : InputError) (c : Cause) (stage did : string) (bodyRead : bool) (capture : Capture) : JM pdsAttemptFailure :=
  t ← now;
  let retryAt := pdsServerRetryDeadline capture t in
  let failure class status retryable := mkAttemptFailure outcome stage class did status retryable retryAt in
  mret (
    if ca_timeout c then failure "timeout" 0 true
    else if ca_canceled c then failure "cancel" 0 false
    else if bodyRead then failure "body_read" 0 true
    else if 400 <=? cp_status capture then failure "http" (cp_status capture) (retryablePDSStatus (cp_status capture))
    else if 0 <? ca_status c then failure "http" (ca_status c) (retryablePDSStatus (ca_status c))
    else if ca_url c || ca_network c then failure "transport" 0 true
    else failure "unknown" 0 false).

Definition is_canceled (e : option jobs_err) : bool := match e with Some ContextCanceled => true | _ => false end.

Definition inputFailure {A} (code : string) : JM A :=
  e ← jcall ctx_err;
  if is_canceled e then throw ContextCanceled else throw (Input (mkInputError code true)).

(** ** Listing *)

Definition rejectSnapshot {A} (job : Job) (did listedRevision code : string) : JM A :=
  r ← sync (recordSnapshotRejection (j_PDS job) (pol_Revision (j_Policy job)) did listedRevision directPDSSnapshotRejectionKind code);
  throw (Input (mkInputError (sr_Code r) false)).

Definition validateListedSnapshot (job : Job) (entry : ListReposEntry) : JM unit :=
  let lookup := sync (lookupSnapshotRejection (j_PDS job) (pol_Revision (j_Policy job)) (le_DID entry) (le_Rev entry) directPDSSnapshotRejectionKind) in
  if negb (ParseDID_ok (le_DID entry)) then
    r ← lookup;
    match r with
    | Some r => throw (Input (mkInputError (sr_Code r) false))
    | None => rejectSnapshot job (le_DID entry) (le_Rev entry) "invalid_listing_did"
    end
  else if negb (bool_decide (is_Some (ParseTID_int (le_Rev entry)))) then
    rejectSnapshot job (le_DID entry) (le_Rev entry) "invalid_listing_revision"
  else
    r ← lookup;
    match r with Some r => throw (Input (mkInputError (sr_Code r) false)) | None => mret tt end.

(** The active entries of a page, each validated. *)
Fixpoint page_entries (job : Job) (entries : list ListReposEntry) (acc : gmap string string) : JM (gmap string string) :=
  match entries with
  | [] => mret acc
  | e :: entries =>
      if negb (le_Active e) then page_entries job entries acc
      else
        validateListedSnapshot job e ;;
        if match acc !! le_DID e with Some previous => negb (String.eqb previous (le_Rev e)) | None => false end
        then throw (Input (mkInputError "invalid_listing" false))
        else page_entries job entries (<[le_DID e := le_Rev e]> acc)
  end.

(** The job as the processor sees it after the page. *)
Definition checkpointInventoryPage (job : Job) (page : ListReposPage) : JM Job :=
  entries ← page_entries job (lp_Entries page) ∅;
  let last := String.eqb (lp_NextCursor page) "" in
  sync (CheckpointInventory (j_ID job) (lp_NextCursor page) entries last) ;;
  let job := set_j_EnumeratedRepos (j_EnumeratedRepos job + Z.of_nat (size entries)) (set_j_Cursor (lp_NextCursor page) job) in
  mret (if last then set_j_TotalReposKnown true job else job).

Definition recordInventoryFailure {A} (job : Job) (cause : Cause) (capture : Capture) : JM A :=
  attempt (inputFailure (A := unit) "source_unavailable") (λ r,
    match r with
    | Err (Input i) =>
        f ← newPDSAttemptFailure i cause "listRepos" "" false capture;
        (if af_httpStatus f =? 429 then
           deadline ← repositoryRetryDeadline 1 (af_retryAt f);
           sync (RecordPDSCooldown (j_ID job) deadline)
         else mret tt) ;;
        t ← now;
        sync (recordJobFailure (j_ID job) (mkJobFailure (af_stage f) (af_causeClass f) (af_httpStatus f) t)) ;;
        throw (AttemptFailed f)
    | Err e => throw e
    | Ok _ => throw (OtherErr "")
    end).

Fixpoint enumerate_loop (job : Job) (pages : list (result (Cause * Capture) ListReposPage)) : JM Job :=
  match pages with
  | [] => mret job
  | Err (cause, capture) :: _ => recordInventoryFailure job cause capture
  | Ok page :: pages => job ← checkpointInventoryPage job page; enumerate_loop job pages
  end.

Definition enumerateInventory (job : Job) : JM unit :=
  pages ← jcall (λ n, list_repos n (j_PDS job) (j_Cursor job));
  job ← enumerate_loop job pages;
  if j_TotalReposKnown job then mret tt else sync (CheckpointInventory (j_ID job) (j_Cursor job) ∅ true).

(** ** One repository *)

Definition verifySourceIdentity (ident : Ident) (pds : string) : JM unit :=
  if bool_decide (normalizeSource fold_case (id_PDSEndpoint ident) = Some pds) then mret tt
  else throw (Input (mkInputError "source_changed" true)).

Definition verifySource (did pds : string) : JM unit :=
  if negb has_directory then inputFailure "identity_unavailable"
  else if negb has_resolver then
    if negb has_cache then inputFailure "identity_unavailable"
    else
      i ← jcall (λ n, dir_cached n did);
      match i with None => inputFailure "identity_unavailable" | Some i => verifySourceIdentity i pds end
  else
    i ← jcall (λ n, dir_find n did);
    match i with None => inputFailure "identity_unavailable" | Some i => verifySourceIdentity i pds end.

Definition unavailable_input (code : string) : InputError := mkInputError code true.

Definition fetchRepository (pds did : string) : JM LoadedRepo :=
  d ← jcall (λ n, get_repo n pds did);
  c ← jcall ctx_err;
  match d with
  | RequestFailed cause capture =>
      if is_canceled c then throw ContextCanceled
      else f ← newPDSAttemptFailure (unavailable_input "repository_unavailable") cause "getRepo/request" did false capture; throw (AttemptFailed f)
  | Downloaded true _ _ _ => throw (Input (unavailable_input "repository_size_limit"))
  | Downloaded false read_error capture loaded =>
      match c, read_error with
      | Some ContextCanceled, _ => throw ContextCanceled
      | Some _, _ =>
          f ← newPDSAttemptFailure (unavailable_input "repository_unavailable") (mkCause true false false false 0) "getRepo/body" did (bool_decide (is_Some read_error)) capture;
          throw (AttemptFailed f)
      | None, Some cause =>
          f ← newPDSAttemptFailure (unavailable_input "repository_unavailable") cause "getRepo/body" did true capture; throw (AttemptFailed f)
      | None, None =>
          match loaded with
          | Ok r => mret r
          | Err LoadUnexpectedEOF =>
              f ← newPDSAttemptFailure (unavailable_input "repository_incomplete") (mkCause false false false false 0) "getRepo/body" did true capture;
              throw (AttemptFailed f)
          | Err LoadInvalid => throw (Input (mkInputError "invalid_repository" false))
          end
      end
  end.

Definition verifySnapshot (job : Job) (entry : ListReposEntry) (commit : SignedCommit) : JM unit :=
  if negb has_directory || negb has_resolver then inputFailure "identity_unavailable"
  else if negb (String.eqb (co_DID commit) (le_DID entry)) then throw (Input (mkInputError "repository_did_mismatch" false))
  else
    match ParseTID_int (le_Rev entry) with
    | None => throw (Input (mkInputError "invalid_listing_revision" false))
    | Some listed =>
        t ← now;
        match ParseTID_int (co_Rev commit) with
        | None => throw (Input (mkInputError "invalid_revision" false))
        | Some rev =>
            if After (tid_time rev) (t + 300 * second) then throw (Input (mkInputError "invalid_revision" false))
            else
              i ← jcall (λ n, dir_resolve n (le_DID entry));
              match i with
              | None => inputFailure "identity_unavailable"
              | Some i =>
                  verifySourceIdentity i (j_PDS job) ;;
                  match id_PublicKey i with
                  | None => inputFailure "identity_unavailable"
                  | Some key =>
                      if negb (signature_ok key commit) then throw (Input (mkInputError "verification_failed" false))
                      else if rev <? listed then throw (Input (unavailable_input "snapshot_behind_listing"))
                      else mret tt
                  end
              end
        end
    end.

(** The records of the policy's collections. *)
Fixpoint project_records (collections : list string) (did rev : string) (records : list (string * string * option string)) : option (list RecordEvent) :=
  match records with
  | [] => Some []
  | (key, _, payload) :: records =>
      let '(collection, rkey) := SplitMSTKey key in
      if negb (existsb (String.eqb collection) collections) then project_records collections did rev records
      else
        payload ← payload;
        let e := mkRecordEvent collection rkey payload in
        if ValidateEvent did rev e then cons e <$> project_records collections did rev records else None
  end.

Definition projectSnapshot (job : Job) (did : string) (r : LoadedRepo) (rev : string) : JM Snapshot :=
  c ← jcall ctx_err;
  if is_canceled c then throw ContextCanceled
  else
    match c, project_records (pol_Collections (j_Policy job)) did rev (lr_records r) with
    | None, Some records => mret (mkSnapshot did rev (pol_Collections (j_Policy job)) records)
    | _, _ => throw (Input (unavailable_input "unrepresentable_snapshot"))
    end.

Definition Reconcile (job : Job) (snapshot : Snapshot) : JM unit :=
  e ← jcall (λ n, reconcile n snapshot);
  match e with
  | Some e => throw e
  | None => modify (λ m, set_m_archive (m_archive m ++ [mkReconciled (j_ID job) (j_PDS job) snapshot]) m)
  end.

Definition repository (job : Job) (entry : ListReposEntry) : JM unit :=
  verifySource (le_DID entry) (j_PDS job) ;;
  r ← fetchRepository (j_PDS job) (le_DID entry);
  let commit := lr_commit r in
  verifySnapshot job entry commit ;;
  snapshot ← projectSnapshot job (le_DID entry) r (co_Rev commit);
  catch (sync (ApplyContext (j_ID job) (Reconcile job snapshot)))
    (λ e, match root_cause e with
          | ErrAccountUnavailable => throw (Input (unavailable_input "account_unavailable"))
          | _ => throw e
          end) ;;
  sync (CheckpointRepositoryAcquisition (j_ID job) (le_DID entry) (le_Rev entry) (co_Rev commit) (j_Cursor job) (Z.of_nat (length (sn_Records snapshot)))).

(** ** Retrying *)

Definition repositoryRetrySchedule (att : RepositoryRetry) (input : InputError) (failure : option pdsAttemptFailure) : JM (option time * option time) :=
  let rateLimited := match failure with Some f => af_httpStatus f =? 429 | None => false end in
  let canRetry := ie_Unavailable input && negb (String.eqb (ie_Code input) "repository_size_limit")
    && match failure with None => negb (String.eqb (ie_Code input) "source_changed") | Some f => af_retryable f end
    && (rt_Attempts att <? maxRepositoryAttempts) in
  if negb canRetry && negb rateLimited then mret (None, None)
  else
    deadline ← repositoryRetryDeadline (rt_Attempts att) (match failure with Some f => af_retryAt f | None => 0 end);
    mret (if canRetry then Some deadline else None, if rateLimited then Some deadline else None).

Definition recordRepositoryAttemptFailure (job : Job) (entry : ListReposEntry) (att : RepositoryRetry) (err : jobs_err) (input : InputError) : JM frozenRepositoryOutcome :=
  let failure := as_AttemptFailure err in
  let permanent := negb (ie_Unavailable input) in
  (if permanent then
     attempt (rejectSnapshot (A := unit) job (le_DID entry) (le_Rev entry) (ie_Code input)) (λ r,
       match r with Err e => match as_Input e with Some _ => mret tt | None => throw e end | Ok _ => mret tt end)
   else mret tt) ;;
  '(retryAt, cooldown) ← repositoryRetrySchedule att input failure;
  stored ← sync (RecordRepositoryFailure (j_ID job) (le_DID entry) (repositoryFailureFor err permanent) retryAt cooldown);
  mret (repositoryAttemptFailureOutcome input failure permanent stored).

Definition processReadyRepository (job : Job) (entry : ListReposEntry) : JM frozenRepositoryOutcome :=
  attempt (validateListedSnapshot job entry) (λ r,
    match r with
    | Err e =>
        match as_Input e with
        | Some i => if ie_Unavailable i then throw e else mret (mkOutcome false false false "" (ie_Code i) None)
        | None => throw e
        end
    | Ok _ =>
        attempt (sync (BeginRepositoryAttempt (j_ID job) (le_DID entry))) (λ r,
          match r with
          | Err e =>
              match root_cause e with
              | ErrRepositoryCoolingDown | ErrRepositoryRetryNotDue => mret (mkOutcome true true false "" "" None)
              | _ => throw e
              end
          | Ok att =>
              attempt (repository job entry) (λ r,
                match r with
                | Ok _ => mret noOutcome
                | Err e =>
                    c ← jcall ctx_err;
                    if is_canceled c then throw ContextCanceled
                    else match as_Input e with None => throw e | Some i => recordRepositoryAttemptFailure job entry att e i end
                end)
          end)
    end).

Definition rejectionCode (job : Job) (entry : ListReposEntry) : JM string :=
  r ← sync (lookupSnapshotRejection (j_PDS job) (pol_Revision (j_Policy job)) (le_DID entry) (le_Rev entry) directPDSSnapshotRejectionKind);
  mret (match r with Some r => sr_Code r | None => "snapshot_rejected" end).

Definition unresolvedRepositoryOutcome (job : Job) (entry : ListReposEntry) (retry : RepositoryRetry) : JM frozenRepositoryOutcome :=
  match rt_Failure retry with
  | Some f =>
      if bool_decide (rf_Category f = FailureRejected) then code ← rejectionCode job entry; mret (mkOutcome false false false "" code None)
      else mret (mkOutcome false false true (rf_Code f) "" None)
  | None => mret (mkOutcome false false true "" "" None)
  end.

(** A row left in flight by a process that ended. *)
Definition recordInterruptedRepository (job : Job) (entry : ListReposEntry) (retry : RepositoryRetry) : JM frozenRepositoryOutcome :=
  retryAt ← (if rt_Attempts retry <? maxRepositoryAttempts then d ← repositoryRetryDeadline (rt_Attempts retry) 0; mret (Some d) else mret None);
  stored ← sync (RecordRepositoryFailure (j_ID job) (le_DID entry) (mkRetryFailure FailureInterrupted 0 GetRepoRequest "") retryAt None);
  mret (if bool_decide (rt_State stored = RetryWait) then mkOutcome true false false "" "" None
        else mkOutcome false false true "repository_unavailable" "" None).

(** [persistedRetryOutcome]; [None]: the repository is to be fetched. *)
Definition persistedRetryOutcome (job : Job) (entry : ListReposEntry) (retry : RepositoryRetry) : JM (option frozenRepositoryOutcome) :=
  match rt_State retry with
  | RetryInFlight => o ← recordInterruptedRepository job entry retry; mret (Some o)
  | RetryUnresolved => o ← unresolvedRepositoryOutcome job entry retry; mret (Some o)
  | RetryWait =>
      t ← now;
      mret (if After (rt_RetryAt retry) t then Some (mkOutcome true false false "" "" None) else None)
  | RetryReady => mret None
  | RetryComplete => throw (OtherErr "invalid repository retry state")
  end.

Definition processFrozenRepository (job : Job) (frozen : string * string) : JM frozenRepositoryOutcome :=
  let entry := mkEntry frozen.1 frozen.2 true in
  retry ← sync (GetRepositoryRetry (j_ID job) frozen.1);
  handled ← persistedRetryOutcome job entry retry;
  match handled with
  | Some o => mret o
  | None =>
      cooldown ← sync (GetPDSCooldown (j_PDS job));
      t ← now;
      if match cooldown with Some until => After until t | None => false end then mret (mkOutcome true true false "" "" None)
      else processReadyRepository job entry
  end.

Fixpoint frozen_loop (job : Job) (entries : list (string * string)) (outcome : frozenRepositoryOutcome) : JM frozenRepositoryOutcome :=
  match entries with
  | [] => mret outcome
  | e :: entries =>
      if completedRevisionAtLeast (completed_rev job e.1) e.2 then frozen_loop job entries outcome
      else
        current ← processFrozenRepository job e;
        let outcome := mergeFrozenRepositoryOutcome outcome current in
        if fo_stop current then mret outcome else frozen_loop job entries outcome
  end.

Definition processFrozenInventory (job : Job) : JM unit :=
  entries ← sync (Inventory (j_ID job));
  outcome ← frozen_loop job entries noOutcome;
  if fo_retryPending outcome then throw errJobYield
  else if negb (String.eqb (fo_permanentCode outcome) "") then throw (Input (mkInputError (fo_permanentCode outcome) false))
  else if negb (fo_unavailable outcome) then mret tt
  else
    let code := if String.eqb (fo_unavailableCode outcome) "" then "repository_unavailable" else fo_unavailableCode outcome in
    match fo_attemptFailure outcome with
    | Some f => throw (JobOutcome (unavailable_input code) f)
    | None => throw (Input (unavailable_input code))
    end.

(** [PDSProcessor.Run] *)
Definition process (job : Job) : JM unit :=
  if negb has_directory then inputFailure "identity_unavailable"
  else
    job ← (if j_TotalReposKnown job then mret job else enumerateInventory job ;; sync (find_job (j_ID job)));
    processFrozenInventory job.

(** ** The runner *)

(** [runNext]: claim and register under one lock, process, persist the outcome. *)
Definition runNext : JM bool :=
  claimed ← sync claimNextLocked;
  match claimed with
  | None => mret false
  | Some job =>
      modify (λ m, set_m_runningID (j_ID job) (set_m_canceled false m)) ;;
      attempt (process job) (λ r,
        sync (persistJobOutcome (j_ID job) (match r with Ok _ => None | Err e => Some e end)) ;; mret true)
  end.

Definition waitForWork : JM unit := t ← now; sync (nextWorkDeadlineLocked t) ;; check_ctx.

Definition runPass : JM unit :=
  check_ctx ;;
  sync flushReceipts ;;
  worked ← runNext;
  if worked : bool then mret tt else waitForWork.

(** ** The life of the service *)

(** A process starts, serves a command, or runs one pass of the runner. *)
Inductive turn : Type := TOpen (initial sources : list string) | TOp (o : op) | TPass.

(** [jetstreamd.New]: the policy, the jobs, the sources of the command line. *)
Definition open_all (initial sources : list string) : JM unit :=
  modify (set_m_up false) ;; selection_Open initial ;; jobs_Open ;; SeedSources sources ;; modify (set_m_up true).

Definition do_turn (t : turn) (m : Manager) : Manager :=
  match t with
  | TOpen initial sources => fst (open_all initial sources m)
  | TOp o => if m_up m then fst (exec_op o m) else m
  | TPass => if m_up m then fst (runPass m) else m
  end.

Definition do_turns (ts : list turn) (m : Manager) : Manager := foldl (λ m t, do_turn t m) m ts.

(** Before the first start. *)
Definition blank (sender advancer : bool) (gate : option string) (require : bool) : Manager :=
  mkManager emptyData (mkPolicy 0 []) "" false sender advancer gate require ∅ [] false
    (mkStore None None ∅ ∅ ∅ ∅) [] [] 0.
End processor.
