(* ===== verification/JobsInv.v ===== *)
(** * The invariant of recovery jobs

    Of every job in the durable document: what it counts as completed is in the
    archive under its source and policy, and a job that is complete has a frozen
    listing all of whose repositories are completed.  [quiet] relates two
    documents between which jobs may only be started, stopped or reset: a job that
    still runs has kept its source, policy, listing and completions.  Revisions of
    a source never go back, and a tombstone stands until a higher revision. *)

From S2P Require Import Prelude GoStrings StateMonad SourceURL JobsData Selection JobsRetry Jobs JobsPds.
Local Open Scope Z_scope.

Abbreviation policy_rev j := (pol_Revision (j_Policy j)).
Abbreviation inventories := (gmap string (gmap string string)).

Section jobs_inv.
Context `{JobServices} `{PdsServices}.

(** ** Jobs *)

(** The archive has the snapshot that a completed repository stands for. *)
Definition archived (archive : list Reconciled) (j : Job) (did rev : string) : Prop :=
  ∃ r, r ∈ archive ∧ rc_PDS r = j_PDS j ∧ sn_DID (rc_snapshot r) = did ∧ sn_Rev (rc_snapshot r) = rev ∧
       sn_Collections (rc_snapshot r) = pol_Collections (j_Policy j).

Record job_ok (archive : list Reconciled) (inv : inventories) (p : Policy) (id : string) (j : Job) : Prop := {
  jo_ID : j_ID j = id;
  jo_archived : ∀ did rev, j_CompletedRepos j !! did = Some rev → archived archive j did rev;
  jo_known : j_TotalReposKnown j = true → ∃ listed, inv !! id = Some listed ∧ j_TotalRepos j ≤ Z.of_nat (size listed) ∧
    ∀ did rev, j_CompletedRepos j !! did = Some rev → ∃ l, listed !! did = Some l ∧ completedRevisionAtLeast rev l = true;
  jo_complete : j_State j = Complete → j_TotalReposKnown j = true ∧
    ∀ listed did, inv !! id = Some listed → is_Some (listed !! did) → is_Some (j_CompletedRepos j !! did);
  jo_policy_max : policy_rev j ≤ pol_Revision p;
  jo_policy : policy_rev j = pol_Revision p → j_Policy j = p;
  jo_unfinished : unfinished j = true → policy_rev j = pol_Revision p;
}.

(** A job as a receipt speaks of it: all that was listed is in the archive. *)
Definition receipt_ok (archive : list Reconciled) (j : Job) : Prop :=
  j_State j = Complete ∧ j_TotalReposKnown j = true ∧ j_TotalRepos j ≤ Z.of_nat (size (j_CompletedRepos j)) ∧
  ∀ did rev, j_CompletedRepos j !! did = Some rev → archived archive j did rev.

(** The events are the records of a repository in some collections: in the order of the
    repository, one for each record with a key in one of the collections, under its
    collection and record key and with its contents, which are present. *)
Definition exact_records (collections : list string) (records : list (string * string * option string)) (events : list RecordEvent) : Prop :=
  map (λ e, (re_Collection e, re_Rkey e, Some (re_Payload e))) events =
  map (λ r, (SplitMSTKey r.1.1, r.2)) (List.filter (λ r, existsb (String.eqb (SplitMSTKey r.1.1).1) collections) records).

Lemma project_records_exact collections did rev records events : project_records collections did rev records = Some events → exact_records collections records events.
Proof.
  unfold exact_records. revert events. induction records as [|[[key c] p] records IH]; intros events Hp; [by injection Hp as <-|]. cbn [project_records List.filter fst snd] in *.
  destruct (SplitMSTKey key) as [collection rkey] eqn:Hk. cbn [fst]. destruct (existsb _ _); [|by apply IH]. destruct p as [payload|]; [|done].
  change (Some payload ≫= ?f) with (f payload) in Hp. cbv beta zeta in Hp. destruct (ValidateEvent _ _ _); [|done]. apply fmap_Some in Hp as (rest & Hr & ->).
  cbn [map fst snd re_Collection re_Rkey re_Payload]. rewrite Hk. f_equal. by apply IH.
Qed.

(** The snapshot is of a repository that the PDS of the job answered [getRepo] with,
    read to its end and loaded; its commit was signed with the key that a
    resolution of the DID gave, at that PDS; and it has exactly the records of the
    repository in its collections. *)
Definition authentic (r : Reconciled) : Prop :=
  ∃ k capture repo n ident key, get_repo k (rc_PDS r) (sn_DID (rc_snapshot r)) = Downloaded false None capture (Ok repo) ∧
    dir_resolve n (sn_DID (rc_snapshot r)) = Some ident ∧
    normalizeSource fold_case (id_PDSEndpoint ident) = Some (rc_PDS r) ∧ id_PublicKey ident = Some key ∧
    signature_ok key (lr_commit repo) = true ∧ co_DID (lr_commit repo) = sn_DID (rc_snapshot r) ∧
    co_Rev (lr_commit repo) = sn_Rev (rc_snapshot r) ∧
    exact_records (sn_Collections (rc_snapshot r)) (lr_records repo) (sn_Records (rc_snapshot r)).

(** ** Sources *)

(** A source that is on has no tombstone, and a tombstone is at most the
    revision. *)
Definition life_ok (d : data) : Prop :=
  ∀ pds, 0 ≤ src_tomb d pds ≤ src_rev d pds ∧ (src_on d pds = true → src_tomb d pds = 0).

(** Revisions grow; a source with a tombstone stays off unless its revision has
    passed the tombstone. *)
Definition life (d d' : data) : Prop :=
  ∀ pds, src_rev d pds ≤ src_rev d' pds ∧
    (0 < src_tomb d pds → src_tomb d pds < src_rev d' pds ∨ src_tomb d pds ≤ src_tomb d' pds).

(** ** Document, store and manager *)

Record doc_ok (archive : list Reconciled) (inv : inventories) (p : Policy) (d : data) : Prop := {
  do_jobs : ∀ id j, d_Jobs d !! id = Some j → job_ok archive inv p id j;
  do_life : life_ok d;
  do_revisions : ∀ id j, d_Jobs d !! id = Some j → j_SourceRevision j ≤ src_rev d (j_PDS j);
  do_rejections : ∀ k r, d_SnapshotRejections d !! k = Some r → sr_Code r ≠ "";
  do_initialized : d_Initialized d = true;
}.

(** A row is under its own key, and within the budget of attempts. *)
Definition rows_ok (rows : gmap (string * string) RepositoryRetry) : Prop :=
  ∀ k r, rows !! k = Some r → (rt_JobID r, rt_DID r) = k ∧ 1 ≤ rt_Attempts r ≤ maxRepositoryAttempts.

(** What holds while no process runs. *)
Record DOWN (m : Manager) : Prop := {
  dn_doc : ∀ d, st_state (m_store m) = Some d →
    ∃ p, st_policy (m_store m) = Some p ∧ doc_ok (m_archive m) (st_inventory (m_store m)) p d;
  dn_receipts : Forall (receipt_ok (m_archive m)) (m_receipts m);
  dn_rows : rows_ok (st_retry (m_store m));
  dn_archive : Forall authentic (m_archive m);
}.

(** While it runs, document and policy in memory are the durable ones. *)
Record INV (m : Manager) : Prop := {
  i_state : st_state (m_store m) = Some (m_data m);
  i_policy : st_policy (m_store m) = Some (m_policy m);
  i_doc : doc_ok (m_archive m) (st_inventory (m_store m)) (m_policy m) (m_data m);
  i_inflight : Forall (receipt_ok (m_archive m)) (m_inflight m);
  i_receipts : Forall (receipt_ok (m_archive m)) (m_receipts m);
  i_rows : rows_ok (st_retry (m_store m));
  i_archive : Forall authentic (m_archive m);
}.

Definition GOOD (m : Manager) : Prop := if m_up m then INV m else DOWN m.

Lemma INV_DOWN m : INV m → DOWN m.
Proof. intros [a b c d e f g]. split; auto. intros d' Hd. rewrite a in Hd. injection Hd as <-. eauto. Qed.

Lemma GOOD_DOWN m : GOOD m → DOWN m.
Proof. unfold GOOD. destruct (m_up m); auto using INV_DOWN. Qed.

(** ** Quiet changes *)

Record quiet_job (j j' : Job) : Prop := {
  qj_ID : j_ID j' = j_ID j;
  qj_PDS : j_PDS j' = j_PDS j;
  qj_SourceRevision : j_SourceRevision j' = j_SourceRevision j;
  qj_Policy : j_Policy j' = j_Policy j;
  qj_Completed : j_CompletedRepos j' = j_CompletedRepos j;
  qj_known : j_TotalReposKnown j' = true → j_TotalReposKnown j = true ∧ j_TotalRepos j' = j_TotalRepos j;
  qj_complete : j_State j' = Complete → j_State j = Complete ∧ j_TotalReposKnown j' = j_TotalReposKnown j;
  qj_running : j_State j' = Running → j_State j = Running ∧ j_TotalReposKnown j' = j_TotalReposKnown j;
}.

(** A job that was started anew and has not run. *)
Definition started (id : string) (j : Job) : Prop :=
  j_ID j = id ∧ j_CompletedRepos j = ∅ ∧ j_TotalReposKnown j = false ∧ j_State j ≠ Running ∧ j_State j ≠ Complete.

Definition quiet (d d' : data) : Prop :=
  ∀ id j', d_Jobs d' !! id = Some j' → started id j' ∨ ∃ j, d_Jobs d !! id = Some j ∧ quiet_job j j'.

Lemma quiet_job_refl j : quiet_job j j.
Proof. by split. Qed.

Lemma quiet_job_trans j1 j2 j3 : quiet_job j1 j2 → quiet_job j2 j3 → quiet_job j1 j3.
Proof.
  intros [a1 a2 a0 a3 a4 a5 a6 a7] [b1 b2 b0 b3 b4 b5 b6 b7]. split; try congruence; auto.
  - intros Hk. destruct (b5 Hk) as [Hk2 ->]. destruct (a5 Hk2) as [? ->]. done.
  - intros Hr. destruct (b6 Hr) as [Hr2 ->]. by apply a6.
  - intros Hr. destruct (b7 Hr) as [Hr2 ->]. by apply a7.
Qed.

Lemma started_quiet id j j' : started id j → quiet_job j j' → started id j'.
Proof.
  intros (H1 & H2 & H3 & H4 & H5) [a1 a2 a0 a3 a4 a5 a6 a7]. repeat split; try congruence.
  - destruct (j_TotalReposKnown j') eqn:Hk; [|done]. destruct (a5 eq_refl). congruence.
  - intros Hr. by destruct (a7 Hr).
  - intros Hr. by destruct (a6 Hr).
Qed.

Lemma quiet_refl d : quiet d d.
Proof. intros id j Hj. right. exists j. split; [done|apply quiet_job_refl]. Qed.

Lemma quiet_data_trans d1 d2 d3 : quiet d1 d2 → quiet d2 d3 → quiet d1 d3.
Proof.
  intros H12 H23 id j3 H3. destruct (H23 id j3 H3) as [|(j2 & H2 & Hq)]; [by left|].
  destruct (H12 id j2 H2) as [|(j1 & H1' & Hq')]; [left; eauto using started_quiet|].
  right. exists j1. split; [done|]. by apply quiet_job_trans with j2.
Qed.

Lemma life_refl d : life d d.
Proof. intros pds. split; [lia|]. intros. right. lia. Qed.

Lemma life_trans d1 d2 d3 : life d1 d2 → life d2 d3 → life d1 d3.
Proof.
  intros H12 H23 pds. destruct (H12 pds) as [? Ht1], (H23 pds) as [? Ht2]. split; [lia|].
  intros Hpos. destruct (Ht1 Hpos) as [|Hle]; [left; lia|].
  destruct (Ht2 ltac:(lia)); [left|right]; lia.
Qed.

(** ** Frames *)

(** What every step does: the archive grows, and not by snapshots of a source
    that has a tombstone. *)
Record grows (m m' : Manager) : Prop := {
  g_archive : ∃ l, m_archive m' = m_archive m ++ l;
  g_up : m_up m' = m_up m;
  g_life : life (m_data m) (m_data m');
  g_fence : ∀ r, 0 < src_tomb (m_data m) (rc_PDS r) → r ∈ m_archive m' →
    r ∈ m_archive m ∨ src_tomb (m_data m) (rc_PDS r) < src_rev (m_data m') (rc_PDS r);
}.

Record frame (m m' : Manager) : Prop := {
  f_data : quiet (m_data m) (m_data m');
  f_inv : ∀ id j', d_Jobs (m_data m') !! id = Some j' → (j_TotalReposKnown j' = true ∨ j_State j' = Running) →
    st_inventory (m_store m') !! id = st_inventory (m_store m) !! id;
  f_archive : m_archive m' = m_archive m;
  f_up : m_up m' = m_up m;
  f_life : life (m_data m) (m_data m');
}.

Definition Post (m m' : Manager) : Prop := INV m' ∧ frame m m'.

Lemma grows_refl m : grows m m.
Proof. split; auto using life_refl. exists []. by rewrite app_nil_r. Qed.

Lemma grows_trans m1 m2 m3 : grows m1 m2 → grows m2 m3 → grows m1 m3.
Proof.
  intros [[l1 a1] b1 c1 d1] [[l2 a2] b2 c2 d2]. split.
  - exists (l1 ++ l2). by rewrite a2, a1, <-app_assoc.
  - congruence.
  - by apply life_trans with (m_data m2).
  - intros r Ht Hr. destruct (c1 (rc_PDS r)) as [Hr1 Ht1], (c2 (rc_PDS r)) as [Hr2 Ht2].
    destruct (Ht1 Ht) as [|Hle]; [right; lia|].
    destruct (d2 r ltac:(lia) Hr) as [Hr'|]; [|right; lia].
    destruct (d1 r Ht Hr'); [by left|right; lia].
Qed.

Lemma frame_grows m m' : frame m m' → grows m m'.
Proof.
  intros [a b c d e]. split; auto.
  - exists []. by rewrite app_nil_r.
  - intros r _ Hr. left. by rewrite <-c.
Qed.

Lemma frame_refl m : frame m m.
Proof. split; auto using quiet_refl, life_refl. Qed.

Lemma frame_trans m1 m2 m3 : frame m1 m2 → frame m2 m3 → frame m1 m3.
Proof.
  intros [a1 b1 c1 d1 e1] [a2 b2 c2 d2 e2]. split.
  - by apply quiet_data_trans with (m_data m2).
  - intros id j3 H3 Hc. rewrite (b2 id j3 H3 Hc).
    destruct (a2 id j3 H3) as [(?&?&?&?&?)|(j2 & H2 & Hq)]; [destruct Hc; congruence|].
    apply (b1 id j2 H2). destruct Hc as [Hk|Hr].
    + left. by apply Hq.
    + right. by apply Hq.
  - congruence.
  - congruence.
  - by apply life_trans with (m_data m2).
Qed.

(** ** Job by job *)

Lemma archived_mono archive archive' j j' did rev : (∀ r, r ∈ archive → r ∈ archive') →
  j_PDS j' = j_PDS j → j_Policy j' = j_Policy j → archived archive j did rev → archived archive' j' did rev.
Proof. unfold archived. intros Hsub Hp Hq (r & ? & ?). rewrite Hp, Hq. exists r. auto. Qed.

Lemma receipt_ok_mono archive archive' j : (∀ r, r ∈ archive → r ∈ archive') → receipt_ok archive j → receipt_ok archive' j.
Proof. intros Hsub (?&?&?&?). repeat split; eauto using archived_mono. Qed.

Lemma job_ok_quiet archive inv inv' p p' id j j' : job_ok archive inv p id j → quiet_job j j' →
  (j_TotalReposKnown j' = true → inv' !! id = inv !! id) →
  policy_rev j ≤ pol_Revision p' → (policy_rev j = pol_Revision p' → j_Policy j = p') →
  (unfinished j' = true → policy_rev j = pol_Revision p') → job_ok archive inv' p' id j'.
Proof.
  intros [H1 H2 H3 H4 H5 H6 H7] [a1 a2 a0 a3 a4 a5 a6 a7] Hinv ???. split; rewrite ?a3; auto.
  - congruence.
  - intros did rev Hd. rewrite a4 in Hd. eauto using archived_mono.
  - intros Hk. destruct (a5 Hk) as [Hk' ->]. rewrite (Hinv Hk), a4. auto.
  - intros Hc. destruct (a6 Hc) as [Hc' Hk']. destruct (H4 Hc') as [Hk Hall]. rewrite Hk in Hk'.
    rewrite (Hinv Hk'), a4. auto.
Qed.

Lemma job_ok_started archive inv p id j : started id j → j_Policy j = p → job_ok archive inv p id j.
Proof.
  intros (a1 & a2 & a3 & a4 & a5) <-. split; try done; rewrite ?a2, ?a3; done.
Qed.

Lemma job_ok_mono archive archive' inv p id j : (∀ r, r ∈ archive → r ∈ archive') →
  job_ok archive inv p id j → job_ok archive' inv p id j.
Proof. intros Hsub [H1 H2 H3 H4 H5 H6 H7]. split; eauto using archived_mono. Qed.

Lemma doc_ok_mono archive archive' inv p d : (∀ r, r ∈ archive → r ∈ archive') → doc_ok archive inv p d → doc_ok archive' inv p d.
Proof. intros Hsub [a b r c e]. split; eauto using job_ok_mono. Qed.

Lemma job_ok_receipt archive inv p id j : job_ok archive inv p id j → j_State j = Complete → receipt_ok archive j.
Proof.
  intros Hj Hc. destruct (jo_complete _ _ _ _ _ Hj Hc) as [Hk Hall].
  destruct (jo_known _ _ _ _ _ Hj Hk) as (listed & Hl & Ht & _).
  repeat split; auto; [|apply Hj].
  etrans; [exact Ht|]. rewrite <-!size_dom. apply inj_le, subseteq_size. intros did. rewrite !elem_of_dom. eauto.
Qed.

Lemma revisions_put d id j' : (∀ id j, d_Jobs d !! id = Some j → j_SourceRevision j ≤ src_rev d (j_PDS j)) →
  j_SourceRevision j' ≤ src_rev d (j_PDS j') →
  ∀ id0 j, d_Jobs (put_job id j' d) !! id0 = Some j → j_SourceRevision j ≤ src_rev (put_job id j' d) (j_PDS j).
Proof.
  intros Hd Hj id0 j Hl. change (src_rev (put_job id j' d)) with (src_rev d). cbn in Hl.
  apply lookup_insert_Some in Hl as [[<- <-]|[_ Hl]]; eauto.
Qed.

Lemma doc_ok_put archive inv p d id j' : doc_ok archive inv p d → job_ok archive inv p id j' →
  j_SourceRevision j' ≤ src_rev d (j_PDS j') → doc_ok archive inv p (put_job id j' d).
Proof.
  intros [a b r c e] Hj Hr. split; [|done|by apply revisions_put|done|done]. cbn. intros id' j Hl.
  apply lookup_insert_Some in Hl as [[<- <-]|[_ Hl]]; auto.
Qed.

(** ** Changes of the document *)

(** A commit from [d] under policy [p] to [d'] under [p'] that is quiet and keeps
    the document well formed. *)
Record ok (p p' : Policy) (d d' : data) : Prop := {
  ok_policy : p' = p ∨ pol_Revision p < pol_Revision p';
  ok_jobs : ∀ id j', d_Jobs d' !! id = Some j' → (started id j' ∧ j_Policy j' = p' ∧ j_SourceRevision j' ≤ src_rev d' (j_PDS j')) ∨
    ∃ j, d_Jobs d !! id = Some j ∧ quiet_job j j' ∧ (unfinished j' = true → (p' = p ∧ unfinished j = true) ∨ policy_rev j = pol_Revision p');
  ok_revisions : ∀ pds, src_rev d pds ≤ src_rev d' pds;
  ok_life : life_ok d → life_ok d' ∧ life d d';
  ok_rejections : ∀ k r, d_SnapshotRejections d' !! k = Some r → d_SnapshotRejections d !! k = Some r ∨ sr_Code r ≠ "";
  ok_initialized : d_Initialized d = true → d_Initialized d' = true;
}.

Lemma ok_refl p d : ok p p d d.
Proof.
  split; auto using life_refl; [|done]. intros id j Hj. right. exists j. auto using quiet_job_refl.
Qed.

Lemma ok_quiet p p' d d' : ok p p' d d' → quiet d d'.
Proof. intros Hok id j' Hj'. destruct (ok_jobs _ _ _ _ Hok id j' Hj') as [(? & _)|(j & ? & ? & _)]; eauto. Qed.

Lemma ok_doc archive inv inv' p p' d d' : doc_ok archive inv p d → ok p p' d d' →
  (∀ id j', d_Jobs d' !! id = Some j' → j_TotalReposKnown j' = true → inv' !! id = inv !! id) →
  doc_ok archive inv' p' d'.
Proof.
  intros [a b rv c e] [o1 o2 o0 o3 o4 o5] Hinv. split; [| by apply o3 | | | auto].
  - intros id j' Hj'. destruct (o2 id j' Hj') as [(Hs & Hp & _)|(j & Hj & Hq & Hu)]; [by apply job_ok_started|].
    pose proof (a id j Hj) as Hjo. eapply job_ok_quiet; [exact Hjo|exact Hq|eauto| | |].
    + destruct o1 as [->|]; [apply Hjo|]. pose proof (jo_policy_max _ _ _ _ _ Hjo). lia.
    + destruct o1 as [->|]; [apply Hjo|]. pose proof (jo_policy_max _ _ _ _ _ Hjo). lia.
    + intros Hun. destruct (Hu Hun) as [[-> Hun']|]; [by apply Hjo|done].
  - intros id j' Hj'. destruct (o2 id j' Hj') as [(_ & _ & Hr)|(j & Hj & Hq & _)]; [done|].
    rewrite (qj_SourceRevision _ _ Hq), (qj_PDS _ _ Hq). specialize (rv id j Hj). specialize (o0 (j_PDS j)). lia.
  - intros k r Hr. destruct (o4 k r Hr) as [Hr'|]; eauto.
Qed.

Lemma ok_trans p p' d1 d2 d3 : ok p p' d1 d2 → ok p' p' d2 d3 → ok p p' d1 d3.
Proof.
  intros [a1 a2 a0 a3 a4 a5] [b1 b2 b0 b3 b4 b5]. split; auto.
  - intros id j3 H3. destruct (b2 id j3 H3) as [|(j2 & H2 & Hq & Hu)]; [by left|].
    destruct (a2 id j2 H2) as [(Hs & Hp & Hr)|(j1 & H1' & Hq' & Hu')].
    + left. split; [eauto using started_quiet|]. rewrite (qj_Policy _ _ Hq), (qj_SourceRevision _ _ Hq), (qj_PDS _ _ Hq).
      split; [done|]. specialize (b0 (j_PDS j2)). lia.
    + right. exists j1. split; [done|]. split; [by apply quiet_job_trans with j2|].
      intros Hun. rewrite (qj_Policy _ _ Hq') in Hu. destruct (Hu Hun) as [[_ Hun2]|]; auto.
  - intros pds. specialize (a0 pds). specialize (b0 pds). lia.
  - intros Hl. destruct (a3 Hl) as [Hl2 Hd]. destruct (b3 Hl2) as [Hl3 Hd']. split; [done|].
    by apply life_trans with d2.
  - intros k r Hr. destruct (b4 k r Hr); auto.
Qed.

(** Changes of one job, and of all. *)
Lemma ok_life_same d : life_ok d → life_ok d ∧ life d d.
Proof. auto using life_refl. Qed.

Lemma ok_put p d id j j' : d_Jobs d !! id = Some j → quiet_job j j' →
  (unfinished j' = true → unfinished j = true ∨ policy_rev j = pol_Revision p) → ok p p d (put_job id j' d).
Proof.
  intros Hj Hq Hu. split; [by left| |done|exact (ok_life_same d)|by left|done]. cbn. intros id' j2 Hl. right.
  apply lookup_insert_Some in Hl as [[<- <-]|[_ Hl]].
  - exists j. split; [done|]. split; [done|]. intros Hun. destruct (Hu Hun); auto.
  - exists j2. auto using quiet_job_refl.
Qed.

Lemma ok_start p d id j : started id j → j_Policy j = p → j_SourceRevision j ≤ src_rev d (j_PDS j) → ok p p d (put_job id j d).
Proof.
  intros Hs Hp Hr. split; [by left| |done|exact (ok_life_same d)|by left|done]. cbn. intros id' j2 Hl.
  apply lookup_insert_Some in Hl as [[<- <-]|[_ Hl]]; [by left|].
  right. exists j2. auto using quiet_job_refl.
Qed.

Lemma ok_fmap p p' d f : (p' = p ∨ pol_Revision p < pol_Revision p') →
  (∀ j, quiet_job j (f j) ∧ (unfinished (f j) = true → p' = p ∧ unfinished j = true)) →
  ok p p' d (set_d_Jobs (f <$> d_Jobs d) d).
Proof.
  intros Hp Hf. split; [done| |done|exact (ok_life_same d)|by left|done]. cbn. intros id j' Hl. right.
  apply lookup_fmap_Some in Hl as (j & <- & Hj). exists j. split; [done|].
  destruct (Hf j) as [Hq Hu]. split; [done|]. auto.
Qed.

(** Changes that leave the jobs alone. *)
Lemma ok_same_jobs p d d' : d_Jobs d' = d_Jobs d → (life_ok d → life_ok d' ∧ life d d') →
  (∀ k r, d_SnapshotRejections d' !! k = Some r → d_SnapshotRejections d !! k = Some r ∨ sr_Code r ≠ "") →
  (d_Initialized d = true → d_Initialized d' = true) → (∀ pds, src_rev d pds ≤ src_rev d' pds) → ok p p d d'.
Proof. intros Hj ????. split; auto. rewrite Hj. intros id j Hl. right. exists j. auto using quiet_job_refl. Qed.

(** ** Writes *)

Lemma INV_tick k m : INV m → INV (set_m_tick k m).
Proof. intros [a b c d e f g]. by split. Qed.

Lemma frame_tick k m : frame m (set_m_tick k m).
Proof. split; cbn; auto using quiet_refl, life_refl. Qed.

Lemma Post_refl m : INV m → Post m m.
Proof. split; auto using frame_refl. Qed.

Lemma Post_trans m1 m2 m3 : Post m1 m2 → Post m2 m3 → Post m1 m3.
Proof. intros [_ ?] [? ?]. split; [done|]. by apply frame_trans with m2. Qed.

Lemma Post_tick k m : INV m → Post m (set_m_tick k m).
Proof. split; auto using INV_tick, frame_tick. Qed.

(** A durable change of document and policy with what else the batch holds. *)
Lemma Post_write m p' d' st' : INV m → ok (m_policy m) p' (m_data m) d' →
  st_state st' = Some d' → st_policy st' = Some p' → rows_ok (st_retry st') →
  (∀ id j', d_Jobs d' !! id = Some j' → (j_TotalReposKnown j' = true ∨ j_State j' = Running) →
     st_inventory st' !! id = st_inventory (m_store m) !! id) →
  Post m (set_m_data d' (set_m_policy p' (set_m_store st' m))).
Proof.
  intros [a b c d e f g] Hok Hst Hpol Hrows Hinv. split; split; cbn; auto.
  - eapply ok_doc; [exact c|exact Hok|]. eauto.
  - by eapply ok_quiet.
  - by apply Hok, c.
Qed.

End jobs_inv.
