(* ===== verification/JobsLogic.v ===== *)
(** * Rules for computations of the job manager

    [idle c]: [c] only makes calls to the outside and reads.  [Q d p c]: started
    with document [d] and policy [p], [c] keeps the invariant, and what it changes
    is quiet. *)

From S2P Require Import Prelude GoStrings StateMonad SourceURL JobsData Selection JobsRetry Jobs JobsPds JobsInv.
Local Open Scope Z_scope.

Create HintDb idle discriminated.

Section jobs_logic.
Context `{JobServices} `{PdsServices}.

(** ** Reading *)

Definition still (m m' : Manager) : Prop := ∃ k, m' = set_m_tick k m.

Definition reads_at {A} (m : Manager) (c : JM A) (P : A → Prop) : Prop :=
  wp c (λ a m', still m m' ∧ P a) (λ _ m', still m m') m.
Definition idle {A} (c : JM A) : Prop := ∀ m, reads_at m c (λ _, True).

Lemma still_refl m : still m m.
Proof. exists (m_tick m). by destruct m. Qed.

Lemma still_trans m1 m2 m3 : still m1 m2 → still m2 m3 → still m1 m3.
Proof. intros [k ->] [k' ->]. by exists k'. Qed.

Lemma reads_ret {A} m (a : A) (P : A → Prop) : P a → reads_at m (mret a) P.
Proof. split; [apply still_refl|done]. Qed.
Lemma reads_throw {A} m e (P : A → Prop) : reads_at m (throw e) P.
Proof. apply still_refl. Qed.
Lemma reads_lift {A} m r (P : A → Prop) : (∀ a, r = Ok a → P a) → reads_at m (lift r) P.
Proof. intros HP. apply wp_lift. destruct r; [split; auto|]; apply still_refl. Qed.
Lemma reads_gets {A} m (g : Manager → A) (P : A → Prop) : P (g m) → reads_at m (gets g) P.
Proof. split; [apply still_refl|done]. Qed.
Lemma reads_jcall {A} m (f : nat → A) (P : A → Prop) : P (f (m_tick m)) → reads_at m (jcall f) P.
Proof. split; [by eexists|done]. Qed.

Lemma reads_bind {A B} m (c : JM A) (f : A → JM B) P P' : reads_at m c P →
  (∀ a m', still m m' → P a → reads_at m' (f a) P') → reads_at m (c ≫= f) P'.
Proof.
  intros Hc Hf. apply wp_bind. eapply wp_mono; [| |exact Hc]; [|done].
  cbn. intros a m' [Hs HP]. pose proof (Hf a m' Hs HP) as Hfa. unfold reads_at in Hfa.
  eapply wp_mono; [| |exact Hfa]; cbn.
  - intros b m'' [? ?]. split; [by apply still_trans with m'|done].
  - intros e m'' ?. by apply still_trans with m'.
Qed.

Lemma reads_weaken {A} m (c : JM A) (P P' : A → Prop) : reads_at m c P → (∀ a, P a → P' a) → reads_at m c P'.
Proof. intros Hc HP. eapply wp_mono; [| |exact Hc]; cbn; [|done]. intros a m' [? ?]. auto. Qed.

Lemma idle_reads {A} m (c : JM A) : idle c → reads_at m c (λ _, True).
Proof. auto. Qed.

Lemma idle_ret {A} (a : A) : idle (mret a : JM A).
Proof. intros m. by apply reads_ret. Qed.
Lemma idle_throw {A} e : idle (throw e : JM A).
Proof. intros m. apply reads_throw. Qed.
Lemma idle_lift {A} (r : result jobs_err A) : idle (lift r).
Proof. intros m. by apply reads_lift. Qed.
Lemma idle_gets {A} (g : Manager → A) : idle (gets g).
Proof. intros m. by apply reads_gets. Qed.
Lemma idle_get : idle get.
Proof. intros m. by apply reads_gets. Qed.
Lemma idle_jcall {A} (f : nat → A) : idle (jcall f).
Proof. intros m. by apply reads_jcall. Qed.
Lemma idle_bind {A B} (c : JM A) (f : A → JM B) : idle c → (∀ a, idle (f a)) → idle (c ≫= f).
Proof. intros Hc Hf m. eapply reads_bind; [apply Hc|]. intros a m' _ _. apply Hf. Qed.
Lemma idle_attempt {A B} (c : JM A) (k : result jobs_err A → JM B) : idle c → (∀ r, idle (k r)) → idle (attempt c k).
Proof.
  intros Hc Hk m. apply wp_attempt. eapply wp_mono; [| |apply Hc]; cbn.
  - intros a m' [Hs _]. eapply wp_mono; [| |apply Hk]; cbn.
    + intros b m'' [? _]. split; [by apply still_trans with m'|done].
    + intros e m'' ?. by apply still_trans with m'.
  - intros e m' Hs. eapply wp_mono; [| |apply Hk]; cbn.
    + intros b m'' [? _]. split; [by apply still_trans with m'|done].
    + intros e' m'' ?. by apply still_trans with m'.
Qed.

(** ** Quiet computations *)

Definition Q (d : data) (p : Policy) {A} (c : JM A) : Prop :=
  ∀ m, INV m → m_data m = d → m_policy m = p → wp c (λ _ m', Post m m') (λ _ m', Post m m') m.
Definition quietly {A} (c : JM A) : Prop := ∀ d p, Q d p c.

Lemma Post_still m m' : INV m → still m m' → Post m m'.
Proof. intros Hi [k ->]. by apply Post_tick. Qed.

Lemma Q_idle {A} d p (c : JM A) : idle c → Q d p c.
Proof. intros Hc m Hi _ _. eapply wp_mono; [| |apply Hc]; cbn; [intros a m' [? _]|intros e m' ?]; by apply Post_still. Qed.

Lemma Q_read {A B} d p (P : A → Prop) (c : JM A) (f : A → JM B) :
  (∀ m, INV m → m_data m = d → m_policy m = p → reads_at m c P) → (∀ a, P a → Q d p (f a)) → Q d p (c ≫= f).
Proof.
  intros Hc Hf m Hi Hd Hp. apply wp_bind. eapply wp_mono; [| |apply (Hc m); auto]; cbn; [|by intros e m' ?; apply Post_still].
  intros a m' [[k ->] HP]. eapply wp_mono; [| |apply (Hf a HP (set_m_tick k m)); auto using INV_tick]; cbn.
  - intros b m''. apply Post_trans. by apply Post_tick.
  - intros e m''. apply Post_trans. by apply Post_tick.
Qed.

Lemma Q_idle_bind {A B} d p (c : JM A) (f : A → JM B) : idle c → (∀ a, Q d p (f a)) → Q d p (c ≫= f).
Proof. intros Hc Hf. apply Q_read with (λ _, True); auto. Qed.

(** The document and the policy in hand are the current ones. *)
Lemma Q_data {B} d p (f : data → JM B) : Q d p (f d) → Q d p (dataM ≫= f).
Proof. intros Hf. apply Q_read with (λ a, a = d); [|by intros ? ->]. intros m _ <- _. by apply reads_gets. Qed.
Lemma Q_policy {B} d p (f : Policy → JM B) : Q d p (f p) → Q d p (current_policy ≫= f).
Proof. intros Hf. apply Q_read with (λ a, a = p); [|by intros ? ->]. intros m _ _ <-. by apply reads_gets. Qed.
Lemma Q_get {B} d p (f : Manager → JM B) : (∀ m, INV m → m_data m = d → m_policy m = p → Q d p (f m)) → Q d p (get ≫= f).
Proof.
  intros Hf. apply Q_read with (λ m, INV m ∧ m_data m = d ∧ m_policy m = p); [|by intros ? (?&?&?); auto].
  intros m ???. by apply reads_gets.
Qed.
Lemma Q_find_job {B} d p id (f : Job → JM B) : (∀ j, d_Jobs d !! id = Some j → Q d p (f j)) → Q d p (find_job id ≫= f).
Proof.
  intros Hf. apply Q_read with (λ j, d_Jobs d !! id = Some j); [|done].
  intros m _ <- _. eapply reads_bind; [by apply (reads_gets m m_data (λ d, d = m_data m))|].
  intros ? m' _ ->. destruct (d_Jobs (m_data m) !! id); [by apply reads_ret|apply reads_throw].
Qed.

Lemma Q_bind {A B} d p (c : JM A) (f : A → JM B) : Q d p c → (∀ a, quietly (f a)) → Q d p (c ≫= f).
Proof.
  intros Hc Hf m Hi Hd Hp. apply wp_bind. eapply wp_mono; [| |apply (Hc m); auto]; cbn; [|done].
  intros a m' HP. eapply wp_mono; [| |by apply (Hf a (m_data m') (m_policy m') m' (proj1 HP))]; cbn; intros ? m''; by apply Post_trans.
Qed.

Lemma Q_attempt {A B} d p (c : JM A) (k : result jobs_err A → JM B) : Q d p c → (∀ r, quietly (k r)) → Q d p (attempt c k).
Proof.
  intros Hc Hk m Hi Hd Hp. apply wp_attempt. eapply wp_mono; [| |apply (Hc m); auto]; cbn.
  - intros a m' HP. eapply wp_mono; [| |by apply (Hk (Ok a) (m_data m') (m_policy m') m' (proj1 HP))]; cbn; intros ? m''; by apply Post_trans.
  - intros e m' HP. eapply wp_mono; [| |by apply (Hk (Err e) (m_data m') (m_policy m') m' (proj1 HP))]; cbn; intros ? m''; by apply Post_trans.
Qed.

(** Changes of what the invariant does not speak of. *)
Lemma Q_modify d p f : (∀ m, INV m → m_data m = d → m_policy m = p → Post m (f m)) → Q d p (modify f).
Proof. intros Hf m ???. apply wp_modify. auto. Qed.

(** ** Durable writes *)

Lemma idle_storeop : idle storeop.
Proof. apply idle_bind; [apply idle_jcall|]. intros [e|]; auto using idle_throw, idle_ret. Qed.

(** A batch that is written, with the memory it is for. *)
Lemma Q_batch d p (f : Store → Store) (g : Manager → Manager) d' p' :
  ok p p' d d' →
  (∀ m, m_data m = d → m_policy m = p → g m = set_m_data d' (set_m_policy p' m)) →
  (∀ st, st_state st = Some d → st_policy st = Some p → rows_ok (st_retry st) →
     st_state (f st) = Some d' ∧ st_policy (f st) = Some p' ∧ rows_ok (st_retry (f st)) ∧
     ∀ id j', d_Jobs d' !! id = Some j' → (j_TotalReposKnown j' = true ∨ j_State j' = Running) →
       st_inventory (f st) !! id = st_inventory st !! id) →
  ∀ B (k : JM B), Q d' p' k → Q d p (store_write f ;; (modify g ;; k)).
Proof.
  intros Hok Hg Hf B k Hk m Hi Hd Hp. apply wp_bind. apply wp_bind.
  eapply wp_mono; [| |apply idle_storeop]; [|by intros e m' ?; apply Post_still].
  intros [] m' [[t ->] _]. apply wp_modify. apply wp_bind. apply wp_modify. rewrite Hg by done.
  assert (HP : Post m (set_m_data d' (set_m_policy p' (set_m_store (f (m_store m)) (set_m_tick t m))))).
  { apply Post_trans with (set_m_tick t m); [by apply Post_tick|].
    pose proof (INV_tick t m Hi) as Hi'. destruct (Hf (m_store m)) as (?&?&?&?).
    - rewrite (i_state m Hi). by f_equal.
    - rewrite (i_policy m Hi). by f_equal.
    - apply Hi.
    - apply Post_write; try done. cbn. by rewrite Hd, Hp. }
  eapply wp_mono; [| |apply (Hk _ (proj1 HP)); reflexivity]; cbn; intros ? m''; by apply Post_trans.
Qed.

Lemma idle_now : idle now.
Proof. apply idle_jcall. Qed.
Lemma idle_ranged {A} (l : list A) : idle (ranged l).
Proof. apply idle_jcall. Qed.
Lemma idle_dataM : idle dataM.
Proof. apply idle_gets. Qed.
Lemma idle_current_policy : idle current_policy.
Proof. apply idle_gets. Qed.
Lemma idle_origin raw : idle (origin raw).
Proof. unfold origin. case_match; auto using idle_ret, idle_throw. Qed.
Lemma idle_check_ctx : idle check_ctx.
Proof. apply idle_bind; [apply idle_jcall|]. intros [e|]; auto using idle_throw, idle_ret. Qed.

Lemma Q_commit d p d' B (k : JM B) : ok p p d d' → Q d' p k → Q d p (commit d' ;; k).
Proof.
  intros Hok Hk. 
  assert (Heq : ∀ m, (commit d' ;; k) m = (store_write (set_st_state (Some d')) ;; (modify (set_m_data d') ;; k)) m).
  { intros m. unfold commit, save, mbind, StateM_bind. by destruct (store_write _ m) as [? []]. }
  intros m Hi Hd Hp. unfold wp. rewrite Heq. revert m Hi Hd Hp.
  eapply Q_batch; [exact Hok|..|done].
  - intros m _ <-. by destruct m.
  - intros st ???. by split_and!.
Qed.
Lemma Q_commit_end d p d' : ok p p d d' → Q d p (commit d').
Proof.
  intros Hok m Hi Hd Hp. pose proof (Q_commit d p d' unit (mret tt) Hok (Q_idle _ _ _ (idle_ret tt)) m Hi Hd Hp) as HQ.
  unfold wp, mbind, StateM_bind in HQ. unfold wp. by destruct (commit d' m) as [? [[]|]].
Qed.

(** Batches at the end of a computation. *)
Lemma Q_batch_end d p (f : Store → Store) d' : ok p p d d' →
  (∀ st, st_state (f st) = Some d' ∧ st_policy (f st) = st_policy st ∧ (rows_ok (st_retry st) → rows_ok (st_retry (f st))) ∧
     ∀ id j', d_Jobs d' !! id = Some j' → (j_TotalReposKnown j' = true ∨ j_State j' = Running) →
       st_inventory (f st) !! id = st_inventory st !! id) →
  Q d p (store_write f ;; modify (set_m_data d')).
Proof.
  intros Hok Hf m Hi Hd Hp.
  assert (HQ : Q d p (store_write f ;; (modify (set_m_data d') ;; mret tt))).
  { eapply Q_batch; [exact Hok|..|apply Q_idle, idle_ret].
    - intros m' _ <-. by destruct m'.
    - intros st Hs Hpol Hr. destruct (Hf st) as (? & ? & ? & ?). split_and!; auto. congruence. }
  specialize (HQ m Hi Hd Hp). unfold wp, mbind, StateM_bind in *. by destruct (store_write f m) as [? []].
Qed.

Lemma Q_store d p (f : Store → Store) :
  (∀ st, st_state (f st) = st_state st ∧ st_policy (f st) = st_policy st ∧ (rows_ok (st_retry st) → rows_ok (st_retry (f st))) ∧
     st_inventory (f st) = st_inventory st) → Q d p (store_write f).
Proof.
  intros Hf m Hi Hd Hp.
  assert (HQ : Q d p (store_write f ;; (modify id ;; mret tt))).
  { eapply Q_batch; [apply ok_refl|..|apply Q_idle, idle_ret].
    - intros m' <- <-. by destruct m'.
    - intros st Hs Hpol Hr. destruct (Hf st) as (? & ? & ? & Hin). split_and!; [congruence|congruence|auto|]. by rewrite Hin. }
  specialize (HQ m Hi Hd Hp). unfold wp, mbind, StateM_bind in *. by destruct (store_write f m) as [? [[]|]].
Qed.
End jobs_logic.

#[export] Hint Resolve idle_ret idle_throw idle_lift idle_gets idle_get idle_jcall idle_storeop idle_now idle_ranged
  idle_dataM idle_current_policy idle_origin idle_check_ctx : idle.

(** Show that a computation is idle, following its text. *)
Ltac idle_step :=
  match goal with
  | |- idle (_ ≫= _) => apply idle_bind; [|intros ?]
  | |- idle (attempt _ _) => apply idle_attempt; [|intros ?]
  | |- idle (match ?x with _ => _ end) => destruct x
  | |- idle (let _ := _ in _) => cbv zeta
  | |- _ => solve [auto with idle nocore]
  end.
Ltac idles := repeat idle_step.

(** Follow the text of a quiet computation up to its writes. *)
Ltac q_step :=
  match goal with
  | |- Q _ _ (dataM ≫= _) => apply Q_data
  | |- Q _ _ (current_policy ≫= _) => apply Q_policy
  | |- Q _ _ (find_job _ ≫= _) => apply Q_find_job; intros ? ?
  | |- Q _ _ (get ≫= _) => apply Q_get; intros ? ? ? ?
  | |- Q _ _ (match ?x with _ => _ end) => destruct x eqn:?
  | |- Q _ _ (_ ≫= _) => apply Q_idle_bind; [solve [idles]|intros ?]
  | |- Q _ _ _ => apply Q_idle; solve [idles]
  end.
Ltac q_steps := cbv beta zeta; repeat (q_step; cbv beta zeta).
(** Split the test in front of a quiet computation. *)
Ltac q_case := match goal with |- Q _ _ (match ?x with _ => _ end) => destruct x eqn:? end.
