(* ===== verification/JobsQuiet.v ===== *)
(** * Commands of the job manager are quiet

    Every command of an operator, every receipt goroutine and every retry row of
    the processor keeps the invariant and is quiet. *)

From S2P Require Import Prelude GoStrings StateMonad SourceURL JobsData Selection JobsRetry Jobs JobsPds JobsInv JobsLogic.
Local Open Scope Z_scope.

(** ** Reading *)

Section idle_parts.
Context `{JobServices} `{PdsServices}.

Lemma idle_Normalize l : idle (Normalize l).
Proof. unfold Normalize. idles. Qed.
Lemma idle_find_job id : idle (find_job id).
Proof. unfold find_job. idles. Qed.
Lemma idle_require_active id : idle (require_active id).
Proof. unfold require_active. idles. Qed.
Lemma idle_readInventory id : idle (readInventory id).
Proof. unfold readInventory. idles. Qed.
Lemma idle_readPDSCooldownLocked pds : idle (readPDSCooldownLocked pds).
Proof. unfold readPDSCooldownLocked. idles. Qed.
Lemma idle_decode_rows id rows : idle (decode_rows id rows).
Proof. induction rows; cbn; idles. unfold decode_row. idles. Qed.
Lemma idle_pending_rows j inv rows : idle (pending_rows j inv rows).
Proof. induction rows; cbn; idles. Qed.
Lemma idle_pendingRetryDeadline rows t : ∀ e, idle (pendingRetryDeadline rows t e).
Proof. induction rows; intros e; cbn; idles. Qed.
End idle_parts.

#[export] Hint Resolve idle_Normalize idle_find_job idle_require_active idle_readInventory idle_readPDSCooldownLocked
  idle_decode_rows idle_pending_rows idle_pendingRetryDeadline : idle.

Section idle_wholes.
Context `{JobServices} `{PdsServices}.

Lemma idle_all_rows id : idle (all_rows id).
Proof. unfold all_rows. idles. Qed.
Lemma idle_repositoryCoordinateLocked id did : idle (repositoryCoordinateLocked id did).
Proof. unfold repositoryCoordinateLocked. idles. Qed.
Lemma idle_repositoryRetryLocked j did l : idle (repositoryRetryLocked j did l).
Proof. unfold repositoryRetryLocked. idles. Qed.
Lemma idle_repositoryRetryDeleteKeysLocked id u : idle (repositoryRetryDeleteKeysLocked id u).
Proof. unfold repositoryRetryDeleteKeysLocked. idles. Qed.
Lemma idle_repositoryFailureCooldownLocked pds u : idle (repositoryFailureCooldownLocked pds u).
Proof. unfold repositoryFailureCooldownLocked. idles. Qed.
Lemma idle_beginAcquisition d j : idle (beginAcquisition d j).
Proof. unfold beginAcquisition. idles. Qed.
Lemma idle_advance_loop sources d rev : idle (advance_loop sources d rev).
Proof. induction sources; cbn; idles. Qed.
Lemma idle_gate_lock : idle gate_lock.
Proof. unfold gate_lock. idles. Qed.
Lemma idle_stagePolicy ap : idle (stagePolicy ap).
Proof. unfold stagePolicy. idles. Qed.
Lemma idle_lookupSnapshotRejection pds rev did l kind : idle (lookupSnapshotRejection pds rev did l kind).
Proof. unfold lookupSnapshotRejection. idles. Qed.
Lemma idle_Inventory id : idle (Inventory id).
Proof. unfold Inventory. idles. Qed.
Lemma idle_GetPDSCooldown raw : idle (GetPDSCooldown raw).
Proof. unfold GetPDSCooldown. idles. Qed.
End idle_wholes.

#[export] Hint Resolve idle_all_rows idle_repositoryCoordinateLocked idle_repositoryRetryLocked idle_repositoryRetryDeleteKeysLocked
  idle_repositoryFailureCooldownLocked idle_beginAcquisition idle_advance_loop idle_gate_lock idle_stagePolicy
  idle_lookupSnapshotRejection idle_Inventory idle_GetPDSCooldown : idle.

Section sources.
Context `{JobServices} `{PdsServices}.

Lemma idle_pendingJobDueLocked j t : idle (pendingJobDueLocked j t).
Proof. unfold pendingJobDueLocked. idles. Qed.
Lemma idle_nextWorkDeadline_loop jobs s t : ∀ e, idle (nextWorkDeadline_loop jobs s t e).
Proof. pose proof idle_pendingJobDueLocked. induction jobs; intros e; cbn; idles. Qed.
Lemma idle_nextWorkDeadlineLocked t : idle (nextWorkDeadlineLocked t).
Proof. pose proof idle_nextWorkDeadline_loop. unfold nextWorkDeadlineLocked. idles. Qed.
Lemma idle_GetRepositoryRetry id did : idle (GetRepositoryRetry id did).
Proof. unfold GetRepositoryRetry. idles. Qed.
Lemma idle_advanceRecoveryPolicy rev : idle (advanceRecoveryPolicy rev).
Proof. unfold advanceRecoveryPolicy. idles. Qed.

(** ** Documents *)

Lemma Q_doc {A} d p (c : JM A) : (life_ok d → (∀ id j, d_Jobs d !! id = Some j → j_ID j = id ∧ (policy_rev j = pol_Revision p → j_Policy j = p)) → Q d p c) → Q d p c.
Proof.
  intros Hc m Hi Hd Hp. apply Hc; auto; rewrite <-Hd.
  - apply Hi.
  - intros id j Hj. destruct (do_jobs _ _ _ _ (i_doc m Hi) id j Hj). rewrite Hp in *. auto.
Qed.

Lemma src_rev_set pds rev d pds' : src_rev (set_revision pds rev d) pds' = if decide (pds = pds') then rev else src_rev d pds'.
Proof. unfold src_rev. cbn. case_decide as Hd; [subst; by rewrite lookup_insert_eq|by rewrite lookup_insert_ne]. Qed.
Lemma src_on_enable pds on d pds' : src_on (enable pds on d) pds' = if decide (pds = pds') then on else src_on d pds'.
Proof. unfold src_on. cbn. case_decide as Hd; [subst; by rewrite lookup_insert_eq|by rewrite lookup_insert_ne]. Qed.
Lemma src_tomb_set pds rev d pds' : src_tomb (set_tombstone pds rev d) pds' = if decide (pds = pds') then rev else src_tomb d pds'.
Proof. unfold src_tomb. cbn. case_decide as Hd; [subst; by rewrite lookup_insert_eq|by rewrite lookup_insert_ne]. Qed.
Lemma src_tomb_drop pds d pds' : src_tomb (drop_tombstone pds d) pds' = if decide (pds = pds') then 0 else src_tomb d pds'.
Proof. unfold src_tomb. cbn. case_decide as Hd; [subst; by rewrite lookup_delete_eq|by rewrite lookup_delete_ne]. Qed.

Lemma ok_enable p d pds : src_tomb d pds = 0 → ok p p d (enable pds true d).
Proof.
  intros Ht. apply ok_same_jobs; auto; [|done]. intros Hl. split; [|exact (life_refl d)].
  intros pds'. rewrite src_on_enable. change (src_tomb (enable pds true d)) with (src_tomb d). change (src_rev (enable pds true d)) with (src_rev d).
  destruct (Hl pds'). case_decide; subst; auto.
Qed.

Lemma ok_set_revision p d pds rev : src_rev d pds ≤ rev → ok p p d (set_revision pds rev d).
Proof.
  intros Hr. apply ok_same_jobs; auto; [|intros pds'; rewrite src_rev_set; case_decide; subst; lia]. intros Hl.
  split; intros pds'; rewrite src_rev_set; change (src_tomb (set_revision pds rev d)) with (src_tomb d); destruct (Hl pds').
  - change (src_on (set_revision pds rev d)) with (src_on d). case_decide; subst; split; auto; lia.
  - case_decide; subst; lia.
Qed.

(** The source is on again, at a revision above its tombstone. *)
Lemma ok_admit p d pds : src_tomb d pds < src_rev d pds → ok p p d (drop_tombstone pds (enable pds true d)).
Proof.
  intros Ht. apply ok_same_jobs; auto; [|done]. intros Hl.
  split; intros pds'; rewrite src_tomb_drop; change (src_rev (drop_tombstone pds (enable pds true d))) with (src_rev d); change (src_tomb (enable pds true d)) with (src_tomb d); destruct (Hl pds').
  - change (src_on (drop_tombstone pds (enable pds true d))) with (src_on (enable pds true d)). rewrite src_on_enable.
    case_decide; subst; split; auto; lia.
  - case_decide; subst; lia.
Qed.

Definition removed (pds : string) (rev : Z) (d : data) : data :=
  let next := set_tombstone pds rev d in
  enable pds false (if src_rev next pds <? rev then set_revision pds rev next else next).
Lemma ok_removed p d pds rev : src_rev d pds ≤ rev → src_tomb d pds ≤ rev → ok p p d (removed pds rev d).
Proof.
  intros Hr Ht.
  assert (Htomb : ∀ pds', src_tomb (removed pds rev d) pds' = if decide (pds = pds') then rev else src_tomb d pds').
  { intros pds'. rewrite <-src_tomb_set. unfold removed. by destruct (_ <? _). }
  assert (Hrev : ∀ pds', src_rev (removed pds rev d) pds' = if decide (pds = pds') then rev else src_rev d pds').
  { intros pds'. unfold removed. change (src_rev (set_tombstone pds rev d)) with (src_rev d).
    destruct (Z.ltb_spec (src_rev d pds) rev).
    - change (src_rev (set_revision pds rev (set_tombstone pds rev d)) pds' = if decide (pds = pds') then rev else src_rev d pds').
      by rewrite src_rev_set.
    - change (src_rev d pds' = if decide (pds = pds') then rev else src_rev d pds'). case_decide; subst; lia. }
  assert (Hon : ∀ pds', src_on (removed pds rev d) pds' = if decide (pds = pds') then false else src_on d pds').
  { intros pds'. unfold removed. rewrite src_on_enable. by destruct (_ <? _). }
  apply ok_same_jobs.
  - unfold removed. by destruct (_ <? _).
  - intros Hl. split; intros pds'; rewrite Htomb, Hrev, ?Hon; destruct (Hl pds'), (Hl pds); case_decide; subst; split; try lia; try done.
  - intros k r. unfold removed. destruct (_ <? _); auto.
  - unfold removed. by destruct (_ <? _).
  - intros pds'. rewrite Hrev. case_decide; subst; lia.
Qed.
End sources.

#[export] Hint Resolve idle_pendingJobDueLocked idle_nextWorkDeadline_loop idle_nextWorkDeadlineLocked idle_GetRepositoryRetry
  idle_advanceRecoveryPolicy : idle.

Section commands.
Context `{JobServices} `{PdsServices}.

Lemma Post_memory m m' : INV m → m_data m' = m_data m → m_policy m' = m_policy m → m_store m' = m_store m →
  m_archive m' = m_archive m → m_up m' = m_up m → Forall (receipt_ok (m_archive m)) (m_inflight m') →
  Forall (receipt_ok (m_archive m)) (m_receipts m') → Post m m'.
Proof.
  intros [a b c d e f g] Hd Hp Hs Ha Hu Hin Hre. split; split; rewrite ?Hd, ?Hp, ?Hs, ?Ha; auto using quiet_refl, life_refl.
Qed.

Lemma quiet_cancel_running : quietly cancel_running.
Proof. intros d p. apply Q_modify. intros m Hi _ _. apply Post_memory; try done; apply Hi. Qed.

Lemma quiet_cancel_stale_running pds which : quietly (cancel_stale_running pds which).
Proof. intros d p. unfold cancel_stale_running. q_steps. apply quiet_cancel_running. Qed.

Lemma quiet_cancel code t j : quiet_job j (cancel_job code t j).
Proof. by split. Qed.

Lemma ok_cancel_where p d which code t : ok p p d (cancel_where which code t d).
Proof.
  apply ok_fmap; [by left|]. intros j. case_match; [|by auto using quiet_job_refl].
  split; [apply quiet_cancel|done].
Qed.

Lemma reads_beginAcquisition m d j : reads_at m (beginAcquisition d j) (λ j', ∃ g, j' = set_j_AcquisitionGeneration g j).
Proof. unfold beginAcquisition. case_match; [apply reads_throw|apply reads_ret; eauto]. Qed.

Lemma started_newJob pds p reason rev t g id :
  started id (set_j_AcquisitionGeneration g (set_j_ID id (newJob pds p reason rev t))).
Proof. by repeat split. Qed.

Lemma ok_legacy_enable p d pds rev : ok p p d (legacy_enable pds rev d).
Proof. unfold legacy_enable. case_match eqn:E; [|apply ok_refl]. apply ok_enable. bool_to_prop. lia. Qed.

Lemma legacy_enable_src pds rev d : src_rev (legacy_enable pds rev d) = src_rev d ∧ src_tomb (legacy_enable pds rev d) = src_tomb d.
Proof. unfold legacy_enable. by case_match. Qed.

(** The document an addition starts from. *)
Definition add_stage (pds : string) (rev : Z) (t : time) (d : data) : data :=
  let next := legacy_enable pds rev d in
  let advanced := (0 <? rev) && (src_rev next pds <? rev) in
  let next := if 0 <? rev then set_revision pds rev next else next in
  let next := if advanced then cancelStaleSourceJobs pds rev t next else next in
  legacy_enable pds rev next.
Lemma add_stage_ok p d pds rev t : (0 < rev → src_rev d pds ≤ rev) →
  ok p p d (add_stage pds rev t d) ∧ src_tomb (add_stage pds rev t d) pds = src_tomb d pds ∧
  (0 < rev → src_rev (add_stage pds rev t d) pds = rev).
Proof.
  intros Hr. unfold add_stage. set (n1 := legacy_enable pds rev d). destruct (legacy_enable_src pds rev d) as [Hr1 Ht1]. fold n1 in Hr1, Ht1.
  set (n2 := if 0 <? rev then set_revision pds rev n1 else n1).
  assert (H2 : ok p p n1 n2 ∧ src_tomb n2 = src_tomb n1 ∧ (0 < rev → src_rev n2 pds = rev)).
  { unfold n2. destruct (Z.ltb_spec 0 rev); [|by auto using ok_refl with lia].
    split; [apply ok_set_revision; rewrite Hr1; auto|]. split; [done|]. intros _. rewrite src_rev_set. by case_decide. }
  destruct H2 as (Hok2 & Ht2 & Hr2).
  set (n3 := if (_ : bool) then _ else n2).
  assert (H3 : ok p p n2 n3 ∧ src_tomb n3 = src_tomb n2 ∧ src_rev n3 = src_rev n2).
  { unfold n3. case_match; [|by auto using ok_refl]. split; [apply ok_cancel_where|done]. }
  destruct H3 as (Hok3 & Ht3 & Hr3). destruct (legacy_enable_src pds rev n3) as [Hr4 Ht4].
  split; [|split].
  - repeat (eapply ok_trans; [|apply ok_legacy_enable]). eapply ok_trans; [|exact Hok3]. eapply ok_trans; [|exact Hok2]. apply ok_legacy_enable.
  - congruence.
  - intros Hp. rewrite Hr4, Hr3. auto.
Qed.

Lemma quiet_AddSourceWithRevision raw rev : 0 ≤ rev → quietly (AddSourceWithRevision raw rev).
Proof.
  intros Hrev d p. unfold AddSourceWithRevision. apply Q_idle_bind; [idles|intros pds]. apply Q_data.
  destruct (_ || _) eqn:Hg; [by q_steps|]. apply Q_idle_bind; [idles|intros t].
  apply Q_doc. intros Hl _. destruct (Hl pds) as [Hl1 _].
  assert (Hr : 0 < rev → src_rev d pds ≤ rev ∧ src_tomb d pds < rev) by lia.
  destruct (add_stage_ok p d pds rev t) as (Hok & Htomb & Hsrc); [lia|].
  cbv zeta. let x := eval cbv beta zeta delta [add_stage] in (add_stage pds rev t d) in change x with (add_stage pds rev t d).
  set (n := add_stage pds rev t d) in *.
  apply Q_idle_bind; [idles|intros jobs]. destruct (if src_on n pds && _ && _ then _ else _); [by q_steps|].
  apply Q_policy. destruct (if src_on n pds then _ else _); [by q_steps|].
  set (n' := if src_tomb (enable pds true n) pds <? rev then _ else _).
  assert (Hok' : ok p p n n').
  { unfold n'. change (src_tomb (enable pds true n) pds) with (src_tomb n pds). destruct (Z.ltb_spec (src_tomb n pds) rev).
    - apply ok_admit. rewrite Hsrc by lia. done.
    - apply ok_enable. lia. }
  eapply Q_read; [intros m _ _ _; apply reads_beginAcquisition|]. intros ? [g ->].
  apply Q_commit.
  - eapply ok_trans; [exact Hok|]. eapply ok_trans; [exact Hok'|]. apply ok_start; [done..|].
    change (src_rev n pds ≤ src_rev n' pds). unfold n'. by destruct (src_tomb (enable pds true n) pds <? rev).
  - apply Q_bind; [|intros ?; intros ? ?; by q_steps]. case_match; [apply quiet_cancel_stale_running|by q_steps].
Qed.

Lemma quiet_RemoveSourceWithRevision raw rev : quietly (RemoveSourceWithRevision raw rev).
Proof.
  intros d p. unfold RemoveSourceWithRevision. apply Q_idle_bind; [idles|intros pds]. apply Q_data. cbv zeta.
  set (r := if rev =? 0 then _ else rev). destruct (_ || _) eqn:Hg; [by q_steps|]. apply Q_idle_bind; [idles|intros t].
  bool_to_prop. apply Q_commit; [|apply quiet_cancel_stale_running].
  eapply ok_trans; [|apply ok_cancel_where]. by apply ok_removed.
Qed.
End commands.

(** ** Policy *)

Section policy.
Context `{JobServices} `{PdsServices}.

Lemma ok_cancelPolicyJobs p p' t d : pol_Revision p < pol_Revision p' → ok p p' d (cancelPolicyJobs t d).
Proof.
  intros Hlt. apply ok_fmap; [by right|]. intros j. rewrite andb_true_r. destruct (unfinished j) eqn:Hu.
  - split; [apply quiet_cancel|done].
  - split; [apply quiet_job_refl|]. by rewrite Hu.
Qed.

Lemma reads_schedule_loop sources p t : ∀ m next, reads_at m (schedule_loop sources p t next) (λ next', ok p p next next').
Proof.
  induction sources as [|[pds []] sources IH]; intros m next; cbn -[mbind beginAcquisition].
  - apply reads_ret, ok_refl.
  - eapply reads_bind; [apply reads_beginAcquisition|]. cbv beta. intros ? m' _ [g ->].
    eapply reads_weaken; [apply IH|]. intros next' Hok. eapply ok_trans; [|exact Hok]. by apply ok_start; [..|cbn].
  - apply IH.
Qed.

(** A part of a batch that does not touch what the jobs keep. *)
Definition aside (f : batch) : Prop := ∀ st, st_state (f st) = st_state st ∧ st_policy (f st) = st_policy st ∧
  st_retry (f st) = st_retry st ∧ st_inventory (f st) = st_inventory st.

Lemma reads_stagePolicy m ap : reads_at m (stagePolicy ap) aside.
Proof.
  unfold stagePolicy. eapply reads_bind; [apply idle_storeop|]. intros _ m1 _ _.
  eapply reads_bind; [by apply (reads_gets m1 m_store (λ _, True))|]. intros st m2 _ _.
  destruct (_ !! _) as [prior|]; [|by apply reads_ret].
  case_match; [apply reads_throw|]. case_match; [by apply reads_ret|apply reads_throw].
Qed.

(** What a policy update leaves: nothing, or a batch with the policy and the jobs
    for it. *)
Definition updated (m : Manager) (pol : Policy) (nx : option data) (m' : Manager) : Prop :=
  match nx with
  | None => still m m'
  | Some d' => ∃ st' k, m' = set_m_policy pol (set_m_store st' (set_m_tick k m)) ∧ ok (m_policy m) pol (m_data m) d' ∧
      st_state st' = Some d' ∧ st_policy st' = Some pol ∧ st_retry st' = st_retry (m_store m) ∧ st_inventory st' = st_inventory (m_store m)
  end.

Lemma reads_stagePolicyJobs m m0 next candidate revision stage : (∀ c m, stage = Some c → reads_at m c aside) →
  pol_Revision (m_policy m0) < pol_Revision candidate → next = m_data m0 →
  reads_at m (stagePolicyJobs next candidate revision stage) (λ '(d', f),
    ok (m_policy m0) candidate (m_data m0) d' ∧ ∃ g, aside g ∧ f = λ st, set_st_state (Some d') (g st)).
Proof.
  intros Hs Hlt ->. unfold stagePolicyJobs. eapply (reads_bind _ _ _ aside).
  { destruct stage as [c|]; [|by apply reads_ret]. case_match; [apply reads_throw|auto]. }
  intros g m1 _ Hg. eapply reads_bind; [apply idle_now|]. intros t m2 _ _.
  eapply reads_bind.
  - unfold schedulePolicyJobs. eapply reads_bind; [apply idle_ranged|]. intros l m3 _ _. apply reads_schedule_loop.
  - cbv beta. intros d' m3 _ Hok. apply reads_ret. split; [|by exists g].
    eapply ok_trans; [by apply ok_cancelPolicyJobs|exact Hok].
Qed.

Lemma wp_selection_Update m expected collections stage :
  (∀ m', still m m' → reads_at m' (stage (mkPolicy (expected + 1) (Compact (sort_strings collections)))) (λ '(d', f),
    pol_Revision (m_policy m) < expected + 1 → ok (m_policy m) (mkPolicy (expected + 1) (Compact (sort_strings collections))) (m_data m) d' ∧
    ∃ g, aside g ∧ f = λ st, set_st_state (Some d') (g st))) →
  wp (selection_Update (A := data) expected collections stage) (λ '(pol, nx) m', updated m pol nx m') (λ _ m', still m m') m.
Proof.
  intros Hstage. unfold selection_Update. apply wp_bind. unfold Normalize.
  destruct (forallb _ _); [|apply still_refl]. apply wp_ret. apply wp_bind, wp_ret.
  set (cs := Compact (sort_strings collections)) in *.
  destruct (negb (expected =? pol_Revision (m_policy m))) eqn:He; [apply still_refl|]. bool_to_prop.
  case_match; [apply still_refl|]. case_match; [apply still_refl|]. cbv zeta.
  apply wp_bind. eapply wp_mono; [| |apply (Hstage m), still_refl]; [|done].
  intros [d' f] m1 [[k ->] Hok]. destruct (Hok ltac:(lia)) as (Hok' & g & Hg & ->).
  apply wp_bind. unfold store_write. apply wp_bind.
  eapply wp_mono; [| |apply idle_storeop]; [|intros e m' [k' ->]; by eexists].
  intros [] m2 [[k2 ->] _]. apply wp_modify. apply wp_bind, wp_modify, wp_ret.
  eexists _, k2. split; [reflexivity|]. split; [done|]. destruct (Hg (set_st_policy (Some (mkPolicy (expected + 1) cs)) (m_store m))) as (?&?&?&?).
  by split_and!.
Qed.

Lemma wp_update_policy m expected collections stage : (∀ c m, stage = Some c → reads_at m c aside) →
  wp (update_policy expected collections (m_data m) stage) (λ '(pol, nx) m', updated m pol nx m') (λ _ m', still m m') m.
Proof.
  intros Hs. apply wp_selection_Update. intros m' _.
  destruct (decide (pol_Revision (m_policy m) < expected + 1)) as [Hlt|Hge].
  - eapply reads_weaken; [by apply reads_stagePolicyJobs|]. intros [d' f] Hok _. exact Hok.
  - apply (reads_weaken _ _ (λ _, True)); [|intros [d' f] _ ?; lia].
    unfold stagePolicyJobs. eapply (reads_bind _ _ _ (λ _, True)).
    { destruct stage as [c|]; [|by apply reads_ret]. case_match; [apply reads_throw|]. by eapply reads_weaken; [apply (Hs c)|]. }
    intros g m1 _ _. eapply reads_bind; [apply idle_now|]. intros t m2 _ _. eapply reads_bind; [|by intros; apply reads_ret].
    unfold schedulePolicyJobs. eapply reads_bind; [apply idle_ranged|]. intros l m3 _ _.
    eapply reads_weaken; [apply reads_schedule_loop|done].
Qed.

Lemma wp_adopt_policy m expected collections boundary (b : bool) :
  wp (if b then WithPolicyCommit (mkAPolicy (expected + 1) collections boundary) (λ stage, update_policy expected collections (m_data m) (Some stage))
      else update_policy expected collections (m_data m) None)
    (λ '(pol, nx) m', updated m pol nx m') (λ _ m', ∃ pol nx, updated m pol nx m' ∧ nx = None) m.
Proof.
  assert (Herr : ∀ m', still m m' → ∃ pol nx, updated m pol nx m' ∧ nx = None) by (intros m' Hm; by exists (m_policy m), None).
  destruct b.
  - unfold WithPolicyCommit. cbv zeta. case_match; [apply Herr, still_refl|]. apply wp_bind.
    eapply wp_mono; [| |apply wp_update_policy].
    + intros [pol [d'|]] m' Hu; [by apply wp_ret|]. by apply Herr.
    + auto.
    + intros c m' [= <-]. apply reads_stagePolicy.
  - eapply wp_mono; [| |by apply wp_update_policy]; [by intros [pol nx]|auto].
Qed.

Lemma Post_updated m pol nx m' : INV m → updated m pol nx m' → Post m (set_m_data (default (m_data m) nx) m').
Proof.
  intros Hi Hu. destruct nx as [d'|]; cbn.
  - destruct Hu as (st' & k & -> & Hok & ? & ? & Hr & Hin). apply Post_trans with (set_m_tick k m); [by apply Post_tick|].
    apply Post_write; try done; [by apply INV_tick|by rewrite Hr; apply Hi|by rewrite Hin].
  - destruct Hu as [k ->]. replace (set_m_data _ _) with (set_m_tick k m) by by destruct m. by apply Post_tick.
Qed.

Lemma quiet_setPolicyLocked expected collections boundary b : quietly (setPolicyLocked expected collections boundary b).
Proof.
  intros d p. unfold setPolicyLocked. apply Q_idle_bind; [idles|intros cs]. apply Q_policy.
  case_match; [by q_steps|]. case_match; [by q_steps|]. case_match; [by q_steps|].
  apply Q_idle_bind; [idles|intros _]. apply Q_idle_bind; [idles|intros bound]. apply Q_data.
  intros m Hi <- Hp. apply wp_bind. eapply wp_mono; [| |apply wp_adopt_policy].
  - intros [pol nx] m' Hu. apply wp_bind, wp_modify. pose proof (Post_updated m pol nx m' Hi Hu) as HP.
    set (m'' := set_m_data _ m') in *.
    eassert (HQ : quietly _); [|eapply wp_mono; [| |by apply (HQ (m_data m'') (m_policy m'') m'' (proj1 HP))]].
    + intros d' p'. apply Q_get. intros m1 _ _ _. apply Q_bind; [|intros ? ? ?; by q_steps].
      case_match; [apply quiet_cancel_running|by q_steps].
    + intros ? ?. by apply Post_trans.
    + intros ? ?. by apply Post_trans.
  - intros e m' (pol & nx & Hu & ->). destruct Hu as [k ->]. by apply Post_tick.
Qed.

Lemma quiet_SetPolicy expected collections : quietly (SetPolicy expected collections).
Proof.
  intros d p. unfold SetPolicy. do 3 (apply Q_idle_bind; [idles|intros ?]).
  case_match; [|case_match; [by q_steps|apply quiet_setPolicyLocked]].
  unfold gate_Adopt. q_steps; apply quiet_setPolicyLocked.
Qed.
End policy.

(** ** Requests and transitions *)

Section requests.
Context `{JobServices} `{PdsServices}.

Lemma reads_requestJob m next jobs pds reason p rev t : rev ≤ src_rev next pds →
  reads_at m (requestJob next jobs pds reason p rev t) (λ '(_, next'), ok p p next next').
Proof.
  intros Hrev. unfold requestJob. destruct (find_in _ _); [apply reads_ret, ok_refl|]. cbv zeta.
  destruct (_ !! _) as [existing|].
  - case_match; [apply reads_ret, ok_refl|]. eapply reads_bind; [apply reads_beginAcquisition|]. cbv beta.
    intros ? m' _ [g ->]. apply reads_ret. by apply ok_start.
  - eapply reads_bind; [apply reads_beginAcquisition|]. cbv beta.
    intros ? m' _ [g ->]. apply reads_ret. by apply ok_start.
Qed.

Lemma quiet_remember d p next job requestID : ok p p d next → Q d p (rememberRequest next job requestID).
Proof.
  intros Hok. unfold rememberRequest. cbv zeta. apply Q_commit; [|by q_steps].
  eapply ok_trans; [exact Hok|]. case_match; [apply ok_refl|]. apply ok_same_jobs; auto; [exact (ok_life_same next)|done].
Qed.

Lemma quiet_RequestOnceWithSourceRevision raw reason requestID rev : quietly (RequestOnceWithSourceRevision raw reason requestID rev).
Proof.
  intros d p. unfold RequestOnceWithSourceRevision. case_match; [by q_steps|]. apply Q_idle_bind; [idles|intros pds]. apply Q_data.
  destruct (_ && _) eqn:Hg; [by q_steps|]. cbv zeta. do 4 (q_case; [by q_steps|]). apply Q_idle_bind; [idles|intros t].
  match goal with |- context [job_list ?x] => set (next := x) end. apply Q_policy. apply Q_idle_bind; [idles|intros jobs].
  assert (Hok : ok p p d next).
  { unfold next. destruct (Z.eqb_spec rev 0).
    - case_match eqn:Hlt; [|apply ok_refl]. apply ok_set_revision. bool_to_prop. lia.
    - assert (Hok : ok p p d (if 0 <? rev then set_revision pds rev d else d)).
      { destruct (Z.ltb_spec 0 rev); [|apply ok_refl]. apply ok_set_revision. lia. }
      destruct (src_rev d pds <? rev); [|done]. eapply ok_trans; [exact Hok|apply ok_cancel_where]. }
  eapply Q_read; [intros m _ _ _; by apply reads_requestJob|]. intros [job next'] Hok'.
  apply Q_bind; [apply quiet_remember; by eapply ok_trans|]. intros job' d' p'.
  apply Q_bind; [|intros ? ? ?; by q_steps]. q_case; [apply quiet_cancel_stale_running|by q_steps].
Qed.

Lemma rows_ok_delete keys st : rows_ok (st_retry st) → rows_ok (st_retry (delete_rows keys st)).
Proof.
  cbn. intros Hr. induction keys as [|k keys IH]; cbn; [done|]. intros k' r Hl.
  apply lookup_delete_Some in Hl as [_ Hl]. auto.
Qed.

(** The job after a transition, and the batch it is written with. *)
Lemma quiet_commitTransitionRetryState d p next id ri ru : ok p p d next →
  (ri = true → ∀ j, d_Jobs next !! id = Some j → j_TotalReposKnown j = false ∧ j_State j ≠ Running) →
  Q d p (commitTransitionRetryState next id ri ru).
Proof.
  intros Hok Hri. unfold commitTransitionRetryState. destruct ri; [|destruct ru; [|by apply Q_commit_end]].
  - apply Q_idle_bind; [idles|intros deletes]. apply Q_batch_end; [done|]. intros st.
    split_and!; try done; [intros ?; by apply rows_ok_delete|]. intros id' j' Hj' Hc. cbn.
    destruct (decide (id' = id)) as [->|]; [|by rewrite lookup_insert_ne].
    destruct (Hri eq_refl j' Hj'). destruct Hc; congruence.
  - apply Q_idle_bind; [idles|intros deletes]. apply Q_batch_end; [done|]. intros st.
    split_and!; try done. intros ?. by apply rows_ok_delete.
Qed.

Lemma quiet_commitTransition d p j state requestID : d_Jobs d !! j_ID j = Some j → (state = Pending ∨ state = Canceled) →
  (state = Pending → policy_rev j = pol_Revision p) → Q d p (commitTransition j state requestID).
Proof.
  intros Hj Hstate Hpol. unfold commitTransition. apply Q_data. cbv zeta.
  set (next := if String.eqb requestID "" then d else _).
  assert (Hok : ok p p d next ∧ d_Jobs next = d_Jobs d).
  { unfold next. case_match; [by split; [apply ok_refl|]|]. split; [|done]. apply ok_same_jobs; auto; [exact (ok_life_same d)|done]. }
  destruct Hok as [Hok Hjobs]. q_case; [by apply Q_commit_end|].
  apply (Q_read _ _ (λ j', ∃ g, j' = set_j_AcquisitionGeneration g j)).
  { intros m _ _ _. case_match; [apply reads_beginAcquisition|]. apply reads_ret. exists (j_AcquisitionGeneration j). by destruct j. }
  intros ? [g ->]. apply Q_idle_bind; [idles|intros t].
  match goal with |- Q _ _ (commitTransitionRetryState (put_job _ ?x _) _ _ _ ;; _) => set (j' := x) end.
  assert (Hs : j_State j' = state).
  { unfold j'. case_match; by case_match. }
  apply Q_bind.
  - assert (Hid : j_ID j' = j_ID j) by (unfold j'; case_match; by case_match).
    rewrite Hid. apply quiet_commitTransitionRetryState.
    + eapply ok_trans; [exact Hok|]. apply (ok_put p next (j_ID j) j); [by rewrite Hjobs| |].
      * split; try (unfold j'; case_match; by case_match); rewrite Hs; destruct Hstate; congruence.
      * intros Hu. right. apply Hpol. destruct Hstate as [|Hst]; [done|]. unfold unfinished in Hu. rewrite Hs, Hst in Hu. done.
    + intros Hri j2 Hl. cbn in Hl. rewrite lookup_insert_eq in Hl. injection Hl as <-.
      split; [|rewrite Hs; destruct Hstate; congruence]. unfold j'. rewrite Hri. by case_match.
  - intros [] d' p'. apply Q_idle_bind; [idles|intros running]. case_match; [apply quiet_cancel_running|by q_steps].
Qed.

Lemma quiet_TransitionOnce id state requestID : quietly (TransitionOnce id state requestID).
Proof.
  intros d p. unfold TransitionOnce. q_case; [by q_steps|]. apply Q_doc. intros _ Hdoc.
  apply Q_get. intros m _ Hd Hp. q_case; [by q_steps|]. apply Q_find_job. intros j Hj. q_case; [by q_steps|].
  destruct (Hdoc id j Hj) as [Hid _]. apply orb_false_iff in Heqb as [_ Hst]. apply negb_false_iff, orb_true_iff in Hst.
  apply negb_false_iff in Heqb0. apply quiet_commitTransition; [by rewrite Hid| |].
  - destruct Hst as [Hst|Hst]; apply bool_decide_eq_true in Hst; auto.
  - intros ->. unfold canTransition in Heqb0. rewrite bool_decide_true in Heqb0 by done.
    bool_to_prop. by rewrite Hp in *.
Qed.

Lemma quiet_ResetUnresolvedRepositoryRetries id : quietly (ResetUnresolvedRepositoryRetries id).
Proof.
  intros d p. unfold ResetUnresolvedRepositoryRetries. apply Q_idle_bind; [idles|intros j]. apply Q_get. intros m _ _ _.
  q_case; [by q_steps|]. apply Q_idle_bind; [idles|intros deletes]. q_case; [by q_steps|].
  apply Q_bind; [|intros ? ? ?; by q_steps]. unfold commitRepositoryRetryBatch.
  apply Q_bind; [|intros ? ? ?; by q_steps]. apply Q_store. intros st. split_and!; try done. intros ?. by apply rows_ok_delete.
Qed.
End requests.

(** * Receipts, retry rows, and what runs between the processor's calls

    The receipt goroutines and the rows of the processor are quiet, and so is
    every schedule of commands. *)

Section receipts.
Context `{JobServices} `{PdsServices}.

Definition wpQ {A} (m : Manager) (c : JM A) : Prop := wp c (λ _ m', Post m m') (λ _ m', Post m m') m.

Lemma wpQ_quietly {A} m (c : JM A) : INV m → quietly c → wpQ m c.
Proof. intros Hi Hc. by apply (Hc (m_data m) (m_policy m)). Qed.

Lemma wpQ_bind {A B} m (c : JM A) (f : A → JM B) : wpQ m c → (∀ a, quietly (f a)) → wpQ m (c ≫= f).
Proof.
  intros Hc Hf. apply wp_bind. eapply wp_mono; [| |exact Hc]; [|done].
  intros a m' HP. eapply wp_mono; [| |apply (wpQ_quietly m' (f a)); [apply HP|done]]; intros ? m''; by apply Post_trans.
Qed.

Lemma wpQ_attempt {A B} m (c : JM A) (k : result jobs_err A → JM B) : wpQ m c → (∀ r, quietly (k r)) → wpQ m (attempt c k).
Proof.
  intros Hc Hk. apply wp_attempt. eapply wp_mono; [| |exact Hc].
  - intros a m' HP. eapply wp_mono; [| |apply (wpQ_quietly m' (k (Ok a))); [apply HP|done]]; intros ? m''; by apply Post_trans.
  - intros e m' HP. eapply wp_mono; [| |apply (wpQ_quietly m' (k (Err e))); [apply HP|done]]; intros ? m''; by apply Post_trans.
Qed.

(** ** Receipts *)

Lemma owed_by_Some job d current : owed_by job d = Some current → d_Jobs d !! j_ID job = Some current.
Proof. unfold owed_by. intros (j & Hj & Hc)%bind_Some. case_match; [|done]. by simplify_eq. Qed.

Lemma quiet_recordReceiptSuccess job : quietly (recordReceiptSuccess job).
Proof.
  intros d p. unfold recordReceiptSuccess. apply Q_get. intros m _ Hd _. apply Q_idle_bind; [idles|intros e].
  destruct e; [by q_steps|]. destruct (owed_by _ _) as [current|] eqn:Ho; [|by q_steps].
  rewrite Hd. rewrite Hd in Ho. apply Q_commit_end. eapply ok_put; [by apply owed_by_Some|by split|]. by left.
Qed.

Lemma quiet_recordReceiptFailure job e : quietly (recordReceiptFailure job e).
Proof.
  intros d p. unfold recordReceiptFailure. apply Q_get. intros m _ Hd _.
  destruct (owed_by _ _) as [current|] eqn:Ho; [|by q_steps]. apply Q_idle_bind; [idles|intros t].
  rewrite Hd in *. apply Q_commit_end. eapply ok_put; [by apply owed_by_Some| |].
  - cbv zeta. destruct (root_cause e); by split.
  - cbv zeta. left. revert H1. by destruct (root_cause e).
Qed.

Lemma wpQ_send_receipt m job : INV m → receipt_ok (m_archive m) job → wpQ m (send_receipt job).
Proof.
  intros Hi Hr. unfold send_receipt. case_match; [by apply Post_refl|].
  apply wpQ_bind; [|intros [] d p; by q_steps]. apply wp_modify. apply Post_memory; try done; [apply Hi|].
  apply Forall_app. split; [apply Hi|by constructor].
Qed.

Lemma quiet_release id : quietly (modify (λ m, set_m_receiptRunning (m_receiptRunning m ∖ {[id]}) m)).
Proof. intros d p. apply Q_modify. intros m Hi _ _. apply Post_memory; try done; apply Hi. Qed.

Lemma wpQ_deliverReceipt m job : INV m → receipt_ok (m_archive m) job → wpQ m (deliverReceipt job).
Proof.
  intros Hi Hr. apply wpQ_attempt; [|intros; apply quiet_release].
  apply wpQ_bind; [by apply wpQ_send_receipt|]. intros e d p. apply Q_idle_bind; [idles|intros c].
  destruct c; [by q_steps|]. destruct e.
  - apply Q_attempt; [apply quiet_recordReceiptFailure|]. intros ? ? ?. by q_steps.
  - apply Q_idle_bind; [idles|intros _]. apply Q_attempt; [apply quiet_recordReceiptSuccess|]. intros ? ? ?. by q_steps.
Qed.

Lemma quiet_deliver n : quietly (exec_op (OpDeliver n)).
Proof.
  intros d p m Hi _ _. apply wp_bind, wp_ret.
  destruct (m_inflight m !! n) as [job|] eqn:Hn; [|by apply Post_refl].
  apply wp_bind, wp_modify. set (m1 := set_m_inflight _ m).
  assert (HP : Post m m1).
  { apply Post_memory; try done; [|apply Hi]. apply Forall_delete, Hi. }
  eapply wp_mono; [| |apply (wpQ_deliverReceipt m1 job); [apply HP|]].
  - intros ? ?. by apply Post_trans.
  - intros ? ?. by apply Post_trans.
  - change (m_archive m1) with (m_archive m). eapply Forall_lookup_1; [apply (i_inflight m Hi)|done].
Qed.

Lemma reads_ranged {A} m (l : list A) : reads_at m (ranged l) (λ l', l' ≡ₚ l).
Proof. apply reads_jcall, range_order_perm. Qed.

Lemma elem_of_job_list d j : j ∈ job_list d ↔ ∃ id, d_Jobs d !! id = Some j.
Proof.
  unfold job_list. rewrite list_elem_of_fmap. split.
  - intros ([id j'] & -> & Hl%elem_of_map_to_list). eauto.
  - intros [id Hj%elem_of_map_to_list]. by exists (id, j).
Qed.

Lemma ok_superseded p d (stale : Job → bool) : (∀ j, stale j = true → receipt_owed j = true) →
  ok p p d (set_d_Jobs ((λ j, if stale j then superseded_receipt j else j) <$> d_Jobs d) d).
Proof.
  intros Hs. apply ok_fmap; [by left|]. intros j. destruct (stale j) eqn:Hj; [|by auto using quiet_job_refl].
  split; [by split|auto].
Qed.

Lemma wp_collectReceipts m : INV m →
  wp collectReceipts (λ a m', Post m m' ∧ Forall (receipt_ok (m_archive m)) a) (λ _ m', Post m m') m.
Proof.
  intros Hi. unfold collectReceipts. apply wp_bind, wp_ret. case_match; [by split; [apply Post_refl|]|].
  apply wp_bind. eapply wp_mono; [| |apply idle_now]; [|intros e m' ?; by apply Post_still].
  intros t m1 [Hs _]. apply wp_get_bind. cbv zeta. apply wp_bind.
  eapply wp_mono; [| |apply reads_ranged]; [|intros e m' ?; apply Post_still; [done|by apply still_trans with m1]].
  intros jobs m2 [Hs2 Hjobs]. set (pending := List.filter _ jobs).
  assert (Hm2 : Post m m2) by (apply Post_still; [done|by apply still_trans with m1]).
  assert (Hp : Forall (receipt_ok (m_archive m)) pending).
  { apply Forall_forall. intros j Hj. apply list_elem_of_In, filter_In in Hj as [Hj Hdue].
    apply list_elem_of_In in Hj. rewrite Hjobs in Hj. apply elem_of_job_list in Hj as [id Hj]. destruct Hs as [k ->].
    bool_to_prop. eapply job_ok_receipt; [by apply (do_jobs _ _ _ _ (i_doc m Hi) id)|].
    unfold receipt_owed in *. by bool_to_prop. }
  apply wp_bind, wp_modify. match goal with |- wp _ _ _ ?x => set (m3 := x) end.
  assert (Hm3 : Post m m3).
  { apply Post_trans with m2; [done|]. apply Post_memory; try done; apply Hm2. }
  apply wp_bind. eassert (HQ : Q (m_data m3) (m_policy m3) _); [|eapply wp_mono; [| |apply (HQ m3); [apply Hm3|done|done]]].
  - destruct Hs2 as [k ->]. destruct (existsb _ jobs); [|by apply Q_idle, idle_ret].
    apply Q_commit_end, ok_superseded. intros j Hj. by bool_to_prop.
  - intros [] m4 HP. split; [by apply Post_trans with m3|done].
  - intros e m4 HP. by apply Post_trans with m3.
Qed.

Lemma quiet_flushReceipts : quietly flushReceipts.
Proof.
  intros d p m Hi _ _. apply wp_bind. eapply wp_mono; [| |by apply wp_collectReceipts]; [|done].
  intros pending m' [HP Hr]. apply wp_modify. apply Post_trans with m'; [done|].
  pose proof (f_archive _ _ (proj2 HP)) as Ha. apply Post_memory; try done; try apply HP.
  apply Forall_app. split; [apply HP|]. by rewrite Ha.
Qed.

(** ** The schedule *)

Lemma quiet_exec_op o : quietly (exec_op o).
Proof.
  destruct o; try (intros d p; cbn -[mbind]; apply Q_bind; [|intros ? ? ?; by q_steps]).
  - apply quiet_AddSourceWithRevision, uint64_range.
  - apply quiet_RemoveSourceWithRevision.
  - apply quiet_SetPolicy.
  - apply quiet_RequestOnceWithSourceRevision.
  - apply quiet_TransitionOnce.
  - apply quiet_ResetUnresolvedRepositoryRetries.
  - apply quiet_deliver.
Qed.

Lemma quiet_exec_ops os : quietly (exec_ops os).
Proof.
  induction os as [|o os IH]; intros d p; cbn; [by apply Q_idle, idle_ret|].
  apply Q_attempt; [apply quiet_exec_op|auto].
Qed.

Lemma quiet_interleave : quietly interleave.
Proof. intros d p. apply Q_idle_bind; [idles|intros os]. apply quiet_exec_ops. Qed.

(** A schedule never fails. *)
Lemma exec_ops_Ok os m : ∃ m', exec_ops os m = (m', Ok tt).
Proof. revert m. induction os as [|o os IH]; intros m; cbn; [eauto|]. unfold attempt. destruct (exec_op o m) as [m1 r]. apply IH. Qed.

Lemma quiet_sync {A} (c : JM A) : quietly c → quietly (sync c).
Proof. intros Hc d p. apply Q_bind; [apply quiet_interleave|]. intros _. apply Hc. Qed.

(** ** Rows *)

Lemma quiet_recordJobFailure id f : quietly (recordJobFailure id f).
Proof.
  intros d p. unfold recordJobFailure. q_case; [by q_steps|]. apply Q_find_job. intros j Hj. apply Q_data.
  apply Q_commit_end. eapply ok_put; [done|by split|by left].
Qed.

Lemma trim_loop_subseteq fuel : ∀ m, trim_loop fuel m ⊆ m.
Proof.
  induction fuel as [|fuel IH]; intros m; cbn; [done|]. case_match; [|done].
  destruct (oldestSnapshotRejectionKey _) as [[key r]|]; [|done].
  etrans; [apply IH|apply delete_subseteq].
Qed.

Lemma quiet_recordSnapshotRejection pds rev did l kind code : quietly (recordSnapshotRejection pds rev did l kind code).
Proof.
  intros d p. unfold recordSnapshotRejection. apply Q_idle_bind; [idles|intros t]. cbv zeta. q_case; [by q_steps|].
  apply Q_data. q_case; [by q_steps|]. apply Q_commit; [|by q_steps].
  apply ok_same_jobs; [done|exact (ok_life_same d)| |done|done]. cbn. intros k r Hr.
  eapply lookup_weaken in Hr; [|apply trim_loop_subseteq]. apply lookup_insert_Some in Hr as [[_ <-]|[_ Hr]]; [right|by left].
  cbn. intros ->. unfold validSnapshotRejection in Heqb. cbn in Heqb. by rewrite !andb_false_r, ?andb_false_l in Heqb.
Qed.

(** The row of a repository, or what stands for it. *)
Definition row_of (job : Job) (did : string) (r : RepositoryRetry) : Prop :=
  0 ≤ rt_Attempts r ≤ maxRepositoryAttempts ∧ (rt_State r = RetryInFlight → 1 ≤ rt_Attempts r) ∧
  (rt_State r ≠ RetryComplete → j_CompletedRepos job !! did = None).

Lemma normalizeRepositoryRetry_Attempts r : rt_Attempts (normalizeRepositoryRetry r) = rt_Attempts r.
Proof. unfold normalizeRepositoryRetry. case_match; [|done]. by case_match. Qed.

Lemma row_of_base job did listed s : s ≠ RetryInFlight → (s ≠ RetryComplete → j_CompletedRepos job !! did = None) →
  row_of job did (mkRetry (j_ID job) did listed s 0 0 None None).
Proof. intros Hs Hc. split; [cbn; unfold maxRepositoryAttempts; lia|]. by split. Qed.

Lemma reads_repositoryRetryLocked m job did listed : rows_ok (st_retry (m_store m)) →
  reads_at m (repositoryRetryLocked job did listed) (row_of job did).
Proof.
  intros Hrows. unfold repositoryRetryLocked. cbv zeta.
  case_bool_decide as Hc; [by apply reads_ret, row_of_base|]. rewrite <-eq_None_not_Some in Hc.
  eapply reads_bind; [apply idle_storeop|]. intros _ m1 [k ->] _.
  eapply reads_bind; [by apply (reads_gets _ m_store (λ st, st_retry st = st_retry (m_store m)))|].
  intros st m2 _ Hst. cbv beta in Hst. destruct (st_retry st !! _) as [r|] eqn:Hr; [|by apply reads_ret, row_of_base].
  rewrite Hst in Hr. destruct (Hrows _ _ Hr) as [_ Ha]. unfold maxRepositoryAttempts in Ha.
  case_match; [apply reads_throw|]. case_match; [apply reads_throw|]. apply reads_ret.
  unfold row_of. rewrite normalizeRepositoryRetry_Attempts. unfold maxRepositoryAttempts. split_and!; auto; lia.
Qed.

Lemma Q_put_row d p r cooldown : 1 ≤ rt_Attempts r ≤ maxRepositoryAttempts → Q d p (commitRepositoryRetryBatch None (Some r) [] cooldown).
Proof.
  intros Ha. unfold commitRepositoryRetryBatch. apply Q_bind; [|intros ? ? ?; by q_steps]. apply Q_store.
  intros st. cbv zeta. cbn [delete_rows foldr]. destruct cooldown as [[pds until]|]; split_and!; try done; cbn;
    intros Hrows k r' Hl; apply lookup_insert_Some in Hl as [[<- <-]|[_ Hl]]; auto.
Qed.

Lemma Q_row {B} d p job did listed (f : RepositoryRetry → JM B) :
  (∀ r, row_of job did r → Q d p (f r)) → Q d p (repositoryRetryLocked job did listed ≫= f).
Proof. intros Hf. eapply Q_read; [|exact Hf]. intros m Hi _ _. apply reads_repositoryRetryLocked, Hi. Qed.

Lemma quiet_BeginRepositoryAttempt id did : quietly (BeginRepositoryAttempt id did).
Proof.
  intros d p. unfold BeginRepositoryAttempt. apply Q_idle_bind; [idles|intros [job listed]].
  apply Q_idle_bind; [idles|intros _]. apply Q_row. intros r (Ha & _). do 2 (q_case; [by q_steps|]).
  apply Q_idle_bind; [idles|intros t1]. q_case; [by q_steps|]. do 2 (apply Q_idle_bind; [idles|intros ?]).
  q_case; [by q_steps|]. cbv zeta. apply Q_bind; [|intros ? ? ?; by q_steps]. apply Q_put_row. bool_to_prop. cbn. lia.
Qed.

Lemma quiet_RecordRepositoryFailure id did f r c : quietly (RecordRepositoryFailure id did f r c).
Proof.
  intros d p. unfold RecordRepositoryFailure. cbv zeta. q_case; [by q_steps|]. apply Q_idle_bind; [idles|intros [job listed]].
  apply Q_idle_bind; [idles|intros _]. apply Q_row. intros row (Ha & Hin & _). q_case; [by q_steps|].
  do 2 (apply Q_idle_bind; [idles|intros ?]). apply Q_bind; [|intros ? ? ?; by q_steps]. apply Q_put_row.
  bool_to_prop. cbn. specialize (Hin ltac:(done)). lia.
Qed.

Lemma quiet_RecordPDSCooldown id until : quietly (RecordPDSCooldown id until).
Proof.
  intros d p. unfold RecordPDSCooldown. apply Q_idle_bind; [idles|intros t]. q_case; [by q_steps|].
  do 2 (apply Q_idle_bind; [idles|intros ?]). q_case; [by q_steps|]. apply Q_idle_bind; [idles|intros existing].
  q_case; [by q_steps|]. unfold commitRepositoryRetryBatch. apply Q_bind; [|intros ? ? ?; by q_steps]. apply Q_store. by intros st.
Qed.
End receipts.
