(* ===== verification/JobsRun.v ===== *)
(** * The processor and the runner keep the invariant

    [run S c P E]: from a state with the invariant and [S], [c] keeps the
    invariant, lets the archive grow as [grows] says, and ends in [P], or fails in
    [E].  While a job runs its source, policy and listing are those the processor
    read, whatever is scheduled in between ([mine], [frozen]); a run without error
    has completed every listed repository ([covered]). *)

From S2P Require Import Prelude GoStrings StateMonad SourceURL JobsData Selection JobsRetry Jobs JobsPds JobsInv JobsLogic JobsQuiet.
Local Open Scope Z_scope.

Create HintDb stable discriminated.

Section run_logic.
Context `{JobServices} `{PdsServices}.

Definition run {A} (S : Manager → Prop) (c : JM A) (P : A → Manager → Prop) (E : jobs_err → Manager → Prop) : Prop :=
  ∀ m, INV m → S m → wp c (λ a m', INV m' ∧ grows m m' ∧ P a m') (λ e m', INV m' ∧ grows m m' ∧ E e m') m.

(** Properties that quiet changes keep. *)
Definition stable (S : Manager → Prop) : Prop := ∀ m m', S m → INV m → Post m m' → S m'.

Lemma run_bind {A B} (S : Manager → Prop) (c : JM A) (f : A → JM B) P P' E :
  run S c P E → (∀ a, run (P a) (f a) P' E) → run S (c ≫= f) P' E.
Proof.
  intros Hc Hf m Hi Hs. apply wp_bind. eapply wp_mono; [| |by apply Hc]; [|done].
  intros a m' (Hi' & Hg & HP). eapply wp_mono; [| |by apply Hf]; intros ? m'' (?&?&?); eauto using grows_trans.
Qed.

Lemma run_attempt {A B} (S : Manager → Prop) (c : JM A) (k : result jobs_err A → JM B) P P' E E' :
  run S c P E → (∀ a, run (P a) (k (Ok a)) P' E') → (∀ e, run (E e) (k (Err e)) P' E') → run S (attempt c k) P' E'.
Proof.
  intros Hc Hf He m Hi Hs. apply wp_attempt. eapply wp_mono; [| |by apply Hc].
  - intros a m' (Hi' & Hg & HP). eapply wp_mono; [| |by apply Hf]; intros ? m'' (?&?&?); eauto using grows_trans.
  - intros e m' (Hi' & Hg & HP). eapply wp_mono; [| |by apply He]; intros ? m'' (?&?&?); eauto using grows_trans.
Qed.

Lemma run_catch {A} (S : Manager → Prop) (c : JM A) (h : jobs_err → JM A) P E E' :
  run S c P E → (∀ e, run (E e) (h e) P E') → run S (catch c h) P E'.
Proof.
  intros Hc He m Hi Hs. apply wp_catch. eapply wp_mono; [| |by apply Hc]; [done|].
  intros e m' (Hi' & Hg & HP). eapply wp_mono; [| |by apply He]; intros ? m'' (?&?&?); eauto using grows_trans.
Qed.

Lemma run_weaken {A} (S S' : Manager → Prop) (c : JM A) P P' E E' : run S c P E →
  (∀ m, S' m → S m) → (∀ a m, P a m → P' a m) → (∀ e m, E e m → E' e m) → run S' c P' E'.
Proof. intros Hc Hs HP He m Hi Hm. eapply wp_mono; [| |by apply Hc; auto]; intros ? m' (?&?&?); auto. Qed.

Lemma run_ret {A} (S : Manager → Prop) (a : A) (P : A → Manager → Prop) E : (∀ m, S m → P a m) → run S (mret a) P E.
Proof. intros HP m Hi Hs. apply wp_ret. auto using grows_refl. Qed.

Lemma run_throw {A} (S : Manager → Prop) e P (E : jobs_err → Manager → Prop) : (∀ m, S m → E e m) → run S (throw e : JM A) P E.
Proof. intros HP m Hi Hs. apply wp_throw. auto using grows_refl. Qed.

(** Facts that do not depend on the state. *)
Lemma run_fact {A} (S : Manager → Prop) (F : Prop) (c : JM A) P E : (F → run S c P E) → run (λ m, S m ∧ F) c P E.
Proof. intros Hc m Hi [Hs HF]. by apply Hc. Qed.

Lemma run_exists {A X} (S : X → Manager → Prop) (c : JM A) P E : (∀ x, run (S x) c P E) → run (λ m, ∃ x, S x m) c P E.
Proof. intros Hc m Hi [x Hs]. by apply (Hc x). Qed.

Lemma run_quiet {A} (S : Manager → Prop) (c : JM A) : stable S → quietly c → run S c (λ _, S) (λ _, S).
Proof.
  intros Hst Hq m Hi Hs. eapply wp_mono; [| |by apply (wpQ_quietly m c)]; intros ? m' HP; (split; [apply HP|]);
    (split; [apply frame_grows, HP|]); by apply (Hst m m').
Qed.

(** A quiet computation with what its result says. *)
Lemma run_quiet_val {A} (S : Manager → Prop) (c : JM A) (P : A → Prop) (E : jobs_err → Prop) : stable S → quietly c →
  (∀ m, INV m → wp c (λ a _, P a) (λ e _, E e) m) → run S c (λ a m, S m ∧ P a) (λ e m, S m ∧ E e).
Proof.
  intros Hst Hq Hv m Hi Hs. eapply wp_mono; [| |apply (wp_conj _ _ _ _ _ _ (run_quiet S c Hst Hq m Hi Hs) (Hv m Hi))];
    intros ? m' [(?&?&?) ?]; auto.
Qed.

Lemma run_read {A} (S : Manager → Prop) (c : JM A) (P : A → Prop) : stable S →
  (∀ m, INV m → S m → reads_at m c P) → run S c (λ a m, S m ∧ P a) (λ _, S).
Proof.
  intros Hst Hc m Hi Hs. eapply wp_mono; [| |by apply Hc].
  - intros a m' [Hm HP]. pose proof (Post_still m m' Hi Hm) as HPo. split; [apply HPo|]. split; [apply frame_grows, HPo|].
    split; [|done]. by apply (Hst m m').
  - intros a m' Hm. pose proof (Post_still m m' Hi Hm) as HPo. split; [apply HPo|]. split; [apply frame_grows, HPo|].
    by apply (Hst m m').
Qed.

Lemma run_idle {A} (S : Manager → Prop) (c : JM A) : stable S → idle c → run S c (λ _, S) (λ _, S).
Proof. intros Hst Hc. eapply run_weaken; [apply (run_read S c (λ _, True)); auto|done|by intros ? ? []|done]. Qed.

(** A schedule never fails. *)
Lemma run_interleave (S : Manager → Prop) E : stable S → run S interleave (λ _, S) E.
Proof.
  intros Hst m Hi Hs. pose proof (run_quiet S interleave Hst quiet_interleave m Hi Hs) as Hq. revert Hq.
  unfold interleave, wp, mbind, StateM_bind. cbn.
  by destruct (exec_ops_Ok (schedule (m_tick m)) (set_m_tick (Datatypes.S (m_tick m)) m)) as [m' ->].
Qed.

Lemma run_sync {A} (S : Manager → Prop) (c : JM A) P E : stable S → run S c P E → run S (sync c) P E.
Proof. intros Hst Hc. apply (run_bind _ _ _ (λ _, S)); [by apply run_interleave|by intros []]. Qed.

Lemma stable_and S S' : stable S → stable S' → stable (λ m, S m ∧ S' m).
Proof. intros H1 H2 m m' [? ?] ??. split; [by apply (H1 m m')|by apply (H2 m m')]. Qed.

Lemma stable_fact S (F : Prop) : stable S → stable (λ m, S m ∧ F).
Proof. intros H1 m m' [? ?] ??. split; [by apply (H1 m m')|done]. Qed.

Lemma stable_True : stable (λ _, True).
Proof. done. Qed.

(** ** What the processor knows of its job *)

Definition mine (job : Job) (m : Manager) : Prop :=
  ∀ j, d_Jobs (m_data m) !! j_ID job = Some j → j_State j = Running → j_PDS j = j_PDS job ∧ j_Policy j = j_Policy job.

Definition covered (id : string) (m : Manager) : Prop :=
  ∀ j, d_Jobs (m_data m) !! id = Some j → j_State j = Running → j_TotalReposKnown j = true ∧
    ∀ listed did, st_inventory (m_store m) !! id = Some listed → is_Some (listed !! did) → is_Some (j_CompletedRepos j !! did).

Definition frozen (job : Job) (listed : gmap string string) (done : string → Prop) (m : Manager) : Prop :=
  ∀ j, d_Jobs (m_data m) !! j_ID job = Some j → j_State j = Running →
    j_PDS j = j_PDS job ∧ j_Policy j = j_Policy job ∧ j_TotalReposKnown j = true ∧ st_inventory (m_store m) !! j_ID job = Some listed ∧
    (∀ did, is_Some (j_CompletedRepos job !! did) ∨ done did → is_Some (j_CompletedRepos j !! did)).

(** A job that runs after a quiet change ran before it. *)
Lemma Post_running m m' id j' : Post m m' → d_Jobs (m_data m') !! id = Some j' → j_State j' = Running →
  ∃ j, d_Jobs (m_data m) !! id = Some j ∧ j_State j = Running ∧ quiet_job j j' ∧
    j_TotalReposKnown j' = j_TotalReposKnown j ∧ st_inventory (m_store m') !! id = st_inventory (m_store m) !! id.
Proof.
  intros [_ Hf] Hj' Hr. destruct (f_data _ _ Hf id j' Hj') as [(_&_&_&?&_)|(j & Hj & Hq)]; [done|].
  destruct (qj_running _ _ Hq Hr) as [? ?]. exists j. split_and!; auto. apply (f_inv _ _ Hf id j'); auto.
Qed.

Lemma stable_mine job : stable (mine job).
Proof.
  intros m m' Hs _ HP j' Hj' Hr. destruct (Post_running m m' _ j' HP Hj' Hr) as (j & Hj & Hr0 & Hq & _).
  rewrite (qj_PDS _ _ Hq), (qj_Policy _ _ Hq). by apply Hs.
Qed.

Lemma stable_covered id : stable (covered id).
Proof.
  intros m m' Hs _ HP j' Hj' Hr. destruct (Post_running m m' _ j' HP Hj' Hr) as (j & Hj & Hr0 & Hq & Hk & Hin).
  rewrite Hk, Hin, (qj_Completed _ _ Hq). by apply Hs.
Qed.

Lemma stable_frozen job listed done : stable (frozen job listed done).
Proof.
  intros m m' Hs _ HP j' Hj' Hr. destruct (Post_running m m' _ j' HP Hj' Hr) as (j & Hj & Hr0 & Hq & Hk & Hin).
  rewrite Hk, Hin, (qj_PDS _ _ Hq), (qj_Policy _ _ Hq), (qj_Completed _ _ Hq). by apply Hs.
Qed.

Lemma frozen_mine job listed done m : frozen job listed done m → mine job m.
Proof. intros Hf j Hj Hr. destruct (Hf j Hj Hr) as (? & ? & _). done. Qed.

Definition holds (r : Reconciled) (m : Manager) : Prop := r ∈ m_archive m.
Lemma stable_holds r : stable (holds r).
Proof. intros m m' Hr _ [_ Hf]. unfold holds. by rewrite (f_archive _ _ Hf). Qed.
End run_logic.

#[export] Hint Resolve stable_and stable_fact stable_True stable_mine stable_covered stable_frozen stable_holds : stable.

(** ** The processor's own writes *)

Section own.
Context `{JobServices} `{PdsServices}.

(** Computations from a state that differs from [m0] in the calls made. *)
Definition from {A} (m0 : Manager) (c : JM A) (P : A → Manager → Prop) (E : jobs_err → Manager → Prop) : Prop :=
  ∀ m, still m0 m → wp c P E m.

Lemma from_bind {A B} m0 (c : JM A) (f : A → JM B) (R : A → Prop) P E :
  (∀ m, still m0 m → reads_at m c R) → (∀ e m, still m0 m → E e m) → (∀ a, R a → from m0 (f a) P E) → from m0 (c ≫= f) P E.
Proof.
  intros Hc HE Hf m Hm. apply wp_bind. eapply wp_mono; [| |by apply Hc].
  - intros a m' [Hm' HR]. apply Hf; [done|by apply still_trans with m].
  - intros e m' Hm'. apply HE. by apply still_trans with m.
Qed.

Lemma from_idle {A B} m0 (c : JM A) (f : A → JM B) P E :
  idle c → (∀ e m, still m0 m → E e m) → (∀ a, from m0 (f a) P E) → from m0 (c ≫= f) P E.
Proof. intros Hc HE Hf. apply from_bind with (λ _, True); auto. Qed.

Lemma from_data {B} m0 (f : data → JM B) P E : from m0 (f (m_data m0)) P E → from m0 (dataM ≫= f) P E.
Proof. intros Hf m Hm. apply wp_bind, wp_ret. pose proof Hm as [k ->]. exact (Hf _ Hm). Qed.

Lemma from_get {B} m0 (f : Manager → JM B) P E : (∀ m, still m0 m → from m0 (f m) P E) → from m0 (get ≫= f) P E.
Proof. intros Hf m Hm. apply wp_get_bind. by apply Hf. Qed.

Lemma from_throw {A} m0 e P (E : jobs_err → Manager → Prop) : (∀ m, still m0 m → E e m) → from m0 (throw e : JM A) P E.
Proof. intros HE m Hm. by apply wp_throw, HE. Qed.

Lemma from_ret {A} m0 (a : A) (P : A → Manager → Prop) E : (∀ m, still m0 m → P a m) → from m0 (mret a) P E.
Proof. intros HP m Hm. by apply wp_ret, HP. Qed.

Lemma from_require_active {B} m0 id (f : unit → JM B) P E : (∀ m, still m0 m → E ErrConflict m) →
  (active m0 id = true → from m0 (f tt) P E) → from m0 (require_active id ≫= f) P E.
Proof.
  intros HE Hf m Hm. apply wp_bind. unfold require_active. apply wp_bind, wp_ret. pose proof Hm as [k ->].
  change (active (set_m_tick k m0) id) with (active m0 id). destruct (active m0 id); [by apply Hf|by apply HE].
Qed.

(** What the three parts of [run] need of a state that is as before. *)
Definition same (S : Manager → Prop) (m0 : Manager) (m : Manager) : Prop := INV m ∧ grows m0 m ∧ S m.

Lemma same_still S m0 m : stable S → INV m0 → S m0 → still m0 m → same S m0 m.
Proof.
  intros Hst Hi Hs Hm. pose proof (Post_still m0 m Hi Hm) as HP.
  split; [apply HP|]. split; [apply frame_grows, HP|]. by apply (Hst m0 m).
Qed.

Lemma INV_write m d' st' : INV m → st_state st' = Some d' → st_policy st' = Some (m_policy m) →
  doc_ok (m_archive m) (st_inventory st') (m_policy m) d' → rows_ok (st_retry st') → INV (set_m_data d' (set_m_store st' m)).
Proof. intros [a b c d e f g] ????. by split. Qed.

Lemma from_write m0 (S : Manager → Prop) (f : Store → Store) d' (P : unit → Manager → Prop) :
  INV m0 → S m0 → stable S →
  doc_ok (m_archive m0) (st_inventory (f (m_store m0))) (m_policy m0) d' →
  st_state (f (m_store m0)) = Some d' → st_policy (f (m_store m0)) = st_policy (m_store m0) → rows_ok (st_retry (f (m_store m0))) →
  life (m_data m0) d' →
  (∀ k, P tt (set_m_data d' (set_m_store (f (m_store m0)) (set_m_tick k m0)))) →
  from m0 (store_write f ;; modify (set_m_data d')) (λ a m', INV m' ∧ grows m0 m' ∧ P a m') (λ _ m', same S m0 m').
Proof.
  intros Hi Hs Hst Hdoc Hstate Hpol Hrows Hlife HP m Hm. apply wp_bind. unfold store_write. apply wp_bind.
  eapply wp_mono; [| |apply idle_storeop].
  - intros [] m' [Hm' _]. apply wp_modify, wp_modify. destruct Hm as [k ->], Hm' as [k' ->]. split_and!.
    + apply INV_write; try done; [by apply INV_tick, INV_tick|]. cbn. rewrite Hpol. apply Hi.
    + split; cbn; try done; [exists []; by rewrite app_nil_r|]. intros r _ Hr. by left.
    + apply HP.
  - intros e m' Hm'. apply same_still; auto. by apply still_trans with m.
Qed.

(** ** Jobs under a changed inventory *)

Lemma job_ok_inv archive inv inv' p id j : inv' !! id = inv !! id → job_ok archive inv p id j → job_ok archive inv' p id j.
Proof. intros Heq [H1 H2 H3 H4 H5 H6 H7]. split; rewrite ?Heq; auto. Qed.

Lemma doc_ok_put_inv archive inv inv' p d id j' : doc_ok archive inv p d → (∀ id', id' ≠ id → inv' !! id' = inv !! id') →
  job_ok archive inv' p id j' → j_SourceRevision j' ≤ src_rev d (j_PDS j') → doc_ok archive inv' p (put_job id j' d).
Proof.
  intros [a b r c e] Hinv Hj Hr. split; [|done|by apply revisions_put|done|done]. cbn. intros id' j Hl.
  apply lookup_insert_Some in Hl as [[<- <-]|[Hne Hl]]; [done|]. apply (job_ok_inv _ inv); auto.
Qed.

Lemma active_job m id : active m id = true → ∃ j, d_Jobs (m_data m) !! id = Some j ∧ j_State j = Running ∧ src_on (m_data m) (j_PDS j) = true ∧
  policy_rev j = pol_Revision (m_policy m).
Proof. unfold active. destruct (_ !! _) as [j|]; [|done]. intros Ha. exists j. bool_to_prop. auto. Qed.

Lemma merge_entries_Some inv entries merged : merge_entries inv entries = Some merged → inv ⊆ merged.
Proof. unfold merge_entries. case_match; [|done]. intros [= <-]. apply map_union_subseteq_l. Qed.

(** A page of the listing is recorded. *)
Lemma job_ok_checkpoint archive inv p id j merged (complete : bool) cursor t ev :
  job_ok archive inv p id j → j_State j = Running → default ∅ (inv !! id) ⊆ merged →
  job_ok archive (<[id := merged]> inv) p id
    (set_j_Evidence ev (set_j_LastProgressAt (Some t)
      (set_j_CompletedRepos
         (if complete then filter (λ kv : string * string, match merged !! kv.1 with Some listed => completedRevisionAtLeast kv.2 listed | None => false end = true)
                             (j_CompletedRepos j)
          else j_CompletedRepos j)
         (set_j_TotalReposKnown (if complete then true else j_TotalReposKnown j)
            (set_j_TotalRepos (if complete then Z.of_nat (size merged) else j_TotalRepos j)
               (set_j_EnumeratedRepos (Z.of_nat (size merged)) (set_j_Cursor cursor j))))))).
Proof.
  intros [H1' H2' H3 H4 H5 H6 H7] Hr Hsub. split; cbn; auto; [| |congruence].
  - intros did rev Hd. apply H2'. destruct complete; [|done]. by apply map_lookup_filter_Some in Hd as [? _].
  - intros Hk. exists merged. rewrite lookup_insert_eq. split; [done|]. destruct complete.
    + split; [lia|]. intros did rev Hd. apply map_lookup_filter_Some in Hd as [_ Hd]. cbn in Hd. case_match; [|done]. eauto.
    + destruct (H3 Hk) as (listed & Hl & Ht & Hall). rewrite Hl in Hsub. cbn in Hsub. split.
      * apply map_subseteq_size in Hsub. lia.
      * intros did rev Hd. destruct (Hall did rev Hd) as (l & Hl' & Hc). exists l. split; [|done]. by eapply lookup_weaken.
Qed.
End own.

(** * The processor's writes

    A page of the listing, a reconciled snapshot, a completed repository, the claim
    of a job and the outcome of its run. *)

Section own_ops.
Context `{JobServices} `{PdsServices}.

(** From here on the state is as at [m0]. *)
Lemma run_from {A} (S : Manager → Prop) (c : JM A) P E :
  (∀ m0, INV m0 → S m0 → from m0 c (λ a m', INV m' ∧ grows m0 m' ∧ P a m') (λ e m', INV m' ∧ grows m0 m' ∧ E e m')) → run S c P E.
Proof. intros Hc m Hi Hs. apply (Hc m Hi Hs). apply still_refl. Qed.

Lemma reads_find_job m id : reads_at m (find_job id) (λ j, d_Jobs (m_data m) !! id = Some j).
Proof.
  eapply reads_bind; [by apply (reads_gets m m_data (λ d, d = m_data m))|].
  intros ? m' _ ->. destruct (d_Jobs (m_data m) !! id); [by apply reads_ret|apply reads_throw].
Qed.

Lemma reads_readInventory m id : reads_at m (readInventory id) (λ inv, inv = default ∅ (st_inventory (m_store m) !! id)).
Proof. eapply reads_bind; [apply idle_storeop|]. intros _ m' [k ->] _. by apply reads_gets. Qed.

Lemma run_CheckpointInventory job cursor entries complete :
  run (mine job) (CheckpointInventory (j_ID job) cursor entries complete) (λ _, mine job) (λ _, mine job).
Proof.
  apply run_from. intros m0 Hi Hs. set (id := j_ID job).
  assert (Hsame : ∀ m, still m0 m → same (mine job) m0 m) by (intros m Hm; apply same_still; auto with stable).
  unfold CheckpointInventory. apply from_require_active; [exact Hsame|]. intros Ha.
  destruct (active_job m0 id Ha) as (j & Hj & Hr & _ & _).
  apply from_bind with (λ inv, inv = default ∅ (st_inventory (m_store m0) !! id)); [|intros _; exact Hsame|].
  { intros m [k ->]. exact (reads_readInventory (set_m_tick k m0) id). }
  intros inv ->. destruct (merge_entries _ _) as [merged|] eqn:Hm; [|apply from_throw; exact Hsame].
  apply merge_entries_Some in Hm. apply from_data.
  apply from_bind with (λ j', d_Jobs (m_data m0) !! id = Some j'); [|intros _; exact Hsame|].
  { intros m [k ->]. exact (reads_find_job (set_m_tick k m0) id). }
  intros j' Hj'. rewrite Hj in Hj'. injection Hj' as <-. cbv zeta.
  match goal with |- from _ (match ?x with _ => _ end) _ _ => destruct x end; [apply from_ret; exact Hsame|].
  apply from_idle; [idles|intros _; exact Hsame|]. intros t. unfold commitJobInventoryRetryBatch.
  pose proof (job_ok_checkpoint (m_archive m0) (st_inventory (m_store m0)) (m_policy m0) id j merged complete cursor t) as Hjo.
  apply (from_write m0 (mine job)); auto with stable.
  - apply (doc_ok_put_inv _ (st_inventory (m_store m0))); [apply Hi| | |exact (do_revisions _ _ _ _ (i_doc m0 Hi) id j Hj)].
    + intros id' Hne. cbn. by rewrite lookup_insert_ne.
    + apply Hjo; [|done|done]. by apply (do_jobs _ _ _ _ (i_doc m0 Hi)).
  - apply Hi.
  - exact (life_refl (m_data m0)).
  - intros k j2 Hj2 Hr2. cbn in Hj2. rewrite lookup_insert_eq in Hj2. injection Hj2 as <-. cbn. by apply Hs.
Qed.

(** ** A completed repository *)

Lemma reads_repositoryCoordinateLocked m id did : reads_at m (repositoryCoordinateLocked id did) (λ '(j, listed),
  d_Jobs (m_data m) !! id = Some j ∧ j_TotalReposKnown j = true ∧ default ∅ (st_inventory (m_store m) !! id) !! did = Some listed).
Proof.
  unfold repositoryCoordinateLocked. case_match; [apply reads_throw|].
  eapply reads_bind; [apply reads_find_job|]. intros j m1 [k1 ->] Hj. case_match; [apply reads_throw|].
  destruct (j_TotalReposKnown j) eqn:Hk; [|apply reads_throw].
  eapply reads_bind; [apply reads_readInventory|]. intros inv m2 _ ->. cbn [m_store set_m_tick].
  destruct (_ !! did) as [listed|] eqn:Hl; [|apply reads_throw]. case_match; [by apply reads_ret|apply reads_throw].
Qed.

Lemma job_ok_completed archive inv p id j did rev l ev t cursor :
  job_ok archive inv p id j → archived archive j did rev → j_State j = Running →
  (∀ listed, inv !! id = Some listed → listed !! did = Some l) → completedRevisionAtLeast rev l = true →
  job_ok archive inv p id (set_j_Evidence ev (set_j_LastProgressAt (Some t) (set_j_Cursor cursor
    (set_j_CompletedRepos (<[did := rev]> (j_CompletedRepos j)) j)))).
Proof.
  intros [H1' H2' H3 H4 H5 H6 H7] Har Hr Hl Hc. split; cbn; auto; [| |congruence].
  - intros did' rev' Hd. apply lookup_insert_Some in Hd as [[<- <-]|[_ Hd]]; [exact Har|exact (H2' _ _ Hd)].
  - intros Hk. destruct (H3 Hk) as (listed & Hin & Ht & Hall). exists listed. split_and!; auto.
    intros did' rev' Hd. apply lookup_insert_Some in Hd as [[<- <-]|[_ Hd]]; eauto.
Qed.

Lemma run_checkpointRepository job listed fin r did l rev cursor records :
  rc_PDS r = j_PDS job → sn_DID (rc_snapshot r) = did → sn_Rev (rc_snapshot r) = rev →
  sn_Collections (rc_snapshot r) = pol_Collections (j_Policy job) →
  run (λ m, frozen job listed fin m ∧ holds r m) (checkpointRepository (j_ID job) did l rev cursor records)
    (λ _, frozen job listed (λ x, x = did ∨ fin x)) (λ _, frozen job listed fin).
Proof.
  intros Hpds Hdid Hrev Hcol. apply run_from. intros m0 Hi [Hs Hh]. set (id := j_ID job).
  assert (Hsame : ∀ m, still m0 m → same (frozen job listed fin) m0 m) by (intros m Hm; apply same_still; auto with stable).
  unfold checkpointRepository.
  apply from_bind with (λ '(j, frozen), d_Jobs (m_data m0) !! id = Some j ∧ j_TotalReposKnown j = true ∧
    default ∅ (st_inventory (m_store m0) !! id) !! did = Some frozen); [|intros _; exact Hsame|].
  { intros m [k ->]. exact (reads_repositoryCoordinateLocked (set_m_tick k m0) id did). }
  intros [j fl] (Hj & Hk & Hl). apply from_require_active; [exact Hsame|]. intros Ha.
  destruct (active_job m0 id Ha) as (j' & Hj' & Hr & _ & _). rewrite Hj in Hj'. injection Hj' as <-.
  destruct (Hs j Hj Hr) as (Hjp & Hjpol & _ & Hinv & Hdone).
  case_match; [apply from_throw; exact Hsame|].
  destruct (ParseTID_int fl) as [zl|] eqn:Hzl; [|apply from_throw; exact Hsame].
  destruct (ParseTID_int rev) as [zr|] eqn:Hzr; [|apply from_throw; exact Hsame].
  destruct (zr <? zl) eqn:Hlt; [apply from_throw; exact Hsame|].
  apply from_idle; [idles|intros _; exact Hsame|]. intros current. case_match; [apply from_throw; exact Hsame|].
  apply from_data. apply from_idle; [idles|intros _; exact Hsame|]. intros t. cbv zeta.
  unfold commitRepositoryRetryBatch. apply (from_write m0 (frozen job listed fin)); auto with stable.
  - apply (doc_ok_put_inv _ (st_inventory (m_store m0))); [apply Hi|done| |exact (do_revisions _ _ _ _ (i_doc m0 Hi) id j Hj)]. cbn.
    apply job_ok_completed with (l := fl); auto.
    + by apply (do_jobs _ _ _ _ (i_doc m0 Hi)).
    + exists r. rewrite Hjp, Hjpol. auto.
    + intros x Hx. unfold id in Hl, Hx. rewrite Hx in Hl. done.
    + unfold completedRevisionAtLeast. rewrite Hzr, Hzl. bool_to_prop. apply Z.leb_le. lia.
  - apply rows_ok_delete, Hi.
  - exact (life_refl (m_data m0)).
  - intros k j2 Hj2 Hr2. cbn in Hj2. rewrite lookup_insert_eq in Hj2. injection Hj2 as <-. cbn. split_and!; auto.
    intros x Hx. destruct (decide (x = did)) as [->|Hne]; [rewrite lookup_insert_eq; eauto|]. rewrite lookup_insert_ne by done.
    apply Hdone. destruct Hx as [|[|]]; auto. done.
Qed.

(** ** A reconciled snapshot *)

Lemma INV_archive m r : INV m → authentic r → INV (set_m_archive (m_archive m ++ [r]) m).
Proof.
  intros [a b c d e f g] Hr. assert (Hsub : ∀ x, x ∈ m_archive m → x ∈ m_archive m ++ [r]) by (intros; apply elem_of_app; auto).
  split; cbn; auto.
  - by eapply doc_ok_mono.
  - eapply Forall_impl; [exact d|]. intros j. by apply receipt_ok_mono.
  - eapply Forall_impl; [exact e|]. intros j. by apply receipt_ok_mono.
  - apply Forall_app. split; [done|by constructor].
Qed.

Lemma run_ApplyContext job listed fin snapshot : authentic (mkReconciled (j_ID job) (j_PDS job) snapshot) →
  run (frozen job listed fin) (ApplyContext (j_ID job) (Reconcile job snapshot))
    (λ _ m, frozen job listed fin m ∧ holds (mkReconciled (j_ID job) (j_PDS job) snapshot) m) (λ _, frozen job listed fin).
Proof.
  intros Hauth. apply run_from. intros m0 Hi Hs.
  assert (Hsame : ∀ m, still m0 m → same (frozen job listed fin) m0 m) by (intros m Hm; apply same_still; auto with stable).
  assert (Hwrite : active m0 (j_ID job) = true → from m0 (Reconcile job snapshot)
    (λ a m', INV m' ∧ grows m0 m' ∧ frozen job listed fin m' ∧ holds (mkReconciled (j_ID job) (j_PDS job) snapshot) m')
    (λ e m', INV m' ∧ grows m0 m' ∧ frozen job listed fin m')).
  { intros Ha. unfold Reconcile. apply from_idle; [idles|intros _; exact Hsame|]. intros [e|]; [apply from_throw; exact Hsame|].
    intros m [k ->]. apply wp_modify. destruct (active_job m0 _ Ha) as (j & Hj & Hr & Hon & _). destruct (Hs j Hj Hr) as (Hpds & _).
    split; [by apply INV_archive; [apply INV_tick|]|]. split; [|split; [done|apply elem_of_app; right; by apply list_elem_of_singleton]].
    split; cbn; try done; [by eexists|apply life_refl|]. intros r Ht Hin. left. apply elem_of_app in Hin as [|Hin]; [done|].
    apply list_elem_of_singleton in Hin as ->. cbn in Ht. rewrite <-Hpds in Ht.
    destruct (do_life _ _ _ _ (i_doc m0 Hi) (j_PDS j)) as [_ Htomb]. rewrite (Htomb Hon) in Ht. lia. }
  unfold ApplyContext. apply from_require_active; [exact Hsame|]. intros Ha.
  apply from_idle; [idles|intros _; exact Hsame|]. intros [domain|].
  - unfold gate_Admit. apply from_idle; [idles|intros _; exact Hsame|]. intros _.
    apply from_idle; [idles|intros _; exact Hsame|]. intros pol. apply from_get. intros m [k ->].
    case_match; [by apply Hwrite|apply from_throw; exact Hsame].
  - apply from_require_active; [exact Hsame|]. auto.
Qed.

(** ** The claim and the outcome *)

Lemma job_ok_update archive inv p id j j' : job_ok archive inv p id j → j_ID j' = j_ID j → j_PDS j' = j_PDS j →
  j_Policy j' = j_Policy j → j_CompletedRepos j' = j_CompletedRepos j → j_TotalReposKnown j' = j_TotalReposKnown j →
  j_TotalRepos j' = j_TotalRepos j →
  (j_State j' = Complete → j_TotalReposKnown j = true ∧
    ∀ listed did, inv !! id = Some listed → is_Some (listed !! did) → is_Some (j_CompletedRepos j !! did)) →
  (unfinished j' = true → policy_rev j = pol_Revision p) → job_ok archive inv p id j'.
Proof.
  intros [H1' H2' H3 H4 H5 H6 H7] a1 a2 a3 a4 a5 a6 a7 a8. split; rewrite ?a1, ?a3, ?a4, ?a5, ?a6; auto.
  intros did rev Hd. by eapply archived_mono; [..|apply H2']; auto.
Qed.

Lemma from_put_job m0 id j j' : INV m0 → d_Jobs (m_data m0) !! id = Some j →
  j_SourceRevision j' = j_SourceRevision j → j_PDS j' = j_PDS j → job_ok (m_archive m0) (st_inventory (m_store m0)) (m_policy m0) id j' →
  from m0 (commit (put_job id j' (m_data m0)))
    (λ _ m', INV m' ∧ grows m0 m' ∧ m_data m' = put_job id j' (m_data m0)) (λ _ m', same (λ _, True) m0 m').
Proof.
  intros Hi Hl Hr Hp Hj. apply (from_write m0 (λ _, True)); auto with stable.
  - apply doc_ok_put; [apply Hi|done|]. rewrite Hr, Hp. exact (do_revisions _ _ _ _ (i_doc m0 Hi) _ _ Hl).
  - apply Hi.
  - exact (life_refl (m_data m0)).
Qed.

Definition fits (jobs : list Job) (m : Manager) : Prop :=
  NoDup (map j_ID jobs) ∧ ∀ j, j ∈ jobs → d_Jobs (m_data m) !! j_ID j = Some j.
Definition claimed (j : Job) (m : Manager) : Prop := d_Jobs (m_data m) !! j_ID j = Some j ∧ j_State j = Running.

Lemma run_claim_loop t jobs : run (fits jobs) (claim_loop jobs t) (λ a m, ∀ j, a = Some j → claimed j m) (λ _ _, True).
Proof.
  induction jobs as [|job jobs IH]; cbn [claim_loop]; [by apply run_ret|].
  assert (Htl : ∀ m, fits (job :: jobs) m → fits jobs m).
  { intros m [Hnd Hall]. inversion Hnd; subst. split; [done|]. intros j Hj. apply Hall. by right. }
  assert (IH' : run (fits (job :: jobs)) (claim_loop jobs t) (λ a m, ∀ j, a = Some j → claimed j m) (λ _ _, True)).
  { eapply run_weaken; [exact IH|exact Htl|done|done]. }
  destruct (bool_decide (j_State job = Pending)) eqn:Hp; [cbn [negb]|exact IH']. bool_to_prop.
  apply run_from. intros m0 Hi Hfit.
  assert (Hsame : ∀ m, still m0 m → same (λ _, True) m0 m) by (intros m Hm; apply same_still; auto with stable).
  assert (Hjob : d_Jobs (m_data m0) !! j_ID job = Some job) by (apply Hfit; by left).
  pose proof (do_jobs _ _ _ _ (i_doc m0 Hi) _ _ Hjob) as Hjo.
  assert (Hpol : policy_rev job = pol_Revision (m_policy m0)).
  { apply Hjo. unfold unfinished. by rewrite bool_decide_true. }
  apply from_idle; [idles|intros _; exact Hsame|]. intros due. case_match.
  { intros m Hm. destruct (Hsame m Hm) as (Hi' & Hg & _).
    eapply wp_mono; [| |apply IH'; [done|by destruct Hm as [k ->]]]; intros ? m' (?&?&?); eauto using grows_trans. }
  apply from_data. case_match.
  - apply from_idle; [idles|intros _; exact Hsame|]. intros t'. intros m Hm. apply wp_bind.
    eapply wp_mono; [| |apply (from_put_job m0 _ job); [done|exact Hjob|done|done| |done]].
    + intros [] m1 (Hi1 & Hg1 & Hd1).
      eapply wp_mono; [| |apply (IH m1 Hi1)]; [intros ? m' (?&?&?); eauto using grows_trans..|].
      destruct Hfit as [Hnd Hall]. apply NoDup_cons in Hnd as [Hnotin Hnd]. split; [done|]. intros j Hj. rewrite Hd1. cbn.
      rewrite lookup_insert_ne; [apply Hall; by right|]. intros Heq. apply Hnotin. rewrite Heq. by apply list_elem_of_fmap_2.
    + done.
    + by eapply job_ok_update; [exact Hjo|..].
  - apply from_idle; [idles|intros _; exact Hsame|]. intros t'. cbv zeta. intros m Hm. apply wp_bind.
    eapply wp_mono; [| |apply (from_put_job m0 _ job); [done|exact Hjob|done|done| |done]].
    + intros [] m1 (Hi1 & Hg1 & Hd1). apply wp_ret. split_and!; auto. intros j [= <-]. split; [|done].
      rewrite Hd1. cbn. by rewrite lookup_insert_eq.
    + done.
    + by eapply job_ok_update; [exact Hjo|..].
Qed.

Lemma run_claimNextLocked : run (λ _, True) claimNextLocked (λ a m, ∀ j, a = Some j → claimed j m) (λ _ _, True).
Proof.
  apply run_from. intros m0 Hi _.
  assert (Hsame : ∀ m, still m0 m → same (λ _, True) m0 m) by (intros m Hm; apply same_still; auto with stable).
  unfold claimNextLocked. apply from_idle; [idles|intros _; exact Hsame|]. intros t. apply from_data.
  apply from_bind with (λ l, l ≡ₚ job_list (m_data m0)); [intros m _; apply reads_ranged|intros _; exact Hsame|].
  intros jobs Hperm m Hm. destruct (Hsame m Hm) as (Hi' & Hg & _).
  eapply wp_mono; [| |apply (run_claim_loop t jobs m Hi')]; [intros ? m' (?&?&?); eauto using grows_trans..|].
  destruct Hm as [k ->]. cbn. pose proof (do_jobs _ _ _ _ (i_doc m0 Hi)) as Hdoc. split.
  - rewrite Hperm. unfold job_list. rewrite map_map.
    replace (map (λ x, j_ID x.2) (map_to_list (d_Jobs (m_data m0)))) with (map_to_list (d_Jobs (m_data m0))).*1.
    { apply NoDup_fst_map_to_list. }
    apply list_fmap_ext. intros i [id j] Hl. apply list_elem_of_lookup_2, elem_of_map_to_list in Hl.
    symmetry. apply (jo_ID _ _ _ _ _ (Hdoc _ _ Hl)).
  - intros j Hj. rewrite Hperm in Hj. apply elem_of_job_list in Hj as [id Hj]. by rewrite (jo_ID _ _ _ _ _ (Hdoc _ _ Hj)).
Qed.

Lemma run_persistJobOutcome id err :
  run (λ m, err = None → covered id m) (persistJobOutcome id err) (λ _ _, True) (λ _ _, True).
Proof.
  intros m Hi Hc. unfold persistJobOutcome. apply wp_bind, wp_modify. set (m0 := set_m_runningID _ _).
  assert (Hg0 : Post m m0) by (apply Post_memory; try done; apply Hi).
  assert (Hc0 : err = None → covered id m0) by exact Hc. clearbody m0. destruct Hg0 as [Hi0 Hg0%frame_grows].
  assert (Hsame : ∀ m, still m0 m → same (λ _, True) m0 m) by (intros m' Hm; apply same_still; auto with stable).
  eassert (Hrun : from m0 _ (λ _ m', same (λ _, True) m0 m') (λ _ m', same (λ _, True) m0 m'));
    [|eapply wp_mono; [| |apply (Hrun m0), still_refl]; intros ? m' (?&?&?); eauto using grows_trans].
  apply from_idle; [idles|intros _; exact Hsame|]. intros _. apply from_get. intros m1 [k ->]. cbn [m_data set_m_tick].
  destruct (d_Jobs (m_data m0) !! id) as [job|] eqn:Hj; [|apply from_ret; exact Hsame].
  change (active (set_m_tick k m0) id) with (active m0 id).
  destruct (active m0 id) eqn:Ha; [cbn [negb]|apply from_ret; exact Hsame].
  destruct (active_job m0 id Ha) as (j & Hj' & Hr & _ & Hpol). rewrite Hj in Hj'. injection Hj' as <-.
  pose proof (do_jobs _ _ _ _ (i_doc m0 Hi0) _ _ Hj) as Hjo.
  assert (Hput : ∀ j', j_SourceRevision j' = j_SourceRevision job → j_PDS j' = j_PDS job → job_ok (m_archive m0) (st_inventory (m_store m0)) (m_policy m0) id j' →
    from m0 (commit (put_job id j' (m_data m0))) (λ _ m', same (λ _, True) m0 m') (λ _ m', same (λ _, True) m0 m')).
  { intros j' Hr' Hp' Hjo' m' Hm'. eapply wp_mono; [| |by apply (from_put_job m0 _ job)]; [|done]. intros [] m2 (?&?&_). done. }
  destruct (is_yield err); [apply Hput; [done|done|by eapply job_ok_update; [exact Hjo|..]]|].
  apply from_bind with (λ sc, jobOutcome err = Ok sc); [intros m' _; by apply reads_lift|intros _; exact Hsame|].
  intros [state code] Hout. apply from_idle; [idles|intros _; exact Hsame|]. intros t. cbv zeta. apply Hput; [by case_match; case_match|by case_match; case_match|].
  assert (Hcomplete : state = Complete → err = None).
  { intros ->. unfold jobOutcome in Hout. destruct err as [e|]; [|done]. by repeat (case_match; try done). }
  match goal with |- job_ok _ _ _ _ ?x => set (j' := x) end.
  assert (Hj' : j_State j' = state) by (unfold j'; case_match; by case_match).
  eapply job_ok_update; [exact Hjo|..]; try (unfold j'; case_match; by case_match).
  rewrite Hj'. intros Hst. by apply Hc0; auto.
Qed.
End own_ops.
