(* ===== verification/JobsProcess.v ===== *)
(** * A pass of the processor

    A run of a job that ends without error has completed every repository of the
    listing, and nothing but verified snapshots has entered the archive. *)

From S2P Require Import Prelude GoStrings StateMonad SourceURL JobsData Selection JobsRetry Jobs JobsPds JobsInv JobsLogic JobsQuiet JobsRun.
Local Open Scope Z_scope.

(** ** Reading *)

Section idle_pds.
Context `{JobServices} `{PdsServices}.

Lemma idle_inputFailure {A} code : idle (inputFailure (A := A) code).
Proof. unfold inputFailure. idles. Qed.
Lemma idle_verifySourceIdentity i pds : idle (verifySourceIdentity i pds).
Proof. unfold verifySourceIdentity. idles. Qed.
Lemma idle_newPDSAttemptFailure o c stage did b cap : idle (newPDSAttemptFailure o c stage did b cap).
Proof. unfold newPDSAttemptFailure. idles. Qed.
Lemma idle_repositoryRetryDeadline a s : idle (repositoryRetryDeadline a s).
Proof. unfold repositoryRetryDeadline. idles. Qed.
End idle_pds.

#[export] Hint Resolve idle_inputFailure idle_verifySourceIdentity idle_newPDSAttemptFailure idle_repositoryRetryDeadline : idle.

Section fetch.
Context `{JobServices} `{PdsServices}.

Lemma idle_verifySource did pds : idle (verifySource did pds).
Proof. unfold verifySource. idles. Qed.
Lemma idle_fetchRepository pds did : idle (fetchRepository pds did).
Proof. unfold fetchRepository. idles. Qed.
Lemma idle_repositoryRetrySchedule a i f : idle (repositoryRetrySchedule a i f).
Proof. unfold repositoryRetrySchedule. cbv zeta. idles. Qed.

(** A repository is what the PDS answered. *)
Definition fetched (pds did : string) (r : LoadedRepo) : Prop := ∃ k capture, get_repo k pds did = Downloaded false None capture (Ok r).

Lemma reads_fetchRepository m pds did : reads_at m (fetchRepository pds did) (fetched pds did).
Proof.
  assert (∀ m (c : JM pdsAttemptFailure), idle c → reads_at m (f ← c; throw (AttemptFailed f)) (fetched pds did)) as Hfail.
  { intros m1 c Hc. eapply reads_bind with (P := λ _, True); [apply Hc|]. intros f m2 _ _. apply reads_throw. }
  unfold fetchRepository. eapply reads_bind; [apply (reads_jcall m _ (λ d, ∃ k, get_repo k pds did = d)); eauto|]. intros d m1 _ [k Hd].
  eapply reads_bind; [apply idle_jcall|]. intros c m2 _ _.
  destruct d as [cause capture|[] read_error capture loaded]; [case_match; [apply reads_throw|apply Hfail; auto with idle]|apply reads_throw|].
  destruct c as [c|]; [destruct c; first [apply reads_throw|apply Hfail; auto with idle]|].
  destruct read_error as [cause|]; [apply Hfail; auto with idle|].
  destruct loaded as [r|[]]; [apply reads_ret; by exists k, capture|first [apply reads_throw|apply Hfail; auto with idle]..].
Qed.

(** What the verification of a snapshot establishes. *)
Definition verified (job : Job) (did : string) (c : SignedCommit) : Prop :=
  ∃ n ident key, dir_resolve n did = Some ident ∧ normalizeSource fold_case (id_PDSEndpoint ident) = Some (j_PDS job) ∧
    id_PublicKey ident = Some key ∧ signature_ok key c = true ∧ co_DID c = did.

Lemma reads_verifySnapshot m job entry c : reads_at m (verifySnapshot job entry c) (λ _, verified job (le_DID entry) c).
Proof.
  unfold verifySnapshot.
  assert (Hfail : ∀ m code (P : unit → Prop), reads_at m (inputFailure code) P).
  { intros m' code P. unfold inputFailure. eapply reads_bind; [apply idle_jcall|]. intros e m1 _ _. case_match; apply reads_throw. }
  case_match; [apply Hfail|]. destruct (String.eqb (co_DID c) (le_DID entry)) eqn:Hdid; [cbn [negb]|apply reads_throw].
  destruct (ParseTID_int (le_Rev entry)) as [listed|]; [|apply reads_throw].
  eapply reads_bind; [apply idle_now|]. intros t m1 _ _. destruct (ParseTID_int (co_Rev c)) as [rev|]; [|apply reads_throw].
  case_match; [apply reads_throw|].
  eapply reads_bind; [apply (reads_jcall m1 _ (λ i, ∃ n, dir_resolve n (le_DID entry) = i)); eauto|].
  intros [ident|] m2 _ [n Hn]; [|apply Hfail].
  eapply reads_bind with (P := λ _, normalizeSource fold_case (id_PDSEndpoint ident) = Some (j_PDS job)).
  { unfold verifySourceIdentity. case_bool_decide; [by apply reads_ret|apply reads_throw]. }
  intros [] m3 _ Hpds. destruct (id_PublicKey ident) as [key|] eqn:Hkey; [|apply Hfail].
  destruct (signature_ok key c) eqn:Hsig; [cbn [negb]|apply reads_throw]. case_match; [apply reads_throw|].
  apply reads_ret. exists n, ident, key. bool_to_prop. auto.
Qed.

Lemma reads_projectSnapshot m job did r rev : reads_at m (projectSnapshot job did r rev) (λ s,
  sn_DID s = did ∧ sn_Rev s = rev ∧ sn_Collections s = pol_Collections (j_Policy job) ∧
  exact_records (pol_Collections (j_Policy job)) (lr_records r) (sn_Records s)).
Proof.
  unfold projectSnapshot. eapply reads_bind; [apply idle_jcall|]. intros c m1 _ _.
  case_match; [apply reads_throw|]. destruct c; [apply reads_throw|].
  destruct (project_records _ _ _ _) eqn:Hp; [|apply reads_throw].
  apply reads_ret. split_and!; [done..|]. by eapply project_records_exact.
Qed.

(** ** One repository *)

Definition covers (did : string) (fin : string → Prop) : string → Prop := λ x, x = did ∨ fin x.

Lemma run_repository job listed fin entry :
  run (frozen job listed fin) (repository job entry) (λ _, frozen job listed (covers (le_DID entry) fin)) (λ _, frozen job listed fin).
Proof.
  unfold repository. apply (run_bind _ _ _ (λ _, frozen job listed fin)); [apply run_idle; [auto with stable|apply idle_verifySource]|intros []].
  eapply run_bind; [apply run_read; [auto with stable|intros m _ _; apply reads_fetchRepository]|intros repo]. apply run_fact. intros Hget. cbv zeta.
  eapply run_bind; [apply run_read; [auto with stable|intros m _ _; apply reads_verifySnapshot]|]. intros []. apply run_fact. intros Hver.
  eapply run_bind; [apply run_read; [auto with stable|intros m _ _; apply reads_projectSnapshot]|]. intros s. apply run_fact.
  intros (Hdid & Hrev & Hcol & Hproj). set (r := mkReconciled (j_ID job) (j_PDS job) s).
  assert (Hauth : authentic r).
  { destruct Hver as (n & ident & key & ? & ? & ? & ? & ?), Hget as (k & capture & ?). exists k, capture, repo, n, ident, key.
    cbn. rewrite Hdid, Hrev, Hcol. split_and!; auto. }
  apply (run_bind _ _ _ (λ _ m, frozen job listed fin m ∧ holds r m)).
  - eapply run_catch; [apply run_sync; [auto with stable|by apply run_ApplyContext]|].
    intros e. cbv beta. by destruct (root_cause e); apply run_throw.
  - intros []. apply run_sync; [auto with stable|]. unfold CheckpointRepositoryAcquisition.
    case_match; [apply run_throw; by intros m []|]. by apply (run_checkpointRepository job listed fin r).
Qed.
End fetch.

#[export] Hint Resolve idle_verifySource idle_fetchRepository idle_repositoryRetrySchedule : idle.

(** ** Outcomes *)

Section outcomes.
Context `{JobServices} `{PdsServices}.

(** Nothing is left to do. *)
Definition clean (o : frozenRepositoryOutcome) : Prop :=
  fo_retryPending o = false ∧ fo_permanentCode o = "" ∧ fo_unavailable o = false.

Lemma clean_merge a b : clean (mergeFrozenRepositoryOutcome a b) → clean a ∧ clean b.
Proof.
  unfold clean. cbn. intros (Hr & Hp & Hu). apply orb_false_iff in Hr as [? ?]. apply orb_false_iff in Hu as [? ?].
  destruct (String.eqb_spec (fo_permanentCode a) ""); by auto.
Qed.

(** The outcome of one repository: stopping means more to do, and a clean outcome
    that the repository is completed. *)
Definition outcome_of (job : Job) (listed : gmap string string) (fin : string → Prop) (did : string) (o : frozenRepositoryOutcome) (m : Manager) : Prop :=
  frozen job listed fin m ∧ (fo_stop o = true → fo_retryPending o = true) ∧ (clean o → frozen job listed (covers did fin) m).

Lemma outcome_dirty job listed fin did o m : frozen job listed fin m → (fo_stop o = true → fo_retryPending o = true) → ¬ clean o →
  outcome_of job listed fin did o m.
Proof. intros Hf Hs Hc. split; [done|]. by split. Qed.

(** *** Rejections *)

Lemma wp_recordSnapshotRejection m pds rev did l kind code : INV m →
  wp (recordSnapshotRejection pds rev did l kind code) (λ r _, sr_Code r ≠ "" ∧ code ≠ "") (λ e _, as_Input e = None) m.
Proof.
  intros Hi. unfold recordSnapshotRejection. apply wp_bind, wp_ret. cbv zeta.
  destruct (validSnapshotRejection _) eqn:Hv; [cbn [negb]|by apply wp_throw].
  assert (Hcode : code ≠ "").
  { intros ->. unfold validSnapshotRejection in Hv. cbn in Hv. by rewrite !andb_false_r, ?andb_false_l in Hv. }
  apply wp_bind, wp_ret. cbn [m_data set_m_tick].
  destruct (d_SnapshotRejections (m_data m) !! _) as [x|] eqn:Hx.
  - apply wp_ret. split; [|done]. by apply (do_rejections _ _ _ _ (i_doc m Hi)) in Hx.
  - apply wp_bind. unfold commit, save, store_write, storeop. do 3 apply wp_bind. apply wp_ret.
    case_match; [by apply wp_throw|]. apply wp_ret, wp_modify, wp_modify, wp_ret. done.
Qed.

Lemma quiet_rejectSnapshot {A} job did l code : quietly (rejectSnapshot (A := A) job did l code).
Proof. intros d p. apply Q_bind; [apply quiet_sync, quiet_recordSnapshotRejection|]. intros r ? ?. by q_steps. Qed.

(** The error of a rejection carries a code, and was not given for an empty one. *)
Definition rejection (code : string) (e : jobs_err) : Prop := ∀ i, as_Input e = Some i → ie_Code i ≠ "" ∧ ie_Unavailable i = false ∧ code ≠ "".

Lemma run_rejectSnapshot {A} S job did l code : stable S →
  run S (rejectSnapshot (A := A) job did l code) (λ _ _, False) (λ e m, S m ∧ rejection code e).
Proof.
  intros Hst. unfold rejectSnapshot. eapply run_bind with (P := λ r m, S m ∧ (sr_Code r ≠ "" ∧ code ≠ "")).
  - apply run_sync; [done|]. eapply run_weaken; [apply run_quiet_val; [done|apply quiet_recordSnapshotRejection|intros m Hi; by apply wp_recordSnapshotRejection]|..]; auto.
    intros e m [Hs He]. split; [done|]. intros i Hi. by rewrite He in Hi.
  - intros r. apply run_fact. intros [? ?]. apply run_throw. intros m Hs. split; [done|]. intros i [= <-]. done.
Qed.

Lemma quiet_validateListedSnapshot job entry : quietly (validateListedSnapshot job entry).
Proof.
  intros d p. unfold validateListedSnapshot. cbv zeta.
  assert (Hlookup : quietly (sync (lookupSnapshotRejection (j_PDS job) (policy_rev job) (le_DID entry) (le_Rev entry) directPDSSnapshotRejectionKind))).
  { apply quiet_sync. intros ? ?. apply Q_idle. idles. }
  q_case; [|q_case].
  - apply Q_bind; [apply Hlookup|]. intros [r|] d' p'; [by q_steps|apply quiet_rejectSnapshot].
  - apply quiet_rejectSnapshot.
  - apply Q_bind; [apply Hlookup|]. intros [r|] d' p'; by q_steps.
Qed.

Lemma run_lookup S job entry : stable S →
  run S (sync (lookupSnapshotRejection (j_PDS job) (policy_rev job) (le_DID entry) (le_Rev entry) directPDSSnapshotRejectionKind))
    (λ r m, S m ∧ ∀ x, r = Some x → sr_Code x ≠ "") (λ e m, S m ∧ as_Input e = None).
Proof.
  intros Hst. apply run_sync; [done|].
  apply (run_quiet_val S _ (λ r, ∀ x, r = Some x → sr_Code x ≠ "") (λ e, as_Input e = None)); [done|intros ? ?; apply Q_idle; idles|].
  intros m Hi. apply wp_bind, wp_ret. intros x Hx. by apply (do_rejections _ _ _ _ (i_doc m Hi)) in Hx.
Qed.

Lemma run_validateListedSnapshot S job entry : stable S →
  run S (validateListedSnapshot job entry) (λ _, S) (λ e m, S m ∧ ∀ i, as_Input e = Some i → ie_Code i ≠ "").
Proof.
  intros Hst.
  assert (Hrej : ∀ code, run S (rejectSnapshot job (le_DID entry) (le_Rev entry) code) (λ _ : unit, S) (λ e m, S m ∧ ∀ i, as_Input e = Some i → ie_Code i ≠ "")).
  { intros code. eapply run_weaken; [by apply (run_rejectSnapshot S)|..]; auto; [done|]. intros e m [? Hr]. split; [done|]. intros i Hi. by apply Hr. }
  assert (Hlk : run S (sync (lookupSnapshotRejection (j_PDS job) (policy_rev job) (le_DID entry) (le_Rev entry) directPDSSnapshotRejectionKind))
    (λ r m, S m ∧ ∀ x, r = Some x → sr_Code x ≠ "") (λ e m, S m ∧ ∀ i, as_Input e = Some i → ie_Code i ≠ "")).
  { eapply run_weaken; [by apply run_lookup|..]; auto. intros e m [? He]. split; [done|]. by rewrite He. }
  unfold validateListedSnapshot. cbv zeta. case_match; [|case_match; [apply Hrej|]].
  - eapply run_bind; [exact Hlk|]. intros r. cbv beta. apply run_fact. intros Hr. destruct r as [x|]; [|apply Hrej].
    apply run_throw. intros m Hs. split; [done|]. intros i [= <-]. by apply Hr.
  - eapply run_bind; [exact Hlk|]. intros r. cbv beta. apply run_fact. intros Hr. destruct r as [x|]; [|by apply run_ret].
    apply run_throw. intros m Hs. split; [done|]. intros i [= <-]. by apply Hr.
Qed.

Lemma failure_outcome_dirty input failure permanent stored : (permanent = true → ie_Code input ≠ "") →
  let o := repositoryAttemptFailureOutcome input failure permanent stored in (fo_stop o = true → fo_retryPending o = true) ∧ ¬ clean o.
Proof.
  intros Hp. unfold repositoryAttemptFailureOutcome, clean. cbv zeta.
  destruct (match failure with Some _ => _ | None => false end); cbn; [by split; [|intros (?&?&?)]|].
  destruct permanent; cbn; [split; [done|]; intros (_&?&_); by apply Hp|].
  case_bool_decide; cbn; by split; [|intros (?&?&?)].
Qed.

Lemma run_recordRepositoryAttemptFailure job listed fin entry att err input :
  run (frozen job listed fin) (recordRepositoryAttemptFailure job entry att err input) (outcome_of job listed fin (le_DID entry)) (λ _ _, True).
Proof.
  unfold recordRepositoryAttemptFailure. cbv zeta.
  eapply run_bind with (P := λ _ m, frozen job listed fin m ∧ (negb (ie_Unavailable input) = true → ie_Code input ≠ "")).
  - destruct (negb (ie_Unavailable input)) eqn:Hp; [|by apply run_ret].
    eapply run_attempt; [apply (run_rejectSnapshot (frozen job listed fin)); auto with stable|by intros ? ? ? []|].
    intros e. cbv beta. apply run_fact. intros Hr. destruct (as_Input e) as [i|] eqn:He; [|by apply run_throw].
    apply run_ret. intros m Hs. split; [done|]. intros _. by apply (Hr i).
  - intros []. apply run_fact. intros Hp.
    apply (run_bind _ _ _ (λ _, frozen job listed fin)).
    { eapply run_weaken; [apply run_idle; [apply (stable_frozen job listed fin)|apply idle_repositoryRetrySchedule]|..]; auto. }
    intros [retryAt cooldown]. apply (run_bind _ _ _ (λ _, frozen job listed fin)).
    { apply run_sync; [auto with stable|]. eapply run_weaken; [apply run_quiet; [apply (stable_frozen job listed fin)|apply quiet_RecordRepositoryFailure]|..]; auto. }
    intros stored. apply run_ret. intros m Hs. destruct (failure_outcome_dirty input (as_AttemptFailure err) (negb (ie_Unavailable input)) stored Hp).
    by apply outcome_dirty.
Qed.
End outcomes.

(** An outcome that leaves work. *)
Ltac dirty := intros m Hs; (apply outcome_dirty; [done|done|by intros (?&?&?)]).

(** ** The frozen listing *)

Section listing.
Context `{JobServices} `{PdsServices}.

Lemma run_processReadyRepository job listed fin entry :
  run (frozen job listed fin) (processReadyRepository job entry) (outcome_of job listed fin (le_DID entry)) (λ _ _, True).
Proof.
  unfold processReadyRepository. eapply run_attempt; [apply (run_validateListedSnapshot (frozen job listed fin)); auto with stable|intros []|].
  - eapply run_attempt; [apply run_sync; [apply stable_frozen|]; apply run_quiet; [apply (stable_frozen job listed fin)|apply quiet_BeginRepositoryAttempt]|..].
    + intros att. eapply run_attempt; [apply run_repository|intros []; apply run_ret|].
      * intros m Hf. split; [|by split]. intros j Hj Hr. destruct (Hf j Hj Hr) as (?&?&?&?&Hall). split_and!; auto.
        intros did [|]; apply Hall; [by left|right; by right].
      * intros e. cbv beta. apply (run_bind _ _ _ (λ _, frozen job listed fin)).
        { eapply run_weaken; [apply run_idle; [apply (stable_frozen job listed fin)|idles]|..]; auto. }
        intros c. case_match; [by apply run_throw|]. destruct (as_Input e); [|by apply run_throw].
        apply run_recordRepositoryAttemptFailure.
    + intros e. cbv beta. destruct (root_cause e); try (by apply run_throw); apply run_ret; dirty.
  - intros e. cbv beta. apply run_fact. intros He. destruct (as_Input e) as [i|]; [|by apply run_throw].
    case_match; [by apply run_throw|]. apply run_ret. intros m Hs. apply outcome_dirty; [done|done|]. intros (_&Hc&_). by apply (He i).
Qed.

Lemma run_persistedRetryOutcome job listed fin entry retry :
  run (frozen job listed fin) (persistedRetryOutcome job entry retry)
    (λ o m, match o with Some o => outcome_of job listed fin (le_DID entry) o m | None => frozen job listed fin m end) (λ _ _, True).
Proof.
  unfold persistedRetryOutcome. destruct (rt_State retry); [by apply run_ret| | | |by apply run_throw].
  - unfold recordInterruptedRepository. apply (run_bind _ _ _ (outcome_of job listed fin (le_DID entry))); [|intros o; by apply run_ret].
    apply (run_bind _ _ _ (λ _, frozen job listed fin)).
    { eapply run_weaken; [apply (run_idle (frozen job listed fin)); [auto with stable|idles]|..]; auto. }
    intros retryAt. apply (run_bind _ _ _ (λ _, frozen job listed fin)).
    { apply run_sync; [auto with stable|]. eapply run_weaken; [apply (run_quiet (frozen job listed fin)); [auto with stable|apply quiet_RecordRepositoryFailure]|..]; auto. }
    intros stored. apply run_ret. case_bool_decide; dirty.
  - apply (run_bind _ _ _ (λ _, frozen job listed fin)).
    { eapply run_weaken; [apply (run_idle (frozen job listed fin)); [auto with stable|idles]|..]; auto. }
    intros t. apply run_ret. destruct (After _ _); [dirty|done].
  - unfold unresolvedRepositoryOutcome. apply (run_bind _ _ _ (outcome_of job listed fin (le_DID entry))); [|intros o; by apply run_ret].
    destruct (rt_Failure retry) as [f|]; [|apply run_ret; dirty].
    case_bool_decide; [|apply run_ret; dirty].
    apply (run_bind _ _ _ (λ code m, frozen job listed fin m ∧ code ≠ "")).
    + unfold rejectionCode. apply (run_bind _ _ _ (λ r m, frozen job listed fin m ∧ ∀ x, r = Some x → sr_Code x ≠ "")).
      { eapply run_weaken; [apply (run_lookup (frozen job listed fin)); auto with stable|..]; auto. }
      intros r. cbv beta. apply run_fact. intros Hr. apply run_ret. intros m Hs. split; [done|]. destruct r; [by apply Hr|done].
    + intros code. apply run_fact. intros Hcode. apply run_ret. intros m Hs. apply outcome_dirty; [done|done|by intros (_&?&_)].
Qed.

Lemma run_processFrozenRepository job listed fin e :
  run (frozen job listed fin) (processFrozenRepository job e) (outcome_of job listed fin e.1) (λ _ _, True).
Proof.
  unfold processFrozenRepository. cbv zeta. apply (run_bind _ _ _ (λ _, frozen job listed fin)).
  { apply run_sync; [auto with stable|]. eapply run_weaken; [apply (run_idle (frozen job listed fin)); [auto with stable|idles]|..]; auto. }
  intros retry. eapply run_bind; [apply (run_persistedRetryOutcome job listed fin)|]. intros [o|]; [by apply run_ret|].
  apply (run_bind _ _ _ (λ _, frozen job listed fin)).
  { apply run_sync; [auto with stable|]. eapply run_weaken; [apply (run_idle (frozen job listed fin)); [auto with stable|idles]|..]; auto. }
  intros cooldown. apply (run_bind _ _ _ (λ _, frozen job listed fin)).
  { eapply run_weaken; [apply (run_idle (frozen job listed fin)); [auto with stable|idles]|..]; auto. }
  intros t. case_match; [|apply run_processReadyRepository].
  apply run_ret. dirty.
Qed.

Lemma frozen_weaken job listed (fin fin' : string → Prop) m :
  (∀ did, fin' did → is_Some (j_CompletedRepos job !! did) ∨ fin did) → frozen job listed fin m → frozen job listed fin' m.
Proof.
  intros Hsub Hf j Hj Hr. destruct (Hf j Hj Hr) as (?&?&?&?&Hall). split_and!; auto.
  intros did [|Hd]; apply Hall; [by left|]. by apply Hsub.
Qed.

(** What the processor's copy counts as done is done. *)
Lemma completed_skip job e l : completedRevisionAtLeast (completed_rev job e) l = true → is_Some (j_CompletedRepos job !! e).
Proof.
  unfold completed_rev. destruct (j_CompletedRepos job !! e) as [r|]; [eauto|]. unfold completedRevisionAtLeast. cbn.
  by rewrite ParseTID_empty.
Qed.

Lemma run_frozen_loop job listed entries : ∀ fin o,
  run (frozen job listed fin) (frozen_loop job entries o)
    (λ o' m, (clean o' → clean o) ∧ (clean o' → frozen job listed (λ did, fin did ∨ did ∈ entries.*1) m)) (λ _ _, True).
Proof.
  induction entries as [|e entries IH]; intros fin o; cbn [frozen_loop fmap list_fmap].
  - apply run_ret. intros m Hs. split; [done|]. intros _. eapply frozen_weaken; [|exact Hs]. intros did [|Hin]; [by right|by apply elem_of_nil in Hin].
  - case_match eqn:Hskip.
    + apply completed_skip in Hskip. eapply run_weaken; [apply (IH fin o)|done| |done].
      intros o' m [Hc Hall]. split; [done|]. intros Hcl. eapply frozen_weaken; [|apply Hall, Hcl].
      intros did [|Hin]; [by right; left|]. apply elem_of_cons in Hin as [->|]; [by left|by right; right].
    + eapply run_bind; [apply (run_processFrozenRepository job listed fin)|]. intros cur. cbv zeta.
      destruct (fo_stop cur) eqn:Hstop.
      * apply run_ret. intros m (_ & Hs & _). specialize (Hs Hstop).
        assert (Hno : ¬ clean (mergeFrozenRepositoryOutcome o cur)) by (intros [_ (Hr & _)]%clean_merge; congruence).
        split; intros ?; by exfalso.
      * intros m Hi (Hf & _ & Hcl).
        destruct (decide (fo_retryPending cur = false ∧ fo_permanentCode cur = "" ∧ fo_unavailable cur = false)) as [Hc|Hc].
        -- eapply wp_mono; [| |apply (IH (covers e.1 fin)); [done|by apply Hcl]]; [|done]. intros o' m' (?&?&Hc1&Hall). split_and!; auto.
           ++ intros Hc'. by apply (clean_merge o cur), Hc1.
           ++ intros Hc'. eapply frozen_weaken; [|apply Hall, Hc']. intros did [|Hin]; [by right; left; right|].
              apply elem_of_cons in Hin as [->|]; [by right; left; left|by right; right].
        -- eapply wp_mono; [| |apply (IH fin); [done|exact Hf]]; [|done]. intros o' m' (?&?&Hc1&_). split_and!; auto.
           ++ intros Hc'. by apply (clean_merge o cur), Hc1.
           ++ intros Hc'. exfalso. apply Hc. by apply (clean_merge o cur), Hc1.
Qed.
End listing.

