(* ===== verification/JobsTurns.v ===== *)
(** * Turns of the service

    The runner, a restart and the commands keep the invariant, so that every
    receipt handed to the relay is of a job all of whose listed repositories are in
    the archive, and a removed source stays removed. *)

From stdpp Require Import sorting.
From S2P Require Import Prelude GoStrings StateMonad SourceURL JobsData Selection JobsRetry Jobs JobsPds JobsInv JobsLogic JobsQuiet JobsRun JobsProcess.
Local Open Scope Z_scope.

Section passes.
Context `{JobServices} `{PdsServices}.

(** ** The listing *)

Definition follows (job : Job) (m : Manager) : Prop :=
  ∀ j, d_Jobs (m_data m) !! j_ID job = Some j → j_State j = Running →
    j_PDS j = j_PDS job ∧ j_Policy j = j_Policy job ∧ ∀ did, is_Some (j_CompletedRepos job !! did) → is_Some (j_CompletedRepos j !! did).

Lemma stable_follows job : stable (follows job).
Proof.
  intros m m' Hs _ HP j' Hj' Hr. destruct (Post_running m m' _ j' HP Hj' Hr) as (j & Hj & Hr0 & Hq & _).
  rewrite (qj_PDS _ _ Hq), (qj_Policy _ _ Hq), (qj_Completed _ _ Hq). by apply Hs.
Qed.

Lemma follows_mine job m : follows job m → mine job m.
Proof. intros Hf j Hj Hr. destruct (Hf j Hj Hr) as (?&?&_). done. Qed.

Lemma quiet_page_entries job entries : ∀ acc, quietly (page_entries job entries acc).
Proof.
  induction entries as [|e entries IH]; intros acc d p; cbn [page_entries]; [by q_steps|]. q_case; [apply IH|].
  apply Q_bind; [apply quiet_validateListedSnapshot|]. intros [] d' p'. q_case; [by q_steps|apply IH].
Qed.

Lemma quiet_recordInventoryFailure {A} job cause capture : quietly (recordInventoryFailure (A := A) job cause capture).
Proof.
  intros d p. unfold recordInventoryFailure. apply Q_attempt; [apply Q_idle; idles|]. intros [?|e] d' p'; [by q_steps|].
  destruct e; try by q_steps. apply Q_idle_bind; [idles|intros f]. apply Q_bind.
  - q_case; [|by q_steps]. apply Q_idle_bind; [idles|intros deadline]. apply quiet_sync, quiet_RecordPDSCooldown.
  - intros [] d2 p2. apply Q_idle_bind; [idles|intros t]. apply Q_bind; [apply quiet_sync, quiet_recordJobFailure|]. intros [] d3 p3. by q_steps.
Qed.

Lemma run_checkpointInventoryPage job page :
  run (mine job) (checkpointInventoryPage job page)
    (λ job' m, mine job m ∧ (j_ID job' = j_ID job ∧ j_PDS job' = j_PDS job ∧ j_Policy job' = j_Policy job)) (λ _, mine job).
Proof.
  unfold checkpointInventoryPage.
  apply (run_bind _ _ _ (λ _, mine job)); [apply run_quiet; [auto with stable|apply quiet_page_entries]|]. intros entries. cbv zeta.
  apply (run_bind _ _ _ (λ _, mine job)); [apply run_sync; [auto with stable|]; apply run_CheckpointInventory|]. intros [].
  apply run_ret. intros m Hm. split; [done|]. by case_match.
Qed.

(** A failed page has no result. *)
Lemma wp_recordInventoryFailure {A} job cause capture m : wp (recordInventoryFailure (A := A) job cause capture) (λ _ _, False) (λ _ _, True) m.
Proof.
  assert (Hany : ∀ B (c : JM B) m, wp c (λ _ _, True) (λ _ _, True) m) by (intros B c m'; unfold wp; by destruct (c m') as [? []]).
  unfold recordInventoryFailure. apply wp_attempt. eapply wp_mono; [| |apply Hany].
  - intros [] m' _. by apply wp_throw.
  - intros e m' _. destruct e; try by apply wp_throw. apply wp_bind. eapply wp_mono; [| |apply Hany]; [|done]. intros f m1 _.
    apply wp_bind. eapply wp_mono; [| |apply Hany]; [|done]. intros [] m2 _. apply wp_bind. eapply wp_mono; [| |apply Hany]; [|done].
    intros t m3 _. apply wp_bind. eapply wp_mono; [| |apply Hany]; [|done]. intros [] m4 _. by apply wp_throw.
Qed.

Lemma run_enumerate_loop pages : ∀ job,
  run (mine job) (enumerate_loop job pages) (λ job' m, mine job m ∧ (j_ID job' = j_ID job ∧ j_PDS job' = j_PDS job ∧ j_Policy job' = j_Policy job)) (λ _, mine job).
Proof.
  induction pages as [|[page|[cause capture]] pages IH]; intros job; cbn [enumerate_loop].
  - by apply run_ret.
  - eapply run_bind; [apply run_checkpointInventoryPage|]. intros job'. cbv beta. apply run_fact. intros (Hid & Hpds & Hpol).
    assert (Hmine : ∀ m, mine job m ↔ mine job' m) by (intros m; unfold mine; by rewrite Hid, Hpds, Hpol).
    eapply run_weaken; [apply (IH job')|intros m; by apply Hmine| |intros e m; by apply Hmine].
    intros job2 m [Hm (?&?&?)]. split; [by apply Hmine|]. by rewrite <-Hid, <-Hpds, <-Hpol.
  - eapply run_weaken; [apply (run_quiet_val (mine job) _ (λ _, False) (λ _, True)); [auto with stable|apply quiet_recordInventoryFailure|]|done|by intros ? ? []|by intros ? ? []].
    intros m _. apply wp_recordInventoryFailure.
Qed.

Lemma run_enumerateInventory job : run (mine job) (enumerateInventory job) (λ _, mine job) (λ _, mine job).
Proof.
  unfold enumerateInventory. apply (run_bind _ _ _ (λ _, mine job)); [apply run_idle; [auto with stable|idles]|]. intros pages.
  eapply run_bind; [apply run_enumerate_loop|]. intros job'. cbv beta. apply run_fact. intros (Hid & Hpds & Hpol).
  case_match; [by apply run_ret|]. rewrite Hid. apply run_sync; [auto with stable|]. apply run_CheckpointInventory.
Qed.

(** ** Every listed repository *)

Lemma reads_Inventory m id : INV m → reads_at m (Inventory id) (λ entries,
  (∃ j, d_Jobs (m_data m) !! id = Some j ∧ j_TotalReposKnown j = true) ∧
  ∀ did l, default ∅ (st_inventory (m_store m) !! id) !! did = Some l → did ∈ entries.*1).
Proof.
  intros Hi. unfold Inventory. eapply reads_bind; [apply reads_find_job|]. intros j m1 [k ->] Hj.
  destruct (j_TotalReposKnown j) eqn:Hk; [cbn [negb]|apply reads_throw].
  eapply reads_bind; [apply reads_readInventory|]. intros inv m2 _ ->. cbn [m_store set_m_tick].
  apply reads_ret. split; [eauto|]. set (inv := default ∅ _). intros did l Hl.
  apply list_elem_of_fmap. exists (did, l). split; [done|]. apply list_elem_of_omap. exists did. split; [|by rewrite Hl].
  unfold sort_strings. rewrite merge_sort_Permutation. apply list_elem_of_fmap. exists (did, l). split; [done|]. by apply elem_of_map_to_list.
Qed.

Lemma frozen_covered job listed fin m : (∀ did, is_Some (listed !! did) → fin did) → frozen job listed fin m → covered (j_ID job) m.
Proof.
  intros Hall Hf j Hj Hr. destruct (Hf j Hj Hr) as (_ & _ & Hk & Hin & Hfin). split; [done|].
  intros l did Hl Hd. rewrite Hin in Hl. injection Hl as <-. auto.
Qed.

Lemma run_processFrozenInventory job : run (follows job) (processFrozenInventory job) (λ _, covered (j_ID job)) (λ _ _, True).
Proof.
  unfold processFrozenInventory.
  apply (run_bind _ _ _ (λ entries m, ∃ listed, frozen job listed (λ _, False) m ∧ ∀ did, is_Some (listed !! did) → did ∈ entries.*1)).
  - apply run_sync; [apply stable_follows|]. intros m Hi Hs.
    eapply wp_mono; [| |by apply reads_Inventory].
    + intros entries m' (Hm & (j0 & Hj0 & Hk) & Hall). pose proof (Post_still m m' Hi Hm) as HP.
      split; [apply HP|]. split; [apply frame_grows, HP|]. destruct Hm as [k ->]. cbn.
      exists (default ∅ (st_inventory (m_store m) !! j_ID job)). split; [|intros did [l Hl]; eauto].
      intros j Hj Hr. cbn in Hj. rewrite Hj0 in Hj. injection Hj as <-. destruct (Hs j0 Hj0 Hr) as (?&?&Hsub). split_and!; auto.
      * destruct (jo_known _ _ _ _ _ (do_jobs _ _ _ _ (i_doc m Hi) _ _ Hj0) Hk) as (listed & Hl & _). cbn. by rewrite Hl.
      * intros did [|[]]; auto.
    + intros e m' Hm. pose proof (Post_still m m' Hi Hm) as HP. split; [apply HP|]. split; [apply frame_grows, HP|done].
  - intros entries. apply run_exists. intros listed. apply run_fact. intros Hall.
    eapply run_bind; [apply run_frozen_loop|]. intros o. cbv beta.
    destruct (fo_retryPending o) eqn:Hr; [by apply run_throw|].
    destruct (String.eqb_spec (fo_permanentCode o) "") as [Hp|]; [cbn [negb]|by apply run_throw].
    destruct (fo_unavailable o) eqn:Hu; cbn [negb]; [cbv zeta; case_match; by apply run_throw|].
    apply run_ret. intros m [_ Hc]. eapply frozen_covered; [|by apply Hc]. intros did Hd. cbn. right. auto.
Qed.

(** ** The runner *)

Lemma run_process job : run (claimed job) (process job) (λ _, covered (j_ID job)) (λ _ _, True).
Proof.
  assert (Hfol : ∀ m, claimed job m → follows job m).
  { intros m [Hj _] j Hj' _. rewrite Hj in Hj'. injection Hj' as <-. done. }
  unfold process. case_match.
  - unfold inputFailure. apply (run_bind _ _ _ (λ _ _, True)); [|intros e; by case_match; apply run_throw].
    by apply (run_weaken (λ _, True) (claimed job) _ (λ _ _, True) _ (λ _ _, True)); [apply run_idle; [apply stable_True|idles]|..].
  - apply (run_bind _ _ _ (λ job' m, follows job' m ∧ j_ID job' = j_ID job)).
    + case_match; [apply run_ret; auto|]. apply (run_weaken (mine job) (claimed job) _ (λ job' m, follows job' m ∧ j_ID job' = j_ID job) _ (λ _ _, True));
        [|intros m Hc; by apply follows_mine, Hfol|done|done].
      apply (run_bind _ _ _ (λ _, mine job)).
      { eapply run_weaken; [apply run_enumerateInventory|..]; auto. }
      intros []. apply run_sync; [auto with stable|]. intros m Hi _.
      eapply wp_mono; [| |apply reads_find_job].
      * intros j m' [Hm Hj]. pose proof (Post_still m m' Hi Hm) as HP. split; [apply HP|]. split; [apply frame_grows, HP|].
        pose proof (jo_ID _ _ _ _ _ (do_jobs _ _ _ _ (i_doc m Hi) _ _ Hj)) as Hid. split; [|done].
        destruct Hm as [k ->]. intros j' Hj' _. cbn in Hj'. rewrite Hid in Hj'. rewrite Hj in Hj'. injection Hj' as <-. done.
      * intros e m' Hm. pose proof (Post_still m m' Hi Hm) as HP. split; [apply HP|]. split; [apply frame_grows, HP|done].
    + intros job'. apply run_fact. intros <-. apply run_processFrozenInventory.
Qed.

Lemma run_runNext : run (λ _, True) runNext (λ _ _, True) (λ _ _, True).
Proof.
  unfold runNext. eapply run_bind; [apply run_sync; [apply stable_True|apply run_claimNextLocked]|].
  intros [job|]; [|by apply run_ret]. apply (run_bind _ _ _ (λ _, claimed job)).
  - intros m Hi Hc. apply wp_modify. assert (HP : Post m (set_m_runningID (j_ID job) (set_m_canceled false m))) by (apply Post_memory; try done; apply Hi).
    split; [apply HP|]. split; [apply frame_grows, HP|]. by apply (Hc job).
  - intros []. eapply run_attempt; [apply run_process|..].
    + intros []. apply (run_bind _ _ _ (λ _ _, True)); [|intros []; by apply run_ret].
      apply run_sync; [apply stable_covered|]. by eapply run_weaken; [apply run_persistJobOutcome|intros m Hc _; exact Hc|..].
    + intros e. apply (run_bind _ _ _ (λ _ _, True)); [|intros []; by apply run_ret].
      apply run_sync; [apply stable_True|]. by eapply run_weaken; [apply run_persistJobOutcome|..].
Qed.

Lemma run_runPass : run (λ _, True) runPass (λ _ _, True) (λ _ _, True).
Proof.
  unfold runPass. apply (run_bind _ _ _ (λ _ _, True)); [apply run_idle; [auto with stable|idles]|]. intros [].
  apply (run_bind _ _ _ (λ _ _, True)); [apply run_quiet; [auto with stable|apply quiet_sync, quiet_flushReceipts]|]. intros [].
  eapply run_bind; [apply run_runNext|]. intros []; [by apply run_ret|].
  apply run_quiet; [auto with stable|]. unfold waitForWork. intros d p. apply Q_idle_bind; [idles|intros t].
  apply Q_bind; [apply quiet_sync; intros ? ?; apply Q_idle; idles|]. intros ? ? ?. apply Q_idle. idles.
Qed.
End passes.

(** * Starting the service

    A start reads the policy and the document, resumes running jobs as pending and
    seeds the sources once.  Every turn keeps the invariant and relates the durable
    documents before and after ([later]). *)

Section opening.
Context `{JobServices} `{PdsServices}.

(** The document that a restart would read. *)
Definition durable (m : Manager) : data := default emptyData (st_state (m_store m)).

Record later (m m' : Manager) : Prop := {
  l_archive : ∃ l, m_archive m' = m_archive m ++ l;
  l_life : life (durable m) (durable m');
  l_fence : ∀ r, 0 < src_tomb (durable m) (rc_PDS r) → r ∈ m_archive m' →
    r ∈ m_archive m ∨ src_tomb (durable m) (rc_PDS r) < src_rev (durable m') (rc_PDS r);
}.

Lemma later_refl m : later m m.
Proof. split; auto using life_refl. exists []. by rewrite app_nil_r. Qed.

Lemma later_trans m1 m2 m3 : later m1 m2 → later m2 m3 → later m1 m3.
Proof.
  intros [[l1 a1] c1 d1] [[l2 a2] c2 d2]. split.
  - exists (l1 ++ l2). by rewrite a2, a1, <-app_assoc.
  - by apply life_trans with (durable m2).
  - intros r Ht Hr. destruct (c1 (rc_PDS r)) as [Hr1 Ht1], (c2 (rc_PDS r)) as [Hr2 Ht2].
    destruct (Ht1 Ht) as [|Hle]; [right; lia|].
    destruct (d2 r ltac:(lia) Hr) as [Hr'|]; [|right; lia].
    destruct (d1 r Ht Hr'); [by left|right; lia].
Qed.

Lemma durable_INV m : INV m → durable m = m_data m.
Proof. intros Hi. unfold durable. by rewrite (i_state m Hi). Qed.

Lemma grows_later m m' : INV m → INV m' → grows m m' → later m m'.
Proof. intros Hi Hi' [a b c d]. split; rewrite ?(durable_INV m), ?(durable_INV m'); auto. Qed.

(** A step of a start changes neither the archive nor, but for a new document, the
    store. *)
Lemma later_same m m' : m_archive m' = m_archive m → life (durable m) (durable m') → later m m'.
Proof. intros Ha Hl. split; [exists []; by rewrite app_nil_r|done|]. intros r _ Hr. left. by rewrite <-Ha. Qed.

(** ** The steps of a start *)

Definition down (m : Manager) : Prop := DOWN m ∧ m_up m = false.
Definition with_policy (m : Manager) : Prop := down m ∧ st_policy (m_store m) = Some (m_policy m).
Definition opened (m : Manager) : Prop := with_policy m ∧ m_inflight m = [] ∧
  (st_state (m_store m) = Some (m_data m) ∨ (st_state (m_store m) = None ∧ m_data m = emptyData)).
Definition seeded (m : Manager) : Prop := with_policy m ∧ m_inflight m = [] ∧ st_state (m_store m) = Some (m_data m).

Definition opens {A} (S : Manager → Prop) (c : JM A) (P : Manager → Prop) : Prop :=
  ∀ m, S m → wp c (λ _ m', later m m' ∧ P m') (λ _ m', later m m' ∧ down m') m.

Lemma opens_bind {A B} S (c : JM A) (f : A → JM B) P P' : opens S c P → (∀ a, opens P (f a) P') → opens S (c ≫= f) P'.
Proof.
  intros Hc Hf m Hs. apply wp_bind. eapply wp_mono; [| |by apply Hc]; [|done].
  intros a m' [Hl HP]. eapply wp_mono; [| |by apply Hf]; intros ? m'' [? ?]; (split; [by apply later_trans with m'|done]).
Qed.

Lemma still_later m m' : still m m' → later m m'.
Proof. intros [k ->]. apply later_same; [done|apply life_refl]. Qed.
Lemma still_DOWN m m' : still m m' → DOWN m → DOWN m'.
Proof. intros [k ->] [a b c d]. by split. Qed.
Lemma still_down m m' : still m m' → down m → down m'.
Proof. intros Hm [? ?]. split; [by eapply still_DOWN|]. by destruct Hm as [k ->]. Qed.

Lemma opens_from {A} (S : Manager → Prop) (c : JM A) P :
  (∀ m0, S m0 → from m0 c (λ _ m', later m0 m' ∧ P m') (λ _ m', later m0 m' ∧ down m')) → opens S c P.
Proof. intros Hc m Hs. apply (Hc m Hs), still_refl. Qed.

Lemma opens_selection initial : opens down (selection_Open initial) with_policy.
Proof.
  apply opens_from. intros m0 Hd.
  assert (Herr : ∀ m, still m0 m → later m0 m ∧ down m) by (intros m Hm; split; [by apply still_later|by eapply still_down]).
  unfold selection_Open. apply from_idle; [idles|intros _; exact Herr|]. intros [].
  apply from_bind with (λ st, st = m_store m0); [intros m [k ->]; by apply reads_gets|intros _; exact Herr|]. intros ? ->.
  destruct (st_policy (m_store m0)) as [p|] eqn:Hp.
  - case_match; [apply from_throw; exact Herr|]. apply from_idle; [idles|intros _; exact Herr|]. intros _ m [k ->]. apply wp_modify.
    split; [apply later_same; [done|apply life_refl]|]. split; [|done]. destruct Hd as [[a b c d] Hup]. by split.
  - apply from_idle; [idles|intros _; exact Herr|]. intros cs m [k ->]. cbv zeta. apply wp_bind. unfold store_write. apply wp_bind.
    eapply wp_mono; [| |apply idle_storeop].
    + intros [] m' [[k' ->] _]. apply wp_modify, wp_modify. split; [apply later_same; [done|apply life_refl]|]. split; [|done].
      destruct Hd as [Hd Hup]. split; [|done].
      assert (Hn : st_state (m_store m0) = None).
      { destruct (st_state (m_store m0)) as [d|] eqn:Hst; [|done]. destruct (dn_doc m0 Hd d Hst) as (p & ? & _). congruence. }
      destruct Hd as [a b c d]. split; auto. cbn. by rewrite Hn.
    + intros e m' Hm. apply Herr. by apply still_trans with (set_m_tick k m0); [by eexists|].
Qed.

(** What a restart makes of the document. *)
Lemma restorePersistedData_ok d d' : restorePersistedData d = Ok d' →
  d_Jobs d' = resume_job <$> d_Jobs d ∧ src_rev d' = src_rev d ∧ src_tomb d' = src_tomb d ∧ src_on d' = src_on d ∧
  d_SnapshotRejections d' ⊆ d_SnapshotRejections d ∧ d_Initialized d' = d_Initialized d.
Proof.
  unfold restorePersistedData, resumePersistedJobs. destruct (negb _); [done|]. destruct (forallb _ _); [|done]. intros [= <-].
  split_and!; try done. apply trim_loop_subseteq.
Qed.

Lemma doc_ok_restored archive inv p d d' : doc_ok archive inv p d → restorePersistedData d = Ok d' → doc_ok archive inv p d'.
Proof.
  intros [a b rv c e] (Hj & Hrev & Htomb & Hon & Hrej & Hin)%restorePersistedData_ok. split.
  - rewrite Hj. intros id j' Hl. apply lookup_fmap_Some in Hl as (j & <- & Hl). pose proof (a id j Hl) as Hjo.
    unfold resume_job. case_bool_decide as Hr; [|done]. eapply job_ok_update; [exact Hjo|done..|].
    intros _. apply Hjo. unfold unfinished. rewrite Hr. done.
  - intros pds. rewrite Hrev, Htomb, Hon. apply b.
  - rewrite Hj, Hrev. intros id j' Hl. apply lookup_fmap_Some in Hl as (j & <- & Hl). unfold resume_job. by case_match; apply (rv id j).
  - intros k r Hr. apply (c k). by eapply lookup_weaken.
  - by rewrite Hin.
Qed.

Lemma opens_jobs : opens with_policy jobs_Open opened.
Proof.
  intros m [[Hd Hup] Hpol]. unfold jobs_Open. apply wp_bind, wp_modify. set (m0 := set_m_runningID _ _).
  assert (Hd0 : down m0) by (destruct Hd as [a b c d]; by split).
  assert (Hl0 : later m m0) by (apply later_same; [done|apply life_refl]).
  assert (Hm0 : m_data m0 = emptyData ∧ m_inflight m0 = [] ∧ st_policy (m_store m0) = Some (m_policy m0)) by done.
  clearbody m0. clear Hd Hup Hpol. destruct Hm0 as (Hdata & Hinf & Hpol).
  eassert (Hrun : from m0 _ (λ _ m', later m0 m' ∧ opened m') (λ _ m', later m0 m' ∧ down m'));
    [|eapply wp_mono; [| |apply (Hrun m0), still_refl]; intros ? m' [? ?]; (split; [by apply later_trans with m0|done])].
  assert (Herr : ∀ m, still m0 m → later m0 m ∧ down m) by (intros m' Hm; split; [by apply still_later|by eapply still_down]).
  apply from_idle; [idles|intros _; exact Herr|]. intros [].
  apply from_bind with (λ st, st = m_store m0); [intros m' [k ->]; by apply reads_gets|intros _; exact Herr|]. intros ? ->.
  destruct (st_state (m_store m0)) as [d|] eqn:Hst.
  - apply from_bind with (λ d', restorePersistedData d = Ok d'); [intros m' _; by apply reads_lift|intros _; exact Herr|].
    intros d' Hr. pose proof (restorePersistedData_ok d d' Hr) as (_ & Hrev & Htomb & _).
    destruct Hd0 as [Hd0 Hup]. destruct (dn_doc m0 Hd0 d Hst) as (p & Hp & Hdoc). rewrite Hpol in Hp. injection Hp as <-.
    assert (Hlife : life d d').
    { intros pds. rewrite Hrev, Htomb. split; [lia|]. intros. right. lia. }
    intros m' [k ->]. apply wp_bind, wp_modify. unfold save, store_write. apply wp_bind.
    eapply wp_mono; [| |apply idle_storeop].
    + intros [] m1 [[k' ->] _]. apply wp_modify. split.
      * apply later_same; [done|]. unfold durable. rewrite Hst. exact Hlife.
      * split; [|split; [done|by left]]. split; [|done]. split; [|done]. destruct Hd0 as [a b c e]. split; auto. cbn.
        intros d2 [= <-]. exists (m_policy m0). split; [done|]. by eapply doc_ok_restored.
    + intros e m1 [k' ->]. split; [apply later_same; [done|apply life_refl]|]. split; [|done]. destruct Hd0 as [a b c e']. by split.
  - apply from_ret. intros m' [k ->]. split; [apply later_same; [done|apply life_refl]|]. split; [|split; [done|by right]].
    split; [|done]. destruct Hd0 as [[a b c e] ?]. by split.
Qed.

(** ** The sources of the command line *)

Lemma reads_seed_loop sources p : ∀ m next, d_SourceTombstones next = ∅ → reads_at m (seed_loop sources p next) (λ next', ok p p next next').
Proof.
  induction sources as [|raw sources IH]; intros m next Ht; cbn -[mbind origin now beginAcquisition enable put_job]; [apply reads_ret, ok_refl|].
  eapply reads_bind; [apply idle_origin|]. intros pds m1 _ _. eapply reads_bind; [apply idle_now|]. intros t m2 _ _.
  eapply reads_bind; [apply reads_beginAcquisition|]. cbv beta. intros ? m3 _ [g ->].
  eapply reads_weaken; [apply IH; done|]. intros next' Hok. eapply ok_trans; [|exact Hok].
  eapply ok_trans; [apply (ok_enable p next pds)|by apply ok_start; [..|cbn]]. unfold src_tomb. by rewrite Ht.
Qed.

Lemma ok_init p d d' : ok p p d d' → ok p p (set_d_Initialized true d) (set_d_Initialized true d').
Proof. intros [a b r c e f]. by split. Qed.

Lemma life_ok_empty : life_ok emptyData.
Proof. intros pds. unfold src_tomb, src_rev, src_on. cbn. by rewrite !lookup_empty. Qed.

Lemma doc_ok_empty archive inv p : doc_ok archive inv p (set_d_Initialized true emptyData).
Proof. split; [|apply life_ok_empty|..|done]; intros ? ? Hl; cbn in Hl; by rewrite lookup_empty in Hl. Qed.

Lemma opens_seed sources : opens opened (SeedSources sources) seeded.
Proof.
  apply opens_from. intros m0 ([Hd Hpol] & Hinf & Hdata).
  assert (Herr : ∀ m, still m0 m → later m0 m ∧ down m) by (intros m Hm; split; [by apply still_later|by eapply still_down]).
  unfold SeedSources. apply from_data. destruct Hdata as [Hst|[Hst Hem]].
  - destruct (dn_doc m0 (proj1 Hd) _ Hst) as (p & _ & Hdoc). rewrite (do_initialized _ _ _ _ Hdoc).
    apply from_ret. intros m Hm. destruct (Herr m Hm). destruct Hm as [k ->]. split; [done|]. by split.
  - rewrite Hem. cbn [d_Initialized emptyData].
    apply from_bind with (λ p, p = m_policy m0); [intros m [k ->]; by apply reads_gets|intros _; exact Herr|]. intros ? ->.
    apply from_bind with (λ next, ok (m_policy m0) (m_policy m0) emptyData next); [intros m _; by apply reads_seed_loop|intros _; exact Herr|].
    intros next Hok m [k ->]. unfold commit, save, store_write. do 2 apply wp_bind.
    eapply wp_mono; [| |apply idle_storeop].
    + intros [] m1 [[k' ->] _]. apply wp_modify, wp_modify. destruct Hd as [[a b c e] Hup]. split.
      * apply later_same; [done|]. unfold durable. rewrite Hst. apply (ok_life _ _ _ _ Hok), life_ok_empty.
      * split; [|done]. split; [|done]. split; [|done]. split; auto. cbn. intros d [= <-]. exists (m_policy m0). split; [done|].
        eapply ok_doc; [apply (doc_ok_empty _ (st_inventory (m_store m0)))|by apply ok_init|done].
    + intros e m1 Hm. apply Herr. apply still_trans with (set_m_tick k m0); [by eexists|done].
Qed.

Lemma opens_all initial sources : opens down (selection_Open initial ;; jobs_Open ;; SeedSources sources ;; modify (set_m_up true))
  (λ m, m_up m = true ∧ INV m).
Proof.
  eapply opens_bind; [apply opens_selection|]. intros []. eapply opens_bind; [apply opens_jobs|]. intros [].
  eapply opens_bind; [apply opens_seed|]. intros []. intros m (([Hd Hup] & Hpol) & Hinf & Hst). apply wp_modify.
  split; [apply later_same; [done|apply life_refl]|]. split; [done|].
  destruct (dn_doc m Hd _ Hst) as (p & Hp & Hdoc). rewrite Hpol in Hp. injection Hp as <-.
  destruct Hd as [a b c e]. split; auto. cbn. rewrite Hinf. constructor.
Qed.

(** ** Turns *)

Lemma turn_keeps t m : GOOD m → GOOD (do_turn t m) ∧ later m (do_turn t m).
Proof.
  assert (Hrun : ∀ A (c : JM A), run (λ _, True) c (λ _ _, True) (λ _ _, True) → m_up m = true → GOOD m → GOOD (fst (c m)) ∧ later m (fst (c m))).
  { intros A c Hc Hup Hg. unfold GOOD in Hg. rewrite Hup in Hg. specialize (Hc m Hg I). unfold wp in Hc.
    assert (Hm : INV (fst (c m)) ∧ grows m (fst (c m))) by (destruct (c m) as [m' []]; cbn; tauto).
    destruct Hm as [Hi Hgr]. split; [|by apply grows_later]. unfold GOOD. rewrite (g_up _ _ Hgr), Hup. done. }
  intros Hg. destruct t as [initial sources|o|]; cbn [do_turn].
  - pose proof (opens_all initial sources (set_m_up false m)) as Ho.
    set (c := selection_Open initial ≫= _) in Ho. change (open_all initial sources m) with (c (set_m_up false m)). unfold wp in Ho.
    assert (Hd : down (set_m_up false m)) by (destruct (GOOD_DOWN m Hg) as [? ? ? ?]; by split).
    assert (Hl : later m (set_m_up false m)) by (apply later_same; [done|apply life_refl]).
    specialize (Ho Hd). destruct (c (set_m_up false m)) as [m' [[]|e]]; cbn; destruct Ho as [Hl' [Ha Hb]].
    + split; [unfold GOOD; by rewrite Ha|by apply later_trans with (set_m_up false m)].
    + split; [unfold GOOD; by rewrite Hb|by apply later_trans with (set_m_up false m)].
  - destruct (m_up m) eqn:Hup; [|by split; [|apply later_refl]]. apply Hrun; auto. by apply run_quiet; [|apply quiet_exec_op].
  - destruct (m_up m) eqn:Hup; [|by split; [|apply later_refl]]. apply Hrun; auto. apply run_runPass.
Qed.

Lemma turns_keep ts m : GOOD m → GOOD (do_turns ts m) ∧ later m (do_turns ts m).
Proof.
  unfold do_turns. revert m. induction ts as [|t ts IH]; intros m Hg; cbn; [by split; [|apply later_refl]|].
  destruct (turn_keeps t m Hg) as [Hg' Hl]. destruct (IH _ Hg') as [? ?]. split; [done|]. by eapply later_trans.
Qed.

Lemma GOOD_blank sender advancer gate require : GOOD (blank sender advancer gate require).
Proof. split; cbn; auto; [done|]. intros k r Hl. by rewrite lookup_empty in Hl. Qed.

Lemma turns_good ts sender advancer gate require : GOOD (do_turns ts (blank sender advancer gate require)).
Proof. apply turns_keep, GOOD_blank. Qed.

Lemma GOOD_doc m d : GOOD m → st_state (m_store m) = Some d → ∃ p, st_policy (m_store m) = Some p ∧ doc_ok (m_archive m) (st_inventory (m_store m)) p d.
Proof. intros Hg%GOOD_DOWN. apply Hg. Qed.

Lemma GOOD_life m : GOOD m → life_ok (durable m).
Proof.
  intros Hg. unfold durable. destruct (st_state (m_store m)) as [d|] eqn:Hst; [|apply life_ok_empty].
  destruct (GOOD_doc m d Hg Hst) as (p & _ & Hdoc). apply Hdoc.
Qed.
End opening.
