(* ===== verification/JobsTheorems.v ===== *)
(** * The recovery jobs: runs and theorems

    ** A small world

    One PDS with one signed repository, a store and a relay that do not fail, and
    the runs that the theorems on jobs are applied to. *)

From S2P Require Import Prelude GoStrings StateMonad SourceURL JobsData Selection JobsRetry Jobs JobsPds JobsInv JobsTurns.
Local Open Scope Z_scope.

Fixpoint char_sum (s : string) : Z := match s with "" => 0 | String c s => Z.of_N (N_of_ascii c) + char_sum s end.

#[export] Instance demo_jobs : JobServices := {|
  job_clock := λ n, 700000 * 86400 * second + Z.of_nat n * second;
  store_fail := λ _, None;
  range_order := λ _ _ l, l;
  range_order_perm := λ _ _ _, Permutation_refl _;
  fold_case := λ s, s;
  ParseDID_ok := λ s, HasPrefix s "did:";
  ParseTID_int := λ s, if String.eqb s "" then None else Some (char_sum s);
  ParseTID_empty := eq_refl;
  ParseNSID_ok := λ _, true;
  relay_advance := λ _ _ _ _, Ok (200, false);
  relay_receipt := λ _ _, Ok (200, false);
  ctx_err := λ _, None;
  drain_fail := λ _, None;
  stream_next_seq := λ _, 1;
|}.

Definition demo_did : string := "did:plc:a".
Definition demo_ident : Ident := mkIdent "https://pds.org" (Some "key").
Definition demo_repo : LoadedRepo :=
  mkLoaded [("org.hypercerts.claim/1", "cid1", Some "payload"); ("app.bsky.feed.post/1", "cid2", Some "other")] (mkSignedCommit demo_did "3l3qo2vutsw2b" "signature").

#[export] Instance demo_pds : PdsServices := {|
  has_directory := true; has_resolver := true; has_cache := false;
  dir_cached := λ _ _, None;
  dir_find := λ _ _, Some demo_ident;
  dir_resolve := λ _ _, Some demo_ident;
  list_repos := λ _ _ _, [Ok (mkPage [mkEntry demo_did "3l3qo2vutsw2a" true] "")];
  get_repo := λ _ _ _, Downloaded false None noCapture (Ok demo_repo);
  signature_ok := λ key c, String.eqb key "key" && String.eqb (co_sig c) "signature";
  tid_time := λ _, 0;
  ParseInt_ok := λ _, None;
  http_ParseTime := λ _, None;
  rand_below := λ _ _, 0;
  reconcile := λ _ _, None;
  schedule := λ _, [];
|}.

Definition demo_blank : Manager := blank true true None false.
(** A source is added, its repository fetched, and the receipt delivered. *)
Definition demo_run : list turn :=
  [TOpen ["org.hypercerts.claim"] []; TOp (OpAdd "https://pds.org" 5); TPass; TPass; TOp (OpDeliver 0)].
Definition demo_end : Manager := Eval vm_compute in do_turns demo_run demo_blank.

Definition demo_job : Job := Eval vm_compute in default zeroJob (head (m_receipts demo_end)).

(** The source is removed at revision 6, and asked for again at revision 5. *)
Definition removal : list turn := demo_run ++ [TOp (OpRemove "https://pds.org" 6)].
Definition after_removal : list turn := [TOp (OpAdd "https://pds.org" 6); TOp (OpRequest "https://pds.org" "backfill" "" 5); TPass].

(** A PDS whose downloads time out. *)
Definition stalled_pds : PdsServices := {|
  has_directory := true; has_resolver := true; has_cache := false;
  dir_cached := λ _ _, None;
  dir_find := λ _ _, Some demo_ident;
  dir_resolve := λ _ _, Some demo_ident;
  list_repos := λ _ _ _, [Ok (mkPage [mkEntry demo_did "3l3qo2vutsw2a" true] "")];
  get_repo := λ _ _ _, RequestFailed (mkCause true false true true 0) noCapture;
  signature_ok := λ _ _, false;
  tid_time := λ _, 0;
  ParseInt_ok := λ _, None;
  http_ParseTime := λ _, None;
  rand_below := λ _ _, 0;
  reconcile := λ _ _, None;
  schedule := λ _, [];
|}.
Definition stalled_run : list turn :=
  [TOpen ["org.hypercerts.claim"] []; TOp (OpAdd "https://pds.org" 5); TPass; TPass; TPass; TPass; TPass].
Definition stalled_end : Manager := Eval vm_compute in do_turns (H0 := stalled_pds) stalled_run demo_blank.

(** A job of an older source revision is retried, and a request at the current
    revision is made. *)
Definition stale_id : string := "b46d0b9576da533e19eb3847619fe19e".
Definition stale_run : list turn :=
  [TOpen ["org.hypercerts.claim"] []; TOp (OpAdd "https://pds.org" 5); TOp (OpRequest "https://pds.org" "backfill" "r0" 5);
   TOp (OpAdd "https://pds.org" 6); TOp (OpTransition stale_id Pending ""); TOp (OpRequest "https://pds.org" "backfill" "r1" 6); TPass; TPass; TPass].
Definition removal_end : Manager := Eval vm_compute in do_turns removal demo_blank.
Definition fenced_end : Manager := Eval vm_compute in do_turns after_removal removal_end.
Definition stale_end : Manager := Eval vm_compute in do_turns stale_run demo_blank.
Definition demo_complete : Job := Eval vm_compute in default zeroJob (d_Jobs (m_data demo_end) !! j_ID demo_job).
Definition stalled_row : RepositoryRetry :=
  Eval vm_compute in default (mkRetry "" "" "" RetryReady 0 0 None None) (st_retry (m_store stalled_end) !! (j_ID demo_job, demo_did)).
(** The job that waits while the service runs. *)
Definition pending_run : list turn := [TOpen ["org.hypercerts.claim"] ["https://pds.org"]].
Definition pending_end : Manager := Eval vm_compute in do_turns pending_run demo_blank.

(** * What the recovery jobs guarantee

    For every history of starts, commands, receipt deliveries and passes of the
    runner, with any commands between the processor's calls and any failures of the
    store, the PDS and the relay. *)

Section theorems.
Context `{JobServices} `{PdsServices}.
Variables (ts : list turn) (sender advancer : bool) (gate : option string) (require : bool).
(** Where a history of turns leads. *)
Abbreviation m := (do_turns ts (blank sender advancer gate require)).

(** C4 (safety): a recovery receipt is handed to the relay only for a job that is
    complete: at least as many repositories are completed as the job's listing had,
    and for each of them the archive holds a snapshot of that revision, taken from
    the job's source and with exactly the collections of the job's policy. *)
Theorem receipts_archived job : job ∈ m_receipts (do_turns ts (blank sender advancer gate require)) →
  j_State job = Complete ∧ j_TotalReposKnown job = true ∧ j_TotalRepos job ≤ Z.of_nat (size (j_CompletedRepos job)) ∧
  ∀ did rev, j_CompletedRepos job !! did = Some rev →
    ∃ r, r ∈ m_archive m ∧ rc_PDS r = j_PDS job ∧ sn_DID (rc_snapshot r) = did ∧ sn_Rev (rc_snapshot r) = rev ∧
         sn_Collections (rc_snapshot r) = pol_Collections (j_Policy job).
Proof.
  intros Hin. pose proof (GOOD_DOWN _ (turns_good ts sender advancer gate require)) as Hd.
  exact (proj1 (Forall_forall _ _) (dn_receipts _ Hd) job Hin).
Qed.

(** C22 (invariant): a job that is complete in the durable document has a frozen
    listing, and every repository of it was completed at a revision that is not
    older than the listed one and is in the archive. *)
Theorem complete_jobs_covered d id j : st_state (m_store m) = Some d → d_Jobs d !! id = Some j → j_State j = Complete →
  ∃ listed, st_inventory (m_store m) !! id = Some listed ∧ j_TotalRepos j ≤ Z.of_nat (size listed) ∧
    ∀ did l, listed !! did = Some l → ∃ rev r, j_CompletedRepos j !! did = Some rev ∧ completedRevisionAtLeast rev l = true ∧
      r ∈ m_archive m ∧ rc_PDS r = j_PDS j ∧ sn_DID (rc_snapshot r) = did ∧ sn_Rev (rc_snapshot r) = rev ∧
      sn_Collections (rc_snapshot r) = pol_Collections (j_Policy j).
Proof.
  intros Hst Hj Hc. destruct (GOOD_doc _ _ (turns_good ts sender advancer gate require) Hst) as (p & _ & Hdoc).
  pose proof (do_jobs _ _ _ _ Hdoc id j Hj) as Hjo. destruct (jo_complete _ _ _ _ _ Hjo Hc) as [Hk Hall].
  destruct (jo_known _ _ _ _ _ Hjo Hk) as (listed & Hl & Ht & Hrev). exists listed. split; [done|]. split; [done|].
  intros did l Hdid. destruct (Hall listed did Hl ltac:(eauto)) as [rev Hr].
  destruct (Hrev did rev Hr) as (l' & Hl' & Hle). rewrite Hdid in Hl'. injection Hl' as <-.
  destruct (jo_archived _ _ _ _ _ Hjo did rev Hr) as (r & ?). exists rev, r. auto.
Qed.


(** C7 (safety): once a source was removed at revision [rev], for good, then until a
    higher revision is on record the source stays off, across restarts, and no
    snapshot of it enters the archive, even if a job of it was running. *)
Theorem removed_source_fenced ts' pds : let m' := do_turns ts' m in
  0 < src_tomb (durable m) pds → src_rev (durable m') pds ≤ src_tomb (durable m) pds →
  src_on (durable m') pds = false ∧ ∀ r, rc_PDS r = pds → r ∈ m_archive m' → r ∈ m_archive m.
Proof.
  intros m' Ht Hr. pose proof (turns_good ts sender advancer gate require) as Hg.
  destruct (turns_keep ts' _ Hg) as [Hg' Hl]. fold m' in Hl, Hg'. split.
  - destruct (l_life _ _ Hl pds) as [_ Hlife]. destruct (GOOD_life _ Hg' pds) as [_ Hon].
    destruct (src_on (durable m') pds); [|done]. specialize (Hon eq_refl). specialize (Hlife Ht). lia.
  - intros r <- Hin. destruct (l_fence _ _ Hl r Ht Hin); [done|]. lia.
Qed.

(** While the service runs, the job document and the policy in
    memory are the durable ones, and every unfinished job carries that policy: no
    job survives the adoption of a new one, in whatever way the process ended. *)
Theorem unfinished_jobs_current : m_up m = true →
  st_state (m_store m) = Some (m_data m) ∧ st_policy (m_store m) = Some (m_policy m) ∧
  ∀ id j, d_Jobs (m_data m) !! id = Some j → unfinished j = true → j_Policy j = m_policy m.
Proof.
  intros Hup. pose proof (turns_good ts sender advancer gate require) as Hg. unfold GOOD in Hg. rewrite Hup in Hg.
  split; [apply Hg|]. split; [apply Hg|]. intros id j Hj Hu.
  destruct (do_jobs _ _ _ _ (i_doc _ Hg) id j Hj). auto.
Qed.

(** C24 (bounds): a row on record is under the job and repository it speaks of, and
    counts between one and [maxRepositoryAttempts] attempts. *)
Theorem retry_budget jobID did r : st_retry (m_store m) !! (jobID, did) = Some r →
  rt_JobID r = jobID ∧ rt_DID r = did ∧ 1 ≤ rt_Attempts r ≤ maxRepositoryAttempts.
Proof.
  intros Hl. pose proof (GOOD_DOWN _ (turns_good ts sender advancer gate require)) as Hd.
  destruct (dn_rows _ Hd _ _ Hl) as [[= <- <-] ?]. done.
Qed.
End theorems.

(** ** Witnesses *)

Lemma demo_end_eq : do_turns demo_run demo_blank = demo_end.
Proof. vm_refl. Qed.

Lemma receipts_archived_witness : j_SourceRevision demo_job = 5 ∧ j_State demo_job = Complete.
Proof.
  split; [vm_refl|]. refine (proj1 (receipts_archived demo_run true true None false demo_job _)).
  change (demo_job ∈ m_receipts (do_turns demo_run demo_blank)). rewrite demo_end_eq. apply list_elem_of_here.
Defined.

Lemma complete_jobs_covered_witness : ∃ listed, st_inventory (m_store demo_end) !! j_ID demo_job = Some listed ∧ listed !! demo_did = Some "3l3qo2vutsw2a".
Proof.
  destruct (complete_jobs_covered demo_run true true None false (m_data demo_end) (j_ID demo_job) demo_complete) as (listed & Hl & _).
  - change (st_state (m_store (do_turns demo_run demo_blank)) = Some (m_data demo_end)). rewrite demo_end_eq. vm_refl.
  - vm_refl.
  - vm_refl.
  - change (st_inventory (m_store (do_turns demo_run demo_blank)) !! j_ID demo_job = Some listed) in Hl. rewrite demo_end_eq in Hl.
    exists listed. split; [exact Hl|]. revert Hl. vm_compute. by intros [= <-].
Defined.


Lemma removal_end_eq : do_turns removal demo_blank = removal_end.
Proof. vm_refl. Qed.
Lemma fenced_end_eq : do_turns after_removal removal_end = fenced_end.
Proof. vm_refl. Qed.

Lemma removed_source_fenced_witness : src_tomb (durable removal_end) "https://pds.org" = 6 ∧ src_on (durable fenced_end) "https://pds.org" = false.
Proof.
  split; [vm_refl|]. pose proof (removed_source_fenced removal true true None false after_removal "https://pds.org") as Hf.
  change (blank true true None false) with demo_blank in Hf. cbv zeta in Hf. rewrite removal_end_eq, fenced_end_eq in Hf.
  apply Hf; vm_compute; congruence.
Defined.

Lemma pending_end_eq : do_turns pending_run demo_blank = pending_end.
Proof. vm_refl. Qed.

Lemma unfinished_jobs_current_witness : m_up pending_end = true ∧ st_policy (m_store pending_end) = Some (m_policy pending_end).
Proof.
  split; [vm_refl|]. pose proof (unfinished_jobs_current pending_run true true None false) as Hu.
  change (blank true true None false) with demo_blank in Hu. rewrite pending_end_eq in Hu. apply Hu. vm_refl.
Defined.

Lemma stalled_end_eq : do_turns (H0 := stalled_pds) stalled_run demo_blank = stalled_end.
Proof. vm_refl. Qed.

Lemma retry_budget_witness : rt_State stalled_row = RetryUnresolved ∧ 1 ≤ rt_Attempts stalled_row ≤ maxRepositoryAttempts.
Proof.
  split; [vm_refl|]. pose proof (retry_budget (H0 := stalled_pds) stalled_run true true None false (j_ID demo_job) demo_did stalled_row) as Hb.
  change (blank true true None false) with demo_blank in Hb. rewrite stalled_end_eq in Hb. apply Hb. vm_refl.
Defined.

(** ** A request that is lost *)

Lemma stale_end_eq : do_turns stale_run demo_blank = stale_end.
Proof. vm_refl. Qed.

(** A request for a backfill at the source's current revision is
    answered with a job of an older revision that an operator had retried, because
    requests do not compare the revision of the job they find.  The runner cancels
    that job, no backfill of the current revision is left, and the same request is
    refused from then on. *)
Theorem request_absorbed_by_stale_job : let m := do_turns stale_run demo_blank in
  src_rev (m_data m) "https://pds.org" = 6 ∧ d_Requests (m_data m) !! "r1" = Some stale_id ∧
  (∃ j, d_Jobs (m_data m) !! stale_id = Some j ∧ j_SourceRevision j = 5 ∧ j_State j = Canceled) ∧
  forallb (λ j, negb (String.eqb (j_Reason j) "backfill" && (j_SourceRevision j =? 6))) (job_list (m_data m)) = true ∧
  snd (RequestOnceWithSourceRevision "https://pds.org" "backfill" "r1" 6 m) = Err ErrConflict.
Proof.
  cbv zeta. rewrite stale_end_eq. split; [vm_refl|]. split; [vm_refl|]. split; [|split; vm_refl].
  eexists. split; [vm_compute; reflexivity|]. split; reflexivity.
Qed.
