(* ===== verification/Control.v ===== *)
(** * The private interfaces between the services

    First Jetstream's, then the relay's. *)

From S2P Require Import Prelude GoStrings Syntax Stream StateMonad Hostname Relay RelayAccount RelayHost RelaySources SourceURL JobsData Selection JobsRetry Jobs JobsPds.
Local Open Scope Z_scope.

(** * Jetstream's private control interface:
      [src/jetstream/internal/hypercerts/control/handler.go]

    The routes that change policy, sources and jobs, and the one that shows a job.
    Handlers take the decoded body, or [None] for one that does not decode;
    numbers of a body are [uint64].  The view of a job leaves out its diagnostics,
    whose reading may fail. *)

Inductive jview : Type := JNone | JJob (j : Job) | JPolicy (p : Policy).
Record JReply := mkJReply { jr_Status : Z; jr_Error : string; jr_View : jview }.
Definition jerror (status : Z) (code : string) : JReply := mkJReply status code JNone.

Definition failure (e : jobs_err) : JReply :=
  match root_cause e with
  | ErrPolicyAdoptionNotReady => jerror 503 "policy_adoption_not_ready"
  | ErrNotFound => jerror 404 "not_found"
  | ErrConflict | ErrRevision => jerror 409 "state_conflict"
  | ErrInvalidInput => jerror 400 "invalid_input"
  | _ => jerror 500 "persistence_error"
  end.

Section handlers.
Context `{JobServices} `{PdsServices}.

Definition jdecoded {A} (body : option A) (k : A → JM JReply) : JM JReply :=
  match body with None => mret (jerror 400 "invalid_json") | Some input => k input end.

(** The result of a call of the manager, replied. *)
Definition answered {A} (m : JM A) (k : A → JM JReply) : JM JReply :=
  attempt m (λ res, match res with Ok a => k a | Err e => mret (failure e) end).

(** [jobViewByID], for [DiagnosticSnapshots] of one job. *)
Definition jobViewByID (id : string) : JM Job :=
  d ← dataM;
  match d_Jobs d !! id with None => throw ErrNotFound | Some j => storeop ;; mret j end.

(** Another request may come between the command and the view. *)
Definition show (status : Z) (id : string) : JM JReply :=
  answered (sync (jobViewByID id)) (λ j, mret (mkJReply status "" (JJob j))).

Definition setPolicy (body : option (Z * option (list string))) : JM JReply :=
  jdecoded body (λ '(expected, collections),
    match collections with
    | None => mret (jerror 400 "collections_required")
    | Some collections =>
        attempt (Normalize collections) (λ normal,
          match normal with
          | Err _ => mret (jerror 400 "invalid_collections")
          | Ok _ => answered (SetPolicy (uint64 expected) collections) (λ p, mret (mkJReply 200 "" (JPolicy p)))
          end)
    end).

Definition addSource_handler (body : option (string * Z)) : JM JReply :=
  jdecoded body (λ '(pds, revision), answered (AddSourceWithRevision pds (uint64 revision)) (λ j, show 202 (j_ID j))).

Definition removeSource_handler (body : option (string * Z)) : JM JReply :=
  jdecoded body (λ '(pds, revision), answered (RemoveSourceWithRevision pds (uint64 revision)) (λ _, mret (mkJReply 204 "" JNone))).

Definition requestJob_handler (body : option (string * string * string * Z)) : JM JReply :=
  jdecoded body (λ '(pds, reason, requestID, revision),
    answered (RequestOnceWithSourceRevision pds reason requestID (uint64 revision)) (λ j, show 202 (j_ID j))).

Definition getJob (id : string) : JM JReply := show 200 id.
Definition cancelJob (id key : string) : JM JReply := answered (TransitionOnce id Canceled key) (λ _, getJob id).
Definition retryJob (id key : string) : JM JReply := answered (TransitionOnce id Pending key) (λ _, getJob id).

(** ** The guarded service *)

Inductive jet_request : Type :=
| JGetPolicy | JPutPolicy (body : option (Z * option (list string)))
| JPostSource (body : option (string * Z)) | JDeleteSource (body : option (string * Z))
| JGetJob (id : string) | JPostJob (body : option (string * string * string * Z))
| JCancelJob (id key : string) | JRetryJob (id key : string).

Definition jet_route (req : jet_request) : JM JReply :=
  match req with
  | JGetPolicy => p ← current_policy; mret (mkJReply 200 "" (JPolicy p))
  | JPutPolicy body => setPolicy body
  | JPostSource body => addSource_handler body
  | JDeleteSource body => removeSource_handler body
  | JGetJob id => getJob id
  | JPostJob body => requestJob_handler body
  | JCancelJob id key => cancelJob id key
  | JRetryJob id key => retryJob id key
  end.

Variable sha256 : string → string.

(** [ServeHTTP] *)
Definition ServeHTTP (token header : string) (req : jet_request) : JM JReply :=
  if HasPrefix header "Bearer " && String.eqb (sha256 (String.substring 7 (String.length header - 7) header)) (sha256 token)
  then jet_route req else mret (jerror 401 "unauthorized").
End handlers.

(** * The private control interface of the relay: [src/cmd/relay/control.go], and
      the calls Jetstream makes to it, [jobs/receipt.go]

    A bearer token guards every route.  Jetstream reports a completed job on the
    route [recovery-receipt] and a policy change on [recovery-policy].  Bodies are
    decoded by Go's JSON package; a handler here takes the decoded body, or [None]
    for one that does not decode.  The two routes of rate policies are left out.
    At the end, how the relay hands a source over to Jetstream
    ([source_handoff.go], [send]). *)

(** ** Replies *)

Inductive observed : Type := ObsNone | ObsView (v : SourceView) | ObsPage (p : list SourceView * Z).

Record Reply := mkReply { rep_Status : Z; rep_Error : string; rep_Observed : observed }.

Definition controlError (status : Z) (code : string) : Reply := mkReply status code ObsNone.

(** The status and code of an error, by the first sentinel that matches.  The
    sentinel of the rate policies, second in the source, is left out with them,
    and so is the view that a failed validation shows beside its code. *)
Definition controlCodes : list (sentinel * (Z * string)) :=
  [(ErrInvalidAccountQuota, (400, "account_quota_must_be_a_nonnegative_safe_integer"%string));
   (ErrSourceNotFound, (404, "source_not_found"%string));
   (ErrSourceRevisionConflict, (409, "revision_conflict"%string));
   (ErrRecoveryReceiptConflict, (409, "recovery_receipt_conflict"%string));
   (ErrInvalidRecoveryReceipt, (400, "invalid_recovery_receipt"%string));
   (ErrInvalidSourceURL, (400, "invalid_source"%string));
   (ErrInvalidSourceState, (400, "invalid_source"%string));
   (ErrSourceValidationFailed, (422, "source_validation_failed"%string));
   (ErrSourceDomainBanned, (422, "source_validation_failed"%string))].

Definition controlCode (e : goerr) : Z * string :=
  match List.find (λ c, errors_Is e c.1) controlCodes with Some c => c.2 | None => (500, "service_error"%string) end.

Definition controlResult (res : result goerr observed) : Reply :=
  match res with
  | Ok v => mkReply 200 "" v
  | Err e => let '(status, code) := controlCode e in controlError status code
  end.

(** ** Handlers *)

Section handlers.
Context `{Services}.

Definition replyView (m : R SourceView) : R Reply :=
  attempt m (λ res, mret (controlResult (match res with Ok v => Ok (ObsView v) | Err e => Err e end))).

(** [controlDecode], whose failure is answered at once. *)
Definition decoded {A} (body : option A) (k : A → R Reply) : R Reply :=
  match body with None => mret (controlError 400 "invalid_json") | Some input => k input end.

Definition source_state (s : string) : option SourceState :=
  List.find (λ state, String.eqb s (SourceState_string state)) [SourceStateEnabled; SourceStateDisabled; SourceStateRemoved].

(** [controlSetSource].  The source lock is taken by each call anew: [between n]
    is what other callers do before the [n]-th one (and [between 1] during the
    network check of the validation). *)
Definition set_source (between : nat → R unit) (pds : string) (state : SourceState) : R SourceView :=
  view ← (if bool_decide (state = SourceStateEnabled) then
      view ← AddSource pds;
      if bool_decide (view_ValidationStatus view = SourceValidationPassed) then mret view
      else between 0%nat ;; ValidateSource (between 1%nat) (view_HostID view) (view_Revision view)
    else InspectSource pds);
  between 2%nat ;;
  SetSourceState (view_HostID view) (view_Revision view) state.

Definition controlSetSource (between : nat → R unit) (body : option (string * string)) : R Reply :=
  decoded body (λ '(pds, state),
    match source_state state with
    | None => mret (controlError 400 "invalid_source_state")
    | Some state => replyView (set_source between pds state)
    end).

Definition controlAdvanceRecoveryPolicy (body : option RecoveryPolicyAdvanceInput) : R Reply :=
  decoded body (λ input, replyView (AdvanceSourceRecoveryPolicy input)).

Definition controlAcknowledgeRecovery (body : option RecoveryReceiptInput) : R Reply :=
  decoded body (λ input, replyView (AcknowledgeSourceRecovery input)).

Definition controlSetQuota (time : string) (body : option (string * option Z * option Z)) : R Reply :=
  decoded body (λ '(pds, expected, limit),
    match expected, limit with
    | Some expected, Some limit => replyView (SetSourceAccountQuota pds expected limit time)
    | _, _ => mret (controlError 400 "account_quota_required")
    end).

(** [strconv.ParseUint(s, 10, 64)] *)
Fixpoint parse_digits (n : Z) (s : string) : option Z :=
  match s with
  | "" => Some n
  | String c s =>
      let n := n * 10 + (Z.of_N (N_of_ascii c) - 48) in
      if is_digit c && (n <? 2 ^ 64) then parse_digits n s else None
  end.
Definition ParseUint (s : string) : option Z := if String.eqb s "" then None else parse_digits 0 s.

Definition controlListSources (after : string) : R Reply :=
  match ParseUint after with
  | None => if String.eqb after "" then attempt (ListSources 0 100) (λ res, mret (controlResult (match res with Ok p => Ok (ObsPage p) | Err e => Err e end)))
            else mret (controlError 400 "invalid_cursor")
  | Some n => attempt (ListSources n 100) (λ res, mret (controlResult (match res with Ok p => Ok (ObsPage p) | Err e => Err e end)))
  end.

(** ** The guarded service *)

Inductive control_request : Type :=
| GetSources (after : string)
| GetSource (pds : string)
| PutSource (body : option (string * string))
| PostRecoveryPolicy (body : option RecoveryPolicyAdvanceInput)
| PostRecoveryReceipt (body : option RecoveryReceiptInput)
| PutQuota (body : option (string * option Z * option Z)).

Definition route (between : nat → R unit) (time : string) (req : control_request) : R Reply :=
  match req with
  | GetSources after => controlListSources after
  | GetSource pds => replyView (InspectSource pds)
  | PutSource body => controlSetSource between body
  | PostRecoveryPolicy body => controlAdvanceRecoveryPolicy body
  | PostRecoveryReceipt body => controlAcknowledgeRecovery body
  | PutQuota body => controlSetQuota time body
  end.

Variable sha256 : string → string.

Definition authorized (token header : string) : bool :=
  HasPrefix header "Bearer " && String.eqb (sha256 token) (sha256 (String.substring 7 (String.length header - 7) header)).

(** [controlHandler]: no handler for a token that is too short. *)
Definition controlHandler (token : string) : option (string → (nat → R unit) → string → control_request → R Reply) :=
  if len token <? 32 then None
  else Some (λ header between time req,
    if authorized token header then route between time req else mret (controlError 401 "unauthorized")).

End handlers.

(** ** Jetstream's side *)

(** The body of [Send]. *)
Definition receipt_input (job : Job) : RecoveryReceiptInput :=
  mkReceiptInput (j_PDS job) (j_SourceRevision job) (pol_Revision (j_Policy job)) (j_ID job) "current_state_complete".
(** The body of [AdvancePolicy]. *)
Definition advance_input (pds : string) (sourceRevision policyRevision : Z) : RecoveryPolicyAdvanceInput :=
  mkAdvanceInput pds sourceRevision policyRevision.

(** What a client reads of a reply: the status code, and whether a 404 says
    [source_not_found]. *)
Definition reply_outcome (rep : Reply) : result string (Z * bool) :=
  Ok (rep_Status rep, String.eqb (rep_Error rep) "source_not_found").

(** What [Send] returns for the relay's answer. *)
Definition Send_outcome (rep : Reply) : option jobs_err := relay_response (reply_outcome rep).

(** ** The relay's side *)

Section handoff.
Context `{JobServices} `{PdsServices}.

(** The state that a handoff asks for. *)
Definition asks_on (q : SourceHandoff) : bool :=
  String.eqb (normalizeHandoffState (hand_State q)) (SourceState_string SourceStateEnabled).

(** The request of [send]: POST to add, DELETE to remove. *)
Definition handoff_request (q : SourceHandoff) : jet_request :=
  let body := Some (hand_PDS q, hand_SourceRevision q) in
  if asks_on q then JPostSource body else JDeleteSource body.

Definition job_states : list string := ["running"; "complete"; "canceled"; "incomplete"; "pending"; "failed"]%string.

(** What [send] takes for an acknowledgement: of an addition, only the job of
    exactly this source and revision. *)
Definition handoff_acknowledged (q : SourceHandoff) (rep : JReply) : bool :=
  if asks_on q then
    (jr_Status rep =? 202) &&
    match jr_View rep with
    | JJob j =>
        existsb (String.eqb (State_string (j_State j))) job_states
        && String.eqb (j_PDS j) (hand_PDS q) && (j_SourceRevision j =? hand_SourceRevision q)
        && negb (pol_Revision (j_Policy j) =? 0) && negb (String.eqb (j_ID j) "") && String.eqb (j_Reason j) "source_added"
    | _ => false
    end
  else jr_Status rep =? 204.

(** [send] to a Jetstream that takes the request: whether it was acknowledged. *)
Definition send_handoff (q : SourceHandoff) : JM bool :=
  rep ← jet_route (handoff_request q); mret (handoff_acknowledged q rep).
End handoff.
