(* ===== verification/Recovery.v ===== *)
(** * What Jetstream's control interface guarantees

    Every route keeps the invariant of the jobs; an acknowledged handoff is on
    record.  The second part puts both services together. *)

From S2P Require Import Prelude GoStrings Syntax Stream StateMonad Hostname Relay RelayAccount RelayHost RelaySources RelayVerify RelayIngest RelayFrame RelayAccountProofs RelaySourceProofs RelayAdminProofs RelayOps RelayHandoffs RelayExamples SourceURL JobsData Selection JobsRetry Jobs JobsPds JobsInv JobsLogic JobsQuiet JobsRun JobsTurns JobsTheorems Control.
Local Open Scope Z_scope.

Section routes.
Context `{JobServices} `{PdsServices}.

(** ** The invariant *)

Lemma quiet_answered {A} (m : JM A) k : quietly m → (∀ a, quietly (k a)) → quietly (answered m k).
Proof. intros Hm Hk d p. apply Q_attempt; [apply Hm|]. intros [a|e]; [apply Hk|]. intros ? ?. apply Q_idle, idle_ret. Qed.
Lemma quiet_ret {A} (a : A) : quietly (mret a : JM A).
Proof. intros d p. apply Q_idle, idle_ret. Qed.

Lemma idle_jobViewByID id : idle (jobViewByID id).
Proof. unfold jobViewByID. idles. Qed.

Lemma quiet_show status id : quietly (show status id).
Proof.
  apply quiet_answered; [|intros j; apply quiet_ret]. apply quiet_sync. intros d p. apply Q_idle, idle_jobViewByID.
Qed.

Lemma quiet_jet_route req : quietly (jet_route req).
Proof.
  destruct req as [|[[expected [collections|]]|]|[[pds rev]|]|[[pds rev]|]|id|[[[[pds reason] requestID] rev]|]|id key|id key];
    try apply quiet_ret; cbn [jet_route setPolicy addSource_handler removeSource_handler requestJob_handler jdecoded].
  - intros d p. apply Q_idle, idle_bind; [apply idle_gets|]. intros. apply idle_ret.
  - intros d p. apply Q_attempt; [apply Q_idle, idle_Normalize|]. intros [?|?]; [|apply quiet_ret].
    apply quiet_answered; [apply quiet_SetPolicy|]. intros. apply quiet_ret.
  - apply quiet_answered; [apply quiet_AddSourceWithRevision, uint64_range|]. intros. apply quiet_show.
  - apply quiet_answered; [apply quiet_RemoveSourceWithRevision|]. intros. apply quiet_ret.
  - apply quiet_show.
  - apply quiet_answered; [apply quiet_RequestOnceWithSourceRevision|]. intros. apply quiet_show.
  - apply quiet_answered; [apply quiet_TransitionOnce|]. intros. apply quiet_show.
  - apply quiet_answered; [apply quiet_TransitionOnce|]. intros. apply quiet_show.
Qed.

Lemma route_keeps req m : m_up m = true → GOOD m → GOOD (jet_route req m).1 ∧ later m (jet_route req m).1.
Proof.
  intros Hup Hg. unfold GOOD in Hg. rewrite Hup in Hg. pose proof (wpQ_quietly m (jet_route req) Hg (quiet_jet_route req)) as Hw.
  unfold wpQ, wp in Hw. assert (Hp : Post m (jet_route req m).1) by by destruct (jet_route req m) as [m' []].
  destruct Hp as [Hi Hf%frame_grows]. split; [|by apply grows_later]. unfold GOOD. by rewrite (g_up _ _ Hf), Hup.
Qed.

(** ** Handoffs *)

(** Of an addition, Jetstream has the revision or a later one on record; of a
    removal it has a tombstone, unless the source was added at a later revision. *)
Definition on_record (d : data) (q : SourceHandoff) : Prop :=
  if asks_on q then hand_SourceRevision q ≤ src_rev d (hand_PDS q)
  else ∃ pds, normalizeSource fold_case (hand_PDS q) = Some pds ∧ uint64 (hand_SourceRevision q) ≤ src_rev d pds ∧
    (0 < uint64 (hand_SourceRevision q) → uint64 (hand_SourceRevision q) < src_rev d pds ∨ uint64 (hand_SourceRevision q) ≤ src_tomb d pds).

Lemma on_record_life d d' q : life d d' → on_record d q → on_record d' q.
Proof.
  intros Hl. unfold on_record. destruct (asks_on q); [destruct (Hl (hand_PDS q)); lia|].
  intros (pds & Hn & Hr & Ht). exists pds. destruct (Hl pds) as [Hr' Ht']. split; [done|]. split; [lia|]. intros Hpos.
  destruct (Ht Hpos); [left; lia|]. destruct (Ht' ltac:(lia)); [left|right]; lia.
Qed.

Lemma removed_wp raw rev m : INV m →
  wp (RemoveSourceWithRevision raw rev)
     (λ _ m', Post m m' ∧ ∃ pds, normalizeSource fold_case raw = Some pds ∧ rev ≤ src_tomb (m_data m') pds) (λ _ m', Post m m') m.
Proof.
  intros Hi. eapply wp_mono; [| |apply (wp_conj _ _ (λ _ m', ∃ pds, normalizeSource fold_case raw = Some pds ∧ rev ≤ src_tomb (m_data m') pds) _ (λ _ _, True) _
    (wpQ_quietly m _ Hi (quiet_RemoveSourceWithRevision raw rev)))]; [done|by intros e m' []|].
  unfold RemoveSourceWithRevision, origin. destruct (normalizeSource fold_case raw) as [pds|]; [|done].
  apply wp_bind, wp_ret, wp_gets_bind. cbv zeta. set (r := if rev =? 0 then _ else rev).
  assert (Hr : rev ≤ r) by (unfold r; destruct (Z.eqb_spec rev 0); [|done]; pose proof (uint64_range (src_rev (m_data m) pds + 1)); lia).
  clearbody r. case_match; [done|]. apply wp_bind. unfold now, wp at 1, jcall.
  apply wp_bind. unfold commit, save, store_write. apply wp_bind, wp_bind.
  eapply wp_mono; [| |apply idle_storeop]; [|done]. intros [] m1 _. apply wp_modify, wp_modify.
  unfold cancel_stale_running. apply wp_get_bind. cbv zeta. eapply (wp_mono _ (λ _ m', rev ≤ src_tomb (m_data m') pds) _ (λ _ _, True)); [intros ? m' Hm'; by exists pds|done|].
  assert (Ht : ∀ x, src_tomb (m_data x) pds = r → wp (if negb (String.eqb (m_runningID x) "") && String.eqb (j_PDS (default zeroJob (d_Jobs (m_data x) !! m_runningID x))) pds && true
    then cancel_running else mret tt) (λ _ m', rev ≤ src_tomb (m_data m') pds) (λ _ _, True) x).
  { intros x Hx. case_match; [apply wp_modify; simpl; lia|apply wp_ret; lia]. }
  apply Ht. simpl. unfold src_tomb. by case_match; simpl; rewrite lookup_insert_eq.
Qed.

(** The view of a job is of a job on record. *)
Lemma show_wp status id m : INV m →
  wp (show status id) (λ rep m', Post m m' ∧ ∀ j, jr_View rep = JJob j → j_SourceRevision j ≤ src_rev (m_data m') (j_PDS j)) (λ _ _, False) m.
Proof.
  intros Hi. unfold show, answered, sync. apply wp_attempt, wp_bind.
  eapply wp_mono; [| |apply (wpQ_quietly m _ Hi quiet_interleave)]; [|intros e m1 H1; apply wp_ret; split; [done|]].
  2: { intros j. cbn. unfold failure. by case_match. }
  intros ? m1 H1. unfold jobViewByID. apply wp_gets_bind.
  destruct (d_Jobs (m_data m1) !! id) as [j|] eqn:Hj; [|apply wp_throw, wp_ret; by split].
  apply wp_bind. eapply wp_mono; [| |apply idle_storeop].
  - intros [] m2 [Hst _]. apply wp_ret, wp_ret. destruct H1 as [Hi1 Hf1].
    split; [apply Post_trans with m1; [by split|by apply Post_still]|]. intros j' [= <-]. destruct Hst as [k ->].
    exact (do_revisions _ _ _ _ (i_doc m1 Hi1) id j Hj).
  - intros e m2 Hst. apply wp_ret. destruct H1 as [Hi1 Hf1].
    split; [apply Post_trans with m1; [by split|by apply Post_still]|]. intros j'. cbn. unfold failure. by case_match.
Qed.

(** An acknowledged handoff is on record. *)
Lemma send_recorded q m : INV m →
  wp (send_handoff q) (λ ok m', Post m m' ∧ (ok = true → on_record (m_data m') q)) (λ _ _, False) m.
Proof.
  intros Hi. unfold send_handoff, handoff_request, handoff_acknowledged, on_record. apply wp_bind.
  destruct (asks_on q); cbn [jet_route addSource_handler removeSource_handler jdecoded]; unfold answered; apply wp_attempt.
  - eapply wp_mono; [| |apply (wpQ_quietly m _ Hi (quiet_AddSourceWithRevision _ _ (proj1 (uint64_range _))))].
    + intros j m1 H1. eapply wp_mono; [| |apply (show_wp 202 (j_ID j) m1 (proj1 H1))]; [|done].
      intros rep m2 [H2 Hv]. apply wp_ret. split; [by apply Post_trans with m1|]. intros Hok.
      apply andb_true_iff in Hok as [_ Hok]. destruct (jr_View rep) as [|j'|]; [done| |done]. specialize (Hv j' eq_refl).
      bool_to_prop. match goal with Hp : j_PDS j' = _, Hr : j_SourceRevision j' = _ |- _ => by rewrite Hp, Hr in Hv end.
    + intros e m1 H1. apply wp_ret, wp_ret. split; [done|]. unfold failure. by case_match.
  - eapply wp_mono; [| |apply (removed_wp _ _ m Hi)].
    + intros _ m1 [H1 (pds & Hn & Ht)]. apply wp_ret, wp_ret. split; [done|]. intros _. exists pds. split; [done|].
      destruct (do_life _ _ _ _ (i_doc m1 (proj1 H1)) pds) as [Hl _]. split; [lia|]. by right.
    + intros e m1 H1. apply wp_ret, wp_ret. split; [done|]. unfold failure. by case_match.
Qed.

Lemma send_keeps q m : m_up m = true → GOOD m →
  GOOD (send_handoff q m).1 ∧ later m (send_handoff q m).1 ∧
  ((send_handoff q m).2 = Ok true → on_record (durable (send_handoff q m).1) q).
Proof.
  intros Hup Hg. unfold GOOD in Hg. rewrite Hup in Hg. pose proof (send_recorded q m Hg) as Hw. unfold wp in Hw.
  destruct (send_handoff q m) as [m' [ok|e]]; [|done]. destruct Hw as [[Hi Hf%frame_grows] Hok]. simpl.
  split; [unfold GOOD; by rewrite (g_up _ _ Hf), Hup|]. split; [by apply grows_later|]. intros [= ->].
  unfold durable. rewrite (i_state m' Hi). by apply Hok.
Qed.
End routes.

(** * Recovery across the relay and Jetstream

    A source's recovery obligation on the relay is cleared by the receipt that
    Jetstream sends when its job is complete.  Here the two models are put
    together: what one receipt does, what Jetstream makes of the answer, and what
    a cleared obligation means, in every state the two services reach together. *)

(** ** One receipt *)

(** The source that a URL names. *)
Definition named_source (pds : string) (d : DB) : option Source :=
  match ParseHostname pds with
  | Err _ => None
  | Ok (hostname, _) =>
      h ← List.find (hostname_is hostname) (hosts d);
      List.find (source_is (host_ID h)) (sources d)
  end.

(** Whether a source waits for this receipt. *)
Definition awaits (input : RecoveryReceiptInput) (s : Source) : Prop :=
  is_enabled s = true ∧ src_Revision s = in_SourceRevision input ∧
  (src_RecoveryPolicyRevision s = 0 ∨ src_RecoveryPolicyRevision s = in_PolicyRevision input).

(** What the sender is told of a receipt, and why. *)
Definition receipt_outcome (input : RecoveryReceiptInput) (r r' : Relay) (answer : option jobs_err) : Prop :=
  match answer with
  | None => ∃ s x, named_source (in_PDS input) (db r) = Some s ∧ awaits input s ∧
      src_set_recovery false s ∈ sources (db r') ∧ x ∈ receipts (db r') ∧ recorded input x
  | Some ErrReceiptStale => db r' = db r ∧ ∃ s, named_source (in_PDS input) (db r) = Some s ∧ ¬ awaits input s
  | Some ErrReceiptSourceMissing => db r' = db r ∧ named_source (in_PDS input) (db r) = None
  | Some _ => db r' = db r
  end.

(** An error that carries none of the three sentinels a client tells apart. *)
Definition plain (e : goerr) : Prop :=
  errors_Is e ErrSourceNotFound = false ∧ errors_Is e ErrSourceRevisionConflict = false ∧ errors_Is e ErrRecoveryReceiptConflict = false.

Lemma plain_answer e : plain e → ∃ msg, Send_outcome (controlResult (Err e)) = Some (OtherErr msg).
Proof.
  intros (H1 & H2 & H3). unfold controlResult, controlCode, controlCodes. cbn [List.find fst]. rewrite H1, H2, H3.
  repeat match goal with |- context [errors_Is e ?x] => destruct (errors_Is e x); [eexists; reflexivity|] end. eexists; reflexivity.
Qed.

(** The row of an acknowledged receipt is on record, now or before. *)
Lemma insert_receipt_has x rows : ∃ x', x' ∈ insert_receipt x rows ∧ ∀ input, recorded input x → recorded input x'.
Proof.
  unfold insert_receipt. destruct (existsb (same_boundary x) rows) eqn:He.
  - apply existsb_exists in He as (x' & Hin & Hsame). exists x'. split; [by apply list_elem_of_In|].
    unfold same_boundary in Hsame. bool_to_prop. intros input (? & ? & ? & hostname & noSSL & ? & ?).
    split_and!; [congruence..|]. exists hostname, noSSL. split; congruence.
  - exists x. split; [apply elem_of_app; right; by left|done].
Qed.

Section receipt.
Context `{Services}.

Lemma source_by_url_named pds msg r : NoDup (map host_ID (hosts (db r))) →
  wp (source_by_url pds msg)
     (λ x r', db r' = db r ∧ named_source pds (db r) = Some x.1 ∧ src_HostID x.1 = host_ID x.2 ∧
        ∃ hostname noSSL, ParseHostname pds = Ok (hostname, noSSL) ∧ sourceHostURL x.2 = BaseURL hostname noSSL)
     (λ e r', db r' = db r ∧ (plain e ∨ e = Sentinel ErrSourceNotFound ∧ named_source pds (db r) = None)) r.
Proof.
  intros Hi. unfold source_by_url, named_source. destruct (ParseHostname pds) as [[hostname noSSL]|] eqn:Hp; [|split; [done|by left]].
  apply wp_bind, wp_wrap, query_wp; [|split; [done|by left]].
  destruct (List.find (hostname_is hostname) (hosts (db r))) as [h|] eqn:Hf; [|split; [done|by right]].
  pose proof Hf as Hfind. apply find_some in Hf as [Hin Hname]. apply list_elem_of_In in Hin.
  case_match eqn:Hssl; [split; [done|by left]|]. unfold sourceAndHostLocked. apply wp_bind, wp_wrap, query_wp; [|split; [done|by left]].
  simpl. destruct (List.find (source_is (host_ID h)) (sources (db r))) as [s|] eqn:Hs; [|split; [done|by right]].
  apply wp_bind, wp_wrap, query_wp; [|split; [done|by left]]. simpl.
  destruct (List.find (host_is (host_ID h)) (hosts (db r))) as [h'|] eqn:Hh.
  - rewrite (find_host_unique _ _ _ Hi Hin Hh). apply wp_ret. simpl. split_and!; [done|done| |].
    + apply find_some in Hs as [_ Hid]. unfold source_is in Hid. by bool_to_prop.
    + exists hostname, noSSL. split; [done|]. apply negb_false_iff, eqb_prop in Hssl. unfold hostname_is in Hname. bool_to_prop.
      unfold sourceHostURL. by rewrite Hname, Hssl.
  - exfalso. apply list_elem_of_In in Hin. pose proof (find_none _ _ Hh h Hin) as Hn. unfold host_is in Hn. by rewrite Z.eqb_refl in Hn.
Qed.

(** A source that was found is the one row of its id. *)
Lemma named_source_in pds d s : named_source pds d = Some s → s ∈ sources d.
Proof.
  unfold named_source. destruct (ParseHostname pds) as [[hostname ?]|]; [|done].
  destruct (List.find (hostname_is hostname) _) as [h|]; [|done]. intros Hf. simpl in Hf. apply find_some in Hf as [Hin _].
  by apply list_elem_of_In.
Qed.

Lemma AcknowledgeSourceRecovery_outcome input r :
  NoDup (map src_HostID (sources (db r))) → NoDup (map host_ID (hosts (db r))) →
  wp (AcknowledgeSourceRecovery input)
     (λ _ r', receipt_outcome input r r' None)
     (λ e r', db r' = db r ∧ (plain e ∨
        e = Sentinel ErrSourceNotFound ∧ named_source (in_PDS input) (db r) = None ∨
        e = Sentinel ErrRecoveryReceiptConflict ∧ ∃ s, named_source (in_PDS input) (db r) = Some s ∧ ¬ awaits input s)) r.
Proof.
  intros Hs Hi. unfold AcknowledgeSourceRecovery. case_match; [split; [done|by left]|]. apply wp_bind.
  eapply wp_mono; [| |by apply source_by_url_named]; [|intros e r1 (Hdb & [?|?]); split; by auto].
  intros [s h] r1 (Hdb & Hnamed & Hid & hostname & noSSL & Hp & Hurl). simpl in *.
  destruct (_ || _) eqn:Hg.
  { split; [done|]. right; right. split; [done|]. exists s. split; [done|]. intros (He & Hr & Hpol). rewrite He in Hg. simpl in Hg.
    rewrite Hr, Z.eqb_refl in Hg. simpl in Hg. apply andb_true_iff in Hg as [Hg1 Hg2]. apply negb_true_iff in Hg1, Hg2.
    apply Z.eqb_neq in Hg1, Hg2. tauto. }
  assert (Haw : awaits input s).
  { apply orb_false_iff in Hg as [Hg Hpol]. apply orb_false_iff in Hg as [Hen Hrev]. apply negb_false_iff in Hen, Hrev.
    split_and!; [done|by bool_to_prop|]. apply andb_false_iff in Hpol as [Hpol|Hpol]; apply negb_false_iff in Hpol; bool_to_prop; auto. }
  clear Hg. cbv zeta. apply wp_bind. apply Transaction_wp; [by split; [|left]|].
  apply wp_bind, wp_wrap, exec_wp; [|split; [done|by left]]. apply wp_catch. unfold update_source. apply wp_bind. unfold dbop. apply wp_bind.
  unfold wp at 1, call. simpl tick. destruct (db_fail _); [split; [done|by left]|]. apply wp_ret, wp_gets_bind, wp_bind, wp_modify.
  simpl. rewrite Hdb. pose proof (named_source_in _ _ _ Hnamed) as Hin. destruct Haw as (He & Hr & Hpol).
  set (p := λ s0 : Source, source_is (src_HostID s) s0 && (src_Revision s0 =? in_SourceRevision input) && is_enabled s0).
  assert (Hps : p s = true) by (unfold p, source_is; by rewrite Z.eqb_refl, Hr, Z.eqb_refl, He).
  rewrite (count_where_one src_HostID p _ s); [|done|done|done|].
  2:{ intros y _ Hy. unfold p, source_is in Hy. by bool_to_prop. }
  simpl. apply wp_ret. split; [|intros msg; by split; [|left]].
  unfold sourceViewLocked. simpl src_HostID. rewrite Hid, Z.eqb_refl. simpl. apply wp_gets_bind, wp_attempt.
  apply query_wp; [|intros msg]; apply wp_ret; simpl.
  all: set (x := mkReceipt (sourceHostURL h) (host_ID h) (in_SourceRevision input) (in_PolicyRevision input) (in_JobID input) (in_DurableBoundary input)).
  all: destruct (insert_receipt_has x (receipts (db r))) as (x' & Hx' & Hrec); exists s, x'; split_and!; [done|by split_and!| |done|].
  1,3: apply elem_of_update_where; exists s; split; [done|]; fold p; by rewrite Hps.
  all: eapply Hrec; [split_and!|..]; try done; by exists hostname, noSSL.
Qed.

(** C25 (error): Jetstream is told the truth about a receipt.  The answer says
    accepted only when the source the receipt names waited for it, and then the
    obligation is cleared and the receipt on record; it says stale, upon which the
    receipt is never sent again, only when that source is off, at another revision
    or under another policy; it says the source is missing only when no host or
    source has the name; and on every error the database is as before. *)
Theorem receipt_answer input r :
  NoDup (map src_HostID (sources (db r))) → NoDup (map host_ID (hosts (db r))) →
  ∃ r' rep, controlAcknowledgeRecovery (Some input) r = (r', Ok rep) ∧ receipt_outcome input r r' (Send_outcome rep).
Proof.
  intros Hs Hh. pose proof (AcknowledgeSourceRecovery_outcome input r Hs Hh) as Hw.
  unfold controlAcknowledgeRecovery, decoded, replyView, attempt. unfold wp in Hw.
  destruct (AcknowledgeSourceRecovery input r) as [r' [v|e]]; eexists _, _; (split; [reflexivity|]); [exact Hw|].
  destruct Hw as [Hdb [Hpl|[[-> Hm]|[-> Hst]]]]; [|by split..]. destruct (plain_answer e Hpl) as [msg ->]. done.
Qed.
End receipt.

(** ** The two services together *)

Section system.
Context `{Services} `{JobServices} `{PdsServices}.

(** The receipts of these jobs. *)
Definition receipt_of (net : list Job) (input : RecoveryReceiptInput) : Prop := ∃ job, job ∈ net ∧ input = receipt_input job.

(** What the relay and Jetstream reach together from empty databases.  The network
    may delay, repeat or lose the receipts [net] that Jetstream has sent, and the
    relay may take one in the middle of another operation.  A delivery of the relay
    succeeds only for a handoff that Jetstream has acknowledged, in [done].  The
    relay's answers to Jetstream are arbitrary; Jetstream runs any turns, and takes
    handoffs and the requests of other clients between them. *)
Inductive reach (sender advancer : bool) (gate : option string) (require : bool) :
  Relay → list Job → list SourceHandoff → Manager → Prop :=
| reach_start r : hosts (db r) = [] → sources (db r) = [] → receipts (db r) = [] → handoffs (db r) = [] →
    reach sender advancer gate require r [] [] (blank sender advancer gate require)
| reach_relay r net done m o : reach sender advancer gate require r net done m →
    acks_in (receipt_of net) o → sends_in (λ q, q ∈ done) o → reach sender advancer gate require (run_op o r).1 net done m
| reach_jobs r net done m t : reach sender advancer gate require r net done m →
    reach sender advancer gate require r net done (do_turn t m)
| reach_receipt r net done m job : reach sender advancer gate require r net done m → job ∈ m_receipts m →
    reach sender advancer gate require r (job :: net) done m
| reach_request r net done m req : reach sender advancer gate require r net done m → m_up m = true →
    reach sender advancer gate require r net done (jet_route req m).1
| reach_handoff r net done m q : reach sender advancer gate require r net done m → m_up m = true →
    (send_handoff q m).2 = Ok true → reach sender advancer gate require r net (q :: done) (send_handoff q m).1.

Record joint (r : Relay) (net : list Job) (done : list SourceHandoff) (m : Manager) : Prop := {
  jt_sources : sinv (db r);
  jt_receipts : rinv (receipt_of net) (db r);
  jt_handoffs : qinv (λ q, q ∈ done) None (db r);
  jt_jobs : GOOD m;
  jt_net : Forall (receipt_ok (m_archive m)) net;
  jt_done : Forall (on_record (durable m)) done;
}.

Lemma rinv_weaken (P Q : RecoveryReceiptInput → Prop) d : (∀ i, P i → Q i) → rinv P d → rinv Q d.
Proof. intros Himp [a b c]. split; [done..|]. eapply Forall_impl; [exact c|]. intros x (i & ? & ?). exists i. auto. Qed.

Lemma joint_later r net done m m' : joint r net done m → GOOD m' → later m m' → joint r net done m'.
Proof.
  intros [a b c d e f] Hg Hl. split; try assumption.
  - destruct (l_archive _ _ Hl) as [l ->]. eapply Forall_impl; [exact e|]. intros job. apply receipt_ok_mono.
    intros x Hx. apply elem_of_app. by left.
  - eapply Forall_impl; [exact f|]. intros q. apply on_record_life, Hl.
Qed.

Lemma reach_joint sender advancer gate require r net done m : reach sender advancer gate require r net done m → joint r net done m.
Proof.
  induction 1 as [r Hh Hs Hx Hq|r net done m o _ IH Ha Hd|r net done m t _ IH|r net done m job _ IH Hin|r net done m req _ IH Hup|r net done m q _ IH Hup Hok].
  - split; [| | |apply GOOD_blank|done|done].
    + split; rewrite Hs; [constructor|done|done].
    + split; rewrite ?Hh, ?Hx; [constructor|done|done].
    + split; rewrite ?Hh, ?Hs, ?Hq; cbn [map]; try done; try apply NoDup_nil_2.
      * by intros ? ?%not_elem_of_nil.
      * by intros ? ? ?%not_elem_of_nil.
  - pose proof IH as [a b c d e f]. split; [by apply (run_op_src o)|by apply run_op_rec| |done..].
    by apply (run_op_q (λ q, q ∈ done) o).
  - destruct (turn_keeps t m (jt_jobs _ _ _ _ IH)). by apply joint_later with m.
  - pose proof IH as [a b c d e f]. split; try done.
    + eapply rinv_weaken; [|exact b]. intros i (j & ? & ?). exists j. split; [by right|done].
    + constructor; [|done]. apply GOOD_DOWN in d. by apply (proj1 (Forall_forall _ _) (dn_receipts _ d)).
  - destruct (route_keeps req m Hup (jt_jobs _ _ _ _ IH)). by apply joint_later with m.
  - destruct (send_keeps q m Hup (jt_jobs _ _ _ _ IH)) as (Hg & Hl & Hrec).
    destruct (joint_later _ _ _ _ _ IH Hg Hl) as [a b c d e f]. split; try done; [|constructor; [by apply Hrec|done]].
    eapply qinv_weaken; [|exact c]. intros q' Hq'. by right.
Qed.

(** C5 (safety): a recovered source is an archived one.  In every state that the
    relay and Jetstream reach together, a source the relay no longer holds to be in
    recovery is enabled, and there is a job of Jetstream for its host, at exactly
    its current revision and its current policy, that is complete: at least as many
    repositories are completed as the host's listing had, and the archive has a
    snapshot of each, from the job's source, with the policy's collections. *)
Theorem recovered_sources_archived sender advancer gate require r net done m s : reach sender advancer gate require r net done m →
  s ∈ sources (db r) → src_RecoveryRequired s = false →
  is_enabled s = true ∧ ∃ job h hostname noSSL,
    h ∈ hosts (db r) ∧ host_ID h = src_HostID s ∧
    ParseHostname (j_PDS job) = Ok (hostname, noSSL) ∧ sourceHostURL h = BaseURL hostname noSSL ∧
    j_SourceRevision job = src_Revision s ∧
    (src_RecoveryPolicyRevision s = 0 ∨ pol_Revision (j_Policy job) = src_RecoveryPolicyRevision s) ∧
    j_State job = Complete ∧ j_TotalReposKnown job = true ∧ j_TotalRepos job ≤ Z.of_nat (size (j_CompletedRepos job)) ∧
    ∀ did rev, j_CompletedRepos job !! did = Some rev →
      ∃ a, a ∈ m_archive m ∧ rc_PDS a = j_PDS job ∧ sn_DID (rc_snapshot a) = did ∧ sn_Rev (rc_snapshot a) = rev ∧
           sn_Collections (rc_snapshot a) = pol_Collections (j_Policy job).
Proof.
  intros Hr Hin Hrec. destruct (reach_joint _ _ _ _ _ _ _ _ Hr) as [Hsi Hri _ _ Hn _].
  destruct (proj1 (Forall_forall _ _) (si_recovery _ Hsi) s Hin Hrec) as (He & h & x & Hh & Hid & Hx & Hpds & Hrev & Hpol).
  destruct (proj1 (Forall_forall _ _) (ri_receipts _ _ Hri) x Hx) as (input & (job & Hjob & ->) & Hxr & Hxp & _ & hostname & noSSL & Hparse & Hurl).
  destruct (proj1 (Forall_forall _ _) Hn job Hjob) as (Hc & Hk & Ht & Harch).
  split; [done|]. exists job, h, hostname, noSSL. simpl in *. split_and!; try done; try congruence.
Qed.

Lemma asks_on_effective h s q : carries h s q → asks_on q = bool_decide (effectiveState s h = SourceStateEnabled).
Proof.
  intros [_ Hsup]. unfold superseded in Hsup. apply orb_false_iff in Hsup as [_ Hn]. apply negb_false_iff, String.eqb_eq in Hn.
  unfold asks_on. rewrite <-Hn. by destruct (effectiveState s h).
Qed.

(** C6 (safety): no change of a source is lost on the way to Jetstream, but for
    bans from the stream.  In every state the relay and Jetstream reach together,
    take a source that was changed since it was added and whose last change is not
    a ban that the slurper reported.  Once no handoff of it is queued any more,
    Jetstream has its current revision, or a later one, on record; and if the
    source is off, by its state, its failed check or a banned host, and Jetstream's
    revision is the current one, Jetstream has turned it off. *)
Theorem handoffs_arrive sender advancer gate require r net done m s h : reach sender advancer gate require r net done m →
  s ∈ sources (db r) → h ∈ hosts (db r) → host_ID h = src_HostID s →
  src_LastOperation s ≠ "add"%string → src_LastOperation s ≠ "ban"%string →
  (∀ q, q ∈ handoffs (db r) → hand_HostID q ≠ host_ID h) →
  if bool_decide (effectiveState s h = SourceStateEnabled)
  then src_Revision s ≤ src_rev (durable m) (sourceHostURL h)
  else ∃ pds, normalizeSource fold_case (sourceHostURL h) = Some pds ∧ src_Revision s ≤ src_rev (durable m) pds ∧
    (0 < src_Revision s → src_rev (durable m) pds = src_Revision s → src_on (durable m) pds = false).
Proof.
  intros Hr Hs Hh Hid Hop1 Hop2 Hempty. destruct (reach_joint _ _ _ _ _ _ _ _ Hr) as [_ _ Hq Hg _ Hdone].
  destruct (qi_rows _ _ _ Hq s h Hs Hh Hid ltac:(done)) as [[_ Hrng] [[|]|(q & Hc & [[Hin Hqi]|Hin])]]; [done..|by destruct (Hempty q Hin)|].
  pose proof (proj1 (Forall_forall _ _) Hdone q Hin) as Hrec. unfold on_record in Hrec. rewrite (asks_on_effective h s q Hc) in Hrec.
  destruct Hc as [Hp Hsup]. unfold superseded in Hsup. apply orb_false_iff in Hsup as [Hrev _].
  apply negb_false_iff, Z.eqb_eq in Hrev. rewrite <-Hp. rewrite <-Hrev in Hrec. case_bool_decide; [done|].
  rewrite uint64_small in Hrec by done. destruct Hrec as (pds & Hn & Hle & Ht). exists pds. split; [done|]. split; [done|].
  intros Hpos Heq. destruct (GOOD_life m Hg pds) as [Hl Hon]. destruct (src_on (durable m) pds); [|done].
  specialize (Hon eq_refl). destruct (Ht Hpos); lia.
Qed.
End system.

(** ** A joint run *)

#[local] Existing Instance ex_services.
#[local] Instance SourceHandoff_eq_dec : EqDecision SourceHandoff.
Proof. solve_decision. Defined.

Definition fresh_relay : Relay := mkRelay (mkDB [] [] [] [] [] [] [] [] [] 1 1 1) ∅ [] ∅ ∅ 0.
(** A source is added and passes its check, which leaves it at revision 2 and its
    handoff in the queue. *)
Definition joint_start : list RelayOps.op := [OpAddSource "https://pds.org" false; OpValidate [] 1 1].
Definition joint_before : Relay := Eval vm_compute in (run_ops joint_start fresh_relay).1.
Definition joint_row : SourceHandoff := Eval vm_compute in default (mkHandoff 0 "" 0 "" 0 0) (head (handoffs (db joint_before))).
(** Jetstream starts, takes the handoff, and runs the job to its receipt. *)
Definition joint_open : turn := TOpen ["org.hypercerts.claim"] [].
Definition joint_up : Manager := Eval vm_compute in do_turn joint_open demo_blank.
Definition joint_taken : Manager := Eval vm_compute in (send_handoff joint_row joint_up).1.
Definition joint_jobs : Manager := Eval vm_compute in do_turns [TPass; TPass; TOp (OpDeliver 0)] joint_taken.
Definition joint_job : Job := Eval vm_compute in default zeroJob (head (m_receipts joint_jobs)).
(** The relay learns of both. *)
Definition joint_send (q : SourceHandoff) (n : nat) : option string := if decide (q = joint_row) then None else Some "unreachable"%string.
Definition joint_handed : Relay := Eval vm_compute in (run_op (OpHandoffs joint_send []) joint_before).1.
Definition joint_after : Relay := Eval vm_compute in (run_op (OpAcknowledge (receipt_input joint_job)) joint_handed).1.
Definition joint_source : Source := Eval vm_compute in default (mkSource 0 SourceStateRemoved 0 "" SourceValidationPending None SourceValidationReasonNone true 0) (head (sources (db joint_after))).
Definition joint_host : Host := Eval vm_compute in default (mkHost 0 "" false 0 false "" 0 0) (head (hosts (db joint_after))).

Example joint_cleared : map src_RecoveryRequired (sources (db joint_before)) = [true] ∧ map src_RecoveryRequired (sources (db joint_after)) = [false] ∧
  handoffs (db joint_before) = [joint_row] ∧ handoffs (db joint_after) = [].
Proof. split_and!; reflexivity. Qed.

Lemma joint_reach : reach true true None false joint_after [joint_job] [joint_row] joint_jobs.
Proof.
  assert (Ha : joint_after = (run_op (OpAcknowledge (receipt_input joint_job)) joint_handed).1) by vm_refl.
  assert (Hd : joint_handed = (run_op (OpHandoffs joint_send []) joint_before).1) by vm_refl.
  assert (Hb : joint_before = (run_op (OpValidate [] 1 1) (run_op (OpAddSource "https://pds.org" false) fresh_relay).1).1) by vm_refl.
  assert (Hj : joint_jobs = do_turn (TOp (OpDeliver 0)) (do_turn TPass (do_turn TPass joint_taken))) by vm_refl.
  assert (Ht : joint_taken = (send_handoff joint_row joint_up).1) by vm_refl.
  assert (Hu : joint_up = do_turn joint_open demo_blank) by vm_refl.
  rewrite Ha. apply reach_relay; [|exists joint_job; split; [by left|done]|done].
  apply reach_receipt; [|vm_compute; left].
  rewrite Hd. apply reach_relay; [|done|split; [|done]].
  2: { intros q n. unfold joint_send. case_decide; [subst; intros _; by left|done]. }
  rewrite Hj. do 3 apply reach_jobs. rewrite Ht. apply reach_handoff; [|vm_refl|vm_refl].
  rewrite Hu. apply reach_jobs. rewrite Hb. do 2 (apply reach_relay; [|done..]). by apply reach_start.
Qed.

Lemma recovered_sources_archived_witness : src_Revision joint_source = 2 ∧ is_enabled joint_source = true.
Proof.
  split; [reflexivity|].
  refine (proj1 (recovered_sources_archived true true None false joint_after [joint_job] [joint_row] joint_jobs joint_source joint_reach _ _)); [by left|reflexivity].
Defined.

Lemma handoffs_arrive_witness : src_LastOperation joint_source = "validate"%string ∧ 2 ≤ src_rev (durable joint_jobs) "https://pds.org".
Proof.
  split; [reflexivity|].
  refine (handoffs_arrive true true None false joint_after [joint_job] [joint_row] joint_jobs joint_source joint_host joint_reach _ _ _ _ _ _);
    [by left|by left|reflexivity|done|done|intros q Hq; by apply not_elem_of_nil in Hq].
Defined.

Lemma receipt_answer_witness : map src_RecoveryRequired (sources (db joint_before)) = [true] ∧
  ∃ r' rep, controlAcknowledgeRecovery (Some (receipt_input joint_job)) joint_before = (r', Ok rep) ∧
    receipt_outcome (receipt_input joint_job) joint_before r' (Send_outcome rep).
Proof.
  split; [reflexivity|]. apply (receipt_answer (receipt_input joint_job) joint_before); compute_done.
Defined.

(** The slurper reports the host as banned: before the handoff was sent, it goes
    stale; after it, Jetstream keeps the source on. *)
Definition joint_banned : Relay := Eval vm_compute in (run_op (OpHostStatus 1 HostStatusBanned) joint_after).1.
Definition joint_queued : Source := Eval vm_compute in default joint_source (head (sources (db joint_before))).

Lemma joint_banned_reach : reach true true None false joint_banned [joint_job] [joint_row] joint_jobs.
Proof.
  assert (Hb : joint_banned = (run_op (OpHostStatus 1 HostStatusBanned) joint_after).1) by vm_refl.
  rewrite Hb. apply reach_relay; [exact joint_reach|done|done].
Qed.

Example ban_not_handed_on : map (λ s, (src_Revision s, is_enabled s)) (sources (db joint_banned)) = [(3, false)] ∧
  handoffs (db joint_banned) = [] ∧ src_on (durable joint_jobs) "https://pds.org" = true.
Proof. split_and!; reflexivity. Qed.

Lemma stream_ban_unqueued_witness :
  let r' := (UpdateHostStatus 1 HostStatusBanned joint_before).1 in
  handoffs (db r') = [joint_row] ∧
  ∃ s', s' ∈ sources (db r') ∧ src_HostID s' = 1 ∧ is_enabled s' = false ∧ src_RecoveryRequired s' = true ∧
    src_Revision s' = uint64 (src_Revision joint_queued + 1) ∧
    ∀ h q, superseded joint_queued h q = false → ∀ h', superseded s' h' q = true.
Proof.
  apply (stream_ban_unqueued 1 joint_before _ joint_queued); [vm_compute; reflexivity|by left|reflexivity|reflexivity|split; done].
Defined.
