(* ===== verification/Segment.v ===== *)
(** * Segment files: [src/jetstream/segment]

    Jetstream archives events in segment files, as blocks of up to
    [MaxEventsPerBlock] events.  A block's body is columnar: the number of events,
    then each fixed-size field of all events, then the lengths of the strings, then
    the strings ([block.go], [event.go]).  Strings are [String.string], payloads are
    bytes, and integers have the width of their column.  A Go [int] has 64 bits.

    The second part is the active file: its writer ([writer.go], [zstd.go]), which
    appends one compressed frame per block and resumes after a crash, and the scan
    of its blocks ([scan.go], [seal.go]).  A file is its bytes and how many of them
    are known to be durable; writes may fail half-way and syncs may fail, as the
    class [SegIO] says, and [zstd] is the class [Zstd].  Reads do not fail.  A crash
    keeps the durable bytes and a prefix of those behind them; a file system that writes
    them back out of order, or undoes a truncation, is outside of the model.  The
    life of a file is a sequence of appends, flushes, prepared (asynchronous) flushes
    and crashes.  Sealed files are in [SegSeal.v], but for the block index, which a
    failed seal can leave behind. *)

From Stdlib Require Import Strings.Byte.
From coqutil Require Import Byte Word.LittleEndianList.
From S2P Require Import Prelude GoStrings StateMonad.
Local Open Scope Z_scope.

Abbreviation bytes := (list Byte.byte).
#[export] Instance byte_EqDecision : EqDecision Byte.byte := Byte.byte_eq_dec.

Inductive seg_err : Type :=
| ErrInvalidKind | ErrFieldTooLong | errTruncatedBlock | ErrDecompress
| ErrCorruptSegment | ErrSegmentSealed | ErrActiveSegment | ErrInvalidFooter | ErrInvalidBlockIndex
| ErrChecksumMismatch | ErrBlockOutOfRange | ErrClosed | ErrBufferFull | ErrIO (op : string).

(** ** Events *)

Definition KindCreate : Z := 1.
Definition KindUpdate : Z := 2.
Definition KindDelete : Z := 3.
Definition KindIdentity : Z := 4.
Definition KindAccount : Z := 5.
Definition KindSync : Z := 6.
Definition KindCreateResync : Z := 7.

Definition Kind_Valid (k : Z) : bool := (KindCreate <=? k) && (k <=? KindCreateResync).
Definition Kind_IsMaterialization (k : Z) : bool := (k =? KindCreate) || (k =? KindUpdate) || (k =? KindCreateResync).
Definition Kind_IsCommit (k : Z) : bool := (k =? KindCreate) || (k =? KindUpdate) || (k =? KindDelete) || (k =? KindCreateResync).

Record Event := mkEvent {
  ev_Seq : Z; ev_WitnessedAt : Z; ev_IndexedAt : Z;
  ev_UpstreamRelayCursor : Z;   (* in memory only *)
  ev_Kind : Z;
  ev_DID : string; ev_Collection : string; ev_Rkey : string; ev_Rev : string;
  ev_Payload : bytes;
}.

Definition len_bytes (b : bytes) : Z := Z.of_nat (length b).

Definition segment_ValidateEvent (ev : Event) : result seg_err unit :=
  if negb (Kind_Valid (ev_Kind ev)) then Err ErrInvalidKind
  else if 2 ^ 16 - 1 <? len (ev_DID ev) then Err ErrFieldTooLong
  else if 2 ^ 8 - 1 <? len (ev_Collection ev) then Err ErrFieldTooLong
  else if 2 ^ 8 - 1 <? len (ev_Rkey ev) then Err ErrFieldTooLong
  else if 2 ^ 8 - 1 <? len (ev_Rev ev) then Err ErrFieldTooLong
  else if 2 ^ 32 - 1 <? len_bytes (ev_Payload ev) then Err ErrFieldTooLong
  else Ok tt.

(** ** Columns and their encoding *)

(** The data behind the interface [columns], which the pending block of a writer
    and a list of events both implement. *)
Record columns := mkColumns {
  c_seq : list Z; c_witnessedAt : list Z; c_indexedAt : list Z; c_kind : list Z;
  c_collLen : list Z; c_didLen : list Z; c_rkeyLen : list Z; c_revLen : list Z; c_eventLen : list Z;
  c_collections : bytes; c_dids : bytes; c_rkeys : bytes; c_revs : bytes; c_payloads : bytes;
}.

Definition uint8 (z : Z) : Z := uint_wrap 8 z.
Definition uint16 (z : Z) : Z := uint_wrap 16 z.

Definition str_bytes (s : string) : bytes := String.list_byte_of_string s.

Definition eventColumns (evs : list Event) : columns :=
  mkColumns (map ev_Seq evs) (map ev_WitnessedAt evs) (map ev_IndexedAt evs) (map ev_Kind evs)
    (map (λ e, uint8 (len (ev_Collection e))) evs) (map (λ e, uint16 (len (ev_DID e))) evs)
    (map (λ e, uint8 (len (ev_Rkey e))) evs) (map (λ e, uint8 (len (ev_Rev e))) evs)
    (map (λ e, uint32 (len_bytes (ev_Payload e))) evs)
    (flat_map (λ e, str_bytes (ev_Collection e)) evs) (flat_map (λ e, str_bytes (ev_DID e)) evs)
    (flat_map (λ e, str_bytes (ev_Rkey e)) evs) (flat_map (λ e, str_bytes (ev_Rev e)) evs)
    (flat_map ev_Payload evs).

Definition column (w : nat) (vs : list Z) : bytes := flat_map (le_split w) vs.

(** The columns in the order of the format, without the number of events. *)
Definition encodeColumns (c : columns) : bytes :=
  column 8 (c_seq c) ++ column 8 (map uint64 (c_witnessedAt c)) ++ column 8 (map uint64 (c_indexedAt c))
  ++ column 1 (c_kind c) ++ column 1 (c_collLen c) ++ column 2 (c_didLen c)
  ++ column 1 (c_rkeyLen c) ++ column 1 (c_revLen c) ++ column 4 (c_eventLen c)
  ++ c_collections c ++ c_dids c ++ c_rkeys c ++ c_revs c ++ c_payloads c.

Definition encodeBlockInto (dst : bytes) (c : columns) : bytes :=
  dst ++ le_split 4 (uint32 (Z.of_nat (length (c_seq c)))) ++ encodeColumns c.

Definition encodeBlockColumns (c : columns) : bytes := encodeBlockInto [] c.

Definition encodeBlock (events : list Event) : result seg_err bytes :=
  match events with
  | [] => Err (ErrIO "encodeBlock called with zero events")
  | _ => Ok (encodeBlockColumns (eventColumns events))
  end.

Definition encodeEmptyBlock : bytes := [x00; x00; x00; x00]%byte.

(** ** Decoding *)

Definition maxBlockEventsLimit : Z := 2 ^ 18.
Definition fixedPerEvent : Z := 8 + 8 + 8 + 1 + 1 + 2 + 1 + 1 + 4.
Definition maxInt : Z := 2 ^ 63 - 1.

(** The next [n] bytes, and what is left. *)
Definition read (n : Z) (buf : bytes) : result seg_err (bytes * bytes) :=
  if len_bytes buf <? n then Err errTruncatedBlock
  else Ok (take (Z.to_nat n) buf, drop (Z.to_nat n) buf).

(** The [n] integers of [w] bytes of a column. *)
Fixpoint uints (w n : nat) (b : bytes) : list Z :=
  match n with O => [] | S n => le_combine (take w b) :: uints w n (drop w b) end.

(** [sumU8] and [sumU16] *)
Definition sumU (lens : list Z) : result seg_err Z :=
  foldl (λ acc v, t ← acc; let nt := int64 (t + v) in
    if (nt <? t) || (maxInt <? nt) then Err errTruncatedBlock else Ok nt) (Ok 0) lens.

Definition sumU32 (lens : list Z) : result seg_err Z :=
  foldl (λ acc v, t ← acc; let nt := int64 (t + v) in
    if maxInt <? nt then Err errTruncatedBlock else Ok nt) (Ok 0) lens.

(** The pieces of these lengths, one after the other. *)
Fixpoint cut (lens : list Z) (blob : bytes) : list bytes :=
  match lens with
  | [] => []
  | l :: lens => take (Z.to_nat l) blob :: cut lens (drop (Z.to_nat l) blob)
  end.

Definition bytes_str (b : bytes) : string := String.string_of_list_byte b.

(** The [n] events of columns that were read. *)
Definition rows (n : nat) (c : columns) : list Event :=
  let colls := cut (c_collLen c) (c_collections c) in
  let dids := cut (c_didLen c) (c_dids c) in
  let rkeys := cut (c_rkeyLen c) (c_rkeys c) in
  let revs := cut (c_revLen c) (c_revs c) in
  let payloads := cut (c_eventLen c) (c_payloads c) in
  map (λ i,
    mkEvent (nth i (c_seq c) 0) (int64 (nth i (c_witnessedAt c) 0)) (int64 (nth i (c_indexedAt c) 0)) 0
      (nth i (c_kind c) 0) (bytes_str (nth i dids [])) (bytes_str (nth i colls []))
      (bytes_str (nth i rkeys [])) (bytes_str (nth i revs [])) (nth i payloads [])) (seq 0 n).

(** The rest of [decodeBlock], once the number of events is known. *)
Definition decodeColumns (n : nat) (buf : bytes) : result seg_err (list Event) :=
  let nEvents := Z.of_nat n in
  '(seqs, buf) ← read (nEvents * 8) buf;
  '(witnessed, buf) ← read (nEvents * 8) buf;
  '(indexed, buf) ← read (nEvents * 8) buf;
  '(kinds, buf) ← read nEvents buf;
  if negb (forallb Kind_Valid (uints 1 n kinds)) then Err errTruncatedBlock
  else
    '(collLens, buf) ← read nEvents buf;
    '(didLens, buf) ← read (nEvents * 2) buf;
    '(rkeyLens, buf) ← read nEvents buf;
    '(revLens, buf) ← read nEvents buf;
    '(eventLens, buf) ← read (nEvents * 4) buf;
    totalColl ← sumU (uints 1 n collLens);
    totalDID ← sumU (uints 2 n didLens);
    totalRkey ← sumU (uints 1 n rkeyLens);
    totalRev ← sumU (uints 1 n revLens);
    totalPayload ← sumU32 (uints 4 n eventLens);
    '(collBlob, buf) ← read totalColl buf;
    '(didBlob, buf) ← read totalDID buf;
    '(rkeyBlob, buf) ← read totalRkey buf;
    '(revBlob, buf) ← read totalRev buf;
    '(payloadBlob, buf) ← read totalPayload buf;
    if negb (len_bytes buf =? 0) then Err errTruncatedBlock
    else Ok (rows n (mkColumns (uints 8 n seqs) (uints 8 n witnessed) (uints 8 n indexed) (uints 1 n kinds)
           (uints 1 n collLens) (uints 2 n didLens) (uints 1 n rkeyLens) (uints 1 n revLens) (uints 4 n eventLens)
           collBlob didBlob rkeyBlob revBlob payloadBlob)).

Definition decodeBlock (buf : bytes) : result seg_err (list Event) :=
  if len_bytes buf <? 4 then Err errTruncatedBlock
  else
    let nEvents := le_combine (take 4 buf) in
    let buf := drop 4 buf in
    if maxBlockEventsLimit <? nEvents then Err errTruncatedBlock
    else if len_bytes buf <? nEvents * fixedPerEvent then Err errTruncatedBlock
    else if nEvents =? 0 then (if len_bytes buf =? 0 then Ok [] else Err errTruncatedBlock)
    else decodeColumns (Z.to_nat nEvents) buf.

(** ** Frames *)

(** The most that [blockDecoder] decompresses. *)
Definition maxDecodedBlockBytes : Z := 2 ^ 30.

(** [blockEncoder.EncodeAll] and [blockDecoder.DecodeAll] *)
Class Zstd := { EncodeAll : bytes → bytes; DecodeAll : bytes → option bytes }.

Definition ReservedHeaderBytes : Z := 256.
Definition segmentMagic : bytes := str_bytes "jss0".

(** [f.ReadAt(buf, off)] with [n] bytes, all of them in the file *)
Definition ReadAt (n off : Z) (content : bytes) : bytes := take (Z.to_nat n) (drop (Z.to_nat off) content).
Definition Uint64At (off : Z) (content : bytes) : Z := le_combine (ReadAt 8 off content).

(** [lastGoodOffset]; a round consumes at least eight bytes. *)
Fixpoint lastGood_loop (fuel : nat) (content : bytes) (off : Z) : Z :=
  match fuel with
  | O => off
  | S fuel =>
      let size := len_bytes content in
      if size <=? off then off
      else if size - off <? 8 then off
      else
        let frameLen := Uint64At off content in
        let next := int64 (off + 8 + int64 frameLen) in
        if (uint64 (size - off - 8) <? frameLen) || (next <? off) then off
        else lastGood_loop fuel content next
  end.
Definition lastGoodOffset (content : bytes) : Z := lastGood_loop (length content) content ReservedHeaderBytes.

Section frames.
Context `{Zstd}.

Definition decodeBlockCompressed (frame : bytes) : result seg_err (list Event) :=
  match DecodeAll frame with None => Err ErrDecompress | Some body => decodeBlock body end.

Definition decodeBlockCompressedSized (frame : bytes) : result seg_err (list Event * Z) :=
  match DecodeAll frame with
  | None => Err ErrDecompress
  | Some body => events ← decodeBlock body; Ok (events, len_bytes body)
  end.

(** ** Scanning an active file *)

(** The events of the block at [off] and the offset after it; no events at a torn
    tail. *)
Definition scanActiveBlock (content : bytes) (off : Z) : result seg_err (list Event * Z) :=
  let size := len_bytes content in
  if size - off <? 8 then Ok ([], off)
  else
    let frameLen := Uint64At off content in
    if (uint64 (size - off - 8) <? frameLen) || (maxInt <? frameLen) then Ok ([], off)
    else
      let next := int64 (off + 8 + int64 frameLen) in
      events ← decodeBlockCompressed (ReadAt frameLen (off + 8) content);
      match events with [] => Ok ([], off) | _ => Ok (events, next) end.

Definition activeScanSize (content : bytes) : result seg_err Z :=
  let size := len_bytes content in
  if size <? ReservedHeaderBytes then Err ErrCorruptSegment
  else if negb (Uint64At 4 content =? 0) then Err ErrSegmentSealed
  else Ok size.

Fixpoint scanActive_loop (fuel : nat) (content : bytes) (off : Z) : result seg_err (list (list Event)) :=
  match fuel with
  | O => Ok []
  | S fuel =>
      if len_bytes content <=? off then Ok []
      else
        '(events, next) ← scanActiveBlock content off;
        match events with
        | [] => Ok []
        | _ => blocks ← scanActive_loop fuel content next; Ok (events :: blocks)
        end
  end.

(** The blocks that [ScanActiveFS] visits, if the visitor takes them all. *)
Definition ScanActive (content : bytes) : result seg_err (list (list Event)) :=
  _ ← activeScanSize content; scanActive_loop (length content) content ReservedHeaderBytes.

Definition accumulateScanSequences (events : list Event) (maxSeq : Z) (found : bool) : Z * bool :=
  foldl (λ acc ev, if negb acc.2 || (acc.1 <? ev_Seq ev) then (ev_Seq ev, true) else acc) (maxSeq, found) events.

Definition ScanMaxSeq (content : bytes) : result seg_err (Z * bool) :=
  blocks ← ScanActive content; Ok (foldl (λ acc events, accumulateScanSequences events acc.1 acc.2) (0, false) blocks).

(** ** The block index *)

Record BlockInfo := mkInfo {
  bi_Offset : Z; bi_CompressedSize : Z; bi_UncompressedSize : Z; bi_EventCount : Z;
  bi_MinSeq : Z; bi_MaxSeq : Z; bi_MinWitnessedAt : Z; bi_MaxWitnessedAt : Z;
}.

Definition encodeBlockIndex (infos : list BlockInfo) : bytes :=
  flat_map (λ i, le_split 8 (bi_Offset i) ++ le_split 4 (bi_CompressedSize i) ++ le_split 4 (bi_UncompressedSize i)
    ++ le_split 4 (bi_EventCount i) ++ le_split 8 (bi_MinSeq i) ++ le_split 8 (bi_MaxSeq i)
    ++ le_split 8 (uint64 (bi_MinWitnessedAt i)) ++ le_split 8 (uint64 (bi_MaxWitnessedAt i))) infos.

(** Smallest and largest of the numbers of a block. *)
Definition bounds (f : Event → Z) (e : Event) (events : list Event) : Z * Z :=
  foldl (λ b ev, (if f ev <? b.1 then f ev else b.1, if b.2 <? f ev then f ev else b.2)) (f e, f e) events.

Definition block_info (off compressed uncompressed : Z) (events : list Event) : BlockInfo :=
  match events with
  | [] => mkInfo off compressed uncompressed 0 0 0 0 0
  | e :: _ =>
      let '(minSeq, maxSeq) := bounds ev_Seq e events in
      let '(minW, maxW) := bounds ev_WitnessedAt e events in
      mkInfo off (uint32 compressed) (uint32 uncompressed) (uint32 (Z.of_nat (length events))) minSeq maxSeq minW maxW
  end.

(** [readFrameAt] *)
Definition readFrameAt (content : bytes) (off maxOffset : Z) : result seg_err (bytes * Z) :=
  if len_bytes content - off <? 8 then Err (ErrIO "read frame length")
  else
    let frameSize := Uint64At off content in
    if uint64 (maxOffset - off - 8) <? frameSize then Err ErrCorruptSegment
    else Ok (ReadAt frameSize (off + 8) content, 8 + int64 frameSize).

(** ** Walking the frames of an active file *)

(** What the events of a file amount to, besides the block index: the ranges of the
    sequence numbers and times, the DIDs of the file and of each block, and the
    collections with their numbers in the order of their first use. *)
Record blockWalkResult := mkWalk {
  wr_infos : list BlockInfo; wr_totalEventCount : Z; wr_uniqueDIDs : gset string;
  wr_bounds : (Z * Z) * (Z * Z); wr_sawAny : bool;
  wr_perBlockDIDs : list (gset string); wr_perBlockCollections : list (list Z);
  wr_collectionStringTable : list string; wr_collectionEventCounts : list Z; wr_collectionIDByName : gmap string Z;
}.
Definition no_walk : blockWalkResult := mkWalk [] 0 ∅ ((0, 0), (0, 0)) false [] [] [] [] ∅.

Definition set_table (table : list string) (counts : list Z) (ids : gmap string Z) (res : blockWalkResult) : blockWalkResult :=
  mkWalk (wr_infos res) (wr_totalEventCount res) (wr_uniqueDIDs res) (wr_bounds res) (wr_sawAny res) (wr_perBlockDIDs res)
    (wr_perBlockCollections res) table counts ids.

Definition SentinelCollectionAccount : string := "$account".
Definition SentinelCollectionIdentity : string := "$identity".
Definition SentinelCollectionSync : string := "$sync".

Definition didMarkerSentinel (k : Z) : string :=
  if k =? KindAccount then SentinelCollectionAccount
  else if k =? KindIdentity then SentinelCollectionIdentity
  else if k =? KindSync then SentinelCollectionSync else "".

(** [internCollection]; the ids of the block's collections are a set. *)
Definition internCollection (collection : string) (countEvent : bool) (acc : blockWalkResult * gset Z) : result seg_err (blockWalkResult * gset Z) :=
  let '(res, blockCollections) := acc in
  '(res, id) ← match wr_collectionIDByName res !! collection with
    | Some id => Ok (res, id)
    | None =>
        let n := Z.of_nat (length (wr_collectionStringTable res)) in
        if 2 ^ 32 - 1 <=? n then Err ErrInvalidFooter
        else Ok (set_table (wr_collectionStringTable res ++ [collection]) (wr_collectionEventCounts res ++ [0])
                   (<[collection := uint32 n]> (wr_collectionIDByName res)) res, uint32 n)
    end;
  let res := if countEvent
    then set_table (wr_collectionStringTable res) (alter (λ c, uint32 (c + 1)) (Z.to_nat id) (wr_collectionEventCounts res)) (wr_collectionIDByName res) res
    else res in
  Ok (res, {[id]} ∪ blockCollections).

Definition indexEventCollection (ev : Event) (acc : blockWalkResult * gset Z) : result seg_err (blockWalkResult * gset Z) :=
  acc ← (if bool_decide (ev_Collection ev = "") then Ok acc else internCollection (ev_Collection ev) true acc);
  let sentinel := didMarkerSentinel (ev_Kind ev) in
  if bool_decide (sentinel = "") then Ok acc else internCollection sentinel false acc.

Definition widen (b : Z * Z) (v : Z) : Z * Z := (if v <? b.1 then v else b.1, if b.2 <? v then v else b.2).

(** One event of the walk. *)
Definition walk_event (acc : blockWalkResult * gset string * gset Z) (ev : Event) : result seg_err (blockWalkResult * gset string * gset Z) :=
  let '(res, blockDIDs, blockCollections) := acc in
  let bounds := if wr_sawAny res then (widen (wr_bounds res).1 (ev_Seq ev), widen (wr_bounds res).2 (ev_WitnessedAt ev))
                else ((ev_Seq ev, ev_Seq ev), (ev_WitnessedAt ev, ev_WitnessedAt ev)) in
  let dids : gset string := if bool_decide (ev_DID ev = "") then ∅ else {[ev_DID ev]} in
  let res := mkWalk (wr_infos res) (wr_totalEventCount res) (dids ∪ wr_uniqueDIDs res) bounds true (wr_perBlockDIDs res)
    (wr_perBlockCollections res) (wr_collectionStringTable res) (wr_collectionEventCounts res) (wr_collectionIDByName res) in
  '(res, blockCollections) ← indexEventCollection ev (res, blockCollections);
  Ok (res, dids ∪ blockDIDs, blockCollections).

Fixpoint walk_events (acc : blockWalkResult * gset string * gset Z) (events : list Event) : result seg_err (blockWalkResult * gset string * gset Z) :=
  match events with [] => Ok acc | ev :: events => acc ← walk_event acc ev; walk_events acc events end.

(** [sortUint32], an insertion sort *)
Fixpoint sort_insert (v : Z) (s : list Z) : list Z :=
  match s with [] => [v] | x :: s => if v <? x then v :: x :: s else x :: sort_insert v s end.
Definition sortUint32 (s : list Z) : list Z := foldl (λ s v, sort_insert v s) [] s.

(** One block of the walk. *)
Definition walk_block (res : blockWalkResult) (info : BlockInfo) (events : list Event) : result seg_err blockWalkResult :=
  '(res, blockDIDs, blockCollections) ← walk_events (res, ∅, ∅) events;
  Ok (mkWalk (wr_infos res ++ [info]) (uint32 (wr_totalEventCount res + uint32 (Z.of_nat (length events)))) (wr_uniqueDIDs res) (wr_bounds res) (wr_sawAny res)
       (wr_perBlockDIDs res ++ [blockDIDs]) (wr_perBlockCollections res ++ [sortUint32 (elements blockCollections)])
       (wr_collectionStringTable res) (wr_collectionEventCounts res) (wr_collectionIDByName res)).

Fixpoint walk_loop (fuel : nat) (content : bytes) (off : Z) (res : blockWalkResult) : result seg_err blockWalkResult :=
  match fuel with
  | O => Ok res
  | S fuel =>
      if len_bytes content <=? off then Ok res
      else
        '(frame, frameSize) ← readFrameAt content off (len_bytes content);
        '(events, uncompressed) ← decodeBlockCompressedSized frame;
        match events with
        | [] => Ok res
        | _ => res ← walk_block res (block_info off (len_bytes frame) uncompressed events) events;
               walk_loop fuel content (int64 (off + frameSize)) res
        end
  end.
Definition walkActiveFrames (content : bytes) : result seg_err blockWalkResult := walk_loop (length content) content ReservedHeaderBytes no_walk.
End frames.

(** ** The writer of the active file *)

(** A file: its bytes, and how many of them survive a crash for sure. *)
Record File := mkFile { f_data : bytes; f_synced : nat }.

(** Whether the [n]-th write fails, and after how many bytes; whether the [n]-th
    sync, or other change of the directory, fails. *)
Class SegIO := { write_fails : nat → option (string * nat); sync_fails : nat → option string }.

Record pendingBlock := mkPending { pb_columns : columns; pb_bounds : (Z * Z) * (Z * Z); pb_sawAny : bool }.

(** The counters of the prepared blocks. *)
Record prepared_ids := mkIds { nextPreparedBlockID : Z; nextPreparedCommitID : Z; preparedOutstanding : Z }.

Record SegWriter := mkSegWriter {
  sw_file : File; sw_pending : pendingBlock; sw_closed : bool; sw_stickyErr : option seg_err;
  sw_flushedBlocks : list BlockInfo; sw_nextBlockOffset : Z; sw_calls : nat; sw_ids : prepared_ids;
}.

(** A block that was taken out of the buffer to be compressed; blocks of other writers
    do not occur. *)
Record PreparedBlock := mkPrepared { pr_Body : bytes; pr_info : BlockInfo; pr_id : Z; pr_committed : bool }.

Definition no_columns : columns := mkColumns [] [] [] [] [] [] [] [] [] [] [] [] [] [].
(** [reset] *)
Definition no_pending : pendingBlock := mkPending no_columns ((0, 0), (0, 0)) false.
Definition pb_count (p : pendingBlock) : Z := Z.of_nat (length (c_seq (pb_columns p))).

(** The columns of one more event. *)
Definition append_columns (c : columns) (ev : Event) : columns :=
  mkColumns (c_seq c ++ [ev_Seq ev]) (c_witnessedAt c ++ [ev_WitnessedAt ev]) (c_indexedAt c ++ [ev_IndexedAt ev]) (c_kind c ++ [ev_Kind ev])
    (c_collLen c ++ [uint8 (len (ev_Collection ev))]) (c_didLen c ++ [uint16 (len (ev_DID ev))]) (c_rkeyLen c ++ [uint8 (len (ev_Rkey ev))])
    (c_revLen c ++ [uint8 (len (ev_Rev ev))]) (c_eventLen c ++ [uint32 (len_bytes (ev_Payload ev))])
    (c_collections c ++ str_bytes (ev_Collection ev)) (c_dids c ++ str_bytes (ev_DID ev)) (c_rkeys c ++ str_bytes (ev_Rkey ev))
    (c_revs c ++ str_bytes (ev_Rev ev)) (c_payloads c ++ ev_Payload ev).

Definition append_pending (p : pendingBlock) (ev : Event) : pendingBlock :=
  mkPending (append_columns (pb_columns p) ev)
    (if pb_sawAny p then (widen (pb_bounds p).1 (ev_Seq ev), widen (pb_bounds p).2 (ev_WitnessedAt ev))
     else ((ev_Seq ev, ev_Seq ev), (ev_WitnessedAt ev, ev_WitnessedAt ev))) true.

Definition set_file (f : File) (w : SegWriter) : SegWriter :=
  mkSegWriter f (sw_pending w) (sw_closed w) (sw_stickyErr w) (sw_flushedBlocks w) (sw_nextBlockOffset w) (sw_calls w) (sw_ids w).
Definition set_pending (p : pendingBlock) (w : SegWriter) : SegWriter :=
  mkSegWriter (sw_file w) p (sw_closed w) (sw_stickyErr w) (sw_flushedBlocks w) (sw_nextBlockOffset w) (sw_calls w) (sw_ids w).
Definition set_closed (w : SegWriter) : SegWriter :=
  mkSegWriter (sw_file w) (sw_pending w) true (sw_stickyErr w) (sw_flushedBlocks w) (sw_nextBlockOffset w) (sw_calls w) (sw_ids w).
Definition set_sticky (e : seg_err) (w : SegWriter) : SegWriter :=
  mkSegWriter (sw_file w) (sw_pending w) (sw_closed w) (Some e) (sw_flushedBlocks w) (sw_nextBlockOffset w) (sw_calls w) (sw_ids w).
Definition set_ids (ids : prepared_ids) (w : SegWriter) : SegWriter :=
  mkSegWriter (sw_file w) (sw_pending w) (sw_closed w) (sw_stickyErr w) (sw_flushedBlocks w) (sw_nextBlockOffset w) (sw_calls w) ids.
(** What a written block changes before it is synced. *)
Definition add_block (i : BlockInfo) (n : Z) (w : SegWriter) : SegWriter :=
  mkSegWriter (sw_file w) (sw_pending w) (sw_closed w) (sw_stickyErr w) (sw_flushedBlocks w ++ [i]) (sw_nextBlockOffset w + n) (sw_calls w) (sw_ids w).
Definition seg_tick (w : SegWriter) : SegWriter :=
  mkSegWriter (sw_file w) (sw_pending w) (sw_closed w) (sw_stickyErr w) (sw_flushedBlocks w) (sw_nextBlockOffset w) (S (sw_calls w)) (sw_ids w).

(** [data] at [off] of a file; what is overwritten or added is not durable yet. *)
Definition file_write (off : nat) (data : bytes) (f : File) : File :=
  mkFile (take off (f_data f) ++ data ++ drop (off + length data) (f_data f)) (f_synced f `min` off).
Definition file_sync (f : File) : File := mkFile (f_data f) (length (f_data f)).

Section writer.
Context `{Zstd} `{SegIO}.

Abbreviation SW := (StateM SegWriter seg_err).

(** [file.WriteAt], which may stop after some bytes; offsets are [int64] *)
Definition WriteAt (data : bytes) (off : Z) : SW unit :=
  w ← get;
  modify seg_tick ;;
  if maxInt <? off + len_bytes data then throw (ErrIO "file too large")
  else match write_fails (sw_calls w) with
  | None => modify (set_file (file_write (Z.to_nat off) data (sw_file w)) )
  | Some (e, n) => modify (set_file (file_write (Z.to_nat off) (take n data) (sw_file w))) ;; throw (ErrIO e)
  end.

Definition Sync : SW unit :=
  w ← get;
  modify seg_tick ;;
  match sync_fails (sw_calls w) with
  | None => modify (set_file (file_sync (sw_file w)))
  | Some e => throw (ErrIO e)
  end.

(** A failure that the writer does not recover from. *)
Definition sticky {A} (m : SW A) : SW A := catch m (λ e, modify (set_sticky e) ;; throw e).

(** The description of the buffered block, but for its place in the file. *)
Definition pending_info (w : SegWriter) (uncompressed : Z) : BlockInfo :=
  let '((minSeq, maxSeq), (minW, maxW)) := pb_bounds (sw_pending w) in
  mkInfo 0 0 (uint32 uncompressed) (uint32 (pb_count (sw_pending w))) minSeq maxSeq minW maxW.

Definition located (off compressed : Z) (i : BlockInfo) : BlockInfo :=
  mkInfo off compressed (bi_UncompressedSize i) (bi_EventCount i) (bi_MinSeq i) (bi_MaxSeq i) (bi_MinWitnessedAt i) (bi_MaxWitnessedAt i).

(** Writing and syncing a frame, which [flushLocked] and [commitPreparedFlushLocked]
    do alike; [reset] is what is done in between. *)
Definition write_block (frame : bytes) (info : BlockInfo) (reset : SegWriter → SegWriter) : SW unit :=
  w ← get;
  let wire := le_split 8 (uint64 (len_bytes frame)) ++ frame in
  sticky (WriteAt wire (sw_nextBlockOffset w)) ;;
  modify (add_block (located (sw_nextBlockOffset w) (uint32 (len_bytes frame)) info) (len_bytes wire)) ;;
  modify reset ;;
  sticky Sync.

Definition flushLocked : SW unit :=
  w ← get;
  match sw_stickyErr w with
  | Some e => throw e
  | None =>
      if pb_count (sw_pending w) =? 0 then mret tt
      else
        let body := encodeBlockInto [] (pb_columns (sw_pending w)) in
        write_block (EncodeAll body) (pending_info w (len_bytes body)) (set_pending no_pending)
  end.

(** [prepareFlushLocked]; the encoded block leaves the buffer. *)
Definition PrepareFlush : SW (option PreparedBlock) :=
  w ← get;
  match sw_stickyErr w with
  | Some e => throw e
  | None =>
      if pb_count (sw_pending w) =? 0 then mret None
      else
        let body := encodeBlockInto [] (pb_columns (sw_pending w)) in
        let ids := sw_ids w in
        modify (set_pending no_pending) ;;
        modify (set_ids (mkIds (uint64 (nextPreparedBlockID ids + 1)) (nextPreparedCommitID ids) (uint64 (preparedOutstanding ids + 1)))) ;;
        mret (Some (mkPrepared body (pending_info w (len_bytes body)) (nextPreparedBlockID ids) false))
  end.

Definition CompressPreparedBlock (prepared : PreparedBlock) : bytes := EncodeAll (pr_Body prepared).

Definition count_commit (w : SegWriter) : SegWriter :=
  set_ids (mkIds (nextPreparedBlockID (sw_ids w)) (uint64 (nextPreparedCommitID (sw_ids w) + 1)) (uint64 (preparedOutstanding (sw_ids w) - 1))) w.

(** [commitPreparedFlushLocked]; the result is the block as the call leaves it. *)
Definition CommitPreparedFlush (prepared : PreparedBlock) (frame : bytes) : SW PreparedBlock :=
  w ← get;
  match sw_stickyErr w with
  | Some e => throw e
  | None =>
      if pr_committed prepared then throw (ErrIO "prepared block already committed")
      else if negb (pr_id prepared =? nextPreparedCommitID (sw_ids w)) then throw (ErrIO "prepared block order violation")
      else
        write_block frame (pr_info prepared) (λ w, w) ;;
        modify count_commit ;;
        mret (mkPrepared (pr_Body prepared) (pr_info prepared) (pr_id prepared) true)
  end.

Definition Writer_Flush : SW unit :=
  w ← get;
  if sw_closed w then throw ErrClosed
  else match sw_stickyErr w with Some e => throw e | None => flushLocked end.

(** [MaxEventsPerBlock] events fill a block; the result says whether it is full. *)
Definition Append (MaxEventsPerBlock : Z) (ev : Event) : SW bool :=
  w ← get;
  if sw_closed w then throw ErrClosed
  else match sw_stickyErr w with
  | Some e => throw e
  | None =>
      if MaxEventsPerBlock <=? pb_count (sw_pending w) then throw ErrBufferFull
      else
        lift (segment_ValidateEvent ev) ;;
        let p := append_pending (sw_pending w) ev in
        modify (set_pending p) ;;
        mret (MaxEventsPerBlock <=? pb_count p)
  end.

(** [Close], whose closing of the file is left out. *)
Definition Close : SW unit :=
  w ← get;
  if sw_closed w then mret tt
  else match sw_stickyErr w with Some e => throw e
  | None => if 0 <? preparedOutstanding (sw_ids w) then throw (ErrIO "close with uncommitted prepared blocks") else modify set_closed ;; flushLocked end.

(** ** Opening *)

Definition initializeNewSegment : SW unit :=
  WriteAt (segmentMagic ++ repeat x00 (Z.to_nat ReservedHeaderBytes - length segmentMagic)) 0 ;; Sync.

Definition resumeExistingSegment : SW unit :=
  w ← get;
  let content := f_data (sw_file w) in
  let size := len_bytes content in
  if size <? ReservedHeaderBytes then throw ErrCorruptSegment
  else if negb (bool_decide (ReadAt (len_bytes segmentMagic) 0 content = segmentMagic)) then throw ErrCorruptSegment
  else if negb (Uint64At 4 content =? 0) then throw ErrSegmentSealed
  else
    let end_ := lastGoodOffset content in
    if end_ <? size then
      modify (set_file (mkFile (take (Z.to_nat end_) content) (f_synced (sw_file w) `min` Z.to_nat end_))) ;;
      Sync
    else mret tt.

Definition new_writer (f : File) (calls : nat) : SegWriter := mkSegWriter f no_pending false None [] 0 calls (mkIds 0 0 0).

(** [New] on a file, which an earlier process may have left behind; creating the
    directory entry syncs the parent.  Of a new file whose initialisation fails
    nothing is left. *)
Definition New_body : SW unit :=
  w ← get;
  (if len_bytes (f_data (sw_file w)) =? 0 then
     catch initializeNewSegment (λ e, modify (set_file (mkFile [] 0)) ;; throw e) ;;
     w ← get;
     modify seg_tick ;;
     match sync_fails (sw_calls w) with None => mret tt | Some e => throw (ErrIO e) end
   else resumeExistingSegment) ;;
  w ← get;
  let content := f_data (sw_file w) in
  walk ← (if ReservedHeaderBytes <? len_bytes content then lift (walkActiveFrames content) else mret no_walk);
  modify (λ w, mkSegWriter (sw_file w) (sw_pending w) (sw_closed w) (sw_stickyErr w) (wr_infos walk) (len_bytes content) (sw_calls w) (sw_ids w)).

Definition New (f : File) (calls : nat) : SegWriter * result seg_err unit := New_body (new_writer f calls).
End writer.

(** What a crash leaves of a file: the durable bytes and a prefix of the others.  A
    truncation counts as done, also when the sync after it fails. *)
Definition crash (k : nat) (f : File) : File :=
  let k := (f_synced f `max` (k `min` length (f_data f)))%nat in mkFile (take k (f_data f)) k.

(** ** A life of a segment file *)

Inductive seg_op : Type := SegAppend (ev : Event) | SegFlush | SegPrepare | SegCommit | SegCrash (k : nat).

(** The writer and the prepared blocks that are to be committed; the events that were
    accepted, and how many of them are known to be durable.  After a crash these are
    the events that a scan finds. *)
Record seg_life := mkLife { sl_writer : SegWriter; sl_prepared : list PreparedBlock; sl_accepted : list Event; sl_flushed : nat }.

(** The number of events in the buffer and in prepared blocks. *)
Definition buffered (w : SegWriter) (prepared : list PreparedBlock) : nat :=
  Z.to_nat (pb_count (sw_pending w) + foldr Z.add 0 (map (λ p, bi_EventCount (pr_info p)) prepared)).

(** [Flush] must not overtake a prepared block, and blocks are committed in their
    order; the callers see to that.  After a failed [New] nothing more is done. *)
Definition seg_step `{Zstd} `{SegIO} (MaxEventsPerBlock : Z) (s : seg_life) (o : seg_op) : seg_life :=
  let w := sl_writer s in
  match o with
  | SegAppend ev =>
      let '(w, r) := Append MaxEventsPerBlock ev w in
      mkLife w (sl_prepared s) (sl_accepted s ++ match r with Ok _ => [ev] | Err _ => [] end) (sl_flushed s)
  | SegFlush =>
      match sl_prepared s with
      | [] => let '(w, r) := Writer_Flush w in mkLife w [] (sl_accepted s) (match r with Ok _ => length (sl_accepted s) | Err _ => sl_flushed s end)
      | _ => s
      end
  | SegPrepare =>
      let '(w, r) := PrepareFlush w in
      mkLife w (sl_prepared s ++ match r with Ok (Some p) => [p] | _ => [] end) (sl_accepted s) (sl_flushed s)
  | SegCommit =>
      match sl_prepared s with
      | [] => s
      | p :: prepared =>
          match CommitPreparedFlush p (CompressPreparedBlock p) w with
          | (w, Ok _) => mkLife w prepared (sl_accepted s) (length (sl_accepted s) - buffered w prepared)
          | (w, Err _) => mkLife w (sl_prepared s) (sl_accepted s) (sl_flushed s)
          end
      end
  | SegCrash k =>
      let f := crash k (sw_file w) in
      let found := match ScanActive (f_data f) with Ok blocks => length (concat blocks) | Err _ => O end in
      let '(w, r) := New f (sw_calls w) in
      mkLife (match r with Ok _ => w | Err e => set_sticky e w end) [] (take found (sl_accepted s)) (sl_flushed s)
  end.
