(* ===== verification/SegmentProofs.v ===== *)
(** * Segment files are read back as they were written

    The codec of a block is exact: what decodes is what was encoded, byte for
    byte. *)

From Stdlib Require Import Strings.Byte.
From coqutil Require Import Byte Word.LittleEndianList.
From S2P Require Import Prelude GoStrings Segment.
Local Open Scope Z_scope.

#[local] Arguments column : simpl never.
#[local] Arguments encodeColumns : simpl never.
#[local] Arguments bytes_str : simpl never.
#[local] Arguments str_bytes : simpl never.

(** ** Columns of integers *)

Definition fits (w : nat) (v : Z) : Prop := 0 ≤ v < 2 ^ (Z.of_nat w * 8).

Lemma column_cons w v vs : column w (v :: vs) = le_split w v ++ column w vs.
Proof. done. Qed.
Lemma column_length w vs : length (column w vs) = (w * length vs)%nat.
Proof. induction vs as [|v vs IH]; [simpl; lia|]. rewrite column_cons, length_app, length_le_split, IH. simpl. lia. Qed.

Lemma uints_column w vs : Forall (fits w) vs → uints w (length vs) (column w vs) = vs.
Proof.
  induction 1 as [|v vs Hv _ IH]; [done|]. rewrite column_cons. simpl uints.
  rewrite take_app_length', drop_app_length' by by rewrite length_le_split. rewrite IH, le_combine_split. f_equal. by apply Z.mod_small.
Qed.

Lemma uints_length w n b : length (uints w n b) = n.
Proof. revert b. induction n; simpl; auto. Qed.

Lemma column_uints w n b : length b = (w * n)%nat → column w (uints w n b) = b.
Proof.
  revert b. induction n as [|n IH]; intros b Hb; simpl.
  - destruct b; [done|simpl in Hb; lia].
  - rewrite column_cons, IH by (rewrite length_drop; lia). rewrite <-(take_drop w b) at 3. f_equal.
    apply split_le_combine'. rewrite length_take. lia.
Qed.

Lemma uints_fits w n b : length b = (w * n)%nat → Forall (fits w) (uints w n b).
Proof.
  revert b. induction n as [|n IH]; intros b Hb; simpl; constructor; [|apply IH; rewrite length_drop; lia].
  unfold fits. pose proof (le_combine_bound (take w b)) as Hc. rewrite length_take in Hc.
  replace (w `min` length b)%nat with w in Hc by lia. by rewrite Z.mul_comm.
Qed.

(** ** Reading *)

Lemma read_app n x r : len_bytes x = n → read n (x ++ r) = Ok (x, r).
Proof.
  intros <-. unfold read, len_bytes. rewrite length_app. case_match eqn:E; [apply Z.ltb_lt in E; lia|].
  by rewrite Nat2Z.id, take_app_length, drop_app_length.
Qed.

Lemma read_inv n b x r : 0 ≤ n → read n b = Ok (x, r) → b = x ++ r ∧ len_bytes x = n.
Proof.
  intros Hn. unfold read, len_bytes. case_match eqn:E; [done|]. intros [= <- <-]. apply Z.ltb_ge in E.
  rewrite take_drop, length_take. split; [done|lia].
Qed.

Definition sumz (l : list Z) : Z := foldr Z.add 0 l.

Lemma sumz_nonneg w l : Forall (fits w) l → 0 ≤ sumz l.
Proof. induction 1 as [|v l [Hv _] _ IH]; simpl; lia. Qed.

Lemma sum_fold (g : Z → Z → bool) l t : Forall (fits 4) l → 0 ≤ t → t + 2 ^ 32 * Z.of_nat (length l) ≤ maxInt →
  (∀ t nt, t ≤ nt → nt ≤ maxInt → g t nt = false) →
  foldl (λ acc v, s ← acc; let nt := int64 (s + v) in if g s nt then Err errTruncatedBlock else Ok nt) (Ok t) l = Ok (t + sumz l).
Proof.
  intros Hl Ht Hm Hg. revert t Ht Hm. induction Hl as [|v l Hv _ IH]; intros t Ht Hm; simpl; [f_equal; lia|].
  unfold fits in Hv. change (2 ^ (Z.of_nat 4 * 8)) with (2 ^ 32) in Hv. unfold maxInt in *. simpl length in Hm.
  rewrite int64_small by lia. rewrite Hg by lia. rewrite IH by lia. f_equal. lia.
Qed.

Lemma sumU_ok l : Forall (fits 4) l → Z.of_nat (length l) ≤ maxBlockEventsLimit → sumU l = Ok (sumz l).
Proof.
  intros Hl Hn. unfold sumU. rewrite (sum_fold (λ t nt, (nt <? t) || (maxInt <? nt))); [done|done|lia| |].
  - unfold maxBlockEventsLimit, maxInt in *. lia.
  - intros t nt H1 H2. apply orb_false_iff. split; lia.
Qed.
Lemma sumU32_ok l : Forall (fits 4) l → Z.of_nat (length l) ≤ maxBlockEventsLimit → sumU32 l = Ok (sumz l).
Proof.
  intros Hl Hn. unfold sumU32. rewrite (sum_fold (λ _ nt, maxInt <? nt)); [done|done|lia| |].
  - unfold maxBlockEventsLimit, maxInt in *. lia.
  - intros t nt H1 H2. lia.
Qed.

Lemma fits_weaken w w' l : (w ≤ w')%nat → Forall (fits w) l → Forall (fits w') l.
Proof.
  intros Hw Hl. eapply Forall_impl; [exact Hl|]. intros v [H1 H2]. split; [done|].
  pose proof (Z.pow_le_mono_r 2 (Z.of_nat w * 8) (Z.of_nat w' * 8)). lia.
Qed.

(** ** Pieces of a blob *)

Lemma cut_concat bs : cut (map len_bytes bs) (concat bs) = bs.
Proof.
  induction bs as [|b bs IH]; [done|]. simpl. unfold len_bytes at 1 3. by rewrite Nat2Z.id, take_app_length, drop_app_length, IH.
Qed.

Lemma sumz_concat bs : sumz (map len_bytes bs) = len_bytes (concat bs).
Proof. induction bs as [|b bs IH]; [done|]. simpl. rewrite IH. unfold len_bytes. rewrite length_app. lia. Qed.

Lemma concat_cut w lens blob : Forall (fits w) lens → sumz lens = len_bytes blob →
  concat (cut lens blob) = blob ∧ map len_bytes (cut lens blob) = lens.
Proof.
  intros Hl. revert blob. induction Hl as [|l lens Hv Hl IH]; intros blob Hs; simpl in *.
  - unfold len_bytes in Hs. destruct blob; [done|simpl in Hs; lia].
  - unfold fits in Hv. pose proof (sumz_nonneg _ _ Hl). unfold len_bytes in Hs.
    destruct (IH (drop (Z.to_nat l) blob)) as [H1 H2]; [unfold len_bytes; rewrite length_drop; lia|].
    rewrite H1, H2, take_drop. split; [done|]. f_equal. unfold len_bytes. rewrite length_take. lia.
Qed.

Lemma cut_length lens blob : length (cut lens blob) = length lens.
Proof. revert blob. induction lens; simpl; auto. Qed.

(** ** Events *)

(** An event that fits the columns. *)
Definition event_ok (e : Event) : Prop :=
  segment_ValidateEvent e = Ok tt ∧ 0 ≤ ev_Seq e < 2 ^ 64 ∧
  - 2 ^ 63 ≤ ev_WitnessedAt e < 2 ^ 63 ∧ - 2 ^ 63 ≤ ev_IndexedAt e < 2 ^ 63.

(** What of an event is stored. *)
Definition persisted (e : Event) : Event :=
  mkEvent (ev_Seq e) (ev_WitnessedAt e) (ev_IndexedAt e) 0 (ev_Kind e) (ev_DID e) (ev_Collection e) (ev_Rkey e) (ev_Rev e) (ev_Payload e).

Definition zero_event : Event := mkEvent 0 0 0 0 0 "" "" "" "" [].

Lemma bytes_str_bytes s : bytes_str (str_bytes s) = s.
Proof. apply string_of_list_byte_of_string. Qed.
Lemma str_bytes_str b : str_bytes (bytes_str b) = b.
Proof. apply list_byte_of_string_of_list_byte. Qed.
Lemma len_bytes_str b : len (bytes_str b) = len_bytes b.
Proof. unfold len, len_bytes. f_equal. unfold bytes_str, string_of_list_byte. induction b as [|c b IH]; [done|]. simpl. f_equal. exact IH. Qed.

Lemma len_str_bytes s : len_bytes (str_bytes s) = len s.
Proof. unfold len_bytes, str_bytes, len. f_equal. induction s as [|c s IH]; [done|]. simpl. f_equal. exact IH. Qed.

Lemma event_ok_fields e : event_ok e →
  Kind_Valid (ev_Kind e) = true ∧ len (ev_DID e) ≤ 65535 ∧ len (ev_Collection e) ≤ 255 ∧ len (ev_Rkey e) ≤ 255 ∧
  len (ev_Rev e) ≤ 255 ∧ len_bytes (ev_Payload e) ≤ 4294967295.
Proof.
  intros [Hv _]. unfold segment_ValidateEvent in Hv. repeat (case_match; [done|]).
  match goal with H : negb _ = false |- _ => apply negb_false_iff in H end. split_and!; [done|lia..].
Qed.

Lemma len_nonneg' s : 0 ≤ len s.
Proof. unfold len. lia. Qed.

Lemma length_flat_map_column {A} w (f : A → Z) l : len_bytes (column w (map f l)) = Z.of_nat w * Z.of_nat (length l).
Proof. unfold len_bytes. rewrite column_length, length_map. lia. Qed.

Lemma nth_column {A B} (f : A → B) (l : list A) (a : A) d i : f a = d → nth i (map f l) d = f (nth i l a).
Proof. intros <-. apply map_nth. Qed.

Lemma map_nth_seq {A B} (F : A → B) (l : list A) (a : A) : map (λ i, F (nth i l a)) (seq 0 (length l)) = map F l.
Proof.
  induction l as [|x l IH] using rev_ind; [done|]. rewrite length_app, Nat.add_1_r, seq_S, !map_app. simpl. f_equal.
  - rewrite <-IH. apply map_ext_in. intros i Hi%in_seq. by rewrite app_nth1 by lia.
  - by rewrite app_nth2, Nat.sub_diag by lia.
Qed.

(** A column of lengths and its blob are the strings. *)
Lemma strings_cut {A} w (f : A → bytes) (n : A → Z) (l : list A) : Forall (λ a, n a = len_bytes (f a) ∧ fits w (n a)) l →
  Forall (fits w) (map n l) ∧ sumz (map n l) = len_bytes (flat_map f l) ∧ cut (map n l) (flat_map f l) = map f l.
Proof.
  intros Hl. assert (Hn : map n l = map len_bytes (map f l)).
  { rewrite map_map. apply map_ext_in. intros a Ha%list_elem_of_In. by apply (proj1 (Forall_forall _ _) Hl a). }
  split; [|by rewrite Hn, flat_map_concat_map, sumz_concat, cut_concat].
  apply Forall_map. eapply Forall_impl; [exact Hl|]. by intros a [_ ?].
Qed.

(** ** The codec *)

Lemma Ok_bind {E A B} (a : A) (f : A → result E B) : (Ok a ≫= f) = f a.
Proof. done. Qed.

(** Columns of [n] events, as they are read. *)
Record columns_ok (n : nat) (c : columns) : Prop := {
  co_seq : length (c_seq c) = n ∧ Forall (fits 8) (c_seq c);
  co_witnessedAt : length (c_witnessedAt c) = n ∧ Forall (fits 8) (c_witnessedAt c);
  co_indexedAt : length (c_indexedAt c) = n ∧ Forall (fits 8) (c_indexedAt c);
  co_kind : length (c_kind c) = n ∧ Forall (fits 1) (c_kind c);
  co_collLen : length (c_collLen c) = n ∧ Forall (fits 1) (c_collLen c);
  co_didLen : length (c_didLen c) = n ∧ Forall (fits 2) (c_didLen c);
  co_rkeyLen : length (c_rkeyLen c) = n ∧ Forall (fits 1) (c_rkeyLen c);
  co_revLen : length (c_revLen c) = n ∧ Forall (fits 1) (c_revLen c);
  co_eventLen : length (c_eventLen c) = n ∧ Forall (fits 4) (c_eventLen c);
  co_kinds : forallb Kind_Valid (c_kind c) = true;
  co_collections : sumz (c_collLen c) = len_bytes (c_collections c);
  co_dids : sumz (c_didLen c) = len_bytes (c_dids c);
  co_rkeys : sumz (c_rkeyLen c) = len_bytes (c_rkeys c);
  co_revs : sumz (c_revLen c) = len_bytes (c_revs c);
  co_payloads : sumz (c_eventLen c) = len_bytes (c_payloads c);
}.

Lemma uints_column' w n vs : length vs = n ∧ Forall (fits w) vs → uints w n (column w vs) = vs.
Proof. intros [<- Hf]. by apply uints_column. Qed.

Lemma column_len w n vs k : length vs = n ∧ Forall (fits w) vs → k = Z.of_nat n * Z.of_nat w → len_bytes (column w vs) = k.
Proof. intros [<- _] ->. unfold len_bytes. rewrite column_length. lia. Qed.

Lemma map_uint64_fits vs : Forall (fits 8) vs → map uint64 vs = vs.
Proof. induction 1 as [|v vs Hv _ IH]; [done|]. simpl. by rewrite IH, uint64_small. Qed.

Lemma decodeColumns_encode n c : columns_ok n c → Z.of_nat n ≤ maxBlockEventsLimit → decodeColumns n (encodeColumns c) = Ok (rows n c).
Proof.
  intros [Hs Hw Hi Hk Hc Hd Hr Hv Hp Hkv Hcs Hds Hrs Hvs Hps] Hn. unfold decodeColumns, encodeColumns.
  rewrite (map_uint64_fits (c_witnessedAt c)), (map_uint64_fits (c_indexedAt c)) by (by apply Hw || by apply Hi).
  do 4 (rewrite read_app by (eapply column_len; [eassumption|lia]); rewrite Ok_bind; cbv beta iota).
  rewrite (uints_column' 1 n (c_kind c)), Hkv by done. cbn [negb].
  do 5 (rewrite read_app by (eapply column_len; [eassumption|lia]); rewrite Ok_bind; cbv beta iota).
  rewrite !uints_column' by done.
  assert (Hsum : ∀ w l, (w ≤ 4)%nat → length l = n ∧ Forall (fits w) l → sumU l = Ok (sumz l)).
  { intros w l Hle [Hl Hf]. apply sumU_ok; [by eapply fits_weaken|lia]. }
  rewrite (Hsum 1%nat (c_collLen c)), (Hsum 2%nat (c_didLen c)), (Hsum 1%nat (c_rkeyLen c)), (Hsum 1%nat (c_revLen c)), sumU32_ok by (done || lia || apply Hp).
  rewrite !Ok_bind. do 4 (rewrite read_app by done; rewrite Ok_bind; cbv beta iota).
  rewrite <-(app_nil_r (c_payloads c)) at 1. rewrite read_app by done. rewrite Ok_bind. cbv beta iota. simpl. by destruct c.
Qed.

Lemma bind_Ok_pair {A B C} (m : result seg_err (A * B)) (f : A → B → result seg_err C) c :
  (m ≫= (λ '(a, b), f a b)) = Ok c → ∃ a b, m = Ok (a, b) ∧ f a b = Ok c.
Proof. destruct m as [[a b]|]; [|done]. intros H. by exists a, b. Qed.

Lemma uints_ok w n b k : len_bytes b = Z.of_nat n * k → k = Z.of_nat w → length (uints w n b) = n ∧ Forall (fits w) (uints w n b).
Proof. intros Hb ->. split; [apply uints_length|]. apply uints_fits. unfold len_bytes in Hb. lia. Qed.

Ltac next_read :=
  match goal with
  | H : (read ?k ?b ≫= _) = Ok _ |- _ =>
      let x := fresh "x" in let r := fresh "r" in let Hr := fresh "Hr" in let Hl := fresh "Hl" in
      apply bind_Ok_pair in H as (x & r & Hr & H); apply read_inv in Hr as [-> Hl]; [|lia || eassumption]
  end.

Lemma decodeColumns_inv n buf evs : decodeColumns n buf = Ok evs → Z.of_nat n ≤ maxBlockEventsLimit →
  ∃ c, columns_ok n c ∧ buf = encodeColumns c ∧ evs = rows n c.
Proof.
  unfold decodeColumns. intros H Hn. do 4 next_read. destruct (forallb _ _) eqn:Hkv in H; [|done]. cbn [negb] in H. do 5 next_read.
  assert (Hf : ∀ w b k, len_bytes b = Z.of_nat n * k → k = Z.of_nat w → length (uints w n b) = n ∧ Forall (fits w) (uints w n b))
    by (intros; by eapply uints_ok).
  assert (Hsum : ∀ w b k, (w ≤ 4)%nat → len_bytes b = Z.of_nat n * k → k = Z.of_nat w → sumU (uints w n b) = Ok (sumz (uints w n b)) ∧ 0 ≤ sumz (uints w n b)).
  { intros w b k Hle Hb Hk. destruct (Hf w b k Hb Hk) as [? Hff]. split; [|by eapply sumz_nonneg]. apply sumU_ok; [by eapply fits_weaken|lia]. }
  destruct (Hsum 1%nat x3 1) as [E1 P1]; [lia..|]. destruct (Hsum 2%nat x4 2) as [E2 P2]; [lia..|].
  destruct (Hsum 1%nat x5 1) as [E3 P3]; [lia..|]. destruct (Hsum 1%nat x6 1) as [E4 P4]; [lia..|].
  destruct (Hf 4%nat x7 4) as [HlE HfE]; [lia..|]. pose proof (sumz_nonneg _ _ HfE) as P5.
  rewrite E1, E2, E3, E4, sumU32_ok in H by (done || lia). rewrite !Ok_bind in H. do 5 next_read.
  destruct (len_bytes _ =? 0) eqn:Hz in H; [|done]. injection H as <-. apply Z.eqb_eq in Hz. unfold len_bytes in Hz.
  match type of Hz with Z.of_nat (length ?r) = _ => destruct r; [|simpl in Hz; lia] end. rewrite app_nil_r.
  eexists. split; [|split; [|reflexivity]].
  - split; cbn; try done; match goal with |- context [uints ?w _ _] => apply (uints_ok w _ _ (Z.of_nat w)); lia end.
  - unfold encodeColumns. cbn. unfold len_bytes in *.
    rewrite !map_uint64_fits by (eapply (uints_ok 8 n _ 8); unfold len_bytes; lia).
    by rewrite !column_uints by lia.
Qed.

(** *** Columns and events *)

(** The columns of events, as they are read. *)
Definition raw (evs : list Event) : columns :=
  let c := eventColumns evs in
  mkColumns (c_seq c) (map uint64 (c_witnessedAt c)) (map uint64 (c_indexedAt c)) (c_kind c) (c_collLen c) (c_didLen c)
    (c_rkeyLen c) (c_revLen c) (c_eventLen c) (c_collections c) (c_dids c) (c_rkeys c) (c_revs c) (c_payloads c).

Lemma encode_raw evs : encodeColumns (raw evs) = encodeColumns (eventColumns evs).
Proof.
  unfold encodeColumns. cbn. rewrite (map_uint64_fits (map uint64 (map ev_WitnessedAt evs))), (map_uint64_fits (map uint64 (map ev_IndexedAt evs))); [done|..].
  all: apply Forall_map, Forall_true; intros z; apply uint64_range.
Qed.

Lemma lengths_fit e : event_ok e →
  (uint8 (len (ev_Collection e)) = len_bytes (str_bytes (ev_Collection e)) ∧ fits 1 (uint8 (len (ev_Collection e)))) ∧
  (uint16 (len (ev_DID e)) = len_bytes (str_bytes (ev_DID e)) ∧ fits 2 (uint16 (len (ev_DID e)))) ∧
  (uint8 (len (ev_Rkey e)) = len_bytes (str_bytes (ev_Rkey e)) ∧ fits 1 (uint8 (len (ev_Rkey e)))) ∧
  (uint8 (len (ev_Rev e)) = len_bytes (str_bytes (ev_Rev e)) ∧ fits 1 (uint8 (len (ev_Rev e)))) ∧
  (uint32 (len_bytes (ev_Payload e)) = len_bytes (ev_Payload e) ∧ fits 4 (uint32 (len_bytes (ev_Payload e)))).
Proof.
  intros (_ & Hd & Hc & Hk & Hr & Hp)%event_ok_fields. rewrite !len_str_bytes.
  split_and!; first [apply Z.mod_pos_bound; done|apply Z.mod_small; (split; [apply len_nonneg' || (unfold len_bytes; lia)|]); simpl; lia].
Qed.

Lemma uint64_column (f : Event → Z) evs : length (map uint64 (map f evs)) = length evs ∧ Forall (fits 8) (map uint64 (map f evs)).
Proof. rewrite !length_map. split; [done|]. apply Forall_map, Forall_true. intros z. apply uint64_range. Qed.

Lemma int_column w (f : Event → Z) evs : Forall (λ e, fits w (f e)) evs → length (map f evs) = length evs ∧ Forall (fits w) (map f evs).
Proof. intros. rewrite length_map. split; [done|]. by apply Forall_map. Qed.

Lemma Kind_Valid_fits k : Kind_Valid k = true → fits 1 k.
Proof. unfold Kind_Valid, KindCreate, KindCreateResync, fits. change (2 ^ (Z.of_nat 1 * 8)) with 256. lia. Qed.

(** Each column of lengths with its blob. *)
Lemma string_column evs w (n : Event → Z) (f : Event → bytes) : Forall event_ok evs →
  (∀ e, event_ok e → n e = len_bytes (f e) ∧ fits w (n e)) →
  (length (map n evs) = length evs ∧ Forall (fits w) (map n evs)) ∧
  sumz (map n evs) = len_bytes (flat_map f evs) ∧ cut (map n evs) (flat_map f evs) = map f evs.
Proof.
  intros Hok Hn. destruct (strings_cut w f n evs) as (? & ? & ?); [by eapply Forall_impl|]. by rewrite length_map.
Qed.

Section raw.
Context (evs : list Event) (Hok : Forall event_ok evs).
Let coll := string_column evs 1 (λ e, uint8 (len (ev_Collection e))) (λ e, str_bytes (ev_Collection e)) Hok (λ e He, proj1 (lengths_fit e He)).
Let did := string_column evs 2 (λ e, uint16 (len (ev_DID e))) (λ e, str_bytes (ev_DID e)) Hok (λ e He, proj1 (proj2 (lengths_fit e He))).
Let rkey := string_column evs 1 (λ e, uint8 (len (ev_Rkey e))) (λ e, str_bytes (ev_Rkey e)) Hok (λ e He, proj1 (proj2 (proj2 (lengths_fit e He)))).
Let rev := string_column evs 1 (λ e, uint8 (len (ev_Rev e))) (λ e, str_bytes (ev_Rev e)) Hok (λ e He, proj1 (proj2 (proj2 (proj2 (lengths_fit e He))))).
Let payload := string_column evs 4 (λ e, uint32 (len_bytes (ev_Payload e))) ev_Payload Hok (λ e He, proj2 (proj2 (proj2 (proj2 (lengths_fit e He))))).

Lemma raw_ok : columns_ok (length evs) (raw evs).
Proof.
  destruct coll as (? & ? & _), did as (? & ? & _), rkey as (? & ? & _), rev as (? & ? & _), payload as (? & ? & _).
  split; cbn; try done; try apply uint64_column; try apply int_column.
  - eapply Forall_impl; [exact Hok|]. intros e (_ & ? & _). done.
  - eapply Forall_impl; [exact Hok|]. intros e (? & _)%event_ok_fields. by apply Kind_Valid_fits.
  - apply forallb_forall. intros k (e & <- & He)%in_map_iff. apply list_elem_of_In in He. by apply event_ok_fields, (proj1 (Forall_forall _ _) Hok).
Qed.

Lemma rows_raw : rows (length evs) (raw evs) = map persisted evs.
Proof.
  destruct coll as (_ & _ & Ec), did as (_ & _ & Ed), rkey as (_ & _ & Ek), rev as (_ & _ & Er), payload as (_ & _ & Ep).
  unfold rows, raw. cbn. rewrite Ec, Ed, Ek, Er, Ep.
  rewrite <-(map_nth_seq persisted evs zero_event). apply map_ext_in. intros i Hi%in_seq.
  rewrite !map_map, !(nth_column _ _ zero_event) by done.
  assert (Hn : event_ok (nth i evs zero_event)) by (apply (proj1 (Forall_forall _ _) Hok), list_elem_of_In, nth_In; lia).
  destruct Hn as (_ & _ & Hw & Hx). rewrite !int64_uint64 by done. unfold persisted. by rewrite !bytes_str_bytes.
Qed.
End raw.

(** *** Events of columns *)

Lemma map_nth_id {A} (l : list A) d n : length l = n → map (λ i, nth i l d) (seq 0 n) = l.
Proof. intros <-. rewrite (map_nth_seq (λ a, a)). apply map_id. Qed.

Lemma map_seq_nth {A B} (F : A → B) (l : list A) d n : length l = n → map (λ i, F (nth i l d)) (seq 0 n) = map F l.
Proof. intros <-. apply map_nth_seq. Qed.

Lemma uint64_int64 z : fits 8 z → uint64 (int64 z) = z.
Proof.
  unfold fits. change (2 ^ (Z.of_nat 8 * 8)) with (2 ^ 64). intros Hz. unfold uint64, uint_wrap, int64.
  rewrite Zminus_mod_idemp_l. rewrite <-(Z.mod_small z (2 ^ 64)) at 2 by done. f_equal. lia.
Qed.

Lemma map_uint64_int64 l : Forall (fits 8) l → map (λ z, uint64 (int64 z)) l = l.
Proof. induction 1 as [|v l Hv _ IH]; [done|]. simpl. by rewrite IH, uint64_int64. Qed.

Lemma wrap_map w (l : list Z) : Forall (fits w) l → map (uint_wrap (Z.of_nat w * 8)) l = l.
Proof. induction 1 as [|v l Hv _ IH]; [done|]. simpl. rewrite IH. f_equal. by apply Z.mod_small. Qed.

Section rows.
Context (n : nat) (c : columns) (Hc : columns_ok n c).

Lemma rows_columns : encodeColumns (eventColumns (rows n c)) = encodeColumns c.
Proof.
  destruct Hc as [[Ls Fs] [Lw Fw] [Li Fi] [Lk Fk] [Lc Fc] [Ld Fd] [Lr Fr] [Lv Fv] [Lp Fp] Hkv Hcs Hds Hrs Hvs Hps].
  destruct (concat_cut _ _ _ Fc Hcs) as [Cc1 Cc2], (concat_cut _ _ _ Fd Hds) as [Cd1 Cd2], (concat_cut _ _ _ Fr Hrs) as [Cr1 Cr2],
    (concat_cut _ _ _ Fv Hvs) as [Cv1 Cv2], (concat_cut _ _ _ Fp Hps) as [Cp1 Cp2].
  unfold encodeColumns, eventColumns, rows. cbn. rewrite !flat_map_concat_map, !map_map. cbn.
  rewrite (map_nth_id (c_seq c)), (map_nth_id (c_kind c)) by done.
  rewrite (map_seq_nth (λ z, uint64 (int64 z)) (c_witnessedAt c)), (map_seq_nth (λ z, uint64 (int64 z)) (c_indexedAt c)) by done.
  rewrite !(map_uint64_fits (c_witnessedAt c)), !(map_uint64_fits (c_indexedAt c)), !map_uint64_int64 by done.
  assert (Hs : ∀ w g lens blob, uint_wrap (Z.of_nat w * 8) = g → length lens = n → Forall (fits w) lens → map len_bytes (cut lens blob) = lens →
    map (λ i, g (len (bytes_str (nth i (cut lens blob) [])))) (seq 0 n) = lens ∧
    map (λ i, g (len_bytes (nth i (cut lens blob) []))) (seq 0 n) = lens).
  { intros w g lens blob <- Hl Hf Hm. assert (Hlc : length (cut lens blob) = n) by by rewrite cut_length.
    rewrite (map_seq_nth (λ b, uint_wrap (Z.of_nat w * 8) (len (bytes_str b))) (cut lens blob)), (map_seq_nth (λ b, uint_wrap (Z.of_nat w * 8) (len_bytes b)) (cut lens blob)) by done.
    rewrite (map_ext _ _ (λ b, f_equal _ (len_bytes_str b))), <-(map_map len_bytes), Hm. by rewrite wrap_map. }
  assert (Hb : ∀ lens blob, length lens = n → map (λ i, str_bytes (bytes_str (nth i (cut lens blob) []))) (seq 0 n) = cut lens blob).
  { intros lens blob Hl. rewrite (map_ext _ (λ i, nth i (cut lens blob) [])) by (intros; by rewrite str_bytes_str). apply map_nth_id. by rewrite cut_length. }
  rewrite !Hb, (map_nth_id (cut (c_eventLen c) _)), Cc1, Cd1, Cr1, Cv1, Cp1 by by rewrite ?cut_length.
  rewrite (proj1 (Hs 1%nat uint8 _ _ eq_refl Lc Fc Cc2)), (proj1 (Hs 2%nat uint16 _ _ eq_refl Ld Fd Cd2)), (proj1 (Hs 1%nat uint8 _ _ eq_refl Lr Fr Cr2)), (proj1 (Hs 1%nat uint8 _ _ eq_refl Lv Fv Cv2)).
  by rewrite (proj2 (Hs 4%nat uint32 _ _ eq_refl Lp Fp Cp2)).
Qed.

Lemma rows_ok : Forall event_ok (rows n c) ∧ Forall (λ e, ev_UpstreamRelayCursor e = 0) (rows n c) ∧ length (rows n c) = n.
Proof.
  destruct Hc as [[Ls Fs] [Lw Fw] [Li Fi] [Lk Fk] [Lc Fc] [Ld Fd] [Lr Fr] [Lv Fv] [Lp Fp] Hkv Hcs Hds Hrs Hvs Hps].
  split_and!; [|apply Forall_map, Forall_true; done|unfold rows; by rewrite length_map, length_seq].
  apply Forall_map, Forall_forall. intros i Hi%list_elem_of_In%in_seq.
  assert (Hcut : ∀ w lens blob, length lens = n → Forall (fits w) lens → sumz lens = len_bytes blob →
    len_bytes (nth i (cut lens blob) []) < 2 ^ (Z.of_nat w * 8)).
  { intros w lens blob Hl Hf Hs. destruct (concat_cut w lens blob Hf Hs) as [_ Hm].
    rewrite <-(nth_column len_bytes (cut lens blob) [] 0 i) by done. rewrite Hm.
    destruct (proj1 (Forall_forall _ _) Hf (nth i lens 0)); [|done]. apply list_elem_of_In, nth_In. lia. }
  pose proof (Hcut 1%nat _ _ Lc Fc Hcs) as B1. pose proof (Hcut 2%nat _ _ Ld Fd Hds) as B2. pose proof (Hcut 1%nat _ _ Lr Fr Hrs) as B3.
  pose proof (Hcut 1%nat _ _ Lv Fv Hvs) as B4. pose proof (Hcut 4%nat _ _ Lp Fp Hps) as B5.
  assert (Hnth : ∀ w l, length l = n → Forall (fits w) l → fits w (nth i l 0)).
  { intros w l Hl Hf. apply (proj1 (Forall_forall _ _) Hf), list_elem_of_In, nth_In. lia. }
  pose proof (Hnth 8%nat _ Ls Fs) as B6. unfold event_ok, segment_ValidateEvent. cbn. rewrite !len_bytes_str.
  rewrite (proj1 (forallb_forall _ _) Hkv) by (apply nth_In; lia). cbn [negb]. change (2 ^ (Z.of_nat 1 * 8)) with 256 in *. change (2 ^ (Z.of_nat 2 * 8)) with 65536 in *.
  change (2 ^ (Z.of_nat 4 * 8)) with 4294967296 in *. unfold fits in B6. change (2 ^ (Z.of_nat 8 * 8)) with (2 ^ 64) in B6.
  split_and!; try lia; [repeat (case_match eqn:E; [apply Z.ltb_lt in E; lia|clear E]); done|..].
  all: match goal with |- context [int64 ?z] => unfold int64; pose proof (Z.mod_pos_bound (z + 2 ^ 63) (2 ^ 64)); lia end.
Qed.
End rows.

(** *** Blocks *)

Lemma encode_header evs : Z.of_nat (length evs) ≤ maxBlockEventsLimit →
  encodeBlockColumns (eventColumns evs) = le_split 4 (Z.of_nat (length evs)) ++ encodeColumns (eventColumns evs).
Proof.
  intros Hn. unfold encodeBlockColumns, encodeBlockInto. cbn [c_seq eventColumns].
  rewrite length_map, uint32_small; [done|]. unfold maxBlockEventsLimit in Hn. lia.
Qed.

Lemma columns_length n c : columns_ok n c → Z.of_nat n * fixedPerEvent ≤ len_bytes (encodeColumns c).
Proof.
  intros [[? _] [? _] [? _] [? _] [? _] [? _] [? _] [? _] [? _] _ _ _ _ _ _]. unfold encodeColumns, len_bytes.
  rewrite !length_app, !column_length, !length_map. unfold fixedPerEvent. lia.
Qed.

Lemma decodeBlock_header n body : Z.of_nat n ≤ maxBlockEventsLimit → Z.of_nat n * fixedPerEvent ≤ len_bytes body →
  decodeBlock (le_split 4 (Z.of_nat n) ++ body) =
    if (n =? 0)%nat then (if len_bytes body =? 0 then Ok [] else Err errTruncatedBlock) else decodeColumns n body.
Proof.
  intros Hn Hb. unfold decodeBlock. rewrite take_app_length', drop_app_length' by by rewrite length_le_split.
  assert (len_bytes (le_split 4 (Z.of_nat n) ++ body) = 4 + len_bytes body) as -> by (unfold len_bytes; rewrite length_app, length_le_split; lia).
  rewrite le_combine_split, Z.mod_small by (unfold maxBlockEventsLimit in Hn; change (2 ^ (Z.of_nat 4 * 8)) with (2 ^ 32); lia).
  cbv zeta. assert (0 ≤ len_bytes body) by (unfold len_bytes; lia).
  rewrite (proj2 (Z.ltb_ge (4 + len_bytes body) 4)), (proj2 (Z.ltb_ge maxBlockEventsLimit _)), (proj2 (Z.ltb_ge (len_bytes body) _)) by lia.
  rewrite Nat2Z.id. destruct n; [done|]. by rewrite (proj2 (Z.eqb_neq _ _)) by lia.
Qed.

Lemma decodeBlock_encode evs : Forall event_ok evs → Z.of_nat (length evs) ≤ maxBlockEventsLimit →
  decodeBlock (encodeBlockColumns (eventColumns evs)) = Ok (map persisted evs).
Proof.
  intros Hok Hn. pose proof (raw_ok evs Hok) as Hraw. rewrite encode_header, <-encode_raw, decodeBlock_header by (done || by apply columns_length).
  destruct evs as [|e evs]; [done|]. rewrite decodeColumns_encode by done. by rewrite rows_raw.
Qed.

Lemma decodeBlock_inv buf evs : decodeBlock buf = Ok evs →
  buf = encodeBlockColumns (eventColumns evs) ∧ Forall event_ok evs ∧ Forall (λ e, ev_UpstreamRelayCursor e = 0) evs ∧ Z.of_nat (length evs) ≤ maxBlockEventsLimit.
Proof.
  intros H. assert (∃ n body, buf = le_split 4 (Z.of_nat n) ++ body ∧ Z.of_nat n ≤ maxBlockEventsLimit ∧ Z.of_nat n * fixedPerEvent ≤ len_bytes body)
    as (n & body & -> & Hn & Hb).
  { unfold decodeBlock in H. case_match eqn:E4; [done|]. apply Z.ltb_ge in E4. cbv zeta in H. do 2 (case_match; [done|]).
    pose proof (le_combine_bound (take 4 buf)) as Hc. exists (Z.to_nat (le_combine (take 4 buf))), (drop 4 buf). rewrite Z2Nat.id by lia.
    split_and!; [|lia..]. rewrite split_le_combine', take_drop; [done|]. rewrite length_take. unfold len_bytes in E4. lia. }
  rewrite decodeBlock_header in H by done. destruct (Nat.eqb_spec n 0) as [->|Hz].
  - case_match eqn:E; [|done]. injection H as <-. apply Z.eqb_eq in E. unfold len_bytes in E. destruct body; [|simpl in E; lia].
    split_and!; [done|constructor|constructor|done].
  - apply decodeColumns_inv in H as (c & Hc & -> & ->); [|done]. destruct (rows_ok n c Hc) as (H1 & H2 & H3).
    rewrite encode_header, H3, rows_columns by (done || by rewrite H3). done.
Qed.

(** C15 (roundtrip): the block format is exact.  A buffer decodes to a list of events
    if and only if it is the encoding of just these events, and they fit the columns
    (the field limits of [ValidateEvent], 64-bit numbers, at most 262144 events, no
    relay cursor, which is not stored): nothing is lost, no two blocks of events look
    the same, and no malformed, truncated or padded buffer is read as events. *)
Theorem decodeBlock_exact buf evs :
  decodeBlock buf = Ok evs ↔
  buf = encodeBlockColumns (eventColumns evs) ∧ Forall event_ok evs ∧
  Forall (λ e, ev_UpstreamRelayCursor e = 0) evs ∧ Z.of_nat (length evs) ≤ maxBlockEventsLimit.
Proof.
  split; [apply decodeBlock_inv|]. intros (-> & Hok & Hcur & Hn). rewrite decodeBlock_encode by done. f_equal.
  rewrite <-(map_id evs) at 2. apply map_ext_in. intros e He%list_elem_of_In. pose proof (proj1 (Forall_forall _ _) Hcur e He) as Hz.
  destruct e. simpl in Hz. by subst.
Qed.
