(* ===== verification/SegFileProofs.v ===== *)
(** * The contents of a segment file

    An active file is its header, the frames of its blocks, and perhaps the beginning
    of one more frame: what the scan, the walk and [lastGoodOffset] find in it, and
    what a crash leaves of it. *)

From Stdlib Require Import Strings.Byte.
From coqutil Require Import Byte Word.LittleEndianList.
From S2P Require Import Prelude GoStrings StateMonad Segment SegmentProofs.
Local Open Scope Z_scope.

(** What the proofs rely on of [zstd]: what was compressed is found again, unless it is
    larger than the decoder's limit. *)
Class ZstdLaws `{Zstd} := { DecodeAll_EncodeAll : ∀ b, DecodeAll (EncodeAll b) = if len_bytes b <=? maxDecodedBlockBytes then Some b else None }.

Section file.
Context `{ZstdLaws}.

Definition header_bytes : bytes := segmentMagic ++ repeat x00 (Z.to_nat ReservedHeaderBytes - length segmentMagic).

Definition frame_of (evs : list Event) : bytes :=
  let frame := EncodeAll (encodeBlockColumns (eventColumns evs)) in le_split 8 (uint64 (len_bytes frame)) ++ frame.
Definition frames (blocks : list (list Event)) : bytes := flat_map frame_of blocks.

Definition block_ok (evs : list Event) : Prop :=
  evs ≠ [] ∧ Forall event_ok evs ∧ Z.of_nat (length evs) ≤ maxBlockEventsLimit ∧
  len_bytes (encodeBlockColumns (eventColumns evs)) ≤ maxDecodedBlockBytes.

(** A tail without a whole frame. *)
Definition torn (tail : bytes) : Prop := len_bytes tail < 8 ∨ len_bytes tail - 8 < le_combine (take 8 tail).

(** ** Reading in the middle of a file *)

Lemma ReadAt_app n pre x r : len_bytes x = n → ReadAt n (len_bytes pre) (pre ++ x ++ r) = x.
Proof. intros <-. unfold ReadAt, len_bytes. by rewrite !Nat2Z.id, drop_app_length, take_app_length. Qed.

Lemma Uint64At_app pre v r : 0 ≤ v < 2 ^ 64 → Uint64At (len_bytes pre) (pre ++ le_split 8 v ++ r) = v.
Proof.
  intros Hv. unfold Uint64At. rewrite ReadAt_app by (unfold len_bytes; by rewrite length_le_split). rewrite le_combine_split. by apply Z.mod_small.
Qed.

Lemma Uint64At_tail pre tail : Uint64At (len_bytes pre) (pre ++ tail) = le_combine (take 8 tail).
Proof. unfold Uint64At, ReadAt, len_bytes. by rewrite Nat2Z.id, drop_app_length. Qed.

Lemma len_app (a b : bytes) : len_bytes (a ++ b) = len_bytes a + len_bytes b.
Proof. unfold len_bytes. rewrite length_app. lia. Qed.
Lemma len_le_split n v : len_bytes (le_split n v) = Z.of_nat n.
Proof. unfold len_bytes. by rewrite length_le_split. Qed.
Lemma len_pos (a : bytes) : 0 ≤ len_bytes a.
Proof. unfold len_bytes. lia. Qed.

Lemma frame_len evs : len_bytes (frame_of evs) = 8 + len_bytes (EncodeAll (encodeBlockColumns (eventColumns evs))).
Proof. unfold frame_of. rewrite len_app, len_le_split. lia. Qed.

Lemma frames_cons b bs : frames (b :: bs) = frame_of b ++ frames bs.
Proof. done. Qed.
Lemma frames_app bs bs' : frames (bs ++ bs') = frames bs ++ frames bs'.
Proof. apply flat_map_app. Qed.

Lemma frames_snoc bs b : header_bytes ++ frames (bs ++ [b]) = (header_bytes ++ frames bs) ++ frame_of b.
Proof. rewrite frames_app, app_assoc. f_equal. apply app_nil_r. Qed.

(** The frame at an offset. *)
Lemma frame_at pre evs r : len_bytes (pre ++ frame_of evs ++ r) ≤ maxInt →
  Uint64At (len_bytes pre) (pre ++ frame_of evs ++ r) = len_bytes (EncodeAll (encodeBlockColumns (eventColumns evs))) ∧
  ReadAt (len_bytes (EncodeAll (encodeBlockColumns (eventColumns evs)))) (len_bytes pre + 8) (pre ++ frame_of evs ++ r) = EncodeAll (encodeBlockColumns (eventColumns evs)).
Proof.
  set (fr := EncodeAll _). rewrite !len_app, frame_len. fold fr. unfold maxInt. intros Hs.
  pose proof (len_pos pre). pose proof (len_pos fr). pose proof (len_pos r).
  unfold frame_of. fold fr. rewrite uint64_small by lia. split.
  - rewrite <-app_assoc. apply Uint64At_app. lia.
  - rewrite <-app_assoc, (app_assoc pre). replace (len_bytes pre + 8) with (len_bytes (pre ++ le_split 8 (len_bytes fr))); [by apply ReadAt_app|].
    by rewrite len_app, len_le_split.
Qed.

(** ** The last good offset *)

Lemma lastGood_tail fuel pre tail : torn tail → len_bytes (pre ++ tail) ≤ maxInt → lastGood_loop (S fuel) (pre ++ tail) (len_bytes pre) = len_bytes pre.
Proof.
  intros Ht. cbn [lastGood_loop]. rewrite Uint64At_tail, !len_app. pose proof (len_pos pre). pose proof (len_pos tail). unfold maxInt. intros Hs.
  case_match; [lia|]. case_match eqn:E; [lia|]. apply Z.ltb_ge in E. rewrite uint64_small by lia.
  destruct Ht as [Ht|Ht]; [lia|]. by rewrite (proj2 (Z.ltb_lt _ _)) by lia.
Qed.

(** Whole frames are passed over. *)
Lemma lastGood_skip bs : ∀ fuel pre tail, len_bytes (pre ++ frames bs ++ tail) ≤ maxInt →
  lastGood_loop (length bs + fuel) (pre ++ frames bs ++ tail) (len_bytes pre) = lastGood_loop fuel (pre ++ frames bs ++ tail) (len_bytes (pre ++ frames bs)).
Proof.
  induction bs as [|b bs IH]; intros fuel pre tail Hs; [by rewrite app_nil_r|]. cbn [length Nat.add lastGood_loop].
  rewrite frames_cons, <-app_assoc in *. pose proof Hs as Hs0. set (rest := frames bs ++ tail) in *.
  destruct (frame_at pre b rest Hs) as [-> _]. set (fr := EncodeAll _).
  assert (Hl : len_bytes (pre ++ frame_of b ++ rest) = len_bytes pre + (8 + len_bytes fr) + len_bytes rest).
  { rewrite !len_app, frame_len. fold fr. lia. }
  rewrite Hl in *. pose proof (len_pos pre). pose proof (len_pos fr). pose proof (len_pos rest). unfold maxInt in Hs.
  rewrite (proj2 (Z.leb_gt _ _)), (proj2 (Z.ltb_ge _ 8)) by lia. rewrite uint64_small by lia. rewrite (int64_small (len_bytes fr)), int64_small by lia.
  rewrite (proj2 (Z.ltb_ge _ _)), (proj2 (Z.ltb_ge _ _)) by lia. cbn [orb].
  replace (len_bytes pre + 8 + len_bytes fr) with (len_bytes (pre ++ frame_of b)) by (rewrite len_app, frame_len; fold fr; lia).
  rewrite (app_assoc pre). unfold rest. rewrite IH, <-!app_assoc; [done|]. rewrite <-app_assoc. fold rest. by rewrite Hl.
Qed.

Lemma lastGood_frames bs fuel pre tail : (length bs < fuel)%nat → torn tail → len_bytes (pre ++ frames bs ++ tail) ≤ maxInt →
  lastGood_loop fuel (pre ++ frames bs ++ tail) (len_bytes pre) = len_bytes pre + len_bytes (frames bs).
Proof.
  intros Hf Ht Hs. replace fuel with (length bs + S (fuel - length bs - 1))%nat by lia. rewrite lastGood_skip by done.
  rewrite app_assoc in *. rewrite lastGood_tail by done. apply len_app.
Qed.

Lemma header_length : len_bytes header_bytes = ReservedHeaderBytes.
Proof. done. Qed.

Lemma frames_count bs : (length bs * 8 ≤ length (frames bs))%nat.
Proof.
  induction bs as [|b bs IH]; [simpl; lia|]. rewrite frames_cons, length_app. pose proof (frame_len b) as Hf. pose proof (len_pos (EncodeAll (encodeBlockColumns (eventColumns b)))).
  unfold len_bytes in *. simpl. lia.
Qed.

Lemma lastGoodOffset_frames bs tail : torn tail → len_bytes (header_bytes ++ frames bs ++ tail) ≤ maxInt →
  lastGoodOffset (header_bytes ++ frames bs ++ tail) = ReservedHeaderBytes + len_bytes (frames bs).
Proof.
  intros Ht Hs. unfold lastGoodOffset. rewrite <-header_length at 1. rewrite lastGood_frames; [done| |done|done].
  rewrite !length_app. pose proof (frames_count bs). change (length header_bytes) with 256%nat. lia.
Qed.

(** ** Scanning *)

Lemma frame_decodes evs : block_ok evs → decodeBlockCompressed (EncodeAll (encodeBlockColumns (eventColumns evs))) = Ok (map persisted evs).
Proof. intros (_ & Hok & Hn & Hs). unfold decodeBlockCompressed. rewrite DecodeAll_EncodeAll, (proj2 (Z.leb_le _ _)) by done. by apply decodeBlock_encode. Qed.

Lemma frame_decodes_sized evs : block_ok evs → decodeBlockCompressedSized (EncodeAll (encodeBlockColumns (eventColumns evs))) =
  Ok (map persisted evs, len_bytes (encodeBlockColumns (eventColumns evs))).
Proof. intros (_ & Hok & Hn & Hs). unfold decodeBlockCompressedSized. rewrite DecodeAll_EncodeAll, (proj2 (Z.leb_le _ _)) by done. by rewrite decodeBlock_encode. Qed.

Lemma scanActiveBlock_tail pre tail : torn tail → len_bytes (pre ++ tail) ≤ maxInt → scanActiveBlock (pre ++ tail) (len_bytes pre) = Ok ([], len_bytes pre).
Proof.
  intros Ht Hs. unfold scanActiveBlock. rewrite Uint64At_tail, len_app in *. pose proof (len_pos pre). pose proof (len_pos tail). unfold maxInt in *.
  case_match eqn:E; [done|]. apply Z.ltb_ge in E. rewrite uint64_small by lia. destruct Ht as [Ht|Ht]; [lia|]. by rewrite (proj2 (Z.ltb_lt _ _)) by lia.
Qed.

Lemma scanActiveBlock_frame pre b rest : block_ok b → len_bytes (pre ++ frame_of b ++ rest) ≤ maxInt →
  scanActiveBlock (pre ++ frame_of b ++ rest) (len_bytes pre) = Ok (map persisted b, len_bytes (pre ++ frame_of b)).
Proof.
  intros Hb Hs. destruct (frame_at pre b rest Hs) as [E1 E2]. unfold scanActiveBlock. rewrite E1, E2, frame_decodes by done.
  assert (Hl : len_bytes (pre ++ frame_of b ++ rest) = len_bytes (pre ++ frame_of b) + len_bytes rest) by (rewrite app_assoc; apply len_app).
  rewrite Hl in *. rewrite len_app, frame_len in *. set (fr := EncodeAll _) in *. pose proof (len_pos pre). pose proof (len_pos fr). pose proof (len_pos rest).
  unfold maxInt in *. rewrite (proj2 (Z.ltb_ge _ _)) by lia. rewrite uint64_small by lia. rewrite (proj2 (Z.ltb_ge _ _)), (proj2 (Z.ltb_ge _ _)) by lia. cbn [orb].
  rewrite Ok_bind, (int64_small (len_bytes fr)), int64_small by lia. destruct b; [by destruct Hb|]. simpl. do 2 f_equal. lia.
Qed.

Lemma scan_skip bs : ∀ pre tail, Forall block_ok bs → len_bytes (pre ++ frames bs ++ tail) ≤ maxInt → ∀ fuel,
  scanActive_loop (length bs + fuel) (pre ++ frames bs ++ tail) (len_bytes pre) =
    (blocks ← scanActive_loop fuel (pre ++ frames bs ++ tail) (len_bytes (pre ++ frames bs)); Ok (map (map persisted) bs ++ blocks)).
Proof.
  induction bs as [|b bs IH]; intros pre tail Hbs Hs fuel; [rewrite app_nil_r; simpl; by destruct (scanActive_loop _ _ _)|].
  inversion_clear Hbs as [|?? Hb Hbs']. rewrite frames_cons, <-app_assoc in *. set (rest := frames bs ++ tail) in *. cbn [length Nat.add scanActive_loop].
  rewrite scanActiveBlock_frame by done. rewrite Ok_bind. cbv beta iota.
  destruct (_ <=? len_bytes pre) eqn:E; [apply Z.leb_le in E; rewrite !len_app, frame_len in E; pose proof (len_pos rest); pose proof (len_pos (EncodeAll (encodeBlockColumns (eventColumns b)))); lia|].
  destruct b as [|e b']; [by destruct Hb|]. cbn [map]. set (b := e :: b') in *.
  assert (Hw : scanActive_loop (length bs + fuel) (pre ++ frame_of b ++ rest) (len_bytes (pre ++ frame_of b)) =
    (blocks ← scanActive_loop fuel (pre ++ frame_of b ++ rest) (len_bytes (pre ++ frame_of b ++ frames bs)); Ok (map (map persisted) bs ++ blocks))).
  { specialize (IH (pre ++ frame_of b) tail Hbs'). rewrite <-!app_assoc in IH. by apply IH. }
  rewrite Hw. by destruct (scanActive_loop fuel _ _).
Qed.

Lemma scan_frames bs fuel pre tail : (length bs < fuel)%nat → Forall block_ok bs → torn tail → len_bytes (pre ++ frames bs ++ tail) ≤ maxInt →
  scanActive_loop fuel (pre ++ frames bs ++ tail) (len_bytes pre) = Ok (map (map persisted) bs).
Proof.
  intros Hf Hbs Ht Hs. replace fuel with (length bs + S (fuel - length bs - 1))%nat by lia. rewrite scan_skip by done.
  rewrite app_assoc in *. cbn [scanActive_loop]. rewrite scanActiveBlock_tail by done. case_match; by rewrite ?Ok_bind, app_nil_r.
Qed.

Lemma activeScanSize_header rest : len_bytes (header_bytes ++ rest) ≤ maxInt → activeScanSize (header_bytes ++ rest) = Ok (len_bytes (header_bytes ++ rest)).
Proof.
  intros Hs. unfold activeScanSize. rewrite len_app, header_length. pose proof (len_pos rest). unfold ReservedHeaderBytes. rewrite (proj2 (Z.ltb_ge _ _)) by lia. done.
Qed.

Lemma ScanActive_frames bs tail : Forall block_ok bs → torn tail → len_bytes (header_bytes ++ frames bs ++ tail) ≤ maxInt →
  ScanActive (header_bytes ++ frames bs ++ tail) = Ok (map (map persisted) bs).
Proof.
  intros Hbs Ht Hs. unfold ScanActive. rewrite activeScanSize_header by done. rewrite Ok_bind. rewrite <-header_length at 1.
  apply scan_frames; try done. rewrite !length_app. pose proof (frames_count bs). change (length header_bytes) with 256%nat. lia.
Qed.

(** The walk over blocks that are at these offsets. *)
Fixpoint walk_blocks (res : blockWalkResult) (off : Z) (bs : list (list Event)) : result seg_err blockWalkResult :=
  match bs with
  | [] => Ok res
  | b :: bs =>
      let body := encodeBlockColumns (eventColumns b) in
      res ← walk_block res (block_info off (len_bytes (EncodeAll body)) (len_bytes body) (map persisted b)) (map persisted b);
      walk_blocks res (off + len_bytes (frame_of b)) bs
  end.

(** Whole frames are walked, whatever follows them. *)
Lemma walk_skip bs : ∀ pre tail res, Forall block_ok bs → len_bytes (pre ++ frames bs ++ tail) ≤ maxInt →
  ∀ fuel, walk_loop (length bs + fuel) (pre ++ frames bs ++ tail) (len_bytes pre) res =
      (res ← walk_blocks res (len_bytes pre) bs; walk_loop fuel (pre ++ frames bs ++ tail) (len_bytes (pre ++ frames bs)) res).
Proof.
  induction bs as [|b bs IH]; intros pre tail res Hbs Hs fuel; [by rewrite app_nil_r|].
  inversion_clear Hbs as [|?? Hb Hbs']. rewrite frames_cons, <-app_assoc in *. pose proof Hs as Hs0. set (rest := frames bs ++ tail) in *.
  assert (Hw : ∀ res, walk_loop (length bs + fuel) (pre ++ frame_of b ++ rest) (len_bytes (pre ++ frame_of b)) res =
    (res ← walk_blocks res (len_bytes (pre ++ frame_of b)) bs; walk_loop fuel (pre ++ frame_of b ++ rest) (len_bytes (pre ++ frame_of b ++ frames bs)) res)).
  { intros res'. specialize (IH (pre ++ frame_of b) tail res' Hbs'). rewrite <-!app_assoc in IH. by apply IH. }
  destruct (frame_at pre b rest Hs) as [E1 E2]. set (fr := EncodeAll _) in *.
  assert (Hl : len_bytes (pre ++ frame_of b ++ rest) = len_bytes pre + (8 + len_bytes fr) + len_bytes rest) by (rewrite !len_app, frame_len; fold fr; lia).
  assert (Hp : len_bytes pre + (8 + len_bytes fr) = len_bytes (pre ++ frame_of b)) by (rewrite len_app, frame_len; fold fr; lia).
  rewrite Hl in Hs. pose proof (len_pos pre). pose proof (len_pos fr). pose proof (len_pos rest). unfold maxInt in Hs.
  cbn [length Nat.add walk_loop walk_blocks]. unfold readFrameAt. rewrite E1, E2, Hl.
  rewrite (proj2 (Z.leb_gt _ _)), (proj2 (Z.ltb_ge _ 8)) by lia. rewrite uint64_small, (proj2 (Z.ltb_ge _ _)) by lia.
  rewrite Ok_bind. cbv beta iota. rewrite (frame_decodes_sized b Hb : decodeBlockCompressedSized fr = _), Ok_bind. cbv beta iota.
  rewrite (int64_small (len_bytes fr)), int64_small, Hp by lia. rewrite <-len_app. destruct b as [|e b']; [by destruct Hb|]. cbn [map]. fold fr.
  destruct (walk_block _ _ _); [|done]. rewrite !Ok_bind. apply Hw.
Qed.

Lemma walkActiveFrames_frames bs : Forall block_ok bs → len_bytes (header_bytes ++ frames bs) ≤ maxInt →
  walkActiveFrames (header_bytes ++ frames bs) = walk_blocks no_walk ReservedHeaderBytes bs.
Proof.
  intros Hb Hs. pose proof (walk_skip bs header_bytes [] no_walk Hb) as Hw. rewrite app_nil_r in Hw. specialize (Hw Hs).
  unfold walkActiveFrames. change ReservedHeaderBytes with (len_bytes header_bytes).
  pose proof (frames_count bs). assert (Hc : (length bs < length (header_bytes ++ frames bs))%nat) by (rewrite length_app; change (length header_bytes) with 256%nat; lia).
  replace (length (header_bytes ++ frames bs)) with (length bs + S (length (header_bytes ++ frames bs) - length bs - 1))%nat by lia.
  rewrite Hw. cbn [walk_loop]. rewrite (proj2 (Z.leb_le _ _)) by lia. by destruct (walk_blocks _ _ _).
Qed.

(** ** The table of collections *)

(** The table grows by at most two names for each event. *)
Lemma internCollection_ok c k res bc : Z.of_nat (length (wr_collectionStringTable res)) < 2 ^ 32 - 1 →
  ∃ res' bc', internCollection c k (res, bc) = Ok (res', bc') ∧ (length (wr_collectionStringTable res') ≤ S (length (wr_collectionStringTable res)))%nat ∧
    wr_infos res' = wr_infos res.
Proof.
  intros Hn. unfold internCollection. destruct (_ !! c).
  - rewrite Ok_bind. destruct k; (do 2 eexists; split; [reflexivity|]; simpl; split; [lia|done]).
  - rewrite (proj2 (Z.leb_gt _ _)) by lia. rewrite Ok_bind. destruct k; (do 2 eexists; split; [reflexivity|]; simpl; rewrite length_app; simpl; split; [lia|done]).
Qed.

Lemma walk_event_ok res dids bc ev : Z.of_nat (length (wr_collectionStringTable res)) < 2 ^ 32 - 2 →
  ∃ res' dids' bc', walk_event (res, dids, bc) ev = Ok (res', dids', bc') ∧ (length (wr_collectionStringTable res') ≤ 2 + length (wr_collectionStringTable res))%nat ∧
    wr_infos res' = wr_infos res.
Proof.
  intros Hn. unfold walk_event, indexEventCollection. set (r := mkWalk _ _ _ _ _ _ _ _ _ _).
  assert (H1 : ∃ r' bc', (if bool_decide (ev_Collection ev = "") then Ok (r, bc) else internCollection (ev_Collection ev) true (r, bc)) = Ok (r', bc') ∧
    (length (wr_collectionStringTable r') ≤ S (length (wr_collectionStringTable res)))%nat ∧ wr_infos r' = wr_infos res).
  { case_bool_decide; [do 2 eexists; split; [reflexivity|]; simpl; split; [lia|done]|]. apply (internCollection_ok _ true r bc). simpl. lia. }
  destruct H1 as (r' & bc' & -> & Hl & Hi). rewrite Ok_bind. cbv zeta.
  assert (H2 : ∃ r'' bc'', (if bool_decide (didMarkerSentinel (ev_Kind ev) = "") then Ok (r', bc') else internCollection (didMarkerSentinel (ev_Kind ev)) false (r', bc')) = Ok (r'', bc'') ∧
    (length (wr_collectionStringTable r'') ≤ 2 + length (wr_collectionStringTable res))%nat ∧ wr_infos r'' = wr_infos res).
  { case_bool_decide; [do 2 eexists; split; [reflexivity|]; simpl; split; [lia|done]|]. destruct (internCollection_ok (didMarkerSentinel (ev_Kind ev)) false r' bc') as (x & y & -> & ? & ?); [lia|].
    do 2 eexists. split; [reflexivity|]. split; [lia|congruence]. }
  destruct H2 as (r'' & bc'' & -> & Hl' & Hi'). rewrite Ok_bind. by do 3 eexists.
Qed.

Lemma walk_events_ok evs : ∀ res dids bc, Z.of_nat (length (wr_collectionStringTable res)) + 2 * Z.of_nat (length evs) < 2 ^ 32 - 1 →
  ∃ res' dids' bc', walk_events (res, dids, bc) evs = Ok (res', dids', bc') ∧
    (length (wr_collectionStringTable res') ≤ 2 * length evs + length (wr_collectionStringTable res))%nat ∧ wr_infos res' = wr_infos res.
Proof.
  induction evs as [|ev evs IH]; intros res dids bc Hn; [do 3 eexists; split; [reflexivity|]; simpl; split; [lia|done]|].
  cbn [walk_events length] in *. destruct (walk_event_ok res dids bc ev) as (res1 & dids1 & bc1 & -> & Hl & Hi); [lia|]. rewrite Ok_bind.
  destruct (IH res1 dids1 bc1) as (res2 & dids2 & bc2 & -> & Hl' & Hi'); [lia|]. do 3 eexists. split; [reflexivity|]. split; [lia|congruence].
Qed.

(** The index of blocks at these offsets. *)
Definition info_at (off : Z) (b : list Event) : BlockInfo :=
  let body := encodeBlockColumns (eventColumns b) in block_info off (len_bytes (EncodeAll body)) (len_bytes body) (map persisted b).
Fixpoint infos_at (off : Z) (bs : list (list Event)) : list BlockInfo :=
  match bs with [] => [] | b :: bs => info_at off b :: infos_at (off + len_bytes (frame_of b)) bs end.

Lemma walk_blocks_ok bs : ∀ res off, Z.of_nat (length (wr_collectionStringTable res)) + 2 * Z.of_nat (length (concat bs)) < 2 ^ 32 - 1 →
  ∃ res', walk_blocks res off bs = Ok res' ∧ wr_infos res' = wr_infos res ++ infos_at off bs.
Proof.
  induction bs as [|b bs IH]; intros res off Hn; [exists res; by rewrite app_nil_r|]. cbn [walk_blocks concat infos_at] in *. rewrite length_app in Hn.
  unfold walk_block at 1. destruct (walk_events_ok (map persisted b) res ∅ ∅) as (res1 & dids1 & bc1 & -> & Hl & Hi); [rewrite length_map; lia|].
  rewrite !Ok_bind. cbv beta iota. rewrite length_map in Hl.
  edestruct IH as (res' & -> & Hi'); [|eexists; split; [reflexivity|]]; [simpl; lia|]. rewrite Hi'. cbn [wr_infos]. by rewrite Hi, <-app_assoc.
Qed.

(** Few enough events for the table of collections. *)
Definition few (bs : list (list Event)) : Prop := 2 * Z.of_nat (length (concat bs)) < 2 ^ 32 - 1.

Lemma walk_few bs : few bs → Forall block_ok bs → len_bytes (header_bytes ++ frames bs) ≤ maxInt →
  ∃ res, walkActiveFrames (header_bytes ++ frames bs) = Ok res ∧ wr_infos res = infos_at ReservedHeaderBytes bs.
Proof. intros Hf Hb Hs. rewrite walkActiveFrames_frames by done. by apply walk_blocks_ok. Qed.

(** ** The beginning of a file *)

Lemma prefix_app_split (x a b : bytes) : x `prefix_of` a ++ b → (length x < length a)%nat ∧ x `prefix_of` a ∨ ∃ x', x = a ++ x' ∧ x' `prefix_of` b.
Proof.
  intros Hx. destruct (decide (length x < length a)%nat) as [Hl|Hl]; [left|right].
  - split; [done|]. destruct (prefix_weak_total x a (a ++ b)) as [|Ha]; [done|by exists b|done|]. apply prefix_length in Ha. lia.
  - destruct (prefix_weak_total a x (a ++ b)) as [[x' ->]|Ha]; [by exists b|done| |].
    + exists x'. split; [done|]. by apply prefix_app_inv in Hx.
    + exists []. rewrite app_nil_r. split; [|apply prefix_nil]. symmetry. destruct Ha as [r ->]. rewrite length_app in Hl. destruct r; [by rewrite app_nil_r|simpl in Hl; lia].
Qed.

Lemma torn_prefix b x : len_bytes (frame_of b) ≤ maxInt → x `prefix_of` frame_of b → len_bytes x < len_bytes (frame_of b) → torn x.
Proof.
  rewrite frame_len. unfold frame_of, maxInt. set (fr := EncodeAll _). intros Hs [r Hr] Hl. pose proof (len_pos fr). unfold torn.
  destruct (Z.lt_ge_cases (len_bytes x) 8) as [|H8]; [by left|right].
  apply (f_equal (take 8)) in Hr. rewrite take_app_le in Hr by (rewrite length_le_split; lia). 
  rewrite (take_app_le x) in Hr by (unfold len_bytes in H8; lia). rewrite <-Hr, take_ge by (rewrite length_le_split; lia).
  rewrite uint64_small, le_combine_split, Z.mod_small by (simpl; lia). lia.
Qed.

Lemma prefix_frames all : ∀ x, x `prefix_of` frames all → len_bytes (frames all) ≤ maxInt →
  ∃ bs t, x = frames bs ++ t ∧ torn t ∧ bs `prefix_of` all ∧ ∀ acked, acked `prefix_of` all → len_bytes (frames acked) ≤ len_bytes x → acked `prefix_of` bs.
Proof.
  induction all as [|b all IH]; intros x Hx Hs.
  - apply prefix_nil_inv in Hx as ->. exists [], []. split_and!; [done|by left|done|done].
  - rewrite frames_cons, len_app in *. pose proof (len_pos (frames all)). pose proof (len_pos (frame_of b)).
    destruct (prefix_app_split _ _ _ Hx) as [[Hl Hp]|(x' & -> & Hx')].
    + exists [], x. split_and!; [done| |apply prefix_nil|].
      * apply (torn_prefix b); [lia|done|unfold len_bytes; lia].
      * intros [|b' acked] Ha Hx'; [done|]. apply prefix_cons_inv_1 in Ha as ->. rewrite frames_cons, len_app in Hx'. pose proof (len_pos (frames acked)). unfold len_bytes in *. lia.
    + destruct (IH x' Hx') as (bs & t & -> & Ht & Hp & Ha); [lia|]. exists (b :: bs), t. rewrite frames_cons, <-app_assoc. split_and!; [done|done|by apply prefix_cons|].
      intros [|b' acked] Hb Hl; [apply prefix_nil|]. pose proof (prefix_cons_inv_1 _ _ _ _ Hb) as ->. apply prefix_cons, Ha; [by apply prefix_cons_inv_2 in Hb|].
      rewrite frames_cons, !len_app in Hl. rewrite len_app. lia.
Qed.

(** A file that holds (part of) the frames of [all]; those of [acked] are durable. *)
Record seg_file (f : File) (all acked : list (list Event)) : Prop := {
  sf_data : f_data f `prefix_of` header_bytes ++ frames all;
  sf_size : len_bytes (header_bytes ++ frames all) ≤ maxInt;
  sf_acked : acked `prefix_of` all;
  sf_ok : Forall block_ok all;
  sf_synced : (length (header_bytes ++ frames acked) ≤ f_synced f)%nat;
  sf_bound : (f_synced f ≤ length (f_data f))%nat;
}.

(** A file that can be opened: whole frames, then a torn tail. *)
Definition left_behind (f : File) (bs : list (list Event)) : Prop :=
  ∃ t, torn t ∧ f = mkFile (header_bytes ++ frames bs ++ t) (length (header_bytes ++ frames bs ++ t)) ∧
    len_bytes (header_bytes ++ frames bs ++ t) ≤ maxInt ∧ Forall block_ok bs.

Lemma crash_leaves f all acked k : seg_file f all acked → ∃ bs, left_behind (crash k f) bs ∧ acked `prefix_of` bs ∧ bs `prefix_of` all.
Proof.
  intros [Hd Hs Ha Hok Hsy Hb]. unfold crash. set (k' := (f_synced f `max` (k `min` length (f_data f)))%nat).
  assert (Hk : (f_synced f ≤ k' ≤ length (f_data f))%nat) by lia. clearbody k'.
  rewrite length_app in Hsy. assert (Hp : take k' (f_data f) `prefix_of` header_bytes ++ frames all) by (etrans; [apply prefix_take|done]).
  assert (Hlen : length (take k' (f_data f)) = k') by (rewrite length_take; lia). set (x := take k' (f_data f)) in *. clearbody x.
  destruct (prefix_app_split _ _ _ Hp) as [[Hl _]|(y & -> & Hy)]; [lia|].
  rewrite len_app in Hs. pose proof (len_pos header_bytes).
  destruct (prefix_frames all y Hy) as (bs & t & -> & Ht & Hbs & Hacked); [lia|]. exists bs. split_and!; [|apply Hacked; [done|]|done].
  - exists t. rewrite Hlen. split_and!; [done|done| |destruct Hbs as [r ->]; by apply Forall_app in Hok as [? _]].
    apply prefix_length in Hy. rewrite len_app. unfold len_bytes in *. lia.
  - rewrite length_app in Hlen. unfold len_bytes. lia.
Qed.
End file.
