(* ===== verification/SegWriter.v ===== *)
(** * The writer of a segment file survives crashes

    What the operations of the writer do to the file ([Append_open] to
    [CommitPreparedFlush_open]), the invariant of its life ([seg_inv]), and two ways to
    a file that cannot be opened: a footer without its header, and a block that is too
    large. *)

From Stdlib Require Import Strings.Byte.
From coqutil Require Import Byte Word.LittleEndianList.
From S2P Require Import Prelude GoStrings StateMonad Segment SegmentProofs SegFileProofs.
Local Open Scope Z_scope.

(** ** Opening what a crash left behind *)

Section writer.
Context `{ZstdLaws} `{SegIO}.

Definition whole_file (bs : list (list Event)) : File := mkFile (header_bytes ++ frames bs) (length (header_bytes ++ frames bs)).

(** The prepared blocks [ps] hold the events [bs] and are numbered from [id]. *)
Fixpoint prepared_ok (id : Z) (ps : list PreparedBlock) (bs : list (list Event)) : Prop :=
  match ps, bs with
  | [], [] => True
  | p :: ps, b :: bs =>
      (pr_Body p = encodeBlockColumns (eventColumns b) ∧ bi_EventCount (pr_info p) = Z.of_nat (length b) ∧ pr_id p = uint64 id ∧ pr_committed p = false) ∧
      prepared_ok (id + 1) ps bs
  | _, _ => False
  end.

(** The state of a writer that accepts events: all blocks are durable, the file ends
    behind them, and prepared blocks and the buffer wait. *)
Record open_ok (w : SegWriter) (blocks : list (list Event)) (ps : list PreparedBlock) (bs : list (list Event)) (pend : list Event) : Prop := {
  oo_closed : sw_closed w = false;
  oo_sticky : sw_stickyErr w = None;
  oo_file : sw_file w = whole_file blocks;
  oo_offset : sw_nextBlockOffset w = len_bytes (header_bytes ++ frames blocks);
  oo_pending : pb_columns (sw_pending w) = eventColumns pend;
  oo_prepared : ∃ id, prepared_ok id ps bs ∧
    sw_ids w = mkIds (uint64 (id + Z.of_nat (length ps))) (uint64 id) (uint64 (Z.of_nat (length ps)));
}.

Lemma seg_file_whole bs : Forall block_ok bs → len_bytes (header_bytes ++ frames bs) ≤ maxInt → seg_file (whole_file bs) bs bs.
Proof. intros Hb Hs. split; simpl; try done; lia. Qed.

Lemma torn_empty : torn [].
Proof. by left. Qed.

Lemma lift_if {A} (b : bool) (r : result seg_err A) (a : A) : (if b then lift r else mret a) = lift (S:=SegWriter) (if b then r else Ok a).
Proof. by destruct b. Qed.

(** The end of [resumeExistingSegment]. *)
Lemma resume_result bs t c : torn t → len_bytes (header_bytes ++ frames bs ++ t) ≤ maxInt →
  let n := length (header_bytes ++ frames bs ++ t) in
  match resumeExistingSegment (new_writer (mkFile (header_bytes ++ frames bs ++ t) n) c) with
  | (w, Ok _) => ∃ c', w = new_writer (whole_file bs) c'
  | (w, Err _) => sync_fails c ≠ None ∧ sw_file w = whole_file bs
  end.
Proof.
  intros Ht Hs n. unfold whole_file. set (whole := header_bytes ++ frames bs). unfold resumeExistingSegment, mbind, StateM_bind, get, throw, modify, new_writer. cbn [sw_file f_data].
  pose proof (len_pos t). pose proof (len_pos (frames bs)).
  assert (Hn : len_bytes (header_bytes ++ frames bs ++ t) = ReservedHeaderBytes + len_bytes (frames bs) + len_bytes t) by (rewrite !len_app, header_length; lia).
  rewrite (proj2 (Z.ltb_ge _ ReservedHeaderBytes)) by lia. rewrite bool_decide_true by done.
  change (Uint64At 4 _) with 0. cbn [negb Z.eqb]. rewrite lastGoodOffset_frames by done.
  assert (Hlen : Z.to_nat (ReservedHeaderBytes + len_bytes (frames bs)) = length whole).
  { unfold whole. rewrite length_app. unfold ReservedHeaderBytes, len_bytes. change (length header_bytes) with 256%nat. lia. }
  assert (Htake : take (length whole) (header_bytes ++ frames bs ++ t) = whole) by (rewrite app_assoc; apply take_app_length).
  assert (Hmin : (n `min` length whole)%nat = length whole) by (unfold n, whole; rewrite app_assoc, length_app; lia).
  destruct (_ <? len_bytes (header_bytes ++ frames bs ++ t)) eqn:E.
  - unfold Sync, mbind, StateM_bind, get, modify, throw. cbn [sw_calls set_file sw_file f_synced seg_tick]. rewrite Hlen, Htake, Hmin.
    destruct (sync_fails c) eqn:Es; simpl; [done|by eexists].
  - apply Z.ltb_ge in E. assert (t = []) as -> by (destruct t; [done|unfold len_bytes in *; simpl in *; lia]).
    exists c. unfold n, whole. by rewrite app_nil_r.
Qed.

Lemma New_opens f bs c : left_behind f bs → few bs →
  match New f c with
  | (w, Ok _) => open_ok w bs [] [] []
  | (w, Err _) => sync_fails c ≠ None ∧ sw_file w = whole_file bs
  end.
Proof.
  intros (t & Ht & -> & Hs & Hb) Hfew. pose proof (len_pos t) as Ht0. pose proof (resume_result bs t c Ht Hs) as Hr. cbv zeta in Hr.
  assert (Hl : len_bytes (header_bytes ++ frames bs) ≤ maxInt) by (rewrite app_assoc, len_app in Hs; lia).
  destruct (walk_few bs Hfew Hb Hl) as (res & Hw & _).
  unfold New, New_body. unfold mbind, StateM_bind, get, modify. cbn [sw_file f_data new_writer]. fold (new_writer (mkFile (header_bytes ++ frames bs ++ t) (length (header_bytes ++ frames bs ++ t))) c).
  rewrite (proj2 (Z.eqb_neq (len_bytes (header_bytes ++ frames bs ++ t)) 0)) by (rewrite len_app, header_length; pose proof (len_pos (frames bs ++ t)); unfold ReservedHeaderBytes; lia).
  destruct (resumeExistingSegment _) as [w [[]|e]]; [|exact Hr]. destruct Hr as [c' ->]. cbn [sw_file f_data new_writer whole_file].
  rewrite lift_if, Hw. destruct (_ <? _); (split; [done|done|done|done|done|by exists 0]).
Qed.

Lemma append_columns_one l e : append_columns (eventColumns l) e = eventColumns (l ++ [e]).
Proof. unfold append_columns, eventColumns. simpl. rewrite !map_app, !flat_map_app. simpl. by rewrite !app_nil_r. Qed.

Lemma pending_count w blocks ps bs pend : open_ok w blocks ps bs pend → pb_count (sw_pending w) = Z.of_nat (length pend).
Proof. intros Ho. unfold pb_count. rewrite (oo_pending _ _ _ _ _ Ho). simpl. by rewrite length_map. Qed.

(** ** The writer's operations *)

(** A writer that has failed, or could not be opened. *)
Definition stopped (w : SegWriter) : Prop := sw_stickyErr w ≠ None.

Lemma Append_stopped n ev w : stopped w → ∃ e, Append n ev w = (w, Err e).
Proof.
  intros Hst. unfold Append, mbind, StateM_bind, get. destruct (sw_closed w); [by eexists|]. destruct (sw_stickyErr w) eqn:Ek; [by eexists|done].
Qed.
Lemma Flush_stopped w : stopped w → ∃ e, Writer_Flush w = (w, Err e).
Proof.
  intros Hst. unfold Writer_Flush, mbind, StateM_bind, get. destruct (sw_closed w); [by eexists|]. destruct (sw_stickyErr w) eqn:Ek; [by eexists|done].
Qed.
Lemma PrepareFlush_stopped w : stopped w → ∃ e, PrepareFlush w = (w, Err e).
Proof. intros Hst. unfold PrepareFlush, mbind, StateM_bind, get. destruct (sw_stickyErr w) eqn:Ek; [by eexists|done]. Qed.
Lemma CommitPreparedFlush_stopped p frame w : stopped w → ∃ e, CommitPreparedFlush p frame w = (w, Err e).
Proof. intros Hst. unfold CommitPreparedFlush, mbind, StateM_bind, get. destruct (sw_stickyErr w) eqn:Ek; [by eexists|done]. Qed.

Lemma Append_open n ev w blocks ps bs pend : open_ok w blocks ps bs pend →
  match Append n ev w with
  | (w', Ok _) => open_ok w' blocks ps bs (pend ++ [ev]) ∧ sw_file w' = sw_file w ∧ segment_ValidateEvent ev = Ok tt ∧ Z.of_nat (length pend) < n
  | (w', Err _) => w' = w
  end.
Proof.
  intros Ho. pose proof (pending_count _ _ _ _ _ Ho) as Hc. destruct Ho as [Ec Ek Ef Eo Ep Ei].
  unfold Append, mbind, StateM_bind, get, throw, lift, modify, mret, StateM_ret. rewrite Ec, Ek, Hc. destruct (n <=? Z.of_nat (length pend)) eqn:En; [done|]. apply Z.leb_gt in En.
  destruct (segment_ValidateEvent ev) as [[]|e]; [|done]. split_and!; try done. split; try done. simpl. by rewrite Ep, append_columns_one.
Qed.

Lemma file_write_end d x : file_write (length d) x (mkFile d (length d)) = mkFile (d ++ x) (length d).
Proof. unfold file_write. simpl. rewrite take_ge by lia. rewrite drop_ge by lia. by rewrite app_nil_r, Nat.min_id. Qed.

Lemma WriteAt_end d x w : sw_file w = mkFile d (length d) →
  match sticky (WriteAt x (len_bytes d)) w with
  | (w', Ok _) => w' = set_file (mkFile (d ++ x) (length d)) (seg_tick w) ∧ len_bytes d + len_bytes x ≤ maxInt
  | (w', Err e) => stopped w' ∧ (∃ op, e = ErrIO op) ∧
      (sw_file w' = sw_file w ∨ len_bytes d + len_bytes x ≤ maxInt ∧ ∃ n, sw_file w' = mkFile (d ++ take n x) (length d))
  end.
Proof.
  intros Hf. unfold sticky, WriteAt, catch, mbind, StateM_bind, get, modify, throw. destruct (maxInt <? len_bytes d + len_bytes x) eqn:E; simpl.
  { split; [done|]. split; [by eexists|by left]. }
  apply Z.ltb_ge in E. assert (Hd : Z.to_nat (len_bytes d) = length d) by (unfold len_bytes; lia). rewrite !Hd.
  destruct (write_fails (sw_calls w)) as [[e n]|]; simpl; rewrite Hf, file_write_end; [|done].
  split; [done|]. split; [by eexists|]. right. split; [done|by exists n].
Qed.

Lemma Sync_result w :
  match sticky Sync w with
  | (w', Ok _) => w' = set_file (file_sync (sw_file w)) (seg_tick w)
  | (w', Err e) => stopped w' ∧ (∃ op, e = ErrIO op) ∧ sw_file w' = sw_file w
  end.
Proof. unfold sticky, Sync, catch, mbind, StateM_bind, get, modify, throw. destruct (sync_fails (sw_calls w)); simpl; [|done]. split; [done|]. split; [by eexists|done]. Qed.

(** The file while a block is being added. *)
Lemma seg_file_adding blocks pend x : Forall block_ok blocks → block_ok pend → len_bytes (header_bytes ++ frames blocks) + len_bytes (frame_of pend) ≤ maxInt →
  x `prefix_of` frame_of pend →
  seg_file (mkFile ((header_bytes ++ frames blocks) ++ x) (length (header_bytes ++ frames blocks))) (blocks ++ [pend]) blocks.
Proof.
  intros Hb Hp Hs Hx. split; cbn [f_data f_synced].
  - rewrite frames_snoc. by apply prefix_app.
  - by rewrite frames_snoc, len_app.
  - by exists [pend].
  - apply Forall_app. split; [done|]. by apply Forall_singleton.
  - done.
  - rewrite (length_app _ x). lia.
Qed.

(** A block that is written is in the file, or the writer stops, with some of the
    block's bytes in the file. *)
Lemma write_block_spec w blocks evs info reset :
  sw_file w = whole_file blocks → sw_nextBlockOffset w = len_bytes (header_bytes ++ frames blocks) →
  Forall block_ok blocks → len_bytes (header_bytes ++ frames blocks) ≤ maxInt → (∀ w, sw_file (reset w) = sw_file w) →
  match write_block (EncodeAll (encodeBlockColumns (eventColumns evs))) info reset w with
  | (w', Ok _) => len_bytes (header_bytes ++ frames (blocks ++ [evs])) ≤ maxInt ∧
      ∃ i n f w1, w1 = add_block i n (set_file f (seg_tick w)) ∧ w' = set_file (whole_file (blocks ++ [evs])) (seg_tick (reset w1)) ∧
        sw_nextBlockOffset w1 = len_bytes (header_bytes ++ frames (blocks ++ [evs]))
  | (w', Err e) => stopped w' ∧ (∃ op, e = ErrIO op) ∧ (block_ok evs → ∃ all, seg_file (sw_file w') all blocks ∧ (all = blocks ∨ all = blocks ++ [evs]))
  end.
Proof.
  intros Ef Eo Hb Hs Hreset. unfold write_block, mbind, StateM_bind, get, modify. rewrite Eo. fold (frame_of evs). cbv zeta.
  set (d := header_bytes ++ frames blocks) in *. pose proof (frames_snoc blocks evs) as Hall. fold d in Hall. unfold whole_file in Ef.
  fold d in Ef. pose proof (WriteAt_end d (frame_of evs) w Ef) as Hw. destruct (sticky (WriteAt _ _) w) as [w1 [[]|e]].
  - destruct Hw as [-> Hm]. set (i := located _ _ info). set (wa := add_block i (len_bytes (frame_of evs)) (set_file (mkFile (d ++ frame_of evs) (length d)) (seg_tick w))).
    pose proof (Sync_result (reset wa)) as Hy. rewrite Hreset in Hy. destruct (sticky Sync _) as [w2 [[]|e]].
    + rewrite Hall, len_app. split; [done|]. do 3 eexists. exists wa. split; [reflexivity|]. split; [by rewrite Hy; unfold whole_file; rewrite Hall|].
      change (sw_nextBlockOffset w + len_bytes (frame_of evs) = len_bytes d + len_bytes (frame_of evs)). by rewrite Eo.
    + destruct Hy as (Hst & Hop & Hf). split; [done|]. split; [done|]. intros Hp. exists (blocks ++ [evs]). rewrite Hf. split; [|by right]. by apply seg_file_adding.
  - destruct Hw as (Hst & Hop & [Hf|(Hm & n & Hf)]); (split; [done|]); (split; [done|]); intros Hp; rewrite Hf.
    + exists blocks. split; [|by left]. rewrite Ef. by apply seg_file_whole.
    + exists (blocks ++ [evs]). split; [|by right]. apply seg_file_adding; [done|done|done|]. apply prefix_take.
Qed.

(** A flush adds the pending block to the file. *)
Lemma Flush_open w blocks pend : open_ok w blocks [] [] pend → Forall block_ok blocks → (pend ≠ [] → block_ok pend) →
  len_bytes (header_bytes ++ frames blocks) ≤ maxInt →
  match Writer_Flush w with
  | (w', Ok _) => (pend = [] ∧ w' = w) ∨ (pend ≠ [] ∧ open_ok w' (blocks ++ [pend]) [] [] [] ∧ len_bytes (header_bytes ++ frames (blocks ++ [pend])) ≤ maxInt)
  | (w', Err _) => stopped w' ∧ ∃ all, seg_file (sw_file w') all blocks ∧ (all = blocks ∨ all = blocks ++ [pend])
  end.
Proof.
  intros Ho Hb Hp Hs. pose proof (pending_count _ _ _ _ _ Ho) as Hc. destruct Ho as [Ec Ek Ef Eo Ep Ei].
  unfold Writer_Flush, flushLocked, get, mbind at 1, StateM_bind at 1. rewrite Ec, Ek. unfold mbind, StateM_bind. rewrite Ek, Hc.
  assert (pend = [] ∨ pend ≠ []) as [->|Hne] by (destruct pend; auto); [by left|]. specialize (Hp Hne).
  rewrite (proj2 (Z.eqb_neq _ 0)) by (destruct pend; [done|simpl; lia]). rewrite Ep. cbv zeta.
  pose proof (write_block_spec w blocks pend (pending_info w (len_bytes (encodeBlockInto [] (eventColumns pend)))) (set_pending no_pending) Ef Eo Hb Hs ltac:(done)) as Hw.
  unfold mbind, StateM_bind in Hw. destruct (write_block _ _ _ w) as [w' [[]|e]]; [|destruct Hw as (? & _ & ?); by auto]. destruct Hw as (Hm & i & n & f & w1 & -> & -> & Hoff).
  right. split_and!; [done| |done]. by split.
Qed.

Lemma prepared_ok_snoc id ps bs p b : prepared_ok id ps bs →
  pr_Body p = encodeBlockColumns (eventColumns b) → bi_EventCount (pr_info p) = Z.of_nat (length b) → pr_id p = uint64 (id + Z.of_nat (length ps)) → pr_committed p = false →
  prepared_ok id (ps ++ [p]) (bs ++ [b]).
Proof.
  revert id bs. induction ps as [|p' ps IH]; intros id [|b' bs] Ho H1' H2' H3 H4; try done; simpl in *.
  - by rewrite Z.add_0_r in H3.
  - destruct Ho as [? Ho]. split; [done|]. apply IH; try done. rewrite H3. f_equal. lia.
Qed.

Lemma uint64_add a b : uint64 (uint64 a + b) = uint64 (a + b).
Proof. unfold uint64, uint_wrap. apply Z.add_mod_idemp_l. done. Qed.

Lemma PrepareFlush_open w blocks ps bs pend : open_ok w blocks ps bs pend → (pend ≠ [] → block_ok pend) →
  match PrepareFlush w with
  | (w', Ok None) => pend = [] ∧ w' = w
  | (w', Ok (Some p)) => block_ok pend ∧ open_ok w' blocks (ps ++ [p]) (bs ++ [pend]) [] ∧ sw_file w' = sw_file w
  | (w', Err _) => False
  end.
Proof.
  intros Ho Hp. pose proof (pending_count _ _ _ _ _ Ho) as Hc. destruct Ho as [Ec Ek Ef Eo Ep (id & Ei & Ej)].
  unfold PrepareFlush, mbind, StateM_bind, get, modify, mret, StateM_ret. rewrite Ek, Hc.
  assert (pend = [] ∨ pend ≠ []) as [->|Hne] by (destruct pend; auto); [done|]. specialize (Hp Hne).
  rewrite (proj2 (Z.eqb_neq _ 0)) by (destruct pend; [done|simpl; lia]). rewrite Ep, Ej. cbv zeta. cbn [nextPreparedBlockID nextPreparedCommitID preparedOutstanding].
  split; [done|]. split; [|done]. split; try done. exists id. split.
  - apply prepared_ok_snoc; try done. cbn [pr_info]. unfold pending_info. destruct (pb_bounds _) as [[? ?] [? ?]]. cbn [bi_EventCount]. rewrite Hc.
    destruct Hp as (_ & _ & Hn & _). unfold maxBlockEventsLimit in Hn. unfold uint32, uint_wrap. apply Z.mod_small. lia.
  - cbn. rewrite !uint64_add, length_app. f_equal; f_equal; simpl; lia.
Qed.

(** Committing the next prepared block adds it to the file. *)
Lemma CommitPreparedFlush_open w blocks p ps b bs pend : open_ok w blocks (p :: ps) (b :: bs) pend → Forall block_ok blocks → block_ok b →
  len_bytes (header_bytes ++ frames blocks) ≤ maxInt →
  match CommitPreparedFlush p (CompressPreparedBlock p) w with
  | (w', Ok _) => open_ok w' (blocks ++ [b]) ps bs pend ∧ len_bytes (header_bytes ++ frames (blocks ++ [b])) ≤ maxInt
  | (w', Err _) => stopped w' ∧ ∃ all, seg_file (sw_file w') all blocks ∧ (all = blocks ∨ all = blocks ++ [b])
  end.
Proof.
  intros [Ec Ek Ef Eo Ep (id & ((E1 & E2 & E3 & E4) & Ei) & Ej)] Hb Hbp Hs.
  unfold CommitPreparedFlush, get, mbind, StateM_bind. rewrite Ek, E4, Ej, E3. cbn [nextPreparedCommitID]. rewrite Z.eqb_refl. cbn [negb].
  unfold CompressPreparedBlock. rewrite E1.
  pose proof (write_block_spec w blocks b (pr_info p) (λ w, w) Ef Eo Hb Hs ltac:(done)) as Hw.
  destruct (write_block _ _ _ w) as [w' [[]|e]]; [|destruct Hw as (? & _ & ?); by auto]. destruct Hw as (Hm & i & n & f & w1 & -> & -> & Hoff). split; [|done].
  unfold modify, mret, StateM_ret. split; try done. exists (id + 1). split; [done|]. unfold count_commit. cbn. rewrite Ej. cbn [nextPreparedBlockID nextPreparedCommitID preparedOutstanding length].
  rewrite <-Z.add_opp_r, !uint64_add. f_equal; f_equal; lia.
Qed.

Lemma New_fresh w c : New (mkFile [] 0) c = (w, Ok tt) → open_ok w [] [] [] [].
Proof.
  unfold New, New_body, initializeNewSegment, WriteAt, Sync, catch, mbind, StateM_bind, get, modify, throw, mret, StateM_ret.
  fold header_bytes. cbv beta. cbn [sw_file f_data new_writer]. change (len_bytes [] =? 0) with true. cbv iota.
  change (maxInt <? 0 + len_bytes header_bytes) with false. cbv iota beta. cbn [sw_calls seg_tick new_writer].
  destruct (write_fails c) as [[e n]|]; [done|]. cbn [sw_calls set_file seg_tick new_writer]. destruct (sync_fails (S c)); [done|].
  cbn [sw_calls set_file seg_tick new_writer]. destruct (sync_fails (S (S c))); [done|].
  intros Hn. injection Hn as <-. split; try reflexivity. by exists 0.
Qed.

(** ** A life of a segment file *)

(** The bytes that an event takes in a block. *)
Definition event_size (e : Event) : Z :=
  fixedPerEvent + len (ev_Collection e) + len (ev_DID e) + len (ev_Rkey e) + len (ev_Rev e) + len_bytes (ev_Payload e).

Lemma column_size {A} w (f : A → Z) l : len_bytes (column w (map f l)) = Z.of_nat w * Z.of_nat (length l).
Proof. apply length_flat_map_column. Qed.

Lemma blob_size (f : Event → bytes) (n : Event → Z) evs : (∀ e, len_bytes (f e) = n e) → len_bytes (flat_map f evs) = foldr Z.add 0 (map n evs).
Proof. intros Hn. induction evs as [|e evs IH]; [done|]. simpl. by rewrite len_app, Hn, IH. Qed.

Lemma block_size evs : len_bytes (encodeBlockColumns (eventColumns evs)) = 4 + foldr Z.add 0 (map event_size evs).
Proof.
  unfold encodeBlockColumns, encodeBlockInto, encodeColumns, eventColumns. cbn [c_seq c_witnessedAt c_indexedAt c_kind c_collLen c_didLen c_rkeyLen c_revLen c_eventLen c_collections c_dids c_rkeys c_revs c_payloads].
  rewrite app_nil_l, !map_map, !len_app, !column_size, len_le_split.
  rewrite (blob_size _ (λ e, len (ev_Collection e))), (blob_size _ (λ e, len (ev_DID e))), (blob_size _ (λ e, len (ev_Rkey e))), (blob_size _ (λ e, len (ev_Rev e))),
    (blob_size ev_Payload (λ e, len_bytes (ev_Payload e))) by (intros; first [apply len_str_bytes|done]).
  induction evs as [|e evs IH]; [done|]. cbn [map foldr length] in *. unfold event_size at 1, fixedPerEvent. lia.
Qed.

(** Events of which [n] fit the decoder's limit. *)
Definition small (n : Z) (e : Event) : Prop := 4 + n * event_size e ≤ maxDecodedBlockBytes.
(** What is in a buffer for [n] of them. *)
Definition small_buffer (n : Z) (pend : list Event) : Prop := Forall (λ e, event_ok e ∧ small n e) pend ∧ Z.of_nat (length pend) ≤ n.

Lemma event_size_nonneg e : 0 ≤ event_size e.
Proof. unfold event_size, fixedPerEvent, len. pose proof (len_pos (ev_Payload e)). lia. Qed.

Lemma sizes_bound m pend : Forall (λ e, event_size e ≤ m) pend → foldr Z.add 0 (map event_size pend) ≤ Z.of_nat (length pend) * m.
Proof. induction 1; [done|]. cbn [map foldr length]. lia. Qed.

Lemma small_block n pend : 0 ≤ n ≤ maxBlockEventsLimit → small_buffer n pend → pend ≠ [] → block_ok pend.
Proof.
  intros Hn [Hp Hl] Hne. assert (Hn0 : 0 < n) by (destruct pend; [done|simpl in Hl; lia]).
  split_and!; [done| |lia|].
  - eapply Forall_impl; [exact Hp|]. by intros e [? _].
  - rewrite block_size. set (m := (maxDecodedBlockBytes - 4) / n). assert (Hm : Forall (λ e, event_size e ≤ m) pend).
    { eapply Forall_impl; [exact Hp|]. intros e [_ He]. unfold small in He. apply Z.div_le_lower_bound; lia. }
    pose proof (sizes_bound m pend Hm). assert (0 ≤ m) by (apply Z.div_pos; unfold maxDecodedBlockBytes; lia).
    pose proof (Z.mul_div_le (maxDecodedBlockBytes - 4) n Hn0) as Hdiv. fold m in Hdiv. nia.
Qed.

Lemma small_nil n : 0 ≤ n ≤ maxBlockEventsLimit → small_buffer n [].
Proof. intros Hn. split; [done|simpl; lia]. Qed.

(** Every byte in the file belongs to a block of accepted events, and every flushed
    event to a durable block. *)
Definition seg_inv (n : Z) (s : seg_life) : Prop := ∃ all acked rest,
  seg_file (sw_file (sl_writer s)) all acked ∧ sl_accepted s = concat all ++ rest ∧ (sl_flushed s ≤ length (concat acked))%nat ∧
  (stopped (sl_writer s) ∨ acked = all ∧ ∃ bs pend, rest = concat bs ++ pend ∧ open_ok (sl_writer s) all (sl_prepared s) bs pend ∧
     Forall block_ok bs ∧ small_buffer n pend).

Lemma concat_prefix {A} (l l' : list (list A)) : l `prefix_of` l' → ∃ r, concat l' = concat l ++ r.
Proof. intros [r ->]. exists (concat r). apply concat_app. Qed.

Lemma concat_snoc {A} (l : list (list A)) x : concat (l ++ [x]) = concat l ++ x.
Proof. rewrite concat_app. simpl. by rewrite app_nil_r. Qed.

Lemma concat_persisted bs : concat (map (map persisted) bs) = map persisted (concat bs).
Proof. induction bs as [|b bs IH]; [done|]. simpl. by rewrite IH, map_app. Qed.

Lemma left_behind_scan f bs : left_behind f bs → ScanActive (f_data f) = Ok (map (map persisted) bs).
Proof. intros (t & Ht & -> & Hs & Hb). by apply ScanActive_frames. Qed.

Lemma whole_left_behind bs : Forall block_ok bs → len_bytes (header_bytes ++ frames bs) ≤ maxInt → left_behind (whole_file bs) bs.
Proof. intros Hb Hs. exists []. unfold whole_file. rewrite app_nil_r. split_and!; [apply torn_empty|done|done|done]. Qed.

Lemma left_behind_whole f bs : left_behind f bs → Forall block_ok bs ∧ len_bytes (header_bytes ++ frames bs) ≤ maxInt.
Proof. intros (t & _ & _ & Hs & Hb). split; [done|]. rewrite app_assoc, len_app in Hs. pose proof (len_pos t). lia. Qed.

(** Numbers of an event that fit their Go types. *)
Definition int_range (e : Event) : Prop :=
  0 ≤ ev_Seq e < 2 ^ 64 ∧ - 2 ^ 63 ≤ ev_WitnessedAt e < 2 ^ 63 ∧ - 2 ^ 63 ≤ ev_IndexedAt e < 2 ^ 63.
Definition op_range (n : Z) (o : seg_op) : Prop := match o with SegAppend ev => int_range ev ∧ small n ev | _ => True end.

Lemma prepared_counts id ps bs : prepared_ok id ps bs → foldr Z.add 0 (map (λ p, bi_EventCount (pr_info p)) ps) = Z.of_nat (length (concat bs)).
Proof.
  revert id bs. induction ps as [|p ps IH]; intros id [|b bs] Ho; try done. destruct Ho as [(_ & Hc & _) Ho]. simpl.
  rewrite Hc, (IH _ _ Ho), length_app. lia.
Qed.

Lemma buffered_open w blocks ps bs pend : open_ok w blocks ps bs pend → buffered w ps = length (concat bs ++ pend).
Proof.
  intros Ho. unfold buffered. rewrite (pending_count _ _ _ _ _ Ho). destruct Ho as [_ _ _ _ _ (id & Hp & _)]. rewrite (prepared_counts _ _ _ Hp), length_app. lia.
Qed.

(** The four operations and the crash keep the invariant. *)
Lemma append_inv n s ev : 0 ≤ n ≤ maxBlockEventsLimit → int_range ev → small n ev → seg_inv n s → seg_inv n (seg_step n s (SegAppend ev)).
Proof.
  intros Hn Hev Hsm (all & acked & rest & Hf & Ha & Hfl & Hw). cbn [seg_step]. destruct Hw as [Hst|(-> & bs & pend & -> & Ho & Hbs & Hp)].
  - destruct (Append_stopped n ev _ Hst) as [e ->]. exists all, acked, rest. cbn. rewrite app_nil_r. split_and!; [done|done|done|by left].
  - pose proof (Append_open n ev _ _ _ _ _ Ho) as Hop. destruct (Append n ev _) as [w' [b|e]].
    + destruct Hop as (Ho' & Hfile & Hv & Hc). exists all, all, (concat bs ++ (pend ++ [ev])). cbn. rewrite Hfile, Ha, <-!app_assoc. split_and!; [done|done|done|right].
      split; [done|]. exists bs, (pend ++ [ev]). split_and!; [done|done|done|].
      destruct Hp as [Hp Hlen]. split; [|rewrite length_app; simpl; lia]. apply Forall_app. split; [done|]. apply Forall_singleton. by split.
    + subst w'. exists all, all, (concat bs ++ pend). cbn. rewrite app_nil_r. split_and!; [done|done|done|right]. split; [done|]. by exists bs, pend.
Qed.

Lemma flush_inv n s : 0 ≤ n ≤ maxBlockEventsLimit → seg_inv n s → seg_inv n (seg_step n s SegFlush).
Proof.
  destruct s as [w ps accepted flushed]. intros Hn (all & acked & rest & Hf & Ha & Hfl & Hw). cbn [seg_step sl_prepared sl_writer sl_accepted sl_flushed] in *.
  destruct ps as [|p ps]; [|by exists all, acked, rest]. destruct Hw as [Hst|(-> & bs & pend & -> & Ho & Hbs & Hp)].
  - destruct (Flush_stopped _ Hst) as [e ->]. exists all, acked, rest. cbn. split_and!; [done|done|done|by left].
  - destruct (oo_prepared _ _ _ _ _ Ho) as (id & Hpr & _). destruct bs; [|done]. cbn [concat app] in *.
    assert (Hs : len_bytes (header_bytes ++ frames all) ≤ maxInt) by apply (sf_size _ _ _ Hf).
    pose proof (Flush_open w all pend Ho (sf_ok _ _ _ Hf) (small_block n pend Hn Hp) Hs) as Hop. destruct (Writer_Flush w) as [w' [b|e]].
    + destruct Hop as [[-> ->]|(Hne & Ho' & Hs')].
      * exists all, all, []. cbn. rewrite app_nil_r in *. subst accepted. split_and!; [done|done|done|right]. split; [done|]. exists [], []. by split_and!; [| | |apply small_nil].
      * exists (all ++ [pend]), (all ++ [pend]), []. cbn. rewrite !concat_snoc, app_nil_r. subst accepted. split_and!; [|done|done|right].
        -- rewrite (oo_file _ _ _ _ _ Ho'). apply seg_file_whole; [|done]. apply Forall_app. split; [apply (sf_ok _ _ _ Hf)|]. apply Forall_singleton. by apply (small_block n).
        -- split; [done|]. exists [], []. by split_and!; [| | |apply small_nil].
    + destruct Hop as (Hst & all' & Hf' & [->| ->]).
      * exists all, all, pend. cbn. split_and!; [done|done|done|by left].
      * exists (all ++ [pend]), all, []. cbn. rewrite concat_snoc, app_nil_r. split_and!; [done|done|done|by left].
Qed.

Lemma prepare_inv n s : 0 ≤ n ≤ maxBlockEventsLimit → seg_inv n s → seg_inv n (seg_step n s SegPrepare).
Proof.
  destruct s as [w ps accepted flushed]. intros Hn (all & acked & rest & Hf & Ha & Hfl & Hw). cbn [seg_step sl_prepared sl_writer sl_accepted sl_flushed] in *.
  destruct Hw as [Hst|(-> & bs & pend & -> & Ho & Hbs & Hp)].
  - destruct (PrepareFlush_stopped _ Hst) as [e ->]. exists all, acked, rest. cbn. split_and!; [done|done|done|by left].
  - pose proof (PrepareFlush_open w all ps bs pend Ho (small_block n pend Hn Hp)) as Hop. destruct (PrepareFlush w) as [w' [[p|]|e]]; [| |done].
    + destruct Hop as (Hbp & Ho' & Hfile). exists all, all, (concat bs ++ pend). cbn. rewrite Hfile. split_and!; [done|done|done|right].
      split; [done|]. exists (bs ++ [pend]), []. rewrite concat_snoc, app_nil_r. split_and!; [done|done| |by apply small_nil].
      apply Forall_app. split; [done|]. by apply Forall_singleton.
    + destruct Hop as [-> ->]. exists all, all, (concat bs ++ []). cbn. rewrite app_nil_r. split_and!; [done|by rewrite app_nil_r in Ha|done|right].
      split; [done|]. exists bs, []. by rewrite !app_nil_r.
Qed.

Lemma commit_inv n s : seg_inv n s → seg_inv n (seg_step n s SegCommit).
Proof.
  destruct s as [w ps accepted flushed]. intros (all & acked & rest & Hf & Ha & Hfl & Hw). cbn [seg_step sl_prepared sl_writer sl_accepted sl_flushed] in *.
  destruct ps as [|p ps]; [by exists all, acked, rest|]. destruct Hw as [Hst|(-> & bs & pend & -> & Ho & Hbs & Hp)].
  - destruct (CommitPreparedFlush_stopped p (CompressPreparedBlock p) _ Hst) as [e ->]. exists all, acked, rest. cbn. split_and!; [done|done|done|by left].
  - destruct bs as [|b bs]; [by destruct (oo_prepared _ _ _ _ _ Ho) as (? & [] & _)|]. inversion_clear Hbs as [|?? Hb Hbs'].
    assert (Hs : len_bytes (header_bytes ++ frames all) ≤ maxInt) by apply (sf_size _ _ _ Hf).
    pose proof (CommitPreparedFlush_open w all p ps b bs pend Ho (sf_ok _ _ _ Hf) Hb Hs) as Hop.
    destruct (CommitPreparedFlush _ _ w) as [w' [q|e]].
    + destruct Hop as (Ho' & Hs'). exists (all ++ [b]), (all ++ [b]), (concat bs ++ pend). cbn [concat] in Ha.
      rewrite (buffered_open _ _ _ _ _ Ho'). cbn [sl_writer sl_accepted sl_flushed sl_prepared]. rewrite !concat_snoc. subst accepted. split_and!.
      * rewrite (oo_file _ _ _ _ _ Ho'). apply seg_file_whole; [|done]. apply Forall_app. split; [apply (sf_ok _ _ _ Hf)|]. by apply Forall_singleton.
      * by rewrite <-!app_assoc.
      * rewrite !length_app. lia.
      * right. split; [done|]. by exists bs, pend.
    + destruct Hop as (Hst & all' & Hf' & [->| ->]).
      * exists all, all, (concat (b :: bs) ++ pend). split_and!; [done|done|done|by left].
      * exists (all ++ [b]), all, (concat bs ++ pend). cbn [sl_writer sl_accepted sl_flushed sl_prepared]. rewrite concat_snoc. cbn [concat] in Ha. rewrite Ha, <-!app_assoc.
        split_and!; [done|done|done|by left].
Qed.

Lemma few_prefix bs all : bs `prefix_of` all → few all → few bs.
Proof. intros Hb. unfold few. destruct (concat_prefix _ _ Hb) as [r ->]. rewrite length_app. lia. Qed.

Lemma crash_inv n s k : 0 ≤ n ≤ maxBlockEventsLimit → 2 * Z.of_nat (length (sl_accepted s)) < 2 ^ 32 - 1 → seg_inv n s → seg_inv n (seg_step n s (SegCrash k)).
Proof.
  intros Hn Hfew (all & acked & rest & Hf & Ha & Hfl & _). cbn [seg_step]. destruct (crash_leaves _ _ _ k Hf) as (bs & Hl & Hab & Hb).
  rewrite (left_behind_scan _ _ Hl), concat_persisted, length_map. assert (Hbf : few bs).
  { apply (few_prefix bs all Hb). unfold few. rewrite Ha, length_app in Hfew. lia. }
  rewrite Ha. destruct (concat_prefix _ _ Hb) as [r ->]. rewrite <-app_assoc, take_app_length.
  assert (Hfl' : (sl_flushed s ≤ length (concat bs))%nat) by (destruct (concat_prefix _ _ Hab) as [r' ->]; rewrite length_app; lia).
  destruct (left_behind_whole _ _ Hl) as [Hok Hs].
  pose proof (New_opens _ _ (sw_calls (sl_writer s)) Hl Hbf) as Hn'. destruct (New _ _) as [w' [[]|e]]; exists bs, bs, []; cbn [sl_writer sl_accepted sl_flushed sl_prepared]; rewrite app_nil_r.
  - split_and!; [|done|done|right; split; [done|exists [], []; by split_and!; [| | |apply small_nil]]]. rewrite (oo_file _ _ _ _ _ Hn'). by apply seg_file_whole.
  - destruct Hn' as [_ Hfile]. split_and!; [|done|done|by left]. change (sw_file (set_sticky e w')) with (sw_file w'). rewrite Hfile. by apply seg_file_whole.
Qed.

Lemma seg_step_inv n s o : 0 ≤ n ≤ maxBlockEventsLimit → op_range n o → 2 * Z.of_nat (length (sl_accepted s)) < 2 ^ 32 - 1 → seg_inv n s → seg_inv n (seg_step n s o).
Proof. intros Hn Ho Hl. destruct o; [destruct Ho; by apply append_inv|by apply flush_inv|by apply prepare_inv|by apply commit_inv|by apply crash_inv]. Qed.

Lemma seg_step_accepted n s o : (length (sl_accepted (seg_step n s o)) ≤ S (length (sl_accepted s)))%nat.
Proof.
  destruct s as [w [|p ps] accepted flushed], o; cbn [seg_step sl_prepared sl_writer sl_accepted sl_flushed]; repeat (case_match; simplify_eq);
    cbn [sl_accepted]; rewrite ?length_app, ?length_take; simpl; lia.
Qed.

Lemma seg_run_inv n ops s : 0 ≤ n ≤ maxBlockEventsLimit → Forall (op_range n) ops → 2 * (Z.of_nat (length (sl_accepted s)) + Z.of_nat (length ops)) < 2 ^ 32 - 1 →
  seg_inv n s → seg_inv n (foldl (seg_step n) s ops) ∧ (length (sl_accepted (foldl (seg_step n) s ops)) ≤ length (sl_accepted s) + length ops)%nat.
Proof.
  intros Hn Hops. revert s. induction Hops as [|o ops Ho Hops IH]; intros s Hl Hs; [simpl; split; [done|lia]|]. cbn [foldl length] in *.
  pose proof (seg_step_accepted n s o). destruct (IH (seg_step n s o)) as [H1' H2']; [lia|apply seg_step_inv; [done|done|lia|done]|]. split; [done|lia].
Qed.

(** C14 (safety): no flushed event is lost, and nothing else is read.  A segment file
    is created, then events are appended, blocks flushed, or prepared and later
    committed, and the process crashes, any number of times and in any order; writes
    may fail half-way, syncs may fail, and a crash keeps the synced bytes and a prefix of
    what was written behind them (so does [crash]; truncations are not undone).  The events are so small that
    [MaxEventsPerBlock] of them fit the decoder's limit of 1 GiB ([op_range]; without
    this, see [oversized_block]), and there are less than 2^31 operations.  After a crash
    a scan of the file finds the beginning of the sequence of accepted events (those that
    earlier crashes have not lost), field by field, with at least all events that a
    successful [Flush] or [CommitPreparedFlush] covered; and [New], if its sync succeeds,
    continues with a file of just these events. *)
Theorem segment_durable n ops w0 k :
  0 ≤ n ≤ maxBlockEventsLimit → Forall (op_range n) ops → 2 * Z.of_nat (length ops) < 2 ^ 32 - 1 → New (mkFile [] 0) 0 = (w0, Ok tt) →
  let s := foldl (seg_step n) (mkLife w0 [] [] 0) ops in
  let f := crash k (sw_file (sl_writer s)) in
  ∃ m blocks, ScanActive (f_data f) = Ok blocks ∧ concat blocks = map persisted (take m (sl_accepted s)) ∧
    (sl_flushed s ≤ m ≤ length (sl_accepted s))%nat ∧
    (∀ calls, sync_fails calls = None → ∃ w', New f calls = (w', Ok tt) ∧ ScanActive (f_data (sw_file w')) = Ok blocks).
Proof.
  intros Hn Hops Hl0 Hnew s f. assert (Hi : seg_inv n s ∧ (length (sl_accepted s) ≤ length ops)%nat).
  { apply (seg_run_inv n ops (mkLife w0 [] [] 0)); [done|done|done|]. pose proof (New_fresh _ _ Hnew) as Ho. exists [], [], [].
    split_and!; [|done|done|right; split; [done|exists [], []; by split_and!; [| | |apply small_nil]]]. cbn. rewrite (oo_file _ _ _ _ _ Ho). by apply seg_file_whole. }
  destruct Hi as [(all & acked & rest & Hf & Ha & Hfl & _) Hlen].
  destruct (crash_leaves _ _ _ k Hf) as (bs & Hl & Hab & Hb). fold f in Hl. destruct (left_behind_whole _ _ Hl) as [Hok Hs].
  assert (Hbf : few bs) by (apply (few_prefix bs all Hb); unfold few; rewrite Ha, length_app in Hlen; lia).
  destruct (concat_prefix _ _ Hb) as [r Hr]. rewrite Ha, Hr. exists (length (concat bs)), (map (map persisted) bs). split_and!.
  - by apply left_behind_scan.
  - by rewrite <-app_assoc, take_app_length, concat_persisted.
  - destruct (concat_prefix _ _ Hab) as [r' ->]. rewrite length_app. lia.
  - rewrite !length_app. lia.
  - intros calls Hc. pose proof (New_opens _ _ calls Hl Hbf) as Hn'. destruct (New _ calls) as [w' [[]|e]]; [|by destruct Hn'].
    exists w'. split; [done|]. rewrite (oo_file _ _ _ _ _ Hn'). by apply (left_behind_scan _ _ (whole_left_behind bs Hok Hs)).
Qed.

(** ** A footer without its header *)

Lemma lastGood_ge fuel content off : off ≤ lastGood_loop fuel content off.
Proof.
  revert off. induction fuel as [|fuel IH]; intros off; [done|]. cbn [lastGood_loop]. repeat (case_match; [done|]).
  match goal with H : _ || _ = false |- _ => apply orb_false_iff in H as [_ H]; apply Z.ltb_ge in H end. etrans; [|apply IH]. done.
Qed.

(** The first word of the footer, an offset, taken for the length of a frame. *)
Definition first_block : bytes := le_split 8 ReservedHeaderBytes.

Lemma first_block_at pre rest : Uint64At (len_bytes pre) (pre ++ first_block ++ rest) = ReservedHeaderBytes.
Proof. by apply Uint64At_app. Qed.

Lemma lastGood_footer fuel pre rest : len_bytes (pre ++ first_block ++ rest) ≤ maxInt → ReservedHeaderBytes ≤ len_bytes rest →
  len_bytes pre + 8 + ReservedHeaderBytes ≤ lastGood_loop (S fuel) (pre ++ first_block ++ rest) (len_bytes pre).
Proof.
  intros Hs Hr. cbn [lastGood_loop]. rewrite first_block_at. rewrite !len_app in *. change (len_bytes first_block) with 8 in *.
  pose proof (len_pos pre). unfold ReservedHeaderBytes, maxInt in *. rewrite (proj2 (Z.leb_gt _ _)), (proj2 (Z.ltb_ge _ 8)) by lia.
  rewrite uint64_small by lia. rewrite (int64_small 256), int64_small by lia. rewrite (proj2 (Z.ltb_ge _ _)), (proj2 (Z.ltb_ge _ _)) by lia. apply lastGood_ge.
Qed.

Lemma walk_footer fuel pre rest res : len_bytes (pre ++ first_block ++ rest) ≤ maxInt → ReservedHeaderBytes ≤ len_bytes rest →
  DecodeAll (ReadAt ReservedHeaderBytes 0 rest) = None → walk_loop (S fuel) (pre ++ first_block ++ rest) (len_bytes pre) res = Err ErrDecompress.
Proof.
  intros Hs Hr Hd. cbn [walk_loop]. unfold readFrameAt. rewrite first_block_at. rewrite !len_app in *. change (len_bytes first_block) with 8 in *.
  pose proof (len_pos pre). unfold ReservedHeaderBytes, maxInt in *. rewrite (proj2 (Z.leb_gt _ _)), (proj2 (Z.ltb_ge _ 8)) by lia.
  rewrite uint64_small by lia. rewrite (proj2 (Z.ltb_ge _ _)) by lia. rewrite Ok_bind. cbv beta iota.
  replace (ReadAt 256 (len_bytes pre + 8) (pre ++ first_block ++ rest)) with (ReadAt 256 0 rest); [unfold decodeBlockCompressedSized; by rewrite Hd|].
  unfold ReadAt. rewrite drop_0, app_assoc. replace (len_bytes pre + 8) with (len_bytes (pre ++ first_block)) by (by rewrite len_app).
  unfold len_bytes. by rewrite Nat2Z.id, drop_app_length.
Qed.

(** The blocks, the first word of a footer, and enough bytes after it, which do not
    decompress. *)
Definition stuck (bs : list (list Event)) (d : bytes) : Prop :=
  ∃ rest, d = (header_bytes ++ frames bs) ++ first_block ++ rest ∧ ReservedHeaderBytes ≤ len_bytes rest ∧
    DecodeAll (ReadAt ReservedHeaderBytes 0 rest) = None ∧ len_bytes d ≤ maxInt.

Lemma stuck_take bs d (k : nat) : stuck bs d → len_bytes (header_bytes ++ frames bs) + 8 + ReservedHeaderBytes ≤ Z.of_nat k → stuck bs (take k d).
Proof.
  intros (rest & -> & Hr & Hd & Hs) Hk. set (pre := header_bytes ++ frames bs) in *. unfold ReservedHeaderBytes, len_bytes in *.
  exists (take (k - length pre - 8) rest).
  assert (Ht : take k (pre ++ first_block ++ rest) = pre ++ first_block ++ take (k - length pre - 8) rest).
  { rewrite take_app, take_ge by lia. f_equal. rewrite take_app, take_ge; [done|]. change (length first_block) with 8%nat. lia. }
  split_and!; [done|unfold ReservedHeaderBytes, len_bytes; rewrite length_take; lia| |].
  - rewrite <-Hd. f_equal. unfold ReadAt. rewrite !drop_0. rewrite take_take. f_equal. unfold ReservedHeaderBytes. lia.
  - unfold len_bytes. rewrite length_take. lia.
Qed.

Lemma stuck_offset bs d : stuck bs d → Forall block_ok bs → len_bytes (header_bytes ++ frames bs) + 8 + ReservedHeaderBytes ≤ lastGoodOffset d.
Proof.
  intros (rest & -> & Hr & Hd & Hs) Hb. unfold lastGoodOffset. rewrite <-app_assoc in *. change ReservedHeaderBytes with (len_bytes header_bytes) at 2.
  pose proof (frames_count bs). set (n := length (header_bytes ++ frames bs ++ first_block ++ rest)).
  assert (Hn : (length bs < n)%nat) by (unfold n; rewrite !length_app; change (length header_bytes) with 256%nat; lia).
  replace n with (length bs + S (n - length bs - 1))%nat by lia. rewrite lastGood_skip by done. rewrite app_assoc in *. by apply lastGood_footer.
Qed.

Lemma stuck_walk bs d : stuck bs d → Forall block_ok bs → few bs → walkActiveFrames d = Err ErrDecompress.
Proof.
  intros (rest & -> & Hr & Hd & Hs) Hb Hf. unfold walkActiveFrames. rewrite <-app_assoc in *. change ReservedHeaderBytes with (len_bytes header_bytes).
  pose proof (frames_count bs). set (n := length (header_bytes ++ frames bs ++ first_block ++ rest)).
  assert (Hn : (length bs < n)%nat) by (unfold n; rewrite !length_app; change (length header_bytes) with 256%nat; lia).
  replace n with (length bs + S (n - length bs - 1))%nat by lia. rewrite (walk_skip bs header_bytes (first_block ++ rest)) by done.
  destruct (walk_blocks_ok bs no_walk (len_bytes header_bytes)) as (res & -> & _); [exact Hf|]. rewrite Ok_bind.
  rewrite app_assoc in *. by rewrite walk_footer.
Qed.

Lemma resume_stuck bs d n c : stuck bs d → Forall block_ok bs →
  match resumeExistingSegment (new_writer (mkFile d n) c) with
  | (w, Ok _) => ∃ d' n' c', w = new_writer (mkFile d' n') c' ∧ stuck bs d'
  | (w, Err _) => sync_fails c ≠ None ∧ stuck bs (f_data (sw_file w))
  end.
Proof.
  intros Hst Hb. pose proof (stuck_offset _ _ Hst Hb) as Hoff. pose proof (stuck_take bs d (Z.to_nat (lastGoodOffset d)) Hst) as Htake.
  rewrite Z2Nat.id in Htake by (pose proof (len_pos (header_bytes ++ frames bs)); unfold ReservedHeaderBytes in Hoff; lia). specialize (Htake Hoff).
  destruct Hst as (rest & Hd & Hr & Hdec & Hs) eqn:Est. unfold resumeExistingSegment, mbind, StateM_bind, get, throw, modify, new_writer. cbn [sw_file f_data].
  assert (Hn : ReservedHeaderBytes ≤ len_bytes d) by (rewrite Hd, !len_app, header_length; pose proof (len_pos (frames bs)); pose proof (len_pos (first_block ++ rest)); rewrite len_app in *; lia).
  rewrite (proj2 (Z.ltb_ge _ ReservedHeaderBytes)) by lia. rewrite bool_decide_true by (rewrite Hd; done).
  replace (Uint64At 4 d) with 0 by (by rewrite Hd). cbn [negb Z.eqb].
  destruct (lastGoodOffset d <? len_bytes d).
  - unfold Sync, mbind, StateM_bind, get, modify, throw. cbn [sw_calls set_file sw_file f_synced seg_tick].
    destruct (sync_fails c) eqn:Es; simpl; [done|by do 3 eexists].
  - exists d, n, c. split; [done|]. by exists rest.
Qed.

Lemma New_stuck bs d n c : stuck bs d → Forall block_ok bs → few bs →
  match New (mkFile d n) c with
  | (w, Ok _) => False
  | (w, Err e) => (sync_fails c = None → e = ErrDecompress) ∧ stuck bs (f_data (sw_file w))
  end.
Proof.
  intros Hst Hb Hf. pose proof (resume_stuck bs d n c Hst Hb) as Hr.
  assert (Hlen : ∀ d', stuck bs d' → ReservedHeaderBytes < len_bytes d').
  { intros d' (rest & -> & Hr' & _). rewrite !len_app, header_length. change (len_bytes first_block) with 8. pose proof (len_pos (frames bs)). unfold ReservedHeaderBytes in *. lia. }
  unfold New, New_body. unfold mbind, StateM_bind, get, modify. cbn [sw_file f_data new_writer]. fold (new_writer (mkFile d n) c).
  rewrite (proj2 (Z.eqb_neq (len_bytes d) 0)) by (pose proof (Hlen d Hst); unfold ReservedHeaderBytes in *; lia).
  destruct (resumeExistingSegment _) as [w [[]|e]]; [|destruct Hr as [Hr1 Hr2]; by split].
  destruct Hr as (d' & n' & c' & -> & Hst'). cbn [sw_file f_data new_writer].
  rewrite (proj2 (Z.ltb_lt _ _)) by (by apply Hlen). rewrite (stuck_walk bs d') by done. by split.
Qed.

(** C35 (error): a footer that is durable when its header is not stays in the way.
    [sealAfterFlush] writes the footer, whose first word is the offset of the first
    block, behind the frames of the blocks, and the header only then.  If the process
    dies in between, or inside the write of the footer after 264 bytes of it,
    [lastGoodOffset] takes the first word for the length of a frame, since 256 bytes
    follow it, and goes past the footer's beginning; unless these bytes happen to
    decompress, [New] fails, now and each time it is called. *)
Theorem orphaned_footer bs walk footer k c :
  bs ≠ [] → Forall block_ok bs → few bs → walkActiveFrames (header_bytes ++ frames bs) = Ok walk →
  let footer := encodeBlockIndex (wr_infos walk) ++ footer in
  let content := header_bytes ++ frames bs ++ footer in
  len_bytes content ≤ maxInt → len_bytes (header_bytes ++ frames bs) + 8 + ReservedHeaderBytes ≤ Z.of_nat k ≤ len_bytes content →
  DecodeAll (ReadAt ReservedHeaderBytes 8 footer) = None →
  len_bytes (header_bytes ++ frames bs) + 8 + ReservedHeaderBytes ≤ lastGoodOffset (take k content) ∧
  match New (mkFile (take k content) k) c with
  | (w, Ok _) => False
  | (w, Err e) => (sync_fails c = None → e = ErrDecompress) ∧ ∀ c', ∃ w' e', New (sw_file w) c' = (w', Err e')
  end.
Proof.
  intros Hne Hb Hf Hi foot content Hs [Hk Hk'] Hd. assert (Hs' : len_bytes (header_bytes ++ frames bs) ≤ maxInt).
  { unfold content in Hs. rewrite app_assoc, len_app in Hs. pose proof (len_pos foot). lia. }
  assert (Hrest : ∃ rest, foot = first_block ++ rest).
  { destruct (walk_few bs Hf Hb Hs') as (res & Hw & Hinfos). rewrite Hi in Hw. injection Hw as <-. unfold foot. rewrite Hinfos.
    destruct bs as [|b bs']; [done|]. assert (Ho : bi_Offset (info_at ReservedHeaderBytes b) = ReservedHeaderBytes).
    { unfold info_at, block_info. by repeat case_match. }
    eexists. unfold encodeBlockIndex. cbn [infos_at flat_map]. rewrite Ho, <-!app_assoc. reflexivity. }
  destruct Hrest as [rest Hrest]. assert (Hst : stuck bs (take k content)).
  { apply stuck_take; [|done]. exists rest. unfold content in *. rewrite Hrest, <-!app_assoc in *. split_and!; [done| |exact Hd|done].
    rewrite !len_app in *. change (len_bytes first_block) with 8 in *. lia. }
  split; [by apply stuck_offset|]. pose proof (New_stuck bs _ k c Hst Hb Hf) as Hn. destruct (New _ c) as [w [a|e]]; [done|].
  destruct Hn as [He Hw]. split; [done|]. intros c'. destruct (sw_file w) as [d n]. pose proof (New_stuck bs d n c' Hw Hb Hf) as Hn'.
  destruct (New _ c') as [w' [a|e']]; [done|by do 2 eexists].
Qed.
(** ** A block that is too large *)

Lemma oversized_decode evs : maxDecodedBlockBytes < len_bytes (encodeBlockColumns (eventColumns evs)) →
  DecodeAll (EncodeAll (encodeBlockColumns (eventColumns evs))) = None.
Proof. intros Hl. by rewrite DecodeAll_EncodeAll, (proj2 (Z.leb_gt _ _)) by done. Qed.

Section oversized.
Variables (blocks : list (list Event)) (evs : list Event).
Hypotheses (Hb : Forall block_ok blocks) (Hbig : maxDecodedBlockBytes < len_bytes (encodeBlockColumns (eventColumns evs)))
  (Hs : len_bytes (header_bytes ++ frames (blocks ++ [evs])) ≤ maxInt).

Lemma oversized_split : header_bytes ++ frames (blocks ++ [evs]) = header_bytes ++ frames blocks ++ frame_of evs.
Proof. by rewrite frames_snoc, <-app_assoc. Qed.

(** The loops have rounds left for the frame. *)
Lemma oversized_fuel : ∃ k, length (header_bytes ++ frames (blocks ++ [evs])) = (length blocks + S k)%nat.
Proof.
  pose proof (frames_count (blocks ++ [evs])) as Hc. rewrite length_app in Hc |- *. change (length header_bytes) with 256%nat. simpl in Hc.
  exists (256 + length (frames (blocks ++ [evs])) - length blocks - 1)%nat. lia.
Qed.

(** What the readers meet at the frame. *)
Lemma oversized_at : let pre := header_bytes ++ frames blocks in let content := header_bytes ++ frames blocks ++ frame_of evs in
  let fr := EncodeAll (encodeBlockColumns (eventColumns evs)) in
  Uint64At (len_bytes pre) content = len_bytes fr ∧ ReadAt (len_bytes fr) (len_bytes pre + 8) content = fr ∧
  len_bytes content = len_bytes pre + 8 + len_bytes fr ∧ len_bytes content ≤ maxInt.
Proof.
  intros pre content fr. rewrite oversized_split in Hs. unfold content. rewrite app_assoc. fold pre.
  assert (Hs' : len_bytes (pre ++ frame_of evs ++ []) ≤ maxInt) by (rewrite app_nil_r; unfold pre; by rewrite <-app_assoc).
  destruct (frame_at pre evs [] Hs') as [H1' H2']. rewrite app_nil_r in H1', H2', Hs'. split_and!; [done|done| |done].
  rewrite len_app, frame_len. fold fr. lia.
Qed.

Lemma scan_oversized : ScanActive (header_bytes ++ frames (blocks ++ [evs])) = Err ErrDecompress.
Proof.
  destruct oversized_fuel as [k Hk]. destruct oversized_at as (H1' & H2' & H3' & H4'). unfold ScanActive. rewrite activeScanSize_header, Ok_bind, Hk by done.
  rewrite oversized_split in *. change ReservedHeaderBytes with (len_bytes header_bytes). rewrite scan_skip by done. cbn [scanActive_loop]. unfold scanActiveBlock. rewrite H1', H2', H3'.
  set (fr := EncodeAll _) in *. pose proof (len_pos fr). pose proof (len_pos (header_bytes ++ frames blocks)). unfold maxInt in *.
  rewrite (proj2 (Z.leb_gt _ _)), (proj2 (Z.ltb_ge _ 8)) by lia. rewrite uint64_small by lia. rewrite (proj2 (Z.ltb_ge _ _)), (proj2 (Z.ltb_ge _ _)) by lia. cbn [orb].
  unfold decodeBlockCompressed. by rewrite (oversized_decode evs Hbig : DecodeAll fr = None).
Qed.

Lemma walk_oversized : few blocks → walkActiveFrames (header_bytes ++ frames (blocks ++ [evs])) = Err ErrDecompress.
Proof.
  intros Hf. destruct oversized_fuel as [k Hk]. destruct oversized_at as (H1' & H2' & H3' & H4'). unfold walkActiveFrames. rewrite Hk.
  rewrite oversized_split in *. change ReservedHeaderBytes with (len_bytes header_bytes). rewrite walk_skip by done.
  destruct (walk_blocks_ok blocks no_walk (len_bytes header_bytes)) as (res & -> & _); [exact Hf|]. rewrite Ok_bind. cbn [walk_loop]. unfold readFrameAt. rewrite H1', H2', H3'.
  set (fr := EncodeAll _) in *. pose proof (len_pos fr). pose proof (len_pos (header_bytes ++ frames blocks)). unfold maxInt in *.
  rewrite (proj2 (Z.leb_gt _ _)), (proj2 (Z.ltb_ge _ 8)) by lia. rewrite uint64_small by lia. rewrite (proj2 (Z.ltb_ge _ _)) by lia.
  rewrite Ok_bind. cbv beta iota. unfold decodeBlockCompressedSized. by rewrite (oversized_decode evs Hbig : DecodeAll fr = None).
Qed.

Lemma New_oversized c : few blocks →
  match New (whole_file (blocks ++ [evs])) c with
  | (w, Ok _) => False
  | (w, Err e) => sync_fails c = None → e = ErrDecompress
  end.
Proof.
  intros Hf. assert (Hs0 : len_bytes (header_bytes ++ frames (blocks ++ [evs]) ++ []) ≤ maxInt) by (by rewrite app_nil_r).
  pose proof (resume_result (blocks ++ [evs]) [] c torn_empty Hs0) as Hr. cbv zeta in Hr. rewrite app_nil_r in Hr. fold (whole_file (blocks ++ [evs])) in Hr.
  assert (Hlen : ReservedHeaderBytes < len_bytes (header_bytes ++ frames (blocks ++ [evs]))).
  { rewrite frames_snoc, len_app, frame_len, len_app, header_length. pose proof (len_pos (frames blocks)). pose proof (len_pos (EncodeAll (encodeBlockColumns (eventColumns evs)))). lia. }
  unfold New, New_body. unfold mbind, StateM_bind, get, modify. cbn [sw_file f_data new_writer whole_file]. fold (whole_file (blocks ++ [evs])). fold (new_writer (whole_file (blocks ++ [evs])) c).
  rewrite (proj2 (Z.eqb_neq _ 0)) by (unfold ReservedHeaderBytes in *; lia). destruct (resumeExistingSegment _) as [w [[]|e]]; [|by destruct Hr as [Hr _]].
  destruct Hr as [c' ->]. cbn [sw_file f_data new_writer whole_file]. rewrite (proj2 (Z.ltb_lt _ _)) by done. by rewrite walk_oversized.
Qed.
End oversized.

(** C33 (error): a block can be written that can never be read.  Nothing bounds what
    [Append] puts into a block but the number of events and the width of the columns,
    and the decoder refuses more than [maxDecodedBlockBytes].  When the buffer holds
    more than that, a [Flush] that succeeds leaves a file that no scan gets through and
    that [New] refuses from then on; only an I/O error could have prevented the
    [Flush]. *)
Theorem oversized_block w blocks pend :
  open_ok w blocks [] [] pend → Forall block_ok blocks → few blocks → len_bytes (header_bytes ++ frames blocks) ≤ maxInt →
  maxDecodedBlockBytes < len_bytes (encodeBlockColumns (eventColumns pend)) →
  match Writer_Flush w with
  | (w', Ok _) => ScanActive (f_data (sw_file w')) = Err ErrDecompress ∧
      ∀ c, match New (sw_file w') c with (_, Ok _) => False | (_, Err e) => sync_fails c = None → e = ErrDecompress end
  | (w', Err e) => ∃ op, e = ErrIO op
  end.
Proof.
  intros Ho Hb Hf Hs Hbig. pose proof (pending_count _ _ _ _ _ Ho) as Hc. destruct Ho as [Ec Ek Ef Eo Ep Ei].
  unfold Writer_Flush, flushLocked, get, mbind at 1, StateM_bind at 1. rewrite Ec, Ek. unfold mbind, StateM_bind. rewrite Ek, Hc.
  assert (pend = [] ∨ pend ≠ []) as [->|Hne] by (destruct pend; auto); [done|].
  rewrite (proj2 (Z.eqb_neq _ 0)) by (destruct pend; [done|simpl; lia]). rewrite Ep. cbv zeta.
  pose proof (write_block_spec w blocks pend (pending_info w (len_bytes (encodeBlockInto [] (eventColumns pend)))) (set_pending no_pending) Ef Eo Hb Hs ltac:(done)) as Hw.
  unfold mbind, StateM_bind in Hw. destruct (write_block _ _ _ w) as [w' [[]|e]]; [|by destruct Hw as (_ & ? & _)].
  destruct Hw as (Hm & i & n & f & w1 & _ & -> & _). change (sw_file (set_file ?f _)) with f. split; [by apply scan_oversized|].
  intros c. by apply New_oversized.
Qed.
End writer.

(** ** A concrete file *)

(** A compressor that only puts the magic number of zstd in front. *)
Definition zstd_magic : bytes := [x28; xb5; x2f; xfd]%byte.
#[local] Instance demo_zstd : Zstd := {|
  EncodeAll b := if len_bytes b <=? maxDecodedBlockBytes then zstd_magic ++ b else [];
  DecodeAll b := if bool_decide (take 4 b = zstd_magic) then Some (drop 4 b) else None;
|}.
#[local] Instance demo_laws : ZstdLaws.
Proof. constructor. intros b. cbn [EncodeAll DecodeAll demo_zstd]. destruct (len_bytes b <=? maxDecodedBlockBytes); [by rewrite bool_decide_true|done]. Qed.

(** The ninth call writes no more than 20 bytes. *)
#[local] Instance demo_io : SegIO := {| write_fails n := if decide (n = 9)%nat then Some ("disk full", 20%nat) else None; sync_fails _ := None |}.

Definition demo_event (n : Z) : Event := mkEvent n (1000 + n) (2000 + n) 7 KindCreate "did:plc:a" "org.hypercerts.claim" "r1" "3k" [x01; x02]%byte.
Definition demo_ops : list seg_op :=
  [SegAppend (demo_event 1); SegAppend (demo_event 2); SegFlush; SegAppend (demo_event 3); SegPrepare; SegAppend (demo_event 4);
   SegPrepare; SegCommit; SegCommit; SegAppend (demo_event 5); SegFlush; SegCrash 4000; SegAppend (demo_event 6)].

Lemma segment_durable_witness : ∃ w0 : SegWriter,
  New (mkFile [] 0) 0 = (w0, Ok tt) ∧
  let s := foldl (seg_step 4) (mkLife w0 [] [] 0) demo_ops in
  map ev_Seq (sl_accepted s) = [1; 2; 3; 4; 6] ∧ sl_flushed s = 4%nat ∧
  ∃ m blocks, ScanActive (f_data (crash 0 (sw_file (sl_writer s)))) = Ok blocks ∧ concat blocks = map persisted (take m (sl_accepted s)) ∧
    (sl_flushed s ≤ m ≤ length (sl_accepted s))%nat.
Proof.
  pose (r := New (mkFile [] 0) 0). assert (Hr : r = (r.1, Ok tt)) by (vm_compute; reflexivity). exists r.1. split; [exact Hr|].
  pose proof (segment_durable 4 demo_ops r.1 0 ltac:(done)
    ltac:(repeat (apply Forall_cons; split; [first [exact I|split; [by split_and!|done]]|]); apply Forall_nil; exact I) ltac:(done) Hr) as (m & blocks & H3 & H4 & H5 & _).
  split; [vm_compute; reflexivity|]. split; [vm_compute; reflexivity|]. exists m, blocks. split; [exact H3|]. split; [exact H4|exact H5].
Defined.

Definition demo_blocks : list (list Event) := [[demo_event 1; demo_event 2]; [demo_event 3]].
Definition demo_walk : blockWalkResult := match walkActiveFrames (header_bytes ++ frames demo_blocks) with Ok walk => walk | Err _ => no_walk end.

Lemma orphaned_footer_witness : ∃ w' e',
  let content := header_bytes ++ frames demo_blocks ++ encodeBlockIndex (wr_infos demo_walk) ++ repeat x00 200 in
  New (mkFile content (length content)) 0 = (w', Err e').
Proof.
  pose (content := header_bytes ++ frames demo_blocks ++ encodeBlockIndex (wr_infos demo_walk) ++ repeat x00 200).
  pose proof (orphaned_footer demo_blocks demo_walk (repeat x00 200) (length content) 0 ltac:(done) ltac:(repeat constructor; done) ltac:(done)
    ltac:(vm_compute; reflexivity) ltac:(vm_compute; discriminate) ltac:(vm_compute; split; discriminate) ltac:(vm_compute; reflexivity)) as [_ Ht].
  fold content in Ht. rewrite firstn_all in Ht. destruct (New _ _) as [w' [a|e']] eqn:E; [destruct Ht|]. exists w', e'. exact E.
Defined.

(** A buffer with one event of 1 GiB. *)
Definition huge_event (payload : bytes) : Event := mkEvent 1 1001 2001 7 KindCreate "did:plc:a" "org.hypercerts.claim" "r1" "3k" payload.
Definition huge_writer (payload : bytes) : SegWriter :=
  mkSegWriter (whole_file []) (append_pending no_pending (huge_event payload)) false None [] ReservedHeaderBytes 3 (mkIds 0 0 0).

Lemma oversized_block_witness : ∃ payload : bytes, segment_ValidateEvent (huge_event payload) = Ok tt ∧
  match Writer_Flush (huge_writer payload) with
  | (w', Ok _) => ∀ c, ∃ w'', New (sw_file w') c = (w'', Err ErrDecompress)
  | (w', Err e) => ∃ op, e = ErrIO op
  end.
Proof.
  assert (Hp : ∃ payload : bytes, len_bytes payload = maxDecodedBlockBytes).
  { exists (repeat x00 (Z.to_nat maxDecodedBlockBytes)). unfold len_bytes. rewrite repeat_length. apply Z2Nat.id. done. }
  destruct Hp as [payload Hp]. exists payload. split; [unfold segment_ValidateEvent; cbn [ev_Payload huge_event]; rewrite Hp; reflexivity|].
  pose proof (oversized_block (huge_writer payload) [] [huge_event payload]) as Ht.
  assert (Ho : open_ok (huge_writer payload) [] [] [] [huge_event payload]).
  { split; [reflexivity|reflexivity|reflexivity|reflexivity| |exists 0; split; [exact I|reflexivity]]. cbn [sw_pending huge_writer pb_columns append_pending no_pending]. change no_columns with (eventColumns []). by rewrite append_columns_one. }
  specialize (Ht Ho ltac:(constructor) ltac:(done) ltac:(done)).
  assert (Hsize : maxDecodedBlockBytes < len_bytes (encodeBlockColumns (eventColumns [huge_event payload]))).
  { rewrite block_size. cbn [map foldr]. unfold event_size. cbn [ev_Payload huge_event]. rewrite Hp. done. }
  specialize (Ht Hsize). destruct (Writer_Flush (huge_writer payload)) as [w' [a|e]]; [|exact Ht]. destruct Ht as [_ Ht]. intros c.
  specialize (Ht c). destruct (New (sw_file w') c) as [w'' [b|e]]; [destruct Ht|]. exists w''. by rewrite (Ht eq_refl).
Defined.
