(* ===== verification/SegSeal.v ===== *)
(** * Sealed segment files: [src/jetstream/segment]

    [Seal] ([seal.go]) turns an active file into one that is only read: behind the
    frames come the block index ([footer.go]), Bloom filters over the DIDs of the file
    and of each block ([bloom.go]) and the collections of each block
    ([collection.go]); a header with their offsets and a checksum ([header.go])
    replaces the zeros at the beginning.  [Open] ([reader.go]) checks and loads all of
    that but the filters of the blocks, and serves blocks by their number.

    The filters (gloom), the checksum (xxh3) and the order in which Go visits a map are
    the class [SealLibs]; reads fail only beyond the end of the file. *)

From Stdlib Require Import Strings.Byte.
From coqutil Require Import Byte Word.LittleEndianList.
From S2P Require Import Prelude GoStrings StateMonad Segment.
Local Open Scope Z_scope.

(** gloom at the false positive rate of one in a thousand, xxh3, and the keys of a map
    in the order of a [range] loop. *)
Class SealLibs := {
  Filter : Type;
  gloom_New : Z → Filter; AddString : Filter → string → Filter; TestString : Filter → string → bool;
  MarshalBinary : Filter → result seg_err bytes; UnmarshalBinary : bytes → option Filter;
  xxh3 : bytes → Z;
  map_order : gset string → list string;
}.

(** ** The header *)

Record Header := mkHeader {
  h_Version : Z; h_BlockCount : Z; h_EventCount : Z; h_UniqueDIDCount : Z; h_MinSeq : Z; h_MaxSeq : Z;
  h_MinWitnessedAt : Z; h_MaxWitnessedAt : Z; h_FooterOffset : Z; h_DIDBloomOffset : Z; h_BlockDIDBloomOffset : Z;
  h_CollectionIndexOffset : Z; h_BlockIndexOffset : Z; h_Checksum : Z;
}.

Definition currentHeaderVersion : Z := 1.

Definition encodeHeader (h : Header) : bytes :=
  segmentMagic ++ le_split 8 (h_Checksum h) ++ le_split 2 (h_Version h) ++ le_split 4 (h_BlockCount h) ++ le_split 4 (h_EventCount h)
  ++ le_split 4 (h_UniqueDIDCount h) ++ le_split 8 (h_MinSeq h) ++ le_split 8 (h_MaxSeq h) ++ le_split 8 (uint64 (h_MinWitnessedAt h))
  ++ le_split 8 (uint64 (h_MaxWitnessedAt h)) ++ le_split 8 (h_FooterOffset h) ++ le_split 8 (h_DIDBloomOffset h)
  ++ le_split 8 (h_BlockDIDBloomOffset h) ++ le_split 8 (h_CollectionIndexOffset h) ++ le_split 8 (h_BlockIndexOffset h) ++ repeat x00 158.

(** [le.Uint32(buf[a:b])] and the like *)
Definition le_at (off n : nat) (buf : bytes) : Z := le_combine (take n (drop off buf)).

Definition decodeHeader (buf : bytes) : result seg_err Header :=
  if negb (len_bytes buf =? ReservedHeaderBytes) then Err ErrInvalidFooter
  else if negb (bool_decide (take 4 buf = segmentMagic)) then Err ErrCorruptSegment
  else if le_at 4 8 buf =? 0 then Err ErrActiveSegment
  else if negb (le_at 12 2 buf =? currentHeaderVersion) then Err ErrInvalidFooter
  else Ok (mkHeader (le_at 12 2 buf) (le_at 14 4 buf) (le_at 18 4 buf) (le_at 22 4 buf) (le_at 26 8 buf) (le_at 34 8 buf)
    (int64 (le_at 42 8 buf)) (int64 (le_at 50 8 buf)) (le_at 58 8 buf) (le_at 66 8 buf) (le_at 74 8 buf) (le_at 82 8 buf) (le_at 90 8 buf)
    (le_at 4 8 buf)).

(** ** The block index *)

Definition blockIndexEntrySize : Z := 52.

Definition decodeBlockIndexEntry (buf : bytes) : BlockInfo :=
  mkInfo (le_at 0 8 buf) (le_at 8 4 buf) (le_at 12 4 buf) (le_at 16 4 buf) (le_at 20 8 buf) (le_at 28 8 buf)
    (int64 (le_at 36 8 buf)) (int64 (le_at 44 8 buf)).

Fixpoint decode_entries (n : nat) (buf : bytes) : list BlockInfo :=
  match n with O => [] | S n => decodeBlockIndexEntry (take 52 buf) :: decode_entries n (drop 52 buf) end.

Definition decodeBlockIndex (buf : bytes) (count : Z) : result seg_err (list BlockInfo) :=
  if negb (len_bytes buf =? count * blockIndexEntrySize) then Err ErrInvalidBlockIndex
  else Ok (decode_entries (Z.to_nat count) buf).

(** ** The filters of the blocks *)

Definition blockBloomsRegionHeaderSize : Z := 8.

Section filters.
Context `{SealLibs}.

(** The marshaled filters after the first, which have its size. *)
Fixpoint marshal_all (sizeBytes : Z) (filters : list Filter) : result seg_err bytes :=
  match filters with
  | [] => Ok []
  | f :: filters =>
      marshaled ← MarshalBinary f;
      if negb (uint32 (len_bytes marshaled) =? sizeBytes) then Err (ErrIO "per-block bloom size mismatch")
      else rest ← marshal_all sizeBytes filters; Ok (marshaled ++ rest)
  end.

Definition encodeBlockBloomsRegion (filters : list Filter) : result seg_err (bytes * Z) :=
  match filters with
  | [] => Ok (repeat x00 8, 0)
  | f :: filters' =>
      first ← MarshalBinary f;
      let sizeBytes := uint32 (len_bytes first) in
      rest ← marshal_all sizeBytes filters';
      Ok (le_split 4 (uint32 (Z.of_nat (length filters))) ++ le_split 4 sizeBytes ++ first ++ rest, sizeBytes)
  end.
End filters.

Definition decodeBlockBloomsRegionHeader (buf : bytes) : result seg_err (Z * Z) :=
  if len_bytes buf <? blockBloomsRegionHeaderSize then Err ErrInvalidFooter else Ok (le_at 0 4 buf, le_at 4 4 buf).

(** ** The collection index *)

Record collectionIndex := mkIndex { stringTable : list string; eventCounts : list Z; blockBitmasks : list (list Z) }.

Definition collectionIndexHeaderSize : Z := 16.
Definition maxBlockCountLimit : Z := 2 ^ 20.
Definition maxCollectionCountLimit : Z := 2 ^ 20.

(** One row of the table: length, number of events, name. *)
Fixpoint encode_table (table : list string) (counts : list Z) : result seg_err bytes :=
  match table, counts with
  | nsid :: table, count :: counts =>
      if 2 ^ 8 - 1 <? len nsid then Err ErrFieldTooLong
      else rest ← encode_table table counts; Ok (le_split 1 (uint8 (len nsid)) ++ le_split 4 count ++ str_bytes nsid ++ rest)
  | _, _ => Ok []
  end.

(** A byte for eight numbers. *)
Fixpoint set_bits (collectionCount : Z) (ids : list Z) (mask : list Z) : result seg_err (list Z) :=
  match ids with
  | [] => Ok mask
  | id :: ids =>
      if collectionCount <=? id then Err ErrInvalidFooter
      else set_bits collectionCount ids (alter (λ b, Z.lor b (Z.shiftl 1 (id mod 8))) (Z.to_nat (id / 8)) mask)
  end.

Fixpoint encode_masks (collectionCount bitmaskLen : Z) (masks : list (list Z)) : result seg_err bytes :=
  match masks with
  | [] => Ok []
  | ids :: masks =>
      mask ← set_bits collectionCount ids (repeat 0 (Z.to_nat bitmaskLen));
      rest ← encode_masks collectionCount bitmaskLen masks;
      Ok (column 1 mask ++ rest)
  end.

Definition encodeCollectionIndex `{Zstd} (idx : collectionIndex) : result seg_err bytes :=
  let collectionCount := Z.of_nat (length (stringTable idx)) in
  let blockCount := Z.of_nat (length (blockBitmasks idx)) in
  if (2 ^ 32 - 1 <? collectionCount) || (2 ^ 32 - 1 <? blockCount) then Err ErrInvalidFooter
  else
    let bitmaskLen := (collectionCount + 7) / 8 in
    if negb (length (eventCounts idx) =? length (stringTable idx))%nat then Err ErrInvalidFooter
    else
      table ← encode_table (stringTable idx) (eventCounts idx);
      masks ← encode_masks collectionCount bitmaskLen (blockBitmasks idx);
      let body := table ++ masks in
      Ok (le_split 4 (uint32 collectionCount) ++ le_split 4 (uint32 blockCount) ++ le_split 4 (uint32 bitmaskLen)
          ++ le_split 4 (uint32 (len_bytes body)) ++ EncodeAll body).

(** The next [n] bytes, or a truncated footer. *)
Definition next (n : Z) (buf : bytes) : result seg_err (bytes * bytes) :=
  if len_bytes buf <? n then Err ErrInvalidFooter else Ok (take (Z.to_nat n) buf, drop (Z.to_nat n) buf).

Fixpoint decode_table (n : nat) (body : bytes) : result seg_err (list string * list Z * bytes) :=
  match n with
  | O => Ok ([], [], body)
  | S n =>
      '(l, body) ← next 1 body;
      '(count, body) ← next 4 body;
      '(nsid, body) ← next (le_combine l) body;
      '(table, counts, body) ← decode_table n body;
      Ok (bytes_str nsid :: table, le_combine count :: counts, body)
  end.

(** The numbers whose bits are set. *)
Definition byte_ids (i b : Z) : list Z := List.filter (λ id, Z.testbit b (id mod 8)) (map (λ bit, i * 8 + bit) [0; 1; 2; 3; 4; 5; 6; 7]).
Fixpoint mask_ids (i : Z) (mask : list Z) : list Z :=
  match mask with [] => [] | b :: mask => byte_ids i b ++ mask_ids (i + 1) mask end.

Fixpoint decode_masks (collectionCount bitmaskLen : Z) (n : nat) (body : bytes) : result seg_err (list (list Z) * bytes) :=
  match n with
  | O => Ok ([], body)
  | S n =>
      '(mask, body) ← next bitmaskLen body;
      let ids := mask_ids 0 (uints 1 (length mask) mask) in
      if existsb (λ id, collectionCount <=? id) ids then Err ErrInvalidFooter
      else '(masks, body) ← decode_masks collectionCount bitmaskLen n body; Ok (ids :: masks, body)
  end.

Definition decodeCollectionIndex `{Zstd} (buf : bytes) : result seg_err collectionIndex :=
  if len_bytes buf <? collectionIndexHeaderSize then Err ErrInvalidFooter
  else
    let collectionCount := le_at 0 4 buf in
    let blockCount := le_at 4 4 buf in
    let bitmaskLen := le_at 8 4 buf in
    let uncompressedSize := le_at 12 4 buf in
    if maxCollectionCountLimit <? collectionCount then Err ErrInvalidFooter
    else if maxBlockCountLimit <? blockCount then Err ErrInvalidFooter
    else if maxDecodedBlockBytes <? uncompressedSize then Err ErrInvalidFooter
    else if negb (bitmaskLen =? uint32 (collectionCount + 7) / 8) then Err ErrInvalidFooter
    else match DecodeAll (drop 16 buf) with
    | None => Err ErrDecompress
    | Some body =>
        if negb (uint32 (len_bytes body) =? uncompressedSize) then Err ErrInvalidFooter
        else
          '(table, counts, rest) ← decode_table (Z.to_nat collectionCount) body;
          '(masks, rest) ← decode_masks collectionCount bitmaskLen (Z.to_nat blockCount) rest;
          if negb (len_bytes rest =? 0) then Err ErrInvalidFooter else Ok (mkIndex table counts masks)
    end.

(** ** Sealing *)

Record SealResult := mkSeal {
  sr_BlockCount : Z; sr_EventCount : Z; sr_UniqueDIDCount : Z; sr_MinSeq : Z; sr_MaxSeq : Z; sr_MinWitnessedAt : Z; sr_MaxWitnessedAt : Z;
  sr_Checksum : Z; sr_FooterOffset : Z; sr_FileSize : Z;
}.

Definition set_checksum (c : Z) (h : Header) : Header :=
  mkHeader (h_Version h) (h_BlockCount h) (h_EventCount h) (h_UniqueDIDCount h) (h_MinSeq h) (h_MaxSeq h) (h_MinWitnessedAt h) (h_MaxWitnessedAt h)
    (h_FooterOffset h) (h_DIDBloomOffset h) (h_BlockDIDBloomOffset h) (h_CollectionIndexOffset h) (h_BlockIndexOffset h) c.

Section seal.
Context `{Zstd} `{SealLibs}.

Definition xxh3HeaderFooter (headerBytes footerBytes : bytes) : Z := xxh3 (drop 12 headerBytes ++ footerBytes).

Definition fill (f : Filter) (dids : gset string) : Filter := foldl AddString f (map_order dids).

(** The four sections of the footer, and the header but for its checksum. *)
Definition buildFooter (walk : blockWalkResult) (footerOffset : Z) : result seg_err (bytes * Header) :=
  let blockIndexBytes := encodeBlockIndex (wr_infos walk) in
  let uniqueDIDs := Z.of_nat (size (wr_uniqueDIDs walk)) in
  segmentBloomBytes ← MarshalBinary (fill (gloom_New uniqueDIDs) (wr_uniqueDIDs walk));
  let perBlockCapacity := foldl (λ m dids, if m <? Z.of_nat (size dids) then Z.of_nat (size dids) else m) 1 (wr_perBlockDIDs walk) in
  let perBlockFilters := map (fill (gloom_New perBlockCapacity)) (wr_perBlockDIDs walk) in
  '(perBlockBloomsRegion, _) ← encodeBlockBloomsRegion perBlockFilters;
  collectionIndexBytes ← encodeCollectionIndex (mkIndex (wr_collectionStringTable walk) (wr_collectionEventCounts walk) (wr_perBlockCollections walk));
  let blockIndexOffset := uint64 footerOffset in
  let didBloomOffset := uint64 (blockIndexOffset + len_bytes blockIndexBytes) in
  let blockDIDBloomOffset := uint64 (didBloomOffset + len_bytes segmentBloomBytes) in
  let collectionIndexOffset := uint64 (blockDIDBloomOffset + len_bytes perBlockBloomsRegion) in
  let '((minSeq, maxSeq), (minW, maxW)) := wr_bounds walk in
  Ok (blockIndexBytes ++ segmentBloomBytes ++ perBlockBloomsRegion ++ collectionIndexBytes,
      mkHeader currentHeaderVersion (uint32 (Z.of_nat (length (wr_infos walk)))) (wr_totalEventCount walk) (uint32 uniqueDIDs)
        minSeq maxSeq minW maxW (uint64 footerOffset) didBloomOffset blockDIDBloomOffset collectionIndexOffset blockIndexOffset 0).
End seal.

Section sealing.
Context `{Zstd} `{SegIO} `{SealLibs}.
Abbreviation SW := (StateM SegWriter seg_err).

Definition truncateFooterTail (footerOffset : Z) : SW unit :=
  w ← get;
  modify (set_file (mkFile (take (Z.to_nat footerOffset) (f_data (sw_file w))) (f_synced (sw_file w) `min` Z.to_nat footerOffset))) ;;
  Sync.

(** [sealAfterFlush]; closing the file is left out. *)
Definition sealAfterFlush : SW SealResult :=
  w ← get;
  let content := f_data (sw_file w) in
  let footerOffset := len_bytes content in
  walk ← lift (walkActiveFrames content);
  '(footerBytes, header) ← lift (buildFooter walk footerOffset);
  let checksum := xxh3HeaderFooter (encodeHeader header) footerBytes in
  let headerBytes := encodeHeader (set_checksum checksum header) in
  sticky (WriteAt footerBytes footerOffset) ;;
  sticky Sync ;;
  catch (WriteAt headerBytes 0) (λ e,
    attempt (truncateFooterTail footerOffset) (λ _, modify (set_sticky e) ;; throw e)) ;;
  sticky Sync ;;
  w ← get;
  mret (mkSeal (h_BlockCount header) (h_EventCount header) (h_UniqueDIDCount header) (h_MinSeq header) (h_MaxSeq header)
    (h_MinWitnessedAt header) (h_MaxWitnessedAt header) checksum (h_FooterOffset header) (len_bytes (f_data (sw_file w)))).

Definition Seal : SW SealResult :=
  w ← get;
  if sw_closed w then throw ErrClosed
  else match sw_stickyErr w with
  | Some e => throw e
  | None =>
      if 0 <? preparedOutstanding (sw_ids w) then throw (ErrIO "seal with uncommitted prepared blocks")
      else flushLocked ;; r ← sealAfterFlush; modify set_closed ;; mret r
  end.
End sealing.

(** ** Reading *)

(** [f.ReadAt], which fails beyond the end of the file. *)
Definition pread (n off : Z) (content : bytes) : result seg_err bytes :=
  if len_bytes content <? off + n then Err (ErrIO "unexpected EOF") else Ok (ReadAt n off content).

Definition validateHeaderOffsets (h : Header) (fileSize : Z) : result seg_err unit :=
  if h_FooterOffset h <? ReservedHeaderBytes then Err ErrInvalidFooter
  else if fileSize <? h_FooterOffset h then Err ErrInvalidFooter
  else if negb (h_BlockIndexOffset h =? h_FooterOffset h) then Err ErrInvalidFooter
  else if (h_DIDBloomOffset h <? h_BlockIndexOffset h) || (h_BlockDIDBloomOffset h <? h_DIDBloomOffset h)
      || (h_CollectionIndexOffset h <? h_BlockDIDBloomOffset h) || (fileSize <? h_CollectionIndexOffset h) then Err ErrInvalidFooter
  else Ok tt.

(** The loop of [validateBlockOffsets], with [prevMaxSeq] if there is one. *)
Fixpoint validate_loop (blocks : list BlockInfo) (footerOffset prevEnd : Z) (prevMaxSeq : option Z) : result seg_err unit :=
  match blocks with
  | [] => Ok tt
  | b :: blocks =>
      let end_ := uint64 (bi_Offset b + 8 + bi_CompressedSize b) in
      if footerOffset <=? bi_Offset b then Err ErrInvalidBlockIndex
      else if (bi_Offset b <? ReservedHeaderBytes) || (footerOffset <? end_) then Err ErrInvalidBlockIndex
      else if bi_Offset b <? prevEnd then Err ErrInvalidBlockIndex
      else if bi_MaxSeq b <? bi_MinSeq b then Err ErrInvalidBlockIndex
      else if bi_MaxWitnessedAt b <? bi_MinWitnessedAt b then Err ErrInvalidBlockIndex
      else if 0 <? bi_EventCount b then
        match prevMaxSeq with
        | Some p => if bi_MinSeq b <=? p then Err ErrInvalidBlockIndex else validate_loop blocks footerOffset end_ (Some (bi_MaxSeq b))
        | None => validate_loop blocks footerOffset end_ (Some (bi_MaxSeq b))
        end
      else validate_loop blocks footerOffset end_ prevMaxSeq
  end.
Definition validateBlockOffsets (blocks : list BlockInfo) (footerOffset : Z) : result seg_err unit :=
  validate_loop blocks footerOffset ReservedHeaderBytes None.

Section reader.
Context `{Zstd} `{SealLibs}.

Record Reader := mkReader {
  rd_file : bytes; rd_header : Header; rd_blocks : list BlockInfo; rd_segmentBloom : option Filter;
  rd_parsedCollections : collectionIndex; rd_perBlockBloomSize : Z;
}.

Definition Open (SkipChecksum : bool) (content : bytes) : result seg_err Reader :=
  let fileSize := len_bytes content in
  if fileSize <? ReservedHeaderBytes then Err ErrCorruptSegment
  else
    headerBytes ← pread ReservedHeaderBytes 0 content;
    header ← decodeHeader headerBytes;
    _ ← validateHeaderOffsets header fileSize;
    if maxBlockCountLimit <? h_BlockCount header then Err ErrInvalidFooter
    else
      let blockIndexLen := h_BlockCount header * blockIndexEntrySize in
      blockIndexBytes ← (if 0 <? blockIndexLen then pread blockIndexLen (h_BlockIndexOffset header) content else Ok []);
      blocks ← decodeBlockIndex blockIndexBytes (h_BlockCount header);
      _ ← validateBlockOffsets blocks (h_FooterOffset header);
      let segmentBloomLen := h_BlockDIDBloomOffset header - h_DIDBloomOffset header in
      segmentBloom ← (if 0 <? segmentBloomLen then
          segmentBloomBytes ← pread segmentBloomLen (h_DIDBloomOffset header) content;
          match UnmarshalBinary segmentBloomBytes with Some f => Ok (Some f) | None => Err (ErrIO "unmarshal segment bloom") end
        else Ok None);
      bloomRegionHeader ← pread blockBloomsRegionHeaderSize (h_BlockDIDBloomOffset header) content;
      '(regionCount, perBlockSize) ← decodeBlockBloomsRegionHeader bloomRegionHeader;
      if negb (regionCount =? h_BlockCount header) then Err ErrInvalidFooter
      else if negb (uint64 (blockBloomsRegionHeaderSize + regionCount * perBlockSize) =? h_CollectionIndexOffset header - h_BlockDIDBloomOffset header) then Err ErrInvalidFooter
      else
        _ ← (if SkipChecksum then Ok tt
             else
               footerBytes ← pread (fileSize - h_FooterOffset header) (h_FooterOffset header) content;
               let headerForHash := take 4 headerBytes ++ repeat x00 8 ++ drop 12 headerBytes in
               if negb (xxh3HeaderFooter headerForHash footerBytes =? h_Checksum header) then Err ErrChecksumMismatch else Ok tt);
        let collectionLen := fileSize - h_CollectionIndexOffset header in
        if collectionLen <? collectionIndexHeaderSize then Err ErrInvalidFooter
        else
          collectionBytes ← pread collectionLen (h_CollectionIndexOffset header) content;
          colIdx ← decodeCollectionIndex collectionBytes;
          if negb (uint32 (Z.of_nat (length (blockBitmasks colIdx))) =? h_BlockCount header) then Err ErrInvalidFooter
          else Ok (mkReader content header blocks segmentBloom colIdx perBlockSize).

Definition Collections (r : Reader) : list string := stringTable (rd_parsedCollections r).
Definition CollectionEventCounts (r : Reader) : list Z := eventCounts (rd_parsedCollections r).

Definition BlockCollections (r : Reader) (idx : Z) : result seg_err (list Z) :=
  if (idx <? 0) || (Z.of_nat (length (blockBitmasks (rd_parsedCollections r))) <=? idx) then Err ErrBlockOutOfRange
  else Ok (nth (Z.to_nat idx) (blockBitmasks (rd_parsedCollections r)) []).

Definition DecodeBlock (r : Reader) (idx : Z) : result seg_err (list Event) :=
  match (if idx <? 0 then None else rd_blocks r !! Z.to_nat idx) with
  | None => Err ErrBlockOutOfRange
  | Some b =>
      frame ← pread (bi_CompressedSize b) (bi_Offset b + 8) (rd_file r);
      '(events, _) ← decodeBlockCompressedSized frame;
      Ok events
  end.

Definition BlockBloom (r : Reader) (idx : Z) : result seg_err Filter :=
  if (idx <? 0) || (Z.of_nat (length (rd_blocks r)) <=? idx) then Err ErrBlockOutOfRange
  else if rd_perBlockBloomSize r =? 0 then Err ErrBlockOutOfRange
  else
    buf ← pread (rd_perBlockBloomSize r) (h_BlockDIDBloomOffset (rd_header r) + blockBloomsRegionHeaderSize + idx * rd_perBlockBloomSize r) (rd_file r);
    match UnmarshalBinary buf with Some f => Ok f | None => Err (ErrIO "unmarshal block bloom") end.

(** The filters in a buffer, one after the other. *)
Fixpoint unmarshal_all (size n : nat) (buf : bytes) : result seg_err (list Filter) :=
  match n with
  | O => Ok []
  | S n =>
      match UnmarshalBinary (take size buf) with
      | None => Err (ErrIO "unmarshal block bloom")
      | Some f => fs ← unmarshal_all size n (drop size buf); Ok (f :: fs)
      end
  end.

Definition LoadAllBlockBlooms (r : Reader) : result seg_err (list Filter) :=
  let n := Z.of_nat (length (rd_blocks r)) in
  if n =? 0 then Ok []
  else if rd_perBlockBloomSize r =? 0 then Err ErrBlockOutOfRange
  else
    let bodyLen := uint64 (n * rd_perBlockBloomSize r) in
    if maxInt <? bodyLen then Err ErrInvalidFooter
    else
      buf ← pread bodyLen (h_BlockDIDBloomOffset (rd_header r) + blockBloomsRegionHeaderSize) (rd_file r);
      unmarshal_all (Z.to_nat (rd_perBlockBloomSize r)) (length (rd_blocks r)) buf.

(** The filters that a DID passes; a missing filter lets everything pass. *)
Definition passes (bloom : option Filter) (did : string) : bool := match bloom with Some b => TestString b did | None => true end.

Definition SelectBlocksForDID (segBloom : option Filter) (blockBlooms : list (option Filter)) (did : string) : list Z :=
  if negb (passes segBloom did) then []
  else omap (λ ib, if passes ib.2 did then Some (Z.of_nat ib.1) else None) (imap pair blockBlooms).

Definition BlocksContainingDID (r : Reader) (did : string) : list Z :=
  match rd_blocks r with
  | [] => []
  | _ =>
      if negb (passes (rd_segmentBloom r) did) then []
      else match LoadAllBlockBlooms r with
      | Err _ => map Z.of_nat (seq 0 (length (rd_blocks r)))
      | Ok blooms => SelectBlocksForDID None (map Some blooms) did
      end
  end.
End reader.
