(* ===== verification/SegSealProofs.v ===== *)
(** * A sealed segment can be read back

    The encodings of the header, the block index, the collection index and the region
    of the block filters are inverted by their decoders; what sealing gathers in its
    walk over the frames; that [Open] accepts what [Seal] left, and what the reader
    then answers. *)

From Stdlib Require Import Strings.Byte.
From coqutil Require Import Byte Word.LittleEndianList.
From S2P Require Import Prelude GoStrings StateMonad Segment SegmentProofs SegFileProofs SegWriter SegSeal.
Local Open Scope Z_scope.

(** ** Fields at an offset *)

Lemma le_at_skip off n a b : (length a ≤ off)%nat → le_at off n (a ++ b) = le_at (off - length a) n b.
Proof. intros Hl. unfold le_at. by rewrite drop_app_ge. Qed.

Lemma le_at_0 n v b : fits n v → le_at 0 n (le_split n v ++ b) = v.
Proof.
  intros Hv. unfold le_at. rewrite drop_0. rewrite take_app_le, take_ge by (rewrite length_le_split; lia).
  rewrite le_combine_split. apply Z.mod_small. rewrite Z.mul_comm. unfold fits in Hv. by rewrite Z.mul_comm.
Qed.

(** Reads a field of a concatenation of fields. *)
Ltac field := repeat (rewrite le_at_skip by (rewrite ?length_le_split; cbn; lia); rewrite ?length_le_split; cbn [Nat.sub]); apply le_at_0.

Definition header_ok (h : Header) : Prop :=
  h_Version h = currentHeaderVersion ∧ fits 4 (h_BlockCount h) ∧ fits 4 (h_EventCount h) ∧ fits 4 (h_UniqueDIDCount h) ∧
  fits 8 (h_MinSeq h) ∧ fits 8 (h_MaxSeq h) ∧ - 2 ^ 63 ≤ h_MinWitnessedAt h < 2 ^ 63 ∧ - 2 ^ 63 ≤ h_MaxWitnessedAt h < 2 ^ 63 ∧
  fits 8 (h_FooterOffset h) ∧ fits 8 (h_DIDBloomOffset h) ∧ fits 8 (h_BlockDIDBloomOffset h) ∧ fits 8 (h_CollectionIndexOffset h) ∧
  fits 8 (h_BlockIndexOffset h) ∧ fits 8 (h_Checksum h) ∧ h_Checksum h ≠ 0.

Lemma fits_uint64 z : fits 8 (uint64 z).
Proof. apply uint64_range. Qed.
Lemma fits_uint32 z : fits 4 (uint32 z).
Proof. unfold fits, uint32, uint_wrap. apply Z.mod_pos_bound. done. Qed.

Lemma encodeHeader_length h : length (encodeHeader h) = 256%nat.
Proof. unfold encodeHeader. by rewrite !length_app, !length_le_split. Qed.

Lemma decodeHeader_encode h : header_ok h → decodeHeader (encodeHeader h) = Ok h.
Proof.
  intros (Hv & H1 & H2 & H3 & H4 & H5 & H6 & H7 & H8 & H9 & H10 & H11 & H12 & H13 & Hc). pose proof (fits_uint64 (h_MinWitnessedAt h)). pose proof (fits_uint64 (h_MaxWitnessedAt h)).
  assert (Hv' : fits 2 (h_Version h)) by (rewrite Hv; done).
  unfold decodeHeader, len_bytes. rewrite encodeHeader_length. cbn [negb Z.eqb Z.of_nat]. change (Z.of_nat 256 =? ReservedHeaderBytes) with true. cbn [negb].
  rewrite bool_decide_true by done. cbn [negb]. unfold encodeHeader.
  assert (E0 : le_at 4 8 (encodeHeader h) = h_Checksum h) by (unfold encodeHeader; by field).
  assert (E1 : le_at 12 2 (encodeHeader h) = h_Version h) by (unfold encodeHeader; by field).
  fold (encodeHeader h). rewrite E0, E1, Hv. rewrite (proj2 (Z.eqb_neq _ 0)) by done. change (currentHeaderVersion =? currentHeaderVersion) with true. cbn [negb].
  unfold encodeHeader. do 2 f_equal. destruct h. cbn in *. subst. f_equal; first [by field|rewrite <-int64_uint64 by done; f_equal; by field].
Qed.

(** ** The block index *)

Definition info_ok (i : BlockInfo) : Prop :=
  fits 8 (bi_Offset i) ∧ fits 4 (bi_CompressedSize i) ∧ fits 4 (bi_UncompressedSize i) ∧ fits 4 (bi_EventCount i) ∧ fits 8 (bi_MinSeq i) ∧ fits 8 (bi_MaxSeq i) ∧
  - 2 ^ 63 ≤ bi_MinWitnessedAt i < 2 ^ 63 ∧ - 2 ^ 63 ≤ bi_MaxWitnessedAt i < 2 ^ 63.

Definition entry (i : BlockInfo) : bytes := encodeBlockIndex [i].

Lemma entry_length i : length (entry i) = 52%nat.
Proof. unfold entry, encodeBlockIndex. cbn [flat_map]. by rewrite !length_app, !length_le_split. Qed.

Lemma encodeBlockIndex_cons i infos : encodeBlockIndex (i :: infos) = entry i ++ encodeBlockIndex infos.
Proof. unfold entry, encodeBlockIndex. cbn [flat_map]. by rewrite app_nil_r. Qed.

Lemma encodeBlockIndex_length infos : len_bytes (encodeBlockIndex infos) = Z.of_nat (length infos) * blockIndexEntrySize.
Proof. induction infos as [|i infos IH]; [done|]. rewrite encodeBlockIndex_cons, len_app, IH. unfold len_bytes, blockIndexEntrySize. rewrite entry_length. simpl length. lia. Qed.

Lemma decodeBlockIndexEntry_entry i : info_ok i → decodeBlockIndexEntry (entry i) = i.
Proof.
  intros (H1 & H2 & H3 & H4 & H5 & H6 & H7 & H8). pose proof (fits_uint64 (bi_MinWitnessedAt i)). pose proof (fits_uint64 (bi_MaxWitnessedAt i)).
  unfold decodeBlockIndexEntry, entry, encodeBlockIndex. cbn [flat_map]. rewrite <-!app_assoc.
  destruct i. cbn in *. f_equal; first [by field|rewrite <-int64_uint64 by done; f_equal; by field].
Qed.

Lemma decodeBlockIndex_encode infos : Forall info_ok infos → decodeBlockIndex (encodeBlockIndex infos) (Z.of_nat (length infos)) = Ok infos.
Proof.
  intros Hi. unfold decodeBlockIndex. rewrite encodeBlockIndex_length, Z.eqb_refl, Nat2Z.id. cbn [negb]. f_equal.
  induction Hi as [|i infos Hi _ IH]; [done|]. cbn [length decode_entries]. rewrite encodeBlockIndex_cons.
  rewrite take_app_le, take_ge, drop_app_ge by (rewrite entry_length; lia). rewrite entry_length, decodeBlockIndexEntry_entry by done.
  change (52 - 52)%nat with O. by rewrite drop_0, IH.
Qed.

(** ** What the proofs rely on of the libraries *)

(** A filter passes what was added to it, comes back from its bytes, and has a size that
    depends only on its capacity. *)
Class SealLaws `{SealLibs} := {
  map_order_spec : ∀ X x, x ∈ map_order X ↔ x ∈ X;
  marshal_ok : ∀ f, ∃ b, MarshalBinary f = Ok b ∧ UnmarshalBinary b = Some f ∧ 0 < len_bytes b;
  marshal_size : ∀ n dids dids' b b', MarshalBinary (foldl AddString (gloom_New n) dids) = Ok b →
    MarshalBinary (foldl AddString (gloom_New n) dids') = Ok b' → len_bytes b = len_bytes b';
  marshal_bound : ∀ n dids b, n ≤ maxBlockEventsLimit → MarshalBinary (foldl AddString (gloom_New n) dids) = Ok b → len_bytes b < 2 ^ 32;
  Test_Add : ∀ n dids did, did ∈ dids → TestString (foldl AddString (gloom_New n) dids) did = true;
  xxh3_range : ∀ b, fits 8 (xxh3 b);
}.

Section sealed.
Context `{ZstdLaws} `{SealLaws}.

(** ** The filters of the blocks *)

Definition marshals (sz : Z) (f : Filter) : Prop := ∃ b, MarshalBinary f = Ok b ∧ UnmarshalBinary b = Some f ∧ len_bytes b = sz.

Lemma marshal_all_ok sz fs : 0 < sz < 2 ^ 32 → Forall (marshals sz) fs →
  ∃ body, marshal_all sz fs = Ok body ∧ len_bytes body = Z.of_nat (length fs) * sz ∧ unmarshal_all (Z.to_nat sz) (length fs) body = Ok fs.
Proof.
  intros Hsz. induction 1 as [|f fs (b & Hm & Hu & Hl) _ (body & Hb & Hlen & Hun)]; [by exists []|]. exists (b ++ body). cbn [marshal_all unmarshal_all length].
  rewrite Hm, Ok_bind, Hl, uint32_small, Z.eqb_refl by lia. cbn [negb]. rewrite Hb, Ok_bind, len_app. split_and!; [done|lia|].
  assert (Hn : length b = Z.to_nat sz) by (unfold len_bytes in Hl; lia). rewrite <-Hn in *. rewrite take_app_length, drop_app_length, Hu, Hun. done.
Qed.

Lemma region_ok sz fs : 0 < sz < 2 ^ 32 → Forall (marshals sz) fs →
  ∃ body sz', encodeBlockBloomsRegion fs = Ok (le_split 4 (uint32 (Z.of_nat (length fs))) ++ le_split 4 sz' ++ body, sz') ∧ fits 4 sz' ∧
    len_bytes body = Z.of_nat (length fs) * sz' ∧ (fs ≠ [] → sz' = sz ∧ unmarshal_all (Z.to_nat sz) (length fs) body = Ok fs).
Proof.
  intros Hsz Hfs. destruct fs as [|f fs]; [by exists [], 0|]. destruct (marshal_all_ok sz _ Hsz Hfs) as (body & Hb & Hlen & Hun).
  exists body, sz. split_and!; [|unfold fits; lia|done|done]. cbn [marshal_all] in Hb. unfold encodeBlockBloomsRegion.
  inversion_clear Hfs as [|?? (b & Hm & _ & Hl) _]. rewrite Hm in Hb |- *. rewrite Ok_bind in Hb. rewrite Ok_bind. rewrite Hl, (uint32_small sz) in Hb |- * by lia. rewrite Z.eqb_refl in Hb. cbn [negb] in Hb.
  destruct (marshal_all sz fs) as [rest|]; [|done]. rewrite Ok_bind in Hb. rewrite Ok_bind. by injection Hb as <-.
Qed.

(** ** Sets of numbers as bits *)

Lemma set_bits_ok count ids : ∀ mask, Forall (λ id, 0 ≤ id < count) ids → count ≤ 8 * Z.of_nat (length mask) → Forall (fits 1) mask →
  ∃ mask', set_bits count ids mask = Ok mask' ∧ length mask' = length mask ∧ Forall (fits 1) mask' ∧
    ∀ id, 0 ≤ id → Z.testbit (nth (Z.to_nat (id / 8)) mask' 0) (id mod 8) = bool_decide (id ∈ ids) && (id <? 8 * Z.of_nat (length mask)) || Z.testbit (nth (Z.to_nat (id / 8)) mask 0) (id mod 8).
Proof.
  induction ids as [|i ids IH]; intros mask Hids Hc Hm; [by exists mask|]. inversion_clear Hids as [|?? Hi Hids'].
  cbn [set_bits]. rewrite (proj2 (Z.leb_gt _ _)) by lia. set (g := λ b, Z.lor b (Z.shiftl 1 (i mod 8))). set (m1 := alter g (Z.to_nat (i / 8)) mask).
  assert (Hbit : 0 ≤ i mod 8 < 8) by (apply Z.mod_pos_bound; lia).
  assert (Hg : ∀ b, fits 1 b → fits 1 (g b)).
  { intros b [Hb0 Hb1]. unfold g. rewrite Z.shiftl_mul_pow2, Z.mul_1_l by lia. assert (0 ≤ Z.lor b (2 ^ (i mod 8))) by (apply Z.lor_nonneg; lia). split; [done|].
    destruct (Z.eq_dec (Z.lor b (2 ^ (i mod 8))) 0) as [->|]; [done|]. change (Z.of_nat 1 * 8) with 8. apply Z.log2_lt_pow2; [lia|].
    rewrite Z.log2_lor by lia. apply Z.max_lub_lt; [|rewrite Z.log2_pow2; lia]. destruct (Z.eq_dec b 0) as [->|]; [done|]. by apply Z.log2_lt_pow2; [lia|]. }
  assert (Hm1 : Forall (fits 1) m1) by (apply Forall_alter; [done|intros; by apply Hg]).
  assert (Hl1 : length m1 = length mask) by apply length_alter.
  destruct (IH m1 Hids') as (mask' & Hs & Hl & Hf & Ht); [by rewrite Hl1|done|]. exists mask'. rewrite Hs. split_and!; [done|congruence|done|].
  intros id Hid. rewrite Ht, Hl1 by done.
  assert (Hn : Z.testbit (nth (Z.to_nat (id / 8)) m1 0) (id mod 8) = bool_decide (id = i) || Z.testbit (nth (Z.to_nat (id / 8)) mask 0) (id mod 8)).
  { assert (Hd : (Z.to_nat (i / 8) < length mask)%nat) by (apply Nat2Z.inj_lt; rewrite Z2Nat.id by (apply Z.div_pos; lia); apply Z.div_lt_upper_bound; lia).
    rewrite !nth_lookup. unfold m1. destruct (decide (Z.to_nat (id / 8) = Z.to_nat (i / 8))) as [Heq|Hne].
    - rewrite Heq, list_lookup_alter_eq. destruct (mask !! Z.to_nat (i / 8)) as [b|] eqn:Eb; [|apply lookup_ge_None in Eb; lia]. cbn. unfold g.
      rewrite Z.lor_spec, Z.shiftl_spec by (apply Z.mod_pos_bound; lia). rewrite orb_comm. f_equal.
      assert (Hq : id / 8 = i / 8) by (apply Z2Nat.inj in Heq; [done|apply Z.div_pos; lia..]).
      pose proof (Z.div_mod id 8 ltac:(lia)) as D1. pose proof (Z.div_mod i 8 ltac:(lia)) as D2.
      destruct (bool_decide_reflect (id = i)) as [->|Hne]; [by rewrite Z.sub_diag|].
      destruct (Z.lt_ge_cases (id mod 8 - i mod 8) 0); [by rewrite Z.testbit_neg_r|]. change 1 with (2 ^ 0). rewrite Z.pow2_bits_false by lia. done.
    - rewrite list_lookup_alter_ne by done. rewrite bool_decide_eq_false_2; [done|]. by intros ->. }
  rewrite Hn. rewrite orb_assoc. f_equal. destruct (decide (id = i)) as [->|Hne].
  - rewrite (bool_decide_eq_true_2 (i = i)), (bool_decide_eq_true_2 (i ∈ i :: ids)) by (done || left). rewrite (proj2 (Z.ltb_lt _ _)) by lia. by rewrite orb_true_r.
  - rewrite (bool_decide_eq_false_2 (id = i)) by done. rewrite orb_false_r. f_equal. apply bool_decide_ext. rewrite elem_of_cons. naive_solver.
Qed.

Lemma byte_ids_spec i b id : id ∈ byte_ids i b ↔ 8 * i ≤ id < 8 * i + 8 ∧ Z.testbit b (id mod 8) = true.
Proof.
  unfold byte_ids. rewrite list_elem_of_In, filter_In, <-list_elem_of_In, list_elem_of_fmap. split.
  - intros [(k & -> & Hk) Ht]. split; [|done]. rewrite !elem_of_cons, elem_of_nil in Hk. lia.
  - intros [Hi Ht]. split; [|done]. exists (id - i * 8). split; [lia|]. rewrite !elem_of_cons, elem_of_nil. lia.
Qed.

Lemma mask_ids_spec mask : ∀ i id, 0 ≤ i → id ∈ mask_ids i mask ↔
  8 * i ≤ id < 8 * (i + Z.of_nat (length mask)) ∧ Z.testbit (nth (Z.to_nat (id / 8 - i)) mask 0) (id mod 8) = true.
Proof.
  induction mask as [|b mask IH]; intros i id Hi; cbn [mask_ids length].
  { rewrite elem_of_nil. split; [done|]. lia. }
  rewrite elem_of_app, byte_ids_spec, IH by lia. pose proof (Z.div_mod id 8 ltac:(lia)) as Hd. pose proof (Z.mod_pos_bound id 8 ltac:(lia)).
  destruct (Z.lt_ge_cases id (8 * i + 8)).
  - destruct (Z.lt_ge_cases id (8 * i)); [split; intros; lia|]. assert (Hq : id / 8 - i = 0) by lia. rewrite Hq. cbn [Z.to_nat nth].
    split; [intros [[_ ?]|[? _]]; [split; [lia|done]|lia]|]. intros [_ ?]. left. split; [lia|done].
  - assert (Hq : Z.to_nat (id / 8 - i) = S (Z.to_nat (id / 8 - (i + 1)))) by lia. rewrite Hq. cbn [nth].
    split; [intros [[? _]|[? ?]]; [lia|split; [lia|done]]|]. intros [? ?]. right. split; [lia|done].
Qed.

(** ** The collection index *)

Definition same_ids (a b : list Z) : Prop := ∀ id, id ∈ b ↔ id ∈ a.

Lemma next_app x r n : len_bytes x = n → next n (x ++ r) = Ok (x, r).
Proof.
  intros <-. unfold next. rewrite (proj2 (Z.ltb_ge _ _)) by (rewrite len_app; pose proof (len_pos r); lia).
  unfold len_bytes. by rewrite Nat2Z.id, take_app_length, drop_app_length.
Qed.

Lemma zeros_fit n : Forall (fits 1) (repeat 0 n).
Proof. induction n; constructor; [unfold fits; lia|done]. Qed.

Lemma masks_ok count masks : 0 ≤ count → Forall (Forall (λ id, 0 ≤ id < count)) masks → let bl := (count + 7) / 8 in
  ∃ bs, encode_masks count bl masks = Ok bs ∧ len_bytes bs = Z.of_nat (length masks) * bl ∧
    ∀ rest, ∃ masks', decode_masks count bl (length masks) (bs ++ rest) = Ok (masks', rest) ∧ Forall2 same_ids masks masks'.
Proof.
  intros Hc Hm bl. assert (Hbl : count ≤ 8 * bl ∧ 0 ≤ bl) by (unfold bl; pose proof (Z.div_mod (count + 7) 8 ltac:(lia)); pose proof (Z.mod_pos_bound (count + 7) 8 ltac:(lia)); split; [lia|apply Z.div_pos; lia]).
  induction Hm as [|ids masks Hids _ (bs & Hb & Hl & IH)]; [exists []; split_and!; [done|done|]; intros rest; by exists []|].
  destruct (set_bits_ok count ids (repeat 0 (Z.to_nat bl)) Hids) as (mask & Hs & Hlen & Hf & Ht); [rewrite repeat_length; lia|apply zeros_fit|].
  rewrite repeat_length in Hlen, Ht. exists (column 1 mask ++ bs). cbn [encode_masks decode_masks length]. rewrite Hs, Ok_bind, Hb, Ok_bind.
  assert (Hcol : len_bytes (column 1 mask) = bl) by (unfold len_bytes; rewrite column_length, Hlen; lia).
  split_and!; [done|rewrite len_app, Hcol, Hl; lia|]. intros rest. destruct (IH rest) as (masks' & Hd & Hsame).
  rewrite <-app_assoc, (next_app _ _ _ Hcol), Ok_bind. cbv beta iota zeta.
  rewrite column_length, Nat.mul_1_l, (uints_column 1 mask Hf).
  assert (Hids' : same_ids ids (mask_ids 0 mask)).
  { intros id. rewrite mask_ids_spec by lia. rewrite Hlen, Z.add_0_l, Z.sub_0_r. split.
    - intros [Hr Hbit]. rewrite Ht in Hbit by lia. rewrite nth_repeat, Z.testbit_0_l, orb_false_r in Hbit. apply andb_true_iff in Hbit as [Hin _]. by apply bool_decide_eq_true in Hin.
    - intros Hin. pose proof (proj1 (Forall_forall _ _) Hids id Hin) as Hr. cbv beta in Hr. split; [lia|]. rewrite Ht by lia.
      rewrite bool_decide_eq_true_2 by done. rewrite (proj2 (Z.ltb_lt _ _)) by lia. done. }
  assert (He : existsb (λ id, count <=? id) (mask_ids 0 mask) = false).
  { apply not_true_is_false. intros (id & Hin & Hge)%existsb_exists. apply list_elem_of_In, Hids' in Hin. pose proof (proj1 (Forall_forall _ _) Hids id Hin) as Hr. cbv beta in Hr. lia. }
  rewrite He, Hd, Ok_bind. exists (mask_ids 0 mask :: masks'). split; [done|]. by constructor.
Qed.

Definition row_size (nsid : string) : Z := 5 + len nsid.

Lemma table_ok table : ∀ counts, length counts = length table → Forall (fits 4) counts → Forall (λ nsid, len nsid ≤ 255) table →
  ∃ t, encode_table table counts = Ok t ∧ len_bytes t = foldr Z.add 0 (map row_size table) ∧
    ∀ rest, decode_table (length table) (t ++ rest) = Ok (table, counts, rest).
Proof.
  induction table as [|nsid table IH]; intros [|count counts] Hl Hc Hn; try done; [by exists []|].
  inversion_clear Hc as [|?? Hc1 Hc']. inversion_clear Hn as [|?? Hn1 Hn']. destruct (IH counts) as (t & Ht & Hlen & Hd); [simpl in Hl; lia|done|done|].
  cbn [encode_table]. rewrite (proj2 (Z.ltb_ge _ _)) by lia. rewrite Ht, Ok_bind. eexists. split; [reflexivity|].
  assert (Hfit : fits 1 (len nsid)) by (unfold fits, len in *; lia).
  assert (Hu : uint8 (len nsid) = len nsid) by (unfold uint8, uint_wrap; apply Z.mod_small; unfold fits in Hfit; lia). rewrite Hu.
  split; [rewrite !len_app, !len_le_split, len_str_bytes, Hlen; cbn [map foldr]; unfold row_size; lia|]. intros rest. cbn [length decode_table].
  rewrite <-!app_assoc. rewrite (next_app (le_split 1 (len nsid)) _ 1) by (by rewrite len_le_split). rewrite Ok_bind. cbv beta iota.
  rewrite (next_app (le_split 4 count) _ 4) by (by rewrite len_le_split). rewrite Ok_bind. cbv beta iota.
  rewrite !le_combine_split, (Z.mod_small (len nsid)), (Z.mod_small count) by (unfold fits in *; lia).
  rewrite (next_app (str_bytes nsid)) by apply len_str_bytes. rewrite Ok_bind. cbv beta iota. rewrite Hd, Ok_bind. cbv beta iota. by rewrite bytes_str_bytes.
Qed.

(** A collection index whose body the decoder accepts. *)
Record index_ok (idx : collectionIndex) : Prop := {
  io_counts : length (eventCounts idx) = length (stringTable idx);
  io_fits : Forall (fits 4) (eventCounts idx);
  io_names : Forall (λ nsid, len nsid ≤ 255) (stringTable idx);
  io_ids : Forall (Forall (λ id, 0 ≤ id < Z.of_nat (length (stringTable idx)))) (blockBitmasks idx);
  io_table : Z.of_nat (length (stringTable idx)) ≤ maxCollectionCountLimit;
  io_blocks : Z.of_nat (length (blockBitmasks idx)) ≤ maxBlockCountLimit;
  io_size : foldr Z.add 0 (map row_size (stringTable idx)) + Z.of_nat (length (blockBitmasks idx)) * ((Z.of_nat (length (stringTable idx)) + 7) / 8) ≤ maxDecodedBlockBytes;
}.

Lemma decodeCollectionIndex_encode idx : index_ok idx → ∃ buf masks, encodeCollectionIndex idx = Ok buf ∧ collectionIndexHeaderSize ≤ len_bytes buf ∧
  decodeCollectionIndex buf = Ok (mkIndex (stringTable idx) (eventCounts idx) masks) ∧ Forall2 same_ids (blockBitmasks idx) masks.
Proof.
  intros [Hlen Hfits Hnames Hids Ht Hbl Hsize]. unfold maxCollectionCountLimit, maxBlockCountLimit, maxDecodedBlockBytes in *. unfold encodeCollectionIndex.
  set (n := Z.of_nat (length (stringTable idx))) in *. set (k := Z.of_nat (length (blockBitmasks idx))) in *.
  rewrite (proj2 (Z.ltb_ge _ n)), (proj2 (Z.ltb_ge _ k)) by lia. cbn [orb]. rewrite Hlen, Nat.eqb_refl. cbn [negb].
  destruct (table_ok _ _ Hlen Hfits Hnames) as (t & -> & Htl & Hdt). rewrite Ok_bind.
  destruct (masks_ok n _ ltac:(lia) Hids) as (bs & -> & Hml & Hdm). rewrite Ok_bind. cbv zeta. destruct (Hdm []) as (masks & Hd & Hsame). rewrite app_nil_r in Hd.
  assert (Hn8 : 0 ≤ (n + 7) / 8) by (apply Z.div_pos; lia). assert (Hn8' : (n + 7) / 8 < 2 ^ 32) by (apply Z.div_lt_upper_bound; lia).
  assert (Hbody : len_bytes (t ++ bs) ≤ 2 ^ 30) by (rewrite len_app, Htl, Hml; done). pose proof (len_pos (t ++ bs)).
  rewrite (uint32_small n), (uint32_small k), (uint32_small ((n + 7) / 8)), (uint32_small (len_bytes (t ++ bs))) by lia.
  set (u := len_bytes (t ++ bs)) in *. eexists _, masks. split; [reflexivity|]. set (e := EncodeAll _).
  split; [rewrite !len_app, !len_le_split; pose proof (len_pos e); unfold collectionIndexHeaderSize; lia|]. split; [|done].
  unfold decodeCollectionIndex. rewrite !len_app, !len_le_split. pose proof (len_pos e). unfold collectionIndexHeaderSize. rewrite (proj2 (Z.ltb_ge _ 16)) by lia.
  set (buf := le_split 4 n ++ _). assert (E0 : le_at 0 4 buf = n) by (apply le_at_0; unfold fits; lia).
  assert (E1 : le_at 4 4 buf = k) by (unfold buf; field; unfold fits; lia). assert (E2 : le_at 8 4 buf = (n + 7) / 8) by (unfold buf; field; unfold fits; lia).
  assert (E3 : le_at 12 4 buf = u) by (unfold buf; field; unfold fits; lia).
  assert (E4 : drop 16 buf = e) by (unfold buf; by rewrite !drop_app_ge by (rewrite ?length_le_split; lia)).
  rewrite E0, E1, E2, E3, E4. unfold maxCollectionCountLimit, maxBlockCountLimit, maxDecodedBlockBytes.
  rewrite !(proj2 (Z.ltb_ge _ _)) by lia. rewrite (uint32_small (n + 7)), Z.eqb_refl by lia. cbn [negb]. unfold e.
  rewrite DecodeAll_EncodeAll, (proj2 (Z.leb_le _ _)) by (unfold maxDecodedBlockBytes; lia). fold u. rewrite uint32_small, Z.eqb_refl by lia. cbn [negb].
  replace (Z.to_nat n) with (length (stringTable idx)) by (unfold n; lia). replace (Z.to_nat k) with (length (blockBitmasks idx)) by (unfold k; lia). rewrite Hdt, Ok_bind. cbv beta iota. rewrite Hd, Ok_bind. done.
Qed.

(** ** What the walk gathers *)

(** A collection, or the sentinel of a marker, occurs in these events. *)
Definition named (c : string) (evs : list Event) : Prop :=
  c ≠ "" ∧ ∃ ev, ev ∈ evs ∧ (c = ev_Collection ev ∨ c = didMarkerSentinel (ev_Kind ev)).
Definition has_did (d : string) (evs : list Event) : Prop := d ≠ "" ∧ ∃ ev, ev ∈ evs ∧ ev_DID ev = d.

Lemma named_snoc c evs ev : named c (evs ++ [ev]) ↔ named c evs ∨ c ≠ "" ∧ (c = ev_Collection ev ∨ c = didMarkerSentinel (ev_Kind ev)).
Proof. unfold named. setoid_rewrite elem_of_app. setoid_rewrite list_elem_of_singleton. naive_solver. Qed.
Lemma has_did_snoc d evs ev : has_did d (evs ++ [ev]) ↔ has_did d evs ∨ d ≠ "" ∧ ev_DID ev = d.
Proof. unfold has_did. setoid_rewrite elem_of_app. setoid_rewrite list_elem_of_singleton. naive_solver. Qed.

(** The ids of a block stand for its names. *)
Definition ids_name (table : list string) (ids : list Z) (P : string → Prop) : Prop :=
  Forall (λ id, 0 ≤ id < Z.of_nat (length table)) ids ∧ ∀ c, P c ↔ ∃ id, id ∈ ids ∧ table !! Z.to_nat id = Some c.

Lemma ids_name_prefix table table' ids P : table `prefix_of` table' → ids_name table ids P → ids_name table' ids P.
Proof.
  intros Hp [Hf Hn]. pose proof (prefix_length _ _ Hp). split.
  - eapply Forall_impl; [exact Hf|]. cbv beta. lia.
  - intros c. rewrite Hn. split; intros (id & Hid & Hc); exists id; (split; [done|]).
    + by eapply prefix_lookup_Some.
    + pose proof (proj1 (Forall_forall _ _) Hf id Hid) as Hr. cbv beta in Hr. destruct Hp as [k ->]. rewrite lookup_app_l in Hc by lia. done.
Qed.

(** The table of collections: a name for each id, and an id for each name. *)
Record table_inv (res : blockWalkResult) : Prop := {
  ti_counts : length (wr_collectionEventCounts res) = length (wr_collectionStringTable res);
  ti_fits : Forall (fits 4) (wr_collectionEventCounts res);
  ti_ids : ∀ c id, wr_collectionIDByName res !! c = Some id ↔ 0 ≤ id ∧ wr_collectionStringTable res !! Z.to_nat id = Some c;
}.

Lemma table_inv_alter g id t cs ids res : (∀ c, fits 4 c → fits 4 (g c)) → table_inv (set_table t cs ids res) → table_inv (set_table t (alter g id cs) ids res).
Proof.
  intros Hg [H1' H2' H3']. split; [|simpl in *; by apply Forall_alter; [|intros; apply Hg]|done]. simpl in *. by rewrite length_alter.
Qed.

(** What [internCollection] does to the rest: nothing. *)
Lemma intern_spec c k res bc P res' bc' : internCollection c k (res, bc) = Ok (res', bc') → c ≠ "" → table_inv res → ids_name (wr_collectionStringTable res) (elements bc) P →
  ∃ table counts ids, res' = set_table table counts ids res ∧ table_inv res' ∧ wr_collectionStringTable res `prefix_of` table ∧
    (∀ x, x ∈ table ↔ x ∈ wr_collectionStringTable res ∨ x = c) ∧ ids_name table (elements bc') (λ x, P x ∨ x = c).
Proof.
  intros Hi Hc [H1' H2' H3'] Hn. unfold internCollection in Hi.
  assert (Hset : ∀ table id, wr_collectionStringTable res `prefix_of` table → 0 ≤ id → table !! Z.to_nat id = Some c →
    ids_name table (elements ({[id]} ∪ bc)) (λ x, P x ∨ x = c)).
  { clear res' bc' Hi. intros table id Hp Hid Hx. destruct (ids_name_prefix _ _ _ _ Hp Hn) as [Hf Hiff]. split.
    - apply Forall_forall. intros j Hj. apply elem_of_elements, elem_of_union in Hj as [Hj|Hj].
      + apply elem_of_singleton in Hj as ->. apply lookup_lt_Some in Hx. lia.
      + apply (proj1 (Forall_forall _ _) Hf). by apply elem_of_elements.
    - intros x. rewrite Hiff. setoid_rewrite elem_of_elements. setoid_rewrite elem_of_union. setoid_rewrite elem_of_singleton. split.
      + intros [(j & Hj & Hxj)| ->]; [exists j; auto|exists id; auto].
      + intros (j & [->|Hj] & Hxj); [right; congruence|left; by exists j]. }
  destruct (wr_collectionIDByName res !! c) as [id|] eqn:E.
  - apply H3' in E as [Hid Hx]. rewrite Ok_bind in Hi. cbv beta iota zeta in Hi.
    assert (Hin : ∀ x, x ∈ wr_collectionStringTable res ↔ x ∈ wr_collectionStringTable res ∨ x = c).
    { intros x. split; [by left|]. intros [?| ->]; [done|]. by apply list_elem_of_lookup_2 in Hx. }
    exists (wr_collectionStringTable res), (if k then alter (λ n, uint32 (n + 1)) (Z.to_nat id) (wr_collectionEventCounts res) else wr_collectionEventCounts res), (wr_collectionIDByName res).
    destruct k; injection Hi as <- <-.
    + split_and!; [done| |done|done|by apply Hset]. apply table_inv_alter; [intros; apply fits_uint32|]. by split.
    + split_and!; [by destruct res|by split|done|done|by apply Hset].
  - set (n := Z.of_nat (length (wr_collectionStringTable res))) in *. destruct (2 ^ 32 - 1 <=? n) eqn:En; [done|]. apply Z.leb_gt in En. rewrite Ok_bind in Hi. cbv beta iota zeta in Hi.
    rewrite (uint32_small n) in Hi by lia. set (table := wr_collectionStringTable res ++ [c]) in *.
    assert (Hx : table !! Z.to_nat n = Some c) by (unfold table, n; rewrite Nat2Z.id; by apply list_lookup_middle).
    assert (Hp : wr_collectionStringTable res `prefix_of` table) by (by exists [c]).
    assert (Ht : table_inv (set_table table (wr_collectionEventCounts res ++ [0]) (<[c := n]> (wr_collectionIDByName res)) res)).
    { split; simpl.
      - unfold table. rewrite !length_app, H1'. done.
      - apply Forall_app. split; [done|]. apply Forall_singleton. by unfold fits.
      - intros x id. destruct (decide (x = c)) as [->|Hne].
        + rewrite lookup_insert_eq. split; [intros [= <-]; split; [lia|done]|]. intros [Hid Hl]. f_equal.
          unfold table in Hl. apply lookup_app_Some in Hl as [Hl|[Hge Hl]].
          * exfalso. assert (Hs : wr_collectionIDByName res !! c = Some id) by (by apply H3'). congruence.
          * apply list_lookup_singleton_Some in Hl as [Hz _]. unfold n. lia.
        + rewrite lookup_insert_ne by done. rewrite H3'. unfold table. split; intros [Hid Hl]; (split; [done|]).
          * by apply lookup_app_l_Some.
          * apply lookup_app_Some in Hl as [Hl|[_ Hl]]; [done|]. by apply list_lookup_singleton_Some in Hl as [_ ->]. }
    assert (Hin : ∀ x, x ∈ table ↔ x ∈ wr_collectionStringTable res ∨ x = c) by (intros x; unfold table; by rewrite elem_of_app, list_elem_of_singleton).
    exists table, (if k then alter (λ n, uint32 (n + 1)) (Z.to_nat n) (wr_collectionEventCounts res ++ [0]) else wr_collectionEventCounts res ++ [0]), (<[c := n]> (wr_collectionIDByName res)).
    destruct k; injection Hi as <- <-; (split_and!; [done| |done|done|apply Hset; [done|lia|done]]).
    + by apply (table_inv_alter _ _ _ _ _ (set_table table (wr_collectionEventCounts res ++ [0]) (<[c := n]> (wr_collectionIDByName res)) res)); [intros; apply fits_uint32|].
    + done.
Qed.

(** The ranges of the walk: of the right width, and around every event so far. *)
Definition in_range (b : (Z * Z) * (Z * Z)) : Prop :=
  fits 8 b.1.1 ∧ fits 8 b.1.2 ∧ - 2 ^ 63 ≤ b.2.1 < 2 ^ 63 ∧ - 2 ^ 63 ≤ b.2.2 < 2 ^ 63.
Definition around (b : (Z * Z) * (Z * Z)) (ev : Event) : Prop :=
  b.1.1 ≤ ev_Seq ev ≤ b.1.2 ∧ b.2.1 ≤ ev_WitnessedAt ev ≤ b.2.2.
Definition covers (res : blockWalkResult) (evs : list Event) : Prop :=
  in_range (wr_bounds res) ∧ ∀ ev, ev ∈ evs → wr_sawAny res = true ∧ around (wr_bounds res) ev.

Lemma in_range_event ev : event_ok ev → in_range ((ev_Seq ev, ev_Seq ev), (ev_WitnessedAt ev, ev_WitnessedAt ev)).
Proof. intros (_ & Hs & Hw & _). unfold in_range, fits. simpl. lia. Qed.

Lemma widen_range b ev : event_ok ev → in_range b → in_range (widen b.1 (ev_Seq ev), widen b.2 (ev_WitnessedAt ev)).
Proof. intros (_ & Hs & Hw & _). unfold in_range, widen, fits. simpl. intros (? & ? & ? & ?). repeat case_match; lia. Qed.

Lemma widen_around b ev ev' : ev' = ev ∨ around b ev' → around (widen b.1 (ev_Seq ev), widen b.2 (ev_WitnessedAt ev)) ev'.
Proof. unfold around, widen. simpl. intros [->|(? & ?)]; repeat case_match; lia. Qed.

(** Walking through a block that began in [r0]. *)
Record walking (r0 : blockWalkResult) (done evs : list Event) (res : blockWalkResult) (dids : gset string) (bc : gset Z) : Prop := {
  wg_infos : wr_infos res = wr_infos r0;
  wg_total : wr_totalEventCount res = wr_totalEventCount r0;
  wg_pdids : wr_perBlockDIDs res = wr_perBlockDIDs r0;
  wg_pcolls : wr_perBlockCollections res = wr_perBlockCollections r0;
  wg_unique : ∀ d, d ∈ wr_uniqueDIDs res ↔ d ∈ wr_uniqueDIDs r0 ∨ has_did d evs;
  wg_dids : ∀ d, d ∈ dids ↔ has_did d evs;
  wg_names : ids_name (wr_collectionStringTable res) (elements bc) (λ c, named c evs);
  wg_prefix : wr_collectionStringTable r0 `prefix_of` wr_collectionStringTable res;
  wg_table : ∀ c, c ∈ wr_collectionStringTable res ↔ c ∈ wr_collectionStringTable r0 ∨ named c evs;
  wg_inv : table_inv res;
  wg_covers : covers res (done ++ evs);
}.

Lemma ids_name_iff table ids P Q : (∀ c, P c ↔ Q c) → ids_name table ids P → ids_name table ids Q.
Proof. intros Hpq [Hf Hn]. split; [done|]. intros c. by rewrite <-Hpq, Hn. Qed.

(** One more name, if there is one. *)
Lemma intern_opt c k res bc P res' bc' :
  (if bool_decide (c = "") then Ok (res, bc) else internCollection c k (res, bc)) = Ok (res', bc') →
  table_inv res → ids_name (wr_collectionStringTable res) (elements bc) P →
  ∃ table counts ids, res' = set_table table counts ids res ∧ table_inv res' ∧ wr_collectionStringTable res `prefix_of` table ∧
    (∀ x, x ∈ table ↔ x ∈ wr_collectionStringTable res ∨ x ≠ "" ∧ x = c) ∧ ids_name table (elements bc') (λ x, P x ∨ x ≠ "" ∧ x = c).
Proof.
  intros Hi Ht Hn. case_bool_decide as Hc.
  - injection Hi as <- <-. exists (wr_collectionStringTable res), (wr_collectionEventCounts res), (wr_collectionIDByName res).
    split_and!; [by destruct res|done|done|naive_solver|]. eapply ids_name_iff; [|exact Hn]. naive_solver.
  - destruct (intern_spec c k res bc P res' bc' Hi Hc Ht Hn) as (t & cs & ids & -> & Ht' & Hp & Hin & Hn'). exists t, cs, ids.
    split_and!; [done|done|done| |].
    + intros x. rewrite Hin. split; [|naive_solver]. intros [?| ->]; [by left|right; done].
    + eapply ids_name_iff; [|exact Hn']. intros x. simpl. split; [|naive_solver]. intros [?| ->]; [by left|right; done].
Qed.

Lemma did_set (d d' : string) : d ∈ (if bool_decide (d' = "") then ∅ else {[d']} : gset string) ↔ d ≠ "" ∧ d' = d.
Proof.
  case_bool_decide as E; [|rewrite elem_of_singleton; naive_solver]. split; [intros Hin; by apply elem_of_empty in Hin|]. intros [? ->]. done.
Qed.

Lemma walk_event_spec r0 done evs res dids bc ev res' dids' bc' : walk_event (res, dids, bc) ev = Ok (res', dids', bc') → event_ok ev →
  walking r0 done evs res dids bc → walking r0 done (evs ++ [ev]) res' dids' bc'.
Proof.
  intros He Hev [Wi Wt Wp Wq Wu Wd Wn Wx Wy Wv [Wr Wc]]. unfold walk_event, indexEventCollection in He.
  set (b := if wr_sawAny res then _ else _) in He. set (ds := if bool_decide (ev_DID ev = "") then ∅ else {[ev_DID ev]} : gset string) in He.
  assert (Hds : ∀ d, d ∈ ds ↔ d ≠ "" ∧ ev_DID ev = d).
  { intros d. apply did_set. }
  set (r := mkWalk _ _ _ _ _ _ _ _ _ _) in He.
  assert (Hr : table_inv r) by (destruct Wv; by split).
  destruct (if bool_decide (ev_Collection ev = "") then Ok (r, bc) else internCollection (ev_Collection ev) true (r, bc)) as [[r1 bc1]|] eqn:E1; [|done].
  destruct (intern_opt _ _ r bc (λ c, named c evs) r1 bc1 E1 Hr Wn) as (t1 & cs1 & ids1 & -> & Ht1 & Hp1 & Hin1 & Hn1).
  rewrite Ok_bind in He. cbv beta zeta in He. set (r1 := set_table t1 cs1 ids1 r) in *.
  destruct (if bool_decide (didMarkerSentinel (ev_Kind ev) = "") then Ok (r1, bc1) else internCollection (didMarkerSentinel (ev_Kind ev)) false (r1, bc1)) as [[r2 bc2]|] eqn:E2; [|done].
  destruct (intern_opt _ _ r1 bc1 _ r2 bc2 E2 Ht1 Hn1) as (t2 & cs2 & ids2 & -> & Ht2 & Hp2 & Hin2 & Hn2).
  rewrite Ok_bind in He. injection He as <- <- <-. split; try done; simpl.
  - intros d. rewrite elem_of_union, Hds, Wu, has_did_snoc. naive_solver.
  - intros d. rewrite elem_of_union, Hds, Wd, has_did_snoc. naive_solver.
  - eapply ids_name_iff; [|exact Hn2]. intros c. simpl. rewrite named_snoc. naive_solver.
  - etrans; [exact Wx|]. etrans; [exact Hp1|exact Hp2].
  - intros c. rewrite Hin2, named_snoc. change (wr_collectionStringTable r1) with t1. rewrite Hin1. change (wr_collectionStringTable r) with (wr_collectionStringTable res).
    rewrite Wy. naive_solver.
  - unfold covers. simpl. unfold b. destruct (wr_sawAny res) eqn:Es.
    + split; [by apply widen_range|]. intros e Hin. split; [done|]. apply widen_around. rewrite app_assoc, elem_of_app, list_elem_of_singleton in Hin.
      destruct Hin as [Hin|Hin]; [right; by apply Wc|by left].
    + split; [by apply in_range_event|]. intros e Hin. split; [done|]. rewrite app_assoc, elem_of_app, list_elem_of_singleton in Hin.
      destruct Hin as [Hin| ->]; [by apply Wc in Hin as [? _]|]. unfold around. simpl. lia.
Qed.

Lemma walk_events_snoc acc evs ev : walk_events acc (evs ++ [ev]) = (acc ← walk_events acc evs; walk_event acc ev).
Proof.
  revert acc. induction evs as [|e evs IH]; intros acc; simpl; [by destruct (walk_event acc ev)|]. destruct (walk_event acc e); [|done]. rewrite !Ok_bind. apply IH.
Qed.

Lemma walk_events_spec r0 done evs : ∀ res dids bc, walk_events (r0, ∅, ∅) evs = Ok (res, dids, bc) → Forall event_ok evs → table_inv r0 → covers r0 done →
  walking r0 done evs res dids bc.
Proof.
  induction evs as [|ev evs IH] using rev_ind; intros res dids bc He Hok Ht Hc.
  - injection He as <- <- <-. split; try done.
    + intros d. unfold has_did. setoid_rewrite elem_of_nil. naive_solver.
    + intros d. split; [intros Hin; by apply elem_of_empty in Hin|]. intros (_ & e & Hin & _). inversion Hin.
    + rewrite elements_empty. split; [done|]. intros c. unfold named. setoid_rewrite elem_of_nil. naive_solver.
    + intros c. unfold named. setoid_rewrite elem_of_nil. naive_solver.
    + by rewrite app_nil_r.
  - rewrite walk_events_snoc in He. destruct (walk_events (r0, ∅, ∅) evs) as [[[res1 dids1] bc1]|] eqn:E; [|done]. rewrite Ok_bind in He.
    apply Forall_app in Hok as [Hok Hev]. rewrite Forall_singleton in Hev. apply (walk_event_spec r0 done evs res1 dids1 bc1 ev res dids bc He Hev). by apply IH.
Qed.

Lemma sort_insert_elem v s x : x ∈ sort_insert v s ↔ x = v ∨ x ∈ s.
Proof. induction s as [|y s IH]; simpl; [by rewrite list_elem_of_singleton, elem_of_nil; naive_solver|]. case_match; rewrite !elem_of_cons, ?IH; naive_solver. Qed.

Lemma sortUint32_elem s x : x ∈ sortUint32 s ↔ x ∈ s.
Proof.
  unfold sortUint32. assert (Hg : ∀ acc, x ∈ foldl (λ s v, sort_insert v s) acc s ↔ x ∈ acc ∨ x ∈ s).
  { induction s as [|v s IH]; intros acc; simpl; [rewrite elem_of_nil; naive_solver|]. rewrite IH, sort_insert_elem, elem_of_cons. naive_solver. }
  rewrite Hg, elem_of_nil. naive_solver.
Qed.

Lemma ids_name_same table ids ids' P : (∀ id, id ∈ ids' ↔ id ∈ ids) → ids_name table ids P → ids_name table ids' P.
Proof.
  intros Hs [Hf Hn]. split.
  - apply Forall_forall. intros id Hid. by apply (proj1 (Forall_forall _ _) Hf), Hs.
  - intros c. rewrite Hn. by setoid_rewrite Hs.
Qed.

Definition stored (bs : list (list Event)) : list (list Event) := map (map persisted) bs.

(** What the walk has gathered from these blocks. *)
Record walked (off : Z) (bs : list (list Event)) (res : blockWalkResult) : Prop := {
  wk_infos : wr_infos res = infos_at off bs;
  wk_total : wr_totalEventCount res = uint32 (Z.of_nat (length (concat bs)));
  wk_unique : ∀ d, d ∈ wr_uniqueDIDs res ↔ has_did d (concat (stored bs));
  wk_dids : Forall2 (λ dids b, ∀ d, d ∈ dids ↔ has_did d b) (wr_perBlockDIDs res) (stored bs);
  wk_colls : Forall2 (λ ids b, ids_name (wr_collectionStringTable res) ids (λ c, named c b)) (wr_perBlockCollections res) (stored bs);
  wk_table : ∀ c, c ∈ wr_collectionStringTable res ↔ named c (concat (stored bs));
  wk_inv : table_inv res;
  wk_covers : covers res (concat (stored bs));
}.

Lemma infos_at_snoc bs b : ∀ off, infos_at off (bs ++ [b]) = infos_at off bs ++ [info_at (off + len_bytes (frames bs)) b].
Proof.
  induction bs as [|b' bs IH]; intros off; [simpl; by rewrite Z.add_0_r|]. cbn [infos_at app]. rewrite IH, frames_cons, len_app. by rewrite Z.add_assoc.
Qed.

Lemma walk_blocks_snoc bs b : ∀ res off, walk_blocks res off (bs ++ [b]) =
  (res ← walk_blocks res off bs; walk_block res (info_at (off + len_bytes (frames bs)) b) (map persisted b)).
Proof.
  induction bs as [|b' bs IH]; intros res off; cbn [walk_blocks app].
  { change (frames []) with (@nil Byte.byte). change (len_bytes []) with 0. rewrite Z.add_0_r, Ok_bind. unfold info_at. by destruct (walk_block _ _ _). }
  destruct (walk_block res _ (map persisted b')); [|done]. rewrite !Ok_bind, IH, frames_cons, len_app, Z.add_assoc. done.
Qed.

Lemma event_ok_persisted e : event_ok e → event_ok (persisted e).
Proof. by destruct e. Qed.

Lemma uint32_sum a b : uint32 (uint32 a + uint32 b) = uint32 (a + b).
Proof. unfold uint32, uint_wrap. by rewrite <-Z.add_mod. Qed.

Lemma walk_blocks_walked bs : ∀ off res, walk_blocks no_walk off bs = Ok res → Forall block_ok bs → walked off bs res.
Proof.
  induction bs as [|b bs IH] using rev_ind; intros off res He Hb.
  { injection He as <-. split; try done; simpl.
    - intros d. split; [intros Hin; by apply elem_of_empty in Hin|]. intros (_ & e & Hin & _). inversion Hin.
    - intros c. split; [intros Hin; inversion Hin|]. intros (_ & e & Hin & _). inversion Hin.
    - split; [done|done|]. intros c id. simpl. split; [done|]. by intros [_ ?].
    - split; [by unfold in_range, fits|]. intros ev Hin. inversion Hin. }
  rewrite walk_blocks_snoc in He. destruct (walk_blocks no_walk off bs) as [r0|] eqn:E; [|done]. rewrite Ok_bind in He.
  apply Forall_app in Hb as [Hb Hb1]. rewrite Forall_singleton in Hb1. destruct (IH off r0 E Hb) as [Ki Kt Ku Kd Kc Kx Kv Kr]. clear IH.
  unfold walk_block in He. destruct (walk_events (r0, ∅, ∅) (map persisted b)) as [[[r1 dids] bc]|] eqn:Ee; [|done]. rewrite Ok_bind in He. injection He as <-.
  assert (Hev : Forall event_ok (map persisted b)) by (destruct Hb1 as (_ & Hok & _); apply Forall_map; eapply Forall_impl; [exact Hok|]; apply event_ok_persisted).
  destruct (walk_events_spec r0 (concat (stored bs)) _ _ _ _ Ee Hev Kv Kr) as [Wi Wt Wp Wq Wu Wd Wn Wx Wy Wv Wr].
  assert (Hst : stored (bs ++ [b]) = stored bs ++ [map persisted b]) by apply map_app.
  assert (Hc : concat (stored (bs ++ [b])) = concat (stored bs) ++ map persisted b) by (by rewrite Hst, concat_snoc).
  assert (Hnm : ∀ c, named c (concat (stored (bs ++ [b]))) ↔ named c (concat (stored bs)) ∨ named c (map persisted b)).
  { intros c. rewrite Hc. unfold named. setoid_rewrite elem_of_app. naive_solver. }
  assert (Hdd : ∀ d, has_did d (concat (stored (bs ++ [b]))) ↔ has_did d (concat (stored bs)) ∨ has_did d (map persisted b)).
  { intros c. rewrite Hc. unfold has_did. setoid_rewrite elem_of_app. naive_solver. }
  split; simpl.
  - by rewrite Wi, Ki, infos_at_snoc.
  - rewrite Wt, Kt, concat_app, length_app, length_map, uint32_sum. simpl. rewrite app_nil_r. f_equal. lia.
  - intros d. by rewrite Wu, Ku, Hdd.
  - rewrite Wp, Hst. apply Forall2_app; [done|]. by constructor.
  - rewrite Wq, Hst. apply Forall2_app.
    + eapply Forall2_impl; [exact Kc|]. intros ids x. by apply ids_name_prefix.
    + constructor; [|done]. eapply ids_name_same; [|exact Wn]. intros id. apply sortUint32_elem.
  - intros c. by rewrite Wy, Kx, Hnm.
  - destruct Wv. by split.
  - by rewrite Hc.
Qed.

(** ** The block index of a file *)

Definition seq_lt (e e' : Event) : Prop := ev_Seq e < ev_Seq e'.

Lemma bounds_spec f e evs lo hi : bounds f e evs = (lo, hi) →
  (∃ x, x ∈ e :: evs ∧ f x = lo) ∧ (∃ x, x ∈ e :: evs ∧ f x = hi) ∧ (∀ x, x ∈ evs → lo ≤ f x ≤ hi) ∧ lo ≤ f e ≤ hi.
Proof.
  revert lo hi. unfold bounds. induction evs as [|v evs IH] using rev_ind; intros lo hi Hb.
  { injection Hb as <- <-. split_and!; [exists e; split; [left|done]..|intros x Hx; inversion Hx|lia|lia]. }
  rewrite foldl_app in Hb. simpl in Hb. destruct (foldl _ _ evs) as [lo0 hi0]. simpl in Hb. destruct (IH _ _ eq_refl) as ((x & Hx & Hxl) & (y & Hy & Hyl) & Ha & He).
  assert (Hin : ∀ z, z ∈ e :: evs → z ∈ e :: evs ++ [v]) by (intros z; rewrite !elem_of_cons, elem_of_app; naive_solver).
  assert (Hv : v ∈ e :: evs ++ [v]) by (rewrite elem_of_cons, elem_of_app, list_elem_of_singleton; auto). injection Hb as <- <-. split_and!.
  - case_match; [by exists v|exists x; auto].
  - case_match; [by exists v|exists y; auto].
  - intros z. rewrite elem_of_app, list_elem_of_singleton. intros [Hz| ->]; [apply Ha in Hz|]; repeat case_match; lia.
  - case_match; lia.
  - case_match; lia.
Qed.

Definition frame_small (b : list Event) : Prop := len_bytes (EncodeAll (encodeBlockColumns (eventColumns b))) < 2 ^ 32.

Lemma info_at_spec off b : block_ok b → frame_small b → fits 8 off → let i := info_at off b in
  bi_Offset i = off ∧ 8 + bi_CompressedSize i = len_bytes (frame_of b) ∧ 0 < bi_EventCount i ∧ info_ok i ∧
  bi_MinSeq i ≤ bi_MaxSeq i ∧ bi_MinWitnessedAt i ≤ bi_MaxWitnessedAt i ∧
  (∃ e, e ∈ b ∧ ev_Seq e = bi_MinSeq i) ∧ (∃ e, e ∈ b ∧ ev_Seq e = bi_MaxSeq i).
Proof.
  intros (Hne & Hok & Hn & Hsz) Hfr Hoff i. unfold frame_small in Hfr. destruct b as [|e b]; [done|]. set (bl := e :: b) in *.
  rewrite frame_len. pose proof (len_pos (EncodeAll (encodeBlockColumns (eventColumns bl)))). pose proof (len_pos (encodeBlockColumns (eventColumns bl))).
  unfold i, info_at, block_info. change (map persisted bl) with (persisted e :: map persisted b).
  cbv beta iota. set (evs := persisted e :: map persisted b) in *.
  destruct (bounds ev_Seq (persisted e) evs) as [lo hi] eqn:Eb. destruct (bounds ev_WitnessedAt (persisted e) evs) as [lw hw] eqn:Ew.
  destruct (bounds_spec _ _ _ _ _ Eb) as ((x & Hx & Hxl) & (y & Hy & Hyl) & _ & Hlo). destruct (bounds_spec _ _ _ _ _ Ew) as ((u & Hu & Hul) & (v & Hv & Hvl) & _ & Hlw).
  assert (Hin : ∀ z, z ∈ persisted e :: evs → ∃ z', z' ∈ bl ∧ z = persisted z').
  { intros z Hz. assert (Hz' : z ∈ map persisted bl) by (unfold evs in Hz; unfold bl; simpl; rewrite !elem_of_cons in *; naive_solver).
    apply list_elem_of_fmap in Hz' as (z' & -> & ?). by exists z'. }
  destruct (Hin x Hx) as (x' & Hx' & ->). destruct (Hin y Hy) as (y' & Hy' & ->). destruct (Hin u Hu) as (u' & Hu' & ->). destruct (Hin v Hv) as (v' & Hv' & ->).
  pose proof (proj1 (Forall_forall _ _) Hok) as Hall. destruct (Hall x' Hx') as (_ & ? & _). destruct (Hall y' Hy') as (_ & ? & _).
  destruct (Hall u' Hu') as (_ & _ & ? & _). destruct (Hall v' Hv') as (_ & _ & ? & _). simpl in Hxl, Hyl, Hul, Hvl. cbn [bi_Offset bi_CompressedSize bi_EventCount bi_MinSeq bi_MaxSeq bi_MinWitnessedAt bi_MaxWitnessedAt].
  unfold maxBlockEventsLimit in Hn. unfold maxDecodedBlockBytes in Hsz. rewrite (uint32_small (len_bytes (EncodeAll _))) by lia.
  assert (Hlen : length evs = length bl) by (unfold evs, bl; simpl; by rewrite length_map). rewrite Hlen, (uint32_small (Z.of_nat _)) by lia.
  split_and!; [done|done|unfold bl; simpl; lia| |lia|lia|by exists x'|by exists y'].
  unfold info_ok. cbn [bi_Offset bi_CompressedSize bi_UncompressedSize bi_EventCount bi_MinSeq bi_MaxSeq bi_MinWitnessedAt bi_MaxWitnessedAt].
  split_and!; first [apply fits_uint32|unfold fits in *; lia].
Qed.

Lemma infos_at_length off bs : length (infos_at off bs) = length bs.
Proof. revert off. induction bs as [|b bs IH]; intros off; simpl; [done|]. by rewrite IH. Qed.

Lemma infos_at_lookup bs : ∀ off i b, bs !! i = Some b → infos_at off bs !! i = Some (info_at (off + len_bytes (frames (take i bs))) b).
Proof.
  induction bs as [|b' bs IH]; intros off [|i] b Hl; simpl in Hl; try done.
  - injection Hl as <-. simpl. by rewrite Z.add_0_r.
  - cbn [infos_at take]. rewrite frames_cons, len_app, Z.add_assoc. exact (IH _ _ _ Hl).
Qed.

Lemma infos_ok bs : ∀ off, Forall block_ok bs → Forall frame_small bs → 0 ≤ off → off + len_bytes (frames bs) ≤ maxInt → Forall info_ok (infos_at off bs).
Proof.
  induction bs as [|b bs IH]; intros off Hb Hf Ho Hs; [done|]. inversion_clear Hb. inversion_clear Hf. rewrite frames_cons, len_app in Hs.
  pose proof (len_pos (frame_of b)). pose proof (len_pos (frames bs)). cbn [infos_at]. constructor; [|apply IH; [done|done|lia|lia]].
  apply info_at_spec; [done|done|]. unfold fits. unfold maxInt in Hs. lia.
Qed.

Lemma sorted_app_lt (l1 l2 : list Event) : StronglySorted seq_lt (l1 ++ l2) → StronglySorted seq_lt l2 ∧ ∀ x y, x ∈ l1 → y ∈ l2 → seq_lt x y.
Proof.
  induction l1 as [|z l1 IH]; intros Hs; [split; [done|]; intros x y Hx; inversion Hx|]. inversion_clear Hs as [|?? Hs' Hf]. destruct (IH Hs') as [H1' H2']. split; [done|].
  intros x y Hx Hy. apply elem_of_cons in Hx as [->|Hx]; [|by apply H2']. apply (proj1 (Forall_forall _ _) Hf). apply elem_of_app. by right.
Qed.

Lemma validate_ok bs : ∀ off fo prev, Forall block_ok bs → Forall frame_small bs → ReservedHeaderBytes ≤ off → off + len_bytes (frames bs) ≤ fo → fo ≤ maxInt →
  StronglySorted seq_lt (concat bs) → (∀ p e, prev = Some p → e ∈ concat bs → p < ev_Seq e) →
  validate_loop (infos_at off bs) fo off prev = Ok tt.
Proof.
  induction bs as [|b bs IH]; intros off fo prev Hb Hf Ho Hs Hfo Hsort Hp; [done|]. inversion_clear Hb as [|?? Hb1 Hb']. inversion_clear Hf as [|?? Hf1 Hf'].
  rewrite frames_cons, len_app in Hs. pose proof (len_pos (frame_of b)). pose proof (len_pos (frames bs)). cbn [concat] in *.
  destruct (info_at_spec off b Hb1 Hf1) as (E1 & E2 & E3 & E4 & E5 & E6 & (x & Hx & Hxl) & (y & Hy & Hyl)); [unfold fits; unfold maxInt, ReservedHeaderBytes in *; lia|].
  cbn [infos_at validate_loop]. set (i := info_at off b) in *. rewrite E1.
  assert (Hend : uint64 (off + 8 + bi_CompressedSize i) = off + len_bytes (frame_of b)) by (rewrite uint64_small; unfold maxInt, ReservedHeaderBytes in *; lia). rewrite Hend.
  assert (Hc : 0 ≤ bi_CompressedSize i) by (destruct E4 as (_ & [? _] & _); lia).
  rewrite (proj2 (Z.leb_gt _ _)) by lia. rewrite !(proj2 (Z.ltb_ge _ _)) by lia. cbn [orb]. rewrite (proj2 (Z.ltb_lt _ _)) by lia.
  destruct (sorted_app_lt _ _ Hsort) as [Hsort' Hlt].
  assert (Hrec : validate_loop (infos_at (off + len_bytes (frame_of b)) bs) fo (off + len_bytes (frame_of b)) (Some (bi_MaxSeq i)) = Ok tt).
  { apply IH; [done|done|lia|lia|done|done|]. intros p e [= <-] He. rewrite <-Hyl. by apply Hlt. }
  rewrite Hrec. destruct prev as [p|]; [|done]. rewrite (proj2 (Z.leb_gt _ _)); [done|]. rewrite <-Hxl. apply Hp; [done|]. apply elem_of_app. by left.
Qed.

(** ** The footer *)

(** Blocks within the limits of the format: increasing sequence numbers, frames of
    less than 4 GiB, and collections (in [cs]) whose index the decoder accepts. *)
Record sealable (cs : gset string) (bs : list (list Event)) : Prop := {
  se_blocks : Forall block_ok bs;
  se_frames : Forall frame_small bs;
  se_sorted : StronglySorted seq_lt (concat bs);
  se_count : Z.of_nat (length bs) ≤ maxBlockCountLimit;
  se_few : few bs;
  se_names : ∀ c, named c (concat bs) → c ∈ cs;
  se_cs : Z.of_nat (size cs) ≤ maxCollectionCountLimit;
  se_index : 260 * Z.of_nat (size cs) + Z.of_nat (length bs) * ((Z.of_nat (size cs) + 7) / 8) ≤ maxDecodedBlockBytes;
}.

Lemma named_persisted c evs : named c (map persisted evs) ↔ named c evs.
Proof.
  unfold named. split; intros [Hc (ev & Hev & Hn)]; (split; [done|]).
  - apply list_elem_of_fmap in Hev as (e & -> & He). by exists e.
  - exists (persisted ev). split; [by apply list_elem_of_fmap_2|by destruct ev].
Qed.
Lemma has_did_persisted d evs : has_did d (map persisted evs) ↔ has_did d evs.
Proof.
  unfold has_did. split; intros [Hc (ev & Hev & Hn)]; (split; [done|]).
  - apply list_elem_of_fmap in Hev as (e & -> & He). by exists e.
  - exists (persisted ev). split; [by apply list_elem_of_fmap_2|by destruct ev].
Qed.

(** The table has no name twice, so it is no larger than the set of names. *)
Lemma table_nodup res : table_inv res → NoDup (wr_collectionStringTable res).
Proof.
  intros [_ _ Hi]. apply NoDup_alt. intros i j c Hx Hy.
  pose proof (proj2 (Hi c (Z.of_nat i))) as H1'. pose proof (proj2 (Hi c (Z.of_nat j))) as H2'. rewrite Nat2Z.id in H1', H2'.
  specialize (H1' ltac:(split; [lia|done])). specialize (H2' ltac:(split; [lia|done])). assert (Z.of_nat i = Z.of_nat j) by congruence. lia.
Qed.

Lemma nodup_size (l : list string) (X : gset string) : NoDup l → (∀ x, x ∈ l → x ∈ X) → (length l ≤ size X)%nat.
Proof.
  intros Hl Hx. rewrite <-(size_list_to_set (C:=gset string) l Hl). apply subseteq_size. intros x Hin. apply elem_of_list_to_set in Hin. by apply Hx.
Qed.

Lemma dids_size (dids : gset string) (b : list Event) : (∀ d, d ∈ dids ↔ has_did d b) → (size dids ≤ length b)%nat.
Proof.
  intros Hd. rewrite <-(length_map ev_DID b). apply (submseteq_length (elements dids)), NoDup_submseteq; [apply NoDup_elements|].
  intros d Hin. apply elem_of_elements, Hd in Hin as (_ & ev & Hev & <-). by apply list_elem_of_fmap_2.
Qed.

Lemma rows_size (table : list string) : Forall (λ c, len c ≤ 255) table → foldr Z.add 0 (map row_size table) ≤ 260 * Z.of_nat (length table).
Proof. induction 1; [done|]. cbn [map foldr length]. unfold row_size at 1. lia. Qed.

Lemma name_len c b : Forall event_ok b → named c b → len c ≤ 255.
Proof.
  intros Hb (_ & ev & Hev & Hc). pose proof (proj1 (Forall_forall _ _) Hb ev Hev) as Hok. apply event_ok_fields in Hok as (_ & _ & ? & _).
  destruct Hc as [->| ->]; [done|]. unfold didMarkerSentinel. by repeat case_match.
Qed.

Lemma stored_ok bs : Forall block_ok bs → Forall event_ok (concat (stored bs)).
Proof.
  intros Hb. unfold stored. rewrite concat_persisted. apply Forall_map, Forall_concat. eapply Forall_impl; [exact Hb|]. intros b (_ & Hok & _).
  eapply Forall_impl; [exact Hok|]. apply event_ok_persisted.
Qed.

Lemma collection_index_ok cs bs walk : sealable cs bs → walked ReservedHeaderBytes bs walk →
  index_ok (mkIndex (wr_collectionStringTable walk) (wr_collectionEventCounts walk) (wr_perBlockCollections walk)).
Proof.
  intros Hse [Ki Kt Ku Kd Kc Kx Kv Kr].
  assert (Hlen : length (wr_perBlockCollections walk) = length bs) by (rewrite (Forall2_length _ _ _ Kc); apply length_map).
  assert (Hn : (length (wr_collectionStringTable walk) ≤ size cs)%nat).
  { apply nodup_size; [by apply table_nodup|]. intros c Hc. apply Kx in Hc. unfold stored in Hc. rewrite concat_persisted, named_persisted in Hc. by apply (se_names _ _ Hse). }
  assert (Hnames : Forall (λ c, len c ≤ 255) (wr_collectionStringTable walk)).
  { apply Forall_forall. intros c Hc. apply Kx in Hc. eapply name_len; [|exact Hc]. apply stored_ok, (se_blocks _ _ Hse). }
  pose proof (se_cs _ _ Hse). pose proof (se_count _ _ Hse). pose proof (se_index _ _ Hse). pose proof (rows_size _ Hnames). destruct Kv as [H1' H2' H3'].
  assert (Hdiv : (Z.of_nat (length (wr_collectionStringTable walk)) + 7) / 8 ≤ (Z.of_nat (size cs) + 7) / 8) by (apply Z.div_le_mono; lia).
  split; cbn [stringTable eventCounts blockBitmasks]; [done|done|done| |lia|rewrite Hlen; done|].
  - clear -Kc. induction Kc as [|ids b l l' [Hf _] _ IH]; constructor; done.
  - rewrite Hlen. nia.
Qed.

Definition adds (d : string) (f : Filter) : Prop := TestString f d = true.

(** What the footer of these blocks consists of, and the header. *)
Definition footer_ok (bs : list (list Event)) (walk : blockWalkResult) (fo : Z) (footer : bytes) (h : Header) : Prop :=
  ∃ sb body ci sz bloom fs masks nd minSeq maxSeq minW maxW,
    footer = encodeBlockIndex (wr_infos walk) ++ sb ++ (le_split 4 (Z.of_nat (length bs)) ++ le_split 4 sz ++ body) ++ ci ∧
    (UnmarshalBinary sb = Some bloom ∧ 0 < len_bytes sb ∧ ∀ d, has_did d (concat bs) → adds d bloom) ∧
    (fits 4 sz ∧ len_bytes body = Z.of_nat (length bs) * sz ∧ (bs ≠ [] → 0 < sz ∧ unmarshal_all (Z.to_nat sz) (length bs) body = Ok fs) ∧
      Forall2 (λ f b, ∀ d, has_did d b → adds d f) fs bs) ∧
    (collectionIndexHeaderSize ≤ len_bytes ci ∧ decodeCollectionIndex ci = Ok (mkIndex (wr_collectionStringTable walk) (wr_collectionEventCounts walk) masks) ∧
      Forall2 same_ids (wr_perBlockCollections walk) masks) ∧
    let o1 := uint64 fo in let o2 := uint64 (o1 + len_bytes (encodeBlockIndex (wr_infos walk))) in let o3 := uint64 (o2 + len_bytes sb) in
    let o4 := uint64 (o3 + (8 + len_bytes body)) in
    h = mkHeader currentHeaderVersion (Z.of_nat (length bs)) (Z.of_nat (length (concat bs))) (uint32 nd) minSeq maxSeq minW maxW (uint64 fo) o2 o3 o4 o1 0 ∧
    in_range ((minSeq, maxSeq), (minW, maxW)) ∧ ∀ ev, ev ∈ concat bs → around ((minSeq, maxSeq), (minW, maxW)) ev.

Lemma fill_adds n dids d : d ∈ dids → adds d (fill (gloom_New n) dids).
Proof. intros Hd. apply Test_Add. by apply map_order_spec. Qed.

Lemma capacity_bound (l : list (gset string)) m : 1 ≤ m → Forall (λ X, Z.of_nat (size X) ≤ m) l →
  ∀ c, c ≤ m → foldl (λ m dids, if m <? Z.of_nat (size dids) then Z.of_nat (size dids) else m) c l ≤ m.
Proof. intros Hm. induction 1; intros c Hc; [done|]. simpl. apply IHForall. by case_match. Qed.

Lemma buildFooter_ok cs bs walk fo : sealable cs bs → walked ReservedHeaderBytes bs walk → ∃ footer h, buildFooter walk fo = Ok (footer, h) ∧ footer_ok bs walk fo footer h.
Proof.
  intros Hse Hw. pose proof (collection_index_ok cs bs walk Hse Hw) as Hidx. destruct Hw as [Ki Kt Ku Kd Kc Kx Kv Kr].
  set (nd := Z.of_nat (size (wr_uniqueDIDs walk))). set (bloom := fill (gloom_New nd) (wr_uniqueDIDs walk)). destruct (marshal_ok bloom) as (sb & Hsb & Hsbu & Hsbl).
  set (cap := foldl (λ m dids, if m <? Z.of_nat (size dids) then Z.of_nat (size dids) else m) 1 (wr_perBlockDIDs walk)).
  set (fs := map (fill (gloom_New cap)) (wr_perBlockDIDs walk)).
  assert (Hstored : Forall2 (λ dids b, ∀ d, d ∈ dids ↔ has_did d b) (wr_perBlockDIDs walk) bs).
  { unfold stored in Kd. apply Forall2_fmap_r in Kd. eapply Forall2_impl; [exact Kd|]. cbv beta. intros dids b Hd d. etrans; [apply Hd|apply has_did_persisted]. }
  assert (Hcap : cap ≤ maxBlockEventsLimit).
  { apply capacity_bound; [done| |done]. pose proof (se_blocks _ _ Hse) as Hb. clear -Hstored Hb. induction Hstored as [|dids b l l' Hd _ IH]; [done|].
    inversion_clear Hb as [|?? (_ & _ & Hn & _) Hb']. constructor; [|by apply IH]. pose proof (dids_size dids b Hd). lia. }
  destruct (marshal_ok (gloom_New cap)) as (b0 & Hb0 & _ & Hb0l). assert (Hb0u : len_bytes b0 < 2 ^ 32) by exact (marshal_bound cap [] b0 Hcap Hb0).
  assert (Hfs : Forall (marshals (len_bytes b0)) fs).
  { apply Forall_map, Forall_forall. intros dids _. destruct (marshal_ok (fill (gloom_New cap) dids)) as (b & Hb & Hu & _). exists b. split_and!; [done|done|].
    exact (marshal_size cap (map_order dids) [] b b0 Hb Hb0). }
  destruct (region_ok (len_bytes b0) fs) as (body & sz & Hreg & Hszf & Hbody & Hun); [lia|done|].
  assert (Hlen : length fs = length bs) by (unfold fs; rewrite length_map; by apply (Forall2_length _ _ _ Hstored)).
  assert (Hne : fs ≠ [] ↔ bs ≠ []) by (destruct fs, bs; done).
  destruct (decodeCollectionIndex_encode _ Hidx) as (ci & masks & Hci & Hcil & Hcid & Hsame).
  destruct (wr_bounds walk) as [[minSeq maxSeq] [minW maxW]] eqn:Ebounds.
  assert (Hin : wr_infos walk = infos_at ReservedHeaderBytes bs) by done. assert (Hil : length (wr_infos walk) = length bs) by (rewrite Hin; apply infos_at_length).
  pose proof (se_count _ _ Hse) as Hcount. unfold maxBlockCountLimit in Hcount. pose proof (se_few _ _ Hse) as Hfew. unfold few in Hfew.
  rewrite Hlen, (uint32_small (Z.of_nat (length bs))) in Hreg by lia. rewrite Hlen in Hbody.
  eexists _, _. split.
  { unfold buildFooter. fold nd. fold bloom. rewrite Hsb, Ok_bind. fold cap. fold fs. rewrite Hreg, Ok_bind. cbv beta iota. rewrite Hci, Ok_bind, Ebounds. reflexivity. }
  exists sb, body, ci, sz, bloom, fs, masks, nd, minSeq, maxSeq, minW, maxW. cbn [stringTable eventCounts blockBitmasks] in *. split_and!; try done.
  - intros d Hd. apply fill_adds, Ku. unfold stored. by rewrite concat_persisted, has_did_persisted.
  - intros Hb. apply Hne in Hb. destruct (Hun Hb) as [-> Hu]. split; [lia|]. by rewrite Hlen in Hu.
  - unfold fs. apply Forall2_fmap_l. eapply Forall2_impl; [exact Hstored|]. cbv beta. intros dids b Hd d Hdb. simpl. by apply fill_adds, Hd.
  - rewrite !len_app, !len_le_split, Hil, Kt, !(uint32_small (Z.of_nat _)) by lia. do 3 f_equal. lia.
  - destruct Kr as [Kr _]. by rewrite Ebounds in Kr.
  - intros ev Hev. destruct Kr as [_ Kr]. assert (Hin' : persisted ev ∈ concat (stored bs)) by (unfold stored; rewrite concat_persisted; by apply list_elem_of_fmap_2).
    destruct (Kr _ Hin') as [_ Har]. rewrite Ebounds in Har. by destruct ev.
Qed.

(** ** Opening *)

Lemma pread_at n off content a x r : content = a ++ x ++ r → len_bytes a = off → len_bytes x = n → pread n off content = Ok x.
Proof.
  intros -> <- <-. unfold pread. rewrite !len_app. rewrite (proj2 (Z.ltb_ge _ _)) by (pose proof (len_pos r); lia). by rewrite ReadAt_app.
Qed.

Lemma header_tail c h : drop 12 (encodeHeader (set_checksum c h)) = drop 12 (encodeHeader h).
Proof. unfold encodeHeader, set_checksum. cbn [h_Version h_BlockCount h_EventCount h_UniqueDIDCount h_MinSeq h_MaxSeq h_MinWitnessedAt h_MaxWitnessedAt h_FooterOffset h_DIDBloomOffset h_BlockDIDBloomOffset h_CollectionIndexOffset h_BlockIndexOffset h_Checksum].
  by rewrite !drop_app_ge by (rewrite ?length_le_split; cbn; lia). Qed.

(** What a reader knows of the blocks. *)
Record reads (bs : list (list Event)) (walk : blockWalkResult) (content : bytes) (h : Header) (rd : Reader) : Prop := {
  rs_file : rd_file rd = content;
  rs_header : rd_header rd = h;
  rs_blocks : rd_blocks rd = infos_at ReservedHeaderBytes bs;
  rs_bloom : ∃ bloom, rd_segmentBloom rd = Some bloom ∧ ∀ d, has_did d (concat bs) → adds d bloom;
  rs_blooms : bs ≠ [] → ∃ fs, LoadAllBlockBlooms rd = Ok fs ∧ Forall2 (λ f b, ∀ d, has_did d b → adds d f) fs bs;
  rs_colls : ∃ masks, rd_parsedCollections rd = mkIndex (wr_collectionStringTable walk) (wr_collectionEventCounts walk) masks ∧ Forall2 same_ids (wr_perBlockCollections walk) masks;
}.

Lemma Open_ok cs bs walk footer h skip : let fo := ReservedHeaderBytes + len_bytes (frames bs) in
  let c := xxh3HeaderFooter (encodeHeader h) footer in let content := encodeHeader (set_checksum c h) ++ frames bs ++ footer in
  sealable cs bs → walked ReservedHeaderBytes bs walk → footer_ok bs walk fo footer h → len_bytes content ≤ maxInt → c ≠ 0 →
  ∃ rd, Open skip content = Ok rd ∧ reads bs walk content (set_checksum c h) rd.
Proof.
  intros fo c content Hse Hw (sb & body & ci & sz & bloom & fs & masks & nd & minSeq & maxSeq & minW & maxW & Hft & (Hsb & Hsbl & Hbloom) & (Hsz & Hbody & Hun & Hfs) & (Hcil & Hcid & Hsame) & Hh & Hin & _) Hs Hc.
  set (hb := encodeHeader (set_checksum c h)) in *. assert (Hhb : len_bytes hb = 256) by (unfold len_bytes, hb; by rewrite encodeHeader_length).
  rewrite (wk_infos _ _ _ Hw) in *. set (idx := encodeBlockIndex (infos_at ReservedHeaderBytes bs)) in *. set (n := Z.of_nat (length bs)) in *.
  set (rh := le_split 4 n ++ le_split 4 sz) in *. assert (Hrh : len_bytes rh = 8) by (unfold rh; by rewrite len_app, !len_le_split).
  assert (Hfoot : footer = idx ++ sb ++ (rh ++ body) ++ ci) by (rewrite Hft; unfold rh; by rewrite <-!app_assoc). clear Hft.
  assert (Hidx : len_bytes idx = n * 52) by (unfold idx, n; rewrite encodeBlockIndex_length, infos_at_length; done).
  pose proof (len_pos (frames bs)). pose proof (len_pos idx). pose proof (len_pos body). pose proof (len_pos ci). pose proof (se_count _ _ Hse) as Hcount. pose proof (se_few _ _ Hse) as Hfew. unfold few in Hfew.
  assert (Hsize : len_bytes content = 256 + len_bytes (frames bs) + len_bytes idx + len_bytes sb + (8 + len_bytes body) + len_bytes ci).
  { unfold content. rewrite !len_app, Hhb, Hfoot, !len_app, Hrh. lia. }
  unfold maxInt, maxBlockCountLimit, collectionIndexHeaderSize, fits in *. unfold ReservedHeaderBytes in fo. change (Z.of_nat 4 * 8) with 32 in Hsz.
  rewrite (uint64_small fo), !(uint64_small (fo + _)) in Hh by (unfold fo; lia).
  set (o2 := fo + len_bytes idx) in *. rewrite !(uint64_small (o2 + _)) in Hh by (unfold o2, fo; lia). set (o3 := o2 + len_bytes sb) in *.
  rewrite (uint64_small (o3 + _)) in Hh by (unfold o3, o2, fo; lia). set (o4 := o3 + (8 + len_bytes body)) in *.
  set (h' := set_checksum c h) in *. assert (Hok : header_ok h').
  { unfold h', set_checksum. rewrite Hh. unfold header_ok. cbn. destruct Hin as (? & ? & ? & ?). cbn in *.
    split_and!; try done; try apply fits_uint32; try apply xxh3_range; unfold fits, o4, o3, o2, fo; lia. }
  eexists. split.
  - unfold Open. rewrite (proj2 (Z.ltb_ge _ ReservedHeaderBytes)) by (unfold ReservedHeaderBytes; lia).
    rewrite (pread_at ReservedHeaderBytes 0 content [] hb (frames bs ++ footer)), Ok_bind by done. rewrite (decodeHeader_encode h' Hok : decodeHeader hb = _), Ok_bind.
    assert (F1 : h_BlockCount h' = n) by (unfold h'; by rewrite Hh). assert (F2 : h_FooterOffset h' = fo) by (unfold h'; by rewrite Hh).
    assert (F3 : h_BlockIndexOffset h' = fo) by (unfold h'; by rewrite Hh). assert (F4 : h_DIDBloomOffset h' = o2) by (unfold h'; by rewrite Hh).
    assert (F5 : h_BlockDIDBloomOffset h' = o3) by (unfold h'; by rewrite Hh). assert (F6 : h_CollectionIndexOffset h' = o4) by (unfold h'; by rewrite Hh).
    assert (F7 : h_Checksum h' = c) by (unfold h'; by rewrite Hh). 
    assert (G0 : validateHeaderOffsets h' (len_bytes content) = Ok tt).
    { unfold validateHeaderOffsets. rewrite F2, F3, F4, F5, F6, Z.eqb_refl. rewrite !(proj2 (Z.ltb_ge _ _)) by (unfold ReservedHeaderBytes, o4, o3, o2, fo; lia). done. }
    rewrite G0, Ok_bind, F1, F2, F3, F4, F5, F6, F7. rewrite (proj2 (Z.ltb_ge maxBlockCountLimit n)) by (unfold maxBlockCountLimit; lia).
    assert (G1 : (if 0 <? n * blockIndexEntrySize then pread (n * blockIndexEntrySize) fo content else Ok []) = Ok idx).
    { destruct (0 <? n * blockIndexEntrySize) eqn:E.
      - apply (pread_at _ _ _ (hb ++ frames bs) idx (sb ++ (rh ++ body) ++ ci)); [unfold content; by rewrite Hfoot, <-!app_assoc|rewrite len_app, Hhb; done|by rewrite Hidx].
      - apply Z.ltb_ge in E. unfold blockIndexEntrySize in E. destruct idx; [done|]. unfold len_bytes in Hidx. simpl in Hidx. lia. }
    assert (Hdec : decodeBlockIndex idx n = Ok (infos_at ReservedHeaderBytes bs)).
    { unfold n. rewrite <-(infos_at_length ReservedHeaderBytes bs). apply decodeBlockIndex_encode, infos_ok; [apply Hse|apply Hse|done|unfold ReservedHeaderBytes, maxInt; lia]. }
    rewrite G1, Ok_bind, Hdec, Ok_bind.
    unfold validateBlockOffsets. rewrite validate_ok, Ok_bind by (first [apply Hse|done|unfold fo, maxInt, ReservedHeaderBytes; lia]).
    rewrite (proj2 (Z.ltb_lt 0 _)) by (unfold o3; lia).
    rewrite (pread_at (o3 - o2) o2 content (hb ++ frames bs ++ idx) sb ((rh ++ body) ++ ci)); [|unfold content; by rewrite Hfoot, <-!app_assoc|rewrite !len_app, Hhb; unfold o2, fo; lia|unfold o3; lia].
    rewrite Ok_bind, Hsb, Ok_bind.
    rewrite (pread_at blockBloomsRegionHeaderSize o3 content (hb ++ frames bs ++ idx ++ sb) rh (body ++ ci)); [|unfold content; by rewrite Hfoot, <-!app_assoc|rewrite !len_app, Hhb; unfold o3, o2, fo; lia|done].
    rewrite Ok_bind. unfold decodeBlockBloomsRegionHeader. rewrite Hrh. change (8 <? blockBloomsRegionHeaderSize) with false. cbv iota.
    assert (G2 : le_at 0 4 rh = n) by (apply le_at_0; unfold fits; lia). assert (G3 : le_at 4 4 rh = sz) by (unfold rh; rewrite <-(app_nil_r (le_split 4 sz)); field; unfold fits; lia).
    rewrite Ok_bind. cbv beta iota. rewrite G2, G3, Z.eqb_refl. cbn [negb]. unfold blockBloomsRegionHeaderSize. rewrite <-Hbody, uint64_small by lia.
    rewrite (proj2 (Z.eqb_eq _ _)) by (unfold o4; lia). cbn [negb].
    assert (G4 : (if skip then Ok () else footerBytes ← pread (len_bytes content - fo) fo content;
        if negb (xxh3HeaderFooter (take 4 hb ++ repeat x00 8 ++ drop 12 hb) footerBytes =? c) then Err ErrChecksumMismatch else Ok ()) = Ok ()).
    { destruct skip; [done|]. rewrite (pread_at (len_bytes content - fo) fo content (hb ++ frames bs) footer []);
        [|unfold content; by rewrite app_nil_r, <-!app_assoc|rewrite !len_app, Hhb; done|unfold content; rewrite !len_app, Hhb; unfold fo; lia]. rewrite Ok_bind.
      assert (G5 : drop 12 (take 4 hb ++ repeat x00 8 ++ drop 12 hb) = drop 12 (encodeHeader h)).
      { rewrite !drop_app_ge by (rewrite ?length_take, ?repeat_length; unfold len_bytes in Hhb; lia). rewrite length_take, repeat_length.
        replace (12 - 4 `min` length hb - 8)%nat with O by (unfold len_bytes in Hhb; lia). rewrite drop_0. apply header_tail. }
      unfold xxh3HeaderFooter at 1. rewrite G5. fold (xxh3HeaderFooter (encodeHeader h) footer). fold c. by rewrite Z.eqb_refl. }
    rewrite G4, Ok_bind. rewrite (proj2 (Z.ltb_ge _ _)) by (unfold o4, o3, o2, fo, collectionIndexHeaderSize; lia).
    rewrite (pread_at (len_bytes content - o4) o4 content (hb ++ frames bs ++ idx ++ sb ++ rh ++ body) ci []);
      [|unfold content; by rewrite Hfoot, app_nil_r, <-!app_assoc|rewrite !len_app, Hhb, Hrh; unfold o4, o3, o2, fo; lia|unfold o4, o3, o2, fo; lia].
    rewrite Ok_bind, Hcid, Ok_bind. cbn [blockBitmasks]. rewrite <-(Forall2_length _ _ _ Hsame), (Forall2_length _ _ _ (wk_colls _ _ _ Hw)).
    unfold stored. rewrite length_map. fold n. rewrite uint32_small, Z.eqb_refl by lia. cbn [negb]. reflexivity.
  - split; cbn [rd_file rd_header rd_blocks rd_segmentBloom rd_parsedCollections]; [done|done|done|by exists bloom| |by exists masks].
    intros Hne. destruct (Hun Hne) as [Hpos Hu]. exists fs. split; [|done]. unfold LoadAllBlockBlooms. cbn [rd_file rd_header rd_blocks rd_perBlockBloomSize].
    rewrite infos_at_length. fold n. assert (Hn0 : 0 < n) by (destruct bs; [done|unfold n; simpl; lia]).
    rewrite (proj2 (Z.eqb_neq n 0)), (proj2 (Z.eqb_neq sz 0)) by lia. rewrite <-Hbody, uint64_small by lia. rewrite (proj2 (Z.ltb_ge _ _)) by (unfold maxInt; lia).
    assert (F5 : h_BlockDIDBloomOffset h' = o3) by (unfold h'; by rewrite Hh). rewrite F5.
    rewrite (pread_at _ _ content (hb ++ frames bs ++ idx ++ sb ++ rh) body ci);
      [|unfold content; by rewrite Hfoot, <-!app_assoc|rewrite !len_app, Hhb, Hrh; unfold blockBloomsRegionHeaderSize, o3, o2, fo; lia|done].
    by rewrite Ok_bind, Hu.
Qed.

(** ** What a reader answers *)

Lemma omap_imap_select (d : string) (fs : list Filter) : ∀ i f k, fs !! i = Some f → adds d f →
  Z.of_nat (k + i) ∈ omap (λ ib : nat * option Filter, if passes ib.2 d then Some (Z.of_nat ib.1) else None) (imap (λ j f, (k + j, Some f)%nat) fs).
Proof.
  intros i f k Hf Ha. apply list_elem_of_omap. exists ((k + i)%nat, Some f). split; [|cbn; by rewrite Ha].
  apply list_elem_of_lookup. exists i. by rewrite list_lookup_imap, Hf.
Qed.

Lemma BlocksContainingDID_reads bs walk content h rd i b d : reads bs walk content h rd → bs !! i = Some b → has_did d b →
  Z.of_nat i ∈ BlocksContainingDID rd d.
Proof.
  intros [_ _ Rb (bloom & Rs & Hs) Rf _] Hi Hd. assert (Hne : bs ≠ []) by (intros ->; done).
  destruct (Rf Hne) as (fs & Hfs & Hall). unfold BlocksContainingDID. rewrite Rs. cbn [passes].
  assert (Hin : has_did d (concat bs)).
  { destruct Hd as (? & ev & ? & ?). split; [done|]. exists ev. split; [|done]. apply list_elem_of_In, in_concat. exists b. split; apply list_elem_of_In; [by eapply list_elem_of_lookup_2|done]. }
  rewrite (Hs d Hin). cbn [negb]. destruct (rd_blocks rd) eqn:E; [rewrite Rb in E; destruct bs; done|]. rewrite Hfs.
  destruct (Forall2_lookup_r _ _ _ _ _ Hall Hi) as (f & Hf & Ha). unfold SelectBlocksForDID. cbn [passes negb].
  pose proof (omap_imap_select d fs i f 0 Hf (Ha d Hd)) as Hsel. cbn [Nat.add] in Hsel. rewrite imap_fmap. exact Hsel.
Qed.

Lemma DecodeBlock_reads bs walk content h rd i b footer hb : reads bs walk content h rd → Forall block_ok bs → Forall frame_small bs →
  len_bytes hb = ReservedHeaderBytes → content = hb ++ frames bs ++ footer → len_bytes content ≤ maxInt → bs !! i = Some b →
  DecodeBlock rd (Z.of_nat i) = Ok (map persisted b).
Proof.
  intros [Rf _ Rb _ _ _] Hb Hfr Hhb Hc Hs Hi. unfold DecodeBlock. rewrite (proj2 (Z.ltb_ge (Z.of_nat i) 0)), Nat2Z.id by lia.
  rewrite Rb, (infos_at_lookup bs _ i b Hi), Rf. pose proof (take_drop_middle bs i b Hi) as Hsplit.
  set (off := ReservedHeaderBytes + len_bytes (frames (take i bs))). assert (Hfb : block_ok b) by (by eapply Forall_lookup_1). assert (Hfs : frame_small b) by (by eapply Forall_lookup_1).
  assert (Hframes : frames bs = frames (take i bs) ++ frame_of b ++ frames (drop (S i) bs)).
  { rewrite <-Hsplit at 1. unfold frames. by rewrite flat_map_app. }
  pose proof (len_pos (frames (take i bs))). pose proof (len_pos (frame_of b)). pose proof (len_pos (frames (drop (S i) bs))). pose proof (len_pos footer).
  rewrite Hc, Hframes, !len_app, Hhb in Hs. unfold ReservedHeaderBytes, maxInt in *.
  destruct (info_at_spec off b Hfb Hfs) as (E1 & E2 & _); [unfold fits, off; lia|]. rewrite E1. rewrite frame_len in E2.
  assert (E3 : bi_CompressedSize (info_at off b) = len_bytes (EncodeAll (encodeBlockColumns (eventColumns b)))) by lia. rewrite E3.
  rewrite (pread_at _ _ content (hb ++ frames (take i bs) ++ le_split 8 (uint64 (len_bytes (EncodeAll (encodeBlockColumns (eventColumns b))))))
    (EncodeAll (encodeBlockColumns (eventColumns b))) (frames (drop (S i) bs) ++ footer)), Ok_bind.
  - by rewrite (frame_decodes_sized b Hfb), Ok_bind.
  - rewrite Hc, Hframes. unfold frame_of. by rewrite <-!app_assoc.
  - rewrite !len_app, len_le_split, Hhb. unfold off. lia.
  - done.
Qed.

Lemma BlockCollections_reads bs walk content h rd i b : reads bs walk content h rd → walked ReservedHeaderBytes bs walk → bs !! i = Some b →
  ∃ ids, BlockCollections rd (Z.of_nat i) = Ok ids ∧ ids_name (Collections rd) ids (λ c, named c b).
Proof.
  intros [_ _ _ _ _ (masks & Rc & Hsame)] [_ _ _ _ Kc _ _ _] Hi. assert (Hi' : stored bs !! i = Some (map persisted b)) by (unfold stored; by rewrite list_lookup_fmap, Hi).
  destruct (Forall2_lookup_r _ _ _ _ _ Kc Hi') as (ids & Hids & Hn). destruct (Forall2_lookup_l _ _ _ _ _ Hsame Hids) as (ids' & Hids' & Hs).
  exists ids'. unfold BlockCollections, Collections. rewrite Rc. cbn [stringTable blockBitmasks]. pose proof (lookup_lt_Some _ _ _ Hids').
  rewrite (proj2 (Z.ltb_ge _ 0)), (proj2 (Z.leb_gt _ _)), Nat2Z.id by lia. cbn [orb]. split; [f_equal; by apply nth_lookup_Some|].
  apply (ids_name_same _ ids); [exact Hs|]. eapply ids_name_iff; [|exact Hn]. intros c. by rewrite named_persisted.
Qed.

(** ** Sealing *)

Context `{SegIO}.

(** The blocks of the file once the buffer is flushed. *)
Definition with_pending (blocks : list (list Event)) (pend : list Event) : list (list Event) :=
  match pend with [] => blocks | _ => blocks ++ [pend] end.

Lemma flushLocked_open w blocks pend : open_ok w blocks [] [] pend → Forall block_ok (with_pending blocks pend) → len_bytes (header_bytes ++ frames blocks) ≤ maxInt →
  match flushLocked w with
  | (w', Ok _) => open_ok w' (with_pending blocks pend) [] [] [] ∧ len_bytes (header_bytes ++ frames (with_pending blocks pend)) ≤ maxInt
  | (_, Err e) => ∃ op, e = ErrIO op
  end.
Proof.
  intros Ho Hb Hs. pose proof (pending_count _ _ _ _ _ Ho) as Hc. destruct Ho as [Ec Ek Ef Eo Ep Ei].
  unfold flushLocked, get, mbind at 1, StateM_bind at 1. rewrite Ek, Hc. destruct pend as [|ev pend]; [by split|]. cbn [with_pending] in *.
  rewrite (proj2 (Z.eqb_neq _ 0)) by (simpl; lia). rewrite Ep. cbv zeta. apply Forall_app in Hb as [Hb _].
  pose proof (write_block_spec w blocks (ev :: pend) (pending_info w (len_bytes (encodeBlockInto [] (eventColumns (ev :: pend))))) (set_pending no_pending) Ef Eo Hb Hs ltac:(done)) as Hw.
  destruct (write_block _ _ _ w) as [w' [[]|e]]; [|by destruct Hw as (_ & ? & _)]. destruct Hw as (Hm & i & n & f & w1 & -> & -> & Hoff). split; [by split|done].
Qed.

Lemma WriteAt_header a b x w : sw_file w = mkFile (a ++ b) (length (a ++ b)) → length x = length a →
  match WriteAt x 0 w with
  | (w', Ok _) => f_data (sw_file w') = x ++ b ∧ len_bytes x ≤ maxInt
  | (_, Err e) => ∃ op, e = ErrIO op
  end.
Proof.
  intros Hf Hl. unfold WriteAt, mbind, StateM_bind, get, modify, throw. destruct (maxInt <? 0 + len_bytes x) eqn:E; [by eexists|]. apply Z.ltb_ge in E.
  destruct (write_fails (sw_calls w)) as [[e n]|]; [by eexists|]. cbn [sw_file set_file]. rewrite Hf. unfold file_write. cbn [f_data Z.to_nat take app Nat.add].
  split; [|lia]. by rewrite drop_app_ge, Hl, Nat.sub_diag, drop_0 by lia.
Qed.

(** What sealing leaves in the file. *)
Lemma sealAfterFlush_ok cs w bs : open_ok w bs [] [] [] → sealable cs bs → len_bytes (header_bytes ++ frames bs) ≤ maxInt →
  match sealAfterFlush w with
  | (w', Ok r) => ∃ walk footer h, let c := xxh3HeaderFooter (encodeHeader h) footer in let content := encodeHeader (set_checksum c h) ++ frames bs ++ footer in
      walked ReservedHeaderBytes bs walk ∧ footer_ok bs walk (ReservedHeaderBytes + len_bytes (frames bs)) footer h ∧ len_bytes content ≤ maxInt ∧
      sw_file w' = mkFile content (length content) ∧ sr_Checksum r = c
  | (_, Err e) => ∃ op, e = ErrIO op
  end.
Proof.
  intros [_ _ Ef _ _ _] Hse Hs. set (d := header_bytes ++ frames bs) in *.
  assert (Hwalk : ∃ walk, walkActiveFrames d = Ok walk ∧ walked ReservedHeaderBytes bs walk).
  { destruct (walk_few bs (se_few _ _ Hse) (se_blocks _ _ Hse) Hs) as (walk & Hw & _). exists walk. split; [done|].
    apply walk_blocks_walked; [|apply Hse]. rewrite <-Hw. symmetry. by apply walkActiveFrames_frames; [apply Hse|]. }
  destruct Hwalk as (walk & Hwalk & Hw). destruct (buildFooter_ok cs bs walk (ReservedHeaderBytes + len_bytes (frames bs)) Hse Hw) as (footer & h & Hbf & Hft).
  assert (Hd : len_bytes d = ReservedHeaderBytes + len_bytes (frames bs)) by (unfold d; by rewrite len_app, header_length).
  unfold sealAfterFlush, get, mbind at 1, StateM_bind at 1. rewrite Ef. change (f_data (whole_file bs)) with d. cbv zeta. unfold mbind, StateM_bind.
  unfold lift at 1. rewrite Hwalk, Hd. unfold lift at 1. rewrite Hbf, <-Hd. cbv iota beta.
  set (c := xxh3HeaderFooter (encodeHeader h) footer). set (hb := encodeHeader (set_checksum c h)).
  pose proof (WriteAt_end d footer w Ef) as H1'. destruct (sticky (WriteAt footer _) w) as [w1 [[]|e]]; [|by destruct H1' as (_ & ? & _)]. destruct H1' as [-> Hm].
  pose proof (Sync_result (set_file (mkFile (d ++ footer) (length d)) (seg_tick w))) as H2'. destruct (sticky Sync _) as [w2 [[]|e]]; [|by destruct H2' as (_ & ? & _)].
  assert (Hf2 : sw_file w2 = mkFile (header_bytes ++ (frames bs ++ footer)) (length (header_bytes ++ (frames bs ++ footer)))) by (rewrite H2', app_assoc; done).
  pose proof (WriteAt_header header_bytes _ hb w2 Hf2 (encodeHeader_length _)) as H3'. unfold catch at 1. destruct (WriteAt hb 0 w2) as [w3 [[]|e]].
  - pose proof (Sync_result w3) as H4'. destruct (sticky Sync w3) as [w4 [[]|e]]; [|by destruct H4' as (_ & ? & _)]. destruct H3' as [H3' _].
    exists walk, footer, h. fold c. fold hb. cbv zeta. rewrite H4'. cbn [sw_file set_file file_sync]. unfold file_sync. rewrite H3'. split_and!; [done|by rewrite Hd| |done|done].
    unfold d in Hm. rewrite len_app, header_length in Hm. rewrite !len_app. unfold len_bytes at 1, hb. rewrite encodeHeader_length. unfold ReservedHeaderBytes in *. lia.
  - unfold attempt. destruct (truncateFooterTail _ w3) as [w4 r]. exact H3'.
Qed.

(** A file that was sealed over these blocks. *)
Definition sealed_file (cs : gset string) (bs : list (list Event)) (content : bytes) : Prop :=
  ∃ walk footer h, let c := xxh3HeaderFooter (encodeHeader h) footer in
    content = encodeHeader (set_checksum c h) ++ frames bs ++ footer ∧ sealable cs bs ∧ walked ReservedHeaderBytes bs walk ∧
    footer_ok bs walk (ReservedHeaderBytes + len_bytes (frames bs)) footer h ∧ len_bytes content ≤ maxInt ∧ c ≠ 0.

Lemma Seal_file cs w blocks pend k :
  let bs := with_pending blocks pend in
  open_ok w blocks [] [] pend → sealable cs bs → len_bytes (header_bytes ++ frames blocks) ≤ maxInt →
  match Seal w with
  | (w', Ok r) => sr_Checksum r ≠ 0 → sealed_file cs bs (f_data (crash k (sw_file w')))
  | (_, Err e) => ∃ op, e = ErrIO op
  end.
Proof.
  intros bs Ho Hse Hs. pose proof (flushLocked_open w blocks pend Ho (se_blocks _ _ Hse) Hs) as Hfl. fold bs in Hfl.
  unfold Seal, get, mbind at 1, StateM_bind at 1. rewrite (oo_closed _ _ _ _ _ Ho), (oo_sticky _ _ _ _ _ Ho).
  destruct (oo_prepared _ _ _ _ _ Ho) as (id & _ & Hids). rewrite Hids. cbn [preparedOutstanding length]. change (0 <? uint64 (Z.of_nat 0)) with false. cbv iota.
  unfold mbind, StateM_bind. destruct (flushLocked w) as [w1 [[]|e]]; [|done]. destruct Hfl as [Ho1 Hs1].
  pose proof (sealAfterFlush_ok cs w1 bs Ho1 Hse Hs1) as Hsl. destruct (sealAfterFlush w1) as [w2 [r|e]]; [|done].
  destruct Hsl as (walk & footer & h & Hw & Hft & Hm & Hf & Hc). unfold modify, mret, StateM_ret. cbn [sw_file set_closed]. rewrite Hf, Hc. intros Hc0.
  unfold crash. cbn [f_data f_synced]. rewrite take_ge by lia. by exists walk, footer, h.
Qed.

(** C34 (roundtrip): what was sealed is what a reader of the file gets.  A writer whose
    blocks and buffer hold the blocks [bs], within the limits of the format and with
    increasing sequence numbers, seals its file, unless an I/O call fails.  Then, also
    after a crash, and with or without the check of the checksum (which must not be 0,
    the mark of an active file), [Open] accepts the file: the header counts its blocks
    and events and bounds their numbers and times; each block decodes to its events
    as they were appended; the Bloom filters let every DID find all its blocks; and
    the collection index names for each block exactly the collections, and the markers
    of accounts, that occur in it. *)
Theorem sealed_segment_readable cs w blocks pend skip k :
  let bs := with_pending blocks pend in
  open_ok w blocks [] [] pend → sealable cs bs → len_bytes (header_bytes ++ frames blocks) ≤ maxInt →
  match Seal w with
  | (w', Ok r) => sr_Checksum r ≠ 0 →
      ∃ rd, Open skip (f_data (crash k (sw_file w'))) = Ok rd ∧
        h_BlockCount (rd_header rd) = Z.of_nat (length bs) ∧ h_EventCount (rd_header rd) = Z.of_nat (length (concat bs)) ∧
        (∀ ev, ev ∈ concat bs → h_MinSeq (rd_header rd) ≤ ev_Seq ev ≤ h_MaxSeq (rd_header rd) ∧
           h_MinWitnessedAt (rd_header rd) ≤ ev_WitnessedAt ev ≤ h_MaxWitnessedAt (rd_header rd)) ∧
        ∀ i b, bs !! i = Some b →
          DecodeBlock rd (Z.of_nat i) = Ok (map persisted b) ∧
          (∀ d, has_did d b → Z.of_nat i ∈ BlocksContainingDID rd d) ∧
          ∃ ids, BlockCollections rd (Z.of_nat i) = Ok ids ∧ ∀ c, named c b ↔ ∃ id, id ∈ ids ∧ Collections rd !! Z.to_nat id = Some c
  | (_, Err e) => ∃ op, e = ErrIO op
  end.
Proof.
  intros bs Ho Hse Hs. pose proof (Seal_file cs w blocks pend k Ho Hse Hs) as Hsl. fold bs in Hsl. destruct (Seal w) as [w' [r|e]]; [|done]. intros Hc0.
  destruct (Hsl Hc0) as (walk & footer & h & Hf & _ & Hw & Hft & Hm & Hc). rewrite Hf in Hm |- *. destruct (Open_ok cs bs walk footer h skip Hse Hw Hft Hm Hc) as (rd & Hrd & Hreads).
  exists rd. split; [done|]. rewrite (rs_header _ _ _ _ _ Hreads). destruct Hft as (? & ? & ? & ? & ? & ? & ? & ? & minSeq & maxSeq & minW & maxW & _ & _ & _ & _ & Hh & _ & Har).
  split_and!; [by rewrite Hh|by rewrite Hh| |].
  - intros ev Hev. rewrite Hh. cbn. destruct (Har ev Hev) as [? ?]. cbn in *. split; lia.
  - intros i b Hi. split_and!.
    + eapply DecodeBlock_reads; [exact Hreads|apply Hse|apply Hse|unfold len_bytes; by rewrite encodeHeader_length|done|done|done].
    + intros d Hd. by eapply BlocksContainingDID_reads.
    + destruct (BlockCollections_reads _ _ _ _ _ _ _ Hreads Hw Hi) as (ids & Hids' & _ & Hn). by exists ids.
Qed.
End sealed.

(** ** A concrete file *)

#[local] Existing Instance demo_zstd.
#[local] Existing Instance demo_laws.
#[local] Existing Instance demo_io.

(** A Bloom filter of eight bits, with the length for a hash, and a sum for xxh3. *)
Definition bit_of (s : string) : Z := len s mod 8.
#[local] Instance demo_seal : SealLibs := {|
  Filter := byte;
  gloom_New _ := x00;
  AddString f s := byte.of_Z (Z.lor (byte.unsigned f) (Z.shiftl 1 (bit_of s)));
  TestString f s := Z.testbit (byte.unsigned f) (bit_of s);
  MarshalBinary f := Ok [f];
  UnmarshalBinary b := match b with [f] => Some f | _ => None end;
  xxh3 b := 1 + foldr Z.add 0 (map byte.unsigned b) mod 2 ^ 32;
  map_order X := elements X;
|}.

Lemma bit_of_range s : 0 ≤ bit_of s < 8.
Proof. apply Z.mod_pos_bound. done. Qed.

Lemma demo_add f s j : 0 ≤ j < 8 → Z.testbit (byte.unsigned (AddString f s)) j = Z.testbit (byte.unsigned f) j || (bit_of s =? j).
Proof.
  intros Hj. pose proof (bit_of_range s). cbn [AddString demo_seal]. rewrite byte.unsigned_of_Z. unfold byte.wrap.
  rewrite Z.mod_pow2_bits_low, Z.lor_spec, Z.shiftl_1_l, Z.pow2_bits_eqb by lia. done.
Qed.

Lemma demo_adds dids : ∀ f j, 0 ≤ j < 8 → Z.testbit (byte.unsigned (foldl AddString f dids)) j = Z.testbit (byte.unsigned f) j || existsb (λ s, bit_of s =? j) dids.
Proof.
  induction dids as [|d dids IH]; intros f j Hj; cbn [foldl existsb]; [by rewrite orb_false_r|]. by rewrite IH, demo_add, orb_assoc by done.
Qed.

#[local] Instance demo_seal_laws : SealLaws.
Proof.
  constructor.
  - intros X x. apply elem_of_elements.
  - intros f. exists [f]. done.
  - intros n dids dids' b b' [= <-] [= <-]. done.
  - intros n dids b _ [= <-]. done.
  - intros n dids did Hd. unfold TestString at 1, demo_seal at 1. rewrite demo_adds by apply bit_of_range.
    apply orb_true_iff. right. apply existsb_exists. exists did. split; [by apply list_elem_of_In|apply Z.eqb_refl].
  - intros b. cbn [xxh3 demo_seal]. pose proof (Z.mod_pos_bound (foldr Z.add 0 (map byte.unsigned b)) (2 ^ 32) ltac:(done)). unfold fits. lia.
Qed.

(** Two blocks in the file, and an event in the buffer. *)
Definition sealed_writer : SegWriter :=
  mkSegWriter (whole_file demo_blocks) (append_pending no_pending (demo_event 4)) false None (wr_infos demo_walk)
    (len_bytes (header_bytes ++ frames demo_blocks)) 10 (mkIds 0 0 0).

Lemma sealed_segment_readable_witness : ∃ rd ids,
  Open false (f_data (crash 0 (sw_file (Seal sealed_writer).1))) = Ok rd ∧ h_EventCount (rd_header rd) = 4 ∧
  DecodeBlock rd 2 = Ok [persisted (demo_event 4)] ∧ 2 ∈ BlocksContainingDID rd "did:plc:a" ∧ BlockCollections rd 2 = Ok ids ∧
  ∃ id, id ∈ ids ∧ Collections rd !! Z.to_nat id = Some "org.hypercerts.claim".
Proof.
  assert (Ho : open_ok sealed_writer demo_blocks [] [] [demo_event 4]).
  { split; [reflexivity|reflexivity|reflexivity|reflexivity|vm_compute; reflexivity|]. exists 0. split; [exact I|reflexivity]. }
  assert (Hse : sealable {["org.hypercerts.claim"]} (demo_blocks ++ [[demo_event 4]])).
  { split; [repeat constructor; done| | |done|vm_compute; reflexivity| |vm_compute; discriminate|vm_compute; discriminate].
    - repeat (apply Forall_cons; split; [vm_compute; reflexivity|]). apply Forall_nil. exact I.
    - cbn [demo_blocks app concat]. repeat (apply SSorted_cons; [|repeat (apply Forall_cons; split; [vm_compute; reflexivity|]); apply Forall_nil; exact I]). apply SSorted_nil.
    - intros c (Hc & ev & Hev & Hn). apply elem_of_singleton. cbn in Hev. rewrite !elem_of_cons, elem_of_nil in Hev.
      destruct Hev as [->|[->|[->|[->|[]]]]]; destruct Hn as [Hn|Hn]; cbn in Hn; congruence. }
  pose proof (sealed_segment_readable {["org.hypercerts.claim"]} sealed_writer demo_blocks [demo_event 4] false 0 Ho Hse ltac:(vm_compute; discriminate)) as Ht.
  assert (Hc : match (Seal sealed_writer).2 with Ok r => sr_Checksum r | Err _ => 0 end ≠ 0) by (vm_compute; discriminate).
  destruct (Seal sealed_writer) as [w' [r|e]]; [|destruct Hc; reflexivity]. destruct (Ht Hc) as (rd & H1 & _ & H2 & _ & H3).
  destruct (H3 2%nat [demo_event 4] eq_refl) as (H4 & H5 & ids & H6 & H7). exists rd, ids. split; [exact H1|]. split; [exact H2|]. split; [exact H4|].
  split; [apply (H5 "did:plc:a"); split; [discriminate|exists (demo_event 4); split; [by apply list_elem_of_singleton|reflexivity]]|]. split; [exact H6|].
  apply (H7 "org.hypercerts.claim"). split; [discriminate|]. exists (demo_event 4). split; [by apply list_elem_of_singleton|]. left. reflexivity.
Defined.
