(* ===== verification/Manifest.v ===== *)
(** * The manifest of sealed segments and the plan of an archive read

    [src/jetstream/internal/manifest] keeps the metadata of every sealed segment in
    memory ([manifest.go]): it is read when the manifest is opened, and refreshed when a
    segment was sealed or compacted.  [PlanSnapshot] ([plan.go]) answers which segments
    and blocks a reader with a filter has to download, in pages.  The handler of the
    XRPC method ([internal/xrpcapi/plansnapshot.go]) and the client's pages
    ([planner.go], [sweepSealedArchive] in [client_core.go]) are modelled with it.

    A look-up returns the metadata of a segment, of which the code copies the fields
    of its result.  Modification times and metrics are left out, the wait for a load in the background
    is a manifest that has its [m_loadErr], and a [Seq] or an index is a [Z].  The syntax
    of DIDs and NSIDs is that of the library atmos, which with the [float64] of the
    density is a class of parameters. *)

From S2P Require Import Prelude GoStrings StateMonad Segment SegSeal.
Local Open Scope Z_scope.

Inductive man_err : Type :=
| ErrInvalidPlanRequest | ErrSegmentSeqOverlap | ErrUnknownSegment | ErrAppearsActive | ErrStat
| ErrSegment (e : seg_err) | ErrXRPC (message : string) | ErrNoProgress | ErrDownload.

(** [sort.Search]: the least index where [f] holds, if it holds from there on. *)
Fixpoint search_loop (fuel : nat) (f : nat → bool) (i j : nat) : nat :=
  match fuel with
  | O => i
  | S fuel =>
      if (i <? j)%nat then
        let h := ((i + j) / 2)%nat in
        if negb (f h) then search_loop fuel f (S h) j else search_loop fuel f i h
      else i
  end.
Definition sort_Search (n : nat) (f : nat → bool) : nat := search_loop n f 0 n.

(** ** The state *)

Section manifest.
Context `{Zstd} `{SealLibs}.

Record SegmentMetadata := mkMeta {
  sm_Idx : Z; sm_Path : string; sm_MinSeq : Z; sm_MaxSeq : Z; sm_MinWitnessedAt : Z; sm_MaxWitnessedAt : Z;
  sm_FileSize : Z; sm_Header : Header;
  sm_Blocks : list BlockInfo; sm_SegmentBloom : option Filter; sm_BlockBlooms : list (option Filter);
  sm_Collections : list string; sm_CollectionEventCounts : list Z; sm_BlockCollections : list (list Z);
}.

Record Manifest := mkManifest { m_segments : list SegmentMetadata; m_generation : Z; m_loadErr : option man_err }.
Abbreviation M := (StateM Manifest man_err).

Fixpoint block_collections (r : Reader) (blocks : list nat) : result seg_err (list (list Z)) :=
  match blocks with
  | [] => Ok []
  | i :: blocks => ids ← BlockCollections r (Z.of_nat i); rest ← block_collections r blocks; Ok (ids :: rest)
  end.

(** [None] is an active segment. *)
Definition readSealedMetadata (fs : gmap string bytes) (idx : Z) (path : string) (verifyChecksum : bool) : result man_err (option SegmentMetadata) :=
  match fs !! path with
  | None => Err ErrStat
  | Some content =>
      match Open (negb verifyChecksum) content with
      | Err ErrActiveSegment => Ok None
      | Err e => Err (ErrSegment e)
      | Ok r =>
          let h := rd_header r in
          match block_collections r (seq 0 (length (rd_blocks r))) with
          | Err e => Err (ErrSegment e)
          | Ok blockCollections =>
              match LoadAllBlockBlooms r with
              | Err e => Err (ErrSegment e)
              | Ok blockBlooms =>
                  Ok (Some (mkMeta idx path (h_MinSeq h) (h_MaxSeq h) (h_MinWitnessedAt h) (h_MaxWitnessedAt h) (len_bytes content) h
                    (rd_blocks r) (rd_segmentBloom r) (map Some blockBlooms) (Collections r) (CollectionEventCounts r) blockCollections))
              end
          end
      end
  end.

(** Empty segments keep the bounds they had and do not count. *)
Fixpoint seq_monotonic (prev : option Z) (segs : list SegmentMetadata) : result man_err unit :=
  match segs with
  | [] => Ok tt
  | s :: segs =>
      if h_EventCount (sm_Header s) =? 0 then seq_monotonic prev segs
      else if match prev with Some p => sm_MinSeq s <=? p | None => false end then Err ErrSegmentSeqOverlap
      else seq_monotonic (Some (sm_MaxSeq s)) segs
  end.
Definition validateSegmentSeqMonotonicity (segs : list SegmentMetadata) : result man_err unit := seq_monotonic None segs.

Fixpoint loadSealedMetadata (fs : gmap string bytes) (files : list (Z * string)) : result man_err (list SegmentMetadata) :=
  match files with
  | [] => Ok []
  | (idx, path) :: files =>
      meta ← readSealedMetadata fs idx path false;
      rest ← loadSealedMetadata fs files;
      Ok (match meta with Some meta => meta :: rest | None => rest end)
  end.

(** [sort.Slice] by index; the files are sorted already. *)
Fixpoint insert_by_idx (s : SegmentMetadata) (segs : list SegmentMetadata) : list SegmentMetadata :=
  match segs with [] => [s] | x :: segs' => if sm_Idx s <=? sm_Idx x then s :: segs else x :: insert_by_idx s segs' end.
Definition sort_by_idx (segs : list SegmentMetadata) : list SegmentMetadata := foldr insert_by_idx [] segs.

(** [load] and [finishLoad] *)
Definition manifest_load (fs : gmap string bytes) (files : list (Z * string)) (m : Manifest) : Manifest :=
  match loadSealedMetadata fs files with
  | Err e => mkManifest (m_segments m) (m_generation m) (Some e)
  | Ok loaded =>
      let segs := sort_by_idx loaded in
      mkManifest segs (uint64 (m_generation m + 1)) (match validateSegmentSeqMonotonicity segs with Ok _ => None | Err e => Some e end)
  end.

Definition waitReady : M unit := m ← get; match m_loadErr m with Some e => throw e | None => mret tt end.

Definition refreshSegment (fs : gmap string bytes) (idx : Z) (path : string) (verifyChecksum : bool) : M unit :=
  waitReady ;;
  meta ← lift (readSealedMetadata fs idx path verifyChecksum);
  match meta with
  | None => throw ErrAppearsActive
  | Some meta =>
      m ← get;
      let segs := m_segments m in
      let i := sort_Search (length segs) (λ i, match segs !! i with Some s => idx <=? sm_Idx s | None => false end) in
      let next := match segs !! i with
        | Some s => if sm_Idx s =? idx then <[i := meta]> segs else take i segs ++ meta :: drop i segs
        | None => segs ++ [meta]
        end in
      lift (validateSegmentSeqMonotonicity next) ;;
      modify (λ m, mkManifest next (uint64 (m_generation m + 1)) (m_loadErr m))
  end.
Definition OnSegmentSealed (fs : gmap string bytes) (idx : Z) (path : string) : M unit := refreshSegment fs idx path false.
Definition OnSegmentCompacted (fs : gmap string bytes) (idx : Z) (path : string) : M unit := refreshSegment fs idx path true.

(** ** Look-ups *)

Definition SegmentForSeq (seq : Z) (m : Manifest) : option SegmentMetadata :=
  match m_loadErr m with
  | Some _ => None
  | None =>
      let segs := m_segments m in
      let i := sort_Search (length segs) (λ i, match segs !! i with Some s => seq <=? sm_MaxSeq s | None => false end) in
      match segs !! i with Some s => if seq <? sm_MinSeq s then None else Some s | None => None end
  end.

Definition SegmentForTimeUS (timeUS : Z) (m : Manifest) : option SegmentMetadata :=
  match m_loadErr m with
  | Some _ => None
  | None =>
      let segs := m_segments m in
      segs !! sort_Search (length segs) (λ i, match segs !! i with Some s => timeUS <=? sm_MaxWitnessedAt s | None => false end)
  end.

(** [now] and [lookback] in microseconds. *)
Definition LookbackFloor (now lookback : Z) (m : Manifest) : Z * Z :=
  match m_loadErr m with
  | Some _ => (0, 0)
  | None =>
      match SegmentForTimeUS (now - lookback) m with
      | Some s => (sm_MinSeq s, sm_MinWitnessedAt s)
      | None => match last (m_segments m) with Some s => (sm_MinSeq s, sm_MinWitnessedAt s) | None => (0, 0) end
      end
  end.

Definition SegmentByIdx (idx : Z) (m : Manifest) : option SegmentMetadata :=
  match m_loadErr m with
  | Some _ => None
  | None =>
      let segs := m_segments m in
      match segs !! sort_Search (length segs) (λ i, match segs !! i with Some s => idx <=? sm_Idx s | None => false end) with
      | Some s => if sm_Idx s =? idx then Some s else None
      | None => None
      end
  end.

(** The entries, and the index of the next page if there are more. *)
Definition ListFrom (startIdx limit : Z) (m : Manifest) : list SegmentMetadata * option Z :=
  match m_loadErr m with
  | Some _ => ([], None)
  | None =>
      if limit <=? 0 then ([], None)
      else
        let segs := m_segments m in
        let start := sort_Search (length segs) (λ i, match segs !! i with Some s => startIdx <=? sm_Idx s | None => false end) in
        let end_ := Nat.min (start + Z.to_nat limit) (length segs) in
        (take (end_ - start) (drop start segs), sm_Idx <$> segs !! end_)
  end.

(** [SelectBlocksForDID] of the manifest *)
Definition SelectSegmentsForDID (did : string) (m : Manifest) : result man_err (list (Z * string * list Z)) :=
  match m_loadErr m with
  | Some e => Err e
  | None => Ok (omap (λ s, match SelectBlocksForDID (sm_SegmentBloom s) (sm_BlockBlooms s) did with [] => None | blocks => Some (sm_Idx s, sm_Path s, blocks) end)
                  (m_segments m))
  end.

Definition ActiveSegmentPaths (files : list (Z * string)) (m : Manifest) : result man_err (list string) :=
  match m_loadErr m with
  | Some e => Err e
  | None => Ok (omap (λ f, if existsb (λ s, sm_Idx s =? f.1) (m_segments m) then None else Some f.2) files)
  end.

(** ** Plans *)

Inductive PlanMode : Type := PlanModeSegment | PlanModeBlocks.

Record BlockRange := mkRange { First : Z; Last : Z }.
Record PlannedSegment := mkPlanned {
  ps_Idx : Z; ps_Checksum : Z; ps_MinSeq : Z; ps_MaxSeq : Z; ps_Mode : PlanMode; ps_Blocks : list BlockRange;
}.
Record PlanSnapshotStats := mkStats { SegmentsExamined : Z; SegmentsMatched : Z; BlocksMatched : Z; Entries : Z }.
Record PlanSnapshotResult := mkResult {
  pr_PlannedThroughSeq : Z; pr_SealedTipSeq : Z; pr_Segments : list PlannedSegment; pr_Stats : PlanSnapshotStats;
}.
End manifest.

(** Kinds of events, as the bits of a mask. *)
Definition PlanKindCommit : Z := 1.
Definition PlanKindIdentity : Z := 2.
Definition PlanKindAccount : Z := 4.
Definition PlanKindSync : Z := 8.
Definition allKinds : Z := 15.

Definition kinds_admit (m kind : Z) : bool := (m =? 0) || negb (Z.land m kind =? 0).

(** What the code does with a [float64]: numbers, division and comparison. *)
Class Float64 := { float64 : Type; f64_of : Z → float64; f64_div : float64 → float64 → float64; f64_le : float64 → float64 → bool; f64_lt : float64 → float64 → bool }.

Section plan.
Context `{Zstd} `{SealLibs} `{Float64}.

Record PlanSnapshotRequest := mkRequest {
  rq_Kinds : Z; rq_DIDs : list string; rq_Collections : list string; rq_CollectionPrefixes : list string;
  rq_AfterSeq : option Z; rq_BeforeSeq : option Z; rq_MaxEntries : Z; rq_WholeSegmentThreshold : float64;
}.

Definition after_all (req : PlanSnapshotRequest) (maxSeq : Z) : bool := match rq_AfterSeq req with Some a => maxSeq <=? a | None => false end.
Definition before_all (req : PlanSnapshotRequest) (minSeq : Z) : bool := match rq_BeforeSeq req with Some b => b <? minSeq | None => false end.

Definition segmentOverlapsSeq (seg : SegmentMetadata) (req : PlanSnapshotRequest) : bool :=
  if bool_decide (sm_Blocks seg = []) || (h_EventCount (sm_Header seg) =? 0) then false
  else if after_all req (h_MaxSeq (sm_Header seg)) then false
  else if before_all req (h_MinSeq (sm_Header seg)) then false
  else true.

Definition blockOverlapsSeq (block : BlockInfo) (req : PlanSnapshotRequest) : bool :=
  if bi_EventCount block =? 0 then false
  else if after_all req (bi_MaxSeq block) then false
  else if before_all req (bi_MinSeq block) then false
  else true.

Definition segmentBloomMayContainAny (seg : SegmentMetadata) (dids : list string) : bool :=
  match sm_SegmentBloom seg with None => true | Some bloom => existsb (TestString bloom) dids end.

Definition blockBloomMayContainAny (seg : SegmentMetadata) (blockIdx : nat) (dids : list string) : bool :=
  match sm_BlockBlooms seg !! blockIdx with
  | None => true
  | Some None => true
  | Some (Some bloom) => existsb (TestString bloom) dids
  end.

Record collectionCandidates := mkCandidates { included : gset Z; sentinels : gset Z; allReal : bool; hasReal : bool }.
Definition candidates_empty (c : collectionCandidates) : bool := bool_decide (included c = ∅) && (negb (allReal c) || negb (hasReal c)).

Definition sentinelKind (collection : string) : Z :=
  if bool_decide (collection = SentinelCollectionAccount) then PlanKindAccount
  else if bool_decide (collection = SentinelCollectionIdentity) then PlanKindIdentity
  else if bool_decide (collection = SentinelCollectionSync) then PlanKindSync
  else 0.

(** One collection of the segment. *)
Definition add_candidate (kinds : Z) (collectionMatchAll : bool) (want prefixes : list string) (out : collectionCandidates) (id : Z) (collection : string) : collectionCandidates :=
  if 2 ^ 32 - 1 <? id then out
  else
    let kind := sentinelKind collection in
    if negb (kind =? 0) then
      mkCandidates (if kinds_admit kinds kind then {[id]} ∪ included out else included out) ({[id]} ∪ sentinels out) (allReal out) (hasReal out)
    else if negb (kinds_admit kinds PlanKindCommit) then out
    else
      let out := mkCandidates (included out) (sentinels out) (allReal out) true in
      if collectionMatchAll then out
      else if bool_decide (collection ∈ want) || existsb (HasPrefix collection) prefixes
      then mkCandidates ({[id]} ∪ included out) (sentinels out) (allReal out) (hasReal out)
      else out.

Fixpoint add_candidates (kinds : Z) (collectionMatchAll : bool) (want prefixes : list string) (out : collectionCandidates) (id : Z) (collections : list string) : collectionCandidates :=
  match collections with
  | [] => out
  | c :: collections => add_candidates kinds collectionMatchAll want prefixes (add_candidate kinds collectionMatchAll want prefixes out id c) (id + 1) collections
  end.

Definition collectionCandidatesForSegment (seg : SegmentMetadata) (kinds : Z) (collectionMatchAll : bool) (want prefixes : list string) : collectionCandidates :=
  add_candidates kinds collectionMatchAll want prefixes (mkCandidates ∅ ∅ (collectionMatchAll && kinds_admit kinds PlanKindCommit) false) 0 (sm_Collections seg).

Definition blockHasAnyCandidate (seg : SegmentMetadata) (blockIdx : nat) (candidates : collectionCandidates) : bool :=
  match sm_BlockCollections seg !! blockIdx with
  | None => true
  | Some ids => existsb (λ id, bool_decide (id ∈ included candidates) || (allReal candidates && negb (bool_decide (id ∈ sentinels candidates)))) ids
  end.

Definition collections_match_all (req : PlanSnapshotRequest) : bool := bool_decide (rq_Collections req = []) && bool_decide (rq_CollectionPrefixes req = []).

(** The blocks of a segment that may hold an event of the request. *)
Definition selectPlanBlocks (seg : SegmentMetadata) (req : PlanSnapshotRequest) : list nat :=
  let collectionMatchAll := collections_match_all req in
  let candidateMatchAll := (rq_Kinds req =? 0) && collectionMatchAll in
  let didMatchAll := bool_decide (rq_DIDs req = []) in
  if negb didMatchAll && negb (segmentBloomMayContainAny seg (rq_DIDs req)) then []
  else
    let candidates := collectionCandidatesForSegment seg (rq_Kinds req) collectionMatchAll (rq_Collections req) (rq_CollectionPrefixes req) in
    if negb candidateMatchAll && candidates_empty candidates then []
    else
      omap (λ ib,
        if negb (blockOverlapsSeq ib.2 req) then None
        else if negb candidateMatchAll && negb (blockHasAnyCandidate seg ib.1 candidates) then None
        else if negb didMatchAll && negb (blockBloomMayContainAny seg ib.1 (rq_DIDs req)) then None
        else Some ib.1) (imap pair (sm_Blocks seg)).

Fixpoint coalesce (cur : BlockRange) (blocks : list nat) : list BlockRange :=
  match blocks with
  | [] => [cur]
  | b :: blocks => if Z.of_nat b =? Last cur + 1 then coalesce (mkRange (First cur) (Z.of_nat b)) blocks else cur :: coalesce (mkRange (Z.of_nat b) (Z.of_nat b)) blocks
  end.
Definition coalesceBlocks (blocks : list nat) : list BlockRange :=
  match blocks with [] => [] | b :: blocks => coalesce (mkRange (Z.of_nat b) (Z.of_nat b)) blocks end.

Definition atCap (req : PlanSnapshotRequest) (entries : Z) : bool := (0 <? rq_MaxEntries req) && (rq_MaxEntries req <=? entries).

(** The loop over the ranges of a segment: the admitted ones, the number of entries,
    the blocks in them, the last sequence number, and whether the page is full. *)
Fixpoint admit_ranges (req : PlanSnapshotRequest) (blocks : list BlockInfo) (ranges : list BlockRange) (entries last : Z) : list BlockRange * Z * Z * Z * bool :=
  match ranges with
  | [] => ([], entries, 0, last, false)
  | br :: ranges =>
      if atCap req entries then ([], entries, 0, last, true)
      else
        let maxSeq := match blocks !! Z.to_nat (Last br) with Some b => bi_MaxSeq b | None => 0 end in
        let '(admitted, entries, matched, last, truncated) := admit_ranges req blocks ranges (entries + 1) maxSeq in
        (br :: admitted, entries, Last br - First br + 1 + matched, last, truncated)
  end.

Definition planned_of (seg : SegmentMetadata) (mode : PlanMode) (blocks : list BlockRange) : PlannedSegment :=
  mkPlanned (sm_Idx seg) (h_Checksum (sm_Header seg)) (h_MinSeq (sm_Header seg)) (h_MaxSeq (sm_Header seg)) mode blocks.

(** Whether the selected blocks are so many that the whole segment is planned. *)
Definition is_dense (req : PlanSnapshotRequest) (selected total : nat) : bool :=
  f64_le (rq_WholeSegmentThreshold req) (f64_div (f64_of (Z.of_nat selected)) (f64_of (Z.max (Z.of_nat total) 1))).

(** The loop over the segments: the planned ones, the counts, the last sequence
    number, and whether the page is full. *)
Fixpoint plan_loop (req : PlanSnapshotRequest) (segs : list SegmentMetadata) (stats : PlanSnapshotStats) (last : Z) : list PlannedSegment * PlanSnapshotStats * Z * bool :=
  match segs with
  | [] => ([], stats, last, false)
  | seg :: segs =>
      let stats := mkStats (SegmentsExamined stats + 1) (SegmentsMatched stats) (BlocksMatched stats) (Entries stats) in
      if negb (segmentOverlapsSeq seg req) then plan_loop req segs stats last
      else
        let selected := selectPlanBlocks seg req in
        match selected with
        | [] => plan_loop req segs stats last
        | _ =>
            if is_dense req (length selected) (length (sm_Blocks seg)) then
              if atCap req (Entries stats) then ([], stats, last, true)
              else
                let '(rest, stats, last, truncated) := plan_loop req segs
                  (mkStats (SegmentsExamined stats) (SegmentsMatched stats + 1) (BlocksMatched stats + Z.of_nat (length selected)) (Entries stats + 1))
                  (h_MaxSeq (sm_Header seg)) in
                (planned_of seg PlanModeSegment [] :: rest, stats, last, truncated)
            else
              let '(admitted, entries, matched, last, truncated) := admit_ranges req (sm_Blocks seg) (coalesceBlocks selected) (Entries stats) last in
              let some := negb (bool_decide (length admitted = O)) in
              let stats := mkStats (SegmentsExamined stats) (if some then SegmentsMatched stats + 1 else SegmentsMatched stats) (BlocksMatched stats + matched) entries in
              let planned := if some then [planned_of seg PlanModeBlocks admitted] else [] in
              if truncated then (planned, stats, last, true)
              else
                let '(rest, stats, last, truncated) := plan_loop req segs stats last in
                (planned ++ rest, stats, last, truncated)
        end
  end.

Definition max_seq (segs : list SegmentMetadata) : Z := foldl (λ tip s, if tip <? sm_MaxSeq s then sm_MaxSeq s else tip) 0 segs.

Definition PlanSnapshot (req : PlanSnapshotRequest) (m : Manifest) : result man_err PlanSnapshotResult :=
  match m_loadErr m with
  | Some e => Err e
  | None =>
      if match rq_AfterSeq req, rq_BeforeSeq req with Some a, Some b => b <=? a | _, _ => false end then Err ErrInvalidPlanRequest
      else if rq_MaxEntries req <? 0 then Err ErrInvalidPlanRequest
      else if f64_le (rq_WholeSegmentThreshold req) (f64_of 0) || f64_lt (f64_of 1) (rq_WholeSegmentThreshold req) then Err ErrInvalidPlanRequest
      else if negb (Z.land (rq_Kinds req) (Z.lnot allKinds) =? 0) then Err ErrInvalidPlanRequest
      else if negb (collections_match_all req) && negb (rq_Kinds req =? 0) && negb (kinds_admit (rq_Kinds req) PlanKindCommit) then Err ErrInvalidPlanRequest
      else
        let tip := max_seq (m_segments m) in
        let sealedTip := match m_segments m, rq_BeforeSeq req with [], _ => 0 | _, Some b => if b <? tip then b else tip | _, None => tip end in
        let '(segments, stats, last, truncated) := plan_loop req (m_segments m) (mkStats 0 0 0 0) 0 in
        Ok (mkResult (if truncated then last else sealedTip) sealedTip segments stats)
  end.
End plan.

(** ** The XRPC method *)

(** Parsers of atmos. *)
Class Atmos := { atmos_ParseDID : string → option string; atmos_ParseNSID : string → option string }.

Record PlanInput := mkInput { in_Kinds : list string; in_Dids : list string; in_Collections : list string; in_AfterSeq : option Z; in_BeforeSeq : option Z }.
Record PlanOutputSegment := mkOutSegment {
  os_Name : string; os_Index : Z; os_Checksum : Z; os_MinSeq : Z; os_MaxSeq : Z; os_Mode : PlanMode; os_Blocks : list (Z * Z);
}.
Record PlanOutput := mkOutput { out_PlannedThroughSeq : Z; out_SealedTipSeq : Z; out_Segments : list PlanOutputSegment; out_Stats : PlanSnapshotStats }.

(** [s] without its last [n] characters. *)
Definition str_drop_last (n : nat) (s : string) : string := substring 0 (String.length s - n) s.

(** [SegmentFilename] of [ingest]: ten digits of base 36, or more. *)
Definition digit36 (d : Z) : ascii := ascii_of_nat (Z.to_nat (if d <? 10 then 48 + d else 87 + d)).
Fixpoint base36 (fuel : nat) (v : Z) (acc : string) : string :=
  match fuel with
  | O => acc
  | S fuel => let acc := String (digit36 (v mod 36)) acc in if v / 36 =? 0 then acc else base36 fuel (v / 36) acc
  end.
Fixpoint str_repeat (c : ascii) (n : nat) : string := match n with O => "" | S n => String c (str_repeat c n) end.
Definition SegmentFilename (idx : Z) : string :=
  let enc := base36 13 idx "" in
  ("seg_" ++ (if (String.length enc <? 10)%nat then str_repeat "0" (10 - String.length enc) ++ enc else enc) ++ ".jss")%string.

Definition maxPlanKinds : Z := 4.
Definition DefaultPlanMaxDIDs : Z := 10000.
Definition DefaultPlanMaxCollections : Z := 100.

Definition plan_kind (value : string) : option Z :=
  if bool_decide (value = "commit") then Some PlanKindCommit
  else if bool_decide (value = "identity") then Some PlanKindIdentity
  else if bool_decide (value = "account") then Some PlanKindAccount
  else if bool_decide (value = "sync") then Some PlanKindSync
  else None.

Fixpoint plan_kinds (raw : list string) (out : Z) : result man_err Z :=
  match raw with
  | [] => Ok out
  | value :: raw => match plan_kind value with Some k => plan_kinds raw (Z.lor out k) | None => Err (ErrXRPC "invalid kind") end
  end.
Definition validatePlanKinds (raw : list string) : result man_err Z :=
  if maxPlanKinds <? Z.of_nat (length raw) then Err (ErrXRPC "too many kinds") else plan_kinds raw 0.

Section api.
Context `{Zstd} `{SealLibs} `{Float64} `{Atmos}.

Record PlanConfig := mkPlanConfig { pc_MaxDIDs : Z; pc_MaxCollections : Z; pc_MaxEntries : Z; pc_WholeSegmentThreshold : float64 }.

(** [validate], of a configuration whose defaults are filled in. *)
Definition PlanConfig_ok (c : PlanConfig) : bool :=
  negb ((pc_MaxDIDs c <? 0) || (DefaultPlanMaxDIDs <? pc_MaxDIDs c) || (pc_MaxCollections c <? 0) || (DefaultPlanMaxCollections <? pc_MaxCollections c)
    || (pc_MaxEntries c <? 0) || f64_le (pc_WholeSegmentThreshold c) (f64_of 0) || f64_lt (f64_of 1) (pc_WholeSegmentThreshold c)).

Fixpoint plan_dids (raw : list string) (seen : gset string) : result man_err (list string) :=
  match raw with
  | [] => Ok []
  | value :: raw =>
      if bool_decide (value ∈ seen) then plan_dids raw seen
      else match atmos_ParseDID value with
      | None => Err (ErrXRPC "invalid DID")
      | Some did => rest ← plan_dids raw ({[value]} ∪ seen); Ok (did :: rest)
      end
  end.
Definition validatePlanDIDs (raw : list string) (maxDIDs : Z) : result man_err (list string) :=
  if bool_decide (raw = []) then Ok []
  else if maxDIDs =? 0 then Err (ErrXRPC "DID filters are disabled")
  else if maxDIDs <? Z.of_nat (length raw) then Err (ErrXRPC "too many DIDs")
  else plan_dids raw ∅.

(** An exact NSID, or the prefix of a wildcard. *)
Definition classifyCollectionPattern (raw : string) : result man_err (string + string) :=
  if HasSuffix raw ".*" then
    let head := str_drop_last 2 raw in
    match atmos_ParseNSID (head ++ ".x") with
    | None => Err (ErrXRPC "invalid collection wildcard")
    | Some _ => Ok (inr (head ++ ".")%string)
    end
  else match atmos_ParseNSID raw with None => Err (ErrXRPC "invalid collection") | Some nsid => Ok (inl nsid) end.

Fixpoint plan_collections (raw : list string) (seen : gset string) : result man_err (list string * list string) :=
  match raw with
  | [] => Ok ([], [])
  | value :: raw =>
      if bool_decide (value ∈ seen) then plan_collections raw seen
      else
        c ← classifyCollectionPattern value;
        '(exact, prefixes) ← plan_collections raw ({[value]} ∪ seen);
        Ok (match c with inl ex => (ex :: exact, prefixes) | inr pre => (exact, pre :: prefixes) end)
  end.
Definition validatePlanCollections (raw : list string) (maxCollections : Z) : result man_err (list string * list string) :=
  if bool_decide (raw = []) then Ok ([], [])
  else if maxCollections =? 0 then Err (ErrXRPC "collection filters are disabled")
  else if maxCollections <? Z.of_nat (length raw) then Err (ErrXRPC "too many collections")
  else plan_collections raw ∅.

Definition planRequestFromInput (input : PlanInput) (cfg : PlanConfig) : result man_err PlanSnapshotRequest :=
  kinds ← validatePlanKinds (in_Kinds input);
  dids ← validatePlanDIDs (in_Dids input) (pc_MaxDIDs cfg);
  '(collections, prefixes) ← validatePlanCollections (in_Collections input) (pc_MaxCollections cfg);
  if negb (bool_decide (collections = []) && bool_decide (prefixes = [])) && negb (kinds =? 0) && (Z.land kinds PlanKindCommit =? 0)
  then Err (ErrXRPC "collections filter can never apply: kinds excludes commit")
  else if match in_AfterSeq input with Some seq => seq <? 0 | None => false end then Err (ErrXRPC "afterSeq must be >= 0")
  else if match in_BeforeSeq input with Some seq => seq <? 0 | None => false end then Err (ErrXRPC "beforeSeq must be >= 0")
  else if match in_AfterSeq input, in_BeforeSeq input with Some a, Some b => b <=? a | _, _ => false end then Err (ErrXRPC "beforeSeq must be greater than afterSeq")
  else Ok (mkRequest kinds dids collections prefixes (in_AfterSeq input) (in_BeforeSeq input) (pc_MaxEntries cfg) (pc_WholeSegmentThreshold cfg)).

Definition int64FromUint64 (v : Z) : result man_err Z := if maxInt <? v then Err (ErrXRPC "plan value exceeds int64") else Ok v.

Fixpoint output_segments (segs : list PlannedSegment) : result man_err (list PlanOutputSegment) :=
  match segs with
  | [] => Ok []
  | seg :: segs =>
      index ← int64FromUint64 (ps_Idx seg);
      minSeq ← int64FromUint64 (ps_MinSeq seg);
      maxSeq ← int64FromUint64 (ps_MaxSeq seg);
      rest ← output_segments segs;
      Ok (mkOutSegment (SegmentFilename (ps_Idx seg)) index (ps_Checksum seg) minSeq maxSeq (ps_Mode seg)
            (match ps_Mode seg with PlanModeBlocks => map (λ br, (First br, Last br)) (ps_Blocks seg) | PlanModeSegment => [] end) :: rest)
  end.

Definition planOutput (plan : PlanSnapshotResult) : result man_err PlanOutput :=
  plannedThrough ← int64FromUint64 (pr_PlannedThroughSeq plan);
  sealedTip ← int64FromUint64 (pr_SealedTipSeq plan);
  segments ← output_segments (pr_Segments plan);
  Ok (mkOutput plannedThrough sealedTip segments (pr_Stats plan)).

(** [newPlanSnapshotHandler] *)
Definition planSnapshotHandler (cfg : PlanConfig) (m : Manifest) (input : PlanInput) : result man_err PlanOutput :=
  if negb (PlanConfig_ok cfg) then Err (ErrXRPC "planSnapshot is misconfigured")
  else
    req ← planRequestFromInput input cfg;
    match PlanSnapshot req m with
    | Err ErrInvalidPlanRequest => Err (ErrXRPC "invalid plan request")
    | Err _ => Err (ErrXRPC "failed to plan snapshot")
    | Ok plan => planOutput plan
    end.
End api.

(** ** The client *)

Record planEntry := mkEntry {
  pe_SegmentName : string; pe_Index : Z; pe_Checksum : Z; pe_MinSeq : Z; pe_MaxSeq : Z; pe_Mode : PlanMode; pe_Blocks : list (Z * Z);
}.
Record archivePlan := mkPlan { ap_Entries : list planEntry; ap_PlannedThroughSeq : Z; ap_SealedTipSeq : Z }.
Record planRequest := mkPlanRequest { pq_Kinds : list string; pq_DIDs : list string; pq_Collections : list string; pq_AfterSeq : Z; pq_BeforeSeq : option Z }.

Definition planInput (req : planRequest) : PlanInput :=
  mkInput (pq_Kinds req) (pq_DIDs req) (pq_Collections req) (if 0 <? pq_AfterSeq req then Some (pq_AfterSeq req) else None) (pq_BeforeSeq req).

Fixpoint entry_blocks (blocks : list (Z * Z)) : result man_err (list (Z * Z)) :=
  match blocks with
  | [] => Ok []
  | (first, last) :: blocks =>
      if (first <? 0) || (last <? 0) || (last <? first) then Err (ErrXRPC "invalid block range")
      else if 2 ^ 32 - 1 <? last then Err (ErrXRPC "block range exceeds uint32 max")
      else rest ← entry_blocks blocks; Ok ((uint32 first, uint32 last) :: rest)
  end.

Definition planEntryFromSegment (seg : PlanOutputSegment) : result man_err planEntry :=
  if bool_decide (os_Name seg = "") then Err (ErrXRPC "segment missing name")
  else if (os_Index seg <? 0) || (os_MinSeq seg <? 0) || (os_MaxSeq seg <? 0) then Err (ErrXRPC "negative index/seq")
  else if os_MaxSeq seg <? os_MinSeq seg then Err (ErrXRPC "inverted seq range")
  else if 2 ^ 32 - 1 <? os_Index seg then Err (ErrXRPC "index exceeds uint32 max")
  else match os_Mode seg with
  | PlanModeSegment => Ok (mkEntry (os_Name seg) (os_Index seg) (os_Checksum seg) (os_MinSeq seg) (os_MaxSeq seg) PlanModeSegment [])
  | PlanModeBlocks =>
      blocks ← entry_blocks (os_Blocks seg);
      if bool_decide (blocks = []) then Err (ErrXRPC "no block ranges")
      else Ok (mkEntry (os_Name seg) (os_Index seg) (os_Checksum seg) (os_MinSeq seg) (os_MaxSeq seg) PlanModeBlocks blocks)
  end.

Fixpoint plan_entries (segs : list PlanOutputSegment) : result man_err (list planEntry) :=
  match segs with [] => Ok [] | seg :: segs => e ← planEntryFromSegment seg; es ← plan_entries segs; Ok (e :: es) end.

Definition planFromOutput (out : PlanOutput) : result man_err archivePlan :=
  if out_PlannedThroughSeq out <? 0 then Err (ErrXRPC "negative plannedThroughSeq")
  else if out_SealedTipSeq out <? 0 then Err (ErrXRPC "negative sealedTipSeq")
  else if out_SealedTipSeq out <? out_PlannedThroughSeq out then Err (ErrXRPC "plannedThroughSeq exceeds sealedTipSeq")
  else entries ← plan_entries (out_Segments out); Ok (mkPlan entries (out_PlannedThroughSeq out) (out_SealedTipSeq out)).

(** [call] is the XRPC method. *)
Definition planner_archivePlan (call : PlanInput → result man_err PlanOutput) (req : planRequest) : result man_err archivePlan :=
  if maxInt <? pq_AfterSeq req then Err (ErrXRPC "afterSeq exceeds int64 max")
  else if match pq_BeforeSeq req with Some b => maxInt <? b | None => false end then Err (ErrXRPC "beforeSeq exceeds int64 max")
  else out ← call (planInput req); planFromOutput out.

(** *** The matcher of rows ([filter.go]) *)

Record matcher := mkMatcher {
  ma_kinds : option (gset string); ma_dids : option (gset string); ma_fullPaths : gset string; ma_prefixes : list string;
  ma_afterSeq : Z; ma_beforeSeq : option Z;
}.

Definition newMatcher (req : planRequest) : matcher :=
  mkMatcher (match pq_Kinds req with [] => None | kinds => Some (list_to_set kinds) end)
    (match pq_DIDs req with [] => None | dids => Some (list_to_set dids) end)
    (list_to_set (List.filter (λ c, negb (HasSuffix c ".*")) (pq_Collections req)))
    (map (str_drop_last 1) (List.filter (λ c, HasSuffix c ".*") (pq_Collections req)))
    (pq_AfterSeq req) (pq_BeforeSeq req).

Definition publicKind (kind : Z) : string :=
  if Kind_IsCommit kind then "commit"
  else if kind =? KindIdentity then "identity"
  else if kind =? KindAccount then "account"
  else if kind =? KindSync then "sync" else "".

Definition wantsSeq (m : matcher) (seq : Z) : bool :=
  if (0 <? ma_afterSeq m) && (seq <=? ma_afterSeq m) then false
  else match ma_beforeSeq m with Some b => negb (b <? seq) | None => true end.

Definition hasCollectionFilter (m : matcher) : bool := negb (bool_decide (ma_fullPaths m = ∅)) || negb (bool_decide (ma_prefixes m = [])).

Definition wants (m : matcher) (seq : Z) (did kind collection : string) : bool :=
  if negb (wantsSeq m seq) then false
  else if match ma_kinds m with Some kinds => negb (bool_decide (kind ∈ kinds)) | None => false end then false
  else if match ma_dids m with Some dids => negb (bool_decide (did ∈ dids)) | None => false end then false
  else if negb (hasCollectionFilter m) then true
  else if negb (bool_decide (kind = "commit")) then true
  else if bool_decide (collection = "") then true
  else bool_decide (collection ∈ ma_fullPaths m) || existsb (HasPrefix collection) (ma_prefixes m).

Definition wantsSegment (m : matcher) (ev : Event) : bool := wants m (ev_Seq ev) (ev_DID ev) (publicKind (ev_Kind ev)) (ev_Collection ev).

(** *** The sweep *)

(** How the download of a page ends: everything was emitted, the consumer stopped, or
    the context was cancelled. *)
Inductive download_end : Type := Downloaded | Stopped | Cancelled.

(** What the sweep has emitted, and the sealed tip with whether it was stopped. *)
Record sweep_result := mkSweep { sw_emitted : list Event; sw_end : result man_err (Z * bool) }.

(** [sweepSealedArchive]: [call n] is the XRPC method when page [n] is requested,
    [download n] the rows of its entries that pass the matcher, which are emitted in
    the order of the entries. *)
Fixpoint sweep_loop (fuel : nat) (call : nat → PlanInput → result man_err PlanOutput) (download : nat → list planEntry → list Event * download_end)
    (req : planRequest) (n : nat) (cursor : Z) (pinned : option Z) : sweep_result :=
  match fuel with
  | O => mkSweep [] (Err ErrNoProgress)
  | S fuel =>
      let r := mkPlanRequest (pq_Kinds req) (pq_DIDs req) (pq_Collections req) cursor (match pinned with Some tip => Some tip | None => pq_BeforeSeq req end) in
      match planner_archivePlan (call n) r with
      | Err e => mkSweep [] (Err e)
      | Ok plan =>
          let sealedTip := match pinned with Some tip => tip | None => ap_SealedTipSeq plan end in
          let '(rows, end_) := download n (ap_Entries plan) in
          match end_ with
          | Cancelled => mkSweep rows (Err ErrDownload)
          | Stopped => mkSweep rows (Ok (sealedTip, true))
          | Downloaded =>
              let cursor' := ap_PlannedThroughSeq plan in
              if sealedTip <=? cursor' then mkSweep rows (Ok (sealedTip, false))
              else if cursor' <=? cursor then mkSweep rows (Err ErrNoProgress)
              else
                let rest := sweep_loop fuel call download req (S n) cursor' (Some sealedTip) in
                mkSweep (rows ++ sw_emitted rest) (sw_end rest)
          end
      end
  end.
Definition sweepSealedArchive (fuel : nat) (call : nat → PlanInput → result man_err PlanOutput) (download : nat → list planEntry → list Event * download_end)
    (req : planRequest) (startCursor : Z) : sweep_result := sweep_loop fuel call download req 0 startCursor None.
