(* ===== verification/ManifestProofs.v ===== *)
(** * The manifest and its planner

    The look-ups of the manifest and its refreshes against a map from indices to
    metadata; what the planner selects for a request, against the rows that the
    metadata describe; and its pages. *)

From stdpp Require Import sorting.
From S2P Require Import Prelude GoStrings StateMonad Segment SegmentProofs SegFileProofs SegWriter SegSeal SegSealProofs Manifest.
Local Open Scope Z_scope.

(** ** [sort.Search] *)

Lemma search_loop_spec f n fuel : ∀ i j, (i ≤ j ≤ n)%nat → (j - i < 2 ^ fuel)%nat → (i = 0%nat ∨ f (i - 1)%nat = false) → (j = n ∨ f j = true) →
  let k := search_loop fuel f i j in (i ≤ k ≤ n)%nat ∧ (k = 0%nat ∨ f (k - 1)%nat = false) ∧ (k = n ∨ f k = true).
Proof.
  induction fuel as [|fuel IH]; intros i j Hij Hf Hi Hj; cbn [search_loop].
  { simpl in Hf. assert (i = j) as -> by lia. split_and!; [lia|lia|done|done]. }
  destruct (i <? j)%nat eqn:E; [|apply Nat.ltb_ge in E; assert (i = j) as -> by lia; split_and!; [lia|lia|done|done]].
  apply Nat.ltb_lt in E. set (h := ((i + j) / 2)%nat). assert (Hh : (i ≤ h < j)%nat).
  { unfold h. split; [apply Nat.div_le_lower_bound; lia|apply Nat.Div0.div_lt_upper_bound; lia]. }
  assert (Hhalf : (j - h ≤ S (h - i) ∧ h - i ≤ j - h)%nat).
  { unfold h in *. pose proof (Nat.div_mod (i + j) 2 ltac:(done)). pose proof (Nat.mod_upper_bound (i + j) 2 ltac:(done)). lia. }
  cbn [Nat.pow] in Hf. destruct (f h) eqn:Eh; cbn [negb].
  - apply IH; [lia|lia|done|by right].
  - destruct (IH (S h) j) as (? & ? & ?); [lia|lia|right; by rewrite Nat.sub_1_r|done|]. split_and!; [lia|lia|done|done].
Qed.

(** What [sort.Search] finds whatever the predicate is. *)
Lemma sort_Search_spec n f : let k := sort_Search n f in (k ≤ n)%nat ∧ (k = 0%nat ∨ f (k - 1)%nat = false) ∧ (k = n ∨ f k = true).
Proof.
  destruct (search_loop_spec f n n 0 n) as (? & ? & ?); [lia| |by left|by left|split_and!; [|done|done]; unfold sort_Search; lia].
  rewrite Nat.sub_0_r. apply Nat.pow_gt_lin_r. lia.
Qed.

(** The least index at which a monotone predicate holds. *)
Lemma sort_Search_least n f k : (∀ i j, (i ≤ j < n)%nat → f i = true → f j = true) → (k < n)%nat → f k = true → (∀ i, (i < k)%nat → f i = false) → sort_Search n f = k.
Proof.
  intros Hm Hk Hf Hl. destruct (sort_Search_spec n f) as (H1 & H2 & H3). set (s := sort_Search n f) in *.
  destruct (decide (s < k)%nat) as [Hs|Hs].
  - destruct H3 as [->|H3]; [lia|]. by rewrite Hl in H3.
  - destruct (decide (s = k)); [done|]. destruct H2 as [->|H2]; [lia|]. rewrite (Hm k (s - 1)%nat) in H2; [done|lia|done].
Qed.

(** ** Coalescing *)

Definition expand (br : BlockRange) : list nat := seq (Z.to_nat (First br)) (S (Z.to_nat (Last br) - Z.to_nat (First br))).
Definition range_ok (br : BlockRange) : Prop := 0 ≤ First br ≤ Last br.

Lemma expand_elem br i : range_ok br → i ∈ expand br ↔ First br ≤ Z.of_nat i ≤ Last br.
Proof. intros [? ?]. unfold expand. rewrite elem_of_seq. lia. Qed.

Lemma coalesce_spec blocks : ∀ cur, range_ok cur → Forall range_ok (coalesce cur blocks) ∧ flat_map expand (coalesce cur blocks) = expand cur ++ blocks.
Proof.
  induction blocks as [|b blocks IH]; intros cur Hc; cbn [coalesce]; [split; [by constructor|done]|]. destruct (Z.of_nat b =? Last cur + 1) eqn:E.
  - apply Z.eqb_eq in E. destruct (IH (mkRange (First cur) (Z.of_nat b))) as [Hf He]; [unfold range_ok in *; simpl; lia|]. split; [done|].
    rewrite He. unfold expand, range_ok in *. cbn [First Last]. assert (Hb : b = S (Z.to_nat (Last cur))) by lia.
    rewrite (cons_middle b), app_assoc. f_equal. rewrite Nat2Z.id.
    replace (S (b - Z.to_nat (First cur))) with (S (Z.to_nat (Last cur) - Z.to_nat (First cur)) + 1)%nat by lia.
    rewrite seq_app. f_equal. simpl. f_equal. lia.
  - destruct (IH (mkRange (Z.of_nat b) (Z.of_nat b))) as [Hf He]; [unfold range_ok; simpl; lia|]. split; [by constructor|].
    cbn [flat_map]. rewrite He. f_equal. unfold expand. cbn [First Last]. rewrite Nat2Z.id, Nat.sub_diag. done.
Qed.

Lemma coalesceBlocks_spec blocks : Forall range_ok (coalesceBlocks blocks) ∧ flat_map expand (coalesceBlocks blocks) = blocks.
Proof.
  destruct blocks as [|b blocks]; [done|]. cbn [coalesceBlocks]. destruct (coalesce_spec blocks (mkRange (Z.of_nat b) (Z.of_nat b))) as [Hf He]; [unfold range_ok; simpl; lia|].
  split; [done|]. rewrite He. unfold expand. cbn [First Last]. by rewrite Nat2Z.id, Nat.sub_diag.
Qed.

(** ** What the metadata says of the blocks *)

Section planning.
Context `{SealLibs} `{Float64}.

(** Whether a request leaves out a kind or a collection: the planner then goes by the
    index of collections. *)
Definition restricts (req : PlanSnapshotRequest) : bool := negb ((rq_Kinds req =? 0) && collections_match_all req).

(** A row that the index of collections lists, if it is gone by. *)
Definition listed (restricted : bool) (ev : Event) : Prop :=
  Kind_Valid (ev_Kind ev) = true ∧
  (restricted = true → Kind_IsCommit (ev_Kind ev) = true → ev_Collection ev ≠ "" ∧ sentinelKind (ev_Collection ev) = 0).

Definition block_described (info : BlockInfo) (b : list Event) : Prop :=
  0 ≤ bi_EventCount info ∧ (bi_EventCount info = 0 ↔ b = []) ∧ ∀ ev, ev ∈ b → bi_MinSeq info ≤ ev_Seq ev ≤ bi_MaxSeq info.

(** A segment's metadata and its blocks. *)
Record described (s : SegmentMetadata) (bs : list (list Event)) : Prop := {
  de_min : sm_MinSeq s = h_MinSeq (sm_Header s);
  de_max : sm_MaxSeq s = h_MaxSeq (sm_Header s);
  de_count : h_EventCount (sm_Header s) = 0 ↔ concat bs = [];
  de_blocks : Forall2 block_described (sm_Blocks s) bs;
  de_bounds : Forall (λ info, bi_EventCount info ≠ 0 →
    0 < bi_MinSeq info ∧ h_MinSeq (sm_Header s) ≤ bi_MinSeq info ≤ bi_MaxSeq info ∧ bi_MaxSeq info ≤ h_MaxSeq (sm_Header s)) (sm_Blocks s);
  de_valid : ∃ fo, validateBlockOffsets (sm_Blocks s) fo = Ok tt;
  de_bloom : ∀ d, has_did d (concat bs) → passes (sm_SegmentBloom s) d = true;
  de_blooms : ∀ i b f, bs !! i = Some b → sm_BlockBlooms s !! i = Some f → ∀ d, has_did d b → passes f d = true;
  de_table : Z.of_nat (length (sm_Collections s)) ≤ 2 ^ 32;
  de_colls : ∀ i b, bs !! i = Some b → ∃ ids, sm_BlockCollections s !! i = Some ids ∧
    ∀ c, named c b → ∃ id, id ∈ ids ∧ 0 ≤ id ∧ sm_Collections s !! Z.to_nat id = Some c;
}.

(** The bit of an event's kind. *)
Definition kind_bit (k : Z) : Z :=
  if Kind_IsCommit k then PlanKindCommit
  else if k =? KindIdentity then PlanKindIdentity
  else if k =? KindAccount then PlanKindAccount
  else PlanKindSync.

(** The events a request asks for. *)
Record wanted (req : PlanSnapshotRequest) (ev : Event) : Prop := {
  wa_after : after_all req (ev_Seq ev) = false;
  wa_before : before_all req (ev_Seq ev) = false;
  wa_kind : kinds_admit (rq_Kinds req) (kind_bit (ev_Kind ev)) = true;
  wa_did : rq_DIDs req = [] ∨ ev_DID ev ∈ rq_DIDs req ∧ ev_DID ev ≠ "";
  wa_coll : collections_match_all req = true ∨ Kind_IsCommit (ev_Kind ev) = false ∨
    ev_Collection ev ∈ rq_Collections req ∨ existsb (HasPrefix (ev_Collection ev)) (rq_CollectionPrefixes req) = true;
}.

Lemma add_candidates_spec kinds all want prefixes table : ∀ out n, 0 ≤ n → n + Z.of_nat (length table) ≤ 2 ^ 32 →
  (∀ id, id ∈ sentinels out → id < n) →
  let r := add_candidates kinds all want prefixes out n table in
  allReal r = allReal out ∧ (hasReal out = true → hasReal r = true) ∧ included out ⊆ included r ∧ (∀ id, id < n → id ∈ sentinels r → id ∈ sentinels out) ∧
  ∀ k c, table !! k = Some c →
    (sentinelKind c ≠ 0 → kinds_admit kinds (sentinelKind c) = true → n + Z.of_nat k ∈ included r) ∧
    (sentinelKind c = 0 → n + Z.of_nat k ∉ sentinels r ∧
      (kinds_admit kinds PlanKindCommit = true → hasReal r = true ∧ (all = false → (c ∈ want ∨ existsb (HasPrefix c) prefixes = true) → n + Z.of_nat k ∈ included r))).
Proof.
  induction table as [|c table IH]; intros out n Hn Hl Hs; cbn [add_candidates]; [split_and!; try done; intros k c Hk; done|].
  cbn [length] in Hl. set (out' := add_candidate kinds all want prefixes out n c).
  assert (Ho : allReal out' = allReal out ∧ (hasReal out = true → hasReal out' = true) ∧ included out ⊆ included out' ∧ (∀ id, id ∈ sentinels out' → id ∈ sentinels out ∨ id = n ∧ sentinelKind c ≠ 0) ∧
    (sentinelKind c ≠ 0 → kinds_admit kinds (sentinelKind c) = true → n ∈ included out') ∧
    (sentinelKind c = 0 → kinds_admit kinds PlanKindCommit = true → hasReal out' = true ∧ (all = false → c ∈ want ∨ existsb (HasPrefix c) prefixes = true → n ∈ included out'))).
  { unfold out', add_candidate. rewrite (proj2 (Z.ltb_ge _ n)) by lia. destruct (sentinelKind c =? 0) eqn:Es; cbn [negb].
    - apply Z.eqb_eq in Es. destruct (kinds_admit kinds PlanKindCommit); cbn [negb]; [|split_and!; try done; auto].
      destruct all; [split_and!; try done; auto|]. destruct (bool_decide (c ∈ want) || existsb (HasPrefix c) prefixes) eqn:Em; cbn.
      + split_and!; try done; auto; [set_solver|]. intros _ _. split; [done|]. intros _ _. set_solver.
      + split_and!; try done; auto. intros _ _. split; [done|]. intros _ [Hc|Hc]; [|by rewrite Hc, orb_true_r in Em]. apply orb_false_iff in Em as [Em _]. by apply bool_decide_eq_false in Em.
    - apply Z.eqb_neq in Es. cbn. split_and!; try done; auto; [by case_match; set_solver|set_solver|intros _ ->; set_solver]. }
  destruct Ho as (O1 & O2 & O3 & O4 & O5 & O6).
  destruct (IH out' (n + 1)) as (I1 & I2 & I3 & I4 & I5); [lia|lia|intros id Hid; destruct (O4 id Hid) as [Hid'|[-> _]]; [specialize (Hs id Hid')|]; lia|].
  split_and!; [by rewrite I1|auto|set_solver| |].
  - intros id Hid Hr. destruct (O4 id (I4 id ltac:(lia) Hr)) as [?|[? _]]; [done|lia].
  - intros [|k] c' Hk; simpl in Hk.
    + injection Hk as <-. rewrite Z.add_0_r. split; [intros H1 H2; by apply I3, O5|]. intros H1. split.
      * intros Hr. destruct (O4 n (I4 n ltac:(lia) Hr)) as [Hr'|[_ ?]]; [specialize (Hs n Hr'); lia|done].
      * intros H2. destruct (O6 H1 H2) as [H3 H4]. split; [auto|]. intros H5 H6. by apply I3, H4.
    + replace (n + Z.of_nat (S k)) with (n + 1 + Z.of_nat k) by lia. by apply I5.
Qed.

Lemma sentinel_kind k : Kind_Valid k = true → Kind_IsCommit k = false → didMarkerSentinel k ≠ "" ∧ sentinelKind (didMarkerSentinel k) = kind_bit k ∧ kind_bit k ≠ 0.
Proof.
  unfold Kind_Valid, KindCreate, KindCreateResync. intros Hv Hc. apply andb_true_iff in Hv as [H1 H2]. apply Z.leb_le in H1, H2.
  assert (k = 4 ∨ k = 5 ∨ k = 6) as [->|[->| ->]]; [|by vm_compute|by vm_compute|by vm_compute].
  unfold Kind_IsCommit, KindCreate, KindUpdate, KindDelete, KindCreateResync in Hc. rewrite !orb_false_iff, !Z.eqb_neq in Hc. lia.
Qed.

(** A block with a wanted event has a candidate. *)
Lemma candidate_sound s bs req i b ev : described s bs → bs !! i = Some b → ev ∈ b → listed true ev → wanted req ev →
  let c := collectionCandidatesForSegment s (rq_Kinds req) (collections_match_all req) (rq_Collections req) (rq_CollectionPrefixes req) in
  candidates_empty c = false ∧ blockHasAnyCandidate s i c = true.
Proof.
  intros Hd Hb Hev (Hv & Hcm) Hw c. destruct (de_colls _ _ Hd i b Hb) as (ids & Ei & Hnm). unfold blockHasAnyCandidate. rewrite Ei.
  destruct (add_candidates_spec (rq_Kinds req) (collections_match_all req) (rq_Collections req) (rq_CollectionPrefixes req) (sm_Collections s)
    (mkCandidates ∅ ∅ (collections_match_all req && kinds_admit (rq_Kinds req) PlanKindCommit) false) 0) as (A1 & _ & _ & _ & A5);
    [done|pose proof (de_table _ _ Hd); lia|intros id Hid; cbn in Hid; set_solver|].
  fold (collectionCandidatesForSegment s (rq_Kinds req) (collections_match_all req) (rq_Collections req) (rq_CollectionPrefixes req)) in A1, A5. fold c in A1, A5. cbn [allReal] in A1.
  destruct (Kind_IsCommit (ev_Kind ev)) eqn:Ek.
  - destruct (Hcm eq_refl eq_refl) as [Hne Hsk]. destruct (Hnm (ev_Collection ev)) as (id & Hid & Hid0 & Ht); [split; [done|]; exists ev; auto|].
    destruct (A5 _ _ Ht) as [_ Hr]. destruct (Hr Hsk) as [Hns Hr']. rewrite Z2Nat.id in Hns, Hr' by done. rewrite Z.add_0_l in Hns, Hr'.
    pose proof (wa_kind _ _ Hw) as Hk. unfold kind_bit in Hk. rewrite Ek in Hk. destruct (Hr' Hk) as [Hreal Hinc]. rewrite Hk, andb_true_r in A1.
    assert (Hcase : collections_match_all req = true ∨ id ∈ included c).
    { destruct (collections_match_all req) eqn:Ea; [by left|right]. destruct (wa_coll _ _ Hw) as [?|[?|Hc]]; [congruence|congruence|by apply Hinc]. }
    destruct Hcase as [Ha|Hi].
    + rewrite Ha in A1. unfold candidates_empty. rewrite A1, Hreal. split; [by rewrite andb_false_r|]. apply existsb_exists. exists id. split; [by apply list_elem_of_In|].
      by rewrite (bool_decide_false (id ∈ sentinels c)), orb_true_r.
    + unfold candidates_empty. rewrite (bool_decide_false (included c = ∅)) by set_solver. split; [done|]. apply existsb_exists. exists id. split; [by apply list_elem_of_In|].
      by rewrite bool_decide_true.
  - destruct (sentinel_kind _ Hv Ek) as (Hne & Hsk & Hnz). destruct (Hnm (didMarkerSentinel (ev_Kind ev))) as (id & Hid & Hid0 & Ht); [split; [done|]; exists ev; auto|].
    destruct (A5 _ _ Ht) as [Hr _]. rewrite Hsk, Z2Nat.id, Z.add_0_l in Hr by done. specialize (Hr Hnz (wa_kind _ _ Hw)).
    unfold candidates_empty. rewrite (bool_decide_false (included c = ∅)) by set_solver. split; [done|]. apply existsb_exists. exists id. split; [by apply list_elem_of_In|].
    by rewrite bool_decide_true.
Qed.

Lemma after_all_mono req a b : a ≤ b → after_all req a = false → after_all req b = false.
Proof. unfold after_all. case_match; [|done]. rewrite !Z.leb_gt. lia. Qed.
Lemma before_all_mono req a b : a ≤ b → before_all req b = false → before_all req a = false.
Proof. unfold before_all. case_match; [|done]. rewrite !Z.ltb_ge. lia. Qed.

(** A wanted event's block is selected: the planner has no false negatives. *)
Lemma select_sound s bs req i b ev : described s bs → bs !! i = Some b → ev ∈ b → listed (restricts req) ev → wanted req ev →
  segmentOverlapsSeq s req = true ∧ i ∈ selectPlanBlocks s req.
Proof.
  intros Hd Hb Hev Hl Hw. destruct (Forall2_lookup_r _ _ _ _ _ (de_blocks _ _ Hd) Hb) as (info & Hi & _ & Hcnt & Hbnd).
  assert (Hlive : bi_EventCount info ≠ 0) by (intros Hz; apply Hcnt in Hz; subst b; inversion Hev).
  destruct (proj1 (Forall_forall _ _) (de_bounds _ _ Hd) info ltac:(by eapply list_elem_of_lookup_2) Hlive) as (_ & Hlo & Hhi). specialize (Hbnd ev Hev).
  assert (Hin : ev ∈ concat bs) by (apply list_elem_of_In, in_concat; exists b; split; apply list_elem_of_In; [by eapply list_elem_of_lookup_2|done]).
  pose proof (wa_after _ _ Hw) as Ha. pose proof (wa_before _ _ Hw) as Hbf. split.
  - unfold segmentOverlapsSeq. rewrite bool_decide_false by (intros Hn; rewrite Hn in Hi; done). rewrite (proj2 (Z.eqb_neq _ 0)) by (intros Hz; apply (de_count _ _ Hd) in Hz; rewrite Hz in Hin; inversion Hin).
    cbn [orb]. rewrite (after_all_mono _ (ev_Seq ev)), (before_all_mono _ _ (ev_Seq ev)) by (done || lia). done.
  - unfold selectPlanBlocks. set (cma := (rq_Kinds req =? 0) && collections_match_all req). set (dma := bool_decide (rq_DIDs req = [])).
    assert (Hdid' : dma = true ∨ ev_DID ev ∈ rq_DIDs req ∧ ev_DID ev ≠ "") by (destruct (wa_did _ _ Hw) as [Hn|?]; [left; by apply bool_decide_eq_true|by right]).
    assert (Hhd : ev_DID ev ≠ "" → has_did (ev_DID ev) b) by (split; [done|by exists ev]).
    assert (Hhd' : ev_DID ev ≠ "" → has_did (ev_DID ev) (concat bs)) by (split; [done|by exists ev]).
    assert (Hpass : ∀ f, passes f (ev_DID ev) = true → ev_DID ev ∈ rq_DIDs req → match f with None => true | Some bloom => existsb (TestString bloom) (rq_DIDs req) end = true).
    { intros [f|] Hf Hr; [|done]. apply existsb_exists. exists (ev_DID ev). split; [by apply list_elem_of_In|done]. }
    assert (G1 : negb dma && negb (segmentBloomMayContainAny s (rq_DIDs req)) = false).
    { destruct Hdid' as [->|[Hr Hne]]; [done|]. unfold segmentBloomMayContainAny. rewrite Hpass; [by rewrite andb_false_r|by apply (de_bloom _ _ Hd), Hhd'|done]. }
    set (c := collectionCandidatesForSegment s (rq_Kinds req) (collections_match_all req) (rq_Collections req) (rq_CollectionPrefixes req)).
    assert (G2 : negb cma && candidates_empty c = false ∧ negb cma && negb (blockHasAnyCandidate s i c) = false).
    { unfold restricts in Hl. fold cma in Hl. destruct cma; [done|]. cbn [negb andb] in *. destruct (candidate_sound s bs req i b ev Hd Hb Hev Hl Hw) as [E1 E2].
      fold c in E1, E2. by rewrite E1, E2. }
    destruct G2 as [G2 G3]. rewrite G1. fold c. rewrite G2. apply list_elem_of_omap. exists (i, info). split.
    + apply list_elem_of_lookup. exists i. by rewrite list_lookup_imap, Hi.
    + cbn. assert (G4 : blockOverlapsSeq info req = true).
      { unfold blockOverlapsSeq. rewrite (proj2 (Z.eqb_neq _ 0)) by done. by rewrite (after_all_mono _ (ev_Seq ev)), (before_all_mono _ _ (ev_Seq ev)) by (done || lia). }
      rewrite G4, G3. cbn [negb]. assert (G5 : negb dma && negb (blockBloomMayContainAny s i (rq_DIDs req)) = false); [|by rewrite G5].
      destruct Hdid' as [->|[Hr Hne]]; [done|]. unfold blockBloomMayContainAny. destruct (sm_BlockBlooms s !! i) as [f|] eqn:Ef; [|by rewrite andb_false_r].
      pose proof (Hpass f (de_blooms _ _ Hd i b f Hb Ef _ (Hhd Hne)) Hr) as Hf. destruct f as [f|]; [|by rewrite andb_false_r]. by rewrite Hf, andb_false_r.
Qed.

(** ** The order of the blocks and of the segments *)

Definition live (info : BlockInfo) : Prop := 0 < bi_EventCount info.

Lemma validate_above blocks : ∀ fo pe p, validate_loop blocks fo pe (Some p) = Ok tt → Forall (λ info, live info → bi_MinSeq info ≤ bi_MaxSeq info) blocks →
  ∀ info, info ∈ blocks → live info → p < bi_MinSeq info.
Proof.
  induction blocks as [|b blocks IH]; intros fo pe p Hv Hb info Hin Hl; [inversion Hin|]. inversion_clear Hb as [|?? Hb1 Hb']. cbn [validate_loop] in Hv.
  repeat (case_match; [done|]). case_match.
  - destruct (bi_MinSeq b <=? p) eqn:E; [done|]. apply Z.leb_gt in E. apply elem_of_cons in Hin as [->|Hin]; [done|].
    assert (Hlb : live b) by (by apply Z.ltb_lt). specialize (Hb1 Hlb). pose proof (IH _ _ _ Hv Hb' info Hin Hl). lia.
  - apply elem_of_cons in Hin as [->|Hin]; [unfold live in Hl; match goal with H : (0 <? _) = false |- _ => apply Z.ltb_ge in H end; lia|]. by eapply IH.
Qed.

Lemma validate_order blocks : ∀ fo pe prev, validate_loop blocks fo pe prev = Ok tt → Forall (λ info, live info → bi_MinSeq info ≤ bi_MaxSeq info) blocks →
  ∀ i j x y, (i < j)%nat → blocks !! i = Some x → blocks !! j = Some y → live x → live y → bi_MaxSeq x < bi_MinSeq y.
Proof.
  induction blocks as [|b blocks IH]; intros fo pe prev Hv Hb i j x y Hij Hx Hy Hlx Hly; [done|]. inversion_clear Hb as [|?? Hb1 Hb']. cbn [validate_loop] in Hv.
  destruct j as [|j]; [lia|]. simpl in Hy. repeat (case_match; [done|]).
  assert (Hrest : ∃ q, validate_loop blocks fo (uint64 (bi_Offset b + 8 + bi_CompressedSize b)) q = Ok tt ∧ (live b → q = Some (bi_MaxSeq b))).
  { destruct (0 <? bi_EventCount b) eqn:E.
    - exists (Some (bi_MaxSeq b)). split; [|done]. destruct prev as [p|]; [|done]. by destruct (bi_MinSeq b <=? p).
    - exists prev. split; [done|]. unfold live. apply Z.ltb_ge in E. lia. }
  destruct Hrest as (q & Hq & Hlq). destruct i as [|i]; simpl in Hx.
  - injection Hx as ->. rewrite (Hlq Hlx) in Hq. eapply validate_above; [exact Hq|done|by eapply list_elem_of_lookup_2|done].
  - eapply IH; [exact Hq|done| |exact Hx|exact Hy|done|done]. lia.
Qed.

(** The live segments above a number, and in order. *)
Definition above (n : Z) (segs : list SegmentMetadata) : Prop := ∀ s, s ∈ segs → h_EventCount (sm_Header s) ≠ 0 → n < sm_MinSeq s.
Fixpoint ordered (segs : list SegmentMetadata) : Prop :=
  match segs with [] => True | s :: segs => (h_EventCount (sm_Header s) ≠ 0 → above (sm_MaxSeq s) segs) ∧ ordered segs end.

Lemma seq_monotonic_ordered segs : ∀ prev, seq_monotonic prev segs = Ok tt → Forall (λ s, h_EventCount (sm_Header s) ≠ 0 → sm_MinSeq s ≤ sm_MaxSeq s) segs →
  ordered segs ∧ match prev with Some p => above p segs | None => True end.
Proof.
  induction segs as [|s segs IH]; intros prev Hm Hf; [split; [done|]; destruct prev; [|done]; intros s Hin; inversion Hin|].
  inversion_clear Hf as [|?? Hs Hf']. cbn [seq_monotonic] in Hm. destruct (h_EventCount (sm_Header s) =? 0) eqn:E.
  - apply Z.eqb_eq in E. destruct (IH _ Hm Hf') as [Ho Ha]. split; [by split|]. destruct prev; [|done]. intros x Hx Hne. apply elem_of_cons in Hx as [->|Hx]; [done|by apply Ha].
  - apply Z.eqb_neq in E. destruct (match prev with Some p => sm_MinSeq s <=? p | None => false end) eqn:Ep; [done|]. destruct (IH _ Hm Hf') as [Ho Ha].
    split; [split; [done|done]|]. destruct prev as [p|]; [|done]. apply Z.leb_gt in Ep. intros x Hx Hne. apply elem_of_cons in Hx as [->|Hx]; [done|]. specialize (Ha x Hx Hne). specialize (Hs E). lia.
Qed.

Lemma described_bounds s bs : described s bs → h_EventCount (sm_Header s) ≠ 0 → sm_MinSeq s ≤ sm_MaxSeq s.
Proof.
  intros Hd Hne. rewrite (de_min _ _ Hd), (de_max _ _ Hd). assert (Hev : ∃ i b ev, bs !! i = Some b ∧ ev ∈ b).
  { destruct (concat bs) as [|ev evs] eqn:E; [by apply (de_count _ _ Hd) in E|]. assert (Hin : In ev (concat bs)) by (rewrite E; by left).
    apply in_concat in Hin as (b & Hb & Hev). apply list_elem_of_In, list_elem_of_lookup in Hb as [i Hi]. exists i, b, ev. split; [done|]. by apply list_elem_of_In. }
  destruct Hev as (i & b & ev & Hb & Hev). destruct (Forall2_lookup_r _ _ _ _ _ (de_blocks _ _ Hd) Hb) as (info & Hi & _ & Hcnt & _).
  destruct (proj1 (Forall_forall _ _) (de_bounds _ _ Hd) info ltac:(by eapply list_elem_of_lookup_2)) as (_ & ? & ?); [|lia]. intros Hz. apply Hcnt in Hz. subst b. inversion Hev.
Qed.

(** ** Selected blocks in order *)

Lemma omap_imap_sublist {A} (g : nat * A → option nat) (l : list A) : (∀ i x j, g (i, x) = Some j → j = i) →
  ∀ k, omap g (imap (λ i x, ((k + i)%nat, x)) l) `sublist_of` seq k (length l).
Proof.
  intros Hg. induction l as [|x l IH]; intros k; [done|]. cbn [imap length seq]. rewrite Nat.add_0_r.
  assert (Hrest : omap g (imap ((λ i x, ((k + i)%nat, x)) ∘ S) l) `sublist_of` seq (S k) (length l)).
  { erewrite imap_ext; [apply (IH (S k))|]. intros i y _. simpl. f_equal. lia. }
  change (omap g ((k, x) :: imap ((λ i x, ((k + i)%nat, x)) ∘ S) l)) with (match g (k, x) with Some y => y :: omap g (imap ((λ i x, ((k + i)%nat, x)) ∘ S) l) | None => omap g (imap ((λ i x, ((k + i)%nat, x)) ∘ S) l) end).
  destruct (g (k, x)) as [j|] eqn:E; [apply Hg in E as ->; by apply sublist_skip|by apply sublist_cons].
Qed.

Lemma select_sublist s req : selectPlanBlocks s req `sublist_of` seq 0 (length (sm_Blocks s)).
Proof.
  unfold selectPlanBlocks. repeat (case_match; [apply sublist_nil_l|]). rewrite (imap_ext _ (λ i x, ((0 + i)%nat, x))) by done. apply (omap_imap_sublist _ _).
  intros i x j. cbn. by repeat case_match; intros [= <-].
Qed.

(** What the selection tests, as far as the sequence numbers go. *)
Lemma select_overlaps s req i : i ∈ selectPlanBlocks s req → ∃ info, sm_Blocks s !! i = Some info ∧ blockOverlapsSeq info req = true.
Proof.
  unfold selectPlanBlocks. repeat (case_match; [intros Hin; inversion Hin|]). intros Hin. apply list_elem_of_omap in Hin as ([j info] & Hj & Hs).
  apply list_elem_of_lookup in Hj as [k Hk]. rewrite list_lookup_imap in Hk. destruct (sm_Blocks s !! k) as [info'|] eqn:E; [|done]. injection Hk as <- <-. cbn in Hs.
  destruct (blockOverlapsSeq info' req) eqn:Eo; [|done]. cbn [negb] in Hs. exists info'. repeat (case_match; [done|]). by injection Hs as <-.
Qed.

Lemma seq_sorted n : ∀ k, StronglySorted lt (seq k n).
Proof. induction n as [|n IH]; intros k; simpl; constructor; [apply IH|]. apply Forall_forall. intros z Hz. apply elem_of_seq in Hz. lia. Qed.

Lemma flat_map_sublist {A} (f g : nat → list A) l1 L : l1 `sublist_of` L → NoDup L → (∀ i, i ∈ L → i ∉ l1 → f i = []) → (∀ i, i ∈ l1 → g i = f i) →
  flat_map g l1 = flat_map f L.
Proof.
  induction 1 as [|x l1 L Hs IH|x l1 L Hs IH]; intros Hnd Hf Hg; [done| |].
  - apply NoDup_cons in Hnd as [Hx Hnd]. simpl. rewrite Hg by (by left). f_equal. apply IH; [done| |intros i Hi; apply Hg; by right].
    intros i Hi Hn. apply Hf; [by right|]. intros [->|?]%elem_of_cons; done.
  - apply NoDup_cons in Hnd as [Hx Hnd]. simpl. rewrite Hf; [|by left|]. 2:{ intros Hin. apply Hx. eapply sublist_submseteq, elem_of_submseteq in Hs; [|exact Hin]. done. }
    apply IH; [done| |done]. intros i Hi. apply Hf. by right.
Qed.

Lemma filter_flat_map {A B} (P : B → bool) (f : A → list B) l : List.filter P (flat_map f l) = flat_map (λ x, List.filter P (f x)) l.
Proof. induction l as [|x l IH]; [done|]. simpl. by rewrite List.filter_app, IH. Qed.

Lemma concat_seq {A} (bs : list (list A)) : concat bs = flat_map (λ i, nth i bs []) (seq 0 (length bs)).
Proof.
  induction bs as [|b bs IH]; [done|]. simpl. f_equal. rewrite IH, <-seq_shift. clear. induction (seq 0 (length bs)) as [|x l IH]; [done|]. simpl. by rewrite IH.
Qed.

(** ** A page *)

Lemma admit_ranges_spec req blocks ranges : ∀ entries last0 adm entries' matched last' tr,
  admit_ranges req blocks ranges entries last0 = (adm, entries', matched, last', tr) →
  ∃ rest, ranges = adm ++ rest ∧ entries' = entries + Z.of_nat (length adm) ∧ (tr = false → rest = []) ∧ (tr = true → rest ≠ [] ∧ 0 < entries') ∧
    last' = match last adm with Some br => match blocks !! Z.to_nat (Last br) with Some b => bi_MaxSeq b | None => 0 end | None => last0 end.
Proof.
  induction ranges as [|br ranges IH]; intros entries last0 adm entries' matched last' tr He; cbn [admit_ranges] in He.
  { injection He as <- <- <- <- <-. exists []. split_and!; [done|simpl; lia|done|done|done]. }
  destruct (atCap req entries) eqn:Ec.
  { injection He as <- <- <- <- <-. exists (br :: ranges). split_and!; [done|simpl; lia|done| |done]. intros _. split; [done|].
    unfold atCap in Ec. apply andb_true_iff in Ec as [H1 H2]. apply Z.ltb_lt in H1. apply Z.leb_le in H2. lia. }
  destruct (admit_ranges req blocks ranges _ _) as [[[[adm1 e1] m1] l1] t1] eqn:Er. injection He as <- <- <- <- <-.
  destruct (IH _ _ _ _ _ _ _ Er) as (rest & -> & -> & Hf & Ht & Hl). exists rest. split_and!; [done|simpl; lia|done|exact Ht|].
  rewrite Hl. destruct adm1 as [|x adm1]; [done|]. change (last (br :: x :: adm1)) with (last (x :: adm1)). destruct (last (x :: adm1)) eqn:E; [done|by apply last_None in E].
Qed.

Lemma last_expand adm br : last adm = Some br → Forall range_ok adm → last (flat_map expand adm) = Some (Z.to_nat (Last br)).
Proof.
  intros Hl Hr. apply last_Some in Hl as [l ->]. apply Forall_app in Hr as [_ Hr]. rewrite Forall_singleton in Hr. rewrite flat_map_app. cbn [flat_map]. rewrite app_nil_r, last_app.
  unfold expand, range_ok in *. set (n := (Z.to_nat (Last br) - Z.to_nat (First br))%nat). rewrite seq_S, last_snoc. f_equal. unfold n. lia.
Qed.

Section page.
Variables (req : PlanSnapshotRequest) (cur : Z) (W : Event → bool) (ok : Event → Prop).
Hypothesis HW : ∀ ev, ok ev → listed (restricts req) ev ∧ (W ev = true → cur < ev_Seq ev → wanted req ev).

(** The rows of the page that end at [hi], if it ends early. *)
Definition in_page (tr : bool) (hi : Z) (ev : Event) : bool := W ev && (cur <? ev_Seq ev) && (negb tr || (ev_Seq ev <=? hi)).

Definition archive : Type := list (SegmentMetadata * list (list Event)).
Definition events (A : archive) : list Event := flat_map (λ sb, concat sb.2) A.

Definition rows_in (bs : list (list Event)) (mode : PlanMode) (ranges : list BlockRange) : list Event :=
  match mode with PlanModeSegment => concat bs | PlanModeBlocks => flat_map (λ i, nth i bs []) (flat_map expand ranges) end.

(** A segment and its blocks; the cursor does not divide a block, nor a segment that
    is planned as a whole. *)
Record page_ok (s : SegmentMetadata) (bs : list (list Event)) : Prop := {
  po_described : described s bs;
  po_listed : Forall ok (concat bs);
  po_blocks : ∀ i info b ev, sm_Blocks s !! i = Some info → bs !! i = Some b → after_all req (bi_MaxSeq info) = false → ev ∈ b → W ev = true → cur < ev_Seq ev;
  po_dense : segmentOverlapsSeq s req = true → is_dense req (length (selectPlanBlocks s req)) (length (sm_Blocks s)) = true →
    ∀ ev, ev ∈ concat bs → W ev = true → cur < ev_Seq ev;
}.

Lemma unselected s bs i tr hi : page_ok s bs → (segmentOverlapsSeq s req = true → i ∉ selectPlanBlocks s req) → List.filter (in_page tr hi) (nth i bs []) = [].
Proof.
  intros [Hd Hl _ _] Hn. apply List_filter_none, Forall_forall. intros ev Hev. destruct (bs !! i) as [b|] eqn:Hb.
  2:{ rewrite nth_lookup, Hb in Hev. inversion Hev. }
  rewrite nth_lookup, Hb in Hev. simpl in Hev. unfold in_page. destruct (W ev) eqn:Ew; [|done]. destruct (cur <? ev_Seq ev) eqn:Ec; [|done]. apply Z.ltb_lt in Ec.
  assert (Hlv : ok ev).
  { apply (proj1 (Forall_forall _ _) Hl). apply list_elem_of_In, in_concat. exists b. split; apply list_elem_of_In; [by eapply list_elem_of_lookup_2|done]. }
  destruct (HW ev Hlv) as [Hli Hwa]. destruct (select_sound s bs req i b ev Hd Hb Hev Hli (Hwa Ew Ec)) as [Ho Hi]. by destruct (Hn Ho).
Qed.

Lemma block_order s bs i j x y : described s bs → (i < j)%nat → sm_Blocks s !! i = Some x → sm_Blocks s !! j = Some y → bi_EventCount x ≠ 0 → bi_EventCount y ≠ 0 →
  bi_MaxSeq x < bi_MinSeq y ∧ bi_MinSeq x ≤ bi_MaxSeq x ∧ bi_MinSeq y ≤ bi_MaxSeq y.
Proof.
  intros Hd Hij Hx Hy Hlx Hly. destruct (de_valid _ _ Hd) as [fo Hv].
  assert (Hlive : Forall (λ info, live info → bi_MinSeq info ≤ bi_MaxSeq info) (sm_Blocks s)).
  { eapply Forall_impl; [exact (de_bounds _ _ Hd)|]. intros info Hb Hl. unfold live in Hl. destruct Hb; lia. }
  destruct (Forall2_lookup_l _ _ _ _ _ (de_blocks _ _ Hd) Hx) as (bx & _ & ? & _). destruct (Forall2_lookup_l _ _ _ _ _ (de_blocks _ _ Hd) Hy) as (by_ & _ & ? & _).
  pose proof (proj1 (Forall_forall _ _) Hlive x ltac:(by eapply list_elem_of_lookup_2)). pose proof (proj1 (Forall_forall _ _) Hlive y ltac:(by eapply list_elem_of_lookup_2)). unfold live in *.
  split_and!; [|lia|lia]. eapply validate_order; [exact Hv|exact Hlive|exact Hij|done|done|unfold live; lia|unfold live; lia].
Qed.

Lemma overlaps_live info : blockOverlapsSeq info req = true → bi_EventCount info ≠ 0 ∧ after_all req (bi_MaxSeq info) = false ∧ before_all req (bi_MinSeq info) = false.
Proof. unfold blockOverlapsSeq. destruct (bi_EventCount info =? 0) eqn:E; [done|]. apply Z.eqb_neq in E. by repeat case_match. Qed.

(** The rows of the admitted ranges are those of the page. *)
Lemma ranges_exact s bs adm rest tr hi : page_ok s bs → coalesceBlocks (selectPlanBlocks s req) = adm ++ rest →
  (tr = true → ∀ i info, i ∈ flat_map expand adm → sm_Blocks s !! i = Some info → bi_MaxSeq info ≤ hi) →
  (rest ≠ [] → tr = true ∧ ∀ i info, i ∈ flat_map expand rest → sm_Blocks s !! i = Some info → hi < bi_MinSeq info) →
  List.filter W (rows_in bs PlanModeBlocks adm) = List.filter (in_page tr hi) (concat bs).
Proof.
  intros Hok Hc Hadm Hrest. destruct (coalesceBlocks_spec (selectPlanBlocks s req)) as [_ Hex]. rewrite Hc, flat_map_app in Hex.
  set (l1 := flat_map expand adm) in *. set (l2 := flat_map expand rest) in *. pose proof (Forall2_length _ _ _ (de_blocks _ _ (po_described _ _ Hok))) as Hlen.
  pose proof (select_sublist s req) as Hsub. rewrite <-Hex, Hlen in Hsub. cbn [rows_in]. rewrite concat_seq, !filter_flat_map.
  assert (Hnd : NoDup (l1 ++ l2)) by (eapply sublist_NoDup; [apply NoDup_seq|exact Hsub]).
  apply flat_map_sublist; [etrans; [|exact Hsub]; by apply sublist_inserts_r|apply NoDup_seq| |].
  - intros i Hi Hn. destruct (decide (i ∈ l2)) as [H2|H2].
    + apply List_filter_none, Forall_forall. intros ev Hev. assert (Hne : rest ≠ []) by (intros ->; inversion H2). destruct (Hrest Hne) as [-> Hhi].
      assert (Hsel : i ∈ selectPlanBlocks s req) by (rewrite <-Hex; apply elem_of_app; by right). destruct (select_overlaps _ _ _ Hsel) as (info & Hinfo & _).
      destruct (Forall2_lookup_l _ _ _ _ _ (de_blocks _ _ (po_described _ _ Hok)) Hinfo) as (b & Hb & _ & _ & Hbnd). rewrite nth_lookup, Hb in Hev. specialize (Hbnd ev Hev). specialize (Hhi i info H2 Hinfo).
      unfold in_page. rewrite (proj2 (Z.leb_gt _ _)) by lia. by rewrite !andb_false_r.
    + apply (unselected s); [done|]. intros _. rewrite <-Hex. intros [?|?]%elem_of_app; done.
  - intros i Hi. apply List.filter_ext_in. intros ev Hev. apply list_elem_of_In in Hev. unfold in_page. destruct (W ev) eqn:Ew; [|done].
    assert (Hsel : i ∈ selectPlanBlocks s req) by (rewrite <-Hex; apply elem_of_app; by left). destruct (select_overlaps _ _ _ Hsel) as (info & Hinfo & Ho). apply overlaps_live in Ho as (_ & Ha & _).
    destruct (Forall2_lookup_l _ _ _ _ _ (de_blocks _ _ (po_described _ _ Hok)) Hinfo) as (b & Hb & _ & _ & Hbnd). rewrite nth_lookup, Hb in Hev. specialize (Hbnd ev Hev).
    rewrite (proj2 (Z.ltb_lt _ _)) by (by eapply (po_blocks _ _ Hok)). destruct tr; [|done]. specialize (Hadm eq_refl i info Hi Hinfo). by rewrite (proj2 (Z.leb_le _ _)) by lia.
Qed.

(** Where a page ends that ends early: behind its last unit, and before [hi]'s limit. *)
Definition ends_at (A : archive) (hi0 entries hi : Z) : Prop :=
  (hi = hi0 ∧ 0 < entries ∨ after_all req hi = false ∧ ∃ s bs, (s, bs) ∈ A ∧ h_EventCount (sm_Header s) ≠ 0 ∧ (hi = h_MaxSeq (sm_Header s) ∨
       is_dense req (length (selectPlanBlocks s req)) (length (sm_Blocks s)) = false ∧ ∃ info, info ∈ sm_Blocks s ∧ bi_EventCount info ≠ 0 ∧ hi = bi_MaxSeq info)) ∧
  (∀ b, rq_BeforeSeq req = Some b → hi < b).

Lemma above_events n A : above n (map fst A) → Forall (λ sb, described sb.1 sb.2) A → ∀ ev, ev ∈ events A → n < ev_Seq ev.
Proof.
  intros Ha Hd ev Hev. unfold events in Hev. apply list_elem_of_In, in_flat_map in Hev as ([s bs] & Hin & Hev). apply list_elem_of_In in Hin, Hev. simpl in Hev.
  pose proof (proj1 (Forall_forall _ _) Hd _ Hin) as Hds. simpl in Hds. apply list_elem_of_In, in_concat in Hev as (b & Hb & Hev). apply list_elem_of_In in Hb, Hev.
  apply list_elem_of_lookup in Hb as [i Hi]. destruct (Forall2_lookup_r _ _ _ _ _ (de_blocks _ _ Hds) Hi) as (info & Hinfo & _ & Hcnt & Hbnd). specialize (Hbnd ev Hev).
  assert (Hne : bi_EventCount info ≠ 0) by (intros Hz; apply Hcnt in Hz; subst b; inversion Hev).
  destruct (proj1 (Forall_forall _ _) (de_bounds _ _ Hds) info ltac:(by eapply list_elem_of_lookup_2) Hne) as (_ & ? & _).
  assert (Hn : n < sm_MinSeq s).
  { apply Ha; [by apply (list_elem_of_fmap_2 fst) in Hin|]. intros Hz. apply (de_count _ _ Hds) in Hz.
    assert (Hx : In ev (concat bs)) by (apply in_concat; exists b; split; apply list_elem_of_In; [by eapply list_elem_of_lookup_2|done]). by rewrite Hz in Hx. }
  rewrite (de_min _ _ Hds) in Hn. lia.
Qed.

Lemma in_page_none tr hi A : tr = true → (∀ ev, ev ∈ events A → hi < ev_Seq ev) → List.filter (in_page tr hi) (events A) = [].
Proof.
  intros -> Hhi. apply List_filter_none, Forall_forall. intros ev Hev. specialize (Hhi ev Hev). unfold in_page. rewrite (proj2 (Z.leb_gt _ _)) by lia. by rewrite andb_false_r.
Qed.

Variable rows : PlannedSegment → list Event.

Lemma segment_overlaps s : segmentOverlapsSeq s req = true → h_EventCount (sm_Header s) ≠ 0 ∧ after_all req (h_MaxSeq (sm_Header s)) = false ∧ before_all req (h_MinSeq (sm_Header s)) = false.
Proof. unfold segmentOverlapsSeq. destruct (h_EventCount (sm_Header s) =? 0) eqn:E; [by rewrite orb_true_r|]. apply Z.eqb_neq in E. by repeat case_match. Qed.

Lemma before_lt n m : n < m → before_all req m = false → ∀ b, rq_BeforeSeq req = Some b → n < b.
Proof. unfold before_all. intros Hn Hb b Hq. rewrite Hq in Hb. apply Z.ltb_ge in Hb. lia. Qed.

(** The selected blocks end in order. *)
Lemma selected_order s bs l1 l2 i j x y : described s bs → selectPlanBlocks s req = l1 ++ l2 → i ∈ l1 → j ∈ l2 → sm_Blocks s !! i = Some x → sm_Blocks s !! j = Some y → bi_MaxSeq x < bi_MinSeq y.
Proof.
  intros Hd Hl Hi Hj Hx Hy. assert (Hlt : (i < j)%nat).
  { pose proof (select_sublist s req) as Hsub. rewrite Hl in Hsub. pose proof (StronglySorted_sublist _ _ _ Hsub (seq_sorted (length (sm_Blocks s)) 0)) as Hs2. clear -Hs2 Hi Hj. induction l1 as [|z l1 IH]; [inversion Hi|]. simpl in Hs2. inversion_clear Hs2 as [|?? Hs' Hf].
    apply elem_of_cons in Hi as [->|Hi]; [|by apply IH]. apply (proj1 (Forall_forall _ _) Hf). apply elem_of_app. by right. }
  assert (Hsi : ∀ k z, k ∈ selectPlanBlocks s req → sm_Blocks s !! k = Some z → bi_EventCount z ≠ 0).
  { intros k z Hk Hz. destruct (select_overlaps _ _ _ Hk) as (z' & Hz' & Ho). rewrite Hz in Hz'. injection Hz' as <-. by apply overlaps_live in Ho as [? _]. }
  eapply (block_order s bs i j); [done|done|done|done|apply (Hsi i); [rewrite Hl; apply elem_of_app; by left|done]|apply (Hsi j); [rewrite Hl; apply elem_of_app; by right|done]].
Qed.

(** The ranges of a segment up to the limit of the page. *)
Lemma admitted_ranges s bs entries last0 adm entries' m hi t : page_ok s bs → segmentOverlapsSeq s req = true → selectPlanBlocks s req ≠ [] →
  admit_ranges req (sm_Blocks s) (coalesceBlocks (selectPlanBlocks s req)) entries last0 = (adm, entries', m, hi, t) → 0 ≤ entries → (entries = 0 ∨ last0 < sm_MinSeq s) →
  ∃ rest, coalesceBlocks (selectPlanBlocks s req) = adm ++ rest ∧ entries' = entries + Z.of_nat (length adm) ∧ (t = false → rest = [] ∧ adm ≠ []) ∧
    (t = true → rest ≠ [] ∧ 0 < entries' ∧ ∀ b, rq_BeforeSeq req = Some b → hi < b) ∧
    (∀ i info, i ∈ flat_map expand adm → sm_Blocks s !! i = Some info → bi_MaxSeq info ≤ hi) ∧
    (∀ i info, i ∈ flat_map expand rest → sm_Blocks s !! i = Some info → hi < bi_MinSeq info) ∧
    (adm = [] ∧ hi = last0 ∧ 0 < entries ∨
     after_all req hi = false ∧ sm_MinSeq s ≤ hi ≤ sm_MaxSeq s ∧ ∃ info, info ∈ sm_Blocks s ∧ bi_EventCount info ≠ 0 ∧ hi = bi_MaxSeq info).
Proof.
  intros Hok Hov Hne He He0 Ha. pose proof (po_described _ _ Hok) as Hd. destruct (admit_ranges_spec _ _ _ _ _ _ _ _ _ _ He) as (rest & Hc & Hn & Hf & Ht & Hl).
  destruct (coalesceBlocks_spec (selectPlanBlocks s req)) as [Hr Hex]. rewrite Hc in Hr, Hex. rewrite flat_map_app in Hex. apply Forall_app in Hr as [Hr Hr2].
  assert (Hsel : ∀ i, i ∈ flat_map expand adm ++ flat_map expand rest → ∃ info, sm_Blocks s !! i = Some info ∧ bi_EventCount info ≠ 0 ∧ after_all req (bi_MaxSeq info) = false ∧
    before_all req (bi_MinSeq info) = false ∧ sm_MinSeq s ≤ bi_MinSeq info ≤ bi_MaxSeq info ∧ bi_MaxSeq info ≤ sm_MaxSeq s).
  { intros i Hi. rewrite Hex in Hi. destruct (select_overlaps _ _ _ Hi) as (info & Hinfo & Ho). apply overlaps_live in Ho as (Hlv & Hao & Hbo). exists info. rewrite (de_min _ _ Hd), (de_max _ _ Hd).
    destruct (proj1 (Forall_forall _ _) (de_bounds _ _ Hd) info ltac:(by eapply list_elem_of_lookup_2) Hlv) as (_ & ? & ?). done. }
  assert (Hhi : (adm = [] ∧ hi = last0 ∧ 0 < entries ∧ last0 < sm_MinSeq s) ∨ ∃ l1 k info, flat_map expand adm = l1 ++ [k] ∧ sm_Blocks s !! k = Some info ∧ hi = bi_MaxSeq info).
  { destruct (last adm) as [br|] eqn:El.
    - right. pose proof (last_expand _ _ El Hr) as Hk. apply last_Some in Hk as [l1 Hk]. destruct (Hsel (Z.to_nat (Last br))) as (info & Hinfo & _); [rewrite Hk, !elem_of_app; left; right; by left|].
      exists l1, (Z.to_nat (Last br)), info. by rewrite Hl, Hinfo.
    - left. apply last_None in El as ->. destruct t; [|rewrite (Hf eq_refl) in Hex; exfalso; apply Hne; by rewrite <-Hex]. destruct (Ht eq_refl) as [_ Hp]. simpl in Hn.
      split_and!; [done|done|lia|destruct Ha; [lia|done]]. }
  assert (Hrest : ∀ i info, i ∈ flat_map expand rest → sm_Blocks s !! i = Some info → hi < bi_MinSeq info).
  { intros i info Hi Hinfo. destruct (Hsel i) as (info' & Hinfo' & _ & _ & _ & Hb & _); [apply elem_of_app; by right|]. rewrite Hinfo in Hinfo'. injection Hinfo' as <-.
    destruct Hhi as [(-> & -> & _ & ?)|(l1 & k & x & Hk & Hx & ->)]; [lia|]. eapply (selected_order s bs); [done|by rewrite <-Hex|rewrite Hk, elem_of_app; right; by left|exact Hi|done|done]. }
  exists rest. split_and!; [done|done| | | |done|].
  - intros Hz. specialize (Hf Hz) as ->. split; [done|]. intros ->. apply Hne. by rewrite <-Hex.
  - intros Hz. destruct (Ht Hz) as [Hrn Hp]. split_and!; [done|done|]. destruct rest as [|br rest']; [done|]. inversion_clear Hr2 as [|?? Hbr _].
    assert (Hin : Z.to_nat (First br) ∈ flat_map expand (br :: rest')) by (cbn [flat_map]; apply elem_of_app; left; apply expand_elem; [done|]; unfold range_ok in Hbr; lia).
    destruct (Hsel (Z.to_nat (First br))) as (info & Hinfo & _ & _ & Hbo & _); [apply elem_of_app; by right|]. eapply before_lt; [|exact Hbo]. by eapply Hrest.
  - intros i info Hi Hinfo. destruct Hhi as [(-> & _)|(l1 & k & x & Hk & Hx & ->)]; [inversion Hi|]. rewrite Hk in Hi. apply elem_of_app in Hi as [Hi|Hi%list_elem_of_singleton].
    + assert (Hlt : bi_MaxSeq info < bi_MinSeq x).
      { eapply (selected_order s bs l1 ([k] ++ flat_map expand rest)); [done|by rewrite <-Hex, Hk, <-app_assoc|exact Hi|by left|done|done]. }
      destruct (Hsel k) as (x' & Hx' & _ & _ & _ & ? & _); [rewrite Hk, !elem_of_app; left; right; by left|]. rewrite Hx in Hx'. injection Hx' as <-. lia.
    + subst k. rewrite Hx in Hinfo. by injection Hinfo as ->.
  - destruct Hhi as [(-> & -> & ? & _)|(l1 & k & x & Hk & Hx & ->)]; [by left|right]. destruct (Hsel k) as (x' & Hx' & ? & ? & _ & ? & ?); [rewrite Hk, !elem_of_app; left; right; by left|].
    rewrite Hx in Hx'. injection Hx' as <-. split_and!; [done|lia|lia|]. exists x. split_and!; [by eapply list_elem_of_lookup_2|done|done].
Qed.

Lemma ends_at_cons sb A hi0 entries hi : ends_at A hi0 entries hi → ends_at (sb :: A) hi0 entries hi.
Proof. intros [[?|(? & s & bs & ? & ?)] ?]; (split; [|done]); [by left|right]. split; [done|]. exists s, bs. split; [by right|done]. Qed.

Lemma events_cons s bs A : events ((s, bs) :: A) = concat bs ++ events A.
Proof. done. Qed.

(** A segment from which nothing is selected has no rows of the page. *)
Lemma nothing_selected s bs tr hi : page_ok s bs → (segmentOverlapsSeq s req = true → selectPlanBlocks s req = []) → List.filter (in_page tr hi) (concat bs) = [].
Proof.
  intros Hok Hn. rewrite concat_seq, filter_flat_map. assert (Hz : ∀ l, flat_map (λ i, List.filter (in_page tr hi) (nth i bs [])) l = []); [|apply Hz].
  induction l as [|i l IH]; [done|]. cbn [flat_map]. rewrite IH, app_nil_r. apply (unselected s); [done|]. intros Ho. rewrite (Hn Ho). intros Hi. inversion Hi.
Qed.

Lemma above_mono n m segs : n ≤ m → above m segs → above n segs.
Proof. intros Hn Ha s Hs Hne. specialize (Ha s Hs Hne). lia. Qed.

Lemma above_cons n s segs : above n (s :: segs) → (h_EventCount (sm_Header s) ≠ 0 → n < sm_MinSeq s) ∧ above n segs.
Proof. intros Ha. split; [apply Ha; by left|]. intros x Hx. apply Ha. by right. Qed.

Lemma event_le_max s bs ev : described s bs → ev ∈ concat bs → h_EventCount (sm_Header s) ≠ 0 → ev_Seq ev ≤ h_MaxSeq (sm_Header s).
Proof.
  intros Hd Hev Hne. apply list_elem_of_In, in_concat in Hev as (b & Hb & Hev). apply list_elem_of_In in Hb, Hev. apply list_elem_of_lookup in Hb as [i Hi].
  destruct (Forall2_lookup_r _ _ _ _ _ (de_blocks _ _ Hd) Hi) as (info & Hinfo & _ & Hcnt & Hbnd). specialize (Hbnd ev Hev).
  destruct (proj1 (Forall_forall _ _) (de_bounds _ _ Hd) info ltac:(by eapply list_elem_of_lookup_2)) as (_ & _ & ?); [|lia]. intros Hz. apply Hcnt in Hz. subst b. inversion Hev.
Qed.

Definition rows_ok (A : archive) : Prop := ∀ s bs mode ranges, (s, bs) ∈ A → rows (planned_of s mode ranges) = rows_in bs mode ranges.

(** The rows of a page that pass the matcher are those behind the cursor, up to where
    the page ends. *)
Lemma plan_loop_exact A : ∀ stats last0 plans stats' hi tr, plan_loop req (map fst A) stats last0 = (plans, stats', hi, tr) →
  Forall (λ sb, page_ok sb.1 sb.2) A → ordered (map fst A) → rows_ok A → 0 ≤ Entries stats → (Entries stats = 0 ∨ above last0 (map fst A)) →
  List.filter W (flat_map rows plans) = List.filter (in_page tr hi) (events A) ∧
  (tr = true → ends_at A last0 (Entries stats) hi ∧ (above last0 (map fst A) → last0 ≤ hi)).
Proof.
  induction A as [|[s bs] A IH]; intros stats last0 plans stats' hi tr Hp Hok Hord Hrows He Ha; [by injection Hp as <- <- <- <-|].
  inversion_clear Hok as [|?? Hs Hok']. cbn [fst snd] in Hs. cbn [map fst ordered] in Hord. destruct Hord as [Hord1 Hord]. change (map fst ((s, bs) :: A)) with (s :: map fst A) in *. assert (Hrows' : rows_ok A) by (intros s' bs' m r Hin; apply Hrows; by right).
  pose proof (po_described _ _ Hs) as Hd. assert (Hdall : Forall (λ sb, described sb.1 sb.2) A) by (eapply Forall_impl; [exact Hok'|]; by intros x [? _ _ _]).
  cbn [map fst plan_loop] in Hp. set (stats1 := mkStats _ _ _ _) in Hp. assert (He1 : Entries stats1 = Entries stats) by done.
  assert (Hskip : plan_loop req (map fst A) stats1 last0 = (plans, stats', hi, tr) → (segmentOverlapsSeq s req = true → selectPlanBlocks s req = []) →
    List.filter W (flat_map rows plans) = List.filter (in_page tr hi) (events ((s, bs) :: A)) ∧
    (tr = true → ends_at ((s, bs) :: A) last0 (Entries stats) hi ∧ (above last0 (s :: map fst A) → last0 ≤ hi))).
  { intros Hp' Hn. destruct (IH _ _ _ _ _ _ Hp' Hok' Hord Hrows') as [H1 H2]; [lia|destruct Ha as [?|Ha]; [left; lia|right; by apply above_cons in Ha as [_ ?]]|].
    rewrite events_cons, List.filter_app, (nothing_selected s bs tr hi Hs Hn), H1. split; [done|]. intros Ht. destruct (H2 Ht) as [? Hm]. split; [by apply ends_at_cons|]. intros Hab. apply Hm. by apply above_cons in Hab as [_ ?]. }
  destruct (segmentOverlapsSeq s req) eqn:Eo; cbn [negb] in Hp; [|by apply Hskip]. destruct (segment_overlaps s Eo) as (Hlive & Hao & Hbo). specialize (Hord1 Hlive). pose proof (described_bounds _ _ Hd Hlive) as Hmm.
  destruct (selectPlanBlocks s req) as [|i0 sel0] eqn:Esel; [by apply Hskip|]. clear Hskip. cbv iota in Hp. rewrite <-Esel in Hp.
  assert (Hne : selectPlanBlocks s req ≠ []) by (by rewrite Esel). clear Esel.
  assert (Habove : ∀ n, n < sm_MinSeq s → ∀ ev, ev ∈ events ((s, bs) :: A) → n < ev_Seq ev).
  { intros n Hn. apply above_events; [|by constructor]. intros x Hx Hxl. cbn [map fst] in Hx. apply elem_of_cons in Hx as [->|Hx]; [done|]. specialize (Hord1 x Hx Hxl). lia. }
  destruct (is_dense req _ _) eqn:Ed.
  - destruct (atCap req (Entries stats1)) eqn:Ecap.
    + injection Hp as <- <- <- <-. assert (Hent : 0 < Entries stats) by (unfold atCap in Ecap; apply andb_true_iff in Ecap as [H1 H2]; apply Z.ltb_lt in H1; apply Z.leb_le in H2; lia).
      destruct Ha as [?|Ha]; [lia|]. apply above_cons in Ha as [Ha _]. specialize (Ha Hlive). split; [by rewrite (in_page_none _ _ _ eq_refl (Habove _ Ha))|].
      intros _. split; [|lia]. split; [by left|]. rewrite (de_min _ _ Hd) in Ha. by eapply before_lt.
    + destruct (plan_loop req (map fst A) _ _) as [[[plans1 stats2] hi1] tr1] eqn:Er. injection Hp as <- <- <- <-.
      rewrite (de_max _ _ Hd) in Hord1, Hmm. destruct (IH _ _ _ _ _ _ Er Hok' Hord Hrows') as [H1 H2]; [cbn; lia|by right|]. cbn [flat_map]. rewrite Hrows by (by left). cbn [rows_in].
      rewrite events_cons, !List.filter_app, H1. split.
      * f_equal. apply List.filter_ext_in. intros ev Hev. apply list_elem_of_In in Hev. unfold in_page. destruct (W ev) eqn:Ew; [|done]. rewrite (proj2 (Z.ltb_lt _ _)) by (by eapply (po_dense _ _ Hs)).
        destruct tr1; [|done]. destruct (H2 eq_refl) as [_ Hm]. specialize (Hm Hord1). pose proof (event_le_max _ _ _ Hd Hev Hlive). by rewrite (proj2 (Z.leb_le _ _)) by lia.
      * intros Ht. destruct (H2 Ht) as [He2 Hm]. specialize (Hm Hord1). split; [|intros Hab; apply above_cons in Hab as [Hab _]; specialize (Hab Hlive); lia].
        destruct He2 as [[[-> _]|(Hx & s' & bs' & Hin & Hcase)] Hbf]; (split; [|done]); right; (split; [done|]); [exists s, bs; split_and!; [by left|done|by left]|exists s', bs'; split; [by right|done]].
  - destruct (admit_ranges req (sm_Blocks s) _ _ _) as [[[[adm entries] matched] hi0] t0] eqn:Eadm.
    destruct (admitted_ranges s bs _ _ _ _ _ _ _ Hs Eo Hne Eadm) as (rest & Hc & Hn & Hf & Ht & Hadm & Hrest & Hcase); [lia|destruct Ha as [?|Ha]; [left; lia|right; apply above_cons in Ha as [Ha _]; by apply Ha]|].
    rewrite He1 in *. assert (Hhi0 : above hi0 (map fst A)).
    { destruct Hcase as [(_ & -> & ?)|(_ & ? & _)]; [destruct Ha as [?|Ha]; [lia|by apply above_cons in Ha as [_ ?]]|]. eapply above_mono; [|exact Hord1]. lia. }
    assert (Hle : above last0 (s :: map fst A) → last0 ≤ hi0) by (intros Hab; apply above_cons in Hab as [Hab _]; specialize (Hab Hlive); destruct Hcase as [(_ & -> & _)|(_ & ? & _)]; lia).
    assert (Hend : 0 < entries → ∀ hi', hi' = hi0 → (hi' = last0 ∧ 0 < Entries stats ∨ after_all req hi' = false ∧ ∃ s' bs', (s', bs') ∈ (s, bs) :: A ∧ h_EventCount (sm_Header s') ≠ 0 ∧
      (hi' = h_MaxSeq (sm_Header s') ∨ is_dense req (length (selectPlanBlocks s' req)) (length (sm_Blocks s')) = false ∧
         ∃ info, info ∈ sm_Blocks s' ∧ bi_EventCount info ≠ 0 ∧ hi' = bi_MaxSeq info))).
    { intros _ hi' ->. destruct Hcase as [(_ & -> & ?)|(? & _ & ?)]; [by left|right]. split; [done|]. exists s, bs. split_and!; [by left|done|by right]. }
    destruct t0.
    + injection Hp as <- <- <- <-. destruct (Ht eq_refl) as (Hrn & Hpos & Hbf). split; [|intros _; split; [split; [by apply Hend|done]|done]].
      rewrite events_cons, List.filter_app, (in_page_none true hi0 A eq_refl) by (by apply above_events). rewrite app_nil_r.
      rewrite <-(ranges_exact s bs adm rest true hi0 Hs Hc); [|intros _; exact Hadm|intros _; by split]. destruct adm as [|br adm]; [done|].
      rewrite bool_decide_false by done. cbn [negb flat_map]. by rewrite Hrows, app_nil_r by (by left).
    + destruct (plan_loop req (map fst A) _ hi0) as [[[plans1 stats2] hi1] tr1] eqn:Er. injection Hp as <- <- <- <-. destruct (Hf eq_refl) as [-> Hadmn].
      destruct (IH _ _ _ _ _ _ Er Hok' Hord Hrows') as [H1 H2]; [cbn; lia|by right|]. cbn [Entries] in H2.
      assert (Hpos : 0 < entries) by (destruct adm; [done|simpl in Hn; lia]). rewrite bool_decide_false by (by destruct adm). cbn [negb]. rewrite flat_map_app. cbn [flat_map].
      rewrite Hrows by (by left). rewrite app_nil_r, events_cons, !List.filter_app, H1. split.
      * f_equal. apply (ranges_exact s bs adm [] tr1 hi1 Hs Hc); [|done]. intros Ht1 i info Hi Hinfo. destruct (H2 Ht1) as [_ Hm]. specialize (Hm Hhi0). specialize (Hadm i info Hi Hinfo). lia.
      * intros Ht1. destruct (H2 Ht1) as [He2 Hm]. specialize (Hm Hhi0). split; [|intros Hab; specialize (Hle Hab); lia].
        destruct He2 as [[[-> _]|(Hx & s' & bs' & Hin & Hc')] Hbf]; (split; [|done]); [by apply Hend|]. right. split; [done|]. exists s', bs'. split; [by right|done].
Qed.

(** The planned segments are segments of the archive. *)
Definition planned_from (segs : list SegmentMetadata) (p : PlannedSegment) : Prop :=
  ∃ s mode ranges, s ∈ segs ∧ p = planned_of s mode ranges ∧ h_EventCount (sm_Header s) ≠ 0 ∧
    match mode with
    | PlanModeSegment => ranges = []
    | PlanModeBlocks => ranges ≠ [] ∧ Forall (λ br, range_ok br ∧ Last br < Z.of_nat (length (sm_Blocks s))) ranges
    end.

Lemma ranges_in_blocks s adm rest : coalesceBlocks (selectPlanBlocks s req) = adm ++ rest → Forall (λ br, range_ok br ∧ Last br < Z.of_nat (length (sm_Blocks s))) adm.
Proof.
  intros Hc. destruct (coalesceBlocks_spec (selectPlanBlocks s req)) as [Hr Hex]. rewrite Hc in Hr, Hex. apply Forall_app in Hr as [Hr _]. apply Forall_forall. intros br Hbr.
  pose proof (proj1 (Forall_forall _ _) Hr br Hbr) as Hok. split; [done|]. assert (Hin : Z.to_nat (Last br) ∈ selectPlanBlocks s req).
  { rewrite <-Hex. apply list_elem_of_In, in_flat_map. exists br. split; [apply in_or_app; left; by apply list_elem_of_In|]. apply list_elem_of_In, expand_elem; [done|]. unfold range_ok in Hok. lia. }
  pose proof (select_sublist s req) as Hsub. eapply sublist_submseteq, elem_of_submseteq in Hsub; [|exact Hin]. apply elem_of_seq in Hsub. unfold range_ok in Hok. lia.
Qed.

Lemma plan_loop_from segs : ∀ stats last0 plans stats' hi tr, plan_loop req segs stats last0 = (plans, stats', hi, tr) → Forall (planned_from segs) plans.
Proof.
  induction segs as [|s segs IH]; intros stats last0 plans stats' hi tr Hp; [by injection Hp as <- <- <- <-|]. cbn [plan_loop] in Hp. set (stats1 := mkStats _ _ _ _) in Hp.
  assert (Hcons : ∀ l, Forall (planned_from segs) l → Forall (planned_from (s :: segs)) l).
  { intros l Hl. eapply Forall_impl; [exact Hl|]. intros p (s' & m & r & ? & ? & ? & ?). exists s', m, r. split_and!; [by right|done|done|done]. }
  destruct (segmentOverlapsSeq s req) eqn:Eo; cbn [negb] in Hp; [|by eapply Hcons, IH]. destruct (segment_overlaps s Eo) as (Hlive & _ & _).
  destruct (selectPlanBlocks s req) as [|i0 sel0] eqn:Esel; [by eapply Hcons, IH|]. cbv iota in Hp. rewrite <-Esel in Hp. destruct (is_dense req _ _).
  - destruct (atCap req (Entries stats1)); [by injection Hp as <- <- <- <-|]. destruct (plan_loop req segs _ _) as [[[plans1 stats2] hi1] tr1] eqn:Er. injection Hp as <- <- <- <-.
    constructor; [|by eapply Hcons, IH]. exists s, PlanModeSegment, []. split_and!; [by left|done|done|done].
  - destruct (admit_ranges req (sm_Blocks s) _ _ _) as [[[[adm entries] matched] hi0] t0] eqn:Eadm. destruct (admit_ranges_spec _ _ _ _ _ _ _ _ _ _ Eadm) as (rest & Hc & _).
    assert (Hone : Forall (planned_from (s :: segs)) (if negb (bool_decide (length adm = O)) then [planned_of s PlanModeBlocks adm] else [])).
    { destruct adm as [|br adm]; [done|]. rewrite bool_decide_false by done. cbn [negb]. constructor; [|done]. exists s, PlanModeBlocks, (br :: adm). split_and!; [by left|done|done|done|]. by eapply ranges_in_blocks. }
    destruct t0; [by injection Hp as <- <- <- <-|]. destruct (plan_loop req segs _ hi0) as [[[plans1 stats2] hi1] tr1] eqn:Er. injection Hp as <- <- <- <-.
    apply Forall_app. split; [done|by eapply Hcons, IH].
Qed.
End page.

(** ** From one page to the next *)

Lemma ordered_cases segs s s' : ordered segs → s ∈ segs → s' ∈ segs → h_EventCount (sm_Header s) ≠ 0 → h_EventCount (sm_Header s') ≠ 0 →
  s = s' ∨ sm_MaxSeq s < sm_MinSeq s' ∨ sm_MaxSeq s' < sm_MinSeq s.
Proof.
  induction segs as [|x segs IH]; intros Ho Hs Hs' Hl Hl'; [inversion Hs|]. destruct Ho as [Hx Ho]. apply elem_of_cons in Hs as [->|Hs], Hs' as [->|Hs']; [by left| | |by apply IH].
  - right. left. by apply Hx.
  - right. right. by apply Hx.
Qed.

Lemma omap_length {A} (g g' : A → option nat) (l : list A) : Forall (λ x, is_Some (g' x) → is_Some (g x)) l → (length (omap g' l) ≤ length (omap g l))%nat.
Proof.
  induction 1 as [|x l Hx _ IH]; [done|]. cbn [omap list_omap]. destruct (g' x) eqn:E'; destruct (g x) eqn:E; simpl; try lia. destruct Hx as [? ?]; [by eexists|done].
Qed.

(** The same filter with a window inside another one selects no more blocks. *)
Definition narrower (rq' rq : PlanSnapshotRequest) : Prop :=
  rq_Kinds rq' = rq_Kinds rq ∧ rq_DIDs rq' = rq_DIDs rq ∧ rq_Collections rq' = rq_Collections rq ∧ rq_CollectionPrefixes rq' = rq_CollectionPrefixes rq ∧
  rq_WholeSegmentThreshold rq' = rq_WholeSegmentThreshold rq ∧
  (∀ m, after_all rq' m = false → 0 < m → after_all rq m = false) ∧ (∀ m, before_all rq' m = false → before_all rq m = false).

Lemma select_narrower s bs rq' rq : narrower rq' rq → described s bs → (length (selectPlanBlocks s rq') ≤ length (selectPlanBlocks s rq))%nat.
Proof.
  intros (E1 & E2 & E3 & E4 & _ & Ha & Hb) Hd. unfold selectPlanBlocks, collections_match_all. rewrite E1, E2, E3, E4. repeat (case_match; [simpl; lia|]).
  apply omap_length, Forall_forall. intros [i info] Hin. apply list_elem_of_lookup in Hin as [k Hk]. rewrite list_lookup_imap in Hk.
  destruct (sm_Blocks s !! k) as [info'|] eqn:Ei; [|done]. injection Hk as <- <-. cbn.
  assert (Hov : blockOverlapsSeq info' rq' = true → blockOverlapsSeq info' rq = true).
  { unfold blockOverlapsSeq. destruct (bi_EventCount info' =? 0) eqn:E; [done|]. apply Z.eqb_neq in E.
    destruct (proj1 (Forall_forall _ _) (de_bounds _ _ Hd) info' ltac:(by eapply list_elem_of_lookup_2) E) as (? & ? & ?).
    destruct (after_all rq' (bi_MaxSeq info')) eqn:Ea; [done|]. destruct (before_all rq' (bi_MinSeq info')) eqn:Eb; [done|]. intros _. rewrite (Ha _ Ea ltac:(lia)). by rewrite (Hb _ Eb). }
  destruct (blockOverlapsSeq info' rq'); cbn [negb]; [rewrite Hov by done|by intros [? ?]]. cbn [negb]. done.
Qed.

Lemma event_block s bs ev : described s bs → ev ∈ concat bs → h_EventCount (sm_Header s) ≠ 0 ∧ sm_MinSeq s ≤ ev_Seq ev ≤ sm_MaxSeq s ∧ 0 < ev_Seq ev.
Proof.
  intros Hd Hev. assert (Hc : h_EventCount (sm_Header s) ≠ 0) by (intros Hz; apply (de_count _ _ Hd) in Hz; rewrite Hz in Hev; inversion Hev). split; [done|].
  apply list_elem_of_In, in_concat in Hev as (b & Hb & Hev). apply list_elem_of_In in Hb, Hev. apply list_elem_of_lookup in Hb as [i Hi].
  destruct (Forall2_lookup_r _ _ _ _ _ (de_blocks _ _ Hd) Hi) as (info & Hinfo & _ & Hcnt & Hbnd). specialize (Hbnd ev Hev).
  destruct (proj1 (Forall_forall _ _) (de_bounds _ _ Hd) info ltac:(by eapply list_elem_of_lookup_2)) as (? & ? & ?); [intros Hz; apply Hcnt in Hz; subst b; inversion Hev|].
  rewrite (de_min _ _ Hd), (de_max _ _ Hd). lia.
Qed.

(** A share that is enough stays enough when it grows. *)
Class FloatLaws := { dense_mono : ∀ t a b n, 0 ≤ a ≤ b → 0 < n →
  f64_le t (f64_div (f64_of a) (f64_of n)) = true → f64_le t (f64_div (f64_of b) (f64_of n)) = true }.
Context `{!FloatLaws}.

(** A page that ends early leaves the cursor where the next page can begin. *)
Lemma next_page A rq cur W ok hi rq' : Forall (λ sb, page_ok rq cur W ok sb.1 sb.2) A → ordered (map fst A) → ends_at rq A 0 0 hi → narrower rq' rq →
  (∀ m, after_all rq' m = false → hi < m) → Forall (λ sb, page_ok rq' hi W ok sb.1 sb.2) A.
Proof.
  intros Hok Hord [[[_ ?]|(_ & s0 & bs0 & Hin0 & Hl0 & Hhi)] _] Hnar Haft; [lia|]. pose proof (proj1 (Forall_forall _ _) Hok _ Hin0) as Hok0. pose proof (po_described _ _ _ _ _ _ Hok0) as Hd0. cbn [fst snd] in Hd0.
  assert (Hle : sm_MinSeq s0 ≤ hi ≤ sm_MaxSeq s0).
  { pose proof (described_bounds _ _ Hd0 Hl0). rewrite (de_min _ _ Hd0), (de_max _ _ Hd0) in *. destruct Hhi as [->|(_ & info & Hin & Hl & ->)]; [lia|].
    destruct (proj1 (Forall_forall _ _) (de_bounds _ _ Hd0) info Hin Hl) as (? & ? & ?). lia. }
  apply Forall_forall. intros [s bs] Hin. pose proof (proj1 (Forall_forall _ _) Hok _ Hin) as Hs. cbn [fst snd] in *. destruct Hs as [Hd Hlist Hblk Hdense].
  assert (Hcase : h_EventCount (sm_Header s) ≠ 0 → s = s0 ∨ sm_MaxSeq s < hi ∨ hi < sm_MinSeq s).
  { intros Hl. destruct (ordered_cases _ s s0 Hord) as [->|[?|?]]; [by apply (list_elem_of_fmap_2 fst) in Hin|by apply (list_elem_of_fmap_2 fst) in Hin0|done|done|by left|right; left; lia|right; right; lia]. }
  split; [done|done| |].
  - intros i info b ev Hi Hb Ha Hev Hw. apply Haft in Ha. destruct (Forall2_lookup_r _ _ _ _ _ (de_blocks _ _ Hd) Hb) as (info' & Hi' & _ & Hcnt & Hbnd). rewrite Hi in Hi'. injection Hi' as <-.
    specialize (Hbnd ev Hev). assert (Hlive : bi_EventCount info ≠ 0) by (intros Hz; apply Hcnt in Hz; subst b; inversion Hev).
    destruct (proj1 (Forall_forall _ _) (de_bounds _ _ Hd) info ltac:(by eapply list_elem_of_lookup_2) Hlive) as (? & ? & ?).
    assert (Hevc : ev ∈ concat bs) by (apply list_elem_of_In, in_concat; exists b; split; apply list_elem_of_In; [by eapply list_elem_of_lookup_2|done]).
    destruct (event_block _ _ _ Hd Hevc) as (Hl & ? & _). destruct (Hcase Hl) as [->|[?|?]]; [|rewrite (de_max _ _ Hd) in *; lia|lia].
    destruct Hhi as [->|(_ & info0 & Hin0' & Hlive0 & ->)]; [lia|]. apply list_elem_of_lookup in Hin0' as [i0 Hi0].
    destruct (decide (i = i0)) as [->|Hne]; [rewrite Hi in Hi0; injection Hi0 as ->; lia|]. destruct (decide (i < i0)%nat).
    + destruct (block_order s0 bs i i0 info info0) as (? & ? & ?); [done|done|done|done|done|done|lia].
    + destruct (block_order s0 bs i0 i info0 info) as (? & ? & ?); [done|lia|done|done|done|done|lia].
  - intros Ho Hdn ev Hev Hw. destruct (event_block _ _ _ Hd Hev) as (Hl & ? & _). destruct (segment_overlaps rq' s Ho) as (_ & Ha & _). apply Haft in Ha. rewrite <-(de_max _ _ Hd) in Ha.
    destruct (Hcase Hl) as [->|[?|?]]; [|lia|lia]. destruct Hhi as [->|(Hnd & _)]; [rewrite (de_max _ _ Hd) in Ha; lia|]. exfalso.
    assert (Ht : is_dense rq (length (selectPlanBlocks s0 rq)) (length (sm_Blocks s0)) = true); [|congruence]. unfold is_dense in *. destruct Hnar as (E1 & E2 & E3 & E4 & E5 & E6 & E7).
    rewrite <-E5. eapply dense_mono; [|lia|exact Hdn]. pose proof (select_narrower s0 bs rq' rq ltac:(by split_and!) Hd). lia.
Qed.
End planning.

(** ** The filter of a request and the matcher *)

Class AtmosLaws `{Atmos} := {
  ParseDID_same : ∀ s d, atmos_ParseDID s = Some d → d = s;
  ParseDID_empty : atmos_ParseDID "" = None;
  ParseNSID_same : ∀ s d, atmos_ParseNSID s = Some d → d = s;
}.

Lemma str_rev_app_spec s : ∀ acc, str_rev_app s acc = (str_rev s ++ acc)%string.
Proof.
  induction s as [|c s IH]; intros acc; [done|]. unfold str_rev. cbn [str_rev_app]. rewrite (IH (String c acc)), (IH (String c "")), str_app_assoc. done.
Qed.
Lemma str_rev_cons c s : str_rev (String c s) = (str_rev s ++ String c "")%string.
Proof. unfold str_rev at 1. cbn [str_rev_app]. apply str_rev_app_spec. Qed.
Lemma str_rev_append a b : str_rev (a ++ b) = (str_rev b ++ str_rev a)%string.
Proof. induction a as [|c a IH]; [cbn; by rewrite str_app_nil_r|]. change (String c a ++ b)%string with (String c (a ++ b)). by rewrite !str_rev_cons, IH, str_app_assoc. Qed.
Lemma str_rev_rev s : str_rev (str_rev s) = s.
Proof. induction s as [|c s IH]; [done|]. by rewrite str_rev_cons, str_rev_append, IH. Qed.

Lemma HasSuffix_spec s p : HasSuffix s p = true → ∃ t, s = (t ++ p)%string.
Proof.
  intros Hs. apply (HasPrefix_spec (str_rev s) (str_rev p)) in Hs as [t Ht]. exists (str_rev t). by rewrite <-(str_rev_rev s), Ht, str_rev_append, str_rev_rev.
Qed.

Lemma substring_prefix a b : substring 0 (String.length a) (a ++ b) = a.
Proof. induction a as [|c a IH]; [by destruct b|]. change (String c a ++ b)%string with (String c (a ++ b)). cbn [String.length substring]. by rewrite IH. Qed.

Lemma str_drop_last_app t p n : String.length p = n → str_drop_last n (t ++ p) = t.
Proof. intros <-. unfold str_drop_last. rewrite str_length_app. replace (String.length t + String.length p - String.length p)%nat with (String.length t) by lia. apply substring_prefix. Qed.

(** The two readings of a wildcard agree. *)
Lemma wildcard_prefix c : HasSuffix c ".*" = true → str_drop_last 1 c = (str_drop_last 2 c ++ ".")%string.
Proof.
  intros (t & ->)%HasSuffix_spec. rewrite (str_drop_last_app t ".*" 2) by done. change ".*"%string with ("." ++ "*")%string. rewrite <-str_app_assoc. by apply str_drop_last_app.
Qed.

Lemma land_lor_ne a b c : Z.land a c ≠ 0 ∨ Z.land b c ≠ 0 → Z.land (Z.lor a b) c ≠ 0.
Proof. rewrite Z.land_lor_distr_l. intros Hn Hz. apply Z.lor_eq_0_iff in Hz as [? ?]. naive_solver. Qed.

Lemma plan_kinds_spec raw : ∀ out m, plan_kinds raw out = Ok m →
  (∀ bit, Z.land out bit ≠ 0 → Z.land m bit ≠ 0) ∧ (∀ v bit, v ∈ raw → plan_kind v = Some bit → Z.land bit bit ≠ 0 → Z.land m bit ≠ 0) ∧
  (Z.land out (Z.lnot allKinds) = 0 → Z.land m (Z.lnot allKinds) = 0).
Proof.
  induction raw as [|v raw IH]; intros out m He; [injection He as <-; split_and!; [done| |done]; intros v bit Hv; inversion Hv|]. cbn [plan_kinds] in He.
  destruct (plan_kind v) as [k|] eqn:Ek; [|done]. destruct (IH _ _ He) as (H1 & H2 & H3). split_and!.
  - intros bit Hb. apply H1, land_lor_ne. by left.
  - intros v' bit Hv Hk Hb. apply elem_of_cons in Hv as [->|Hv]; [|by eapply H2]. rewrite Ek in Hk. injection Hk as <-. apply H1, land_lor_ne. by right.
  - intros Ho. apply H3. rewrite Z.land_lor_distr_l, Ho. unfold plan_kind in Ek. repeat case_match; try done; injection Ek as <-; done.
Qed.

Lemma publicKind_bit k : Kind_Valid k = true → plan_kind (publicKind k) = Some (kind_bit k) ∧ Z.land (kind_bit k) (kind_bit k) ≠ 0 ∧ (publicKind k = "commit" ↔ Kind_IsCommit k = true).
Proof.
  unfold Kind_Valid, KindCreate, KindCreateResync. intros Hv. apply andb_true_iff in Hv as [H1 H2]. apply Z.leb_le in H1, H2.
  assert (k = 1 ∨ k = 2 ∨ k = 3 ∨ k = 4 ∨ k = 5 ∨ k = 6 ∨ k = 7) as Hk by lia. repeat destruct Hk as [->|Hk]; [..|subst k]; vm_compute; split_and!; done.
Qed.

Section filters.
Context `{Float64} `{AtmosLaws}.

Lemma plan_dids_spec raw : ∀ seen l, plan_dids raw seen = Ok l → (∀ d, d ∈ raw → d ∉ seen → d ∈ l ∧ d ≠ "") ∧ (l ≠ [] → raw ≠ []).
Proof.
  induction raw as [|v raw IH]; intros seen l He; [injection He as <-; split; [|done]; intros d Hd; inversion Hd|]. cbn [plan_dids] in He. split; [|done].
  intros d Hd Hs. case_bool_decide as Ev.
  - apply elem_of_cons in Hd as [->|Hd]; [done|]. by eapply IH.
  - destruct (atmos_ParseDID v) as [d'|] eqn:Ed; [|done]. pose proof (ParseDID_same _ _ Ed) as ->. destruct (plan_dids raw _) as [rest|] eqn:Er; [|done]. injection He as <-.
    destruct (decide (d = v)) as [->|Hne]; [split; [by left|]; intros ->; by rewrite ParseDID_empty in Ed|].
    apply elem_of_cons in Hd as [->|Hd]; [done|]. destruct (proj1 (IH _ _ Er) d Hd) as [? ?]; [set_solver|]. split; [by right|done].
Qed.

Lemma plan_collections_spec raw : ∀ seen ex pre, plan_collections raw seen = Ok (ex, pre) → ∀ c, c ∈ raw → c ∉ seen →
  (HasSuffix c ".*" = false → c ∈ ex) ∧ (HasSuffix c ".*" = true → str_drop_last 1 c ∈ pre).
Proof.
  induction raw as [|v raw IH]; intros seen ex pre He c Hc Hs; [inversion Hc|]. cbn [plan_collections] in He. case_bool_decide as Ev.
  { apply elem_of_cons in Hc as [->|Hc]; [done|]. by eapply IH. }
  destruct (classifyCollectionPattern v) as [cl|] eqn:Ecl; [|done]. destruct (plan_collections raw _) as [[ex1 pre1]|] eqn:Er; [|done].
  change (Ok cl ≫= _) with (Ok (match cl with inl e => (e :: ex1, pre1) | inr p => (ex1, p :: pre1) end) : result man_err _) in He. injection He as He.
  destruct (decide (c = v)) as [->|Hne].
  - unfold classifyCollectionPattern in Ecl. destruct (HasSuffix v ".*") eqn:Ew; (split; intros Hx; [try done|try done]).
    + destruct (atmos_ParseNSID _); [|done]. injection Ecl as <-. injection He as <- <-. rewrite (wildcard_prefix v Ew). by left.
    + destruct (atmos_ParseNSID v) eqn:En; [|done]. apply ParseNSID_same in En as ->. injection Ecl as <-. injection He as <- <-. by left.
  - apply elem_of_cons in Hc as [->|Hc]; [done|]. destruct (IH _ _ _ Er c Hc) as [K1 K2]; [set_solver|]. destruct cl; injection He as <- <-; split; intros Hx; rewrite ?elem_of_cons; auto.
Qed.

(** What the server made of the filter of a request. *)
Record accepted (req : planRequest) (cfg : PlanConfig) (kinds : Z) (dids ex pre : list string) : Prop := {
  ac_kinds : validatePlanKinds (pq_Kinds req) = Ok kinds;
  ac_dids : validatePlanDIDs (pq_DIDs req) (pc_MaxDIDs cfg) = Ok dids;
  ac_colls : validatePlanCollections (pq_Collections req) (pc_MaxCollections cfg) = Ok (ex, pre);
  ac_apply : negb (bool_decide (ex = []) && bool_decide (pre = [])) && negb (kinds =? 0) && (Z.land kinds PlanKindCommit =? 0) = false;
}.

(** Whether a client asks for some kinds or some collections only. *)
Definition filters (req : planRequest) : bool := negb (bool_decide (pq_Kinds req = []) && bool_decide (pq_Collections req = [])).

Lemma filters_restricts req cfg kinds dids ex pre after before max w : accepted req cfg kinds dids ex pre →
  restricts (mkRequest kinds dids ex pre after before max w) = true → filters req = true.
Proof.
  intros [Hk _ Hc _]. unfold restricts, filters, collections_match_all. cbn [rq_Kinds rq_Collections rq_CollectionPrefixes].
  destruct (bool_decide (pq_Kinds req = [])) eqn:E1; [|done]. destruct (bool_decide (pq_Collections req = [])) eqn:E2; [|done].
  apply bool_decide_eq_true in E1. rewrite E1 in Hk. unfold validatePlanCollections in Hc. rewrite E2 in Hc. injection Hc as <- <-.
  unfold validatePlanKinds in Hk. cbn in Hk. by injection Hk as <-.
Qed.

Lemma matcher_wanted req cfg kinds dids ex pre after before ev : accepted req cfg kinds dids ex pre → listed (filters req) ev → wantsSegment (newMatcher req) ev = true →
  let rq := mkRequest kinds dids ex pre after before (pc_MaxEntries cfg) (pc_WholeSegmentThreshold cfg) in
  after_all rq (ev_Seq ev) = false → before_all rq (ev_Seq ev) = false → wanted rq ev.
Proof.
  intros [Hk Hd Hc _] (Hv & Hcm) Hw rq Ha Hb. destruct (publicKind_bit _ Hv) as (Hbit & Hbb & Hcommit). unfold wantsSegment, wants in Hw.
  destruct (wantsSeq _ _); [|done]. cbn [negb] in Hw.
  match type of Hw with (if ?c then _ else _) = true => destruct c eqn:Wk; [done|] end. match type of Hw with (if ?c then _ else _) = true => destruct c eqn:Wd; [done|] end.
  split; [done|done| | |].
  - cbn [rq_Kinds rq]. unfold kinds_admit. unfold validatePlanKinds in Hk. destruct (maxPlanKinds <? _); [done|]. destruct (pq_Kinds req) as [|v raw] eqn:Eraw; [by injection Hk as <-|].
    cbn [newMatcher ma_kinds] in Wk. rewrite Eraw in Wk. destruct (plan_kinds_spec _ _ _ Hk) as (_ & Hin & _). apply negb_false_iff, bool_decide_eq_true in Wk.
    apply elem_of_list_to_set in Wk. rewrite (proj2 (Z.eqb_neq (Z.land kinds _) 0)); [by rewrite orb_true_r|]. by eapply Hin.
  - cbn [rq_DIDs rq]. unfold validatePlanDIDs in Hd. cbn [newMatcher ma_dids] in Wd. destruct (pq_DIDs req) as [|v raw] eqn:Eraw; [injection Hd as <-; by left|]. right.
    rewrite (bool_decide_false (v :: raw = [])) in Hd by done. destruct (pc_MaxDIDs cfg =? 0); [done|]. destruct (pc_MaxDIDs cfg <? _); [done|]. destruct (plan_dids_spec _ _ _ Hd) as [Hin _].
    apply negb_false_iff, bool_decide_eq_true, elem_of_list_to_set in Wd. apply Hin; [done|set_solver].
  - cbn [rq_Collections rq_CollectionPrefixes rq]. unfold collections_match_all. cbn [rq_Collections rq_CollectionPrefixes]. unfold validatePlanCollections in Hc. destruct (bool_decide (pq_Collections req = [])) eqn:Enil.
    { injection Hc as <- <-. by left. }
    apply bool_decide_eq_false in Enil. right. destruct (pc_MaxCollections cfg =? 0); [done|]. destruct (pc_MaxCollections cfg <? _); [done|].
    destruct (Kind_IsCommit (ev_Kind ev)) eqn:Ek; [right|by left]. destruct Hcm as [Hne _]; [unfold filters; by rewrite (bool_decide_false (pq_Collections req = [])), andb_false_r|done|].
    assert (Hf : hasCollectionFilter (newMatcher req) = true).
    { unfold hasCollectionFilter. cbn [newMatcher ma_fullPaths ma_prefixes]. destruct (pq_Collections req) as [|c cs]; [done|]. cbn [List.filter]. destruct (HasSuffix c ".*"); cbn [negb].
      - rewrite (bool_decide_false (map _ _ = [])) by done. by rewrite orb_true_r.
      - rewrite bool_decide_false; [done|]. cbn [list_to_set]. set_solver. }
    rewrite Hf in Hw. cbn [negb] in Hw. rewrite (bool_decide_true (publicKind _ = "commit")) in Hw by (by apply Hcommit). cbn [negb] in Hw. rewrite (bool_decide_false (ev_Collection ev = "")) in Hw by done.
    apply orb_true_iff in Hw as [Hw|Hw].
    + left. apply bool_decide_eq_true in Hw. cbn [newMatcher ma_fullPaths] in Hw. apply elem_of_list_to_set, list_elem_of_In, List.filter_In in Hw as [Hin Hs]. apply list_elem_of_In in Hin.
      apply (plan_collections_spec _ _ _ _ Hc _ Hin); [set_solver|]. by apply negb_true_iff in Hs.
    + right. apply existsb_exists in Hw as (p & Hp & Hpre). cbn [newMatcher ma_prefixes] in Hp. apply in_map_iff in Hp as (c & <- & Hin). apply List.filter_In in Hin as [Hin Hs]. apply list_elem_of_In in Hin.
      apply existsb_exists. exists (str_drop_last 1 c). split; [|done]. apply list_elem_of_In. apply (plan_collections_spec _ _ _ _ Hc _ Hin); [set_solver|done].
Qed.
End filters.

(** ** The manifest as a map *)

Section as_map.
Context `{Zstd} `{SealLibs}.

Definition lt_idx (s s' : SegmentMetadata) : Prop := sm_Idx s < sm_Idx s'.

(** A refresh, and what it means for the map from indices to metadata. *)
Record refresh := mkRefresh { rf_fs : gmap string bytes; rf_idx : Z; rf_path : string; rf_compacted : bool }.
Definition man_step (m : Manifest) (r : refresh) : Manifest :=
  ((if rf_compacted r then OnSegmentCompacted else OnSegmentSealed) (rf_fs r) (rf_idx r) (rf_path r) m).1.

Definition in_index_order (M : gmap Z SegmentMetadata) : list SegmentMetadata := sort_by_idx (map snd (map_to_list M)).
Definition map_step (M : gmap Z SegmentMetadata) (r : refresh) : gmap Z SegmentMetadata :=
  match readSealedMetadata (rf_fs r) (rf_idx r) (rf_path r) (rf_compacted r) with
  | Ok (Some meta) =>
      let M' := <[rf_idx r := meta]> M in
      match validateSegmentSeqMonotonicity (in_index_order M') with Ok _ => M' | Err _ => M end
  | _ => M
  end.

(** The list holds the values of the map in the order of their keys. *)
Definition holds (segs : list SegmentMetadata) (M : gmap Z SegmentMetadata) : Prop :=
  StronglySorted lt_idx segs ∧ ∀ i s, M !! i = Some s ↔ s ∈ segs ∧ sm_Idx s = i.

Lemma insert_by_idx_perm s segs : insert_by_idx s segs ≡ₚ s :: segs.
Proof. induction segs as [|x segs IH]; [done|]. cbn [insert_by_idx]. destruct (_ <=? _); [done|]. rewrite IH. by constructor. Qed.
Lemma sort_by_idx_perm segs : sort_by_idx segs ≡ₚ segs.
Proof. induction segs as [|s segs IH]; [done|]. unfold sort_by_idx in *. cbn [foldr]. by rewrite insert_by_idx_perm, IH. Qed.

Lemma insert_by_idx_strict s segs : StronglySorted lt_idx segs → (∀ x, x ∈ segs → sm_Idx x ≠ sm_Idx s) → StronglySorted lt_idx (insert_by_idx s segs).
Proof.
  induction 1 as [|x segs Hs IH Hall]; intros Hn; [repeat constructor|]. cbn [insert_by_idx]. destruct (Z.leb_spec (sm_Idx s) (sm_Idx x)) as [Hle|Hgt].
  - assert (Hne : sm_Idx x ≠ sm_Idx s) by (apply Hn; by left). constructor; [by constructor|]. constructor; [unfold lt_idx; lia|]. eapply Forall_impl; [exact Hall|]. unfold lt_idx. intros y. lia.
  - constructor; [apply IH; intros y Hy; apply Hn; by right|]. rewrite insert_by_idx_perm. by constructor.
Qed.
Lemma sort_by_idx_strict segs : NoDup (map sm_Idx segs) → StronglySorted lt_idx (sort_by_idx segs).
Proof.
  induction segs as [|s segs IH]; intros Hn; [constructor|]. cbn [map] in Hn. apply NoDup_cons in Hn as [Hs Hn]. unfold sort_by_idx in *. cbn [foldr]. apply insert_by_idx_strict; [by apply IH|].
  intros x Hx He. apply Hs. rewrite <-He. fold (sort_by_idx segs) in Hx. rewrite sort_by_idx_perm in Hx. by apply list_elem_of_fmap_2.
Qed.

Lemma holds_order segs M : holds segs M → in_index_order M = segs.
Proof.
  intros [Hs Hm]. assert (Hidx : NoDup (map sm_Idx (map snd (map_to_list M)))).
  { rewrite map_map. replace (map (λ x : Z * SegmentMetadata, sm_Idx x.2) (map_to_list M)) with ((map_to_list M).*1); [apply NoDup_fst_map_to_list|].
    apply map_ext_in. intros [i s] Hin. apply list_elem_of_In, elem_of_map_to_list, Hm in Hin as [_ <-]. done. }
  apply (StronglySorted_unique_strong lt_idx); [unfold lt_idx; intros ????; lia|by apply sort_by_idx_strict|done|].
  unfold in_index_order. rewrite sort_by_idx_perm. apply NoDup_Permutation; [by eapply NoDup_fmap_1| |].
  - clear -Hs. induction Hs as [|s segs _ IH Hall]; constructor; [|done]. intros Hin. pose proof (proj1 (Forall_forall _ _) Hall s Hin) as Hlt. unfold lt_idx in Hlt. lia.
  - intros s. split.
    + intros Hin. apply list_elem_of_fmap in Hin as ([i s'] & -> & Hin). by apply elem_of_map_to_list, Hm in Hin as [? _].
    + intros Hin. apply list_elem_of_fmap. exists (sm_Idx s, s). split; [done|]. apply elem_of_map_to_list, Hm. by split.
Qed.

(** The search by index divides the list. *)
Lemma search_idx segs idx : StronglySorted lt_idx segs →
  let k := sort_Search (length segs) (λ i, match segs !! i with Some s => idx <=? sm_Idx s | None => false end) in
  (k ≤ length segs)%nat ∧ Forall (λ s, sm_Idx s < idx) (take k segs) ∧ Forall (λ s, idx ≤ sm_Idx s) (drop k segs).
Proof.
  intros Hs k. destruct (sort_Search_spec (length segs) (λ i, match segs !! i with Some s => idx <=? sm_Idx s | None => false end)) as (Hk & Hlo & Hhi). fold k in Hk, Hlo, Hhi.
  assert (Hord : ∀ i j x y, (i < j)%nat → segs !! i = Some x → segs !! j = Some y → sm_Idx x < sm_Idx y).
  { clear -Hs. induction Hs as [|s segs _ IH Hall]; intros i j x y Hij Hx Hy; [done|]. destruct j as [|j]; [lia|]. simpl in Hy. destruct i as [|i]; simpl in Hx; [|by eapply (IH i j); [lia| |]].
    injection Hx as <-. apply (proj1 (Forall_forall _ _) Hall y). by eapply list_elem_of_lookup_2. }
  split_and!; [done| |]; apply Forall_lookup; intros i x Hx.
  - rewrite lookup_take_Some in Hx. destruct Hx as [Hx Hi]. destruct Hlo as [?|Hlo]; [lia|]. destruct (lookup_lt_is_Some_2 segs (k - 1)) as [y Hy]; [lia|]. rewrite Hy in Hlo. apply Z.leb_gt in Hlo.
    destruct (decide (i = k - 1)%nat) as [->|Hne]; [rewrite Hx in Hy; by injection Hy as ->|]. pose proof (Hord i (k - 1)%nat x y ltac:(lia) Hx Hy). lia.
  - rewrite lookup_drop in Hx. pose proof (lookup_lt_Some _ _ _ Hx). destruct Hhi as [?|Hhi]; [lia|]. destruct (lookup_lt_is_Some_2 segs k) as [y Hy]; [lia|]. rewrite Hy in Hhi. apply Z.leb_le in Hhi.
    destruct i as [|i]; [rewrite Nat.add_0_r, Hy in Hx; by injection Hx as ->|]. pose proof (Hord k (k + S i)%nat y x ltac:(lia) Hy Hx). lia.
Qed.

(** What replaces or inserts one entry of the list. *)
Lemma next_holds segs M idx meta : holds segs M → sm_Idx meta = idx →
  let k := sort_Search (length segs) (λ i, match segs !! i with Some s => idx <=? sm_Idx s | None => false end) in
  holds (match segs !! k with Some s => if sm_Idx s =? idx then <[k := meta]> segs else take k segs ++ meta :: drop k segs | None => segs ++ [meta] end) (<[idx := meta]> M).
Proof.
  intros [Hs Hm] Hi k. destruct (search_idx segs idx Hs) as (Hk & Hlo & Hhi). fold k in Hk, Hlo, Hhi.
  set (rest := match segs !! k with Some s => if sm_Idx s =? idx then drop (S k) segs else drop k segs | None => [] end).
  assert (Hnext : match segs !! k with Some s => if sm_Idx s =? idx then <[k := meta]> segs else take k segs ++ meta :: drop k segs | None => segs ++ [meta] end = take k segs ++ meta :: rest).
  { unfold rest. destruct (segs !! k) as [s|] eqn:E; [|apply lookup_ge_None in E; by rewrite take_ge by lia]. destruct (_ =? _); [|done]. apply insert_take_drop. by eapply lookup_lt_Some. }
  rewrite Hnext. clear Hnext. assert (Hrest : Forall (λ s, idx < sm_Idx s) rest ∧ StronglySorted lt_idx rest ∧ ∀ s, s ∈ segs ↔ s ∈ take k segs ∨ (segs !! k = Some s ∧ sm_Idx s = idx) ∨ s ∈ rest).
  { assert (Hsd : StronglySorted lt_idx (drop k segs)) by (eapply StronglySorted_app_1_r; by rewrite take_drop). unfold rest. destruct (segs !! k) as [s|] eqn:E.
    - pose proof (drop_S _ _ _ E) as Ed. rewrite Ed in Hsd, Hhi |- *. inversion_clear Hsd as [|?? Hsd' Hall]. inversion_clear Hhi as [|?? Hs1 Hhi'].
      assert (Hmem : ∀ x, x ∈ segs ↔ x ∈ take k segs ∨ x = s ∨ x ∈ drop (S k) segs) by (intros x; rewrite <-(take_drop k segs) at 1; rewrite Ed, elem_of_app, elem_of_cons; done).
      destruct (Z.eqb_spec (sm_Idx s) idx) as [He|He].
      + split_and!; [eapply Forall_impl; [exact Hall|]; unfold lt_idx; intros x; lia|done|]. intros x. rewrite Hmem. naive_solver.
      + split_and!; [constructor; [lia|]; eapply Forall_impl; [exact Hall|]; unfold lt_idx; intros x; lia|by constructor|]. intros x. rewrite Hmem, elem_of_cons. naive_solver.
    - apply lookup_ge_None in E. split_and!; [done|constructor|]. intros x. rewrite take_ge by lia. split; [by left|]. intros [?|[[? _]|Hx]]; [done|done|inversion Hx]. }
  destruct Hrest as (Hr & Hrs & Hmem). split.
  - assert (Hst : StronglySorted lt_idx (take k segs)) by (eapply StronglySorted_app_1_l; by rewrite take_drop). apply StronglySorted_app_2; [|done|constructor; [done|]; eapply Forall_impl; [exact Hr|]; unfold lt_idx; intros x; lia].
    intros x y Hx Hy. pose proof (proj1 (Forall_forall _ _) Hlo x Hx) as Hx'. cbv beta in Hx'. unfold lt_idx. apply elem_of_cons in Hy as [->|Hy]; [lia|]. pose proof (proj1 (Forall_forall _ _) Hr y Hy) as Hy'. cbv beta in Hy'. lia.
  - intros i s. rewrite elem_of_app, elem_of_cons. destruct (decide (i = idx)) as [->|Hne].
    + rewrite lookup_insert_eq. split; [intros [= <-]; split; [right; by left|done]|]. intros [[Hx|[->|Hx]] He]; [|done|].
      * pose proof (proj1 (Forall_forall _ _) Hlo s Hx) as Hx'. cbv beta in Hx'. lia.
      * pose proof (proj1 (Forall_forall _ _) Hr s Hx) as Hx'. cbv beta in Hx'. lia.
    + rewrite lookup_insert_ne by done. rewrite Hm, Hmem. naive_solver.
Qed.
Lemma read_idx fs idx path v meta : readSealedMetadata fs idx path v = Ok (Some meta) → sm_Idx meta = idx.
Proof.
  unfold readSealedMetadata. destruct (fs !! path) as [content|]; [|done]. destruct (Open _ content) as [r|[]]; [|done..]. destruct (block_collections r _); [|done]. destruct (LoadAllBlockBlooms r); [|done]. by intros [= <-].
Qed.

(** A refresh of the list is a refresh of the map. *)
Lemma man_step_holds m M r : m_loadErr m = None → validateSegmentSeqMonotonicity (m_segments m) = Ok tt → holds (m_segments m) M →
  let m' := man_step m r in m_loadErr m' = None ∧ validateSegmentSeqMonotonicity (m_segments m') = Ok tt ∧ holds (m_segments m') (map_step M r).
Proof.
  intros Hl Hv Hh. assert (Hr : man_step m r = (refreshSegment (rf_fs r) (rf_idx r) (rf_path r) (rf_compacted r) m).1) by (unfold man_step, OnSegmentCompacted, OnSegmentSealed; by destruct (rf_compacted r)).
  cbv zeta. rewrite Hr. clear Hr. unfold map_step, refreshSegment, waitReady, mbind, StateM_bind, get. rewrite Hl. unfold mret, StateM_ret, lift.
  destruct (readSealedMetadata _ _ _ _) as [[meta|]|e] eqn:E; [|by split_and!|by split_and!]. pose proof (next_holds _ _ _ _ Hh (read_idx _ _ _ _ _ E)) as Hn. cbv zeta in Hn. rewrite (holds_order _ _ Hn).
  set (next := match m_segments m !! _ with Some _ => _ | None => _ end) in *. destruct (validateSegmentSeqMonotonicity next) as [[]|e] eqn:Ev; cbn [fst]; [|by split_and!]. unfold modify. cbn [fst m_segments m_loadErr]. by split_and!.
Qed.

Definition loaded_map (fs : gmap string bytes) (files : list (Z * string)) : gmap Z SegmentMetadata :=
  list_to_map (omap (λ f, match readSealedMetadata fs f.1 f.2 false with Ok (Some meta) => Some (f.1, meta) | _ => None end) files).

Lemma load_holds fs files metas : NoDup (map fst files) → loadSealedMetadata fs files = Ok metas → holds (sort_by_idx metas) (loaded_map fs files).
Proof.
  intros Hn Hl. assert (Hspec : NoDup (map sm_Idx metas) ∧ (∀ i, i ∈ map sm_Idx metas → i ∈ map fst files) ∧
    omap (λ f, match readSealedMetadata fs f.1 f.2 false with Ok (Some meta) => Some (f.1, meta) | _ => None end) files = map (λ s, (sm_Idx s, s)) metas).
  { revert metas Hl. induction files as [|[idx path] files IH]; intros metas Hl; [injection Hl as <-; split_and!; [constructor|done|done]|]. cbn [map fst] in Hn. apply NoDup_cons in Hn as [Hni Hn]. cbn [loadSealedMetadata] in Hl.
    destruct (readSealedMetadata fs idx path false) as [meta|] eqn:E; [|done]. rewrite Ok_bind in Hl. destruct (loadSealedMetadata fs files) as [rest|]; [|done]. rewrite Ok_bind in Hl. injection Hl as <-.
    destruct (IH Hn rest eq_refl) as (K1 & K2 & K3). cbn [omap list_omap fst snd]. rewrite E. fold (omap (M := list) (λ f : Z * string, match readSealedMetadata fs f.1 f.2 false with Ok (Some meta) => Some (f.1, meta) | _ => None end) files). rewrite K3.
    destruct meta as [meta|]; [|split_and!; [done| |done]; intros i Hi; right; by apply K2]. pose proof (read_idx _ _ _ _ _ E) as Hi. cbn [map]. rewrite Hi.
    split_and!; [by constructor; [intros ?%K2|]|intros i; rewrite !elem_of_cons; naive_solver|done]. }
  destruct Hspec as (K1 & _ & K3). split; [by apply sort_by_idx_strict|]. intros i s. unfold loaded_map. rewrite K3.
  assert (Hfst : (map (λ s, (sm_Idx s, s)) metas).*1 = map sm_Idx metas) by (rewrite <-list_fmap_compose; done).
  rewrite <-elem_of_list_to_map by (by rewrite Hfst). rewrite sort_by_idx_perm, list_elem_of_fmap. naive_solver.
Qed.

(** Look-ups by index. *)
Lemma SegmentByIdx_holds m M idx : m_loadErr m = None → holds (m_segments m) M → SegmentByIdx idx m = M !! idx.
Proof.
  intros Hl [Hs Hm]. unfold SegmentByIdx. rewrite Hl. destruct (search_idx _ idx Hs) as (Hk & Hlo & Hhi). set (k := sort_Search _ _) in *. set (segs := m_segments m) in *.
  apply option_eq. intros s. rewrite Hm. destruct (segs !! k) as [x|] eqn:E.
  - pose proof (drop_S _ _ _ E) as Ed. rewrite Ed in Hhi. assert (Hsd : StronglySorted lt_idx (x :: drop (S k) segs)) by (rewrite <-Ed; eapply StronglySorted_app_1_r; by rewrite take_drop). inversion_clear Hsd as [|?? _ Hall].
    assert (Hmem : ∀ y, y ∈ segs ↔ y ∈ take k segs ∨ y = x ∨ y ∈ drop (S k) segs) by (intros y; rewrite <-(take_drop k segs) at 1; rewrite Ed, elem_of_app, elem_of_cons; done).
    inversion_clear Hhi as [|?? Hx _]. destruct (Z.eqb_spec (sm_Idx x) idx) as [He|He].
    + split; [intros [= <-]; split; [by eapply list_elem_of_lookup_2|done]|]. intros [Hin Hi]. f_equal. apply Hmem in Hin as [Hin|[->|Hin]]; [|done|].
      * pose proof (proj1 (Forall_forall _ _) Hlo s Hin) as Hlt. cbv beta in Hlt. lia.
      * pose proof (proj1 (Forall_forall _ _) Hall s Hin) as Hlt. unfold lt_idx in Hlt. lia.
    + split; [done|]. intros [Hin Hi]. apply Hmem in Hin as [Hin|[->|Hin]]; [|done|].
      * pose proof (proj1 (Forall_forall _ _) Hlo s Hin) as Hlt. cbv beta in Hlt. lia.
      * pose proof (proj1 (Forall_forall _ _) Hall s Hin) as Hlt. unfold lt_idx in Hlt. lia.
  - split; [done|]. intros [Hin Hi]. apply lookup_ge_None in E. rewrite take_ge in Hlo by lia. pose proof (proj1 (Forall_forall _ _) Hlo s Hin) as Hlt. cbv beta in Hlt. lia.
Qed.

Lemma ListFrom_holds m M start limit : m_loadErr m = None → holds (m_segments m) M → 0 < limit →
  let later := List.filter (λ s, start <=? sm_Idx s) (m_segments m) in ListFrom start limit m = (take (Z.to_nat limit) later, sm_Idx <$> later !! Z.to_nat limit).
Proof.
  intros Hl [Hs Hm] Hp later. unfold ListFrom. rewrite Hl, (proj2 (Z.leb_gt limit 0)) by lia. destruct (search_idx _ start Hs) as (Hk & Hlo & Hhi). set (k := sort_Search _ _) in *. set (segs := m_segments m) in *.
  assert (Hlater : later = drop k segs).
  { unfold later. rewrite <-(take_drop k segs) at 1. rewrite List.filter_app, List_filter_none, List_filter_all; [done| |].
    - eapply Forall_impl; [exact Hhi|]. cbv beta. intros s ?. by apply Z.leb_le.
    - eapply Forall_impl; [exact Hlo|]. cbv beta. intros s ?. apply Z.leb_gt. lia. }
  rewrite Hlater, lookup_drop. destruct (decide (k + Z.to_nat limit ≤ length segs)%nat) as [Hle|Hgt].
  - rewrite Nat.min_l by done. by replace (k + Z.to_nat limit - k)%nat with (Z.to_nat limit) by lia.
  - rewrite Nat.min_r by lia. rewrite !(lookup_ge_None_2 segs) by lia. by rewrite !take_ge by (rewrite length_drop; lia).
Qed.

Lemma ordered_lookup segs i j x y : ordered segs → Forall (λ s, h_EventCount (sm_Header s) ≠ 0) segs → (i < j)%nat → segs !! i = Some x → segs !! j = Some y → sm_MaxSeq x < sm_MinSeq y.
Proof.
  revert i j. induction segs as [|s segs IH]; intros i j Ho Hc Hij Hx Hy; [done|]. destruct Ho as [Hs Ho]. inversion_clear Hc as [|?? Hc1 Hc']. destruct j as [|j]; [lia|]. simpl in Hy. destruct i as [|i]; simpl in Hx; [|by eapply (IH i j); [| |lia| |]].
  injection Hx as <-. apply (Hs Hc1); [by eapply list_elem_of_lookup_2|]. apply (proj1 (Forall_forall _ _) Hc'). by eapply list_elem_of_lookup_2.
Qed.

(** The look-up by sequence number. *)
Lemma SegmentForSeq_spec m seq s : m_loadErr m = None → validateSegmentSeqMonotonicity (m_segments m) = Ok tt →
  Forall (λ s, h_EventCount (sm_Header s) ≠ 0 ∧ sm_MinSeq s ≤ sm_MaxSeq s) (m_segments m) → SegmentForSeq seq m = Some s ↔ s ∈ m_segments m ∧ sm_MinSeq s ≤ seq ≤ sm_MaxSeq s.
Proof.
  intros Hl Hv Hb. set (segs := m_segments m) in *. destruct (seq_monotonic_ordered segs None Hv) as [Ho _]; [eapply Forall_impl; [exact Hb|]; by intros x []|].
  assert (Hc : Forall (λ s, h_EventCount (sm_Header s) ≠ 0) segs) by (eapply Forall_impl; [exact Hb|]; by intros x []).
  unfold SegmentForSeq. rewrite Hl. fold segs. set (f := λ i, match segs !! i with Some s => seq <=? sm_MaxSeq s | None => false end). split.
  - destruct (sort_Search_spec (length segs) f) as (_ & _ & Hhi). destruct (segs !! sort_Search (length segs) f) as [x|] eqn:E; [|done]. destruct (Z.ltb_spec seq (sm_MinSeq x)); [done|]. intros [= ->].
    split; [by eapply list_elem_of_lookup_2|]. split; [done|]. destruct Hhi as [Hk|Hk]; [apply lookup_lt_Some in E; lia|]. unfold f at 1 in Hk. rewrite E in Hk. by apply Z.leb_le.
  - intros [Hin Hr]. apply list_elem_of_lookup in Hin as [i Hi]. assert (Hk : sort_Search (length segs) f = i).
    { apply sort_Search_least; [|by eapply lookup_lt_Some|unfold f; rewrite Hi; apply Z.leb_le; lia|].
      - intros j k Hjk. unfold f. destruct (decide (j = k)) as [->|Hne]; [done|]. destruct (segs !! j) as [x|] eqn:Ej; [|done]. destruct (lookup_lt_is_Some_2 segs k) as [y Ey]; [lia|]. rewrite Ey. intros Hx. apply Z.leb_le in Hx.
        pose proof (ordered_lookup segs j k x y Ho Hc ltac:(lia) Ej Ey). destruct (proj1 (Forall_forall _ _) Hb y ltac:(by eapply list_elem_of_lookup_2)) as [_ ?]. apply Z.leb_le. lia.
      - intros j Hj. unfold f. destruct (segs !! j) as [x|] eqn:Ej; [|done]. pose proof (ordered_lookup segs j i x s Ho Hc Hj Ej Hi). apply Z.leb_gt. lia. }
    rewrite Hk, Hi. by rewrite (proj2 (Z.ltb_ge _ _)) by lia.
Qed.

(** C36 (refinement): the manifest is a map.  When the sealed files were loaded without an
    error, after every sequence of refreshes of sealed and compacted segments the
    manifest holds the metadata of a map from indices, in increasing order and with
    sequence numbers that do not overlap: a refresh inserts what it read or, when the
    file cannot be read, is active or overlaps its neighbours, changes nothing.  The
    binary searches answer what the map says: the segment of an index, the page of a
    listing with the index where the next one begins, and, when no segment is empty,
    the one segment that may hold a sequence number. *)
Theorem manifest_refines_map fs files m0 refreshes : NoDup (map fst files) → m_loadErr (manifest_load fs files m0) = None →
  let m := foldl man_step (manifest_load fs files m0) refreshes in let M := foldl map_step (loaded_map fs files) refreshes in let segs := in_index_order M in
  m_segments m = segs ∧ StronglySorted lt_idx segs ∧ validateSegmentSeqMonotonicity segs = Ok tt ∧
  (∀ idx, SegmentByIdx idx m = M !! idx) ∧
  (∀ start limit, 0 < limit → let later := List.filter (λ s, start <=? sm_Idx s) segs in ListFrom start limit m = (take (Z.to_nat limit) later, sm_Idx <$> later !! Z.to_nat limit)) ∧
  (Forall (λ s, h_EventCount (sm_Header s) ≠ 0 ∧ sm_MinSeq s ≤ sm_MaxSeq s) segs → ∀ seq s, SegmentForSeq seq m = Some s ↔ s ∈ segs ∧ sm_MinSeq s ≤ seq ≤ sm_MaxSeq s).
Proof.
  intros Hn Hl m M segs. assert (Hinv : m_loadErr m = None ∧ validateSegmentSeqMonotonicity (m_segments m) = Ok tt ∧ holds (m_segments m) M).
  { assert (H1' : m_loadErr (manifest_load fs files m0) = None ∧ validateSegmentSeqMonotonicity (m_segments (manifest_load fs files m0)) = Ok tt ∧ holds (m_segments (manifest_load fs files m0)) (loaded_map fs files)).
    { split; [done|]. unfold manifest_load in *. destruct (loadSealedMetadata fs files) as [metas|] eqn:E; [|done]. cbn [m_segments m_loadErr] in *. destruct (validateSegmentSeqMonotonicity _) as [[]|]; [|done]. split; [done|]. by apply load_holds. }
    unfold m, M. clear m M segs Hl. revert H1'. generalize (manifest_load fs files m0), (loaded_map fs files). induction refreshes as [|r refreshes IH]; intros m M (K1 & K2 & K3); [by split_and!|]. cbn [foldl]. apply IH. by apply man_step_holds. }
  destruct Hinv as (K1 & K2 & K3). pose proof (holds_order _ _ K3) as Hsegs. fold segs in Hsegs. rewrite Hsegs. split_and!; [done|apply K3|done| | |].
  - intros idx. by apply SegmentByIdx_holds.
  - intros start limit Hp. by eapply ListFrom_holds.
  - intros Hb seq s. by apply SegmentForSeq_spec.
Qed.
End as_map.
