(* ===== verification/SweepProofs.v ===== *)
(** * The sweep of the archive

    The pages that a client requests, one after the other, and what they deliver: the
    handler of the XRPC method, the client's loop, and the segment files that were
    sealed and loaded, composed. *)

From Stdlib Require Import QArith.QArith Strings.Byte.
From S2P Require Import Prelude GoStrings StateMonad Segment SegmentProofs SegFileProofs SegWriter SegSeal SegSealProofs Manifest ManifestProofs.
Local Open Scope Z_scope.

(** ** The XRPC method and the client *)

Section sweep.
Context `{SealLibs} `{Float64} `{!FloatLaws} `{AtmosLaws}.

Lemma int64_fits v : v ≤ maxInt → int64FromUint64 v = Ok v.
Proof. intros Hv. unfold int64FromUint64. by rewrite (proj2 (Z.ltb_ge _ _) Hv). Qed.

Definition entry_of (p : PlannedSegment) : planEntry :=
  mkEntry (SegmentFilename (ps_Idx p)) (ps_Idx p) (ps_Checksum p) (ps_MinSeq p) (ps_MaxSeq p) (ps_Mode p) (map (λ br, (First br, Last br)) (ps_Blocks p)).

(** Numbers within the types of the wire format. *)
Record archive_fits (A : archive) : Prop := {
  af_idx : Forall (λ sb, 0 ≤ sm_Idx sb.1 ≤ 2 ^ 32 - 1) A;
  af_seq : Forall (λ sb, 0 ≤ sm_MinSeq sb.1 ∧ 0 ≤ sm_MaxSeq sb.1 ≤ maxInt) A;
  af_blocks : Forall (λ sb, Z.of_nat (length (sm_Blocks sb.1)) ≤ 2 ^ 32) A;
  af_nodup : NoDup (map (λ sb, sm_Idx sb.1) A);
}.

Lemma entry_blocks_ok ranges n : n ≤ 2 ^ 32 → Forall (λ br, range_ok br ∧ Last br < n) ranges →
  entry_blocks (map (λ br, (First br, Last br)) ranges) = Ok (map (λ br, (First br, Last br)) ranges).
Proof.
  intros Hn. induction 1 as [|br ranges [[Hr1 Hr2] Hl] _ IH]; [done|]. cbn [map entry_blocks]. rewrite !(proj2 (Z.ltb_ge _ _)) by lia. cbn [orb].
  rewrite IH, Ok_bind. by rewrite !uint32_small by lia.
Qed.

Lemma entries_ok A plans : archive_fits A → Forall (λ sb, described sb.1 sb.2) A → Forall (planned_from (map fst A)) plans →
  ∃ outs, output_segments plans = Ok outs ∧ plan_entries outs = Ok (map entry_of plans).
Proof.
  intros [Hi Hq Hb _] Hd. induction 1 as [|p plans Hp _ (outs & IH1 & IH2)]; [by exists []|]. destruct Hp as (s & mode & ranges & Hin & -> & Hl & Hr).
  apply list_elem_of_fmap in Hin as ([s' bs] & Es & Hin). simpl in Es. subst s'. pose proof (proj1 (Forall_forall _ _) Hi _ Hin) as H1'. pose proof (proj1 (Forall_forall _ _) Hq _ Hin) as H2'.
  pose proof (proj1 (Forall_forall _ _) Hb _ Hin) as H3'. pose proof (proj1 (Forall_forall _ _) Hd _ Hin) as Hds. cbn [fst snd] in *. pose proof (described_bounds _ _ Hds Hl) as Hmm.
  rewrite (de_min _ _ Hds), (de_max _ _ Hds) in *. cbn [output_segments planned_of ps_Idx ps_MinSeq ps_MaxSeq ps_Checksum ps_Mode ps_Blocks].
  rewrite !int64_fits, !Ok_bind by (unfold maxInt in *; lia).
  rewrite IH1, Ok_bind. eexists. split; [reflexivity|]. cbn [plan_entries map]. unfold planEntryFromSegment. cbn [os_Name os_Index os_MinSeq os_MaxSeq os_Mode os_Blocks os_Checksum].
  rewrite bool_decide_false by done. rewrite !(proj2 (Z.ltb_ge _ _)) by lia. cbn [orb]. destruct mode.
  - rewrite Ok_bind, IH2, Ok_bind. unfold entry_of at 1. cbn. by subst ranges.
  - destruct Hr as [Hne Hr]. rewrite (entry_blocks_ok _ _ H3' Hr), Ok_bind. rewrite bool_decide_false by (by destruct ranges). by rewrite Ok_bind, IH2, Ok_bind.
Qed.

Definition request_at (kinds : Z) (dids ex pre : list string) (cfg : PlanConfig) (cur : Z) (before : option Z) : PlanSnapshotRequest :=
  mkRequest kinds dids ex pre (if 0 <? cur then Some cur else None) before (pc_MaxEntries cfg) (pc_WholeSegmentThreshold cfg).

Definition sealed_tip (segs : list SegmentMetadata) (before : option Z) : Z :=
  match segs, before with [], _ => 0 | _, Some b => if b <? max_seq segs then b else max_seq segs | _, None => max_seq segs end.

Lemma max_seq_spec segs : Forall (λ s, sm_MaxSeq s ≤ max_seq segs) segs ∧ 0 ≤ max_seq segs ∧ ∀ n, 0 ≤ n → Forall (λ s, sm_MaxSeq s ≤ n) segs → max_seq segs ≤ n.
Proof.
  unfold max_seq. assert (Hg : ∀ t, let r := foldl (λ tip s, if tip <? sm_MaxSeq s then sm_MaxSeq s else tip) t segs in t ≤ r ∧ Forall (λ s, sm_MaxSeq s ≤ r) segs ∧
    ∀ n, t ≤ n → Forall (λ s, sm_MaxSeq s ≤ n) segs → r ≤ n).
  { induction segs as [|s segs IH]; intros t; cbn [foldl]; [split_and!; [lia|done|auto]|]. destruct (IH (if t <? sm_MaxSeq s then sm_MaxSeq s else t)) as (K1 & K2 & K3). cbv zeta in *.
    set (r := foldl _ _ segs) in *. destruct (t <? sm_MaxSeq s) eqn:E; [apply Z.ltb_lt in E|apply Z.ltb_ge in E]; (split_and!; [lia|constructor; [lia|done]|]); intros n Hn; inversion_clear 1; apply K3; (lia || done). }
  destruct (Hg 0) as (K1 & K2 & K3). split_and!; [done|done|]. intros n Hn Hf. by apply K3.
Qed.

(** The client's plan is that of the planner. *)
Lemma planner_page A m cfg req kinds dids ex pre cur before plans stats hi tr :
  m_segments m = map fst A → m_loadErr m = None → archive_fits A → Forall (λ sb, described sb.1 sb.2) A → PlanConfig_ok cfg = true → accepted req cfg kinds dids ex pre →
  0 ≤ cur ≤ maxInt → match before with Some b => 0 ≤ b ≤ maxInt ∧ (0 < cur → cur < b) | None => True end →
  plan_loop (request_at kinds dids ex pre cfg cur before) (map fst A) (mkStats 0 0 0 0) 0 = (plans, stats, hi, tr) →
  (tr = true → 0 ≤ hi ≤ sealed_tip (map fst A) before) →
  planner_archivePlan (planSnapshotHandler cfg m) (mkPlanRequest (pq_Kinds req) (pq_DIDs req) (pq_Collections req) cur before) =
    Ok (mkPlan (map entry_of plans) (if tr then hi else sealed_tip (map fst A) before) (sealed_tip (map fst A) before)).
Proof.
  intros Hm Hload Hfit Hd Hcfg [Hk Hdd Hc Happ] Hcur Hbef Hp Hhi. unfold planner_archivePlan. cbn [pq_AfterSeq pq_BeforeSeq]. rewrite (proj2 (Z.ltb_ge _ cur)) by lia.
  assert (E1 : match before with Some b => maxInt <? b | None => false end = false) by (destruct before; [apply Z.ltb_ge; lia|done]). rewrite E1. clear E1.
  unfold planSnapshotHandler. rewrite Hcfg. cbn [negb]. unfold planInput. cbn [pq_Kinds pq_DIDs pq_Collections pq_AfterSeq pq_BeforeSeq].
  assert (Hrq : planRequestFromInput (mkInput (pq_Kinds req) (pq_DIDs req) (pq_Collections req) (if 0 <? cur then Some cur else None) before) cfg = Ok (request_at kinds dids ex pre cfg cur before)).
  { unfold planRequestFromInput. cbn [in_Kinds in_Dids in_Collections in_AfterSeq in_BeforeSeq]. rewrite Hk, Ok_bind, Hdd, Ok_bind, Hc, Ok_bind. rewrite Happ. unfold request_at.
    destruct (0 <? cur) eqn:Ec; cbv iota; [apply Z.ltb_lt in Ec; rewrite (proj2 (Z.ltb_ge cur 0)) by lia|]; (destruct before as [b|]; cbv iota; [rewrite (proj2 (Z.ltb_ge b 0)) by lia|]);
      rewrite ?(proj2 (Z.leb_gt b cur)) by lia; done. }
  rewrite Hrq, Ok_bind.
  assert (Hplan : PlanSnapshot (request_at kinds dids ex pre cfg cur before) m = Ok (mkResult (if tr then hi else sealed_tip (map fst A) before) (sealed_tip (map fst A) before) plans stats)).
  { unfold PlanSnapshot. rewrite Hload, Hm, Hp. unfold PlanConfig_ok in Hcfg. apply negb_true_iff in Hcfg. rewrite !orb_false_iff in Hcfg. destruct Hcfg as ((((((? & ?) & ?) & ?) & Hme) & Ht0) & Ht1).
    cbn [request_at rq_AfterSeq rq_BeforeSeq rq_MaxEntries rq_WholeSegmentThreshold rq_Kinds]. rewrite Hme, Ht0, Ht1. cbn [orb].
    assert (E1 : match (if 0 <? cur then Some cur else None), before with Some a, Some b => b <=? a | _, _ => false end = false).
    { destruct (0 <? cur) eqn:Ec; [|done]. apply Z.ltb_lt in Ec. destruct before as [b|]; [|done]. apply Z.leb_gt. lia. }
    rewrite E1. unfold validatePlanKinds in Hk. destruct (maxPlanKinds <? _); [done|]. destruct (plan_kinds_spec _ _ _ Hk) as (_ & _ & Hall). rewrite (Hall eq_refl). cbn [Z.eqb negb].
    assert (E2 : negb (collections_match_all (request_at kinds dids ex pre cfg cur before)) && negb (kinds =? 0) && negb (kinds_admit kinds PlanKindCommit) = false).
    { unfold collections_match_all, kinds_admit. cbn [request_at rq_Collections rq_CollectionPrefixes]. destruct (kinds =? 0) eqn:Ek; [by rewrite andb_false_r|]. cbn [negb] in *. rewrite andb_true_r in *. cbn [orb]. by rewrite negb_involutive. }
    rewrite E2. done. }
  rewrite Hplan. unfold planOutput. cbn [pr_PlannedThroughSeq pr_SealedTipSeq pr_Segments pr_Stats].
  assert (Htip : 0 ≤ sealed_tip (map fst A) before ≤ maxInt).
  { destruct (max_seq_spec (map fst A)) as (_ & ? & Hmax). assert (max_seq (map fst A) ≤ maxInt).
    { apply Hmax; [done|]. apply Forall_map. eapply Forall_impl; [exact (af_seq _ Hfit)|]. cbv beta. intros sb. lia. }
    unfold sealed_tip. destruct (map fst A) eqn:EA; [done|]. rewrite <-EA in *. destruct before as [b|]; [destruct (b <? _) eqn:?; lia|lia]. }
  set (tip := sealed_tip (map fst A) before) in *. assert (Hpt : 0 ≤ (if tr then hi else tip) ≤ tip) by (destruct tr; [by apply Hhi|lia]).
  set (pt := if tr then hi else tip) in *. rewrite !int64_fits, !Ok_bind by lia.
  destruct (entries_ok A plans Hfit Hd) as (outs & Ho1 & Ho2); [by eapply plan_loop_from|]. rewrite Ho1, !Ok_bind. unfold planFromOutput. cbn [out_PlannedThroughSeq out_SealedTipSeq out_Segments].
  rewrite !(proj2 (Z.ltb_ge _ _)) by lia. by rewrite Ho2, Ok_bind.
Qed.
(** The rows of an entry: a whole segment, or the blocks of its ranges.  The archive is
    the index of each segment with its blocks. *)
Definition entry_rows (X : list (Z * list (list Event))) (e : planEntry) : list Event :=
  match List.find (λ ib, ib.1 =? pe_Index e) X with
  | None => []
  | Some (_, bs) =>
      match pe_Mode e with
      | PlanModeSegment => concat bs
      | PlanModeBlocks => flat_map (λ i, nth i bs []) (flat_map (λ r, expand (mkRange r.1 r.2)) (pe_Blocks e))
      end
  end.
Definition indexed (A : archive) : list (Z * list (list Event)) := map (λ sb, (sm_Idx sb.1, sb.2)) A.

Lemma find_idx A s bs : NoDup (map (λ sb : SegmentMetadata * list (list Event), sm_Idx sb.1) A) → (s, bs) ∈ A → List.find (λ ib, ib.1 =? sm_Idx s) (indexed A) = Some (sm_Idx s, bs).
Proof.
  induction A as [|[s' bs'] A IH]; intros Hn Hin; [inversion Hin|]. cbn [map List.find indexed fst snd] in *. apply NoDup_cons in Hn as [Hx Hn].
  apply elem_of_cons in Hin as [[= -> ->]|Hin]; [by rewrite Z.eqb_refl|]. rewrite (proj2 (Z.eqb_neq _ _)); [by apply IH|]. intros He. apply Hx. rewrite He. by apply (list_elem_of_fmap_2 (λ sb, sm_Idx sb.1)) in Hin.
Qed.

Lemma entry_rows_ok A : NoDup (map (λ sb : SegmentMetadata * list (list Event), sm_Idx sb.1) A) → rows_ok (λ p, entry_rows (indexed A) (entry_of p)) A.
Proof.
  intros Hn s bs mode ranges Hin. unfold entry_rows. cbn [entry_of planned_of pe_Index pe_Mode pe_Blocks ps_Idx ps_Mode ps_Blocks]. rewrite (find_idx A s bs Hn Hin).
  destruct mode; [done|]. cbn [rows_in]. f_equal. induction ranges as [|[f l] ranges IH]; [done|]. cbn [map flat_map]. by rewrite IH.
Qed.

Definition seq_le (e e' : Event) : Prop := ev_Seq e ≤ ev_Seq e'.

(** Rows in order are those up to a sequence number and those behind it. *)
Lemma filter_split (P : Event → bool) lo hi evs : lo ≤ hi → StronglySorted seq_le evs →
  List.filter (λ ev, P ev && (lo <? ev_Seq ev)) evs =
    List.filter (λ ev, P ev && (lo <? ev_Seq ev) && (ev_Seq ev <=? hi)) evs ++ List.filter (λ ev, P ev && (hi <? ev_Seq ev)) evs.
Proof.
  intros Hlh. induction 1 as [|e evs _ IH Hall]; [done|]. cbn [List.filter]. destruct (Z.leb_spec (ev_Seq e) hi).
  - rewrite IH, (proj2 (Z.ltb_ge hi _)) by done. rewrite andb_true_r, andb_false_r. by destruct (P e && _).
  - rewrite andb_false_r, (proj2 (Z.ltb_lt hi _)), (proj2 (Z.ltb_lt lo _)) by lia. rewrite IH. replace (List.filter (λ ev, _ && _ && _) evs) with ([] : list Event); [by destruct (P e)|].
    symmetry. apply List_filter_none. eapply Forall_impl; [exact Hall|]. intros x Hx. unfold seq_le in Hx. rewrite (proj2 (Z.leb_gt _ _)) by lia. by rewrite andb_false_r.
Qed.

Section exact.
Variables (A : archive) (m : Manifest) (cfg : PlanConfig) (req : planRequest) (kinds : Z) (dids ex pre : list string).
Hypothesis Hsegs : m_segments m = map fst A.
Hypothesis Hload : m_loadErr m = None.
Hypothesis Hfits : archive_fits A.
Hypothesis Hdesc : Forall (λ sb, described sb.1 sb.2) A.
Hypothesis Hord : ordered (map fst A).
Hypothesis Hlisted : Forall (listed (filters req)) (events A).
Hypothesis Hsorted : StronglySorted seq_le (events A).
Hypothesis Hcfg : PlanConfig_ok cfg = true.
Hypothesis Hacc : accepted req cfg kinds dids ex pre.
Hypothesis Hafter : 0 ≤ pq_AfterSeq req ≤ maxInt.
Hypothesis Hbefore : match pq_BeforeSeq req with Some b => 0 ≤ b ≤ maxInt ∧ (0 < pq_AfterSeq req → pq_AfterSeq req < b) | None => True end.

Let W := wantsSegment (newMatcher req).
Let tip := sealed_tip (map fst A) (pq_BeforeSeq req).
Let ok (ev : Event) : Prop := listed (filters req) ev ∧ ev ∈ events A.
Let rq (cur : Z) (before : option Z) := request_at kinds dids ex pre cfg cur before.

Lemma event_segment ev : ev ∈ events A → ∃ s bs, (s, bs) ∈ A ∧ h_EventCount (sm_Header s) ≠ 0 ∧ sm_MinSeq s ≤ ev_Seq ev ≤ sm_MaxSeq s ∧ 0 < ev_Seq ev.
Proof.
  intros Hev. unfold events in Hev. apply list_elem_of_In, in_flat_map in Hev as ([s bs] & Hin & Hev). apply list_elem_of_In in Hin, Hev.
  exists s, bs. split; [done|]. apply (event_block s bs); [by apply (proj1 (Forall_forall _ _) Hdesc _ Hin)|done].
Qed.

(** The segments of the archive and the wanted events end at the tip. *)
Lemma wants_window ev : ev ∈ events A → W ev = true → pq_AfterSeq req < ev_Seq ev ≤ tip.
Proof.
  intros Hev Hw. destruct (event_segment ev Hev) as (s & bs & Hin & _ & Hr1 & Hr2). unfold W, wantsSegment, wants in Hw. destruct (wantsSeq _ _) eqn:E; [|done]. clear Hw. unfold wantsSeq in E. cbn [newMatcher ma_afterSeq ma_beforeSeq] in E.
  split; [destruct (Z.ltb_spec 0 (pq_AfterSeq req)); [|lia]; cbn [andb] in E; destruct (Z.leb_spec (ev_Seq ev) (pq_AfterSeq req)); [done|lia]|].
  assert (Hs : s ∈ map fst A) by (by apply (list_elem_of_fmap_2 fst) in Hin). destruct (max_seq_spec (map fst A)) as (Hm & _ & _). pose proof (proj1 (Forall_forall _ _) Hm s Hs) as Hmx. cbv beta in Hmx.
  unfold tip, sealed_tip. destruct (map fst A) eqn:EA; [inversion Hs|]. rewrite <-EA in Hmx |- *. clear -Hmx E Hr1 Hr2. destruct (pq_BeforeSeq req) as [b|]; [|lia]. destruct ((0 <? _) && _); [done|]. apply negb_true_iff, Z.ltb_ge in E. destruct (b <? _); lia.
Qed.

(** The request of a page: the first one, or one that ends at the tip. *)
Definition page_before (pinned : option Z) : option Z := match pinned with Some t => Some t | None => pq_BeforeSeq req end.

Lemma tip_bounds : 0 ≤ tip ≤ maxInt.
Proof.
  destruct (max_seq_spec (map fst A)) as (_ & Hz & Hmax). assert (Hmi : max_seq (map fst A) ≤ maxInt).
  { apply Hmax; [done|]. apply Forall_map. eapply Forall_impl; [exact (af_seq _ Hfits)|]. cbv beta. intros sb. lia. }
  unfold tip, sealed_tip. destruct (map fst A) eqn:EA; [done|]. rewrite <-EA in Hz, Hmi |- *. destruct (pq_BeforeSeq req) as [b|]; [destruct (b <? _) eqn:?; lia|lia].
Qed.

Lemma tip_pinned : sealed_tip (map fst A) (Some tip) = tip.
Proof.
  unfold tip, sealed_tip. destruct (map fst A) as [|s l] eqn:EA; [done|]. rewrite <-EA. destruct (pq_BeforeSeq req) as [b|]; [|by rewrite Z.ltb_irrefl].
  destruct (Z.ltb_spec b (max_seq (map fst A))) as [Hb|Hb]; [|by rewrite Z.ltb_irrefl]. by rewrite (proj2 (Z.ltb_lt _ _) Hb).
Qed.

Lemma page_wanted cur pinned : pinned = None ∨ pinned = Some tip → ∀ ev, ok ev →
  listed (restricts (rq cur (page_before pinned))) ev ∧ (W ev = true → cur < ev_Seq ev → wanted (rq cur (page_before pinned)) ev).
Proof.
  intros Hpin ev [Hl Hev]. split; [destruct Hl as [Hv Hl]; split; [done|]; intros Hr; apply Hl; by eapply filters_restricts|]. intros Hw Hc. pose proof (wants_window ev Hev Hw) as Hwin. eapply (matcher_wanted req cfg); [exact Hacc|done|done| |]; cbn [rq_AfterSeq rq_BeforeSeq].
  - unfold after_all. cbn [rq_AfterSeq]. destruct (0 <? cur); [|done]. apply Z.leb_gt. lia.
  - unfold before_all. cbn [rq_BeforeSeq]. destruct Hpin as [->| ->]; cbn [page_before]; [|apply Z.ltb_ge; lia].
    unfold tip, sealed_tip in Hwin. destruct (pq_BeforeSeq req) as [b|]; [|done]. apply Z.ltb_ge. destruct (event_segment ev Hev) as (s & bs & Hin & _). destruct (map fst A) eqn:EA; [apply map_eq_nil in EA; rewrite EA in Hin; inversion Hin|]. rewrite <-EA in Hwin. destruct (b <? _) eqn:?; lia.
Qed.
Lemma tip_page pinned : pinned = None ∨ pinned = Some tip → sealed_tip (map fst A) (page_before pinned) = tip.
Proof. intros [->| ->]; [done|apply tip_pinned]. Qed.

(** A page that ends early makes progress and stays below the tip. *)
Lemma page_progress cur pinned hi : 0 ≤ cur → pinned = None ∨ pinned = Some tip → ends_at (rq cur (page_before pinned)) A 0 0 hi → cur < hi ≤ tip.
Proof.
  intros Hc Hpin [[[_ ?]|(Haf & s & bs & Hin & Hl & Hhi)] Hbf]; [lia|]. pose proof (proj1 (Forall_forall _ _) Hdesc _ Hin) as Hd. cbn [fst snd] in Hd.
  assert (Hhi' : 0 < hi ≤ sm_MaxSeq s).
  { rewrite (de_max _ _ Hd). destruct Hhi as [->|(_ & info & Hinfo & Hlive & ->)].
    - destruct (concat bs) as [|ev evs] eqn:E; [by apply (de_count _ _ Hd) in E|]. destruct (event_block s bs ev Hd) as (_ & Hb & ?); [rewrite E; by left|]. rewrite (de_max _ _ Hd) in Hb. lia.
    - destruct (proj1 (Forall_forall _ _) (de_bounds _ _ Hd) info Hinfo Hlive) as (? & ? & ?). lia. }
  assert (Hs : s ∈ map fst A) by (by apply (list_elem_of_fmap_2 fst) in Hin). destruct (max_seq_spec (map fst A)) as (Hm & _ & _). pose proof (proj1 (Forall_forall _ _) Hm s Hs) as Hmx. cbv beta in Hmx. split.
  - unfold after_all in Haf. cbn [rq request_at rq_AfterSeq] in Haf. destruct (Z.ltb_spec 0 cur); [apply Z.leb_gt in Haf; lia|lia].
  - rewrite <-(tip_page pinned Hpin). unfold sealed_tip. destruct (map fst A) eqn:EA; [inversion Hs|]. rewrite <-EA in Hmx |- *. destruct (page_before pinned) as [b|] eqn:Eb; [|lia].
    specialize (Hbf b eq_refl). destruct (b <? _); lia.
Qed.

(** One page of the sweep. *)
Lemma sweep_page cur pinned : 0 ≤ cur ≤ maxInt → pinned = None ∧ cur = pq_AfterSeq req ∨ pinned = Some tip ∧ cur < tip →
  Forall (λ sb, page_ok (rq cur (page_before pinned)) cur W ok sb.1 sb.2) A →
  ∃ plans hi (tr : bool),
    planner_archivePlan (planSnapshotHandler cfg m) (mkPlanRequest (pq_Kinds req) (pq_DIDs req) (pq_Collections req) cur (page_before pinned)) =
      Ok (mkPlan (map entry_of plans) (if tr then hi else tip) tip) ∧
    List.filter W (flat_map (entry_rows (indexed A)) (map entry_of plans)) = List.filter (in_page cur W tr hi) (events A) ∧
    (tr = true → cur < hi ≤ tip ∧ Forall (λ sb, page_ok (rq hi (Some tip)) hi W ok sb.1 sb.2) A).
Proof.
  intros Hcur Hpin Hok. assert (Hpin' : pinned = None ∨ pinned = Some tip) by naive_solver. pose proof tip_bounds as Htb.
  destruct (plan_loop (rq cur (page_before pinned)) (map fst A) (mkStats 0 0 0 0) 0) as [[[plans stats] hi] tr] eqn:Hp. exists plans, hi, tr.
  destruct (plan_loop_exact _ _ _ _ (page_wanted cur pinned Hpin') (λ p, entry_rows (indexed A) (entry_of p)) A _ _ _ _ _ _ Hp) as [Hrows Hend]; [done|done|apply entry_rows_ok, Hfits|done|by left|].
  assert (Hprog : tr = true → cur < hi ≤ tip) by (intros Ht; eapply page_progress; [lia|exact Hpin'|by apply Hend]). split_and!.
  - rewrite <-(tip_page pinned Hpin'). eapply planner_page; [done|done|done|done|done|exact Hacc|done| |exact Hp|].
    + destruct Hpin as [[-> ->]|[-> ?]]; [exact Hbefore|]. split; [lia|done].
    + intros Ht. specialize (Hprog Ht). rewrite (tip_page pinned Hpin'). lia.
  - rewrite <-Hrows. f_equal. clear. induction plans as [|p plans IH]; [done|]. cbn [map flat_map]. by rewrite IH.
  - intros Ht. specialize (Hprog Ht). split; [done|]. eapply next_page; [exact Hok|done|by apply Hend| |].
    + split_and!; try done.
      * intros k Hk Hk0. unfold after_all in *. cbn [rq request_at rq_AfterSeq] in *. destruct (0 <? cur); [|done]. rewrite (proj2 (Z.ltb_lt 0 hi)) in Hk by lia. apply Z.leb_gt in Hk. apply Z.leb_gt. lia.
      * intros k Hk. unfold before_all in *. cbn [rq request_at rq_BeforeSeq] in *. apply Z.ltb_ge in Hk. destruct (page_before pinned) as [b|] eqn:Eb; [|done]. apply Z.ltb_ge.
        destruct Hpin' as [->| ->]; cbn [page_before] in Eb; [|injection Eb as <-; done]. pose proof Hbefore as Hbb. rewrite Eb in Hbb. unfold tip, sealed_tip in Hk. rewrite Eb in Hk. destruct (map fst A) eqn:EA; [lia|]. rewrite <-EA in Hk. destruct (Z.ltb_spec b (max_seq (map fst A))); lia.
    + intros k Hk. unfold after_all in Hk. cbn [rq request_at rq_AfterSeq] in Hk. rewrite (proj2 (Z.ltb_lt 0 hi)) in Hk by lia. by apply Z.leb_gt in Hk.
Qed.

Definition delivers (n : nat) (es : list planEntry) : list Event * download_end := (List.filter W (flat_map (entry_rows (indexed A)) es), Downloaded).

Lemma sweep_loop_exact fuel : ∀ n cur pinned, 0 ≤ cur ≤ maxInt → pinned = None ∧ cur = pq_AfterSeq req ∨ pinned = Some tip ∧ cur < tip → (Z.to_nat (tip - cur) < fuel)%nat →
  Forall (λ sb, page_ok (rq cur (page_before pinned)) cur W ok sb.1 sb.2) A →
  sweep_loop fuel (λ _, planSnapshotHandler cfg m) delivers req n cur pinned = mkSweep (List.filter (λ ev, W ev && (cur <? ev_Seq ev)) (events A)) (Ok (tip, false)).
Proof.
  pose proof tip_bounds as Htb. induction fuel as [|fuel IH]; intros n cur pinned Hcur Hpin Hfuel Hok; [lia|]. destruct (sweep_page cur pinned Hcur Hpin Hok) as (plans & hi & tr & Hplan & Hrows & Hnext).
  cbn [sweep_loop]. unfold page_before in Hplan at 1. rewrite Hplan. cbn [ap_SealedTipSeq ap_Entries ap_PlannedThroughSeq]. unfold delivers at 1. rewrite Hrows.
  assert (Et : match pinned with Some t => t | None => tip end = tip) by (destruct Hpin as [[-> _]|[-> _]]; done). rewrite Et.
  destruct (Z.leb_spec tip (if tr then hi else tip)) as [Hle|Hgt].
  - f_equal. apply List.filter_ext_in. intros ev Hev. apply list_elem_of_In in Hev. unfold in_page. destruct tr; [|by rewrite andb_true_r]. destruct (W ev) eqn:Ew; [|done]. pose proof (wants_window ev Hev Ew).
    rewrite (proj2 (Z.leb_le _ hi)) by lia. by rewrite andb_true_r.
  - destruct tr; [|lia]. destruct (Hnext eq_refl) as [Hprog Hok']. rewrite (proj2 (Z.leb_gt _ _)) by lia. rewrite (IH (S n) hi (Some tip)); [|lia|right; split; [done|lia]|lia|exact Hok'].
    cbn [sw_emitted sw_end]. f_equal. rewrite (filter_split W cur hi); [|lia|done]. done.
Qed.
End exact.
End sweep.

(** ** Loading sealed files *)

Section loading.
Context `{ZstdLaws} `{SealLaws} `{Float64}.

Lemma info_at_bounds off b ev : ev ∈ b → bi_MinSeq (info_at off b) ≤ ev_Seq ev ≤ bi_MaxSeq (info_at off b).
Proof.
  intros Hev. unfold info_at, block_info. destruct b as [|e b]; [inversion Hev|]. change (map persisted (e :: b)) with (persisted e :: map persisted b). cbv beta iota.
  destruct (bounds ev_Seq _ _) as [lo hi] eqn:Eb. destruct (bounds ev_WitnessedAt _ _). destruct (bounds_spec _ _ _ _ _ Eb) as (_ & _ & Hall & _). apply (Hall (persisted ev)).
  by apply (list_elem_of_fmap_2 persisted (e :: b)).
Qed.

Lemma stored_lookup bs i b : stored bs !! i = Some b → ∃ b', bs !! i = Some b' ∧ b = map persisted b'.
Proof. unfold stored. rewrite list_lookup_fmap. destruct (bs !! i) as [b'|]; [|done]. intros [= <-]. by exists b'. Qed.

(** A block's entry of the index describes its rows. *)
Lemma infos_described bs : ∀ off, Forall block_ok bs → Forall frame_small bs → 0 ≤ off → off + len_bytes (frames bs) ≤ maxInt → Forall2 block_described (infos_at off bs) (stored bs).
Proof.
  induction bs as [|b bs IH]; intros off Hb Hf Ho Hs; [constructor|]. inversion_clear Hb as [|?? Hb1 Hb']. inversion_clear Hf as [|?? Hf1 Hf']. rewrite frames_cons, len_app in Hs.
  pose proof (len_pos (frame_of b)). pose proof (len_pos (frames bs)). cbn [infos_at stored map]. constructor; [|apply IH; [done|done|lia|lia]].
  destruct (info_at_spec off b Hb1 Hf1) as (_ & _ & Hc & _); [unfold fits; unfold maxInt in Hs; lia|].
  split; [lia|]. split.
  - destruct Hb1 as [Hne _]. split; [lia|]. by destruct b.
  - intros ev Hev. apply list_elem_of_fmap in Hev as (e & -> & He). exact (info_at_bounds off b e He).
Qed.

Lemma block_collections_ok r (P : nat → list Z → Prop) blocks : (∀ i, i ∈ blocks → ∃ ids, BlockCollections r (Z.of_nat i) = Ok ids ∧ P i ids) →
  ∃ idss, block_collections r blocks = Ok idss ∧ Forall2 P blocks idss.
Proof.
  induction blocks as [|i blocks IH]; intros Hall; [by exists []|]. destruct (Hall i) as (ids & Hi & Hp); [by left|]. destruct IH as (idss & Hr & Hf); [intros j Hj; apply Hall; by right|].
  exists (ids :: idss). cbn [block_collections]. rewrite Hi, Ok_bind, Hr, Ok_bind. split; [done|by constructor].
Qed.

(** The metadata of a sealed file describes its blocks. *)
Lemma sealed_metadata cs bs content fs idx path verify : sealed_file cs bs content → Forall (λ ev, 0 < ev_Seq ev) (concat bs) → fs !! path = Some content →
  ∃ meta, readSealedMetadata fs idx path verify = Ok (Some meta) ∧ sm_Idx meta = idx ∧ described meta (stored bs) ∧ 0 ≤ sm_MinSeq meta ∧ 0 ≤ sm_MaxSeq meta ∧
    Z.of_nat (length (sm_Blocks meta)) ≤ 2 ^ 32.
Proof.
  intros (walk & footer & h & Hct & Hse & Hw & Hft & Hm & Hc) Hpos Hfs. rewrite Hct in Hm. destruct (Open_ok cs bs walk footer h (negb verify) Hse Hw Hft Hm Hc) as (rd & Hrd & Hreads).
  rewrite <-Hct in Hrd, Hreads. unfold readSealedMetadata. rewrite Hfs, Hrd. pose proof Hreads as [_ Rh Rb (bloom & Rs & Hbl) Rf _]. pose proof (se_blocks _ _ Hse) as Hbk. pose proof (se_frames _ _ Hse) as Hfr.
  destruct (block_collections_ok rd (λ i ids, ∀ b, bs !! i = Some b → ids_name (Collections rd) ids (λ c, named c b)) (seq 0 (length (rd_blocks rd)))) as (idss & Hids & Hcol).
  { intros i Hi. apply elem_of_seq in Hi. rewrite Rb, infos_at_length in Hi. destruct (lookup_lt_is_Some_2 bs i) as [b Hb]; [lia|].
    destruct (BlockCollections_reads _ _ _ _ _ _ _ Hreads Hw Hb) as (ids & Hids & Hn). exists ids. split; [done|]. intros b' Hb'. rewrite Hb in Hb'. by injection Hb' as <-. }
  rewrite Hids. assert (Hblooms : ∃ fs, LoadAllBlockBlooms rd = Ok fs ∧ Forall2 (λ f b, ∀ d, has_did d b → adds d f) fs bs).
  { destruct bs as [|b bs]; [|by apply Rf]. exists []. unfold LoadAllBlockBlooms. by rewrite Rb. }
  destruct Hblooms as (fls & Hfls & Hfl). rewrite Hfls. eexists. split; [reflexivity|]. split; [done|].
  pose proof Hft as (sb & body & ci & sz & bl & fs' & masks & nd & minSeq & maxSeq & minW & maxW & _ & _ & _ & _ & Hh & Hin & Har). destruct Hin as (Hmin & Hmax & _). cbn in Hmin, Hmax.
  assert (Hsize : ReservedHeaderBytes + len_bytes (frames bs) ≤ maxInt).
  { rewrite !len_app in Hm. unfold len_bytes at 1 in Hm. rewrite encodeHeader_length in Hm. pose proof (len_pos footer). unfold ReservedHeaderBytes. lia. }
  assert (Hrh : rd_header rd = set_checksum (xxh3HeaderFooter (encodeHeader h) footer) h) by exact Rh.
  split_and!; cbn [sm_MinSeq sm_MaxSeq sm_Header sm_Blocks]; rewrite ?Hrh, ?Hh; cbn [set_checksum h_MinSeq h_MaxSeq]; [|unfold fits in *; lia|unfold fits in *; lia|].
  2:{ rewrite Rb, infos_at_length. pose proof (se_count _ _ Hse) as Hn. unfold maxBlockCountLimit in Hn. lia. }
  assert (Hst : concat (stored bs) = map persisted (concat bs)) by apply concat_persisted.
  split; cbn [sm_MinSeq sm_MaxSeq sm_Header sm_Blocks sm_SegmentBloom sm_BlockBlooms sm_Collections sm_BlockCollections]; [done|done| | | | | | | |].
  - rewrite ?Hrh, ?Hh, Hst. cbn [set_checksum h_EventCount]. destruct (concat bs); simpl; [done|]. split; [lia|done].
  - rewrite Rb. by apply infos_described.
  - apply Forall_forall. intros info Hinfo _. rewrite Rb in Hinfo. apply list_elem_of_lookup in Hinfo as [i Hi]. destruct (lookup_lt_is_Some_2 bs i) as [b Hb].
    { rewrite <-(infos_at_length ReservedHeaderBytes bs). by eapply lookup_lt_Some. }
    pose proof (infos_at_lookup bs ReservedHeaderBytes i b Hb) as Hi'. rewrite Hi in Hi'. injection Hi' as ->. pose proof (take_drop_middle bs i b Hb) as Hsplit.
    assert (Hoff : len_bytes (frames (take i bs)) ≤ len_bytes (frames bs)).
    { rewrite <-Hsplit at 2. unfold frames. rewrite flat_map_app, len_app. pose proof (len_pos (flat_map frame_of (b :: drop (S i) bs))). lia. }
    pose proof (len_pos (frames (take i bs))). destruct (info_at_spec (ReservedHeaderBytes + len_bytes (frames (take i bs))) b) as (_ & _ & _ & _ & Hle & _ & (x & Hx & Hxl) & (y & Hy & Hyl)).
    { by eapply Forall_lookup_1. } { by eapply Forall_lookup_1. } { unfold fits. unfold maxInt, ReservedHeaderBytes in *. lia. }
    assert (Hin : ∀ z, z ∈ b → z ∈ concat bs) by (intros z Hz; apply list_elem_of_In, in_concat; exists b; split; apply list_elem_of_In; [by eapply list_elem_of_lookup_2|done]).
    pose proof (proj1 (Forall_forall _ _) Hpos x (Hin x Hx)) as Hxp. cbv beta in Hxp. destruct (Har x (Hin x Hx)) as [Hax _]. destruct (Har y (Hin y Hy)) as [Hay _]. cbn in Hax, Hay.
    rewrite ?Hrh, ?Hh. cbn [set_checksum h_MinSeq h_MaxSeq]. rewrite <-Hxl, <-Hyl in *. lia.
  - exists (ReservedHeaderBytes + len_bytes (frames bs)). rewrite Rb. unfold validateBlockOffsets. apply validate_ok; first [apply Hse|done|lia].
  - intros d Hd. rewrite Rs. cbn [passes]. apply Hbl. by rewrite <-has_did_persisted, <-Hst.
  - intros i b f Hb Hf d Hd. apply stored_lookup in Hb as (b' & Hb & ->). change (map Some fls) with (Some <$> fls) in Hf; rewrite list_lookup_fmap in Hf. destruct (fls !! i) as [f'|] eqn:Ef; [|done]. injection Hf as <-. cbn [passes].
    destruct (Forall2_lookup_l _ _ _ _ _ Hfl Ef) as (b2 & Hb2 & Ha). rewrite Hb in Hb2. injection Hb2 as <-. apply Ha. by rewrite <-has_did_persisted.
  - destruct Hreads as [_ _ _ _ _ (masks' & Rc & _)]. unfold Collections. rewrite Rc. cbn [stringTable].
    assert (Hn : (length (wr_collectionStringTable walk) ≤ size cs)%nat).
    { apply nodup_size; [apply table_nodup, Hw|]. intros c Hcn. apply (wk_table _ _ _ Hw) in Hcn. rewrite Hst, named_persisted in Hcn. by apply (se_names _ _ Hse). }
    pose proof (se_cs _ _ Hse) as Hcs. unfold maxCollectionCountLimit in Hcs. lia.
  - intros i b Hb. apply stored_lookup in Hb as (b' & Hb & ->). rewrite Rb, infos_at_length in Hcol.
    destruct (Forall2_lookup_l _ _ _ _ _ Hcol (lookup_seq_lt 0 (length bs) i ltac:(by eapply lookup_lt_Some))) as (ids & Hi & Hn). exists ids. split; [done|]. intros c Hc'. rewrite named_persisted in Hc'.
    destruct (Hn b' Hb) as [Hrange Hiff]. apply Hiff in Hc' as (id & Hid & Hl). exists id. split_and!; [done| |done]. by apply (proj1 (Forall_forall _ _) Hrange).
Qed.
End loading.

(** ** The sweep over sealed files *)

Section sealed_sweep.
Context `{ZstdLaws} `{SealLaws} `{Float64} `{!FloatLaws} `{AtmosLaws}.

(** The segment files of the directory, by index, and the blocks they were sealed over.
    The numbers are positive, and every commit has a collection that the index lists, if
    a request is [restricted] to some kinds or collections. *)
Record archived (restricted : bool) (fs : gmap string bytes) (files : list (Z * string)) (bss : list (list (list Event))) : Prop := {
  ar_sealed : Forall2 (λ f bs, ∃ cs content, fs !! f.2 = Some content ∧ sealed_file cs bs content) files bss;
  ar_sorted : StronglySorted Z.lt (map fst files);
  ar_index : Forall (λ f, 0 ≤ f.1 < 2 ^ 32) files;
  ar_seqs : Forall (λ ev, 0 < ev_Seq ev) (concat (concat bss));
  ar_commits : restricted = true →
    Forall (λ ev, Kind_IsCommit (ev_Kind ev) = true → ev_Collection ev ≠ "" ∧ sentinelKind (ev_Collection ev) = 0) (concat (concat bss));
}.

Lemma load_sealed fs files bss : Forall2 (λ f bs, ∃ cs content, fs !! f.2 = Some content ∧ sealed_file cs bs content) files bss → Forall (λ ev, 0 < ev_Seq ev) (concat (concat bss)) →
  ∃ metas, loadSealedMetadata fs files = Ok metas ∧ map sm_Idx metas = map fst files ∧
    Forall2 (λ s bs, described s (stored bs) ∧ 0 ≤ sm_MinSeq s ∧ 0 ≤ sm_MaxSeq s ∧ Z.of_nat (length (sm_Blocks s)) ≤ 2 ^ 32) metas bss.
Proof.
  induction 1 as [|[idx path] bs files bss (cs & content & Hfs & Hsf) _ IH]; intros Hev; [exists []; by split_and!|]. cbn [concat] in Hev. rewrite concat_app in Hev. apply Forall_app in Hev as [Hev1 Hev].
  destruct (IH Hev) as (metas & Hl & Hi & Hd). destruct (sealed_metadata cs bs content fs idx path false Hsf) as (meta & Hm & Hmi & Hmd); [exact Hev1|done|].
  exists (meta :: metas). cbn [loadSealedMetadata map fst]. rewrite Hm, Ok_bind, Hl, Ok_bind, Hi, Hmi. split_and!; [done|done|by constructor].
Qed.

Lemma sort_by_idx_sorted segs : StronglySorted Z.lt (map sm_Idx segs) → sort_by_idx segs = segs.
Proof.
  induction segs as [|s segs IH]; intros Hs; [done|]. cbn [map] in Hs. inversion_clear Hs as [|?? Hs' Hall]. unfold sort_by_idx in *. cbn [foldr]. rewrite IH by done. destruct segs as [|s' segs]; [done|].
  cbn [insert_by_idx]. cbn [map] in Hall. apply Forall_cons in Hall as [Hlt _]. by rewrite (proj2 (Z.leb_le _ _)) by lia.
Qed.

Lemma stored_sorted l : StronglySorted seq_lt l → StronglySorted seq_le (map persisted l).
Proof. induction 1 as [|e l _ IH Hall]; [constructor|]. cbn [map]. constructor; [done|]. apply Forall_map. eapply Forall_impl; [exact Hall|]. unfold seq_lt, seq_le. intros x. cbn. lia. Qed.

(** Segments in order have their rows in order. *)
Lemma events_sorted A : ordered (map fst A) → Forall (λ sb, described sb.1 sb.2) A → Forall (λ sb, StronglySorted seq_le (concat sb.2)) A → StronglySorted seq_le (events A).
Proof.
  induction A as [|[s bs] A IH]; intros Ho Hd Hs; [constructor|]. inversion_clear Hd as [|?? Hd1 Hd']. inversion_clear Hs as [|?? Hs1 Hs']. cbn [map fst snd ordered] in *. destruct Ho as [Ho1 Ho]. rewrite events_cons.
  specialize (IH Ho Hd' Hs'). assert (Hlt : ∀ x y, x ∈ concat bs → y ∈ events A → seq_le x y).
  { intros x y Hx Hy. destruct (event_block s bs x Hd1 Hx) as (Hl & ? & _). pose proof (above_events _ A (Ho1 Hl) Hd' y Hy). unfold seq_le. lia. }
  clear -IH Hs1 Hlt. induction (concat bs) as [|x l IHl]; [done|]. inversion_clear Hs1 as [|?? Hs2 Hall]. cbn [app]. constructor; [apply IHl; [done|]; intros; apply Hlt; [by right|done]|].
  apply Forall_app. split; [done|]. apply Forall_forall. intros y Hy. apply Hlt; [by left|done].
Qed.

(** What the server accepts. *)
Lemma request_accepted cfg req rq : planRequestFromInput (planInput req) cfg = Ok rq → 0 ≤ pq_AfterSeq req →
  (∃ kinds dids ex pre, accepted req cfg kinds dids ex pre) ∧ match pq_BeforeSeq req with Some b => 0 ≤ b ∧ (0 < pq_AfterSeq req → pq_AfterSeq req < b) | None => True end.
Proof.
  intros Hr Ha. unfold planRequestFromInput, planInput in Hr. cbn [in_Kinds in_Dids in_Collections in_AfterSeq in_BeforeSeq] in Hr.
  destruct (validatePlanKinds _) as [kinds|] eqn:E1; [|done]. rewrite Ok_bind in Hr. destruct (validatePlanDIDs _ _) as [dids|] eqn:E2; [|done]. rewrite Ok_bind in Hr.
  destruct (validatePlanCollections _ _) as [[ex pre]|] eqn:E3; [|done]. rewrite Ok_bind in Hr.
  match type of Hr with (if ?c then _ else _) = _ => destruct c eqn:E4; [done|] end. match type of Hr with (if ?c then _ else _) = _ => destruct c; [done|] end.
  match type of Hr with (if ?c then _ else _) = _ => destruct c eqn:E5; [done|] end. match type of Hr with (if ?c then _ else _) = _ => destruct c eqn:E6; [done|] end. split; [by exists kinds, dids, ex, pre|].
  destruct (pq_BeforeSeq req) as [b|]; [|done]. apply Z.ltb_ge in E5. split; [done|]. intros Hp. rewrite (proj2 (Z.ltb_lt _ _) Hp) in E6. by apply Z.leb_gt in E6.
Qed.

(** A segment that was found and ordered: what the sweep needs of the whole archive. *)
Lemma loaded_archive restricted fs files bss m0 : archived restricted fs files bss → let m := manifest_load fs files m0 in m_loadErr m = None → Forall (λ s, sm_MaxSeq s ≤ maxInt) (m_segments m) →
  ∃ A, m_segments m = map fst A ∧ archive_fits A ∧ Forall (λ sb, described sb.1 sb.2) A ∧ ordered (map fst A) ∧ Forall (listed restricted) (events A) ∧ StronglySorted seq_le (events A) ∧
    indexed A = zip (map fst files) (map stored bss) ∧ events A = map persisted (concat (concat bss)) ∧ Forall (λ ev, 0 < ev_Seq ev) (events A).
Proof.
  intros [Hse Hso Hix Hev Hcm] m Hm Hmax. destruct (load_sealed _ _ _ Hse Hev) as (metas & Hl & Hi & Hd). subst m. unfold manifest_load in *. rewrite Hl in *. cbn [m_loadErr m_segments] in *.
  rewrite sort_by_idx_sorted in * by (by rewrite Hi). destruct (validateSegmentSeqMonotonicity metas) as [[]|] eqn:Hv; [|done]. clear Hm.
  pose proof (Forall2_length _ _ _ Hd) as Hlen. set (A := zip metas (map stored bss) : archive). assert (HA1 : map fst A = metas) by (apply fst_zip; rewrite length_map; lia).
  assert (HA : Forall (λ sb, described sb.1 sb.2 ∧ 0 ≤ sm_MinSeq sb.1 ∧ 0 ≤ sm_MaxSeq sb.1 ∧ Z.of_nat (length (sm_Blocks sb.1)) ≤ 2 ^ 32 ∧ StronglySorted seq_le (concat sb.2)) A).
  { assert (Hsort : Forall (λ bs, StronglySorted seq_lt (concat bs)) bss) by (clear -Hse; induction Hse as [|f bs files bss (cs & content & _ & (? & ? & ? & _ & Hs & _)) _ IH]; constructor; [apply Hs|done]).
    unfold A. clear -Hd Hsort. induction Hd as [|s bs metas bss Hs _ IH]; [constructor|]. inversion_clear Hsort. cbn [map zip zip_with]. constructor; [|by apply IH]. destruct Hs as (? & ? & ? & ?). split_and!; try done.
    cbn [snd]. unfold stored. rewrite concat_persisted. by apply stored_sorted. }
  assert (Hdesc : Forall (λ sb, described sb.1 sb.2) A) by (eapply Forall_impl; [exact HA|]; by intros sb (? & _)).
  assert (Hord : ordered (map fst A)).
  { rewrite HA1. eapply seq_monotonic_ordered; [exact Hv|]. rewrite <-HA1. apply Forall_map. eapply Forall_impl; [exact Hdesc|]. intros sb Hsb. by apply (described_bounds _ _ Hsb). }
  assert (Hevs : events A = map persisted (concat (concat bss))).
  { unfold events, A. clear -Hlen. revert bss Hlen. induction metas as [|s metas IH]; intros [|bs bss] Hlen; [done|done|done|]. cbn [map zip zip_with flat_map snd concat]. rewrite concat_app, map_app.
    f_equal; [apply concat_persisted|]. apply IH. simpl in Hlen. lia. }
  exists A. split_and!; [done| |done|done| | | |done|].
  - assert (HA1m : ∀ P, Forall P metas → Forall (λ sb : SegmentMetadata * list (list Event), P sb.1) A) by (intros P HP; apply (Forall_map fst); by rewrite HA1).
    split; [|clear -HA Hmax HA1m; apply HA1m in Hmax; eapply Forall_impl; [exact (proj2 (Forall_and _ _) (conj HA Hmax))|]; cbv beta; intros sb [(_ & ? & ? & _) ?]; lia|eapply Forall_impl; [exact HA|]; cbv beta; intros sb (_ & _ & _ & ? & _); done|].
    + assert (Hri : Forall (λ s, 0 ≤ sm_Idx s ≤ 2 ^ 32 - 1) metas) by (apply (Forall_map sm_Idx (λ i, 0 ≤ i ≤ 2 ^ 32 - 1)); rewrite Hi; apply Forall_map; eapply Forall_impl; [exact Hix|]; cbv beta; intros f; lia).
      by apply HA1m in Hri.
    + assert (Hni : map (λ sb, sm_Idx sb.1) A = map fst files) by (rewrite <-Hi, <-HA1, map_map; done). rewrite Hni. clear -Hso. induction Hso as [|i l _ IH Hall]; constructor; [|done].
      intros Hin. pose proof (proj1 (Forall_forall _ _) Hall i Hin). lia.
  - rewrite Hevs. apply Forall_map, Forall_forall. intros ev Hin. unfold listed. cbn [persisted ev_Kind ev_Collection]. split.
    + clear -Hse Hin. induction Hse as [|f bs files bss (cs & content & _ & (walk & footer & h & _ & Hsl & _)) _ IH]; [by apply not_elem_of_nil in Hin|].
      cbn [concat] in Hin. rewrite concat_app in Hin. apply elem_of_app in Hin as [Hin|Hin]; [|by apply IH].
      apply list_elem_of_In, in_concat in Hin as (b & Hb & Hin). apply list_elem_of_In in Hb, Hin.
      destruct (proj1 (Forall_forall _ _) (se_blocks _ _ Hsl) b Hb) as (_ & Hok & _). by apply event_ok_fields, (proj1 (Forall_forall _ _) Hok).
    + intros Hr. by apply (proj1 (Forall_forall _ _) (Hcm Hr)).
  - apply events_sorted; [done|done|]. eapply Forall_impl; [exact HA|]. by intros sb (_ & _ & _ & _ & ?).
  - unfold indexed, A. rewrite <-Hi. clear -Hlen. revert bss Hlen. induction metas as [|s metas IH]; intros [|bs bss] Hlen; [done|done|done|]. cbn [map zip zip_with]. f_equal. apply IH. simpl in Hlen. lia.
  - rewrite Hevs. apply Forall_map. by eapply Forall_impl; [exact Hev|].
Qed.

(** C11 (equivalence): the client's sweep of the archive delivers the wanted events, each
    once and in order.  Let the manifest be loaded from sealed segment files without an
    error, let the numbers of the stored events be positive and, if the request asks for
    some kinds or some collections only, let every stored commit have a collection that
    is not the name of a marker (a commit without one is wanted by the matcher and not
    planned: [bare_commit_not_planned]).  If the server accepts the filter of the
    request, if numbers stay within the signed 64-bit integers of the wire, and if every
    download succeeds, the pages of [planSnapshot], downloaded and filtered by the
    client's matcher, yield exactly the stored events that the matcher wants: no page skips a block with a wanted event,
    although it is chosen by Bloom filters, the collection index and the number of
    entries of a page, and no event comes twice.  The sweep ends at the sealed tip, after
    no more pages than it has sequence numbers. *)
Theorem sweep_exact fs files bss m0 cfg req rq fuel :
  let m := manifest_load fs files m0 in let X := zip (map fst files) (map stored bss) in let W := wantsSegment (newMatcher req) in
  archived (filters req) fs files bss → m_loadErr m = None → Forall (λ s, sm_MaxSeq s ≤ maxInt) (m_segments m) →
  PlanConfig_ok cfg = true → planRequestFromInput (planInput req) cfg = Ok rq →
  0 ≤ pq_AfterSeq req ≤ maxInt → match pq_BeforeSeq req with Some b => b ≤ maxInt | None => True end →
  let tip := sealed_tip (m_segments m) (pq_BeforeSeq req) in (Z.to_nat (tip - pq_AfterSeq req) < fuel)%nat →
  sweepSealedArchive fuel (λ _, planSnapshotHandler cfg m) (λ _ es, (List.filter W (flat_map (entry_rows X) es), Downloaded)) req (pq_AfterSeq req) =
    mkSweep (List.filter W (map persisted (concat (concat bss)))) (Ok (tip, false)).
Proof.
  intros m X W Har Hm Hmax Hcfg Hr Ha Hb tip Hfuel. destruct (request_accepted cfg req rq Hr ltac:(lia)) as [(kinds & dids & ex & pre & Hacc) Hb2].
  destruct (loaded_archive _ fs files bss m0 Har Hm Hmax) as (A & Hsegs & Hfits & Hdesc & Hord & Hlist & Hsort & HX & Hev & Hpos). fold m in Hsegs. fold X in HX. unfold sweepSealedArchive. unfold tip in *. rewrite Hsegs in *. rewrite <-HX, <-Hev.
  assert (Hb' : match pq_BeforeSeq req with Some b => 0 ≤ b ≤ maxInt ∧ (0 < pq_AfterSeq req → pq_AfterSeq req < b) | None => True end) by (destruct (pq_BeforeSeq req); naive_solver lia).
  assert (Hwin : ∀ ev, ev ∈ events A → W ev = true → pq_AfterSeq req < ev_Seq ev) by (intros ev He Hw; by destruct (wants_window A m req Hsegs Hdesc Hord ev He Hw)).
  etrans; [apply (sweep_loop_exact A m cfg req kinds dids ex pre Hsegs Hm Hfits Hdesc Hord Hsort Hcfg Hacc Ha Hb' fuel 0 (pq_AfterSeq req) None); [lia|by left|done|]|].
  - apply Forall_forall. intros [s bs] Hin. pose proof (proj1 (Forall_forall _ _) Hdesc _ Hin) as Hd. cbn [fst snd] in *.
    assert (Hsub : ∀ ev, ev ∈ concat bs → ev ∈ events A) by (intros ev He; apply list_elem_of_In, in_flat_map; exists (s, bs); split; by apply list_elem_of_In).
    split; [done| | |].
    + apply Forall_forall. intros ev He. split; [|by apply Hsub]. apply (proj1 (Forall_forall _ _) Hlist), Hsub, He.
    + intros i info b ev _ Hbi _ He Hw. apply Hwin; [|done]. apply Hsub, list_elem_of_In, in_concat. exists b. split; apply list_elem_of_In; [by eapply list_elem_of_lookup_2|done].
    + intros _ _ ev He Hw. apply Hwin; [by apply Hsub|done].
  - f_equal. apply List.filter_ext_in. intros ev Hin. apply list_elem_of_In in Hin. fold W. destruct (W ev) eqn:Ew; [|done]. by rewrite (proj2 (Z.ltb_lt _ _) (Hwin ev Hin Ew)).
Qed.
End sealed_sweep.

(** ** A concrete archive *)

#[local] Existing Instance demo_zstd.
#[local] Existing Instance demo_laws.
#[local] Existing Instance demo_io.
#[local] Existing Instance demo_seal.
#[local] Existing Instance demo_seal_laws.

(** Fractions for [float64], and parsers that look at the beginning. *)
#[local] Instance demo_float : Float64 := {|
  float64 := Q; f64_of := inject_Z; f64_div := Qdiv; f64_le := Qle_bool; f64_lt a b := negb (Qle_bool b a);
|}.
#[local] Instance demo_float_laws : FloatLaws.
Proof.
  constructor. intros t a b n Hab Hn. cbn. rewrite !Qle_bool_iff. intros Ht. eapply Qle_trans; [exact Ht|]. unfold Qdiv. apply Qmult_le_compat_r.
  - rewrite <-Zle_Qle. lia.
  - apply Qinv_le_0_compat. change 0%Q with (inject_Z 0). rewrite <-Zle_Qle. lia.
Qed.
#[local] Instance demo_atmos : Atmos := {| atmos_ParseDID s := if HasPrefix s "did:" then Some s else None; atmos_ParseNSID s := Some s |}.
#[local] Instance demo_atmos_laws : AtmosLaws.
Proof. constructor; [| done|]; intros s d; cbn; [destruct (HasPrefix s "did:"); [|done]|]; by intros [= <-]. Qed.

Definition other_event (n : Z) : Event := mkEvent n (1000 + n) (2000 + n) 7 KindUpdate "did:plc:bb" "org.hypercerts.claim" "r2" "3k" [x03]%byte.
Definition demo_archive : list (list (list Event)) :=
  [[[demo_event 1; other_event 2]; [other_event 3]; [demo_event 4]]; [[demo_event 5; other_event 6]; [demo_event 8]]].
Definition demo_writer (blocks : list (list Event)) : SegWriter :=
  mkSegWriter (whole_file blocks) no_pending false None (infos_at ReservedHeaderBytes blocks) (len_bytes (header_bytes ++ frames blocks)) 10 (mkIds 0 0 0).
Definition demo_content (blocks : list (list Event)) : bytes := f_data (crash 0 (sw_file (Seal (demo_writer blocks)).1)).
Definition demo_paths : list (Z * string) := [(0, "seg_0000000000.jss"); (1, "seg_0000000001.jss")].
Definition demo_files : gmap string bytes := list_to_map (zip demo_paths.*2 (map demo_content demo_archive)).

Lemma demo_sealed bs : bs ∈ demo_archive → sealed_file {["org.hypercerts.claim"]} bs (demo_content bs).
Proof.
  intros Hin. assert (Hb : Forall block_ok bs ∧ Forall frame_small bs ∧ StronglySorted seq_lt (concat bs) ∧ few bs ∧ Z.of_nat (length bs) ≤ 10 ∧
    Forall (λ ev, ev_Collection ev = "org.hypercerts.claim" ∧ didMarkerSentinel (ev_Kind ev) = "") (concat bs) ∧ len_bytes (header_bytes ++ frames bs) ≤ maxInt ∧
    match (Seal (demo_writer bs)).2 with Ok r => sr_Checksum r ≠ 0 | Err _ => False end).
  { unfold demo_archive in Hin. rewrite !elem_of_cons, elem_of_nil in Hin. destruct Hin as [->|[->|[]]]; (split_and!;
      [(repeat constructor; done)|(repeat (apply Forall_cons; split; [vm_compute; reflexivity|]); by apply Forall_nil)
      |(cbn [concat app]; repeat (apply SSorted_cons; [|repeat (apply Forall_cons; split; [vm_compute; reflexivity|]); apply Forall_nil; exact I]); apply SSorted_nil)
      |(vm_compute; reflexivity)|done
      |(cbn [concat app]; repeat (apply Forall_cons; split; [split; reflexivity|]); apply Forall_nil; exact I)|(vm_compute; discriminate)|(vm_compute; discriminate)]). }
  destruct Hb as (Hb & Hf & Hs & Hfew & Hn & Hc & Hsz & Hck).
  assert (Ho : open_ok (demo_writer bs) bs [] [] []) by (clear Hck; split; [done..|]; exists 0; by split).
  assert (Hse : sealable {["org.hypercerts.claim"]} (with_pending bs [])).
  { split; cbn [with_pending]; [exact Hb|exact Hf|exact Hs|unfold maxBlockCountLimit; lia|exact Hfew| |vm_compute; discriminate|].
    - intros c (Hc0 & ev & Hev & Hx). apply elem_of_singleton. destruct (proj1 (Forall_forall _ _) Hc ev Hev) as [Hx1 Hx2]. destruct Hx as [->| ->]; [exact Hx1|destruct Hc0; exact Hx2].
    - rewrite size_singleton. change ((Z.of_nat 1 + 7) / 8) with 1. unfold maxDecodedBlockBytes. lia. }
  pose proof (Seal_file _ _ _ _ 0 Ho Hse Hsz) as Ht. unfold demo_content. destruct (Seal (demo_writer bs)) as [w' [r|e]]; [exact (Ht Hck)|destruct Hck].
Qed.

Lemma demo_archived restricted : archived restricted demo_files demo_paths demo_archive.
Proof.
  split.
  - pose proof demo_sealed as Hs. unfold demo_paths, demo_archive in *. constructor; [|constructor; [|constructor]].
    + eexists _, _. split; [|apply Hs; by left]. reflexivity.
    + eexists _, _. split; [|apply Hs; right; by left]. reflexivity.
  - repeat constructor.
  - repeat constructor; vm_compute; discriminate.
  - cbn [demo_archive concat app]. repeat (apply Forall_cons; split; [done|]). by apply Forall_nil.
  - intros _. cbn [demo_archive concat app]. repeat (apply Forall_cons; split; [by intros _|]). by apply Forall_nil.
Qed.

(** Pages of one entry, and whole segments from three quarters of the blocks. *)
Definition demo_config : PlanConfig := mkPlanConfig 10 10 1 (3 # 4)%Q.
Definition demo_request : planRequest := mkPlanRequest ["commit"] ["did:plc:a"] ["org.hypercerts.*"] 1 (Some 7).
Definition demo_empty : Manifest := mkManifest [] 0 None.

Lemma sweep_exact_witness : let m := manifest_load demo_files demo_paths demo_empty in let X := zip (map fst demo_paths) (map stored demo_archive) in let W := wantsSegment (newMatcher demo_request) in
  sweepSealedArchive 20 (λ _, planSnapshotHandler demo_config m) (λ _ es, (List.filter W (flat_map (entry_rows X) es), Downloaded)) demo_request (pq_AfterSeq demo_request) =
    mkSweep (map persisted [demo_event 4; demo_event 5]) (Ok (7, false)).
Proof.
  intros m X W. assert (Hacc : ∃ rq, planRequestFromInput (planInput demo_request) demo_config = Ok rq) by (eexists; vm_compute; reflexivity). destruct Hacc as [rq Hrq].
  assert (Herr : m_loadErr m = None) by (vm_compute; reflexivity).
  assert (Hmax : Forall (λ s, sm_MaxSeq s ≤ maxInt) (m_segments m)).
  { assert (Hb : forallb (λ s, sm_MaxSeq s <=? maxInt) (m_segments m) = true) by (vm_compute; reflexivity). apply Forall_forall. intros s Hs. apply Z.leb_le. exact (proj1 (forallb_forall _ _) Hb s (proj1 (list_elem_of_In _ _) Hs)). }
  assert (Hfuel : (Z.to_nat (sealed_tip (m_segments m) (pq_BeforeSeq demo_request) - pq_AfterSeq demo_request) < 20)%nat) by (apply Nat.ltb_lt; vm_compute; reflexivity).
  etransitivity.
  { exact (sweep_exact demo_files demo_paths demo_archive demo_empty demo_config demo_request rq 20 (demo_archived _) Herr Hmax ltac:(vm_compute; reflexivity) Hrq ltac:(unfold maxInt; cbn; lia) ltac:(vm_compute; discriminate) Hfuel). }
  vm_compute. reflexivity.
Defined.

(** One file loaded; the other one is sealed, the first one compacted, and two
    refreshes fail: of a file that is missing, and of one that overlaps. *)
Definition demo_refreshes : list refresh :=
  [mkRefresh demo_files 1 "seg_0000000001.jss" false; mkRefresh demo_files 0 "seg_0000000000.jss" true;
   mkRefresh demo_files 2 "seg_0000000002.jss" false; mkRefresh demo_files 3 "seg_0000000001.jss" false].

Lemma manifest_refines_map_witness : let m := foldl man_step (manifest_load demo_files (take 1 demo_paths) demo_empty) demo_refreshes in
  map sm_Idx (m_segments m) = [0; 1] ∧ StronglySorted lt_idx (m_segments m) ∧ SegmentByIdx 1 m = foldl map_step (loaded_map demo_files (take 1 demo_paths)) demo_refreshes !! 1 ∧ sm_Idx <$> SegmentByIdx 3 m = None ∧
  (ListFrom 0 1 m).2 = Some 1 ∧ sm_Idx <$> SegmentForSeq 7 m = Some 1.
Proof.
  intros m. assert (Hn : NoDup (map fst (take 1 demo_paths))) by (repeat constructor; intros Hx; inversion Hx).
  assert (Hl : m_loadErr (manifest_load demo_files (take 1 demo_paths) demo_empty) = None) by (vm_compute; reflexivity).
  pose proof (manifest_refines_map demo_files (take 1 demo_paths) demo_empty demo_refreshes Hn Hl) as Ht. cbv zeta in Ht. fold m in Ht. destruct Ht as (H1 & H2 & _ & H3 & _).
  split; [vm_compute; reflexivity|]. rewrite <-H1 in H2. split; [exact H2|]. split; [exact (H3 1)|]. split; [vm_compute; reflexivity|]. split; vm_compute; reflexivity.
Defined.

(** ** Where the comments say more than the code does *)

(** When a segment ends earlier than the one before it, which the comment on
    [SegmentForTimeUS] allows for, the binary search can miss the first segment that
    reaches a time, and [LookbackFloor] looks back less than it should. *)
Definition timed_segment (idx minW maxW : Z) : SegmentMetadata :=
  mkMeta idx "" (10 * idx + 1) (10 * idx + 9) minW maxW 0 (mkHeader 1 1 9 1 (10 * idx + 1) (10 * idx + 9) minW maxW 0 0 0 0 0 1) [] None [] [] [] [].
Definition skewed : Manifest := mkManifest [timed_segment 0 1 5; timed_segment 1 1 3; timed_segment 2 6 10] 1 None.

Example SegmentForTimeUS_not_least : validateSegmentSeqMonotonicity (m_segments skewed) = Ok tt ∧ sm_MaxWitnessedAt <$> SegmentByIdx 0 skewed = Some 5 ∧
  sm_Idx <$> SegmentForTimeUS 4 skewed = Some 2 ∧ LookbackFloor 14 10 skewed = (21, 6).
Proof. vm_compute. by split_and!. Qed.

(** Empty segments, which the check of the sequence numbers passes over, are in the list
    that [SegmentForSeq] searches: one whose bounds reach over its neighbour's is found
    for the neighbour's numbers, and one with zero bounds can hide the numbers before it. *)
Definition bounded_segment (idx minS maxS count : Z) : SegmentMetadata :=
  mkMeta idx "" minS maxS 0 0 0 (mkHeader 1 1 count 1 minS maxS 0 0 0 0 0 0 0 1) [] None [] [] [] [].
Definition overreached : Manifest := mkManifest [bounded_segment 0 1 10 10; bounded_segment 1 1 100 0; bounded_segment 2 11 20 10] 2 None.
Definition hollow : Manifest := mkManifest [bounded_segment 0 1 10 10; bounded_segment 1 0 0 0] 1 None.

Example SegmentForSeq_finds_empty :
  validateSegmentSeqMonotonicity (m_segments overreached) = Ok tt ∧ sm_Idx <$> SegmentForSeq 15 overreached = Some 1 ∧
  validateSegmentSeqMonotonicity (m_segments hollow) = Ok tt ∧ sm_Idx <$> SegmentForSeq 5 hollow = None.
Proof. vm_compute. by split_and!. Qed.

(** A commit without a collection passes the matcher's collection filter, but the index
    of collections does not list it, so that its block is not planned. *)
Definition bare_commit : Event := mkEvent 1 1001 2001 7 KindCreate "did:plc:a" "" "r1" "3k" [x01]%byte.
Definition bare_manifest : Manifest :=
  manifest_load {[ "seg_0000000000.jss" := demo_content [[bare_commit]; [demo_event 2]] ]} [(0, "seg_0000000000.jss")] demo_empty.
Definition bare_request : planRequest := mkPlanRequest [] [] ["org.hypercerts.claim"] 0 None.

Example bare_commit_not_planned : wantsSegment (newMatcher bare_request) bare_commit = true ∧
  match planner_archivePlan (planSnapshotHandler demo_config bare_manifest) bare_request with
  | Ok plan => map pe_Blocks (ap_Entries plan) = [[(1, 1)]] ∧ ap_PlannedThroughSeq plan = 2
  | Err _ => False
  end.
Proof. vm_compute. by split_and!. Qed.
